(* ===== verification/_CoqProject ===== *)
-Q . S2P
Prelude.v
Text.v
RaftLog.v
RaftDisk.v
RaftNode.v
RaftNodeFacts.v
RaftCluster.v
CpReply.v
AtomicLong.v
AtomicRef.v
CountDownLatch.v
Semaphore.v
FencedLock.v
Session.v
CpMap.v
CpSm.v
CpGroup.v
CpCluster.v
CpWire.v
Fixed.v
Frame.v
Fragment.v
Spsc.v
Framed.v
WanRecord.v
WanQueue.v
WanThread.v
WalRecord.v
Slab.v
FieldValue.v
QueryIndex.v
Table.v
TableFacts.v
TableIndex.v
TableSpec.v
TableQuery.v
TableRun.v
Hlc.v
Hll.v
Partition.v
Schema.v
Extract.v
AuxStore.v
AuxRun.v
KeyLocks.v
AuxState.v
Store.v
StoreRun.v
StoreQuery.v
Recovery.v
StoreLog.v
RecoveryFacts.v
RecoveryRun.v
StoreMerge.v
MemberWire.v
Membership.v
Migration.v
Coordinator.v
SplitBrain.v
Replication.v
Transport.v
Double.v
QueryWire.v
Sql.v
SqlFacts.v
SqlPrint.v
JsonFlat.v
SqlExec.v
Distributed.v
Agg.v
Security.v
Codecs.v
CpCodecs.v
Services.v
Handlers.v
HandlersFacts.v
MemberThread.v
Jet.v
TextProtocols.v
Reactor.v
