(* ===== verification/Prelude.v ===== *)
(** * BonsaiGrid: a verified model of an in-memory data grid

    BonsaiGrid is a member of a Hazelcast-compatible cluster written in Rust.  The reactor
    (crates/server/src/reactor.rs) cuts what a client sends into requests of one of four protocols.  A binary message
    is a sequence of frames (crates/protocol); it is authorized (crates/security), decoded
    (crates/codecs) and dispatched (crates/server/src/handlers.rs) to the partitioned store
    (crates/store), to the query engine (crates/query) or to a CP group (crates/raft), and is answered,
    now or when the backups of a write have acknowledged it.  The member thread
    (crates/server/src/member_thread.rs) talks to the other members (crates/member): replication,
    membership, migration, distributed queries, Raft.  Map mutations go to a write-ahead log
    (crates/persistence) and to the queue of changes for remote clusters (crates/wan), both fed by
    single-producer single-consumer rings (crates/spsc).

    ** Files

    - This file: bytes, machine integers with their wrap-around, little-endian cursors, UTF-8, CRC-32,
      the [outcome] monad and its total-correctness predicate [post].  [Text]: numbers and case of text.
    - Raft (crates/raft/src/log.rs, lib.rs).  [RaftLog]: the log and its two files; [RaftDisk]: recovery.
      [RaftNode]: one definition per method of [RaftNode]; [RaftNodeFacts]: its invariant.
      [RaftCluster]: members over an unreliable network with crashes, and concrete executions.
    - CP objects (crates/raft/src/atomiclong.rs, atomicref.rs, countdownlatch.rs, semaphore.rs,
      fencedlock.rs, session.rs, cpmap.rs): [AtomicLong], [AtomicRef], [CountDownLatch], [Semaphore],
      [FencedLock], [Session], [CpMap], with [CpReply], and their dispatch [CpSm].
    - CP groups (crates/raft/src/cp.rs): [CpGroup] routes operations, [CpCluster] runs a group with
      its clients, [CpWire] is the message codec.
    - Client protocol (crates/protocol/src): [Fixed], [Frame], [Fragment].  Client codecs (crates/codecs/src):
      [Codecs], and [CpCodecs] for the CP objects.
    - [Spsc] (crates/spsc/src/lib.rs): the ring, one step per access to shared memory.
    - WAN replication (crates/wan/src, crates/server/src/wan_thread.rs): [Framed] (logs of framed
      records), [WanRecord], [WanQueue], [WanThread].
    - Persistence (crates/persistence/src, crates/server/src/persist_thread.rs): [WalRecord] (records and
      segments), [Recovery] (snapshots, the directory, recovery, the thread), [StoreLog] and
      [RecoveryFacts] (what a log says of the maps), [RecoveryRun] (store, thread and crashes together).
    - Queries (crates/query/src): [FieldValue], [QueryIndex] (index.rs, eval.rs), [QueryWire] (lib.rs: the
      predicates clients send), [Double] (arithmetic of f64), [Sql] (sql.rs: parser and execution), [SqlFacts],
      [SqlPrint] (what is printed parses), [JsonFlat] (json.rs), [SqlExec] (grouping, joins), [Distributed]
      (distributed.rs: partial aggregates and their wire format), [Agg] (agg.rs).
    - A shard of the store (crates/store/src/slab.rs, lib.rs [Inner]): [Slab], [Table]; [TableFacts],
      [TableIndex], [TableSpec], [TableQuery] prove it against a finite map, [TableRun] states the result
      over runs.
    - The store (crates/store/src/lib.rs [Store]): [Store] (the maps over the shards), [StoreRun] (they are
      one map), [StoreQuery] (paging), [StoreMerge] (replicas); [AuxStore] (queues, lists, sets, multimaps,
      ring buffers, counters, sketches, id generators), [AuxRun] (their log), [AuxState] (the state of a
      partition); [KeyLocks]; [Hlc] (the update-stamp clock, one step per access to its atomic), [Hll].
    - Serialization (crates/serialization/src): [Partition] (lib.rs: hashing to partitions), [Schema]
      (schema.rs: fingerprint, layout), [Extract] (compact.rs: fields of Compact and Portable records).
    - Members (crates/member/src): [MemberWire] (wire.rs), [Replication] (replication.rs), [Transport]
      (transport.rs: the connections, one step per completion of the ring).
    - Cluster (crates/server/src): [Membership] (membership.rs), [Migration] (migration.rs), [Coordinator]
      (cluster_coordinator.rs), [SplitBrain] (a network split and its end), [MemberThread]
      (member_thread.rs: the handler that drives all of them, with the CP groups).
    - [Security] (crates/security/src): permissions, principals, credentials, operation classes.
    - Server (crates/server/src): [Services] (events.rs, txn.rs, executor.rs, catalog.rs), [Handlers]
      (handlers.rs, entry_processor.rs: one definition per group of message types, composed in [dispatch]),
      [HandlersFacts]; [TextProtocols] (resp.rs, memcache.rs: framing, parsing and execution of Redis and
      memcached commands); [Reactor] (reactor.rs: connections and their buffers, one step per completion, against
      the [Service] interface; main.rs, metrics.rs: the member's instance of it).
    - [Jet] (crates/jet/src): processors, windows, joins, sources and sinks, the workers of a job.

    ** What the theorems show

    - Consensus: Election Safety and one vote per term across crashes and restarts; a durable log
      recovers exactly; no member of a CP group panics; every answer is to a submitted operation, and
      goes once to the connection that asked.
    - CP objects: fencing tokens increase, locks are exclusive, sessions end when their lease does
      and hold nothing then; counters, references, latches and semaphores keep their arithmetic;
      the CP map is a set of registers.
    - Codecs: every message, record, predicate and frame survives encoding and decoding; a log cut at
      any byte reads back exactly the records that are whole.
    - WAN: what a target still has to be sent is exactly what it has not acknowledged; a turn of
      the loop with the remotes up delivers it.
    - The ring is a race-free FIFO under every interleaving; so is a member connection.
    - Every client connection is served the requests of its byte stream, each once and in order, and is
      sent the answers to them in that order, however reads, sends and other connections interleave.
    - A memcached compare-and-swap replaces only the value that was read; Redis commands read back as sent.
    - Streams: a window aggregates exactly the events of its key and time; an unbounded join emits exactly
      the pairs with equal keys; the workers of a job end.
    - A shard is a finite map with expiry and eviction: every reply, queries through secondary indexes
      included, is the map's; probes terminate; the table stays linear in the calls served.
    - A store of any number of shards is one such map, and so is the member its clients talk to: the
      bytes of their requests are answered as the map answers them.  A request without permission
      changes nothing; a put with backups is not answered before they are.
    - Replicas that merged the same stamped puts agree.  The structures beside the maps are rebuilt by
      their log and moved whole with their partition; a key's lock is exclusive and fair.
    - Recovery: at every moment of every run of a store, its ring, its persistence thread and crashes,
      the files give back the maps of the running store, up to records that were not flushed, not
      yet written, or dropped by a full ring.
    - Cluster: a failover finds every partition's data on its new owner; the migration plan feeds every
      holder, and its messages carry the entries; a write that was acknowledged is on every backup; a
      member that heartbeats stays, one that is silent is removed, and the oldest survivor takes over.
    - Queries: the parser never panics and reads back what is printed; grouping counts; a distributed
      aggregate is the one of a single member that holds everything.
    - Update stamps order the writes of all members; sketches are sets; every value has a
      partition; the fields of a schema never overlap; field extraction is total.
    - Where the code does not do what it says, a theorem exhibits the run that shows it.

    ** Conventions

    The model is of a release build: integer arithmetic wraps ([wrap_u64] and the like), indexing out of
    range is [Panic].  [HashMap] is [gmap]; where its iteration order is visible, the theorems hold
    for every order or the order is an argument.  Clocks and random numbers are arguments, and so is code
    of other crates (CRC-32, regular expressions, JSON, key derivation, the text of a double), with what
    the code relies on as hypotheses.  Loops without a structural measure carry fuel: a reader of a
    buffer gets the buffer's length, and every iteration consumes at least one byte; a probe gets the
    size of the table, of which less than 7/8 is in use.  Running out of fuel is [Panic] or [None],
    never a result, and the theorems show it does not happen, or on which input it does.  A call of a store is one step, except that
    its record reaches the ring later; in [RecoveryRun] the bounds (2^26 steps, wall clocks below 2^40 ms)
    keep the stamps and the tables inside 64 and 32 bits.

    ** What is not modelled

    Process start-up (main.rs, but for the closures it gives the reactor), which is system calls; TLS
    (crates/security/src/tls.rs), which is a library and the kernel: the transport and the reactor take a session
    as a parameter; the connectors to other systems (connection.rs, cdc.rs, jobs.rs, jdbc.rs, kafka.rs), which are
    loops around their clients; the inbound side of the WAN thread, which is sockets; the test harness
    sim.rs, the JNI bridge and the benchmark. *)

From Stdlib Require Export ZArith Lia String.
From stdpp Require Export base tactics numbers option list gmap sorting relations.
From coqutil Require Export Byte Word.LittleEndianList.

#[global] Set Default Goal Selector "!".
#[global] Open Scope Z_scope.

(** ** Bytes

    [Vec<u8>], [&[u8]] and the contents of a [String] are lists of bytes. *)

Abbreviation bytes := (list byte).

#[global] Instance byte_eq_dec : EqDecision byte.
Proof. intros x y. exact (Byte.byte_eq_dec x y). Defined.

#[global] Program Instance byte_countable : Countable byte :=
  inj_countable Byte.to_N Byte.of_N _.
Next Obligation. intros b. apply Byte.of_to_N. Qed.

(** A byte literal: [b8 3] is [3u8]. *)
Definition b8 (z : Z) : byte := byte.of_Z z.

Abbreviation u8 := byte.unsigned.

Lemma u8_b8 z : 0 <= z < 256 -> u8 (b8 z) = z.
Proof.
  intros H. unfold b8. rewrite byte.unsigned_of_Z. unfold byte.wrap.
  apply Z.mod_small. exact H.
Qed.

Lemma u8_range b : 0 <= u8 b < 256.
Proof. exact (byte.unsigned_range b). Qed.

Lemma b8_u8 b : b8 (u8 b) = b.
Proof. apply byte.of_Z_unsigned. Qed.

(** A byte string literal: [bstr "abc"] is [b"abc"]. *)
Definition bstr (s : string) : bytes := String.list_byte_of_string s.

(** [b as u8] of a boolean, and [x != 0] back. *)
Definition bool_u8 (v : bool) : byte := b8 (if v then 1 else 0).
Definition u8_bool (b : byte) : bool := negb (u8 b =? 0).

Lemma u8_bool_bool_u8 v : u8_bool (bool_u8 v) = v.
Proof. destruct v; reflexivity. Qed.

(** Lengths are [usize]: a non-negative integer. *)
Definition blen {A} (l : list A) : Z := Z.of_nat (length l).

Lemma blen_nonneg {A} (l : list A) : 0 <= blen l.
Proof. unfold blen. lia. Qed.

Lemma blen_app {A} (l k : list A) : blen (l ++ k) = blen l + blen k.
Proof. unfold blen. rewrite length_app. lia. Qed.

Lemma blen_nil {A} : blen ([] : list A) = 0.
Proof. reflexivity. Qed.

Lemma blen_cons {A} (x : A) l : blen (x :: l) = 1 + blen l.
Proof. unfold blen. simpl length. lia. Qed.

(** ** Fixed-width integers

    The modelled semantics is that of a release build: [+], [-], [*] on machine integers wrap,
    array indexing is checked. *)

Definition is_u64 (z : Z) : Prop := 0 <= z < 2 ^ 64.
Definition is_u32 (z : Z) : Prop := 0 <= z < 2 ^ 32.
Definition is_u16 (z : Z) : Prop := 0 <= z < 2 ^ 16.
Definition is_i64 (z : Z) : Prop := - 2 ^ 63 <= z < 2 ^ 63.
Definition is_i32 (z : Z) : Prop := - 2 ^ 31 <= z < 2 ^ 31.

Definition wrap_u64 (z : Z) : Z := z mod 2 ^ 64.
Definition wrap_u32 (z : Z) : Z := z mod 2 ^ 32.

(** Two's complement reduction to [w] bits. *)
Definition wrap_s (w z : Z) : Z := (z + 2 ^ (w - 1)) mod 2 ^ w - 2 ^ (w - 1).
Definition wrap_i64 (z : Z) : Z := wrap_s 64 z.
Definition wrap_i32 (z : Z) : Z := wrap_s 32 z.

(** [a.saturating_sub(b)] on unsigned integers. *)
Definition sat_sub (a b : Z) : Z := Z.max 0 (a - b).

(** [a.saturating_add(b)] on [u64]. *)
Definition sat_add_u64 (a b : Z) : Z := Z.min (2 ^ 64 - 1) (a + b).

#[global] Instance is_u64_dec z : Decision (is_u64 z).
Proof. unfold is_u64. apply _. Defined.
#[global] Instance is_u32_dec z : Decision (is_u32 z).
Proof. unfold is_u32. apply _. Defined.
#[global] Instance is_u16_dec z : Decision (is_u16 z).
Proof. unfold is_u16. apply _. Defined.
#[global] Instance is_i64_dec z : Decision (is_i64 z).
Proof. unfold is_i64. apply _. Defined.
#[global] Instance is_i32_dec z : Decision (is_i32 z).
Proof. unfold is_i32. apply _. Defined.

Lemma wrap_u64_small z : is_u64 z -> wrap_u64 z = z.
Proof. intros H. apply Z.mod_small. exact H. Qed.

Lemma wrap_u32_small z : is_u32 z -> wrap_u32 z = z.
Proof. apply Z.mod_small. Qed.

Lemma wrap_u64_range z : is_u64 (wrap_u64 z).
Proof. apply Z.mod_pos_bound. reflexivity. Qed.

Lemma wrap_s_small w z : 0 < w -> - 2 ^ (w - 1) <= z < 2 ^ (w - 1) -> wrap_s w z = z.
Proof.
  intros Hw H. unfold wrap_s.
  assert (2 ^ w = 2 * 2 ^ (w - 1)) as E.
  { rewrite <- Z.pow_succ_r by lia. f_equal. lia. }
  rewrite Z.mod_small by lia. lia.
Qed.

Lemma wrap_i64_small z : is_i64 z -> wrap_i64 z = z.
Proof. intros H. apply wrap_s_small; [lia | exact H]. Qed.

Lemma wrap_i32_small z : is_i32 z -> wrap_i32 z = z.
Proof. intros H. apply wrap_s_small; [lia | exact H]. Qed.

Lemma wrap_s_range w z : 0 < w -> - 2 ^ (w - 1) <= wrap_s w z < 2 ^ (w - 1).
Proof.
  intros Hw. unfold wrap_s.
  assert (2 ^ w = 2 * 2 ^ (w - 1)) as E.
  { rewrite <- Z.pow_succ_r by lia. f_equal. lia. }
  pose proof (Z.mod_pos_bound (z + 2 ^ (w - 1)) (2 ^ w)) as B.
  assert (0 < 2 ^ w) by (apply Z.pow_pos_nonneg; lia). lia.
Qed.

Lemma wrap_i64_range z : is_i64 (wrap_i64 z).
Proof. exact (wrap_s_range 64 z eq_refl). Qed.

Lemma wrap_i32_range z : is_i32 (wrap_i32 z).
Proof. exact (wrap_s_range 32 z eq_refl). Qed.

Lemma wrap_s_mod w z : 0 < w -> wrap_s w (z mod 2 ^ w) = wrap_s w z.
Proof.
  intros Hw. unfold wrap_s. f_equal.
  rewrite Z.add_mod_idemp_l; [reflexivity |].
  apply Z.pow_nonzero; lia.
Qed.

(** [v.to_le_bytes()] on an [n]-byte integer, signed or not. *)
Definition to_le (n : nat) (v : Z) : bytes := le_split n v.
(** [uN::from_le_bytes] and [iN::from_le_bytes]. *)
Definition from_le_u (b : bytes) : Z := le_combine b.
Definition from_le_i (b : bytes) : Z := wrap_s (8 * blen b) (le_combine b).

Lemma length_to_le n v : length (to_le n v) = n.
Proof. apply length_le_split. Qed.

Lemma blen_to_le n v : blen (to_le n v) = Z.of_nat n.
Proof. unfold blen. rewrite length_to_le. reflexivity. Qed.

Lemma from_le_u_to_le n v : 0 <= v < 2 ^ (8 * Z.of_nat n) -> from_le_u (to_le n v) = v.
Proof.
  intros H. unfold from_le_u, to_le. rewrite le_combine_split.
  replace (Z.of_nat n * 8) with (8 * Z.of_nat n) by lia.
  apply Z.mod_small. exact H.
Qed.

Lemma from_le_i_to_le n v :
  (0 < n)%nat ->
  - 2 ^ (8 * Z.of_nat n - 1) <= v < 2 ^ (8 * Z.of_nat n - 1) ->
  from_le_i (to_le n v) = v.
Proof.
  intros Hn H. unfold from_le_i, to_le. unfold blen. rewrite length_le_split.
  rewrite le_combine_split.
  replace (Z.of_nat n * 8) with (8 * Z.of_nat n) by lia.
  rewrite wrap_s_mod by lia. apply wrap_s_small; [lia | exact H].
Qed.

Lemma from_le_i_to_le_wrap n v :
  (0 < n)%nat -> from_le_i (to_le n v) = wrap_s (8 * Z.of_nat n) v.
Proof.
  intros Hn. unfold from_le_i, to_le, blen. rewrite length_le_split, le_combine_split.
  replace (Z.of_nat n * 8) with (8 * Z.of_nat n) by lia. apply wrap_s_mod. lia.
Qed.

(** [v as i64 as u64] *)
Lemma wrap_u64_wrap_i64 v : wrap_u64 (wrap_i64 v) = wrap_u64 v.
Proof.
  unfold wrap_u64, wrap_i64, wrap_s. rewrite Zminus_mod_idemp_l. f_equal. lia.
Qed.

Lemma from_le_i_range b :
  (0 < length b)%nat -> - 2 ^ (8 * blen b - 1) <= from_le_i b < 2 ^ (8 * blen b - 1).
Proof. intros H. apply wrap_s_range. unfold blen. lia. Qed.

Lemma from_le_u_range b : 0 <= from_le_u b < 2 ^ (8 * blen b).
Proof. apply le_combine_bound. Qed.

Lemma to_le_from_le_u b : to_le (length b) (from_le_u b) = b.
Proof. apply split_le_combine. Qed.

#[global] Opaque to_le from_le_u from_le_i.

(** ** Outcomes

    [Ok x] is a normal return; [Panic] is the unwinding of an out-of-bounds index, a failed
    [unwrap] or a capacity overflow. *)

Inductive outcome (A : Type) : Type :=
| Ok (a : A)
| Panic.
Arguments Ok {A} a.
Arguments Panic {A}.

#[global] Instance outcome_ret : MRet outcome := fun A a => Ok a.
#[global] Instance outcome_bind : MBind outcome :=
  fun A B f m => match m with Ok a => f a | Panic => Panic end.

#[global] Instance outcome_eq_dec {A} `{EqDecision A} : EqDecision (outcome A).
Proof. solve_decision. Defined.

Lemma outcome_bind_Ok {A B} (m : outcome A) (f : A -> outcome B) y :
  m ≫= f = Ok y <-> exists x, m = Ok x /\ f x = Ok y.
Proof.
  destruct m as [a |]; simpl.
  - split; [eauto | intros (? & [= <-] & ?); done].
  - split; [done | intros (? & ? & ?); done].
Qed.

(** [v[i]], reading and writing: out of range panics. *)
Definition index {A} (l : list A) (i : nat) : outcome A :=
  match l !! i with Some x => Ok x | None => Panic end.

Definition set_index {A} (l : list A) (i : nat) (x : A) : outcome (list A) :=
  if decide (i < length l)%nat then Ok (<[i := x]> l) else Panic.

Lemma index_Ok {A} (l : list A) i x : index l i = Ok x <-> l !! i = Some x.
Proof. unfold index. destruct (l !! i); split; congruence. Qed.

Lemma set_index_Ok {A} (l : list A) i x k :
  set_index l i x = Ok k <-> (i < length l)%nat /\ k = <[i := x]> l.
Proof. unfold set_index. case_decide; split; [intros [= <-]; done | intros [_ ->]; done | done | intros [? _]; done]. Qed.

(** Total correctness of a computation: it does not panic and its result satisfies [Q]. *)
Definition post {A} (m : outcome A) (Q : A -> Prop) : Prop :=
  match m with Ok x => Q x | Panic => False end.

Lemma post_bind {A B} (m : outcome A) (f : A -> outcome B) (P : A -> Prop) (Q : B -> Prop) :
  post m P -> (forall x, P x -> post (f x) Q) -> post (m ≫= f) Q.
Proof. destruct m; simpl; [auto | done]. Qed.

Lemma post_mono {A} (m : outcome A) (P Q : A -> Prop) :
  post m P -> (forall x, P x -> Q x) -> post m Q.
Proof. destruct m; simpl; auto. Qed.

Lemma post_Ok {A} (m : outcome A) (Q : A -> Prop) : post m Q <-> exists x, m = Ok x /\ Q x.
Proof.
  destruct m as [a |]; simpl.
  - split; [eauto | intros (? & [= <-] & ?); done].
  - split; [done | intros (? & ? & ?); done].
Qed.

Lemma post_index {A} (l : list A) i :
  (i < length l)%nat -> post (index l i) (fun x => l !! i = Some x).
Proof.
  intros Hi. unfold index. destruct (lookup_lt_is_Some_2 l i Hi) as [x Hx]. rewrite Hx. done.
Qed.

Lemma post_set_index {A} (l : list A) i x :
  (i < length l)%nat -> post (set_index l i x) (fun k => k = <[i := x]> l).
Proof. intros Hi. unfold set_index. rewrite decide_True by done. done. Qed.

(** Inversion of successful monadic code: one hypothesis per statement. *)
Ltac inv_ok :=
  repeat match goal with
  | H : Ok _ = Ok _ |- _ => injection H as H
  | H : Some _ = Some _ |- _ => injection H as H
  | H : (_, _) = (_, _) |- _ => injection H as H
  | H : Panic = Ok _ |- _ => discriminate H
  | H : Ok _ = Panic |- _ => discriminate H
  | H : None = Some _ |- _ => discriminate H
  | H : mret _ = Ok _ |- _ => injection H as H
  | H : _ ≫= _ = Ok _ |- _ =>
      let x := fresh "x" in let E := fresh "E" in
      apply outcome_bind_Ok in H as (x & E & H)
  | H : index _ _ = Ok _ |- _ => apply index_Ok in H
  | H : set_index _ _ _ = Ok _ |- _ => apply set_index_Ok in H as [? ?]
  | H : context [let '(_, _) := ?x in _] |- _ => is_var x; destruct x
  end; subst; simpl in *.

(** ** Cursors

    The readers of the source take a buffer [b] and a position [p: &mut usize].  The model keeps
    the unread suffix [b[p..]]: reading returns the value and the suffix after it. *)

(** [b.get(p..p + n)?] followed by [p += n]. *)
Definition take_n (n : Z) (b : bytes) : option (bytes * bytes) :=
  if n <=? blen b then Some (take (Z.to_nat n) b, drop (Z.to_nat n) b) else None.

Definition get_u (w : nat) (b : bytes) : option (Z * bytes) :=
  '(x, r) ← take_n (Z.of_nat w) b; Some (from_le_u x, r).

Definition get_i (w : nat) (b : bytes) : option (Z * bytes) :=
  '(x, r) ← take_n (Z.of_nat w) b; Some (from_le_i x, r).

(** A single byte: [*b.get(p)?], [p += 1]. *)
Definition get_byte (b : bytes) : option (byte * bytes) :=
  match b with [] => None | x :: r => Some (x, r) end.

(** A blob prefixed by its length in [w] bytes. *)
Definition put_lp (w : nat) (x : bytes) : bytes := to_le w (blen x) ++ x.

Definition get_lp (w : nat) (b : bytes) : option (bytes * bytes) :=
  '(n, r) ← get_u w b; take_n n r.

Lemma take_n_app x r : take_n (blen x) (x ++ r) = Some (x, r).
Proof.
  unfold take_n. rewrite blen_app, (proj2 (Z.leb_le _ _)) by (pose proof (blen_nonneg r); lia).
  unfold blen. rewrite Nat2Z.id, take_app_length, drop_app_length. reflexivity.
Qed.

Lemma take_n_app' n x r : blen x = n -> take_n n (x ++ r) = Some (x, r).
Proof. intros <-. apply take_n_app. Qed.

Lemma get_u_to_le w v r :
  0 <= v < 2 ^ (8 * Z.of_nat w) -> get_u w (to_le w v ++ r) = Some (v, r).
Proof.
  intros H. unfold get_u. rewrite take_n_app' by apply blen_to_le. simpl.
  rewrite from_le_u_to_le by exact H. reflexivity.
Qed.

Lemma get_i_to_le w v r :
  (0 < w)%nat -> - 2 ^ (8 * Z.of_nat w - 1) <= v < 2 ^ (8 * Z.of_nat w - 1) ->
  get_i w (to_le w v ++ r) = Some (v, r).
Proof.
  intros Hw H. unfold get_i. rewrite take_n_app' by apply blen_to_le. simpl.
  rewrite from_le_i_to_le by assumption. reflexivity.
Qed.

Lemma get_lp_put_lp w x r :
  blen x < 2 ^ (8 * Z.of_nat w) -> get_lp w (put_lp w x ++ r) = Some (x, r).
Proof.
  intros H. unfold get_lp, put_lp. rewrite <- app_assoc.
  rewrite get_u_to_le by (pose proof (blen_nonneg x); lia). simpl. apply take_n_app.
Qed.

Lemma take_n_Some n b x r :
  0 <= n -> take_n n b = Some (x, r) <-> b = x ++ r /\ blen x = n.
Proof.
  intros Hn. split.
  - unfold take_n. case (Z.leb_spec n (blen b)); [| done]. intros Hle [= <- <-].
    rewrite take_drop. split; [done |].
    unfold blen in *. rewrite length_take. lia.
  - intros [-> <-]. apply take_n_app.
Qed.

Lemma take_n_short n b : blen b < n -> take_n n b = None.
Proof. intros H. unfold take_n. rewrite (proj2 (Z.leb_gt _ _)) by lia. reflexivity. Qed.

Lemma get_u_range w b v r : get_u w b = Some (v, r) -> 0 <= v < 2 ^ (8 * Z.of_nat w).
Proof.
  unfold get_u. destruct (take_n _ b) as [[x k] |] eqn:E; [| done]. simpl. intros [= <- _].
  apply take_n_Some in E as [_ <-]; [| lia]. apply from_le_u_range.
Qed.

Lemma get_u_short w b : blen b < Z.of_nat w -> get_u w b = None.
Proof. intros H. unfold get_u. by rewrite take_n_short. Qed.

Lemma get_u_blen w b v r : get_u w b = Some (v, r) -> blen b = Z.of_nat w + blen r.
Proof.
  unfold get_u. destruct (take_n _ b) as [[x k] |] eqn:E; [| done]. simpl. intros [= _ <-].
  apply take_n_Some in E as [-> <-]; [| lia]. apply blen_app.
Qed.

Lemma get_i_range w b v r :
  (0 < w)%nat -> get_i w b = Some (v, r) -> - 2 ^ (8 * Z.of_nat w - 1) <= v < 2 ^ (8 * Z.of_nat w - 1).
Proof.
  intros Hw. unfold get_i. destruct (take_n _ b) as [[x k] |] eqn:E; [| done]. simpl. intros [= <- _].
  apply take_n_Some in E as [_ E]; [| lia]. rewrite <- E. apply from_le_i_range. unfold blen in E. lia.
Qed.

Lemma get_i32_range b v r : get_i 4 b = Some (v, r) -> is_i32 v.
Proof. apply get_i_range. lia. Qed.

Lemma get_i64_range b v r : get_i 8 b = Some (v, r) -> is_i64 v.
Proof. apply get_i_range. lia. Qed.

Lemma get_u64_range b v r : get_u 8 b = Some (v, r) -> is_u64 v.
Proof. apply get_u_range. Qed.

Lemma get_u32_range b v r : get_u 4 b = Some (v, r) -> is_u32 v.
Proof. apply get_u_range. Qed.

(** ** UTF-8

    A [String] is the list of its bytes; [std::str::from_utf8] accepts exactly the well-formed
    UTF-8 sequences (no overlong form, no surrogate, at most U+10FFFF). *)

Definition in_range (lo hi : Z) (b : byte) : bool := (lo <=? u8 b) && (u8 b <=? hi).
Definition cont (b : byte) : bool := in_range 128 191 b.

Fixpoint utf8_valid (b : bytes) : bool :=
  match b with
  | [] => true
  | b0 :: r0 =>
    if u8 b0 <? 128 then utf8_valid r0 else
    match r0 with
    | [] => false
    | b1 :: r1 =>
      if in_range 194 223 b0 then cont b1 && utf8_valid r1 else
      match r1 with
      | [] => false
      | b2 :: r2 =>
        if (u8 b0 =? 224) && in_range 160 191 b1
           || (in_range 225 236 b0 || in_range 238 239 b0) && cont b1
           || (u8 b0 =? 237) && in_range 128 159 b1
        then cont b2 && utf8_valid r2 else
        match r2 with
        | [] => false
        | b3 :: r3 =>
          ((u8 b0 =? 240) && in_range 144 191 b1
           || in_range 241 243 b0 && cont b1
           || (u8 b0 =? 244) && in_range 128 143 b1)
          && cont b2 && cont b3 && utf8_valid r3
        end
      end
    end
  end.

(** [std::str::from_utf8(b).ok()] *)
Definition from_utf8 (b : bytes) : option bytes := if utf8_valid b then Some b else None.

Lemma from_utf8_valid s : utf8_valid s = true -> from_utf8 s = Some s.
Proof. unfold from_utf8. intros ->. reflexivity. Qed.

Lemma from_utf8_Some b s : from_utf8 b = Some s -> s = b /\ utf8_valid s = true.
Proof. unfold from_utf8. destruct (utf8_valid b) eqn:E; [| done]. intros [= <-]. done. Qed.

(** ** CRC-32

    [crc32fast::hash] comes from a third-party crate: the model is parametric in it and relies
    only on its documented result type, [u32]. *)

Class Crc32 := {
  crc32 : bytes -> Z;
  crc32_u32 : forall b, is_u32 (crc32 b)
}.

(** The IEEE polynomial, bit by bit, to evaluate examples with. *)
Definition crc_bit (c : Z) : Z :=
  if Z.odd c then Z.lxor (Z.shiftr c 1) 0xEDB88320 else Z.shiftr c 1.

Definition crc_byte (c : Z) (x : byte) : Z := Nat.iter 8 crc_bit (Z.lxor c (u8 x)).

Definition ieee_hash (b : bytes) : Z :=
  Z.lxor (foldl crc_byte 0xFFFFFFFF b) 0xFFFFFFFF mod 2 ^ 32.

Lemma ieee_hash_u32 b : is_u32 (ieee_hash b).
Proof. apply Z.mod_pos_bound. reflexivity. Qed.

Definition ieee_crc32 : Crc32 := {| crc32 := ieee_hash; crc32_u32 := ieee_hash_u32 |}.

Example ieee_check_value : ieee_hash (bstr "123456789") = 0xCBF43926.
Proof. vm_compute. reflexivity. Qed.

(** ** Codecs

    What a message format promises to the components that store or send its values: on the values
    it is meant for, decoding inverts encoding. *)

Class Codec (A : Type) := {
  enc : A -> bytes;
  dec : bytes -> option A;
  enc_ok : A -> Prop;
  dec_enc : forall a, enc_ok a -> dec (enc a) = Some a
}.

Lemma get_byte_cons x r : get_byte (x :: r) = Some (x, r).
Proof. reflexivity. Qed.

Lemma get_i64_to_le v r : is_i64 v -> get_i 8 (to_le 8 v ++ r) = Some (v, r).
Proof. intros H. apply get_i_to_le; [lia | exact H]. Qed.

Lemma get_i32_to_le v r : is_i32 v -> get_i 4 (to_le 4 v ++ r) = Some (v, r).
Proof. intros H. apply get_i_to_le; [lia | exact H]. Qed.

Lemma get_u64_to_le v r : is_u64 v -> get_u 8 (to_le 8 v ++ r) = Some (v, r).
Proof. intros H. apply get_u_to_le. exact H. Qed.

Lemma get_u32_to_le v r : is_u32 v -> get_u 4 (to_le 4 v ++ r) = Some (v, r).
Proof. intros H. apply get_u_to_le. exact H. Qed.

Lemma get_u16_to_le v r : is_u16 v -> get_u 2 (to_le 2 v ++ r) = Some (v, r).
Proof. intros H. apply get_u_to_le. exact H. Qed.

Lemma get_lp32_put_lp x r : is_u32 (blen x) -> get_lp 4 (put_lp 4 x ++ r) = Some (x, r).
Proof. intros H. apply get_lp_put_lp. apply H. Qed.

Lemma get_lp64_put_lp x r : is_u64 (blen x) -> get_lp 8 (put_lp 8 x ++ r) = Some (x, r).
Proof. intros H. apply get_lp_put_lp. apply H. Qed.


Create Rewrite HintDb codec.
#[export] Hint Rewrite <- app_assoc : codec.
#[export] Hint Rewrite get_byte_cons @u8_bool_bool_u8 @app_nil_r : codec.
#[export] Hint Rewrite get_i64_to_le get_i32_to_le get_u64_to_le get_u32_to_le get_u16_to_le
  get_lp32_put_lp get_lp64_put_lp using (solve [assumption | done]) : codec.
#[export] Hint Rewrite u8_b8 using (solve [lia]) : codec.
#[export] Hint Rewrite from_utf8_valid using (solve [assumption | done]) : codec.

(** Runs a decoder over the output of its encoder, one field at a time. *)
Ltac run_codec :=
  repeat (progress (autorewrite with codec; cbn [mbind option_bind app fst snd]));
  try reflexivity.

(** Inverts a successful decoding [H]: one equation per field read, dead branches removed. *)
Ltac inv_dec H :=
  match type of H with ?f _ = _ => unfold f in H end;
  repeat first [progress simplify_option_eq | case_match; try discriminate].

(** The final state and the replies of a deterministic machine over a sequence of inputs. *)
Fixpoint run_all {S C R} (f : S -> C -> S * R) (s : S) (cs : list C) : S * list R :=
  match cs with
  | [] => (s, [])
  | c :: k =>
    let '(s', r) := f s c in
    let '(s'', rs) := run_all f s' k in (s'', r :: rs)
  end.

Lemma run_all_app {S C R} (f : S -> C -> S * R) s cs ds :
  run_all f s (cs ++ ds) =
    let '(s1, r1) := run_all f s cs in
    let '(s2, r2) := run_all f s1 ds in (s2, r1 ++ r2).
Proof.
  revert s. induction cs as [| c cs IH]; intros s; simpl.
  - destruct (run_all f s ds). reflexivity.
  - destruct (f s c) as [s' r]. rewrite IH. destruct (run_all f s' cs) as [s1 r1].
    destruct (run_all f s1 ds). reflexivity.
Qed.

Lemma run_all_invariant {S C R} (f : S -> C -> S * R) (I : S -> Prop) (ok : C -> Prop) s cs :
  I s -> Forall ok cs -> (forall s c, I s -> ok c -> I (fst (f s c))) -> I (fst (run_all f s cs)).
Proof.
  intros Hs Hcs Hstep. revert s Hs. induction Hcs as [| c cs Hc _ IH]; intros s Hs; simpl; [done |].
  pose proof (Hstep s c Hs Hc) as H. destruct (f s c) as [s' r]. specialize (IH s' H).
  destruct (run_all f s' cs). exact IH.
Qed.

(** [String::from_utf8_lossy]: every maximal ill-formed subsequence becomes U+FFFD. *)
Definition replacement : bytes := [b8 0xEF; b8 0xBF; b8 0xBD].

(** The second byte that a three- or four-byte lead allows. *)
Definition lead3 (b0 b1 : byte) : bool :=
  (u8 b0 =? 224) && in_range 160 191 b1
  || (in_range 225 236 b0 || in_range 238 239 b0) && cont b1
  || (u8 b0 =? 237) && in_range 128 159 b1.

Definition lead4 (b0 b1 : byte) : bool :=
  (u8 b0 =? 240) && in_range 144 191 b1
  || in_range 241 243 b0 && cont b1
  || (u8 b0 =? 244) && in_range 128 143 b1.

Fixpoint from_utf8_lossy (b : bytes) : bytes :=
  match b with
  | [] => []
  | b0 :: r0 =>
    if u8 b0 <? 128 then b0 :: from_utf8_lossy r0 else
    match r0 with
    | [] => replacement
    | b1 :: r1 =>
      if in_range 194 223 b0 then
        if cont b1 then b0 :: b1 :: from_utf8_lossy r1 else replacement ++ from_utf8_lossy r0
      else if lead3 b0 b1 then
        match r1 with
        | [] => replacement
        | b2 :: r2 =>
          if cont b2 then b0 :: b1 :: b2 :: from_utf8_lossy r2 else replacement ++ from_utf8_lossy r1
        end
      else if lead4 b0 b1 then
        match r1 with
        | [] => replacement
        | b2 :: r2 =>
          if cont b2 then
            match r2 with
            | [] => replacement
            | b3 :: r3 =>
              if cont b3 then b0 :: b1 :: b2 :: b3 :: from_utf8_lossy r3
              else replacement ++ from_utf8_lossy r2
            end
          else replacement ++ from_utf8_lossy r1
        end
      else replacement ++ from_utf8_lossy r0
    end
  end.

(** A valid string is unchanged. *)
Lemma from_utf8_lossy_valid b : utf8_valid b = true -> from_utf8_lossy b = b.
Proof.
  induction b as [b IH] using (induction_ltof1 _ (@length byte)). unfold ltof in IH.
  destruct b as [| b0 r0]; [done |]. cbn [utf8_valid from_utf8_lossy].
  case_match; [intros Hv; f_equal; apply IH; [simpl; lia | done] |].
  destruct r0 as [| b1 r1]; [done |].
  case_match; [intros [-> Hv]%andb_true_iff; do 2 f_equal; apply IH; [simpl; lia | done] |].
  destruct r1 as [| b2 r2]; [done |]. fold (lead3 b0 b1).
  destruct (lead3 b0 b1); [intros [-> Hv]%andb_true_iff; do 3 f_equal; apply IH; [simpl; lia | done] |].
  destruct r2 as [| b3 r3]; [done |]. fold (lead4 b0 b1).
  intros [[[-> ->]%andb_true_iff ->]%andb_true_iff Hv]%andb_true_iff.
  do 4 f_equal. apply IH; [simpl; lia | done].
Qed.
