(* ===== verification/Text.v ===== *)
(** * Text: what the sources use of [str] beyond its bytes *)

From S2P Require Import Prelude.

(** [s.to_ascii_lowercase()] *)
Definition to_ascii_lowercase (s : bytes) : bytes := map (fun b => if in_range 65 90 b then b8 (u8 b + 32) else b) s.

(** [s.starts_with(p)] *)
Definition starts_with (p s : bytes) : bool := bool_decide (take (length p) s = p).

(** [s.strip_suffix(c)] for an ASCII character [c]. *)
Definition strip_suffix (c : byte) (s : bytes) : option bytes :=
  match rev s with x :: r => if decide (x = c) then Some (rev r) else None | [] => None end.

(** [s.get(from..to)]: both ends in range and between characters. *)
Definition is_char_boundary (s : bytes) (i : nat) : bool :=
  match s !! i with Some b => negb (cont b) | None => (i =? length s)%nat end.
Definition str_get (s : bytes) (from to : nat) : option bytes :=
  if (from <=? to)%nat && is_char_boundary s from && is_char_boundary s to then Some (take (to - from) (drop from s)) else None.

Lemma starts_with_spec p s : starts_with p s = true <-> p `prefix_of` s.
Proof.
  unfold starts_with. rewrite bool_decide_eq_true. split.
  - intros E. exists (drop (length p) s). rewrite <- E at 1. by rewrite take_drop.
  - intros [r ->]. by rewrite take_app_length.
Qed.

Lemma strip_suffix_spec c s p : strip_suffix c s = Some p <-> s = p ++ [c].
Proof.
  unfold strip_suffix. rewrite <- (rev_involutive s) at 2. destruct (rev s) as [| x r].
  - split; [done | intros E; by destruct p].
  - cbn [rev]. case_decide as Hx.
    + subst x. split; [intros [= <-]; done | intros [-> _]%app_inj_tail; done].
    + split; [done | intros [_ ->]%app_inj_tail; done].
Qed.

(** ** Hexadecimal digits *)

(** [c.to_digit(16)] *)
Definition hex_digit (b : byte) : option Z :=
  if in_range 48 57 b then Some (u8 b - 48)
  else if in_range 97 102 b then Some (u8 b - 87)
  else if in_range 65 70 b then Some (u8 b - 55)
  else None.

(** The digit of [format!("{:x}")]. *)
Definition to_hex_digit (d : Z) : byte := b8 (if d <? 10 then 48 + d else 87 + d).

Lemma hex_digit_to_hex d : 0 <= d < 16 -> hex_digit (to_hex_digit d) = Some d.
Proof.
  intros H. assert (d = 0 \/ d = 1 \/ d = 2 \/ d = 3 \/ d = 4 \/ d = 5 \/ d = 6 \/ d = 7 \/ d = 8 \/ d = 9 \/ d = 10
    \/ d = 11 \/ d = 12 \/ d = 13 \/ d = 14 \/ d = 15) as Hd by lia.
  repeat destruct Hd as [-> | Hd]; [by vm_compute .. | subst; by vm_compute].
Qed.

Lemma to_hex_digit_ascii d : 0 <= d < 16 -> 48 <= u8 (to_hex_digit d) < 103.
Proof. intros H. unfold to_hex_digit. destruct (Z.ltb_spec d 10); rewrite u8_b8; lia. Qed.

(** * Decimal numbers: [to_string] and [parse] of the integer types *)

Definition digit (d : Z) : byte := b8 (48 + d).
Definition is_ascii_digit (b : byte) : bool := in_range 48 57 b.
Definition digit_val (b : byte) : Z := u8 b - 48.

Fixpoint digits (fuel : nat) (n : Z) : bytes :=
  match fuel with
  | O => []
  | S fuel' => if n <? 10 then [digit n] else digits fuel' (n / 10) ++ [digit (n mod 10)]
  end.

(** A natural number has no more decimal than binary digits. *)
Definition nat_to_string (n : Z) : bytes := digits (S (Z.to_nat (Z.log2 n))) n.
Definition int_to_string (z : Z) : bytes :=
  if z <? 0 then b8 45 :: nat_to_string (- z) else nat_to_string z.

Definition value_of (b : bytes) : Z := foldl (fun acc x => acc * 10 + digit_val x) 0 b.

(** Digits only, at least one. *)
Definition parse_nat (b : bytes) : option Z :=
  match b with [] => None | _ => if forallb is_ascii_digit b then Some (value_of b) else None end.

Definition in_bounds (lo hi : Z) (z : Z) : option Z := if (lo <=? z) && (z <=? hi) then Some z else None.

(** [s.parse::<i64>()]: an optional sign, digits, and the range. *)
Definition parse_i64 (b : bytes) : option Z :=
  match b with
  | x :: r =>
    if u8 x =? 45 then n ← parse_nat r; in_bounds (- 2 ^ 63) (2 ^ 63 - 1) (- n)
    else if u8 x =? 43 then n ← parse_nat r; in_bounds (- 2 ^ 63) (2 ^ 63 - 1) n
    else n ← parse_nat b; in_bounds (- 2 ^ 63) (2 ^ 63 - 1) n
  | [] => None
  end.

(** [s.parse::<u64>()] and [s.parse::<usize>()]: no minus. *)
Definition parse_u64 (b : bytes) : option Z :=
  match b with
  | x :: r => n ← parse_nat (if u8 x =? 43 then r else b); in_bounds 0 (2 ^ 64 - 1) n
  | [] => None
  end.

(** ** Round trips *)

Lemma u8_digit d : 0 <= d < 10 -> u8 (digit d) = 48 + d.
Proof. intros. apply u8_b8. lia. Qed.

Lemma is_ascii_digit_digit d : 0 <= d < 10 -> is_ascii_digit (digit d) = true.
Proof. intros. unfold is_ascii_digit, in_range. rewrite u8_digit by done. apply andb_true_intro. lia. Qed.

Lemma digits_ok fuel n :
  0 <= n -> n < 10 ^ Z.of_nat fuel ->
  value_of (digits fuel n) = n /\ forallb is_ascii_digit (digits fuel n) = true.
Proof.
  revert n. induction fuel as [| fuel IH]; intros n Hn Hf; [change (10 ^ Z.of_nat 0) with 1 in Hf; cbn; split; [lia | done] |].
  cbn [digits]. destruct (Z.ltb_spec n 10).
  - cbn [value_of foldl forallb]. unfold value_of. cbn [foldl]. unfold digit_val.
    rewrite u8_digit, is_ascii_digit_digit by lia. split; [lia | done].
  - assert (0 <= n / 10) by (apply Z.div_pos; lia). pose proof (Z.mod_pos_bound n 10 ltac:(lia)).
    destruct (IH (n / 10)) as [Hv Ha]; [done | |].
    { rewrite Nat2Z.inj_succ, Z.pow_succ_r in Hf by lia. apply Z.div_lt_upper_bound; lia. }
    unfold value_of in *. rewrite foldl_app, Hv, forallb_app, Ha. cbn [foldl forallb]. unfold digit_val.
    rewrite u8_digit, is_ascii_digit_digit by lia. split; [pose proof (Z.div_mod n 10); lia | done].
Qed.

Lemma pow_10_ge k : 2 ^ Z.of_nat k <= 10 ^ Z.of_nat k.
Proof. apply Z.pow_le_mono_l. lia. Qed.

Lemma nat_to_string_ok n :
  0 <= n -> value_of (nat_to_string n) = n /\ forallb is_ascii_digit (nat_to_string n) = true.
Proof.
  intros Hn. apply digits_ok; [done |]. rewrite Nat2Z.inj_succ, Z2Nat.id by apply Z.log2_nonneg.
  destruct (Z.eq_dec n 0) as [-> |]; [done |]. destruct (Z.log2_spec n) as [_ H]; [lia |].
  eapply Z.lt_le_trans; [exact H |]. pose proof (Z.log2_nonneg n). pose proof (pow_10_ge (Z.to_nat (Z.succ (Z.log2 n)))) as Hp.
  rewrite Z2Nat.id in Hp by lia. exact Hp.
Qed.

Lemma nat_to_string_cons n : exists x r, nat_to_string n = x :: r.
Proof.
  unfold nat_to_string. cbn [digits]. case_match; [eauto |].
  destruct (digits _ (n / 10)) as [| x r]; cbn; eauto.
Qed.

Lemma parse_nat_to_string n : 0 <= n -> parse_nat (nat_to_string n) = Some n.
Proof.
  intros Hn. destruct (nat_to_string_ok n Hn) as [Hv Ha]. destruct (nat_to_string_cons n) as (x & r & E).
  rewrite E in *. unfold parse_nat. by rewrite Ha, Hv.
Qed.

Lemma digit_no_sign n x r : 0 <= n -> nat_to_string n = x :: r -> 48 <= u8 x <= 57.
Proof.
  intros Hn E. destruct (nat_to_string_ok n Hn) as [_ Ha]. rewrite E in Ha. cbn in Ha.
  apply andb_true_iff in Ha as [Hx _]. unfold is_ascii_digit, in_range in Hx. lia.
Qed.

Lemma parse_i64_to_string z : is_i64 z -> parse_i64 (int_to_string z) = Some z.
Proof.
  intros Hz. unfold is_i64 in Hz. unfold int_to_string, parse_i64. destruct (Z.ltb_spec z 0).
  - change (u8 (b8 45) =? 45) with true. cbv iota. rewrite parse_nat_to_string by lia. cbn [mbind option_bind]. rewrite Z.opp_involutive. unfold in_bounds.
    rewrite (proj2 (andb_true_iff _ _)); [done | lia].
  - destruct (nat_to_string_cons z) as (x & r & E). rewrite E. pose proof (digit_no_sign z x r ltac:(lia) E).
    destruct (Z.eqb_spec (u8 x) 45); [lia |]. destruct (Z.eqb_spec (u8 x) 43); [lia |].
    rewrite <- E, parse_nat_to_string by lia. cbn [mbind option_bind]. unfold in_bounds. rewrite (proj2 (andb_true_iff _ _)); [done | lia].
Qed.

Lemma parse_u64_to_string z : is_u64 z -> parse_u64 (nat_to_string z) = Some z.
Proof.
  intros Hz. unfold is_u64 in Hz. unfold parse_u64.
  destruct (nat_to_string_cons z) as (x & r & E). rewrite E. pose proof (digit_no_sign z x r ltac:(lia) E).
  destruct (Z.eqb_spec (u8 x) 43); [lia |].
  rewrite <- E, parse_nat_to_string by lia. cbn [mbind option_bind]. unfold in_bounds. rewrite (proj2 (andb_true_iff _ _)); [done | lia].
Qed.
