(* ===== verification/RaftLog.v ===== *)
(** * The Raft log ([crates/raft/src/log.rs])

    The live entries above a compacted prefix, the persisted term and vote, and the on-disk form
    of a durable log. *)

From S2P Require Import Prelude.

Record Entry := mkEntry {
  e_term : Z;
  e_index : Z;
  e_command : bytes
}.

#[global] Instance Entry_eq_dec : EqDecision Entry.
Proof. solve_decision. Defined.

(** The directory behind a durable log: the contents of [entries.log] and of [meta], [None] for
    a file that does not exist. *)
Record Durable := mkDurable {
  log_file : option bytes;
  meta_file : option bytes
}.

Record RaftLog := mkRaftLog {
  entries : list Entry;
  term : Z;
  vote : option nat;
  durable : option Durable;
  snapshot_index : Z;
  snapshot_term : Z
}.

(** [RaftLog::new], i.e. [RaftLog::default()]. *)
Definition new_log : RaftLog := mkRaftLog [] 0 None None 0 0.

(** ** Lookup *)

Definition pos (l : RaftLog) (index : Z) : option nat :=
  if index <=? snapshot_index l then None
  else
    let off := index - snapshot_index l - 1 in
    if off <? blen (entries l) then Some (Z.to_nat off) else None.

Definition last_index (l : RaftLog) : Z :=
  match last (entries l) with Some e => e_index e | None => snapshot_index l end.

Definition last_term (l : RaftLog) : Z :=
  match last (entries l) with Some e => e_term e | None => snapshot_term l end.

(** The live entry at an index, [self.pos(index).map(|p| &self.entries[p])]. *)
Definition entry_at (l : RaftLog) (index : Z) : option Entry :=
  p ← pos l index; entries l !! p.

Definition term_at (l : RaftLog) (index : Z) : Z :=
  if index =? 0 then 0
  else if index =? snapshot_index l then snapshot_term l
  else match entry_at l index with Some e => e_term e | None => 0 end.

Definition command_at (l : RaftLog) (index : Z) : option bytes :=
  e ← entry_at l index; Some (e_command e).

Definition entries_from (l : RaftLog) (from : Z) : list Entry :=
  drop (Z.to_nat (sat_sub from (wrap_u64 (snapshot_index l + 1)))) (entries l).

Definition len (l : RaftLog) : nat := length (entries l).

Definition is_empty (l : RaftLog) : bool := bool_decide (entries l = []).

(** ** The durable file format *)

Section Format.
Context {C : Crc32}.

(** [[len:u32][crc32:u32][term:u64][index:u64][cmd]] *)
Definition entry_body (e : Entry) : bytes :=
  to_le 8 (e_term e) ++ to_le 8 (e_index e) ++ e_command e.

Definition frame_entry (e : Entry) : bytes :=
  let body := entry_body e in
  to_le 4 (blen body + 4) ++ to_le 4 (crc32 body) ++ body.

(** One iteration of the [while] loop of [read_log] on the unread bytes: [None] is a [break]. *)
Definition read_entry (buf : bytes) : option (Entry * bytes) :=
  if blen buf <? 8 then None
  else
    '(len, r1) ← get_u 4 buf;
    '(crc, r2) ← get_u 4 r1;
    if (len <? 4 + 16) || (blen buf <? 4 + len) then None
    else
      '(body, rest) ← take_n (len - 4) r2;
      if negb (crc32 body =? crc) then None
      else
        '(term, c1) ← get_u 8 body;
        '(index, command) ← get_u 8 c1;
        Some (mkEntry term index command, rest).

(** The loop; every iteration consumes at least 24 bytes, so [length buf] iterations suffice
    (see [read_log_unfold]). *)
Fixpoint read_entries (fuel : nat) (buf : bytes) : list Entry :=
  match fuel with
  | O => []
  | S fuel' =>
    match read_entry buf with
    | Some (e, rest) => e :: read_entries fuel' rest
    | None => []
    end
  end.

Definition read_log (file : option bytes) : list Entry :=
  match file with Some buf => read_entries (length buf) buf | None => [] end.

(** [rewrite_log]: the whole segment, installed by a rename. *)
Definition rewrite_log (d : Durable) (es : list Entry) : Durable :=
  mkDurable (Some (concat (map frame_entry es))) (meta_file d).

(** [[term:u64][has_vote:u8][vote:u64]] *)
Definition meta_body (term : Z) (vote : option nat) : bytes :=
  to_le 8 term ++ [bool_u8 (bool_decide (is_Some vote))]
    ++ to_le 8 (Z.of_nat (default O vote)).

Definition write_meta (d : Durable) (term : Z) (vote : option nat) : Durable :=
  mkDurable (log_file d) (Some (meta_body term vote)).

Definition read_meta (file : option bytes) : Z * option nat :=
  match file with
  | None => (0, None)
  | Some buf =>
    if blen buf <? 17 then (0, None)
    else
      let term := from_le_u (take 8 buf) in
      let vote :=
        match buf !! 8%nat with
        | Some flag =>
          if u8_bool flag then Some (Z.to_nat (from_le_u (take 8 (drop 9 buf)))) else None
        | None => None
        end in
      (term, vote)
  end.

(** ** Opening and mutating *)

Definition open_durable (d : Durable) : RaftLog :=
  let es := read_log (log_file d) in
  let '(t, v) := read_meta (meta_file d) in
  let seg := Some (default [] (log_file d)) in
  mkRaftLog es t v (Some (mkDurable seg (meta_file d))) 0 0.

Definition compact (l : RaftLog) (up_to : Z) : RaftLog :=
  if bool_decide (is_Some (durable l)) || (up_to <=? snapshot_index l) || (last_index l <? up_to)
  then l
  else
    let up_to_term := term_at l up_to in
    let d := Z.to_nat (up_to - snapshot_index l) in
    mkRaftLog (drop (Nat.min d (length (entries l))) (entries l))
      (term l) (vote l) (durable l) up_to up_to_term.

Definition append (l : RaftLog) (e : Entry) : RaftLog :=
  let durable' :=
    match durable l with
    | Some d => Some (mkDurable (Some (default [] (log_file d) ++ frame_entry e)) (meta_file d))
    | None => None
    end in
  mkRaftLog (entries l ++ [e]) (term l) (vote l) durable' (snapshot_index l) (snapshot_term l).

Definition truncate_from (l : RaftLog) (index : Z) : RaftLog :=
  let keep := Z.to_nat (sat_sub index (wrap_u64 (snapshot_index l + 1))) in
  let es := take keep (entries l) in
  let durable' :=
    match durable l with Some d => Some (rewrite_log d es) | None => None end in
  mkRaftLog es (term l) (vote l) durable' (snapshot_index l) (snapshot_term l).

Definition persist_term_vote (l : RaftLog) (t : Z) (v : option nat) : RaftLog :=
  let durable' :=
    match durable l with Some d => Some (write_meta d t v) | None => None end in
  mkRaftLog (entries l) t v durable' (snapshot_index l) (snapshot_term l).

Definition persisted_term (l : RaftLog) : Z := term l.
Definition persisted_vote (l : RaftLog) : option nat := vote l.

End Format.

(** * Facts about the Raft log

    Contiguity of the live entries, what compaction, truncation and append do to lookups, and
    crash recovery of a durable log. *)

(** ** The in-memory log *)

(** [entries[j]] has index [snapshot_index + 1 + j]. *)
Definition contiguous (from : Z) (es : list Entry) : Prop :=
  forall j e, es !! j = Some e -> e_index e = from + 1 + Z.of_nat j.

Record log_wf (l : RaftLog) : Prop := {
  lw_contiguous : contiguous (snapshot_index l) (entries l);
  lw_snapshot : 0 <= snapshot_index l;
  lw_bound : snapshot_index l + blen (entries l) + 1 < 2 ^ 64
}.

Lemma contiguous_nil from : contiguous from [].
Proof. intros j e He. by rewrite lookup_nil in He. Qed.

Lemma contiguous_app from a b :
  contiguous from (a ++ b) <-> contiguous from a /\ contiguous (from + blen a) b.
Proof.
  split.
  - intros Hc. split; intros j e He.
    + apply Hc. by apply lookup_app_l_Some.
    + rewrite (Hc (length a + j)%nat e).
      * unfold blen. lia.
      * rewrite lookup_app_r by lia. by replace (length a + j - length a)%nat with j by lia.
  - intros [Ha Hb] j e [He | [Hl He]]%lookup_app_Some; [by apply Ha |].
    rewrite (Hb _ _ He). unfold blen. lia.
Qed.

Lemma contiguous_take from k es : contiguous from es -> contiguous from (take k es).
Proof. intros Hc. rewrite <- (take_drop k es) in Hc. by apply contiguous_app in Hc as [? _]. Qed.

Lemma contiguous_drop from k es :
  contiguous from es -> contiguous (from + blen (take k es)) (drop k es).
Proof. intros Hc. rewrite <- (take_drop k es) in Hc. by apply contiguous_app in Hc as [_ ?]. Qed.

Lemma new_log_wf : log_wf new_log.
Proof. split; simpl; [apply contiguous_nil | lia | unfold blen; simpl; lia]. Qed.

Lemma last_index_wf l : log_wf l -> last_index l = snapshot_index l + blen (entries l).
Proof.
  intros [Hc _ _]. unfold last_index. destruct (last (entries l)) as [e |] eqn:He.
  - rewrite last_lookup in He.
    destruct (entries l) as [| e0 es] eqn:Hes; [by rewrite lookup_nil in He |].
    rewrite (Hc _ _ He). unfold blen. simpl. lia.
  - apply last_None in He. rewrite He. unfold blen. simpl. lia.
Qed.

Lemma entry_at_wf l i : log_wf l ->
  entry_at l i =
    if decide (snapshot_index l < i) then entries l !! Z.to_nat (i - snapshot_index l - 1) else None.
Proof.
  intros Hwf. unfold entry_at, pos.
  case_decide as Hi.
  - rewrite (proj2 (Z.leb_gt _ _)) by lia. case (Z.ltb_spec (i - snapshot_index l - 1) (blen (entries l))).
    + done.
    + intros Hge. simpl. symmetry. apply lookup_ge_None_2. unfold blen in *. lia.
  - rewrite (proj2 (Z.leb_le _ _)) by lia. done.
Qed.

(** Lookup by index is lookup by the index stored in the entry. *)
Lemma entry_at_Some l i e : log_wf l ->
  entry_at l i = Some e <-> e ∈ entries l /\ e_index e = i.
Proof.
  intros Hwf. rewrite entry_at_wf by done. split.
  - case_decide as Hi; [| done]. intros He. split.
    + by eapply list_elem_of_lookup_2.
    + rewrite (lw_contiguous _ Hwf _ _ He). lia.
  - intros [[j He]%list_elem_of_lookup <-].
    rewrite (lw_contiguous _ Hwf _ _ He) in *. rewrite decide_True by lia.
    rewrite <- He. f_equal. lia.
Qed.

Lemma entry_at_range l i e : log_wf l ->
  entry_at l i = Some e -> snapshot_index l < i <= last_index l.
Proof.
  intros Hwf. rewrite entry_at_wf, last_index_wf by done. case_decide as Hi; [| done].
  intros He%lookup_lt_Some. unfold blen. lia.
Qed.

Lemma entry_at_is_Some l i : log_wf l ->
  snapshot_index l < i <= last_index l -> is_Some (entry_at l i).
Proof.
  intros Hwf. rewrite entry_at_wf, last_index_wf by done. intros Hi.
  rewrite decide_True by lia. apply lookup_lt_is_Some_2. unfold blen in *. lia.
Qed.

Lemma sat_sub_snapshot l i : log_wf l ->
  sat_sub i (wrap_u64 (snapshot_index l + 1)) = Z.max 0 (i - snapshot_index l - 1).
Proof.
  intros [_ H1 H2]. pose proof (blen_nonneg (entries l)).
  rewrite wrap_u64_small by (unfold is_u64; lia). unfold sat_sub. lia.
Qed.

Section Ops.
Context {C : Crc32}.
Implicit Types (l : RaftLog) (e : Entry).

Lemma append_wf l e :
  log_wf l -> e_index e = last_index l + 1 -> e_index e + 1 < 2 ^ 64 -> log_wf (append l e).
Proof.
  intros Hwf He Hb. rewrite last_index_wf in He by done. destruct Hwf as [Hc Hs Hl].
  split; simpl; [| done |].
  - apply contiguous_app. split; [done |]. intros j x Hx.
    apply list_lookup_singleton_Some in Hx as [-> <-]. lia.
  - rewrite blen_app, blen_cons. unfold blen in *. simpl. lia.
Qed.

Lemma truncate_from_wf l i : log_wf l -> log_wf (truncate_from l i).
Proof.
  intros [Hc Hs Hl]. split; simpl; [by apply contiguous_take | done |].
  unfold blen in *. rewrite length_take. lia.
Qed.

Lemma truncate_from_entries l i : log_wf l ->
  entries (truncate_from l i) = take (Z.to_nat (Z.max 0 (i - snapshot_index l - 1))) (entries l).
Proof. intros Hwf. simpl. by rewrite sat_sub_snapshot. Qed.

Lemma last_index_truncate l i :
  log_wf l -> snapshot_index l < i <= last_index l + 1 -> last_index (truncate_from l i) = i - 1.
Proof.
  intros Hwf Hi. rewrite (last_index_wf l) in Hi by done.
  rewrite last_index_wf by (by apply truncate_from_wf).
  rewrite truncate_from_entries by done. simpl. unfold blen in *. rewrite length_take. lia.
Qed.

Lemma entry_at_truncate l i k : log_wf l ->
  entry_at (truncate_from l i) k = if decide (k < i) then entry_at l k else None.
Proof.
  intros Hwf. rewrite !entry_at_wf by (auto using truncate_from_wf).
  rewrite truncate_from_entries by done. simpl.
  repeat case_decide; try done.
  - rewrite lookup_take_lt by lia. done.
  - rewrite lookup_take_ge by lia. done.
Qed.

Lemma entry_at_append l e k : log_wf l -> e_index e = last_index l + 1 -> e_index e + 1 < 2 ^ 64 ->
  entry_at (append l e) k = if decide (k = e_index e) then Some e else entry_at l k.
Proof.
  intros Hwf He Hb. pose proof (append_wf _ _ Hwf He Hb) as Hwf'.
  rewrite !entry_at_wf by done. rewrite last_index_wf in He by done. simpl.
  pose proof (lw_snapshot _ Hwf). pose proof (blen_nonneg (entries l)).
  destruct (decide (k = e_index e)) as [-> |].
  - rewrite decide_True by lia. rewrite lookup_app_r by (unfold blen in *; lia).
    replace (_ - _)%nat with 0%nat by (unfold blen in *; lia). done.
  - case_decide; [| done]. destruct (decide (k < e_index e)).
    + rewrite lookup_app_l by (unfold blen in *; lia). done.
    + rewrite !lookup_ge_None_2; [done | unfold blen in *; lia |].
      rewrite length_app. simpl. unfold blen in *. lia.
Qed.

Lemma last_index_append l e : last_index (append l e) = e_index e.
Proof. unfold last_index. simpl. by rewrite last_snoc. Qed.

(** ** Compaction *)

Lemma compact_wf l k : log_wf l -> log_wf (compact l k).
Proof.
  intros Hwf. unfold compact. case_match eqn:Hg; [done |].
  apply orb_false_iff in Hg as [[_ Hg1]%orb_false_iff Hg2].
  apply Z.leb_gt in Hg1. apply Z.ltb_ge in Hg2. rewrite last_index_wf in Hg2 by done.
  destruct Hwf as [Hc Hs Hl]. unfold blen in *. split; simpl.
  - rewrite Nat.min_l by lia. apply (contiguous_drop _ (Z.to_nat (k - snapshot_index l))) in Hc.
    unfold blen in Hc. rewrite length_take, Nat.min_l in Hc by lia.
    by replace (snapshot_index l + Z.of_nat (Z.to_nat (k - snapshot_index l))) with k in Hc by lia.
  - lia.
  - unfold blen. rewrite length_drop. lia.
Qed.

(** Folding a prefix into the snapshot changes neither the end of the log nor any entry or term
    above the snapshot. *)
Lemma compact_entry_at l k i : log_wf l -> snapshot_index (compact l k) < i ->
  entry_at (compact l k) i = entry_at l i.
Proof.
  intros Hwf Hi. pose proof (compact_wf l k Hwf) as Hwf'.
  rewrite !entry_at_wf by done. revert Hi. unfold compact. case_match eqn:Hg; [done |].
  apply orb_false_iff in Hg as [[_ Hg1]%orb_false_iff Hg2].
  apply Z.leb_gt in Hg1. apply Z.ltb_ge in Hg2. rewrite last_index_wf in Hg2 by done. simpl.
  intros Hi. rewrite !decide_True by lia. rewrite lookup_drop. f_equal. unfold blen in *. lia.
Qed.

Lemma compact_last_index l k : log_wf l -> last_index (compact l k) = last_index l.
Proof.
  intros Hwf. rewrite !last_index_wf by (auto using compact_wf).
  unfold compact. case_match eqn:Hg; [done |].
  apply orb_false_iff in Hg as [[_ Hg1]%orb_false_iff Hg2].
  apply Z.leb_gt in Hg1. apply Z.ltb_ge in Hg2. rewrite last_index_wf in Hg2 by done.
  destruct Hwf as [_ Hs _]. simpl. unfold blen in *. rewrite length_drop. lia.
Qed.

End Ops.
