(* ===== verification/RaftDisk.v ===== *)
(** * Crash recovery of a durable Raft log

    The framed segment and the meta file of [log.rs]: what [open_durable] rebuilds from the
    directory is the log that was in memory, and a record torn by a crash is dropped. *)

From S2P Require Import Prelude RaftLog.

Definition entry_ok (e : Entry) : Prop :=
  is_u64 (e_term e) /\ is_u64 (e_index e) /\ blen (e_command e) < 2 ^ 32 - 20.

#[global] Instance entry_ok_dec e : Decision (entry_ok e).
Proof. unfold entry_ok. apply _. Defined.

(** The mutations of a log, with their arguments. *)
Inductive log_op :=
| OpAppend (e : Entry)
| OpTruncate (index : Z)
| OpCompact (up_to : Z)
| OpPersist (t : Z) (v : option nat).

Definition op_ok (o : log_op) : Prop :=
  match o with
  | OpAppend e => entry_ok e
  | OpPersist t v => is_u64 t /\ is_u64 (Z.of_nat (default O v))
  | _ => True
  end.

#[global] Instance op_ok_dec o : Decision (op_ok o).
Proof. destruct o; simpl; apply _. Defined.

Section Disk.
Context {C : Crc32}.

Definition run_op (l : RaftLog) (o : log_op) : RaftLog :=
  match o with
  | OpAppend e => append l e
  | OpTruncate i => truncate_from l i
  | OpCompact k => compact l k
  | OpPersist t v => persist_term_vote l t v
  end.

(** What the directory of a durable log holds. *)
Record disk_ok (l : RaftLog) : Prop := {
  dk_entries : Forall entry_ok (entries l);
  dk_files : forall d, durable l = Some d ->
    snapshot_index l = 0 /\ snapshot_term l = 0 /\
    log_file d = Some (concat (map frame_entry (entries l))) /\
    read_meta (meta_file d) = (RaftLog.term l, vote l)
}.

(** ** The frame *)

Lemma blen_entry_body e : blen (entry_body e) = 16 + blen (e_command e).
Proof. unfold entry_body. rewrite !blen_app, !blen_to_le. lia. Qed.

Lemma blen_frame_entry e : blen (frame_entry e) = 24 + blen (e_command e).
Proof. unfold frame_entry. rewrite !blen_app, !blen_to_le, blen_entry_body. lia. Qed.

Lemma read_entry_frame e rest :
  entry_ok e -> read_entry (frame_entry e ++ rest) = Some (e, rest).
Proof.
  intros (Ht & Hi & Hc). pose proof (blen_nonneg (e_command e)). pose proof (blen_nonneg rest).
  unfold read_entry. rewrite blen_app, blen_frame_entry.
  rewrite (proj2 (Z.ltb_ge _ _)) by lia.
  unfold frame_entry. rewrite <- !app_assoc.
  rewrite get_u_to_le by (rewrite blen_entry_body; simpl; lia). simpl.
  rewrite get_u_to_le by apply crc32_u32. simpl.
  rewrite blen_entry_body.
  rewrite (proj2 (orb_false_iff _ _)) by (split; apply Z.ltb_ge; lia).
  rewrite take_n_app' by (rewrite blen_entry_body; lia). simpl.
  rewrite Z.eqb_refl. simpl. unfold entry_body.
  rewrite get_u_to_le by exact Ht. simpl.
  rewrite get_u_to_le by exact Hi. simpl.
  by destruct e.
Qed.

Lemma take_app_prefix (p q rest a b : bytes) :
  p ++ q = a ++ b -> blen a <= blen p -> exists c, p = a ++ c /\ b = c ++ q.
Proof.
  intros E Hle. unfold blen in Hle. apply app_eq_inv in E as [(k & -> & ->) | (k & -> & ->)].
  - exists k. done.
  - rewrite length_app in Hle. assert (k = []) as -> by (destruct k; [done | simpl in Hle; lia]).
    exists []. by rewrite !app_nil_r.
Qed.

(** A proper prefix of a frame is a torn tail. *)
Lemma read_entry_torn e p q :
  entry_ok e -> frame_entry e = p ++ q -> q <> [] -> read_entry p = None.
Proof.
  intros (Ht & Hi & Hc) E Hq. unfold read_entry.
  case (Z.ltb_spec (blen p) 8) as [| Hp]; [done |].
  assert (blen p < 24 + blen (e_command e)) as Hlt.
  { rewrite <- blen_frame_entry, E, blen_app. unfold blen. destruct q; [done | simpl; lia]. }
  pose proof (blen_nonneg (e_command e)).
  unfold frame_entry in E.
  symmetry in E. apply (take_app_prefix _ _ []) in E as (c & -> & E); [| rewrite blen_to_le; lia].
  rewrite get_u_to_le by (rewrite blen_entry_body; simpl; lia). simpl.
  rewrite blen_app, blen_to_le in *.
  destruct (get_u 4 c) as [[crc r] |]; [| done]. simpl. rewrite blen_entry_body.
  rewrite (proj2 (orb_true_iff _ _)); [done |]. right. apply Z.ltb_lt. lia.
Qed.

Lemma read_entries_frames es tail fuel :
  Forall entry_ok es -> (length es <= fuel)%nat ->
  read_entries fuel (concat (map frame_entry es) ++ tail)
  = es ++ read_entries (fuel - length es) tail.
Proof.
  revert fuel. induction es as [| e es IH]; intros fuel Hok Hf; simpl.
  { by rewrite Nat.sub_0_r. }
  apply Forall_cons in Hok as [He Hes]. simpl in Hf.
  destruct fuel as [| fuel]; [lia |]. simpl. rewrite <- app_assoc.
  rewrite read_entry_frame by done. rewrite IH by (auto; lia). done.
Qed.

Lemma length_frames es : (length es <= length (concat (map frame_entry es)))%nat.
Proof.
  induction es as [| e es IH]; simpl; [lia |]. rewrite length_app.
  pose proof (blen_frame_entry e). pose proof (blen_nonneg (e_command e)). unfold blen in *. lia.
Qed.

(** The fuel of [read_log] is enough: it reads on exactly until [read_entry] breaks. *)
Lemma read_entry_consumes buf e rest : read_entry buf = Some (e, rest) -> (length rest < length buf)%nat.
Proof.
  unfold read_entry. case_match; [done |].
  destruct (get_u 4 buf) as [[len r1] |] eqn:E1; [| done]. simpl.
  destruct (get_u 4 r1) as [[crc r2] |] eqn:E2; [| done]. simpl.
  case_match eqn:Hg; [done |]. apply orb_false_iff in Hg as [Hg _]. apply Z.ltb_ge in Hg.
  destruct (take_n (len - 4) r2) as [[body r3] |] eqn:E3; [| done]. simpl.
  case_match; [done |].
  destruct (get_u 8 body) as [[t c1] |]; [| done]. simpl.
  destruct (get_u 8 c1) as [[i c] |]; [| done]. simpl. intros [= _ <-].
  unfold get_u in E1, E2.
  destruct (take_n (Z.of_nat 4) buf) as [[x1 y1] |] eqn:F1; [| done]. injection E1 as _ <-.
  destruct (take_n (Z.of_nat 4) y1) as [[x2 y2] |] eqn:F2; [| done]. injection E2 as _ <-.
  apply take_n_Some in F1 as [-> F1]; [| lia]. apply take_n_Some in F2 as [-> F2]; [| lia].
  apply take_n_Some in E3 as [-> E3]; [| lia]. rewrite !length_app.
  unfold blen in *. lia.
Qed.

Lemma read_entries_fuel f1 f2 buf :
  (length buf <= f1)%nat -> (length buf <= f2)%nat -> read_entries f1 buf = read_entries f2 buf.
Proof.
  revert f2 buf. induction f1 as [| f1 IH]; intros f2 buf H1 H2; destruct f2 as [| f2]; simpl; auto.
  - destruct buf; [done | simpl in H1; lia].
  - destruct buf; [done | simpl in H2; lia].
  - destruct (read_entry buf) as [[e rest] |] eqn:E; [| done].
    apply read_entry_consumes in E. f_equal. apply IH; lia.
Qed.

Lemma read_log_unfold buf :
  read_log (Some buf) =
    match read_entry buf with Some (e, rest) => e :: read_log (Some rest) | None => [] end.
Proof.
  unfold read_log. destruct buf as [| b buf]; [done |]. cbn [length].
  cbn [read_entries]. destruct (read_entry (b :: buf)) as [[e rest] |] eqn:E; [| done].
  apply read_entry_consumes in E. simpl in E. f_equal. apply read_entries_fuel; lia.
Qed.

Lemma read_log_frames es tail :
  Forall entry_ok es ->
  read_log (Some (concat (map frame_entry es) ++ tail)) = es ++ read_log (Some tail).
Proof.
  induction es as [| e es IH]; intros Hok; [done |].
  apply Forall_cons in Hok as [He Hes]. rewrite read_log_unfold.
  cbn [map List.concat]. rewrite <- app_assoc, read_entry_frame by done. by rewrite IH.
Qed.

(** ** The meta file *)

Lemma read_meta_body t v :
  is_u64 t -> is_u64 (Z.of_nat (default O v)) -> read_meta (Some (meta_body t v)) = (t, v).
Proof.
  intros Ht Hv. unfold read_meta.
  assert (blen (meta_body t v) = 17) as Hl.
  { unfold meta_body. rewrite !blen_app, !blen_to_le. unfold blen. simpl. lia. }
  rewrite (proj2 (Z.ltb_ge _ _)) by lia.
  unfold meta_body. rewrite (take_app_length' _ _ 8) by (by rewrite length_to_le).
  rewrite from_le_u_to_le by exact Ht. f_equal.
  assert (forall f b, drop 9 (to_le 8 t ++ [f] ++ b) = b) as ->.
  { intros f b. rewrite app_assoc. apply drop_app_length'. by rewrite length_app, length_to_le. }
  rewrite lookup_app_r by (rewrite length_to_le; lia). rewrite length_to_le. simpl.
  rewrite u8_bool_bool_u8. case_bool_decide as Hs.
  - rewrite take_ge by (rewrite length_to_le; lia).
    rewrite from_le_u_to_le by exact Hv. rewrite Nat2Z.id. by destruct Hs as [x ->].
  - destruct v; [| done]. exfalso. eauto.
Qed.

(** The meta file alone holds the term and the vote. *)
Definition meta_ok (l : RaftLog) : Prop :=
  forall d, durable l = Some d -> read_meta (meta_file d) = (persisted_term l, persisted_vote l).

Lemma persist_term_vote_meta_ok l t v :
  is_u64 t -> (forall c, v = Some c -> is_u64 (Z.of_nat c)) -> meta_ok (persist_term_vote l t v).
Proof.
  intros Ht Hv d. simpl. destruct (durable l); [| done]. intros [= <-].
  apply read_meta_body; [done |]. destruct v as [c |]; [by apply Hv | unfold is_u64; simpl; lia].
Qed.

Lemma append_meta_ok l e : meta_ok l -> meta_ok (append l e).
Proof. intros Hm d. simpl. destruct (durable l) eqn:E; [| done]. intros [= <-]. exact (Hm _ E). Qed.

Lemma truncate_from_meta_ok l i : meta_ok l -> meta_ok (truncate_from l i).
Proof. intros Hm d. simpl. destruct (durable l) eqn:E; [| done]. intros [= <-]. exact (Hm _ E). Qed.

Lemma compact_meta_ok l k : meta_ok l -> meta_ok (compact l k).
Proof. intros Hm. unfold compact. case_match; [done |]. intros d. exact (Hm d). Qed.

Lemma open_durable_persisted d :
  read_meta (meta_file d) = (persisted_term (open_durable d), persisted_vote (open_durable d)).
Proof. unfold open_durable. by destruct (read_meta (meta_file d)). Qed.

Lemma open_durable_meta_ok d : meta_ok (open_durable d).
Proof.
  intros d'. unfold open_durable. destruct (read_meta (meta_file d)) eqn:E. by intros [= <-].
Qed.

(** ** Recovery *)

Lemma run_op_disk_ok l o : op_ok o -> disk_ok l -> disk_ok (run_op l o).
Proof.
  intros Ho [He Hd]. destruct o as [e | i | k | t v]; simpl in *.
  - split; simpl.
    + apply Forall_app. split; [done | by apply Forall_singleton].
    + intros d. destruct (durable l) as [d0 |] eqn:E; [| done]. intros [= <-].
      destruct (Hd d0 eq_refl) as (? & ? & -> & ?). simpl.
      by rewrite map_app, concat_app; simpl; rewrite app_nil_r.
  - split; simpl; [by apply Forall_take |].
    intros d. destruct (durable l) as [d0 |] eqn:E; [| done]. intros [= <-].
    destruct (Hd d0 eq_refl) as (? & ? & _ & ?). done.
  - unfold compact. destruct (durable l) as [d0 |] eqn:E.
    + rewrite bool_decide_eq_true_2 by eauto. split; [done |]. simpl. by rewrite E.
    + case_match; [by split; [| rewrite E] |]. split; simpl; [by apply Forall_drop | done].
  - split; simpl; [done |].
    intros d. destruct (durable l) as [d0 |] eqn:E; [| done]. intros [= <-].
    destruct (Hd d0 eq_refl) as (? & ? & ? & _). simpl. split_and!; auto.
    destruct Ho. by apply read_meta_body.
Qed.

Lemma run_ops_disk_ok os l : Forall op_ok os -> disk_ok l -> disk_ok (foldl run_op l os).
Proof.
  revert l. induction os as [| o os IH]; intros l Ho Hl; [done |].
  apply Forall_cons in Ho as [? ?]. simpl. apply IH; [done |]. by apply run_op_disk_ok.
Qed.

Lemma open_durable_disk_ok l d :
  disk_ok l -> durable l = Some d -> open_durable d = l.
Proof.
  intros [He Hd] E. destruct (Hd d E) as (Hs & Hst & Hf & Hm). unfold open_durable.
  rewrite Hm, Hf.
  pose proof (read_log_frames (entries l) [] He) as Hr.
  change (read_log (Some [])) with (@nil Entry) in Hr.
  rewrite !app_nil_r in Hr. rewrite Hr.
  destruct l; simpl in *; subst. destruct d; simpl in *; subst. done.
Qed.

Lemma open_fresh_disk_ok : disk_ok (open_durable (mkDurable None None)).
Proof.
  split; simpl; [constructor |]. intros d [= <-]. done.
Qed.

(** C2. Whatever sequence of appends, truncations, compactions and term/vote updates a node makes
    on a durable log, reopening its directory after a crash rebuilds exactly the log it had. *)
Theorem durable_log_recovers (os : list log_op) :
  Forall op_ok os ->
  let l := foldl run_op (open_durable (mkDurable None None)) os in
  exists d, durable l = Some d /\ open_durable d = l.
Proof.
  intros Ho l. assert (disk_ok l) as Hl by (by apply run_ops_disk_ok, open_fresh_disk_ok).
  destruct (durable l) as [d |] eqn:E.
  - exists d. split; [done |]. by apply open_durable_disk_ok.
  - exfalso. revert E. subst l. clear.
    assert (is_Some (durable (open_durable (mkDurable None None)))) as Hs by (simpl; eauto).
    revert Hs. generalize (open_durable (mkDurable None None)).
    induction os as [| o os IH]; simpl; intros l [d Hd]; [congruence |].
    apply IH. destruct o; simpl; rewrite ?Hd; eauto.
    unfold compact. rewrite Hd. simpl. eauto.
Qed.

(** A crash in the middle of an append leaves a proper prefix of the new record at the end of
    the segment: reopening returns every complete record, and nothing of the torn one. *)
Theorem torn_append_dropped (l : RaftLog) (d : Durable) (e : Entry) (p q : bytes) :
  disk_ok l -> durable l = Some d -> entry_ok e ->
  frame_entry e = p ++ q -> q <> [] ->
  let d' := mkDurable (Some (default [] (log_file d) ++ p)) (meta_file d) in
  entries (open_durable d') = entries l /\
  persisted_term (open_durable d') = persisted_term l /\
  persisted_vote (open_durable d') = persisted_vote l.
Proof.
  intros [He Hd] E Hok Hf Hq d'. destruct (Hd d E) as (_ & _ & Hlf & Hm).
  assert (log_file d' = Some (concat (map frame_entry (entries l)) ++ p)) as Hlf'
    by (unfold d'; by rewrite Hlf).
  unfold open_durable. rewrite Hlf', read_log_frames by done.
  change (meta_file d') with (meta_file d). rewrite Hm.
  rewrite read_log_unfold, (read_entry_torn e p q) by done. simpl.
  by rewrite app_nil_r.
Qed.

End Disk.

(** ** Examples, with the IEEE hash *)

#[local] Existing Instance ieee_crc32.

Definition ex_ops : list log_op :=
  [OpPersist 1 (Some 2%nat); OpAppend (mkEntry 1 1 (bstr "a")); OpAppend (mkEntry 1 2 (bstr "bc"));
   OpTruncate 2; OpPersist 3 None; OpAppend (mkEntry 3 2 (bstr "d"))].

Definition ex_log : RaftLog := foldl run_op (open_durable (mkDurable None None)) ex_ops.

Lemma durable_log_recovers_witness :
  entries ex_log = [mkEntry 1 1 (bstr "a"); mkEntry 3 2 (bstr "d")] /\
  exists d, durable ex_log = Some d /\ open_durable d = ex_log.
Proof.
  split; [vm_compute; reflexivity |].
  apply (durable_log_recovers ex_ops).
  apply (bool_decide_unpack _). vm_compute. exact I.
Defined.

Definition ex_torn : Entry := mkEntry 3 3 (bstr "e").

Lemma ex_log_disk_ok : disk_ok ex_log.
Proof.
  apply run_ops_disk_ok; [| apply open_fresh_disk_ok].
  apply (bool_decide_unpack _). vm_compute. exact I.
Qed.

Lemma torn_append_dropped_witness :
  let d := default (mkDurable None None) (durable ex_log) in
  entries (open_durable (mkDurable (Some (default [] (log_file d) ++ take 9 (frame_entry ex_torn)))
    (meta_file d))) = entries ex_log.
Proof.
  intros d.
  apply (torn_append_dropped ex_log d ex_torn (take 9 (frame_entry ex_torn))
    (drop 9 (frame_entry ex_torn))).
  - exact ex_log_disk_ok.
  - vm_compute. reflexivity.
  - apply (bool_decide_unpack _). vm_compute. exact I.
  - symmetry. apply take_drop.
  - vm_compute. discriminate.
Defined.

(** The torn bytes stay in the segment when the log is reopened, and the segment is opened for
    appending: the next entry a node appends after such a crash, although written and synced, is
    behind the torn bytes and is not there after a second restart. *)
Theorem append_after_torn_tail_is_lost :
  let d := default (mkDurable None None) (durable ex_log) in
  let crashed := mkDurable (Some (default [] (log_file d) ++ take 9 (frame_entry ex_torn)))
                   (meta_file d) in
  let reopened := append (open_durable crashed) (mkEntry 4 3 (bstr "f")) in
  entries reopened = entries ex_log ++ [mkEntry 4 3 (bstr "f")] /\
  entries (open_durable (default crashed (durable reopened))) = entries ex_log.
Proof. split; vm_compute; reflexivity. Qed.
