(* ===== verification/RaftNode.v ===== *)
(** * The Raft consensus core ([crates/raft/src/lib.rs])

    One definition per method of [RaftNode].  A method that takes [&mut self] and
    [out: &mut Vec<(NodeId, RaftMsg)>] returns the new node and the messages it pushed. *)

From S2P Require Import Prelude RaftLog.

(** ** Messages and node state *)

Inductive RaftMsg :=
| RequestVote (term : Z) (candidate : nat) (last_log_index last_log_term : Z)
| RequestVoteResp (term : Z) (granted : bool)
| AppendEntries (term : Z) (leader : nat) (prev_log_index prev_log_term : Z)
    (entries : list Entry) (leader_commit : Z)
| AppendEntriesResp (term : Z) (success : bool) (match_index : Z).

#[global] Instance RaftMsg_eq_dec : EqDecision RaftMsg.
Proof. solve_decision. Defined.

Inductive Role := Follower | Candidate | Leader.

#[global] Instance Role_eq_dec : EqDecision Role.
Proof. solve_decision. Defined.

Record RaftNode := mkNode {
  id : nat;
  peers : list nat;
  role : Role;
  current_term : Z;
  voted_for : option nat;
  log : RaftLog;
  commit_index : Z;
  last_applied : Z;
  leader : option nat;
  votes : list bool;
  next_index : list Z;
  match_index : list Z;
  elapsed : Z;
  election_timeout : Z;
  heartbeat_period : Z;
  contacted : list bool;
  since_majority : Z;
  rng : Z
}.

Abbreviation msgs := (list (nat * RaftMsg)).

(** Field assignments [self.f = x]. *)
Definition set_role x n := mkNode (id n) (peers n) x (current_term n) (voted_for n) (log n)
  (commit_index n) (last_applied n) (leader n) (votes n) (next_index n) (match_index n)
  (elapsed n) (election_timeout n) (heartbeat_period n) (contacted n) (since_majority n) (rng n).
Definition set_current_term x n := mkNode (id n) (peers n) (role n) x (voted_for n) (log n)
  (commit_index n) (last_applied n) (leader n) (votes n) (next_index n) (match_index n)
  (elapsed n) (election_timeout n) (heartbeat_period n) (contacted n) (since_majority n) (rng n).
Definition set_voted_for x n := mkNode (id n) (peers n) (role n) (current_term n) x (log n)
  (commit_index n) (last_applied n) (leader n) (votes n) (next_index n) (match_index n)
  (elapsed n) (election_timeout n) (heartbeat_period n) (contacted n) (since_majority n) (rng n).
Definition set_log x n := mkNode (id n) (peers n) (role n) (current_term n) (voted_for n) x
  (commit_index n) (last_applied n) (leader n) (votes n) (next_index n) (match_index n)
  (elapsed n) (election_timeout n) (heartbeat_period n) (contacted n) (since_majority n) (rng n).
Definition set_commit_index x n := mkNode (id n) (peers n) (role n) (current_term n) (voted_for n)
  (log n) x (last_applied n) (leader n) (votes n) (next_index n) (match_index n)
  (elapsed n) (election_timeout n) (heartbeat_period n) (contacted n) (since_majority n) (rng n).
Definition set_last_applied x n := mkNode (id n) (peers n) (role n) (current_term n) (voted_for n)
  (log n) (commit_index n) x (leader n) (votes n) (next_index n) (match_index n)
  (elapsed n) (election_timeout n) (heartbeat_period n) (contacted n) (since_majority n) (rng n).
Definition set_leader x n := mkNode (id n) (peers n) (role n) (current_term n) (voted_for n)
  (log n) (commit_index n) (last_applied n) x (votes n) (next_index n) (match_index n)
  (elapsed n) (election_timeout n) (heartbeat_period n) (contacted n) (since_majority n) (rng n).
Definition set_votes x n := mkNode (id n) (peers n) (role n) (current_term n) (voted_for n)
  (log n) (commit_index n) (last_applied n) (leader n) x (next_index n) (match_index n)
  (elapsed n) (election_timeout n) (heartbeat_period n) (contacted n) (since_majority n) (rng n).
Definition set_next_index x n := mkNode (id n) (peers n) (role n) (current_term n) (voted_for n)
  (log n) (commit_index n) (last_applied n) (leader n) (votes n) x (match_index n)
  (elapsed n) (election_timeout n) (heartbeat_period n) (contacted n) (since_majority n) (rng n).
Definition set_match_index x n := mkNode (id n) (peers n) (role n) (current_term n) (voted_for n)
  (log n) (commit_index n) (last_applied n) (leader n) (votes n) (next_index n) x
  (elapsed n) (election_timeout n) (heartbeat_period n) (contacted n) (since_majority n) (rng n).
Definition set_elapsed x n := mkNode (id n) (peers n) (role n) (current_term n) (voted_for n)
  (log n) (commit_index n) (last_applied n) (leader n) (votes n) (next_index n) (match_index n)
  x (election_timeout n) (heartbeat_period n) (contacted n) (since_majority n) (rng n).
Definition set_election_timeout x n := mkNode (id n) (peers n) (role n) (current_term n)
  (voted_for n) (log n) (commit_index n) (last_applied n) (leader n) (votes n) (next_index n)
  (match_index n) (elapsed n) x (heartbeat_period n) (contacted n) (since_majority n) (rng n).
Definition set_hb_period x n := mkNode (id n) (peers n) (role n) (current_term n) (voted_for n)
  (log n) (commit_index n) (last_applied n) (leader n) (votes n) (next_index n) (match_index n)
  (elapsed n) (election_timeout n) x (contacted n) (since_majority n) (rng n).
Definition set_contacted x n := mkNode (id n) (peers n) (role n) (current_term n) (voted_for n)
  (log n) (commit_index n) (last_applied n) (leader n) (votes n) (next_index n) (match_index n)
  (elapsed n) (election_timeout n) (heartbeat_period n) x (since_majority n) (rng n).
Definition set_since_majority x n := mkNode (id n) (peers n) (role n) (current_term n)
  (voted_for n) (log n) (commit_index n) (last_applied n) (leader n) (votes n) (next_index n)
  (match_index n) (elapsed n) (election_timeout n) (heartbeat_period n) (contacted n) x (rng n).
Definition set_rng x n := mkNode (id n) (peers n) (role n) (current_term n) (voted_for n)
  (log n) (commit_index n) (last_applied n) (leader n) (votes n) (next_index n) (match_index n)
  (elapsed n) (election_timeout n) (heartbeat_period n) (contacted n) (since_majority n) x.

#[global] Arguments set_role _ _ / : assert.
#[global] Arguments set_current_term _ _ / : assert.
#[global] Arguments set_voted_for _ _ / : assert.
#[global] Arguments set_log _ _ / : assert.
#[global] Arguments set_commit_index _ _ / : assert.
#[global] Arguments set_last_applied _ _ / : assert.
#[global] Arguments set_leader _ _ / : assert.
#[global] Arguments set_votes _ _ / : assert.
#[global] Arguments set_next_index _ _ / : assert.
#[global] Arguments set_match_index _ _ / : assert.
#[global] Arguments set_elapsed _ _ / : assert.
#[global] Arguments set_election_timeout _ _ / : assert.
#[global] Arguments set_hb_period _ _ / : assert.
#[global] Arguments set_contacted _ _ / : assert.
#[global] Arguments set_since_majority _ _ / : assert.
#[global] Arguments set_rng _ _ / : assert.

(** ** Timers *)

(** [iter().filter(|&&v| v).count()] *)
Definition count_true (l : list bool) : nat := length (List.filter (fun b : bool => b) l).

Definition majority (n : RaftNode) : nat := (length (peers n) / 2 + 1)%nat.

(** splitmix64: the value and the new generator state. *)
Definition next_rand (s : Z) : Z * Z :=
  let s := wrap_u64 (s + 0x9E3779B97F4A7C15) in
  let z := s in
  let z := wrap_u64 (Z.lxor z (Z.shiftr z 30) * 0xBF58476D1CE4E5B9) in
  let z := wrap_u64 (Z.lxor z (Z.shiftr z 27) * 0x94D049BB133111EB) in
  (Z.lxor z (Z.shiftr z 31), s).

Definition reset_election_timeout (n : RaftNode) : outcome RaftNode :=
  let base := wrap_u64 (10 * Z.max (heartbeat_period n) 1) in
  if base =? 0 then Panic
  else
    let '(r, s) := next_rand (rng n) in
    Ok (set_elapsed 0 (set_election_timeout (wrap_u64 (base + r mod base)) (set_rng s n))).

Definition set_heartbeat_period (ticks : Z) (n : RaftNode) : outcome RaftNode :=
  reset_election_timeout (set_hb_period (Z.max ticks 1) n).

Definition new_node (id : nat) (peers : list nat) (log : RaftLog) (seed : Z) : outcome RaftNode :=
  let n := (foldr Nat.max 0 peers + 1)%nat in
  reset_election_timeout
    (mkNode id peers Follower (persisted_term log) (persisted_vote log) log 0 0 None
      (replicate n false) (replicate n 1) (replicate n 0) 0 0 1 (replicate n false) 0
      (Z.lor (wrap_u64 (seed * 0x9E3779B97F4A7C15)) 1)).

Definition is_leader (n : RaftNode) : bool := bool_decide (role n = Leader).

Definition has_read_lease (n : RaftNode) : bool :=
  is_leader n && (since_majority n <? election_timeout n).

Definition msg_term (m : RaftMsg) : Z :=
  match m with
  | RequestVote t _ _ _ | RequestVoteResp t _ | AppendEntries t _ _ _ _ _
  | AppendEntriesResp t _ _ => t
  end.

(** ** Roles, elections, replication *)

Section Node.
Context {C : Crc32}.

Definition become_follower (t : Z) (n : RaftNode) : outcome RaftNode :=
  let n := set_leader None (set_role Follower (set_voted_for None (set_current_term t n))) in
  reset_election_timeout (set_log (persist_term_vote (log n) (current_term n) (voted_for n)) n).

(** [self.peers.iter().filter(|&&p| self.match_index[p] >= idx).count()] *)
Fixpoint replicas (ps : list nat) (mi : list Z) (idx : Z) : outcome nat :=
  match ps with
  | [] => Ok O
  | p :: ps' =>
    m ← index mi p;
    k ← replicas ps' mi idx;
    Ok (if idx <=? m then S k else k)
  end.

(** The loop of [advance_commit] at [idx], with [k] indices left to visit going down. *)
Fixpoint commit_scan (k : nat) (idx : Z) (n : RaftNode) : outcome RaftNode :=
  match k with
  | O => Ok n
  | S k' =>
    if negb (term_at (log n) idx =? current_term n) then commit_scan k' (idx - 1) n
    else
      r ← replicas (peers n) (match_index n) idx;
      if (majority n <=? r)%nat then Ok (set_commit_index idx n)
      else commit_scan k' (idx - 1) n
  end.

Definition advance_commit (n : RaftNode) : outcome RaftNode :=
  let last := last_index (log n) in
  commit_scan (Z.to_nat (last + 1 - wrap_u64 (commit_index n + 1))) last n.

Definition propose (command : bytes) (n : RaftNode) : outcome (RaftNode * option Z) :=
  if negb (is_leader n) then Ok (n, None)
  else
    let index := wrap_u64 (last_index (log n) + 1) in
    let n := set_log (append (log n) (mkEntry (current_term n) index command)) n in
    mi ← set_index (match_index n) (id n) index;
    n ← advance_commit (set_match_index mi n);
    Ok (n, Some index).

Definition send_append (peer : nat) (n : RaftNode) : outcome msgs :=
  next ← index (next_index n) peer;
  let prev_log_index := wrap_u64 (next - 1) in
  let prev_log_term := term_at (log n) prev_log_index in
  let entries := entries_from (log n) next in
  Ok [(peer, AppendEntries (current_term n) (id n) prev_log_index prev_log_term entries
               (commit_index n))].

Fixpoint broadcast_to (ps : list nat) (n : RaftNode) : outcome msgs :=
  match ps with
  | [] => Ok []
  | p :: ps' =>
    if decide (p = id n) then broadcast_to ps' n
    else
      out ← send_append p n;
      out' ← broadcast_to ps' n;
      Ok (out ++ out')
  end.

Definition broadcast_append (n : RaftNode) : outcome msgs := broadcast_to (peers n) n.

(** [for p in &self.peers { self.next_index[*p] = last + 1; self.match_index[*p] = 0; }] *)
Fixpoint reset_progress (ps : list nat) (last : Z) (ni mi : list Z)
    : outcome (list Z * list Z) :=
  match ps with
  | [] => Ok (ni, mi)
  | p :: ps' =>
    ni ← set_index ni p (wrap_u64 (last + 1));
    mi ← set_index mi p 0;
    reset_progress ps' last ni mi
  end.

(** A fresh contact round: clear everyone, count self. *)
Definition fresh_contact (n : RaftNode) : outcome RaftNode :=
  c ← set_index (map (fun _ => false) (contacted n)) (id n) true;
  Ok (set_contacted c n).

Definition maybe_become_leader (n : RaftNode) : outcome (RaftNode * msgs) :=
  if negb (bool_decide (role n = Candidate)) then Ok (n, [])
  else if (majority n <=? count_true (votes n))%nat then
    let n := set_leader (Some (id n)) (set_role Leader n) in
    let last := last_index (log n) in
    '(ni, mi) ← reset_progress (peers n) last (next_index n) (match_index n);
    mi ← set_index mi (id n) last;
    n ← fresh_contact (set_match_index mi (set_next_index ni n));
    let sm := if (majority n <=? count_true (contacted n))%nat then 0 else election_timeout n in
    let n := set_elapsed (heartbeat_period n) (set_since_majority sm n) in
    out ← broadcast_append n;
    Ok (n, out)
  else Ok (n, []).

(** The [RequestVote]s of an election, to every peer but self. *)
Definition vote_requests (n : RaftNode) : msgs :=
  map (fun p => (p, RequestVote (current_term n) (id n) (last_index (log n)) (last_term (log n))))
    (List.filter (fun p => negb (Nat.eqb p (id n))) (peers n)).

Definition start_election (n : RaftNode) : outcome (RaftNode * msgs) :=
  let n := set_current_term (wrap_u64 (current_term n + 1)) n in
  let n := set_leader None (set_voted_for (Some (id n)) (set_role Candidate n)) in
  let n := set_log (persist_term_vote (log n) (current_term n) (voted_for n)) n in
  vs ← set_index (map (fun _ => false) (votes n)) (id n) true;
  n ← reset_election_timeout (set_votes vs n);
  let reqs := vote_requests n in
  '(n, out) ← maybe_become_leader n;
  Ok (n, reqs ++ out).

Definition tick (n : RaftNode) : outcome (RaftNode * msgs) :=
  let n := set_elapsed (wrap_u64 (elapsed n + 1)) n in
  match role n with
  | Leader =>
    let n := set_since_majority (sat_add_u64 (since_majority n) 1) n in
    if heartbeat_period n <=? elapsed n then
      n ← fresh_contact (set_elapsed 0 n);
      out ← broadcast_append n;
      Ok (n, out)
    else Ok (n, [])
  | Follower | Candidate =>
    if election_timeout n <=? elapsed n then start_election n else Ok (n, [])
  end.

(** ** RPC handlers *)

Definition up_to_date (lli llt : Z) (l : RaftLog) : bool :=
  (last_term l <? llt) || ((llt =? last_term l) && (last_index l <=? lli)).

Definition can_vote (candidate : nat) (n : RaftNode) : bool :=
  bool_decide (voted_for n = None) || bool_decide (voted_for n = Some candidate).

Definition on_request_vote (term : Z) (candidate : nat) (lli llt : Z) (n : RaftNode)
    : outcome (RaftNode * msgs) :=
  if (current_term n <=? term) && (can_vote candidate n && up_to_date lli llt (log n)) then
    let n := set_voted_for (Some candidate) n in
    let n := set_log (persist_term_vote (log n) (current_term n) (voted_for n)) n in
    n ← reset_election_timeout n;
    Ok (n, [(candidate, RequestVoteResp (current_term n) true)])
  else Ok (n, [(candidate, RequestVoteResp (current_term n) false)]).

Definition on_vote_resp (from : nat) (term : Z) (granted : bool) (n : RaftNode)
    : outcome (RaftNode * msgs) :=
  if negb (bool_decide (role n = Candidate)) || negb (term =? current_term n) then Ok (n, [])
  else if granted then
    vs ← set_index (votes n) from true;
    maybe_become_leader (set_votes vs n)
  else Ok (n, []).

(** One iteration of the entry loop of [on_append]. *)
Definition append_entry (l : RaftLog) (e : Entry) : RaftLog :=
  if e_index e <=? snapshot_index l then l
  else if (term_at l (e_index e) =? e_term e) && (e_index e <=? last_index l) then l
  else append (truncate_from l (e_index e)) e.

(** The value of [idx] after the loop: the index of the last entry received. *)
Definition last_received (prev_log_index : Z) (es : list Entry) : Z :=
  foldl (fun _ e => e_index e) prev_log_index es.

Definition on_append (term : Z) (ldr : nat) (prev_log_index prev_log_term : Z)
    (es : list Entry) (leader_commit : Z) (n : RaftNode) : outcome (RaftNode * msgs) :=
  if current_term n <=? term then
    let n := if bool_decide (role n = Follower) then n else set_role Follower n in
    n ← reset_election_timeout (set_leader (Some ldr) n);
    if (prev_log_index =? 0) || (prev_log_index <=? snapshot_index (log n))
       || (term_at (log n) prev_log_index =? prev_log_term)
    then
      let n := set_log (foldl append_entry (log n) es) n in
      let mi := Z.max (last_received prev_log_index es) prev_log_index in
      let n :=
        if commit_index n <? leader_commit
        then set_commit_index (Z.min leader_commit (last_index (log n))) n else n in
      Ok (n, [(ldr, AppendEntriesResp (current_term n) true mi)])
    else Ok (n, [(ldr, AppendEntriesResp (current_term n) false 0)])
  else Ok (n, [(ldr, AppendEntriesResp (current_term n) false 0)]).

Definition on_append_resp (from : nat) (term : Z) (success : bool) (mi : Z) (n : RaftNode)
    : outcome (RaftNode * msgs) :=
  if negb (is_leader n) || negb (term =? current_term n) then Ok (n, [])
  else if success then
    old ← index (match_index n) from;
    let m := Z.max old mi in
    match_index' ← set_index (match_index n) from m;
    next_index' ← set_index (next_index n) from (wrap_u64 (m + 1));
    contacted' ← set_index (contacted n) from true;
    let n := set_contacted contacted' (set_next_index next_index' (set_match_index match_index' n)) in
    let n := if (majority n <=? count_true (contacted n))%nat then set_since_majority 0 n else n in
    n ← advance_commit n;
    Ok (n, [])
  else
    old ← index (next_index n) from;
    ni ← set_index (next_index n) from (Z.max (sat_sub old 1) 1);
    let n := set_next_index ni n in
    out ← send_append from n;
    Ok (n, out).

Definition handle (from : nat) (m : RaftMsg) (n : RaftNode) : outcome (RaftNode * msgs) :=
  match m with
  | RequestVote t c lli llt => on_request_vote t c lli llt n
  | RequestVoteResp t g => on_vote_resp from t g n
  | AppendEntries t l pli plt es lc => on_append t l pli plt es lc n
  | AppendEntriesResp t s mi => on_append_resp from t s mi n
  end.

Definition step (from : nat) (m : RaftMsg) (n : RaftNode) : outcome (RaftNode * msgs) :=
  n ← (if current_term n <? msg_term m then become_follower (msg_term m) n else Ok n);
  handle from m n.

(** ** Applying and compacting *)

Fixpoint drain (k : nat) (applied : Z) (l : RaftLog) : list (Z * bytes) :=
  match k with
  | O => []
  | S k' =>
    match command_at l (applied + 1) with
    | Some c => (applied + 1, c) :: drain k' (applied + 1) l
    | None => drain k' (applied + 1) l
    end
  end.

Definition take_committed (n : RaftNode) : RaftNode * list (Z * bytes) :=
  let k := Z.to_nat (commit_index n - last_applied n) in
  (set_last_applied (Z.max (last_applied n) (commit_index n)) n,
   drain k (last_applied n) (log n)).

(** [self.peers.iter().map(|&p| self.match_index[p]).min()] *)
Fixpoint min_match (ps : list nat) (mi : list Z) : outcome (option Z) :=
  match ps with
  | [] => Ok None
  | p :: ps' =>
    m ← index mi p;
    r ← min_match ps' mi;
    Ok (Some (match r with Some k => Z.min m k | None => m end))
  end.

Definition safe_compact_index (n : RaftNode) : outcome Z :=
  if is_leader n then
    m ← min_match (peers n) (match_index n);
    Ok (Z.min (default 0 m) (last_applied n))
  else Ok (last_applied n).

Definition maybe_compact (keep : nat) (n : RaftNode) : outcome RaftNode :=
  if (len (log n) <=? keep)%nat then Ok n
  else
    up_to ← safe_compact_index n;
    Ok (set_log (compact (log n) up_to) n).

End Node.
