(* ===== verification/RaftNodeFacts.v ===== *)
(** * Well-formed Raft nodes

    The invariant of one node, that every method of [RaftNode] keeps it and never panics under
    it, and the facts about terms, votes and grants that the cluster proofs use. *)

From S2P Require Import Prelude RaftLog RaftDisk RaftNode.

(** The length of the per-member vectors of a group. *)
Definition width (N : list nat) : nat := (foldr Nat.max 0 N + 1)%nat.

Lemma width_gt N p : p ∈ N -> (p < width N)%nat.
Proof.
  unfold width. induction N as [| q N IH]; intros Hp; [by apply elem_of_nil in Hp |].
  apply elem_of_cons in Hp as [-> | Hp]; simpl; [lia |]. specialize (IH Hp). lia.
Qed.

Section Wf.
Context {C : Crc32}.

(** A node of group [N].  The last three fields say that what is on disk is what is in memory. *)
Record node_wf (N : list nat) (n : RaftNode) : Prop := {
  wf_peers : peers n = N;
  wf_id : id n ∈ N;
  wf_votes : length (votes n) = width N;
  wf_next : length (next_index n) = width N;
  wf_match : length (match_index n) = width N;
  wf_contacted : length (contacted n) = width N;
  wf_hb : 1 <= heartbeat_period n < 2 ^ 59;
  wf_term : is_u64 (current_term n);
  wf_id64 : is_u64 (Z.of_nat (id n));
  wf_vote : forall c, voted_for n = Some c -> is_u64 (Z.of_nat c);
  wf_meta : meta_ok (log n);
  wf_disk_term : persisted_term (log n) = current_term n;
  wf_disk_vote : persisted_vote (log n) = voted_for n
}.

(** Terms only grow, and within a term a vote once cast stays. *)
Definition vote_mono (n n' : RaftNode) : Prop :=
  current_term n < current_term n' \/
  current_term n = current_term n' /\ (voted_for n = None \/ voted_for n' = voted_for n).

Lemma vote_mono_refl n : vote_mono n n.
Proof. right. auto. Qed.

Lemma vote_mono_trans a b c : vote_mono a b -> vote_mono b c -> vote_mono a c.
Proof.
  unfold vote_mono. intros [H | [H1 H2]] [K | [K1 K2]].
  - left. lia.
  - left. lia.
  - left. lia.
  - right. split; [lia |]. destruct H2 as [-> | H2]; [auto |].
    destruct K2 as [K2 | K2]; [left; congruence | right; congruence].
Qed.

Lemma vote_mono_eq n n' :
  current_term n' = current_term n -> voted_for n' = voted_for n -> vote_mono n n'.
Proof. intros Ht Hv. right. auto. Qed.

(** The fields of a message that a node stores are machine integers. *)
Definition msg_wf (m : RaftMsg) : Prop :=
  is_u64 (msg_term m) /\
  match m with RequestVote _ c _ _ => is_u64 (Z.of_nat c) | _ => True end.

(** What an event may do to the election state of a node.  [G p] says that the event is the
    arrival of a vote from [p] for the node's current term. *)
Record election_step (N : list nat) (G : nat -> Z -> Prop) (n n' : RaftNode) (out : msgs)
    : Prop := {
  es_wf : node_wf N n';
  es_id : id n' = id n;
  es_mono : vote_mono n n';
  es_terms : forall p m, (p, m) ∈ out -> msg_term m = current_term n' /\ msg_wf m;
  es_grant : forall p t, (p, RequestVoteResp t true) ∈ out -> voted_for n' = Some p;
  es_votes : role n' <> Follower -> forall p, votes n' !! p = Some true ->
    (role n <> Follower /\ current_term n' = current_term n /\ votes n !! p = Some true)
    \/ (p = id n' /\ voted_for n' = Some (id n'))
    \/ G p (current_term n');
  es_leader : role n' = Leader ->
    (role n = Leader /\ current_term n' = current_term n /\ votes n' = votes n)
    \/ (majority n' <= count_true (votes n'))%nat;
}.

(** An event that leaves the election state alone. *)
Definition election_frame (n n' : RaftNode) : Prop :=
  id n' = id n /\ peers n' = peers n /\ role n' = role n /\ current_term n' = current_term n /\
  voted_for n' = voted_for n /\ votes n' = votes n /\
  persisted_term (log n') = persisted_term (log n) /\
  persisted_vote (log n') = persisted_vote (log n) /\
  length (next_index n') = length (next_index n) /\
  length (match_index n') = length (match_index n) /\
  length (contacted n') = length (contacted n) /\
  heartbeat_period n' = heartbeat_period n /\
  (meta_ok (log n) -> meta_ok (log n')).

Definition is_grant (m : RaftMsg) : bool :=
  match m with RequestVoteResp _ g => g | _ => false end.

(** Messages of term [t], none of them a vote. *)
Definition plain (t : Z) (out : msgs) : Prop :=
  forall p m, (p, m) ∈ out -> msg_term m = t /\ is_grant m = false /\ (is_u64 t -> msg_wf m).

Lemma election_frame_wf N n n' : election_frame n n' -> node_wf N n -> node_wf N n'.
Proof.
  intros (Hi & ? & ? & ? & Hv & ? & ? & ? & ? & ? & ? & ? & Hm) []. split; try congruence.
  - by rewrite Hv.
  - by apply Hm.
Qed.

Lemma election_frame_step N G n n' out :
  election_frame n n' -> node_wf N n -> plain (current_term n) out -> election_step N G n n' out.
Proof.
  intros HF Hwf Ho. pose proof (election_frame_wf _ _ _ HF Hwf) as Hwf'.
  destruct HF as (Hi & Hp & Hr & Ht & Hv & Hvs & _). split.
  - done.
  - done.
  - by apply vote_mono_eq.
  - intros p m Hin. rewrite Ht. apply Ho in Hin as (-> & _ & Hm). split; [done |].
    apply Hm, Hwf.
  - intros p t Hin. by apply Ho in Hin as (_ & ? & _).
  - intros Hr' p Hp'. left. rewrite <- Hr, <- Hvs. done.
  - intros Hl. left. rewrite <- Hr. done.
Qed.

Lemma election_frame_refl n : election_frame n n.
Proof. split_and!; auto. Qed.

Lemma election_frame_trans a b c : election_frame a b -> election_frame b c -> election_frame a c.
Proof.
  intros (? & ? & ? & ? & ? & ? & ? & ? & ? & ? & ? & ? & ?)
         (? & ? & ? & ? & ? & ? & ? & ? & ? & ? & ? & ? & ?).
  split_and!; try congruence. auto.
Qed.

Ltac frame_tac := split_and!; simpl; rewrite ?length_insert, ?length_map; auto.

(** ** Timers *)

Lemma reset_election_timeout_post n :
  1 <= heartbeat_period n < 2 ^ 59 ->
  post (reset_election_timeout n) (fun n' => exists t s,
    n' = set_elapsed 0 (set_election_timeout t (set_rng s n)) /\
    10 * heartbeat_period n <= t < 20 * heartbeat_period n).
Proof.
  intros Hhb. unfold reset_election_timeout.
  rewrite Z.max_l by lia.
  rewrite wrap_u64_small by (unfold is_u64; lia).
  rewrite (proj2 (Z.eqb_neq _ _)) by lia.
  destruct (next_rand (rng n)) as [r s]. simpl.
  pose proof (Z.mod_pos_bound r (10 * heartbeat_period n)) as Hm.
  rewrite wrap_u64_small by (unfold is_u64; lia).
  do 2 eexists. split; [reflexivity | lia].
Qed.

Lemma new_node_post N i l seed :
  i ∈ N -> is_u64 (Z.of_nat i) -> is_u64 (persisted_term l) ->
  (forall c, persisted_vote l = Some c -> is_u64 (Z.of_nat c)) -> meta_ok l ->
  post (new_node i N l seed) (fun n =>
    node_wf N n /\ id n = i /\ role n = Follower /\ log n = l /\
    current_term n = persisted_term l /\ voted_for n = persisted_vote l /\
    commit_index n = 0 /\ last_applied n = 0).
Proof.
  intros Hi Hi64 Ht Hv Hm. unfold new_node.
  eapply post_mono; [apply reset_election_timeout_post; simpl; lia |].
  intros n (t & s & -> & _). simpl. split_and!; auto.
  split; simpl; rewrite ?length_replicate; auto; lia.
Qed.

Implicit Types (n : RaftNode) (N : list nat).

Lemma become_follower_post N n t :
  node_wf N n -> current_term n < t -> is_u64 t ->
  post (become_follower t n) (fun n' =>
    node_wf N n' /\ id n' = id n /\ role n' = Follower /\ current_term n' = t /\
    voted_for n' = None).
Proof.
  intros Hwf Hlt Ht. unfold become_follower.
  eapply post_mono; [apply reset_election_timeout_post; simpl; apply Hwf |].
  intros n' (e & s & -> & _). destruct Hwf. simpl. split_and!; auto.
  split; simpl; auto; [done | by apply persist_term_vote_meta_ok].
Qed.

Lemma replicas_post ps mi idx :
  (forall p, p ∈ ps -> (p < length mi)%nat) -> post (replicas ps mi idx) (fun _ => True).
Proof.
  induction ps as [| p ps IH]; intros Hp; [done |]. simpl.
  eapply post_bind; [apply post_index, Hp; set_solver |]. intros m _.
  eapply post_bind; [apply IH; set_solver |]. done.
Qed.

Lemma commit_scan_post N n k idx :
  node_wf N n ->
  post (commit_scan k idx n) (fun n' => exists c, n' = set_commit_index c n).
Proof.
  intros Hwf. revert idx. induction k as [| k IH]; intros idx; simpl.
  { exists (commit_index n). by destruct n. }
  destruct (term_at (log n) idx =? current_term n); simpl; [| apply IH].
  eapply post_bind.
  { apply replicas_post. intros p Hp. rewrite (wf_match _ _ Hwf).
    apply width_gt. by rewrite <- (wf_peers _ _ Hwf). }
  intros r _. case_match; [by exists idx | apply IH].
Qed.

Lemma advance_commit_post N n :
  node_wf N n -> post (advance_commit n) (fun n' => exists c, n' = set_commit_index c n).
Proof. intros Hwf. by eapply commit_scan_post. Qed.

Lemma send_append_post N n p :
  node_wf N n -> p ∈ N ->
  post (send_append p n) (fun out => plain (current_term n) out).
Proof.
  intros Hwf Hp. unfold send_append.
  eapply post_bind. { apply post_index. rewrite (wf_next _ _ Hwf). by apply width_gt. }
  intros x _ q m Hin. simpl in Hin. apply list_elem_of_singleton in Hin.
  injection Hin as -> ->. done.
Qed.

Lemma plain_nil t : plain t [].
Proof. intros p m Hin. by apply elem_of_nil in Hin. Qed.

Lemma plain_app t a b : plain t a -> plain t b -> plain t (a ++ b).
Proof. intros Ha Hb p m [Hin | Hin]%elem_of_app; [by eapply Ha | by eapply Hb]. Qed.

Lemma broadcast_to_post N n ps :
  node_wf N n -> (forall p, p ∈ ps -> p ∈ N) ->
  post (broadcast_to ps n) (fun out => plain (current_term n) out).
Proof.
  intros Hwf. induction ps as [| p ps IH]; intros Hps; simpl; [apply plain_nil |].
  case_decide; [apply IH; set_solver |].
  eapply post_bind; [eapply send_append_post; [done | set_solver] |]. intros o Ho.
  eapply post_bind; [apply IH; set_solver |]. intros o' Ho'. by apply plain_app.
Qed.

Lemma broadcast_append_post N n :
  node_wf N n -> post (broadcast_append n) (fun out => plain (current_term n) out).
Proof.
  intros Hwf. eapply broadcast_to_post; [done |]. intros p. by rewrite (wf_peers _ _ Hwf).
Qed.

Lemma reset_progress_post ps last ni mi w :
  length ni = w -> length mi = w -> (forall p, p ∈ ps -> (p < w)%nat) ->
  post (reset_progress ps last ni mi) (fun r => length r.1 = w /\ length r.2 = w).
Proof.
  revert ni mi. induction ps as [| p ps IH]; intros ni mi Hni Hmi Hp; simpl; [done |].
  assert (p < w)%nat as Hpw by (apply Hp; set_solver).
  eapply post_bind; [apply post_set_index; lia |]. intros ? ->.
  eapply post_bind; [apply post_set_index; lia |]. intros ? ->.
  apply IH; rewrite ?length_insert; auto. set_solver.
Qed.

Lemma fresh_contact_post N n :
  node_wf N n ->
  post (fresh_contact n) (fun n' => exists c, n' = set_contacted c n /\ length c = width N).
Proof.
  intros Hwf. unfold fresh_contact.
  eapply post_bind.
  { apply post_set_index. rewrite length_map, (wf_contacted _ _ Hwf).
    apply width_gt, (wf_id _ _ Hwf). }
  intros c ->. eexists. split; [reflexivity |].
  by rewrite length_insert, length_map, (wf_contacted _ _ Hwf).
Qed.

(** ** Elections *)

Lemma vote_requests_plain n :
  is_u64 (Z.of_nat (id n)) -> plain (current_term n) (vote_requests n).
Proof.
  intros Hi p m Hin. unfold vote_requests in Hin.
  apply list_elem_of_In, in_map_iff in Hin as (x & Hx & _). by injection Hx as <- <-.
Qed.

Lemma maybe_become_leader_post N n :
  node_wf N n ->
  post (maybe_become_leader n) (fun r => let '(n', out) := r in
    node_wf N n' /\ plain (current_term n) out /\ id n' = id n /\ peers n' = peers n /\
    current_term n' = current_term n /\
    voted_for n' = voted_for n /\ votes n' = votes n /\ log n' = log n /\
    commit_index n' = commit_index n /\
    (n' = n \/ role n = Candidate /\ role n' = Leader /\ (majority n <= count_true (votes n))%nat)).
Proof.
  intros Hwf. unfold maybe_become_leader.
  case_bool_decide as Hr; simpl; [| by split_and!; auto using plain_nil].
  case_match eqn:Hm; [| by split_and!; auto using plain_nil].
  apply Nat.leb_le in Hm.
  eapply post_bind.
  { eapply (reset_progress_post _ _ _ _ (width N)).
    - apply (wf_next _ _ Hwf).
    - apply (wf_match _ _ Hwf).
    - intros p. rewrite (wf_peers _ _ Hwf). apply width_gt. }
  intros [ni mi] [Hni Hmi]; simpl in Hni, Hmi.
  eapply post_bind.
  { apply post_set_index. rewrite Hmi. apply width_gt, (wf_id _ _ Hwf). }
  intros mi' ->.
  eapply post_bind.
  { apply (fresh_contact_post N). destruct Hwf. split; simpl; auto. by rewrite length_insert. }
  intros n1 (c & -> & Hc).
  eapply post_bind.
  { apply (broadcast_append_post N). destruct Hwf. split; simpl; auto. by rewrite length_insert. }
  intros out Hout. simpl. split.
  { destruct Hwf. split; simpl; auto. by rewrite length_insert. }
  split_and!; auto.
Qed.

Lemma insert_true_lookup (vs : list bool) i p :
  <[i := true]> vs !! p = Some true -> p = i \/ vs !! p = Some true.
Proof.
  intros Hl. destruct (decide (p = i)) as [-> | Hne]; [auto |].
  rewrite list_lookup_insert_ne in Hl by done. auto.
Qed.

Lemma cleared_lookup {A} (vs : list A) p : map (fun _ => false) vs !! p = Some true -> False.
Proof.
  change (map (fun _ => false) vs) with ((fun _ => false) <$> vs).
  rewrite list_lookup_fmap. destruct (vs !! p); done.
Qed.

Lemma start_election_post N G n :
  node_wf N n -> current_term n + 1 < 2 ^ 64 -> role n <> Leader ->
  post (start_election n) (fun r => let '(n', out) := r in election_step N G n n' out).
Proof.
  intros Hwf Hov Hnl. unfold start_election. simpl.
  rewrite (wrap_u64_small (current_term n + 1)) by (destruct (wf_term _ _ Hwf); unfold is_u64; lia).
  eapply post_bind.
  { apply post_set_index. simpl. rewrite length_map, (wf_votes _ _ Hwf).
    apply width_gt, (wf_id _ _ Hwf). }
  intros vs ->.
  eapply post_bind; [apply reset_election_timeout_post; simpl; apply Hwf |].
  intros n1 (t & s & -> & _).
  eapply post_bind.
  { apply (maybe_become_leader_post N). destruct Hwf as [? ? ? ? ? ? ? [? ?] ? ? ? ? ?].
    split; simpl; auto.
    - by rewrite length_insert, length_map.
    - unfold is_u64; lia.
    - by intros ? [= <-].
    - apply persist_term_vote_meta_ok; [unfold is_u64; lia | by intros ? [= <-]]. }
  intros [n' out] (Hwf' & Hout & Hi & Hp & Ht & Hv & Hvs & _ & _ & Hcase); simpl in *.
  match goal with |- election_step _ _ _ _ (vote_requests ?k ++ _) =>
    pose proof (plain_app _ _ _ (vote_requests_plain k (wf_id64 _ _ Hwf)) Hout) as Hall end.
  split.
  - done.
  - done.
  - left. rewrite Ht. lia.
  - intros p m Hin. rewrite Ht. apply Hall in Hin as (-> & _ & Hm). split; [done |].
    apply Hm. rewrite <- Ht. apply Hwf'.
  - intros p u Hin. by apply Hall in Hin as (_ & ? & _).
  - intros _ p Hpv. rewrite Hvs in Hpv. apply insert_true_lookup in Hpv as [-> | Hpv].
    + right. left. rewrite Hi, Hv. done.
    + by apply cleared_lookup in Hpv.
  - intros Hl. right. rewrite Hvs. unfold majority. rewrite Hp. destruct Hcase as [-> | (_ & _ & Hc)].
    + simpl in Hl. done.
    + exact Hc.
Qed.

Lemma tick_post N G n :
  node_wf N n -> current_term n + 1 < 2 ^ 64 ->
  post (tick n) (fun r => let '(n', out) := r in election_step N G n n' out).
Proof.
  intros Hwf Hov. unfold tick. simpl.
  set (n0 := mkNode _ _ _ _ _ _ _ _ _ _ _ _ (wrap_u64 (elapsed n + 1)) _ _ _ _ _).
  assert (election_frame n n0) as Hf0 by (unfold n0; frame_tac).
  assert (node_wf N n0) as Hwf0 by (by eapply election_frame_wf).
  assert (forall n' out, election_frame n0 n' -> plain (current_term n) out -> election_step N G n n' out) as Hfr.
  { intros n' out Hf Ho. eapply election_frame_step; [| done | done].
    by eapply election_frame_trans. }
  assert (role n <> Leader ->
    post (if election_timeout n <=? wrap_u64 (elapsed n + 1) then start_election n0 else Ok (n0, []))
      (fun r => let '(n', out) := r in election_step N G n n' out)) as Hel.
  { intros Hnl. case_match; [| apply Hfr; [apply election_frame_refl | apply plain_nil]].
    eapply post_mono; [apply (start_election_post N G); auto |].
    intros [n' out] []. by split. }
  destruct (role n) eqn:Hr; [by apply Hel | by apply Hel | clear Hel].
  case_match; [| apply Hfr; [frame_tac | apply plain_nil]].
  eapply post_bind.
  { apply (fresh_contact_post N). eapply election_frame_wf; [| exact Hwf]. frame_tac. }
  intros n1 (c & -> & Hc).
  eapply post_bind.
  { apply (broadcast_append_post N). eapply election_frame_wf; [| exact Hwf]. frame_tac.
    by rewrite Hc, (wf_contacted _ _ Hwf). }
  intros out Ho. apply Hfr; [| done]. frame_tac. by rewrite Hc, (wf_contacted _ _ Hwf).
Qed.

(** ** RPC handlers *)

Lemma on_request_vote_post N G t c lli llt n :
  node_wf N n -> t <= current_term n -> is_u64 (Z.of_nat c) ->
  post (on_request_vote t c lli llt n) (fun r => let '(n', out) := r in
    election_step N G n n' out).
Proof.
  intros Hwf Hle Hc64. unfold on_request_vote.
  case_match eqn:Hg.
  - apply andb_true_iff in Hg as [Ht [Hc _]%andb_true_iff]. apply Z.leb_le in Ht.
    unfold can_vote in Hc. apply orb_true_iff in Hc.
    rewrite !bool_decide_eq_true in Hc.
    eapply post_bind; [apply reset_election_timeout_post; simpl; apply Hwf |].
    intros n' (e & s & -> & _). split; simpl.
    + destruct Hwf. split; simpl; auto; [intros ? [= <-]; done |].
      apply persist_term_vote_meta_ok; [done | intros ? [= <-]; done].
    + done.
    + right. split; [done |]. simpl. destruct Hc as [-> | ->]; auto.
    + intros p m Hin%list_elem_of_singleton. injection Hin as -> ->.
      split; [done | split; [apply Hwf | done]].
    + intros p u Hin%list_elem_of_singleton. by injection Hin as -> ->.
    + intros Hr p Hp. auto.
    + auto.
  - apply election_frame_step; [apply election_frame_refl | done |].
    intros p u Hin%list_elem_of_singleton. by injection Hin as -> ->.
Qed.

Lemma on_vote_resp_post N from t g n :
  node_wf N n -> from ∈ N ->
  post (on_vote_resp from t g n) (fun r => let '(n', out) := r in
    election_step N (fun p u => p = from /\ u = t /\ g = true) n n' out).
Proof.
  intros Hwf Hf. unfold on_vote_resp.
  assert (forall G, election_step N G n n []) as Hskip.
  { intros G. apply election_frame_step; [apply election_frame_refl | done | apply plain_nil]. }
  case_bool_decide as Hr; simpl; [| apply Hskip].
  case (Z.eqb_spec t (current_term n)) as [-> |]; simpl; [| apply Hskip].
  destruct g; [| apply Hskip].
  eapply post_bind; [apply post_set_index; rewrite (wf_votes _ _ Hwf); by apply width_gt |].
  intros vs ->.
  eapply post_mono.
  { apply (maybe_become_leader_post N). destruct Hwf. split; simpl; auto. by rewrite length_insert. }
  intros [n' out] (Hwf' & Hout & Hi & Hp & Ht & Hv & Hvs & _ & _ & Hcase); simpl in *.
  split.
  - done.
  - done.
  - by apply vote_mono_eq.
  - intros p m Hin. rewrite Ht. apply Hout in Hin as (-> & _ & Hm). split; [done |].
    apply Hm, Hwf.
  - intros p u Hin. by apply Hout in Hin as (_ & ? & _).
  - intros Hr' p Hpv. rewrite Hvs in Hpv. apply insert_true_lookup in Hpv as [-> | Hpv].
    + right. right. done.
    + left. rewrite Hr. done.
  - intros Hl. right. rewrite Hvs. unfold majority. rewrite Hp.
    destruct Hcase as [-> | (_ & _ & Hc)]; [simpl in Hl; congruence | exact Hc].
Qed.

Lemma append_entry_persisted l e :
  persisted_term (append_entry l e) = persisted_term l /\
  persisted_vote (append_entry l e) = persisted_vote l.
Proof. unfold append_entry. repeat case_match; done. Qed.

Lemma append_entry_meta_ok l e : meta_ok l -> meta_ok (append_entry l e).
Proof.
  intros Hm. unfold append_entry. repeat case_match; try done.
  by apply append_meta_ok, truncate_from_meta_ok.
Qed.

Lemma append_entries_meta_ok es l : meta_ok l -> meta_ok (foldl append_entry l es).
Proof. revert l. induction es; simpl; auto using append_entry_meta_ok. Qed.

Lemma append_entries_persisted es l :
  persisted_term (foldl append_entry l es) = persisted_term l /\
  persisted_vote (foldl append_entry l es) = persisted_vote l.
Proof.
  revert l. induction es as [| e es IH]; intros l; [done |]. simpl.
  destruct (IH (append_entry l e)) as [-> ->]. apply append_entry_persisted.
Qed.

Lemma on_append_post N G t ldr pli plt es lc n :
  node_wf N n -> t <= current_term n ->
  post (on_append t ldr pli plt es lc n) (fun r => let '(n', out) := r in
    election_step N G n n' out).
Proof.
  intros Hwf Hle. unfold on_append.
  assert (forall b m, plain (current_term n) [(ldr, AppendEntriesResp (current_term n) b m)]) as Hno.
  { intros b m p u Hin%list_elem_of_singleton. by injection Hin as -> ->. }
  case_match; [| by apply election_frame_step; [apply election_frame_refl | done | apply Hno]].
  set (n0 := if bool_decide (role n = Follower) then n else set_role Follower n).
  assert (n0 = set_role Follower n) as ->.
  { unfold n0. case_bool_decide as Hr; [| done]. destruct n. simpl in *. by subst. }
  eapply post_bind; [apply reset_election_timeout_post; simpl; apply Hwf |].
  intros n1 (e & s & -> & _). simpl.
  assert (forall l c out, persisted_term l = persisted_term (log n) ->
    persisted_vote l = persisted_vote (log n) -> meta_ok l -> plain (current_term n) out ->
    election_step N G n (mkNode (id n) (peers n) Follower (current_term n) (voted_for n) l c
      (last_applied n) (Some ldr) (votes n) (next_index n) (match_index n) 0 e
      (heartbeat_period n) (contacted n) (since_majority n) s) out) as Hstep.
  { intros l c out Hl1 Hl2 Hl3 Ho. destruct Hwf. split; simpl; try done.
    - split; simpl; auto; congruence.
    - by apply vote_mono_eq.
    - intros p m Hin. apply Ho in Hin as (-> & _ & Hm). auto.
    - intros p u Hin. by apply Ho in Hin as (_ & ? & _). }
  pose proof (wf_meta _ _ Hwf) as Hm.
  case_match; [| apply Hstep; auto].
  destruct (append_entries_persisted es (log n)) as [Hp1 Hp2].
  case_match; apply Hstep; auto using append_entries_meta_ok.
Qed.

Lemma on_append_resp_post N G from t s mi n :
  node_wf N n -> from ∈ N ->
  post (on_append_resp from t s mi n) (fun r => let '(n', out) := r in
    election_step N G n n' out).
Proof.
  intros Hwf Hf. unfold on_append_resp.
  pose proof (width_gt _ _ Hf) as Hw.
  case_match; [apply election_frame_step; [apply election_frame_refl | done | apply plain_nil] |].
  destruct s.
  - eapply post_bind; [apply post_index; by rewrite (wf_match _ _ Hwf) |]. intros old _.
    eapply post_bind; [apply post_set_index; by rewrite (wf_match _ _ Hwf) |]. intros ? ->.
    eapply post_bind; [apply post_set_index; by rewrite (wf_next _ _ Hwf) |]. intros ? ->.
    eapply post_bind; [apply post_set_index; by rewrite (wf_contacted _ _ Hwf) |]. intros ? ->.
    set (n1 := if (_ <=? _)%nat then _ else _).
    assert (election_frame n n1) as Hf1 by (unfold n1; case_match; frame_tac).
    eapply post_bind; [apply (advance_commit_post N); by eapply election_frame_wf |].
    intros n2 (c & ->). apply election_frame_step; [| done | apply plain_nil].
    eapply election_frame_trans; [exact Hf1 | frame_tac].
  - eapply post_bind; [apply post_index; by rewrite (wf_next _ _ Hwf) |]. intros old _.
    eapply post_bind; [apply post_set_index; by rewrite (wf_next _ _ Hwf) |]. intros ? ->.
    set (n1 := set_next_index _ n).
    assert (election_frame n n1) as Hf1 by (unfold n1; frame_tac).
    eapply post_bind; [apply (send_append_post N); [by eapply election_frame_wf | done] |].
    intros out Ho. by apply election_frame_step.
Qed.

(** Delivery of [m] from member [from]. *)
Definition grant_from (from : nat) (m : RaftMsg) (p : nat) (t : Z) : Prop :=
  p = from /\ m = RequestVoteResp t true.

Lemma step_post N from m n :
  node_wf N n -> from ∈ N -> msg_wf m ->
  post (step from m n) (fun r => let '(n', out) := r in
    election_step N (grant_from from m) n n' out).
Proof.
  intros Hwf Hf [Ht Hmw]. unfold step.
  assert (forall k, node_wf N k -> msg_term m <= current_term k ->
    post (handle from m k) (fun r => let '(n', out) := r in
      election_step N (grant_from from m) k n' out)) as Hh.
  { intros k Hk Hle. destruct m; simpl in *.
    - by apply on_request_vote_post.
    - eapply post_mono; [by apply (on_vote_resp_post N) |]. intros [n' out] []. split; auto.
      intros Hr p Hp. destruct (es_votes0 Hr p Hp) as [? | [? | (-> & -> & ->)]]; auto.
      right. right. done.
    - by apply on_append_post.
    - by apply on_append_resp_post. }
  case (Z.ltb_spec (current_term n) (msg_term m)) as [Hlt | Hge].
  - eapply post_bind; [by apply (become_follower_post N) |].
    intros k (Hk & Hi & Hr & Hkt & Hkv).
    eapply post_mono; [apply Hh; [done | lia] |].
    intros [n' out] [Hwf' Hi' Hm' Ht' Hg' Hv' Hl']. split; auto.
    + congruence.
    + left. destruct Hm'; lia.
    + intros Hr' p Hp. destruct (Hv' Hr' p Hp) as [(? & _) | ?]; [congruence | auto].
    + intros Hr'. destruct (Hl' Hr') as [(? & _) | ?]; [congruence | auto].
  - simpl. by apply Hh.
Qed.

(** ** Proposals, application, compaction *)

Lemma propose_post N G cmd n :
  node_wf N n ->
  post (propose cmd n) (fun r => election_step N G n r.1 []).
Proof.
  intros Hwf. unfold propose.
  case_match; [apply election_frame_step; [apply election_frame_refl | done | apply plain_nil] |].
  eapply post_bind.
  { apply post_set_index. simpl. rewrite (wf_match _ _ Hwf). apply width_gt, (wf_id _ _ Hwf). }
  intros mi ->. simpl.
  set (n1 := mkNode _ _ _ _ _ _ _ _ _ _ _ _ _ _ _ _ _ _).
  assert (election_frame n n1) as Hf1 by (unfold n1; frame_tac; apply append_meta_ok).
  eapply post_bind; [apply (advance_commit_post N); by eapply election_frame_wf |].
  intros n2 (c & ->). apply election_frame_step; [| done | apply plain_nil].
  eapply election_frame_trans; [exact Hf1 | frame_tac].
Qed.

Lemma take_committed_step N G n :
  node_wf N n -> election_step N G n (take_committed n).1 [].
Proof. intros Hwf. apply election_frame_step; [frame_tac | done | apply plain_nil]. Qed.

Lemma compact_persisted l k :
  persisted_term (compact l k) = persisted_term l /\ persisted_vote (compact l k) = persisted_vote l.
Proof. unfold compact. case_match; done. Qed.

Lemma min_match_post ps mi :
  (forall p, p ∈ ps -> (p < length mi)%nat) -> post (min_match ps mi) (fun _ => True).
Proof.
  induction ps as [| p ps IH]; intros Hp; [done |]. simpl.
  eapply post_bind; [apply post_index, Hp; set_solver |]. intros m _.
  eapply post_bind; [apply IH; set_solver |]. done.
Qed.

Lemma maybe_compact_post N G keep n :
  node_wf N n -> post (maybe_compact keep n) (fun n' => election_step N G n n' []).
Proof.
  intros Hwf. unfold maybe_compact.
  case_match; [apply election_frame_step; [apply election_frame_refl | done | apply plain_nil] |].
  eapply (post_bind _ _ (fun _ => True)).
  { unfold safe_compact_index. case_match; [| done].
    eapply post_bind; [| done]. apply min_match_post. intros p Hp.
    rewrite (wf_match _ _ Hwf). apply width_gt. by rewrite <- (wf_peers _ _ Hwf). }
  intros k _. apply election_frame_step; [| done | apply plain_nil].
  destruct (compact_persisted (log n) k). frame_tac. apply compact_meta_ok.
Qed.

Lemma set_heartbeat_period_post N G ticks n :
  node_wf N n -> ticks < 2 ^ 59 ->
  post (set_heartbeat_period ticks n) (fun n' => election_step N G n n' [] /\
    10 * Z.max ticks 1 <= election_timeout n' < 20 * Z.max ticks 1).
Proof.
  intros Hwf Hb. unfold set_heartbeat_period.
  eapply post_mono; [apply reset_election_timeout_post; simpl; lia |].
  intros n' (e & s & -> & Ht). split; [| done].
  assert (node_wf N (set_elapsed 0 (set_election_timeout e (set_rng s
    (set_hb_period (Z.max ticks 1) n))))) as Hwf'.
  { destruct Hwf. split; simpl; auto. lia. }
  split; auto.
  - by apply vote_mono_eq.
  - intros p m Hin. by apply elem_of_nil in Hin.
  - intros p t Hin. by apply elem_of_nil in Hin.
Qed.

End Wf.
