(* ===== verification/RaftCluster.v ===== *)
(** * A Raft group over an unreliable network

    The members of a group, each running the [RaftNode] of [RaftNode.v] on an in-memory or on a
    durable log, and the messages they ever sent.  A message stays in the network once sent: it can
    be delivered late, out of order, many times or never.  A member can stop at any time, and one
    with a durable log can restart from its directory.  Election Safety: at most one member is ever
    leader in a term. *)

From S2P Require Import Prelude RaftLog RaftDisk RaftNode RaftNodeFacts.

(** ** Quorums *)

Definition quorum (N Q : list nat) : Prop :=
  NoDup Q /\ Q ⊆ N /\ (length N / 2 + 1 <= length Q)%nat.

Lemma quorum_overlap N A B : quorum N A -> quorum N B -> exists p, p ∈ A /\ p ∈ B.
Proof.
  intros (HA & HAN & HAl) (HB & HBN & HBl).
  destruct (decide (Exists (.∈ B) A)) as [[p [? ?]]%Exists_exists | Hd]; [eauto |].
  exfalso. assert (NoDup (A ++ B)) as HAB.
  { apply NoDup_app. split_and!; auto. intros x HxA HxB. apply Hd, Exists_exists. eauto. }
  assert (length (A ++ B) <= length N)%nat as Hle.
  { apply NoDup_incl_length; [by apply NoDup_ListNoDup |].
    intros x Hx%list_elem_of_In%elem_of_app. apply list_elem_of_In. set_solver. }
  rewrite length_app in Hle. pose proof (Nat.div_mod_eq (length N) 2).
  pose proof (Nat.mod_upper_bound (length N) 2). lia.
Qed.

(** The members whose bit is set in a vote vector, from position [k] on. *)
Fixpoint voters (k : nat) (vs : list bool) : list nat :=
  match vs with
  | [] => []
  | v :: vs' => if v then k :: voters (S k) vs' else voters (S k) vs'
  end.

Lemma elem_of_voters k vs p :
  p ∈ voters k vs <-> (k <= p)%nat /\ vs !! (p - k)%nat = Some true.
Proof.
  revert k. induction vs as [| v vs IH]; intros k; simpl.
  { rewrite lookup_nil. split; [by intros ?%elem_of_nil | by intros [_ ?]]. }
  destruct (decide (p = k)) as [-> | Hne].
  - rewrite Nat.sub_diag. simpl. destruct v.
    + split; [done |]. intros _. apply elem_of_cons. by left.
    + rewrite IH. split; [lia | by intros [_ ?]].
  - transitivity (p ∈ voters (S k) vs).
    { destruct v; [rewrite elem_of_cons; naive_solver | done]. }
    rewrite IH. destruct (decide (k <= p)%nat).
    + replace (p - k)%nat with (S (p - S k)) by lia. simpl. intuition lia.
    + intuition lia.
Qed.

Lemma voters_NoDup k vs : NoDup (voters k vs).
Proof.
  revert k. induction vs as [| v vs IH]; intros k; simpl; [constructor |].
  destruct v; [| done]. constructor; [| done].
  intros [? _]%elem_of_voters. lia.
Qed.

Lemma length_voters k vs : length (voters k vs) = count_true vs.
Proof.
  revert k. induction vs as [| v vs IH]; intros k; [done |]. unfold count_true in *.
  simpl. destruct v; simpl; by rewrite IH.
Qed.

Section Cluster.
Context {C : Crc32}.
Variable N : list nat.

(** ** The system *)

(** [cast] and [elected] are history: every vote [(voter, term, candidate)] a member ever had on
    record, and every [(term, member)] such that the member was leader in that term. *)
Record cluster := mkCluster {
  nodes : gmap nat RaftNode;
  net : list (nat * nat * RaftMsg);
  cast : list (nat * Z * nat);
  elected : list (Z * nat)
}.

(** The events of one member: the entry points the driver calls, and a restart from disk.  The
    bounds are those of the machine integers ([u64] terms, tick counts). *)
Inductive node_event (c : cluster) (i : nat) (n : RaftNode) : RaftNode -> msgs -> Prop :=
| ev_tick n' out :
    current_term n + 1 < 2 ^ 64 ->
    tick n = Ok (n', out) -> node_event c i n n' out
| ev_deliver from m n' out :
    (from, i, m) ∈ net c ->
    step from m n = Ok (n', out) -> node_event c i n n' out
| ev_propose cmd n' r :
    propose cmd n = Ok (n', r) -> node_event c i n n' []
| ev_apply :
    node_event c i n (take_committed n).1 []
| ev_compact keep n' :
    maybe_compact keep n = Ok n' -> node_event c i n n' []
| ev_heartbeat ticks n' :
    ticks < 2 ^ 59 ->
    set_heartbeat_period ticks n = Ok n' -> node_event c i n n' []
| ev_restart d seed n' :
    durable (log n) = Some d ->
    new_node i N (open_durable d) seed = Ok n' -> node_event c i n n' [].

Definition record_vote (i : nat) (n : RaftNode) : list (nat * Z * nat) :=
  match voted_for n with Some p => [(i, current_term n, p)] | None => [] end.

Definition record_leader (i : nat) (n : RaftNode) : list (Z * nat) :=
  if is_leader n then [(current_term n, i)] else [].

Definition update (c : cluster) (i : nat) (n : RaftNode) (out : msgs) : cluster :=
  mkCluster (<[i := n]> (nodes c)) (net c ++ map (fun x => (i, x.1, x.2)) out)
    (cast c ++ record_vote i n) (elected c ++ record_leader i n).

Inductive cluster_step (c : cluster) : cluster -> Prop :=
| cluster_event i n n' out :
    nodes c !! i = Some n -> node_event c i n n' out -> cluster_step c (update c i n' out).

(** Initially every member is freshly started, in memory or on an empty directory. *)
Definition fresh_log (durable : bool) : RaftLog :=
  if durable then open_durable (mkDurable None None) else new_log.

Definition initial (c : cluster) : Prop :=
  (forall i n, nodes c !! i = Some n ->
    i ∈ N /\ is_u64 (Z.of_nat i) /\
    exists durable seed, new_node i N (fresh_log durable) seed = Ok n) /\
  net c = [] /\ cast c = [] /\ elected c = [].

Inductive reachable : cluster -> Prop :=
| reach_init c : initial c -> reachable c
| reach_step c c' : reachable c -> cluster_step c c' -> reachable c'.

(** ** The invariant *)

(** A vote on record is still on record, or belongs to an older term. *)
Definition remembers (n : RaftNode) (t : Z) (p : nat) : Prop :=
  t < current_term n \/ t = current_term n /\ voted_for n = Some p.

Record cluster_inv (c : cluster) : Prop := {
  ci_nodes : forall i n, nodes c !! i = Some n -> id n = i /\ node_wf N n;
  ci_net : forall f i m, (f, i, m) ∈ net c -> f ∈ N /\ msg_wf m;
  ci_grant : forall a p t, (a, p, RequestVoteResp t true) ∈ net c -> (a, t, p) ∈ cast c;
  ci_cast : forall a t p, (a, t, p) ∈ cast c ->
    exists n, nodes c !! a = Some n /\ remembers n t p;
  ci_unique : forall a t p q, (a, t, p) ∈ cast c -> (a, t, q) ∈ cast c -> p = q;
  ci_votes : forall i n p, nodes c !! i = Some n -> role n <> Follower ->
    votes n !! p = Some true -> (p, current_term n, i) ∈ cast c;
  ci_majority : forall i n, nodes c !! i = Some n -> role n = Leader ->
    (majority n <= count_true (votes n))%nat;
  ci_elected : forall t i, (t, i) ∈ elected c ->
    exists Q, quorum N Q /\ forall p, p ∈ Q -> (p, t, i) ∈ cast c
}.

Definition grants_of (c : cluster) (i : nat) (p : nat) (t : Z) : Prop :=
  (p, i, RequestVoteResp t true) ∈ net c.

(** Every event is an election step, the votes it counts being votes in the network; a restart
    keeps term and vote. *)
Lemma node_event_step c i n n' out :
  cluster_inv c -> nodes c !! i = Some n -> node_event c i n n' out ->
  election_step N (grants_of c i) n n' out.
Proof.
  intros Hinv Hi Hev. destruct (ci_nodes _ Hinv _ _ Hi) as [Hid Hwf].
  destruct Hev as [n' out Hb E | from m n' out Hin E | cmd n' r E | | keep n' E | ticks n' Hb E
    | d seed n' Hd E].
  - pose proof (tick_post N (grants_of c i) n Hwf Hb) as Hp. by rewrite E in Hp.
  - destruct (ci_net _ Hinv _ _ _ Hin) as [Hf Hm].
    pose proof (step_post N from m n Hwf Hf Hm) as Hp. rewrite E in Hp.
    destruct Hp as [H1 H2 H3 H4 H5 H6 H7]. split; auto.
    intros Hr p Hp. destruct (H6 Hr p Hp) as [? | [? | [-> ->]]]; auto.
  - pose proof (propose_post N (grants_of c i) cmd n Hwf) as Hp. by rewrite E in Hp.
  - by apply take_committed_step.
  - pose proof (maybe_compact_post N (grants_of c i) keep n Hwf) as Hp. by rewrite E in Hp.
  - pose proof (set_heartbeat_period_post N (grants_of c i) ticks n Hwf Hb) as Hp.
    rewrite E in Hp. by destruct Hp.
  - pose proof (wf_meta _ _ Hwf d Hd) as Hm. rewrite open_durable_persisted in Hm.
    injection Hm as Hmt Hmv. rewrite (wf_disk_term _ _ Hwf) in Hmt.
    rewrite (wf_disk_vote _ _ Hwf) in Hmv.
    pose proof (new_node_post N i (open_durable d) seed) as Hp. rewrite E in Hp. subst i.
    destruct Hp as (Hwf' & Hi' & Hr & _ & Ht & Hv & _).
    { apply Hwf. }
    { apply Hwf. }
    { rewrite Hmt. apply Hwf. }
    { rewrite Hmv. apply Hwf. }
    { apply open_durable_meta_ok. }
    split; auto; try congruence.
    + apply vote_mono_eq; congruence.
    + intros p m Hin. by apply elem_of_nil in Hin.
    + intros p t Hin. by apply elem_of_nil in Hin.
Qed.

Lemma remembers_mono n n' t p : vote_mono n n' -> remembers n t p -> remembers n' t p.
Proof.
  intros [Hlt | [Ht Hv]] [H1 | [H1 H2]]; unfold remembers.
  - left. lia.
  - left. lia.
  - left. lia.
  - right. split; [lia |]. destruct Hv as [Hv | Hv]; congruence.
Qed.

Lemma elem_of_record_vote i n a t p :
  (a, t, p) ∈ record_vote i n <-> a = i /\ t = current_term n /\ voted_for n = Some p.
Proof.
  unfold record_vote. destruct (voted_for n) as [q |].
  - rewrite list_elem_of_singleton. naive_solver.
  - split; [by intros ?%elem_of_nil | by intros (_ & _ & ?)].
Qed.

(** Within the cast votes of the updated cluster, the updated member remembers all of its own. *)
Lemma cast_update c i n n' out a t p :
  cluster_inv c -> nodes c !! i = Some n -> vote_mono n n' ->
  (a, t, p) ∈ cast (update c i n' out) ->
  exists k, nodes (update c i n' out) !! a = Some k /\ remembers k t p.
Proof.
  intros Hinv Hi Hmono Hin. simpl in *.
  apply elem_of_app in Hin as [Hin | (-> & -> & Hv)%elem_of_record_vote].
  - destruct (ci_cast _ Hinv _ _ _ Hin) as (k & Hk & Hr).
    destruct (decide (a = i)) as [-> | Hne].
    + rewrite Hi in Hk. injection Hk as <-. exists n'. rewrite lookup_insert_eq.
      split; [done |]. by eapply remembers_mono.
    + exists k. by rewrite lookup_insert_ne.
  - exists n'. rewrite lookup_insert_eq. split; [done |]. by right.
Qed.

Lemma cluster_step_inv c c' : cluster_inv c -> cluster_step c c' -> cluster_inv c'.
Proof.
  intros Hinv [i n n' out Hi Hev].
  pose proof (node_event_step _ _ _ _ _ Hinv Hi Hev) as [Hwf Hid Hmono Hterms Hgrant Hvotes Hlead].
  destruct (ci_nodes _ Hinv _ _ Hi) as [Hidn Hwfn].
  assert (forall x, x ∈ cast c -> x ∈ cast (update c i n' out)) as Hsub.
  { intros x Hx. simpl. apply elem_of_app. by left. }
  assert (forall p, role n' <> Follower -> votes n' !! p = Some true ->
    (p, current_term n', i) ∈ cast (update c i n' out)) as Hev'.
  { intros p Hr Hp. destruct (Hvotes Hr p Hp) as [(Hr0 & Ht & Hp0) | [[Hpi Hv] | Hg]].
    - rewrite Ht. by apply Hsub, (ci_votes _ Hinv).
    - simpl. apply elem_of_app. right. apply elem_of_record_vote. split_and!; [congruence | done |].
      congruence.
    - by apply Hsub, (ci_grant _ Hinv). }
  assert (role n' = Leader -> (majority n' <= count_true (votes n'))%nat) as Hmaj.
  { intros Hr. destruct (Hlead Hr) as [(Hr0 & _ & Hvs) | ?]; [| done].
    rewrite Hvs. unfold majority. rewrite (wf_peers _ _ Hwf), <- (wf_peers _ _ Hwfn).
    by apply (ci_majority _ Hinv i). }
  split.
  - intros a k. simpl. destruct (decide (a = i)) as [-> | Hne].
    + rewrite lookup_insert_eq. intros [= <-]. split; [congruence | done].
    + rewrite lookup_insert_ne by done. apply (ci_nodes _ Hinv).
  - intros f a m. simpl. intros [Hin | Hin]%elem_of_app; [by eapply ci_net |].
    apply list_elem_of_In, in_map_iff in Hin as ([p m'] & [= <- <- <-] & Hin).
    apply list_elem_of_In in Hin. apply Hterms in Hin as [_ ?].
    split; [| done]. rewrite <- Hidn. apply Hwfn.
  - intros a p t. simpl. intros [Hin | Hin]%elem_of_app; [by apply Hsub, (ci_grant _ Hinv) |].
    apply list_elem_of_In, in_map_iff in Hin as ([q m'] & Heq & Hin).
    simpl in Heq. simplify_eq. apply list_elem_of_In in Hin. pose proof (Hterms _ _ Hin) as [Ht _]. simpl in Ht.
    apply elem_of_app. right. apply elem_of_record_vote. split_and!; [done | done |].
    by eapply Hgrant.
  - intros a t p. by apply cast_update with (n := n).
  - intros a t p q Hp Hq.
    destruct (cast_update _ _ _ _ _ _ _ _ Hinv Hi Hmono Hp) as (k & Hk & Hrp).
    destruct (cast_update _ _ _ _ _ _ _ _ Hinv Hi Hmono Hq) as (k' & Hk' & Hrq).
    simpl in *.
    apply elem_of_app in Hp as [Hp | (Ha & Ht & Hp)%elem_of_record_vote];
    apply elem_of_app in Hq as [Hq | (Ha' & Ht' & Hq)%elem_of_record_vote]; subst.
    + by eapply ci_unique.
    + rewrite lookup_insert_eq in Hk. injection Hk as <-. destruct Hrp as [| [_ ?]]; [lia | congruence].
    + rewrite lookup_insert_eq in Hk'. injection Hk' as <-. destruct Hrq as [| [_ ?]]; [lia | congruence].
    + congruence.
  - intros a k p Ha Hr Hp. simpl in Ha. destruct (decide (a = i)) as [-> | Hne].
    + rewrite lookup_insert_eq in Ha. injection Ha as <-. by apply Hev'.
    + rewrite lookup_insert_ne in Ha by done. by apply Hsub, (ci_votes _ Hinv).
  - intros a k Ha Hr. simpl in Ha. destruct (decide (a = i)) as [-> | Hne].
    + rewrite lookup_insert_eq in Ha. injection Ha as <-. auto.
    + rewrite lookup_insert_ne in Ha by done. by eapply ci_majority.
  - intros t a. simpl. intros [Hin | Hin]%elem_of_app.
    + destruct (ci_elected _ Hinv _ _ Hin) as (Q & HQ & Hc). exists Q. split; auto.
    + unfold record_leader, is_leader in Hin. case_bool_decide as Hr; [| by apply elem_of_nil in Hin].
      apply list_elem_of_singleton in Hin. injection Hin as -> ->.
      assert (forall p, p ∈ voters 0 (votes n') -> votes n' !! p = Some true) as Hvt.
      { intros p [_ Hp]%elem_of_voters. by rewrite Nat.sub_0_r in Hp. }
      exists (voters 0 (votes n')). split.
      * split_and!; [apply voters_NoDup | |].
        -- intros p Hp. apply Hvt, Hev' in Hp; [| congruence].
           destruct (cast_update _ _ _ _ _ _ _ _ Hinv Hi Hmono Hp) as (k & Hk & _). simpl in Hk.
           destruct (decide (p = i)) as [-> | Hne]; [rewrite <- Hidn; apply Hwfn |].
           rewrite lookup_insert_ne in Hk by done.
           destruct (ci_nodes _ Hinv _ _ Hk) as [<- Hwfk]. apply Hwfk.
        -- rewrite length_voters, <- (wf_peers _ _ Hwf). by apply Hmaj.
      * intros p Hp. apply Hev'; [congruence | by apply Hvt].
Qed.

Lemma fresh_log_persisted b :
  persisted_term (fresh_log b) = 0 /\ persisted_vote (fresh_log b) = None /\ meta_ok (fresh_log b).
Proof. destruct b; split_and!; try done. apply open_durable_meta_ok. Qed.

Lemma initial_inv c : initial c -> cluster_inv c.
Proof.
  intros (Hn & Hnet & Hc & He).
  assert (forall i n, nodes c !! i = Some n ->
    id n = i /\ node_wf N n /\ role n = Follower) as Hnode.
  { intros i n Hi. destruct (Hn i n Hi) as (HiN & Hi64 & b & seed & E).
    destruct (fresh_log_persisted b) as (Ht & Hv & Hm).
    pose proof (new_node_post N i (fresh_log b) seed) as Hp.
    rewrite E in Hp. destruct Hp as (? & ? & ? & _); auto.
    - rewrite Ht. unfold is_u64. lia.
    - rewrite Hv. done. }
  split; rewrite ?Hnet, ?Hc, ?He; try (intros * Hin; by apply elem_of_nil in Hin).
  - intros i n Hi. destruct (Hnode i n Hi) as (? & ? & _). done.
  - intros i n p Hi Hr. destruct (Hnode i n Hi) as (_ & _ & ?). congruence.
  - intros i n Hi Hr. destruct (Hnode i n Hi) as (_ & _ & ?). congruence.
Qed.

Lemma reachable_inv c : reachable c -> cluster_inv c.
Proof. induction 1; eauto using initial_inv, cluster_step_inv. Qed.

(** C1. Election Safety: whatever the network and crashes do, no two members are ever leaders of
    the same term, at the same time or at different times. *)
Theorem election_safety c t i j :
  reachable c -> (t, i) ∈ elected c -> (t, j) ∈ elected c -> i = j.
Proof.
  intros Hr%reachable_inv Hi Hj.
  destruct (ci_elected _ Hr _ _ Hi) as (Q & HQ & Hci).
  destruct (ci_elected _ Hr _ _ Hj) as (Q' & HQ' & Hcj).
  destruct (quorum_overlap N Q Q' HQ HQ') as (p & Hp & Hp').
  exact (ci_unique _ Hr _ _ _ _ (Hci p Hp) (Hcj p Hp')).
Qed.

(** Votes are binding: a member votes for at most one candidate per term, across restarts,
    and every member keeps the invariant of a well-formed node. *)
Theorem single_vote_per_term c a t p q :
  reachable c -> (a, t, p) ∈ cast c -> (a, t, q) ∈ cast c ->
  p = q /\ exists n, nodes c !! a = Some n /\ node_wf N n /\ remembers n t p.
Proof.
  intros Hr%reachable_inv Hp Hq. split; [by eapply ci_unique |].
  destruct (ci_cast _ Hr _ _ _ Hp) as (n & Hn & Hrem). exists n.
  by destruct (ci_nodes _ Hr _ _ Hn).
Qed.

(** ** Running the cluster *)

Inductive event :=
| Tick (i : nat)
| Deliver (k : nat)
| Propose (i : nat) (cmd : bytes)
| Apply (i : nat)
| Compact (i keep : nat)
| Heartbeat (i : nat) (ticks : Z)
| Restart (i : nat) (seed : Z).

Definition finish (c : cluster) (i : nat) (r : outcome (RaftNode * msgs)) : option cluster :=
  match r with Ok (n, out) => Some (update c i n out) | Panic => None end.

Definition exec_event (c : cluster) (e : event) : option cluster :=
  match e with
  | Tick i =>
    n ← nodes c !! i;
    if decide (current_term n + 1 < 2 ^ 64) then finish c i (tick n) else None
  | Deliver k =>
    '(from, i, m) ← net c !! k;
    n ← nodes c !! i;
    finish c i (step from m n)
  | Propose i cmd => n ← nodes c !! i; finish c i (r ← propose cmd n; Ok (r.1, []))
  | Apply i => n ← nodes c !! i; finish c i (Ok ((take_committed n).1, []))
  | Compact i keep => n ← nodes c !! i; finish c i (r ← maybe_compact keep n; Ok (r, []))
  | Heartbeat i ticks =>
    n ← nodes c !! i;
    if decide (ticks < 2 ^ 59)
    then finish c i (r ← set_heartbeat_period ticks n; Ok (r, [])) else None
  | Restart i seed =>
    n ← nodes c !! i;
    d ← durable (log n);
    finish c i (r ← new_node i N (open_durable d) seed; Ok (r, []))
  end.

Definition exec (c : cluster) (es : list event) : option cluster :=
  foldl (fun o e => c ← o; exec_event c e) (Some c) es.

Lemma finish_Some c i r c' : finish c i r = Some c' ->
  exists n out, r = Ok (n, out) /\ c' = update c i n out.
Proof. destruct r as [[n out] |]; [intros [= <-]; eauto | done]. Qed.

Lemma exec_event_step c e c' : exec_event c e = Some c' -> cluster_step c c'.
Proof.
  destruct e as [i | k | i cmd | i | i keep | i ticks | i seed]; cbn [exec_event]; intros E;
    repeat match goal with
    | H : _ ≫= _ = Some _ |- _ => apply bind_Some in H as (? & ? & H)
    | H : (let '(_, _) := ?x in _) = Some _ |- _ => destruct x
    | H : (if decide ?P then _ else None) = Some _ |- _ => destruct (decide P); [| done]
    | H : finish _ _ _ = Some _ |- _ => apply finish_Some in H as (? & ? & H & ->)
    end; inv_ok; econstructor; eauto.
  - eapply ev_tick; eauto.
  - eapply ev_deliver; [by eapply list_elem_of_lookup_2 | done].
  - match goal with x : RaftNode * option Z |- _ => destruct x end. simpl. by eapply ev_propose.
  - apply ev_apply.
  - by eapply ev_compact.
  - by eapply ev_heartbeat.
  - by eapply ev_restart.
Qed.

Lemma exec_reachable es c c' : reachable c -> exec c es = Some c' -> reachable c'.
Proof.
  revert c. induction es as [| e es IH]; intros c Hr E; unfold exec in E; simpl in E; [by injection E as <- |]. destruct (exec_event c e) as [c1 |] eqn:Ee.
  - eapply (IH c1); [| exact E]. eapply reach_step; [exact Hr | by eapply exec_event_step].
  - exfalso. clear -E. induction es; simpl in E; [done | auto].
Qed.

(** The group freshly started, with the given seeds. *)
Definition start_node (b : bool) (i : nat) (seed : Z) : option (nat * RaftNode) :=
  match new_node i N (fresh_log b) seed with Ok n => Some (i, n) | Panic => None end.

Definition start (b : bool) (seed : nat -> Z) : cluster :=
  mkCluster (list_to_map (omap (fun i => start_node b i (seed i)) N)) [] [] [].

Lemma start_initial b seed : Forall (fun i => is_u64 (Z.of_nat i)) N -> initial (start b seed).
Proof.
  intros HN. split; [| done]. intros i n Hi.
  unfold start in Hi. cbn [nodes] in Hi. apply elem_of_list_to_map_2 in Hi.
  apply list_elem_of_omap in Hi as (k & Hk & Hs). unfold start_node in Hs.
  destruct (new_node k N _ _) as [m |] eqn:E; [| done]. injection Hs as -> ->.
  rewrite Forall_forall in HN. split_and!; eauto.
Qed.

End Cluster.

(** * Runs of a three-member group

    Concrete executions of the cluster of [RaftCluster.v]: an election, the read lease under a
    partition, and log compaction with a lagging member. *)

#[local] Existing Instance ieee_crc32.

Definition three : list nat := [0; 1; 2]%nat.

Definition seeds (s : Z) (i : nat) : Z := s + 101 * Z.of_nat i.

Definition run (b : bool) (s : Z) (es : list event) : cluster :=
  default (start three b (seeds s)) (exec three (start three b (seeds s)) es).

Lemma three_u64 : Forall (fun i => is_u64 (Z.of_nat i)) three.
Proof. apply (bool_decide_unpack _). vm_compute. exact I. Qed.

Lemma run_reachable b s es : reachable three (run b s es).
Proof.
  assert (reachable three (start three b (seeds s))) as H0
    by (apply reach_init, start_initial, three_u64).
  unfold run. destruct (exec _ _ es) as [c |] eqn:E; simpl; [| done].
  exact (exec_reachable three es _ c H0 E).
Qed.

(** Look into a member. *)
Definition at_node {A} (c : cluster) (i : nat) (f : RaftNode -> A) : option A := f <$> nodes c !! i.

(** Member 0 times out and is elected by all three. *)
Definition elect0 : list event := replicate 10 (Tick 0) ++ map Deliver (seq 0 8).

Definition ex_elected : cluster := run true 1 elect0.

Lemma election_safety_witness :
  (1, 0%nat) ∈ elected ex_elected /\ (forall j, (1, j) ∈ elected ex_elected -> 0%nat = j).
Proof.
  assert ((1, 0%nat) ∈ elected ex_elected) as He
    by (apply (bool_decide_unpack _); vm_compute; exact I).
  split; [exact He |]. intros j Hj.
  exact (election_safety three ex_elected 1 0%nat j (run_reachable true 1 elect0) He Hj).
Defined.

(** Member 1 restarts after granting its vote and is asked again, by another candidate. *)
Definition ex_revote : cluster :=
  run true 1 (replicate 10 (Tick 0) ++ [Deliver 0; Restart 1 77] ++ replicate 10 (Tick 2)
    ++ [Deliver 4]).

Lemma single_vote_per_term_witness :
  (1%nat, 1, 0%nat) ∈ cast ex_revote /\
  (1%nat, 2%nat, RequestVoteResp 1 false) ∈ net ex_revote /\
  (forall q, (1%nat, 1, q) ∈ cast ex_revote -> 0%nat = q).
Proof.
  assert ((1%nat, 1, 0%nat) ∈ cast ex_revote) as Hc
    by (apply (bool_decide_unpack _); vm_compute; exact I).
  split_and!; [exact Hc | apply (bool_decide_unpack _); vm_compute; exact I |].
  intros q Hq.
  exact (proj1 (single_vote_per_term three ex_revote 1%nat 1 0%nat q
    (run_reachable true 1 _) Hc Hq)).
Defined.

(** ** The read lease

    Member 0 is elected and acknowledged by both peers, then cut off.  All three clocks advance
    by 14 ticks.  Member 2, whose timeout was drawn as 13, is elected by member 1 and commits a
    write. *)
Definition lease_run : list event :=
  elect0 ++ replicate 13 (Tick 1) ++ replicate 13 (Tick 2)
  ++ [Deliver 9; Deliver 10; Deliver 12; Deliver 13; Propose 2 (bstr "w"); Tick 2; Tick 1;
      Deliver 15; Deliver 16]
  ++ replicate 14 (Tick 0).

(** The read lease is not exclusive: a deposed leader can hold it while the new leader holds
    it too and has committed a write the deposed leader does not have. *)
Theorem read_lease_not_exclusive :
  exists c n0 n2, reachable three c /\ nodes c !! 0%nat = Some n0 /\ nodes c !! 2%nat = Some n2 /\
    has_read_lease n0 = true /\ has_read_lease n2 = true /\
    current_term n0 < current_term n2 /\
    commit_index n2 = 1 /\ command_at (log n2) 1 = Some (bstr "w") /\
    commit_index n0 = 0 /\ command_at (log n0) 1 = None.
Proof.
  exists (run true 1 lease_run).
  destruct (nodes (run true 1 lease_run) !! 0%nat) as [n0 |] eqn:E0; [| vm_compute in E0; done].
  destruct (nodes (run true 1 lease_run) !! 2%nat) as [n2 |] eqn:E2; [| vm_compute in E2; done].
  exists n0, n2. split; [apply run_reachable |].
  vm_compute in E0, E2. injection E0 as <-. injection E2 as <-.
  vm_compute. repeat split.
Qed.

(** ** Compaction

    In-memory logs, as the server creates them, compacted at 256 live entries.  Members 0 and 1
    replicate and apply 257 commands; member 2 hears nothing.  Member 1, still a follower,
    compacts everything it has applied, and is then elected by member 2. *)
Definition compact_run : list event :=
  elect0 ++ replicate 257 (Propose 0 (bstr "a"))
  ++ [Tick 0; Deliver 8; Deliver 10; Tick 0; Deliver 11; Apply 0; Apply 1; Compact 1 256]
  ++ replicate 16 (Tick 1)
  ++ [Deliver 15; Deliver 16; Deliver 18; Deliver 19; Deliver 20; Deliver 21;
      Propose 1 (bstr "c"); Tick 1; Deliver 23; Deliver 24; Tick 1; Deliver 26].

(** C40. A member elected after compacting as a follower has no entries left for a member that lags
    behind its snapshot: it sends its entry 258 after prev index 256 with prev term 0, the lagging
    member accepts it into an empty log, and then applies it as its command 1, where the others
    applied another command. *)
Theorem compaction_diverges :
  exists c n0 n2, reachable three c /\ nodes c !! 0%nat = Some n0 /\ nodes c !! 2%nat = Some n2 /\
    1 <= last_applied n0 /\ command_at (log n0) 1 = Some (bstr "a") /\
    entries (log n2) = [mkEntry 2 258 (bstr "c")] /\ ~ log_wf (log n2) /\
    (take_committed n2).2 = [(1, bstr "c")].
Proof.
  exists (run false 1 compact_run).
  assert (at_node (run false 1 compact_run) 0 (fun n => (last_applied n, command_at (log n) 1))
    = Some (257, Some (bstr "a"))) as H0 by (vm_compute; reflexivity).
  assert (at_node (run false 1 compact_run) 2
      (fun n => (snapshot_index (log n), entries (log n), (take_committed n).2))
    = Some (0, [mkEntry 2 258 (bstr "c")], [(1, bstr "c")])) as H2 by (vm_compute; reflexivity).
  pose proof (run_reachable false 1 compact_run) as Hr.
  revert H0 H2 Hr. generalize (run false 1 compact_run). intros c H0 H2 Hr.
  unfold at_node in H0, H2. apply fmap_Some in H0 as (n0 & E0 & F0). apply fmap_Some in H2 as (n2 & E2 & F2).
  injection F0 as Ha Hc0. injection F2 as Hs He Ht.
  exists n0, n2. split_and!; auto; [lia |]. intros [Hc _ _]. rewrite <- He, <- Hs in Hc.
  specialize (Hc 0%nat _ eq_refl). discriminate Hc.
Qed.
