(* ===== verification/CpReply.v ===== *)
(** * Replies of the CP objects (CpReply of crates/raft/src/cp.rs) *)

From S2P Require Import Prelude.

Inductive CpReply :=
| RLong (v : Z)
| RBool (b : bool)
| RData (d : option bytes)
| RNil.

#[global] Instance CpReply_eq_dec : EqDecision CpReply.
Proof. solve_decision. Defined.
