(* ===== verification/AtomicLong.v ===== *)
(** * The replicated AtomicLong (crates/raft/src/atomiclong.rs)

    Operations, their command encoding, and the state machine that applies them. *)

From S2P Require Import Prelude.

Inductive AlOp :=
| AlGet
| AlSet (v : Z)
| AlGetAndSet (v : Z)
| AlAddAndGet (d : Z)
| AlGetAndAdd (d : Z)
| AlCompareAndSet (e n : Z).

Inductive AlReply :=
| AlLong (v : Z)
| AlBool (b : bool)
| AlNone.

(** [[tag][a:i64][b:i64][name]] *)
Definition encode (name : bytes) (op : AlOp) : bytes :=
  let '(tag, a, b) :=
    match op with
    | AlGet => (0, 0, 0)
    | AlSet v => (1, v, 0)
    | AlGetAndSet v => (2, v, 0)
    | AlAddAndGet d => (3, d, 0)
    | AlGetAndAdd d => (4, d, 0)
    | AlCompareAndSet e n => (5, e, n)
    end in
  b8 tag :: to_le 8 a ++ to_le 8 b ++ name.

Definition decode (body : bytes) : option (bytes * AlOp) :=
  if blen body <? 17 then None else
  '(tag, r) ← get_byte body;
  '(a, r) ← get_i 8 r;
  '(b, r) ← get_i 8 r;
  name ← from_utf8 r;
  op ← match u8 tag with
       | 0 => Some AlGet
       | 1 => Some (AlSet a)
       | 2 => Some (AlGetAndSet a)
       | 3 => Some (AlAddAndGet a)
       | 4 => Some (AlGetAndAdd a)
       | 5 => Some (AlCompareAndSet a b)
       | _ => None
       end;
  Some (name, op).

Record AtomicLongSm := mk_AtomicLongSm { values : gmap bytes Z }.

Definition new_atomic_long : AtomicLongSm := mk_AtomicLongSm ∅.

(** The current value of [name]: 0 if it was never set. *)
Definition get (sm : AtomicLongSm) (name : bytes) : Z := default 0 (values sm !! name).

(** The operation on the cell that [entry(name).or_insert(0)] borrows: its new value and reply. *)
Definition cell (op : AlOp) (v : Z) : Z * AlReply :=
  match op with
  | AlGet => (v, AlLong v)
  | AlSet n => (n, AlNone)
  | AlGetAndSet n => (n, AlLong v)
  | AlAddAndGet d => (wrap_i64 (v + d), AlLong (wrap_i64 (v + d)))
  | AlGetAndAdd d => (wrap_i64 (v + d), AlLong v)
  | AlCompareAndSet e n => if v =? e then (n, AlBool true) else (v, AlBool false)
  end.

Definition apply (sm : AtomicLongSm) (command : bytes) : AtomicLongSm * AlReply :=
  match decode command with
  | None => (sm, AlNone)
  | Some (name, op) =>
    let '(v, reply) := cell op (get sm name) in
    (mk_AtomicLongSm (<[name := v]> (values sm)), reply)
  end.

(** ** Encoding *)

Definition op_ok (op : AlOp) : Prop :=
  match op with
  | AlGet => True
  | AlSet v | AlGetAndSet v | AlAddAndGet v | AlGetAndAdd v => is_i64 v
  | AlCompareAndSet e n => is_i64 e /\ is_i64 n
  end.

Lemma al_decode_encode name op :
  utf8_valid name = true -> op_ok op -> decode (encode name op) = Some (name, op).
Proof.
  intros Hn Ho. unfold decode, encode.
  assert (is_i64 0) by done.
  destruct op; simpl in Ho; try destruct Ho;
    rewrite blen_cons, !blen_app, !blen_to_le;
    (rewrite (proj2 (Z.ltb_ge _ _)) by (pose proof (blen_nonneg name); lia));
    run_codec.
Qed.

#[export] Program Instance al_codec : Codec (bytes * AlOp) := {|
  enc '(name, op) := encode name op;
  dec := decode;
  enc_ok '(name, op) := utf8_valid name = true /\ op_ok op
|}.
Next Obligation. intros [name op] [? ?]. apply al_decode_encode; done. Qed.

(** ** The named cells are independent atomic registers *)

Lemma al_apply_encode sm name op :
  utf8_valid name = true -> op_ok op ->
  exists sm', apply sm (encode name op) = (sm', snd (cell op (get sm name)))
    /\ get sm' name = fst (cell op (get sm name))
    /\ forall other, other <> name -> get sm' other = get sm other.
Proof.
  intros Hn Ho. unfold apply. rewrite al_decode_encode by done.
  destruct (cell op (get sm name)) as [v r]. eexists. split_and!; [done | |].
  - unfold get at 1. simpl. rewrite lookup_insert_eq. done.
  - intros other Hne. unfold get. simpl. rewrite lookup_insert_ne by done. done.
Qed.

(** What an operation adds to its cell, if it does nothing else to it. *)
Definition delta (op : AlOp) : option Z :=
  match op with
  | AlGet => Some 0
  | AlAddAndGet d | AlGetAndAdd d => Some d
  | _ => None
  end.

(** The increment a command makes to [name]. *)
Definition increment_of (name : bytes) (c : bytes) : Z :=
  match decode c with
  | Some (n, op) => if decide (n = name) then default 0 (delta op) else 0
  | None => 0
  end.

(** A command that leaves [name] alone or adds to it. *)
Definition adds_or_reads (name : bytes) (c : bytes) : Prop :=
  match decode c with
  | Some (n, op) => n = name -> is_Some (delta op)
  | None => True
  end.

Definition total (name : bytes) (cs : list bytes) : Z :=
  foldr (fun c s => increment_of name c + s) 0 cs.

Lemma wrap_i64_add_l a b : wrap_i64 (wrap_i64 a + b) = wrap_i64 (a + b).
Proof.
  unfold wrap_i64, wrap_s. f_equal.
  replace ((a + 2 ^ (64 - 1)) mod 2 ^ 64 - 2 ^ (64 - 1) + b + 2 ^ (64 - 1))
    with ((a + 2 ^ (64 - 1)) mod 2 ^ 64 + b) by lia.
  rewrite Z.add_mod_idemp_l by done. f_equal. lia.
Qed.

Lemma apply_adds sm name c :
  is_i64 (get sm name) -> adds_or_reads name c ->
  get (fst (apply sm c)) name = wrap_i64 (get sm name + increment_of name c).
Proof.
  intros Hi Ha. unfold apply, adds_or_reads, increment_of in *.
  destruct (decode c) as [[n op] |]; simpl; [| rewrite Z.add_0_r, wrap_i64_small; done].
  destruct (decide (n = name)) as [-> | Hne].
  - destruct (Ha eq_refl) as [d Hd].
    destruct op; simplify_eq/=; unfold get at 1; simpl; rewrite lookup_insert_eq;
      simpl; [rewrite Z.add_0_r, wrap_i64_small | |]; done.
  - destruct (cell op (get sm n)) as [v r]. simpl. unfold get at 1. simpl.
    rewrite lookup_insert_ne by done. rewrite Z.add_0_r. symmetry. apply wrap_i64_small. exact Hi.
Qed.

(** No increment is lost: after any sequence of committed commands that only reads or adds to
    [name] (commands on other names interleaved at will), its value is the 64-bit wrap-around sum
    of the initial value and all the increments addressed to it. *)
Theorem no_lost_increment sm name cs :
  is_i64 (get sm name) -> Forall (adds_or_reads name) cs ->
  get (fst (run_all apply sm cs)) name = wrap_i64 (get sm name + total name cs).
Proof.
  intros Hi Hcs. revert sm Hi.
  induction Hcs as [| c cs Hc _ IH]; intros sm Hi; simpl.
  - rewrite Z.add_0_r, wrap_i64_small; done.
  - pose proof (apply_adds sm name c Hi Hc) as E.
    destruct (apply sm c) as [sm' r]. simpl in E.
    assert (is_i64 (get sm' name)) as Hi' by (rewrite E; apply wrap_i64_range).
    specialize (IH sm' Hi'). destruct (run_all apply sm' cs) as [sm'' rs]. simpl in *.
    rewrite IH, E, wrap_i64_add_l. f_equal. unfold total. lia.
Qed.

Lemma no_lost_increment_witness :
  get (fst (run_all apply new_atomic_long
    [encode (bstr "c") (AlAddAndGet (2 ^ 63 - 1)); encode (bstr "d") (AlSet 9);
     encode (bstr "c") (AlGetAndAdd 2); encode (bstr "c") AlGet])) (bstr "c") = - 2 ^ 63 + 1.
Proof.
  rewrite no_lost_increment.
  - vm_compute. reflexivity.
  - vm_compute. split; congruence.
  - repeat constructor; unfold adds_or_reads; rewrite al_decode_encode by done; simpl;
      first [by eauto | discriminate].
Defined.
