(* ===== verification/AtomicRef.v ===== *)
(** * The replicated AtomicReference (crates/raft/src/atomicref.rs)

    A named cell that holds opaque bytes or null. *)

From S2P Require Import Prelude CpReply.

Inductive ArOp :=
| ArGet
| ArSet (v : option bytes)
| ArGetAndSet (v : option bytes)
| ArCompareAndSet (e u : option bytes)
| ArContains (v : option bytes)
| ArIsNull
| ArClear.

Definition put_opt (v : option bytes) : bytes :=
  match v with
  | Some b => b8 1 :: put_lp 4 b
  | None => [b8 0]
  end.

Definition get_opt (b : bytes) : option (option bytes * bytes) :=
  '(tag, r) ← get_byte b;
  if u8 tag =? 0 then Some (None, r) else
  '(v, r) ← get_lp 4 r; Some (Some v, r).

(** [[tag][args...][name]] *)
Definition encode (name : bytes) (op : ArOp) : bytes :=
  match op with
  | ArGet => [b8 0]
  | ArSet v => b8 1 :: put_opt v
  | ArGetAndSet v => b8 2 :: put_opt v
  | ArCompareAndSet e u => b8 3 :: put_opt e ++ put_opt u
  | ArContains v => b8 4 :: put_opt v
  | ArIsNull => [b8 5]
  | ArClear => [b8 6]
  end ++ name.

Definition decode (body : bytes) : option (bytes * ArOp) :=
  '(tag, r) ← get_byte body;
  '(op, r) ← match u8 tag with
             | 0 => Some (ArGet, r)
             | 1 => '(v, r) ← get_opt r; Some (ArSet v, r)
             | 2 => '(v, r) ← get_opt r; Some (ArGetAndSet v, r)
             | 3 => '(e, r) ← get_opt r; '(u, r) ← get_opt r; Some (ArCompareAndSet e u, r)
             | 4 => '(v, r) ← get_opt r; Some (ArContains v, r)
             | 5 => Some (ArIsNull, r)
             | 6 => Some (ArClear, r)
             | _ => None
             end;
  name ← from_utf8 r;
  Some (name, op).

(** An absent key is the null reference. *)
Record AtomicReferenceSm := mk_AtomicReferenceSm { values : gmap bytes bytes }.

Definition new_atomic_ref : AtomicReferenceSm := mk_AtomicReferenceSm ∅.

Definition get (sm : AtomicReferenceSm) (name : bytes) : option bytes := values sm !! name.

Definition store (sm : AtomicReferenceSm) (name : bytes) (v : option bytes) : AtomicReferenceSm :=
  match v with
  | Some b => mk_AtomicReferenceSm (<[name := b]> (values sm))
  | None => mk_AtomicReferenceSm (delete name (values sm))
  end.

Definition apply (sm : AtomicReferenceSm) (body : bytes) : AtomicReferenceSm * CpReply :=
  match decode body with
  | None => (sm, RNil)
  | Some (name, op) =>
    match op with
    | ArGet => (sm, RData (values sm !! name))
    | ArSet v => (store sm name v, RNil)
    | ArGetAndSet v => (store sm name v, RData (values sm !! name))
    | ArCompareAndSet expected update =>
      if decide (values sm !! name = expected)
      then (store sm name update, RBool true) else (sm, RBool false)
    | ArContains v => (sm, RBool (bool_decide (values sm !! name = v)))
    | ArIsNull => (sm, RBool (negb (bool_decide (is_Some (values sm !! name)))))
    | ArClear => (mk_AtomicReferenceSm (delete name (values sm)), RNil)
    end
  end.

(** ** Encoding *)

(** A blob's length is written as a [u32]. *)
Definition opt_ok (v : option bytes) : Prop :=
  match v with Some b => is_u32 (blen b) | None => True end.

Definition op_ok (op : ArOp) : Prop :=
  match op with
  | ArGet | ArIsNull | ArClear => True
  | ArSet v | ArGetAndSet v | ArContains v => opt_ok v
  | ArCompareAndSet e u => opt_ok e /\ opt_ok u
  end.

Lemma get_opt_put_opt v r : opt_ok v -> get_opt (put_opt v ++ r) = Some (v, r).
Proof.
  intros H. destruct v as [b |]; [| done]. simpl in H. unfold get_opt, put_opt.
  cbn [app mbind option_bind get_byte]. change (u8 (b8 1) =? 0) with false. run_codec.
Qed.

#[local] Hint Rewrite get_opt_put_opt using (solve [assumption | done]) : codec.

Lemma ar_decode_encode name op :
  utf8_valid name = true -> op_ok op -> decode (encode name op) = Some (name, op).
Proof.
  intros Hn Ho. unfold decode, encode.
  destruct op; simpl in Ho; try destruct Ho; cbn [app mbind option_bind get_byte]; run_codec.
Qed.

#[export] Program Instance ar_codec : Codec (bytes * ArOp) := {|
  enc '(name, op) := encode name op;
  dec := decode;
  enc_ok '(name, op) := utf8_valid name = true /\ op_ok op
|}.
Next Obligation. intros [name op] [? ?]. apply ar_decode_encode; done. Qed.

(** ** The cell *)

Lemma get_store sm name v : get (store sm name v) name = v.
Proof.
  unfold get. destruct v; simpl; [apply lookup_insert_eq | apply lookup_delete_eq].
Qed.

Lemma get_store_ne sm name other v : other <> name -> get (store sm name v) other = get sm other.
Proof.
  intros H. unfold get. destruct v; simpl; [apply lookup_insert_ne | apply lookup_delete_ne]; done.
Qed.

(** The attempts of several clients to move the reference [name] away from [e]: each command is a
    compare-and-set of [name] from [e] to something else, a read of [name], or a command on
    another name. *)
Definition contends (name : bytes) (e : option bytes) (c : bytes) : Prop :=
  match decode c with
  | Some (n, op) =>
    n = name ->
    match op with
    | ArCompareAndSet e' u => e' = e /\ u <> e
    | ArGet | ArContains _ | ArIsNull => True
    | _ => False
    end
  | None => True
  end.

(** The winners: the compare-and-sets of [name] that answered [true], by position. *)
Definition wins (name : bytes) (c : bytes) (r : CpReply) : bool :=
  match decode c, r with
  | Some (n, ArCompareAndSet _ _), RBool true => bool_decide (n = name)
  | _, _ => false
  end.

Definition winners (name : bytes) (cs : list bytes) (rs : list CpReply) : nat :=
  length (filter (fun p => wins name (fst p) (snd p) = true) (zip cs rs)).

Lemma contends_step sm name e c :
  contends name e c ->
  let '(sm', r) := apply sm c in
  if wins name c r then get sm name = e /\ get sm' name <> e else get sm' name = get sm name.
Proof.
  unfold contends, apply, wins. destruct (decode c) as [[n op] |]; [| done].
  intros H. destruct (decide (n = name)) as [-> | Hne].
  - specialize (H eq_refl). destruct op; try done.
    destruct H as [-> Hu]. case_decide as E; [| done]. rewrite bool_decide_true by done.
    rewrite get_store. done.
  - clear H.
    destruct op; try done; try (apply get_store_ne; congruence).
    + case_decide; [| done]. rewrite bool_decide_false by done. apply get_store_ne. congruence.
    + unfold get. simpl. apply lookup_delete_ne. done.
Qed.

Lemma no_winner_after sm name e cs :
  get sm name <> e -> Forall (contends name e) cs ->
  winners name cs (snd (run_all apply sm cs)) = 0%nat.
Proof.
  intros Hv Hcs. revert sm Hv. induction Hcs as [| c cs Hc _ IH]; intros sm Hv; simpl; [done |].
  pose proof (contends_step sm name e c Hc) as H. destruct (apply sm c) as [sm' r].
  destruct (wins name c r) eqn:E; [destruct H; done |].
  assert (get sm' name <> e) as Hv' by congruence. specialize (IH sm' Hv').
  destruct (run_all apply sm' cs) as [sm'' rs]. simpl in *. unfold winners in *. simpl.
  rewrite filter_cons, decide_False by (simpl; congruence). exact IH.
Qed.

(** Compare-and-set elects: whatever the order in which the group commits the attempts of any
    number of clients to move a reference away from [e], at most one of them is answered [true]. *)
Theorem compare_and_set_single_winner sm name e cs :
  Forall (contends name e) cs -> (winners name cs (snd (run_all apply sm cs)) <= 1)%nat.
Proof.
  intros Hcs. revert sm. induction Hcs as [| c cs Hc Hcs IH]; intros sm; simpl; [cbn; lia |].
  pose proof (contends_step sm name e c Hc) as H. destruct (apply sm c) as [sm' r].
  specialize (IH sm'). pose proof (no_winner_after sm' name e cs) as Hno.
  destruct (run_all apply sm' cs) as [sm'' rs]. simpl in *. unfold winners in *. simpl.
  rewrite filter_cons. simpl. destruct (wins name c r) eqn:E.
  - rewrite decide_True by done. simpl. rewrite Hno; [lia | apply H | done].
  - rewrite decide_False by done. exact IH.
Qed.

Lemma compare_and_set_single_winner_witness :
  let cas u := encode (bstr "r") (ArCompareAndSet None (Some u)) in
  let cs := [cas (bstr "a"); encode (bstr "r") ArGet; cas (bstr "b"); encode (bstr "s") (ArSet None); cas (bstr "c")] in
  snd (run_all apply new_atomic_ref cs)
    = [RBool true; RData (Some (bstr "a")); RBool false; RNil; RBool false]
  /\ (winners (bstr "r") cs (snd (run_all apply new_atomic_ref cs)) <= 1)%nat.
Proof.
  intros cas cs. split; [vm_compute; reflexivity |].
  apply (compare_and_set_single_winner _ _ None).
  repeat constructor; unfold contends, cas; rewrite ar_decode_encode by done; done.
Defined.
