(* ===== verification/CountDownLatch.v ===== *)
(** * The replicated CountDownLatch (crates/raft/src/countdownlatch.rs) *)

From S2P Require Import Prelude CpReply.

Inductive CdlOp :=
| CdlGetCount
| CdlCountDown
| CdlTrySetCount (n : Z).

(** [[tag][i32?][name]] *)
Definition encode (name : bytes) (op : CdlOp) : bytes :=
  match op with
  | CdlGetCount => [b8 0]
  | CdlCountDown => [b8 1]
  | CdlTrySetCount n => b8 2 :: to_le 4 n
  end ++ name.

Definition decode (body : bytes) : option (bytes * CdlOp) :=
  '(tag, r) ← get_byte body;
  '(op, r) ← match u8 tag with
             | 0 => Some (CdlGetCount, r)
             | 1 => Some (CdlCountDown, r)
             | 2 => '(n, r) ← get_i 4 r; Some (CdlTrySetCount n, r)
             | _ => None
             end;
  name ← from_utf8 r;
  Some (name, op).

Record CountDownLatchSm := mk_CountDownLatchSm { counts : gmap bytes Z }.

Definition new_countdown_latch : CountDownLatchSm := mk_CountDownLatchSm ∅.

Definition count (sm : CountDownLatchSm) (name : bytes) : Z := default 0 (counts sm !! name).

Definition apply (sm : CountDownLatchSm) (body : bytes) : CountDownLatchSm * CpReply :=
  match decode body with
  | None => (sm, RNil)
  | Some (name, op) =>
    match op with
    | CdlGetCount => (sm, RLong (count sm name))
    | CdlCountDown =>
      (mk_CountDownLatchSm (<[name := Z.max (wrap_i32 (count sm name - 1)) 0]> (counts sm)), RNil)
    | CdlTrySetCount n =>
      if count sm name =? 0
      then (mk_CountDownLatchSm (<[name := Z.max n 0]> (counts sm)), RBool true)
      else (mk_CountDownLatchSm (<[name := count sm name]> (counts sm)), RBool false)
    end
  end.

(** ** Encoding *)

Definition op_ok (op : CdlOp) : Prop :=
  match op with CdlTrySetCount n => is_i32 n | _ => True end.

Lemma cdl_decode_encode name op :
  utf8_valid name = true -> op_ok op -> decode (encode name op) = Some (name, op).
Proof.
  intros Hn Ho. unfold decode, encode.
  destruct op; simpl in Ho; cbn [app mbind option_bind get_byte]; run_codec.
Qed.

#[export] Program Instance cdl_codec : Codec (bytes * CdlOp) := {|
  enc '(name, op) := encode name op;
  dec := decode;
  enc_ok '(name, op) := utf8_valid name = true /\ op_ok op
|}.
Next Obligation. intros [name op] [? ?]. apply cdl_decode_encode; done. Qed.

(** ** Counting *)

Lemma count_insert sm name v other :
  count (mk_CountDownLatchSm (<[name := v]> (counts sm))) other =
    if decide (name = other) then v else count sm other.
Proof.
  unfold count. simpl. case_decide; [subst; rewrite lookup_insert_eq | rewrite lookup_insert_ne]; done.
Qed.

(** Whether a command counts [name] down, and whether it may set it. *)
Definition counts_down (name : bytes) (c : bytes) : bool :=
  match decode c with Some (n, CdlCountDown) => bool_decide (n = name) | _ => false end.

Definition downs (name : bytes) (cs : list bytes) : Z :=
  foldr (fun c s => (if counts_down name c then 1 else 0) + s) 0 cs.

Definition count_ok (sm : CountDownLatchSm) (name : bytes) : Prop := 0 <= count sm name < 2 ^ 31.

Lemma decode_try_set_ok c name n : decode c = Some (name, CdlTrySetCount n) -> is_i32 n.
Proof.
  intros H. inv_dec H. by eapply get_i32_range.
Qed.

Lemma apply_count_ok sm name c : count_ok sm name -> count_ok (fst (apply sm c)) name.
Proof.
  unfold count_ok. intros H. unfold apply. destruct (decode c) as [[n op] |] eqn:E; [| done].
  destruct op as [| | v]; simpl; [done | |].
  - rewrite count_insert. case_decide; [subst | done].
    rewrite wrap_i32_small by (unfold is_i32; lia). lia.
  - apply decode_try_set_ok in E. unfold is_i32 in E.
    case (Z.eqb_spec (count sm n) 0); intros; simpl; rewrite count_insert; case_decide; subst; lia.
Qed.

Lemma apply_closed sm name c :
  count_ok sm name -> 0 < count sm name ->
  count (fst (apply sm c)) name = count sm name - (if counts_down name c then 1 else 0).
Proof.
  unfold count_ok. intros H Hpos. unfold apply, counts_down.
  destruct (decode c) as [[n op] |]; [| simpl; lia].
  destruct op as [| | v]; simpl; [lia | |].
  - rewrite count_insert. case_decide; [subst; rewrite bool_decide_true by done |
      rewrite bool_decide_false by done; lia].
    rewrite wrap_i32_small by (unfold is_i32; lia). lia.
  - case (Z.eqb_spec (count sm n) 0); intros; simpl; rewrite count_insert; case_decide; subst; lia.
Qed.

Lemma downs_nonneg name cs : 0 <= downs name cs.
Proof. induction cs as [| c cs IH]; simpl; [lia | destruct (counts_down name c); lia]. Qed.

Lemma closed_run sm name cs :
  count_ok sm name -> downs name cs < count sm name ->
  count_ok (fst (run_all apply sm cs)) name
  /\ count (fst (run_all apply sm cs)) name = count sm name - downs name cs.
Proof.
  revert sm. induction cs as [| c cs IH]; intros sm Hok Hlt; simpl in *; [split; [done | lia] |].
  pose proof (downs_nonneg name cs) as Hnn.
  pose proof (apply_count_ok sm name c Hok) as Hok'.
  pose proof (apply_closed sm name c Hok) as E.
  destruct (apply sm c) as [sm' r]. simpl in *.
  specialize (IH sm' Hok'). rewrite E in IH by (destruct (counts_down name c); lia).
  destruct (run_all apply sm' cs). simpl in *. destruct IH; [lia | split; [done | lia]].
Qed.

(** A latch opens after exactly its count of count-downs: from count [n > 0], whatever other
    commands are committed (attempts to set the count included), the count is [n] minus the number
    of count-downs of that latch as long as there were fewer than [n]; and the [n]-th count-down
    brings it to 0. *)
Theorem latch_opens_at_zero sm name cs :
  count_ok sm name -> downs name cs < count sm name ->
  let sm' := fst (run_all apply sm cs) in
  count sm' name = count sm name - downs name cs
  /\ (utf8_valid name = true -> downs name cs = count sm name - 1 ->
      count (fst (apply sm' (encode name CdlCountDown))) name = 0).
Proof.
  intros Hok Hlt. simpl.
  destruct (closed_run sm name cs Hok Hlt) as [Hok' E].
  split; [exact E |]. intros Hn Hlast. rewrite apply_closed by (done || lia).
  unfold counts_down. rewrite cdl_decode_encode by done. rewrite bool_decide_true by done. lia.
Qed.

Lemma latch_opens_at_zero_witness :
  let set n := encode (bstr "l") (CdlTrySetCount n) in
  let sm := fst (apply new_countdown_latch (set 2)) in
  count sm (bstr "l") = 2
  /\ count (fst (run_all apply sm [set 7; encode (bstr "l") CdlCountDown; set 5])) (bstr "l") = 1.
Proof.
  intros set sm. split; [vm_compute; reflexivity |].
  destruct (latch_opens_at_zero sm (bstr "l") [set 7; encode (bstr "l") CdlCountDown; set 5])
    as [E _]; [vm_compute; split; congruence | vm_compute; reflexivity |].
  rewrite E. vm_compute. reflexivity.
Defined.
