(* ===== verification/Semaphore.v ===== *)
(** * The replicated Semaphore (crates/raft/src/semaphore.rs) *)

From S2P Require Import Prelude CpReply.

Inductive SemOp :=
| SemInit (n : Z)
| SemAcquire (n : Z)
| SemRelease (n : Z)
| SemDrain
| SemAvailablePermits.

Definition encode (name : bytes) (op : SemOp) : bytes :=
  match op with
  | SemInit n => b8 0 :: to_le 4 n
  | SemAcquire n => b8 1 :: to_le 4 n
  | SemRelease n => b8 2 :: to_le 4 n
  | SemDrain => [b8 3]
  | SemAvailablePermits => [b8 4]
  end ++ name.

Definition decode (body : bytes) : option (bytes * SemOp) :=
  '(tag, r) ← get_byte body;
  '(op, r) ← match u8 tag with
             | 0 => '(n, r) ← get_i 4 r; Some (SemInit n, r)
             | 1 => '(n, r) ← get_i 4 r; Some (SemAcquire n, r)
             | 2 => '(n, r) ← get_i 4 r; Some (SemRelease n, r)
             | 3 => Some (SemDrain, r)
             | 4 => Some (SemAvailablePermits, r)
             | _ => None
             end;
  name ← from_utf8 r;
  Some (name, op).

Record SemaphoreSm := mk_SemaphoreSm { permits : gmap bytes Z }.

Definition new_semaphore : SemaphoreSm := mk_SemaphoreSm ∅.

Definition available (sm : SemaphoreSm) (name : bytes) : Z := default 0 (permits sm !! name).

Definition set_permits (sm : SemaphoreSm) (name : bytes) (v : Z) : SemaphoreSm :=
  mk_SemaphoreSm (<[name := v]> (permits sm)).

Definition apply (sm : SemaphoreSm) (body : bytes) : SemaphoreSm * CpReply :=
  match decode body with
  | None => (sm, RNil)
  | Some (name, op) =>
    (* [entry(name).or_insert(0)] leaves the permits it found, or 0, behind *)
    let p := available sm name in
    match op with
    | SemInit n =>
      match permits sm !! name with
      | None => (set_permits sm name (Z.max n 0), RBool true)
      | Some _ => (sm, RBool false)
      end
    | SemAcquire n =>
      if (0 <=? n) && (n <=? p)
      then (set_permits sm name (wrap_i32 (p - n)), RBool true)
      else (set_permits sm name p, RBool false)
    | SemRelease n => (set_permits sm name (wrap_i32 (p + Z.max n 0)), RBool true)
    | SemDrain => (set_permits sm name 0, RLong p)
    | SemAvailablePermits => (sm, RLong p)
    end
  end.

(** ** Encoding *)

Definition op_ok (op : SemOp) : Prop :=
  match op with SemInit n | SemAcquire n | SemRelease n => is_i32 n | _ => True end.

Lemma sem_decode_encode name op :
  utf8_valid name = true -> op_ok op -> decode (encode name op) = Some (name, op).
Proof.
  intros Hn Ho. unfold decode, encode.
  destruct op; simpl in Ho; cbn [app mbind option_bind get_byte]; run_codec.
Qed.

#[export] Program Instance sem_codec : Codec (bytes * SemOp) := {|
  enc '(name, op) := encode name op;
  dec := decode;
  enc_ok '(name, op) := utf8_valid name = true /\ op_ok op
|}.
Next Obligation. intros [name op] [? ?]. apply sem_decode_encode; done. Qed.

(** ** Permits are conserved *)

Lemma available_set_permits sm name v other :
  available (set_permits sm name v) other = if decide (name = other) then v else available sm other.
Proof.
  unfold available. simpl. case_decide; [subst; rewrite lookup_insert_eq | rewrite lookup_insert_ne]; done.
Qed.

(** The permits a command puts into [name] and takes out of it, read off the command and the reply
    its client saw. *)
Definition put_in (name : bytes) (c : bytes) (r : CpReply) : Z :=
  match decode c, r with
  | Some (n, SemInit v), RBool true | Some (n, SemRelease v), RBool true =>
    if decide (n = name) then Z.max v 0 else 0
  | _, _ => 0
  end.

Definition taken (name : bytes) (c : bytes) (r : CpReply) : Z :=
  match decode c, r with
  | Some (n, SemAcquire v), RBool true => if decide (n = name) then v else 0
  | Some (n, SemDrain), RLong d => if decide (n = name) then d else 0
  | _, _ => 0
  end.

Definition total (f : bytes -> CpReply -> Z) (cs : list bytes) (rs : list CpReply) : Z :=
  foldr (fun p s => f (fst p) (snd p) + s) 0 (zip cs rs).

Lemma put_in_nonneg name c r : 0 <= put_in name c r.
Proof. unfold put_in. repeat case_match; lia. Qed.

Lemma total_put_in_nonneg name cs rs : 0 <= total (put_in name) cs rs.
Proof.
  unfold total. induction (zip cs rs) as [| [c r] k IH]; simpl; [lia |].
  pose proof (put_in_nonneg name c r). lia.
Qed.

Lemma apply_conserves sm name c :
  0 <= available sm name ->
  let '(sm', r) := apply sm c in
  available sm name + put_in name c r < 2 ^ 31 ->
  available sm' name = available sm name + put_in name c r - taken name c r
  /\ 0 <= available sm' name /\ 0 <= taken name c r.
Proof.
  intros Hnn. unfold apply, put_in, taken. destruct (decode c) as [[n op] |]; [| simpl; lia].
  destruct op as [v | v | v | |]; simpl.
  - destruct (permits sm !! n) eqn:E; [lia |]. rewrite available_set_permits.
    case_decide; [subst | lia]. assert (available sm name = 0) by (unfold available; by rewrite E). lia.
  - case (Z.leb_spec 0 v); case (Z.leb_spec v (available sm n)); intros; simpl;
      rewrite available_set_permits; case_decide; subst; intros; try lia.
    rewrite wrap_i32_small by (unfold is_i32; lia). lia.
  - rewrite available_set_permits. case_decide; [subst | lia]. intros.
    rewrite wrap_i32_small by (unfold is_i32; lia). lia.
  - rewrite available_set_permits. case_decide; subst; lia.
  - lia.
Qed.

(** Permits are conserved: over any sequence of commands, as long as the permits put into a
    semaphore fit an [i32], the available permits are the initial ones plus those put in by
    successful initialisations and releases minus those handed out by successful acquisitions and
    drains, and never negative: no client is granted a permit that was not there. *)
Theorem permits_conserved sm name cs :
  let '(sm', rs) := run_all apply sm cs in
  0 <= available sm name -> available sm name + total (put_in name) cs rs < 2 ^ 31 ->
  available sm' name = available sm name + total (put_in name) cs rs - total (taken name) cs rs
  /\ 0 <= available sm' name /\ 0 <= total (taken name) cs rs.
Proof.
  revert sm. induction cs as [| c cs IH]; intros sm; simpl; [cbn; lia |].
  pose proof (apply_conserves sm name c) as H. destruct (apply sm c) as [sm' r].
  specialize (IH sm'). destruct (run_all apply sm' cs) as [sm'' rs].
  intros Hnn. cbn [total zip zip_with foldr fst snd]. fold (total (put_in name) cs rs).
  fold (total (taken name) cs rs). pose proof (total_put_in_nonneg name cs rs).
  intros Hlt. destruct (H Hnn) as (E & Hnn' & Ht); [lia |].
  destruct (IH Hnn') as (E' & Hnn'' & Ht'); [lia |]. rewrite E', E. lia.
Qed.

Lemma permits_conserved_witness :
  let op o := encode (bstr "s") o in
  let cs := [op (SemInit 3); op (SemAcquire 2); op (SemAcquire 2); op (SemRelease 5); op SemDrain] in
  let '(sm', rs) := run_all apply new_semaphore cs in
  rs = [RBool true; RBool true; RBool false; RBool true; RLong 6]
  /\ available sm' (bstr "s") = 0 + 8 - 8.
Proof.
  intros op cs. pose proof (permits_conserved new_semaphore (bstr "s") cs) as H.
  destruct (run_all apply new_semaphore cs) as [sm' rs] eqn:E.
  assert (rs = snd (run_all apply new_semaphore cs)) as -> by (rewrite E; done).
  split; [vm_compute; reflexivity |].
  destruct H as [H _]; [vm_compute; congruence | vm_compute; reflexivity |].
  rewrite H. vm_compute. reflexivity.
Defined.

(** The bound of [permits_conserved] is needed: releasing past [i32::MAX] wraps around, after
    which the semaphore reports a negative number of permits and refuses to hand any out. *)
Theorem release_overflow_goes_negative :
  let op o := encode (bstr "s") o in
  snd (run_all apply new_semaphore
    [op (SemInit (2 ^ 31 - 1)); op (SemRelease 1); op SemAvailablePermits; op (SemAcquire 1)])
  = [RBool true; RBool true; RLong (- 2 ^ 31); RBool false].
Proof. vm_compute. reflexivity. Qed.
