(* ===== verification/FencedLock.v ===== *)
(** * The replicated FencedLock (crates/raft/src/fencedlock.rs)

    Mutual exclusion with a monotonic fencing token, reentrant for the same session and thread. *)

From S2P Require Import Prelude CpReply.

Inductive FlOp :=
| FlLock (session thread : Z)
| FlTryLock (session thread : Z)
| FlUnlock (session thread : Z).

Definition owner (op : FlOp) : Z * Z :=
  match op with FlLock s t | FlTryLock s t | FlUnlock s t => (s, t) end.

Definition encode (name : bytes) (op : FlOp) : bytes :=
  let tag := match op with FlLock _ _ => 0 | FlTryLock _ _ => 1 | FlUnlock _ _ => 2 end in
  let '(session, thread) := owner op in
  b8 tag :: to_le 8 session ++ to_le 8 thread ++ name.

Definition decode (body : bytes) : option (bytes * FlOp) :=
  if blen body <? 17 then None else
  '(tag, r) ← get_byte body;
  '(session, r) ← get_i 8 r;
  '(thread, r) ← get_i 8 r;
  op ← match u8 tag with
       | 0 => Some (FlLock session thread)
       | 1 => Some (FlTryLock session thread)
       | 2 => Some (FlUnlock session thread)
       | _ => None
       end;
  name ← from_utf8 r;
  Some (name, op).

Record LockState := mk_LockState { fence : Z; session : Z; thread : Z; hold_count : Z }.

Record FencedLockSm := mk_FencedLockSm { locks : gmap bytes LockState; next_fence : Z }.

Definition new_fenced_lock : FencedLockSm := mk_FencedLockSm ∅ 0.

(** [l.session == session && l.thread == thread] *)
Definition owned_by (l : LockState) (s t : Z) : bool := (session l =? s) && (thread l =? t).

(** Acquires or reenters; the fence, or 0 if another owner holds the lock. *)
Definition acquire (sm : FencedLockSm) (name : bytes) (s t : Z) : FencedLockSm * Z :=
  let fresh :=
    let f := wrap_i64 (next_fence sm + 1) in
    (mk_FencedLockSm (<[name := mk_LockState f s t 1]> (locks sm)) f, f) in
  match locks sm !! name with
  | Some l =>
    if 0 <? hold_count l then
      if owned_by l s t
      then (mk_FencedLockSm
              (<[name := mk_LockState (fence l) (session l) (thread l) (wrap_i32 (hold_count l + 1))]>
                 (locks sm)) (next_fence sm), fence l)
      else (sm, 0)
    else fresh
  | None => fresh
  end.

(** Releases one hold; whether this owner had one. *)
Definition release (sm : FencedLockSm) (name : bytes) (s t : Z) : FencedLockSm * bool :=
  match locks sm !! name with
  | Some l =>
    if (0 <? hold_count l) && owned_by l s t then
      let c := wrap_i32 (hold_count l - 1) in
      if c =? 0
      then (mk_FencedLockSm (delete name (locks sm)) (next_fence sm), true)
      else (mk_FencedLockSm (<[name := mk_LockState (fence l) (session l) (thread l) c]> (locks sm))
              (next_fence sm), true)
    else (sm, false)
  | None => (sm, false)
  end.

Definition apply (sm : FencedLockSm) (body : bytes) : FencedLockSm * CpReply :=
  match decode body with
  | None => (sm, RNil)
  | Some (name, op) =>
    match op with
    | FlLock s t | FlTryLock s t => let '(sm', f) := acquire sm name s t in (sm', RLong f)
    | FlUnlock s t => let '(sm', b) := release sm name s t in (sm', RBool b)
    end
  end.

(** Releases every lock of an expired or closed session. *)
Definition release_session (sm : FencedLockSm) (s : Z) : FencedLockSm :=
  mk_FencedLockSm (filter (fun p => session (snd p) <> s) (locks sm)) (next_fence sm).

Definition fence_of (sm : FencedLockSm) (name : bytes) : Z :=
  default 0 (fence <$> locks sm !! name).

Definition is_locked (sm : FencedLockSm) (name : bytes) : bool :=
  match locks sm !! name with Some l => 0 <? hold_count l | None => false end.

(** ** Encoding *)

Definition op_ok (op : FlOp) : Prop := is_i64 (fst (owner op)) /\ is_i64 (snd (owner op)).

Lemma fl_decode_encode name op :
  utf8_valid name = true -> op_ok op -> decode (encode name op) = Some (name, op).
Proof.
  intros Hn Ho. unfold decode, encode.
  destruct op; destruct Ho; simpl in *;
    rewrite blen_cons, !blen_app, !blen_to_le;
    (rewrite (proj2 (Z.ltb_ge _ _)) by (pose proof (blen_nonneg name); lia));
    run_codec.
Qed.

#[export] Program Instance fl_codec : Codec (bytes * FlOp) := {|
  enc '(name, op) := encode name op;
  dec := decode;
  enc_ok '(name, op) := utf8_valid name = true /\ op_ok op
|}.
Next Obligation. intros [name op] [? ?]. apply fl_decode_encode; done. Qed.

(** ** Lock histories

    What happens to the locks of a group: committed lock commands, and the ends of sessions. *)

Inductive lock_event :=
| Command (body : bytes)
| SessionEnd (id : Z).

(** An acquisition that was granted: the lock, its owner and the fence the client got. *)
Record grant := mk_grant { g_name : bytes; g_owner : Z * Z; g_fence : Z }.

Definition granted (body : bytes) (r : CpReply) : option grant :=
  match decode body, r with
  | Some (name, FlLock s t), RLong f | Some (name, FlTryLock s t), RLong f =>
    if f =? 0 then None else Some (mk_grant name (s, t) f)
  | _, _ => None
  end.

Definition lock_step (sm : FencedLockSm) (e : lock_event) : FencedLockSm * option grant :=
  match e with
  | Command body => let '(sm', r) := apply sm body in (sm', granted body r)
  | SessionEnd id => (release_session sm id, None)
  end.

(** The grants of a history, oldest first. *)
Definition grants (sm : FencedLockSm) (es : list lock_event) : list grant :=
  omap id (snd (run_all lock_step sm es)).

(** Locks in the map are held, and their fences were drawn from the counter, each for one name;
    [b] bounds the counters away from overflow. *)
Definition lock_wf (b : Z) (sm : FencedLockSm) : Prop :=
  0 <= next_fence sm <= b
  /\ (forall name l, locks sm !! name = Some l ->
        1 <= hold_count l <= b /\ 1 <= fence l <= next_fence sm)
  /\ (forall n1 n2 l1 l2, locks sm !! n1 = Some l1 -> locks sm !! n2 = Some l2 ->
        fence l1 = fence l2 -> n1 = n2).

(** The possible effects of an event on well-formed locks. *)
Inductive effect (sm : FencedLockSm) : FencedLockSm -> option grant -> Prop :=
| eff_none : effect sm sm None
| eff_fresh name s t :
    locks sm !! name = None ->
    effect sm
      (mk_FencedLockSm (<[name := mk_LockState (next_fence sm + 1) s t 1]> (locks sm))
         (next_fence sm + 1))
      (Some (mk_grant name (s, t) (next_fence sm + 1)))
| eff_holds name l c g :
    locks sm !! name = Some l -> 1 <= c <= hold_count l + 1 ->
    g = None \/ g = Some (mk_grant name (session l, thread l) (fence l)) ->
    effect sm
      (mk_FencedLockSm (<[name := mk_LockState (fence l) (session l) (thread l) c]> (locks sm))
         (next_fence sm)) g
| eff_removed m :
    m ⊆ locks sm -> effect sm (mk_FencedLockSm m (next_fence sm)) None.

Lemma acquire_effect b sm name s t :
  lock_wf b sm -> b < 2 ^ 31 - 1 ->
  let '(sm', f) := acquire sm name s t in
  effect sm sm' (if f =? 0 then None else Some (mk_grant name (s, t) f)).
Proof.
  intros (Hn & Hl & _) Hb. unfold acquire.
  destruct (locks sm !! name) as [l |] eqn:E.
  - destruct (Hl _ _ E) as [Hc Hf]. rewrite (proj2 (Z.ltb_lt _ _)) by lia.
    unfold owned_by.
    case (Z.eqb_spec (session l) s); case (Z.eqb_spec (thread l) t); intros; subst; simpl;
      try apply eff_none.
    rewrite (proj2 (Z.eqb_neq _ _)) by lia. rewrite wrap_i32_small by (unfold is_i32; lia).
    apply eff_holds; [done | lia | by right].
  - rewrite wrap_i64_small by (unfold is_i64; lia). rewrite (proj2 (Z.eqb_neq _ _)) by lia.
    apply eff_fresh. exact E.
Qed.

Lemma release_effect b sm name s t :
  lock_wf b sm -> b < 2 ^ 31 - 1 -> effect sm (fst (release sm name s t)) None.
Proof.
  intros (_ & Hl & _) Hb. unfold release.
  destruct (locks sm !! name) as [l |] eqn:E; [| apply eff_none].
  destruct (Hl _ _ E) as [Hc _]. case_match; [| apply eff_none].
  rewrite wrap_i32_small by (unfold is_i32; lia).
  case (Z.eqb_spec (hold_count l - 1) 0); intros; simpl.
  - apply eff_removed. apply delete_subseteq.
  - apply eff_holds; [done | lia | by left].
Qed.

Lemma lock_step_effect b sm e :
  lock_wf b sm -> b < 2 ^ 31 - 1 ->
  effect sm (fst (lock_step sm e)) (snd (lock_step sm e)).
Proof.
  intros Hwf Hb. destruct e as [body | id]; simpl.
  - unfold apply, granted. destruct (decode body) as [[name op] |]; [| apply eff_none].
    destruct op as [s t | s t | s t].
    + pose proof (acquire_effect b sm name s t Hwf Hb) as H. by destruct (acquire sm name s t).
    + pose proof (acquire_effect b sm name s t Hwf Hb) as H. by destruct (acquire sm name s t).
    + pose proof (release_effect b sm name s t Hwf Hb) as H. by destruct (release sm name s t).
  - apply eff_removed. apply map_filter_subseteq.
Qed.

(** What the locks know of the grants so far. *)
Definition history_ok (sm : FencedLockSm) (gs : list grant) : Prop :=
  forall g, g ∈ gs ->
    1 <= g_fence g <= next_fence sm
    /\ forall name l, locks sm !! name = Some l ->
         (g_name g = name -> g_fence g <= fence l)
         /\ (g_fence g = fence l -> g_name g = name /\ g_owner g = (session l, thread l)).

(** [g] before [g']: tokens of a lock never decrease, and a token identifies lock and owner. *)
Definition fenced (g g' : grant) : Prop :=
  (g_name g = g_name g' -> g_fence g <= g_fence g')
  /\ (g_fence g = g_fence g' -> g_name g = g_name g' /\ g_owner g = g_owner g').

Lemma effect_wf b sm sm' g : lock_wf b sm -> effect sm sm' g -> lock_wf (b + 1) sm'.
Proof.
  intros (Hn & Hl & Hd) He. destruct He as [| name s t Hfree | name l c g Hheld Hc Hg | m Hm];
    unfold lock_wf; simpl; split_and!; try lia.
  - intros name l E. destruct (Hl _ _ E). lia.
  - exact Hd.
  - intros n l E. apply lookup_insert_Some in E as [[<- <-] | [_ E]]; simpl; [lia |].
    destruct (Hl _ _ E). lia.
  - intros n1 n2 l1 l2 E1 E2 Ef.
    apply lookup_insert_Some in E1 as [[<- <-] | [_ E1]];
      apply lookup_insert_Some in E2 as [[<- <-] | [_ E2]]; simpl in *; try done.
    + destruct (Hl _ _ E2). lia.
    + destruct (Hl _ _ E1). lia.
    + by eapply Hd.
  - destruct (Hl _ _ Hheld). intros n k E.
    apply lookup_insert_Some in E as [[<- <-] | [_ E]]; simpl; [lia |]. destruct (Hl _ _ E). lia.
  - intros n1 n2 l1 l2 E1 E2 Ef.
    apply lookup_insert_Some in E1 as [[<- <-] | [_ E1]];
      apply lookup_insert_Some in E2 as [[<- <-] | [_ E2]]; simpl in *; try done; by eapply Hd.
  - intros n l E. apply (lookup_weaken _ _ _ _ E) in Hm. destruct (Hl _ _ Hm). lia.
  - intros n1 n2 l1 l2 E1 E2. eapply Hd; by eapply lookup_weaken.
Qed.

(** The history stays consistent, and a new grant is fenced off from every earlier one. *)
Lemma effect_history b sm sm' g gs :
  lock_wf b sm -> history_ok sm gs -> effect sm sm' g ->
  history_ok sm' (gs ++ option_list g) /\ Forall (fun e => forall g', g = Some g' -> fenced e g') gs.
Proof.
  intros (Hn & Hl & Hd) Hh He. destruct He as [| name s t Hfree | name l c g Hheld Hc Hg | m Hm]; simpl.
  - rewrite app_nil_r. split; [done |]. apply Forall_true. done.
  - split.
    + intros g Hg. apply elem_of_app in Hg as [Hg | ->%list_elem_of_singleton]; simpl.
      * destruct (Hh g Hg) as [Hf Hk]. split; [lia |]. intros n k E.
        apply lookup_insert_Some in E as [[<- <-] | [_ E]]; simpl; [split; lia | by apply Hk].
      * split; [lia |]. intros n k E.
        apply lookup_insert_Some in E as [[<- <-] | [Hne E]]; simpl; [done |].
        destruct (Hl _ _ E). split; [done | lia].
    + apply Forall_forall. intros e He g' [= <-]. destruct (Hh e He) as [Hf _].
      unfold fenced. simpl. split; lia.
  - assert (forall n k, <[name := mk_LockState (fence l) (session l) (thread l) c]> (locks sm) !! n = Some k ->
      exists k', locks sm !! n = Some k' /\ fence k = fence k' /\ session k = session k'
        /\ thread k = thread k') as Hsame.
    { intros n k E. apply lookup_insert_Some in E as [[<- <-] | [_ E]]; eauto. }
    assert (history_ok (mk_FencedLockSm (<[name := mk_LockState (fence l) (session l) (thread l) c]> (locks sm))
      (next_fence sm)) gs) as Hold.
    { intros g' Hg'. destruct (Hh g' Hg') as [Hf Hk]. split; [done |]. simpl. intros n k E.
      destruct (Hsame n k E) as (k' & E' & -> & -> & ->). by apply Hk. }
    destruct Hg as [-> | ->]; simpl.
    { rewrite app_nil_r. split; [done |]. by apply Forall_true. }
    split.
    + intros g Hg. apply elem_of_app in Hg as [Hg | ->%list_elem_of_singleton]; [by apply Hold |].
      simpl. split; [by eapply Hl |]. intros n k E. destruct (Hsame n k E) as (k' & E' & -> & -> & ->).
      split; [intros <-; simplify_eq; lia |]. intros Ef.
      assert (name = n) as <- by (by eapply Hd). simplify_eq. done.
    + apply Forall_forall. intros e He g' [= <-]. destruct (Hh e He) as [_ Hk].
      destruct (Hk name l Hheld) as [H1 H2]. done.
  - rewrite app_nil_r. split; [| by apply Forall_true].
    intros g Hg. destruct (Hh g Hg) as [Hf Hk]. split; [done |]. simpl. intros n l E.
    apply Hk. by eapply lookup_weaken.
Qed.

Lemma grants_cons sm e es :
  grants sm (e :: es) =
    option_list (snd (lock_step sm e)) ++ grants (fst (lock_step sm e)) es.
Proof.
  unfold grants. simpl. destruct (lock_step sm e) as [sm' g]. simpl.
  destruct (run_all lock_step sm' es) as [sm'' gs]. simpl. destruct g; done.
Qed.

Lemma grants_fenced b sm es gs :
  lock_wf b sm -> history_ok sm gs -> b + blen es < 2 ^ 31 ->
  StronglySorted fenced gs -> StronglySorted fenced (gs ++ grants sm es).
Proof.
  revert b sm gs. induction es as [| e es IH]; intros b sm gs Hwf Hh Hb Hs.
  { unfold grants. simpl. by rewrite app_nil_r. }
  rewrite blen_cons in Hb. pose proof (blen_nonneg es).
  pose proof (lock_step_effect b sm e Hwf ltac:(lia)) as He.
  rewrite grants_cons. destruct (lock_step sm e) as [sm' g]. simpl in *.
  destruct (effect_history b sm sm' g gs Hwf Hh He) as [Hh' Hf].
  rewrite (assoc_L (++)). apply (IH (b + 1)); [by eapply effect_wf | done | lia |].
  destruct g as [g |]; [| by rewrite app_nil_r]. simpl. clear - Hs Hf.
  induction Hs as [| e gs Hs IH He]; simpl; [repeat constructor |].
  apply Forall_cons in Hf as [Hf1 Hf2].
  constructor; [by apply IH |]. apply Forall_app. split; [done |]. repeat constructor; by apply Hf1.
Qed.

Lemma new_lock_wf : lock_wf 0 new_fenced_lock.
Proof.
  unfold lock_wf. simpl. split_and!; try lia.
  - intros ?? H. by rewrite lookup_empty in H.
  - intros ???? H. by rewrite lookup_empty in H.
Qed.

(** C3. Fencing tokens: over any history of fewer than 2^31 lock commands and session ends, from
    the empty lock table, the tokens granted for a lock never decrease, and two grants carry the
    same token only if they are holds of the same owner on the same lock.  So whenever a lock
    passes to another owner its token strictly increases. *)
Theorem fencing_tokens_increase es :
  blen es < 2 ^ 31 -> StronglySorted fenced (grants new_fenced_lock es).
Proof.
  intros H. apply (grants_fenced 0 _ _ [] new_lock_wf); [| lia | constructor].
  intros g Hg. by apply elem_of_nil in Hg.
Qed.

Lemma fencing_tokens_increase_witness :
  let lock s := Command (encode (bstr "l") (FlLock s 1)) in
  let es := [lock 1; lock 2; lock 1; SessionEnd 1; lock 2] in
  map g_fence (grants new_fenced_lock es) = [1; 1; 2]
  /\ StronglySorted fenced (grants new_fenced_lock es).
Proof.
  intros lock es. split; [vm_compute; reflexivity |].
  apply fencing_tokens_increase. vm_compute. reflexivity.
Defined.

(** ** Mutual exclusion *)

Definition held_by (sm : FencedLockSm) (name : bytes) (o : Z * Z) : Prop :=
  exists l, locks sm !! name = Some l /\ (session l, thread l) = o.

(** An event by which owner [o] may lose the lock [name]: its own unlock, or its session's end. *)
Definition gives_up (name : bytes) (o : Z * Z) (e : lock_event) : Prop :=
  match e with
  | Command body => decode body = Some (name, FlUnlock (fst o) (snd o))
  | SessionEnd id => id = fst o
  end.

Lemma acquire_other sm n s t name :
  n <> name -> locks (fst (acquire sm n s t)) !! name = locks sm !! name.
Proof.
  intros Hne. unfold acquire. repeat case_match; simpl; rewrite ?lookup_insert_ne; done.
Qed.

Lemma acquire_held b sm name s t o :
  lock_wf b sm -> held_by sm name o ->
  held_by (fst (acquire sm name s t)) name o /\ (snd (acquire sm name s t) <> 0 -> (s, t) = o).
Proof.
  intros (_ & Hl & _) (l & E & <-). unfold acquire. rewrite E.
  destruct (Hl _ _ E) as [Hc _]. rewrite (proj2 (Z.ltb_lt _ _)) by lia.
  unfold owned_by. case (Z.eqb_spec (session l) s); case (Z.eqb_spec (thread l) t); intros; subst; simpl;
    (split; [| done]); [| by eexists..].
  eexists. split; [apply lookup_insert_eq | done].
Qed.

Lemma release_keeps sm n s t name o :
  held_by sm name o -> ~ (n = name /\ (s, t) = o) -> held_by (fst (release sm n s t)) name o.
Proof.
  intros (l & E & <-) Hne. exists l. split; [| done]. unfold release.
  destruct (decide (n = name)) as [-> | Hn].
  - rewrite E. unfold owned_by.
    case (Z.eqb_spec (session l) s); case (Z.eqb_spec (thread l) t); intros; subst;
      rewrite ?andb_false_r; simpl; try done. exfalso. by apply Hne.
  - repeat case_match; simpl; rewrite ?lookup_delete_ne, ?lookup_insert_ne; done.
Qed.

Lemma held_by_step b sm e name o :
  lock_wf b sm -> held_by sm name o -> ~ gives_up name o e ->
  held_by (fst (lock_step sm e)) name o
  /\ forall g, snd (lock_step sm e) = Some g -> g_name g = name -> g_owner g = o.
Proof.
  intros Hwf Hh Hn. destruct e as [body | id]; simpl in *.
  2: { split; [| done]. destruct Hh as (l & Hl & <-). exists l. split; [| done].
       apply map_lookup_filter_Some_2; [done |]. simpl in *. congruence. }
  unfold apply, granted. destruct (decode body) as [[n op] |]; [| done].
  assert (forall s t,
    held_by (fst (acquire sm n s t)) name o
    /\ (snd (acquire sm n s t) <> 0 -> n = name -> (s, t) = o)) as Ha.
  { intros s t. destruct (decide (n = name)) as [-> | Hne].
    - destruct (acquire_held b sm name s t o Hwf Hh). eauto.
    - split; [| done]. destruct Hh as (l & E & H). exists l. by rewrite acquire_other. }
  destruct op as [s t | s t | s t]; [destruct (Ha s t) as [H1 H2].. |].
  - destruct (acquire sm n s t) as [sm' f]. simpl in *. split; [done |]. intros g.
    case (Z.eqb_spec f 0); [done |]. intros ? [= <-]. simpl. auto.
  - destruct (acquire sm n s t) as [sm' f]. simpl in *. split; [done |]. intros g.
    case (Z.eqb_spec f 0); [done |]. intros ? [= <-]. simpl. auto.
  - assert (held_by (fst (release sm n s t)) name o) as Hr.
    { apply release_keeps; [done |]. intros [-> <-]. by apply Hn. }
    destruct (release sm n s t) as [sm' f]. done.
Qed.


