(* ===== verification/Session.v ===== *)
(** * CP sessions (crates/raft/src/session.rs)

    A replicated lease registry on a logical clock that committed [Tick] commands advance. *)

From S2P Require Import Prelude.

(** Session lifetime in logical ticks. *)
Definition TTL_TICKS : Z := 30.

Inductive SessOp :=
| SessCreate
| SessHeartbeat (id : Z)
| SessClose (id : Z)
| SessTick
| SessGenerateThreadId.

Definition encode (op : SessOp) : bytes :=
  match op with
  | SessCreate => [b8 0]
  | SessHeartbeat id => b8 1 :: to_le 8 id
  | SessClose id => b8 2 :: to_le 8 id
  | SessTick => [b8 3]
  | SessGenerateThreadId => [b8 4]
  end.

Definition decode (body : bytes) : option SessOp :=
  '(tag, r) ← get_byte body;
  match u8 tag with
  | 0 => Some SessCreate
  | 1 => '(id, _) ← get_i 8 r; Some (SessHeartbeat id)
  | 2 => '(id, _) ← get_i 8 r; Some (SessClose id)
  | 3 => Some SessTick
  | 4 => Some SessGenerateThreadId
  | _ => None
  end.

(** [sessions]: session id to expiry deadline, in ticks. *)
Record SessionSm := mk_SessionSm {
  sessions : gmap Z Z;
  clock : Z;
  next_id : Z;
  next_thread_id : Z
}.

Definition new_sessions : SessionSm := mk_SessionSm ∅ 0 0 0.

Definition create (sm : SessionSm) : SessionSm * Z :=
  let id := wrap_i64 (next_id sm + 1) in
  (mk_SessionSm (<[id := wrap_i64 (clock sm + TTL_TICKS)]> (sessions sm)) (clock sm) id
     (next_thread_id sm), id).

Definition heartbeat (sm : SessionSm) (id : Z) : SessionSm * bool :=
  match sessions sm !! id with
  | Some _ =>
    (mk_SessionSm (<[id := wrap_i64 (clock sm + TTL_TICKS)]> (sessions sm)) (clock sm) (next_id sm)
       (next_thread_id sm), true)
  | None => (sm, false)
  end.

Definition close (sm : SessionSm) (id : Z) : SessionSm * bool :=
  (mk_SessionSm (delete id (sessions sm)) (clock sm) (next_id sm) (next_thread_id sm),
   bool_decide (is_Some (sessions sm !! id))).

(** The ids whose deadline has passed at [now], in the order the map is iterated in. *)
Definition expired_at (now : Z) (m : gmap Z Z) : list Z :=
  (filter (fun p => snd p <= now) (map_to_list m)).*1.

Definition tick (sm : SessionSm) : SessionSm * list Z :=
  let now := wrap_i64 (clock sm + 1) in
  let expired := expired_at now (sessions sm) in
  (mk_SessionSm (foldl (fun m id => delete id m) (sessions sm) expired) now (next_id sm)
     (next_thread_id sm), expired).

Definition generate_thread_id (sm : SessionSm) : SessionSm * Z :=
  let t := wrap_i64 (next_thread_id sm + 1) in
  (mk_SessionSm (sessions sm) (clock sm) (next_id sm) t, t).

Definition is_active (sm : SessionSm) (id : Z) : bool := bool_decide (is_Some (sessions sm !! id)).

(** ** Encoding *)

Definition op_ok (op : SessOp) : Prop :=
  match op with SessHeartbeat id | SessClose id => is_i64 id | _ => True end.

Lemma sess_decode_encode op : op_ok op -> decode (encode op) = Some op.
Proof.
  intros Ho. unfold decode, encode. destruct op; simpl in Ho; cbn [mbind option_bind get_byte]; run_codec.
  all: rewrite <- (app_nil_r (to_le 8 id)); run_codec.
Qed.

#[export] Instance sess_codec : Codec SessOp := {|
  enc := encode; dec := decode; enc_ok := op_ok; dec_enc := sess_decode_encode
|}.

(** ** Leases *)

Lemma elem_of_expired now m id :
  id ∈ expired_at now m <-> exists d, m !! id = Some d /\ d <= now.
Proof.
  unfold expired_at. rewrite list_elem_of_fmap. split.
  - intros ([i d] & -> & [H1 H2]%list_elem_of_filter). apply elem_of_map_to_list in H2. eauto.
  - intros (d & H1 & H2). exists (id, d). split; [done |]. apply list_elem_of_filter.
    split; [done |]. by apply elem_of_map_to_list.
Qed.

Lemma lookup_foldl_delete {V} (ids : list Z) (m : gmap Z V) i :
  foldl (fun m id => delete id m) m ids !! i = if decide (i ∈ ids) then None else m !! i.
Proof.
  revert m. induction ids as [| x ids IH]; intros m; cbn [foldl].
  { case_decide as H; [by apply not_elem_of_nil in H | done]. }
  rewrite IH. destruct (decide (i = x)) as [-> | Hne].
  - rewrite (decide_True (P := x ∈ x :: ids)) by apply list_elem_of_here.
    rewrite lookup_delete_eq. by case_decide.
  - rewrite lookup_delete_ne by done. apply decide_ext. rewrite elem_of_cons. naive_solver.
Qed.

(** A tick keeps exactly the sessions whose deadline lies ahead. *)
Lemma tick_lookup sm id :
  sessions (fst (tick sm)) !! id =
    match sessions sm !! id with
    | Some d => if decide (d <= wrap_i64 (clock sm + 1)) then None else Some d
    | None => None
    end.
Proof.
  simpl. rewrite lookup_foldl_delete. destruct (sessions sm !! id) as [d |] eqn:E.
  - destruct (decide (d <= wrap_i64 (clock sm + 1))).
    + rewrite decide_True; [done |]. apply elem_of_expired. eauto.
    + rewrite decide_False; [done |]. rewrite elem_of_expired. intros (d' & Ed & ?). rewrite E in Ed. injection Ed as <-. done.
  - by case_decide.
Qed.
