(* ===== verification/CpMap.v ===== *)
(** * The replicated CPMap (crates/raft/src/cpmap.rs)

    Named key/value maps of opaque bytes. *)

From S2P Require Import Prelude CpReply.

Inductive MapOp :=
| MGet (k : bytes)
| MPut (k v : bytes)
| MSet (k v : bytes)
| MPutIfAbsent (k v : bytes)
| MRemove (k : bytes)
| MRemoveIfEquals (k v : bytes)
| MReplace (k v : bytes)
| MCompareAndSet (k expected new : bytes)
| MContainsKey (k : bytes)
| MSize
| MClear.

Definition put_blob (x : bytes) : bytes := put_lp 4 x.
Definition get_blob (b : bytes) : option (bytes * bytes) := get_lp 4 b.

Definition tag (op : MapOp) : Z :=
  match op with
  | MGet _ => 0 | MPut _ _ => 1 | MSet _ _ => 2 | MPutIfAbsent _ _ => 3 | MRemove _ => 4
  | MRemoveIfEquals _ _ => 5 | MReplace _ _ => 6 | MCompareAndSet _ _ _ => 7 | MContainsKey _ => 8
  | MSize => 9 | MClear => 10
  end.

(** [[tag][name][args...]] *)
Definition encode (name : bytes) (op : MapOp) : bytes :=
  b8 (tag op) :: put_blob name ++
  match op with
  | MGet k | MRemove k | MContainsKey k => put_blob k
  | MPut k v | MSet k v | MPutIfAbsent k v | MRemoveIfEquals k v | MReplace k v =>
    put_blob k ++ put_blob v
  | MCompareAndSet k e n => put_blob k ++ put_blob e ++ put_blob n
  | MSize | MClear => []
  end.

(** Two consecutive blobs, given to a constructor. *)
Definition get_two (f : bytes -> bytes -> MapOp) (b : bytes) : option MapOp :=
  '(k, r) ← get_blob b; '(v, _) ← get_blob r; Some (f k v).

Definition decode (body : bytes) : option (bytes * MapOp) :=
  '(t, r) ← get_byte body;
  '(n, r) ← get_blob r;
  name ← from_utf8 n;
  op ← match u8 t with
       | 0 => '(k, _) ← get_blob r; Some (MGet k)
       | 1 => get_two MPut r
       | 2 => get_two MSet r
       | 3 => get_two MPutIfAbsent r
       | 4 => '(k, _) ← get_blob r; Some (MRemove k)
       | 5 => get_two MRemoveIfEquals r
       | 6 => get_two MReplace r
       | 7 => '(k, r) ← get_blob r; '(e, r) ← get_blob r; '(n, _) ← get_blob r;
              Some (MCompareAndSet k e n)
       | 8 => '(k, _) ← get_blob r; Some (MContainsKey k)
       | 9 => Some MSize
       | 10 => Some MClear
       | _ => None
       end;
  Some (name, op).

Record CpMapSm := mk_CpMapSm { maps : gmap bytes (gmap bytes bytes) }.

Definition new_cp_map : CpMapSm := mk_CpMapSm ∅.

(** The operation on the map that [entry(name).or_default()] borrows. *)
Definition on_map (op : MapOp) (m : gmap bytes bytes) : gmap bytes bytes * CpReply :=
  match op with
  | MGet k => (m, RData (m !! k))
  | MPut k v => (<[k := v]> m, RData (m !! k))
  | MSet k v => (<[k := v]> m, RNil)
  | MPutIfAbsent k v =>
    match m !! k with
    | Some existing => (m, RData (Some existing))
    | None => (<[k := v]> m, RData None)
    end
  | MRemove k => (delete k m, RData (m !! k))
  | MRemoveIfEquals k v =>
    if decide (m !! k = Some v) then (delete k m, RBool true) else (m, RBool false)
  | MReplace k v =>
    match m !! k with
    | Some old => (<[k := v]> m, RData (Some old))
    | None => (m, RData None)
    end
  | MCompareAndSet k e n =>
    if decide (m !! k = Some e) then (<[k := n]> m, RBool true) else (m, RBool false)
  | MContainsKey k => (m, RBool (bool_decide (is_Some (m !! k))))
  | MSize => (m, RLong (Z.of_nat (size m)))
  | MClear => (∅, RNil)
  end.

Definition apply (sm : CpMapSm) (body : bytes) : CpMapSm * CpReply :=
  match decode body with
  | None => (sm, RNil)
  | Some (name, op) =>
    let '(m, r) := on_map op (default ∅ (maps sm !! name)) in
    (mk_CpMapSm (<[name := m]> (maps sm)), r)
  end.

Definition get (sm : CpMapSm) (name key : bytes) : option bytes := maps sm !! name ≫= fun m => m !! key.

Definition map_size (sm : CpMapSm) (name : bytes) : Z :=
  Z.of_nat (default 0%nat (size <$> maps sm !! name)).

(** ** Encoding *)

Definition op_ok (op : MapOp) : Prop :=
  match op with
  | MGet k | MRemove k | MContainsKey k => is_u32 (blen k)
  | MPut k v | MSet k v | MPutIfAbsent k v | MRemoveIfEquals k v | MReplace k v =>
    is_u32 (blen k) /\ is_u32 (blen v)
  | MCompareAndSet k e n => is_u32 (blen k) /\ is_u32 (blen e) /\ is_u32 (blen n)
  | MSize | MClear => True
  end.

Lemma cm_decode_encode name op :
  utf8_valid name = true -> is_u32 (blen name) -> op_ok op ->
  decode (encode name op) = Some (name, op).
Proof.
  assert (forall x, is_u32 (blen x) -> get_lp 4 (put_lp 4 x) = Some (x, [])) as Hlast.
  { intros x Hx. rewrite <- (app_nil_r (put_lp 4 x)). by apply get_lp32_put_lp. }
  intros Hn Hl Ho. unfold decode, encode, get_two, get_blob, put_blob.
  destruct op; simpl in Ho; destruct_and?; cbn [tag mbind option_bind get_byte]; run_codec;
    rewrite Hlast by done; reflexivity.
Qed.

#[export] Program Instance cm_codec : Codec (bytes * MapOp) := {|
  enc '(name, op) := encode name op;
  dec := decode;
  enc_ok '(name, op) := utf8_valid name = true /\ is_u32 (blen name) /\ op_ok op
|}.
Next Obligation. intros [name op] (? & ? & ?). apply cm_decode_encode; done. Qed.

(** ** Per-key specification

    A CPMap promises a linearizable register per key: what an operation on a key answers, and what
    it leaves there, depends on the value under that key only. *)

(** The key an operation addresses. *)
Definition key_of (op : MapOp) : option bytes :=
  match op with
  | MGet k | MPut k _ | MSet k _ | MPutIfAbsent k _ | MRemove k | MRemoveIfEquals k _
  | MReplace k _ | MCompareAndSet k _ _ | MContainsKey k => Some k
  | MSize | MClear => None
  end.

(** The register's new value and answer, from its old value [x]. *)
Definition register (op : MapOp) (x : option bytes) : option bytes * CpReply :=
  match op with
  | MGet _ => (x, RData x)
  | MPut _ v => (Some v, RData x)
  | MSet _ v => (Some v, RNil)
  | MPutIfAbsent _ v => (Some (default v x), RData x)
  | MRemove _ => (None, RData x)
  | MRemoveIfEquals _ v => if decide (x = Some v) then (None, RBool true) else (x, RBool false)
  | MReplace _ v => (x ≫= fun _ => Some v, RData x)
  | MCompareAndSet _ e n => if decide (x = Some e) then (Some n, RBool true) else (x, RBool false)
  | MContainsKey _ => (x, RBool (bool_decide (is_Some x)))
  | MSize => (x, RNil)
  | MClear => (None, RNil)
  end.

Lemma on_map_register op m k :
  key_of op = Some k ->
  snd (on_map op m) = snd (register op (m !! k))
  /\ fst (on_map op m) !! k = fst (register op (m !! k))
  /\ forall k', k' <> k -> fst (on_map op m) !! k' = m !! k'.
Proof.
  intros Hk. destruct op; simplify_eq/=;
    repeat case_match; repeat case_decide; simplify_eq/=; split_and!; try done;
    try (intros k' Hne); rewrite ?lookup_insert_eq, ?lookup_delete_eq, ?lookup_insert_ne,
      ?lookup_delete_ne; try done.
  all: match goal with H : _ = _ |- _ => by rewrite H end.
Qed.

Lemma get_apply sm body name op k :
  decode body = Some (name, op) ->
  get (fst (apply sm body)) name k = fst (on_map op (default ∅ (maps sm !! name))) !! k
  /\ forall name', name' <> name -> get (fst (apply sm body)) name' k = get sm name' k.
Proof.
  intros E. unfold apply, get. rewrite E. destruct (on_map op _) as [m r]. simpl.
  rewrite lookup_insert_eq. split; [done |]. intros name' Hne. by rewrite lookup_insert_ne.
Qed.

Lemma get_default sm name k : default ∅ (maps sm !! name) !! k = get sm name k.
Proof. unfold get. destruct (maps sm !! name); simpl; [done | apply lookup_empty]. Qed.

(** C38. Refinement of the per-key registers: a committed key operation answers what the register
    of that map and key answers, leaves there what the register holds next, and changes no other
    key of any map; a clear empties the registers of its map only; a size counts the registers of
    its map that hold a value. *)
Theorem cp_map_refines_registers sm name op :
  utf8_valid name = true -> is_u32 (blen name) -> op_ok op ->
  let '(sm', r) := apply sm (encode name op) in
  match key_of op with
  | Some k =>
    r = snd (register op (get sm name k)) /\ get sm' name k = fst (register op (get sm name k))
    /\ forall n' k', (n', k') <> (name, k) -> get sm' n' k' = get sm n' k'
  | None =>
    (op = MSize -> r = RLong (map_size sm name) /\ forall n' k', get sm' n' k' = get sm n' k')
    /\ (op = MClear -> r = RNil /\ (forall k', get sm' name k' = None)
          /\ forall n' k', n' <> name -> get sm' n' k' = get sm n' k')
  end.
Proof.
  intros Hn Hl Ho. 
  pose proof (fun k => get_apply sm _ name op k (cm_decode_encode name op Hn Hl Ho)) as Hg.
  assert (snd (apply sm (encode name op)) = snd (on_map op (default ∅ (maps sm !! name)))) as Er.
  { unfold apply. rewrite cm_decode_encode by done. by destruct (on_map op _). }
  destruct (apply sm (encode name op)) as [sm' r]. simpl in *. subst r.
  assert (forall n' k', n' <> name -> get sm' n' k' = get sm n' k') as Hother.
  { intros n' k' Hne. by apply (Hg k'). }
  destruct (key_of op) as [k |] eqn:Hk.
  - destruct (on_map_register op (default ∅ (maps sm !! name)) k Hk) as (H1 & H2 & H3).
    rewrite get_default in H1, H2. split_and!; [done | by rewrite (proj1 (Hg k)) |].
    intros n' k' Hne. destruct (decide (n' = name)) as [-> | Hnn]; [| by apply Hother].
    rewrite (proj1 (Hg k')), H3 by congruence. apply get_default.
  - split; intros ->; simpl in *.
    + unfold map_size. split; [by destruct (maps sm !! name) |]. intros n' k'.
      destruct (decide (n' = name)) as [-> | Hnn]; [| by apply Hother].
      rewrite (proj1 (Hg k')). apply get_default.
    + split_and!; [done | | done]. intros k'. rewrite (proj1 (Hg k')). apply lookup_empty.
Qed.

Lemma cp_map_refines_registers_witness :
  let op := MCompareAndSet (bstr "k") (bstr "e") (bstr "n") in
  let sm := fst (apply new_cp_map (encode (bstr "m") (MSet (bstr "k") (bstr "e")))) in
  let '(sm', r) := apply sm (encode (bstr "m") op) in
  r = RBool true /\ get sm' (bstr "m") (bstr "k") = Some (bstr "n").
Proof.
  intros op sm.
  pose proof (cp_map_refines_registers sm (bstr "m") op eq_refl) as H.
  destruct (apply sm (encode (bstr "m") op)) as [sm' r].
  destruct H as (-> & -> & _); [by vm_compute | by vm_compute | ].
  split; vm_compute; reflexivity.
Defined.
