(* ===== verification/CpSm.v ===== *)
(** * The replicated CP state machine (CpSm of crates/raft/src/cp.rs)

    Dispatch of an object-tagged command to the machine of its type; session ends release locks. *)

From S2P Require Import Prelude CpReply AtomicLong AtomicRef CountDownLatch Semaphore FencedLock Session CpMap.

(** ** Commands: [[object type][body]] *)

Definition OBJ_ATOMIC_LONG : Z := 0.
Definition OBJ_ATOMIC_REF : Z := 1.
Definition OBJ_COUNTDOWN_LATCH : Z := 2.
Definition OBJ_SEMAPHORE : Z := 3.
Definition OBJ_FENCED_LOCK : Z := 4.
Definition OBJ_SESSION : Z := 5.
Definition OBJ_CP_MAP : Z := 6.

Definition al_command (name : bytes) (op : AlOp) : bytes := b8 OBJ_ATOMIC_LONG :: AtomicLong.encode name op.
Definition ar_command (name : bytes) (op : ArOp) : bytes := b8 OBJ_ATOMIC_REF :: AtomicRef.encode name op.
Definition cdl_command (name : bytes) (op : CdlOp) : bytes :=
  b8 OBJ_COUNTDOWN_LATCH :: CountDownLatch.encode name op.
Definition sem_command (name : bytes) (op : SemOp) : bytes := b8 OBJ_SEMAPHORE :: Semaphore.encode name op.
Definition fl_command (name : bytes) (op : FlOp) : bytes := b8 OBJ_FENCED_LOCK :: FencedLock.encode name op.
Definition cm_command (name : bytes) (op : MapOp) : bytes := b8 OBJ_CP_MAP :: CpMap.encode name op.
Definition sess_command (op : SessOp) : bytes := b8 OBJ_SESSION :: Session.encode op.

(** ** The machine *)

Record CpSm := mk_CpSm {
  atomic_long : AtomicLongSm;
  atomic_ref : AtomicReferenceSm;
  countdown_latch : CountDownLatchSm;
  semaphore : SemaphoreSm;
  fenced_lock : FencedLockSm;
  cp_sessions : SessionSm;
  cp_map : CpMapSm
}.

Definition new_cp_sm : CpSm :=
  mk_CpSm new_atomic_long new_atomic_ref new_countdown_latch new_semaphore new_fenced_lock
    new_sessions new_cp_map.

Definition with_sessions (sm : CpSm) (s : SessionSm) (l : FencedLockSm) : CpSm :=
  mk_CpSm (atomic_long sm) (atomic_ref sm) (countdown_latch sm) (semaphore sm) l s (cp_map sm).
Arguments with_sessions sm s l /.

(** A session operation; closed and expired sessions release the locks they hold. *)
Definition apply_session (sm : CpSm) (body : bytes) : CpSm * CpReply :=
  match Session.decode body with
  | None => (sm, RNil)
  | Some op =>
    match op with
    | SessCreate =>
      let '(s, id) := create (cp_sessions sm) in (with_sessions sm s (fenced_lock sm), RLong id)
    | SessHeartbeat id =>
      let '(s, _) := heartbeat (cp_sessions sm) id in (with_sessions sm s (fenced_lock sm), RNil)
    | SessClose id =>
      let '(s, existed) := close (cp_sessions sm) id in
      (with_sessions sm s (release_session (fenced_lock sm) id), RBool existed)
    | SessTick =>
      let '(s, expired) := tick (cp_sessions sm) in
      (with_sessions sm s (foldl release_session (fenced_lock sm) expired), RNil)
    | SessGenerateThreadId =>
      let '(s, t) := generate_thread_id (cp_sessions sm) in
      (with_sessions sm s (fenced_lock sm), RLong t)
    end
  end.

Definition of_al_reply (r : AlReply) : CpReply :=
  match r with AlLong v => RLong v | AlBool b => RBool b | AlNone => RNil end.

Definition apply (sm : CpSm) (command : bytes) : CpSm * CpReply :=
  match command with
  | [] => (sm, RNil)
  | obj :: body =>
    match u8 obj with
    | 0 => let '(x, r) := AtomicLong.apply (atomic_long sm) body in
           (mk_CpSm x (atomic_ref sm) (countdown_latch sm) (semaphore sm) (fenced_lock sm)
              (cp_sessions sm) (cp_map sm), of_al_reply r)
    | 1 => let '(x, r) := AtomicRef.apply (atomic_ref sm) body in
           (mk_CpSm (atomic_long sm) x (countdown_latch sm) (semaphore sm) (fenced_lock sm)
              (cp_sessions sm) (cp_map sm), r)
    | 2 => let '(x, r) := CountDownLatch.apply (countdown_latch sm) body in
           (mk_CpSm (atomic_long sm) (atomic_ref sm) x (semaphore sm) (fenced_lock sm)
              (cp_sessions sm) (cp_map sm), r)
    | 3 => let '(x, r) := Semaphore.apply (semaphore sm) body in
           (mk_CpSm (atomic_long sm) (atomic_ref sm) (countdown_latch sm) x (fenced_lock sm)
              (cp_sessions sm) (cp_map sm), r)
    | 4 => let '(x, r) := FencedLock.apply (fenced_lock sm) body in
           (mk_CpSm (atomic_long sm) (atomic_ref sm) (countdown_latch sm) (semaphore sm) x
              (cp_sessions sm) (cp_map sm), r)
    | 5 => apply_session sm body
    | 6 => let '(x, r) := CpMap.apply (cp_map sm) body in
           (mk_CpSm (atomic_long sm) (atomic_ref sm) (countdown_latch sm) (semaphore sm)
              (fenced_lock sm) (cp_sessions sm) x, r)
    | _ => (sm, RNil)
    end
  end.

(** ** Session ends and locks *)

Lemma lookup_release_sessions ids l name :
  locks (foldl release_session l ids) !! name =
    match locks l !! name with
    | Some k => if decide (session k ∈ ids) then None else Some k
    | None => None
    end.
Proof.
  revert l. induction ids as [| x ids IH]; intros l; cbn [foldl].
  { destruct (locks l !! name); [| done]. case_decide as H; [by apply not_elem_of_nil in H | done]. }
  rewrite IH. unfold release_session at 1. cbn [locks].
  rewrite map_lookup_filter. destruct (locks l !! name) as [k |]; [| done]. simpl.
  destruct (decide (session k = x)) as [-> | Hne].
  - rewrite (decide_True (P := x ∈ x :: ids)) by apply list_elem_of_here.
    case_guard; [done |]. done.
  - case_guard; [| done]. simpl. apply decide_ext. rewrite elem_of_cons. naive_solver.
Qed.

Lemma next_fence_release_sessions ids l : next_fence (foldl release_session l ids) = next_fence l.
Proof. revert l. induction ids as [| x ids IH]; intros l; simpl; [done | by rewrite IH]. Qed.

Lemma FencedLockSm_ext (a b : FencedLockSm) :
  (forall name, locks a !! name = locks b !! name) -> next_fence a = next_fence b -> a = b.
Proof. destruct a, b. simpl. intros H ->. f_equal. by apply map_eq. Qed.

(** The session operation, or the lock command, that a command amounts to. *)
Definition sess_of (c : bytes) : option SessOp :=
  match c with obj :: body => if u8 obj =? OBJ_SESSION then Session.decode body else None | [] => None end.

Definition lock_of (c : bytes) : option bytes :=
  match c with obj :: body => if u8 obj =? OBJ_FENCED_LOCK then Some body else None | [] => None end.

Definition sess_step (s : SessionSm) (op : SessOp) : SessionSm :=
  match op with
  | SessCreate => fst (create s)
  | SessHeartbeat id => fst (heartbeat s id)
  | SessClose id => fst (close s id)
  | SessTick => fst (tick s)
  | SessGenerateThreadId => fst (generate_thread_id s)
  end.

(** The sessions an operation ends. *)
Definition ended (s : SessionSm) (op : SessOp) : list Z :=
  match op with SessClose id => [id] | SessTick => snd (tick s) | _ => [] end.

Definition lock_events (sm : CpSm) (c : bytes) : list lock_event :=
  match sess_of c, lock_of c with
  | Some op, _ => map SessionEnd (ended (cp_sessions sm) op)
  | None, Some body => [Command body]
  | None, None => []
  end.

Lemma apply_cases sm c :
  cp_sessions (fst (apply sm c)) = default (cp_sessions sm) (sess_step (cp_sessions sm) <$> sess_of c)
  /\ fenced_lock (fst (apply sm c)) =
       match sess_of c, lock_of c with
       | Some op, _ => foldl release_session (fenced_lock sm) (ended (cp_sessions sm) op)
       | None, Some body => fst (FencedLock.apply (fenced_lock sm) body)
       | None, None => fenced_lock sm
       end.
Proof.
  unfold apply, sess_of, lock_of, OBJ_SESSION, OBJ_FENCED_LOCK.
  destruct c as [| obj body]; [done |].
  destruct (Z.eqb_spec (u8 obj) 5) as [-> | H5].
  - unfold apply_session. destruct (Session.decode body) as [op |]; [| done]. simpl.
    destruct op as [| id | id | |]; simpl; try done. unfold heartbeat. by destruct (_ !! id).
  - destruct (Z.eqb_spec (u8 obj) 4) as [-> | H4]; simpl.
    + by destruct (FencedLock.apply _ body).
    + repeat case_match; done.
Qed.

Lemma run_session_ends l ids :
  run_all lock_step l (map SessionEnd ids) = (foldl release_session l ids, map (fun _ => None) ids).
Proof. revert l. induction ids as [| x ids IH]; intros l; simpl; [done |]. by rewrite IH. Qed.

(** Every command acts on the locks through lock commands and session ends, so that the theorems
    on lock histories hold of the whole machine. *)
Lemma apply_lock_events sm c :
  fenced_lock (fst (apply sm c)) = fst (run_all lock_step (fenced_lock sm) (lock_events sm c)).
Proof.
  rewrite (proj2 (apply_cases sm c)). unfold lock_events.
  destruct (sess_of c) as [op |]; [by rewrite run_session_ends |].
  destruct (lock_of c); [| done]. simpl. by destruct (FencedLock.apply _ _).
Qed.

(** The registry's invariant: ids are drawn from the counter, deadlines lie in the next
    [TTL_TICKS]; [b] bounds the counters away from overflow. *)
Definition sess_wf (b : Z) (s : SessionSm) : Prop :=
  0 <= clock s <= b /\ 0 <= next_id s <= b
  /\ forall id d, sessions s !! id = Some d -> 1 <= id <= next_id s /\ clock s < d <= clock s + TTL_TICKS.

Lemma sess_step_wf b s op : sess_wf b s -> b < 2 ^ 62 -> sess_wf (b + 1) (sess_step s op).
Proof.
  intros (Hc & Hn & Hs) Hb. destruct op as [| id | id | |].
  - unfold sess_wf. simpl. unfold TTL_TICKS in *. rewrite !wrap_i64_small by (unfold is_i64; lia).
    split_and!; try lia. intros id d E.
    apply lookup_insert_Some in E as [[<- <-] | [_ E]]; [lia |]. specialize (Hs _ _ E). lia.
  - simpl. unfold heartbeat. destruct (sessions s !! id) as [d0 |] eqn:E0; simpl;
      unfold sess_wf; simpl; split_and!; try lia; intros i d E; [| specialize (Hs _ _ E); lia].
    specialize (Hs _ _ E0) as Hs0. unfold TTL_TICKS in *.
    apply lookup_insert_Some in E as [[<- <-] | [_ E]]; [| specialize (Hs _ _ E); lia].
    rewrite wrap_i64_small by (unfold is_i64; lia). lia.
  - unfold sess_wf. simpl. split_and!; try lia. intros i d E.
    apply lookup_delete_Some in E as [_ E]. specialize (Hs _ _ E). lia.
  - unfold sess_wf. cbn [sess_step].
    assert (clock (fst (tick s)) = clock s + 1) as Ec by (apply wrap_i64_small; unfold is_i64; lia).
    assert (next_id (fst (tick s)) = next_id s) as En by done.
    rewrite Ec, En. split_and!; try lia. intros i d E. rewrite tick_lookup in E.
    destruct (sessions s !! i) as [d' |] eqn:E'; [| done].
    change (wrap_i64 (clock s + 1)) with (clock (fst (tick s))) in E. rewrite Ec in E.
    case_decide; [done |]. injection E as <-. specialize (Hs _ _ E'). lia.
  - unfold sess_wf. simpl. split_and!; try lia. intros i d E. specialize (Hs _ _ E). lia.
Qed.

(** *** Leases run for exactly [TTL_TICKS] *)

(** A command by which session [s] is renewed or closed. *)
Definition renews (s : Z) (c : bytes) : Prop :=
  sess_of c = Some (SessHeartbeat s) \/ sess_of c = Some (SessClose s).

(** A command by which session [s] acquires a lock. *)
Definition locks_as (s : Z) (c : bytes) : Prop :=
  exists body name t, lock_of c = Some body
    /\ (FencedLock.decode body = Some (name, FlLock s t)
        \/ FencedLock.decode body = Some (name, FlTryLock s t)).

Definition is_tick (c : bytes) : bool := match sess_of c with Some SessTick => true | _ => false end.

Definition ticks (cs : list bytes) : Z := foldr (fun c n => (if is_tick c then 1 else 0) + n) 0 cs.

Lemma ticks_nonneg cs : 0 <= ticks cs.
Proof. induction cs as [| c cs IH]; simpl; [lia | destruct (is_tick c); lia]. Qed.

Definition holds_none (s : Z) (l : FencedLockSm) : Prop :=
  forall name k, locks l !! name = Some k -> session k <> s.

(** The lease of [s]: running until [d], or over for good. *)
Definition lease (s : Z) (d : option Z) (sm : SessionSm) : Prop :=
  sessions sm !! s = d /\ s <= next_id sm.

Lemma sess_step_lease b s d sm op :
  sess_wf b sm -> b < 2 ^ 62 -> lease s d sm ->
  op <> SessHeartbeat s -> op <> SessClose s ->
  lease s (match op, d with
           | SessTick, Some t => if decide (t <= clock sm + 1) then None else Some t
           | _, _ => d
           end) (sess_step sm op)
  /\ clock (sess_step sm op) = clock sm + (match op with SessTick => 1 | _ => 0 end).
Proof.
  intros (Hc & Hn & _) Hb [Hs Hle] Hh Hcl. unfold lease. destruct op as [| id | id | |]; simpl.
  - rewrite (wrap_i64_small (next_id sm + 1)) by (unfold is_i64; lia).
    rewrite lookup_insert_ne by lia. split_and!; [done | lia | lia].
  - unfold heartbeat. destruct (sessions sm !! id) eqn:E; simpl; [| split_and!; [done | lia | lia]].
    rewrite lookup_insert_ne by congruence. split_and!; [done | lia | lia].
  - rewrite lookup_delete_ne by congruence. split_and!; [done | lia | lia].
  - pose proof (tick_lookup sm s) as Ht. simpl in Ht. rewrite Ht, Hs.
    rewrite wrap_i64_small by (unfold is_i64; lia). by destruct d.
  - split_and!; [done | lia | lia].
Qed.

(** The locks of [s] after a command that does not lock for it: gone if there were none, or if the
    command ended the session. *)
Lemma apply_holds_none s sm c :
  ~ locks_as s c ->
  holds_none s (fenced_lock sm)
  \/ (exists d, sess_of c = Some SessTick /\ sessions (cp_sessions sm) !! s = Some d
        /\ d <= wrap_i64 (clock (cp_sessions sm) + 1)) ->
  holds_none s (fenced_lock (fst (apply sm c))).
Proof.
  intros Hl H. rewrite (proj2 (apply_cases sm c)). unfold holds_none in *. intros name k.
  destruct (sess_of c) as [op |] eqn:Es.
  - rewrite lookup_release_sessions. destruct (locks (fenced_lock sm) !! name) as [k' |] eqn:E; [| done].
    case_decide as Hin; [done |]. intros [= <-]. destruct H as [H | (d & [= ->] & Hd & Hlt)]; [by eapply H |].
    intros Hk. apply Hin. rewrite Hk. apply elem_of_expired. eauto.
  - destruct H as [H | (d & ? & _)]; [| done]. destruct (lock_of c) as [body |] eqn:Eb; [| apply H].
    unfold FencedLock.apply. destruct (FencedLock.decode body) as [[n op] |] eqn:Ed; [| apply H].
    assert (forall t, op <> FlLock s t /\ op <> FlTryLock s t) as Hop.
    { intros t. split; intros ->; apply Hl; exists body, n, t; auto. }
    assert (forall s' t, s' <> s -> locks (fst (acquire (fenced_lock sm) n s' t)) !! name = Some k ->
      session k <> s) as Hacq.
    { intros s' t Hne. unfold acquire.
      destruct (locks (fenced_lock sm) !! n) as [l |] eqn:E; [repeat case_match |]; simpl;
        try apply H; intros [[<- <-] | [_ E']]%lookup_insert_Some; simpl; eauto. }
    destruct op as [s' t | s' t | s' t].
    + specialize (Hacq s' t). destruct (acquire _ n s' t). apply Hacq. destruct (Hop t). congruence.
    + specialize (Hacq s' t). destruct (acquire _ n s' t). apply Hacq. destruct (Hop t). congruence.
    + unfold release. repeat case_match; simplify_eq/=; try apply H.
      * intros [_ E']%lookup_delete_Some. eauto.
      * intros [[<- <-] | [_ E']]%lookup_insert_Some; simpl; eauto.
Qed.

(** One command in the life of a lease. *)
Lemma apply_lease b s d sm c :
  sess_wf b (cp_sessions sm) -> b < 2 ^ 62 -> lease s d (cp_sessions sm) -> ~ renews s c ->
  exists d', lease s d' (cp_sessions (fst (apply sm c)))
    /\ d' = (if is_tick c then
               match d with
               | Some t => if decide (t <= clock (cp_sessions sm) + 1) then None else Some t
               | None => None
               end else d)
    /\ clock (cp_sessions (fst (apply sm c))) = clock (cp_sessions sm) + (if is_tick c then 1 else 0)
    /\ sess_wf (b + 1) (cp_sessions (fst (apply sm c))).
Proof.
  intros Hwf Hb Hl Hr. rewrite (proj1 (apply_cases sm c)). unfold is_tick, renews in *.
  destruct (sess_of c) as [op |]; simpl.
  - destruct (sess_step_lease b s d (cp_sessions sm) op Hwf Hb Hl) as [H1 H2]; [naive_solver.. |].
    rewrite H2. eexists. split; [exact H1 |]. split; [by destruct op, d |].
    split; [by destruct op | by apply sess_step_wf].
  - exists d. split; [done |]. split; [done |]. split; [lia |].
    destruct Hwf as (? & ? & ?). unfold sess_wf. split_and!; try lia. done.
Qed.

Lemma run_lease b s d sm cs :
  sess_wf b (cp_sessions sm) -> b + blen cs < 2 ^ 62 ->
  lease s d (cp_sessions sm) -> Forall (fun c => ~ renews s c) cs ->
  let sm' := fst (run_all apply sm cs) in
  sessions (cp_sessions sm') !! s =
    (t ← d; if decide (t <= clock (cp_sessions sm) + ticks cs /\ 1 <= ticks cs) then None else Some t)
  /\ (Forall (fun c => ~ locks_as s c) cs -> (d = None -> holds_none s (fenced_lock sm)) ->
      sessions (cp_sessions sm') !! s = None -> holds_none s (fenced_lock sm')).
Proof.
  intros Hwf Hb Hl Hr. revert b d sm Hwf Hb Hl.
  induction Hr as [| c cs Hc _ IH]; intros b d sm Hwf Hb Hl.
  { destruct Hl as [Hl _]. simpl. split; [rewrite Hl; destruct d; simpl; [rewrite decide_False by lia |]; done |].
    intros _ Hnone. rewrite Hl. apply Hnone. }
  rewrite blen_cons in Hb. pose proof (blen_nonneg cs). pose proof (ticks_nonneg cs) as Hnn.
  destruct (apply_lease b s d sm c Hwf ltac:(lia) Hl Hc) as (d' & Hl' & Ed & Ec & Hwf').
  pose proof (apply_holds_none s sm c) as Hh.
  simpl run_all. destruct (apply sm c) as [sm1 r]. simpl in *.
  destruct (IH (b + 1) d' sm1 Hwf' ltac:(lia) Hl') as [I1 I2].
  destruct (run_all apply sm1 cs) as [sm2 rs]. simpl in *. split.
  - rewrite I1, Ed, Ec. destruct d as [t |]; [| by destruct (is_tick c)]. simpl.
    destruct (is_tick c); simpl; repeat case_decide; simpl; repeat case_decide; done || lia.
  - intros Hlk Hnone. apply Forall_cons in Hlk as [Hlk1 Hlk2]. apply I2; [done |].
    intros ->. apply Hh; [done |]. unfold is_tick in Ed. destruct Hl as [Hs _].
    destruct d as [t |]; [| left; by apply Hnone]. right. exists t.
    rewrite wrap_i64_small by (destruct Hwf as (? & _); unfold is_i64; lia).
    destruct (sess_of c) as [[] |]; try done. case_decide; done.
Qed.

(** A lease lasts exactly [TTL_TICKS]: from the moment a session is created or renewed, over
    any sequence of committed commands that neither renews nor closes it, it is active as long as
    fewer than 30 of them are ticks, and from the 30th tick on it is not, ever again. *)
Theorem session_lease_is_exact b s sm cs :
  sess_wf b (cp_sessions sm) -> b + blen cs < 2 ^ 62 ->
  sessions (cp_sessions sm) !! s = Some (clock (cp_sessions sm) + TTL_TICKS) ->
  Forall (fun c => ~ renews s c) cs ->
  is_active (cp_sessions (fst (run_all apply sm cs))) s = (ticks cs <? TTL_TICKS).
Proof.
  intros Hwf Hb Hs Hr.
  assert (lease s (Some (clock (cp_sessions sm) + TTL_TICKS)) (cp_sessions sm)) as Hl.
  { split; [done |]. apply Hwf in Hs. lia. }
  destruct (run_lease b s _ sm cs Hwf Hb Hl Hr) as [E _]. unfold is_active. rewrite E. simpl.
  unfold TTL_TICKS. case (Z.ltb_spec (ticks cs) 30); intros.
  - rewrite decide_False by lia. by apply bool_decide_true.
  - rewrite decide_True by lia. apply bool_decide_false. intros [? ?]. done.
Qed.

(** Expiry releases locks: if session [s] is neither renewed nor takes a lock any more, then
    once it has expired no lock of the group is held by it. *)
Theorem expired_session_holds_no_lock b s sm cs :
  sess_wf b (cp_sessions sm) -> b + blen cs < 2 ^ 62 ->
  sessions (cp_sessions sm) !! s = Some (clock (cp_sessions sm) + TTL_TICKS) ->
  Forall (fun c => ~ renews s c) cs -> Forall (fun c => ~ locks_as s c) cs ->
  TTL_TICKS <= ticks cs ->
  holds_none s (fenced_lock (fst (run_all apply sm cs))).
Proof.
  intros Hwf Hb Hs Hr Hlk Ht.
  assert (lease s (Some (clock (cp_sessions sm) + TTL_TICKS)) (cp_sessions sm)) as Hl.
  { split; [done |]. apply Hwf in Hs. lia. }
  destruct (run_lease b s _ sm cs Hwf Hb Hl Hr) as [E Hn]. apply Hn; [done | done |].
  rewrite E. simpl. rewrite decide_True; [done |]. unfold TTL_TICKS in *. lia.
Qed.

(** A session that took a lock, thirty ticks later. *)
Definition locked_by_1 : CpSm :=
  fst (run_all apply new_cp_sm [sess_command SessCreate; fl_command (bstr "l") (FlLock 1 7)]).

Lemma locked_by_1_wf : sess_wf 1 (cp_sessions locked_by_1).
Proof.
  replace (cp_sessions locked_by_1) with (mk_SessionSm {[1 := 30]} 0 1 0) by (vm_compute; reflexivity).
  unfold sess_wf. simpl. split_and!; try lia. intros i d E. apply lookup_singleton_Some in E as [<- <-].
  unfold TTL_TICKS. lia.
Qed.

Lemma not_renews_tick s : ~ renews s (sess_command SessTick).
Proof. intros [H | H]; vm_compute in H; discriminate. Qed.

Lemma session_lease_is_exact_witness :
  let run n := fst (run_all apply locked_by_1 (replicate n (sess_command SessTick))) in
  is_active (cp_sessions (run 29%nat)) 1 = true /\ is_active (cp_sessions (run 30%nat)) 1 = false.
Proof.
  intros run. unfold run.
  split; rewrite (session_lease_is_exact 1 1);
    first [apply Forall_replicate, not_renews_tick | exact locked_by_1_wf | vm_compute; reflexivity].
Defined.

Lemma expired_session_holds_no_lock_witness :
  is_locked (fenced_lock locked_by_1) (bstr "l") = true
  /\ holds_none 1
       (fenced_lock (fst (run_all apply locked_by_1 (replicate 30 (sess_command SessTick))))).
Proof.
  split; [vm_compute; reflexivity |].
  apply (expired_session_holds_no_lock 1).
  - exact locked_by_1_wf.
  - vm_compute. reflexivity.
  - vm_compute. reflexivity.
  - apply Forall_replicate, not_renews_tick.
  - apply Forall_replicate. intros (body & name & t & H & _). vm_compute in H. discriminate.
  - vm_compute. congruence.
Defined.

(** Replicas agree on expiry although each iterates its hash map in an order of its own:
    releasing the locks of the expired sessions, and removing those sessions, gives the same state
    in every order. *)
Theorem expiry_order_is_irrelevant s l ids :
  ids ≡ₚ snd (tick s) ->
  foldl release_session l ids = foldl release_session l (snd (tick s))
  /\ foldl (fun m id => delete id m) (sessions s) ids = sessions (fst (tick s)).
Proof.
  intros Hp.
  assert (forall x, x ∈ ids <-> x ∈ snd (tick s)) as Hin by (intros x; by rewrite Hp).
  split.
  - apply FencedLockSm_ext; [| by rewrite !next_fence_release_sessions]. intros name.
    rewrite !lookup_release_sessions. destruct (locks l !! name) as [k |]; [| done].
    apply decide_ext. apply Hin.
  - apply map_eq. intros i. simpl. rewrite !lookup_foldl_delete. apply decide_ext. apply Hin.
Qed.

Lemma expiry_order_is_irrelevant_witness :
  let s := mk_SessionSm {[1 := 1; 2 := 1; 3 := 9]} 0 3 0 in
  let l := fenced_lock locked_by_1 in
  snd (tick s) = [2; 1]
  /\ foldl release_session l [1; 2] = foldl release_session l (snd (tick s)).
Proof.
  intros s l. split; [vm_compute; reflexivity |].
  apply (expiry_order_is_irrelevant s l).
  replace (snd (tick s)) with [2; 1] by (vm_compute; reflexivity). apply Permutation_swap.
Defined.

(** The auto-release has a gap: acquiring a lock does not check that the session is alive, so
    that a lock command of a session that has already expired is granted, and then no number of
    ticks releases the lock. *)
Theorem dead_session_lock_is_never_released n :
  let expired := fst (run_all apply new_cp_sm
    (sess_command SessCreate :: replicate 30 (sess_command SessTick))) in
  is_active (cp_sessions expired) 1 = false
  /\ snd (apply expired (fl_command (bstr "l") (FlLock 1 7))) = RLong 1
  /\ is_locked (fenced_lock (fst (run_all apply (fst (apply expired (fl_command (bstr "l") (FlLock 1 7))))
       (replicate n (sess_command SessTick))))) (bstr "l") = true.
Proof.
  intros expired. split_and!; [vm_compute; reflexivity.. |].
  set (sm := fst (apply expired _)).
  assert (sessions (cp_sessions sm) = ∅ /\ is_locked (fenced_lock sm) (bstr "l") = true) as H
    by (split; vm_compute; reflexivity).
  assert (forall sm, sessions (cp_sessions sm) = ∅ /\ is_locked (fenced_lock sm) (bstr "l") = true ->
    sessions (cp_sessions (fst (run_all apply sm (replicate n (sess_command SessTick))))) = ∅
    /\ is_locked (fenced_lock (fst (run_all apply sm (replicate n (sess_command SessTick))))) (bstr "l") = true)
    as Hrun; [| by apply Hrun].
  clear. intros sm H.
  apply (run_all_invariant apply (fun sm => sessions (cp_sessions sm) = ∅
    /\ is_locked (fenced_lock sm) (bstr "l") = true) (fun c => c = sess_command SessTick)); [done | by apply Forall_replicate |].
  clear. intros sm c [Hs Hl] ->. destruct (apply_cases sm (sess_command SessTick)) as [-> ->].
  replace (sess_of (sess_command SessTick)) with (Some SessTick) by (vm_compute; reflexivity).
  simpl. rewrite Hs. done.
Qed.
