(* ===== verification/CpGroup.v ===== *)
(** * A CP group member (CpGroup of crates/raft/src/cp.rs)

    A Raft node, the replicated state machine and the routing of client operations. *)

From S2P Require Import Prelude RaftLog RaftDisk RaftNode RaftNodeFacts.
From S2P Require Import CpReply AtomicLong Session CpSm.

(** Live log entries retained before compaction, and ticks between session clock advances. *)
Definition COMPACT_KEEP : nat := 256.
Definition SESSION_TICK_INTERVAL : Z := 1000.

Inductive CpMsg :=
| MRaft (m : RaftMsg)
| MForward (client : Z) (origin : nat) (command : bytes)
| MReply (client : Z) (reply : CpReply).

Record Completion := mkCompletion { c_client : Z; c_reply : CpReply }.

(** [pending]: log index to the client and origin of an operation this member proposed;
    [waiting]: local operations buffered until a leader is known. *)
Record CpGroup := mkGroup {
  g_id : nat;
  raft : RaftNode;
  sm : CpSm;
  pending : gmap Z (Z * nat);
  waiting : list (Z * bytes);
  completions : list Completion;
  ticks_since_session : Z
}.

Abbreviation cp_msgs := (list (nat * CpMsg)).

Definition set_raft x g :=
  mkGroup (g_id g) x (sm g) (pending g) (waiting g) (completions g) (ticks_since_session g).
Definition set_sm x g :=
  mkGroup (g_id g) (raft g) x (pending g) (waiting g) (completions g) (ticks_since_session g).
Definition set_pending x g :=
  mkGroup (g_id g) (raft g) (sm g) x (waiting g) (completions g) (ticks_since_session g).
Definition set_waiting x g :=
  mkGroup (g_id g) (raft g) (sm g) (pending g) x (completions g) (ticks_since_session g).
Definition set_completions x g :=
  mkGroup (g_id g) (raft g) (sm g) (pending g) (waiting g) x (ticks_since_session g).
Definition set_ticks_since_session x g :=
  mkGroup (g_id g) (raft g) (sm g) (pending g) (waiting g) (completions g) x.
Arguments set_raft x g /.
Arguments set_sm x g /.
Arguments set_pending x g /.
Arguments set_waiting x g /.
Arguments set_completions x g /.
Arguments set_ticks_since_session x g /.

Section Group.
Context {C : Crc32}.

Definition new_group (raft : RaftNode) : CpGroup :=
  mkGroup (id raft) raft new_cp_sm ∅ [] [] 0.

(** Proposes locally on the leader, forwards to a known leader, else buffers a local operation and
    drops a forwarded one. *)
Definition route (client : Z) (origin : nat) (command : bytes) (g : CpGroup)
    : outcome (CpGroup * cp_msgs) :=
  if is_leader (raft g) then
    '(n, index) ← propose command (raft g);
    let g := set_raft n g in
    match index with
    | Some index => Ok (set_pending (<[index := (client, origin)]> (pending g)) g, [])
    | None => Ok (g, [])
    end
  else
    match leader (raft g) with
    | Some l => Ok (g, [(l, MForward client origin command)])
    | None =>
      if decide (origin = g_id g)
      then Ok (set_waiting (waiting g ++ [(client, command)]) g, [])
      else Ok (g, [])
    end.

Definition submit (client : Z) (command : bytes) (g : CpGroup) : outcome (CpGroup * cp_msgs) :=
  route client (g_id g) command g.

(** Applies one committed command and answers the operation pending at its index, if any. *)
Definition apply_one (g : CpGroup) (e : Z * bytes) : CpGroup * cp_msgs :=
  let '(index, command) := e in
  let '(s, reply) := CpSm.apply (sm g) command in
  let g := set_sm s g in
  match pending g !! index with
  | Some (client, origin) =>
    let g := set_pending (delete index (pending g)) g in
    if decide (origin = g_id g)
    then (set_completions (completions g ++ [mkCompletion client reply]) g, [])
    else (g, [(origin, MReply client reply)])
  | None => (g, [])
  end.

Definition apply_committed (g : CpGroup) : CpGroup * cp_msgs :=
  let '(n, es) := take_committed (raft g) in
  let '(g, outs) := run_all apply_one (set_raft n g) es in
  (g, concat outs).

Definition wrap_raft (out : msgs) : cp_msgs := map (fun p => (p.1, MRaft p.2)) out.

Definition step (from : nat) (msg : CpMsg) (g : CpGroup) : outcome (CpGroup * cp_msgs) :=
  '(g, out) ← match msg with
              | MRaft rm =>
                '(n, rout) ← RaftNode.step from rm (raft g);
                Ok (set_raft n g, wrap_raft rout)
              | MForward client origin command => route client origin command g
              | MReply client reply =>
                Ok (set_completions (completions g ++ [mkCompletion client reply]) g, [])
              end;
  let '(g, out') := apply_committed g in
  Ok (g, out ++ out').

(** Routes the operations buffered while no leader was known. *)
Fixpoint route_all (ops : list (Z * bytes)) (g : CpGroup) : outcome (CpGroup * cp_msgs) :=
  match ops with
  | [] => Ok (g, [])
  | (client, command) :: ops' =>
    '(g, out) ← route client (g_id g) command g;
    '(g, out') ← route_all ops' g;
    Ok (g, out ++ out')
  end.

(** The leader's periodic advance of the session clock. *)
Definition session_tick (g : CpGroup) : outcome CpGroup :=
  if is_leader (raft g) then
    let t := wrap_u64 (ticks_since_session g + 1) in
    if SESSION_TICK_INTERVAL <=? t then
      '(n, _) ← propose (sess_command SessTick) (raft g);
      Ok (set_raft n (set_ticks_since_session 0 g))
    else Ok (set_ticks_since_session t g)
  else Ok g.

Definition tick (g : CpGroup) : outcome (CpGroup * cp_msgs) :=
  '(n, rout) ← RaftNode.tick (raft g);
  let g := set_raft n g in
  '(g, out) ← (if is_leader (raft g) || bool_decide (is_Some (leader (raft g)))
               then route_all (waiting g) (set_waiting [] g) else Ok (g, []));
  g ← session_tick g;
  let '(g, out') := apply_committed g in
  n ← maybe_compact COMPACT_KEEP (raft g);
  Ok (set_raft n g, wrap_raft rout ++ out ++ out').

Definition take_completions (g : CpGroup) : CpGroup * list Completion :=
  (set_completions [] g, completions g).

(** ** At most one answer per operation

    The clients a member still owes an answer, or has one ready for; and those that its messages
    carry. *)

Definition owed (g : CpGroup) : list Z :=
  (map_to_list (pending g)).*2.*1 ++ (waiting g).*1 ++ map c_client (completions g).

Definition carried (out : cp_msgs) : list Z :=
  omap (fun p => match p.2 with MForward c _ _ | MReply c _ => Some c | MRaft _ => None end) out.

Lemma carried_app a b : carried (a ++ b) = carried a ++ carried b.
Proof. apply omap_app. Qed.

Lemma carried_wrap_raft out : carried (wrap_raft out) = [].
Proof. induction out as [| [p m] out IH]; [done |]. exact IH. Qed.

(** The clients of the pending map after an insertion or a removal. *)
Lemma pending_insert (m : gmap Z (Z * nat)) i x :
  (map_to_list (<[i := x]> m)).*2.*1 ⊆+ x.1 :: (map_to_list m).*2.*1.
Proof.
  rewrite <- insert_delete_eq, map_to_list_insert by apply lookup_delete_eq. simpl.
  apply submseteq_skip. apply fmap_submseteq, fmap_submseteq.
  apply map_to_list_submseteq, delete_subseteq.
Qed.

Lemma pending_delete (m : gmap Z (Z * nat)) i x :
  m !! i = Some x -> x.1 :: (map_to_list (delete i m)).*2.*1 ≡ₚ (map_to_list m).*2.*1.
Proof. intros H. by rewrite <- (map_to_list_delete m i x H). Qed.

Lemma owed_pending x g :
  owed (set_pending x g) = (map_to_list x).*2.*1 ++ (waiting g).*1 ++ map c_client (completions g).
Proof. done. Qed.

Lemma route_owed client origin command g g' out :
  route client origin command g = Ok (g', out) -> owed g' ++ carried out ⊆+ client :: owed g.
Proof.
  unfold route. intros H. destruct (is_leader (raft g)).
  - destruct (propose command (raft g)) as [[n [index |]] |]; simplify_eq/=; rewrite app_nil_r;
      [| apply submseteq_cons; done].
    unfold owed. simpl.
    etrans; [apply submseteq_skips_r, pending_insert |]. done.
  - destruct (leader (raft g)) as [l |].
    + simplify_eq/=. rewrite Permutation_app_comm. done.
    + case_decide; simplify_eq/=; rewrite app_nil_r; [| apply submseteq_cons; done].
      unfold owed. simpl. rewrite fmap_app. simpl. apply Permutation_submseteq. solve_Permutation.
Qed.

Lemma apply_one_owed g e :
  let '(g', out) := apply_one g e in
  owed g' ++ carried out ≡ₚ owed g /\ g_id g' = g_id g /\ raft g' = raft g.
Proof.
  destruct e as [index command]. unfold apply_one. destruct (CpSm.apply (sm g) command) as [s reply].
  simpl. destruct (pending g !! index) as [[client origin] |] eqn:E; simpl; [| by rewrite app_nil_r].
  pose proof (pending_delete _ _ _ E) as Hp. simpl in Hp.
  case_decide; simpl; (split; [| done]); unfold owed; simpl; rewrite <- Hp.
  - rewrite map_app. simpl. rewrite app_nil_r. solve_Permutation.
  - solve_Permutation.
Qed.

Lemma run_apply_one_owed es g :
  let '(g', outs) := run_all apply_one g es in
  owed g' ++ carried (concat outs) ≡ₚ owed g /\ g_id g' = g_id g /\ raft g' = raft g.
Proof.
  revert g. induction es as [| e es IH]; intros g; simpl; [by rewrite app_nil_r |].
  pose proof (apply_one_owed g e) as H1. destruct (apply_one g e) as [g1 o1].
  specialize (IH g1). destruct (run_all apply_one g1 es) as [g2 o2]. simpl.
  destruct H1 as (H1 & I1 & R1), IH as (H2 & I2 & R2). rewrite carried_app.
  split; [| split; congruence]. rewrite <- H1, <- H2. solve_Permutation.
Qed.

Lemma apply_committed_owed g :
  let '(g', out) := apply_committed g in
  owed g' ++ carried out ≡ₚ owed g /\ g_id g' = g_id g /\ raft g' = (take_committed (raft g)).1.
Proof.
  unfold apply_committed. destruct (take_committed (raft g)) as [n es].
  pose proof (run_apply_one_owed es (set_raft n g)) as H.
  destruct (run_all apply_one (set_raft n g) es). done.
Qed.

Lemma step_owed from msg g g' out :
  step from msg g = Ok (g', out) -> owed g' ++ carried out ⊆+ carried [(from, msg)] ++ owed g.
Proof.
  unfold step. intros H. apply outcome_bind_Ok in H as ([g1 o1] & H1 & H).
  pose proof (apply_committed_owed g1) as H2. destruct (apply_committed g1) as [g2 o2].
  injection H as <- <-. destruct H2 as (H2 & _). rewrite carried_app, (Permutation_app_comm (carried o1)).
  rewrite (assoc_L (++)), H2. clear H2.
  destruct msg as [rm | client origin command | client reply].
  - apply outcome_bind_Ok in H1 as ([n rout] & _ & [= <- <-]). rewrite carried_wrap_raft, app_nil_r. done.
  - by apply route_owed in H1.
  - injection H1 as <- <-. unfold owed. simpl. rewrite map_app. simpl.
    apply Permutation_submseteq. rewrite app_nil_r. solve_Permutation.
Qed.

Lemma route_all_owed ops g g' out :
  route_all ops g = Ok (g', out) -> owed g' ++ carried out ⊆+ ops.*1 ++ owed g.
Proof.
  revert g g' out. induction ops as [| [client command] ops IH]; intros g g' out H; simpl in H.
  { injection H as <- <-. by rewrite app_nil_r. }
  apply outcome_bind_Ok in H as ([g1 o1] & H1 & H).
  apply outcome_bind_Ok in H as ([g2 o2] & H2 & [= <- <-]).
  apply route_owed in H1. apply IH in H2. rewrite carried_app. simpl.
  transitivity (carried o1 ++ ops.*1 ++ owed g1).
  { rewrite (Permutation_app_comm (carried o1)), (assoc_L (++)), Permutation_app_comm.
    by apply submseteq_skips_l. }
  rewrite Permutation_app_comm, <- (assoc_L (++)).
  etrans; [apply submseteq_skips_l, H1 |]. apply Permutation_submseteq. solve_Permutation.
Qed.

Lemma session_tick_owed g g' : session_tick g = Ok g' -> owed g' = owed g.
Proof.
  unfold session_tick. intros H. repeat case_match; try by injection H as <-.
  apply outcome_bind_Ok in H as ([n r] & _ & [= <-]). done.
Qed.

Lemma tick_owed g g' out : tick g = Ok (g', out) -> owed g' ++ carried out ⊆+ owed g.
Proof.
  unfold tick. intros H. apply outcome_bind_Ok in H as ([n rout] & _ & H).
  apply outcome_bind_Ok in H as ([g1 o1] & H1 & H).
  apply outcome_bind_Ok in H as (g2 & H2 & H).
  pose proof (apply_committed_owed g2) as H3. destruct (apply_committed g2) as [g3 o3].
  apply outcome_bind_Ok in H as (n3 & _ & [= <- <-]).
  destruct H3 as (H3 & _). apply session_tick_owed in H2.
  change (owed (set_raft n3 g3)) with (owed g3).
  rewrite !carried_app, carried_wrap_raft. simpl.
  rewrite (Permutation_app_comm (carried o1)), (assoc_L (++)), H3, H2.
  case_match.
  - apply route_all_owed in H1. etrans; [exact H1 |]. unfold owed. simpl.
    apply Permutation_submseteq. solve_Permutation.
  - injection H1 as <- <-. by rewrite app_nil_r.
Qed.

End Group.
