(* ===== verification/CpCluster.v ===== *)
(** * A CP group end to end

    Clients, the members of a CP group and the connections between them: operations are submitted
    to a member, forwarded, committed, and answered.  A message is delivered once or lost. *)

From S2P Require Import Prelude RaftLog RaftDisk RaftNode RaftNodeFacts CpReply AtomicLong Session CpSm CpGroup.

Section System.
Context {C : Crc32}.

(** ** Members never panic *)

Definition group_wf (N : list nat) (g : CpGroup) : Prop := node_wf N (raft g).

Definition cp_msg_wf (m : CpMsg) : Prop := match m with MRaft rm => msg_wf rm | _ => True end.

Lemma propose_wf N cmd n : node_wf N n -> post (propose cmd n) (fun r => node_wf N r.1).
Proof.
  intros H. eapply post_mono; [by apply (propose_post N (fun _ _ => False)) |]. intros r []. done.
Qed.

Lemma route_wf N client origin command g :
  group_wf N g -> post (route client origin command g) (fun r => group_wf N r.1).
Proof.
  intros H. unfold route, group_wf in *. repeat case_match; try done.
  eapply post_bind; [by apply propose_wf |]. intros [n [index |]] Hn; done.
Qed.

Lemma route_all_wf N ops g :
  group_wf N g -> post (route_all ops g) (fun r => group_wf N r.1).
Proof.
  revert g. induction ops as [| [client command] ops IH]; intros g H; simpl; [done |].
  eapply post_bind; [by apply route_wf |]. intros [g1 o1] H1.
  eapply post_bind; [by apply IH |]. intros [g2 o2] H2. done.
Qed.

Lemma apply_committed_wf N g : group_wf N g -> group_wf N (apply_committed g).1.
Proof.
  intros H. unfold group_wf in *. pose proof (apply_committed_owed g) as Ho.
  destruct (apply_committed g) as [g' out]. destruct Ho as (_ & _ & E). simpl. rewrite E.
  apply (take_committed_step N (fun _ _ => False) _ H).
Qed.

Lemma session_tick_wf N g : group_wf N g -> post (session_tick g) (group_wf N).
Proof.
  intros H. unfold session_tick, group_wf in *. repeat case_match; try done.
  eapply post_bind; [by apply propose_wf |]. intros [n r] Hn. done.
Qed.


(** ** The system *)

(** [submitted] and [answered] are history: the clients whose operation a member was given, and
    those a member handed a completion for. *)
Record system := mkSystem {
  members : gmap nat CpGroup;
  wire : list (nat * nat * CpMsg);
  submitted : list Z;
  answered : list Completion
}.

Inductive cp_event :=
| CpSubmit (i : nat) (client : Z) (command : bytes)
| CpTick (i : nat)
| CpDeliver (k : nat)
| CpDrop (k : nat)
| CpAnswer (i : nat).

Definition put_member (s : system) (i : nat) (g : CpGroup) (wire' : list (nat * nat * CpMsg))
    (out : cp_msgs) (clients : list Z) : system :=
  mkSystem (<[i := g]> (members s)) (wire' ++ map (fun p => (i, p.1, p.2)) out)
    (submitted s ++ clients) (answered s).

Definition cp_exec (s : system) (e : cp_event) : option system :=
  match e with
  | CpSubmit i client command =>
    g ← members s !! i;
    match submit client command g with
    | Ok (g', out) => Some (put_member s i g' (wire s) out [client])
    | Panic => None
    end
  | CpTick i =>
    g ← members s !! i;
    match CpGroup.tick g with
    | Ok (g', out) => Some (put_member s i g' (wire s) out [])
    | Panic => None
    end
  | CpDeliver k =>
    '(from, i, m) ← wire s !! k;
    g ← members s !! i;
    match CpGroup.step from m g with
    | Ok (g', out) => Some (put_member s i g' (delete k (wire s)) out [])
    | Panic => None
    end
  | CpDrop k => Some (mkSystem (members s) (delete k (wire s)) (submitted s) (answered s))
  | CpAnswer i =>
    g ← members s !! i;
    let '(g', cs) := take_completions g in
    Some (mkSystem (<[i := g']> (members s)) (wire s) (submitted s) (answered s ++ cs))
  end.

Fixpoint cp_run (s : system) (es : list cp_event) : option system :=
  match es with
  | [] => Some s
  | e :: es' => s' ← cp_exec s e; cp_run s' es'
  end.

(** A group of freshly started members. *)
Definition fresh_system (s : system) : Prop :=
  (forall i g, members s !! i = Some g -> owed g = []) /\ wire s = [] /\ submitted s = [] /\ answered s = [].

(** ** Every operation is answered at most once *)

Definition all_owed (m : gmap nat CpGroup) : list Z := (map_to_list m) ≫= (fun p => owed p.2).

Definition on_wire (w : list (nat * nat * CpMsg)) : list Z := carried (map (fun p => (p.1.2, p.2)) w).

Definition accounted (s : system) : list Z :=
  all_owed (members s) ++ on_wire (wire s) ++ map c_client (answered s).

Lemma all_owed_insert m i g : all_owed (<[i := g]> m) ≡ₚ owed g ++ all_owed (delete i m).
Proof.
  unfold all_owed. rewrite <- insert_delete_eq, map_to_list_insert by apply lookup_delete_eq. done.
Qed.

Lemma all_owed_lookup m i g : m !! i = Some g -> all_owed m ≡ₚ owed g ++ all_owed (delete i m).
Proof. intros H. unfold all_owed. by rewrite <- (map_to_list_delete m i g H). Qed.

Lemma on_wire_app a b : on_wire (a ++ b) = on_wire a ++ on_wire b.
Proof. unfold on_wire. by rewrite map_app, carried_app. Qed.

Lemma on_wire_out i out : on_wire (map (fun p => (i, p.1, p.2)) out) = carried out.
Proof.
  unfold on_wire. rewrite map_map. f_equal. rewrite <- (map_id out) at 2.
  apply map_ext. by intros [p m].
Qed.

Lemma on_wire_delete w k from i m :
  w !! k = Some (from, i, m) -> on_wire w ≡ₚ carried [(from, m)] ++ on_wire (delete k w).
Proof.
  intros H. rewrite <- (take_drop_middle _ _ _ H) at 1. rewrite delete_take_drop.
  rewrite !on_wire_app. change ((from, i, m) :: drop (S k) w) with ([(from, i, m)] ++ drop (S k) w).
  rewrite on_wire_app. assert (on_wire [(from, i, m)] = carried [(from, m)]) as -> by (by destruct m).
  solve_Permutation.
Qed.

(** A member that turns [owed g] (and a client [extra] it was handed) into [owed g'] and messages. *)
Lemma put_member_accounted s i g g' out wire' clients extra :
  members s !! i = Some g -> owed g' ++ carried out ⊆+ extra ++ owed g ->
  extra ++ on_wire wire' ⊆+ clients ++ on_wire (wire s) ->
  accounted (put_member s i g' wire' out clients) ⊆+ clients ++ accounted s.
Proof.
  intros Hg Ho Hw. unfold accounted. simpl. rewrite all_owed_insert, (all_owed_lookup _ _ _ Hg).
  rewrite on_wire_app, on_wire_out.
  transitivity ((extra ++ on_wire wire') ++ owed g ++ all_owed (delete i (members s))
    ++ map c_client (answered s)).
  { transitivity ((owed g' ++ carried out) ++ on_wire wire' ++ all_owed (delete i (members s))
      ++ map c_client (answered s)); [apply Permutation_submseteq; solve_Permutation |].
    etrans; [apply submseteq_skips_r, Ho |]. apply Permutation_submseteq. solve_Permutation. }
  etrans; [apply submseteq_skips_r, Hw |]. apply Permutation_submseteq. solve_Permutation.
Qed.

Lemma cp_exec_accounted s e s' :
  cp_exec s e = Some s' ->
  exists clients, submitted s' = submitted s ++ clients /\ accounted s' ⊆+ clients ++ accounted s.
Proof.
  destruct e as [i client command | i | k | k | i]; simpl; intros H.
  - destruct (members s !! i) as [g |] eqn:E; simplify_eq/=.
    destruct (submit client command g) as [[g' out] |] eqn:Es; simplify_eq/=.
    exists [client]. split; [done |].
    apply (put_member_accounted s i g g' out _ [client] [client]); [done | | done]. by apply route_owed in Es.
  - destruct (members s !! i) as [g |] eqn:E; simplify_eq/=.
    destruct (CpGroup.tick g) as [[g' out] |] eqn:Es; simplify_eq/=.
    exists []. split; [done |]. apply (put_member_accounted s i g g' out _ [] []); [done | | done].
    by apply tick_owed in Es.
  - destruct (wire s !! k) as [[[from i] m] |] eqn:Ew; simplify_eq/=.
    destruct (members s !! i) as [g |] eqn:E; simplify_eq/=.
    destruct (CpGroup.step from m g) as [[g' out] |] eqn:Es; simplify_eq/=.
    exists []. split; [done |].
    apply (put_member_accounted s i g g' out _ [] (carried [(from, m)])); [done | by apply step_owed |].
    simpl. by rewrite <- (on_wire_delete _ _ _ _ _ Ew).
  - simplify_eq. exists []. rewrite app_nil_r. split; [done |]. unfold accounted. simpl.
    apply submseteq_skips_l, submseteq_skips_r. unfold on_wire, carried.
    destruct (wire s !! k) as [[[from i] m] |] eqn:Ew.
    + fold (carried (map (fun p => (p.1.2, p.2)) (wire s))). fold (on_wire (wire s)).
      rewrite (on_wire_delete _ _ _ _ _ Ew). apply submseteq_inserts_l. done.
    + rewrite delete_take_drop, drop_ge, app_nil_r, take_ge; [done | |];
        apply lookup_ge_None in Ew; lia.
  - destruct (members s !! i) as [g |] eqn:E; simplify_eq/=. exists []. rewrite app_nil_r.
    split; [done |]. unfold accounted. simpl. rewrite all_owed_insert, (all_owed_lookup _ _ _ E).
    unfold owed. simpl. rewrite map_app. apply Permutation_submseteq. rewrite app_nil_r. solve_Permutation.
Qed.

Lemma cp_run_accounted es s s' :
  accounted s ⊆+ submitted s -> cp_run s es = Some s' -> accounted s' ⊆+ submitted s'.
Proof.
  revert s. induction es as [| e es IH]; intros s Hs H; simpl in H; [by simplify_eq |].
  destruct (cp_exec s e) as [s1 |] eqn:E; [| done]. apply (IH s1); [| done].
  destruct (cp_exec_accounted _ _ _ E) as (cl & -> & Ha). etrans; [exact Ha |].
  rewrite Permutation_app_comm. by apply submseteq_skips_r.
Qed.


End System.

(** * Runs of a three-member CP group

    A client operation end to end, and one whose leader is deposed before it commits. *)

#[local] Existing Instance ieee_crc32.

Definition group3 : list nat := [0; 1; 2]%nat.

(** Members as the server creates them: an in-memory log, a seed each. *)
Definition member (i : nat) : option (nat * CpGroup) :=
  match new_node i group3 new_log (1 + 101 * Z.of_nat i) with
  | Ok n => Some (i, new_group n)
  | Panic => None
  end.

Definition fresh3 : system := mkSystem (list_to_map (omap member group3)) [] [] [].

Lemma fresh3_fresh : fresh_system fresh3.
Proof.
  split_and!; try done. intros i g H. apply elem_of_list_to_map_2 in H.
  apply list_elem_of_omap in H as (j & _ & H). unfold member in H.
  destruct (new_node j group3 new_log _) as [n |]; [| done]. by simplify_eq.
Qed.

Definition outcome_of {A} (f : system -> A) (es : list cp_event) : option A := f <$> cp_run fresh3 es.

Definition counter (s : system) (i : nat) (name : bytes) : option Z :=
  (fun g => AtomicLong.get (atomic_long (sm g)) name) <$> members s !! i.

Definition add (name : bytes) (d : Z) : bytes := al_command name (AlAddAndGet d).

(** Member 0 times out and is elected. *)
Definition elect : list cp_event := replicate 10 (CpTick 0) ++ replicate 4 (CpDeliver 0).

(** An operation submitted to member 2 is forwarded to the leader, committed, and answered. *)
Definition forwarded_run : list cp_event :=
  elect ++ replicate 4 (CpDeliver 0)
  ++ [CpSubmit 2 7 (add (bstr "a") 5); CpDeliver 0; CpTick 0; CpDeliver 0; CpDeliver 1; CpDeliver 1;
      CpAnswer 2].

(** Member 0 proposes client 7's operation, which reaches no one; member 1 is elected by member 2
    and commits client 8's operation at the same log index. *)
Definition deposed_run : list cp_event :=
  elect ++ [CpSubmit 0 7 (add (bstr "a") 1); CpDrop 0; CpDrop 0] ++ replicate 13 (CpTick 1)
  ++ [CpDrop 0; CpDeliver 0; CpDeliver 0; CpDrop 0; CpDrop 0; CpSubmit 1 8 (add (bstr "b") 100);
      CpTick 1; CpDeliver 0; CpDeliver 0; CpDeliver 0; CpDeliver 0; CpTick 1; CpDeliver 0;
      CpAnswer 0; CpAnswer 1].



(** A deposed leader answers with another operation's result: [pending] is keyed by log index
    only and survives the loss of leadership, so that when a new leader's entry replaces the
    proposal at its index, the old leader completes its client with the reply of the new leader's
    command.  Here client 7's increment of counter "a" is acknowledged with 100 and is lost. *)
Theorem deposed_leader_answers_wrong :
  exists s, cp_run fresh3 deposed_run = Some s
    /\ answered s = [mkCompletion 7 (RLong 100); mkCompletion 8 (RLong 100)]
    /\ forall i, i ∈ group3 -> counter s i (bstr "a") = Some 0
         /\ exists n, raft <$> members s !! i = Some n
              /\ map e_command (entries (log n)) = [add (bstr "b") 100].
Proof.
  assert (outcome_of (fun s => (answered s, (fun i => (counter s i (bstr "a"),
      (fun g => map e_command (entries (log (raft g)))) <$> members s !! i)) <$> group3)) deposed_run
    = Some ([mkCompletion 7 (RLong 100); mkCompletion 8 (RLong 100)],
            replicate 3 (Some 0, Some [add (bstr "b") 100]))) as H by (vm_compute; reflexivity).
  unfold outcome_of in H. apply fmap_Some in H as (s & E & H).
  exists s. injection H as Ha H0 H1 H2 H3 H4 H5. split_and!; [exact E | done |]. clear E Ha.
  intros i Hi. unfold group3 in Hi. rewrite !elem_of_cons, elem_of_nil in Hi.
  assert (counter s i (bstr "a") = Some 0 /\
    (fun g => map e_command (entries (log (raft g)))) <$> members s !! i = Some [add (bstr "b") 100])
    as [Hc Hm] by (destruct Hi as [-> | [-> | [-> | []]]]; done).
  split; [done |]. apply fmap_Some in Hm as (g & -> & Hg). exists (raft g). done.
Qed.
