(* ===== verification/CpWire.v ===== *)
(** * The wire codec of CP messages (encode_msg and decode_msg of crates/raft/src/cp.rs) *)

From S2P Require Import Prelude RaftLog RaftNode CpReply CpGroup.

Definition put_u64 (v : Z) : bytes := to_le 8 v.
Definition put_blob (b : bytes) : bytes := put_u64 (blen b) ++ b.
Definition get_u64 (b : bytes) : option (Z * bytes) := get_u 8 b.
Definition get_blob (b : bytes) : option (bytes * bytes) := '(n, r) ← get_u64 b; take_n n r.

Definition put_entry (e : Entry) : bytes :=
  put_u64 (e_term e) ++ put_u64 (e_index e) ++ put_blob (e_command e).

Definition get_entry (b : bytes) : option (Entry * bytes) :=
  '(term, r) ← get_u64 b;
  '(index, r) ← get_u64 r;
  '(command, r) ← get_blob r;
  Some (mkEntry term index command, r).

Definition put_reply (r : CpReply) : bytes :=
  match r with
  | RLong v => b8 0 :: to_le 8 v
  | RBool v => [b8 1; bool_u8 v]
  | RData d => b8 2 :: match d with Some b => put_blob b | None => put_u64 (2 ^ 64 - 1) end
  | RNil => [b8 3]
  end.

Definition get_reply (b : bytes) : option (CpReply * bytes) :=
  '(tag, r) ← get_byte b;
  match u8 tag with
  | 0 => '(v, r) ← get_i 8 r; Some (RLong v, r)
  | 1 => '(v, r) ← get_byte r; Some (RBool (u8_bool v), r)
  | 2 =>
    (* the length is peeked at: the cursor moves only past the null sentinel *)
    '(len, r') ← get_u64 r;
    if len =? 2 ^ 64 - 1 then Some (RData None, r')
    else '(d, r) ← get_blob r; Some (RData (Some d), r)
  | _ => Some (RNil, r)
  end.

Definition encode_raft (m : RaftMsg) : bytes :=
  match m with
  | RequestVote term candidate last_log_index last_log_term =>
    b8 0 :: put_u64 term ++ put_u64 (Z.of_nat candidate) ++ put_u64 last_log_index
      ++ put_u64 last_log_term
  | RequestVoteResp term granted => b8 1 :: put_u64 term ++ [bool_u8 granted]
  | AppendEntries term leader prev_log_index prev_log_term entries leader_commit =>
    b8 2 :: put_u64 term ++ put_u64 (Z.of_nat leader) ++ put_u64 prev_log_index
      ++ put_u64 prev_log_term ++ put_u64 (blen entries) ++ concat (map put_entry entries)
      ++ put_u64 leader_commit
  | AppendEntriesResp term success match_index =>
    b8 3 :: put_u64 term ++ [bool_u8 success] ++ put_u64 match_index
  end.

(** [Vec::with_capacity(n)] of a 40-byte type panics past [isize::MAX] bytes. *)
Definition size_of_entry : Z := 40.
Definition with_capacity_ok (n : Z) : bool := n * size_of_entry <? 2 ^ 63.

(** [n] entries; every entry takes at least 24 bytes, so [fuel] need not exceed the buffer. *)
Fixpoint get_entries (fuel : nat) (n : Z) (b : bytes) : option (list Entry * bytes) :=
  if n <=? 0 then Some ([], b) else
  match fuel with
  | O => None
  | S fuel' =>
    '(e, r) ← get_entry b;
    '(es, r) ← get_entries fuel' (n - 1) r;
    Some (e :: es, r)
  end.

Definition decode_raft (b : bytes) : outcome (option RaftMsg) :=
  match get_byte b with
  | None => Ok None
  | Some (tag, r) =>
    match u8 tag with
    | 0 => Ok ('(term, r) ← get_u64 r;
               '(candidate, r) ← get_u64 r;
               '(last_log_index, r) ← get_u64 r;
               '(last_log_term, r) ← get_u64 r;
               Some (RequestVote term (Z.to_nat candidate) last_log_index last_log_term))
    | 1 => Ok ('(term, r) ← get_u64 r;
               '(g, r) ← get_byte r;
               Some (RequestVoteResp term (u8_bool g)))
    | 2 =>
      match ('(term, r) ← get_u64 r;
             '(leader, r) ← get_u64 r;
             '(prev_log_index, r) ← get_u64 r;
             '(prev_log_term, r) ← get_u64 r;
             '(n, r) ← get_u64 r;
             Some (term, leader, prev_log_index, prev_log_term, n, r)) with
      | None => Ok None
      | Some (term, leader, prev_log_index, prev_log_term, n, r) =>
        if negb (with_capacity_ok n) then Panic
        else Ok ('(entries, r) ← get_entries (length r) n r;
                 '(leader_commit, _) ← get_u64 r;
                 Some (AppendEntries term (Z.to_nat leader) prev_log_index prev_log_term entries
                         leader_commit))
      end
    | 3 => Ok ('(term, r) ← get_u64 r;
               '(s, r) ← get_byte r;
               '(match_index, r) ← get_u64 r;
               Some (AppendEntriesResp term (u8_bool s) match_index))
    | _ => Ok None
    end
  end.

Definition encode_msg (m : CpMsg) : bytes :=
  match m with
  | MRaft rm => b8 0 :: encode_raft rm
  | MForward client origin command =>
    b8 1 :: put_u64 client ++ put_u64 (Z.of_nat origin) ++ put_blob command
  | MReply client reply => b8 2 :: put_u64 client ++ put_reply reply
  end.

Definition decode_msg (b : bytes) : outcome (option CpMsg) :=
  match get_byte b with
  | None => Ok None
  | Some (tag, r) =>
    match u8 tag with
    | 0 => match decode_raft r with Ok m => Ok (option_map MRaft m) | Panic => Panic end
    | 1 => Ok ('(client, r) ← get_u64 r;
               '(origin, r) ← get_u64 r;
               '(command, r) ← get_blob r;
               Some (MForward client (Z.to_nat origin) command))
    | 2 => Ok ('(client, r) ← get_u64 r;
               '(reply, r) ← get_reply r;
               Some (MReply client reply))
    | _ => Ok None
    end
  end.

(** ** Round trip *)

(** Values a member can have: [u64] fields, and vectors that fit the address space. *)
Definition entry_wire_ok (e : Entry) : Prop :=
  is_u64 (e_term e) /\ is_u64 (e_index e) /\ blen (e_command e) < 2 ^ 63.

Definition raft_msg_ok (m : RaftMsg) : Prop :=
  match m with
  | RequestVote t c li lt => is_u64 t /\ is_u64 (Z.of_nat c) /\ is_u64 li /\ is_u64 lt
  | RequestVoteResp t _ => is_u64 t
  | AppendEntries t l pi pt es lc =>
    is_u64 t /\ is_u64 (Z.of_nat l) /\ is_u64 pi /\ is_u64 pt /\ is_u64 lc
    /\ with_capacity_ok (blen es) = true /\ Forall entry_wire_ok es
  | AppendEntriesResp t _ mi => is_u64 t /\ is_u64 mi
  end.

Definition msg_ok (m : CpMsg) : Prop :=
  match m with
  | MRaft rm => raft_msg_ok rm
  | MForward c o cmd => is_u64 c /\ is_u64 (Z.of_nat o) /\ blen cmd < 2 ^ 63
  | MReply c r =>
    is_u64 c /\ match r with
                | RLong v => is_i64 v
                | RData (Some d) => blen d < 2 ^ 63
                | _ => True
                end
  end.

Lemma get_put_u64 v r : is_u64 v -> get_u64 (put_u64 v ++ r) = Some (v, r).
Proof. apply get_u64_to_le. Qed.

Lemma get_put_u64_last v : is_u64 v -> get_u64 (put_u64 v) = Some (v, []).
Proof. intros H. rewrite <- (app_nil_r (put_u64 v)). by apply get_put_u64. Qed.

Lemma get_put_blob b r : blen b < 2 ^ 63 -> get_blob (put_blob b ++ r) = Some (b, r).
Proof.
  intros H. unfold get_blob, put_blob. rewrite <- app_assoc, get_put_u64.
  - simpl. apply take_n_app.
  - pose proof (blen_nonneg b). unfold is_u64. lia.
Qed.

Lemma get_put_blob_last b : blen b < 2 ^ 63 -> get_blob (put_blob b) = Some (b, []).
Proof. intros H. rewrite <- (app_nil_r (put_blob b)). by apply get_put_blob. Qed.

#[local] Hint Rewrite get_put_u64 get_put_u64_last get_put_blob get_put_blob_last
  using (solve [assumption | done]) : codec.
#[local] Hint Rewrite Nat2Z.id : codec.

Lemma get_put_entry e r : entry_wire_ok e -> get_entry (put_entry e ++ r) = Some (e, r).
Proof.
  intros (Ht & Hi & Hc). unfold get_entry, put_entry. run_codec. by destruct e.
Qed.

Lemma length_put_entry e : (24 <= length (put_entry e))%nat.
Proof. unfold put_entry, put_blob, put_u64. rewrite !length_app, !length_to_le. lia. Qed.

Lemma get_put_entries es r fuel :
  Forall entry_wire_ok es -> (length es <= fuel)%nat ->
  get_entries fuel (blen es) (concat (map put_entry es) ++ r) = Some (es, r).
Proof.
  intros Hes. revert fuel. induction Hes as [| e es He _ IH]; intros fuel Hf; simpl.
  { by destruct fuel. }
  destruct fuel as [| fuel]; simpl in Hf; [lia |]. cbn [get_entries].
  rewrite blen_cons. rewrite (proj2 (Z.leb_gt _ _)) by (pose proof (blen_nonneg es); lia).
  rewrite <- app_assoc, get_put_entry by done. simpl. replace (1 + blen es - 1) with (blen es) by lia.
  rewrite IH by lia. done.
Qed.

Lemma length_put_entries es : (length es <= length (concat (map put_entry es)))%nat.
Proof.
  induction es as [| e es IH]; simpl; [lia |]. rewrite length_app.
  pose proof (length_put_entry e). lia.
Qed.

Lemma decode_encode_raft m : raft_msg_ok m -> decode_raft (encode_raft m) = Ok (Some m).
Proof.
  intros Hm. unfold decode_raft, encode_raft.
  destruct m as [t c li lt | t g | t l pi pt es lc | t s mi]; simpl in Hm; destruct_and?;
    cbn [get_byte].
  - rewrite u8_b8 by lia. run_codec.
  - rewrite u8_b8 by lia. run_codec.
  - rewrite u8_b8 by lia.
    assert (is_u64 (blen es)) as Hl.
    { pose proof (blen_nonneg es). unfold with_capacity_ok, size_of_entry in *. unfold is_u64. lia. }
    run_codec.
    match goal with H : with_capacity_ok _ = true |- _ => rewrite H end. cbn [negb].
    rewrite get_put_entries; [| done | rewrite length_app; pose proof (length_put_entries es); lia].
    run_codec.
  - rewrite u8_b8 by lia. run_codec.
Qed.

(** CP messages survive the wire: decoding an encoded message gives the message back. *)
Theorem decode_encode_msg m : msg_ok m -> decode_msg (encode_msg m) = Ok (Some m).
Proof.
  intros Hm. unfold decode_msg, encode_msg.
  destruct m as [rm | c o cmd | c r]; simpl in Hm; destruct_and?; cbn [get_byte]; rewrite u8_b8 by lia.
  - rewrite decode_encode_raft by done. done.
  - run_codec.
  - unfold get_reply, put_reply. run_codec.
    destruct r as [v | b | [d |] |]; cbn [get_byte]; run_codec.
    + rewrite <- (app_nil_r (to_le 8 v)). run_codec.
    + unfold put_blob at 1. rewrite get_put_u64.
      * cbn [mbind option_bind]. rewrite (proj2 (Z.eqb_neq _ _)) by lia. run_codec.
      * pose proof (blen_nonneg d). unfold is_u64. lia.
Qed.

Lemma decode_encode_msg_witness :
  let m := MRaft (AppendEntries 4 1 2 3 [mkEntry 4 3 (bstr "cmd1"); mkEntry 4 4 (bstr "cmd2")] 2) in
  decode_msg (encode_msg m) = Ok (Some m).
Proof.
  intros m. apply decode_encode_msg. simpl. split_and!; try done. repeat constructor; done.
Defined.

(** The fuel of [get_entries] is no restriction: more of it than the buffer has bytes changes
    nothing. *)
Lemma take_n_length n b x r : 0 <= n -> take_n n b = Some (x, r) -> (length r <= length b)%nat.
Proof. intros Hn H. apply take_n_Some in H as [-> _]; [| done]. rewrite length_app. lia. Qed.

Lemma get_u64_length b v r : get_u64 b = Some (v, r) -> length b = (8 + length r)%nat.
Proof. intros H%get_u_blen. unfold blen in H. lia. Qed.

Lemma get_entry_length b e r : get_entry b = Some (e, r) -> (length r < length b)%nat.
Proof.
  unfold get_entry, get_blob. intros H.
  destruct (get_u64 b) as [[t r1] |] eqn:E1; simplify_eq/=.
  destruct (get_u64 r1) as [[i r2] |] eqn:E2; simplify_eq/=.
  destruct (get_u64 r2) as [[n r3] |] eqn:E3; simplify_eq/=.
  destruct (take_n n r3) as [[c r4] |] eqn:E4; simplify_eq/=.
  pose proof (get_u64_range _ _ _ E3) as [Hn _]. apply take_n_length in E4; [| done].
  apply get_u64_length in E1, E2, E3. lia.
Qed.

Lemma get_entries_fuel fuel n b :
  (length b <= fuel)%nat -> get_entries fuel n b = get_entries (length b) n b.
Proof.
  revert n b. induction fuel as [fuel IH] using lt_wf_ind. intros n b Hf.
  destruct fuel as [| fuel]; [by replace (length b) with 0%nat by lia |].
  destruct (length b) as [| k] eqn:Ek.
  { apply nil_length_inv in Ek. subst b. done. }
  cbn [get_entries]. case_match; [done |].
  destruct (get_entry b) as [[e r] |] eqn:E; [| done]. simpl.
  apply get_entry_length in E.
  rewrite (IH fuel), (IH k); [done | lia..].
Qed.

(** A malformed message brings a member down: 42 bytes announcing 2^63 log entries make
    [decode_msg] panic on the allocation instead of returning [None]. *)
Theorem malformed_message_panics :
  let b := [b8 0; b8 2] ++ put_u64 1 ++ put_u64 0 ++ put_u64 0 ++ put_u64 0 ++ put_u64 (2 ^ 63) in
  length b = 42%nat /\ decode_msg b = Panic.
Proof. split; vm_compute; reflexivity. Qed.
