(* ===== verification/Fixed.v ===== *)
(** * Fixed-size fields of client messages (crates/protocol/src/fixed.rs, message.rs)

    Little-endian integers and UUIDs at given positions of a buffer; reads and writes outside the
    buffer panic. *)

From S2P Require Import Prelude.

(** [&buf[pos..pos + n]] *)
Definition slice (buf : bytes) (pos n : nat) : outcome bytes :=
  if (pos + n <=? length buf)%nat then Ok (take n (drop pos buf)) else Panic.

(** [buf[pos..pos + x.len()].copy_from_slice(x)] *)
Definition copy_at (buf : bytes) (pos : nat) (x : bytes) : outcome bytes :=
  if (pos + length x <=? length buf)%nat
  then Ok (take pos buf ++ x ++ drop (pos + length x) buf) else Panic.

Definition write_i32_le (buf : bytes) (pos : nat) (v : Z) : outcome bytes := copy_at buf pos (to_le 4 v).
Definition read_i32_le (buf : bytes) (pos : nat) : outcome Z :=
  x ← slice buf pos 4; Ok (from_le_i x).
Definition write_i64_le (buf : bytes) (pos : nat) (v : Z) : outcome bytes := copy_at buf pos (to_le 8 v).
Definition read_i64_le (buf : bytes) (pos : nat) : outcome Z :=
  x ← slice buf pos 8; Ok (from_le_i x).
Definition write_u16_le (buf : bytes) (pos : nat) (v : Z) : outcome bytes := copy_at buf pos (to_le 2 v).
Definition read_u16_le (buf : bytes) (pos : nat) : outcome Z :=
  x ← slice buf pos 2; Ok (from_le_u x).

(** One null-flag byte, then the two halves. *)
Definition UUID_SIZE : nat := 17.

Definition write_uuid (buf : bytes) (pos : nat) (uuid : option (Z * Z)) : outcome bytes :=
  match uuid with
  | None => set_index buf pos (b8 1)
  | Some (msb, lsb) =>
    buf ← set_index buf pos (b8 0);
    buf ← write_i64_le buf (pos + 1) msb;
    write_i64_le buf (pos + 9) lsb
  end.

Definition read_uuid (buf : bytes) (pos : nat) : outcome (option (Z * Z)) :=
  flag ← index buf pos;
  if u8 flag =? 1 then Ok None else
  msb ← read_i64_le buf (pos + 1);
  lsb ← read_i64_le buf (pos + 9);
  Ok (Some (msb, lsb)).

(** ** Reading back what was written *)

Lemma copy_at_Ok buf pos x buf' :
  copy_at buf pos x = Ok buf' <->
  (pos + length x <= length buf)%nat /\ buf' = take pos buf ++ x ++ drop (pos + length x) buf.
Proof.
  unfold copy_at. destruct (Nat.leb_spec (pos + length x) (length buf)); split.
  - by intros [= <-].
  - by intros [_ ->].
  - done.
  - intros [? _]. lia.
Qed.

Lemma copy_at_length buf pos x buf' : copy_at buf pos x = Ok buf' -> length buf' = length buf.
Proof.
  intros [H ->]%copy_at_Ok. rewrite !length_app, length_take, length_drop. lia.
Qed.

Lemma slice_copy_at buf pos x buf' : copy_at buf pos x = Ok buf' -> slice buf' pos (length x) = Ok x.
Proof.
  intros H. pose proof (copy_at_length _ _ _ _ H) as Hl. apply copy_at_Ok in H as [H ->].
  unfold slice. rewrite Hl, (proj2 (Nat.leb_le _ _)) by done.
  rewrite drop_app_length' by (rewrite length_take; lia).
  by rewrite take_app_length.
Qed.

Lemma lookup_copy_at buf pos x buf' i :
  copy_at buf pos x = Ok buf' -> (i < pos \/ pos + length x <= i)%nat -> buf' !! i = buf !! i.
Proof.
  intros [H ->]%copy_at_Ok Hi. destruct Hi as [Hi | Hi].
  - rewrite lookup_app_l by (rewrite length_take; lia). by rewrite lookup_take_lt.
  - rewrite lookup_app_r by (rewrite length_take; lia).
    rewrite lookup_app_r by (rewrite length_take; lia). rewrite lookup_drop, length_take.
    f_equal. lia.
Qed.

(** Bytes that two buffers share read the same. *)
Lemma slice_ext buf buf' pos n :
  length buf' = length buf -> (forall i, (pos <= i < pos + n)%nat -> buf' !! i = buf !! i) ->
  slice buf' pos n = slice buf pos n.
Proof.
  intros Hl He. unfold slice. rewrite Hl. case_match; [| done]. f_equal.
  apply list_eq. intros i. destruct (decide (i < n)%nat).
  - rewrite !lookup_take_lt, !lookup_drop by done. apply He. lia.
  - by rewrite !lookup_take_ge by lia.
Qed.

(** Writing a field leaves a disjoint field alone. *)
Lemma slice_copy_at_disjoint buf pos x buf' q n :
  copy_at buf pos x = Ok buf' -> (q + n <= pos \/ pos + length x <= q)%nat ->
  slice buf' q n = slice buf q n.
Proof.
  intros H Hd. apply slice_ext; [by eapply copy_at_length |].
  intros i Hi. eapply lookup_copy_at; [done | lia].
Qed.

Lemma read_write_i64 buf pos v buf' :
  is_i64 v -> write_i64_le buf pos v = Ok buf' -> read_i64_le buf' pos = Ok v.
Proof.
  intros Hv H%slice_copy_at. rewrite length_to_le in H. unfold read_i64_le. rewrite H. simpl.
  rewrite from_le_i_to_le; [done | lia | exact Hv].
Qed.

(** A write inside the buffer succeeds. *)
Lemma write_i64_post buf pos v :
  (pos + 8 <= length buf)%nat ->
  post (write_i64_le buf pos v) (fun buf' => write_i64_le buf pos v = Ok buf' /\ length buf' = length buf).
Proof.
  intros H. destruct (write_i64_le buf pos v) as [buf' |] eqn:E; simpl.
  - split; [done |]. by eapply copy_at_length.
  - unfold write_i64_le, copy_at in E. rewrite length_to_le in E.
    rewrite (proj2 (Nat.leb_le _ _)) in E by done. done.
Qed.

(** A UUID written into a buffer with room for it, at any position, is read back, null or
    not, and the bytes around its 17 are untouched. *)
Theorem uuid_roundtrip buf pos uuid :
  (pos + UUID_SIZE <= length buf)%nat ->
  (forall m l, uuid = Some (m, l) -> is_i64 m /\ is_i64 l) ->
  post (write_uuid buf pos uuid) (fun buf' =>
    read_uuid buf' pos = Ok uuid /\ length buf' = length buf
    /\ forall i, (i < pos \/ pos + UUID_SIZE <= i)%nat -> buf' !! i = buf !! i).
Proof.
  unfold UUID_SIZE. intros Hl Hok. unfold write_uuid, read_uuid. destruct uuid as [[m l] |].
  - destruct (Hok m l eq_refl) as [Hm Hll].
    eapply post_bind; [apply post_set_index; lia |]. intros b0 ->.
    eapply post_bind; [apply write_i64_post; rewrite length_insert; lia |]. intros b1 [E1 L1].
    rewrite length_insert in L1.
    eapply post_mono; [apply write_i64_post; lia |]. intros b2 [E2 L2].
    assert (forall i, (i < pos + 1 \/ pos + 17 <= i)%nat -> b2 !! i = <[pos := b8 0]> buf !! i) as Hsame.
    { intros i Hi. rewrite (lookup_copy_at _ _ _ _ i E2) by (rewrite length_to_le; lia).
      apply (lookup_copy_at _ _ _ _ i E1). rewrite length_to_le. lia. }
    split_and!.
    + unfold index. rewrite Hsame by lia. rewrite list_lookup_insert_eq by lia. simpl.
      rewrite (read_write_i64 _ _ _ _ Hll E2).
      assert (read_i64_le b2 (pos + 1) = Ok m) as ->; [| done].
      unfold read_i64_le. rewrite (slice_copy_at_disjoint _ _ _ _ _ _ E2) by lia.
      exact (read_write_i64 _ _ _ _ Hm E1).
    + lia.
    + intros i Hi. rewrite Hsame by lia. rewrite list_lookup_insert_ne by lia. done.
  - eapply post_mono; [apply post_set_index; lia |]. intros b ->. split_and!.
    + unfold index. rewrite list_lookup_insert_eq by lia. done.
    + apply length_insert.
    + intros i Hi. rewrite list_lookup_insert_ne by lia. done.
Qed.

Lemma uuid_roundtrip_witness :
  post (write_uuid (replicate 20 (b8 255)) 2 (Some (5, -7)))
    (fun buf' => read_uuid buf' 2 = Ok (Some (5, -7)) /\ length buf' = 20%nat).
Proof.
  eapply post_mono; [apply (uuid_roundtrip (replicate 20 (b8 255)) 2 (Some (5, -7))) |].
  - vm_compute. lia.
  - intros m l [= <- <-]. split; vm_compute; split; congruence.
  - simpl. tauto.
Defined.
