(* ===== verification/Frame.v ===== *)
(** * The frame envelope of client messages (crates/protocol/src/frame.rs, primitives.rs)

    A frame is [[u32 LE length][u16 LE flags][content]]; the last frame of a message has IS_FINAL. *)

From S2P Require Import Prelude Fixed.

Definition PREFIX_LEN : Z := 6.
Definition BEGIN_FRAGMENT : Z := 0x8000.
Definition END_FRAGMENT : Z := 0x4000.
Definition UNFRAGMENTED : Z := 0xC000.
Definition IS_FINAL : Z := 0x2000.
Definition BEGIN_DS : Z := 0x1000.
Definition END_DS : Z := 0x0800.
Definition IS_NULL : Z := 0x0400.
Definition IS_EVENT : Z := 0x0200.

Record Frame := mkFrame { flags : Z; content : bytes }.

(** [flags & bit != 0] *)
Definition has (fl bit : Z) : bool := negb (Z.land fl bit =? 0).

Definition is_null (f : Frame) : bool := has (flags f) IS_NULL.
Definition is_begin (f : Frame) : bool := has (flags f) BEGIN_DS.
Definition is_end (f : Frame) : bool := has (flags f) END_DS.

(** The constructors of primitives.rs. *)
Definition string_frame (s : bytes) : Frame := mkFrame 0 s.
Definition decode_string (f : Frame) : outcome bytes :=
  match from_utf8 (content f) with Some s => Ok s | None => Panic end.
Definition data_frame (blob : bytes) : Frame := mkFrame 0 blob.
Definition null_frame : Frame := mkFrame IS_NULL [].
Definition initial_frame (content : bytes) : Frame := mkFrame UNFRAGMENTED content.

(** ** Writing *)

(** The six-byte prefix and the content; the length is truncated to an [i32]. *)
Definition write_frame (fl : Z) (c : bytes) : bytes :=
  to_le 4 (PREFIX_LEN + blen c) ++ to_le 2 fl ++ c.

Fixpoint write_message (fs : list Frame) : bytes :=
  match fs with
  | [] => []
  | [f] => write_frame (Z.lor (flags f) IS_FINAL) (content f)
  | f :: fs' => write_frame (flags f) (content f) ++ write_message fs'
  end.

(** ** Reading

    Offsets are [usize]; [len] is a signed length cast to [usize], so a negative one becomes a
    large one and [off + len] wraps around. *)

(** The prefix of the frame at [off]: [None] if the loop is to return [None] here. *)
Definition frame_at (b : bytes) (off : Z) : outcome (option (Z * Z)) :=
  if blen b <? wrap_u64 (off + PREFIX_LEN) then Ok None else
  len ← read_i32_le b (Z.to_nat off);
  fl ← read_u16_le b (Z.to_nat (off + 4));
  let len := wrap_u64 len in
  if (len <? PREFIX_LEN) || (blen b <? wrap_u64 (off + len)) then Ok None else Ok (Some (len, fl)).

(** [None]: still looping after [fuel] frames; [Some r]: returned [r] or panicked. *)
Fixpoint message_len_loop (fuel : nat) (b : bytes) (off : Z) : option (outcome (option Z)) :=
  match fuel with
  | O => None
  | S fuel' =>
    match frame_at b off with
    | Panic => Some Panic
    | Ok None => Some (Ok None)
    | Ok (Some (len, fl)) =>
      let off := wrap_u64 (off + len) in
      if has fl IS_FINAL then Some (Ok (Some off)) else message_len_loop fuel' b off
    end
  end.

Definition message_len (b : bytes) : option (outcome (option Z)) := message_len_loop (S (length b)) b 0.

(** [bytes[from..to]] *)
Definition sub_slice (b : bytes) (from to : Z) : outcome bytes :=
  if (from <=? to) && (to <=? blen b)
  then Ok (take (Z.to_nat (to - from)) (drop (Z.to_nat from) b)) else Panic.

Fixpoint read_message_loop (fuel : nat) (b : bytes) (off : Z) (fs : list Frame)
    : option (outcome (option (list Frame * Z))) :=
  match fuel with
  | O => None
  | S fuel' =>
    match frame_at b off with
    | Panic => Some Panic
    | Ok None => Some (Ok None)
    | Ok (Some (len, fl)) =>
      match sub_slice b (off + PREFIX_LEN) (wrap_u64 (off + len)) with
      | Panic => Some Panic
      | Ok c =>
        let fs := fs ++ [mkFrame fl c] in
        let off := wrap_u64 (off + len) in
        if has fl IS_FINAL then Some (Ok (Some (fs, off))) else read_message_loop fuel' b off fs
      end
    end
  end.

Definition read_message (b : bytes) : option (outcome (option (list Frame * Z))) :=
  read_message_loop (S (length b)) b 0 [].

(** ** One frame of a well-formed stream *)

(** A frame whose length fits the prefix, whose flags fit [u16], and which is not marked final by
    its maker ([write_message] does that). *)
Definition frame_ok (f : Frame) : Prop :=
  PREFIX_LEN + blen (content f) < 2 ^ 31 /\ is_u16 (flags f) /\ has (flags f) IS_FINAL = false.

(** Buffers fit the address space. *)
Definition buf_ok (b : bytes) : Prop := blen b < 2 ^ 63.

Lemma length_write_frame fl c : blen (write_frame fl c) = PREFIX_LEN + blen c.
Proof. unfold write_frame, PREFIX_LEN. rewrite !blen_app, !blen_to_le. lia. Qed.

Lemma blen_length {A} (l : list A) : Z.of_nat (length l) = blen l.
Proof. done. Qed.

Lemma slice_app_l a x r pos n :
  pos = length a -> n = length x -> slice (a ++ x ++ r) pos n = Ok x.
Proof.
  intros -> ->. unfold slice. rewrite !length_app, (proj2 (Nat.leb_le _ _)) by lia.
  by rewrite drop_app_length, take_app_length.
Qed.

Lemma read_prefix pre len fl rest :
  is_i32 len -> is_u16 fl ->
  read_i32_le (pre ++ to_le 4 len ++ to_le 2 fl ++ rest) (length pre) = Ok len
  /\ read_u16_le (pre ++ to_le 4 len ++ to_le 2 fl ++ rest) (length pre + 4) = Ok fl.
Proof.
  intros Hl Hf. unfold read_i32_le, read_u16_le. split.
  - rewrite slice_app_l by (rewrite ?length_to_le; done). simpl.
    rewrite from_le_i_to_le; [done | lia | exact Hl].
  - rewrite (app_assoc pre). rewrite slice_app_l.
    + simpl. rewrite from_le_u_to_le; [done | exact Hf].
    + rewrite length_app, length_to_le. done.
    + by rewrite length_to_le.
Qed.

(** The loop body on a complete frame. *)
Lemma frame_at_complete pre fl c rest :
  buf_ok (pre ++ write_frame fl c ++ rest) -> PREFIX_LEN + blen c < 2 ^ 31 -> is_u16 fl ->
  frame_at (pre ++ write_frame fl c ++ rest) (blen pre) = Ok (Some (PREFIX_LEN + blen c, fl))
  /\ wrap_u64 (blen pre + (PREFIX_LEN + blen c)) = blen (pre ++ write_frame fl c)
  /\ sub_slice (pre ++ write_frame fl c ++ rest) (blen pre + PREFIX_LEN)
       (blen (pre ++ write_frame fl c)) = Ok c.
Proof.
  intros Hb Hl Hf. unfold buf_ok in Hb. rewrite !blen_app, length_write_frame in Hb.
  pose proof (blen_nonneg pre). pose proof (blen_nonneg c). pose proof (blen_nonneg rest).
  unfold frame_at. rewrite !blen_app, length_write_frame.
  rewrite (wrap_u64_small (blen pre + PREFIX_LEN)) by (unfold is_u64, PREFIX_LEN in *; lia).
  rewrite (proj2 (Z.ltb_ge _ _)) by lia.
  destruct (read_prefix pre (PREFIX_LEN + blen c) fl (c ++ rest)) as [E1 E2];
    [unfold is_i32, PREFIX_LEN in *; lia | done |].
  assert (write_frame fl c ++ rest = to_le 4 (PREFIX_LEN + blen c) ++ to_le 2 fl ++ c ++ rest) as Ew
    by (unfold write_frame; by rewrite <- !app_assoc).
  rewrite Ew.
  replace (Z.to_nat (blen pre)) with (length pre) by (unfold blen; lia). rewrite E1. simpl.
  replace (Z.to_nat (blen pre + 4)) with (length pre + 4)%nat by (unfold blen; lia). rewrite E2. simpl.
  rewrite (wrap_u64_small (PREFIX_LEN + blen c)) by (unfold is_u64, PREFIX_LEN in *; lia).
  rewrite (wrap_u64_small (blen pre + (PREFIX_LEN + blen c))) by (unfold is_u64, PREFIX_LEN in *; lia).
  rewrite (proj2 (Z.ltb_ge _ _)), (proj2 (Z.ltb_ge _ _)) by lia. simpl. split_and!; [done | done |].
  unfold sub_slice. rewrite <- Ew, !blen_app, length_write_frame, Ew.
  rewrite (proj2 (Z.leb_le _ _)), (proj2 (Z.leb_le _ _)) by lia. simpl. f_equal.
  rewrite (app_assoc (to_le 4 _)), (app_assoc pre).
  rewrite drop_app_length' by (rewrite !length_app, !length_to_le; unfold blen, PREFIX_LEN; lia).
  apply take_app_length'. unfold blen. lia.
Qed.

(** The loop body when the frame at [off] has not arrived in full. *)
Lemma frame_at_incomplete pre p q fl c :
  buf_ok (pre ++ p) -> p ++ q = write_frame fl c -> q <> [] ->
  PREFIX_LEN + blen c < 2 ^ 31 -> is_u16 fl ->
  frame_at (pre ++ p) (blen pre) = Ok None.
Proof.
  intros Hb Hpq Hq Hl Hf. unfold buf_ok in Hb. rewrite blen_app in Hb.
  pose proof (blen_nonneg pre). pose proof (blen_nonneg p). pose proof (blen_nonneg c).
  assert (blen p < PREFIX_LEN + blen c) as Hlt.
  { rewrite <- (length_write_frame fl), <- Hpq, blen_app. destruct q; [done |]. rewrite blen_cons.
    pose proof (blen_nonneg q). lia. }
  unfold frame_at. rewrite blen_app.
  rewrite (wrap_u64_small (blen pre + PREFIX_LEN)) by (unfold is_u64, PREFIX_LEN in *; lia).
  case (Z.ltb_spec (blen pre + blen p) (blen pre + PREFIX_LEN)); [done |]. intros Hge.
  assert (exists c', p = to_le 4 (PREFIX_LEN + blen c) ++ to_le 2 fl ++ c') as [c' ->].
  { exists (drop 6 p).
    transitivity (take 6 p ++ drop 6 p); [by rewrite take_drop |]. rewrite app_assoc. f_equal.
    transitivity (take 6 (p ++ q)).
    { rewrite take_app_le; [done |]. unfold blen, PREFIX_LEN in *. lia. }
    rewrite Hpq. unfold write_frame. rewrite app_assoc, take_app_length'; [done |].
    by rewrite length_app, !length_to_le. }
  destruct (read_prefix pre (PREFIX_LEN + blen c) fl c') as [E1 E2];
    [unfold is_i32, PREFIX_LEN in *; lia | done |].
  replace (Z.to_nat (blen pre)) with (length pre) by (unfold blen; lia). rewrite E1. simpl.
  replace (Z.to_nat (blen pre + 4)) with (length pre + 4)%nat by (unfold blen; lia). rewrite E2. simpl.
  rewrite (wrap_u64_small (PREFIX_LEN + blen c)) by (unfold is_u64, PREFIX_LEN in *; lia).
  rewrite (wrap_u64_small (blen pre + (PREFIX_LEN + blen c))) by (unfold is_u64, PREFIX_LEN in *; lia).
  rewrite (proj2 (Z.ltb_lt (blen pre + _) _)) by lia. by rewrite orb_true_r.
Qed.

Lemma has_lor fl : has (Z.lor fl IS_FINAL) IS_FINAL = true.
Proof.
  unfold has. apply negb_true_iff, Z.eqb_neq. intros H.
  assert (Z.testbit (Z.land (Z.lor fl IS_FINAL) IS_FINAL) 13 = true) as Ht.
  { rewrite Z.land_spec, Z.lor_spec. change (Z.testbit IS_FINAL 13) with true. by rewrite orb_true_r. }
  rewrite H in Ht. done.
Qed.

Lemma lor_final_u16 fl : is_u16 fl -> is_u16 (Z.lor fl IS_FINAL).
Proof.
  unfold is_u16, IS_FINAL. intros [H0 H1]. split; [apply Z.lor_nonneg; lia |].
  destruct (Z.eq_dec (Z.lor fl 0x2000) 0) as [-> | Hne]; [lia |].
  apply Z.log2_lt_pow2.
  - assert (0 <= Z.lor fl 0x2000) by (apply Z.lor_nonneg; lia). lia.
  - rewrite Z.log2_lor by lia. change (Z.log2 0x2000) with 13.
    assert (Z.log2 fl < 16); [| lia]. destruct (Z.eq_dec fl 0) as [-> | ?]; [done |].
    apply Z.log2_lt_pow2; lia.
Qed.

(** The frames as the reader sees them: the last one marked final. *)
Fixpoint finalize (fs : list Frame) : list Frame :=
  match fs with
  | [] => []
  | [f] => [mkFrame (Z.lor (flags f) IS_FINAL) (content f)]
  | f :: fs' => f :: finalize fs'
  end.

(** Reading the frames of [fs] that follow [pre]. *)
Lemma loops_complete fs pre rest acc fuel :
  fs <> [] -> Forall frame_ok fs -> buf_ok (pre ++ write_message fs ++ rest) ->
  (length fs <= fuel)%nat ->
  message_len_loop fuel (pre ++ write_message fs ++ rest) (blen pre)
    = Some (Ok (Some (blen (pre ++ write_message fs))))
  /\ read_message_loop fuel (pre ++ write_message fs ++ rest) (blen pre) acc
    = Some (Ok (Some (acc ++ finalize fs, blen (pre ++ write_message fs)))).
Proof.
  intros Hne Hok. revert pre acc fuel. induction Hok as [| f fs Hf Hok IH]; [done |]. clear Hne.
  intros pre acc [| fuel] Hb Hfu; simpl in Hfu; [lia |].
  destruct Hf as (Hlen & Hfl & Hnf). destruct fs as [| f' fs].
  - cbn [write_message finalize] in *.
    destruct (frame_at_complete pre (Z.lor (flags f) IS_FINAL) (content f) rest Hb Hlen) as (E1 & E2 & E3);
      [by apply lor_final_u16 |].
    cbn [message_len_loop read_message_loop]. rewrite E1, E2, E3, has_lor. done.
  - change (write_message (f :: f' :: fs))
      with (write_frame (flags f) (content f) ++ write_message (f' :: fs)) in *.
    change (finalize (f :: f' :: fs)) with (f :: finalize (f' :: fs)).
    rewrite <- app_assoc in *.
    destruct (frame_at_complete pre (flags f) (content f) (write_message (f' :: fs) ++ rest) Hb Hlen Hfl)
      as (E1 & E2 & E3).
    cbn [message_len_loop read_message_loop]. rewrite E1, E2, E3, Hnf.
    destruct (IH ltac:(done) (pre ++ write_frame (flags f) (content f)) (acc ++ [f]) fuel) as [I1 I2].
    + by rewrite <- app_assoc.
    + simpl in *. lia.
    + rewrite <- !app_assoc in I1, I2. rewrite I1.
      replace (mkFrame (flags f) (content f)) with f by (by destruct f). rewrite I2.
      rewrite <- !app_assoc. done.
Qed.

(** Reading a strict prefix of the frames of [fs]. *)
Lemma loops_incomplete fs pre p q acc fuel :
  Forall frame_ok fs -> p ++ q = write_message fs -> q <> [] -> buf_ok (pre ++ p) ->
  (length p < fuel)%nat ->
  message_len_loop fuel (pre ++ p) (blen pre) = Some (Ok None)
  /\ read_message_loop fuel (pre ++ p) (blen pre) acc = Some (Ok None).
Proof.
  intros Hok. revert pre p acc fuel. induction Hok as [| f fs Hf Hok IH]; intros pre p acc fuel Hpq Hq Hb Hfu.
  { apply app_eq_nil in Hpq as [_ ->]. done. }
  destruct fuel as [| fuel]; [lia |]. destruct Hf as (Hlen & Hfl & Hnf).
  assert (forall fl k, is_u16 fl -> p ++ k = write_frame fl (content f) -> k <> [] ->
    message_len_loop (S fuel) (pre ++ p) (blen pre) = Some (Ok None)
    /\ read_message_loop (S fuel) (pre ++ p) (blen pre) acc = Some (Ok None)) as Hshort.
  { intros fl k Hu Hk Hkn. cbn [message_len_loop read_message_loop].
    rewrite (frame_at_incomplete pre p k fl (content f)); done. }
  destruct fs as [| f' fs].
  { apply (Hshort (Z.lor (flags f) IS_FINAL) q); [by apply lor_final_u16 | done | done]. }
  change (write_message (f :: f' :: fs))
    with (write_frame (flags f) (content f) ++ write_message (f' :: fs)) in Hpq.
  destruct (decide (length (write_frame (flags f) (content f)) <= length p)%nat) as [Hle | Hgt].
  - assert (exists p', p = write_frame (flags f) (content f) ++ p' /\ p' ++ q = write_message (f' :: fs))
      as (p' & -> & Hp').
    { exists (drop (length (write_frame (flags f) (content f))) p).
      assert (take (length (write_frame (flags f) (content f))) p = write_frame (flags f) (content f)) as Et.
      { transitivity (take (length (write_frame (flags f) (content f))) (p ++ q)).
        - by rewrite take_app_le.
        - by rewrite Hpq, take_app_length. }
      split; [by rewrite <- Et at 1; rewrite take_drop |].
      rewrite <- (take_drop (length (write_frame (flags f) (content f))) p) in Hpq.
      rewrite Et, <- app_assoc in Hpq. by apply app_inv_head in Hpq. }
    destruct (frame_at_complete pre (flags f) (content f) p' Hb Hlen Hfl) as (E1 & E2 & E3).
    cbn [message_len_loop read_message_loop]. rewrite E1, E2, E3, Hnf.
    rewrite (app_assoc pre) in Hb |- *. apply IH; [done | done | done |].
    rewrite length_app in Hfu. pose proof (length_write_frame (flags f) (content f)) as Hw.
    pose proof (blen_nonneg (content f)). unfold blen, PREFIX_LEN in *. lia.
  - apply (Hshort (flags f) (drop (length p) (write_frame (flags f) (content f)))); [done | |].
    + transitivity (take (length p) (write_frame (flags f) (content f))
        ++ drop (length p) (write_frame (flags f) (content f))); [| apply take_drop].
      f_equal. transitivity (take (length p) (p ++ q)); [by rewrite take_app_length |].
      rewrite Hpq, take_app_le by lia. done.
    + intros E. apply (f_equal length) in E. rewrite length_drop in E. simpl in E. lia.
Qed.

Lemma length_write_message fs : (length fs <= length (write_message fs))%nat.
Proof.
  induction fs as [| f fs IH]; [simpl; lia |].
  assert (forall fl, (6 <= length (write_frame fl (content f)))%nat) as Hw.
  { intros fl. pose proof (length_write_frame fl (content f)). pose proof (blen_nonneg (content f)).
    unfold blen, PREFIX_LEN in *. lia. }
  destruct fs as [| f' fs]; [simpl; specialize (Hw (Z.lor (flags f) IS_FINAL)); lia |].
  change (write_message (f :: f' :: fs))
    with (write_frame (flags f) (content f) ++ write_message (f' :: fs)).
  rewrite length_app. specialize (Hw (flags f)). simpl length in *. lia.
Qed.

(** A complete message at the start of a buffer. *)
Lemma message_stream_facts fs rest :
  fs <> [] -> Forall frame_ok fs -> buf_ok (write_message fs ++ rest) ->
  message_len (write_message fs ++ rest) = Some (Ok (Some (blen (write_message fs))))
  /\ read_message (write_message fs ++ rest)
       = Some (Ok (Some (finalize fs, blen (write_message fs)))).
Proof.
  intros Hne Hok Hb.
  apply (loops_complete fs [] rest [] (S (length (write_message fs ++ rest))) Hne Hok Hb).
  rewrite length_app. pose proof (length_write_message fs). lia.
Qed.

(** The stream parser is exact: on the bytes of a written message followed by anything, both
    [message_len] and [read_message] find that message, its frames and its length; on any strict
    prefix of it, as a connection delivers it, both ask for more bytes. *)
Theorem message_stream_parses fs rest :
  fs <> [] -> Forall frame_ok fs -> buf_ok (write_message fs ++ rest) ->
  message_len (write_message fs ++ rest) = Some (Ok (Some (blen (write_message fs))))
  /\ read_message (write_message fs ++ rest)
       = Some (Ok (Some (finalize fs, blen (write_message fs))))
  /\ forall p q, p ++ q = write_message fs -> q <> [] ->
       message_len p = Some (Ok None) /\ read_message p = Some (Ok None).
Proof.
  intros Hne Hok Hb.
  destruct (message_stream_facts fs rest Hne Hok Hb) as [H1 H2].
  split_and!; [exact H1 | exact H2 |]. intros p q Hpq Hq.
  apply (loops_incomplete fs [] p q [] (S (length p)) Hok Hpq Hq); [| lia].
  unfold buf_ok in *. rewrite <- Hpq, !blen_app in Hb. pose proof (blen_nonneg q).
  pose proof (blen_nonneg rest). simpl. lia.
Qed.

Lemma message_stream_parses_witness :
  let fs := [initial_frame (bstr "head"); null_frame; string_frame (bstr "map")] in
  message_len (write_message fs ++ bstr "next") = Some (Ok (Some 25))
  /\ read_message (write_message fs ++ bstr "next") = Some (Ok (Some (finalize fs, 25))).
Proof.
  intros fs. destruct (message_stream_parses fs (bstr "next")) as (E1 & E2 & _).
  - done.
  - repeat constructor; vm_compute; congruence.
  - vm_compute. reflexivity.
  - split; [exact E1 | exact E2].
Defined.

(** A negative length hangs the connection's thread: a 16-byte input whose second frame has
    length -10 sends [message_len] back to the first frame, forever ([off + len] wraps around). *)
Theorem negative_length_loops_forever fuel :
  message_len_loop fuel (to_le 4 10 ++ to_le 2 0 ++ bstr "abcd" ++ to_le 4 (-10) ++ to_le 2 0) 0 = None.
Proof.
  set (b := to_le 4 10 ++ _).
  assert (frame_at b 0 = Ok (Some (10, 0))) as E0 by (vm_compute; reflexivity).
  assert (frame_at b 10 = Ok (Some (2 ^ 64 - 10, 0))) as E1 by (vm_compute; reflexivity).
  cut (message_len_loop fuel b 0 = None /\ message_len_loop fuel b 10 = None); [tauto |].
  induction fuel as [| fuel [IH0 IH1]]; [done |]. cbn [message_len_loop]. rewrite E0, E1.
  change (has 0 IS_FINAL) with false. change (wrap_u64 (0 + 10)) with 10.
  change (wrap_u64 (10 + (2 ^ 64 - 10))) with 0. done.
Qed.
