(* ===== verification/Fragment.v ===== *)
(** * Reassembly of fragmented client messages (crates/protocol/src/fragment.rs) and the accessors
    of a message's initial frame (crates/protocol/src/message.rs) *)

From S2P Require Import Prelude Fixed Frame.

(** ** message.rs *)

Definition msg_type (fs : list Frame) : outcome Z := f ← index fs 0; read_i32_le (content f) 0.
Definition correlation_id (fs : list Frame) : outcome Z := f ← index fs 0; read_i64_le (content f) 4.
Definition set_correlation_id (fs : list Frame) (id : Z) : outcome (list Frame) :=
  f ← index fs 0;
  c ← write_i64_le (content f) 4 id;
  set_index fs 0 (mkFrame (flags f) c).
Definition partition_id (fs : list Frame) : outcome Z := f ← index fs 0; read_i32_le (content f) 12.

(** ** fragment.rs *)

(** Fragmentation id (a [u64]) to the frames received so far. *)
Record Reassembler := mk_Reassembler { partial : gmap Z (list Frame) }.

Definition new_reassembler : Reassembler := mk_Reassembler ∅.

(** [f.flags & !IS_FINAL] *)
Definition clear_final (f : Frame) : Frame := mkFrame (Z.land (flags f) (0xFFFF - IS_FINAL)) (content f).

(** [None]: [read_message] does not return.  The outcome is the new state and the assembled
    message, if this fragment completes one. *)
Definition push (r : Reassembler) (fragment : bytes) : option (outcome (Reassembler * option bytes)) :=
  match read_message fragment with
  | None => None
  | Some Panic => Some Panic
  | Some (Ok None) => Some (Ok (r, None))
  | Some (Ok (Some (fs, _))) =>
    match fs with
    | [] => Some (Ok (r, None))
    | f0 :: fs' =>
      Some (
        id ← read_i64_le (content f0) 0;
        let id := wrap_u64 id in
        let entry := default [] (partial r !! id) ++ map clear_final fs' in
        if has (flags f0) END_FRAGMENT
        then Ok (mk_Reassembler (delete id (partial r)), Some (write_message entry))
        else Ok (mk_Reassembler (<[id := entry]> (partial r)), None))
    end
  end.

(** ** Fragments *)

(** The fragmentation frame of fragment [id], and a fragment carrying [chunk]. *)
Definition frag_frame (fl id : Z) : Frame := mkFrame fl (to_le 8 id).
Definition fragment (fl id : Z) (chunk : list Frame) : bytes := write_message (frag_frame fl id :: chunk).

Definition chunk_ok (chunk : list Frame) : Prop :=
  Forall frame_ok chunk /\ blen (write_message chunk) < 2 ^ 62.

Lemma land_mask_bits fl i : 0 <= i -> Z.testbit fl 13 = false -> is_u16 fl ->
  Z.testbit (Z.land fl (0xFFFF - IS_FINAL)) i = Z.testbit fl i.
Proof.
  intros Hi H13 Hu. rewrite Z.land_spec.
  destruct (Z.eq_dec i 13) as [-> | Hne]; [by rewrite H13 |].
  destruct (Z.lt_ge_cases i 16) as [Hlt | Hge].
  - assert (Z.testbit (0xFFFF - IS_FINAL) i = true) as ->; [| by rewrite andb_true_r].
    assert (i = 0 \/ i = 1 \/ i = 2 \/ i = 3 \/ i = 4 \/ i = 5 \/ i = 6 \/ i = 7 \/ i = 8 \/ i = 9
      \/ i = 10 \/ i = 11 \/ i = 12 \/ i = 14 \/ i = 15) as Hc by lia.
    repeat destruct Hc as [-> | Hc]; [reflexivity.. | subst; reflexivity].
  - rewrite (Z.bits_above_log2 fl i); [done | apply Hu |].
    destruct (Z.eq_dec fl 0) as [-> | Hz]; [simpl; lia |].
    assert (Z.log2 fl < 16); [| lia]. apply Z.log2_lt_pow2; unfold is_u16 in Hu; lia.
Qed.

Lemma has_final_bit fl : has fl IS_FINAL = false -> Z.testbit fl 13 = false.
Proof.
  unfold has. intros H%negb_false_iff%Z.eqb_eq.
  assert (Z.testbit (Z.land fl IS_FINAL) 13 = false) as Ht by (by rewrite H).
  rewrite Z.land_spec in Ht. change (Z.testbit IS_FINAL 13) with true in Ht. by rewrite andb_true_r in Ht.
Qed.

(** Clearing IS_FINAL undoes [finalize]. *)
Lemma clear_final_id f : frame_ok f -> clear_final f = f.
Proof.
  intros (_ & Hu & Hf). destruct f as [fl c]. unfold clear_final. simpl in *. f_equal.
  apply Z.bits_inj'. intros i Hi. apply land_mask_bits; [done | by apply has_final_bit | done].
Qed.

Lemma clear_final_lor f :
  frame_ok f -> clear_final (mkFrame (Z.lor (flags f) IS_FINAL) (content f)) = f.
Proof.
  intros Hok. rewrite <- (clear_final_id f Hok) at 3. unfold clear_final. simpl. f_equal.
  rewrite Z.land_lor_distr_l. change (Z.land IS_FINAL (0xFFFF - IS_FINAL)) with 0. apply Z.lor_0_r.
Qed.

Lemma clear_finalize fs : Forall frame_ok fs -> map clear_final (finalize fs) = fs.
Proof.
  induction 1 as [| f fs Hf Hok IH]; [done |]. destruct fs as [| f' fs].
  - simpl. by rewrite clear_final_lor.
  - change (finalize (f :: f' :: fs)) with (f :: finalize (f' :: fs)). simpl map.
    rewrite clear_final_id by done. f_equal. exact IH.
Qed.

Lemma read_frag_id id : is_u64 id -> exists s, read_i64_le (to_le 8 id) 0 = Ok s /\ wrap_u64 s = id.
Proof.
  intros Hid. exists (wrap_i64 id). unfold read_i64_le.
  assert (slice (to_le 8 id) 0 8 = Ok (to_le 8 id)) as ->.
  { unfold slice. rewrite length_to_le. cbn [Nat.add Nat.leb]. rewrite drop_0, take_ge; [done |].
    rewrite length_to_le. lia. }
  cbn [mbind outcome_bind]. rewrite from_le_i_to_le_wrap by lia.
  split; [done |]. rewrite wrap_u64_wrap_i64. by apply wrap_u64_small.
Qed.

(** What a receiver does with one fragment. *)
Lemma push_fragment r fl id chunk :
  is_u16 fl -> has fl IS_FINAL = false -> is_u64 id -> chunk_ok chunk ->
  push r (fragment fl id chunk) =
    Some (Ok (
      let entry := default [] (partial r !! id) ++ chunk in
      if has fl END_FRAGMENT
      then (mk_Reassembler (delete id (partial r)), Some (write_message entry))
      else (mk_Reassembler (<[id := entry]> (partial r)), None))).
Proof.
  intros Hfl Hnf Hid [Hok Hlen]. unfold push, fragment.
  assert (frame_ok (frag_frame fl id)) as Hf0.
  { unfold frame_ok. simpl. rewrite blen_to_le. split; [reflexivity |]. done. }
  destruct (message_stream_facts (frag_frame fl id :: chunk) []) as [_ E]; [done | by constructor | |].
  { unfold buf_ok. rewrite app_nil_r. destruct chunk as [| f chunk].
    - cbn [write_message]. rewrite length_write_frame. simpl. by rewrite blen_to_le.
    - change (write_message (frag_frame fl id :: f :: chunk))
        with (write_frame fl (to_le 8 id) ++ write_message (f :: chunk)).
      rewrite blen_app, length_write_frame, blen_to_le. unfold PREFIX_LEN. lia. }
  rewrite app_nil_r in E. rewrite E. destruct (read_frag_id id Hid) as (s & Es & Ew).
  destruct chunk as [| f chunk].
  - cbn [finalize]. simpl content. rewrite Es. simpl. rewrite Ew.
    assert (has (Z.lor fl IS_FINAL) END_FRAGMENT = has fl END_FRAGMENT) as ->.
    { unfold has. rewrite Z.land_lor_distr_l. change (Z.land IS_FINAL END_FRAGMENT) with 0.
      by rewrite Z.lor_0_r. }
    by case_match.
  - change (finalize (frag_frame fl id :: f :: chunk)) with (frag_frame fl id :: finalize (f :: chunk)).
    cbv beta iota. rewrite clear_finalize by done. simpl content. rewrite Es. simpl. rewrite Ew. by case_match.
Qed.

(** ** Interleaved fragments *)

(** The fragments that are not the last of their message: id, flags and frames. *)
Definition piece : Type := Z * Z * list Frame.

Definition piece_ok (p : piece) : Prop :=
  let '(id, fl, chunk) := p in
  is_u64 id /\ is_u16 fl /\ has fl IS_FINAL = false /\ has fl END_FRAGMENT = false /\ chunk_ok chunk.

(** The frames received for message [id], in order. *)
Definition frames_of (id : Z) (ps : list piece) : list Frame :=
  ps ≫= (fun p => if decide (p.1.1 = id) then p.2 else []).

(** Feeding the pieces one by one, none of which completes a message. *)
Inductive feeds : Reassembler -> list piece -> Reassembler -> Prop :=
| feeds_nil r : feeds r [] r
| feeds_cons r id fl chunk ps r1 r2 :
    push r (fragment fl id chunk) = Some (Ok (r1, None)) -> feeds r1 ps r2 ->
    feeds r ((id, fl, chunk) :: ps) r2.

Lemma feeds_exists ps r :
  Forall piece_ok ps ->
  exists r', feeds r ps r' /\
    forall id, default [] (partial r' !! id) = default [] (partial r !! id) ++ frames_of id ps.
Proof.
  intros Hps. revert r. induction Hps as [| [[id fl] chunk] ps Hp _ IH]; intros r.
  { exists r. split; [constructor |]. intros id. simpl. by rewrite app_nil_r. }
  destruct Hp as (Hid & Hfl & Hnf & Hne & Hok).
  pose proof (push_fragment r fl id chunk Hfl Hnf Hid Hok) as E. rewrite Hne in E. simpl in E.
  destruct (IH (mk_Reassembler (<[id := default [] (partial r !! id) ++ chunk]> (partial r)))) as (r' & Hf & Hd).
  exists r'. split; [econstructor; eassumption |]. intros i. rewrite Hd. simpl partial.
  unfold frames_of. rewrite bind_cons. simpl. case_decide as Hi.
  - subst i. rewrite lookup_insert_eq. simpl. by rewrite app_assoc.
  - rewrite lookup_insert_ne by done. done.
Qed.

(** Reassembly: fragments of any number of messages may arrive interleaved; when the last
    fragment of a message arrives, the receiver has exactly the bytes of the message made of that
    message's frames in order, and forgets it. *)
Theorem reassembly_is_exact ps id fl chunk :
  Forall piece_ok ps -> is_u64 id -> is_u16 fl -> has fl IS_FINAL = false ->
  has fl END_FRAGMENT = true -> chunk_ok chunk ->
  exists r r', feeds new_reassembler ps r
    /\ push r (fragment fl id chunk) =
         Some (Ok (r', Some (write_message (frames_of id ps ++ chunk))))
    /\ partial r' !! id = None.
Proof.
  intros Hps Hid Hfl Hnf He Hok. destruct (feeds_exists ps new_reassembler Hps) as (r & Hf & Hd).
  pose proof (push_fragment r fl id chunk Hfl Hnf Hid Hok) as E. rewrite He in E. simpl in E.
  rewrite Hd in E. simpl in E. exists r. eexists. split_and!; [exact Hf | exact E |].
  simpl. apply lookup_delete_eq.
Qed.

Lemma reassembly_is_exact_witness :
  let f s := string_frame (bstr s) in
  exists r r', feeds new_reassembler [(7, BEGIN_FRAGMENT, [f "a"%string]); (8, BEGIN_FRAGMENT, [f "x"%string]);
      (7, 0, [f "b"%string])] r
    /\ push r (fragment END_FRAGMENT 7 [f "c"%string]) =
         Some (Ok (r', Some (write_message [f "a"%string; f "b"%string; f "c"%string]))).
Proof.
  intros f.
  destruct (reassembly_is_exact [(7, BEGIN_FRAGMENT, [f "a"%string]); (8, BEGIN_FRAGMENT, [f "x"%string]);
      (7, 0, [f "b"%string])] 7 END_FRAGMENT [f "c"%string]) as (r & r' & H1 & H2 & _).
  - repeat constructor; vm_compute; congruence.
  - vm_compute; split; congruence.
  - vm_compute; split; congruence.
  - vm_compute. reflexivity.
  - vm_compute. reflexivity.
  - repeat constructor; vm_compute; congruence.
  - exists r, r'. split; [exact H1 | exact H2].
Defined.

(** A fragment whose first frame is shorter than the fragmentation id brings the thread down:
    [push] panics on it. *)
Theorem short_fragment_panics :
  push new_reassembler (write_message [mkFrame BEGIN_FRAGMENT []]) = Some Panic.
Proof. vm_compute. reflexivity. Qed.
