(* ===== verification/Spsc.v ===== *)
(** * The single-producer single-consumer ring (crates/spsc/src/lib.rs)

    [push] and [pop] run concurrently, one shared-memory access at a time.  A thread's own index is
    read back as it was last written; a load of the other thread's index may be stale: it returns
    any value stored since the last one this thread saw.  The slots themselves are not atomic;
    [no_race] below states the two conditions under which their accesses are ordered by the
    release stores and acquire loads of the indices. *)

From S2P Require Import Prelude.

Section Ring.
Context {A : Type}.

(** [capacity.next_power_of_two()], 0 when it does not fit [usize]. *)
Definition next_power_of_two (c : Z) : Z :=
  if c <=? 1 then 1 else if 2 ^ 63 <? c then 0 else 2 ^ Z.log2_up c.

(** The capacity of [channel(capacity)]. *)
Definition ring_capacity (capacity : Z) : Z := Z.max (next_power_of_two capacity) 2.

(** [buf]: a slot is [None] until first written; [mask] is the capacity minus one. *)
Record Ring := mkRing { buf : list (option A); mask : Z; head : Z; tail : Z }.

Definition channel (capacity : Z) : Ring :=
  let cap := ring_capacity capacity in
  mkRing (replicate (Z.to_nat cap) None) (cap - 1) 0 0.

(** [i & mask] *)
Definition slot (r : Ring) (i : Z) : nat := Z.to_nat (Z.land i (mask r)).

(** The points of [push] between two accesses: tail read; head read; slot written. *)
Inductive push_pc := PIdle | PTail (item : A) (t : Z) | PBoth (item : A) (t h : Z) | PWrote (item : A) (t : Z).

(** The points of [pop]: head read; tail read; slot read. *)
Inductive pop_pc := CIdle | CHead (h : Z) | CBoth (h t : Z) | CRead (h : Z) (v : option A).

(** The ring, the two threads, and the history: [nh] and [nt] count the stores of head and tail,
    [pv] is the last head store the producer has seen, [cv] the last tail store the consumer has
    seen; the items sent and received. *)
Record state := mkState {
  ring : Ring;
  prod : push_pc;
  cons : pop_pc;
  nh : Z;
  nt : Z;
  pv : Z;
  cv : Z;
  sent : list A;
  rcvd : list (option A)
}.

Inductive action :=
| PushStart (item : A)
| PushLoadHead (k : Z)
| PushCheck
| PushStore
| PopStart
| PopLoadTail (k : Z)
| PopCheck
| PopStore.

(** One access; [k] is the store of the other thread's index that a load reads from. *)
Definition step (s : state) (a : action) : option state :=
  let 'mkState r p c nh nt pv cv sent rcvd := s in
  match a, p, c with
  | PushStart item, PIdle, _ => Some (mkState r (PTail item (tail r)) c nh nt pv cv sent rcvd)
  | PushLoadHead k, PTail item t, _ =>
    if (pv <=? k) && (k <=? nh)
    then Some (mkState r (PBoth item t (wrap_u64 k)) c nh nt k cv sent rcvd) else None
  | PushCheck, PBoth item t h, _ =>
    if wrap_u64 (t - h) =? Z.of_nat (length (buf r))
    then Some (mkState r PIdle c nh nt pv cv sent rcvd)
    else
      let r' := mkRing (<[slot r t := Some item]> (buf r)) (mask r) (head r) (tail r) in
      Some (mkState r' (PWrote item t) c nh nt pv cv sent rcvd)
  | PushStore, PWrote item t, _ =>
    let r' := mkRing (buf r) (mask r) (head r) (wrap_u64 (t + 1)) in
    Some (mkState r' PIdle c nh (nt + 1) pv cv (sent ++ [item]) rcvd)
  | PopStart, _, CIdle => Some (mkState r p (CHead (head r)) nh nt pv cv sent rcvd)
  | PopLoadTail k, _, CHead h =>
    if (cv <=? k) && (k <=? nt)
    then Some (mkState r p (CBoth h (wrap_u64 k)) nh nt pv k sent rcvd) else None
  | PopCheck, _, CBoth h t =>
    if h =? t then Some (mkState r p CIdle nh nt pv cv sent rcvd)
    else Some (mkState r p (CRead h (buf r !! slot r h ≫= fun x => x)) nh nt pv cv sent rcvd)
  | PopStore, _, CRead h v =>
    let r' := mkRing (buf r) (mask r) (wrap_u64 (h + 1)) (tail r) in
    Some (mkState r' p CIdle (nh + 1) nt pv cv sent (rcvd ++ [v]))
  | _, _, _ => None
  end.

Definition start (capacity : Z) : state := mkState (channel capacity) PIdle CIdle 0 0 0 0 [] [].

Inductive reachable (capacity : Z) : state -> Prop :=
| reach_start : reachable capacity (start capacity)
| reach_step s a s' : reachable capacity s -> step s a = Some s' -> reachable capacity s'.

(** [Drop]: the items dropped when the ring goes away, from index [h] on; [None] if the loop has
    not ended after [fuel] slots. *)
Fixpoint drop_loop (fuel : nat) (r : Ring) (h : Z) : option (list (option A)) :=
  if h =? tail r then Some [] else
  match fuel with
  | O => None
  | S fuel' =>
    rest ← drop_loop fuel' r (wrap_u64 (h + 1));
    Some ((buf r !! slot r h ≫= fun x => x) :: rest)
  end.

Definition drop_ring (r : Ring) : option (list (option A)) := drop_loop (length (buf r)) r (head r).

(** ** The capacity *)

Lemma ring_capacity_pow2 c :
  0 <= c -> exists k, 1 <= k <= 63 /\ ring_capacity c = 2 ^ k.
Proof.
  intros Hc. unfold ring_capacity, next_power_of_two.
  case (Z.leb_spec c 1); intros H1; [by exists 1 |].
  case (Z.ltb_spec (2 ^ 63) c); intros H2; [by exists 1 |].
  exists (Z.log2_up c).
  assert (1 <= Z.log2_up c) by (change 1 with (Z.log2_up 2); apply Z.log2_up_le_mono; lia).
  assert (Z.log2_up c <= 63) by (change 63 with (Z.log2_up (2 ^ 63)); apply Z.log2_up_le_mono; lia).
  split; [lia |]. apply Z.max_l. change 2 with (2 ^ 1) at 1. apply Z.pow_le_mono_r; lia.
Qed.

(** ** The invariant *)

Record inv (k : Z) (s : state) : Prop := {
  i_buf : Z.of_nat (length (buf (ring s))) = 2 ^ k;
  i_mask : mask (ring s) = 2 ^ k - 1;
  i_head : head (ring s) = wrap_u64 (nh s);
  i_tail : tail (ring s) = wrap_u64 (nt s);
  i_order : 0 <= pv s /\ pv s <= nh s /\ nh s <= cv s /\ cv s <= nt s /\ nt s <= pv s + 2 ^ k;
  i_sent : blen (sent s) = nt s;
  i_rcvd : rcvd s = Some <$> take (Z.to_nat (nh s)) (sent s);
  i_slots : forall i, nh s <= i < nt s -> buf (ring s) !! Z.to_nat (i mod 2 ^ k) = Some (sent s !! Z.to_nat i);
  i_prod : match prod s with
           | PIdle => True
           | PTail _ t => t = wrap_u64 (nt s)
           | PBoth _ t h => t = wrap_u64 (nt s) /\ h = wrap_u64 (pv s)
           | PWrote item t =>
             t = wrap_u64 (nt s) /\ nt s < pv s + 2 ^ k
             /\ buf (ring s) !! Z.to_nat (nt s mod 2 ^ k) = Some (Some item)
           end;
  i_cons : match cons s with
           | CIdle => True
           | CHead h => h = wrap_u64 (nh s)
           | CBoth h t => h = wrap_u64 (nh s) /\ t = wrap_u64 (cv s)
           | CRead h v => h = wrap_u64 (nh s) /\ v = sent s !! Z.to_nat (nh s) /\ nh s < cv s
           end
}.

Lemma slot_mod r k n : 0 <= k <= 63 -> mask r = 2 ^ k - 1 -> slot r (wrap_u64 n) = Z.to_nat (n mod 2 ^ k).
Proof.
  intros Hk Hm. unfold slot, wrap_u64. rewrite Hm. f_equal.
  replace (2 ^ k - 1) with (Z.ones k) by (rewrite Z.ones_equiv; lia).
  rewrite Z.land_ones by lia. apply Z.mod_mod_divide.
  exists (2 ^ (64 - k)). rewrite <- Z.pow_add_r by lia. f_equal. lia.
Qed.

Lemma wrap_sub_u64 a b : wrap_u64 (wrap_u64 a - wrap_u64 b) = wrap_u64 (a - b).
Proof. unfold wrap_u64. by rewrite <- Zminus_mod. Qed.

Lemma wrap_succ_u64 a : wrap_u64 (wrap_u64 a + 1) = wrap_u64 (a + 1).
Proof. unfold wrap_u64. by rewrite Z.add_mod_idemp_l. Qed.

(** Two counters less than 2^64 apart wrap to the same index only if they are equal. *)
Lemma wrap_u64_inj a b : 0 <= b - a < 2 ^ 64 -> wrap_u64 a = wrap_u64 b -> a = b.
Proof.
  intros Hd He. assert (wrap_u64 (b - a) = 0) as H0.
  { rewrite <- wrap_sub_u64, He, Z.sub_diag. done. }
  rewrite wrap_u64_small in H0 by done. lia.
Qed.

(** Positions of live items and the next free one are distinct slots. *)
Lemma mod_inj k a b : 0 <= k -> 0 <= b - a < 2 ^ k -> a mod 2 ^ k = b mod 2 ^ k -> a = b.
Proof.
  intros Hk Hd He. assert ((b - a) mod 2 ^ k = 0) as H0.
  { rewrite Zminus_mod, He, Z.sub_diag. apply Z.mod_0_l. apply Z.pow_nonzero; lia. }
  rewrite Z.mod_small in H0 by done. lia.
Qed.

Lemma pow_k k : 1 <= k <= 63 -> 2 <= 2 ^ k < 2 ^ 64.
Proof.
  intros Hk. split; [change 2 with (2 ^ 1) at 1; apply Z.pow_le_mono_r; lia | apply Z.pow_lt_mono_r; lia].
Qed.

Lemma inv_start capacity k : 0 <= k -> ring_capacity capacity = 2 ^ k -> inv k (start capacity).
Proof.
  intros Hk Hc. assert (0 < 2 ^ k) by (apply Z.pow_pos_nonneg; lia).
  unfold start, channel. rewrite Hc. split; simpl; try done; try lia.
  rewrite length_replicate. lia.
Qed.

(** The producer's steps. *)
Lemma inv_push_check k s s' :
  1 <= k <= 63 -> inv k s -> step s PushCheck = Some s' -> inv k s'.
Proof.
  intros Hk [Hb Hm Hh Ht Ho Hs Hr Hsl Hp Hc] Hst. pose proof (pow_k k Hk) as Hpk.
  destruct s as [r p c nh nt pv cv snt rcv]. simpl in *. destruct p as [| | item t h |]; try done.
  destruct Hp as [-> ->]. rewrite wrap_sub_u64, Hb in Hst.
  rewrite wrap_u64_small in Hst by (unfold is_u64; lia).
  case (Z.eqb_spec (nt - pv) (2 ^ k)) as [Hfull | Hroom]; injection Hst as <-.
  - by split.
  - assert (Z.to_nat (nt mod 2 ^ k) < length (buf r))%nat as Hlt.
    { pose proof (Z.mod_pos_bound nt (2 ^ k)). lia. }
    split; simpl; try done.
    + by rewrite length_insert.
    + intros i Hi. rewrite (slot_mod r k) by (done || lia). rewrite list_lookup_insert_ne; [by apply Hsl |].
      intros E. pose proof (Z.mod_pos_bound nt (2 ^ k)). pose proof (Z.mod_pos_bound i (2 ^ k)).
      assert (i = nt); [| lia]. apply (mod_inj k); lia.
    + split_and!; [done | lia |]. rewrite (slot_mod r k) by (done || lia). by apply list_lookup_insert_eq.
Qed.

Lemma inv_push_store k s s' :
  1 <= k <= 63 -> inv k s -> step s PushStore = Some s' -> inv k s'.
Proof.
  intros Hk [Hb Hm Hh Ht Ho Hs Hr Hsl Hp Hc] Hst. pose proof (pow_k k Hk) as Hpk.
  destruct s as [r p c nh nt pv cv snt rcv]. simpl in *. destruct p as [| | | item t]; try done.
  destruct Hp as (-> & Hroom & Hw). injection Hst as <-.
  assert (forall i, i < nt -> 0 <= i -> (snt ++ [item]) !! Z.to_nat i = snt !! Z.to_nat i) as Hold.
  { intros i Hi H0. apply lookup_app_l. unfold blen in Hs. lia. }
  split; simpl; try done; try lia.
  - by rewrite wrap_succ_u64.
  - rewrite blen_app, Hs. done.
  - rewrite take_app_le; [done |]. unfold blen in Hs. lia.
  - intros i Hi. destruct (decide (i = nt)) as [-> | Hne].
    + rewrite Hw. f_equal. symmetry. apply list_lookup_middle. unfold blen in Hs. lia.
    + rewrite Hold by lia. apply Hsl. lia.
  - destruct c; try done. destruct Hc as (Hc1 & Hc2 & Hc3). split_and!; [done | | done].
    rewrite Hold by lia. done.
Qed.

Lemma inv_pop_check k s s' :
  1 <= k <= 63 -> inv k s -> step s PopCheck = Some s' -> inv k s'.
Proof.
  intros Hk [Hb Hm Hh Ht Ho Hs Hr Hsl Hp Hc] Hst. pose proof (pow_k k Hk) as Hpk.
  destruct s as [r p c nh nt pv cv snt rcv]. simpl in *. destruct c as [| | h t |]; try done.
  destruct Hc as [-> ->].
  case (Z.eqb_spec (wrap_u64 nh) (wrap_u64 cv)) as [He | Hne]; injection Hst as <-.
  - by split.
  - assert (nh <> cv) by congruence. split; simpl; try done. split_and!; [done | | lia].
    rewrite (slot_mod r k) by (done || lia). rewrite Hsl by lia. done.
Qed.

Lemma inv_pop_store k s s' :
  1 <= k <= 63 -> inv k s -> step s PopStore = Some s' -> inv k s'.
Proof.
  intros Hk [Hb Hm Hh Ht Ho Hs Hr Hsl Hp Hc] Hst. pose proof (pow_k k Hk) as Hpk.
  destruct s as [r p c nh nt pv cv snt rcv]. simpl in *. destruct c as [| | | h v]; try done.
  destruct Hc as (-> & -> & Hlt). injection Hst as <-.
  split; simpl; try done; try lia.
  - by rewrite wrap_succ_u64.
  - destruct (lookup_lt_is_Some_2 snt (Z.to_nat nh)) as [x Hx]; [unfold blen in Hs; lia |].
    replace (Z.to_nat (nh + 1)) with (S (Z.to_nat nh)) by lia.
    rewrite (take_S_r _ _ _ Hx), fmap_app, Hr, Hx. done.
  - intros i Hi. apply Hsl. lia.
Qed.

Lemma step_inv k s a s' : 1 <= k <= 63 -> inv k s -> step s a = Some s' -> inv k s'.
Proof.
  intros Hk Hi Hst. destruct a; eauto using inv_push_check, inv_push_store, inv_pop_check, inv_pop_store.
  all: destruct Hi as [Hb Hm Hh Ht Ho Hs Hr Hsl Hp Hc], s as [r p c nh nt pv cv snt rcv]; simpl in *.
  - destruct p; try done. injection Hst as <-. by split.
  - destruct p; try done. case_match eqn:E; [| done]. injection Hst as <-.
    apply andb_true_iff in E as [E1%Z.leb_le E2%Z.leb_le]. split; simpl; try done; lia.
  - destruct c; try done. injection Hst as <-. by split.
  - destruct c; try done. case_match eqn:E; [| done]. injection Hst as <-.
    apply andb_true_iff in E as [E1%Z.leb_le E2%Z.leb_le]. split; simpl; try done; lia.
Qed.

Lemma ring_reachable_inv capacity s : 0 <= capacity -> reachable capacity s -> exists k, 1 <= k <= 63
  /\ ring_capacity capacity = 2 ^ k /\ inv k s.
Proof.
  intros Hc Hr. destruct (ring_capacity_pow2 capacity Hc) as (k & Hk & Hcap). exists k.
  split_and!; [lia.. | done |].
  induction Hr as [| s a s' _ IH Hst]; [apply inv_start; [lia | done] |]. by eapply step_inv.
Qed.

(** C35. The ring is a FIFO queue: under every interleaving of [push] and [pop], with stale loads of
    the other side's index and with indices that wrap around, the items received are a prefix of
    the items sent (none lost, duplicated, reordered or read uninitialised), and at most the
    capacity of them are in flight. *)
Theorem ring_is_fifo capacity s :
  0 <= capacity -> reachable capacity s ->
  exists rest, Some <$> sent s = rcvd s ++ (Some <$> rest) /\ blen rest <= ring_capacity capacity.
Proof.
  intros Hc Hr. destruct (ring_reachable_inv capacity s Hc Hr) as (k & Hk & Hcap & Hi).
  exists (drop (Z.to_nat (nh s)) (sent s)). split.
  - rewrite (i_rcvd _ _ Hi), <- fmap_app, take_drop. done.
  - rewrite Hcap. pose proof (i_order _ _ Hi). pose proof (i_sent _ _ Hi) as Hs.
    unfold blen in *. rewrite length_drop. lia.
Qed.

(** The slot accesses that are about to happen.  A write of slot [i] is ordered after the read of
    that slot one lap before if the producer has seen the head store that followed that read; a
    read of item [i] is ordered after its write if the consumer has seen the tail store that
    followed the write. *)
Definition no_race (cap : Z) (s : state) : Prop :=
  match prod s with
  | PBoth _ t h => wrap_u64 (t - h) <> cap -> nt s - cap < pv s
  | PWrote _ _ => nt s - cap < pv s
  | _ => True
  end
  /\ match cons s with
     | CBoth h t => h <> t -> nh s < cv s
     | CRead _ _ => nh s < cv s
     | _ => True
     end.

(** Slot accesses never race, and a push is refused only when the producer has seen no room:
    [capacity] items separate the tail from the last head it saw. *)
Theorem ring_is_race_free capacity s :
  0 <= capacity -> reachable capacity s ->
  no_race (ring_capacity capacity) s
  /\ (forall item t h s', prod s = PBoth item t h -> step s PushCheck = Some s' -> prod s' = PIdle ->
       nt s - pv s = ring_capacity capacity).
Proof.
  intros Hc Hr. destruct (ring_reachable_inv capacity s Hc Hr) as (k & Hk & Hcap & [Hb Hm Hh Ht Ho Hs _ _ Hp Hcn]).
  pose proof (pow_k k Hk) as Hpk. rewrite Hcap. split; [split |].
  - destruct (prod s); try done; [| destruct Hp as (_ & ? & _); lia].
    destruct Hp as [-> ->]. rewrite wrap_sub_u64, wrap_u64_small by (unfold is_u64; lia). lia.
  - destruct (cons s); try done; [| by destruct Hcn as (_ & _ & ?)].
    destruct Hcn as [-> ->]. intros Hne. assert (nh s <> cv s) by congruence. lia.
  - intros item t h s' Ep Hst Hidle. destruct s as [r p c nh nt pv cv snt rcv]. simpl in *. subst p.
    destruct Hp as [-> ->]. rewrite wrap_sub_u64, Hb, wrap_u64_small in Hst by (unfold is_u64; lia).
    case (Z.eqb_spec (nt - pv) (2 ^ k)) as [Hfull | Hroom]; injection Hst as <-; done.
Qed.

Lemma drop_loop_spec k s n i :
  1 <= k <= 63 -> inv k s -> nh s <= i -> i + Z.of_nat n = nt s ->
  forall fuel, (n <= fuel)%nat ->
  drop_loop fuel (ring s) (wrap_u64 i) = Some (Some <$> drop (Z.to_nat i) (sent s)).
Proof.
  intros Hk Hi. pose proof (pow_k k Hk) as Hpk. destruct Hi as [Hb Hm Hh Ht Ho Hs Hr Hsl Hp Hc].
  revert i. induction n as [| n IH]; intros i Hle Hn fuel Hf.
  - assert (i = nt s) as -> by lia. rewrite drop_ge by (unfold blen in Hs; lia).
    destruct fuel; simpl; rewrite Ht, Z.eqb_refl; done.
  - destruct fuel as [| fuel]; [lia |]. cbn [drop_loop]. rewrite Ht.
    rewrite (proj2 (Z.eqb_neq _ _)).
    2: { intros E. apply wrap_u64_inj in E; lia. }
    rewrite wrap_succ_u64, IH by lia. simpl. rewrite (slot_mod (ring s) k) by (done || lia).
    rewrite Hsl by lia. simpl.
    destruct (lookup_lt_is_Some_2 (sent s) (Z.to_nat i)) as [x Hx]; [unfold blen in Hs; lia |].
    rewrite (drop_S _ _ _ Hx), Hx. replace (Z.to_nat (i + 1)) with (S (Z.to_nat i)) by lia. done.
Qed.

(** Dropping the ring ends and drops every item still in it, once: the items received and the
    items dropped are together the items sent. *)
Theorem ring_drops_the_rest capacity s :
  0 <= capacity -> reachable capacity s ->
  exists dropped, drop_ring (ring s) = Some dropped /\ rcvd s ++ dropped = Some <$> sent s.
Proof.
  intros Hc Hr. destruct (ring_reachable_inv capacity s Hc Hr) as (k & Hk & Hcap & Hi).
  exists (Some <$> drop (Z.to_nat (nh s)) (sent s)). split.
  - unfold drop_ring. rewrite (i_head _ _ Hi).
    pose proof (i_order _ _ Hi). pose proof (i_buf _ _ Hi).
    apply (drop_loop_spec k s (Z.to_nat (nt s - nh s))); try done; lia.
  - by rewrite (i_rcvd _ _ Hi), <- fmap_app, take_drop.
Qed.

End Ring.

(** A producer that sends two items and a consumer that receives the first, with the accesses of
    the two interleaved. *)
Definition ex_actions : list (action (A := Z)) :=
  [PopStart; PushStart 5; PushLoadHead 0; PushCheck; PopLoadTail 0; PushStore; PopCheck;
   PushStart 6; PopStart; PopLoadTail 1; PushLoadHead 0; PopCheck; PushCheck; PopStore; PushStore].

Definition run_ring (s : state (A := Z)) (l : list (action (A := Z))) : state (A := Z) :=
  foldl (fun s a => default s (step s a)) s l.

Lemma run_ring_reachable capacity l s :
  reachable (A := Z) capacity s -> reachable capacity (run_ring s l).
Proof.
  revert s. induction l as [| a l IH]; intros s Hs; simpl; [done |]. apply IH.
  destruct (step s a) eqn:E; [by eapply reach_step | done].
Qed.

Lemma ring_is_fifo_witness :
  let s := run_ring (start 2) ex_actions in
  sent s = [5; 6] /\ rcvd s = [Some 5]
  /\ exists rest, Some <$> sent s = rcvd s ++ (Some <$> rest) /\ blen rest <= ring_capacity 2.
Proof.
  intros s. split_and!; [vm_compute; reflexivity.. |].
  apply ring_is_fifo; [lia | apply run_ring_reachable, reach_start].
Defined.

Lemma ring_is_race_free_witness :
  let s := run_ring (start 2) (take 12 ex_actions) in
  cons s = CRead 0 (Some 5) /\ no_race (ring_capacity 2) s.
Proof.
  intros s. split; [vm_compute; reflexivity |].
  apply ring_is_race_free; [lia | apply run_ring_reachable, reach_start].
Defined.

Lemma ring_drops_the_rest_witness :
  let s := run_ring (start 2) ex_actions in
  drop_ring (ring s) = Some [Some 6]
  /\ exists dropped, drop_ring (ring s) = Some dropped /\ rcvd s ++ dropped = Some <$> sent s.
Proof.
  intros s. split; [vm_compute; reflexivity |].
  apply (ring_drops_the_rest 2); [lia | apply run_ring_reachable, reach_start].
Defined.

(** ** A producer handle used by several threads

    [Producer] is [Sync] and [push] takes it by shared reference.  The store keeps one handle for its
    write-ahead log and every reactor thread pushes through it.  Here two threads do: the second one's
    point of execution is kept beside the state, and takes the producer's place for its steps. *)
Definition swap_prod (s : state (A := Z) * push_pc (A := Z)) : state * push_pc :=
  let '(mkState r p c nh nt pv cv sent rcvd, p2) := s in (mkState r p2 c nh nt pv cv sent rcvd, p).

Definition step2 (s : state (A := Z) * push_pc (A := Z)) (second : bool) (a : action (A := Z)) : option (state * push_pc) :=
  let go s := (fun s1 => (s1, s.2)) <$> step s.1 a in
  if second then swap_prod <$> go (swap_prod s) else go s.

Fixpoint run2 (s : state (A := Z) * push_pc (A := Z)) (l : list (bool * action (A := Z))) : option (state * push_pc) :=
  match l with [] => Some s | (who, a) :: l => s ← step2 s who a; run2 s l end.

Definition two_pushes : list (bool * action (A := Z)) :=
  [(false, PushStart 5); (true, PushStart 6); (false, PushLoadHead 0); (true, PushLoadHead 0);
   (false, PushCheck); (true, PushCheck); (false, PushStore); (true, PushStore)].

(** Two threads that push through the same handle both succeed, and one of the items is gone: only the
    other is ever in the ring. *)
Theorem shared_producer_loses_items :
  exists s, run2 (start 4, PIdle) two_pushes = Some (s, PIdle)
    /\ sent s = [5; 6] /\ tail (ring s) = 1 /\ drop_ring (ring s) = Some [Some 6].
Proof. eexists. split; [vm_compute; reflexivity |]. vm_compute. auto. Qed.
