(* ===== verification/Framed.v ===== *)
(** * Logs of framed records

    What the write-ahead log of crates/persistence and the outbound queue of crates/wan share: a
    file is a sequence of self-delimiting records, read from the start until the first position
    that does not decode. *)

From S2P Require Import Prelude.

(** The result of decoding at a position: a record and its frame's length, an incomplete frame, or
    a corrupt one. *)
Inductive Decoded (A : Type) :=
| Record (a : A) (consumed : Z)
| NeedMore
| Torn.
Arguments Record {A} a consumed.
Arguments NeedMore {A}.
Arguments Torn {A}.

(** What a record format promises to a log: whole frames decode, cut-off frames do not, and a
    decoded frame lies within the input. *)
Class Framed (A : Type) := {
  f_enc : A -> bytes;
  f_dec : bytes -> Decoded A;
  f_ok : A -> Prop;
  f_complete : forall a r, f_ok a -> f_dec (f_enc a ++ r) = Record a (blen (f_enc a));
  f_partial : forall a p q b n, f_ok a -> p ++ q = f_enc a -> q <> [] -> f_dec p <> Record b n;
  f_progress : forall b a n, f_dec b = Record a n -> 0 < n <= blen b
}.

Section Log.
Context {A : Type} {F : Framed A}.

(** [while off < buf.len() { match decode(&buf[off..]) { Record => ..., _ => break } }], on the
    unread suffix. *)
Fixpoint read_frames (fuel : nat) (b : bytes) : list A :=
  match fuel with
  | O => []
  | S fuel' =>
    match b with
    | [] => []
    | _ =>
      match f_dec b with
      | Record a n => a :: read_frames fuel' (drop (Z.to_nat n) b)
      | NeedMore | Torn => []
      end
    end
  end.

Definition read_all (b : bytes) : list A := read_frames (length b) b.

(** Every iteration consumes at least a byte, so the input's length is fuel enough. *)
Lemma read_frames_fuel fuel b : (length b <= fuel)%nat -> read_frames fuel b = read_all b.
Proof.
  unfold read_all. revert b. induction fuel as [fuel IH] using lt_wf_ind. intros b Hf.
  destruct b as [| x b]; [by destruct fuel |]. destruct fuel as [| fuel]; [simpl in Hf; lia |].
  cbn [read_frames length]. destruct (f_dec (x :: b)) as [a n | |] eqn:E; [| done..].
  apply f_progress in E as [Hn _].
  assert (length (drop (Z.to_nat n) (x :: b)) <= length b)%nat as Hl
    by (rewrite length_drop; simpl; lia).
  simpl in Hf. rewrite (IH fuel), (IH (length b)); [done | lia..].
Qed.

Definition frames (l : list A) : bytes := concat (map f_enc l).

Lemma frames_app l k : frames (l ++ k) = frames l ++ frames k.
Proof. unfold frames. by rewrite map_app, concat_app. Qed.

Lemma frames_cons a l : frames (a :: l) = f_enc a ++ frames l.
Proof. done. Qed.

Lemma f_enc_nonempty a : f_ok a -> (0 < length (f_enc a))%nat.
Proof.
  intros H. pose proof (f_complete a [] H) as E. apply f_progress in E as [E _]. unfold blen in E. lia.
Qed.

Lemma read_all_cons a b : f_ok a -> read_all (f_enc a ++ b) = a :: read_all b.
Proof.
  intros Ha. pose proof (f_enc_nonempty a Ha) as Hne. unfold read_all at 1.
  destruct (f_enc a ++ b) as [| x k] eqn:E.
  { apply app_eq_nil in E as [E _]. rewrite E in Hne. simpl in Hne. lia. }
  rewrite <- E. rewrite length_app.
  destruct (length (f_enc a) + length b)%nat as [| fuel] eqn:Ef; [lia |].
  cbn [read_frames]. rewrite E, <- E, f_complete by done. f_equal.
  replace (Z.to_nat (blen (f_enc a))) with (length (f_enc a)) by (unfold blen; lia).
  rewrite drop_app_length. apply read_frames_fuel. lia.
Qed.

(** A tail on which decoding does not yield a record ends the log. *)
Definition dead (t : bytes) : Prop := forall a n, f_dec t <> Record a n.

Lemma read_all_dead t : dead t -> read_all t = [].
Proof.
  intros Ht. destruct t as [| x t]; [done |]. unfold read_all. cbn [read_frames length].
  destruct (f_dec (x :: t)) as [a n | |] eqn:E; [by apply Ht in E | done..].
Qed.

Lemma read_all_frames l t : Forall f_ok l -> dead t -> read_all (frames l ++ t) = l.
Proof.
  intros Hl Ht. induction Hl as [| a l Ha _ IH]; [by apply read_all_dead |].
  rewrite frames_cons, <- app_assoc, read_all_cons by done. by rewrite IH.
Qed.

Lemma dead_nil : dead [].
Proof. intros a n E. apply f_progress in E. unfold blen in E. simpl in E. lia. Qed.

Lemma dead_partial a p q : f_ok a -> p ++ q = f_enc a -> q <> [] -> dead p.
Proof. intros Ha Hp Hq b n. by eapply f_partial. Qed.

(** Reading back a log that was written in full, or whose last record was torn. *)
Lemma read_all_written l : Forall f_ok l -> read_all (frames l) = l.
Proof. intros H. rewrite <- (app_nil_r (frames l)). apply read_all_frames; [done | apply dead_nil]. Qed.

(** A file cut at any byte reads back as exactly the records that lie before the cut in full. *)
Lemma read_all_prefix l n :
  Forall f_ok l ->
  exists k, read_all (take n (frames l)) = take k l
    /\ (length (frames (take k l)) <= n \/ k = 0)%nat
    /\ (k < length l -> n < length (frames (take (S k) l)))%nat.
Proof.
  intros Hl. revert n. induction Hl as [| a l Ha Hl IH]; intros n.
  { exists 0%nat. change (frames []) with (@nil byte). rewrite take_nil. split_and!; [done | by right | simpl; lia]. }
  rewrite frames_cons. destruct (decide (n < length (f_enc a))%nat) as [Hn | Hn].
  - exists 0%nat. split_and!; [| by right | intros _; cbn [take]; rewrite frames_cons, length_app; lia].
    rewrite take_app_le by lia. apply read_all_dead, (dead_partial a _ (drop n (f_enc a)));
      [done | apply take_drop |]. intros E%(f_equal length). rewrite length_drop in E. simpl in E. lia.
  - destruct (IH (n - length (f_enc a))%nat) as (k & Hr & Hlo & Hhi). exists (S k).
    rewrite take_app_ge, read_all_cons, Hr by (done || lia). split_and!; [done | |].
    + left. cbn [take]. rewrite frames_cons, length_app.
      destruct Hlo as [Hlo | ->]; [lia |]. cbn [take]. unfold frames. simpl. lia.
    + intros Hk. simpl in Hk. cbn [take]. rewrite frames_cons, length_app. cbn [take] in Hhi.
      specialize (Hhi ltac:(lia)). lia.
Qed.

(** Bytes that follow a dead tail are never read. *)
Definition dead_forever (t : bytes) : Prop := forall more, dead (t ++ more).

Lemma read_all_after_dead l t more :
  Forall f_ok l -> dead_forever t -> read_all (frames l ++ t ++ more) = l.
Proof. intros Hl Ht. by apply read_all_frames. Qed.

End Log.
