(* ===== verification/WanRecord.v ===== *)
(** * WAN records and messages (crates/wan/src/record.rs, wire.rs) *)

From S2P Require Import Prelude Framed.

Inductive WanOp := WPut | WRemove | WAux (kind : byte).

Record WanRecord := mk_WanRecord {
  op : WanOp;
  stamp : Z;
  ttl_ms : Z;
  map_name : bytes;
  key : bytes;
  value : bytes
}.

Definition put_blob (x : bytes) : bytes := put_lp 4 x.
Definition get_blob (b : bytes) : option (bytes * bytes) := get_lp 4 b.

(** The part of a frame that the checksum covers. *)
Definition body_of (r : WanRecord) : bytes :=
  match op r with WPut => [b8 1] | WRemove => [b8 2] | WAux kind => [b8 3; kind] end
  ++ to_le 8 (stamp r) ++ to_le 8 (ttl_ms r)
  ++ put_blob (map_name r) ++ put_blob (key r) ++ put_blob (value r).

(** The fields of a body whose checksum matched; [None] is a torn record. *)
Definition parse_body (body : bytes) : option WanRecord :=
  '(o, r) ← match body with
            | t :: r =>
              match u8 t with
              | 1 => Some (WPut, r)
              | 2 => Some (WRemove, r)
              | 3 => match r with kind :: r => Some (WAux kind, r) | [] => None end
              | _ => None
              end
            | [] => None
            end;
  '(st, r) ← get_u 8 r;
  '(ttl, r) ← get_u 8 r;
  '(m, r) ← get_blob r;
  '(k, r) ← get_blob r;
  '(v, _) ← get_blob r;
  m ← from_utf8 m;
  Some (mk_WanRecord o st ttl m k v).

Section Wan.
Context {C : Crc32}.

(** [[len:u32][crc32:u32][body]], where [len] counts the checksum and the body. *)
Definition encode (r : WanRecord) : bytes :=
  let body := body_of r in
  to_le 4 (blen body + 4) ++ to_le 4 (crc32 body) ++ body.

Definition decode (b : bytes) : Decoded WanRecord :=
  match ('(len, r) ← get_u 4 b; '(crc, r) ← get_u 4 r; Some (len, crc, r)) with
  | None => NeedMore
  | Some (len, crc, r) =>
    if len <? 4 + 17 then Torn
    else if blen b <? 4 + len then NeedMore
    else
      let body := take (Z.to_nat (len - 4)) r in
      if negb (crc32 body =? crc) then Torn
      else match parse_body body with
           | Some rec => Record rec (4 + len)
           | None => Torn
           end
  end.

(** Records that fit the format's [u64] and [u32] fields. *)
Definition rec_ok (r : WanRecord) : Prop :=
  is_u64 (stamp r) /\ is_u64 (ttl_ms r) /\ utf8_valid (map_name r) = true
  /\ is_u32 (blen (map_name r)) /\ is_u32 (blen (key r)) /\ is_u32 (blen (value r))
  /\ blen (body_of r) + 4 < 2 ^ 32.

Lemma parse_body_of r : rec_ok r -> parse_body (body_of r) = Some r.
Proof.
  intros (? & ? & ? & ? & ? & ? & ?). unfold parse_body, body_of, get_blob, put_blob.
  assert (forall x, is_u32 (blen x) -> get_lp 4 (put_lp 4 x) = Some (x, [])) as Hlast.
  { intros x Hx. rewrite <- (app_nil_r (put_lp 4 x)). by apply get_lp32_put_lp. }
  destruct r as [o st ttl m k v]; simpl in *; destruct o as [| | kind]; cbn [app];
    rewrite u8_b8 by lia; run_codec; rewrite Hlast by done; run_codec.
Qed.

Lemma body_of_length r : 17 <= blen (body_of r).
Proof.
  unfold body_of. rewrite !blen_app, !blen_to_le.
  pose proof (blen_nonneg (put_blob (map_name r))). pose proof (blen_nonneg (put_blob (key r))).
  pose proof (blen_nonneg (put_blob (value r))). destruct (op r); unfold blen; simpl; lia.
Qed.

Lemma blen_encode r : blen (encode r) = 8 + blen (body_of r).
Proof. unfold encode. rewrite !blen_app, !blen_to_le. lia. Qed.

(** Decoding sees the header as soon as there are eight bytes. *)
Lemma decode_header r p :
  rec_ok r ->
  decode (to_le 4 (blen (body_of r) + 4) ++ to_le 4 (crc32 (body_of r)) ++ p) =
    if blen p <? blen (body_of r) then NeedMore
    else if negb (crc32 (take (length (body_of r)) p) =? crc32 (body_of r)) then Torn
    else match parse_body (take (length (body_of r)) p) with
         | Some rec => Record rec (blen (encode r))
         | None => Torn
         end.
Proof.
  intros Hok. destruct Hok as (_ & _ & _ & _ & _ & _ & Hlen). pose proof (body_of_length r).
  unfold decode. rewrite get_u32_to_le by (unfold is_u32; lia). cbn [mbind option_bind].
  rewrite get_u32_to_le by apply crc32_u32. cbn [mbind option_bind].
  rewrite (proj2 (Z.ltb_ge _ _)) by lia. rewrite !blen_app, !blen_to_le, blen_encode.
  replace (Z.of_nat 4 + (Z.of_nat 4 + blen p) <? 4 + (blen (body_of r) + 4))
    with (blen p <? blen (body_of r)).
  2: { case (Z.ltb_spec (blen p) (blen (body_of r))); case (Z.ltb_spec (Z.of_nat 4 + (Z.of_nat 4 + blen p)) (4 + (blen (body_of r) + 4))); intros; try done; lia. }
  replace (Z.to_nat (blen (body_of r) + 4 - 4)) with (length (body_of r)) by (unfold blen; lia).
  replace (4 + (blen (body_of r) + 4)) with (8 + blen (body_of r)) by lia. done.
Qed.

Lemma wan_complete r rest : rec_ok r -> decode (encode r ++ rest) = Record r (blen (encode r)).
Proof.
  intros Hok. unfold encode at 1. rewrite <- !app_assoc, decode_header by done.
  rewrite blen_app, (proj2 (Z.ltb_ge _ _)) by (pose proof (blen_nonneg rest); lia).
  rewrite take_app_length, Z.eqb_refl. simpl. by rewrite parse_body_of.
Qed.

Lemma wan_partial r p q r' n :
  rec_ok r -> p ++ q = encode r -> q <> [] -> decode p <> Record r' n.
Proof.
  intros Hok Hpq Hq. destruct (Z.lt_ge_cases (blen p) 8) as [Hlt | Hge].
  - unfold decode. destruct (get_u 4 p) as [[len k] |] eqn:E; simpl; [| done].
    apply get_u_blen in E. rewrite get_u_short by lia. done.
  - assert (exists p', p = to_le 4 (blen (body_of r) + 4) ++ to_le 4 (crc32 (body_of r)) ++ p') as [p' ->].
    { exists (drop 8 p). transitivity (take 8 p ++ drop 8 p); [by rewrite take_drop |].
      rewrite app_assoc. f_equal. transitivity (take 8 (p ++ q)).
      - rewrite take_app_le; [done | unfold blen in Hge; lia].
      - rewrite Hpq. unfold encode. rewrite app_assoc, take_app_length'; [done |].
        by rewrite length_app, !length_to_le. }
    rewrite decode_header by done. apply (f_equal blen) in Hpq.
    rewrite !blen_app, !blen_to_le, blen_encode in Hpq.
    assert (0 < blen q) by (destruct q; [done | rewrite blen_cons; pose proof (blen_nonneg q); lia]).
    rewrite (proj2 (Z.ltb_lt _ _)) by lia. done.
Qed.

Lemma wan_progress b r n : decode b = Record r n -> 0 < n <= blen b.
Proof.
  unfold decode. destruct ('(len, r) ← get_u 4 b; '(crc, r) ← get_u 4 r; Some (len, crc, r)) as [[[len crc] k] |]; [| done].
  case (Z.ltb_spec len (4 + 17)); [done |]. intros Hl. case (Z.ltb_spec (blen b) (4 + len)); [done |]. intros Hb.
  case_match; [done |]. case_match; [| done]. intros [= _ <-]. lia.
Qed.

#[export] Instance wan_framed : Framed WanRecord := {|
  f_enc := encode; f_dec := decode; f_ok := rec_ok;
  f_complete := wan_complete; f_partial := wan_partial; f_progress := wan_progress
|}.

(** ** Messages between clusters *)

Inductive WanMsg :=
| Batch (up_to_seq : Z) (records : list WanRecord)
| Ack (up_to_seq : Z).

Definition encode_msg (m : WanMsg) : bytes :=
  match m with
  | Batch up_to_seq records => b8 0 :: to_le 8 up_to_seq ++ to_le 4 (blen records) ++ frames records
  | Ack up_to_seq => b8 1 :: to_le 8 up_to_seq
  end.

(** [n] records in a row; a count larger than the buffer cannot be met. *)
Fixpoint decode_records (fuel : nat) (n : Z) (b : bytes) : option (list WanRecord) :=
  if n <=? 0 then Some [] else
  match fuel with
  | O => None
  | S fuel' =>
    match decode b with
    | Record r k => rs ← decode_records fuel' (n - 1) (drop (Z.to_nat k) b); Some (r :: rs)
    | NeedMore | Torn => None
    end
  end.

Definition decode_msg (b : bytes) : option WanMsg :=
  '(tag, r) ← get_byte b;
  match u8 tag with
  | 0 => '(up_to_seq, r) ← get_u 8 r;
         '(n, r) ← get_u 4 r;
         records ← decode_records (length r) n r;
         Some (Batch up_to_seq records)
  | 1 => '(up_to_seq, _) ← get_u 8 r; Some (Ack up_to_seq)
  | _ => None
  end.

Definition msg_ok (m : WanMsg) : Prop :=
  match m with
  | Batch s rs => is_u64 s /\ is_u32 (blen rs) /\ Forall rec_ok rs
  | Ack s => is_u64 s
  end.

Lemma decode_records_frames rs fuel :
  Forall rec_ok rs -> (length rs <= fuel)%nat -> decode_records fuel (blen rs) (frames rs) = Some rs.
Proof.
  intros Hrs. revert fuel. induction Hrs as [| r rs Hr _ IH]; intros fuel Hf; [by destruct fuel |].
  destruct fuel as [| fuel]; simpl in Hf; [lia |]. cbn [decode_records].
  rewrite blen_cons, (proj2 (Z.leb_gt _ _)) by (pose proof (blen_nonneg rs); lia).
  rewrite frames_cons. cbn [f_enc wan_framed]. rewrite wan_complete by done.
  replace (Z.to_nat (blen (encode r))) with (length (encode r)) by (unfold blen; lia).
  rewrite drop_app_length. replace (1 + blen rs - 1) with (blen rs) by lia. by rewrite IH by lia.
Qed.

Lemma length_wan_frames rs : Forall rec_ok rs -> (length rs <= length (frames rs))%nat.
Proof.
  induction 1 as [| r rs Hr _ IH]; [simpl; lia |]. rewrite frames_cons, length_app. simpl.
  pose proof (f_enc_nonempty r Hr). simpl in *. lia.
Qed.

(** WAN messages survive the wire: a batch of records or an acknowledgement, encoded, decodes
    to itself. *)
Theorem wan_msg_roundtrip m : msg_ok m -> decode_msg (encode_msg m) = Some m.
Proof.
  intros Hm. unfold decode_msg, encode_msg. destruct m as [s rs | s]; simpl in Hm.
  - destruct Hm as (Hs & Hn & Hrs). cbn [get_byte mbind option_bind]. run_codec.
    rewrite decode_records_frames by (done || by apply length_wan_frames). done.
  - cbn [get_byte mbind option_bind]. rewrite <- (app_nil_r (to_le 8 s)). run_codec.
Qed.

End Wan.

#[local] Existing Instance ieee_crc32.

Lemma wan_msg_roundtrip_witness :
  let m := Batch 7 [mk_WanRecord WPut 1 0 (bstr "m") (bstr "k") (bstr "v")] in
  decode_msg (encode_msg m) = Some m.
Proof.
  apply wan_msg_roundtrip. simpl. unfold rec_ok, is_u64, is_u32.
  split_and!; [vm_compute; congruence.. |]. constructor; [| constructor].
  split_and!; vm_compute; congruence.
Defined.
