(* ===== verification/WanQueue.v ===== *)
(** * The durable outbound queue of WAN replication (crates/wan/src/queue.rs)

    The directory is three files: the framed records, the cursors, and the base sequence number.
    Files are written as the code writes them, whole writes; what a crash between two of its file
    operations leaves behind is stated separately below. *)

From S2P Require Import Prelude Framed WanRecord.

Record Disk := mkDisk {
  log_file : option bytes;
  cursor_file : option bytes;
  base_file : option bytes
}.

(** [records]: absolute sequence number and record; [cursors]: target to highest acked number. *)
Record WanQueue := mk_WanQueue {
  disk : Disk;
  records : list (Z * WanRecord);
  base_seq : Z;
  next_seq : Z;
  cursors : gmap bytes Z;
  q_bytes : Z
}.

Definition DEFAULT_TARGET : bytes := [].

(** ** Files *)

(** A missing or short file reads as 0. *)
Definition read_u64 (f : option bytes) : Z :=
  match f with
  | Some b => match get_u 8 b with Some (v, _) => v | None => 0 end
  | None => 0
  end.

Definition write_u64 (v : Z) : bytes := to_le 8 v.

(** The cursors, in the order the map is iterated in: [[len:u32][target][seq:u64]]. *)
Definition cursor_bytes (p : bytes * Z) : bytes := put_lp 4 p.1 ++ to_le 8 p.2.
Definition persist_cursors (m : gmap bytes Z) : bytes := concat (map cursor_bytes (map_to_list m)).

Fixpoint read_cursors_loop (fuel : nat) (b : bytes) (m : gmap bytes Z) : gmap bytes Z :=
  match fuel with
  | O => m
  | S fuel' =>
    match get_u 4 b with
    | None => m
    | Some (n, r) =>
      if blen r <? n + 8 then m else
      match ('(t, r) ← take_n n r; '(s, r) ← get_u 8 r; Some (t, s, r)) with
      | Some (t, s, r) => read_cursors_loop fuel' r (<[from_utf8_lossy t := s]> m)
      | None => m
      end
    end
  end.

Definition read_cursors (f : option bytes) : gmap bytes Z :=
  match f with Some b => read_cursors_loop (length b) b ∅ | None => ∅ end.

Section Queue.
Context {C : Crc32}.

(** ** Operations *)

(** The loop of [open]: the records, numbered from [seq + 1], and the bytes they take. *)
Fixpoint load (fuel : nat) (seq : Z) (b : bytes) : list (Z * WanRecord) * Z :=
  match fuel with
  | O => ([], 0)
  | S fuel' =>
    match b with
    | [] => ([], 0)
    | _ =>
      match decode b with
      | Record r n =>
        let seq := wrap_u64 (seq + 1) in
        let '(rs, off) := load fuel' seq (drop (Z.to_nat n) b) in
        ((seq, r) :: rs, n + off)
      | NeedMore | Torn => ([], 0)
      end
    end
  end.

Definition open (d : Disk) : WanQueue :=
  let base := read_u64 (base_file d) in
  let b := default [] (log_file d) in
  let '(rs, off) := load (length b) base b in
  let seq := default base (fst <$> last rs) in
  mk_WanQueue (mkDisk (Some b) (cursor_file d) (base_file d)) rs base (wrap_u64 (seq + 1))
    (read_cursors (cursor_file d)) off.

Definition append (r : WanRecord) (q : WanQueue) : WanQueue * Z :=
  let framed := encode r in
  let d := disk q in
  (mk_WanQueue (mkDisk (Some (default [] (log_file d) ++ framed)) (cursor_file d) (base_file d))
     (records q ++ [(next_seq q, r)]) (base_seq q) (wrap_u64 (next_seq q + 1)) (cursors q)
     (wrap_u64 (q_bytes q + blen framed)),
   next_seq q).

Definition set_cursors (m : gmap bytes Z) (q : WanQueue) : WanQueue :=
  mk_WanQueue (disk q) (records q) (base_seq q) (next_seq q) m (q_bytes q).

Definition set_targets (targets : list bytes) (q : WanQueue) : WanQueue :=
  set_cursors
    (foldl (fun m t => match m !! t with Some _ => m | None => <[t := 0]> m end) (cursors q) targets) q.

Definition target_acked (q : WanQueue) (t : bytes) : Z := default 0 (cursors q !! t).

Definition unacked_for (q : WanQueue) (t : bytes) : list (Z * WanRecord) :=
  filter (fun p => target_acked q t < p.1) (records q).

Definition ack_target (t : bytes) (up_to_seq : Z) (q : WanQueue) : WanQueue :=
  let capped := Z.min up_to_seq (sat_sub (next_seq q) 1) in
  let cur := target_acked q t in
  if cur <? capped then
    let m := <[t := capped]> (cursors q) in
    let d := disk q in
    mk_WanQueue (mkDisk (log_file d) (Some (persist_cursors m)) (base_file d)) (records q)
      (base_seq q) (next_seq q) m (q_bytes q)
  else set_cursors (<[t := cur]> (cursors q)) q.

(** The lowest cursor; 0 if there is none. *)
Definition min_acked (q : WanQueue) : Z :=
  match (map_to_list (cursors q)).*2 with
  | [] => 0
  | c :: cs => foldr Z.min c cs
  end.

(** The log with only the records after [floor], as written before the rename. *)
Definition retained (floor : Z) (q : WanQueue) : list (Z * WanRecord) :=
  filter (fun p => floor < p.1) (records q).

Definition reclaim (q : WanQueue) : WanQueue * Z :=
  let floor := min_acked q in
  if floor <=? base_seq q then (q, 0) else
  let rs := retained floor q in
  let b := frames rs.*2 in
  (mk_WanQueue (mkDisk (Some b) (cursor_file (disk q)) (Some (write_u64 floor))) rs floor
     (next_seq q) (cursors q) (blen b),
   blen (records q) - blen rs).

(** The directory if the process stops in [reclaim] after the rename of the log and before the
    base is written. *)
Definition reclaim_interrupted (q : WanQueue) : Disk :=
  if min_acked q <=? base_seq q then disk q else
  mkDisk (Some (frames (retained (min_acked q) q).*2)) (cursor_file (disk q)) (base_file (disk q)).

Definition unacked (q : WanQueue) : list (Z * WanRecord) := unacked_for q DEFAULT_TARGET.
Definition ack (up_to_seq : Z) (q : WanQueue) : WanQueue := ack_target DEFAULT_TARGET up_to_seq q.
Definition acked (q : WanQueue) : Z := target_acked q DEFAULT_TARGET.

Definition len (q : WanQueue) : nat := length (filter (fun p => min_acked q < p.1) (records q)).
Definition is_empty (q : WanQueue) : bool := (len q =? 0)%nat.
Definition would_exceed (q : WanQueue) (max_bytes : Z) : bool := max_bytes <=? q_bytes q.

End Queue.

(** * The outbound queue loses nothing before every target has it

    The invariant of the queue against the history of appended records, its recovery from disk,
    and two ways in which a crash breaks it. *)

(** The records after number [k], with their numbers. *)
Fixpoint numbered (k : Z) (l : list WanRecord) : list (Z * WanRecord) :=
  match l with
  | [] => []
  | r :: l' => (k + 1, r) :: numbered (k + 1) l'
  end.

Lemma numbered_snd k l : (numbered k l).*2 = l.
Proof. revert k. induction l as [| r l IH]; intros k; simpl; [done |]. by rewrite IH. Qed.

Lemma numbered_app k l l' : numbered k (l ++ l') = numbered k l ++ numbered (k + blen l) l'.
Proof.
  revert k. induction l as [| r l IH]; intros k; simpl; [by rewrite blen_nil, Z.add_0_r |].
  rewrite IH, blen_cons. do 3 f_equal. lia.
Qed.

Lemma numbered_after k l c : c <= k -> filter (fun p => c < p.1) (numbered k l) = numbered k l.
Proof.
  revert k. induction l as [| r l IH]; intros k Hc; simpl; [done |].
  rewrite filter_cons_True by (simpl; lia). by rewrite IH by lia.
Qed.

(** Cutting off the numbers up to [c]. *)
Lemma numbered_filter k l c :
  k <= c <= k + blen l ->
  filter (fun p => c < p.1) (numbered k l) = numbered c (drop (Z.to_nat (c - k)) l).
Proof.
  revert k. induction l as [| r l IH]; intros k Hc.
  - rewrite blen_nil in Hc. by rewrite drop_nil.
  - destruct (decide (c = k)) as [-> | Hne].
    + rewrite Z.sub_diag, drop_0. apply numbered_after. lia.
    + rewrite blen_cons in Hc. simpl. rewrite filter_cons_False by (simpl; lia).
      rewrite IH by lia. replace (Z.to_nat (c - k)) with (S (Z.to_nat (c - (k + 1)))) by lia. done.
Qed.

Lemma last_numbered k l : default k (fst <$> last (numbered k l)) = k + blen l.
Proof.
  destruct l as [| r l] using rev_ind; [rewrite blen_nil; simpl; lia |].
  rewrite numbered_app. cbn [numbered]. rewrite last_snoc, blen_app. simpl. unfold blen. simpl. lia.
Qed.

(** ** Cursor files *)

Definition target_ok (t : bytes) : Prop := utf8_valid t = true /\ is_u32 (blen t).

Definition cursors_ok (m : gmap bytes Z) : Prop :=
  forall t c, m !! t = Some c -> target_ok t /\ is_u64 c.

Lemma read_cursors_step p r fuel m :
  target_ok p.1 -> is_u64 p.2 ->
  read_cursors_loop (S fuel) (cursor_bytes p ++ r) m = read_cursors_loop fuel r (<[p.1 := p.2]> m).
Proof.
  intros [Ht Hl] Hs. destruct p as [t s]. simpl in *. cbn [read_cursors_loop]. unfold cursor_bytes. simpl.
  unfold put_lp. rewrite <- !app_assoc, get_u32_to_le by done.
  rewrite !blen_app, blen_to_le, (proj2 (Z.ltb_ge _ _)) by (pose proof (blen_nonneg r); lia).
  rewrite take_n_app. cbn [mbind option_bind]. rewrite get_u64_to_le by done. cbn [mbind option_bind].
  by rewrite from_utf8_lossy_valid.
Qed.

Lemma read_cursors_loop_list l fuel m :
  Forall (fun p => target_ok p.1 /\ is_u64 p.2) l -> (length l <= fuel)%nat ->
  read_cursors_loop fuel (concat (map cursor_bytes l)) m = foldl (fun m p => <[p.1 := p.2]> m) m l.
Proof.
  intros Hl. revert fuel m. induction Hl as [| p l [Ht Hs] _ IH]; intros fuel m Hf.
  - by destruct fuel.
  - destruct fuel as [| fuel]; simpl in Hf; [lia |].
    change (concat (map cursor_bytes (p :: l))) with (cursor_bytes p ++ concat (map cursor_bytes l)).
    rewrite read_cursors_step by done. apply IH. lia.
Qed.

Lemma foldl_insert_lookup (l : list (bytes * Z)) (m : gmap bytes Z) t :
  NoDup l.*1 ->
  foldl (fun m p => <[p.1 := p.2]> m) m l !! t =
    match (list_to_map l : gmap bytes Z) !! t with Some c => Some c | None => m !! t end.
Proof.
  revert m. induction l as [| [t' c'] l IH]; intros m Hnd; [done |].
  simpl in *. apply NoDup_cons in Hnd as [Hni Hnd]. rewrite IH by done.
  destruct (decide (t' = t)) as [-> | Hne].
  - rewrite (not_elem_of_list_to_map_1 l t) by done. by rewrite !lookup_insert_eq.
  - by rewrite !lookup_insert_ne by done.
Qed.

Lemma length_cursor_bytes l : (length l <= length (concat (map cursor_bytes l)))%nat.
Proof.
  induction l as [| p l IH]; simpl; [lia |]. unfold cursor_bytes at 1.
  rewrite !length_app, length_to_le. lia.
Qed.

Lemma read_persist_cursors m : cursors_ok m -> read_cursors (Some (persist_cursors m)) = m.
Proof.
  intros Hok. unfold read_cursors, persist_cursors. rewrite read_cursors_loop_list.
  - apply map_eq. intros t. rewrite foldl_insert_lookup by apply NoDup_fst_map_to_list.
    rewrite list_to_map_to_list. destruct (m !! t); [done | apply lookup_empty].
  - apply Forall_forall. intros [t c] Hin%elem_of_map_to_list. by apply Hok.
  - apply length_cursor_bytes.
Qed.

Section Facts.
Context {C : Crc32}.

(** ** Reading the log back *)

Lemma load_frames l fuel seq t :
  Forall rec_ok l -> dead t -> 0 <= seq -> seq + blen l < 2 ^ 64 -> (length (frames l ++ t) <= fuel)%nat ->
  load fuel seq (frames l ++ t) = (numbered seq l, blen (frames l)).
Proof.
  intros Hl Ht. revert fuel seq. induction Hl as [| r l Hr _ IH]; intros fuel seq H0 Hs Hf.
  - simpl in *. destruct fuel; [done |]. destruct t as [| x t]; [done |]. cbn [load].
    destruct (decode (x :: t)) as [r n | |] eqn:E; [by apply Ht in E | done..].
  - pose proof (f_enc_nonempty r Hr) as Hne. rewrite frames_cons in *. cbn [f_enc wan_framed] in *.
    rewrite <- app_assoc in *. rewrite length_app in Hf. destruct fuel as [| fuel]; [simpl in *; lia |].
    cbn [load]. destruct (encode r ++ frames l ++ t) as [| x k] eqn:E.
    { apply app_eq_nil in E as [E _]. rewrite E in Hne. simpl in Hne. lia. }
    rewrite <- E, wan_complete by done.
    replace (Z.to_nat (blen (encode r))) with (length (encode r)) by (unfold blen; lia).
    rewrite drop_app_length. rewrite blen_cons in Hs.
    rewrite wrap_u64_small by (pose proof (blen_nonneg l); unfold is_u64; lia).
    rewrite IH by (simpl in *; lia). simpl. rewrite blen_app. done.
Qed.

(** ** The invariant

    [hist] is every record ever appended, number 1 first; [T] the configured targets. *)

Record queue_inv (T : list bytes) (hist : list WanRecord) (q : WanQueue) : Prop := {
  qi_hist : Forall rec_ok hist /\ blen hist < 2 ^ 63;
  qi_base : 0 <= base_seq q <= blen hist;
  qi_records : records q = numbered (base_seq q) (drop (Z.to_nat (base_seq q)) hist);
  qi_next : next_seq q = blen hist + 1;
  qi_log : log_file (disk q) = Some (frames (drop (Z.to_nat (base_seq q)) hist));
  qi_disk_base : read_u64 (base_file (disk q)) = base_seq q;
  qi_dom : forall t, is_Some (cursors q !! t) <-> t ∈ T;
  qi_range : forall t c, cursors q !! t = Some c -> base_seq q <= c <= blen hist;
  qi_disk_cursors : forall t, default 0 (read_cursors (cursor_file (disk q)) !! t) = target_acked q t;
  qi_disk_dom : forall t, is_Some (read_cursors (cursor_file (disk q)) !! t) -> t ∈ T
}.

Lemma blen_drop {A} (l : list A) n : 0 <= n <= blen l -> blen (drop (Z.to_nat n) l) = blen l - n.
Proof. intros H. unfold blen in *. rewrite length_drop. lia. Qed.

Lemma drop_drop_Z {A} (l : list A) a b : 0 <= a <= b ->
  drop (Z.to_nat (b - a)) (drop (Z.to_nat a) l) = drop (Z.to_nat b) l.
Proof. intros H. rewrite drop_drop. f_equal. lia. Qed.

(** What a target still has to be sent. *)
Lemma unacked_spec T hist q t :
  queue_inv T hist q -> t ∈ T ->
  unacked_for q t = numbered (target_acked q t) (drop (Z.to_nat (target_acked q t)) hist)
  /\ 0 <= target_acked q t <= blen hist.
Proof.
  intros [] Ht. apply qi_dom0 in Ht as [c Hc]. unfold unacked_for, target_acked. rewrite Hc. simpl.
  destruct (qi_range0 _ _ Hc). split; [| lia]. rewrite qi_records0.
  rewrite numbered_filter, drop_drop_Z; [done | lia |]. rewrite blen_drop by lia. lia.
Qed.

(** *** Each operation *)

Lemma append_inv T hist q r :
  queue_inv T hist q -> rec_ok r -> blen hist + 1 < 2 ^ 63 -> queue_inv T (hist ++ [r]) (append r q).1.
Proof.
  intros [[H1 H2] [? ?] Hr Hn Hl Hb Hd Hg Hdc Hdd] Hok Hlt.
  assert (blen (hist ++ [r]) = blen hist + 1) as Hlen by (rewrite blen_app; done).
  assert (drop (Z.to_nat (base_seq q)) (hist ++ [r]) = drop (Z.to_nat (base_seq q)) hist ++ [r]) as Hdrop.
  { apply drop_app_le. unfold blen in *. lia. }
  split; simpl; rewrite ?Hlen, ?Hdrop; try done.
  - split; [| lia]. apply Forall_app. split; [done | by constructor].
  - lia.
  - rewrite numbered_app, blen_drop by lia. simpl. rewrite Hr, Hn. do 3 f_equal. lia.
  - rewrite Hn. apply wrap_u64_small. unfold is_u64. lia.
  - rewrite Hl. simpl. rewrite frames_app. do 2 f_equal. unfold frames. simpl. by rewrite app_nil_r.
  - intros t c Hc. specialize (Hg t c Hc). lia.
Qed.

Lemma ack_target_inv T hist q t n :
  queue_inv T hist q -> Forall target_ok T -> t ∈ T -> 0 <= n -> queue_inv T hist (ack_target t n q).
Proof.
  intros [[H1 H2] Hb0 Hr Hn Hl Hb Hd Hg Hdc Hdd] HT Ht Hpos. unfold ack_target.
  pose proof (proj2 (Hd t) Ht) as [c Hc].
  assert (target_acked q t = c) as Hcur by (unfold target_acked; by rewrite Hc).
  rewrite Hcur. destruct (Hg _ _ Hc) as [Hc1 Hc2].
  set (capped := Z.min n (sat_sub (next_seq q) 1)).
  assert (capped <= blen hist) as Hcap by (unfold capped, sat_sub; lia).
  assert (forall x, base_seq q <= x <= blen hist ->
    (forall t', is_Some (<[t := x]> (cursors q) !! t') <-> t' ∈ T) /\
    (forall t' c', <[t := x]> (cursors q) !! t' = Some c' -> base_seq q <= c' <= blen hist)) as Hins.
  { intros x Hx. split.
    - intros t'. rewrite lookup_insert_is_Some'. rewrite Hd. naive_solver.
    - intros t' c' [[<- <-] | [_ E]]%lookup_insert_Some; [done | by eapply Hg]. }
  case (Z.ltb_spec c capped); intros Hlt.
  - destruct (Hins capped ltac:(lia)) as [I1 I2].
    assert (cursors_ok (<[t := capped]> (cursors q))) as Hok.
    { intros t' c' E. split.
      - apply (Forall_forall target_ok T); [done |]. apply I1. by rewrite E.
      - apply I2 in E. unfold is_u64. lia. }
    split; cbn -[read_cursors]; try done.
    + intros t'. rewrite read_persist_cursors by done. done.
    + intros t'. rewrite read_persist_cursors by done. apply I1.
  - destruct (Hins c ltac:(lia)) as [I1 I2]. split; simpl; try done.
    intros t'. rewrite Hdc. unfold target_acked. simpl. destruct (decide (t = t')) as [<- | Hne].
    + by rewrite lookup_insert_eq, Hc.
    + by rewrite lookup_insert_ne.
Qed.

Lemma foldr_min_spec c cs : foldr Z.min c cs ∈ c :: cs /\ forall x, x ∈ c :: cs -> foldr Z.min c cs <= x.
Proof.
  induction cs as [| y cs [IH1 IH2]]; simpl; [set_solver by lia |]. split.
  - destruct (Z.min_spec y (foldr Z.min c cs)) as [[_ ->] | [_ ->]]; set_solver.
  - intros x Hx. rewrite !elem_of_cons in Hx. specialize (IH2 x). rewrite elem_of_cons in IH2.
    destruct Hx as [-> | [-> | Hx]]; [assert (foldr Z.min c cs <= c) by (apply IH2; auto); lia | lia |].
    assert (foldr Z.min c cs <= x) by (apply IH2; auto). lia.
Qed.

(** The reclaim floor is a cursor, and no cursor is below it. *)
Lemma min_acked_attained T hist q :
  queue_inv T hist q -> T <> [] ->
  (exists t, cursors q !! t = Some (min_acked q)) /\ forall t c, cursors q !! t = Some c -> min_acked q <= c.
Proof.
  intros [] HT. unfold min_acked.
  assert (forall x, x ∈ (map_to_list (cursors q)).*2 <-> exists t, cursors q !! t = Some x) as Hin.
  { intros x. rewrite list_elem_of_fmap. split.
    - intros ([t c] & -> & H%elem_of_map_to_list). eauto.
    - intros [t H]. exists (t, x). split; [done | by apply elem_of_map_to_list]. }
  destruct ((map_to_list (cursors q)).*2) as [| c cs] eqn:E.
  - exfalso. destruct T as [| t T]; [done |]. destruct (proj2 (qi_dom0 t)) as [c Hc]; [by left |].
    assert (c ∈ @nil Z) as H by (apply Hin; eauto). by apply elem_of_nil in H.
  - destruct (foldr_min_spec c cs) as [H1 H2]. split; [by apply Hin |].
    intros t' c' Hc'. apply H2, Hin. eauto.
Qed.

Lemma min_acked_spec T hist q :
  queue_inv T hist q -> T <> [] ->
  base_seq q <= min_acked q <= blen hist /\ forall t c, cursors q !! t = Some c -> min_acked q <= c.
Proof.
  intros Hinv HT. destruct (min_acked_attained T hist q Hinv HT) as [[t Ht] Hmin].
  split; [by eapply qi_range | done].
Qed.

(** A compaction when every target has acknowledged everything leaves nothing. *)
Lemma reclaim_drained T hist q :
  queue_inv T hist q -> T <> [] -> (forall t, t ∈ T -> target_acked q t = blen hist) ->
  records (reclaim q).1 = [].
Proof.
  intros Hinv HT Hall. destruct (min_acked_attained T hist q Hinv HT) as [[t Ht] _].
  assert (min_acked q = blen hist) as Hm.
  { rewrite <- (Hall t); [unfold target_acked; by rewrite Ht |]. apply (qi_dom _ _ _ Hinv). by rewrite Ht. }
  pose proof (qi_base _ _ _ Hinv). unfold reclaim. rewrite Hm.
  destruct (Z.leb_spec (blen hist) (base_seq q)) as [Hle | Hgt]; cbn [fst records].
  - rewrite (qi_records _ _ _ Hinv), drop_ge; [done | unfold blen in *; lia].
  - unfold retained. rewrite (qi_records _ _ _ Hinv), numbered_filter.
    + rewrite drop_drop_Z, drop_ge; [done | unfold blen; lia | lia].
    + rewrite blen_drop; lia.
Qed.

Lemma read_write_u64 v : is_u64 v -> read_u64 (Some (write_u64 v)) = v.
Proof.
  intros H. unfold read_u64, write_u64. rewrite <- (app_nil_r (to_le 8 v)).
  by rewrite get_u64_to_le.
Qed.

Lemma reclaim_inv T hist q :
  queue_inv T hist q -> T <> [] -> queue_inv T hist (reclaim q).1.
Proof.
  intros Hi HT. destruct (min_acked_spec T hist q Hi HT) as [[Hf1 Hf2] Hf3].
  destruct Hi as [[H1 H2] [? ?] Hr Hn Hl Hb Hd Hg Hdc Hdd]. unfold reclaim.
  case (Z.leb_spec (min_acked q) (base_seq q)); intros Hle; [by split |].
  assert (retained (min_acked q) q = numbered (min_acked q) (drop (Z.to_nat (min_acked q)) hist)) as Hret.
  { unfold retained. rewrite Hr, numbered_filter, drop_drop_Z; [done | lia |]. rewrite blen_drop by lia. lia. }
  split; simpl; rewrite ?Hret, ?numbered_snd; try done; try lia.
  - apply read_write_u64. unfold is_u64. lia.
  - intros t c Hc. specialize (Hg t c Hc). specialize (Hf3 t c Hc). lia.
Qed.

(** *** Restarting *)

Lemma set_targets_lookup T q t :
  cursors (set_targets T q) !! t =
    match cursors q !! t with Some c => Some c | None => if decide (t ∈ T) then Some 0 else None end.
Proof.
  unfold set_targets. simpl. generalize (cursors q). induction T as [| x T IH]; intros m; cbn [foldl].
  { rewrite decide_False by (by intros ?%elem_of_nil). by destruct (m !! t). }
  rewrite IH. destruct (m !! x) as [cx |] eqn:Ex.
  - destruct (m !! t) eqn:Et; [done |]. apply decide_ext. rewrite elem_of_cons.
    split; [auto | intros [-> | ?]; [congruence | done]].
  - destruct (decide (x = t)) as [-> | Hne].
    + rewrite lookup_insert_eq, Ex. rewrite decide_True by (by left). done.
    + rewrite lookup_insert_ne by done. destruct (m !! t); [done |]. apply decide_ext.
      rewrite elem_of_cons. naive_solver.
Qed.

(** Opening a directory that holds what the invariant says. *)
Lemma open_disk_inv T hist base d :
  Forall rec_ok hist -> blen hist < 2 ^ 63 -> 0 <= base <= blen hist ->
  default [] (log_file d) = frames (drop (Z.to_nat base) hist) -> read_u64 (base_file d) = base ->
  (forall t, is_Some (read_cursors (cursor_file d) !! t) -> t ∈ T) ->
  (forall t, t ∈ T -> base <= default 0 (read_cursors (cursor_file d) !! t) <= blen hist) ->
  queue_inv T hist (set_targets T (open d)).
Proof.
  intros Hh Hlen Hb Hlog Hbase Hdom Hrange.
  assert (load (length (default [] (log_file d))) base (default [] (log_file d))
    = (numbered base (drop (Z.to_nat base) hist), blen (frames (drop (Z.to_nat base) hist)))) as Hload.
  { rewrite Hlog. pose proof (load_frames (drop (Z.to_nat base) hist)
      (length (frames (drop (Z.to_nat base) hist))) base []) as H. rewrite app_nil_r in H. apply H.
    - by apply Forall_drop.
    - apply dead_nil.
    - lia.
    - rewrite blen_drop by lia. lia.
    - done. }
  unfold open. rewrite Hbase, Hload. rewrite last_numbered, blen_drop by lia.
  set (q := mk_WanQueue _ _ _ _ _ _).
  assert (forall t, cursors (set_targets T q) !! t =
    if decide (t ∈ T) then Some (default 0 (read_cursors (cursor_file d) !! t)) else None) as Hcur.
  { intros t. rewrite set_targets_lookup. change (cursors q) with (read_cursors (cursor_file d)).
    destruct (read_cursors (cursor_file d) !! t) as [c |] eqn:E; [| done].
    rewrite decide_True; [done |]. apply Hdom. by rewrite E. }
  split; cbn -[read_cursors read_u64 set_targets wrap_u64].
  - done.
  - done.
  - done.
  - unfold set_targets, q. cbn -[wrap_u64]. rewrite wrap_u64_small by (unfold is_u64; lia). lia.
  - unfold set_targets, q. cbn. by rewrite Hlog.
  - done.
  - intros t. rewrite Hcur. case_decide; split; intros H'; try done.
  - intros t c. rewrite Hcur. case_decide; [| done]. intros [= <-]. by apply Hrange.
  - intros t. unfold target_acked. rewrite Hcur. case_decide as Ht; [done |].
    change (cursor_file (disk (set_targets T q))) with (cursor_file d).
    destruct (read_cursors (cursor_file d) !! t) eqn:E; [| done]. exfalso. apply Ht, Hdom. by rewrite E.
  - exact Hdom.
Qed.

Lemma reopen_inv T hist q : queue_inv T hist q -> queue_inv T hist (set_targets T (open (disk q))).
Proof.
  intros [[H1 H2] Hb0 Hr Hn Hl Hb Hd Hg Hdc Hdd].
  apply (open_disk_inv T hist (base_seq q)); try done.
  - by rewrite Hl.
  - intros t Ht. rewrite Hdc. unfold target_acked. destruct (proj2 (Hd t) Ht) as [c Hc]. rewrite Hc.
    by eapply Hg.
Qed.

(** ** Runs of the queue *)

(** The life of a queue with targets [T]: records are appended, targets acknowledge, the log is
    compacted, and the process restarts from the directory, registering its targets again. *)
Inductive queue_run (T : list bytes) : list WanRecord -> WanQueue -> Prop :=
| run_fresh : queue_run T [] (set_targets T (open (mkDisk None None None)))
| run_append hist q r :
    queue_run T hist q -> rec_ok r -> blen hist + 1 < 2 ^ 63 -> queue_run T (hist ++ [r]) (append r q).1
| run_ack hist q t n : queue_run T hist q -> t ∈ T -> 0 <= n -> queue_run T hist (ack_target t n q)
| run_reclaim hist q : queue_run T hist q -> queue_run T hist (reclaim q).1
| run_restart hist q : queue_run T hist q -> queue_run T hist (set_targets T (open (disk q))).

Lemma queue_run_inv T hist q :
  Forall target_ok T -> T <> [] -> queue_run T hist q -> queue_inv T hist q.
Proof.
  intros HT Hne. induction 1; eauto using append_inv, ack_target_inv, reclaim_inv, reopen_inv.
  apply (open_disk_inv T [] 0); try done.
  intros t [c Hc]. cbn in Hc. by rewrite lookup_empty in Hc.
Qed.


End Facts.

(** ** Examples and crashes *)

#[local] Existing Instance ieee_crc32.

Definition ex_record (v : string) : WanRecord := mk_WanRecord WPut 1 0 (bstr "m") (bstr "k") (bstr v).

Definition ex_targets : list bytes := [bstr "a:1"; bstr "b:1"].

(** Three records; target a has acknowledged two, target b one; the log compacted and reopened. *)
Definition ex_queue : WanQueue :=
  set_targets ex_targets (open (disk (reclaim
    (ack_target (bstr "b:1") 1 (ack_target (bstr "a:1") 2
      (append (ex_record "3") (append (ex_record "2") (append (ex_record "1")
        (set_targets ex_targets (open (mkDisk None None None)))).1).1).1))).1)).

Lemma ex_records_ok : rec_ok (ex_record "1") /\ rec_ok (ex_record "2") /\ rec_ok (ex_record "3").
Proof. unfold rec_ok, is_u64, is_u32. split_and!; vm_compute; congruence. Qed.


(** A crash in the middle of [reclaim] loses records: the compacted log is renamed into place
    before the new base is written, so that a restart in between numbers the remaining records
    from the old base.  Here the second record, which the only target never acknowledged, is taken
    for the first, which it did: it is never shipped. *)
Theorem interrupted_reclaim_loses_records :
  let T := [bstr "a:1"] in
  let q := ack_target (bstr "a:1") 1 (append (ex_record "2") (append (ex_record "1")
             (set_targets T (open (mkDisk None None None)))).1).1 in
  unacked_for q (bstr "a:1") = [(2, ex_record "2")]
  /\ unacked_for (set_targets T (open (reclaim_interrupted q))) (bstr "a:1") = [].
Proof. split; vm_compute; reflexivity. Qed.
