(* ===== verification/WanThread.v ===== *)
(** * The WAN thread's outbound loop (crates/server/src/wan_thread.rs)

    One turn of the loop drains the captured records into the durable queue, ships every target its
    unacknowledged tail in batches, and compacts the log.  The remote clusters are behind TCP: what
    they do is a state [W] and a function [ship_batch] from it, which either answers the sequence
    number the remote acknowledged or fails. *)

From S2P Require Import Prelude Framed WanRecord WanQueue.

(** ** Framing over TCP: [[len:u32]][encode_msg bytes] *)

Definition write_frame (b : bytes) : bytes := put_lp 4 b.
Definition read_frame (s : bytes) : option (bytes * bytes) := get_lp 4 s.

(** ** Configuration *)

Inductive Backpressure := Throw | DropOldest.

Record WanConfig := {
  targets : list bytes;
  batch : Z;
  queue_bytes : Z;
  backpressure : Backpressure
}.

(** [slice::chunks]: pieces of [n] elements, the last one possibly shorter. *)
Fixpoint chunks_loop {A} (fuel : nat) (n : nat) (l : list A) : list (list A) :=
  match fuel, l with
  | O, _ | _, [] => []
  | S fuel', _ => take n l :: chunks_loop fuel' n (drop n l)
  end.
Definition chunks {A} (n : nat) (l : list A) : list (list A) := chunks_loop (length l) n l.

Section Outbound.
Context {C : Crc32}.
Context {W : Type} (ship_batch : W -> bytes -> Z -> list WanRecord -> W * option Z).
Context (cfg : WanConfig).

(** The drain loop: the records left in the ring, and the queue.  Under [Throw] the record just
    popped is not appended. *)
Fixpoint drain (ring : list WanRecord) (q : WanQueue) : list WanRecord * WanQueue :=
  match ring with
  | [] => ([], q)
  | r :: ring' =>
    if would_exceed q (queue_bytes cfg) then
      match backpressure cfg with
      | Throw => (ring', q)
      | DropOldest => drain ring' (append r (ack (wrap_u64 (acked q + 1)) q)).1
      end
    else drain ring' (append r q).1
  end.

(** Batches to one target, up to the first failure. *)
Fixpoint ship_chunks (t : bytes) (cs : list (list (Z * WanRecord))) (w : W) (q : WanQueue) : W * WanQueue :=
  match cs with
  | [] => (w, q)
  | chunk :: cs' =>
    let up_to := default 0 (fst <$> last chunk) in
    match ship_batch w t up_to chunk.*2 with
    | (w, Some a) => ship_chunks t cs' w (ack_target t a q)
    | (w, None) => (w, q)
    end
  end.

Definition ship_target (t : bytes) (w : W) (q : WanQueue) : W * WanQueue :=
  ship_chunks t (chunks (Z.to_nat (Z.max (batch cfg) 1)) (unacked_for q t)) w q.

Definition ship_all (ts : list bytes) (w : W) (q : WanQueue) : W * WanQueue :=
  foldl (fun '(w, q) t => ship_target t w q) (w, q) ts.

(** One turn of the outbound loop. *)
Definition round (ring : list WanRecord) (w : W) (q : WanQueue) : list WanRecord * W * WanQueue :=
  let '(ring, q) := drain ring q in
  let '(w, q) := ship_all (targets cfg) w q in
  (ring, w, (reclaim q).1).

End Outbound.

(** ** Lemmas *)

Lemma chunks_loop_concat {A} fuel n (l : list A) :
  (length l <= fuel)%nat -> (0 < n)%nat -> concat (chunks_loop fuel n l) = l.
Proof.
  revert l. induction fuel as [| fuel IH]; intros l Hl Hn; destruct l as [| x l]; try done; simpl in Hl; [lia |].
  cbn [chunks_loop concat]. rewrite IH, take_drop; [done | | done]. rewrite length_drop. simpl. lia.
Qed.

Lemma chunks_concat {A} n (l : list A) : (0 < n)%nat -> concat (chunks n l) = l.
Proof. by apply chunks_loop_concat. Qed.

Lemma chunks_loop_nonempty {A} fuel n (l : list A) :
  (0 < n)%nat -> Forall (fun c => c <> []) (chunks_loop fuel n l).
Proof.
  intros Hn. revert l. induction fuel as [| fuel IH]; intros [| x l]; try done.
  constructor; [| apply IH]. destruct n; [lia | done].
Qed.

Lemma frame_roundtrip b rest : is_u32 (blen b) -> read_frame (write_frame b ++ rest) = Some (b, rest).
Proof. apply get_lp32_put_lp. Qed.

Section OutboundFacts.
Context {C : Crc32}.

(** Which cursor an acknowledgement moves, and where to. *)
Lemma ack_target_acked t n q t' :
  0 <= next_seq q ->
  target_acked (ack_target t n q) t' =
    if decide (t' = t) then Z.max (target_acked q t) (Z.min n (sat_sub (next_seq q) 1)) else target_acked q t'.
Proof.
  intros Hn. unfold ack_target. destruct (Z.ltb_spec (target_acked q t) (Z.min n (sat_sub (next_seq q) 1))).
  all: unfold target_acked at 1; cbn [cursors set_cursors]; destruct (decide (t' = t)) as [-> | Hne];
    [rewrite lookup_insert_eq; simpl; lia | by rewrite lookup_insert_ne by done].
Qed.

Lemma ack_target_next t n q : next_seq (ack_target t n q) = next_seq q.
Proof. unfold ack_target. by destruct (_ <? _). Qed.

Lemma ack_target_records t n q : records (ack_target t n q) = records q.
Proof. unfold ack_target. by destruct (_ <? _). Qed.

Section AnyPeer.
Context {W : Type} (ship_batch : W -> bytes -> Z -> list WanRecord -> W * option Z) (cfg : WanConfig).
Hypothesis acks_are_u64 : forall w t n rs w' a, ship_batch w t n rs = (w', Some a) -> 0 <= a.

Lemma ship_chunks_run T hist t cs w q w' q' :
  t ∈ T -> queue_run T hist q -> ship_chunks ship_batch t cs w q = (w', q') -> queue_run T hist q'.
Proof.
  intros Ht. revert w q. induction cs as [| chunk cs IH]; intros w q Hq; cbn [ship_chunks].
  { by intros [= <- <-]. }
  destruct (ship_batch _ _ _ _) as [w1 [a |]] eqn:E.
  - intros Hs. eapply IH, Hs. apply run_ack; [done.. |]. by eapply acks_are_u64.
  - by intros [= <- <-].
Qed.

Lemma ship_all_run T hist ts w q w' q' :
  (forall t, t ∈ ts -> t ∈ T) -> queue_run T hist q ->
  ship_all ship_batch cfg ts w q = (w', q') -> queue_run T hist q'.
Proof.
  unfold ship_all. revert w q. induction ts as [| t ts IH]; intros w q Hts Hq; cbn [foldl].
  { by intros [= <- <-]. }
  destruct (ship_target _ _ _ _ _) as [w1 q1] eqn:E. intros Hs.
  eapply IH, Hs; [intros; apply Hts; by right |].
  eapply ship_chunks_run, E; [apply Hts; by left | done].
Qed.
End AnyPeer.

(** *** Remotes that are up *)

(** The remotes of the healthy case: what was shipped to whom, every batch acknowledged. *)
Definition healthy (w : list (bytes * list WanRecord)) (t : bytes) (up_to : Z) (rs : list WanRecord) :
    list (bytes * list WanRecord) * option Z :=
  (w ++ [(t, rs)], Some up_to).

Definition sent (w : list (bytes * list WanRecord)) (t : bytes) : list WanRecord :=
  concat (filter (fun p => p.1 = t) w).*2.

Lemma sent_app w w' t : sent (w ++ w') t = sent w t ++ sent w' t.
Proof. unfold sent. by rewrite filter_app, fmap_app, concat_app. Qed.

Lemma sent_one t rs t' : sent [(t, rs)] t' = if decide (t' = t) then rs else [].
Proof.
  unfold sent. rewrite filter_cons. cbn [fst].
  destruct (decide (t' = t)) as [-> | Hne].
  - rewrite decide_True by done. cbn. by rewrite app_nil_r.
  - by rewrite decide_False by done.
Qed.

(** The state of the links during a round: the run so far, and who has been sent what. *)
Record shipped (T : list bytes) (hist : list WanRecord) (q0 q : WanQueue)
    (w : list (bytes * list WanRecord)) : Prop := {
  sh_run : queue_run T hist q;
  sh_next : next_seq q = blen hist + 1;
  sh_mono : forall t, target_acked q0 t <= target_acked q t;
  sh_range : forall t, 0 <= target_acked q0 t /\ target_acked q t <= blen hist;
  sh_sent : forall t,
    drop (Z.to_nat (target_acked q0 t)) hist = sent w t ++ drop (Z.to_nat (target_acked q t)) hist
}.

Lemma split_numbered f k l g :
  numbered k l = f ++ g -> exists l1 l2, l = l1 ++ l2 /\ f = numbered k l1 /\ g = numbered (k + blen l1) l2.
Proof.
  intros H. exists (take (length f) l), (drop (length f) l). split; [by rewrite take_drop |].
  assert (length (numbered k l) = length l) as Hlen by (by rewrite <- (numbered_snd k l) at 2; rewrite length_fmap).
  assert (length f <= length l)%nat as Hle by (rewrite <- Hlen, H, length_app; lia).
  rewrite <- (take_drop (length f) l), numbered_app in H.
  assert (length (numbered k (take (length f) l)) = length f) as Hf.
  { rewrite <- (length_fmap snd), numbered_snd, length_take. lia. }
  apply app_inj_1 in H as [-> ->]; done.
Qed.

Lemma ship_chunks_healthy T hist q0 t l cs w q :
  t ∈ T -> shipped T hist q0 q w -> Forall (fun c => c <> []) cs ->
  l = drop (Z.to_nat (target_acked q t)) hist -> concat cs = numbered (target_acked q t) l ->
  exists w' q', ship_chunks healthy t cs w q = (w', q') /\ shipped T hist q0 q' w'
    /\ target_acked q' t = target_acked q t + blen l
    /\ forall t', t' <> t -> target_acked q' t' = target_acked q t'.
Proof.
  intros Ht. revert l w q. induction cs as [| chunk cs IH]; intros l w q Hs Hne Hl Hcat; cbn [ship_chunks].
  { exists w, q. destruct l; [| done]. split_and!; [done | done | unfold blen; simpl; lia | done]. }
  apply Forall_cons in Hne as [Hc Hne].
  symmetry in Hcat. destruct (split_numbered chunk _ l _ Hcat) as (l1 & l2 & -> & -> & Hrest).
  unfold healthy at 1. rewrite numbered_snd.
  assert (l1 <> []) as Hl1 by (by destruct l1).
  pose proof (last_numbered (target_acked q t) l1) as Hlast.
  assert (default 0 (fst <$> last (numbered (target_acked q t) l1)) = target_acked q t + blen l1) as ->.
  { destruct (last _) eqn:E; [done |]. apply last_None in E. by destruct l1. }
  destruct Hs as [Hr Hnx Hm Hg Hsent]. pose proof (blen_nonneg l1). pose proof (blen_nonneg l2).
  pose proof (Hg t). pose proof (Hm t).
  assert (blen l1 + blen l2 = blen hist - target_acked q t) as Hlen.
  { rewrite <- blen_app, Hl, blen_drop by lia. done. }
  set (q1 := ack_target t (target_acked q t + blen l1) q).
  assert (forall t', target_acked q1 t' =
    if decide (t' = t) then target_acked q t + blen l1 else target_acked q t') as Hq1.
  { intros t'. unfold q1. rewrite ack_target_acked by lia. case_decide; [| done].
    rewrite Hnx. unfold sat_sub. lia. }
  assert (l2 = drop (Z.to_nat (target_acked q t + blen l1)) hist) as Hl2.
  { rewrite Z2Nat.inj_add, <- drop_drop, <- Hl by lia. unfold blen.
    by rewrite Nat2Z.id, drop_app_length. }
  destruct (IH l2 (w ++ [(t, l1)]) q1) as (w' & q' & Hrun & Hs' & Ha & Ho).
  - split.
    + apply run_ack; [done.. | lia].
    + unfold q1. by rewrite ack_target_next.
    + intros t'. rewrite Hq1. case_decide; [subst; lia | apply Hm].
    + intros t'. rewrite Hq1. case_decide; [subst; lia | apply Hg].
    + intros t'. rewrite Hq1, sent_app, sent_one, Hsent, <- app_assoc. f_equal.
      case_decide; [| done]. subst t'. by rewrite <- Hl2, Hl.
  - done.
  - rewrite Hq1, decide_True by done. done.
  - rewrite Hq1, decide_True by done. done.
  - exists w', q'. split_and!; [done | done | |].
    + rewrite Ha, Hq1, decide_True, blen_app by done. lia.
    + intros t' Hne'. rewrite Ho, Hq1, decide_False by done. done.
Qed.

Lemma ship_all_healthy cfg T hist q0 ts w q :
  Forall target_ok T -> T <> [] -> (forall t, t ∈ ts -> t ∈ T) -> shipped T hist q0 q w ->
  exists w' q', ship_all healthy cfg ts w q = (w', q') /\ shipped T hist q0 q' w'
    /\ (forall t, t ∈ ts -> target_acked q' t = blen hist)
    /\ (forall t, target_acked q t = blen hist -> target_acked q' t = blen hist).
Proof.
  intros HT Hne. unfold ship_all. revert w q.
  induction ts as [| t ts IH]; intros w q Hts Hs; cbn [foldl].
  { exists w, q. split_and!; try done. by intros t ?%elem_of_nil. }
  assert (t ∈ T) as Ht by (apply Hts; by left).
  pose proof (sh_run _ _ _ _ _ Hs) as Hrun.
  destruct (unacked_spec T hist q t) as [Hun Hrange]; [by apply queue_run_inv | done |].
  destruct (ship_chunks_healthy T hist q0 t (drop (Z.to_nat (target_acked q t)) hist)
    (chunks (Z.to_nat (Z.max (batch cfg) 1)) (unacked_for q t)) w q)
    as (w1 & q1 & Hship & Hs1 & Ha & Ho); try done.
  { apply chunks_loop_nonempty. lia. }
  { rewrite chunks_concat by lia. done. }
  rewrite blen_drop in Ha by lia. change (ship_target healthy cfg t w q) with
    (ship_chunks healthy t (chunks (Z.to_nat (Z.max (batch cfg) 1)) (unacked_for q t)) w q).
  rewrite Hship. destruct (IH w1 q1) as (w' & q' & -> & Hs' & Hall & Hkeep); [| done |].
  { intros t' Ht'. apply Hts. by right. }
  assert (forall t', target_acked q t' = blen hist -> target_acked q1 t' = blen hist) as Hk1.
  { intros t' Ht'. destruct (decide (t' = t)) as [-> | Hn]; [lia | by rewrite Ho]. }
  exists w', q'. split_and!; [done | done | | by auto].
  intros t' [-> | Ht']%elem_of_cons; [apply Hkeep; lia | by apply Hall].
Qed.

(** Draining with room to spare appends everything. *)
Lemma drain_room cfg T hist ring q :
  queue_run T hist q -> Forall rec_ok ring -> blen hist + blen ring < 2 ^ 63 ->
  0 <= q_bytes q -> q_bytes q + blen (frames ring) < queue_bytes cfg -> queue_bytes cfg <= 2 ^ 64 ->
  exists q', drain cfg ring q = ([], q') /\ queue_run T (hist ++ ring) q'
    /\ forall t, target_acked q' t = target_acked q t.
Proof.
  revert hist q. induction ring as [| r ring IH]; intros hist q Hrun Hok Hlen Hb Hroom Hcap; cbn [drain].
  { exists q. by rewrite app_nil_r. }
  apply Forall_cons in Hok as [Hr Hok]. rewrite frames_cons, blen_app in Hroom.
  change (f_enc r) with (encode r) in Hroom.
  pose proof (blen_nonneg (frames ring)). pose proof (blen_nonneg (encode r)).
  pose proof (blen_nonneg ring). rewrite blen_cons in Hlen.
  unfold would_exceed. rewrite (proj2 (Z.leb_gt _ _)) by lia.
  destruct (IH (hist ++ [r]) (append r q).1) as (q' & Hd & Hrun' & Ha).
  - apply run_append; [done | done | lia].
  - done.
  - rewrite blen_app. change (blen [r]) with 1. lia.
  - cbn [append fst q_bytes]. rewrite wrap_u64_small by (unfold is_u64; lia). lia.
  - cbn [append fst q_bytes]. rewrite wrap_u64_small by (unfold is_u64; lia). lia.
  - done.
  - exists q'. rewrite <- app_assoc in Hrun'. done.
Qed.

(** One turn of the outbound loop, with room in the queue and every remote up: each target is
    sent exactly the records it had not acknowledged, the new ones included, in order, and
    afterwards every cursor is at the end, the log is empty and nothing is left in the ring. *)
Theorem wan_round_delivers cfg T hist q ring :
  targets cfg = T -> Forall target_ok T -> T <> [] -> queue_run T hist q ->
  Forall rec_ok ring -> blen hist + blen ring < 2 ^ 63 ->
  0 <= q_bytes q -> q_bytes q + blen (frames ring) < queue_bytes cfg -> queue_bytes cfg <= 2 ^ 64 ->
  exists w q', round healthy cfg ring [] q = ([], w, q') /\ queue_run T (hist ++ ring) q'
    /\ records q' = []
    /\ forall t, t ∈ T -> sent w t = drop (Z.to_nat (target_acked q t)) (hist ++ ring)
                      /\ target_acked q' t = blen (hist ++ ring).
Proof.
  intros Hcfg HT Hne Hrun Hok Hlen Hb Hroom Hcap.
  destruct (drain_room cfg T hist ring q) as (q1 & Hd & Hrun1 & Ha1); try done.
  pose proof (queue_run_inv T _ _ HT Hne Hrun1) as Hinv1.
  destruct (ship_all_healthy cfg T (hist ++ ring) q1 (targets cfg) [] q1)
    as (w & q2 & Hship & Hs2 & Hall & _); [done | done | by rewrite Hcfg | |].
  { split; [done | by apply Hinv1 | done | | done]. intros t. split.
    - unfold target_acked. destruct (cursors q1 !! t) as [c |] eqn:E; [| done].
      simpl. pose proof (qi_range _ _ _ Hinv1 _ _ E). pose proof (qi_base _ _ _ Hinv1). lia.
    - unfold target_acked. destruct (cursors q1 !! t) as [c |] eqn:E; [| apply blen_nonneg].
      by apply (qi_range _ _ _ Hinv1 _ _ E). }
  exists w, (reclaim q2).1. unfold round. rewrite Hd, Hship. rewrite Hcfg in Hall.
  pose proof (sh_run _ _ _ _ _ Hs2) as Hrun2.
  assert (queue_run T (hist ++ ring) (reclaim q2).1) as Hrun3 by (by apply run_reclaim).
  assert (forall t, target_acked (reclaim q2).1 t = target_acked q2 t) as Ha3.
  { intros t. unfold reclaim. by destruct (_ <=? _). }
  split_and!; [done | done | |].
  - by eapply reclaim_drained; [apply queue_run_inv | |].
  - intros t Ht. rewrite Ha3, Hall by done. split; [| done].
    rewrite <- Ha1. pose proof (sh_sent _ _ _ _ _ Hs2 t) as Hs. rewrite Hall in Hs by done.
    rewrite (drop_ge _ (Z.to_nat (blen (hist ++ ring)))), app_nil_r in Hs by (unfold blen; lia). done.
Qed.

End OutboundFacts.

(** ** Examples and divergences *)

#[local] Existing Instance ieee_crc32.

Definition ex_cfg (b : Backpressure) (max : Z) : WanConfig :=
  {| targets := [bstr "a:1"; bstr "b:1"]; batch := 1; queue_bytes := max; backpressure := b |}.

Definition ex_fresh : WanQueue := set_targets (targets (ex_cfg Throw 1)) (open (mkDisk None None None)).

Lemma wan_round_delivers_witness :
  exists w q', round healthy (ex_cfg Throw 1000) [ex_record "1"; ex_record "2"] [] ex_fresh = ([], w, q')
    /\ sent w (bstr "b:1") = [ex_record "1"; ex_record "2"].
Proof.
  destruct (wan_round_delivers (ex_cfg Throw 1000) (targets (ex_cfg Throw 1000)) [] ex_fresh
    [ex_record "1"; ex_record "2"]) as (w & q' & Hr & _ & _ & Hs).
  - done.
  - repeat constructor; vm_compute; congruence.
  - done.
  - apply run_fresh.
  - repeat constructor; apply ex_records_ok.
  - vm_compute. congruence.
  - vm_compute. congruence.
  - vm_compute. congruence.
  - vm_compute. congruence.
  - exists w, q'. split; [exact Hr |]. pose proof (Hs (bstr "b:1") (list_elem_of_further _ _ _ (list_elem_of_here _ _))) as [Hb _].
    rewrite Hb. vm_compute. reflexivity.
Defined.

(** Backpressure loses a record the producer was told nothing about: when the queue is full
    under [Throw], the record already taken from the ring is neither appended nor put back. *)
Theorem throw_backpressure_drops_popped :
  let '(ring, q) := drain (ex_cfg Throw 1) [ex_record "1"; ex_record "2"; ex_record "3"] ex_fresh in
  ring = [ex_record "3"] /\ (records q).*2 = [ex_record "1"].
Proof. vm_compute. done. Qed.

(** [DropOldest] drops nothing: it advances the cursor of the default target, which no remote
    has, so that the real targets still wait for the oldest record; and the new cursor then keeps
    records that every remote confirmed from being reclaimed. *)
Theorem drop_oldest_drops_nothing :
  let cfg := ex_cfg DropOldest 1 in
  let q1 := (drain cfg [ex_record "1"; ex_record "2"] ex_fresh).2 in
  let q2 := (reclaim (ship_all healthy cfg (targets cfg) [] q1).2).1 in
  (unacked_for q1 (bstr "a:1")).*2 = [ex_record "1"; ex_record "2"]
  /\ target_acked q2 (bstr "a:1") = 2 /\ target_acked q2 (bstr "b:1") = 2
  /\ (records q2).*2 = [ex_record "2"].
Proof. vm_compute. done. Qed.
