(* ===== verification/WalRecord.v ===== *)
(** * Write-ahead log records and segments (crates/persistence/src/record.rs, wal.rs) *)

From S2P Require Import Prelude Framed.

(** ** Records (record.rs) *)

Inductive RecordType := MapPut | MapRemove | AuxState.

(** [rtype as u16] *)
Definition type_id (t : RecordType) : Z :=
  match t with MapPut => 1 | MapRemove => 2 | AuxState => 3 end.

Definition from_u16 (v : Z) : option RecordType :=
  match v with 1 => Some MapPut | 2 => Some MapRemove | 3 => Some AuxState | _ => None end.

Definition HEADER : Z := 8.

Definition put_bytes (b : bytes) : bytes := put_lp 4 b.
Definition get_bytes (b : bytes) : option (bytes * bytes) := get_lp 4 b.

(** The fields of the three payloads: the arguments of the [encode_] functions and the structs of
    the [parse_] functions. *)
Record PutFields := mk_put { p_stamp : Z; p_ttl_ms : Z; p_map : bytes; p_key : bytes; p_value : bytes }.
Record RemoveFields := mk_remove { r_stamp : Z; r_map : bytes; r_key : bytes }.
Record AuxFields := mk_aux { a_kind : byte; a_name : bytes; a_state : bytes }.

Definition map_put_payload (r : PutFields) : bytes :=
  to_le 8 (p_stamp r) ++ to_le 8 (p_ttl_ms r) ++ put_bytes (p_map r) ++ put_bytes (p_key r) ++ put_bytes (p_value r).

Definition map_remove_payload (r : RemoveFields) : bytes :=
  to_le 8 (r_stamp r) ++ put_bytes (r_map r) ++ put_bytes (r_key r).

Definition aux_state_payload (r : AuxFields) : bytes :=
  a_kind r :: put_bytes (a_name r) ++ put_bytes (a_state r).

Definition parse_map_put (payload : bytes) : option PutFields :=
  '(st, r) ← get_u 8 payload;
  '(ttl, r) ← get_u 8 r;
  '(m, r) ← get_bytes r;
  '(k, r) ← get_bytes r;
  '(v, _) ← get_bytes r;
  m ← from_utf8 m;
  Some (mk_put st ttl m k v).

Definition parse_map_remove (payload : bytes) : option RemoveFields :=
  '(st, r) ← get_u 8 payload;
  '(m, r) ← get_bytes r;
  '(k, _) ← get_bytes r;
  m ← from_utf8 m;
  Some (mk_remove st m k).

Definition parse_aux_state (payload : bytes) : option AuxFields :=
  '(kind, r) ← get_byte payload;
  '(n, r) ← get_bytes r;
  '(s, _) ← get_bytes r;
  n ← from_utf8 n;
  Some (mk_aux kind n s).

Section Records.
Context {C : Crc32}.

(** [[len:u32][crc32:u32][record_type:u16][payload]]; the checksum covers type and payload. *)
Definition body (r : RecordType * bytes) : bytes := to_le 2 (type_id r.1) ++ r.2.

Definition frame (r : RecordType * bytes) : bytes :=
  to_le 4 (2 + blen r.2) ++ to_le 4 (crc32 (body r)) ++ body r.

Definition encode_map_put (r : PutFields) : bytes := frame (MapPut, map_put_payload r).
Definition encode_map_remove (r : RemoveFields) : bytes := frame (MapRemove, map_remove_payload r).
Definition encode_aux_state (r : AuxFields) : bytes := frame (AuxState, aux_state_payload r).

Definition decode_record (b : bytes) : Decoded (RecordType * bytes) :=
  match ('(body_len, r) ← get_u 4 b; '(crc, r) ← get_u 4 r; Some (body_len, crc, r)) with
  | None => NeedMore
  | Some (body_len, crc, r) =>
    let frame_len := HEADER + body_len in
    if body_len <? 2 then Torn
    else if blen b <? frame_len then NeedMore
    else
      let body := take (Z.to_nat body_len) r in
      if negb (crc32 body =? crc) then Torn
      else match ('(t, payload) ← get_u 2 body; t ← from_u16 t; Some (t, payload)) with
           | Some rec => Record rec frame_len
           | None => Torn
           end
  end.

(** ** Segments (wal.rs) *)

(** The file and the count of bytes in it; [fsync] changes neither. *)
Record WalSegment := mk_segment { file : bytes; seg_bytes : Z }.

(** An absent file is created empty. *)
Definition seg_open (f : option bytes) : WalSegment :=
  let b := default [] f in mk_segment b (blen b).

Definition seg_append (framed : bytes) (s : WalSegment) : WalSegment :=
  mk_segment (file s ++ framed) (wrap_u64 (seg_bytes s + blen framed)).

(** ** The format keeps the promise of a framed log *)

Definition payload_ok (r : RecordType * bytes) : Prop := 2 + blen r.2 < 2 ^ 32.

Lemma blen_body r : blen (body r) = 2 + blen r.2.
Proof. unfold body. rewrite blen_app, blen_to_le. lia. Qed.

Lemma blen_frame r : blen (frame r) = 8 + blen (body r).
Proof. unfold frame. rewrite !blen_app, !blen_to_le. lia. Qed.

Lemma decode_frame_header r p :
  payload_ok r ->
  decode_record (to_le 4 (2 + blen r.2) ++ to_le 4 (crc32 (body r)) ++ p) =
    if blen p <? blen (body r) then NeedMore
    else if negb (crc32 (take (length (body r)) p) =? crc32 (body r)) then Torn
    else match ('(t, payload) ← get_u 2 (take (length (body r)) p); t ← from_u16 t; Some (t, payload)) with
         | Some rec => Record rec (blen (frame r))
         | None => Torn
         end.
Proof.
  intros Hlen. unfold payload_ok in Hlen. pose proof (blen_nonneg r.2).
  unfold decode_record. rewrite get_u32_to_le by (unfold is_u32; lia). cbn [mbind option_bind].
  rewrite get_u32_to_le by apply crc32_u32. cbn [mbind option_bind].
  rewrite (proj2 (Z.ltb_ge _ _)) by lia. rewrite !blen_app, !blen_to_le, blen_frame, blen_body. unfold HEADER.
  replace (Z.of_nat 4 + (Z.of_nat 4 + blen p) <? 8 + (2 + blen r.2)) with (blen p <? 2 + blen r.2)
    by (apply eq_true_iff_eq; rewrite !Z.ltb_lt; lia).
  replace (Z.to_nat (2 + blen r.2)) with (length (body r)); [done |].
  pose proof (blen_body r). unfold blen in *. lia.
Qed.

Lemma wal_complete r rest : payload_ok r -> decode_record (frame r ++ rest) = Record r (blen (frame r)).
Proof.
  intros Hok. unfold frame at 1. rewrite <- !app_assoc, decode_frame_header by done.
  rewrite blen_app, (proj2 (Z.ltb_ge _ _)) by (pose proof (blen_nonneg rest); lia).
  rewrite take_app_length, Z.eqb_refl. cbn [negb]. unfold body.
  destruct r as [[] p]; by rewrite get_u16_to_le.
Qed.

Lemma wal_partial r p q r' n :
  payload_ok r -> p ++ q = frame r -> q <> [] -> decode_record p <> Record r' n.
Proof.
  intros Hok Hpq Hq. destruct (Z.lt_ge_cases (blen p) 8) as [Hlt | Hge].
  - unfold decode_record. destruct (get_u 4 p) as [[len k] |] eqn:E; simpl; [| done].
    apply get_u_blen in E. rewrite get_u_short by lia. done.
  - assert (exists p', p = to_le 4 (2 + blen r.2) ++ to_le 4 (crc32 (body r)) ++ p') as [p' ->].
    { exists (drop 8 p). transitivity (take 8 p ++ drop 8 p); [by rewrite take_drop |].
      rewrite app_assoc. f_equal. transitivity (take 8 (p ++ q)).
      - rewrite take_app_le; [done | unfold blen in Hge; lia].
      - rewrite Hpq. unfold frame. rewrite app_assoc, take_app_length'; [done |].
        by rewrite length_app, !length_to_le. }
    rewrite decode_frame_header by done. apply (f_equal blen) in Hpq.
    rewrite !blen_app, !blen_to_le, blen_frame in Hpq.
    assert (0 < blen q) by (destruct q; [done | rewrite blen_cons; pose proof (blen_nonneg q); lia]).
    rewrite (proj2 (Z.ltb_lt _ _)) by lia. done.
Qed.

Lemma wal_progress b r n : decode_record b = Record r n -> 0 < n <= blen b.
Proof.
  unfold decode_record, HEADER.
  destruct ('(len, r) ← get_u 4 b; '(crc, r) ← get_u 4 r; Some (len, crc, r)) as [[[len crc] k] |]; [| done].
  case (Z.ltb_spec len 2); [done |]. intros Hl. case (Z.ltb_spec (blen b) (8 + len)); [done |]. intros Hb.
  case_match; [done |]. case_match; [| done]. intros [= _ <-]. lia.
Qed.

#[export] Instance wal_framed : Framed (RecordType * bytes) := {|
  f_enc := frame; f_dec := decode_record; f_ok := payload_ok;
  f_complete := wal_complete; f_partial := wal_partial; f_progress := wal_progress
|}.

(** The calls [apply(rtype, payload)] that [read_segment] makes, in order. *)
Definition read_segment (f : option bytes) : list (RecordType * bytes) := read_all (default [] f).

(** ** Mutations on disk *)

(** What the store's durability sink is told: one of its three calls. *)
Inductive Mutation :=
| Put (r : PutFields)
| Remove (r : RemoveFields)
| Aux (r : AuxFields).

Definition encode_mutation (m : Mutation) : bytes :=
  match m with
  | Put r => encode_map_put r
  | Remove r => encode_map_remove r
  | Aux r => encode_aux_state r
  end.

(** The dispatch of recovery on a record's type; a payload that does not parse is skipped. *)
Definition parse_record (r : RecordType * bytes) : option Mutation :=
  match r.1 with
  | MapPut => Put <$> parse_map_put r.2
  | MapRemove => Remove <$> parse_map_remove r.2
  | AuxState => Aux <$> parse_aux_state r.2
  end.

Definition record_of (m : Mutation) : RecordType * bytes :=
  match m with
  | Put r => (MapPut, map_put_payload r)
  | Remove r => (MapRemove, map_remove_payload r)
  | Aux r => (AuxState, aux_state_payload r)
  end.

Definition name_ok (n : bytes) : Prop := utf8_valid n = true.

(** Mutations that fit the format: [u64] numbers, UTF-8 names, a record below 4 GiB. *)
Definition mutation_ok (m : Mutation) : Prop :=
  payload_ok (record_of m) /\
  match m with
  | Put r => is_u64 (p_stamp r) /\ is_u64 (p_ttl_ms r) /\ name_ok (p_map r)
  | Remove r => is_u64 (r_stamp r) /\ name_ok (r_map r)
  | Aux r => name_ok (a_name r)
  end.

Lemma put_bytes_fits b r : 2 + blen (put_bytes b ++ r) < 2 ^ 32 -> is_u32 (blen b) /\ 2 + blen r < 2 ^ 32.
Proof.
  unfold put_bytes, put_lp. rewrite !blen_app, blen_to_le. pose proof (blen_nonneg b). pose proof (blen_nonneg r).
  unfold is_u32. lia.
Qed.

Lemma fits_tail (a r : bytes) : 2 + blen (a ++ r) < 2 ^ 32 -> 2 + blen r < 2 ^ 32.
Proof. rewrite blen_app. pose proof (blen_nonneg a). lia. Qed.

Lemma get_last_bytes x : is_u32 (blen x) -> get_bytes (put_bytes x) = Some (x, []).
Proof. intros Hx. unfold get_bytes, put_bytes. rewrite <- (app_nil_r (put_lp 4 x)). by apply get_lp32_put_lp. Qed.

Lemma last_fits b : 2 + blen (put_bytes b) < 2 ^ 32 -> is_u32 (blen b).
Proof. rewrite <- (app_nil_r (put_bytes b)). by intros [? _]%put_bytes_fits. Qed.

Lemma parse_record_of m : mutation_ok m -> parse_record (record_of m) = Some m.
Proof.
  unfold mutation_ok, payload_ok, name_ok, parse_record. destruct m as [r | r | r]; intros [Hlen H]; cbn [record_of fst snd] in *.
  - destruct H as (? & ? & Hm). unfold parse_map_put, map_put_payload in *.
    apply fits_tail, fits_tail, put_bytes_fits in Hlen as [? [? ?%last_fits]%put_bytes_fits].
    unfold get_bytes at 1 2, put_bytes at 1 2. run_codec. rewrite get_last_bytes by done. run_codec. by destruct r.
  - destruct H as (? & Hm). unfold parse_map_remove, map_remove_payload in *.
    apply fits_tail, put_bytes_fits in Hlen as [? ?%last_fits].
    unfold get_bytes at 1, put_bytes at 1. run_codec. rewrite get_last_bytes by done. run_codec. by destruct r.
  - unfold parse_aux_state, aux_state_payload in *. rewrite blen_cons in Hlen.
    assert (2 + blen (put_bytes (a_name r) ++ put_bytes (a_state r)) < 2 ^ 32) as [? ?%last_fits]%put_bytes_fits by lia.
    unfold get_bytes at 1, put_bytes at 1. run_codec. rewrite get_last_bytes by done. run_codec. by destruct r.
Qed.

Lemma encode_record_of m : encode_mutation m = frame (record_of m).
Proof. by destruct m. Qed.

(** A segment written by appending [ms] to the file [f]. *)
Definition write_segment (f : option bytes) (ms : list Mutation) : WalSegment :=
  foldl (fun s m => seg_append (encode_mutation m) s) (seg_open f) ms.

Lemma write_segment_file f ms : file (write_segment f ms) = default [] f ++ frames (map record_of ms).
Proof.
  unfold write_segment. induction ms as [| m ms IH] using rev_ind; [by rewrite app_nil_r |].
  rewrite foldl_snoc, map_app, frames_app, app_assoc. cbn [foldl file seg_append]. rewrite IH.
  f_equal. rewrite encode_record_of. unfold frames. cbn [map concat f_enc wal_framed]. by rewrite app_nil_r.
Qed.

Lemma omap_parse ms : Forall mutation_ok ms -> omap parse_record (map record_of ms) = ms.
Proof. induction 1 as [| m ms Hm _ IH]; [done |]. cbn [map omap list_omap].
  rewrite parse_record_of by done. f_equal. exact IH.
Qed.

(** What recovery replays from a segment. *)
Definition replayed (f : option bytes) : list Mutation := omap parse_record (read_segment f).

(** A write-ahead log segment cut by a crash at any byte replays exactly the mutations whose
    records lie before the cut in full: a prefix of what was logged, in order, field by field,
    and the longest such prefix. *)
Theorem wal_replays_longest_prefix ms n :
  Forall mutation_ok ms ->
  exists k, replayed (Some (take n (file (write_segment None ms)))) = take k ms
    /\ (length (frames (map record_of (take k ms))) <= n \/ k = 0)%nat
    /\ (k < length ms -> n < length (frames (map record_of (take (S k) ms))))%nat.
Proof.
  intros Hms. rewrite write_segment_file. cbn [default app id].
  destruct (read_all_prefix (map record_of ms) n) as (k & Hr & Hlo & Hhi).
  { apply Forall_map. eapply Forall_impl; [exact Hms |]. by intros m [? _]. }
  exists k. unfold replayed, read_segment. cbn [default id]. rewrite Hr.
  rewrite !firstn_map in *. rewrite length_map in Hhi. split_and!; [| done | done].
  apply omap_parse. by apply Forall_take.
Qed.

End Records.

#[local] Existing Instance ieee_crc32.

Lemma wal_replays_longest_prefix_witness :
  let ms := [Put (mk_put 7 0 (bstr "m") (bstr "k") (bstr "v")); Remove (mk_remove 8 (bstr "m") (bstr "k"))] in
  replayed (Some (take 45 (file (write_segment None ms)))) = take 1 ms
  /\ exists k, replayed (Some (take 45 (file (write_segment None ms)))) = take k ms.
Proof.
  split; [vm_compute; reflexivity |].
  destruct (wal_replays_longest_prefix
    [Put (mk_put 7 0 (bstr "m") (bstr "k") (bstr "v")); Remove (mk_remove 8 (bstr "m") (bstr "k"))] 45)
    as (k & Hk & _); [| exists k; exact Hk].
  repeat constructor; vm_compute; congruence.
Defined.
