(* ===== verification/Slab.v ===== *)
(** * The size-classed slab allocator (crates/store/src/slab.rs)

    Blobs live in one arena per size class, addressed by slot; freed slots are reused last-in
    first-out; a blob larger than the largest class goes to an overflow list.  The vectors [free]
    and [overflow_free] are used as stacks and are modelled with their top first. *)

From S2P Require Import Prelude Fixed.

Definition CLASSES : list Z :=
  [8; 16; 24; 32; 48; 64; 96; 128; 192; 256; 384; 512; 768; 1024; 1536; 2048; 3072; 4096; 6144; 8192].
Definition OVERFLOW : Z := 65535.

Record Handle := mk_Handle { class : Z; slot : Z }.

#[export] Instance Handle_eq_dec : EqDecision Handle.
Proof. solve_decision. Defined.
#[export] Instance Handle_countable : Countable Handle.
Proof.
  apply (inj_countable' (fun h => (class h, slot h)) (fun p => mk_Handle p.1 p.2)). by intros [].
Defined.

Record SizeClass := mk_class {
  obj : Z;
  arena : bytes;
  free_slots : list Z;
  used : Z;
  cap : Z
}.

Definition new_class (o c : Z) : SizeClass := mk_class o (replicate (Z.to_nat (o * c)) (b8 0)) [] 0 c.

(** [Vec::resize] *)
Definition resize (n : nat) (b : bytes) : bytes := take n b ++ replicate (n - length b) (b8 0).

(** The arena grows by half when no slot is left. *)
Definition grow (c : SizeClass) : SizeClass :=
  if used c =? cap c then
    let cap' := Z.max (wrap_u32 (cap c + cap c / 2)) (wrap_u32 (cap c + 1)) in
    mk_class (obj c) (resize (Z.to_nat (wrap_u64 (obj c * cap'))) (arena c)) (free_slots c) (used c) cap'
  else c.

Definition alloc (c : SizeClass) : SizeClass * Z :=
  match free_slots c with
  | s :: f => (mk_class (obj c) (arena c) f (used c) (cap c), s)
  | [] =>
    let c := grow c in
    (mk_class (obj c) (arena c) (free_slots c) (wrap_u32 (used c + 1)) (cap c), used c)
  end.

Definition off (c : SizeClass) (s : Z) : nat := Z.to_nat (wrap_u64 (s * obj c)).

Record Slab := mk_slab {
  classes : list SizeClass;
  overflow : list bytes;
  overflow_free : list Z
}.

Definition new_slab : Slab := mk_slab (map (fun o => new_class o 64) CLASSES) [] [].

(** The smallest class that holds [len] bytes. *)
Definition class_for (len : Z) : option nat := fst <$> list_find (fun o => len <= o) CLASSES.

Definition set_arena (c : SizeClass) (b : bytes) : SizeClass :=
  mk_class (obj c) b (free_slots c) (used c) (cap c).

(** Store the concatenation of [a] and [b]. *)
Definition put_two (a b : bytes) (s : Slab) : outcome (Slab * Handle) :=
  match class_for (blen a + blen b) with
  | Some ci =>
    c ← index (classes s) ci;
    let '(c, sl) := alloc c in
    buf ← copy_at (arena c) (off c sl) (a ++ b);
    cs ← set_index (classes s) ci (set_arena c buf);
    Ok (mk_slab cs (overflow s) (overflow_free s), mk_Handle (Z.of_nat ci) sl)
  | None =>
    match overflow_free s with
    | f :: fs =>
      ov ← set_index (overflow s) (Z.to_nat f) (a ++ b);
      Ok (mk_slab (classes s) ov fs, mk_Handle OVERFLOW f)
    | [] =>
      Ok (mk_slab (classes s) (overflow s ++ [a ++ b]) [], mk_Handle OVERFLOW (wrap_u32 (blen (overflow s))))
    end
  end.

(** The first [len] bytes stored at [h]. *)
Definition slab_get (s : Slab) (h : Handle) (len : nat) : outcome bytes :=
  if class h =? OVERFLOW then
    v ← index (overflow s) (Z.to_nat (slot h));
    slice v 0 len
  else
    c ← index (classes s) (Z.to_nat (class h));
    slice (arena c) (off c (slot h)) len.

Definition slab_free (s : Slab) (h : Handle) : outcome Slab :=
  if class h =? OVERFLOW then
    ov ← set_index (overflow s) (Z.to_nat (slot h)) [];
    Ok (mk_slab (classes s) ov (slot h :: overflow_free s))
  else
    c ← index (classes s) (Z.to_nat (class h));
    cs ← set_index (classes s) (Z.to_nat (class h))
           (mk_class (obj c) (arena c) (slot h :: free_slots c) (used c) (cap c));
    Ok (mk_slab cs (overflow s) (overflow_free s)).

(** ** One size class *)

(** [P] says which slots are live and what they hold. *)
Record class_ok (o : Z) (P : Z -> option bytes) (c : SizeClass) : Prop := {
  co_obj : obj c = o;
  co_len : length (arena c) = Z.to_nat (o * cap c);
  co_used : 0 <= used c <= cap c;
  co_cap : 0 < cap c;
  co_max : used c <= 2 ^ 31;
  co_free : NoDup (free_slots c);
  co_slots : forall s, 0 <= s < used c <-> s ∈ free_slots c \/ is_Some (P s);
  co_dead : forall s, s ∈ free_slots c -> P s = None;
  co_live : forall s b, P s = Some b ->
    blen b <= o /\ slice (arena c) (Z.to_nat (s * o)) (length b) = Ok b
}.

Lemma off_small o P c s : class_ok o P c -> 0 < o <= 8192 -> 0 <= s <= 2 ^ 31 -> off c s = Z.to_nat (s * o).
Proof. intros H Ho Hs. unfold off. rewrite (co_obj _ _ _ H), wrap_u64_small; [done | unfold is_u64; nia]. Qed.

Lemma slice_resize b n pos len x :
  (length b <= n)%nat -> slice b pos len = Ok x -> slice (resize n b) pos len = Ok x.
Proof.
  intros Hn. unfold slice, resize. rewrite (take_ge b n) by lia. rewrite length_app, length_replicate.
  destruct (Nat.leb_spec (pos + len) (length b)) as [H |]; [| done]. intros [= <-].
  rewrite (proj2 (Nat.leb_le _ _)) by lia. f_equal.
  rewrite drop_app_le by lia. rewrite take_app_le by (rewrite length_drop; lia). done.
Qed.

Lemma grow_ok o P c :
  class_ok o P c -> 0 < o <= 8192 -> used c < 2 ^ 31 -> class_ok o P (grow c) /\ used (grow c) = used c /\ used c < cap (grow c)
  /\ free_slots (grow c) = free_slots c.
Proof.
  intros H Ho Hu. unfold grow. destruct (Z.eqb_spec (used c) (cap c)) as [E | E].
  2: { pose proof (co_used _ _ _ H). split_and!; try done. lia. }
  destruct H as [Hobj Hlen Hus Hcap Hmax Hnd Hsl Hd Hl].
  assert (0 <= cap c / 2 <= cap c) as Hhalf by (split; [apply Z.div_pos | apply Z.div_le_upper_bound]; lia).
  assert (cap c / 2 < 2 ^ 30) by (apply Z.div_lt_upper_bound; lia).
  rewrite !wrap_u32_small by (unfold is_u32; lia).
  assert (0 <= obj c * Z.max (cap c + cap c / 2) (cap c + 1) < 2 ^ 64) by (subst o; nia).
  rewrite wrap_u64_small by done. rewrite Hobj in *.
  split; [split; cbn [obj arena free_slots used cap set_arena]; try done |].
  - unfold resize. rewrite length_app, length_take, length_replicate, Hlen. nia.
  - lia.
  - lia.
  - intros s b Hs. destruct (Hl s b Hs) as [? Hb]. split; [done |]. apply slice_resize; [| done].
    rewrite Hlen. nia.
  - cbn. split_and!; [done | lia | done].
Qed.

Definition upd (P : Z -> option bytes) (s : Z) (v : option bytes) : Z -> option bytes :=
  fun t => if decide (t = s) then v else P t.

Lemma class_ok_ext o P Q c : (forall s, P s = Q s) -> class_ok o P c -> class_ok o Q c.
Proof.
  intros E [? ? ? ? ? ? Hs Hd Hl]. split; try done.
  - intros s. by rewrite <- E.
  - intros s. rewrite <- E. apply Hd.
  - intros s b. rewrite <- E. apply Hl.
Qed.

Lemma slice_nil b pos : (pos <= length b)%nat -> slice b pos 0 = Ok [].
Proof. intros H. unfold slice. rewrite Nat.add_0_r, (proj2 (Nat.leb_le _ _)) by done. done. Qed.

(** A fresh slot is live and empty. *)
Lemma alloc_ok o P c c' s :
  class_ok o P c -> 0 < o <= 8192 -> (free_slots c = [] -> used c < 2 ^ 31) -> alloc c = (c', s) ->
  P s = None /\ class_ok o (upd P s (Some [])) c'.
Proof.
  intros H Ho Hu. unfold alloc. destruct (free_slots c) as [| f fs] eqn:E.
  - specialize (Hu eq_refl). destruct (grow_ok o P c H Ho Hu) as (H' & Eu & Hlt & Ef). intros [= <- <-].
    set (g := grow c) in *. destruct H' as [Hobj Hlen Hus Hcap Hmax Hnd Hsl Hd Hl].
    rewrite E in Ef. rewrite Ef in *.
    assert (forall t, is_Some (P t) <-> 0 <= t < used g) as Hall.
    { intros t. rewrite Hsl. split; [by right | intros [[]%elem_of_nil | ?]; done]. }
    assert (P (used g) = None) as Hn.
    { destruct (P (used g)) eqn:Ep; [| done]. assert (is_Some (P (used g))) as Hs by eauto.
      apply Hall in Hs. lia. }
    split; [done |]. rewrite wrap_u32_small by (unfold is_u32; lia).
    split; cbn [obj arena free_slots used cap]; rewrite ?Ef; try done; try lia.
    + intros t. unfold upd. case_decide; [subst; split; [intros _; right; eauto | lia] |].
      rewrite Hall. split; [intros ?; right; lia | intros [[]%elem_of_nil | ?]; lia].
    + by intros t ?%elem_of_nil.
    + intros t b. unfold upd. case_decide; [| apply Hl]. intros [= <-]. subst t. split; [rewrite blen_nil; lia |].
      apply slice_nil. rewrite Hlen. nia.
  - intros [= <- <-]. destruct H as [Hobj Hlen Hus Hcap Hmax Hnd Hsl Hd Hl]. rewrite E in *.
    apply NoDup_cons in Hnd as [Hf Hnd]. assert (P f = None) as Hn by (apply Hd; by left). split; [done |].
    assert (0 <= f < used c) by (apply Hsl; left; by left).
    split; cbn [obj arena free_slots used cap set_arena]; try done.
    + intros t. rewrite Hsl, elem_of_cons. unfold upd. case_decide; [subst; split; [intros _; right; eauto | naive_solver] | naive_solver].
    + intros t Ht. unfold upd. case_decide; [by subst |]. apply Hd. by right.
    + intros t b. unfold upd. case_decide; [| apply Hl]. intros [= <-]. subst t. split; [rewrite blen_nil; lia |].
      apply slice_nil. rewrite Hlen. nia.
Qed.

(** Writing a live slot changes what it holds and nothing else. *)
Lemma store_ok o P c s x b :
  class_ok o P c -> 0 < o <= 8192 -> P s = Some x -> blen b <= o ->
  post (copy_at (arena c) (off c s) b) (fun buf => class_ok o (upd P s (Some b)) (set_arena c buf)).
Proof.
  intros H Ho Hs Hb. assert (0 <= s < used c) as Hr by (apply (co_slots _ _ _ H); right; by rewrite Hs).
  rewrite (off_small o P) by (done || (pose proof (co_max _ _ _ H); lia)).
  destruct H as [Hobj Hlen Hus Hcap Hmax Hnd Hsl Hd Hl]. unfold blen in *.
  assert (Z.to_nat (s * o) + length b <= length (arena c))%nat as Hfit by (rewrite Hlen; nia).
  destruct (copy_at (arena c) (Z.to_nat (s * o)) b) as [buf |] eqn:E; simpl.
  2: { unfold copy_at in E. rewrite (proj2 (Nat.leb_le _ _)) in E by done. done. }
  split; cbn [obj arena free_slots used cap set_arena]; try done.
  - by rewrite (copy_at_length _ _ _ _ E).
  - intros t. rewrite Hsl. unfold upd. case_decide; [subst; naive_solver | done].
  - intros t Ht. unfold upd. case_decide; [| by apply Hd]. subst. apply Hd in Ht. congruence.
  - intros t y. unfold upd. case_decide as Et.
    + intros [= <-]. subst t. split; [unfold blen; lia |]. by apply slice_copy_at in E.
    + intros Hy. destruct (Hl t y Hy) as [Hy1 Hy2]. unfold blen in Hy1. split; [unfold blen; lia |].
      erewrite slice_copy_at_disjoint; [done | exact E |].
      assert (0 <= t < used c) by (apply Hsl; right; by rewrite Hy).
      destruct (decide (t < s)); [left | right]; nia.
Qed.

(** Freeing a live slot. *)
Lemma free_ok o P c s x :
  class_ok o P c -> P s = Some x ->
  class_ok o (upd P s None) (mk_class (obj c) (arena c) (s :: free_slots c) (used c) (cap c)).
Proof.
  intros [Hobj Hlen Hus Hcap Hmax Hnd Hsl Hd Hl] Hs. split; cbn [obj arena free_slots used cap set_arena]; try done.
  - apply NoDup_cons. split; [| done]. intros Hi%Hd. congruence.
  - intros t. rewrite Hsl, elem_of_cons. unfold upd. case_decide; [subst; naive_solver | naive_solver].
  - intros t [-> | Ht]%elem_of_cons; unfold upd; case_decide; [done.. | by apply Hd].
  - intros t y. unfold upd. case_decide; [done |]. apply Hl.
Qed.

(** ** The slab refines a finite map from handles to blobs *)

Record slab_ok (L : gmap Handle bytes) (s : Slab) : Prop := {
  so_len : length (classes s) = length CLASSES;
  so_classes : forall ci c o, classes s !! ci = Some c -> CLASSES !! ci = Some o ->
    class_ok o (fun t => L !! mk_Handle (Z.of_nat ci) t) c;
  so_over : forall t b, L !! mk_Handle OVERFLOW t = Some b -> overflow s !! Z.to_nat t = Some b;
  so_omax : blen (overflow s) <= 2 ^ 31;
  so_ofree : NoDup (overflow_free s);
  so_oslots : forall t, 0 <= t < blen (overflow s) <-> t ∈ overflow_free s \/ is_Some (L !! mk_Handle OVERFLOW t);
  so_odead : forall t, t ∈ overflow_free s -> L !! mk_Handle OVERFLOW t = None;
  so_dom : forall h, is_Some (L !! h) -> class h = OVERFLOW \/ 0 <= class h < blen CLASSES
}.

Lemma class_size ci o : CLASSES !! ci = Some o -> 0 < o <= 8192.
Proof. intros H%list_elem_of_lookup_2. unfold CLASSES in H. set_solver by lia. Qed.

Lemma class_for_Some len ci : class_for len = Some ci -> exists o, CLASSES !! ci = Some o /\ len <= o.
Proof.
  unfold class_for. intros ([i o] & (H & Ho & _)%list_find_Some & ->)%fmap_Some. eauto.
Qed.

(** A class whose slots are all live has at most as many as there are blobs. *)
Lemma slots_le_size (L : gmap Handle bytes) c n :
  (forall t, 0 <= t < n -> is_Some (L !! mk_Handle c t)) -> n <= Z.of_nat (size L).
Proof.
  intros H. destruct (decide (0 <= n)) as [Hn |]; [| lia].
  set (hs := map (fun i => mk_Handle c (Z.of_nat i)) (seq 0 (Z.to_nat n))).
  assert (NoDup hs) as Hnd.
  { apply (NoDup_fmap_2_strong (fun i => mk_Handle c (Z.of_nat i))); [| apply NoDup_seq].
    intros x y _ _ [= E]. lia. }
  assert (list_to_set hs ⊆ dom L) as Hsub%subseteq_size.
  { intros h Hh. apply elem_of_list_to_set, list_elem_of_fmap in Hh as (i & -> & Hi%elem_of_seq).
    apply elem_of_dom, H. lia. }
  rewrite size_list_to_set, size_dom in Hsub by done. unfold hs in Hsub. rewrite length_map, length_seq in Hsub. lia.
Qed.

Lemma new_slab_ok : slab_ok ∅ new_slab.
Proof.
  split; cbn [classes overflow overflow_free new_slab]; try done.
  - intros ci c o Hc Ho. unfold new_slab in Hc. cbn [classes] in Hc.
    rewrite list_lookup_fmap, Ho in Hc. injection Hc as <-. pose proof (class_size ci o Ho).
    split; cbn [obj arena free_slots used cap new_class]; try done; try lia.
    + by rewrite length_replicate.
    + constructor.
    + intros t. rewrite lookup_empty. split; [lia | intros [[]%elem_of_nil | [? ?]]; done].
  - constructor.
  - intros t. rewrite lookup_empty. change (blen (@nil bytes)) with 0. split; [lia | intros [[]%elem_of_nil | [? ?]]; done].
  - intros h [? Hh]. by rewrite lookup_empty in Hh.
Qed.

Lemma slab_get_ok L s h b len :
  slab_ok L s -> L !! h = Some b -> (len <= length b)%nat -> slab_get s h len = Ok (take len b).
Proof.
  intros H Hb Hlen. unfold slab_get. destruct h as [cl t]. cbn [class slot].
  destruct (Z.eqb_spec cl OVERFLOW) as [-> | Hne].
  - unfold index. rewrite (so_over _ _ H t b Hb). cbn [mbind outcome_bind]. unfold slice.
    rewrite (proj2 (Nat.leb_le _ _)) by lia. by rewrite drop_0.
  - destruct (so_dom _ _ H (mk_Handle cl t)) as [? | Hcl]; [by eauto | done |]. cbn [class] in Hcl.
    destruct (lookup_lt_is_Some_2 CLASSES (Z.to_nat cl)) as [o Ho]; [unfold blen in Hcl; lia |].
    destruct (lookup_lt_is_Some_2 (classes s) (Z.to_nat cl)) as [c Hc]; [rewrite (so_len _ _ H); unfold blen in Hcl; lia |].
    unfold index. rewrite Hc. cbn [mbind outcome_bind].
    pose proof (so_classes _ _ H _ _ _ Hc Ho) as Hok. rewrite Z2Nat.id in Hok by lia.
    destruct (co_live _ _ _ Hok t b Hb) as [_ Hs].
    assert (0 <= t < used c) as Ht by (apply (co_slots _ _ _ Hok); right; rewrite Hb; eauto).
    rewrite (off_small _ _ _ _ Hok (class_size _ _ Ho)) by (pose proof (co_max _ _ _ Hok); lia).
    unfold slice in *. destruct (Nat.leb_spec (Z.to_nat (t * o) + length b) (length (arena c))); [| done].
    injection Hs as Hs. rewrite (proj2 (Nat.leb_le _ _)) by lia. rewrite <- Hs, take_take. do 2 f_equal. lia.
Qed.

(** Replacing one class: the others and the overflow list are untouched. *)
Lemma set_class_ok L L' s ci c' o :
  slab_ok L s -> CLASSES !! ci = Some o ->
  (forall h, class h <> Z.of_nat ci -> L' !! h = L !! h) ->
  class_ok o (fun t => L' !! mk_Handle (Z.of_nat ci) t) c' ->
  slab_ok L' (mk_slab (<[ci := c']> (classes s)) (overflow s) (overflow_free s)).
Proof.
  intros [Hlen Hcl Hov Hom Hof Hos Hod Hdom] Ho Hsame Hok.
  assert (ci < length CLASSES)%nat as Hci by (by apply lookup_lt_Some in Ho).
  assert (Z.of_nat ci <> OVERFLOW) as Hne by (unfold OVERFLOW, CLASSES in *; simpl in Hci; lia).
  assert (forall t, L' !! mk_Handle OVERFLOW t = L !! mk_Handle OVERFLOW t) as Hsame'
    by (intros t; apply Hsame; cbn [class]; congruence).
  split; cbn [classes overflow overflow_free]; try done.
  - by rewrite length_insert.
  - intros cj c oj Hc Hoj. destruct (decide (cj = ci)) as [-> | Hn].
    + rewrite list_lookup_insert_eq in Hc by (rewrite Hlen; done). simplify_eq. done.
    + rewrite list_lookup_insert_ne in Hc by done. eapply class_ok_ext; [| by eapply Hcl].
      intros t. cbn beta. symmetry. apply Hsame. cbn [class]. lia.
  - intros t b. rewrite Hsame'. apply Hov.
  - intros t. rewrite Hsame'. apply Hos.
  - intros t. rewrite Hsame'. apply Hod.
  - intros h Hh. destruct (decide (class h = Z.of_nat ci)) as [E | E]; [right; rewrite E; unfold blen; lia |].
    rewrite Hsame in Hh by done. by apply Hdom.
Qed.

Lemma lookup_upd (L : gmap Handle bytes) c s v t :
  <[mk_Handle c s := v]> L !! mk_Handle c t = upd (fun t => L !! mk_Handle c t) s (Some v) t.
Proof.
  unfold upd. case_decide; [subst; by rewrite lookup_insert_eq |].
  rewrite lookup_insert_ne; [done | congruence].
Qed.

Lemma put_class_ok L s ci o a :
  slab_ok L s -> Z.of_nat (size L) < 2 ^ 31 -> CLASSES !! ci = Some o -> blen a <= o ->
  post (c ← index (classes s) ci;
        let '(c, sl) := alloc c in
        buf ← copy_at (arena c) (off c sl) a;
        cs ← set_index (classes s) ci (set_arena c buf);
        Ok (mk_slab cs (overflow s) (overflow_free s), mk_Handle (Z.of_nat ci) sl))
    (fun '(s', h) => L !! h = None /\ slab_ok (<[h := a]> L) s').
Proof.
  intros H Hsz Ho Ha. assert (ci < length (classes s))%nat as Hci.
  { rewrite (so_len _ _ H). by apply lookup_lt_Some in Ho. }
  eapply post_bind; [by apply post_index |]. intros c Hc.
  pose proof (so_classes _ _ H _ _ _ Hc Ho) as Hok. pose proof (class_size _ _ Ho) as Hsize.
  destruct (alloc c) as [c' sl] eqn:E. apply (alloc_ok _ _ _ _ _ Hok) in E as [Hn Hok']; [| done |].
  2: { intros Ef. enough (used c <= Z.of_nat (size L)) by lia. apply (slots_le_size L (Z.of_nat ci)).
       intros t Ht. apply (co_slots _ _ _ Hok) in Ht as [Ht | Ht]; [| done]. rewrite Ef in Ht. by apply elem_of_nil in Ht. }
  eapply post_bind.
  { eapply (store_ok o _ c' sl [] a Hok'); [done | | done]. unfold upd. by rewrite decide_True. }
  intros buf Hbuf. eapply post_bind; [by apply post_set_index |]. intros cs ->. cbn [post].
  split; [done |]. eapply set_class_ok; [done | done | |].
  - intros h Hh. rewrite lookup_insert_ne; [done |]. intros <-. by apply Hh.
  - eapply class_ok_ext, Hbuf. intros t. rewrite lookup_upd. unfold upd. by case_decide.
Qed.

(** Replacing the overflow list and its free stack. *)
Lemma set_overflow_ok L L' s ov fs :
  slab_ok L s -> (forall h, class h <> OVERFLOW -> L' !! h = L !! h) ->
  blen ov <= 2 ^ 31 -> NoDup fs ->
  (forall t b, L' !! mk_Handle OVERFLOW t = Some b -> ov !! Z.to_nat t = Some b) ->
  (forall t, 0 <= t < blen ov <-> t ∈ fs \/ is_Some (L' !! mk_Handle OVERFLOW t)) ->
  (forall t, t ∈ fs -> L' !! mk_Handle OVERFLOW t = None) ->
  slab_ok L' (mk_slab (classes s) ov fs).
Proof.
  intros [Hlen Hcl Hov Hom Hof Hos Hod Hdom] Hsame Hm Hnd H1 H2 H3. split; try done.
  - intros ci c o Hc Ho. eapply class_ok_ext; [| by eapply Hcl]. intros t. cbn beta. symmetry. apply Hsame.
    apply lookup_lt_Some in Ho. unfold OVERFLOW, CLASSES in *. cbn [class length] in *. lia.
  - intros h Hh. destruct (decide (class h = OVERFLOW)) as [E | E]; [by left |].
    rewrite Hsame in Hh by done. by apply Hdom.
Qed.

(** Allocation: a handle that was not in use, now holding the two parts; every other blob is
    unchanged. *)
Lemma put_two_ok L s a b :
  slab_ok L s -> Z.of_nat (size L) < 2 ^ 31 ->
  post (put_two a b s) (fun '(s', h) => L !! h = None /\ slab_ok (<[h := a ++ b]> L) s').
Proof.
  intros H Hsz. unfold put_two. destruct (class_for (blen a + blen b)) as [ci |] eqn:E.
  { apply class_for_Some in E as (o & Ho & Hle). apply (put_class_ok L s ci o (a ++ b)); try done. by rewrite blen_app. }
  pose proof H as [_ _ Hov Hom Hof Hos Hod _].
  destruct (overflow_free s) as [| f fs] eqn:Ef.
  - assert (blen (overflow s) < 2 ^ 31) as Hlt.
    { enough (blen (overflow s) <= Z.of_nat (size L)) by lia. apply (slots_le_size L OVERFLOW). intros t Ht.
      apply Hos in Ht as [[]%elem_of_nil | ?]; done. }
    pose proof (blen_nonneg (overflow s)). rewrite wrap_u32_small by (unfold is_u32; lia).
    assert (L !! mk_Handle OVERFLOW (blen (overflow s)) = None) as Hn.
    { destruct (L !! _) eqn:El; [| done]. assert (0 <= blen (overflow s) < blen (overflow s)) as ?; [| lia].
      apply Hos. right. by rewrite El. }
    cbn [post]. split; [done |]. apply (set_overflow_ok L); try done.
    + intros h Hh. rewrite lookup_insert_ne; [done |]. intros <-. by apply Hh.
    + rewrite blen_app. change (blen [a ++ b]) with 1. lia.
    + intros t x. rewrite lookup_upd. unfold upd. case_decide.
      * intros [= <-]. subst t. rewrite lookup_app_r by (unfold blen; lia).
        replace (Z.to_nat (blen (overflow s)) - length (overflow s))%nat with 0%nat by (unfold blen; lia). done.
      * intros Hx%Hov. by apply lookup_app_l_Some.
    + intros t. rewrite blen_app, lookup_upd. change (blen [a ++ b]) with 1. unfold upd. case_decide.
      * subst t. split; [intros _; right; eauto | lia].
      * split; [intros Ht; apply Hos; lia | intros Ht%Hos; lia].
    + intros t Ht. by apply elem_of_nil in Ht.
  - apply NoDup_cons in Hof as [Hnf Hnd].
    assert (L !! mk_Handle OVERFLOW f = None) as Hn by (apply Hod; by left).
    assert (0 <= f < blen (overflow s)) as Hf by (apply Hos; left; by left).
    eapply post_bind; [apply post_set_index; unfold blen in Hf; lia |]. intros ov ->. cbn [post].
    assert (blen (<[Z.to_nat f := a ++ b]> (overflow s)) = blen (overflow s)) as Hbl by (unfold blen; by rewrite length_insert).
    split; [done |]. apply (set_overflow_ok L); rewrite ?Hbl; try done.
    + intros h Hh. rewrite lookup_insert_ne; [done |]. intros <-. by apply Hh.
    + intros t x. rewrite lookup_upd. unfold upd. case_decide as Et.
      * intros [= <-]. subst t. apply list_lookup_insert_eq. unfold blen in Hf. lia.
      * intros Hx. assert (0 <= t < blen (overflow s)) by (apply Hos; right; eauto).
        rewrite list_lookup_insert_ne by lia. by apply Hov.
    + intros t. rewrite Hos, lookup_upd, elem_of_cons. unfold upd. case_decide; [| naive_solver].
      subst. split; [intros _; right; eauto | naive_solver].
    + intros t Ht. rewrite lookup_upd. unfold upd. case_decide; [by subst |]. apply Hod. by right.
Qed.

Lemma lookup_upd_delete (L : gmap Handle bytes) c s t :
  delete (mk_Handle c s) L !! mk_Handle c t = upd (fun t => L !! mk_Handle c t) s None t.
Proof.
  unfold upd. case_decide; [subst; by rewrite lookup_delete_eq |].
  rewrite lookup_delete_ne; [done | congruence].
Qed.

(** Freeing a live handle forgets its blob and nothing else. *)
Lemma slab_free_ok L s h b :
  slab_ok L s -> L !! h = Some b -> post (slab_free s h) (slab_ok (delete h L)).
Proof.
  intros H Hb. unfold slab_free. destruct h as [cl t0]. cbn [class slot].
  destruct (Z.eqb_spec cl OVERFLOW) as [-> | Hne].
  - pose proof H as [_ _ Hov Hom Hof Hos Hod _].
    assert (0 <= t0 < blen (overflow s)) as Ht0 by (apply Hos; right; eauto).
    eapply post_bind; [apply post_set_index; unfold blen in Ht0; lia |]. intros ov ->. cbn [post].
    assert (blen (<[Z.to_nat t0 := []]> (overflow s)) = blen (overflow s)) as Hbl by (unfold blen; by rewrite length_insert).
    apply (set_overflow_ok L); rewrite ?Hbl; try done.
    + intros h Hh. rewrite lookup_delete_ne; [done |]. intros <-. by apply Hh.
    + apply NoDup_cons. split; [| done]. intros Hi%Hod. congruence.
    + intros t x. rewrite lookup_upd_delete. unfold upd. case_decide; [done |]. intros Hx.
      assert (0 <= t < blen (overflow s)) by (apply Hos; right; eauto).
      rewrite list_lookup_insert_ne by lia. by apply Hov.
    + intros t. rewrite Hos, lookup_upd_delete, elem_of_cons. unfold upd. case_decide; [subst; naive_solver | naive_solver].
    + intros t [-> | Ht]%elem_of_cons; rewrite lookup_upd_delete; unfold upd; case_decide; [done.. | by apply Hod].
  - destruct (so_dom _ _ H (mk_Handle cl t0)) as [? | Hcl]; [by eauto | done |]. cbn [class] in Hcl.
    destruct (lookup_lt_is_Some_2 CLASSES (Z.to_nat cl)) as [o Ho]; [unfold blen in Hcl; lia |].
    assert (Z.to_nat cl < length (classes s))%nat as Hlt by (rewrite (so_len _ _ H); unfold blen in Hcl; lia).
    eapply post_bind; [by apply post_index |]. intros c Hc.
    eapply post_bind; [by apply post_set_index |]. intros cs ->. cbn [post].
    pose proof (so_classes _ _ H _ _ _ Hc Ho) as Hok.
    assert (Z.of_nat (Z.to_nat cl) = cl) as Ecl by lia.
    eapply set_class_ok; [done | done | |]; rewrite Ecl in *.
    + intros h Hh. rewrite lookup_delete_ne; [done |]. intros <-. by apply Hh.
    + eapply class_ok_ext; [intros t; symmetry; apply lookup_upd_delete |]. by eapply free_ok.
Qed.

(** ** Runs *)

Inductive slab_op := OpPut (a b : bytes) | OpFree (h : Handle).

(** Runs an operation against the slab and against a finite map; freeing is for handles in use. *)
Definition slab_step (st : Slab * gmap Handle bytes) (op : slab_op) : outcome (Slab * gmap Handle bytes) :=
  match op with
  | OpPut a b => '(s, h) ← put_two a b st.1; Ok (s, <[h := a ++ b]> st.2)
  | OpFree h => match st.2 !! h with
                | Some _ => s ← slab_free st.1 h; Ok (s, delete h st.2)
                | None => Ok st
                end
  end.

Fixpoint slab_run (st : Slab * gmap Handle bytes) (ops : list slab_op) : outcome (Slab * gmap Handle bytes) :=
  match ops with
  | [] => Ok st
  | op :: ops => st ← slab_step st op; slab_run st ops
  end.

Lemma slab_run_ok ops s L :
  slab_ok L s -> Z.of_nat (size L + length ops) <= 2 ^ 31 ->
  post (slab_run (s, L) ops) (fun '(s', L') => slab_ok L' s' /\ (size L' <= size L + length ops)%nat).
Proof.
  revert s L. induction ops as [| op ops IH]; intros s L H Hsz; [cbn; split; [done | lia] |].
  cbn [slab_run length] in *. destruct op as [a b | h]; cbn [slab_step fst snd].
  - eapply post_bind.
    { eapply post_bind; [apply put_two_ok; [done | lia] |]. intros [s' h] [Hn H'].
      instantiate (1 := fun '(s', L') => slab_ok L' s' /\ (size L' <= S (size L))%nat). cbn [post]. split; [done |].
      by rewrite map_size_insert_None. }
    intros [s' L'] [H' Hs]. eapply post_mono; [apply IH; [done | lia] |].
    intros [s'' L''] [? ?]. split; [done | lia].
  - destruct (L !! h) as [b |] eqn:E; 
      [| cbn [mbind outcome_bind]; eapply post_mono; [apply IH; [done | lia] |]; intros [s'' L''] [? ?]; split; [done | lia]].
    eapply post_bind.
    { eapply post_bind; [by eapply slab_free_ok |]. intros s' H'.
      instantiate (1 := fun '(s', L') => slab_ok L' s' /\ (size L' <= size L)%nat). cbn [post]. split; [done |].
      rewrite map_size_delete, E. simpl. lia. }
    intros [s' L'] [H' Hs]. eapply post_mono; [apply IH; [done | lia] |].
    intros [s'' L''] [? ?]. split; [done | lia].
Qed.

(** The slab keeps its blobs apart: after any allocations and frees, none of which panics, every
    handle in use reads back exactly the bytes stored under it (any prefix of them), and the next
    allocation returns a handle that is not in use.  Slots and arenas are reused and grown, but no
    write reaches another blob.  The [u32] slot numbers bound the run to 2^31 operations. *)
Theorem slab_keeps_blobs ops :
  Z.of_nat (length ops) < 2 ^ 31 ->
  exists s L, slab_run (new_slab, ∅) ops = Ok (s, L)
    /\ (forall h b len, L !! h = Some b -> (len <= length b)%nat -> slab_get s h len = Ok (take len b))
    /\ (forall a b, exists s' h, put_two a b s = Ok (s', h) /\ L !! h = None).
Proof.
  intros Hsz. pose proof (slab_run_ok ops new_slab ∅ new_slab_ok) as Hp. rewrite map_size_empty in Hp.
  specialize (Hp ltac:(lia)). apply post_Ok in Hp as ([s L] & -> & H & Hsize). exists s, L. split; [done |]. split.
  - intros h b len. by apply slab_get_ok.
  - intros a b. pose proof (put_two_ok L s a b H ltac:(lia)) as Hput.
    apply post_Ok in Hput as ([s' h] & -> & Hn & _). eauto.
Qed.

Lemma slab_keeps_blobs_witness :
  exists s L, slab_run (new_slab, ∅) [OpPut (bstr "key") (bstr "value"); OpFree (mk_Handle 0 0); OpPut (bstr "k") (bstr "v")] = Ok (s, L)
    /\ forall a b, exists s' h, put_two a b s = Ok (s', h) /\ L !! h = None.
Proof.
  destruct (slab_keeps_blobs [OpPut (bstr "key") (bstr "value"); OpFree (mk_Handle 0 0); OpPut (bstr "k") (bstr "v")])
    as (s & L & Hr & _ & Hn); [simpl; lia |]. exists s, L. split; [exact Hr | exact Hn].
Defined.
