(* ===== verification/FieldValue.v ===== *)
(** * Field values (FieldValue of crates/serialization/src/compact.rs)

    The scalars a query sees.  An [f64] is its 64-bit pattern.  There are three relations on
    values: the derived [==], the total order [cmp] that keys the sorted indexes, and the partial
    [compare] that evaluates predicates. *)

From S2P Require Import Prelude.

Inductive FieldValue :=
| Null
| VBool (b : bool)
| I32 (z : Z)
| I64 (z : Z)
| F64 (bits : Z)
| VStr (s : bytes).

#[export] Instance FieldValue_eq_dec : EqDecision FieldValue.
Proof. solve_decision. Defined.

(** [str::cmp]: byte-wise, a prefix first. *)
Fixpoint bytes_cmp (a b : bytes) : comparison :=
  match a, b with
  | [], [] => Eq
  | [], _ :: _ => Lt
  | _ :: _, [] => Gt
  | x :: a', y :: b' => match Z.compare (u8 x) (u8 y) with Eq => bytes_cmp a' b' | c => c end
  end.

Definition bool_cmp (a b : bool) : comparison :=
  match a, b with false, true => Lt | true, false => Gt | _, _ => Eq end.

(** ** Doubles *)

Definition is_nan (bits : Z) : bool := 0x7FF0000000000000 <? bits mod 2 ^ 63.

(** The order of [f64::total_cmp]: the pattern as an [i64] with the magnitude bits of a negative
    number flipped. *)
Definition total_key (bits : Z) : Z := if bits <? 2 ^ 63 then bits else 2 ^ 63 - 1 - bits.

(** The order of [f64::partial_cmp] on numbers: sign and magnitude, both zeros equal. *)
Definition real_key (bits : Z) : Z := if bits <? 2 ^ 63 then bits else 2 ^ 63 - bits.

Definition f64_partial_cmp (a b : Z) : option comparison :=
  if is_nan a || is_nan b then None else Some (Z.compare (real_key a) (real_key b)).

(** ** The three relations *)

(** [#[derive(PartialEq)]] *)
Definition eqb (a b : FieldValue) : bool :=
  match a, b with
  | Null, Null => true
  | VBool x, VBool y => Bool.eqb x y
  | I32 x, I32 y | I64 x, I64 y => x =? y
  | F64 x, F64 y => match f64_partial_cmp x y with Some Eq => true | _ => false end
  | VStr x, VStr y => bool_decide (x = y)
  | _, _ => false
  end.

(** [Ord::cmp] *)
Definition cmp (a b : FieldValue) : comparison :=
  match a, b with
  | Null, Null => Eq
  | Null, _ => Lt
  | _, Null => Gt
  | VBool x, VBool y => bool_cmp x y
  | VBool _, _ => Lt
  | _, VBool _ => Gt
  | I32 x, I32 y | I64 x, I64 y | I32 x, I64 y | I64 x, I32 y => Z.compare x y
  | I32 _, _ | I64 _, _ => Lt
  | _, I32 _ | _, I64 _ => Gt
  | F64 x, F64 y => Z.compare (total_key x) (total_key y)
  | F64 _, _ => Lt
  | _, F64 _ => Gt
  | VStr x, VStr y => bytes_cmp x y
  end.

(** [FieldValue::compare] *)
Definition compare (a b : FieldValue) : option comparison :=
  match a, b with
  | I32 x, I32 y | I64 x, I64 y | I32 x, I64 y | I64 x, I32 y => Some (Z.compare x y)
  | F64 x, F64 y => f64_partial_cmp x y
  | VStr x, VStr y => Some (bytes_cmp x y)
  | VBool x, VBool y => Some (bool_cmp x y)
  | _, _ => None
  end.

(** [FieldValue::equals] *)
Definition equals (a b : FieldValue) : bool :=
  match compare a b with Some Eq => true | _ => false end.

(** What the [Hash] instance distinguishes: the variant and the bits. *)
Definition hash_same (a b : FieldValue) : bool :=
  match a, b with
  | F64 x, F64 y => x =? y
  | _, _ => bool_decide (a = b)
  end.

(** ** The order *)

Lemma bytes_cmp_refl a : bytes_cmp a a = Eq.
Proof. induction a as [| x a IH]; [done |]. simpl. by rewrite Z.compare_refl. Qed.

Lemma u8_inj x y : u8 x = u8 y -> x = y.
Proof. intros H. by rewrite <- (b8_u8 x), H, b8_u8. Qed.

Lemma bytes_cmp_eq a b : bytes_cmp a b = Eq -> a = b.
Proof.
  revert b. induction a as [| x a IH]; intros [| y b]; simpl; try done.
  destruct (Z.compare_spec (u8 x) (u8 y)) as [H | |]; [| done..]. intros Hc.
  apply u8_inj in H. by rewrite H, (IH b).
Qed.

Lemma bytes_cmp_antisym a b : bytes_cmp b a = CompOpp (bytes_cmp a b).
Proof.
  revert b. induction a as [| x a IH]; intros [| y b]; simpl; try done.
  rewrite (Z.compare_antisym (u8 x) (u8 y)). destruct (u8 x ?= u8 y); simpl; [apply IH | done..].
Qed.

Lemma bytes_cmp_lt_trans a b c : bytes_cmp a b = Lt -> bytes_cmp b c = Lt -> bytes_cmp a c = Lt.
Proof.
  revert b c. induction a as [| x a IH]; intros [| y b] [| z c]; simpl; try done.
  destruct (Z.compare_spec (u8 x) (u8 y)), (Z.compare_spec (u8 y) (u8 z)); try done; intros H1 H2.
  - rewrite (proj2 (Z.compare_eq_iff _ _)) by lia. eauto.
  - rewrite (proj2 (Z.compare_lt_iff _ _)) by lia. done.
  - rewrite (proj2 (Z.compare_lt_iff _ _)) by lia. done.
  - rewrite (proj2 (Z.compare_lt_iff _ _)) by lia. done.
Qed.

Lemma cmp_antisym a b : cmp b a = CompOpp (cmp a b).
Proof.
  destruct a as [| [] | | | |], b as [| [] | | | |]; simpl; try done;
    first [apply Z.compare_antisym | apply bytes_cmp_antisym].
Qed.

Lemma cmp_refl a : cmp a a = Eq.
Proof. destruct a as [| [] | | | |]; simpl; first [done | apply Z.compare_refl | apply bytes_cmp_refl]. Qed.

(** [cmp] looks at a value only up to this key, and is the order of the keys. *)
Definition cmp_key (v : FieldValue) : Z * Z * bytes :=
  match v with
  | Null => (0, 0, [])
  | VBool b => (1, if b then 1 else 0, [])
  | I32 z | I64 z => (2, z, [])
  | F64 bits => (3, total_key bits, [])
  | VStr s => (4, 0, s)
  end.

Definition key_cmp (a b : Z * Z * bytes) : comparison :=
  match Z.compare a.1.1 b.1.1 with
  | Eq => match Z.compare a.1.2 b.1.2 with Eq => bytes_cmp a.2 b.2 | c => c end
  | c => c
  end.

Lemma cmp_key_cmp a b : cmp a b = key_cmp (cmp_key a) (cmp_key b).
Proof.
  destruct a as [| [] | | | |], b as [| [] | | | |]; unfold key_cmp; simpl; try done;
    by match goal with |- context [Z.compare ?x ?y] => destruct (Z.compare x y) end.
Qed.

Lemma key_cmp_eq a b : key_cmp a b = Eq -> a = b.
Proof.
  destruct a as [[a1 a2] a3], b as [[b1 b2] b3]. unfold key_cmp. simpl.
  destruct (Z.compare_spec a1 b1); [| done..]. destruct (Z.compare_spec a2 b2); [| done..].
  intros ?%bytes_cmp_eq. by subst.
Qed.

Lemma cmp_eq_l a b c : cmp a b = Eq -> cmp a c = cmp b c.
Proof. rewrite !cmp_key_cmp. by intros ->%key_cmp_eq. Qed.

Lemma cmp_eq_sym a b : cmp a b = Eq -> cmp b a = Eq.
Proof. intros H. by rewrite cmp_antisym, H. Qed.

Lemma cmp_lt_trans a b c : cmp a b = Lt -> cmp b c = Lt -> cmp a c = Lt.
Proof.
  rewrite !cmp_key_cmp. destruct (cmp_key a) as [[a1 a2] a3], (cmp_key b) as [[b1 b2] b3], (cmp_key c) as [[c1 c2] c3].
  unfold key_cmp. simpl.
  destruct (Z.compare_spec a1 b1), (Z.compare_spec b1 c1); try done; subst;
    try (intros; by rewrite (proj2 (Z.compare_lt_iff _ _)) by lia).
  rewrite Z.compare_refl.
  destruct (Z.compare_spec a2 b2), (Z.compare_spec b2 c2); try done; subst;
    try (intros; by rewrite (proj2 (Z.compare_lt_iff _ _)) by lia).
  rewrite Z.compare_refl. apply bytes_cmp_lt_trans.
Qed.

Definition is_f64 (v : FieldValue) : bool := match v with F64 _ => true | _ => false end.

(** Where predicates can compare two values that are not doubles, the index orders them alike. *)
Lemma compare_cmp a b c : is_f64 a = false -> compare a b = Some c -> cmp a b = c.
Proof. destruct a, b; simpl; congruence. Qed.
