(* ===== verification/QueryIndex.v ===== *)
(** * Secondary indexes and predicates (crates/query/src/index.rs, eval.rs)

    An index maps field values to the keys of the entries that have them.  A [BTreeMap] is a list
    ascending in [cmp]; a [HashMap] is a list without order, whose keys are the same when they are
    [==] and hash alike. *)

From S2P Require Import Prelude FieldValue.

Inductive Op := OEq | ONotEq | OLt | OLe | OGt | OGe.

Inductive Predicate :=
| Compare (field : bytes) (op : Op) (value : FieldValue)
| PAnd (children : list Predicate)
| POr (children : list Predicate)
| PNot (inner : Predicate)
| Between (field : bytes) (from to : FieldValue)
| PIn (field : bytes) (values : list FieldValue)
| Like (field expr : bytes)
| ILike (field expr : bytes)
| Regex (field regex : bytes)
| PTrue
| PFalse
| Sql (text : bytes)
| Paging (inner : option Predicate) (page page_size : Z) (iteration_type : bytes)
| Partition (partition_id : Z) (target : Predicate)
| MatchNone.

(** ** Indexes *)

Inductive IndexType := TSorted | THash | TBitmap.

Definition index_type_of_i32 (v : Z) : IndexType :=
  match v with 0 => TSorted | 1 => THash | 2 => TBitmap | _ => TSorted end.

Record IndexConfig := mk_config { ix_name : option bytes; ix_ty : IndexType; ix_attributes : list bytes }.

Abbreviation buckets := (list (FieldValue * gset bytes)).

Inductive Index := Sorted (m : buckets) | Hash (m : buckets).

Definition new_index (ty : IndexType) : Index :=
  match ty with TSorted => Sorted [] | THash | TBitmap => Hash [] end.

(** Key equality of the two maps. *)
Definition cmp_same (a b : FieldValue) : bool := match cmp a b with Eq => true | _ => false end.
Definition hash_eq (a b : FieldValue) : bool := eqb a b && hash_same a b.

Fixpoint sorted_insert (val : FieldValue) (key : bytes) (m : buckets) : buckets :=
  match m with
  | [] => [(val, {[key]})]
  | (k, s) :: m' =>
    match cmp val k with
    | Eq => (k, {[key]} ∪ s) :: m'
    | Lt => (val, {[key]}) :: m
    | Gt => (k, s) :: sorted_insert val key m'
    end
  end.

Fixpoint hash_insert (val : FieldValue) (key : bytes) (m : buckets) : buckets :=
  match m with
  | [] => [(val, {[key]})]
  | (k, s) :: m' => if hash_eq val k then (k, {[key]} ∪ s) :: m' else (k, s) :: hash_insert val key m'
  end.

Definition index_insert (val : FieldValue) (key : bytes) (ix : Index) : Index :=
  match ix with
  | Sorted m => Sorted (sorted_insert val key m)
  | Hash m => Hash (hash_insert val key m)
  end.

(** Removes the key from the value's set, and the set when it becomes empty. *)
Fixpoint bucket_remove (same : FieldValue -> FieldValue -> bool) (val : FieldValue) (key : bytes) (m : buckets) : buckets :=
  match m with
  | [] => []
  | (k, s) :: m' =>
    if same val k then
      if decide (s ∖ {[key]} = ∅) then m' else (k, s ∖ {[key]}) :: m'
    else (k, s) :: bucket_remove same val key m'
  end.

Definition index_remove (val : FieldValue) (key : bytes) (ix : Index) : Index :=
  match ix with
  | Sorted m => Sorted (bucket_remove cmp_same val key m)
  | Hash m => Hash (bucket_remove hash_eq val key m)
  end.

(** The keys of the buckets whose value satisfies [p]. *)
Definition collect (p : FieldValue -> bool) (m : buckets) : gset bytes :=
  ⋃ (filter (fun b => p b.1 = true) m).*2.

Definition is_lt (c : comparison) : bool := match c with Lt => true | _ => false end.
Definition is_le (c : comparison) : bool := match c with Gt => false | _ => true end.

Definition get_bucket (same : FieldValue -> FieldValue -> bool) (val : FieldValue) (m : buckets) : gset bytes :=
  match list_find (fun b => same val b.1 = true) m with Some (_, (_, s)) => s | None => ∅ end.

Definition index_query (op : Op) (val : FieldValue) (ix : Index) : gset bytes :=
  match ix with
  | Sorted m =>
    match op with
    | OEq => get_bucket cmp_same val m
    | ONotEq => collect (fun k => negb (eqb k val)) m
    | OLt => collect (fun k => is_lt (cmp k val)) m
    | OLe => collect (fun k => is_le (cmp k val)) m
    | OGt => collect (fun k => is_lt (cmp val k)) m
    | OGe => collect (fun k => is_le (cmp val k)) m
    end
  | Hash m =>
    match op with
    | OEq => get_bucket hash_eq val m
    | ONotEq => collect (fun k => negb (eqb k val)) m
    | _ => ∅
    end
  end.

(** [BTreeMap::range(from..=to)] panics when [from > to]. *)
Definition query_between (from to : FieldValue) (ix : Index) : outcome (gset bytes) :=
  match ix with
  | Sorted m =>
    if is_lt (cmp to from) then Panic
    else Ok (collect (fun k => is_le (cmp from k) && is_le (cmp k to)) m)
  | Hash _ => Ok ∅
  end.

(** The planner: the keys an index resolves the predicate to, or [None] if no index applies. *)
Fixpoint plan_and_resolve (predicate : Predicate) (indexes : gmap bytes Index) : outcome (option (gset bytes)) :=
  match predicate with
  | Compare field op value =>
    match indexes !! field with
    | Some ix =>
      match op, ix with
      | (OEq | ONotEq), _ | _, Sorted _ => Ok (Some (index_query op value ix))
      | _, Hash _ => Ok None
      end
    | None => Ok None
    end
  | Between field from to =>
    match indexes !! field with
    | Some (Sorted m) => ks ← query_between from to (Sorted m); Ok (Some ks)
    | _ => Ok None
    end
  | PIn field values =>
    match indexes !! field with
    | Some ix => Ok (Some (foldl (fun out v => out ∪ index_query OEq v ix) ∅ values))
    | None => Ok None
    end
  | PAnd preds =>
    (fix first (preds : list Predicate) : outcome (option (gset bytes)) :=
      match preds with
      | [] => Ok None
      | pred :: preds' =>
        r ← plan_and_resolve pred indexes;
        match r with Some keys => Ok (Some keys) | None => first preds' end
      end) preds
  | _ => Ok None
  end.

(** ** Evaluation *)

Inductive TextKind := KLike | KILike | KRegex.

Section Eval.
(** [extract] is the field extractor; [text_match] is the regex crate, applied to the pattern's
    kind, the pattern and the string. *)
Context (extract : bytes -> bytes -> FieldValue) (text_match : TextKind -> bytes -> bytes -> bool).

Definition compare_op (op : Op) (c : comparison) : bool :=
  match op with
  | OEq => match c with Eq => true | _ => false end
  | ONotEq => match c with Eq => false | _ => true end
  | OLt => match c with Lt => true | _ => false end
  | OLe => match c with Gt => false | _ => true end
  | OGt => match c with Gt => true | _ => false end
  | OGe => match c with Lt => false | _ => true end
  end.

Definition match_text (kind : TextKind) (value field pattern : bytes) : bool :=
  match extract value field with VStr s => text_match kind pattern s | _ => false end.

Fixpoint eval (predicate : Predicate) (value : bytes) : bool :=
  match predicate with
  | Compare field op pv =>
    match compare (extract value field) pv with Some c => compare_op op c | None => false end
  | PAnd children => forallb (fun c => eval c value) children
  | POr children => existsb (fun c => eval c value) children
  | PNot inner => negb (eval inner value)
  | Between field from to =>
    let fv := extract value field in
    match compare fv from, compare fv to with
    | Some c, Some c' => compare_op OGe c && compare_op OLe c'
    | _, _ => false
    end
  | PIn field values => existsb (fun v => equals (extract value field) v) values
  | Like field expr => match_text KLike value field expr
  | ILike field expr => match_text KILike value field expr
  | Regex field regex => match_text KRegex value field regex
  | PTrue => true
  | PFalse | Sql _ | MatchNone => false
  | Paging inner _ _ _ => match inner with Some p => eval p value | None => true end
  | Partition _ target => eval target value
  end.
End Eval.

(** ** What an index holds *)

Definition same_of (ix : Index) : FieldValue -> FieldValue -> bool :=
  match ix with Sorted _ => cmp_same | Hash _ => hash_eq end.
Definition buckets_of (ix : Index) : buckets := match ix with Sorted m | Hash m => m end.

Definition bucket_mem (same : FieldValue -> FieldValue -> bool) (m : buckets) (val : FieldValue) (key : bytes) : Prop :=
  exists k s, (k, s) ∈ m /\ same val k = true /\ key ∈ s.

(** The index has [key] under the value [val]. *)
Definition index_mem (ix : Index) (val : FieldValue) (key : bytes) : Prop :=
  bucket_mem (same_of ix) (buckets_of ix) val key.

(** At most one bucket per value. *)
Fixpoint one_bucket (same : FieldValue -> FieldValue -> bool) (m : buckets) : Prop :=
  match m with
  | [] => True
  | (k, _) :: m' => (forall k' s', (k', s') ∈ m' -> same k k' = false) /\ one_bucket same m'
  end.

Fixpoint ascending (m : buckets) : Prop :=
  match m with
  | [] => True
  | (k, _) :: m' => (forall k' s', (k', s') ∈ m' -> cmp k k' = Lt) /\ ascending m'
  end.

Definition index_wf (ix : Index) : Prop :=
  match ix with Sorted m => ascending m | Hash m => one_bucket hash_eq m end.

(** Key equality is a partial equivalence, which is all the maps need. *)
Class Same (same : FieldValue -> FieldValue -> bool) := {
  same_sym : forall a b, same a b = true -> same b a = true;
  same_trans : forall a b c, same a b = true -> same b c = true -> same a c = true
}.

#[export] Instance cmp_same_Same : Same cmp_same.
Proof.
  split; unfold cmp_same; intros a b; [destruct (cmp a b) eqn:E; [| done..]; by rewrite (cmp_eq_sym _ _ E) |].
  intros c. destruct (cmp a b) eqn:E; [| done..]. by rewrite (cmp_eq_l _ _ _ E).
Qed.

Lemma hash_same_eq a b : hash_same a b = true -> a = b.
Proof.
  destruct a, b; unfold hash_same; try (intros H%bool_decide_eq_true; done). intros ?%Z.eqb_eq. by subst.
Qed.

#[export] Instance hash_eq_Same : Same hash_eq.
Proof.
  split; unfold hash_eq.
  - intros a b [He Hs]%andb_true_iff. pose proof (hash_same_eq _ _ Hs). subst. by rewrite He, Hs.
  - intros a b c [He Hs]%andb_true_iff [He' Hs']%andb_true_iff.
    pose proof (hash_same_eq _ _ Hs). pose proof (hash_same_eq _ _ Hs'). subst. by rewrite He, Hs.
Qed.

Lemma ascending_one_bucket m : ascending m -> one_bucket cmp_same m.
Proof.
  induction m as [| [k s] m IH]; [done |]. simpl. intros [H1 H2]. split; [| auto].
  intros k' s' Hin. unfold cmp_same. by rewrite (H1 k' s' Hin).
Qed.

Section Buckets.
Context (same : FieldValue -> FieldValue -> bool) {S : Same same}.

Lemma same_false_l a b c : same a b = true -> same a c = false -> same b c = false.
Proof.
  intros Hab Hac. destruct (same b c) eqn:E; [| done]. by rewrite (same_trans a b c) in Hac.
Qed.

(** Looking a value up finds exactly its keys. *)
Lemma elem_of_get_bucket m val key : one_bucket same m -> key ∈ get_bucket same val m <-> bucket_mem same m val key.
Proof.
  unfold get_bucket, bucket_mem. induction m as [| [k s] m IH]; simpl.
  { intros _. split; [set_solver | intros (? & ? & []%elem_of_nil & _)]. }
  intros [Hk Hm]. specialize (IH Hm). case_decide as Hs; simpl.
  - split.
    + intros Hin. exists k, s. split_and!; [by left | done | done].
    + intros (k' & s' & [[= -> ->] | Hin]%elem_of_cons & Hs' & Hkey); [done |].
      specialize (Hk _ _ Hin). by rewrite (same_trans k val k' (same_sym _ _ Hs) Hs') in Hk.
  - destruct (list_find _ m) as [[i [k' s']] |] eqn:E; simpl in *; rewrite IH.
    + split; intros (a & b & Hin & Hr).
      * exists a, b. split; [by right | done].
      * apply elem_of_cons in Hin as [[= -> ->] | Hin]; [naive_solver | eauto].
    + split; intros (a & b & Hin & Hr).
      * exists a, b. split; [by right | done].
      * apply elem_of_cons in Hin as [[= -> ->] | Hin]; [naive_solver | eauto].
Qed.

Lemma elem_of_collect p m key : key ∈ collect p m <-> exists k s, (k, s) ∈ m /\ p k = true /\ key ∈ s.
Proof.
  unfold collect. rewrite elem_of_union_list. split.
  - intros (s & ([k s'] & -> & [Hp Hin]%list_elem_of_filter)%list_elem_of_fmap & Hkey). eauto.
  - intros (k & s & Hin & Hp & Hkey). exists s. split; [| done]. apply list_elem_of_fmap. exists (k, s).
    split; [done |]. by apply list_elem_of_filter.
Qed.

Lemma bucket_remove_In val key m k s :
  (k, s) ∈ bucket_remove same val key m -> exists s', (k, s') ∈ m.
Proof.
  induction m as [| [k0 s0] m IH]; simpl; [by intros ?%elem_of_nil |].
  case_match; [case_decide |]; rewrite ?elem_of_cons.
  - intros Hin. exists s. apply elem_of_cons. by right.
  - intros [[= -> ->] | Hin]; [exists s0 | exists s]; apply elem_of_cons; auto.
  - intros [[= -> ->] | (s' & Hin)%IH]; [exists s0 | exists s']; apply elem_of_cons; auto.
Qed.

Lemma bucket_remove_one_bucket val key m : one_bucket same m -> one_bucket same (bucket_remove same val key m).
Proof.
  induction m as [| [k0 s0] m IH]; [done |]. simpl. intros [H1 H2].
  case_match; [case_decide; [done | by split] |]. split; [| by apply IH].
  intros k' s' (s'' & Hin)%bucket_remove_In. by eapply H1.
Qed.

(** Removing a key leaves every other key where it was. *)
Lemma bucket_remove_mem val key m val' key' :
  bucket_mem same m val' key' -> key' <> key -> bucket_mem same (bucket_remove same val key m) val' key'.
Proof.
  intros (k & s & Hin & Hs & Hkey) Hne. induction m as [| [k0 s0] m IH]; [by apply elem_of_nil in Hin |].
  simpl. apply elem_of_cons in Hin as [[= -> ->] | Hin].
  - case_match; [case_decide as Hd |]; [set_solver | |].
    + exists k0, (s0 ∖ {[key]}). split_and!; [by left | done | set_solver].
    + exists k0, s0. split_and!; [by left | done | done].
  - case_match; [case_decide |].
    + exists k, s. done.
    + exists k, s. split_and!; [by right | done | done].
    + destruct (IH Hin) as (k' & s' & Hin' & ?). exists k', s'. split; [by right | done].
Qed.
End Buckets.

Lemma hash_insert_In val key m k s : (k, s) ∈ hash_insert val key m -> k = val \/ exists s', (k, s') ∈ m.
Proof.
  induction m as [| [k0 s0] m IH]; simpl.
  - intros [[= -> ->] | []%elem_of_nil]%elem_of_cons. by left.
  - case_match; intros [[= -> ->] | Hin]%elem_of_cons.
    + right. exists s0. by left.
    + right. exists s. by right.
    + right. exists s0. by left.
    + destruct (IH Hin) as [-> | (s' & ?)]; [by left | right; exists s'; by right].
Qed.

Lemma hash_insert_one_bucket val key m : one_bucket hash_eq m -> one_bucket hash_eq (hash_insert val key m).
Proof.
  induction m as [| [k0 s0] m IH]; simpl; [intros _; split; [by intros ? ? ?%elem_of_nil | done] |].
  intros [H1 H2]. case_match eqn:E; [by split |]. split; [| by apply IH].
  intros k' s' [-> | (s'' & Hin)]%hash_insert_In; [| by eapply H1].
  destruct (hash_eq k0 val) eqn:E'; [| done]. by rewrite (same_sym _ _ E') in E.
Qed.

Lemma sorted_insert_In val key m k s : (k, s) ∈ sorted_insert val key m -> k = val \/ exists s', (k, s') ∈ m.
Proof.
  induction m as [| [k0 s0] m IH]; simpl.
  - intros [[= -> ->] | []%elem_of_nil]%elem_of_cons. by left.
  - destruct (cmp val k0); intros [[= -> ->] | Hin]%elem_of_cons.
    + right. exists s0. by left.
    + right. exists s. by right.
    + by left.
    + right. exists s. done.
    + right. exists s0. by left.
    + destruct (IH Hin) as [-> | (s' & ?)]; [by left | right; exists s'; by right].
Qed.

Lemma sorted_insert_ascending val key m : ascending m -> ascending (sorted_insert val key m).
Proof.
  induction m as [| [k0 s0] m IH]; simpl; [intros _; split; [by intros ? ? ?%elem_of_nil | done] |].
  intros [H1 H2]. destruct (cmp val k0) eqn:E; simpl.
  - by split.
  - split; [| by split]. intros k' s' [[= -> ->] | Hin]%elem_of_cons; [done |].
    eapply cmp_lt_trans; [exact E | by eapply H1].
  - split; [| by apply IH]. intros k' s' [-> | (s'' & Hin)]%sorted_insert_In; [| by eapply H1].
    by rewrite cmp_antisym, E.
Qed.

Lemma bucket_remove_ascending val key m : ascending m -> ascending (bucket_remove cmp_same val key m).
Proof.
  induction m as [| [k0 s0] m IH]; [done |]. simpl. intros [H1 H2].
  case_match; [case_decide; [done | by split] |]. split; [| by apply IH].
  intros k' s' (s'' & Hin)%bucket_remove_In. by eapply H1.
Qed.

Lemma index_insert_wf val key ix : index_wf ix -> index_wf (index_insert val key ix).
Proof. destruct ix; [apply sorted_insert_ascending | apply hash_insert_one_bucket]. Qed.

Lemma index_remove_wf val key ix : index_wf ix -> index_wf (index_remove val key ix).
Proof. destruct ix; [apply bucket_remove_ascending | apply bucket_remove_one_bucket]. Qed.

Lemma hash_eq_refl v : is_f64 v = false -> hash_eq v v = true.
Proof.
  destruct v as [| [] | | | |]; unfold hash_eq; simpl; try done; intros _;
    rewrite ?Z.eqb_refl; simpl; rewrite ?bool_decide_eq_true_2 by done; done.
Qed.

Lemma same_of_refl ix v : is_f64 v = false -> same_of ix v v = true.
Proof. destruct ix; simpl; [intros _; unfold cmp_same; by rewrite cmp_refl | apply hash_eq_refl]. Qed.

Lemma bucket_mem_cons same k s m val key :
  bucket_mem same ((k, s) :: m) val key <-> (same val k = true /\ key ∈ s) \/ bucket_mem same m val key.
Proof.
  unfold bucket_mem. split.
  - intros (k' & s' & [[= -> ->] | Hin]%elem_of_cons & ?); [by left | right; eauto].
  - intros [[? ?] | (k' & s' & Hin & ?)]; [exists k, s; split; [by left | done] | exists k', s'; split; [by right | done]].
Qed.

(** Inserting adds the key under its value, and keeps the rest. *)
Lemma index_insert_mem ix val key val' key' :
  index_mem ix val' key' -> index_mem (index_insert val key ix) val' key'.
Proof.
  unfold index_mem. destruct ix as [m | m]; simpl; induction m as [| [k s] m IH]; simpl;
    rewrite ?bucket_mem_cons; try (intros (? & ? & []%elem_of_nil & _)).
  - destruct (cmp val k); rewrite ?bucket_mem_cons; intros [[? ?] | ?]; set_solver.
  - case_match; rewrite ?bucket_mem_cons; intros [[? ?] | ?]; set_solver.
Qed.

Lemma index_insert_mem_new ix val key : is_f64 val = false -> index_mem (index_insert val key ix) val key.
Proof.
  intros Hf. pose proof (same_of_refl ix val Hf) as Hr. unfold index_mem. destruct ix as [m | m]; simpl in *.
  - induction m as [| [k s] m IH]; simpl; rewrite ?bucket_mem_cons; [left; set_solver |].
    destruct (cmp val k) eqn:E; rewrite ?bucket_mem_cons; [left; unfold cmp_same; rewrite E; set_solver | left; set_solver | right; done].
  - induction m as [| [k s] m IH]; simpl; rewrite ?bucket_mem_cons; [left; set_solver |].
    case_match eqn:E; rewrite ?bucket_mem_cons; [left; set_solver | right; done].
Qed.

Lemma index_remove_mem ix val key val' key' :
  index_mem ix val' key' -> key' <> key -> index_mem (index_remove val key ix) val' key'.
Proof. destruct ix; [apply (bucket_remove_mem cmp_same) | apply (bucket_remove_mem hash_eq)]. Qed.

(** ** Resolving a predicate by an index *)

Lemma cmp_eq_f64 a b : cmp a b = Eq -> is_f64 a = is_f64 b.
Proof. by destruct a, b. Qed.

Lemma eqb_cmp a b : is_f64 a = false -> eqb a b = true -> cmp a b = Eq.
Proof.
  intros Hf. destruct a as [| x | | | |], b as [| y | | | |]; simpl; try done.
  - by destruct x, y.
  - intros ?%Z.eqb_eq. by apply Z.compare_eq_iff.
  - intros ?%Z.eqb_eq. by apply Z.compare_eq_iff.
  - intros ?%bool_decide_eq_true. subst. apply bytes_cmp_refl.
Qed.

Lemma index_query_sorted m op val fv key :
  ascending m -> index_mem (Sorted m) fv key -> is_f64 fv = false ->
  (exists c, compare fv val = Some c /\ compare_op op c = true) -> key ∈ index_query op val (Sorted m).
Proof.
  intros Hm Hmem Hf (c & Hc & Hop). apply (compare_cmp _ _ _ Hf) in Hc.
  assert (exists k s, (k, s) ∈ m /\ cmp fv k = Eq /\ cmp k val = c /\ key ∈ s) as (k & s & Hin & Hk & Hkv & Hkey).
  { destruct Hmem as (k & s & Hin & Hs & Hkey). exists k, s. unfold same_of, cmp_same in Hs.
    destruct (cmp fv k) eqn:E; [| done..]. split_and!; try done. by rewrite <- (cmp_eq_l _ _ _ E). }
  destruct op; simpl.
  1: { apply elem_of_get_bucket; [apply cmp_same_Same | by apply ascending_one_bucket |].
       exists k, s. split_and!; try done. unfold cmp_same. rewrite cmp_antisym, Hkv. by destruct c. }
  all: apply elem_of_collect; exists k, s; split_and!; try done.
  - destruct (eqb k val) eqn:E; [| done]. exfalso.
    rewrite eqb_cmp in Hkv; [by rewrite <- Hkv in Hop | | done]. by rewrite <- (cmp_eq_f64 _ _ Hk).
  - rewrite Hkv. by destruct c.
  - rewrite Hkv. by destruct c.
  - rewrite cmp_antisym, Hkv. by destruct c.
  - rewrite cmp_antisym, Hkv. by destruct c.
Qed.

Lemma index_query_hash m op val fv key :
  one_bucket hash_eq m -> index_mem (Hash m) fv key ->
  (op = OEq /\ fv = val \/ op = ONotEq /\ exists c, compare fv val = Some c /\ c <> Eq) ->
  key ∈ index_query op val (Hash m).
Proof.
  intros Hm Hmem [[-> ->] | [-> (c & Hc & Hne)]]; simpl.
  - by apply elem_of_get_bucket; [apply hash_eq_Same | |].
  - destruct Hmem as (k & s & Hin & [He Hs]%andb_true_iff & Hkey). apply hash_same_eq in Hs as <-.
    apply elem_of_collect. exists fv, s. split_and!; try done. destruct (eqb fv val) eqn:E; [| done]. exfalso.
    apply Hne. destruct (is_f64 fv) eqn:Ef.
    + destruct fv, val; simpl in *; try done. rewrite Hc in E. by destruct c.
    + rewrite <- (compare_cmp _ _ _ Ef Hc). by apply eqb_cmp.
Qed.

Section Resolve.
Context (extract : bytes -> bytes -> FieldValue) (text_match : TextKind -> bytes -> bytes -> bool).
Context (entries : gmap bytes bytes) (indexes : gmap bytes Index).

(** The index of a field has every entry that has the field. *)
Definition covers (field : bytes) (ix : Index) : Prop :=
  forall key v, entries !! key = Some v -> extract v field <> Null -> index_mem ix (extract v field) key.

(** A constant against a hash index: equal in value means the same variant. *)
Definition const_ok (field : bytes) (pv : FieldValue) : Prop :=
  match indexes !! field with
  | Some (Hash _) => forall key v, entries !! key = Some v ->
      compare (extract v field) pv = Some Eq -> extract v field = pv
  | _ => True
  end.

Fixpoint consts_ok (p : Predicate) : Prop :=
  match p with
  | Compare field _ pv => const_ok field pv
  | PIn field values => Forall (const_ok field) values
  | PAnd children => foldr (fun c P => consts_ok c /\ P) True children
  | _ => True
  end.

Hypothesis no_doubles : forall key v field, entries !! key = Some v -> is_f64 (extract v field) = false.
Hypothesis indexed : forall field ix, indexes !! field = Some ix -> index_wf ix /\ covers field ix.

Lemma compare_not_null a b c : compare a b = Some c -> a <> Null.
Proof. intros H ->. done. Qed.

Lemma resolve_compare field op pv ix key v :
  indexes !! field = Some ix -> const_ok field pv -> entries !! key = Some v ->
  (op = OEq \/ op = ONotEq \/ exists m, ix = Sorted m) ->
  (exists c, compare (extract v field) pv = Some c /\ compare_op op c = true) -> key ∈ index_query op pv ix.
Proof.
  intros Hix Hc Hv Hop (c & Hcmp & Htrue). destruct (indexed field ix Hix) as [Hwf Hcov].
  pose proof (Hcov key v Hv (compare_not_null _ _ _ Hcmp)) as Hmem. pose proof (no_doubles key v field Hv) as Hf.
  destruct ix as [m | m].
  - apply (index_query_sorted m op pv (extract v field) key); eauto.
  - apply (index_query_hash m op pv (extract v field) key); [done | done |].
    unfold const_ok in Hc. rewrite Hix in Hc. destruct Hop as [-> | [-> | (m' & [=])]].
    + left. split; [done |]. apply (Hc key v Hv). by destruct c.
    + right. split; [done |]. exists c. split; [done |]. by destruct c.
Qed.

Lemma resolve_between field from to m ks key v :
  indexes !! field = Some (Sorted m) -> query_between from to (Sorted m) = Ok ks -> entries !! key = Some v ->
  eval extract text_match (Between field from to) v = true -> key ∈ ks.
Proof.
  intros Hix Hq Hv He. destruct (indexed field _ Hix) as [Hwf Hcov]. pose proof (no_doubles key v field Hv) as Hf.
  unfold query_between in Hq. case_match; [done |]. injection Hq as <-. cbn [eval] in He.
  destruct (compare (extract v field) from) as [c |] eqn:E1; [| done].
  destruct (compare (extract v field) to) as [c' |] eqn:E2; [| done].
  destruct (Hcov key v Hv (compare_not_null _ _ _ E1)) as (k & s & Hin & Hs & Hkey).
  unfold same_of, cmp_same in Hs. destruct (cmp (extract v field) k) eqn:Ek; [| done..].
  apply (compare_cmp _ _ _ Hf) in E1, E2. rewrite (cmp_eq_l _ _ _ Ek) in E1. rewrite (cmp_eq_l _ _ _ Ek) in E2.
  apply elem_of_collect. exists k, s. split_and!; try done.
  rewrite (cmp_antisym k from), E1, E2. by destruct c, c'.
Qed.

Lemma elem_of_foldl_query ix values out key :
  key ∈ foldl (fun out v => out ∪ index_query OEq v ix) out values
  <-> key ∈ out \/ exists v, v ∈ values /\ key ∈ index_query OEq v ix.
Proof.
  revert out. induction values as [| v values IH]; intros out; simpl.
  - split; [by left | intros [? | (? & []%elem_of_nil & _)]; done].
  - rewrite IH. set_solver.
Qed.

Fixpoint and_size (p : Predicate) : nat :=
  match p with PAnd ps => S (foldr (fun p n => and_size p + n)%nat 0%nat ps) | _ => 0 end.

(** The planner is complete for what it resolves. *)
Lemma plan_complete p : forall ks key v,
  consts_ok p -> plan_and_resolve p indexes = Ok (Some ks) -> entries !! key = Some v ->
  eval extract text_match p v = true -> key ∈ ks.
Proof.
  induction p as [p IHp] using (Wf_nat.induction_ltof1 _ and_size). unfold Wf_nat.ltof in IHp.
  intros ks key v Hok Hplan Hv He.
  destruct p as [field op pv | preds | | | field from to | field values | | | | | | | | |]; try done.
  - simpl in Hplan, Hok, He. destruct (indexes !! field) as [ix |] eqn:Hix; [| done].
    destruct (compare (extract v field) pv) as [c |] eqn:Ec; [| done].
    assert (ks = index_query op pv ix /\ (op = OEq \/ op = ONotEq \/ exists m, ix = Sorted m)) as [-> Hop].
    { destruct op, ix; simplify_eq; eauto. }
    eapply resolve_compare; eauto.
  - simpl in Hok, He. revert IHp Hok Hplan He. simpl.
    induction preds as [| p preds IH]; simpl; [done |]. intros IHp [Hp Hps] Hplan [He Hes]%andb_true_iff.
    destruct (plan_and_resolve p indexes) as [[ks' |] |] eqn:E; simpl in Hplan; [| | done].
    + injection Hplan as <-. eapply (IHp p); eauto. lia.
    + apply IH; try done. intros q Hq. apply IHp. lia.
  - cbn [plan_and_resolve] in Hplan. destruct (indexes !! field) as [[m | m] |] eqn:Hix; [| done..].
    destruct (query_between from to (Sorted m)) as [ks' |] eqn:E; [| done]. injection Hplan as <-.
    by eapply resolve_between.
  - simpl in Hplan, Hok, He. destruct (indexes !! field) as [ix |] eqn:Hix; [| done]. injection Hplan as <-.
    apply existsb_exists in He as (pv & Hin%list_elem_of_In & Heq). apply elem_of_foldl_query. right. exists pv. split; [done |].
    rewrite Forall_forall in Hok. unfold equals in Heq. destruct (compare (extract v field) pv) as [c |] eqn:Ec; [| done].
    eapply resolve_compare; eauto.
Qed.

End Resolve.

(** An index never hides a match: when the planner resolves a predicate to a set of keys, every
    entry that satisfies the predicate is among them, provided the indexes cover their fields, no
    indexed value is a double, and constants against hash indexes have the width of the field. *)
Theorem index_never_hides_a_match extract text_match entries indexes p ks key v :
  (forall key v field, entries !! key = Some v -> is_f64 (extract v field) = false) ->
  (forall field ix, indexes !! field = Some ix -> index_wf ix /\ covers extract entries field ix) ->
  consts_ok extract entries indexes p ->
  plan_and_resolve p indexes = Ok (Some ks) -> entries !! key = Some v ->
  eval extract text_match p v = true -> key ∈ ks.
Proof. intros Hd Hi Hc Hp Hv He. by eapply (plan_complete extract text_match entries indexes Hd Hi p). Qed.

(** ** Examples and divergences *)

(** A value is its own field here: a one-byte value is an [int], anything else a string. *)
Definition ex_extract (v field : bytes) : FieldValue := match v with [b] => I32 (u8 b) | _ => VStr v end.
Definition no_text (kind : TextKind) (pattern s : bytes) : bool := false.

Definition ex_entries : gmap bytes bytes := {[bstr "a" := [b8 5]; bstr "b" := [b8 9]]}.
Definition ex_index (ty : IndexType) : Index :=
  index_insert (I32 9) (bstr "b") (index_insert (I32 5) (bstr "a") (new_index ty)).

Lemma index_never_hides_a_match_witness :
  bstr "b" ∈ index_query OGt (I64 6) (ex_index TSorted).
Proof.
  apply (index_never_hides_a_match ex_extract no_text ex_entries {[bstr "age" := ex_index TSorted]}
    (Compare (bstr "age") OGt (I64 6)) _ _ [b8 9]).
  - intros key v field Hv. destruct v as [| b [| b' v]]; reflexivity.
  - intros field ix [<- <-]%lookup_singleton_Some. split.
    + simpl. split_and!; [| by intros ? ? ?%elem_of_nil | done].
      intros k' s' [[= -> ->] | []%elem_of_nil]%elem_of_cons. reflexivity.
    + intros key v Hv _. unfold ex_entries in Hv.
      apply lookup_insert_Some in Hv as [[<- <-] | [_ [<- <-]%lookup_singleton_Some]].
      * exists (I32 5), {[bstr "a"]}. split_and!; [vm_compute; left | reflexivity | set_solver].
      * exists (I32 9), {[bstr "b"]}. split_and!; [vm_compute; right; left | reflexivity | set_solver].
  - unfold consts_ok, const_ok. rewrite lookup_singleton_eq. exact I.
  - reflexivity.
  - reflexivity.
  - reflexivity.
Defined.

(** A hash index does hide matches when the constant's width differs from the field's: an [int]
    field with value 5 satisfies [= 5] with a [long] constant, but the hash index, keyed by
    variant, resolves that predicate to no keys. *)
Theorem hash_index_hides_other_width :
  eval ex_extract no_text (Compare (bstr "age") OEq (I64 5)) [b8 5] = true
  /\ index_mem (ex_index THash) (I32 5) (bstr "a")
  /\ plan_and_resolve (Compare (bstr "age") OEq (I64 5)) {[bstr "age" := ex_index THash]} = Ok (Some ∅).
Proof.
  split_and!; [reflexivity | | reflexivity].
  exists (I32 5), {[bstr "a"]}. split_and!; [vm_compute; left | reflexivity | set_solver].
Qed.

(** An empty range against a sorted index panics instead of matching nothing. *)
Theorem empty_between_panics field lo hi m indexes :
  cmp hi lo = Lt -> indexes !! field = Some (Sorted m) ->
  plan_and_resolve (Between field lo hi) indexes = Panic.
Proof. intros Hc Hi. cbn [plan_and_resolve]. rewrite Hi. unfold query_between. by rewrite Hc. Qed.

Lemma empty_between_panics_witness :
  plan_and_resolve (Between (bstr "age") (I32 10) (I32 5)) {[bstr "age" := ex_index TSorted]} = Panic.
Proof. apply (empty_between_panics (bstr "age") (I32 10) (I32 5) (buckets_of (ex_index TSorted))); reflexivity. Defined.
