(* ===== verification/Table.v ===== *)
(** * The hash table of a shard ([Inner] of crates/store/src/lib.rs)

    Open addressing with linear probing and tombstones over a table of fixed-size entries; keys and
    values are blobs in the slab.  Every operation reads the monotonic clock ([now_ms]) as its
    argument [now]; [rnd] is the sequence of numbers that the static counter of [rand_idx] yields.
    A probe that finds no EMPTY slot in the whole table would never end; the model stops with
    [Panic] there, and the theorems show that it does not happen. *)

From S2P Require Import Prelude Fixed Slab FieldValue QueryIndex.

Definition EMPTY : Z := 0.
Definition TOMBSTONE : Z := 1.

Inductive EvictionPolicy := NoEviction | Lru | Lfu | Random.

#[export] Instance EvictionPolicy_eq_dec : EqDecision EvictionPolicy.
Proof. solve_decision. Defined.

Record MapConfig := mk_MapConfig { max_size : Z; eviction_policy : EvictionPolicy; max_idle_ms : Z }.

Record Entry := mk_Entry {
  e_hash : Z;
  e_map_id : Z;
  e_handle : Handle;
  e_key_len : Z;
  e_val_len : Z;
  e_expire_at : Z;
  e_stamp : Z;
  e_last_access_ms : Z;
  e_hits : Z
}.

Definition empty_entry : Entry := mk_Entry EMPTY 0 (mk_Handle 0 0) 0 0 0 0 0 0.

Definition occupied (e : Entry) : bool := TOMBSTONE <? e_hash e.

Definition set_hash (e : Entry) (h : Z) : Entry :=
  mk_Entry h (e_map_id e) (e_handle e) (e_key_len e) (e_val_len e) (e_expire_at e) (e_stamp e)
    (e_last_access_ms e) (e_hits e).

Record Inner := mk_Inner {
  slab : Slab;
  table : list Entry;
  mask : Z;
  len : Z;
  tombstones : Z;
  map_ids : gmap bytes Z;
  map_names : list bytes;
  counts : list Z;
  index_configs : gmap bytes (list IndexConfig);
  indexes : gmap bytes (gmap bytes Index);
  configs : gmap bytes MapConfig
}.

(** FNV-1a over the bytes of (map_id, key), with the top bit set. *)
Definition fnv_step (h : Z) (b : byte) : Z := wrap_u64 (Z.lxor h (u8 b) * 0x100000001b3).
Definition hash (map_id : Z) (key : bytes) : Z :=
  Z.lor (foldl fnv_step (foldl fnv_step 0xcbf29ce484222325 (to_le 4 map_id)) key) (2 ^ 63).

Definition new_inner : Inner :=
  mk_Inner new_slab (replicate 1024 empty_entry) 1023 0 0 ∅ [] [] ∅ ∅ ∅.

(** ** Field updates *)

Definition with_slab (s : Inner) (sl : Slab) : Inner :=
  mk_Inner sl (table s) (mask s) (len s) (tombstones s) (map_ids s) (map_names s) (counts s)
    (index_configs s) (indexes s) (configs s).
Definition with_table (s : Inner) (t : list Entry) : Inner :=
  mk_Inner (slab s) t (mask s) (len s) (tombstones s) (map_ids s) (map_names s) (counts s)
    (index_configs s) (indexes s) (configs s).
Definition with_sizes (s : Inner) (l t : Z) (c : list Z) : Inner :=
  mk_Inner (slab s) (table s) (mask s) l t (map_ids s) (map_names s) c (index_configs s) (indexes s) (configs s).
Definition with_indexes (s : Inner) (ix : gmap bytes (gmap bytes Index)) : Inner :=
  mk_Inner (slab s) (table s) (mask s) (len s) (tombstones s) (map_ids s) (map_names s) (counts s)
    (index_configs s) ix (configs s).
Definition with_index_configs (s : Inner) (c : gmap bytes (list IndexConfig)) : Inner :=
  mk_Inner (slab s) (table s) (mask s) (len s) (tombstones s) (map_ids s) (map_names s) (counts s)
    c (indexes s) (configs s).

(** [v[i] += d] on a [Vec<usize>]. *)
Definition add_count (c : list Z) (id d : Z) : outcome (list Z) :=
  x ← index c (Z.to_nat id); set_index c (Z.to_nat id) (wrap_u64 (x + d)).

(** ** Operations *)

Definition intern (map : bytes) (s : Inner) : Inner * Z :=
  match map_ids s !! map with
  | Some id => (s, id)
  | None =>
    let id := wrap_u32 (blen (map_names s)) in
    (mk_Inner (slab s) (table s) (mask s) (len s) (tombstones s) (<[map := id]> (map_ids s))
       (map_names s ++ [map]) (counts s ++ [0]) (index_configs s) (indexes s) (configs s), id)
  end.

Definition is_expired (s : Inner) (map_id : Z) (e : Entry) (now : Z) : outcome bool :=
  if negb (e_expire_at e =? 0) && (e_expire_at e <=? now) then Ok true else
  name ← index (map_names s) (Z.to_nat map_id);
  Ok match configs s !! name with
     | Some cfg => (0 <? max_idle_ms cfg) && (max_idle_ms cfg <? sat_sub now (e_last_access_ms e))
     | None => false
     end.

(** [(e.key_len + e.val_len) as usize] *)
Definition entry_len (e : Entry) : nat := Z.to_nat (wrap_u32 (e_key_len e + e_val_len e)).

Definition key_bytes (s : Inner) (e : Entry) : outcome bytes :=
  b ← slab_get (slab s) (e_handle e) (entry_len e);
  slice b 0 (Z.to_nat (e_key_len e)).

Definition val_bytes (s : Inner) (e : Entry) : outcome bytes :=
  b ← slab_get (slab s) (e_handle e) (entry_len e);
  if (Z.to_nat (e_key_len e) <=? length b)%nat then Ok (drop (Z.to_nat (e_key_len e)) b) else Panic.

(** [(i + 1) & mask] *)
Definition next (s_mask : Z) (i : nat) : nat := Z.to_nat (Z.land (Z.of_nat i + 1) s_mask).
(** [h as usize & mask] *)
Definition home (s_mask h : Z) : nat := Z.to_nat (Z.land h s_mask).

(** The rehash of one entry: the first slot from its home that is not occupied. *)
Fixpoint place (fuel : nat) (m : Z) (t : list Entry) (e : Entry) (i : nat) : outcome (list Entry) :=
  match fuel with
  | O => Panic
  | S fuel' =>
    x ← index t i;
    if occupied x then place fuel' m t e (next m i) else set_index t i e
  end.

Fixpoint rehash (m : Z) (es : list Entry) (t : list Entry) : outcome (list Entry) :=
  match es with
  | [] => Ok t
  | e :: es' =>
    t ← (if occupied e then place (length t) m t e (home m (e_hash e)) else Ok t);
    rehash m es' t
  end.

(** Grow at 7/8 of (live + tombstones); the rehash drops tombstones. *)
Definition maybe_grow (s : Inner) : outcome Inner :=
  if wrap_u64 ((len s + tombstones s + 1) * 8) <? wrap_u64 ((mask s + 1) * 7) then Ok s else
  let new_cap := wrap_u64 ((mask s + 1) * 2) in
  let new_mask := new_cap - 1 in
  t ← rehash new_mask (table s) (replicate (Z.to_nat new_cap) empty_entry);
  Ok (mk_Inner (slab s) t new_mask (len s) 0 (map_ids s) (map_names s) (counts s)
        (index_configs s) (indexes s) (configs s)).

(** How a probe for (map_id, key) ends: at the entry, or at an EMPTY slot, with the first tombstone
    passed on the way. *)
Inductive Probe := Hit (i : nat) (e : Entry) | Vacant (i : nat) (first_free : option nat).

Fixpoint probe (fuel : nat) (s : Inner) (map_id h : Z) (key : bytes) (i : nat) (first_free : option nat) : outcome Probe :=
  match fuel with
  | O => Panic
  | S fuel' =>
    let go_on ff := probe fuel' s map_id h key (next (mask s) i) ff in
    e ← index (table s) i;
    if e_hash e =? EMPTY then Ok (Vacant i first_free)
    else if e_hash e =? TOMBSTONE then go_on (Some (default i first_free))
    else if (e_hash e =? h) && (e_map_id e =? map_id) then
      (k ← key_bytes s e;
       if decide (k = key) then Ok (Hit i e) else go_on first_free)
    else go_on first_free
  end.

Definition probe_from (s : Inner) (map_id : Z) (key : bytes) : outcome Probe :=
  let h := hash map_id key in
  probe (length (table s)) s map_id h key (home (mask s) h) None.

Section Ops.
Context {Schemas : Type} (extract : bytes -> Schemas -> bytes -> FieldValue) (schemas : Schemas).

(** ** Secondary indexes *)

Definition drop_value (attr key : bytes) (old_val : option bytes) (ix : Index) : Index :=
  match old_val with
  | Some old => match extract old schemas attr with Null => ix | fv => index_remove fv key ix end
  | None => ix
  end.

Definition add_value (attr key : bytes) (new_val : option bytes) (ix : Index) : Index :=
  match new_val with
  | Some new => match extract new schemas attr with Null => ix | fv => index_insert fv key ix end
  | None => ix
  end.

Definition update_index (ty : IndexType) (attr key : bytes) (old_val new_val : option bytes)
    (ixs : gmap bytes Index) : gmap bytes Index :=
  <[attr := add_value attr key new_val (drop_value attr key old_val (default (new_index ty) (ixs !! attr)))]> ixs.

Definition update_indexes (map key : bytes) (old_val new_val : option bytes) (s : Inner) : Inner :=
  match index_configs s !! map with
  | None => s
  | Some cfgs =>
    let ixs := default ∅ (indexes s !! map) in
    let ixs := foldl (fun ixs c =>
      foldl (fun ixs attr => update_index (ix_ty c) attr key old_val new_val ixs) ixs (ix_attributes c)) ixs cfgs in
    with_indexes s (<[map := ixs]> (indexes s))
  end.

(** ** Removal of a slot's entry *)

(** [slab.free(e.handle); table[i].hash = TOMBSTONE; len -= 1; tombstones += 1; counts[id] -= 1] *)
Definition bury (s : Inner) (i : nat) (e : Entry) : outcome Inner :=
  sl ← slab_free (slab s) (e_handle e);
  t ← set_index (table s) i (set_hash e TOMBSTONE);
  c ← add_count (counts s) (e_map_id e) (-1);
  Ok (with_sizes (with_table (with_slab s sl) t) (wrap_u64 (len s - 1)) (wrap_u64 (tombstones s + 1)) c).

(** ** Eviction *)

(** The first entry of the map at or after [start], cyclically. *)
Fixpoint scan_from (fuel : nat) (s : Inner) (map_id : Z) (i : nat) : outcome (option (nat * Entry)) :=
  match fuel with
  | O => Ok None
  | S fuel' =>
    e ← index (table s) i;
    if occupied e && (e_map_id e =? map_id) then Ok (Some (i, e))
    else scan_from fuel' s map_id (next (mask s) i)
  end.

Definition rand_idx (s : Inner) (r : Z) : nat := Z.to_nat (r mod blen (table s)).

(** The best of [n] samples: the least [measure] below [best]. *)
Fixpoint sample (n : nat) (rnd : nat -> Z) (s : Inner) (map_id : Z) (measure : Entry -> Z)
    (best_idx : option (nat * Entry)) (best : Z) : outcome (option (nat * Entry)) :=
  match n with
  | O => Ok best_idx
  | S n' =>
    c ← scan_from (length (table s)) s map_id (rand_idx s (rnd n'));
    match c with
    | Some (i, e) =>
      if measure e <? best then sample n' rnd s map_id measure (Some (i, e)) (measure e)
      else sample n' rnd s map_id measure best_idx best
    | None => sample n' rnd s map_id measure best_idx best
    end
  end.

Definition candidate (rnd : nat -> Z) (s : Inner) (map_id : Z) (policy : EvictionPolicy) : outcome (option (nat * Entry)) :=
  match policy with
  | NoEviction => Ok None
  | Random => scan_from (length (table s)) s map_id (rand_idx s (rnd 0%nat))
  | Lru => sample 5 rnd s map_id e_last_access_ms None (2 ^ 64 - 1)
  | Lfu => sample 5 rnd s map_id e_hits None (2 ^ 32 - 1)
  end.

Definition evict_one (rnd : nat -> Z) (map : bytes) (map_id : Z) (policy : EvictionPolicy) (s : Inner) : outcome Inner :=
  c ← candidate rnd s map_id policy;
  match c with
  | None => Ok s
  | Some (i, e) =>
    key ← key_bytes s e;
    old ← val_bytes s e;
    bury (update_indexes map key (Some old) None s) i e
  end.

(** [Store::set_config], on one shard. *)
Definition set_config (map : bytes) (config : MapConfig) (s : Inner) : Inner :=
  mk_Inner (slab s) (table s) (mask s) (len s) (tombstones s) (map_ids s) (map_names s) (counts s)
    (index_configs s) (indexes s) (<[map := config]> (configs s)).

(** ** Single-key operations *)

(** [e.hits.saturating_add(1)] on [u32] *)
Definition bump (hits : Z) : Z := Z.min (2 ^ 32 - 1) (hits + 1).

Definition new_entry (h map_id : Z) (handle : Handle) (key val : bytes) (expire_at stamp now hits : Z) : Entry :=
  mk_Entry h map_id handle (wrap_u32 (blen key)) (wrap_u32 (blen val)) expire_at stamp now hits.

(** A new entry goes to the first tombstone of the probe, or to the EMPTY slot that ended it. *)
Definition put_vacant (now : Z) (rnd : nat -> Z) (map key val : bytes) (map_id expire_at stamp : Z)
    (i : nat) (first_free : option nat) (s : Inner) : outcome Inner :=
  let slot := default i first_free in
  e ← index (table s) slot;
  let tombs := if e_hash e =? TOMBSTONE then wrap_u64 (tombstones s - 1) else tombstones s in
  '(sl, handle) ← put_two key val (slab s);
  t ← set_index (table s) slot (new_entry (hash map_id key) map_id handle key val expire_at stamp now 1);
  c ← add_count (counts s) map_id 1;
  let s := with_sizes (with_table (with_slab s sl) t) (wrap_u64 (len s + 1)) tombs c in
  let s := update_indexes map key None (Some val) s in
  match configs s !! map with
  | Some cfg =>
    n ← index (counts s) (Z.to_nat map_id);
    if (0 <? max_size cfg) && (max_size cfg <? n) then evict_one rnd map map_id (eviction_policy cfg) s else Ok s
  | None => Ok s
  end.

(** The value of an entry that is not expired. *)
Definition unexpired_value (now : Z) (s : Inner) (map_id : Z) (e : Entry) : outcome (option bytes) :=
  ex ← is_expired s map_id e now;
  if (ex : bool) then Ok None else (v ← val_bytes s e; Ok (Some v)).

Definition put_hit (now : Z) (map key val : bytes) (map_id expire_at stamp : Z) (i : nat) (e : Entry) (s : Inner) :
    outcome (Inner * option bytes) :=
  old ← unexpired_value now s map_id e;
  sl ← slab_free (slab s) (e_handle e);
  '(sl, handle) ← put_two key val sl;
  t ← set_index (table s) i (new_entry (hash map_id key) map_id handle key val expire_at stamp now (bump (e_hits e)));
  Ok (update_indexes map key old (Some val) (with_table (with_slab s sl) t), old).

Definition put (now : Z) (rnd : nat -> Z) (map key val : bytes) (ttl_ms stamp : Z) (s : Inner) : outcome (Inner * option bytes) :=
  let '(s, map_id) := intern map s in
  let expire_at := if 0 <? ttl_ms then wrap_u64 (now + ttl_ms) else 0 in
  s ← maybe_grow s;
  p ← probe_from s map_id key;
  match p with
  | Vacant i first_free => s ← put_vacant now rnd map key val map_id expire_at stamp i first_free s; Ok (s, None)
  | Hit i e => put_hit now map key val map_id expire_at stamp i e s
  end.

(** The slot of a live entry, its access recorded; an expired one is reaped. *)
Definition find (now : Z) (map key : bytes) (s : Inner) : outcome (Inner * option (nat * Entry)) :=
  match map_ids s !! map with
  | None => Ok (s, None)
  | Some map_id =>
    p ← probe_from s map_id key;
    match p with
    | Vacant _ _ => Ok (s, None)
    | Hit i e =>
      ex ← is_expired s map_id e now;
      if (ex : bool) then (s ← bury s i e; Ok (s, None)) else
      let e := mk_Entry (e_hash e) (e_map_id e) (e_handle e) (e_key_len e) (e_val_len e) (e_expire_at e)
                 (e_stamp e) now (bump (e_hits e)) in
      t ← set_index (table s) i e;
      Ok (with_table s t, Some (i, e))
    end
  end.

Definition get (now : Z) (map key : bytes) (s : Inner) : outcome (Inner * option bytes) :=
  '(s, f) ← find now map key s;
  match f with
  | Some (_, e) => v ← val_bytes s e; Ok (s, Some v)
  | None => Ok (s, None)
  end.

Definition contains_key (now : Z) (map key : bytes) (s : Inner) : outcome (Inner * bool) :=
  '(s, f) ← find now map key s; Ok (s, bool_decide (is_Some f)).

Definition remove (now : Z) (map key : bytes) (s : Inner) : outcome (Inner * option bytes) :=
  '(s, f) ← find now map key s;
  match f with
  | Some (i, e) =>
    old ← val_bytes s e;
    s ← bury (update_indexes map key (Some old) None s) i e;
    Ok (s, Some old)
  | None => Ok (s, None)
  end.

Definition put_if_absent (now : Z) (rnd : nat -> Z) (map key val : bytes) (ttl_ms stamp : Z) (s : Inner) :
    outcome (Inner * option bytes) :=
  '(s, f) ← find now map key s;
  match f with
  | Some (_, e) => v ← val_bytes s e; Ok (s, Some v)
  | None => '(s, _) ← put now rnd map key val ttl_ms stamp s; Ok (s, None)
  end.

(** Absent: insert; present: the higher stamp wins under [latest_update], else the entry stays. *)
Definition put_merge (now : Z) (rnd : nat -> Z) (map key val : bytes) (ttl_ms stamp : Z) (latest_update : bool) (s : Inner) :
    outcome Inner :=
  '(s, f) ← find now map key s;
  match f with
  | None => '(s, _) ← put now rnd map key val ttl_ms stamp s; Ok s
  | Some (_, e) =>
    if latest_update && (e_stamp e <? stamp)
    then ('(s, _) ← put now rnd map key val ttl_ms stamp s; Ok s)
    else Ok s
  end.

(** Replaces the value in place: stamp, expiry and access data stay. *)
Definition replace (now : Z) (map key val : bytes) (s : Inner) : outcome (Inner * option bytes) :=
  '(s, f) ← find now map key s;
  match f with
  | Some (i, e) =>
    old ← val_bytes s e;
    let s := update_indexes map key (Some old) (Some val) s in
    sl ← slab_free (slab s) (e_handle e);
    '(sl, handle) ← put_two key val sl;
    t ← set_index (table s) i (mk_Entry (e_hash e) (e_map_id e) handle (wrap_u32 (blen key)) (wrap_u32 (blen val))
          (e_expire_at e) (e_stamp e) (e_last_access_ms e) (e_hits e));
    Ok (with_table (with_slab s sl) t, Some old)
  | None => Ok (s, None)
  end.

(** ** Whole-map operations *)

Definition map_len (map : bytes) (s : Inner) : outcome Z :=
  match map_ids s !! map with Some id => index (counts s) (Z.to_nat id) | None => Ok 0 end.

(** One slot of the loop of [clear]. *)
Definition clear_slot (map_id : Z) (s : Inner) (i : nat) : outcome Inner :=
  e ← index (table s) i;
  if occupied e && (e_map_id e =? map_id) then
    (sl ← slab_free (slab s) (e_handle e);
     t ← set_index (table s) i (set_hash e TOMBSTONE);
     Ok (with_sizes (with_table (with_slab s sl) t) (wrap_u64 (len s - 1)) (wrap_u64 (tombstones s + 1)) (counts s)))
  else Ok s.

Fixpoint for_each {A} (f : Inner -> A -> outcome Inner) (l : list A) (s : Inner) : outcome Inner :=
  match l with [] => Ok s | x :: l' => s ← f s x; for_each f l' s end.

Definition clear (map : bytes) (s : Inner) : outcome Inner :=
  match map_ids s !! map with
  | None => Ok s
  | Some map_id =>
    s ← for_each (clear_slot map_id) (seq 0 (length (table s))) s;
    c ← set_index (counts s) (Z.to_nat map_id) 0;
    Ok (with_sizes s (len s) (tombstones s) c)
  end.

(** The live entries of the table that [sel] selects, in table order. *)
Fixpoint collect_live {A} (now : Z) (s : Inner) (sel : Entry -> bool) (view : Entry -> bytes -> bytes -> outcome A)
    (t : list Entry) : outcome (list A) :=
  match t with
  | [] => Ok []
  | e :: t' =>
    if occupied e && sel e then
      (ex ← is_expired s (e_map_id e) e now;
       if (ex : bool) then collect_live now s sel view t' else
       (k ← key_bytes s e; v ← val_bytes s e;
        x ← view e k v;
        xs ← collect_live now s sel view t'; Ok (x :: xs)))
    else collect_live now s sel view t'
  end.

Definition collect_entries (now : Z) (map : bytes) (s : Inner) : outcome (list (bytes * bytes)) :=
  match map_ids s !! map with
  | None => Ok []
  | Some map_id => collect_live now s (fun e => e_map_id e =? map_id) (fun _ k v => Ok (k, v)) (table s)
  end.

Definition collect_all_stamped (now : Z) (s : Inner) : outcome (list (bytes * bytes * bytes * Z)) :=
  collect_live now s (fun _ => true)
    (fun e k v => name ← index (map_names s) (Z.to_nat (e_map_id e)); Ok (name, k, v, e_stamp e)) (table s).

Definition contains_value (now : Z) (map val : bytes) (s : Inner) : outcome bool :=
  l ← collect_entries now map s; Ok (bool_decide (val ∈ l.*2)).

(** One slot of the loop of [add_index]. *)
Definition add_index_entry (now : Z) (map attr : bytes) (ty : IndexType) (map_id : Z) (s : Inner) (e : Entry) : outcome Inner :=
  if occupied e && (e_map_id e =? map_id) then
    (ex ← is_expired s map_id e now;
     if (ex : bool) then Ok s else
     (key ← key_bytes s e; val ← val_bytes s e;
      match extract val schemas attr with
      | Null => Ok s
      | fv =>
        let ixs := default ∅ (indexes s !! map) in
        let ix := default (new_index ty) (ixs !! attr) in
        Ok (with_indexes s (<[map := <[attr := index_insert fv key ix]> ixs]> (indexes s)))
      end))
  else Ok s.

(** A new index is built from the live entries; a second one on the same attributes is ignored. *)
Definition add_index (now : Z) (map : bytes) (config : IndexConfig) (s : Inner) : outcome Inner :=
  let cfgs := default [] (index_configs s !! map) in
  if existsb (fun c => bool_decide (ix_attributes c = ix_attributes config)) cfgs then Ok s else
  let s := with_index_configs s (<[map := cfgs ++ [config]]> (index_configs s)) in
  match map_ids s !! map with
  | None => Ok s
  | Some map_id =>
    for_each (fun s attr => for_each (add_index_entry now map attr (ix_ty config) map_id) (table s) s)
      (ix_attributes config) s
  end.

Section Query.
(** [text_match] is the regex crate, [iter] the order in which a [HashSet] yields its elements. *)
Context (text_match : TextKind -> bytes -> bytes -> bool) (iter : gset bytes -> list bytes).

Definition satisfies (predicate : Predicate) (val : bytes) : bool :=
  eval (fun v attr => extract v schemas attr) text_match predicate val.

(** The keys the planner resolved, looked up and checked one by one. *)
Fixpoint query_keys (now : Z) (map : bytes) (predicate : Predicate) (keys : list bytes) (s : Inner)
    : outcome (Inner * list (bytes * bytes)) :=
  match keys with
  | [] => Ok (s, [])
  | key :: keys' =>
    '(s, r) ← get now map key s;
    '(s, out) ← query_keys now map predicate keys' s;
    Ok (s, match r with
           | Some val => if satisfies predicate val then (key, val) :: out else out
           | None => out
           end)
  end.

Definition query_scan (now : Z) (map : bytes) (predicate : Predicate) (s : Inner) : outcome (Inner * list (bytes * bytes)) :=
  l ← collect_entries now map s; Ok (s, base.filter (fun kv => satisfies predicate kv.2 = true) l).

Definition query (now : Z) (map : bytes) (predicate : Predicate) (s : Inner) : outcome (Inner * list (bytes * bytes)) :=
  match map_ids s !! map with
  | None => Ok (s, [])
  | Some _ =>
    match indexes s !! map with
    | None => query_scan now map predicate s
    | Some ixs =>
      r ← plan_and_resolve predicate ixs;
      match r with
      | Some keys => query_keys now map predicate (iter keys) s
      | None => query_scan now map predicate s
      end
    end
  end.
End Query.

End Ops.
