(* ===== verification/TableFacts.v ===== *)
(** * Linear probing: where entries are, and that probes find them

    The table as a list of entries, without the slab: chains of non-EMPTY slots from an entry's home
    to its slot, and what writing a slot does to them. *)

From S2P Require Import Prelude Fixed Slab FieldValue QueryIndex Table.

(** The slot at distance [d] from the home of hash [h]. *)
Definition at_ (T : list Entry) (h : Z) (d : nat) : nat := Z.to_nat ((h + Z.of_nat d) mod blen T).

Definition pow2_table (T : list Entry) (m : Z) : Prop := exists n, 0 <= n /\ blen T = 2 ^ n /\ m = blen T - 1.

Lemma pow2_pos T m : pow2_table T m -> 0 < blen T.
Proof. intros (n & Hn & -> & _). lia. Qed.

Lemma land_mask T m x : pow2_table T m -> Z.land x m = x mod blen T.
Proof.
  intros (n & Hn & Hb & ->). rewrite Hb. replace (2 ^ n - 1) with (Z.ones n) by (rewrite Z.ones_equiv; lia).
  by apply Z.land_ones.
Qed.

Lemma home_at T m h : pow2_table T m -> home m h = at_ T h 0.
Proof. intros H. unfold home, at_. by rewrite (land_mask T m), Z.add_0_r. Qed.

Lemma next_at T m h d : pow2_table T m -> next m (at_ T h d) = at_ T h (S d).
Proof.
  intros H. pose proof (pow2_pos _ _ H). unfold next, at_. rewrite (land_mask T m) by done.
  rewrite Z2Nat.id by (by apply Z.mod_pos_bound). f_equal. rewrite Zplus_mod_idemp_l. f_equal. lia.
Qed.

Lemma at_lt T h d : T <> [] -> (at_ T h d < length T)%nat.
Proof.
  intros H. assert (0 < blen T) by (destruct T; [done | unfold blen; simpl; lia]).
  unfold at_. pose proof (Z.mod_pos_bound (h + Z.of_nat d) (blen T)). unfold blen in *. lia.
Qed.

(** Every slot is reached within one turn. *)
Lemma at_surj T h i : (i < length T)%nat -> exists d, (d < length T)%nat /\ at_ T h d = i.
Proof.
  intros Hi. assert (0 < blen T) as Hp by (unfold blen; lia).
  exists (Z.to_nat ((Z.of_nat i - h) mod blen T)). pose proof (Z.mod_pos_bound (Z.of_nat i - h) (blen T) Hp).
  split; [unfold blen in *; lia |]. unfold at_. rewrite Z2Nat.id by lia. rewrite Zplus_mod_idemp_r.
  replace (h + (Z.of_nat i - h)) with (Z.of_nat i) by lia. rewrite Z.mod_small by (unfold blen; lia). lia.
Qed.

Lemma at_inj T h d d' : (d < length T)%nat -> (d' < length T)%nat -> at_ T h d = at_ T h d' -> d = d'.
Proof.
  intros Hd Hd' He. assert (0 < blen T) as Hp by (unfold blen; lia). unfold at_ in He.
  apply Z2Nat.inj in He; [| apply Z.mod_pos_bound; lia..].
  assert ((Z.of_nat d - Z.of_nat d') mod blen T = 0) as E.
  { replace (Z.of_nat d - Z.of_nat d') with ((h + Z.of_nat d) - (h + Z.of_nat d')) by lia.
    rewrite Zminus_mod, He, Z.sub_diag. done. }
  apply Z.mod_divide in E as [q Hq]; [| lia]. unfold blen in *.
  assert (q = 0) as -> by (destruct (Z.lt_trichotomy q 0) as [? | [? | ?]]; [nia | done | nia]). lia.
Qed.

(** An entry can be found from its home: only non-EMPTY slots lie before it. *)
Definition chain (T : list Entry) (i : nat) (h : Z) : Prop :=
  exists d, (d < length T)%nat /\ at_ T h d = i /\
    forall d', (d' < d)%nat -> exists e, T !! at_ T h d' = Some e /\ e_hash e <> EMPTY.

Lemma at_length T T' h d : length T' = length T -> at_ T' h d = at_ T h d.
Proof. intros E. unfold at_, blen. by rewrite E. Qed.

(** Writing a non-EMPTY entry keeps every chain. *)
Lemma chain_insert T i h j e : e_hash e <> EMPTY -> chain T i h -> chain (<[j := e]> T) i h.
Proof.
  intros He (d & Hd & Hi & Hbefore). exists d. rewrite length_insert, (at_length T) by apply length_insert.
  split_and!; [done | done |]. intros d' Hd'. rewrite (at_length T) by apply length_insert.
  destruct (Hbefore d' Hd') as (x & Hx & Hxe). destruct (decide (at_ T h d' = j)) as [<- | Hne].
  - exists e. rewrite list_lookup_insert_eq by (by eapply lookup_lt_Some). done.
  - exists x. by rewrite list_lookup_insert_ne.
Qed.

(** ** Slots by kind *)

Definition occ (T : list Entry) : list Entry := filter (fun e => occupied e = true) T.
Definition tombs (T : list Entry) : list Entry := filter (fun e => e_hash e = TOMBSTONE) T.

Lemma filter_insert_perm (P : Entry -> Prop) `{!forall e, Decision (P e)} T i e0 e :
  T !! i = Some e0 ->
  filter P T ≡ₚ filter P [e0] ++ filter P (delete i T)
  /\ filter P (<[i := e]> T) ≡ₚ filter P [e] ++ filter P (delete i T).
Proof.
  intros Hi. rewrite <- !filter_app. split; apply filter_Permutation; simpl.
  - rewrite <- (take_drop_middle T i e0 Hi) at 1. rewrite delete_take_drop. solve_Permutation.
  - rewrite insert_take_drop by (by eapply lookup_lt_Some). rewrite delete_take_drop. solve_Permutation.
Qed.

Lemma occ_add T i e0 e :
  T !! i = Some e0 -> occupied e0 = false -> occupied e = true -> occ (<[i := e]> T) ≡ₚ e :: occ T.
Proof.
  intros Hi H0 H1. unfold occ. destruct (filter_insert_perm (fun e => occupied e = true) T i e0 e Hi) as [E1 E2].
  rewrite E2, E1. rewrite filter_cons_True, filter_cons_False by congruence. by rewrite !filter_nil.
Qed.

Lemma occ_remove T i e0 e :
  T !! i = Some e0 -> occupied e0 = true -> occupied e = false -> occ T ≡ₚ e0 :: occ (<[i := e]> T).
Proof.
  intros Hi H0 H1. unfold occ. destruct (filter_insert_perm (fun e => occupied e = true) T i e0 e Hi) as [E1 E2].
  rewrite E2, E1. rewrite filter_cons_True, filter_cons_False by congruence. by rewrite !filter_nil.
Qed.

Lemma occ_replace T i e0 e :
  T !! i = Some e0 -> occupied e0 = true -> occupied e = true ->
  exists es, occ T ≡ₚ e0 :: es /\ occ (<[i := e]> T) ≡ₚ e :: es.
Proof.
  intros Hi H0 H1. unfold occ. destruct (filter_insert_perm (fun e => occupied e = true) T i e0 e Hi) as [E1 E2].
  exists (filter (fun e => occupied e = true) (delete i T)).
  rewrite E2, E1. rewrite !filter_cons_True by congruence. by rewrite !filter_nil.
Qed.

Lemma elem_of_occ T e : e ∈ occ T <-> exists i, T !! i = Some e /\ occupied e = true.
Proof.
  unfold occ. rewrite list_elem_of_filter, list_elem_of_lookup. naive_solver.
Qed.

Lemma tombs_insert T i e0 e :
  T !! i = Some e0 ->
  blen (tombs (<[i := e]> T)) = blen (tombs T) + (if decide (e_hash e = TOMBSTONE) then 1 else 0)
    - (if decide (e_hash e0 = TOMBSTONE) then 1 else 0).
Proof.
  intros Hi. unfold tombs. destruct (filter_insert_perm (fun e => e_hash e = TOMBSTONE) T i e0 e Hi) as [E1 E2].
  unfold blen. rewrite E1, E2, !length_app, !filter_cons, !filter_nil. do 2 case_decide; simpl; lia.
Qed.

Lemma not_occupied e : occupied e = false -> 0 <= e_hash e -> e_hash e = EMPTY \/ e_hash e = TOMBSTONE.
Proof. unfold occupied, EMPTY, TOMBSTONE. intros ?%Z.ltb_ge. lia. Qed.

Lemma filter_none (P : Entry -> Prop) `{!forall e, Decision (P e)} T : Forall (fun e => ~ P e) T -> filter P T = [].
Proof. induction 1 as [| e T He _ IH]; [done |]. by rewrite filter_cons_False. Qed.

(** A table with room has an EMPTY slot. *)
Lemma has_empty T :
  Forall (fun e => 0 <= e_hash e) T -> blen (occ T) + blen (tombs T) < blen T ->
  exists i e, T !! i = Some e /\ e_hash e = EMPTY.
Proof.
  induction T as [| e T IH]; intros Hf; [unfold blen; simpl; lia |].
  apply Forall_cons in Hf as [He Hf]. unfold occ, tombs in *. rewrite !filter_cons, blen_cons.
  destruct (decide (e_hash e = EMPTY)) as [E | E]; [intros _; by exists 0%nat, e |].
  intros Hlt. destruct IH as (i & x & Hi & Hx); [done | | by exists (S i), x].
  destruct (occupied e) eqn:Eo.
  - rewrite decide_True, decide_False in Hlt; [rewrite blen_cons in Hlt; lia | | done].
    unfold occupied, TOMBSTONE in *. apply Z.ltb_lt in Eo. lia.
  - destruct (not_occupied e Eo He) as [? | Ht]; [done |].
    rewrite decide_False, decide_True in Hlt by (done || congruence). rewrite blen_cons in Hlt. lia.
Qed.

(** * What a table stands for

    The occupied entries with the blobs of the slab are a finite map from (map id, key) to cells. *)

(** A stored value with its bookkeeping. *)
Record Cell := mk_cell { c_val : bytes; c_expire : Z; c_stamp : Z; c_access : Z; c_hits : Z }.

Definition cell (e : Entry) (v : bytes) : Cell :=
  mk_cell v (e_expire_at e) (e_stamp e) (e_last_access_ms e) (e_hits e).

(** The blob of [e] is the key [k] and the value [v]. *)
Definition holds (L : gmap Handle bytes) (e : Entry) (k v : bytes) : Prop :=
  L !! e_handle e = Some (k ++ v) /\ e_key_len e = blen k /\ e_val_len e = blen v
  /\ blen k + blen v < 2 ^ 32 /\ e_hash e = hash (e_map_id e) k.

Definition blob (L : gmap Handle bytes) (e : Entry) : bytes := default [] (L !! e_handle e).
Definition ekey (L : gmap Handle bytes) (e : Entry) : Z * bytes :=
  (e_map_id e, take (Z.to_nat (e_key_len e)) (blob L e)).
Definition ecell (L : gmap Handle bytes) (e : Entry) : Cell :=
  cell e (drop (Z.to_nat (e_key_len e)) (blob L e)).

Lemma holds_key L e k v : holds L e k v -> ekey L e = (e_map_id e, k).
Proof.
  intros (H & Hk & _). unfold ekey, blob. rewrite H, Hk. unfold blen. change (default [] (Some (k ++ v))) with (k ++ v).
  by rewrite Nat2Z.id, take_app_length.
Qed.

Lemma holds_cell L e k v : holds L e k v -> ecell L e = cell e v.
Proof.
  intros (H & Hk & _). unfold ecell, blob. rewrite H, Hk. unfold blen. change (default [] (Some (k ++ v))) with (k ++ v).
  by rewrite Nat2Z.id, drop_app_length.
Qed.

Lemma hash_large m k : 2 ^ 63 <= hash m k.
Proof.
  unfold hash. set (x := foldl _ _ k).
  assert (0 <= x) as Hx.
  { unfold x. clear. assert (forall l h, 0 <= h -> 0 <= foldl fnv_step h l) as H.
    { induction l as [| b l IH]; intros h Hh; simpl; [done |]. apply IH. apply wrap_u64_range. }
    apply H, H. lia. }
  apply Z.log2_le_pow2; [| by rewrite Z.log2_lor, Z.log2_pow2 by lia; lia].
  assert (0 <= Z.lor x (2 ^ 63)) by (apply Z.lor_nonneg; lia).
  destruct (Z.eq_dec (Z.lor x (2 ^ 63)) 0) as [E | ?]; [| lia].
  apply Z.lor_eq_0_iff in E as [_ E]. done.
Qed.

Lemma holds_occupied L e k v : holds L e k v -> occupied e = true.
Proof.
  intros (_ & _ & _ & _ & H). unfold occupied, TOMBSTONE. rewrite H. pose proof (hash_large (e_map_id e) k).
  apply Z.ltb_lt. lia.
Qed.

Record contents (L : gmap Handle bytes) (es : list Entry) (M : gmap (Z * bytes) Cell) : Prop := {
  c_handles : NoDup (e_handle <$> es);
  c_dom : forall h, is_Some (L !! h) <-> h ∈ e_handle <$> es;
  c_live : forall e, e ∈ es -> exists k v, holds L e k v;
  c_keys : NoDup (ekey L <$> es);
  c_map : M = list_to_map ((fun e => (ekey L e, ecell L e)) <$> es)
}.

Lemma fst_pairs L es : ((fun e => (ekey L e, ecell L e)) <$> es).*1 = ekey L <$> es.
Proof. rewrite <- list_fmap_compose. done. Qed.

Lemma contents_perm L es es' M : es ≡ₚ es' -> contents L es M -> contents L es' M.
Proof.
  intros Hp [H1 H2 H3 H4 H5]. split.
  - by rewrite <- Hp.
  - intros h. by rewrite <- Hp.
  - intros e. rewrite <- Hp. apply H3.
  - by rewrite <- Hp.
  - rewrite H5. apply list_to_map_proper; [by rewrite fst_pairs | by rewrite Hp].
Qed.

Lemma contents_size L es M : contents L es M -> (size L <= length es)%nat.
Proof.
  intros H. rewrite <- size_dom.
  assert (dom L ⊆ list_to_set (e_handle <$> es)) as Hs%subseteq_size.
  { intros h Hh%elem_of_dom. apply elem_of_list_to_set. by apply (c_dom _ _ _ H). }
  rewrite size_list_to_set, length_fmap in Hs by apply H. done.
Qed.

Lemma contents_lookup L es M e k v :
  contents L es M -> e ∈ es -> holds L e k v -> M !! (e_map_id e, k) = Some (cell e v).
Proof.
  intros H He Hh. rewrite (c_map _ _ _ H). apply elem_of_list_to_map_1; [rewrite fst_pairs; apply H |].
  apply list_elem_of_fmap. exists e. split; [| done]. by rewrite (holds_key _ _ _ _ Hh), (holds_cell _ _ _ _ Hh).
Qed.

Lemma contents_lookup_inv L es M m k c :
  contents L es M -> M !! (m, k) = Some c ->
  exists e v, e ∈ es /\ e_map_id e = m /\ holds L e k v /\ c = cell e v.
Proof.
  intros H Hm. rewrite (c_map _ _ _ H) in Hm. apply elem_of_list_to_map_2 in Hm.
  apply list_elem_of_fmap in Hm as (e & [= E1 E2 E3] & He). destruct (c_live _ _ _ H e He) as (k' & v & Hh).
  exists e, v. pose proof (holds_key _ _ _ _ Hh) as Hk. unfold ekey in Hk. injection Hk as Hk.
  rewrite Hk in E2. rewrite (holds_cell _ _ _ _ Hh) in E3. by subst.
Qed.

Lemma NoDup_fmap_elem {A B} (f : A -> B) (l : list A) x y :
  NoDup (f <$> l) -> x ∈ l -> y ∈ l -> f x = f y -> x = y.
Proof.
  intros Hn [i Hi]%list_elem_of_lookup [j Hj]%list_elem_of_lookup E.
  assert (i = j) as ->; [| congruence]. apply (NoDup_lookup _ i j (f x) Hn).
  - by rewrite list_lookup_fmap, Hi.
  - by rewrite list_lookup_fmap, Hj, E.
Qed.

(** Two entries of the same map and key are the same entry. *)
Lemma contents_unique L es M e e' k v v' :
  contents L es M -> e ∈ es -> e' ∈ es -> e_map_id e = e_map_id e' -> holds L e k v -> holds L e' k v' -> e = e'.
Proof.
  intros H He He' Hm Hh Hh'. eapply (NoDup_fmap_elem (ekey L)); [apply H | done | done |].
  by rewrite (holds_key _ _ _ _ Hh), (holds_key _ _ _ _ Hh'), Hm.
Qed.

(** ** Updates *)

(** Entries whose blobs are the same in two slabs look the same. *)
Lemma views_ext L L' (es : list Entry) :
  (forall e, e ∈ es -> L' !! e_handle e = L !! e_handle e) ->
  ekey L' <$> es = ekey L <$> es
  /\ (fun e => (ekey L' e, ecell L' e)) <$> es = (fun e => (ekey L e, ecell L e)) <$> es.
Proof.
  intros H. split; apply list_fmap_ext; intros i e He%list_elem_of_lookup_2; unfold ekey, ecell, blob; by rewrite H.
Qed.

Lemma holds_ext L L' e k v : L' !! e_handle e = L !! e_handle e -> holds L e k v -> holds L' e k v.
Proof. unfold holds. by intros ->. Qed.

Lemma contents_add L es M e k v :
  contents L es M -> L !! e_handle e = None -> M !! (e_map_id e, k) = None ->
  holds (<[e_handle e := k ++ v]> L) e k v ->
  contents (<[e_handle e := k ++ v]> L) (e :: es) (<[(e_map_id e, k) := cell e v]> M).
Proof.
  intros H Hn Hm Hh. set (L' := <[e_handle e := k ++ v]> L) in *.
  assert (forall x, x ∈ es -> L' !! e_handle x = L !! e_handle x) as Hsame.
  { intros x Hx. unfold L'. rewrite lookup_insert_ne; [done |]. intros E.
    assert (is_Some (L !! e_handle x)) as [? Hs]; [| by rewrite <- E, Hn in Hs].
    apply (c_dom _ _ _ H). apply list_elem_of_fmap. eauto. }
  destruct (views_ext L L' es Hsame) as [Ek Ev].
  assert (e_handle e ∉ e_handle <$> es) as Hfresh.
  { intros [? Hs]%(c_dom _ _ _ H). congruence. }
  pose proof (holds_key _ _ _ _ Hh) as Hkey. split.
  - apply NoDup_cons. split; [done | apply H].
  - intros h. rewrite fmap_cons, elem_of_cons, <- (c_dom _ _ _ H). unfold L'.
    destruct (decide (h = e_handle e)) as [-> | Hne].
    + rewrite lookup_insert_eq. split; [by left | eauto].
    + rewrite lookup_insert_ne by done. naive_solver.
  - intros x [-> | Hx]%elem_of_cons; [eauto |]. destruct (c_live _ _ _ H x Hx) as (k' & v' & Hx').
    exists k', v'. eapply holds_ext, Hx'. by apply Hsame.
  - rewrite fmap_cons, Hkey, Ek. apply NoDup_cons. split; [| apply H].
    intros (x & E & Hx)%list_elem_of_fmap. destruct (c_live _ _ _ H x Hx) as (k' & v' & Hx').
    rewrite (holds_key _ _ _ _ Hx') in E. injection E as E1 E2. subst k'.
    by rewrite E1, (contents_lookup _ _ _ _ _ _ H Hx Hx') in Hm.
  - rewrite fmap_cons, Ev, Hkey, (holds_cell _ _ _ _ Hh). simpl. by rewrite (c_map _ _ _ H).
Qed.

Lemma contents_remove L es M e k v :
  contents L (e :: es) M -> holds L e k v ->
  contents (delete (e_handle e) L) es (delete (e_map_id e, k) M).
Proof.
  intros H Hh. pose proof (c_handles _ _ _ H) as Hnd. rewrite fmap_cons in Hnd. apply NoDup_cons in Hnd as [Hfresh Hnd].
  set (L' := delete (e_handle e) L).
  assert (forall x, x ∈ es -> L' !! e_handle x = L !! e_handle x) as Hsame.
  { intros x Hx. unfold L'. rewrite lookup_delete_ne; [done |]. intros E. apply Hfresh. rewrite E.
    apply list_elem_of_fmap. eauto. }
  destruct (views_ext L L' es Hsame) as [Ek Ev]. pose proof (c_keys _ _ _ H) as Hkeys.
  rewrite fmap_cons, (holds_key _ _ _ _ Hh) in Hkeys. apply NoDup_cons in Hkeys as [Hkf Hkeys]. split.
  - done.
  - intros h. unfold L'. pose proof (c_dom _ _ _ H h) as Hd. rewrite fmap_cons, elem_of_cons in Hd.
    destruct (decide (h = e_handle e)) as [-> | Hne].
    + rewrite lookup_delete_eq. split; [by intros [? ?] | done].
    + rewrite lookup_delete_ne by done. naive_solver.
  - intros x Hx. destruct (c_live _ _ _ H x) as (k' & v' & Hx'); [by right |].
    exists k', v'. eapply holds_ext, Hx'. by apply Hsame.
  - by rewrite Ek.
  - rewrite Ev, (c_map _ _ _ H), fmap_cons, (holds_key _ _ _ _ Hh). cbn [list_to_map foldr].
    rewrite delete_insert_id; [done |]. apply not_elem_of_list_to_map_1. by rewrite fst_pairs.
Qed.

(** New bookkeeping for an entry. *)
Lemma contents_touch L es M e e' k v :
  contents L (e :: es) M -> holds L e k v -> holds L e' k v ->
  e_map_id e' = e_map_id e -> e_handle e' = e_handle e ->
  contents L (e' :: es) (<[(e_map_id e, k) := cell e' v]> M).
Proof.
  intros H Hh Hh' Em Eh. pose proof (c_handles _ _ _ H) as Hnd. pose proof (c_dom _ _ _ H) as Hdom.
  pose proof (c_keys _ _ _ H) as Hkeys. pose proof (holds_key _ _ _ _ Hh) as Hk. pose proof (holds_key _ _ _ _ Hh') as Hk'.
  rewrite fmap_cons in *. split.
  - by rewrite fmap_cons, Eh.
  - intros h. by rewrite fmap_cons, Eh.
  - intros x [-> | Hx]%elem_of_cons; [eauto |]. apply H. by right.
  - by rewrite fmap_cons, Hk', Em, <- Hk.
  - rewrite (c_map _ _ _ H), !fmap_cons, Hk, Hk', Em, (holds_cell _ _ _ _ Hh'). cbn [list_to_map foldr].
    by rewrite insert_insert_eq.
Qed.

(** * The table's invariant, and what each operation does to the map it stands for *)

Record inner_ok (L : gmap Handle bytes) (M : gmap (Z * bytes) Cell) (s : Inner) : Prop := {
  io_slab : slab_ok L (slab s);
  io_contents : contents L (occ (table s)) M;
  io_chain : forall i e, table s !! i = Some e -> occupied e = true -> chain (table s) i (e_hash e);
  io_cap : pow2_table (table s) (mask s);
  io_min : 16 <= blen (table s);
  io_hash : Forall (fun e => 0 <= e_hash e) (table s);
  io_len : len s = blen (occ (table s));
  io_tombs : tombstones s = blen (tombs (table s));
  io_load : (len s + tombstones s) * 8 < blen (table s) * 7;
  io_names : forall name id, map_ids s !! name = Some id <-> 0 <= id /\ map_names s !! Z.to_nat id = Some name;
  io_counts_len : length (counts s) = length (map_names s);
  io_counts : forall id c, counts s !! id = Some c ->
    c = blen (filter (fun e => e_map_id e = Z.of_nat id) (occ (table s)));
  io_map_id : forall e, e ∈ occ (table s) -> 0 <= e_map_id e < blen (map_names s)
}.

Lemma io_nonempty L M s : inner_ok L M s -> table s <> [].
Proof. intros H E. pose proof (io_min _ _ _ H) as Hm. by rewrite E in Hm. Qed.

(** ** Reading entries *)

Lemma entry_len_holds L e k v : holds L e k v -> entry_len e = length (k ++ v).
Proof.
  intros (_ & Hk & Hv & Hlt & _). unfold entry_len. rewrite Hk, Hv, wrap_u32_small, length_app; unfold blen, is_u32 in *; lia.
Qed.

Lemma slab_get_entry L sl e k v :
  slab_ok L sl -> holds L e k v -> slab_get sl (e_handle e) (entry_len e) = Ok (k ++ v).
Proof.
  intros Hs Hh. rewrite (entry_len_holds _ _ _ _ Hh). destruct Hh as (Hl & _).
  rewrite (slab_get_ok L sl _ (k ++ v)) by (done || lia). by rewrite take_ge.
Qed.

Lemma key_bytes_ok L s e k v : slab_ok L (slab s) -> holds L e k v -> key_bytes s e = Ok k.
Proof.
  intros Hs Hh. unfold key_bytes. rewrite (slab_get_entry L _ _ k v) by done. cbn [mbind outcome_bind].
  destruct Hh as (_ & Hk & _). rewrite Hk. unfold slice, blen. rewrite Nat2Z.id, Nat.add_0_l, length_app.
  rewrite (proj2 (Nat.leb_le _ _)) by lia. by rewrite drop_0, take_app_length.
Qed.

Lemma val_bytes_ok L s e k v : slab_ok L (slab s) -> holds L e k v -> val_bytes s e = Ok v.
Proof.
  intros Hs Hh. unfold val_bytes. rewrite (slab_get_entry L _ _ k v) by done. cbn [mbind outcome_bind].
  destruct Hh as (_ & Hk & _). rewrite Hk. unfold blen. rewrite Nat2Z.id, length_app.
  rewrite (proj2 (Nat.leb_le _ _)) by lia. by rewrite drop_app_length.
Qed.

(** Entries of the table hold their blobs. *)
Lemma entry_holds L M s i e :
  inner_ok L M s -> table s !! i = Some e -> occupied e = true -> exists k v, holds L e k v.
Proof. intros H Hi Ho. apply (c_live _ _ _ (io_contents _ _ _ H)). apply elem_of_occ. eauto. Qed.

Lemma holds_fun L e k v k' v' : holds L e k v -> holds L e k' v' -> k = k' /\ v = v'.
Proof.
  intros (H & Hk & _) (H' & Hk' & _). rewrite H in H'. injection H' as E. apply app_inj_1 in E; [done |].
  unfold blen in *. lia.
Qed.

(** ** Probing *)

Definition matches (L : gmap Handle bytes) (e : Entry) (m : Z) (key : bytes) : Prop :=
  occupied e = true /\ e_map_id e = m /\ exists v, holds L e key v.

(** What a probe returns. *)
Definition probe_result (L : gmap Handle bytes) (M : gmap (Z * bytes) Cell) (s : Inner) (m : Z) (key : bytes) (p : Probe) : Prop :=
  match p with
  | Hit i e => table s !! i = Some e /\ matches L e m key
  | Vacant i ff =>
    M !! (m, key) = None /\ chain (table s) (default i ff) (hash m key)
    /\ exists e0, table s !! default i ff = Some e0 /\ occupied e0 = false
  end.

Section Probing.
Context (L : gmap Handle bytes) (M : gmap (Z * bytes) Cell) (s : Inner) (m : Z) (key : bytes).
Context (Hok : inner_ok L M s).
Abbreviation T := (table s).
Abbreviation h := (hash m key).

(** The slots passed in [d] steps: none EMPTY, none a match. *)
Definition passed (d : nat) : Prop :=
  forall d', (d' < d)%nat -> exists e, T !! at_ T h d' = Some e /\ e_hash e <> EMPTY /\ ~ matches L e m key.

Definition free_seen (d : nat) (ff : option nat) : Prop :=
  match ff with
  | Some j => exists d', (d' < d)%nat /\ at_ T h d' = j /\ exists e, T !! j = Some e /\ e_hash e = TOMBSTONE
  | None => True
  end.

Lemma passed_chain d d' : passed d -> (d' <= d)%nat -> (d' < length T)%nat -> chain T (at_ T h d') h.
Proof.
  intros Hp Hle Hlt. exists d'. split_and!; [done | done |]. intros d'' Hd''.
  destruct (Hp d'') as (e & He & Hne & _); [lia | eauto].
Qed.

(** If the probe meets an EMPTY slot, the key is not in the table. *)
Lemma passed_absent d e :
  passed d -> (d < length T)%nat -> T !! at_ T h d = Some e -> e_hash e = EMPTY -> M !! (m, key) = None.
Proof.
  intros Hp Hd He Hempty. destruct (M !! (m, key)) as [c |] eqn:Hm; [exfalso | done].
  destruct (contents_lookup_inv _ _ _ _ _ _ (io_contents _ _ _ Hok) Hm) as (x & v & Hx & Hxm & Hxh & _).
  apply elem_of_occ in Hx as (i & Hi & Hxo).
  destruct (io_chain _ _ _ Hok i x Hi Hxo) as (dx & Hdx & Hat & Hbefore).
  pose proof Hxh as (_ & _ & _ & _ & Hhash). rewrite Hxm in Hhash. rewrite Hhash in Hat, Hbefore.
  destruct (lt_eq_lt_dec dx d) as [[Hlt | Heq] | Hgt].
  - destruct (Hp dx Hlt) as (y & Hy & _ & Hny). rewrite Hat, Hi in Hy. injection Hy as <-.
    apply Hny. split_and!; [done | done | eauto].
  - subst dx. rewrite Hat, Hi in He. injection He as <-. unfold occupied, EMPTY, TOMBSTONE in *. apply Z.ltb_lt in Hxo. lia.
  - destruct (Hbefore d Hgt) as (y & Hy & Hny). congruence.
Qed.

Lemma free_seen_chain d ff i :
  passed d -> free_seen d ff -> (d < length T)%nat -> i = at_ T h d ->
  (exists e0, T !! i = Some e0 /\ occupied e0 = false) ->
  chain T (default i ff) h /\ exists e0, T !! default i ff = Some e0 /\ occupied e0 = false.
Proof.
  intros Hp Hf Hd -> He. destruct ff as [j |]; cbn [default id].
  - destruct Hf as (d' & Hd' & <- & e & Hj & Ht). split; [apply (passed_chain d); [done | lia | lia] |].
    exists e. split; [done |]. unfold occupied. by rewrite Ht.
  - split; [| done]. apply (passed_chain d); [done | lia | done].
Qed.

Lemma passed_S d e :
  passed d -> T !! at_ T h d = Some e -> e_hash e <> EMPTY -> ~ matches L e m key -> passed (S d).
Proof.
  intros Hp He Hne Hnm d' Hd'. destruct (decide (d' = d)) as [-> | Hx]; [eauto |]. apply Hp. lia.
Qed.

Lemma free_seen_S d ff : free_seen d ff -> free_seen (S d) ff.
Proof. destruct ff as [j |]; [| done]. intros (d' & ? & ?). exists d'. split; [lia | done]. Qed.

Lemma probe_loop fuel d ff :
  (d + fuel = length T)%nat -> passed d -> free_seen d ff ->
  post (probe fuel s m h key (at_ T h d) ff) (probe_result L M s m key).
Proof.
  revert d ff. induction fuel as [| fuel IH]; intros d ff Hfuel Hp Hf; cbn [probe].
  - destruct (has_empty T) as (i & e & Hi & He); [apply Hok | |].
    { pose proof (io_load _ _ _ Hok) as Hl. rewrite (io_len _ _ _ Hok), (io_tombs _ _ _ Hok) in Hl.
      pose proof (blen_nonneg (occ T)). pose proof (blen_nonneg (tombs T)). pose proof (io_min _ _ _ Hok). lia. }
    destruct (at_surj T h i) as (d' & Hd' & Hat); [by eapply lookup_lt_Some |].
    destruct (Hp d') as (x & Hx & Hne & _); [lia |]. rewrite Hat, Hi in Hx. congruence.
  - destruct (lookup_lt_is_Some_2 T (at_ T h d)) as [e He]; [apply at_lt; by eapply io_nonempty |].
    unfold index. rewrite He. cbn [mbind outcome_bind]. rewrite (next_at T) by apply Hok.
    destruct (Z.eqb_spec (e_hash e) EMPTY) as [Ee | Ee].
    + cbn [post probe_result]. split; [eapply passed_absent; eauto; lia |].
      eapply free_seen_chain; eauto; [lia |]. exists e. split; [done |]. unfold occupied. by rewrite Ee.
    + destruct (Z.eqb_spec (e_hash e) TOMBSTONE) as [Et | Et].
      * assert (~ matches L e m key) as Hnm by (intros [Ho _]; unfold occupied in Ho; by rewrite Et in Ho).
        apply IH; [lia | by eapply passed_S |]. destruct ff as [j |]; [by apply free_seen_S |].
        exists d. cbn [default id]. split_and!; [lia | done | eauto].
      * assert (occupied e = true) as Ho.
        { unfold occupied, EMPTY, TOMBSTONE in *. apply Z.ltb_lt.
          pose proof (io_hash _ _ _ Hok) as Hh. rewrite Forall_lookup in Hh. specialize (Hh _ _ He). simpl in Hh. lia. }
        destruct (entry_holds L M s _ e Hok He Ho) as (k & v & Hh).
        assert (k <> key \/ e_map_id e <> m -> ~ matches L e m key) as Hnm.
        { intros Hd (_ & Hm & v' & Hh'). destruct (holds_fun _ _ _ _ _ _ Hh Hh') as [-> _]. naive_solver. }
        destruct ((e_hash e =? h) && (e_map_id e =? m)) eqn:Em.
        -- apply andb_true_iff in Em as [_ Em%Z.eqb_eq].
           rewrite (key_bytes_ok L s e k v) by (done || apply Hok). cbn [mbind outcome_bind].
           case_decide as Ek.
           ++ subst k. cbn [post probe_result]. split; [done |]. split_and!; eauto.
           ++ apply IH; [lia | eapply passed_S; eauto | by apply free_seen_S].
        -- apply IH; [lia | eapply passed_S; eauto | by apply free_seen_S]. apply Hnm.
           apply andb_false_iff in Em as [Em%Z.eqb_neq | Em%Z.eqb_neq]; [| by right].
           destruct (decide (e_map_id e = m)) as [Hm |]; [left | by right]. intros ->.
           destruct Hh as (_ & _ & _ & _ & Hh). rewrite Hm in Hh. done.
Qed.

Lemma probe_from_ok : post (probe_from s m key) (probe_result L M s m key).
Proof.
  unfold probe_from. rewrite (home_at T) by apply Hok. apply (probe_loop _ 0 None); [done | | done].
  intros d' Hd'. lia.
Qed.
End Probing.

(** ** Writing a slot *)

(** Sizes stay far from the width of [usize]. *)
Definition small (s : Inner) : Prop := blen (table s) < 2 ^ 60.

(** What no single-slot operation changes. *)
Record frame (s s' : Inner) : Prop := {
  fr_ids : map_ids s' = map_ids s;
  fr_names : map_names s' = map_names s;
  fr_configs : configs s' = configs s;
  fr_index_configs : index_configs s' = index_configs s;
  fr_cap : length (table s') = length (table s)
}.

#[export] Instance frame_preorder : PreOrder frame.
Proof. split; [by intros s | intros s1 s2 s3 [] []; split; congruence]. Qed.

Lemma frame_small s s' : frame s s' -> small s -> small s'.
Proof. intros H. unfold small, blen. by rewrite (fr_cap _ _ H). Qed.

Lemma len_bounds L M s : inner_ok L M s -> 0 <= len s /\ 0 <= tombstones s /\ len s + tombstones s < blen (table s).
Proof.
  intros H. pose proof (io_load _ _ _ H). rewrite (io_len _ _ _ H), (io_tombs _ _ _ H) in *.
  pose proof (blen_nonneg (occ (table s))). pose proof (blen_nonneg (tombs (table s))). lia.
Qed.

Lemma count_of L M s id :
  inner_ok L M s -> 0 <= id < blen (map_names s) ->
  counts s !! Z.to_nat id = Some (blen (filter (fun e => e_map_id e = id) (occ (table s)))).
Proof.
  intros H Hid. destruct (lookup_lt_is_Some_2 (counts s) (Z.to_nat id)) as [c Hc].
  { rewrite (io_counts_len _ _ _ H). unfold blen in Hid. lia. }
  rewrite Hc. f_equal. rewrite (io_counts _ _ _ H _ _ Hc). f_equal. apply list_filter_iff. intros e. lia.
Qed.

Lemma add_count_ok L M s id d :
  inner_ok L M s -> 0 <= id < blen (map_names s) ->
  let n := blen (filter (fun e => e_map_id e = id) (occ (table s))) in
  is_u64 (n + d) -> add_count (counts s) id d = Ok (<[Z.to_nat id := n + d]> (counts s)).
Proof.
  intros H Hid n Hn. pose proof (count_of L M s id H Hid) as Hc. unfold add_count, index, set_index.
  rewrite Hc. cbn [mbind outcome_bind]. rewrite decide_True by (by eapply lookup_lt_Some).
  by rewrite wrap_u64_small.
Qed.

(** The part of the invariant that concerns slots alone. *)
Lemma table_write L M s i e0 e :
  inner_ok L M s -> table s !! i = Some e0 -> 0 <= e_hash e -> e_hash e <> EMPTY ->
  (occupied e = true -> chain (table s) i (e_hash e)) ->
  (forall j x, <[i := e]> (table s) !! j = Some x -> occupied x = true -> chain (<[i := e]> (table s)) j (e_hash x))
  /\ pow2_table (<[i := e]> (table s)) (mask s)
  /\ 16 <= blen (<[i := e]> (table s))
  /\ Forall (fun e => 0 <= e_hash e) (<[i := e]> (table s)).
Proof.
  intros H Hi H0 Hne Hch. assert (blen (<[i := e]> (table s)) = blen (table s)) as El by (unfold blen; by rewrite length_insert).
  split_and!.
  - intros j x Hj Hx. apply list_lookup_insert_Some in Hj as [(<- & <- & _) | (_ & Hj)].
    + apply chain_insert; [done | by apply Hch].
    + apply chain_insert; [done | by eapply io_chain].
  - destruct (io_cap _ _ _ H) as (n & ? & ? & ?). exists n. by rewrite El.
  - rewrite El. apply H.
  - apply Forall_insert; [apply H | done].
Qed.

(** Every map's count after a write, from the entries. *)
Lemma counts_write L M s id n (es' : list Entry) :
  inner_ok L M s -> 0 <= id < blen (map_names s) ->
  (forall m, m <> id -> blen (filter (fun e => e_map_id e = m) es') = blen (filter (fun e => e_map_id e = m) (occ (table s)))) ->
  blen (filter (fun e => e_map_id e = id) es') = n ->
  forall k c, <[Z.to_nat id := n]> (counts s) !! k = Some c -> c = blen (filter (fun e => e_map_id e = Z.of_nat k) es').
Proof.
  intros H Hid Hother Hn k c Hk. apply list_lookup_insert_Some in Hk as [(<- & <- & _) | (Hne & Hk)].
  - rewrite <- Hn. f_equal. apply list_filter_iff. intros e. lia.
  - rewrite (io_counts _ _ _ H _ _ Hk). rewrite <- Hother; [done |]. intros <-. lia.
Qed.

Lemma filter_cons_map (e : Entry) es m :
  blen (filter (fun e => e_map_id e = m) (e :: es))
  = (if decide (e_map_id e = m) then 1 else 0) + blen (filter (fun e => e_map_id e = m) es).
Proof. rewrite filter_cons. case_decide; [rewrite blen_cons |]; lia. Qed.

Lemma filter_perm_map es es' m :
  es ≡ₚ es' -> blen (filter (fun e => e_map_id e = m) es) = blen (filter (fun e : Entry => e_map_id e = m) es').
Proof. intros Hp. unfold blen. by rewrite Hp. Qed.

(** Burying an entry removes its key. *)
Lemma bury_ok L M s i e k v :
  inner_ok L M s -> small s -> table s !! i = Some e -> holds L e k v ->
  post (bury s i e) (fun s' => inner_ok (delete (e_handle e) L) (delete (e_map_id e, k) M) s' /\ frame s s'
    /\ len s' = len s - 1 /\ tombstones s' = tombstones s + 1 /\ indexes s' = indexes s).
Proof.
  intros H Hsm Hi Hh. pose proof (holds_occupied _ _ _ _ Hh) as Ho. pose proof (len_bounds _ _ _ H) as Hb. unfold small in Hsm.
  assert (e ∈ occ (table s)) as He by (apply elem_of_occ; eauto).
  pose proof (io_map_id _ _ _ H e He) as Hid.
  set (e' := set_hash e TOMBSTONE). assert (occupied e' = false) as Ho' by done.
  pose proof (occ_remove (table s) i e e' Hi Ho Ho') as Hp.
  assert (blen (occ (table s)) = 1 + blen (occ (<[i := e']> (table s)))) as Hlen by (unfold blen; rewrite Hp; simpl; lia).
  pose proof (filter_perm_map _ _ (e_map_id e) Hp) as Hcnt. rewrite filter_cons_map, decide_True in Hcnt by done.
  pose proof (blen_nonneg (filter (fun x => e_map_id x = e_map_id e) (occ (<[i := e']> (table s))))).
  assert (blen (filter (fun x => e_map_id x = e_map_id e) (occ (table s))) <= blen (occ (table s))) as Hle
    by (unfold blen; pose proof (length_filter (fun x => e_map_id x = e_map_id e) (occ (table s))); lia).
  unfold bury. eapply post_bind; [eapply slab_free_ok; [apply H | apply Hh] |]. intros sl Hsl.
  eapply post_bind; [apply post_set_index; by eapply lookup_lt_Some |]. intros t ->. fold e'.
  rewrite (add_count_ok L M s (e_map_id e) (-1)) by (done || (unfold is_u64; rewrite (io_len _ _ _ H) in Hb; lia)).
  cbn [mbind outcome_bind post].
  destruct (table_write L M s i e e' H Hi) as (T1 & T2 & T3 & T4); [done | done | by rewrite Ho' |].
  rewrite !wrap_u64_small by (unfold is_u64; rewrite (io_len _ _ _ H) in *; lia).
  pose proof (tombs_insert (table s) i e e' Hi) as Ht. rewrite decide_True, decide_False in Ht; [| | done].
  2: { unfold occupied in Ho. apply Z.ltb_lt in Ho. lia. }
  split; [split; cbn [slab table mask len tombstones map_ids map_names counts with_sizes with_table with_slab]; try done |].
  - eapply contents_remove; [| exact Hh]. eapply contents_perm; [exact Hp | apply H].
  - rewrite (io_len _ _ _ H). lia.
  - rewrite (io_tombs _ _ _ H). lia.
  - pose proof (io_load _ _ _ H). unfold blen in *. rewrite length_insert. lia.
  - apply H.
  - rewrite length_insert. apply H.
  - eapply (counts_write L M s (e_map_id e)); [done | done | | lia].
    intros m Hm. rewrite (filter_perm_map _ _ m Hp), filter_cons_map, decide_False by done. lia.
  - intros x Hx. apply (io_map_id _ _ _ H). rewrite Hp. by right.
  - split; [split; try done; cbn; apply length_insert | done].
Qed.

(** Filling a slot that is not occupied adds its key. *)
Lemma add_ok L M s i e0 e k v sl :
  inner_ok L M s -> small s -> table s !! i = Some e0 -> occupied e0 = false -> chain (table s) i (e_hash e) ->
  L !! e_handle e = None -> M !! (e_map_id e, k) = None -> holds (<[e_handle e := k ++ v]> L) e k v ->
  slab_ok (<[e_handle e := k ++ v]> L) sl -> 0 <= e_map_id e < blen (map_names s) ->
  (len s + tombstones s + 1) * 8 < blen (table s) * 7 ->
  exists c tb, add_count (counts s) (e_map_id e) 1 = Ok c
    /\ tb = (if e_hash e0 =? TOMBSTONE then wrap_u64 (tombstones s - 1) else tombstones s)
    /\ tb <= tombstones s
    /\ inner_ok (<[e_handle e := k ++ v]> L) (<[(e_map_id e, k) := cell e v]> M)
         (with_sizes (with_table (with_slab s sl) (<[i := e]> (table s))) (wrap_u64 (len s + 1)) tb c).
Proof.
  intros H Hsm Hi H0 Hch HL HM Hh Hsl Hid Hload. unfold small in Hsm.
  pose proof (holds_occupied _ _ _ _ Hh) as Ho. pose proof (len_bounds _ _ _ H) as Hb.
  pose proof (occ_add (table s) i e0 e Hi H0 Ho) as Hp.
  assert (blen (occ (<[i := e]> (table s))) = 1 + blen (occ (table s))) as Hlen by (unfold blen; rewrite Hp; simpl; lia).
  pose proof (filter_perm_map _ _ (e_map_id e) Hp) as Hcnt. rewrite filter_cons_map, decide_True in Hcnt by done.
  pose proof (blen_nonneg (filter (fun x => e_map_id x = e_map_id e) (occ (table s)))).
  assert (blen (filter (fun x => e_map_id x = e_map_id e) (occ (table s))) <= blen (occ (table s))) as Hle
    by (unfold blen; pose proof (length_filter (fun x => e_map_id x = e_map_id e) (occ (table s))); lia).
  assert (TOMBSTONE < e_hash e) as Hgt by (by apply Z.ltb_lt). unfold TOMBSTONE in Hgt.
  destruct (table_write L M s i e0 e H Hi) as (T1 & T2 & T3 & T4); [lia | unfold EMPTY; lia | done |].
  pose proof (tombs_insert (table s) i e0 e Hi) as Ht. rewrite (decide_False (P := e_hash e = TOMBSTONE)) in Ht by (unfold TOMBSTONE; lia).
  pose proof (blen_nonneg (tombs (<[i := e]> (table s)))). rewrite (io_tombs _ _ _ H), (io_len _ _ _ H) in *.
  exists (<[Z.to_nat (e_map_id e) := blen (filter (fun x => e_map_id x = e_map_id e) (occ (table s))) + 1]> (counts s)).
  assert ((if e_hash e0 =? TOMBSTONE then wrap_u64 (blen (tombs (table s)) - 1) else blen (tombs (table s)))
    = blen (tombs (<[i := e]> (table s)))) as Etb.
  { rewrite Ht. destruct (Z.eqb_spec (e_hash e0) TOMBSTONE) as [E | E]; case_decide; try done; [| lia].
    rewrite wrap_u64_small by (unfold is_u64; lia). lia. }
  exists (blen (tombs (<[i := e]> (table s)))). split_and!.
  - apply (add_count_ok L M s); [done | done |]. unfold is_u64. lia.
  - done.
  - rewrite Ht. case_decide; lia.
  - rewrite wrap_u64_small by (unfold is_u64; lia).
    split; cbn [slab table mask len tombstones map_ids map_names counts with_sizes with_table with_slab]; try done.
    + eapply contents_perm; [symmetry; exact Hp |]. apply contents_add; [apply H | done..].
    + lia.
    + unfold blen at 3. rewrite length_insert. fold (blen (table s)). rewrite Ht. case_decide; lia.
    + apply H.
    + rewrite length_insert. apply H.
    + eapply (counts_write L M s (e_map_id e)); [done | done | | lia].
      intros m Hm. rewrite (filter_perm_map _ _ m Hp), filter_cons_map, decide_False by done. lia.
    + intros x. rewrite Hp. intros [-> | Hx]%elem_of_cons; [done |]. by apply (io_map_id _ _ _ H).
Qed.

(** Overwriting an entry of the same map and hash. *)
Lemma write_hit L M L' M' s sl i e e' :
  inner_ok L M s -> table s !! i = Some e -> occupied e = true -> e_hash e' = e_hash e -> e_map_id e' = e_map_id e ->
  slab_ok L' sl -> (forall es, contents L (e :: es) M -> contents L' (e' :: es) M') ->
  inner_ok L' M' (with_table (with_slab s sl) (<[i := e']> (table s))).
Proof.
  intros H Hi Ho Eh Em Hsl Hc. assert (occupied e' = true) as Ho' by (unfold occupied; by rewrite Eh).
  assert (TOMBSTONE < e_hash e') as Hgt by (by apply Z.ltb_lt). unfold TOMBSTONE in Hgt.
  destruct (occ_replace (table s) i e e' Hi Ho Ho') as (es & P1 & P2).
  destruct (table_write L M s i e e' H Hi) as (T1 & T2 & T3 & T4); [lia | unfold EMPTY; lia | rewrite Eh; intros _; by eapply io_chain |].
  assert (blen (occ (<[i := e']> (table s))) = blen (occ (table s))) as Hlen by (unfold blen; rewrite P1, P2; done).
  assert (blen (tombs (<[i := e']> (table s))) = blen (tombs (table s))) as Ht.
  { rewrite (tombs_insert (table s) i e e' Hi), !decide_False by (unfold TOMBSTONE; lia). lia. }
  assert (forall m, blen (filter (fun e => e_map_id e = m) (occ (<[i := e']> (table s)))) = blen (filter (fun e => e_map_id e = m) (occ (table s)))) as Hm.
  { intros m. rewrite (filter_perm_map _ _ m P1), (filter_perm_map _ _ m P2), !filter_cons_map, Em. done. }
  split; cbn [slab table mask len tombstones map_ids map_names counts with_table with_slab]; try done; try apply H.
  - eapply contents_perm; [symmetry; exact P2 |]. apply Hc. eapply contents_perm; [exact P1 | apply H].
  - rewrite (io_len _ _ _ H). done.
  - rewrite (io_tombs _ _ _ H). done.
  - pose proof (io_load _ _ _ H). unfold blen in *. rewrite length_insert. lia.
  - intros id c Hc'. rewrite Hm. by eapply io_counts.
  - intros x. rewrite P2. intros [-> | Hx]%elem_of_cons.
    + rewrite Em. apply (io_map_id _ _ _ H). rewrite P1. by left.
    + apply (io_map_id _ _ _ H). rewrite P1. by right.
Qed.

(** New contents under an entry's key: the old blob freed, the new one stored. *)
Lemma contents_rewrite L es M e e' k v v' :
  contents L (e :: es) M -> holds L e k v -> e_map_id e' = e_map_id e -> delete (e_handle e) L !! e_handle e' = None ->
  holds (<[e_handle e' := k ++ v']> (delete (e_handle e) L)) e' k v' ->
  contents (<[e_handle e' := k ++ v']> (delete (e_handle e) L)) (e' :: es) (<[(e_map_id e, k) := cell e' v']> M).
Proof.
  intros H Hh Em Hn Hh'. rewrite <- Em, <- (insert_delete_eq M (e_map_id e', k)).
  apply contents_add; [rewrite Em; by eapply contents_remove | done | apply lookup_delete_eq | done].
Qed.

Lemma inner_ok_indexes {S} (extract : bytes -> S -> bytes -> FieldValue) (sc : S) L M s map key o n :
  inner_ok L M s -> inner_ok L M (update_indexes extract sc map key o n s) /\ frame s (update_indexes extract sc map key o n s)
    /\ len (update_indexes extract sc map key o n s) = len s /\ tombstones (update_indexes extract sc map key o n s) = tombstones s
    /\ slab (update_indexes extract sc map key o n s) = slab s /\ table (update_indexes extract sc map key o n s) = table s
    /\ counts (update_indexes extract sc map key o n s) = counts s.
Proof. intros H. unfold update_indexes. case_match; [| done]. split_and!; try done. by destruct H. Qed.

(** ** Growing *)

(** A table under construction: no tombstones, chains intact. *)
Record fresh_table (t : list Entry) (m : Z) : Prop := {
  ft_cap : pow2_table t m;
  ft_slots : Forall (fun e => e_hash e = EMPTY \/ occupied e = true) t;
  ft_chain : forall i e, t !! i = Some e -> occupied e = true -> chain t i (e_hash e)
}.

Lemma fresh_no_tombs t m : fresh_table t m -> tombs t = [].
Proof.
  intros H. unfold tombs. apply filter_none. eapply Forall_impl; [apply H |].
  intros e [-> | Ho] E; [done |]. unfold occupied in Ho. by rewrite E in Ho.
Qed.

Lemma fresh_hash t m : fresh_table t m -> Forall (fun e => 0 <= e_hash e) t.
Proof.
  intros H. eapply Forall_impl; [apply H |]. intros e [-> | Ho]; [done |].
  unfold occupied, TOMBSTONE in Ho. apply Z.ltb_lt in Ho. simpl. lia.
Qed.

Lemma fresh_write t m i e0 e d :
  fresh_table t m -> occupied e = true -> t !! i = Some e0 -> occupied e0 = false ->
  (d < length t)%nat -> at_ t (e_hash e) d = i ->
  (forall d', (d' < d)%nat -> exists x, t !! at_ t (e_hash e) d' = Some x /\ occupied x = true) ->
  fresh_table (<[i := e]> t) m /\ occ (<[i := e]> t) ≡ₚ e :: occ t.
Proof.
  intros H Ho Hi H0 Hd Hat Hp. assert (e_hash e <> EMPTY) as Hne.
  { unfold occupied, EMPTY, TOMBSTONE in *. apply Z.ltb_lt in Ho. lia. }
  split; [| by eapply occ_add]. split.
  - destruct (ft_cap _ _ H) as (n & ? & ? & ?). exists n. unfold blen in *. by rewrite length_insert.
  - apply Forall_insert; [apply H | by right].
  - intros j x Hj Hx. apply list_lookup_insert_Some in Hj as [(<- & <- & _) | (_ & Hj)].
    + apply chain_insert; [done |]. exists d. split_and!; [done | done |]. intros d' Hd'.
      destruct (Hp d' Hd') as (x & Hx1 & Hx2). exists x. split; [done |].
      unfold occupied, EMPTY, TOMBSTONE in *. apply Z.ltb_lt in Hx2. lia.
    + apply chain_insert; [done | by eapply ft_chain].
Qed.

Lemma place_ok fuel d t m e :
  fresh_table t m -> occupied e = true -> blen (occ t) < blen t -> (d + fuel = length t)%nat ->
  (forall d', (d' < d)%nat -> exists x, t !! at_ t (e_hash e) d' = Some x /\ occupied x = true) ->
  post (place fuel m t e (at_ t (e_hash e) d))
    (fun t' => fresh_table t' m /\ length t' = length t /\ occ t' ≡ₚ e :: occ t).
Proof.
  intros H Ho Hroom. revert d. induction fuel as [| fuel IH]; intros d Hf Hp; cbn [place].
  - destruct (has_empty t) as (i & x & Hi & Hx); [by eapply fresh_hash | |].
    { rewrite (fresh_no_tombs _ _ H). unfold blen in *. simpl. lia. }
    destruct (at_surj t (e_hash e) i) as (d' & Hd' & Hat); [by eapply lookup_lt_Some |].
    destruct (Hp d') as (y & Hy & Hyo); [lia |]. rewrite Hat, Hi in Hy. injection Hy as <-.
    unfold occupied in Hyo. by rewrite Hx in Hyo.
  - assert (t <> []) as Hne by (intros ->; simpl in Hf; lia).
    destruct (lookup_lt_is_Some_2 t (at_ t (e_hash e) d)) as [x Hx]; [by apply at_lt |].
    unfold index. rewrite Hx. cbn [mbind outcome_bind]. destruct (occupied x) eqn:Eo.
    + rewrite (next_at t) by apply H. apply IH; [lia |]. intros d' Hd'.
      destruct (decide (d' = d)) as [-> | ?]; [eauto | apply Hp; lia].
    + unfold set_index. rewrite decide_True by (by apply at_lt). cbn [post].
      destruct (fresh_write t m (at_ t (e_hash e) d) x e d) as [Hw Ho']; try done; [lia |].
      split_and!; [done | apply length_insert | done].
Qed.

Lemma rehash_ok m es t :
  fresh_table t m -> blen (occ es) + blen (occ t) < blen t ->
  post (rehash m es t) (fun t' => fresh_table t' m /\ length t' = length t /\ occ t' ≡ₚ occ es ++ occ t).
Proof.
  revert t. induction es as [| e es IH]; intros t H Hroom; cbn [rehash]; [done |].
  unfold occ in Hroom. rewrite filter_cons in Hroom. fold (occ es) (occ t) in Hroom.
  pose proof (blen_nonneg (occ es)).
  assert (occ (e :: es) = (if occupied e then [e] else []) ++ occ es) as Eocc.
  { unfold occ. rewrite filter_cons. destruct (occupied e); [by rewrite decide_True | by rewrite decide_False]. }
  rewrite Eocc. destruct (occupied e) eqn:Eo.
  - rewrite decide_True, blen_cons in Hroom by done. rewrite (home_at t) by apply H. eapply post_bind.
    { apply (place_ok _ 0 t m e); [done | done | lia | done |]. intros d' Hd'. lia. }
    intros t' (H' & Hl & Hp). eapply post_mono; [apply IH; [done |] |].
    + unfold blen in *. rewrite Hl, Hp. simpl. lia.
    + intros t'' (H'' & Hl' & Hp'). split_and!; [done | congruence |]. rewrite Hp', Hp. solve_Permutation.
  - rewrite decide_False in Hroom by congruence. cbn [mbind outcome_bind app]. by apply IH.
Qed.

Lemma fresh_replicate n : 0 <= n -> fresh_table (replicate (Z.to_nat (2 ^ n)) empty_entry) (2 ^ n - 1).
Proof.
  intros Hn. assert (blen (replicate (Z.to_nat (2 ^ n)) empty_entry) = 2 ^ n) as El by (unfold blen; rewrite length_replicate; lia).
  split.
  - exists n. rewrite El. done.
  - apply Forall_replicate. by left.
  - intros i e [-> _]%lookup_replicate_1 Ho. done.
Qed.

Lemma occ_replicate n : occ (replicate n empty_entry) = [].
Proof. unfold occ. apply filter_none. apply Forall_replicate. done. Qed.

(** Growing keeps the map and leaves room for one more entry. *)
Lemma maybe_grow_ok L M s :
  inner_ok L M s -> 2 * blen (table s) < 2 ^ 60 ->
  post (maybe_grow s) (fun s' => inner_ok L M s'
    /\ (len s' + tombstones s' + 1) * 8 < blen (table s') * 7
    /\ (table s' = table s \/ blen (table s') = 2 * blen (table s) /\ blen (table s) * 7 <= (len s + tombstones s + 1) * 8)
    /\ len s' = len s /\ tombstones s' <= tombstones s
    /\ map_ids s' = map_ids s /\ map_names s' = map_names s /\ configs s' = configs s /\ index_configs s' = index_configs s
    /\ indexes s' = indexes s).
Proof.
  intros H Hsm. pose proof (len_bounds _ _ _ H) as Hb. pose proof (io_min _ _ _ H) as Hmin.
  destruct (io_cap _ _ _ H) as (n & Hn & Hcap & Hmask). unfold maybe_grow. rewrite Hmask.
  replace (blen (table s) - 1 + 1) with (blen (table s)) by lia.
  rewrite !wrap_u64_small by (unfold is_u64; lia).
  destruct (Z.ltb_spec ((len s + tombstones s + 1) * 8) (blen (table s) * 7)) as [Hroom | Hfull].
  { cbn [post]. split_and!; first [done | lia | by left]. }
  replace (blen (table s) * 2) with (2 ^ (n + 1)) by (rewrite Hcap, Z.pow_add_r by lia; lia).
  assert (2 ^ (n + 1) = 2 * blen (table s)) as Epow by (rewrite Hcap, Z.pow_add_r by lia; lia).
  set (t0 := replicate (Z.to_nat (2 ^ (n + 1))) empty_entry).
  assert (blen t0 = 2 * blen (table s)) as Et0 by (unfold t0, blen; rewrite length_replicate; unfold blen in Epow; lia).
  rewrite (io_len _ _ _ H) in *. eapply post_bind.
  { apply (rehash_ok _ (table s) t0); [apply fresh_replicate; lia |]. unfold t0 at 1. rewrite occ_replicate, blen_nil. lia. }
  intros t (Hft & Hl & Hp). unfold t0 in Hp. rewrite occ_replicate, app_nil_r in Hp. cbn [post].
  assert (blen t = 2 * blen (table s)) as Et by (unfold blen in *; lia).
  assert (blen (occ t) = blen (occ (table s))) as Eo by (unfold blen; by rewrite Hp).
  split_and!; cbn [len tombstones table map_ids map_names configs index_configs]; try done; try lia.
  split; cbn [slab table mask len tombstones map_ids map_names counts]; try apply H; try lia; try done.
  - eapply contents_perm; [symmetry; exact Hp | apply H].
  - apply Hft.
  - apply Hft.
  - by eapply fresh_hash.
  - by rewrite (fresh_no_tombs _ _ Hft).
  - intros id c Hc. rewrite (io_counts _ _ _ H _ _ Hc). by apply filter_perm_map.
  - intros e. rewrite Hp. apply H.
Qed.
