(* ===== verification/TableIndex.v ===== *)
(** * The secondary indexes of a shard

    An index must have every live entry under its field's value.  [covered] states that of a whole
    shard, over its abstract contents; an operation that rewrites, adds or removes an entry keeps it
    when it tells [update_indexes] the value it wrote. *)

From S2P Require Import Prelude Fixed Slab FieldValue QueryIndex Table TableFacts.

(** ** The abstract shard *)

Abbreviation amap := (gmap (bytes * bytes) Cell).

Definition cell_expired (cfgs : gmap bytes MapConfig) (name : bytes) (c : Cell) (now : Z) : bool :=
  negb (c_expire c =? 0) && (c_expire c <=? now)
  || match cfgs !! name with
     | Some cfg => (0 <? max_idle_ms cfg) && (max_idle_ms cfg <? sat_sub now (c_access c))
     | None => false
     end.

(** An access: its time and one more hit. *)
Definition touch (now : Z) (c : Cell) : Cell := mk_cell (c_val c) (c_expire c) (c_stamp c) now (bump (c_hits c)).

(** Once expired, an entry stays expired. *)
Lemma cell_expired_mono cfgs name c now now' :
  now <= now' -> cell_expired cfgs name c now = true -> cell_expired cfgs name c now' = true.
Proof.
  intros Hle. unfold cell_expired, sat_sub. rewrite !orb_true_iff, !andb_true_iff.
  intros [[H1 H2%Z.leb_le] | H2]; [left; split; [done | apply Z.leb_le; lia] | right].
  destruct (cfgs !! name) as [cfg |]; [| done]. apply andb_true_iff in H2 as [H1 H2%Z.ltb_lt].
  apply andb_true_iff. split; [done |]. apply Z.ltb_lt. lia.
Qed.

Section Indexes.
Context {Schemas : Type} (extract : bytes -> Schemas -> bytes -> FieldValue) (schemas : Schemas).

(** The index of [attr] has [key] under the field's value of [val]; a field that is absent, or a
    double, need not be there. *)
Definition in_index (ixs : gmap bytes Index) (attr key val : bytes) : Prop :=
  let fv := extract val schemas attr in
  fv <> Null -> is_f64 fv = false -> exists ix, ixs !! attr = Some ix /\ index_mem ix fv key.

Definition configured (s : Inner) (map attr : bytes) : Prop :=
  exists cfgs c, index_configs s !! map = Some cfgs /\ c ∈ cfgs /\ attr ∈ ix_attributes c.

Definition map_indexes (s : Inner) (map : bytes) : gmap bytes Index := default ∅ (indexes s !! map).

Record covered (now : Z) (A : amap) (s : Inner) : Prop := {
  cv_wf : forall map attr ix, map_indexes s map !! attr = Some ix -> index_wf ix /\ configured s map attr;
  cv_mem : forall map key attr c, A !! (map, key) = Some c -> cell_expired (configs s) map c now = false ->
    configured s map attr -> in_index (map_indexes s map) attr key (c_val c)
}.

(** The same entries or fewer, each with a value it was indexed under. *)
Lemma covered_weaken now now' A A' s s' :
  indexes s' = indexes s -> index_configs s' = index_configs s ->
  (forall map key c', A' !! (map, key) = Some c' -> cell_expired (configs s') map c' now' = false ->
     exists c, A !! (map, key) = Some c /\ c_val c = c_val c' /\ cell_expired (configs s) map c now = false) ->
  covered now A s -> covered now' A' s'.
Proof.
  intros Ei Ec HA [Hwf Hmem]. unfold map_indexes, configured in *. rewrite <- Ei, <- Ec in *. split; [done |].
  intros map key attr c' Hc' Hex Hcfg. destruct (HA map key c' Hc' Hex) as (c & Hc & <- & Hex'). by eapply Hmem.
Qed.

Lemma covered_later now now' A s : now <= now' -> covered now A s -> covered now' A s.
Proof.
  intros Hle. apply covered_weaken; [done | done |]. intros map key c Hc Hex. exists c. split_and!; [done | done |].
  destruct (cell_expired _ _ c now) eqn:E; [| done]. by rewrite (cell_expired_mono _ _ _ _ _ Hle E) in Hex.
Qed.

Lemma covered_frame now A s s' : frame s s' -> indexes s' = indexes s -> covered now A s -> covered now A s'.
Proof.
  intros Hf Hi. apply covered_weaken; [done | apply Hf |]. intros map key c. rewrite (fr_configs _ _ Hf). eauto.
Qed.

Lemma covered_delete now A s k : covered now A s -> covered now (delete k A) s.
Proof. apply covered_weaken; [done | done |]. intros map key c [_ Hc]%lookup_delete_Some Hex. eauto. Qed.

Lemma covered_same_val now A s map key c c' :
  A !! (map, key) = Some c -> cell_expired (configs s) map c now = false -> c_val c' = c_val c ->
  covered now A s -> covered now (<[(map, key) := c']> A) s.
Proof.
  intros Hc Hex Hv. apply covered_weaken; [done | done |]. intros map' key' c'' [[[= <- <-] <-] | [_ Hc'']]%lookup_insert_Some Hex'.
  - exists c. done.
  - eauto.
Qed.

(** ** update_indexes *)

Lemma drop_value_mem attr key0 old ix fv key :
  key <> key0 -> index_mem ix fv key -> index_mem (drop_value extract schemas attr key0 old ix) fv key.
Proof.
  intros Hk Hm. unfold drop_value. destruct old as [o |]; [| done].
  destruct (extract o schemas attr); try done; by apply index_remove_mem.
Qed.

Lemma add_value_mem attr key0 new ix fv key :
  index_mem ix fv key -> index_mem (add_value extract schemas attr key0 new ix) fv key.
Proof.
  intros Hm. unfold add_value. destruct new as [n |]; [| done].
  destruct (extract n schemas attr); try done; by apply index_insert_mem.
Qed.

Lemma add_value_new attr key val ix :
  extract val schemas attr <> Null -> is_f64 (extract val schemas attr) = false ->
  index_mem (add_value extract schemas attr key (Some val) ix) (extract val schemas attr) key.
Proof. intros Hn Hf. unfold add_value. destruct (extract val schemas attr); try done; by apply index_insert_mem_new. Qed.

Lemma add_drop_wf attr key old new ix :
  index_wf ix -> index_wf (add_value extract schemas attr key new (drop_value extract schemas attr key old ix)).
Proof.
  intros H. unfold add_value, drop_value.
  destruct new as [n |], old as [o |]; try destruct (extract n schemas attr); try destruct (extract o schemas attr);
    auto using index_insert_wf, index_remove_wf.
Qed.

Lemma new_index_wf ty : index_wf (new_index ty).
Proof. by destruct ty. Qed.

(** After updating the attribute [attr0] for [key0], other keys are where they were, and [key0] is under
    the value of [new]. *)
Lemma update_index_keeps ty attr0 key0 old new ixs attr key val :
  key <> key0 \/ new = Some val -> in_index ixs attr key val ->
  in_index (update_index extract schemas ty attr0 key0 old new ixs) attr key val.
Proof.
  intros Hk Hin Hn Hf. destruct (Hin Hn Hf) as (ix & Hix & Hmem). unfold update_index.
  destruct (decide (attr0 = attr)) as [-> | Hne]; [| rewrite lookup_insert_ne by done; eauto].
  rewrite lookup_insert_eq, Hix. eexists. split; [done |].
  destruct (decide (key = key0)) as [-> | Hk']; [destruct Hk as [Hk | ->]; [done |] | by apply add_value_mem, drop_value_mem].
  by apply add_value_new.
Qed.

Lemma update_index_adds ty attr key old val ixs :
  in_index (update_index extract schemas ty attr key old (Some val) ixs) attr key val.
Proof. intros Hn Hf. unfold update_index. rewrite lookup_insert_eq. eexists. split; [done |]. by apply add_value_new. Qed.

(** [update_indexes] as one pass over pairs of an index type and an attribute. *)
Definition config_attrs (cfgs : list IndexConfig) : list (IndexType * bytes) :=
  c ← cfgs; (fun attr => (ix_ty c, attr)) <$> ix_attributes c.

Definition update_all (key : bytes) (old new : option bytes) (ixs : gmap bytes Index) (l : list (IndexType * bytes)) : gmap bytes Index :=
  foldl (fun ixs p => update_index extract schemas p.1 p.2 key old new ixs) ixs l.

Lemma update_all_eq key old new cfgs ixs :
  foldl (fun ixs c => foldl (fun ixs attr => update_index extract schemas (ix_ty c) attr key old new ixs) ixs (ix_attributes c)) ixs cfgs
  = update_all key old new ixs (config_attrs cfgs).
Proof.
  revert ixs. induction cfgs as [| c cfgs IH]; intros ixs; [done |]. unfold update_all, config_attrs in *.
  cbn [foldl mbind list_bind]. rewrite foldl_app, <- IH. f_equal. symmetry. apply foldl_fmap.
Qed.

Lemma elem_of_config_attrs cfgs attr :
  (exists ty, (ty, attr) ∈ config_attrs cfgs) <-> exists c, c ∈ cfgs /\ attr ∈ ix_attributes c.
Proof.
  unfold config_attrs. setoid_rewrite list_elem_of_bind. setoid_rewrite list_elem_of_fmap. split.
  - intros (ty & c & (a & [= -> ->] & Ha) & Hc). eauto.
  - intros (c & Hc & Ha). exists (ix_ty c), c. eauto.
Qed.

Lemma update_all_keeps key0 old new l ixs attr key val :
  key <> key0 \/ new = Some val -> in_index ixs attr key val -> in_index (update_all key0 old new ixs l) attr key val.
Proof.
  intros Hk. revert ixs. induction l as [| [ty a] l IH]; intros ixs Hin; [done |].
  apply IH. by apply update_index_keeps.
Qed.

Lemma update_all_adds key old val l ixs attr ty :
  (ty, attr) ∈ l -> in_index (update_all key old (Some val) ixs l) attr key val.
Proof.
  revert ixs. induction l as [| [ty' a] l IH]; intros ixs; [by intros ?%elem_of_nil |].
  intros [[= <- <-] | Hin]%elem_of_cons; [| by apply IH].
  apply (update_all_keeps key old (Some val) l); [by right | apply update_index_adds].
Qed.

Lemma update_all_wf key old new l ixs attr ix :
  (forall attr ix, ixs !! attr = Some ix -> index_wf ix) -> update_all key old new ixs l !! attr = Some ix ->
  index_wf ix /\ (is_Some (ixs !! attr) \/ exists ty, (ty, attr) ∈ l).
Proof.
  revert ixs. induction l as [| [ty a] l IH]; intros ixs Hwf Hix.
  - split; [by eapply Hwf | left; eauto].
  - destruct (IH (update_index extract schemas ty a key old new ixs)) as [H1 H2]; [| done |].
    + intros attr' ix'. unfold update_index. intros [[<- <-] | [_ ?]]%lookup_insert_Some; [| by eapply Hwf].
      apply add_drop_wf. destruct (ixs !! a) eqn:E; [by eapply Hwf | apply new_index_wf].
    + split; [done |]. destruct H2 as [H2 | (ty' & H2)]; [| right; exists ty'; by right].
      unfold update_index in H2. apply lookup_insert_is_Some in H2 as [-> | [_ H2]]; [right; exists ty; left | by left].
Qed.

(** ** Preservation *)

Lemma map_indexes_update map key old new s map' :
  map_indexes (update_indexes extract schemas map key old new s) map'
  = match index_configs s !! map with
    | Some cfgs => if decide (map = map') then update_all key old new (map_indexes s map) (config_attrs cfgs) else map_indexes s map'
    | None => map_indexes s map'
    end.
Proof.
  unfold update_indexes. destruct (index_configs s !! map) as [cfgs |]; [| done].
  unfold map_indexes at 1. cbn [with_indexes indexes]. rewrite update_all_eq. case_decide as E.
  - subst map'. by rewrite lookup_insert_eq.
  - by rewrite lookup_insert_ne.
Qed.

Lemma index_configs_update map key old new s :
  index_configs (update_indexes extract schemas map key old new s) = index_configs s
  /\ configs (update_indexes extract schemas map key old new s) = configs s.
Proof. unfold update_indexes. by destruct (index_configs s !! map). Qed.

(** Writing [val] under (map, key), or removing the entry, with the indexes told. *)
Lemma covered_update now A A' s map key old new :
  covered now A s ->
  (forall map' key', (map', key') <> (map, key) -> A' !! (map', key') = A !! (map', key')) ->
  (forall c, A' !! (map, key) = Some c -> new = Some (c_val c)) ->
  covered now A' (update_indexes extract schemas map key old new s).
Proof.
  intros [Hwf Hmem] Hother Hnew. destruct (index_configs_update map key old new s) as [Ei Ec].
  split.
  - intros map' attr ix. rewrite map_indexes_update. unfold configured. rewrite Ei.
    destruct (index_configs s !! map) as [cfgs |] eqn:Ecf; [| apply Hwf]. case_decide as E; [subst map' | apply Hwf].
    intros Hix. apply update_all_wf in Hix as [H1 H2]; [| intros a i Hi; by apply (Hwf map a i)]. split; [done |].
    destruct H2 as [[ix' H2] | H2]; [by destruct (Hwf map attr ix' H2) |].
    apply elem_of_config_attrs in H2 as (c & ? & ?). exists cfgs, c. done.
  - intros map' key' attr c Hc. rewrite Ec, map_indexes_update. unfold configured. rewrite Ei. intros Hex Hcfg.
    destruct (decide ((map', key') = (map, key))) as [[= -> ->] | Hne].
    + specialize (Hnew c Hc). destruct Hcfg as (cfgs & cf & Hcf & Hin & Ha). rewrite Hcf. rewrite decide_True by done.
      subst new. destruct (proj2 (elem_of_config_attrs cfgs attr)) as [ty Hty]; [eauto |]. by eapply update_all_adds.
    + rewrite Hother in Hc by done. specialize (Hmem map' key' attr c Hc Hex Hcfg).
      destruct (index_configs s !! map) as [cfgs |]; [| done]. case_decide as E; [subst map' | done].
      apply update_all_keeps; [left; congruence | done].
Qed.

Lemma covered_write now A s map key old c :
  covered now A s -> covered now (<[(map, key) := c]> A) (update_indexes extract schemas map key old (Some (c_val c)) s).
Proof.
  intros H. apply (covered_update now A); [done | |].
  - intros map' key' Hne. by rewrite lookup_insert_ne.
  - intros c'. rewrite lookup_insert_eq. by intros [= <-].
Qed.

Lemma covered_erase now A s map key old :
  covered now A s -> covered now (delete (map, key) A) (update_indexes extract schemas map key old None s).
Proof.
  intros H. apply (covered_update now A); [done | |].
  - intros map' key' Hne. by rewrite lookup_delete_ne.
  - intros c'. by rewrite lookup_delete_eq.
Qed.
End Indexes.
