(* ===== verification/TableSpec.v ===== *)
(** * A shard refines a finite map

    The abstract shard is a map from (map name, key) to cells.  Each operation of [Inner] is shown to
    return what the abstract operation returns and to keep the two in step; the probes terminate and
    nothing panics. *)

From S2P Require Import Prelude Fixed Slab FieldValue QueryIndex Table TableFacts TableIndex.

(** ** The abstract operations *)

(** A live entry, touched; an expired one is removed. *)
Definition a_find (cfgs : gmap bytes MapConfig) (now : Z) (name key : bytes) (A : amap) : amap * option Cell :=
  match A !! (name, key) with
  | None => (A, None)
  | Some c =>
    if cell_expired cfgs name c now then (delete (name, key) A, None)
    else (<[(name, key) := touch now c]> A, Some (touch now c))
  end.

Definition a_put (cfgs : gmap bytes MapConfig) (now : Z) (name key val : bytes) (ttl_ms stamp : Z) (A : amap) : amap * option bytes :=
  let expire := if 0 <? ttl_ms then wrap_u64 (now + ttl_ms) else 0 in
  match A !! (name, key) with
  | None => (<[(name, key) := mk_cell val expire stamp now 1]> A, None)
  | Some c =>
    (<[(name, key) := mk_cell val expire stamp now (bump (c_hits c))]> A,
     if cell_expired cfgs name c now then None else Some (c_val c))
  end.

(** ** Names and ids *)

Definition named (s : Inner) (M : gmap (Z * bytes) Cell) (A : amap) : Prop :=
  forall name key, A !! (name, key) = id ← map_ids s !! name; M !! (id, key).

Definition shard_ok (A : amap) (s : Inner) : Prop := exists L M, inner_ok L M s /\ named s M A.

Lemma name_of_id L M s name id : inner_ok L M s -> map_ids s !! name = Some id ->
  0 <= id < blen (map_names s) /\ map_names s !! Z.to_nat id = Some name.
Proof.
  intros H Hid. apply (io_names _ _ _ H) in Hid as [H0 Hn]. split; [| done]. apply lookup_lt_Some in Hn. unfold blen. lia.
Qed.

Lemma same_id L M s name name' id :
  inner_ok L M s -> map_ids s !! name = Some id -> map_ids s !! name' = Some id -> name = name'.
Proof.
  intros H H1 H2. apply (io_names _ _ _ H) in H1 as [_ H1], H2 as [_ H2]. congruence.
Qed.

Lemma named_insert L M0 s M A name id key c :
  inner_ok L M0 s -> named s M A -> map_ids s !! name = Some id ->
  named s (<[(id, key) := c]> M) (<[(name, key) := c]> A).
Proof.
  intros H Hn Hid name' key'. destruct (decide ((name, key) = (name', key'))) as [[= <- <-] | Hne].
  - rewrite lookup_insert_eq, Hid. cbn [mbind option_bind]. by rewrite lookup_insert_eq.
  - rewrite lookup_insert_ne, Hn by done. destruct (map_ids s !! name') as [id' |] eqn:E; [| done].
    cbn [mbind option_bind]. rewrite lookup_insert_ne; [done |]. intros [= <- <-].
    apply Hne. by rewrite (same_id _ _ _ _ _ _ H Hid E).
Qed.

Lemma named_delete L M0 s M A name id key :
  inner_ok L M0 s -> named s M A -> map_ids s !! name = Some id ->
  named s (delete (id, key) M) (delete (name, key) A).
Proof.
  intros H Hn Hid name' key'. destruct (decide ((name, key) = (name', key'))) as [[= <- <-] | Hne].
  - rewrite lookup_delete_eq, Hid. cbn [mbind option_bind]. by rewrite lookup_delete_eq.
  - rewrite lookup_delete_ne, Hn by done. destruct (map_ids s !! name') as [id' |] eqn:E; [| done].
    cbn [mbind option_bind]. rewrite lookup_delete_ne; [done |]. intros [= <- <-].
    apply Hne. by rewrite (same_id _ _ _ _ _ _ H Hid E).
Qed.

Lemma named_frame s s' M A : map_ids s' = map_ids s -> named s M A -> named s' M A.
Proof. intros E H name key. by rewrite E. Qed.

Lemma is_expired_ok L M s name id e v now :
  inner_ok L M s -> map_ids s !! name = Some id ->
  is_expired s id e now = Ok (cell_expired (configs s) name (cell e v) now).
Proof.
  intros H Hid. destruct (name_of_id _ _ _ _ _ H Hid) as [_ Hn]. unfold is_expired, cell_expired. cbn [cell c_expire c_access].
  destruct (negb (e_expire_at e =? 0) && (e_expire_at e <=? now)); [done |]. cbn [orb].
  unfold index. rewrite Hn. done.
Qed.

(** ** find *)

(** What [find] leaves and returns, on the level of ids. *)
Definition find_post (L : gmap Handle bytes) (M : gmap (Z * bytes) Cell) (s : Inner) (now : Z) (name key : bytes)
    (s' : Inner) (r : option (nat * Entry)) : Prop :=
  match map_ids s !! name with
  | None => s' = s /\ r = None
  | Some id =>
    match M !! (id, key) with
    | None => s' = s /\ r = None
    | Some c =>
      if cell_expired (configs s) name c now
      then r = None /\ exists L', inner_ok L' (delete (id, key) M) s'
      else exists i e, r = Some (i, e) /\ table s' !! i = Some e /\ e_map_id e = id /\ holds L e key (c_val c)
             /\ cell e (c_val c) = touch now c /\ inner_ok L (<[(id, key) := touch now c]> M) s'
    end
  end.

Lemma touch_slot_ok L M s i e key v now :
  inner_ok L M s -> table s !! i = Some e -> holds L e key v ->
  let e' := mk_Entry (e_hash e) (e_map_id e) (e_handle e) (e_key_len e) (e_val_len e) (e_expire_at e) (e_stamp e) now (bump (e_hits e)) in
  holds L e' key v /\ cell e' v = touch now (cell e v)
  /\ inner_ok L (<[(e_map_id e, key) := touch now (cell e v)]> M) (with_table s (<[i := e']> (table s))).
Proof.
  intros H Hi Hh e'. assert (holds L e' key v) as Hh' by exact Hh. split_and!; [done | done |].
  apply (write_hit L M L _ s (slab s) i e e'); try done.
  - by eapply holds_occupied.
  - apply H.
  - intros es Hc. change (touch now (cell e v)) with (cell e' v). by eapply contents_touch.
Qed.

Lemma find_ok L M s now name key :
  inner_ok L M s -> small s ->
  post (find now name key s) (fun '(s', r) => frame s s' /\ len s' + tombstones s' = len s + tombstones s /\ len s' <= len s
    /\ indexes s' = indexes s /\ find_post L M s now name key s' r).
Proof.
  intros H Hsm. unfold find, find_post. destruct (map_ids s !! name) as [id |] eqn:Hid; [| done].
  eapply post_bind; [by apply (probe_from_ok L M) |]. intros [i e | i ff]; cbn [probe_result].
  - intros (Hi & Ho & Hm & v & Hh).
    assert (M !! (id, key) = Some (cell e v)) as HM.
    { rewrite <- Hm. eapply contents_lookup; [apply H | apply elem_of_occ; eauto | done]. }
    rewrite HM, (is_expired_ok L M s name id e v) by done. cbn [mbind outcome_bind].
    destruct (cell_expired (configs s) name (cell e v) now).
    + eapply post_bind; [by eapply bury_ok |]. rewrite Hm. intros s' (H' & Hf & Hlen & Htomb & Eix). cbn [post]. split_and!; eauto; lia.
    + unfold set_index. rewrite decide_True by (by eapply lookup_lt_Some). cbn [mbind outcome_bind post].
      destruct (touch_slot_ok L M s i e key v now H Hi Hh) as (Hh' & Hc & H'). rewrite Hm in *.
      split_and!; [split; try done; cbn; by rewrite length_insert | done | done | done |].
      eexists i, _. split; [done |]. split_and!; try done.
      cbn [table with_table]. apply list_lookup_insert_eq. by eapply lookup_lt_Some.
  - intros (HM & _). rewrite HM. done.
Qed.

(** ** intern *)

Lemma no_cell_of_new_id L M s key :
  inner_ok L M s -> M !! (blen (map_names s), key) = None.
Proof.
  intros H. destruct (M !! _) as [c |] eqn:E; [| done].
  destruct (contents_lookup_inv _ _ _ _ _ _ (io_contents _ _ _ H) E) as (e & v & He & Hm & _).
  apply (io_map_id _ _ _ H) in He. lia.
Qed.

Lemma intern_ok L M A s name :
  inner_ok L M s -> named s M A -> blen (map_names s) < 2 ^ 32 - 1 ->
  let '(s', id) := intern name s in
  inner_ok L M s' /\ named s' M A /\ map_ids s' !! name = Some id
  /\ table s' = table s /\ len s' = len s /\ tombstones s' = tombstones s /\ configs s' = configs s
  /\ blen (map_names s') <= blen (map_names s) + 1 /\ index_configs s' = index_configs s /\ indexes s' = indexes s.
Proof.
  intros H Hn Hlt. unfold intern. destruct (map_ids s !! name) as [id |] eqn:Hid.
  { split_and!; try done. lia. }
  pose proof (blen_nonneg (map_names s)) as H0. rewrite wrap_u32_small by (unfold is_u32; lia).
  set (n := blen (map_names s)) in *. split_and!; cbn [map_ids table len tombstones configs map_names]; try done.
  - split; cbn [slab table mask len tombstones map_ids map_names counts]; try apply H.
    + intros name' id'. destruct (decide (name' = name)) as [-> | Hne].
      * rewrite lookup_insert_eq. split.
        -- intros [= <-]. split; [lia |]. rewrite lookup_app_r by (unfold n, blen; lia).
           replace (Z.to_nat n - length (map_names s))%nat with 0%nat by (unfold n, blen; lia). done.
        -- intros [Hp Hl]. apply lookup_app_Some in Hl as [Hl | [Hge Hl]].
           ++ assert (map_ids s !! name = Some id') as E by (by apply (io_names _ _ _ H)). congruence.
           ++ apply list_lookup_singleton_Some in Hl as [Hz _]. f_equal. unfold n, blen. lia.
      * rewrite lookup_insert_ne, (io_names _ _ _ H) by done. rewrite lookup_app_Some. split; [naive_solver |].
        intros [Hp [Hl | [_ [_ Hl]%list_lookup_singleton_Some]]]; naive_solver.
    + rewrite !length_app. by rewrite (io_counts_len _ _ _ H).
    + intros k c [Hk | [Hge [Hz <-]%list_lookup_singleton_Some]]%lookup_app_Some; [by eapply io_counts |].
      rewrite filter_none; [done |]. apply Forall_forall. intros e He Heq.
      apply (io_map_id _ _ _ H) in He. rewrite (io_counts_len _ _ _ H) in *. fold n in He. unfold n, blen in He. lia.
    + intros e He%(io_map_id _ _ _ H). rewrite blen_app. change (blen [name]) with 1. lia.
  - intros name' key. rewrite Hn. cbn [map_ids]. destruct (decide (name' = name)) as [-> | Hne].
    + rewrite Hid, lookup_insert_eq. cbn [mbind option_bind]. symmetry. by eapply no_cell_of_new_id.
    + by rewrite lookup_insert_ne.
  - by rewrite lookup_insert_eq.
  - rewrite blen_app. change (blen [name]) with 1. lia.
Qed.

(** ** Eviction *)

Definition slot_of (s : Inner) (id : Z) (r : option (nat * Entry)) : Prop :=
  match r with
  | Some (i, e) => table s !! i = Some e /\ occupied e = true /\ e_map_id e = id
  | None => True
  end.

Lemma next_lt L M s i : inner_ok L M s -> (next (mask s) i < length (table s))%nat.
Proof.
  intros H. unfold next. rewrite (land_mask (table s)) by apply H. pose proof (pow2_pos _ _ (io_cap _ _ _ H)) as Hp.
  pose proof (Z.mod_pos_bound (Z.of_nat i + 1) _ Hp). unfold blen in *. lia.
Qed.

Lemma rand_idx_lt L M s r : inner_ok L M s -> (rand_idx s r < length (table s))%nat.
Proof.
  intros H. unfold rand_idx. pose proof (pow2_pos _ _ (io_cap _ _ _ H)) as Hp.
  pose proof (Z.mod_pos_bound r _ Hp). unfold blen in *. lia.
Qed.

Lemma scan_from_ok L M s id fuel i :
  inner_ok L M s -> (i < length (table s))%nat -> post (scan_from fuel s id i) (slot_of s id).
Proof.
  intros H. revert i. induction fuel as [| fuel IH]; intros i Hi; cbn [scan_from]; [done |].
  eapply post_bind; [by apply post_index |]. intros e He. destruct (occupied e && (e_map_id e =? id)) eqn:E.
  - apply andb_true_iff in E as [Ho Hm%Z.eqb_eq]. done.
  - apply IH. by eapply next_lt.
Qed.

Lemma sample_ok L M s id n rnd measure b best :
  inner_ok L M s -> slot_of s id b -> post (sample n rnd s id measure b best) (slot_of s id).
Proof.
  intros H. revert b best. induction n as [| n IH]; intros b best Hb; cbn [sample]; [done |].
  eapply post_bind; [eapply scan_from_ok, rand_idx_lt; done |]. intros [[i e] |] Hc; [| by apply IH].
  destruct (_ <? _); by apply IH.
Qed.

Lemma candidate_ok L M s id rnd policy : inner_ok L M s -> post (candidate rnd s id policy) (slot_of s id).
Proof.
  intros H. destruct policy; cbn [candidate]; [done | by eapply sample_ok | by eapply sample_ok |].
  eapply scan_from_ok, rand_idx_lt; done.
Qed.

(** Slots that no probe may stop at: live entries and tombstones. *)
Definition used (s : Inner) : Z := len s + tombstones s.

(** What the operations that add no entry keep. *)
Definition shrinks (s s' : Inner) : Prop := len s' <= len s /\ used s' <= used s.

#[export] Instance shrinks_preorder : PreOrder shrinks.
Proof. unfold shrinks. split; [by intros s | intros s1 s2 s3 [] []; lia]. Qed.

(** What one [put] takes at most: a slot, a name, and a table twice the size when it was 7/8 full. *)
Record cost (s s' : Inner) : Prop := {
  co_used : used s' <= used s + 1;
  co_cap : blen (table s') = blen (table s) \/ blen (table s') * 7 <= (used s + 1) * 16;
  co_names : blen (map_names s') <= blen (map_names s) + 1;
  co_configs : configs s' = configs s
}.

Lemma frame_cost s s' : frame s s' -> shrinks s s' -> cost s s'.
Proof.
  intros [Eids Enames Ecfg Eix Ecap] [Hl Hu]. split; unfold blen; [lia | left; congruence | rewrite Enames; lia | done].
Qed.

Lemma cost_after s s1 s2 : frame s s1 -> shrinks s s1 -> cost s1 s2 -> cost s s2.
Proof.
  intros [Eids Enames Ecfg Eix Ecap] [Hl Hu] [Hu2 Hcap Hnames Hcfg]. unfold blen in *.
  split; unfold blen; [lia | rewrite Ecap in Hcap; lia | rewrite <- Enames; lia | congruence].
Qed.

Section Ops.
Context {Schemas : Type} (extract : bytes -> Schemas -> bytes -> FieldValue) (schemas : Schemas).
(** The shard holds [A'], and its indexes cover it at time [now] if they covered [A] before. *)
Definition tracks (now : Z) (A : amap) (s : Inner) (A' : amap) (s' : Inner) : Prop :=
  shard_ok A' s' /\ (covered extract schemas now A s -> covered extract schemas now A' s').

Lemma tracks_trans now A s A1 s1 A2 s2 : tracks now A s A1 s1 -> tracks now A1 s1 A2 s2 -> tracks now A s A2 s2.
Proof. intros [] []. split; auto. Qed.

(** An eviction removes at most one entry, of the map that is full. *)
Lemma evict_one_ok L M A s now rnd name id policy :
  inner_ok L M s -> named s M A -> small s -> map_ids s !! name = Some id ->
  post (evict_one extract schemas rnd name id policy s) (fun s' => frame s s'
    /\ len s' + tombstones s' = len s + tombstones s
    /\ (policy = NoEviction -> s' = s)
    /\ (tracks now A s A s' \/ exists key, is_Some (A !! (name, key)) /\ tracks now A s (delete (name, key) A) s')).
Proof.
  intros H Hn Hsm Hid. unfold evict_one. eapply post_bind; [|].
  { instantiate (1 := fun r => slot_of s id r /\ (policy = NoEviction -> r = None)).
    destruct policy; [done | | |]; (eapply post_mono; [by eapply (candidate_ok L M) | by split]). }
  intros [[i e] |] [Hc Hpol]; [| cbn [post]; split_and!; try done; left; split; [by exists L, M | done]].
  destruct Hc as (Hi & Ho & Hm). destruct (entry_holds _ _ _ _ _ H Hi Ho) as (k & v & Hh).
  rewrite (key_bytes_ok L s e k v), (val_bytes_ok L s e k v) by (done || apply H). cbn [mbind outcome_bind].
  destruct (inner_ok_indexes extract schemas L M s name k (Some v) None H) as (H' & Hf & El & Et & _ & Etab & _).
  assert (covered extract schemas now A s -> covered extract schemas now (delete (name, k) A) (update_indexes extract schemas name k (Some v) None s)) as Hcov
    by apply covered_erase.
  set (s1 := update_indexes _ _ _ _ _ _ s) in *. eapply post_mono.
  { eapply bury_ok; [exact H' | by eapply frame_small | by rewrite Etab | exact Hh]. }
  rewrite Hm. intros s' (H'' & Hf' & Hlen & Htomb & Eix). split_and!; [by etrans | lia | intros E; by specialize (Hpol E) |].
  right. exists k. split.
  - rewrite Hn, Hid. cbn [mbind option_bind]. rewrite <- Hm. erewrite contents_lookup; [eauto | apply H | apply elem_of_occ; eauto | exact Hh].
  - split; [eexists _, _; split; [exact H'' |] | intros Hc; eapply covered_frame; eauto].
    eapply named_frame; [rewrite (fr_ids _ _ Hf'), (fr_ids _ _ Hf); done |]. by eapply named_delete.
Qed.

(** ** put *)

Lemma slab_room L M s : inner_ok L M s -> len s < 2 ^ 31 -> Z.of_nat (size L) < 2 ^ 31.
Proof.
  intros H Hl. pose proof (contents_size _ _ _ (io_contents _ _ _ H)) as Hs. rewrite (io_len _ _ _ H) in Hl.
  unfold blen in Hl. lia.
Qed.

Lemma new_entry_holds L m hd key val ex st now hits :
  blen key + blen val < 2 ^ 32 ->
  holds (<[hd := key ++ val]> L) (new_entry (hash m key) m hd key val ex st now hits) key val.
Proof.
  intros Hlt. pose proof (blen_nonneg key). pose proof (blen_nonneg val). unfold holds, new_entry. cbn.
  rewrite !wrap_u32_small by (unfold is_u32; lia). by rewrite lookup_insert_eq.
Qed.

(** At most one entry of the map is evicted, and only from a map with a size bound. *)
Definition evicted (cfgs : gmap bytes MapConfig) (name : bytes) (A A' : amap) : Prop :=
  A' = A \/ exists cfg key, cfgs !! name = Some cfg /\ 0 < max_size cfg /\ eviction_policy cfg <> NoEviction
             /\ is_Some (A !! (name, key)) /\ A' = delete (name, key) A.

Lemma put_vacant_ok L M A s now rnd name id key val ex st i ff :
  inner_ok L M s -> named s M A -> small s -> map_ids s !! name = Some id ->
  probe_result L M s id key (Vacant i ff) -> len s < 2 ^ 31 -> blen key + blen val < 2 ^ 32 ->
  (len s + tombstones s + 1) * 8 < blen (table s) * 7 ->
  post (put_vacant extract schemas now rnd name key val id ex st i ff s) (fun s' => frame s s'
    /\ len s' + tombstones s' <= len s + tombstones s + 1
    /\ exists A', evicted (configs s) name (<[(name, key) := mk_cell val ex st now 1]> A) A' /\ tracks now A s A' s').
Proof.
  intros H Hn Hsm Hid (HM & Hch & e0 & Hslot & H0) Hlen Hkv Hload. unfold put_vacant.
  rewrite (proj2 (index_Ok _ _ _) Hslot). cbn [mbind outcome_bind].
  eapply post_bind; [eapply put_two_ok; [apply H | by eapply slab_room] |]. intros [sl hd] [HL Hsl].
  unfold set_index. rewrite decide_True by (by eapply lookup_lt_Some). cbn [mbind outcome_bind].
  set (e := new_entry (hash id key) id hd key val ex st now 1).
  destruct (name_of_id _ _ _ _ _ H Hid) as [Hidr _].
  destruct (add_ok L M s (default i ff) e0 e key val sl) as (c & tb & Hc & Htb & Htle & H1); try done.
  { by apply new_entry_holds. }
  change (e_map_id e) with id in *. rewrite Hc. cbn [mbind outcome_bind]. rewrite <- Htb.
  set (s1 := with_sizes _ _ _ _) in *. change (cell e val) with (mk_cell val ex st now 1) in H1.
  assert (frame s s1) as Hf1 by (split; try done; cbn; apply length_insert).
  assert (len s1 + tombstones s1 <= len s + tombstones s + 1) as Hl1.
  { pose proof (len_bounds _ _ _ H). unfold small in Hsm. cbn. rewrite wrap_u64_small by (unfold is_u64; lia). lia. }
  destruct (inner_ok_indexes extract schemas _ _ s1 name key None (Some val) H1) as (H2 & Hf2 & El2 & Et2 & _).
  set (s2 := update_indexes _ _ _ _ _ _ s1) in *. set (A1 := <[(name, key) := mk_cell val ex st now 1]> A).
  assert (named s2 (<[(id, key) := mk_cell val ex st now 1]> M) A1) as Hn2.
  { eapply named_frame; [rewrite (fr_ids _ _ Hf2), (fr_ids _ _ Hf1); done |]. by eapply named_insert. }
  assert (frame s s2) as Hf by (by etrans). rewrite (fr_configs _ _ Hf).
  assert (covered extract schemas now A s -> covered extract schemas now A1 s2) as Hcov.
  { intros Hcv. apply covered_write. by eapply covered_frame. }
  assert (tracks now A s A1 s2) as Htr by (split; [by eexists _, _ | done]).
  destruct (configs s !! name) as [cfg |] eqn:Hcfg.
  2: { cbn [post]. split_and!; [done | lia |]. exists A1. split; [by left | done]. }
  assert (map_ids s2 !! name = Some id) as Hid2 by (by rewrite (fr_ids _ _ Hf)).
  destruct (name_of_id _ _ _ _ _ H2 Hid2) as [Hidr2 _].
  unfold index. rewrite (count_of _ _ _ _ H2 Hidr2). cbn [mbind outcome_bind].
  destruct ((0 <? max_size cfg) && _) eqn:Efull.
  2: { cbn [post]. split_and!; [done | lia |]. exists A1. split; [by left | done]. }
  apply andb_true_iff in Efull as [Hmax%Z.ltb_lt _].
  eapply post_mono; [eapply (evict_one_ok _ _ _ _ now); [exact H2 | exact Hn2 | by eapply frame_small | done] |].
  intros s3 (Hf3 & Hl3 & Hpol & Hev). split_and!; [by etrans | lia |].
  assert (forall A', tracks now A1 s2 A' s3 -> tracks now A s A' s3) as Hthen by (intros A'; by apply tracks_trans).
  destruct Hev as [Hok | (key' & Hk & Hok)]; [exists A1; split; [by left | auto] |].
  destruct (decide (eviction_policy cfg = NoEviction)) as [Ep | Ep].
  - exists A1. split; [by left |]. by rewrite (Hpol Ep).
  - exists (delete (name, key') A1). split; [| auto]. right. exists cfg, key'. done.
Qed.

Lemma put_hit_ok L M A s now name id key val ex st i e :
  inner_ok L M s -> named s M A -> small s -> map_ids s !! name = Some id ->
  probe_result L M s id key (Hit i e) -> len s <= 2 ^ 31 -> blen key + blen val < 2 ^ 32 ->
  exists c, A !! (name, key) = Some c /\
  post (put_hit extract schemas now name key val id ex st i e s) (fun '(s', old) => frame s s'
    /\ len s' + tombstones s' = len s + tombstones s
    /\ old = (if cell_expired (configs s) name c now then None else Some (c_val c))
    /\ tracks now A s (<[(name, key) := mk_cell val ex st now (bump (c_hits c))]> A) s').
Proof.
  intros H Hn Hsm Hid (Hi & Ho & Hm & v & Hh) Hlen Hkv. exists (cell e v). split.
  { rewrite Hn, Hid. cbn [mbind option_bind]. rewrite <- Hm. eapply contents_lookup; [apply H | apply elem_of_occ; eauto | done]. }
  unfold put_hit, unexpired_value. rewrite (is_expired_ok L M s name id e v) by done. cbn [mbind outcome_bind].
  rewrite (val_bytes_ok L s e key v) by (done || apply H).
  set (old := if cell_expired (configs s) name (cell e v) now then None else Some v).
  assert ((if cell_expired (configs s) name (cell e v) now then Ok None else (v ← Ok v; Ok (Some v))) = Ok old) as ->
    by (unfold old; by destruct (cell_expired _ _ _ _)).
  cbn [mbind outcome_bind]. eapply post_bind; [eapply slab_free_ok; [apply H | apply Hh] |]. intros sl1 Hsl1.
  assert (Z.of_nat (size (delete (e_handle e) L)) < 2 ^ 31) as Hsz.
  { pose proof (contents_size _ _ _ (io_contents _ _ _ H)) as Hs. rewrite (io_len _ _ _ H) in Hlen. unfold blen in Hlen.
    destruct Hh as (HLe & _). assert (size L <> 0%nat) by (apply map_size_ne_0_lookup; eauto).
    rewrite map_size_delete, HLe. simpl. lia. }
  eapply post_bind; [by apply put_two_ok |]. intros [sl hd] [HL Hsl].
  unfold set_index. rewrite decide_True by (by eapply lookup_lt_Some). cbn [mbind outcome_bind post].
  set (e' := new_entry (hash id key) id hd key val ex st now (bump (e_hits e))).
  assert (inner_ok (<[hd := key ++ val]> (delete (e_handle e) L)) (<[(id, key) := cell e' val]> M)
    (with_table (with_slab s sl) (<[i := e']> (table s)))) as H1.
  { rewrite <- Hm. apply (write_hit L M _ _ s sl i e e'); try done.
    - destruct Hh as (_ & _ & _ & _ & Hhash). by rewrite Hhash, Hm.
    - intros es Hc. apply (contents_rewrite L es M e e' key v val); try done. by apply new_entry_holds. }
  destruct (inner_ok_indexes extract schemas _ _ _ name key old (Some val) H1) as (H2 & Hf2 & El2 & Et2 & _).
  set (s1 := with_table _ _) in *. assert (frame s s1) as Hf1 by (split; try done; cbn; apply length_insert).
  split_and!; [by etrans | by rewrite El2, Et2 | done |].
  split; [| intros Hc; apply (covered_write extract schemas now A s1 name key old (mk_cell val ex st now _)); by eapply covered_frame].
  eexists _, _. split; [exact H2 |]. eapply named_frame; [rewrite (fr_ids _ _ Hf2); done |]. by eapply named_insert.
Qed.

(** Room for one more [put]. *)
Record room (s : Inner) : Prop := {
  rm_cap : 2 * blen (table s) < 2 ^ 60;
  rm_len : len s < 2 ^ 31;
  rm_names : blen (map_names s) < 2 ^ 32 - 1
}.

Lemma put_ok A s now rnd name key val ttl st :
  shard_ok A s -> room s -> blen key + blen val < 2 ^ 32 ->
  post (put extract schemas now rnd name key val ttl st s) (fun '(s', old) =>
    cost s s'
    /\ old = snd (a_put (configs s) now name key val ttl st A)
    /\ exists A', evicted (configs s) name (fst (a_put (configs s) now name key val ttl st A)) A' /\ tracks now A s A' s').
Proof.
  intros (L & M & H & Hn) [Hcap Hlen Hnames] Hkv. unfold put.
  pose proof (intern_ok L M A s name H Hn Hnames) as Hint. destruct (intern name s) as [s1 id].
  destruct Hint as (H1 & Hn1 & Hid1 & Et1 & El1 & Ett1 & Ec1 & Hnm & Eic1 & Eix1).
  eapply post_bind; [apply (maybe_grow_ok L M s1); [done | by rewrite Et1] |].
  intros s2 (H2 & Hload & Hgrow & El2 & Ett2 & Eids & Enames & Ec2 & Eic2 & Eix2).
  assert (named s2 M A) as Hn2 by (by eapply named_frame). assert (map_ids s2 !! name = Some id) as Hid2 by congruence.
  assert (small s2) as Hsm.
  { unfold small. destruct Hgrow as [-> | [-> _]]; rewrite Et1; pose proof (blen_nonneg (table s)); lia. }
  assert (configs s2 = configs s) as Ec by congruence. rewrite <- Ec.
  assert (forall A' s', tracks now A s2 A' s' -> tracks now A s A' s') as Htr.
  { intros A' s' [Hok Hcv]. split; [done |]. intros Hc. apply Hcv. revert Hc. apply covered_weaken; [congruence | congruence |].
    rewrite Ec. eauto. }
  assert (forall s', frame s2 s' -> used s' <= used s2 + 1 -> cost s s') as Hcost.
  { intros s' [_ En' Ec' _ Ecap'] Hu. unfold used, blen in *.
    split; unfold used, blen; [lia | | rewrite En', Enames; lia | congruence].
    rewrite Ecap'. destruct Hgrow as [-> | [Hg Hfull]]; [left; by rewrite Et1 | right]. rewrite Et1 in *. lia. }
  eapply post_bind; [by apply (probe_from_ok L M) |]. intros [i e | i ff] Hp.
  - destruct (put_hit_ok L M A s2 now name id key val (if 0 <? ttl then wrap_u64 (now + ttl) else 0) st i e)
      as (c & Hc & Hput); try done; [lia |].
    eapply post_mono; [exact Hput |]. intros [s' old] (Hf & Hu & Hold & Hok). unfold a_put. rewrite Hc. cbn [fst snd].
    split_and!; [apply Hcost; [done | unfold used; lia] | done |]. eexists. split; [by left | auto].
  - eapply post_bind; [eapply (put_vacant_ok L M A s2); try done; lia |].
    intros s' (Hf & Hu & A' & Hev & Hok). cbn [post]. unfold a_put.
    assert (A !! (name, key) = None) as ->. { rewrite Hn2, Hid2. cbn [mbind option_bind]. by destruct Hp. }
    cbn [fst snd]. split_and!; [apply Hcost; [done | unfold used; lia] | done |]. eauto.
Qed.

(** ** The other single-key operations *)

(** The slot that [find] returned, in the state it left. *)
Definition found (A : amap) (s : Inner) (name key : bytes) (i : nat) (e : Entry) (c : Cell) : Prop :=
  exists L M, inner_ok L M s /\ named s M A /\ table s !! i = Some e /\ holds L e key (c_val c)
    /\ cell e (c_val c) = c /\ map_ids s !! name = Some (e_map_id e).

Lemma find_abs A s now name key :
  shard_ok A s -> small s ->
  post (find now name key s) (fun '(s', r) => frame s s' /\ shrinks s s'
    /\ let '(A', f) := a_find (configs s) now name key A in
       tracks now A s A' s' /\
       match f with
       | None => r = None
       | Some c => exists i e, r = Some (i, e) /\ found A' s' name key i e c
       end).
Proof.
  intros (L & M & H & Hn) Hsm. eapply post_mono; [by apply (find_ok L M) |].
  intros [s' r] (Hf & Hu & Hl & Eix & Hp). split_and!; [done | split; unfold used; lia |]. unfold find_post, a_find in *. rewrite Hn.
  destruct (map_ids s !! name) as [id |] eqn:Hid; cbn [mbind option_bind] in *.
  2: { destruct Hp as [-> ->]. split; [split; [by exists L, M | done] | done]. }
  assert (A !! (name, key) = M !! (id, key)) as HA by (rewrite Hn, Hid; done).
  destruct (M !! (id, key)) as [c |]; [| destruct Hp as [-> ->]; split; [split; [by exists L, M | done] | done]].
  assert (forall M' A', named s M' A' -> named s' M' A') as Hfr by (intros; eapply named_frame; [apply Hf | done]).
  destruct (cell_expired (configs s) name c now) eqn:Hexp.
  - destruct Hp as (-> & L' & H'). split; [split | done]; [| intros Hc; apply covered_delete; by eapply covered_frame].
    eexists _, _. split; [exact H' |]. apply Hfr. by eapply named_delete.
  - destruct Hp as (i & e & -> & Hi & Hm & Hh & Hc & H').
    assert (named s' (<[(id, key) := touch now c]> M) (<[(name, key) := touch now c]> A)) as Hn' by (apply Hfr; by eapply named_insert).
    split; [split; [by eexists _, _ |] |].
    { intros Hcv. eapply covered_frame; [exact Hf | done |]. by apply (covered_same_val _ _ now A s name key c). }
    exists i, e. split; [done |]. eexists _, _. split_and!; try done. by rewrite (fr_ids _ _ Hf), Hm.
Qed.

Lemma get_ok A s now name key :
  shard_ok A s -> small s ->
  post (get now name key s) (fun '(s', r) => frame s s' /\ shrinks s s'
    /\ r = c_val <$> (a_find (configs s) now name key A).2 /\ tracks now A s (a_find (configs s) now name key A).1 s').
Proof.
  intros H Hsm. unfold get. eapply post_bind; [by eapply find_abs |]. intros [s' r] (Hf & Hl & Hfind).
  destruct (a_find _ _ _ _ A) as [A' [c |]]; destruct Hfind as [Hok Hr]; [| subst r; done].
  destruct Hr as (i & e & -> & L & M & H' & Hn & Hi & Hh & Hc & _).
  rewrite (val_bytes_ok L s' e key (c_val c)) by (done || apply H'). done.
Qed.

Lemma contains_key_ok A s now name key :
  shard_ok A s -> small s ->
  post (contains_key now name key s) (fun '(s', r) => frame s s' /\ shrinks s s'
    /\ r = bool_decide (is_Some (a_find (configs s) now name key A).2) /\ tracks now A s (a_find (configs s) now name key A).1 s').
Proof.
  intros H Hsm. unfold contains_key. eapply post_bind; [by eapply find_abs |]. intros [s' r] (Hf & Hl & Hfind).
  destruct (a_find _ _ _ _ A) as [A' [c |]]; destruct Hfind as [Hok Hr]; [| by subst r].
  destruct Hr as (i & e & -> & _). cbn [post]. split_and!; try done.
Qed.

(** [remove]: the key is gone; what was there, unless expired, is returned. *)
Lemma remove_ok A s now name key :
  shard_ok A s -> small s ->
  post (remove extract schemas now name key s) (fun '(s', r) => frame s s' /\ shrinks s s'
    /\ r = c_val <$> (a_find (configs s) now name key A).2 /\ tracks now A s (delete (name, key) A) s').
Proof.
  intros H Hsm. unfold remove. eapply post_bind; [by eapply find_abs |]. intros [s' r] (Hf & Hl & Hfind).
  unfold a_find in *. destruct (A !! (name, key)) as [c0 |] eqn:EA.
  2: { destruct Hfind as [Hok ->]. cbn [post]. split_and!; try done. by rewrite delete_id. }
  destruct (cell_expired _ _ _ _); [destruct Hfind as [Hok ->]; done |].
  destruct Hfind as ([_ Hcov] & i & e & -> & L & M & H' & Hn & Hi & Hh & Hc & Hid). cbn [snd].
  rewrite (val_bytes_ok L s' e key (c_val (touch now c0))) by (done || apply H'). cbn [mbind outcome_bind].
  destruct (inner_ok_indexes extract schemas L M s' name key (Some (c_val (touch now c0))) None H') as (H1 & Hf1 & El & Et & _ & Etab & _).
  set (s1 := update_indexes _ _ _ _ _ _ s') in *. eapply post_bind.
  { eapply bury_ok; [exact H1 | by do 2 (eapply frame_small; [eassumption |]) | by rewrite Etab | exact Hh]. }
  intros s2 (H2 & Hf2 & Hl2 & Ht2 & Eix2). cbn [post]. split_and!; [etrans; [exact Hf |]; by etrans | | done |].
  - etrans; [exact Hl |]. unfold shrinks, used. lia.
  - rewrite <- (delete_insert_eq A (name, key) (touch now c0)).
    split; [| intros Hcv; eapply covered_frame; [exact Hf2 | done |]; by apply covered_erase, Hcov].
    eexists _, _. split; [exact H2 |]. eapply named_frame; [rewrite (fr_ids _ _ Hf2), (fr_ids _ _ Hf1); done |].
    by eapply named_delete.
Qed.

Lemma room_small s : room s -> small s.
Proof. intros []. unfold small. pose proof (blen_nonneg (table s)). lia. Qed.

Lemma room_frame s s' : frame s s' -> shrinks s s' -> room s -> room s'.
Proof. intros [] [Hl _] []. split; [unfold blen in *; lia | lia | unfold blen in *; congruence]. Qed.

(** The abstract conditional operations. *)
Definition a_put_if_absent (cfgs : gmap bytes MapConfig) (now : Z) (name key val : bytes) (ttl st : Z) (A : amap) : amap * option bytes :=
  match a_find cfgs now name key A with
  | (A, Some c) => (A, Some (c_val c))
  | (A, None) => (fst (a_put cfgs now name key val ttl st A), None)
  end.

Definition a_put_merge (cfgs : gmap bytes MapConfig) (now : Z) (name key val : bytes) (ttl st : Z) (latest : bool) (A : amap) : amap :=
  match a_find cfgs now name key A with
  | (A, Some c) => if latest && (c_stamp c <? st) then fst (a_put cfgs now name key val ttl st A) else A
  | (A, None) => fst (a_put cfgs now name key val ttl st A)
  end.

Definition a_replace (cfgs : gmap bytes MapConfig) (now : Z) (name key val : bytes) (A : amap) : amap * option bytes :=
  match a_find cfgs now name key A with
  | (A, Some c) => (<[(name, key) := mk_cell val (c_expire c) (c_stamp c) (c_access c) (c_hits c)]> A, Some (c_val c))
  | (A, None) => (A, None)
  end.

Lemma put_if_absent_ok A s now rnd name key val ttl st :
  shard_ok A s -> room s -> blen key + blen val < 2 ^ 32 ->
  post (put_if_absent extract schemas now rnd name key val ttl st s) (fun '(s', r) => cost s s'
    /\ r = snd (a_put_if_absent (configs s) now name key val ttl st A)
    /\ exists A', evicted (configs s) name (fst (a_put_if_absent (configs s) now name key val ttl st A)) A' /\ tracks now A s A' s').
Proof.
  intros H Hrm Hkv. unfold put_if_absent, a_put_if_absent. eapply post_bind; [apply find_abs; [done | by apply room_small] |].
  intros [s1 r] (Hf & Hl & Hfind). pose proof (room_frame _ _ Hf Hl Hrm) as Hrm1. pose proof (fr_configs _ _ Hf) as Ec.
  destruct (a_find _ _ _ _ A) as [A1 [c |]]; destruct Hfind as [Hok Hr].
  - destruct Hr as (i & e & -> & L & M & H' & _ & _ & Hh & _).
    rewrite (val_bytes_ok L s1 e key (c_val c)) by (done || apply H'). cbn [mbind outcome_bind post fst snd].
    split_and!; [by apply frame_cost | done |]. exists A1. split; [by left | done].
  - subst r. eapply post_bind; [apply put_ok; [apply Hok | done | done] |]. rewrite Ec. intros [s2 old] (Ec2 & _ & A2 & Hev & Htr). cbn [post fst snd].
    split_and!; [by eapply cost_after | done |]. exists A2. split; [done | by eapply tracks_trans].
Qed.

Lemma put_merge_ok A s now rnd name key val ttl st latest :
  shard_ok A s -> room s -> blen key + blen val < 2 ^ 32 ->
  post (put_merge extract schemas now rnd name key val ttl st latest s) (fun s' => cost s s'
    /\ exists A', evicted (configs s) name (a_put_merge (configs s) now name key val ttl st latest A) A' /\ tracks now A s A' s').
Proof.
  intros H Hrm Hkv. unfold put_merge, a_put_merge. eapply post_bind; [apply find_abs; [done | by apply room_small] |].
  intros [s1 r] (Hf & Hl & Hfind). pose proof (room_frame _ _ Hf Hl Hrm) as Hrm1. pose proof (fr_configs _ _ Hf) as Ec.
  assert (forall A1, tracks now A s A1 s1 ->
    post ('(s, _) ← put extract schemas now rnd name key val ttl st s1; Ok s) (fun s' => cost s s'
      /\ exists A', evicted (configs s) name (fst (a_put (configs s) now name key val ttl st A1)) A' /\ tracks now A s A' s')) as Hput.
  { intros A1 Hok. eapply post_bind; [apply put_ok; [apply Hok | done | done] |]. rewrite Ec.
    intros [s2 old] (Ec2 & _ & A2 & Hev & Htr). cbn [post].
    split; [by eapply cost_after |]. exists A2. split; [done | by eapply tracks_trans]. }
  destruct (a_find _ _ _ _ A) as [A1 [c |]]; destruct Hfind as [Hok Hr]; [| subst r; by apply Hput].
  destruct Hr as (i & e & -> & L & M & _ & _ & _ & _ & Hc & _).
  assert (e_stamp e = c_stamp c) as -> by (by rewrite <- Hc). destruct (latest && _); [by apply Hput |].
  cbn [post]. split; [by apply frame_cost |]. exists A1. split; [by left | done].
Qed.

Lemma replace_ok A s now name key val :
  shard_ok A s -> room s -> blen key + blen val < 2 ^ 32 ->
  post (replace extract schemas now name key val s) (fun '(s', r) => frame s s' /\ shrinks s s'
    /\ r = snd (a_replace (configs s) now name key val A) /\ tracks now A s (fst (a_replace (configs s) now name key val A)) s').
Proof.
  intros H Hrm Hkv. unfold replace, a_replace. eapply post_bind; [apply find_abs; [done | by apply room_small] |].
  intros [s1 r] (Hf & Hl & Hfind). pose proof (room_frame _ _ Hf Hl Hrm) as Hrm1.
  destruct (a_find _ _ _ _ A) as [A1 [c |]]; destruct Hfind as [Hok Hr]; [| by subst r].
  destruct Hr as (i & e & -> & L & M & H1 & Hn1 & Hi & Hh & Hc & Hid).
  rewrite (val_bytes_ok L s1 e key (c_val c)) by (done || apply H1). cbn [mbind outcome_bind fst snd].
  destruct (inner_ok_indexes extract schemas L M s1 name key (Some (c_val c)) (Some val) H1) as (H2 & Hf2 & El & Et & Esl & Etab & _).
  set (s2 := update_indexes _ _ _ _ _ _ s1) in *. rewrite Esl, Etab.
  eapply post_bind; [eapply slab_free_ok; [apply H1 | apply Hh] |]. intros sl1 Hsl1.
  assert (Z.of_nat (size (delete (e_handle e) L)) < 2 ^ 31) as Hsz.
  { pose proof (slab_room L M s1 H1 (rm_len _ Hrm1)). destruct Hh as (HLe & _). rewrite map_size_delete, HLe. simpl. lia. }
  eapply post_bind; [by apply put_two_ok |]. intros [sl hd] [HL Hsl].
  unfold set_index. rewrite decide_True by (by eapply lookup_lt_Some). cbn [mbind outcome_bind post].
  set (e' := mk_Entry _ _ hd _ _ _ _ _ _). pose proof (holds_occupied _ _ _ _ Hh) as Ho. rewrite <- Etab in Hi |- *.
  assert (holds (<[hd := key ++ val]> (delete (e_handle e) L)) e' key val) as Hh'.
  { pose proof (blen_nonneg key). pose proof (blen_nonneg val). unfold holds, e'. cbn.
    rewrite lookup_insert_eq, !wrap_u32_small by (unfold is_u32; lia). split_and!; try done. apply Hh. }
  assert (cell e' val = mk_cell val (c_expire c) (c_stamp c) (c_access c) (c_hits c)) as Ecell by (by rewrite <- Hc).
  split_and!; [etrans; [exact Hf |]; etrans; [exact Hf2 |]; split; try done; cbn; apply length_insert | etrans; [exact Hl |]; unfold shrinks, used; cbn; lia | done |].
  split.
  2: { intros Hcv. apply (covered_frame _ _ _ _ s2); [split; try done; cbn; apply length_insert | done |].
       apply (covered_write extract schemas now A1 s1 name key _ (mk_cell val _ _ _ _)). by apply Hok. }
  eexists _, (<[(e_map_id e, key) := cell e' val]> M). split.
  - apply (write_hit L M _ _ s2 sl i e e'); try done.
    intros es Hcs. by apply (contents_rewrite L es M e e' key (c_val c) val).
  - eapply named_frame; [| rewrite Ecell; eapply named_insert; [exact H1 | done | done]]. cbn. by rewrite (fr_ids _ _ Hf2).
Qed.
End Ops.

(** ** Whole-map operations *)

(** The entries of a map are its keys. *)
Lemma map_keys L M A s name id :
  inner_ok L M s -> named s M A -> map_ids s !! name = Some id ->
  let ks := (fun e => (ekey L e).2) <$> filter (fun e => e_map_id e = id) (occ (table s)) in
  NoDup ks /\ forall k, k ∈ ks <-> is_Some (A !! (name, k)).
Proof.
  intros H Hn Hid ks. pose proof (io_contents _ _ _ H) as Hc. split.
  - apply NoDup_fmap_2_strong; [| by eapply NoDup_filter, NoDup_fmap_1, Hc].
    intros x y [Hx Hx']%list_elem_of_filter [Hy Hy']%list_elem_of_filter E.
    apply (NoDup_fmap_elem (ekey L) (occ (table s))); [apply Hc | done | done |].
    unfold ekey in *. cbn [snd] in E. congruence.
  - intros k. rewrite Hn, Hid. cbn [mbind option_bind]. unfold ks. rewrite list_elem_of_fmap. split.
    + intros (e & -> & [Hm He]%list_elem_of_filter). destruct (c_live _ _ _ Hc e He) as (k & v & Hh).
      rewrite (holds_key _ _ _ _ Hh). cbn [snd]. rewrite <- Hm, (contents_lookup _ _ _ _ _ _ Hc He Hh). eauto.
    + intros [c Hk]. destruct (contents_lookup_inv _ _ _ _ _ _ Hc Hk) as (e & v & He & Hm & Hh & _).
      exists e. rewrite (holds_key _ _ _ _ Hh). split; [done |]. by apply list_elem_of_filter.
Qed.

Lemma map_len_ok A s name :
  shard_ok A s ->
  exists ks, NoDup ks /\ (forall k, k ∈ ks <-> is_Some (A !! (name, k))) /\ map_len name s = Ok (blen ks).
Proof.
  intros (L & M & H & Hn). unfold map_len. destruct (map_ids s !! name) as [id |] eqn:Hid.
  - destruct (map_keys L M A s name id H Hn Hid) as [Hnd Hks]. eexists. split_and!; [exact Hnd | exact Hks |].
    destruct (name_of_id _ _ _ _ _ H Hid) as [Hr _]. apply index_Ok. rewrite (count_of _ _ _ _ H Hr).
    unfold blen. by rewrite length_fmap.
  - exists []. split_and!; [constructor | | done]. intros k. rewrite Hn, Hid. split; [by intros ?%elem_of_nil | by intros [? ?]].
Qed.

Lemma collect_live_ok {B} L M s now (sel : Entry -> bool) (view : Entry -> bytes -> bytes -> outcome B)
    (f : Entry -> bytes -> bytes -> B) t :
  inner_ok L M s -> (forall e, e ∈ t -> e ∈ table s) ->
  (forall e k v, e ∈ occ (table s) -> view e k v = Ok (f e k v)) ->
  exists l, collect_live now s sel view t = Ok l
    /\ forall x, x ∈ l <-> exists e k v, e ∈ t /\ occupied e = true /\ sel e = true /\ holds L e k v
         /\ is_expired s (e_map_id e) e now = Ok false /\ x = f e k v.
Proof.
  intros H Hsub Hview. induction t as [| e t IH].
  { exists []. split; [done |]. intros x. split; [by intros ?%elem_of_nil | intros (e & ? & ? & []%elem_of_nil & _)]. }
  destruct IH as (l & Hl & Hin); [intros e' He'; apply Hsub; by right |]. cbn [collect_live].
  destruct (occupied e && sel e) eqn:Esel.
  2: { exists l. split; [done |]. intros x. rewrite Hin. split.
       - intros (e' & k & v & He' & ?). exists e', k, v. split; [by right | done].
       - intros (e' & k & v & [-> | He']%elem_of_cons & Ho & Hs & ?); [by rewrite Ho, Hs in Esel | eauto 10]. }
  apply andb_true_iff in Esel as [Ho Hs].
  assert (e ∈ table s) as He by (apply Hsub; by left). apply list_elem_of_lookup in He as [i Hi].
  assert (e ∈ occ (table s)) as Heo by (apply elem_of_occ; eauto).
  destruct (entry_holds _ _ _ _ _ H Hi Ho) as (k & v & Hh). pose proof (io_map_id _ _ _ H e Heo) as Hmid.
  destruct (lookup_lt_is_Some_2 (map_names s) (Z.to_nat (e_map_id e))) as [name Hname]; [unfold blen in Hmid; lia |].
  assert (map_ids s !! name = Some (e_map_id e)) as Hid by (apply (io_names _ _ _ H); split; [lia | done]).
  rewrite (is_expired_ok L M s name _ e v) by done. cbn [mbind outcome_bind].
  destruct (cell_expired (configs s) name (cell e v) now) eqn:Ex.
  - exists l. split; [done |]. intros x. rewrite Hin. split.
    + intros (e' & k' & v' & He' & ?). exists e', k', v'. split; [by right | done].
    + intros (e' & k' & v' & [-> | He']%elem_of_cons & Hr).
      * destruct Hr as (_ & _ & _ & Hex & _). rewrite (is_expired_ok L M s name _ e v) in Hex by done. congruence.
      * exists e', k', v'. done.
  - rewrite (key_bytes_ok L s e k v), (val_bytes_ok L s e k v) by (done || apply H). cbn [mbind outcome_bind].
    rewrite Hview, Hl by done. cbn [mbind outcome_bind]. eexists. split; [done |]. intros x.
    rewrite elem_of_cons, Hin. split.
    + intros [-> | (e' & k' & v' & He' & ?)].
      * exists e, k, v. split_and!; try done; [by left |]. by rewrite (is_expired_ok L M s name _ e v), Ex.
      * exists e', k', v'. split; [by right | done].
    + intros (e' & k' & v' & [-> | He']%elem_of_cons & Hr); [left | right; by exists e', k', v'].
      destruct Hr as (_ & _ & Hh' & _ & ->). by destruct (holds_fun _ _ _ _ _ _ Hh Hh') as [-> ->].
Qed.

(** The live entries of a map, each once. *)
Lemma collect_entries_ok A s now name :
  shard_ok A s ->
  exists l, collect_entries now name s = Ok l
    /\ forall k v, (k, v) ∈ l <-> exists c, A !! (name, k) = Some c /\ c_val c = v /\ cell_expired (configs s) name c now = false.
Proof.
  intros (L & M & H & Hn). unfold collect_entries. destruct (map_ids s !! name) as [id |] eqn:Hid.
  2: { exists []. split; [done |]. intros k v. rewrite Hn, Hid. split; [by intros ?%elem_of_nil | by intros (? & ? & _)]. }
  destruct (collect_live_ok L M s now (fun e => e_map_id e =? id) (fun _ k v => Ok (k, v)) (fun _ k v => (k, v)) (table s))
    as (l & Hl & Hin); [done | done | done |]. exists l. split; [done |].
  intros k v. rewrite Hin, Hn, Hid. cbn [mbind option_bind]. split.
  - intros (e & k' & v' & He & Ho & Hs%Z.eqb_eq & Hh & Hex & [= <- <-]). apply list_elem_of_lookup in He as [i Hi].
    exists (cell e v). split_and!; [| done |].
    + rewrite <- Hs. eapply contents_lookup; [apply H | apply elem_of_occ; eauto | done].
    + rewrite Hs, (is_expired_ok L M s name id e v) in Hex by done. by injection Hex.
  - intros (c & Hc & <- & Hex). destruct (contents_lookup_inv _ _ _ _ _ _ (io_contents _ _ _ H) Hc) as (e & v & He & Hm & Hh & ->).
    apply elem_of_occ in He as (i & Hi & Ho). exists e, k, v. split_and!; try done.
    + by eapply list_elem_of_lookup_2.
    + by apply Z.eqb_eq.
    + rewrite Hm, (is_expired_ok L M s name id e v) by done. by rewrite Hex.
Qed.

(** The live entries of all maps, with their stamps. *)
Lemma collect_all_stamped_ok A s now :
  shard_ok A s ->
  exists l, collect_all_stamped now s = Ok l
    /\ forall name k v st, (name, k, v, st) ∈ l <-> exists c, A !! (name, k) = Some c /\ c_val c = v /\ c_stamp c = st /\ cell_expired (configs s) name c now = false.
Proof.
  intros (L & M & H & Hn). unfold collect_all_stamped.
  assert (forall e, e ∈ occ (table s) -> exists name, map_names s !! Z.to_nat (e_map_id e) = Some name /\ map_ids s !! name = Some (e_map_id e)) as Hname.
  { intros e He. pose proof (io_map_id _ _ _ H e He) as Hmid.
    destruct (lookup_lt_is_Some_2 (map_names s) (Z.to_nat (e_map_id e))) as [name Hname]; [unfold blen in Hmid; lia |].
    exists name. split; [done |]. apply (io_names _ _ _ H). split; [lia | done]. }
  destruct (collect_live_ok L M s now (fun _ => true) (fun e k v => name ← index (map_names s) (Z.to_nat (e_map_id e)); Ok (name, k, v, e_stamp e))
    (fun e k v => (default [] (map_names s !! Z.to_nat (e_map_id e)), k, v, e_stamp e)) (table s)) as (l & Hl & Hin); [done | done | |].
  { intros e k v He. destruct (Hname e He) as (name & Hnm & _). unfold index. by rewrite Hnm. }
  exists l. split; [done |]. intros name k v st. rewrite Hin, Hn. split.
  - intros (e & k' & v' & He & Ho & _ & Hh & Hex & Heq). apply list_elem_of_lookup in He as [i Hi].
    assert (e ∈ occ (table s)) as Heo by (apply elem_of_occ; eauto). destruct (Hname e Heo) as (name' & Hnm & Hid).
    rewrite Hnm in Heq. injection Heq as -> -> -> ->. rewrite Hid. cbn [mbind option_bind]. exists (cell e v').
    split_and!; [eapply contents_lookup; [apply H | done | done] | done | done |].
    rewrite (is_expired_ok L M s name' _ e v') in Hex by done. by injection Hex.
  - intros (c & Hc & <- & <- & Hex). destruct (map_ids s !! name) as [id |] eqn:Hid; [| done]. cbn [mbind option_bind] in Hc.
    destruct (contents_lookup_inv _ _ _ _ _ _ (io_contents _ _ _ H) Hc) as (e & v & He & Hm & Hh & ->).
    destruct (Hname e He) as (name' & Hnm & Hid'). rewrite Hm in *. rewrite (same_id _ _ _ _ _ _ H Hid' Hid) in Hnm.
    apply elem_of_occ in He as (i & Hi & Ho). exists e, k, v. split_and!; try done.
    + by eapply list_elem_of_lookup_2.
    + rewrite Hm, (is_expired_ok L M s name id e v) by done. by rewrite Hex.
    + by rewrite Hm, Hnm.
Qed.

(** ** clear *)

(** [clear] leaves the map's count wrong until its end: the state with the counts [c] instead. *)
Definition recount (s : Inner) (c : list Z) : Inner := with_sizes s (len s) (tombstones s) c.

Lemma bury_clear s c0 id i e s2 :
  table s !! i = Some e -> occupied e = true -> e_map_id e = id ->
  bury s i e = Ok s2 -> clear_slot id (recount s c0) i = Ok (recount s2 c0).
Proof.
  intros Hi Ho Hm Hb. unfold clear_slot. cbn [recount with_sizes table slab]. rewrite (proj2 (index_Ok _ _ _) Hi).
  cbn [mbind outcome_bind]. rewrite Ho, Hm, Z.eqb_refl. cbn [andb]. unfold bury in Hb.
  destruct (slab_free (slab s) (e_handle e)) as [sl |]; [| done]. cbn [mbind outcome_bind] in *.
  destruct (set_index (table s) i (set_hash e TOMBSTONE)) as [t |]; [| done]. cbn [mbind outcome_bind] in *.
  destruct (add_count (counts s) (e_map_id e) (-1)) as [c |]; [| done]. cbn [mbind outcome_bind] in *.
  injection Hb as <-. done.
Qed.

Lemma bury_inv s i e s2 :
  bury s i e = Ok s2 ->
  table s2 = <[i := set_hash e TOMBSTONE]> (table s) /\ exists n, counts s2 = <[Z.to_nat (e_map_id e) := n]> (counts s).
Proof.
  unfold bury. destruct (slab_free _ _); [| done]. cbn [mbind outcome_bind].
  destruct (set_index (table s) _ _) as [t |] eqn:Et; [| done]. cbn [mbind outcome_bind]. unfold add_count.
  destruct (index _ _) as [x |]; [| done]. cbn [mbind outcome_bind].
  destruct (set_index (counts s) _ _) as [c' |] eqn:Ec; [| done]. cbn [mbind outcome_bind].
  intros [= <-]. apply set_index_Ok in Et as [_ ->], Ec as [_ ->]. eauto.
Qed.

(** What the loop of [clear] for the map [id] has done to the state [s0], slots [done] visited. *)
Record clearing (M : gmap (Z * bytes) Cell) (s0 : Inner) (id : Z) (visited : nat -> Prop) (s : Inner) : Prop := {
  cl_ok : exists L' M' c, inner_ok L' M' (recount s c)
    /\ (forall id' k, id' <> id -> M' !! (id', k) = M !! (id', k))
    /\ (forall j, j <> Z.to_nat id -> c !! j = counts s !! j) /\ length c = length (counts s);
  cl_frame : frame s0 s;
  cl_len : shrinks s0 s;
  cl_counts : counts s = counts s0;
  cl_indexes : indexes s = indexes s0;
  cl_visited : forall i e, visited i -> table s !! i = Some e -> occupied e = true -> e_map_id e <> id
}.

Lemma clear_slot_ok M s0 id visited s i :
  clearing M s0 id visited s -> small s0 -> (i < length (table s0))%nat -> 0 <= id ->
  post (clear_slot id s i) (clearing M s0 id (fun j => visited j \/ j = i)).
Proof.
  intros [(L' & M' & c & H & HM & Hc & Hcl) Hf Hl Hcnt Hix Hv] Hsm Hi Hid0.
  destruct (lookup_lt_is_Some_2 (table s) i) as [e He]; [by rewrite (fr_cap _ _ Hf) |].
  destruct (occupied e && (e_map_id e =? id)) eqn:Esel.
  - apply andb_true_iff in Esel as [Ho Hm%Z.eqb_eq].
    destruct (entry_holds _ _ _ i e H He Ho) as (k & v & Hh).
    assert (small (recount s c)) as Hsm' by (eapply (frame_small s0); [by destruct Hf | done]).
    pose proof (bury_ok _ _ _ i e k v H Hsm' He Hh) as Hb. apply post_Ok in Hb as (s2 & Hb & H2 & Hf2 & Hl2 & Ht2 & Eix2).
    assert (clear_slot id s i = Ok (recount s2 (counts s))) as ->.
    { rewrite <- (bury_clear (recount s c) (counts s) id i e s2) by done. f_equal. by destruct s. }
    cbn [post]. destruct (bury_inv _ _ _ _ Hb) as [Htab [n Hn]]. rewrite Hm in Hn. cbn [recount with_sizes table counts] in Htab, Hn.
    split.
    + eexists _, _, (counts s2). split; [by destruct s2 |]. split_and!.
      * intros id' k' Hne. rewrite lookup_delete_ne by congruence. by apply HM.
      * intros j Hj. rewrite Hn, list_lookup_insert_ne by done. by apply Hc.
      * by rewrite Hn, length_insert.
    + etrans; [exact Hf |]. destruct Hf2. by split.
    + etrans; [exact Hl |]. unfold shrinks, used. cbn in Hl2, Ht2 |- *. lia.
    + done.
    + cbn. by rewrite Eix2.
    + intros j e' Hj Hj' Ho'. cbn [table recount with_sizes] in Hj'. rewrite Htab in Hj'.
      apply list_lookup_insert_Some in Hj' as [(<- & <- & _) | (Hne & Hj')]; [done |].
      destruct Hj as [Hj | ->]; [by eapply Hv | done].
  - unfold clear_slot. rewrite (proj2 (index_Ok _ _ _) He). cbn [mbind outcome_bind]. rewrite Esel. cbn [post].
    split; try done; [eauto 10 |]. intros j e' [Hj | ->] Hj' Ho'; [by eapply Hv |].
    assert (e' = e) as -> by congruence. rewrite Ho' in Esel. by apply Z.eqb_neq in Esel.
Qed.

Lemma clear_loop_ok M s0 id n s :
  clearing M s0 id (fun j => False) s -> small s0 -> (n <= length (table s0))%nat -> 0 <= id ->
  post (for_each (clear_slot id) (seq 0 n) s) (clearing M s0 id (fun j => (j < n)%nat)).
Proof.
  intros H Hsm Hn Hid. assert (forall k m s, (k + m = n)%nat -> clearing M s0 id (fun j => (j < k)%nat) s ->
    post (for_each (clear_slot id) (seq k m) s) (clearing M s0 id (fun j => (j < n)%nat))) as Hgen.
  { intros k m. revert k. induction m as [| m IH]; intros k s' Hk Hc; cbn [seq for_each].
    - cbn [post]. by replace n with k by lia.
    - eapply post_bind; [apply clear_slot_ok; [exact Hc | done | lia | done] |]. intros s'' [? ? ? ? ? Hv].
      apply IH; [lia |]. split; try done. intros i e Hi. apply Hv. lia. }
  apply Hgen; [done |]. destruct H as [? ? ? ? ? Hv]. split; try done. intros i e Hi. lia.
Qed.

(** [clear] removes exactly the entries of its map. *)
Lemma clear_ok A s name :
  shard_ok A s -> small s ->
  post (clear name s) (fun s' => frame s s' /\ shrinks s s' /\ indexes s' = indexes s /\ shard_ok (filter (fun p => p.1.1 <> name) A) s').
Proof.
  intros (L & M & H & Hn) Hsm. unfold clear. destruct (map_ids s !! name) as [id |] eqn:Hid.
  2: { cbn [post]. split_and!; try done. exists L, M. split; [done |]. intros name' k.
       destruct (decide (name' = name)) as [-> | Hne].
       - rewrite Hid. cbn [mbind option_bind]. apply map_lookup_filter_None. right. intros c _ HP. by apply HP.
       - rewrite <- Hn, map_lookup_filter. destruct (A !! (name', k)); [cbn; by rewrite option_guard_True | done]. }
  destruct (name_of_id _ _ _ _ _ H Hid) as [Hidr _]. eapply post_bind.
  { apply (clear_loop_ok M s id (length (table s)) s); [| done | done | lia]. split; try done.
    exists L, M, (counts s). split; [by destruct s | done]. }
  intros s1 [(L' & M' & c & H1 & HM & Hc & Hcl) Hf Hl Hcnt Hix Hv].
  assert (Z.to_nat id < length (counts s1))%nat as Hlt.
  { rewrite Hcnt, (io_counts_len _ _ _ H). unfold blen in Hidr. lia. }
  assert (forall e, e ∈ occ (table s1) -> e_map_id e <> id) as Hgone.
  { intros e (i & Hi & Ho)%elem_of_occ. apply (Hv i e); [| done | done]. apply lookup_lt_Some in Hi.
    by rewrite <- (fr_cap _ _ Hf). }
  eapply post_bind; [by apply post_set_index |]. intros c' ->. cbn [post]. split_and!; [| done | done |].
  { etrans; [exact Hf |]. by split. }
  exists L', M'. assert (<[Z.to_nat id := 0]> (counts s1) = c) as Ec.
  { apply list_eq. intros j. destruct (decide (j = Z.to_nat id)) as [-> | Hne].
    - rewrite list_lookup_insert_eq by done. destruct (lookup_lt_is_Some_2 c (Z.to_nat id)) as [x Hx]; [lia |].
      rewrite Hx. f_equal. rewrite (io_counts _ _ _ H1 _ _ Hx). cbn [recount with_sizes table].
      rewrite filter_none; [done |]. apply Forall_forall. intros e He. rewrite Z2Nat.id by lia. by apply Hgone.
    - rewrite list_lookup_insert_ne by done. by rewrite Hc. }
  rewrite Ec. split; [exact H1 |]. intros name' k. cbn [with_sizes map_ids]. rewrite (fr_ids _ _ Hf).
  destruct (decide (name' = name)) as [-> | Hne].
  - rewrite Hid. cbn [mbind option_bind]. transitivity (@None Cell).
    + apply map_lookup_filter_None. right. intros ? _ HP. by apply HP.
    + symmetry. destruct (M' !! (id, k)) as [x |] eqn:E; [| done].
      destruct (contents_lookup_inv _ _ _ _ _ _ (io_contents _ _ _ H1) E) as (e & v & He & Hm & _). by apply Hgone in He.
  - rewrite map_lookup_filter, Hn. destruct (map_ids s !! name') as [id' |] eqn:E'; [| done]. cbn [mbind option_bind].
    rewrite HM by (intros ->; apply Hne; symmetry; by apply (same_id _ _ _ _ _ _ H Hid)).
    destruct (M !! (id', k)); [cbn; by rewrite option_guard_True | done].
Qed.

(** ** The empty shard *)

Lemma new_inner_ok : inner_ok ∅ ∅ new_inner.
Proof.
  assert (blen (replicate 1024 empty_entry) = 1024) as El by (unfold blen; by rewrite length_replicate).
  pose proof (fresh_replicate 10 ltac:(lia)) as Hf. change (Z.to_nat (2 ^ 10)) with 1024%nat in Hf. change (2 ^ 10 - 1) with 1023 in Hf.
  split; cbn [slab table mask len tombstones map_ids map_names counts new_inner]; rewrite ?occ_replicate; try done.
  - apply new_slab_ok.
  - split; try by constructor.
    + intros h. rewrite lookup_empty. split; [by intros [? ?] | by intros ?%elem_of_nil].
    + by intros e ?%elem_of_nil.
  - apply Hf.
  - apply Hf.
  - by eapply fresh_hash.
  - intros name id. rewrite lookup_empty. split; [done | by intros [_ ?]].
  - by intros e ?%elem_of_nil.
Qed.

Lemma new_shard_ok : shard_ok ∅ new_inner.
Proof. exists ∅, ∅. split; [apply new_inner_ok |]. intros name key. by rewrite !lookup_empty. Qed.
