(* ===== verification/TableQuery.v ===== *)
(** * Adding an index and querying

    [add_index] builds an index that covers the live entries; [query] returns exactly the live entries
    that match, whether an index resolved the predicate or the table was scanned. *)

From S2P Require Import Prelude Fixed Slab FieldValue QueryIndex Table TableFacts TableIndex TableSpec.

(** What a reader sees of a shard at a time: the values of the live entries. *)
Definition live (cfgs : gmap bytes MapConfig) (now : Z) (A : amap) (name key : bytes) : option bytes :=
  c ← A !! (name, key); if cell_expired cfgs name c now then None else Some (c_val c).

Lemma cell_expired_touch cfgs name c now :
  cell_expired cfgs name c now = false -> cell_expired cfgs name (touch now c) now = false.
Proof.
  unfold cell_expired, touch, sat_sub. cbn. intros [H1 H2]%orb_false_iff. rewrite H1. cbn.
  destruct (cfgs !! name) as [cfg |]; [| done]. rewrite Z.sub_diag, Z.max_id. apply andb_false_iff.
  destruct (Z.ltb_spec 0 (max_idle_ms cfg)); [right; apply Z.ltb_ge; lia | by left].
Qed.

(** Looking a key up returns its live value and hides nothing. *)
Lemma live_a_find cfgs now name key A name' key' :
  live cfgs now (a_find cfgs now name key A).1 name' key' = live cfgs now A name' key'.
Proof.
  unfold live, a_find. destruct (A !! (name, key)) as [c |] eqn:E; [| done].
  destruct (cell_expired cfgs name c now) eqn:Ex; cbn [fst].
  - destruct (decide ((name', key') = (name, key))) as [[= -> ->] | Hne]; [| by rewrite lookup_delete_ne].
    rewrite lookup_delete_eq, E. cbn. by rewrite Ex.
  - destruct (decide ((name', key') = (name, key))) as [[= -> ->] | Hne]; [| by rewrite lookup_insert_ne].
    rewrite lookup_insert_eq, E. cbn [mbind option_bind]. by rewrite (cell_expired_touch _ _ _ _ Ex), Ex.
Qed.

Lemma a_find_live cfgs now name key A : c_val <$> (a_find cfgs now name key A).2 = live cfgs now A name key.
Proof.
  unfold live, a_find. destruct (A !! (name, key)) as [c |]; [| done]. cbn [mbind option_bind].
  by destruct (cell_expired cfgs name c now).
Qed.

Section Query.
Context {Schemas : Type} (extract : bytes -> Schemas -> bytes -> FieldValue) (schemas : Schemas).
Context (text_match : TextKind -> bytes -> bytes -> bool) (iter : gset bytes -> list bytes).

(** ** add_index *)

(** Indexes of [map] on the attributes [attrs] may have appeared, and keys were only added. *)
Record indexes_grow (map : bytes) (attrs : list bytes) (s s' : Inner) : Prop := {
  ig_rest : s' = with_indexes s (indexes s');
  ig_keeps : forall m a k v, in_index extract schemas (map_indexes s m) a k v -> in_index extract schemas (map_indexes s' m) a k v;
  ig_wf : (forall m a ix, map_indexes s m !! a = Some ix -> index_wf ix) ->
    forall m a ix, map_indexes s' m !! a = Some ix -> index_wf ix /\ (is_Some (map_indexes s m !! a) \/ m = map /\ a ∈ attrs)
}.

Lemma indexes_grow_refl map attrs s : indexes_grow map attrs s s.
Proof. split; [by destruct s | done | eauto]. Qed.

Lemma indexes_grow_trans map attrs s1 s2 s3 :
  indexes_grow map attrs s1 s2 -> indexes_grow map attrs s2 s3 -> indexes_grow map attrs s1 s3.
Proof.
  intros [R1 K1 W1] [R2 K2 W2]. split.
  - rewrite R2. by rewrite R1.
  - eauto.
  - intros Hwf m a ix Hix. destruct (W2 (fun m a ix H => proj1 (W1 Hwf m a ix H)) m a ix Hix) as [H1 [[ix' H2] | H2]]; [| eauto].
    split; [done |]. apply (W1 Hwf m a ix' H2).
Qed.

Lemma indexes_grow_attrs map attrs attrs' s s' :
  attrs ⊆ attrs' -> indexes_grow map attrs s s' -> indexes_grow map attrs' s s'.
Proof.
  intros Hsub [R K Wf]. split; [done | done |]. intros Hwf m a ix Hix. destruct (Wf Hwf m a ix Hix) as [H1 [H2 | [-> H2]]]; eauto.
Qed.

(** One more key in one index. *)
Lemma indexes_grow_insert s map attr ty key val fv :
  extract val schemas attr = fv -> fv <> Null ->
  let s' := with_indexes s (<[map := <[attr := index_insert fv key (default (new_index ty) (map_indexes s map !! attr))]>
                                       (map_indexes s map)]> (indexes s)) in
  indexes_grow map [attr] s s' /\ in_index extract schemas (map_indexes s' map) attr key val.
Proof.
  intros Hfv Hn s'.
  assert (forall m, map_indexes s' m = if decide (map = m)
            then <[attr := index_insert fv key (default (new_index ty) (map_indexes s map !! attr))]> (map_indexes s map)
            else map_indexes s m) as Hm.
  { intros m. unfold map_indexes at 1. cbn. case_decide as E; [subst; by rewrite lookup_insert_eq | by rewrite lookup_insert_ne]. }
  split; [split |].
  - done.
  - intros m a k v Hin. rewrite Hm. case_decide as E; [subst m | done]. intros Hnull Hf.
    destruct (Hin Hnull Hf) as (ix & Hix & Hmem). destruct (decide (attr = a)) as [-> | Hne].
    + rewrite lookup_insert_eq, Hix. eexists. split; [done |]. by apply index_insert_mem.
    + rewrite lookup_insert_ne by done. eauto.
  - intros Hwf m a ix. rewrite Hm. case_decide as E; [subst m | eauto].
    intros [[<- <-] | [_ Hix]]%lookup_insert_Some; [| eauto]. split; [| right; split; [done | by left]].
    apply index_insert_wf. destruct (map_indexes s map !! attr) eqn:E; [by eapply Hwf | apply new_index_wf].
  - rewrite Hm, decide_True by done. intros _ Hf. rewrite lookup_insert_eq. eexists. split; [done |].
    rewrite Hfv in *. by apply index_insert_mem_new.
Qed.

Lemma inner_ok_with_indexes L M s ixs : inner_ok L M s -> inner_ok L M (with_indexes s ixs).
Proof. by intros []. Qed.

(** The entries an index on [attr] has to have. *)
Definition indexed_entry (L : gmap Handle bytes) (now : Z) (map attr : bytes) (map_id : Z) (s s' : Inner) (e : Entry) : Prop :=
  forall k v, occupied e = true -> e_map_id e = map_id -> holds L e k v ->
    cell_expired (configs s) map (cell e v) now = false -> in_index extract schemas (map_indexes s' map) attr k v.

Lemma add_index_entry_ok L M s now map attr ty id e :
  inner_ok L M s -> map_ids s !! map = Some id -> e ∈ table s ->
  post (add_index_entry extract schemas now map attr ty id s e) (fun s' => indexes_grow map [attr] s s'
    /\ indexed_entry L now map attr id s s' e).
Proof.
  intros H Hid He. unfold add_index_entry, indexed_entry. destruct (occupied e && (e_map_id e =? id)) eqn:Esel.
  2: { cbn [post]. split; [apply indexes_grow_refl |]. intros k v Ho Hm. by rewrite Ho, Hm, Z.eqb_refl in Esel. }
  apply andb_true_iff in Esel as [Ho Hm%Z.eqb_eq]. apply list_elem_of_lookup in He as [i Hi].
  destruct (entry_holds _ _ _ _ _ H Hi Ho) as (k & v & Hh). rewrite (is_expired_ok L M s map id e v) by done.
  cbn [mbind outcome_bind]. destruct (cell_expired (configs s) map (cell e v) now) eqn:Ex.
  - cbn [post]. split; [apply indexes_grow_refl |]. intros k' v' _ _ Hh' Ex'.
    destruct (holds_fun _ _ _ _ _ _ Hh Hh') as [<- <-]. congruence.
  - rewrite (key_bytes_ok L s e k v), (val_bytes_ok L s e k v) by (done || apply H). cbn [mbind outcome_bind].
    destruct (decide (extract v schemas attr = Null)) as [E | E].
    + rewrite E. cbn [post]. split; [apply indexes_grow_refl |]. intros k' v' _ _ Hh' _ Hnull.
      destruct (holds_fun _ _ _ _ _ _ Hh Hh') as [<- <-]. done.
    + destruct (indexes_grow_insert s map attr ty k v _ eq_refl E) as [Hg Hin].
      destruct (extract v schemas attr) eqn:Efv; [done | ..]; cbn [post];
        (split; [exact Hg |]; intros k' v' _ _ Hh' _; by destruct (holds_fun _ _ _ _ _ _ Hh Hh') as [<- <-]).
Qed.

Lemma indexed_entry_after L now map attr attrs id s s1 s2 e :
  indexes_grow map attrs s1 s2 -> indexed_entry L now map attr id s s1 e -> indexed_entry L now map attr id s s2 e.
Proof. intros Hg He k v Ho Hm Hh Hex. apply (ig_keeps _ _ _ _ Hg). by apply He. Qed.

Lemma indexed_entry_before L now map attr attrs id s s1 s2 e :
  indexes_grow map attrs s s1 -> indexed_entry L now map attr id s1 s2 e -> indexed_entry L now map attr id s s2 e.
Proof. intros [R _ _] He k v. specialize (He k v). rewrite R in He. exact He. Qed.

Lemma add_index_table_ok L M s now map attr ty id t :
  inner_ok L M s -> map_ids s !! map = Some id -> (forall e, e ∈ t -> e ∈ table s) ->
  post (for_each (add_index_entry extract schemas now map attr ty id) t s) (fun s' => indexes_grow map [attr] s s'
    /\ forall e, e ∈ t -> indexed_entry L now map attr id s s' e).
Proof.
  revert s. induction t as [| e t IH]; intros s H Hid Hsub; cbn [for_each].
  { cbn [post]. split; [apply indexes_grow_refl | by intros e ?%elem_of_nil]. }
  eapply post_bind; [apply (add_index_entry_ok L M); [done | done | apply Hsub; by left] |]. intros s1 [Hg1 He1].
  pose proof (ig_rest _ _ _ _ Hg1) as R. eapply post_mono; [apply IH |].
  - rewrite R. by apply inner_ok_with_indexes.
  - by rewrite R.
  - intros e' He'. rewrite R. apply Hsub. by right.
  - intros s' [Hg2 Ht]. split; [by eapply indexes_grow_trans |]. intros e' [-> | He']%elem_of_cons.
    + by eapply indexed_entry_after.
    + eapply indexed_entry_before; [exact Hg1 | by apply Ht].
Qed.

Lemma add_index_attrs_ok L M s now map ty id attrs :
  inner_ok L M s -> map_ids s !! map = Some id ->
  post (for_each (fun s attr => for_each (add_index_entry extract schemas now map attr ty id) (table s) s) attrs s)
    (fun s' => indexes_grow map attrs s s' /\ forall attr e, attr ∈ attrs -> e ∈ table s -> indexed_entry L now map attr id s s' e).
Proof.
  revert s. induction attrs as [| a attrs IH]; intros s H Hid; cbn [for_each].
  { cbn [post]. split; [apply indexes_grow_refl | by intros a e ?%elem_of_nil]. }
  eapply post_bind; [by apply (add_index_table_ok L M) |]. intros s1 [Hg1 He1]. pose proof (ig_rest _ _ _ _ Hg1) as R.
  eapply post_mono; [apply IH; [rewrite R; by apply inner_ok_with_indexes | by rewrite R] |]. intros s' [Hg2 Ha].
  assert (indexes_grow map (a :: attrs) s1 s') as Hg2' by (eapply indexes_grow_attrs; [| exact Hg2]; set_solver).
  split; [eapply indexes_grow_trans; [eapply indexes_grow_attrs; [| exact Hg1]; set_solver | done] |].
  intros attr e [-> | Hin]%elem_of_cons He; [eapply indexed_entry_after; [exact Hg2 | by apply He1] |].
  eapply indexed_entry_before; [exact Hg1 |]. apply Ha; [done |]. by rewrite R.
Qed.

(** The configurations of the map with one more; the indexes as they were. *)
Lemma configured_add s map cfgs config m a :
  cfgs = default [] (index_configs s !! map) ->
  configured (with_index_configs s (<[map := cfgs ++ [config]]> (index_configs s))) m a
  <-> configured s m a \/ m = map /\ a ∈ ix_attributes config.
Proof.
  intros ->. unfold configured. cbn. split.
  - intros (cs & c & [[<- <-] | [_ Hl]]%lookup_insert_Some & Hc & Ha); [| left; eauto].
    apply elem_of_app in Hc as [Hc | ->%list_elem_of_singleton]; [left | by right].
    destruct (index_configs s !! map); [eauto | by apply elem_of_nil in Hc].
  - intros [(cs & c & Hl & Hc & Ha) | [-> Ha]].
    + destruct (decide (map = m)) as [<- | Hne].
      * eexists _, c. rewrite lookup_insert_eq, Hl. split_and!; [done | apply elem_of_app; by left | done].
      * eexists cs, c. by rewrite lookup_insert_ne.
    + eexists _, config. rewrite lookup_insert_eq. split_and!; [done | apply elem_of_app; right; by left | done].
Qed.

Lemma covered_add_index L M A now map cfgs config id s s' :
  inner_ok L M s -> named s M A -> map_ids s !! map = Some id -> cfgs = default [] (index_configs s !! map) ->
  let s1 := with_index_configs s (<[map := cfgs ++ [config]]> (index_configs s)) in
  indexes_grow map (ix_attributes config) s1 s' ->
  (forall attr e, attr ∈ ix_attributes config -> e ∈ table s -> indexed_entry L now map attr id s1 s' e) ->
  covered extract schemas now A s -> covered extract schemas now A s'.
Proof.
  intros H Hn Hid Hcf s1 [R K Wf] Hin [Hwf Hmem].
  assert (forall m a, configured s' m a <-> configured s m a \/ m = map /\ a ∈ ix_attributes config) as Hcfg.
  { intros m a. rewrite R, <- (configured_add s map cfgs config m a Hcf). done. }
  split.
  - intros m a ix Hix. rewrite Hcfg. destruct (Wf (fun m a ix H => proj1 (Hwf m a ix H)) m a ix Hix) as [H1 [[ix' H2] | H2]]; [| by auto].
    split; [done |]. left. apply (Hwf m a ix' H2).
  - intros m key a c Hc Hex [Ha | [-> Ha]]%Hcfg; rewrite R in Hex; cbn in Hex.
    + apply K. by apply (Hmem m key a c).
    + rewrite Hn, Hid in Hc. cbn [mbind option_bind] in Hc.
      destruct (contents_lookup_inv _ _ _ _ _ _ (io_contents _ _ _ H) Hc) as (e & v & He & Hm & Hh & ->).
      apply elem_of_occ in He as (i & Hi & Ho). by apply (Hin a e Ha (list_elem_of_lookup_2 _ _ _ Hi) key v).
Qed.

(** A new index covers the live entries, and nothing else of the shard changes. *)
Lemma add_index_ok A s now map config :
  shard_ok A s -> post (add_index extract schemas now map config s) (fun s' => cost s s' /\ shrinks s s'
    /\ tracks extract schemas now A s A s').
Proof.
  intros (L & M & H & Hn). unfold add_index. set (cfgs := default [] _). destruct (existsb _ cfgs).
  { cbn [post]. split_and!; [apply frame_cost; done | done | split; [by exists L, M | done]]. }
  set (s1 := with_index_configs s _). assert (inner_ok L M s1) as H1 by (by destruct H).
  assert (cost s s1 /\ shrinks s s1) as [Hc1 Hs1].
  { split; [| by unfold s1]. split; unfold s1, used; cbn; [lia | by left | lia | done]. }
  destruct (map_ids s1 !! map) as [id |] eqn:Hid.
  - eapply post_mono; [by apply (add_index_attrs_ok L M) |]. intros s' [Hg Hin]. pose proof (ig_rest _ _ _ _ Hg) as R.
    split_and!; [rewrite R; by destruct Hc1 | rewrite R; exact Hs1 |]. split.
    + exists L, M. rewrite R. split; [by apply inner_ok_with_indexes | done].
    + by eapply (covered_add_index L M A now map cfgs config id).
  - cbn [post]. split_and!; [done | done |]. split; [by exists L, M |]. intros [Hwf Hmem]. split.
    + intros m a ix Hix. destruct (Hwf m a ix Hix) as [? ?]. split; [done |]. apply configured_add; [done | by left].
    + intros m key a c Hc Hex [Ha | [-> _]]%configured_add; [by apply (Hmem m key a c) | | done].
      rewrite Hn in Hc. change (map_ids s1) with (map_ids s) in Hid. by rewrite Hid in Hc.
Qed.

(** ** query *)

(** The constants the planner looks up in an index. *)
Fixpoint consts (p : Predicate) : list (bytes * FieldValue) :=
  match p with
  | Compare field _ pv => [(field, pv)]
  | PIn field values => (fun pv => (field, pv)) <$> values
  | PAnd children => foldr (fun c l => consts c ++ l) [] children
  | _ => []
  end.

(** No range the planner resolves is reversed. *)
Fixpoint ranges_ok (p : Predicate) : bool :=
  match p with
  | Between _ from to => negb (is_lt (cmp to from))
  | PAnd children => forallb ranges_ok children
  | _ => true
  end.

(** The value has no double, and equals a constant of the predicate only with the constant's type. *)
Definition fits (p : Predicate) (val : bytes) : Prop :=
  (forall field, is_f64 (extract val schemas field) = false)
  /\ Forall (fun '(field, pv) => compare (extract val schemas field) pv = Some Eq -> extract val schemas field = pv) (consts p).

Lemma plan_total p ixs : ranges_ok p = true -> exists r, plan_and_resolve p ixs = Ok r.
Proof.
  induction p as [p IHp] using (Wf_nat.induction_ltof1 _ and_size). unfold Wf_nat.ltof in IHp.
  destruct p as [field op pv | preds | | | field from to | field values | | | | | | | | |]; try (by eexists).
  - intros _. cbn [plan_and_resolve]. destruct (ixs !! field) as [[m | m] |]; [| | by eexists]; destruct op; by eexists.
  - cbn [ranges_ok plan_and_resolve]. revert IHp. cbn [and_size].
    induction preds as [| p preds IH]; cbn [foldr forallb]; [by eexists |]. intros IHp [Hp Hps]%andb_true_iff.
    destruct (IHp p) as [[ks |] ->]; [lia | done | |]; cbn [mbind outcome_bind]; [by eexists |].
    apply IH; [| done]. intros q Hq. apply IHp. lia.
  - cbn [ranges_ok plan_and_resolve]. intros Hr%negb_true_iff. destruct (ixs !! field) as [[m | m] |]; [| by eexists..].
    unfold query_between. rewrite Hr. by eexists.
  - intros _. cbn [plan_and_resolve]. destruct (ixs !! field); by eexists.
Qed.

Lemma fits_consts p val key ixs :
  fits p val -> consts_ok (fun v a => extract v schemas a) {[key := val]} ixs p.
Proof.
  intros [_ Hc]. revert Hc. induction p as [p IHp] using (Wf_nat.induction_ltof1 _ and_size). unfold Wf_nat.ltof in IHp.
  assert (forall field pv, (compare (extract val schemas field) pv = Some Eq -> extract val schemas field = pv) ->
    const_ok (fun v a => extract v schemas a) {[key := val]} ixs field pv) as H1.
  { intros field pv Hpv. unfold const_ok. destruct (ixs !! field) as [[m | m] |]; [done | | done].
    by intros k v [<- <-]%lookup_singleton_Some. }
  destruct p as [field op pv | preds | | | | field values | | | | | | | | |]; try done.
  - intros Hc. apply Forall_cons in Hc as [Hc _]. by apply H1.
  - cbn [consts consts_ok]. revert IHp. cbn [and_size]. induction preds as [| p preds IH]; cbn [foldr]; [done |].
    intros IHp [Hp Hps]%Forall_app. split; [apply (IHp p); [lia | done] |]. apply IH; [| done]. intros q Hq. apply IHp. lia.
  - cbn [consts consts_ok]. rewrite Forall_fmap. intros Hc. eapply Forall_impl; [exact Hc |]. intros pv. apply H1.
Qed.

(** A live entry that matches is among the keys the planner returns. *)
Lemma plan_covers A s now map ixs p ks key val :
  covered extract schemas now A s -> indexes s !! map = Some ixs -> plan_and_resolve p ixs = Ok (Some ks) ->
  live (configs s) now A map key = Some val -> fits p val ->
  satisfies extract schemas text_match p val = true -> key ∈ ks.
Proof.
  intros [Hwf Hmem] Hix Hplan Hlive Hfits Hmatch.
  assert (map_indexes s map = ixs) as Em by (unfold map_indexes; by rewrite Hix).
  unfold live in Hlive. destruct (A !! (map, key)) as [c |] eqn:Hc; [| done]. cbn [mbind option_bind] in Hlive.
  destruct (cell_expired _ _ _ _) eqn:Hex; [done |]. injection Hlive as <-.
  eapply (plan_complete (fun v a => extract v schemas a) text_match {[key := c_val c]} ixs); [| | by apply fits_consts | done | | done].
  - intros k v field [<- <-]%lookup_singleton_Some. apply Hfits.
  - intros field ix Hf. rewrite <- Em in Hf. destruct (Hwf map field ix Hf) as [H1 H2]. split; [done |].
    intros k v [<- <-]%lookup_singleton_Some Hn. destruct (Hmem map key field c Hc Hex H2 Hn (proj1 Hfits field)) as (ix' & Hix' & Hm).
    by simplify_eq.
  - by rewrite lookup_singleton_eq.
Qed.

Lemma tracks_refl now A s : shard_ok A s -> tracks extract schemas now A s A s.
Proof. by split. Qed.

(** Keys looked up one after the other: live entries are touched, expired ones go. *)
Definition a_finds (cfgs : gmap bytes MapConfig) (now : Z) (name : bytes) (keys : list bytes) (A : amap) : amap :=
  foldl (fun A key => (a_find cfgs now name key A).1) A keys.

Lemma live_a_finds cfgs now name keys A m k : live cfgs now (a_finds cfgs now name keys A) m k = live cfgs now A m k.
Proof. unfold a_finds. revert A. induction keys as [| key keys IH]; intros A; cbn [foldl]; [done |]. by rewrite IH, live_a_find. Qed.

(** Looking keys up one after the other sees one and the same map. *)
Lemma query_keys_ok A s now map p keys :
  shard_ok A s -> small s ->
  post (query_keys extract schemas text_match now map p keys s) (fun '(s', out) => frame s s' /\ shrinks s s'
    /\ tracks extract schemas now A s (a_finds (configs s) now map keys A) s'
    /\ forall k v, (k, v) ∈ out <-> k ∈ keys /\ live (configs s) now A map k = Some v /\ satisfies extract schemas text_match p v = true).
Proof.
  revert A s. induction keys as [| key keys IH]; intros A s H Hsm; cbn [query_keys].
  { cbn [post]. split_and!; [done | done | by apply tracks_refl |].
    intros k v. split; [by intros ?%elem_of_nil | by intros [?%elem_of_nil _]]. }
  eapply post_bind; [by apply (get_ok extract schemas A) |]. intros [s1 r] (Hf1 & Hs1 & Hr & Htr1). rewrite a_find_live in Hr.
  eapply post_bind; [eapply (IH (a_find (configs s) now map key A).1 s1); [apply Htr1 | by eapply frame_small] |].
  intros [s2 out] (Hf2 & Hs2 & Htr2 & Hout). rewrite (fr_configs _ _ Hf1) in *. cbn [post].
  split_and!; [by etrans | by etrans | |].
  - by eapply tracks_trans.
  - setoid_rewrite live_a_find in Hout. intros k v. rewrite elem_of_cons. subst r.
    destruct (live (configs s) now A map key) as [val |] eqn:El.
    + destruct (satisfies extract schemas text_match p val) eqn:Em.
      * rewrite elem_of_cons, Hout. split; [intros [[= -> ->] | (? & ? & ?)]; auto |].
        intros ([-> | Hk] & Hl & Hm); [left; congruence | by right].
      * rewrite Hout. split; [intros (? & ? & ?); auto |]. intros ([-> | Hk] & Hl & Hm); [congruence | done].
    + rewrite Hout. split; [intros (? & ? & ?); auto |]. intros ([-> | Hk] & Hl & Hm); [congruence | done].
Qed.

Lemma collect_live_entries A s now map :
  shard_ok A s -> exists l, collect_entries now map s = Ok l /\ forall k v, (k, v) ∈ l <-> live (configs s) now A map k = Some v.
Proof.
  intros H. destruct (collect_entries_ok A s now map H) as (l & Hl & Hin). exists l. split; [done |].
  intros k v. rewrite Hin. unfold live. split.
  - intros (c & Hc & <- & Hex). rewrite Hc. cbn [mbind option_bind]. by rewrite Hex.
  - destruct (A !! (map, k)) as [c |]; [| done]. cbn [mbind option_bind]. destruct (cell_expired _ _ _ _) eqn:E; [done |].
    intros [= <-]. eauto.
Qed.

(** What [query] leaves and returns. *)
Definition query_post (now : Z) (map : bytes) (p : Predicate) (A : amap) (s s' : Inner) (out : list (bytes * bytes)) : Prop :=
  frame s s' /\ shrinks s s'
  /\ (exists keys, tracks extract schemas now A s (a_finds (configs s) now map keys A) s')
  /\ ((forall key val, live (configs s) now A map key = Some val -> fits p val) -> forall k v, (k, v) ∈ out <->
        live (configs s) now A map k = Some v /\ satisfies extract schemas text_match p v = true).

(** [query] returns exactly the live entries that match. *)
Lemma query_ok A s now map p :
  (forall X, iter X ≡ₚ elements X) -> shard_ok A s -> small s -> covered extract schemas now A s -> ranges_ok p = true ->
  post (query extract schemas text_match iter now map p s) (fun '(s', out) => query_post now map p A s s' out).
Proof.
  intros Hiter H Hsm Hcov Hr.
  assert (post (query_scan extract schemas text_match now map p s) (fun '(s', out) => query_post now map p A s s' out)) as Hscan.
  { unfold query_scan. destruct (collect_live_entries A s now map H) as (l & -> & Hin). cbn [mbind outcome_bind post].
    split_and!; [done | done | by exists []; apply tracks_refl |].
    intros _ k v. rewrite list_elem_of_filter, Hin. cbn. tauto. }
  unfold query. destruct (map_ids s !! map) as [id |] eqn:Hid.
  2: { cbn [post]. split_and!; [done | done | by exists []; apply tracks_refl |]. intros _ k v.
       destruct H as (L & M & _ & Hn). unfold live. rewrite Hn, Hid. split; [by intros ?%elem_of_nil | by intros [? _]]. }
  destruct (indexes s !! map) as [ixs |] eqn:Hix; [| done].
  destruct (plan_total p ixs Hr) as [[ks |] Hplan]; rewrite Hplan; cbn [mbind outcome_bind]; [| done].
  eapply post_mono; [by apply (query_keys_ok A) |]. intros [s' out] (Hf & Hs & HA & Hout). split_and!; [done | done | by eexists |].
  intros Hfits k v. rewrite Hout, Hiter, elem_of_elements. split; [tauto |]. intros [Hl Hm]. split_and!; try done.
  eapply (plan_covers A s now map ixs p); eauto.
Qed.
End Query.
