(* ===== verification/TableRun.v ===== *)
(** * Runs of a shard

    Any sequence of calls on one shard, at non-decreasing times, behaves as the finite map of the
    specification: nothing panics, every reply is the specification's, queries included, and the
    table stays linear in the number of calls. *)

From S2P Require Import Prelude Fixed Slab FieldValue QueryIndex Table TableFacts TableIndex TableSpec TableQuery.

Inductive call :=
| CPut (name key val : bytes) (ttl stamp : Z)
| CGet (name key : bytes)
| CContains (name key : bytes)
| CRemove (name key : bytes)
| CPutIfAbsent (name key val : bytes) (ttl stamp : Z)
| CPutMerge (name key val : bytes) (ttl stamp : Z) (latest_update : bool)
| CReplace (name key val : bytes)
| CClear (name : bytes)
| CSize (name : bytes)
| CEntries (name : bytes)
| CAddIndex (name : bytes) (config : IndexConfig)
| CQuery (name : bytes) (p : Predicate).

Inductive reply := RVal (v : option bytes) | RBool (b : bool) | RDone | RNum (n : Z) | RList (l : list (bytes * bytes)).

(** A call, the time it is served at, and the random numbers it draws. *)
Record event := mk_event { ev_now : Z; ev_rnd : nat -> Z; ev_call : call }.

Section Runs.
Context {Schemas : Type} (extract : bytes -> Schemas -> bytes -> FieldValue) (schemas : Schemas).
Context (text_match : TextKind -> bytes -> bytes -> bool) (iter : gset bytes -> list bytes).
Hypothesis iter_elements : forall X, iter X ≡ₚ elements X.

Definition serve (ev : event) (s : Inner) : outcome (Inner * reply) :=
  let now := ev_now ev in
  match ev_call ev with
  | CPut name key val ttl stamp => '(s, r) ← put extract schemas now (ev_rnd ev) name key val ttl stamp s; Ok (s, RVal r)
  | CGet name key => '(s, r) ← get now name key s; Ok (s, RVal r)
  | CContains name key => '(s, r) ← contains_key now name key s; Ok (s, RBool r)
  | CRemove name key => '(s, r) ← remove extract schemas now name key s; Ok (s, RVal r)
  | CPutIfAbsent name key val ttl stamp =>
    '(s, r) ← put_if_absent extract schemas now (ev_rnd ev) name key val ttl stamp s; Ok (s, RVal r)
  | CPutMerge name key val ttl stamp latest =>
    s ← put_merge extract schemas now (ev_rnd ev) name key val ttl stamp latest s; Ok (s, RDone)
  | CReplace name key val => '(s, r) ← replace extract schemas now name key val s; Ok (s, RVal r)
  | CClear name => s ← clear name s; Ok (s, RDone)
  | CSize name => n ← map_len name s; Ok (s, RNum n)
  | CEntries name => l ← collect_entries now name s; Ok (s, RList l)
  | CAddIndex name config => s ← add_index extract schemas now name config s; Ok (s, RDone)
  | CQuery name p => '(s, l) ← query extract schemas text_match iter now name p s; Ok (s, RList l)
  end.

Fixpoint serve_all (evs : list event) (s : Inner) : outcome (Inner * list reply) :=
  match evs with
  | [] => Ok (s, [])
  | ev :: evs' => '(s, r) ← serve ev s; '(s, rs) ← serve_all evs' s; Ok (s, r :: rs)
  end.

(** A shard after [Store::set_config] calls. *)
Definition shard0 (cfgs : list (bytes * MapConfig)) : Inner :=
  foldl (fun s c => set_config c.1 c.2 s) new_inner cfgs.

(** ** The specification *)

Definition a_serve (cfgs : gmap bytes MapConfig) (ev : event) (A A' : amap) (r : reply) : Prop :=
  let now := ev_now ev in
  match ev_call ev with
  | CPut name key val ttl stamp =>
    evicted cfgs name (a_put cfgs now name key val ttl stamp A).1 A' /\ r = RVal (a_put cfgs now name key val ttl stamp A).2
  | CGet name key => A' = (a_find cfgs now name key A).1 /\ r = RVal (live cfgs now A name key)
  | CContains name key => A' = (a_find cfgs now name key A).1 /\ r = RBool (bool_decide (is_Some (live cfgs now A name key)))
  | CRemove name key => A' = delete (name, key) A /\ r = RVal (live cfgs now A name key)
  | CPutIfAbsent name key val ttl stamp =>
    evicted cfgs name (a_put_if_absent cfgs now name key val ttl stamp A).1 A'
    /\ r = RVal (a_put_if_absent cfgs now name key val ttl stamp A).2
  | CPutMerge name key val ttl stamp latest =>
    evicted cfgs name (a_put_merge cfgs now name key val ttl stamp latest A) A' /\ r = RDone
  | CReplace name key val => A' = (a_replace cfgs now name key val A).1 /\ r = RVal (a_replace cfgs now name key val A).2
  | CClear name => A' = filter (fun p => p.1.1 <> name) A /\ r = RDone
  | CSize name => A' = A /\ exists ks, NoDup ks /\ (forall k, k ∈ ks <-> is_Some (A !! (name, k))) /\ r = RNum (blen ks)
  | CEntries name => A' = A /\ exists l, r = RList l /\ forall k v, (k, v) ∈ l <-> live cfgs now A name k = Some v
  | CAddIndex name config => A' = A /\ r = RDone
  | CQuery name p =>
    (exists keys, A' = a_finds cfgs now name keys A) /\ exists l, r = RList l
    /\ ((forall key val, live cfgs now A name key = Some val -> fits extract schemas p val) ->
        forall k v, (k, v) ∈ l <-> live cfgs now A name k = Some v /\ satisfies extract schemas text_match p v = true)
  end.

Fixpoint a_serve_all (cfgs : gmap bytes MapConfig) (evs : list event) (A A' : amap) (rs : list reply) : Prop :=
  match evs, rs with
  | [], [] => A' = A
  | ev :: evs', r :: rs' => exists A1, a_serve cfgs ev A A1 r /\ a_serve_all cfgs evs' A1 A' rs'
  | _, _ => False
  end.

(** Entries fit their 32-bit lengths; ranges are not reversed. *)
Definition call_ok (c : call) : bool :=
  match c with
  | CPut _ key val _ _ | CPutIfAbsent _ key val _ _ | CPutMerge _ key val _ _ _ | CReplace _ key val => blen key + blen val <? 2 ^ 32
  | CQuery _ p => ranges_ok p
  | _ => true
  end.

Fixpoint in_order (t : Z) (evs : list event) : bool :=
  match evs with [] => true | ev :: evs' => (t <=? ev_now ev) && in_order (ev_now ev) evs' end.

(** ** The invariant *)

(** What [n] calls can have used up. *)
Record budget (n : Z) (s : Inner) : Prop := {
  bu_used : used s <= n;
  bu_cap : blen (table s) * 7 <= 7168 + 16 * n;
  bu_names : blen (map_names s) <= n
}.

Lemma budget_step n s s' : cost s s' -> budget n s -> budget (n + 1) s'.
Proof. intros [Hu [Hc | Hc] Hn _] [Hu0 Hc0 Hn0]; split; lia. Qed.

Lemma budget_room n A s : shard_ok A s -> 0 <= n < 2 ^ 31 -> budget n s -> room s.
Proof.
  intros (L & M & H & _) Hn [Hu Hc Hm]. pose proof (len_bounds _ _ _ H). unfold used in Hu. split; lia.
Qed.

Record run_inv (cfgs : gmap bytes MapConfig) (n now : Z) (A : amap) (s : Inner) : Prop := {
  ri_shard : shard_ok A s;
  ri_budget : budget n s;
  ri_covered : covered extract schemas now A s;
  ri_configs : configs s = cfgs
}.

Lemma run_inv_step cfgs n t now A s A' s' :
  run_inv cfgs n t A s -> t <= now -> cost s s' -> tracks extract schemas now A s A' s' -> run_inv cfgs (n + 1) now A' s'.
Proof.
  intros [H Hb Hcv Hc] Ht Hcost [Hok Hcov]. split; [done | by eapply budget_step | by eapply Hcov, covered_later |].
  rewrite (co_configs _ _ Hcost). done.
Qed.

(** A call that adds no entry. *)
Lemma run_inv_quiet cfgs n t now A s A' s' :
  run_inv cfgs n t A s -> t <= now -> frame s s' -> shrinks s s' -> tracks extract schemas now A s A' s' ->
  run_inv cfgs (n + 1) now A' s'.
Proof. intros H Ht Hf Hs. eapply run_inv_step; [done | done | by apply frame_cost]. Qed.

(** Every call is served, as specified. *)
Lemma serve_ok cfgs n t A s ev :
  run_inv cfgs n t A s -> 0 <= n < 2 ^ 31 -> t <= ev_now ev -> call_ok (ev_call ev) = true ->
  post (serve ev s) (fun '(s', r) => exists A', a_serve cfgs ev A A' r /\ run_inv cfgs (n + 1) (ev_now ev) A' s').
Proof.
  intros Hi Hn Ht Hok. pose proof Hi as [H Hb Hcv Hcfg]. pose proof (budget_room n A s H Hn Hb) as Hrm. pose proof (room_small s Hrm) as Hsm.
  destruct ev as [now rnd c]. unfold serve, a_serve. cbn [ev_now ev_rnd ev_call] in *. rewrite <- Hcfg in *.
  destruct c as [name key val ttl st | name key | name key | name key | name key val ttl st | name key val ttl st latest
    | name key val | name | name | name | name config | name p]; cbn [call_ok] in Hok.
  - apply Z.ltb_lt in Hok. eapply post_bind; [by apply (put_ok extract schemas A) |].
    intros [s' r] (Hc & -> & A' & Hev & Htr). cbn [post]. exists A'. split; [done | by eapply run_inv_step].
  - eapply post_bind; [by apply (get_ok extract schemas A) |]. intros [s' r] (Hf & Hs & -> & Htr). cbn [post].
    rewrite a_find_live. eexists. split; [done | by eapply run_inv_quiet].
  - eapply post_bind; [by apply (contains_key_ok extract schemas A) |]. intros [s' r] (Hf & Hs & -> & Htr). cbn [post].
    rewrite <- a_find_live. eexists. split; [split; [done |] | by eapply run_inv_quiet].
    do 2 f_equal. apply bool_decide_ext. by rewrite fmap_is_Some.
  - eapply post_bind; [by apply (remove_ok extract schemas A) |]. intros [s' r] (Hf & Hs & -> & Htr). cbn [post].
    rewrite a_find_live. eexists. split; [done | by eapply run_inv_quiet].
  - apply Z.ltb_lt in Hok. eapply post_bind; [by apply (put_if_absent_ok extract schemas A) |].
    intros [s' r] (Hc & -> & A' & Hev & Htr). cbn [post]. exists A'. split; [done | by eapply run_inv_step].
  - apply Z.ltb_lt in Hok. eapply post_bind; [by apply (put_merge_ok extract schemas A) |].
    intros s' (Hc & A' & Hev & Htr). cbn [post]. exists A'. split; [done | by eapply run_inv_step].
  - apply Z.ltb_lt in Hok. eapply post_bind; [by apply (replace_ok extract schemas A) |]. intros [s' r] (Hf & Hs & -> & Htr). cbn [post].
    eexists. split; [done | by eapply run_inv_quiet].
  - eapply post_bind; [by apply (clear_ok A) |]. intros s' (Hf & Hs & Eix & Hok'). cbn [post]. eexists. split; [done |].
    eapply run_inv_quiet; try done. split; [done |]. apply covered_weaken; [done | apply Hf |].
    rewrite (fr_configs _ _ Hf). intros m k c' [Hc' _]%map_lookup_filter_Some Hex. eauto.
  - destruct (map_len_ok A s name H) as (ks & Hnd & Hks & ->). cbn [mbind outcome_bind post].
    exists A. split; [eauto 10 | by eapply run_inv_quiet].
  - destruct (collect_live_entries A s now name H) as (l & -> & Hl). cbn [mbind outcome_bind post].
    exists A. split; [eauto 10 | by eapply run_inv_quiet].
  - eapply post_bind; [by apply (add_index_ok extract schemas A) |]. intros s' (Hc & Hs & Htr). cbn [post].
    exists A. split; [done | by eapply run_inv_step].
  - eapply post_bind; [apply (query_ok extract schemas text_match iter A s now name p iter_elements H Hsm); [by eapply covered_later | done] |].
    intros [s' l] (Hf & Hs & (keys & Htr) & Hl). cbn [post]. eexists. split; [eauto | by eapply run_inv_quiet].
Qed.

Lemma serve_all_ok cfgs n t A s evs :
  run_inv cfgs n t A s -> 0 <= n -> n + blen evs <= 2 ^ 31 -> in_order t evs = true -> forallb (fun ev => call_ok (ev_call ev)) evs = true ->
  post (serve_all evs s) (fun '(s', rs) => exists A' t', a_serve_all cfgs evs A A' rs /\ run_inv cfgs (n + blen evs) t' A' s').
Proof.
  revert n t A s. induction evs as [| ev evs IH]; intros n t A s Hi Hn Hlen; cbn [in_order forallb serve_all].
  { intros _ _. cbn [post]. exists A, t. split; [done |]. unfold blen. cbn [length]. by rewrite Z.add_0_r. }
  intros [Ht%Z.leb_le Hord]%andb_true_iff [Hok Hoks]%andb_true_iff.
  assert (blen (ev :: evs) = 1 + blen evs) as El by (unfold blen; cbn [length]; lia). rewrite El in *. pose proof (blen_nonneg evs).
  eapply post_bind; [apply (serve_ok cfgs n t A); [done | lia | done | done] |]. intros [s1 r] (A1 & Ha1 & Hi1).
  eapply post_bind; [apply (IH (n + 1) (ev_now ev) A1 s1); try done; lia |]. intros [s2 rs] (A2 & t2 & Ha2 & Hi2). cbn [post].
  exists A2, t2. split; [exists A1; done |]. by replace (n + (1 + blen evs)) with (n + 1 + blen evs) by lia.
Qed.

Lemma set_config_empty t s map config :
  run_inv (configs s) 0 t ∅ s -> run_inv (configs (set_config map config s)) 0 t ∅ (set_config map config s).
Proof.
  intros [(L & M & [] & Hn) [] [Hwf _] _]. split; [| done | | done].
  - exists L, M. split; [by split | done].
  - split; [exact Hwf |]. intros m k a c Hc. by rewrite lookup_empty in Hc.
Qed.

Lemma shard0_ok cfgs t : run_inv (configs (shard0 cfgs)) 0 t ∅ (shard0 cfgs).
Proof.
  unfold shard0. assert (run_inv (configs new_inner) 0 t ∅ new_inner) as H.
  { split; [apply new_shard_ok | | | done].
    - split; unfold used, blen; cbn [new_inner len tombstones table map_names length]; rewrite ?length_replicate; lia.
    - split; [intros m a ix | intros m k a c' Hc; by rewrite lookup_empty in Hc].
      unfold map_indexes. cbn [new_inner indexes]. by rewrite !lookup_empty. }
  revert H. generalize new_inner. induction cfgs as [| cf cfgs IH]; intros s H; [done |]. by apply IH, set_config_empty.
Qed.
End Runs.

(** A shard refines a finite map: whatever its configuration, any sequence of calls at non-decreasing
    times is served without a panic and every reply is the one the finite map from (map, key) to
    cells gives.  Expiry, idle time-out and eviction are part of that map, and a query returns
    exactly the live entries that satisfy the predicate, whether or not an index resolved it. *)
Theorem shard_refines_map {Schemas} extract (schemas : Schemas) text_match iter cfgs t evs :
  (forall X, iter X ≡ₚ elements X) -> blen evs <= 2 ^ 31 -> in_order t evs = true ->
  forallb (fun ev => call_ok (ev_call ev)) evs = true ->
  exists s rs A, serve_all extract schemas text_match iter evs (shard0 cfgs) = Ok (s, rs)
    /\ a_serve_all extract schemas text_match (configs (shard0 cfgs)) evs ∅ A rs.
Proof.
  intros Hit Hlen Hord Hok.
  pose proof (serve_all_ok extract schemas text_match iter Hit _ 0 t ∅ _ evs (shard0_ok extract schemas cfgs t)) as H.
  apply post_Ok in H as ([s rs] & Hs & A & t' & Ha & _); [by exists s, rs, A | lia | lia | done | done].
Qed.

(** The table is linear in the calls served: after n of them it has at most 1024 + 16n/7 slots, and
    less than 7/8 of them are live or tombstones. *)
Theorem table_stays_linear {Schemas} extract (schemas : Schemas) text_match iter cfgs t evs :
  (forall X, iter X ≡ₚ elements X) -> blen evs <= 2 ^ 31 -> in_order t evs = true ->
  forallb (fun ev => call_ok (ev_call ev)) evs = true ->
  exists s rs, serve_all extract schemas text_match iter evs (shard0 cfgs) = Ok (s, rs)
    /\ blen (table s) * 7 <= 7168 + 16 * blen evs /\ (len s + tombstones s) * 8 < blen (table s) * 7.
Proof.
  intros Hit Hlen Hord Hok.
  pose proof (serve_all_ok extract schemas text_match iter Hit _ 0 t ∅ _ evs (shard0_ok extract schemas cfgs t)) as H.
  apply post_Ok in H as ([s rs] & Hs & A & t' & _ & [(L & M & H & _) [_ Hc _] _ _]); [| lia | lia | done | done].
  exists s, rs. split_and!; [done | done | apply H].
Qed.

(** Linear probing terminates: in every state a run can reach, the probe loop for any map and key ends
    within one round of the table, at the entry or at an empty slot. *)
Theorem probes_terminate {Schemas} extract (schemas : Schemas) text_match iter cfgs t evs :
  (forall X, iter X ≡ₚ elements X) -> blen evs <= 2 ^ 31 -> in_order t evs = true ->
  forallb (fun ev => call_ok (ev_call ev)) evs = true ->
  exists s rs, serve_all extract schemas text_match iter evs (shard0 cfgs) = Ok (s, rs)
    /\ forall map_id key, exists p, probe_from s map_id key = Ok p.
Proof.
  intros Hit Hlen Hord Hok.
  pose proof (serve_all_ok extract schemas text_match iter Hit _ 0 t ∅ _ evs (shard0_ok extract schemas cfgs t)) as H.
  apply post_Ok in H as ([s rs] & Hs & A & t' & _ & [(L & M & H & _) Hb _ _]); [| lia | lia | done | done].
  exists s, rs. split; [done |]. intros id key. destruct (proj1 (post_Ok _ _) (probe_from_ok L M s id key H)) as (p & Hp & _). eauto.
Qed.

(** ** A run with an index, expiry and eviction *)

Definition ex_field (v : bytes) (_ : unit) (field : bytes) : FieldValue := ex_extract v field.
Definition ex_iter (X : gset bytes) : list bytes := elements X.

Definition ex_configs : list (bytes * MapConfig) := [(bstr "people", mk_MapConfig 2 Lru 500)].
Definition ex_events : list event :=
  let at_ t c := mk_event t (fun n => Z.of_nat n) c in
  let p := bstr "people" in
  [ at_ 10 (CPut p (bstr "ann") [b8 30] 0 1);
    at_ 11 (CAddIndex p (mk_config None TSorted [bstr "age"]));
    at_ 12 (CPut p (bstr "bob") [b8 40] 100 2);
    at_ 13 (CQuery p (Compare (bstr "age") OGt (I32 35)));
    at_ 14 (CPut p (bstr "cat") [b8 50] 0 3);
    at_ 200 (CGet p (bstr "bob"));
    at_ 201 (CQuery p (Between (bstr "age") (I32 20) (I32 60)));
    at_ 202 (CRemove p (bstr "ann"));
    at_ 203 (CSize p) ].

Lemma ex_iter_elements X : ex_iter X ≡ₚ elements X.
Proof. done. Qed.

Lemma shard_refines_map_witness :
  exists s rs A, serve_all ex_field tt no_text ex_iter ex_events (shard0 ex_configs) = Ok (s, rs)
    /\ a_serve_all ex_field tt no_text (configs (shard0 ex_configs)) ex_events ∅ A rs.
Proof. apply (shard_refines_map ex_field tt no_text ex_iter ex_configs 0 ex_events ex_iter_elements); [unfold blen; simpl; lia | reflexivity | reflexivity]. Defined.

Lemma table_stays_linear_witness :
  exists s rs, serve_all ex_field tt no_text ex_iter ex_events (shard0 ex_configs) = Ok (s, rs)
    /\ blen (table s) * 7 <= 7168 + 16 * 9 /\ (len s + tombstones s) * 8 < blen (table s) * 7.
Proof. apply (table_stays_linear ex_field tt no_text ex_iter ex_configs 0 ex_events ex_iter_elements); [unfold blen; simpl; lia | reflexivity | reflexivity]. Defined.

Lemma probes_terminate_witness :
  exists s rs, serve_all ex_field tt no_text ex_iter ex_events (shard0 ex_configs) = Ok (s, rs)
    /\ forall map_id key, exists p, probe_from s map_id key = Ok p.
Proof. apply (probes_terminate ex_field tt no_text ex_iter ex_configs 0 ex_events ex_iter_elements); [unfold blen; simpl; lia | reflexivity | reflexivity]. Defined.
