(* ===== verification/Hlc.v ===== *)
(** * The hybrid logical clock of a store (next_stamp_at and observe_stamp of crates/store/src/lib.rs)

    A stamp is a clock (milliseconds and a counter) above the seven low bits of the member's id.  The
    clock of a member is one atomic word, advanced by compare-and-swap loops in any number of
    threads; a weak compare-and-swap may also fail for no reason.  Stamps travel between members and
    are absorbed by [observe_stamp]. *)

From S2P Require Import Prelude.

Definition STAMP_MEMBER_BITS : Z := 7.
Definition STAMP_MEMBER_MASK : Z := 0x7F.
Definition STAMP_COUNTER_BITS : Z := 16.

Definition clock_of (stamp : Z) : Z := Z.shiftr stamp STAMP_MEMBER_BITS.

Definition stamp_of (clock member_id : Z) : Z :=
  Z.lor (wrap_u64 (Z.shiftl clock STAMP_MEMBER_BITS)) (Z.land member_id STAMP_MEMBER_MASK).

(** The candidate of one round of the loop of [next_stamp_at]. *)
Definition next_cand (member_id phys_ms prev : Z) : Z :=
  let now_clock := wrap_u64 (Z.shiftl phys_ms STAMP_COUNTER_BITS) in
  stamp_of (Z.max (clock_of prev + 1) now_clock) member_id.

(** The candidate of one round of [observe_stamp]; [None] when the clock is not behind. *)
Definition observe_cand (member_id external prev : Z) : option Z :=
  if clock_of external <=? clock_of prev then None else Some (stamp_of (clock_of external) member_id).

(** Both functions as they run without interference. *)
Definition next_stamp_at (member_id phys_ms seq : Z) : Z := next_cand member_id phys_ms seq.
Definition observe_stamp (member_id external seq : Z) : Z := default seq (observe_cand member_id external seq).

(** ** Threads and members *)

(** Where a thread is in one of the two loops: before the load, or before the compare-and-swap. *)
Inductive pc := NextLoad (phys : Z) | NextCas (phys prev : Z) | ObsLoad (ext : Z) | ObsCas (ext prev : Z).

Record Member := mk_member { stamp_seq : Z; member_id : Z; threads : gmap nat pc }.

(** What a member did, in order. *)
Inductive did := Issued (stamp : Z) | Observed (stamp : Z).

Record system := mk_system { members : list Member; history : list (nat * did) }.

Definition issued (s : system) : list Z :=
  omap (fun e => match e.2 with Issued x => Some x | Observed _ => None end) (history s).

Inductive action :=
| CallNext (m t : nat) (phys : Z)
| CallObserve (m t : nat) (ext : Z)
| Step (m t : nat) (ok : bool).

Definition set_member (m : nat) (x : Member) (evs : list did) (s : system) : system :=
  mk_system (<[m := x]> (members s)) (history s ++ map (fun e => (m, e)) evs).

(** A thread leaves its loop, or stays in it. *)
Definition leave (x : Member) (t : nat) : Member := mk_member (stamp_seq x) (member_id x) (delete t (threads x)).
Definition stay (x : Member) (t : nat) (p : pc) : Member := mk_member (stamp_seq x) (member_id x) (<[t := p]> (threads x)).
Definition swap (x : Member) (v : Z) : Member := mk_member v (member_id x) (threads x).

(** One access to the atomic word. *)
Definition thread_step (x : Member) (t : nat) (ok : bool) (p : pc) : Member * list did :=
  match p with
  | NextLoad phys => (stay x t (NextCas phys (stamp_seq x)), [])
  | NextCas phys prev =>
    if ok && (stamp_seq x =? prev) then
      let cand := next_cand (member_id x) phys prev in (leave (swap x cand) t, [Issued cand])
    else (stay x t (NextLoad phys), [])
  | ObsLoad ext =>
    match observe_cand (member_id x) ext (stamp_seq x) with
    | None => (leave x t, [Observed ext])
    | Some _ => (stay x t (ObsCas ext (stamp_seq x)), [])
    end
  | ObsCas ext prev =>
    if ok && (stamp_seq x =? prev)
    then (leave (swap x (default prev (observe_cand (member_id x) ext prev))) t, [Observed ext])
    else (stay x t (ObsLoad ext), [])
  end.

Definition step (s : system) (a : action) : option system :=
  match a with
  | CallNext m t phys =>
    x ← members s !! m;
    match threads x !! t with Some _ => None | None => Some (set_member m (stay x t (NextLoad phys)) [] s) end
  | CallObserve m t ext =>
    x ← members s !! m;
    if decide (ext ∈ issued s) then
      match threads x !! t with Some _ => None | None => Some (set_member m (stay x t (ObsLoad ext)) [] s) end
    else None
  | Step m t ok =>
    x ← members s !! m; p ← threads x !! t;
    let '(x', evs) := thread_step x t ok p in Some (set_member m x' evs s)
  end.

Fixpoint run (s : system) (acts : list action) : option system :=
  match acts with [] => Some s | a :: acts' => s' ← step s a; run s' acts' end.

Definition new_system (ids : list Z) : system := mk_system (map (fun i => mk_member 0 i ∅) ids) [].

(** ** Stamps as numbers *)

Lemma land_member m : Z.land m STAMP_MEMBER_MASK = m mod 128.
Proof. apply (Z.land_ones m 7). lia. Qed.

Lemma stamp_of_eq c m : 0 <= c < 2 ^ 57 -> stamp_of c m = c * 128 + m mod 128.
Proof.
  intros Hc. unfold stamp_of, STAMP_MEMBER_BITS. rewrite Z.shiftl_mul_pow2 by lia. change (2 ^ 7) with 128.
  rewrite wrap_u64_small by (unfold is_u64; lia). rewrite land_member.
  rewrite <- Z.add_lor_land. pose proof (Z.mod_pos_bound m 128 ltac:(lia)) as Hm.
  replace (Z.land (c * 128) (m mod 128)) with 0; [lia |]. symmetry. apply Z.bits_inj'. intros n Hn.
  rewrite Z.land_spec, Z.bits_0. change 128 with (2 ^ 7). destruct (decide (n < 7)).
  - rewrite Z.mul_pow2_bits_low by lia. done.
  - rewrite Z.mod_pow2_bits_high by lia. apply andb_false_r.
Qed.

Lemma clock_stamp c m : 0 <= c < 2 ^ 57 -> clock_of (stamp_of c m) = c.
Proof.
  intros Hc. rewrite stamp_of_eq by done. unfold clock_of, STAMP_MEMBER_BITS. rewrite Z.shiftr_div_pow2 by lia. change (2 ^ 7) with 128.
  pose proof (Z.mod_pos_bound m 128 ltac:(lia)). symmetry. apply (Z.div_unique _ _ _ (m mod 128)); lia.
Qed.

Lemma clock_lt x y : clock_of x < clock_of y -> x < y.
Proof.
  unfold clock_of, STAMP_MEMBER_BITS. rewrite !Z.shiftr_div_pow2 by lia. intros H. destruct (Z.lt_ge_cases x y); [done |].
  pose proof (Z.div_le_mono y x (2 ^ 7) ltac:(lia) ltac:(lia)). lia.
Qed.

Lemma stamp_member c m : 0 <= c < 2 ^ 57 -> stamp_of c m mod 128 = m mod 128.
Proof.
  intros Hc. rewrite stamp_of_eq by done. rewrite Z.add_comm, Z_mod_plus_full. apply Z.mod_mod. lia.
Qed.

(** ** The invariant *)

Definition stamp_in (e : did) : Z := match e with Issued x | Observed x => x end.

(** What a member did first it did at a smaller clock than what it issued later. *)
Definition ordered (h : list (nat * did)) : Prop :=
  forall i j m e y, (i < j)%nat -> h !! i = Some (m, e) -> h !! j = Some (m, Issued y) -> clock_of (stamp_in e) < clock_of y.

(** Stamps seen so far: at most [c] on the clock. *)
Definition stamp_ok (c : Z) (x : Z) : Prop := 0 <= clock_of x <= c.

Definition pc_ok (c : Z) (p : pc) : Prop :=
  match p with
  | NextLoad phys | NextCas phys _ => 0 <= phys < 2 ^ 40
  | ObsLoad ext => stamp_ok c ext
  | ObsCas ext prev => stamp_ok c ext /\ clock_of prev < clock_of ext
  end.

Record member_ok (c : Z) (m : nat) (h : list (nat * did)) (x : Member) : Prop := {
  mo_seq : stamp_ok c (stamp_seq x);
  mo_threads : forall t p, threads x !! t = Some p -> pc_ok c p;
  mo_history : forall e, (m, e) ∈ h -> clock_of (stamp_in e) <= clock_of (stamp_seq x)
}.

Record inv (ids : list Z) (c : Z) (s : system) : Prop := {
  in_ids : map member_id (members s) = ids;
  in_members : forall m x, members s !! m = Some x -> member_ok c m (history s) x;
  in_stamps : forall m e, (m, e) ∈ history s -> stamp_ok c (stamp_in e);
  in_tags : forall m x, (m, Issued x) ∈ history s -> exists id, ids !! m = Some id /\ x mod 128 = id mod 128;
  in_ordered : ordered (history s)
}.

Lemma pc_ok_mono c c' p : c <= c' -> pc_ok c p -> pc_ok c' p.
Proof. destruct p; unfold pc_ok, stamp_ok; lia. Qed.

Lemma member_ok_mono c c' m h x : c <= c' -> member_ok c m h x -> member_ok c' m h x.
Proof.
  intros Hc [H1 H2 H3]. split; [unfold stamp_ok in *; lia | | done]. intros t p Hp. eapply pc_ok_mono; [done | by eapply H2].
Qed.

Lemma inv_mono ids c c' s : c <= c' -> inv ids c s -> inv ids c' s.
Proof.
  intros Hc [H1 H2 H3 H4 H5]. split; try done.
  - intros m x Hx. eapply member_ok_mono; eauto.
  - intros m e He. specialize (H3 m e He). unfold stamp_ok in *. lia.
Qed.

Lemma map_member_id_insert l m x x0 :
  l !! m = Some x0 -> member_id x = member_id x0 -> map member_id (<[m := x]> l) = map member_id l.
Proof.
  intros Hm E. apply list_eq. intros i. rewrite !list_lookup_fmap. destruct (decide (i = m)) as [-> | Hne].
  - rewrite list_lookup_insert_eq by (by eapply lookup_lt_Some). rewrite Hm. cbn. by rewrite E.
  - by rewrite list_lookup_insert_ne.
Qed.

(** A step that does nothing visible. *)
Lemma inv_quiet ids c s m x0 x :
  inv ids c s -> members s !! m = Some x0 -> member_id x = member_id x0 -> stamp_seq x = stamp_seq x0 ->
  (forall t p, threads x !! t = Some p -> pc_ok c p) -> inv ids c (set_member m x [] s).
Proof.
  intros [H1 H2 H3 H4 H5] Hm Eid Eseq Ht. unfold set_member. cbn [map]. rewrite app_nil_r. split; cbn [members history]; try done.
  - by rewrite (map_member_id_insert _ _ _ x0).
  - intros m' x' [(<- & <- & _) | [_ Hx]]%list_lookup_insert_Some; [| by apply H2].
    destruct (H2 m x0 Hm) as [A _ B]. split; [by rewrite Eseq | done | by rewrite Eseq].
Qed.

(** A step that does [e] and moves the member's clock to [stamp_seq x]. *)
Lemma inv_event ids c s m x0 x e :
  inv ids c s -> members s !! m = Some x0 -> member_id x = member_id x0 -> stamp_ok c (stamp_seq x) ->
  (forall t p, threads x !! t = Some p -> pc_ok c p) -> clock_of (stamp_seq x0) <= clock_of (stamp_seq x) ->
  0 <= clock_of (stamp_in e) <= clock_of (stamp_seq x) ->
  (forall y, e = Issued y -> clock_of (stamp_seq x0) < clock_of y /\ y mod 128 = member_id x0 mod 128) ->
  inv ids c (set_member m x [e] s).
Proof.
  intros [H1 H2 H3 H4 H5] Hm Eid Hseq Ht Hle He Hiss. unfold set_member. cbn [map].
  assert (ids !! m = Some (member_id x0)) as Hid by (rewrite <- H1, list_lookup_fmap, Hm; done).
  split; cbn [members history].
  - by rewrite (map_member_id_insert _ _ _ x0).
  - intros m' x' [(<- & <- & _) | [Hne Hx]]%list_lookup_insert_Some.
    + destruct (H2 m x0 Hm) as [_ _ B]. split; [done | done |].
      intros e' [He' | [= ->]%list_elem_of_singleton]%elem_of_app; [specialize (B e' He') | ]; lia.
    + destruct (H2 m' x' Hx) as [A B C]. split; [done | done |].
      intros e' [He' | [= -> _]%list_elem_of_singleton]%elem_of_app; [by apply C | done].
  - intros m' e' [He' | [= -> ->]%list_elem_of_singleton]%elem_of_app; [by eapply H3 |]. unfold stamp_ok in *. lia.
  - intros m' y [Hy | [= -> <-]%list_elem_of_singleton]%elem_of_app; [by apply H4 |]. exists (member_id x0). split; [done |].
    by apply Hiss.
  - intros i j m' e' y Hij Hi Hj. apply lookup_app_Some in Hj as [Hj | [Hlen Hj]].
    + apply (H5 i j m' e' y Hij); [| done]. rewrite lookup_app_l in Hi; [done |]. apply lookup_lt_Some in Hj. lia.
    + destruct (j - length (history s))%nat as [| k] eqn:Ej; [| by rewrite lookup_cons, lookup_nil in Hj].
      cbn in Hj. injection Hj as -> ->. rewrite lookup_app_l in Hi by lia.
      destruct (Hiss y eq_refl) as [Hlt _]. pose proof (mo_history _ _ _ _ (H2 m' x0 Hm) e' (list_elem_of_lookup_2 _ _ _ Hi)). lia.
Qed.

Definition act_ok (a : action) : bool :=
  match a with CallNext _ _ phys => (0 <=? phys) && (phys <? 2 ^ 40) | _ => true end.

Lemma next_cand_ok c m phys prev :
  2 ^ 56 <= c < 2 ^ 57 - 1 -> stamp_ok c prev -> 0 <= phys < 2 ^ 40 ->
  clock_of prev < clock_of (next_cand m phys prev) <= c + 1 /\ next_cand m phys prev mod 128 = m mod 128.
Proof.
  intros Hc [H0 Hp] Hphys. unfold next_cand, STAMP_COUNTER_BITS. rewrite Z.shiftl_mul_pow2 by lia. change (2 ^ 16) with 65536.
  rewrite wrap_u64_small by (unfold is_u64; lia). rewrite clock_stamp by lia. rewrite stamp_member by lia. lia.
Qed.

Lemma threads_delete c x t : (forall t p, threads x !! t = Some p -> pc_ok c p) ->
  forall t' p, delete t (threads x) !! t' = Some p -> pc_ok c p.
Proof. intros H t' p [_ Hp]%lookup_delete_Some. by eapply H. Qed.

Lemma threads_insert c x t p0 : (forall t p, threads x !! t = Some p -> pc_ok c p) -> pc_ok c p0 ->
  forall t' p, <[t := p0]> (threads x) !! t' = Some p -> pc_ok c p.
Proof. intros H H0 t' p [[_ <-] | [_ Hp]]%lookup_insert_Some; [done | by eapply H]. Qed.

(** One access of a thread keeps the invariant. *)
Lemma thread_step_ok ids c s m x t ok p x' evs :
  2 ^ 56 <= c < 2 ^ 57 - 1 -> inv ids c s -> members s !! m = Some x -> threads x !! t = Some p ->
  thread_step x t ok p = (x', evs) -> inv ids (c + 1) (set_member m x' evs s).
Proof.
  intros Hc Hi Hm Ht Hst. apply (inv_mono _ c (c + 1)) in Hi as Hi'; [| lia].
  pose proof (in_members _ _ _ Hi m x Hm) as [Hseq Hthr _]. pose proof (in_members _ _ _ Hi' m x Hm) as [Hseq' Hthr' _].
  pose proof (Hthr t p Ht) as Hp. pose proof (Hthr' t p Ht) as Hp'. destruct p as [phys | phys prev | ext | ext prev]; cbn [thread_step] in Hst.
  - injection Hst as <- <-. eapply inv_quiet; try done. by apply threads_insert.
  - destruct (ok && (stamp_seq x =? prev)) eqn:E; injection Hst as <- <-.
    + apply andb_true_iff in E as [_ <-%Z.eqb_eq]. destruct (next_cand_ok c (member_id x) phys (stamp_seq x) Hc Hseq Hp) as [Hcl Hmod].
      eapply inv_event; try done; cbn; [destruct Hseq; split; lia | by apply threads_delete | lia | destruct Hseq; lia |].
      intros y [= <-]. split; [lia | done].
    + eapply inv_quiet; try done. by apply threads_insert.
  - unfold observe_cand in Hst. destruct (Z.leb_spec (clock_of ext) (clock_of (stamp_seq x))) as [Hle | Hlt]; injection Hst as <- <-.
    + eapply inv_event; try done; cbn; [by apply threads_delete | destruct Hp; lia].
    + eapply inv_quiet; try done. apply threads_insert; [done |]. split; [done | lia].
  - destruct (ok && (stamp_seq x =? prev)) eqn:E; injection Hst as <- <-.
    + apply andb_true_iff in E as [_ <-%Z.eqb_eq]. destruct Hp as [Hext Hlt]. unfold observe_cand.
      rewrite (proj2 (Z.leb_gt _ _)) by lia. cbn [default].
      assert (clock_of (stamp_of (clock_of ext) (member_id x)) = clock_of ext) as Ecl by (apply clock_stamp; destruct Hext; lia).
      eapply inv_event; try done; cbn; unfold stamp_ok; rewrite ?Ecl; [destruct Hext; lia | by apply threads_delete | lia | destruct Hext; lia].
    + eapply inv_quiet; try done. apply threads_insert; [done | by destruct Hp'].
Qed.

Lemma step_ok ids c s a s' :
  2 ^ 56 <= c < 2 ^ 57 - 1 -> inv ids c s -> act_ok a = true -> step s a = Some s' -> inv ids (c + 1) s'.
Proof.
  intros Hc Hi Ha Hst. apply (inv_mono _ c (c + 1)) in Hi as Hi'; [| lia].
  destruct a as [m t phys | m t ext | m t ok]; cbn [step act_ok] in *.
  - destruct (members s !! m) as [x |] eqn:Hm; [| done]. cbn in Hst. destruct (threads x !! t) eqn:Ht; [done |]. injection Hst as <-.
    apply andb_true_iff in Ha as [?%Z.leb_le ?%Z.ltb_lt].
    eapply inv_quiet; try done. apply threads_insert; [apply (in_members _ _ _ Hi' m x Hm) | done].
  - destruct (members s !! m) as [x |] eqn:Hm; [| done]. cbn in Hst. case_decide as Hin; [| done].
    destruct (threads x !! t) eqn:Ht; [done |]. injection Hst as <-.
    eapply inv_quiet; try done. apply threads_insert; [apply (in_members _ _ _ Hi' m x Hm) |].
    unfold issued in Hin. apply list_elem_of_omap in Hin as ([m' e] & He & Hex). destruct e as [y | y]; [| done]. injection Hex as ->.
    apply (in_stamps _ _ _ Hi' m' (Issued ext) He).
  - destruct (members s !! m) as [x |] eqn:Hm; [| done]. cbn in Hst. destruct (threads x !! t) as [p |] eqn:Ht; [| done]. cbn in Hst.
    destruct (thread_step x t ok p) as [x' evs] eqn:E. injection Hst as <-. by eapply thread_step_ok.
Qed.

Lemma run_ok ids c s acts s' :
  2 ^ 56 <= c -> c + blen acts < 2 ^ 57 - 1 -> inv ids c s -> forallb act_ok acts = true -> run s acts = Some s' ->
  inv ids (c + blen acts) s'.
Proof.
  revert c s. induction acts as [| a acts IH]; intros c s Hc Hlen Hi; cbn [forallb run].
  { intros _ [= <-]. unfold blen. cbn. by rewrite Z.add_0_r. }
  intros [Ha Has]%andb_true_iff Hrun. assert (blen (a :: acts) = 1 + blen acts) as El by (unfold blen; cbn [length]; lia).
  rewrite El in *. pose proof (blen_nonneg acts). destruct (step s a) as [s1 |] eqn:Hst; [| done]. cbn in Hrun.
  replace (c + (1 + blen acts)) with (c + 1 + blen acts) by lia. apply (IH (c + 1) s1); try done; [lia | lia |].
  eapply step_ok; [lia | done | done | done].
Qed.

Lemma new_system_inv ids : inv ids (2 ^ 56) (new_system ids).
Proof.
  split; cbn.
  - rewrite map_map. apply list_eq. intros i. rewrite list_lookup_fmap. by destruct (ids !! i).
  - intros m x. rewrite list_lookup_fmap. destruct (ids !! m); [| done]. intros [= <-]. split; cbn; [done | done |].
    by intros e ?%elem_of_nil.
  - by intros m e ?%elem_of_nil.
  - by intros m x ?%elem_of_nil.
  - intros i j m e y _ Hi. by rewrite lookup_nil in Hi.
Qed.

Lemma issued_nodup ids c s : NoDup (map (fun i => i mod 128) ids) -> inv ids c s -> NoDup (issued s).
Proof.
  intros Hnd Hi. unfold issued.
  assert (forall h, (forall i j m m' x, (i < j)%nat -> h !! i = Some (m, Issued x) -> h !! j = Some (m', Issued x) -> False) ->
    NoDup (omap (fun e : nat * did => match e.2 with Issued x => Some x | Observed _ => None end) h)) as Hgen.
  { induction h as [| [m [x | x]] h IH]; intros Hd; cbn; [constructor | |].
    - constructor; [| apply IH; intros i j m1 m2 y Hij; apply (Hd (S i) (S j)); lia].
      intros ([m' [y | y]] & Hin & [= ->])%list_elem_of_omap. apply list_elem_of_lookup in Hin as [j Hj].
      apply (Hd O (S j) m m' x); [lia | done | done].
    - apply IH. intros i j m1 m2 y Hij. apply (Hd (S i) (S j)). lia. }
  apply Hgen. intros i j m m' x Hij Hhi Hhj.
  destruct (in_tags _ _ _ Hi m x (list_elem_of_lookup_2 _ _ _ Hhi)) as (id & Hid & Ex).
  destruct (in_tags _ _ _ Hi m' x (list_elem_of_lookup_2 _ _ _ Hhj)) as (id' & Hid' & Ex').
  assert (m = m') as <-.
  { apply (NoDup_lookup _ m m' (x mod 128) Hnd); rewrite list_lookup_fmap; [rewrite Hid | rewrite Hid']; cbn; by f_equal. }
  pose proof (in_ordered _ _ _ Hi i j m (Issued x) x Hij Hhi Hhj) as Hlt. cbn in Hlt. lia.
Qed.


(** Two members: the second's wall clock is far behind, it absorbs the first's stamp while one of its
    own threads is between load and swap. *)
Definition ex_actions : list action :=
  [CallNext 0 0 1000; Step 0 0 true; Step 0 0 true;
   CallNext 1 0 5; Step 1 0 true;
   CallObserve 1 1 (next_cand 3 1000 0); Step 1 1 true; Step 1 1 false; Step 1 1 true; Step 1 1 true;
   Step 1 0 true; Step 1 0 true; Step 1 0 true].

Definition ex_history : list (nat * did) :=
  [(0%nat, Issued 8388608003); (1%nat, Observed 8388608003); (1%nat, Issued 8388608135)].

Lemma ex_run : history <$> run (new_system [3; 7]) ex_actions = Some ex_history.
Proof. vm_compute. reflexivity. Qed.

