(* ===== verification/Hll.v ===== *)
(** * The HyperLogLog sketch (crates/store/src/hll.rs)

    The registers, [add], [merge] and the byte form; [estimate] is floating-point and is not modelled. *)

From S2P Require Import Prelude Fixed.

Definition P : Z := 14.
Definition M : nat := Z.to_nat 16384.

Record Hll := mk_hll { regs : list byte }.

Definition new_hll : Hll := mk_hll (replicate M (b8 0)).

(** [u64::leading_zeros] *)
Definition leading_zeros (w : Z) : Z := if w =? 0 then 64 else 63 - Z.log2 w.

Definition register (hash : Z) : nat := Z.to_nat (Z.shiftr hash (64 - P)).

Definition rank (hash : Z) : Z :=
  let w := Z.lor (wrap_u64 (Z.shiftl hash P)) (2 ^ (P - 1)) in leading_zeros w + 1.

Definition add (hash : Z) (h : Hll) : outcome Hll :=
  r ← index (regs h) (register hash);
  if u8 r <? rank hash then rs ← set_index (regs h) (register hash) (b8 (rank hash)); Ok (mk_hll rs) else Ok h.

(** [for i in 0..M] of [merge], on the registers. *)
Definition merge (other h : Hll) : outcome Hll :=
  if (length (regs h) <? M)%nat || (length (regs other) <? M)%nat then Panic
  else Ok (mk_hll (zip_with (fun a b => if u8 a <? u8 b then b else a) (take M (regs h)) (take M (regs other)) ++ drop M (regs h))).

Definition to_bytes (h : Hll) : bytes := regs h.

Definition from_bytes (b : bytes) : Hll :=
  let n := Nat.min (length b) M in mk_hll (take n b ++ drop n (replicate M (b8 0))).

(** ** A sketch is a set of hashes *)

Fixpoint add_all (hs : list Z) (h : Hll) : outcome Hll :=
  match hs with [] => Ok h | x :: hs' => h ← add x h; add_all hs' h end.

Definition sketch (hs : list Z) : outcome Hll := add_all hs new_hll.

(** The highest rank among the hashes of a register. *)
Definition top (i : nat) (hs : list Z) : Z := foldr (fun x m => if decide (register x = i) then Z.max (rank x) m else m) 0 hs.

Lemma rank_bounds x : is_u64 x -> 1 <= rank x <= 51.
Proof.
  intros Hx. unfold rank, leading_zeros, P. change (2 ^ (14 - 1)) with (2 ^ 13).
  set (w := Z.lor _ (2 ^ 13)).
  assert (0 <= wrap_u64 (Z.shiftl x 14) < 2 ^ 64) as Hs by apply wrap_u64_range.
  assert (0 <= w) as Hw0 by (apply Z.lor_nonneg; lia).
  assert (Z.testbit w 13 = true) as Hbit by (unfold w; rewrite Z.lor_spec, (Z.pow2_bits_true 13) by lia; apply orb_true_r).
  assert (w <> 0) as Hne by (intros E; by rewrite E, Z.bits_0 in Hbit).
  assert (w < 2 ^ 64) as Hlt.
  { unfold w. destruct (Z.eq_dec (wrap_u64 (Z.shiftl x 14)) 0) as [-> | Hz]; [done |]. apply Z.log2_lt_pow2; [lia |].
    rewrite Z.log2_lor by lia. apply Z.max_lub_lt; [apply Z.log2_lt_pow2; lia | done]. }
  rewrite (proj2 (Z.eqb_neq _ _) Hne).
  assert (Z.log2 w < 64) by (apply Z.log2_lt_pow2; lia).
  assert (13 <= Z.log2 w); [| lia]. destruct (Z.le_gt_cases 13 (Z.log2 w)) as [Hge | Hsm]; [done |].
  rewrite Z.bits_above_log2 in Hbit by lia. done.
Qed.

Lemma register_lt x : is_u64 x -> (register x < M)%nat.
Proof.
  intros Hx. unfold register, P, M, is_u64 in *. rewrite Z.shiftr_div_pow2 by lia. change (2 ^ (64 - 14)) with (2 ^ 50).
  apply Z2Nat.inj_lt; [apply Z.div_pos; lia | lia |]. apply Z.div_lt_upper_bound; lia.
Qed.

Lemma top_bounds i hs : Forall is_u64 hs -> 0 <= top i hs <= 51.
Proof.
  induction 1 as [| x hs Hx _ IH]; cbn [top foldr]; [lia |]. fold (top i hs). pose proof (rank_bounds x Hx).
  case_decide; lia.
Qed.

Lemma top_app i xs ys : top i (xs ++ ys) = Z.max (top i xs) (top i ys) \/ top i ys < 0.
Proof.
  unfold top. rewrite foldr_app. set (m := foldr _ 0 ys). clearbody m. destruct (Z.lt_ge_cases m 0) as [H | H]; [by right |]. left.
  induction xs as [| x xs IH]; cbn; [lia |]. case_decide; rewrite IH; lia.
Qed.

(** The top rank is attained or zero, and bounds every rank: it depends on the set only. *)
Lemma top_spec i hs r : Forall is_u64 hs ->
  top i hs = r <-> (r = 0 \/ exists x, x ∈ hs /\ register x = i /\ rank x = r) /\ 0 <= r /\ forall x, x ∈ hs -> register x = i -> rank x <= r.
Proof.
  intros Hok.
  assert ((top i hs = 0 \/ exists x, x ∈ hs /\ register x = i /\ rank x = top i hs) /\ 0 <= top i hs
    /\ forall x, x ∈ hs -> register x = i -> rank x <= top i hs) as Htop.
  { induction Hok as [| x hs Hx Hok IH]; cbn [top foldr]; [split_and!; [by left | lia | by intros x ?%elem_of_nil] |].
    fold (top i hs). destruct IH as (Ha & H0 & Hb). pose proof (rank_bounds x Hx). case_decide as E.
    - split_and!; [| lia |].
      + right. destruct (Z.le_gt_cases (rank x) (top i hs)).
        * destruct Ha as [Ha | (y & ? & ? & ?)]; [lia |]. exists y. split_and!; [by right | done | lia].
        * exists x. split_and!; [by left | done | lia].
      + intros y [-> | Hy]%elem_of_cons Hi; [lia |]. specialize (Hb y Hy Hi). lia.
    - split_and!; [| lia |].
      + destruct Ha as [Ha | (y & ? & ? & ?)]; [by left |]. right. exists y. split_and!; [by right | done | done].
      + intros y [-> | Hy]%elem_of_cons Hi; [done |]. by apply Hb. }
  split; [by intros <- |]. intros (Ha & H0 & Hb). destruct Htop as (Ta & T0 & Tb). apply Z.le_antisymm.
  - destruct Ta as [Ta | (y & Hy & Hi & <-)]; [lia | by apply Hb].
  - destruct Ha as [Ha | (y & Hy & Hi & <-)]; [lia | by apply Tb].
Qed.

(** The registers of a sketch hold the top ranks. *)
Definition holds_tops (hs : list Z) (h : Hll) : Prop :=
  length (regs h) = M /\ forall i r, regs h !! i = Some r -> u8 r = top i hs.

Lemma hll_add_ok hs x h : Forall is_u64 hs -> is_u64 x -> holds_tops hs h -> post (add x h) (holds_tops (hs ++ [x])).
Proof.
  intros Hok Hx [Hlen Hr]. pose proof (register_lt x Hx) as Hlt. pose proof (rank_bounds x Hx) as Hrk. unfold add.
  eapply post_bind; [apply post_index; by rewrite Hlen |]. intros r Hi. pose proof (Hr _ _ Hi) as Er.
  assert (forall i, top i (hs ++ [x]) = if decide (register x = i) then Z.max (top i hs) (rank x) else top i hs) as Htop.
  { intros i. pose proof (top_bounds i hs Hok).
    assert (top i [x] = if decide (register x = i) then Z.max (rank x) 0 else 0) as E1 by reflexivity.
    destruct (top_app i hs [x]) as [E | Hn]; rewrite ?E, E1 in *; case_decide; lia. }
  destruct (Z.ltb_spec (u8 r) (rank x)) as [Hgt | Hle].
  - unfold set_index. rewrite decide_True by (by rewrite Hlen). cbn [mbind outcome_bind post]. split; cbn; [by rewrite length_insert |].
    intros i r' [(<- & <- & _) | [Hne Hi']]%list_lookup_insert_Some.
    + rewrite u8_b8 by lia. rewrite Htop, decide_True by done. lia.
    + rewrite Htop, decide_False by done. by apply Hr.
  - cbn [post]. split; [done |]. intros i r' Hi'. rewrite Htop. case_decide as E; [subst i | by apply Hr].
    assert (r' = r) as -> by congruence. lia.
Qed.

Lemma add_all_ok hs xs h : Forall is_u64 hs -> Forall is_u64 xs -> holds_tops hs h -> post (add_all xs h) (holds_tops (hs ++ xs)).
Proof.
  intros Hok Hxs. revert hs h Hok. induction Hxs as [| x xs Hx _ IH]; intros hs h Hok Hh; cbn [add_all].
  { cbn [post]. by rewrite app_nil_r. }
  eapply post_bind; [by apply (hll_add_ok hs) |]. intros h' Hh'. rewrite cons_middle, app_assoc. apply IH; [| done].
  apply Forall_app. split; [done | by constructor].
Qed.

Lemma sketch_ok hs : Forall is_u64 hs -> post (sketch hs) (holds_tops hs).
Proof.
  intros Hok. apply (add_all_ok [] hs); [constructor | done |]. split; cbn; [apply length_replicate |].
  by intros i r [-> _]%lookup_replicate.
Qed.

Lemma holds_tops_inj xs ys h h' :
  Forall is_u64 xs -> Forall is_u64 ys -> (forall x, x ∈ xs <-> x ∈ ys) -> holds_tops xs h -> holds_tops ys h' -> h = h'.
Proof.
  intros Hx Hy Heq [Hl Hr] [Hl' Hr']. destruct h as [r], h' as [r']. cbn in *. f_equal. apply (list_eq_same_length _ _ M); [done | done |].
  intros i a b _ Ha Hb. specialize (Hr _ _ Ha). specialize (Hr' _ _ Hb).
  assert (top i xs = top i ys) as E.
  { apply top_spec; [done |]. destruct (proj1 (top_spec i ys _ Hy) eq_refl) as (A & B & C).
    split_and!; [destruct A as [A | (y & ? & ?)]; [by left | right; exists y; by rewrite Heq] | done |]. intros y ?%Heq. by apply C. }
  rewrite <- (b8_u8 a), <- (b8_u8 b). f_equal. congruence.
Qed.

Lemma merge_ok xs ys h h' :
  Forall is_u64 xs -> Forall is_u64 ys -> holds_tops xs h -> holds_tops ys h' -> post (merge h' h) (holds_tops (xs ++ ys)).
Proof.
  intros Hx Hy [Hl Hr] [Hl' Hr']. unfold merge. rewrite Hl, Hl', Nat.ltb_irrefl. cbn [orb post].
  rewrite !take_ge, drop_ge, app_nil_r by (rewrite ?Hl, ?Hl'; lia). split; cbn; [rewrite length_zip_with; lia |].
  intros i r. rewrite lookup_zip_with_Some. intros (a & b & -> & Ha & Hb). specialize (Hr _ _ Ha). specialize (Hr' _ _ Hb).
  pose proof (top_bounds i xs Hx). pose proof (top_bounds i ys Hy).
  destruct (top_app i xs ys) as [-> | Hn]; [| lia]. destruct (Z.ltb_spec (u8 a) (u8 b)); lia.
Qed.

(** Sketches form a semilattice of sets: however two streams of hashes are ordered and duplicated, merging
    their sketches gives the sketch of any stream with the same distinct hashes as the two together;
    every register stays within a rank of 51; and the byte form restores the sketch. *)
Theorem sketch_is_a_set xs ys zs :
  Forall is_u64 xs -> Forall is_u64 ys -> Forall is_u64 zs -> (forall x, x ∈ zs <-> x ∈ xs \/ x ∈ ys) ->
  exists a b c, sketch xs = Ok a /\ sketch ys = Ok b /\ sketch zs = Ok c /\ merge b a = Ok c
    /\ Forall (fun r => u8 r <= 51) (regs c) /\ from_bytes (to_bytes c) = c.
Proof.
  intros Hx Hy Hz Heq. destruct (proj1 (post_Ok _ _) (sketch_ok xs Hx)) as (a & Ea & Ha).
  destruct (proj1 (post_Ok _ _) (sketch_ok ys Hy)) as (b & Eb & Hb). destruct (proj1 (post_Ok _ _) (sketch_ok zs Hz)) as (c & Ec & Hc).
  destruct (proj1 (post_Ok _ _) (merge_ok xs ys a b Hx Hy Ha Hb)) as (m & Em & Hm).
  assert (m = c) as ->.
  { apply (holds_tops_inj (xs ++ ys) zs); try done; [by apply Forall_app |]. intros x. rewrite elem_of_app, Heq. done. }
  exists a, b, c. split_and!; try done.
  - apply Forall_lookup. intros i r Hi. rewrite (proj2 Hc i r Hi). apply (top_bounds i zs Hz).
  - unfold from_bytes, to_bytes. rewrite (proj1 Hc), Nat.min_id, take_ge, drop_ge, app_nil_r by (rewrite ?length_replicate, ?(proj1 Hc); lia).
    by destruct c.
Qed.

Lemma sketch_is_a_set_witness :
  exists a b c, sketch [2 ^ 63; 5; 5] = Ok a /\ sketch [7; 5] = Ok b /\ sketch [5; 7; 2 ^ 63] = Ok c /\ merge b a = Ok c
    /\ Forall (fun r => u8 r <= 51) (regs c) /\ from_bytes (to_bytes c) = c.
Proof.
  apply (sketch_is_a_set [2 ^ 63; 5; 5] [7; 5] [5; 7; 2 ^ 63]).
  - repeat constructor; unfold is_u64; lia.
  - repeat constructor; unfold is_u64; lia.
  - repeat constructor; unfold is_u64; lia.
  - intros x. rewrite !elem_of_cons, elem_of_nil. tauto.
Defined.
