(* ===== verification/Partition.v ===== *)
(** * The [Data] envelope and partitions (crates/serialization/src/lib.rs, partition_for_name of
    crates/store/src/lib.rs)

    A serialized value is [[partition hash i32 BE][type id i32 BE][payload]]; its partition is the stored
    hash, or MurmurHash3 of the payload when that is zero, reduced modulo the partition count. *)

From S2P Require Import Prelude Fixed.

Definition PARTITION_HASH_OFFSET : nat := 0.
Definition TYPE_OFFSET : nat := 4.
Definition DATA_OFFSET : nat := 8.
Definition MURMUR_SEED : Z := 0x01000193.

(** [iN::from_be_bytes] and [to_be_bytes] *)
Definition from_be_i (b : bytes) : Z := from_le_i (rev b).
Definition from_be_u (b : bytes) : Z := from_le_u (rev b).
Definition to_be (n : nat) (v : Z) : bytes := rev (to_le n v).

Definition read_i32_be (b : bytes) (off : nat) : outcome Z := x ← slice b off 4; Ok (from_be_i x).

(** ** MurmurHash3 x86_32 *)

(** [u32::rotate_left] *)
Definition rotl (x k : Z) : Z := Z.lor (wrap_u32 (Z.shiftl x k)) (Z.shiftr x (32 - k)).

Definition fmix (h : Z) : Z :=
  let h := Z.lxor h (Z.shiftr h 16) in
  let h := wrap_u32 (h * 0x85ebca6b) in
  let h := Z.lxor h (Z.shiftr h 13) in
  let h := wrap_u32 (h * 0xc2b2ae35) in
  Z.lxor h (Z.shiftr h 16).

Definition mix_k (k1 : Z) : Z := wrap_u32 (rotl (wrap_u32 (k1 * 0xcc9e2d51)) 15 * 0x1b873593).

Definition mix_block (h1 k1 : Z) : Z := wrap_u32 (wrap_u32 (rotl (Z.lxor h1 (mix_k k1)) 13 * 5) + 0xe6546b64).

(** The blocks of four bytes, and the remaining tail. *)
Fixpoint murmur_blocks (h1 : Z) (data : bytes) : Z * bytes :=
  match data with
  | b0 :: b1 :: b2 :: b3 :: rest => murmur_blocks (mix_block h1 (from_le_u [b0; b1; b2; b3])) rest
  | tail => (h1, tail)
  end.

Definition murmur_tail (tail : bytes) : Z :=
  match tail with
  | [t0] => u8 t0
  | [t0; t1] => Z.lxor (Z.shiftl (u8 t1) 8) (u8 t0)
  | [t0; t1; t2] => Z.lxor (Z.lxor (Z.shiftl (u8 t2) 16) (Z.shiftl (u8 t1) 8)) (u8 t0)
  | _ => 0
  end.

Definition murmur3_x86_32 (data : bytes) (seed : Z) : Z :=
  let '(h1, tail) := murmur_blocks seed data in
  let h1 := match tail with [] => h1 | _ => Z.lxor h1 (mix_k (murmur_tail tail)) end in
  wrap_i32 (fmix (Z.lxor h1 (wrap_u32 (blen data)))).

(** ** The envelope *)

Definition partition_hash (data : bytes) : outcome Z :=
  if (length data <? DATA_OFFSET)%nat then Ok 0 else
  stored ← read_i32_be data PARTITION_HASH_OFFSET;
  if stored =? 0 then Ok (murmur3_x86_32 (drop DATA_OFFSET data) MURMUR_SEED) else Ok stored.

Definition type_id (data : bytes) : outcome Z :=
  if (length data <? DATA_OFFSET)%nat then Ok 0 else read_i32_be data TYPE_OFFSET.

(** [i32::wrapping_abs], and [%], which panics on zero and has the sign of the dividend. *)
Definition partition_id (data : bytes) (partition_count : Z) : outcome Z :=
  h ← partition_hash data;
  if h =? - 2 ^ 31 then Ok 0
  else if partition_count =? 0 then Panic else Ok (Z.rem (wrap_i32 (Z.abs h)) partition_count).

Definition partition_for_name (name : bytes) (count : Z) : outcome Z :=
  partition_id (to_be 4 0 ++ to_be 4 (-11) ++ to_be 4 (blen name) ++ name) count.

(** ** Facts *)

Lemma length_to_be n v : length (to_be n v) = n.
Proof. unfold to_be. by rewrite length_rev, length_to_le. Qed.

Lemma from_be_i_to_be n v :
  (0 < n)%nat -> - 2 ^ (8 * Z.of_nat n - 1) <= v < 2 ^ (8 * Z.of_nat n - 1) -> from_be_i (to_be n v) = v.
Proof. intros Hn Hv. unfold from_be_i, to_be. rewrite rev_involutive. by apply from_le_i_to_le. Qed.

Lemma from_be_i_range b : (0 < length b)%nat -> - 2 ^ (8 * blen b - 1) <= from_be_i b < 2 ^ (8 * blen b - 1).
Proof. intros Hb. unfold from_be_i. pose proof (from_le_i_range (rev b)) as H. unfold blen in *. rewrite length_rev in H. auto. Qed.

Lemma slice_length b pos n x : slice b pos n = Ok x -> length x = n.
Proof. unfold slice. destruct (Nat.leb_spec (pos + n) (length b)); [| done]. intros [= <-]. rewrite length_take, length_drop. lia. Qed.

Lemma post_slice b pos n : (pos + n <= length b)%nat -> post (slice b pos n) (fun x => length x = n).
Proof. intros H. unfold slice. rewrite (proj2 (Nat.leb_le _ _)) by done. cbn. rewrite length_take, length_drop. lia. Qed.

Lemma read_i32_be_ok b off : (off + 4 <= length b)%nat -> post (read_i32_be b off) (fun h => - 2 ^ 31 <= h < 2 ^ 31).
Proof.
  intros H. unfold read_i32_be. eapply post_bind; [by apply post_slice |]. intros x Hx. cbn [post].
  pose proof (from_be_i_range x) as Hr. unfold blen in Hr. rewrite Hx in Hr. apply Hr. lia.
Qed.

Lemma partition_hash_range data : post (partition_hash data) (fun h => - 2 ^ 31 <= h < 2 ^ 31).
Proof.
  unfold partition_hash, DATA_OFFSET, PARTITION_HASH_OFFSET. destruct (Nat.ltb_spec (length data) 8); [cbn; lia |].
  eapply post_bind; [apply read_i32_be_ok; lia |]. intros h Hh. destruct (h =? 0); cbn [post]; [| exact Hh].
  unfold murmur3_x86_32. destruct (murmur_blocks _ _) as [h1 tl]. apply wrap_i32_range.
Qed.

Lemma partition_id_ok data count : 0 < count < 2 ^ 31 -> post (partition_id data count) (fun p => 0 <= p < count).
Proof.
  intros Hc. unfold partition_id. eapply post_bind; [apply partition_hash_range |]. cbn beta. intros h Hh.
  destruct (Z.eqb_spec h (- 2 ^ 31)); [cbn; lia |]. rewrite (proj2 (Z.eqb_neq count 0)) by lia.
  rewrite wrap_i32_small by (unfold is_i32; lia). cbn [post]. apply Z.rem_bound_pos; lia.
Qed.

(** Every value has a partition: for any bytes at all, [partition_id] returns a number below the
    partition count. *)
Theorem partition_in_range data count : 0 < count < 2 ^ 31 -> exists p, partition_id data count = Ok p /\ 0 <= p < count.
Proof. intros Hc. by apply post_Ok, partition_id_ok. Qed.

Lemma partition_in_range_witness : exists p, partition_id (bstr "0123456789abc") 271 = Ok p /\ 0 <= p < 271.
Proof. apply (partition_in_range (bstr "0123456789abc") 271). lia. Defined.

(** Partitions a stock client computes. *)
Example partition_of_names :
  map (fun n => partition_for_name (bstr n) 271) ["q"; "mylist"; "myset"]%string = [Ok 229; Ok 62; Ok 170].
Proof. vm_compute. reflexivity. Qed.

(** * Reading big-endian fields and repeated items

    Readers work on the unread suffix of the input: a read gives the value and what is left, or
    nothing when the input is too short. *)

(** [u32::from_be_bytes(b.get(pos..pos + 4)?)] and the like, on the unread suffix. *)
Definition get_be_u (w : nat) (b : bytes) : option (Z * bytes) :=
  '(x, r) ← take_n (Z.of_nat w) b; Some (from_be_u x, r).
Definition get_be_i (w : nat) (b : bytes) : option (Z * bytes) :=
  '(x, r) ← take_n (Z.of_nat w) b; Some (from_be_i x, r).

(** [for _ in 0..n { out.push(get()?) }]: every item takes at least a byte, so the length of the
    input bounds the iterations. *)
Fixpoint rd_items {A} (get : bytes -> option (A * bytes)) (fuel : nat) (n : Z) (b : bytes) : option (list A * bytes) :=
  if n <=? 0 then Some ([], b) else
  match fuel with
  | O => None
  | S fuel' =>
    '(x, r) ← get b;
    '(xs, r) ← rd_items get fuel' (n - 1) r;
    Some (x :: xs, r)
  end.

(** ** What was written is read back *)

Lemma blen_to_be n v : blen (to_be n v) = Z.of_nat n.
Proof. unfold blen. by rewrite length_to_be. Qed.

Lemma get_be_u_to_be w v r : 0 <= v < 2 ^ (8 * Z.of_nat w) -> get_be_u w (to_be w v ++ r) = Some (v, r).
Proof.
  intros H. unfold get_be_u. rewrite take_n_app' by apply blen_to_be. cbn.
  unfold from_be_u, to_be. by rewrite rev_involutive, from_le_u_to_le.
Qed.

Lemma get_be_i_to_be w v r :
  (0 < w)%nat -> - 2 ^ (8 * Z.of_nat w - 1) <= v < 2 ^ (8 * Z.of_nat w - 1) ->
  get_be_i w (to_be w v ++ r) = Some (v, r).
Proof.
  intros Hw H. unfold get_be_i. rewrite take_n_app' by apply blen_to_be. cbn. by rewrite from_be_i_to_be.
Qed.

Lemma rd_items_put {A} (put : A -> bytes) get (ok : A -> Prop) :
  (forall x r, ok x -> get (put x ++ r) = Some (x, r)) ->
  forall xs fuel r, Forall ok xs -> (length xs <= fuel)%nat ->
  rd_items get fuel (blen xs) (concat (map put xs) ++ r) = Some (xs, r).
Proof.
  intros Hg. induction xs as [| x xs IH]; intros fuel r Hok Hf; [by destruct fuel |].
  apply Forall_cons in Hok as [Hx Hxs]. destruct fuel as [| fuel]; [simpl in Hf; lia |].
  cbn [rd_items map concat]. rewrite (proj2 (Z.leb_gt _ _)) by (rewrite blen_cons; pose proof (blen_nonneg xs); lia).
  rewrite <- app_assoc, Hg by done. cbn. rewrite blen_cons.
  replace (1 + blen xs - 1) with (blen xs) by lia. rewrite IH; [done | done | simpl in Hf; lia].
Qed.

Lemma concat_put_length {A} (put : A -> bytes) (xs : list A) :
  (forall x, (0 < length (put x))%nat) -> (length xs <= length (concat (map put xs)))%nat.
Proof.
  intros Hp. induction xs as [| x xs IH]; [done |]. cbn [map concat length].
  rewrite length_app. specialize (Hp x). lia.
Qed.
