(* ===== verification/Schema.v ===== *)
(** * Compact schemas (crates/serialization/src/schema.rs)

    A schema gives every field a place in a record: fixed-size fields by descending size, booleans
    packed into bits after them, variable-size fields numbered in name order.  Its id is the RABIN
    fingerprint of the type name and the fields in name order. *)

From S2P Require Import Prelude FieldValue.

Definition BOOLEAN : Z := 1.
Definition INT8 : Z := 3.
Definition CHAR : Z := 5.
Definition INT16 : Z := 7.
Definition INT32 : Z := 9.
Definition INT64 : Z := 11.
Definition FLOAT32 : Z := 13.
Definition FLOAT64 : Z := 15.
Definition STRING : Z := 17.

Definition fixed_byte_size (kind : Z) : option Z :=
  if kind =? INT8 then Some 1
  else if (kind =? INT16) || (kind =? CHAR) then Some 2
  else if (kind =? INT32) || (kind =? FLOAT32) then Some 4
  else if (kind =? INT64) || (kind =? FLOAT64) then Some 8
  else None.

Record FieldDescriptor := mk_field { fd_name : bytes; fd_kind : Z; fd_offset : Z; fd_index : Z; fd_bit : Z }.

Definition new_field (name : bytes) (kind : Z) : FieldDescriptor := mk_field name kind (-1) (-1) (-1).

Record Schema := mk_schema {
  type_name : bytes; fields : list FieldDescriptor; schema_id : Z; fixed_size_length : Z; var_field_count : Z
}.

(** [sort_by]: a stable sort; [before a b] tells that [a] goes strictly before [b]. *)
Fixpoint sort_insert {A} (before : A -> A -> bool) (x : A) (l : list A) : list A :=
  match l with
  | [] => [x]
  | y :: l' => if before y x then y :: sort_insert before x l' else x :: l
  end.
Definition stable_sort {A} (before : A -> A -> bool) (l : list A) : list A := foldr (sort_insert before) [] l.

Definition name_before (a b : FieldDescriptor) : bool :=
  match bytes_cmp (fd_name a) (fd_name b) with Lt => true | _ => false end.

(** ** The fingerprint *)

Definition INIT : Z := 0xc15d213aa4d7a795.

(** [(fp >> 1) ^ (INIT & (fp & 1).wrapping_neg())] *)
Definition fp_bit (fp : Z) : Z := Z.lxor (Z.shiftr fp 1) (if Z.testbit fp 0 then INIT else 0).

(** The table's entry of a byte. *)
Definition fp_table (i : Z) : Z := Nat.iter 8 fp_bit i.

Definition fp_byte (fp b : Z) : Z := Z.lxor (Z.shiftr fp 8) (fp_table (Z.land (Z.lxor fp b) 0xff)).

Definition fp_int (fp v : Z) : Z :=
  let u := wrap_u32 v in
  foldl (fun fp shift => fp_byte fp (Z.land (Z.shiftr u shift) 0xff)) fp [0; 8; 16; 24].

Definition fp_str (fp : Z) (s : bytes) : Z := foldl (fun fp b => fp_byte fp (u8 b)) (fp_int fp (wrap_i32 (blen s))) s.

Definition fingerprint (type_name : bytes) (fields : list FieldDescriptor) : Z :=
  let fp := fp_int (fp_str INIT type_name) (wrap_i32 (blen fields)) in
  wrap_i64 (foldl (fun fp f => fp_int (fp_str fp (fd_name f)) (fd_kind f)) fp fields).

(** ** The layout *)

Definition set_offset (o : Z) (f : FieldDescriptor) : FieldDescriptor := mk_field (fd_name f) (fd_kind f) o (fd_index f) (fd_bit f).
Definition set_bit (o b : Z) (f : FieldDescriptor) : FieldDescriptor := mk_field (fd_name f) (fd_kind f) o (fd_index f) b.
Definition set_var_index (i : Z) (f : FieldDescriptor) : FieldDescriptor := mk_field (fd_name f) (fd_kind f) (fd_offset f) i (fd_bit f).

(** The size of the i-th field, [unwrap]ped only on fixed-size fields. *)
Definition size_at (fs : list FieldDescriptor) (i : nat) : Z := default 0 (f ← fs !! i; fixed_byte_size (fd_kind f)).

Definition fixed_indices (fs : list FieldDescriptor) : list nat :=
  filter (fun i => is_Some (f ← fs !! i; fixed_byte_size (fd_kind f))) (seq 0 (length fs)).

(** [fields[i].offset = offset; offset += size], for the fixed fields in order. *)
Definition place_fixed (st : list FieldDescriptor * Z) (i : nat) : list FieldDescriptor * Z :=
  let '(fs, offset) := st in (alter (set_offset offset) i fs, wrap_i32 (offset + size_at fs i)).

(** The booleans: the next bit, and the next byte after eight. *)
Fixpoint place_booleans (fs : list FieldDescriptor) (offset bit : Z) : list FieldDescriptor * Z * Z :=
  match fs with
  | [] => ([], offset, bit)
  | f :: fs' =>
    if fd_kind f =? BOOLEAN then
      let bit' := bit + 1 in
      let '(offset', bit') := if bit' =? 8 then (wrap_i32 (offset + 1), 0) else (offset, bit') in
      let '(l, o, b) := place_booleans fs' offset' bit' in (set_bit offset bit f :: l, o, b)
    else let '(l, o, b) := place_booleans fs' offset bit in (f :: l, o, b)
  end.

Definition is_var (f : FieldDescriptor) : bool :=
  negb (fd_kind f =? BOOLEAN) && match fixed_byte_size (fd_kind f) with None => true | Some _ => false end.

Fixpoint number_vars (fs : list FieldDescriptor) (index : Z) : list FieldDescriptor * Z :=
  match fs with
  | [] => ([], index)
  | f :: fs' =>
    if is_var f then let '(l, n) := number_vars fs' (wrap_i32 (index + 1)) in (set_var_index index f :: l, n)
    else let '(l, n) := number_vars fs' index in (f :: l, n)
  end.

Definition new_schema (type_name : bytes) (fs : list FieldDescriptor) : Schema :=
  let fs := stable_sort name_before fs in
  let id := fingerprint type_name fs in
  let fixed := stable_sort (fun a b => size_at fs b <? size_at fs a) (fixed_indices fs) in
  let '(fs, offset) := foldl place_fixed (fs, 0) fixed in
  let '(fs, offset, bit) := place_booleans fs offset 0 in
  let offset := if bit =? 0 then offset else wrap_i32 (offset + 1) in
  let '(fs, count) := number_vars fs 0 in
  mk_schema type_name fs id (wrap_u64 offset) (wrap_u64 count).

Definition field (s : Schema) (name : bytes) : option FieldDescriptor := List.find (fun f => bool_decide (fd_name f = name)) (fields s).

(** ** The service *)

Record SchemaService := mk_service { schemas : gmap Z Schema }.
Definition new_service : SchemaService := mk_service ∅.
Definition put_schema (s : Schema) (sv : SchemaService) : SchemaService * Z := (mk_service (<[schema_id s := s]> (schemas sv)), schema_id s).
Definition get_schema (sv : SchemaService) (id : Z) : option Schema := schemas sv !! id.

(** The id and layout of a schema captured from a client: [Person{name: String, age: int32}]. *)
Definition person : Schema := new_schema (bstr "person") [new_field (bstr "name") STRING; new_field (bstr "age") INT32].

Example person_layout :
  schema_id person = wrap_i64 0xeac7fcf34f8f1c72 /\ fixed_size_length person = 4 /\ var_field_count person = 1
  /\ (fd_offset <$> field person (bstr "age")) = Some 0 /\ (fd_index <$> field person (bstr "name")) = Some 0.
Proof. vm_compute. done. Qed.

(** * Every field of a schema has a place of its own *)

(** ** Sorting *)

Section Sort.
Context {A : Type} (before : A -> A -> bool).

Lemma sort_insert_perm x l : sort_insert before x l ≡ₚ x :: l.
Proof.
  induction l as [| y l IH]; cbn; [done |]. destruct (before y x); [| done]. rewrite IH. constructor.
Qed.

Lemma stable_sort_perm l : stable_sort before l ≡ₚ l.
Proof. induction l as [| x l IH]; cbn; [done |]. rewrite sort_insert_perm. by f_equiv. Qed.

Context (before_trans : forall x y z, before x y = true -> before y z = true -> before x z = true).
Context (before_irrefl : forall x, before x x = false).

Lemma before_asym x y : before x y = true -> before y x = false.
Proof. intros H. destruct (before y x) eqn:E; [| done]. by rewrite <- (before_irrefl x), (before_trans _ _ _ H E). Qed.

(** Elements that are not equal in the order can be inserted in any order. *)
Lemma sort_insert_comm x y l :
  before x y = true -> sort_insert before x (sort_insert before y l) = sort_insert before y (sort_insert before x l).
Proof.
  intros Hxy. pose proof (before_asym x y Hxy) as Hyx. induction l as [| z l IH]; cbn.
  - by rewrite Hyx, Hxy.
  - destruct (before z x) eqn:Ezx.
    + rewrite (before_trans _ _ _ Ezx Hxy). cbn. rewrite Ezx, (before_trans _ _ _ Ezx Hxy). by f_equal.
    + cbn. rewrite Hxy. destruct (before z y) eqn:Ezy; cbn.
      * by rewrite Ezx.
      * by rewrite Hyx.
Qed.

Lemma stable_sort_unique l l' :
  (forall i j x y, i <> j -> l !! i = Some x -> l !! j = Some y -> before x y = true \/ before y x = true) ->
  l ≡ₚ l' -> stable_sort before l = stable_sort before l'.
Proof.
  intros Htot Hp. unfold stable_sort. apply (foldr_permutation (=)); [solve_proper | | done].
  intros i x j y b Hij Hi Hj. destruct (Htot i j x y Hij Hi Hj) as [H | H]; [by apply sort_insert_comm | symmetry; by apply sort_insert_comm].
Qed.
End Sort.

Lemma name_before_spec a b : name_before a b = true <-> bytes_cmp (fd_name a) (fd_name b) = Lt.
Proof. unfold name_before. by destruct (bytes_cmp _ _). Qed.

(** ** Fixed-size fields *)

(** What the layout keeps of a field. *)
Definition same_field (f g : FieldDescriptor) : Prop := fd_name f = fd_name g /\ fd_kind f = fd_kind g.

Lemma size_pos kind n : fixed_byte_size kind = Some n -> 1 <= n <= 8.
Proof. unfold fixed_byte_size. repeat case_match; intros [= <-]; lia. Qed.

(** The fields [done_] are placed one after the other below [offset]. *)
Record placed (fs0 : list FieldDescriptor) (done_ : list nat) (fs : list FieldDescriptor) (offset : Z) : Prop := {
  pl_same : Forall2 same_field fs0 fs;
  pl_range : forall i f, i ∈ done_ -> fs !! i = Some f -> 0 <= fd_offset f /\ fd_offset f + size_at fs0 i <= offset;
  pl_apart : forall i j f g, i ∈ done_ -> j ∈ done_ -> i <> j -> fs !! i = Some f -> fs !! j = Some g ->
    fd_offset f + size_at fs0 i <= fd_offset g \/ fd_offset g + size_at fs0 j <= fd_offset f;
  pl_offset : 0 <= offset <= 8 * Z.of_nat (length done_)
}.

Lemma same_field_size fs0 fs i : Forall2 same_field fs0 fs -> size_at fs i = size_at fs0 i.
Proof.
  intros H. unfold size_at. destruct (fs0 !! i) as [f |] eqn:E.
  - destruct (Forall2_lookup_l _ _ _ _ _ H E) as (g & -> & _ & Hk). cbn. by rewrite Hk.
  - apply lookup_ge_None in E. rewrite (Forall2_length _ _ _ H) in E. by rewrite (lookup_ge_None_2 fs i E).
Qed.

Lemma place_fixed_ok fs0 done_ fs offset i :
  placed fs0 done_ fs offset -> i ∉ done_ -> 0 <= size_at fs0 i <= 8 -> Z.of_nat (length done_) < 2 ^ 27 ->
  let '(fs', offset') := place_fixed (fs, offset) i in placed fs0 (i :: done_) fs' offset'.
Proof.
  intros [Hs Hr Ha Ho] Hi Hsz Hlen. cbn [place_fixed]. rewrite (same_field_size fs0 fs i Hs).
  rewrite wrap_i32_small by (unfold is_i32; lia).
  assert (forall j f, alter (set_offset offset) i fs !! j = Some f ->
    (j = i /\ fd_offset f = offset) \/ (j <> i /\ fs !! j = Some f)) as Hlk.
  { intros j f. destruct (decide (j = i)) as [-> | Hne]; [| rewrite list_lookup_alter_ne by done; by right].
    rewrite list_lookup_alter_eq. destruct (fs !! i); [| done]. intros [= <-]. by left. }
  split.
  - apply Forall2_same_length_lookup. split; [rewrite length_alter; by eapply Forall2_length |].
    intros j f g Hf Hg. destruct (Forall2_lookup_l _ _ _ _ _ Hs Hf) as (g0 & Hg0 & Hsame).
    destruct (decide (j = i)) as [-> | Hne].
    + rewrite list_lookup_alter_eq, Hg0 in Hg. by injection Hg as <-.
    + rewrite list_lookup_alter_ne in Hg by done. by simplify_eq.
  - intros j f [-> | Hj]%elem_of_cons Hf; destruct (Hlk _ _ Hf) as [[E Eo] | [Hne Hf']]; try lia; [congruence |].
    specialize (Hr j f Hj Hf'). lia.
  - intros j k f g Hj Hk Hne Hf Hg. apply elem_of_cons in Hj, Hk.
    destruct (Hlk _ _ Hf) as [[-> Eo] | [Hji Hf']], (Hlk _ _ Hg) as [[-> Eo'] | [Hki Hg']]; [done | | |].
    + destruct Hk as [-> | Hk]; [done |]. right. specialize (Hr k g Hk Hg'). lia.
    + destruct Hj as [-> | Hj]; [done |]. left. specialize (Hr j f Hj Hf'). lia.
    + destruct Hj as [-> | Hj]; [done |]. destruct Hk as [-> | Hk]; [done |]. by apply (Ha j k).
  - cbn [length]. lia.
Qed.

Lemma place_all_ok fs0 l : forall done_ fs offset,
  placed fs0 done_ fs offset -> NoDup (l ++ done_) -> (forall i, 0 <= size_at fs0 i <= 8) -> Z.of_nat (length (l ++ done_)) < 2 ^ 27 ->
  let '(fs', offset') := foldl place_fixed (fs, offset) l in placed fs0 (rev l ++ done_) fs' offset'.
Proof.
  induction l as [| i l IH]; intros done_ fs offset Hp Hnd Hsz Hlen; [exact Hp |]. cbn [foldl].
  cbn [app] in Hnd. apply NoDup_cons in Hnd as [Hi Hnd]. cbn [app length] in Hlen. rewrite length_app in Hlen.
  pose proof (place_fixed_ok fs0 done_ fs offset i Hp) as H1. destruct (place_fixed (fs, offset) i) as [fs1 o1].
  specialize (IH (i :: done_) fs1 o1). destruct (foldl place_fixed (fs1, o1) l) as [fs2 o2]. cbn [rev]. rewrite <- app_assoc. apply IH.
  - apply H1; [set_solver | done | lia].
  - rewrite <- Permutation_middle. by constructor.
  - done.
  - rewrite length_app. cbn. lia.
Qed.

Lemma size_at_bounds fs i : 0 <= size_at fs i <= 8.
Proof.
  unfold size_at. destruct (fs !! i) as [f |]; cbn; [| lia]. destruct (fixed_byte_size (fd_kind f)) eqn:E; cbn; [| lia].
  pose proof (size_pos _ _ E). lia.
Qed.

(** ** Booleans *)

Definition nbool (fs : list FieldDescriptor) : nat := length (filter (fun f => fd_kind f = BOOLEAN) fs).

Lemma nbool_cons f fs : nbool (f :: fs) = ((if decide (fd_kind f = BOOLEAN) then 1 else 0) + nbool fs)%nat.
Proof. unfold nbool. rewrite filter_cons. by case_decide. Qed.

(** A boolean's bit, counted from the start of the record's data. *)
Definition bit_pos (f : FieldDescriptor) : Z := 8 * fd_offset f + fd_bit f.

Definition boolean_at (p : Z) (f g : FieldDescriptor) : Prop :=
  same_field f g /\ if decide (fd_kind f = BOOLEAN) then 0 <= fd_bit g < 8 /\ bit_pos g = p else g = f.

Lemma place_booleans_ok fs : forall o b, 0 <= o -> 0 <= b < 8 -> o + Z.of_nat (length fs) < 2 ^ 31 - 1 ->
  let '(l, o', b') := place_booleans fs o b in
  length l = length fs
  /\ (forall i f g, fs !! i = Some f -> l !! i = Some g -> boolean_at (8 * o + b + Z.of_nat (nbool (take i fs))) f g)
  /\ 8 * o' + b' = 8 * o + b + Z.of_nat (nbool fs) /\ 0 <= b' < 8 /\ o <= o' <= o + Z.of_nat (length fs).
Proof.
  induction fs as [| f fs IH]; intros o b Ho Hb Hlen; cbn [place_booleans].
  { split_and!; [done | intros i f g Hf; by rewrite lookup_nil in Hf | cbn; lia | lia | lia | lia | cbn; lia]. }
  cbn [length] in Hlen. rewrite nbool_cons. destruct (Z.eqb_spec (fd_kind f) BOOLEAN) as [E | E].
  - set (st := if b + 1 =? 8 then (wrap_i32 (o + 1), 0) else (o, b + 1)).
    assert (0 <= st.1 /\ 0 <= st.2 < 8 /\ 8 * st.1 + st.2 = 8 * o + b + 1 /\ o <= st.1 <= o + 1) as (H1 & H2 & H3 & H4).
    { unfold st. destruct (Z.eqb_spec (b + 1) 8); cbn; [rewrite wrap_i32_small by (unfold is_i32; lia) |]; lia. }
    clearbody st. destruct st as [o1 b1]. cbn [fst snd] in *. specialize (IH o1 b1 H1 H2 ltac:(lia)).
    destruct (place_booleans fs o1 b1) as [[l o2] b2]. destruct IH as (Hl & Hf & Hp & Hb2 & Ho2).
    rewrite decide_True by done. cbn [length]. split_and!; [lia | | lia | lia | lia | lia | lia].
    intros [| i] f' g Hf' Hg.
    + injection Hf' as <-. injection Hg as <-. split; [done |]. rewrite decide_True by done. unfold bit_pos. cbn. lia.
    + cbn [lookup list_lookup] in Hf', Hg. specialize (Hf i f' g Hf' Hg). cbn [take]. rewrite nbool_cons, decide_True by done.
      replace (8 * o + b + Z.of_nat (1 + nbool (take i fs))) with (8 * o1 + b1 + Z.of_nat (nbool (take i fs))) by lia. done.
  - specialize (IH o b Ho Hb ltac:(lia)). destruct (place_booleans fs o b) as [[l o2] b2]. destruct IH as (Hl & Hf & Hp & Hb2 & Ho2).
    rewrite decide_False by done. cbn [length]. split_and!; [lia | | lia | lia | lia | lia | lia].
    intros [| i] f' g Hf' Hg.
    + injection Hf' as <-. injection Hg as <-. split; [done |]. by rewrite decide_False.
    + cbn [lookup list_lookup] in Hf', Hg. specialize (Hf i f' g Hf' Hg). cbn [take]. by rewrite nbool_cons, decide_False.
Qed.

(** Later booleans have later bits. *)
Lemma nbool_lt fs i j f : (i < j)%nat -> fs !! i = Some f -> fd_kind f = BOOLEAN -> (nbool (take i fs) < nbool (take j fs))%nat.
Proof.
  intros Hij Hf Hk. unfold nbool. replace (take j fs) with (take i fs ++ f :: take (j - S i) (drop (S i) fs)).
  - rewrite filter_app, length_app. cbn [filter list_filter]. rewrite decide_True by done. cbn. lia.
  - rewrite <- (take_drop_middle fs i f Hf) at 3. rewrite take_app, length_take.
    replace (i `min` length fs)%nat with i by (apply lookup_lt_Some in Hf; lia). rewrite take_take.
    replace (j `min` i)%nat with i by lia. f_equal. destruct (j - i)%nat eqn:E; [lia |]. cbn. f_equal. f_equal. lia.
Qed.

Lemma nbool_le fs i : (nbool (take i fs) <= nbool fs)%nat.
Proof. unfold nbool. rewrite <- (take_drop i fs) at 2. rewrite filter_app, length_app. lia. Qed.

(** ** Variable-size fields *)

Lemma number_vars_ok fs : forall n, 0 <= n -> n + Z.of_nat (length fs) < 2 ^ 31 - 1 ->
  let '(l, n') := number_vars fs n in
  Forall2 (fun f g => same_field f g /\ fd_offset g = fd_offset f /\ fd_bit g = fd_bit f) fs l
  /\ fd_index <$> filter (fun f => is_var f = true) l = seqZ n (n' - n) /\ n <= n' <= n + Z.of_nat (length fs).
Proof.
  induction fs as [| f fs IH]; intros n Hn Hlen; cbn [number_vars length] in *.
  { split_and!; [constructor | by rewrite Z.sub_diag | lia | lia]. }
  destruct (is_var f) eqn:E.
  - rewrite wrap_i32_small by (unfold is_i32; lia). specialize (IH (n + 1) ltac:(lia) ltac:(lia)).
    destruct (number_vars fs (n + 1)) as [l n']. destruct IH as (Hl & Hi & Hb).
    rewrite filter_cons_True by exact E. rewrite fmap_cons, Hi. split_and!; [by constructor | | lia | lia].
    rewrite (seqZ_cons n) by lia. cbn. f_equal. f_equal; lia.
  - specialize (IH n Hn ltac:(lia)). destruct (number_vars fs n) as [l n']. destruct IH as (Hl & Hi & Hb).
    rewrite filter_cons_False by congruence. split_and!; [by constructor | done | lia | lia].
Qed.

(** ** The whole layout *)

(** The bits of a record's data that belong to a field. *)
Definition bit_range (f : FieldDescriptor) : Z * Z :=
  match fixed_byte_size (fd_kind f) with
  | Some n => (8 * fd_offset f, 8 * (fd_offset f + n))
  | None => if decide (fd_kind f = BOOLEAN) then (bit_pos f, bit_pos f + 1) else (0, 0)
  end.

Definition owns (f : FieldDescriptor) (b : Z) : Prop := (bit_range f).1 <= b < (bit_range f).2.

Lemma elem_of_fixed_indices fs i f :
  fs !! i = Some f -> i ∈ fixed_indices fs <-> is_Some (fixed_byte_size (fd_kind f)).
Proof.
  intros Hi. unfold fixed_indices. rewrite list_elem_of_filter, elem_of_seq, Hi. cbn.
  pose proof (lookup_lt_Some _ _ _ Hi). split; [tauto | intros; split; [done | lia]].
Qed.

Lemma NoDup_fixed_indices fs : NoDup (fixed_indices fs).
Proof. apply NoDup_filter, NoDup_seq. Qed.

Lemma length_fixed_indices fs : (length (fixed_indices fs) <= length fs)%nat.
Proof. unfold fixed_indices. etrans; [apply length_filter |]. by rewrite length_seq. Qed.

(** The fixed part [fs2] ends at byte [o]; every field of the schema is where its kind says. *)
Record laid_out (o : Z) (fs2 : list FieldDescriptor) (s : Schema) : Prop := {
  lo_end : 0 <= o /\ 8 * o + Z.of_nat (nbool fs2) <= 8 * fixed_size_length s;
  lo_fixed : forall i f n, fields s !! i = Some f -> fixed_byte_size (fd_kind f) = Some n -> 0 <= fd_offset f /\ fd_offset f + n <= o;
  lo_apart : forall i j f g n m, i <> j -> fields s !! i = Some f -> fields s !! j = Some g ->
    fixed_byte_size (fd_kind f) = Some n -> fixed_byte_size (fd_kind g) = Some m ->
    fd_offset f + n <= fd_offset g \/ fd_offset g + m <= fd_offset f;
  lo_bool : forall i f, fields s !! i = Some f -> fd_kind f = BOOLEAN ->
    (exists f2, fs2 !! i = Some f2 /\ fd_kind f2 = BOOLEAN) /\ 0 <= fd_bit f < 8 /\ bit_pos f = 8 * o + Z.of_nat (nbool (take i fs2));
  lo_vars : fd_index <$> filter (fun f => is_var f = true) (fields s) = seqZ 0 (var_field_count s)
}.

(** The four passes over the fields, and what a field of the result was before. *)
Section Passes.
Context (fs1 fs2 fs3 fs4 : list FieldDescriptor) (o2 : Z).
Context (Hsame : Forall2 same_field fs1 fs2) (Hlen : length fs3 = length fs2).
Context (Hbool : forall i f g, fs2 !! i = Some f -> fs3 !! i = Some g -> boolean_at (8 * o2 + Z.of_nat (nbool (take i fs2))) f g).
Context (Hvars : Forall2 (fun f g => same_field f g /\ fd_offset g = fd_offset f /\ fd_bit g = fd_bit f) fs3 fs4).

Lemma field_back i f : fs4 !! i = Some f -> exists f1 f2 f3, fs1 !! i = Some f1 /\ fs2 !! i = Some f2
  /\ fd_kind f = fd_kind f1 /\ fd_kind f2 = fd_kind f1 /\ fd_offset f = fd_offset f3 /\ fd_bit f = fd_bit f3
  /\ boolean_at (8 * o2 + Z.of_nat (nbool (take i fs2))) f2 f3.
Proof using Hbool Hlen Hsame Hvars.
  intros Hf. destruct (Forall2_lookup_r _ _ _ _ _ Hvars Hf) as (f3 & Hf3 & [_ Hk] & Eo & Eb).
  destruct (lookup_lt_is_Some_2 fs2 i) as [f2 Hf2]; [rewrite <- Hlen; by eapply lookup_lt_Some |].
  destruct (Forall2_lookup_r _ _ _ _ _ Hsame Hf2) as (f1 & Hf1 & [_ Hk1]). pose proof (Hbool i f2 f3 Hf2 Hf3) as Hba.
  exists f1, f2, f3. split_and!; try done; destruct Hba as [[_ Hk2] _]; congruence.
Qed.

Lemma field_fixed i f n : fs4 !! i = Some f -> fixed_byte_size (fd_kind f) = Some n ->
  i ∈ fixed_indices fs1 /\ size_at fs1 i = n /\ exists f2, fs2 !! i = Some f2 /\ fd_offset f2 = fd_offset f.
Proof using Hbool Hlen Hsame Hvars.
  intros Hf Hn. destruct (field_back i f Hf) as (f1 & f2 & f3 & Hf1 & Hf2 & Hk & Hk2 & Eo & _ & [_ Hba]).
  split_and!; [rewrite (elem_of_fixed_indices _ _ _ Hf1), <- Hk; by eexists | unfold size_at; rewrite Hf1; cbn; by rewrite <- Hk, Hn |].
  exists f2. split; [done |]. rewrite decide_False in Hba; [congruence |]. intros E. rewrite Hk, <- Hk2, E in Hn. done.
Qed.
End Passes.

Lemma elem_of_rev {A} (x : A) l : x ∈ rev l <-> x ∈ l.
Proof. by rewrite !list_elem_of_In, <- in_rev. Qed.

Lemma schema_laid_out tn fs : Z.of_nat (length fs) < 2 ^ 27 -> exists o fs2, laid_out o fs2 (new_schema tn fs).
Proof.
  intros Hlen. unfold new_schema. set (fs1 := stable_sort name_before fs).
  assert (length fs1 = length fs) as El by (unfold fs1; by rewrite (stable_sort_perm name_before fs)).
  set (fixed := stable_sort _ (fixed_indices fs1)). assert (fixed ≡ₚ fixed_indices fs1) as Hperm by apply stable_sort_perm.
  pose proof (place_all_ok fs1 fixed [] fs1 0) as Hp. destruct (foldl place_fixed (fs1, 0) fixed) as [fs2 o2].
  rewrite !app_nil_r in Hp. pose proof (length_fixed_indices fs1) as Hfi.
  destruct Hp as [Hsame Hr Ha Ho].
  { split; [by apply Forall_Forall2_diag, Forall_true | by intros i f ?%elem_of_nil | by intros i j f g ?%elem_of_nil | cbn; lia]. }
  { rewrite Hperm. apply NoDup_fixed_indices. }
  { apply size_at_bounds. }
  { rewrite Hperm. lia. }
  rewrite length_rev, Hperm in Ho. pose proof (Forall2_length _ _ _ Hsame) as El2.
  pose proof (place_booleans_ok fs2 o2 0) as Hb. destruct (place_booleans fs2 o2 0) as [[fs3 o3] b3].
  destruct Hb as (El3 & Hb & Hp3 & Hb3 & Ho3); [lia | lia | lia |]. rewrite Z.add_0_r in *.
  pose proof (number_vars_ok fs3 0) as Hv. destruct (number_vars fs3 0) as [fs4 n4]. destruct Hv as (Hv & Hidx & Hn); [lia | lia |].
  rewrite Z.sub_0_r in Hidx. set (oe := if b3 =? 0 then o3 else wrap_i32 (o3 + 1)).
  assert (o3 <= oe < 2 ^ 31 /\ 8 * o3 + b3 <= 8 * oe) as [Hoe Hoe'].
  { unfold oe. destruct (Z.eqb_spec b3 0); [lia |]. rewrite wrap_i32_small by (unfold is_i32; lia). lia. }
  pose proof (field_fixed fs1 fs2 fs3 fs4 o2 Hsame El3 Hb Hv) as Hfix.
  exists o2, fs2. split; cbn [fields fixed_size_length var_field_count].
  - rewrite wrap_u64_small by (unfold is_u64; lia). lia.
  - intros i f n Hf Hn'. destruct (Hfix i f n Hf Hn') as (Hi & <- & f2 & Hf2 & <-). apply Hr; [by rewrite elem_of_rev, Hperm | done].
  - intros i j f g n m Hij Hf Hg Hn' Hm'. destruct (Hfix i f n Hf Hn') as (Hi & <- & f2 & Hf2 & <-).
    destruct (Hfix j g m Hg Hm') as (Hj & <- & g2 & Hg2 & <-). apply (Ha i j); try done; by rewrite elem_of_rev, Hperm.
  - intros i f Hf Hk. destruct (field_back fs1 fs2 fs3 fs4 o2 Hsame El3 Hb Hv i f Hf) as (f1 & f2 & f3 & Hf1 & Hf2 & Hk1 & Hk2 & Eo & Eb & [_ Hba]).
    rewrite decide_True in Hba by congruence. split_and!; [exists f2; split; [done | congruence] | rewrite Eb; lia | rewrite Eb; lia |].
    unfold bit_pos in *. rewrite Eo, Eb. lia.
  - rewrite wrap_u64_small by (unfold is_u64; lia). done.
Qed.

(** Every field has a place of its own: in a schema of fewer than 2^27 fields no two fields share a bit of
    the record, no field reaches beyond the fixed-size part, and the variable-size fields are
    numbered 0, 1, 2 and so on. *)
Theorem layout_is_disjoint tn fs :
  Z.of_nat (length fs) < 2 ^ 27 ->
  let s := new_schema tn fs in
  (forall i f b, fields s !! i = Some f -> owns f b -> 0 <= b < 8 * fixed_size_length s)
  /\ (forall i j f g b, fields s !! i = Some f -> fields s !! j = Some g -> owns f b -> owns g b -> i = j)
  /\ fd_index <$> filter (fun f => is_var f = true) (fields s) = seqZ 0 (var_field_count s).
Proof.
  intros Hlen s. destruct (schema_laid_out tn fs Hlen) as (o & fs2 & [Hend Hfix Hapart Hbool Hvars]). fold s in Hend, Hfix, Hapart, Hbool, Hvars.
  unfold owns, bit_range. split_and!; [| | done].
  - intros i f b Hf. destruct (fixed_byte_size (fd_kind f)) as [n |] eqn:En; cbn [fst snd]; [specialize (Hfix i f n Hf En); lia |].
    case_decide as Ek; cbn [fst snd]; [| lia]. destruct (Hbool i f Hf Ek) as ((f2 & Hf2 & Ek2) & Hb & Hp).
    pose proof (nbool_lt fs2 i (S i) f2 ltac:(lia) Hf2 Ek2). pose proof (nbool_le fs2 (S i)). lia.
  - intros i j f g b Hf Hg Hbf Hbg. destruct (decide (i = j)) as [| Hij]; [done | exfalso].
    destruct (fixed_byte_size (fd_kind f)) as [n |] eqn:En, (fixed_byte_size (fd_kind g)) as [m |] eqn:Em; cbn [fst snd] in *.
    + specialize (Hapart i j f g n m Hij Hf Hg En Em). lia.
    + specialize (Hfix i f n Hf En). case_decide as Ek; cbn [fst snd] in *; [| lia]. destruct (Hbool j g Hg Ek) as (_ & Hb & Hp). lia.
    + specialize (Hfix j g m Hg Em). case_decide as Ek; cbn [fst snd] in *; [| lia]. destruct (Hbool i f Hf Ek) as (_ & Hb & Hp). lia.
    + do 2 (case_decide; cbn [fst snd] in *; [| lia]).
      destruct (Hbool i f Hf) as ((f2 & Hf2 & Ef2) & Hb & Hp); [done |]. destruct (Hbool j g Hg) as ((g2 & Hg2 & Eg2) & Hb' & Hp'); [done |].
      destruct (Nat.lt_total i j) as [Hlt | [| Hlt]]; [| done |].
      * pose proof (nbool_lt fs2 i j f2 Hlt Hf2 Ef2). lia.
      * pose proof (nbool_lt fs2 j i g2 Hlt Hg2 Eg2). lia.
Qed.

Definition ex_fields : list FieldDescriptor :=
  [new_field (bstr "b") BOOLEAN; new_field (bstr "a") INT32; new_field (bstr "l") INT64; new_field (bstr "s") STRING; new_field (bstr "c") BOOLEAN].

Lemma layout_is_disjoint_witness :
  let s := new_schema (bstr "t") ex_fields in
  fixed_size_length s = 13
  /\ (forall i f b, fields s !! i = Some f -> owns f b -> 0 <= b < 8 * fixed_size_length s)
  /\ (forall i j f g b, fields s !! i = Some f -> fields s !! j = Some g -> owns f b -> owns g b -> i = j)
  /\ fd_index <$> filter (fun f => is_var f = true) (fields s) = seqZ 0 (var_field_count s).
Proof. split; [reflexivity |]. apply (layout_is_disjoint (bstr "t") ex_fields). reflexivity. Defined.

(** The schema does not depend on the order in which a client lists the fields. *)
Theorem schema_order_irrelevant tn fs fs' :
  NoDup (fd_name <$> fs) -> fs ≡ₚ fs' -> new_schema tn fs = new_schema tn fs'.
Proof.
  intros Hnd Hp. unfold new_schema. rewrite (stable_sort_unique name_before) with (l' := fs'); [done | | | | done].
  - intros x y z. rewrite !name_before_spec. apply bytes_cmp_lt_trans.
  - intros x. unfold name_before. by rewrite bytes_cmp_refl.
  - intros i j x y Hij Hi Hj. rewrite !name_before_spec.
    destruct (bytes_cmp (fd_name x) (fd_name y)) eqn:E; [| by left | right; by rewrite bytes_cmp_antisym, E].
    apply bytes_cmp_eq in E. exfalso. apply Hij. apply (NoDup_lookup _ i j (fd_name x) Hnd); rewrite list_lookup_fmap; [by rewrite Hi | by rewrite Hj; cbn; f_equal].
Qed.

Lemma schema_order_irrelevant_witness : new_schema (bstr "t") ex_fields = new_schema (bstr "t") (rev ex_fields).
Proof.
  apply (schema_order_irrelevant (bstr "t") ex_fields (rev ex_fields)).
  - apply (bool_decide_unpack _). vm_compute. exact I.
  - apply Permutation_rev.
Defined.
