(* ===== verification/Extract.v ===== *)
(** * Reading a field of a serialized value (crates/serialization/src/compact.rs)

    The compact and portable extractors, on any bytes: [slice::get] with a range is [get_range], indexing
    and slicing with brackets is [slice_range] and panics out of range.  Offsets are [usize] and wrap. *)

From S2P Require Import Prelude Fixed FieldValue Partition Schema.

(** [b.get(from..to)] *)
Definition get_range (b : bytes) (from to : Z) : option bytes :=
  if (from <=? to) && (to <=? blen b) then Some (take (Z.to_nat (to - from)) (drop (Z.to_nat from) b)) else None.

(** [b.get(i)] *)
Definition get_at (b : bytes) (i : Z) : option byte := if i <? blen b then b !! Z.to_nat i else None.

(** [&b[from..to]] *)
Definition slice_range (b : bytes) (from to : Z) : outcome bytes :=
  match get_range b from to with Some x => Ok x | None => Panic end.

(** [b[i]] *)
Definition byte_at (b : bytes) (i : Z) : outcome byte := index b (Z.to_nat i).

Definition be_i32 (b : bytes) (p : Z) : option Z := from_be_i <$> get_range b p (wrap_u64 (p + 4)).
Definition be_i64 (b : bytes) (p : Z) : option Z := from_be_i <$> get_range b p (wrap_u64 (p + 8)).

(** [f as f64] for an [f32], on bit patterns; a signalling NaN becomes quiet. *)
Definition f32_as_f64 (bits : Z) : Z :=
  let sign := Z.shiftl (Z.shiftr bits 31) 63 in
  let e := Z.land (Z.shiftr bits 23) 0xff in
  let m := Z.land bits 0x7fffff in
  sign +
  (if e =? 255 then 2047 * 2 ^ 52 + (if m =? 0 then 0 else Z.lor (m * 2 ^ 29) (2 ^ 51))
   else if e =? 0 then
     if m =? 0 then 0
     else let k := Z.log2 m in (k - 149 + 1023) * 2 ^ 52 + (m - 2 ^ k) * 2 ^ (52 - k)
   else (e - 127 + 1023) * 2 ^ 52 + m * 2 ^ 29).

(** ** Compact *)

Definition var_offset (payload : bytes) (table index data_len : Z) : Z :=
  let i := wrap_u64 index in
  if data_len <? 255 then
    match get_at payload (wrap_u64 (table + i)) with
    | Some b => if u8 b =? 255 then -1 else u8 b
    | None => -1
    end
  else if data_len <? 65535 then
    let p := wrap_u64 (table + wrap_u64 (i * 2)) in
    match get_range payload p (wrap_u64 (p + 2)) with
    | Some s => let v := from_be_u s in if v =? 65535 then -1 else v
    | None => -1
    end
  else default (-1) (be_i32 payload (wrap_u64 (table + wrap_u64 (i * 4)))).

(** Where the data of a record starts, its offset table, and the data's length. *)
Definition compact_frame (s : Schema) (payload : bytes) : option (Z * Z * Z) :=
  if 0 <? var_field_count s then
    v ← be_i32 payload 8; let dl := wrap_u64 v in Some (12, wrap_u64 (12 + dl), dl)
  else Some (8, 0, 0).

Definition compact_string (payload : bytes) (data_start var_table data_len : Z) (fd : FieldDescriptor) : FieldValue :=
  let o := var_offset payload var_table (fd_index fd) data_len in
  if o <? 0 then Null else
  let pos := data_start + o in
  match be_i32 payload pos with
  | Some v =>
    if v <? 0 then Null else
    match get_range payload (pos + 4) (pos + 4 + v) with
    | Some s => VStr (from_utf8_lossy s)
    | None => Null
    end
  | None => Null
  end.

Definition compact_field (payload : bytes) (data_start var_table data_len : Z) (fd : FieldDescriptor) : FieldValue :=
  let off := data_start + Z.max (fd_offset fd) 0 in
  if fd_kind fd =? INT32 then match be_i32 payload off with Some v => I32 v | None => Null end
  else if fd_kind fd =? INT64 then match be_i64 payload off with Some v => I64 v | None => Null end
  else if fd_kind fd =? FLOAT64 then match be_i64 payload off with Some v => F64 (wrap_u64 v) | None => Null end
  else if fd_kind fd =? BOOLEAN then
    match get_at payload off with
    | Some b => VBool (Z.land (Z.shiftr (u8 b) (Z.max (fd_bit fd) 0 mod 8)) 1 =? 1)
    | None => Null
    end
  else if fd_kind fd =? STRING then compact_string payload data_start var_table data_len fd
  else Null.

Definition compact_extract (value : bytes) (sv : SchemaService) (field_name : bytes) : outcome FieldValue :=
  if blen value <? Z.of_nat DATA_OFFSET + 8 then Ok Null else
  payload ← slice_range value (Z.of_nat DATA_OFFSET) (blen value);
  Ok (default Null (
    id ← be_i64 payload 0;
    s ← get_schema sv id;
    fd ← field s field_name;
    '(data_start, var_table, data_len) ← compact_frame s payload;
    Some (compact_field payload data_start var_table data_len fd))).

(** ** Portable *)

(** The value of the field whose type byte is [ty], at [val_start]. *)
Definition portable_value (payload : bytes) (ty val_start : Z) : outcome FieldValue :=
  let fits n := val_start + n <=? blen payload in
  let read n := slice_range payload val_start (val_start + n) in
  if ty =? 1 then if val_start <? blen payload then (b ← byte_at payload val_start; Ok (I32 (u8 b))) else Ok Null
  else if ty =? 2 then if val_start <? blen payload then (b ← byte_at payload val_start; Ok (VBool (negb (u8 b =? 0)))) else Ok Null
  else if ty =? 3 then if fits 2 then (x ← read 2; Ok (I32 (from_be_u x))) else Ok Null
  else if ty =? 4 then if fits 2 then (x ← read 2; Ok (I32 (from_be_i x))) else Ok Null
  else if ty =? 5 then if fits 4 then (x ← read 4; Ok (I32 (from_be_i x))) else Ok Null
  else if ty =? 6 then if fits 8 then (x ← read 8; Ok (I64 (from_be_i x))) else Ok Null
  else if ty =? 7 then if fits 4 then (x ← read 4; Ok (F64 (f32_as_f64 (from_be_u x)))) else Ok Null
  else if ty =? 8 then if fits 8 then (x ← read 8; Ok (F64 (from_be_u x))) else Ok Null
  else if ty =? 9 then
    if fits 4 then
      (x ← read 4;
       let str_len := from_be_i x in
       if str_len <? 0 then Ok Null else
       let str_end := val_start + 4 + str_len in
       if str_end <=? blen payload
       then (s ← slice_range payload (val_start + 4) str_end; Ok (VStr (from_utf8_lossy s)))
       else Ok Null)
    else Ok Null
  else Ok Null.

(** The fields from the [i]-th on, [n] of them. *)
Fixpoint portable_fields (n : nat) (payload : bytes) (field_name : bytes) (i : Z) : outcome FieldValue :=
  match n with
  | O => Ok Null
  | S n' =>
    let continue := portable_fields n' payload field_name (i + 1) in
    match be_i32 payload (20 + i * 4) with
    | Some pos =>
      if pos <? 0 then continue else
      if blen payload <? pos + 2 then continue else
      (l ← slice_range payload pos (pos + 2);
       let len := from_be_u l in
       if blen payload <? pos + 2 + len then continue else
       (nm ← slice_range payload (pos + 2) (pos + 2 + len);
        if decide (from_utf8_lossy nm = field_name) then
          let type_id_pos := pos + 2 + len in
          if blen payload <=? type_id_pos then Ok Null
          else (ty ← byte_at payload type_id_pos; portable_value payload (u8 ty) (type_id_pos + 1))
        else continue))
    | None => continue
    end
  end.

Definition portable_extract (value field_name : bytes) : outcome FieldValue :=
  if blen value <? Z.of_nat DATA_OFFSET + 20 then Ok Null else
  t ← slice_range value 4 8;
  if negb (from_be_i t =? -1) then Ok Null else
  payload ← slice_range value (Z.of_nat DATA_OFFSET) (blen value);
  match be_i32 payload 16 with
  | Some v => if v <? 0 then Ok Null else portable_fields (Z.to_nat v) payload field_name 0
  | None => Ok Null
  end.

(** [AutoExtractor]: portable values have the type id -1. *)
Definition auto_extract (value : bytes) (sv : SchemaService) (field_name : bytes) : outcome FieldValue :=
  if blen value <? 8 then Ok Null else
  t ← slice_range value 4 8;
  if from_be_i t =? -1 then portable_extract value field_name else compact_extract value sv field_name.

(** ** Scalars as [Data] *)

Definition encode_scalar (v : FieldValue) : bytes :=
  let '(type_id, payload) :=
    match v with
    | Null => (0, [])
    | VBool b => (-4, [b8 (if b then 1 else 0)])
    | I32 i => (-7, to_be 4 i)
    | I64 i => (-8, to_be 8 i)
    | F64 f => (-10, to_be 8 f)
    | VStr s => (-11, to_be 4 (blen s) ++ s)
    end in
  to_be 4 0 ++ to_be 4 type_id ++ payload.

(** ** No input makes an extractor panic *)

Lemma slice_range_ok b from to : 0 <= from <= to -> to <= blen b -> post (slice_range b from to) (fun x => blen x = to - from).
Proof.
  intros Hf Ht. unfold slice_range, get_range. rewrite (proj2 (Z.leb_le _ _)), (proj2 (Z.leb_le to _)) by lia. cbn [andb post].
  unfold blen in *. rewrite length_take, length_drop. lia.
Qed.

Lemma byte_at_ok b i : 0 <= i < blen b -> post (byte_at b i) (fun _ => True).
Proof. intros Hi. unfold byte_at. eapply post_mono; [apply post_index; unfold blen in Hi; lia | done]. Qed.

(** Closes a chain of guarded reads. *)
Ltac read_step :=
  match goal with
  | |- post (Ok _) _ => exact I
  | |- post (if ?c then _ else _) _ => let E := fresh "E" in destruct c eqn:E
  | |- post (slice_range _ _ _ ≫= _) _ => eapply post_bind; [apply slice_range_ok; lia | intros ? ?]
  | |- post (byte_at _ _ ≫= _) _ => eapply post_bind; [apply byte_at_ok; lia | intros ? _]
  end.

Lemma portable_value_ok payload ty p : 0 <= p -> post (portable_value payload ty p) (fun _ => True).
Proof. intros Hp. unfold portable_value. repeat read_step. Qed.

Lemma from_be_u_nonneg b : 0 <= from_be_u b.
Proof. unfold from_be_u. pose proof (from_le_u_range (rev b)). lia. Qed.

Lemma portable_fields_ok n payload name i : 0 <= i -> post (portable_fields n payload name i) (fun _ => True).
Proof.
  revert i. induction n as [| n IH]; intros i Hi; cbn [portable_fields]; [exact I |].
  destruct (be_i32 payload (20 + i * 4)) as [pos |]; [| apply IH; lia].
  destruct (Z.ltb_spec pos 0); [apply IH; lia |]. destruct (Z.ltb_spec (blen payload) (pos + 2)); [apply IH; lia |].
  read_step. rename x into l. pose proof (from_be_u_nonneg l). cbn zeta. destruct (Z.ltb_spec (blen payload) (pos + 2 + from_be_u l)); [apply IH; lia |].
  read_step. case_decide; [| apply IH; lia]. destruct (Z.leb_spec (blen payload) (pos + 2 + from_be_u l)); [exact I |].
  read_step. apply portable_value_ok. lia.
Qed.

(** Field extraction is total: no value, however malformed, and no schema makes it panic. *)
Theorem extract_never_panics value sv field_name : exists v, auto_extract value sv field_name = Ok v.
Proof.
  assert (post (auto_extract value sv field_name) (fun _ => True)) as H; [| apply post_Ok in H as (v & Hv & _); eauto].
  pose proof (blen_nonneg value). unfold auto_extract. read_step; [exact I |]. read_step. read_step.
  - unfold portable_extract, DATA_OFFSET. read_step; [exact I |]. read_step. read_step; [exact I |]. read_step.
    destruct (be_i32 _ 16) as [v |]; [| exact I]. read_step; [exact I |]. apply portable_fields_ok. lia.
  - unfold compact_extract, DATA_OFFSET. read_step; [exact I |]. read_step. exact I.
Qed.

(** A record captured from a client. *)
Definition person_value : bytes :=
  map b8 ([0; 0; 0; 0; 0; 0; 0; 0] ++
    [0xea; 0xc7; 0xfc; 0xf3; 0x4f; 0x8f; 0x1c; 0x72; 0; 0; 0; 0x0d; 0; 0; 0; 0x23; 0; 0; 0; 5; 0x61; 0x6c; 0x69; 0x63; 0x65; 4]).

Example person_fields :
  let sv := (put_schema person new_service).1 in
  auto_extract person_value sv (bstr "age") = Ok (I32 35)
  /\ auto_extract person_value sv (bstr "name") = Ok (VStr (bstr "alice"))
  /\ auto_extract person_value sv (bstr "missing") = Ok Null.
Proof. vm_compute. done. Qed.


(** The extractor as a total function; [auto_extract] never takes the second case. *)
Definition field_of (value : bytes) (sv : SchemaService) (field_name : bytes) : FieldValue :=
  match auto_extract value sv field_name with Ok v => v | Panic => Null end.
