(* ===== verification/AuxStore.v ===== *)
(** * The store's other structures (crates/store/src/lib.rs)

    Queues, lists, sets, multimaps, ringbuffers, counters, sketches and id generators, the byte form of
    each of them, and the records their mutations hand to the durability sinks. *)

From S2P Require Import Prelude WalRecord Hll Partition.

(** ** State *)

Record Ring := mk_ring { r_items : list bytes; r_head : Z; r_tail : Z; r_cap : Z }.

Record Structures := mk_structures {
  queues : gmap bytes (list bytes);
  sets : gmap bytes (gset bytes);
  multimaps : gmap bytes (gmap bytes (list bytes));
  lists : gmap bytes (list bytes);
  ringbuffers : gmap bytes Ring;
  pncounters : gmap bytes Z;
  hlls : gmap bytes Hll;
  flake : gmap bytes Z
}.

Definition no_structures : Structures := mk_structures ∅ ∅ ∅ ∅ ∅ ∅ ∅ ∅.

Definition set_queues (f : gmap bytes (list bytes) -> gmap bytes (list bytes)) (s : Structures) : Structures :=
  mk_structures (f (queues s)) (sets s) (multimaps s) (lists s) (ringbuffers s) (pncounters s) (hlls s) (flake s).
Definition set_sets (f : gmap bytes (gset bytes) -> gmap bytes (gset bytes)) (s : Structures) : Structures :=
  mk_structures (queues s) (f (sets s)) (multimaps s) (lists s) (ringbuffers s) (pncounters s) (hlls s) (flake s).
Definition set_multimaps (f : gmap bytes (gmap bytes (list bytes)) -> gmap bytes (gmap bytes (list bytes))) (s : Structures) : Structures :=
  mk_structures (queues s) (sets s) (f (multimaps s)) (lists s) (ringbuffers s) (pncounters s) (hlls s) (flake s).
Definition set_lists (f : gmap bytes (list bytes) -> gmap bytes (list bytes)) (s : Structures) : Structures :=
  mk_structures (queues s) (sets s) (multimaps s) (f (lists s)) (ringbuffers s) (pncounters s) (hlls s) (flake s).
Definition set_ringbuffers (f : gmap bytes Ring -> gmap bytes Ring) (s : Structures) : Structures :=
  mk_structures (queues s) (sets s) (multimaps s) (lists s) (f (ringbuffers s)) (pncounters s) (hlls s) (flake s).
Definition set_pncounters (f : gmap bytes Z -> gmap bytes Z) (s : Structures) : Structures :=
  mk_structures (queues s) (sets s) (multimaps s) (lists s) (ringbuffers s) (f (pncounters s)) (hlls s) (flake s).
Definition set_hlls (f : gmap bytes Hll -> gmap bytes Hll) (s : Structures) : Structures :=
  mk_structures (queues s) (sets s) (multimaps s) (lists s) (ringbuffers s) (pncounters s) (f (hlls s)) (flake s).
Definition set_flake (f : gmap bytes Z -> gmap bytes Z) (s : Structures) : Structures :=
  mk_structures (queues s) (sets s) (multimaps s) (lists s) (ringbuffers s) (pncounters s) (hlls s) (f (flake s)).

Definition AUX_LIST : Z := 1.
Definition AUX_SET : Z := 2.
Definition AUX_QUEUE : Z := 3.
Definition AUX_MULTIMAP : Z := 4.
Definition AUX_RINGBUFFER : Z := 5.
Definition AUX_PNCOUNTER : Z := 6.
Definition AUX_FLAKE : Z := 7.
Definition AUX_HLL : Z := 8.

(** The order in which [HashSet] and [HashMap] iterate: any order. *)
Class Iteration := {
  set_iter : gset bytes -> list bytes;
  map_iter : forall A, gmap bytes A -> list (bytes * A);
  set_iter_perm : forall s, set_iter s ≡ₚ elements s;
  map_iter_perm : forall A (m : gmap bytes A), map_iter A m ≡ₚ map_to_list m
}.
Arguments map_iter {_ A} m.

(** One order, to run the definitions with. *)
Definition by_keys : Iteration :=
  Build_Iteration elements (fun _ m => map_to_list m) (fun _ => reflexivity _) (fun _ _ => reflexivity _).

(** ** Byte forms *)

Definition enc_vecs (items : list bytes) : bytes := to_le 4 (blen items) ++ concat (map (put_lp 4) items).

(** The loop of [dec_vecs] for [n] items: what was read, and the bytes left where it stopped.  Every
    round reads at least four bytes, so a buffer's length is fuel enough. *)
Fixpoint dec_items (fuel : nat) (n : Z) (b : bytes) : list bytes * bytes :=
  if n <=? 0 then ([], b) else
  match fuel with
  | O => ([], b)
  | S fuel' =>
    match get_u 4 b with
    | None => ([], b)
    | Some (l, r) =>
      match take_n l r with
      | None => ([], r)
      | Some (x, r) => let '(xs, rest) := dec_items fuel' (n - 1) r in (x :: xs, rest)
      end
    end
  end.

Definition dec_vecs (b : bytes) : list bytes * bytes :=
  match get_u 4 b with
  | None => ([], b)
  | Some (n, r) => dec_items (length r) n r
  end.

(** The loop of [install_aux] over the keys of a multimap. *)
Fixpoint dec_multimap (fuel : nat) (n : Z) (b : bytes) (mm : gmap bytes (list bytes)) : gmap bytes (list bytes) :=
  if n <=? 0 then mm else
  match fuel with
  | O => mm
  | S fuel' =>
    match get_lp 4 b with
    | None => mm
    | Some (key, r) => let '(vals, r) := dec_vecs r in dec_multimap fuel' (n - 1) r (<[key := vals]> mm)
    end
  end.

Definition ring_bytes (r : Ring) : bytes :=
  to_le 8 (r_head r) ++ to_le 8 (r_tail r) ++ to_le 8 (r_cap r) ++ enc_vecs (r_items r).

Definition dec_ring (b : bytes) : option Ring :=
  '(head, r) ← get_i 8 b;
  '(tail, r) ← get_i 8 r;
  '(cap, r) ← get_i 8 r;
  Some (mk_ring (dec_vecs r).1 head tail cap).

Section Structures.
Context {I : Iteration}.

Definition multimap_bytes (mm : gmap bytes (list bytes)) : bytes :=
  to_le 4 (blen (map_iter mm)) ++ concat (map (fun '(k, vs) => put_lp 4 k ++ enc_vecs vs) (map_iter mm)).

Definition serialize_aux (kind : Z) (name : bytes) (s : Structures) : bytes :=
  default [] (
    if kind =? AUX_QUEUE then enc_vecs <$> queues s !! name
    else if kind =? AUX_LIST then enc_vecs <$> lists s !! name
    else if kind =? AUX_SET then (fun x => enc_vecs (set_iter x)) <$> sets s !! name
    else if kind =? AUX_MULTIMAP then multimap_bytes <$> multimaps s !! name
    else if kind =? AUX_RINGBUFFER then ring_bytes <$> ringbuffers s !! name
    else if kind =? AUX_PNCOUNTER then to_le 8 <$> pncounters s !! name
    else if kind =? AUX_HLL then to_bytes <$> hlls s !! name
    else None).

Definition install_aux (kind : Z) (name data : bytes) (s : Structures) : Structures :=
  if kind =? AUX_QUEUE then set_queues <[name := (dec_vecs data).1]> s
  else if kind =? AUX_LIST then set_lists <[name := (dec_vecs data).1]> s
  else if kind =? AUX_SET then set_sets <[name := list_to_set (dec_vecs data).1]> s
  else if kind =? AUX_MULTIMAP then
    match get_u 4 data with
    | None => s
    | Some (n, r) => set_multimaps <[name := dec_multimap (length r) n r ∅]> s
    end
  else if kind =? AUX_RINGBUFFER then
    match dec_ring data with None => s | Some r => set_ringbuffers <[name := r]> s end
  else if kind =? AUX_PNCOUNTER then
    match get_i 8 data with None => s | Some (v, _) => set_pncounters <[name := v]> s end
  else if kind =? AUX_HLL then set_hlls <[name := from_bytes data]> s
  else s.

(** The structures a snapshot writes. *)
Definition all_aux (s : Structures) : list (Z * bytes * bytes) :=
  let of_kind kind (names : list bytes) := map (fun name => (kind, name, serialize_aux kind name s)) names in
  of_kind AUX_QUEUE (map_iter (queues s)).*1 ++ of_kind AUX_LIST (map_iter (lists s)).*1
  ++ of_kind AUX_SET (map_iter (sets s)).*1 ++ of_kind AUX_MULTIMAP (map_iter (multimaps s)).*1
  ++ of_kind AUX_RINGBUFFER (map_iter (ringbuffers s)).*1 ++ of_kind AUX_PNCOUNTER (map_iter (pncounters s)).*1.

(** The call to each sink that is attached: the structure's whole state, as it is when the call is made. *)
Definition emit_aux (kind : Z) (name : bytes) (s : Structures) : list Mutation :=
  [Aux (mk_aux (b8 kind) name (serialize_aux kind name s))].

(** ** Operations: the reply, the new state, and what the sinks are told *)

Definition emits {R} (kind : Z) (name : bytes) (r : R) (s : Structures) : R * Structures * list Mutation :=
  (r, s, emit_aux kind name s).

Definition silent {R} (r : R) (s : Structures) : R * Structures * list Mutation := (r, s, []).

(** [iter().position(|x| x == v)], then [remove(i)] *)
Definition remove_first (v : bytes) (l : list bytes) : option (list bytes) :=
  (fun p : nat * bytes => delete p.1 l) <$> list_find (fun x => x = v) l.

Definition list_add (name v : bytes) (s : Structures) : bool * Structures * list Mutation :=
  emits AUX_LIST name true (set_lists (fun m => <[name := default [] (m !! name) ++ [v]]> m) s).

Definition list_get (name : bytes) (index : Z) (s : Structures) : option bytes :=
  if index <? 0 then None else l ← lists s !! name; l !! Z.to_nat index.

Definition list_size (name : bytes) (s : Structures) : Z := from_option blen 0 (lists s !! name).

Definition list_contains (name v : bytes) (s : Structures) : bool :=
  from_option (fun l => bool_decide (v ∈ l)) false (lists s !! name).

Definition list_remove (name v : bytes) (s : Structures) : bool * Structures * list Mutation :=
  match lists s !! name ≫= remove_first v with
  | Some l => emits AUX_LIST name true (set_lists <[name := l]> s)
  | None => silent false s
  end.

Definition list_get_all (name : bytes) (s : Structures) : list bytes := default [] (lists s !! name).

Definition list_clear (name : bytes) (s : Structures) : unit * Structures * list Mutation :=
  emits AUX_LIST name () (set_lists (alter (fun _ => []) name) s).

Definition list_is_empty (name : bytes) (s : Structures) : bool := list_size name s =? 0.

Definition set_add (name v : bytes) (s : Structures) : bool * Structures * list Mutation :=
  let x := default ∅ (sets s !! name) in
  emits AUX_SET name (bool_decide (v ∉ x)) (set_sets <[name := {[v]} ∪ x]> s).

Definition set_remove (name v : bytes) (s : Structures) : bool * Structures * list Mutation :=
  match sets s !! name with
  | Some x =>
    if bool_decide (v ∈ x) then emits AUX_SET name true (set_sets <[name := x ∖ {[v]}]> s) else silent false s
  | None => silent false s
  end.

Definition set_contains (name v : bytes) (s : Structures) : bool :=
  from_option (fun x => bool_decide (v ∈ x)) false (sets s !! name).

Definition set_size (name : bytes) (s : Structures) : Z := from_option (fun x => Z.of_nat (size x)) 0 (sets s !! name).

Definition set_get_all (name : bytes) (s : Structures) : list bytes := from_option set_iter [] (sets s !! name).

Definition set_clear (name : bytes) (s : Structures) : unit * Structures * list Mutation :=
  emits AUX_SET name () (set_sets (alter (fun _ => ∅) name) s).

Definition mm_put (name key value : bytes) (s : Structures) : bool * Structures * list Mutation :=
  let mm := default ∅ (multimaps s !! name) in
  let values := default [] (mm !! key) in
  let added := bool_decide (value ∉ values) in
  emits AUX_MULTIMAP name added
    (set_multimaps <[name := <[key := if added then values ++ [value] else values]> mm]> s).

Definition mm_get (name key : bytes) (s : Structures) : list bytes :=
  default [] (mm ← multimaps s !! name; mm !! key).

Definition mm_remove (name key : bytes) (s : Structures) : list bytes * Structures * list Mutation :=
  emits AUX_MULTIMAP name (mm_get name key s) (set_multimaps (alter (delete key) name) s).

Definition mm_value_count (name key : bytes) (s : Structures) : Z :=
  from_option blen 0 (mm ← multimaps s !! name; mm !! key).

Definition mm_size (name : bytes) (s : Structures) : Z :=
  from_option (fun mm : gmap bytes (list bytes) => foldr Z.add 0 (map (fun p => blen p.2) (map_iter mm))) 0 (multimaps s !! name).

Definition mm_install (name key : bytes) (values : list bytes) (s : Structures) : Structures :=
  match values, multimaps s !! name with
  | [], Some mm =>
    let mm := delete key mm in
    set_multimaps (fun m => if bool_decide (mm = ∅) then delete name m else <[name := mm]> m) s
  | [], None => s
  | _, mm => set_multimaps <[name := <[key := values]> (default ∅ mm)]> s
  end.

Fixpoint keys_on (partition count : Z) (l : list (bytes * list bytes)) : outcome (list (bytes * list bytes)) :=
  match l with
  | [] => Ok []
  | (key, values) :: l =>
    p ← partition_id key count;
    rest ← keys_on partition count l;
    Ok (if p =? partition then (key, values) :: rest else rest)
  end.

Fixpoint maps_on (partition count : Z) (l : list (bytes * gmap bytes (list bytes))) : outcome (list (bytes * bytes * list bytes)) :=
  match l with
  | [] => Ok []
  | (name, mm) :: l =>
    mine ← keys_on partition count (map_iter mm);
    rest ← maps_on partition count l;
    Ok (map (fun '(key, values) => (name, key, values)) mine ++ rest)
  end.

Definition mm_entries_for_partition (partition count : Z) (s : Structures) : outcome (list (bytes * bytes * list bytes)) :=
  maps_on partition count (map_iter (multimaps s)).

Definition queue_offer (q v : bytes) (s : Structures) : bool * Structures * list Mutation :=
  emits AUX_QUEUE q true (set_queues (fun m => <[q := default [] (m !! q) ++ [v]]> m) s).

Definition queue_poll (q : bytes) (s : Structures) : option bytes * Structures * list Mutation :=
  match queues s !! q with
  | Some (v :: d) => emits AUX_QUEUE q (Some v) (set_queues <[q := d]> s)
  | _ => silent None s
  end.

Definition queue_peek (q : bytes) (s : Structures) : option bytes := d ← queues s !! q; head d.

Definition queue_size (q : bytes) (s : Structures) : Z := from_option blen 0 (queues s !! q).

Definition queue_remove (q v : bytes) (s : Structures) : bool * Structures * list Mutation :=
  match queues s !! q ≫= remove_first v with
  | Some d => emits AUX_QUEUE q true (set_queues <[q := d]> s)
  | None => silent false s
  end.

Definition queue_contains (q v : bytes) (s : Structures) : bool :=
  from_option (fun d => bool_decide (v ∈ d)) false (queues s !! q).

Definition queue_clear (q : bytes) (s : Structures) : unit * Structures * list Mutation :=
  emits AUX_QUEUE q () (set_queues (alter (fun _ => []) q) s).

Definition queue_is_empty (q : bytes) (s : Structures) : bool := queue_size q s =? 0.

Definition new_ring : Ring := mk_ring [] 0 (-1) 10000.

Definition rb_add_inner (v : bytes) (r : Ring) : Ring :=
  let tail := wrap_i64 (r_tail r + 1) in
  let items := r_items r ++ [v] in
  if r_cap r <? blen items then mk_ring (drop 1 items) (wrap_i64 (r_head r + 1)) tail (r_cap r)
  else mk_ring items (r_head r) tail (r_cap r).

Definition rb_add (name v : bytes) (s : Structures) : Z * Structures * list Mutation :=
  let r := rb_add_inner v (default new_ring (ringbuffers s !! name)) in
  emits AUX_RINGBUFFER name (r_tail r) (set_ringbuffers <[name := r]> s).

Definition rb_read_one (name : bytes) (seq : Z) (s : Structures) : option bytes :=
  r ← ringbuffers s !! name;
  if (seq <? r_head r) || (r_tail r <? seq) then None
  else let i := wrap_u64 (wrap_i64 (seq - r_head r)) in
       if i <? blen (r_items r) then r_items r !! Z.to_nat i else None.

Definition rb_size (name : bytes) (s : Structures) : Z := from_option (fun r => blen (r_items r)) 0 (ringbuffers s !! name).
Definition rb_capacity (name : bytes) (s : Structures) : Z := from_option r_cap 10000 (ringbuffers s !! name).
Definition rb_tail (name : bytes) (s : Structures) : Z := from_option r_tail (-1) (ringbuffers s !! name).
Definition rb_head (name : bytes) (s : Structures) : Z := from_option r_head 0 (ringbuffers s !! name).

(** The process's logical clock: [fetch_add]. *)
Definition pn_tick (clock : Z) : Z * Z := (wrap_i64 (clock + 1), clock).

Definition pn_get (name : bytes) (s : Structures) : Z := default 0 (pncounters s !! name).

Definition pn_add (name : bytes) (delta : Z) (get_before : bool) (s : Structures) : Z * Structures * list Mutation :=
  let old := pn_get name s in
  let new := wrap_i64 (old + delta) in
  emits AUX_PNCOUNTER name (if get_before then old else new) (set_pncounters <[name := new]> s).

Definition hll_add (name : bytes) (hash : Z) (s : Structures) : outcome (unit * Structures * list Mutation) :=
  h ← add hash (default new_hll (hlls s !! name));
  Ok (emits AUX_HLL name () (set_hlls <[name := h]> s)).

Definition flake_batch (name : bytes) (batch : Z) (s : Structures) : (Z * Z * Z) * Structures * list Mutation :=
  let batch := Z.max batch 1 in
  let base := default 1 (flake s !! name) in
  silent (base, 1, batch) (set_flake <[name := wrap_i64 (base + batch)]> s).

End Structures.
