(* ===== verification/AuxRun.v ===== *)
(** * The byte forms of the store's structures restore them; replaying the log rebuilds the structures *)

From S2P Require Import Prelude WalRecord Hll Partition AuxStore.

(** A list of at most [n] blobs, each with a length that fits its prefix. *)
Definition vecs_ok (n : Z) (l : list bytes) : Prop := blen l <= n /\ Forall (fun x => blen x < 2 ^ 32) l.

Lemma vecs_ok_mono n n' l : n <= n' -> vecs_ok n l -> vecs_ok n' l.
Proof. intros Hn [Hl Hx]. split; [lia | done]. Qed.

Lemma vecs_nil n : 0 <= n -> vecs_ok n [].
Proof. split; [by rewrite blen_nil | constructor]. Qed.

Lemma vecs_ok_snoc n l v : vecs_ok n l -> blen v < 2 ^ 32 -> vecs_ok (n + 1) (l ++ [v]).
Proof. intros [Hl Hx] Hv. split; [rewrite blen_app; unfold blen in *; cbn; lia |]. apply Forall_app. by repeat constructor. Qed.

Lemma vecs_ok_sub n l l' : vecs_ok n l -> l' `sublist_of` l -> vecs_ok n l'.
Proof.
  intros [Hl Hx] Hs. split; [apply sublist_length in Hs; unfold blen in *; lia |].
  rewrite Forall_forall in *. intros x Hin. apply Hx. by eapply elem_of_sublist.
Qed.

Lemma vecs_ok_perm n l l' : l ≡ₚ l' -> vecs_ok n l -> vecs_ok n l'.
Proof. intros Hp [Hl Hx]. split; [unfold blen in *; by rewrite <- Hp | by rewrite <- Hp]. Qed.

Lemma dec_items_ok l fuel rest :
  Forall (fun x => blen x < 2 ^ 32) l -> (length l <= fuel)%nat ->
  dec_items fuel (blen l) (concat (map (put_lp 4) l) ++ rest) = (l, rest).
Proof.
  revert fuel. induction l as [| x l IH]; intros fuel Hx Hf; [destruct fuel; done |].
  destruct fuel as [| fuel]; [cbn in Hf; lia |]. apply Forall_cons in Hx as [Hx Hl]. cbn [length] in Hf.
  cbn [dec_items map concat]. rewrite blen_cons. rewrite (proj2 (Z.leb_gt _ _)) by (pose proof (blen_nonneg l); lia).
  unfold put_lp at 1. rewrite <- !app_assoc, get_u32_to_le by (pose proof (blen_nonneg x); unfold is_u32; lia).
  rewrite take_n_app. replace (1 + blen l - 1) with (blen l) by lia. rewrite IH; [done | done | lia].
Qed.

Lemma dec_enc_vecs n l rest : vecs_ok n l -> n < 2 ^ 32 -> dec_vecs (enc_vecs l ++ rest) = (l, rest).
Proof.
  intros [Hl Hx] Hn. unfold dec_vecs, enc_vecs. rewrite <- app_assoc, get_u32_to_le by (pose proof (blen_nonneg l); unfold is_u32; lia).
  apply dec_items_ok; [done |]. rewrite length_app. clear Hl. induction l as [| x l IH]; [cbn; lia |].
  cbn [map concat length]. unfold put_lp at 1. rewrite !length_app, length_to_le. apply Forall_cons in Hx as [_ Hx]. specialize (IH Hx). lia.
Qed.

Lemma dec_enc_vecs' n l : vecs_ok n l -> n < 2 ^ 32 -> dec_vecs (enc_vecs l) = (l, []).
Proof. intros Hl Hn. rewrite <- (app_nil_r (enc_vecs l)). by eapply dec_enc_vecs. Qed.

(** Inserting pairs with distinct keys one after the other. *)
Lemma insert_list {A} (l : list (bytes * A)) (m0 : gmap bytes A) :
  NoDup l.*1 -> foldl (fun m p => <[p.1 := p.2]> m) m0 l = list_to_map l ∪ m0.
Proof.
  revert m0. induction l as [| [k v] l IH]; intros m0 Hnd; cbn [foldl]; [symmetry; apply (left_id_L ∅ (∪)) |].
  apply NoDup_cons in Hnd as [Hk Hnd]. rewrite (IH _ Hnd), list_to_map_cons. cbn [fst snd].
  by rewrite <- insert_union_l, insert_union_r by (by apply not_elem_of_list_to_map).
Qed.

(** Inserting the pairs of a map, in any order, rebuilds the map. *)
Lemma insert_all {A} (m m0 : gmap bytes A) l : l ≡ₚ map_to_list m -> foldl (fun m p => <[p.1 := p.2]> m) m0 l = m ∪ m0.
Proof.
  intros Hp. assert (NoDup l.*1) as Hnd by (rewrite Hp; apply NoDup_fst_map_to_list).
  rewrite insert_list by done. f_equal. rewrite <- (list_to_map_to_list m). by apply list_to_map_proper.
Qed.

Section Facts.
Context {I : Iteration}.

Definition mm_ok (n : Z) (mm : gmap bytes (list bytes)) : Prop :=
  Z.of_nat (size mm) <= n /\ map_Forall (fun k vs => blen k < 2 ^ 32 /\ vecs_ok n vs) mm.

Lemma dec_multimap_ok n l fuel rest mm0 :
  Forall (fun p : bytes * list bytes => blen p.1 < 2 ^ 32 /\ vecs_ok n p.2) l -> n < 2 ^ 32 -> (length l <= fuel)%nat ->
  dec_multimap fuel (blen l) (concat (map (fun '(k, vs) => put_lp 4 k ++ enc_vecs vs) l) ++ rest) mm0
    = foldl (fun m p => <[p.1 := p.2]> m) mm0 l.
Proof.
  intros Hl Hn. revert fuel mm0. induction l as [| [k vs] l IH]; intros fuel mm0 Hf; [destruct fuel; done |].
  destruct fuel as [| fuel]; [cbn in Hf; lia |]. apply Forall_cons in Hl as [[Hk Hvs] Hl]. cbn [length] in Hf.
  cbn [dec_multimap map concat]. rewrite blen_cons, (proj2 (Z.leb_gt _ _)) by (pose proof (blen_nonneg l); lia).
  cbn [fst snd] in Hk, Hvs. unfold put_lp at 1, get_lp.
  rewrite <- !app_assoc, get_u32_to_le by (pose proof (blen_nonneg k); unfold is_u32; lia).
  cbn [mbind option_bind]. rewrite take_n_app, (dec_enc_vecs n) by done.
  replace (1 + blen l - 1) with (blen l) by lia. rewrite (IH Hl) by lia. done.
Qed.

Lemma map_iter_Forall {A} (P : bytes * A -> Prop) m : map_Forall (fun k v => P (k, v)) m -> Forall P (map_iter m).
Proof. intros Hm. rewrite map_iter_perm. apply Forall_forall. intros [k v] Hin. apply Hm. by apply elem_of_map_to_list. Qed.

Lemma dec_multimap_bytes n mm : mm_ok n mm -> n < 2 ^ 32 ->
  exists r, get_u 4 (multimap_bytes mm) = Some (blen (map_iter mm), r) /\ dec_multimap (length r) (blen (map_iter mm)) r ∅ = mm.
Proof.
  intros [Hs Hm] Hn. assert (blen (map_iter mm) = Z.of_nat (size mm)) as Hlen.
  { unfold blen. rewrite map_iter_perm, length_map_to_list. done. }
  eexists. split; [unfold multimap_bytes; apply get_u32_to_le; unfold is_u32; lia |].
  rewrite <- (app_nil_r (concat _)). rewrite (dec_multimap_ok n); [| | done |].
  - rewrite (insert_all mm) by apply map_iter_perm. apply (right_id_L ∅ (∪)).
  - apply map_iter_Forall. done.
  - rewrite app_nil_r. clear Hlen. induction (map_iter mm) as [| [k vs] l IH]; [cbn; lia |]. cbn [map concat length]. unfold put_lp.
    rewrite !length_app, length_to_le. unfold put_lp in IH. lia.
Qed.

Definition ring_ok (n : Z) (r : Ring) : Prop := vecs_ok n (r_items r) /\ is_i64 (r_head r) /\ is_i64 (r_tail r) /\ is_i64 (r_cap r).

Lemma dec_ring_bytes n r : ring_ok n r -> n < 2 ^ 32 -> dec_ring (ring_bytes r) = Some r.
Proof.
  intros (Hi & Hh & Ht & Hc) Hn. unfold dec_ring, ring_bytes.
  rewrite get_i64_to_le by done. cbn [mbind option_bind]. rewrite get_i64_to_le by done. cbn [mbind option_bind].
  rewrite get_i64_to_le by done. cbn [mbind option_bind]. rewrite (dec_enc_vecs' n) by done. by destruct r.
Qed.

Lemma from_to_bytes h : length (regs h) = M -> from_bytes (to_bytes h) = h.
Proof.
  intros Hl. unfold from_bytes, to_bytes. rewrite Hl, Nat.min_id, take_ge, drop_ge, app_nil_r by (rewrite ?length_replicate; lia).
  by destruct h.
Qed.

End Facts.

(** * Runs of the store's structures: the log rebuilds them, snapshots keep most of them *)

(** A mutation by a client. *)
Inductive call :=
| ListAdd (name v : bytes) | ListRemove (name v : bytes) | ListClear (name : bytes)
| SetAdd (name v : bytes) | SetRemove (name v : bytes) | SetClear (name : bytes)
| MmPut (name key v : bytes) | MmRemove (name key : bytes)
| QueueOffer (name v : bytes) | QueuePoll (name : bytes) | QueueRemove (name v : bytes) | QueueClear (name : bytes)
| RbAdd (name v : bytes) | PnAdd (name : bytes) (delta : Z) | HllAdd (name : bytes) (hash : Z)
| FlakeBatch (name : bytes) (batch : Z).

Section Runs.
Context {I : Iteration}.

Definition serve (c : call) (s : Structures) : outcome (Structures * list Mutation) :=
  let quiet {R} (x : R * Structures * list Mutation) := Ok (x.1.2, x.2) in
  match c with
  | ListAdd n v => quiet (list_add n v s) | ListRemove n v => quiet (list_remove n v s) | ListClear n => quiet (list_clear n s)
  | SetAdd n v => quiet (set_add n v s) | SetRemove n v => quiet (set_remove n v s) | SetClear n => quiet (set_clear n s)
  | MmPut n k v => quiet (mm_put n k v s) | MmRemove n k => quiet (mm_remove n k s)
  | QueueOffer n v => quiet (queue_offer n v s) | QueuePoll n => quiet (queue_poll n s)
  | QueueRemove n v => quiet (queue_remove n v s) | QueueClear n => quiet (queue_clear n s)
  | RbAdd n v => quiet (rb_add n v s) | PnAdd n d => quiet (pn_add n d false s)
  | HllAdd n h => x ← hll_add n h s; quiet x
  | FlakeBatch n b => quiet (flake_batch n b s)
  end.

Fixpoint serve_all (cs : list call) (s : Structures) : outcome (Structures * list Mutation) :=
  match cs with
  | [] => Ok (s, [])
  | c :: cs => '(s, w) ← serve c s; '(s, w') ← serve_all cs s; Ok (s, w ++ w')
  end.

(** Recovery's treatment of an aux record. *)
Definition replay_aux (s : Structures) (m : Mutation) : Structures :=
  match m with Aux a => install_aux (u8 (a_kind a)) (a_name a) (a_state a) s | _ => s end.

(** Lengths fit their 32-bit prefixes, integers their width. *)
Definition call_ok (c : call) : Prop :=
  match c with
  | ListAdd _ v | SetAdd _ v | QueueOffer _ v | RbAdd _ v => blen v < 2 ^ 32
  | MmPut _ k v => blen k < 2 ^ 32 /\ blen v < 2 ^ 32
  | HllAdd _ h => is_u64 h
  | _ => True
  end.

(** After at most [n] calls. *)
Record sized (n : Z) (s : Structures) : Prop := {
  sz_queues : map_Forall (fun _ => vecs_ok n) (queues s);
  sz_lists : map_Forall (fun _ => vecs_ok n) (lists s);
  sz_sets : map_Forall (fun _ x => vecs_ok n (elements x)) (sets s);
  sz_multimaps : map_Forall (fun _ => mm_ok n) (multimaps s);
  sz_rings : map_Forall (fun _ => ring_ok n) (ringbuffers s);
  sz_counters : map_Forall (fun _ => is_i64) (pncounters s);
  sz_sketches : map_Forall (fun _ h => length (regs h) = M) (hlls s)
}.

(** The same contents for every client: an absent queue, list or set is an empty one. *)
Record agree (r s : Structures) : Prop := {
  ag_queues : forall n, default [] (queues r !! n) = default [] (queues s !! n);
  ag_lists : forall n, default [] (lists r !! n) = default [] (lists s !! n);
  ag_sets : forall n, default ∅ (sets r !! n) = default ∅ (sets s !! n);
  ag_multimaps : multimaps r = multimaps s;
  ag_rings : ringbuffers r = ringbuffers s;
  ag_counters : pncounters r = pncounters s;
  ag_sketches : hlls r = hlls s
}.

Lemma mm_ok_mono n n' mm : n <= n' -> mm_ok n mm -> mm_ok n' mm.
Proof. intros Hn [Hs Hm]. split; [lia |]. eapply map_Forall_impl; [exact Hm |]. intros k vs [? ?]. split; [done | by eapply vecs_ok_mono]. Qed.

Lemma ring_ok_mono n n' r : n <= n' -> ring_ok n r -> ring_ok n' r.
Proof. intros Hn [? ?]. split; [by eapply vecs_ok_mono | done]. Qed.

Lemma sized_mono n n' s : n <= n' -> sized n s -> sized n' s.
Proof.
  intros Hn [? ? ? ? ? ? ?]. split; try done; (eapply map_Forall_impl; [eassumption |]); cbn; intros;
    [eapply vecs_ok_mono | eapply vecs_ok_mono | eapply vecs_ok_mono | eapply mm_ok_mono | eapply ring_ok_mono]; eauto.
Qed.

Lemma sized_nothing : sized 0 no_structures.
Proof. split; apply map_Forall_empty. Qed.

(** A map that differs from another at one name. *)
Definition touches {A} (name : bytes) (m m' : gmap bytes A) : Prop := forall n, n <> name -> m' !! n = m !! n.

Lemma touches_insert {A} (name : bytes) (m : gmap bytes A) (x : A) : touches name m (<[name := x]> m).
Proof. intros n Hn. by apply lookup_insert_ne. Qed.

Lemma touches_alter {A} (name : bytes) (m : gmap bytes A) (f : A -> A) : touches name m (alter f name m).
Proof. intros n Hn. by apply lookup_alter_ne. Qed.

Lemma touches_Forall {A} (P : A -> Prop) (name : bytes) (m m' : gmap bytes A) :
  touches name m m' -> map_Forall (fun _ => P) m -> from_option P True (m' !! name) -> map_Forall (fun _ => P) m'.
Proof.
  intros Ht Hm Hn k x Hk. destruct (decide (k = name)) as [-> | Hne]; [by rewrite Hk in Hn |].
  apply (Hm k). by rewrite <- (Ht k Hne).
Qed.

(** A map that agrees with [m] off [name], given [m']'s entry, is [m']. *)
Lemma touches_rebuild {A} (name : bytes) (m m' : gmap bytes A) x : touches name m m' -> m' !! name = Some x -> <[name := x]> m = m'.
Proof. intros Ht Hx. apply map_eq. intros n. destruct (decide (n = name)) as [-> | Hn]; [by rewrite lookup_insert_eq | by rewrite lookup_insert_ne, (Ht n)]. Qed.

Lemma touches_none {A} (name : bytes) (m m' : gmap bytes A) : touches name m m' -> m' !! name = None -> m !! name = None -> m' = m.
Proof. intros Ht H1 H2. apply map_eq. intros n. destruct (decide (n = name)) as [-> | Hn]; [congruence | by apply Ht]. Qed.

(** ** One mutation: the record it emits carries the change *)

Definition tracks (n : Z) (r s : Structures) (w : list Mutation) : Prop := sized n s /\ agree (foldl replay_aux r w) s.

Section Emit.
Context (n : Z) (r s : Structures) (Hsz : sized n s) (Hag : agree r s) (Hn : n < 2 ^ 32) (name : bytes).

Lemma emit_queue f : touches name (queues s) (f (queues s)) -> from_option (vecs_ok n) True (f (queues s) !! name) ->
  tracks n r (set_queues f s) (emit_aux AUX_QUEUE name (set_queues f s)).
Proof.
  intros Ht Hok. destruct Hsz, Hag. split; [split; try done; by eapply touches_Forall |]. split; try done.
  intros k. cbn [emit_aux foldl replay_aux a_kind a_name a_state]. change (u8 (b8 AUX_QUEUE)) with AUX_QUEUE.
  destruct (decide (k = name)) as [-> | Hk].
  - cbn -[dec_vecs]. rewrite lookup_insert_eq. destruct (f (queues s) !! name) as [l |]; cbn -[dec_vecs]; [by rewrite (dec_enc_vecs' n) | done].
  - cbn -[dec_vecs]. rewrite lookup_insert_ne, (Ht k) by done. apply ag_queues0.
Qed.

Lemma emit_list f : touches name (lists s) (f (lists s)) -> from_option (vecs_ok n) True (f (lists s) !! name) ->
  tracks n r (set_lists f s) (emit_aux AUX_LIST name (set_lists f s)).
Proof.
  intros Ht Hok. destruct Hsz, Hag. split; [split; try done; by eapply touches_Forall |]. split; try done.
  intros k. cbn [emit_aux foldl replay_aux a_kind a_name a_state]. change (u8 (b8 AUX_LIST)) with AUX_LIST.
  destruct (decide (k = name)) as [-> | Hk].
  - cbn -[dec_vecs]. rewrite lookup_insert_eq. destruct (f (lists s) !! name) as [l |]; cbn -[dec_vecs]; [by rewrite (dec_enc_vecs' n) | done].
  - cbn -[dec_vecs]. rewrite lookup_insert_ne, (Ht k) by done. apply ag_lists0.
Qed.

Lemma emit_set f : touches name (sets s) (f (sets s)) -> from_option (fun x => vecs_ok n (elements x)) True (f (sets s) !! name) ->
  tracks n r (set_sets f s) (emit_aux AUX_SET name (set_sets f s)).
Proof.
  intros Ht Hok. destruct Hsz, Hag. split; [split; try done; by eapply (touches_Forall (fun x => vecs_ok n (elements x))) |]. split; try done.
  intros k. cbn [emit_aux foldl replay_aux a_kind a_name a_state]. change (u8 (b8 AUX_SET)) with AUX_SET.
  destruct (decide (k = name)) as [-> | Hk].
  - cbn -[dec_vecs]. rewrite lookup_insert_eq. destruct (f (sets s) !! name) as [l |]; cbn -[dec_vecs]; [| done]. cbn in Hok.
    rewrite (dec_enc_vecs' n); [| | done]; [| eapply vecs_ok_perm; [symmetry; apply set_iter_perm | done]]. cbn [fst].
    apply set_eq. intros x. rewrite elem_of_list_to_set, set_iter_perm. apply elem_of_elements.
  - cbn -[dec_vecs]. rewrite lookup_insert_ne, (Ht k) by done. apply ag_sets0.
Qed.

Lemma emit_multimap f : touches name (multimaps s) (f (multimaps s)) -> from_option (mm_ok n) True (f (multimaps s) !! name) ->
  (f (multimaps s) !! name = None -> multimaps s !! name = None) ->
  tracks n r (set_multimaps f s) (emit_aux AUX_MULTIMAP name (set_multimaps f s)).
Proof.
  intros Ht Hok Hnone. destruct Hsz, Hag. split; [split; try done; by eapply touches_Forall |].
  cbn [emit_aux foldl replay_aux a_kind a_name a_state]. change (u8 (b8 AUX_MULTIMAP)) with AUX_MULTIMAP.
  cbn -[get_u dec_multimap multimap_bytes]. destruct (f (multimaps s) !! name) as [mm |] eqn:E; cbn -[get_u dec_multimap multimap_bytes].
  - destruct (dec_multimap_bytes n mm Hok Hn) as (b & -> & ->). split; try done. cbn. rewrite ag_multimaps0. by apply touches_rebuild.
  - change (get_u 4 []) with (None : option (Z * bytes)). split; try done. cbn. rewrite ag_multimaps0. symmetry. eapply touches_none; eauto.
Qed.

Lemma emit_ring x : ring_ok n x ->
  tracks n r (set_ringbuffers <[name := x]> s) (emit_aux AUX_RINGBUFFER name (set_ringbuffers <[name := x]> s)).
Proof.
  intros Hok. destruct Hsz, Hag. split; [split; try done; by apply map_Forall_insert_2 |].
  cbn [emit_aux foldl replay_aux a_kind a_name a_state]. change (u8 (b8 AUX_RINGBUFFER)) with AUX_RINGBUFFER.
  cbn -[dec_ring ring_bytes]. rewrite lookup_insert_eq. cbn -[dec_ring ring_bytes]. rewrite (dec_ring_bytes n) by done.
  split; try done. cbn. by rewrite ag_rings0.
Qed.

Lemma emit_counter v : is_i64 v ->
  tracks n r (set_pncounters <[name := v]> s) (emit_aux AUX_PNCOUNTER name (set_pncounters <[name := v]> s)).
Proof.
  intros Hok. destruct Hsz, Hag. split; [split; try done; by apply map_Forall_insert_2 |].
  cbn [emit_aux foldl replay_aux a_kind a_name a_state]. change (u8 (b8 AUX_PNCOUNTER)) with AUX_PNCOUNTER.
  cbn -[get_i]. rewrite lookup_insert_eq. cbn -[get_i]. rewrite <- (app_nil_r (to_le 8 v)), get_i64_to_le by done.
  split; try done. cbn. by rewrite ag_counters0.
Qed.

Lemma emit_sketch h : length (regs h) = M ->
  tracks n r (set_hlls <[name := h]> s) (emit_aux AUX_HLL name (set_hlls <[name := h]> s)).
Proof.
  intros Hok. destruct Hsz, Hag. split; [split; try done; by apply (map_Forall_insert_2 (fun _ h => length (regs h) = M)) |].
  cbn [emit_aux foldl replay_aux a_kind a_name a_state]. change (u8 (b8 AUX_HLL)) with AUX_HLL.
  cbn -[from_bytes to_bytes]. rewrite lookup_insert_eq. cbn -[from_bytes to_bytes]. rewrite from_to_bytes by done.
  split; try done. cbn. by rewrite ag_sketches0.
Qed.

Lemma no_emit : tracks n r s [].
Proof. by split. Qed.

End Emit.

(** ** Every call *)

Lemma vecs_default (n : Z) (m : gmap bytes (list bytes)) (name : bytes) : 0 <= n -> map_Forall (fun _ => vecs_ok n) m -> vecs_ok n (default [] (m !! name)).
Proof. intros Hn Hm. destruct (m !! name) as [l |] eqn:E; cbn; [by apply (Hm name) | apply vecs_nil; lia]. Qed.

Lemma remove_first_ok (n : Z) v l l' : vecs_ok n l -> remove_first v l = Some l' -> vecs_ok n l'.
Proof.
  intros Hl H. unfold remove_first in H. destruct (list_find _ l) as [[i x] |]; [| done]. injection H as <-.
  eapply vecs_ok_sub; [done | apply sublist_delete].
Qed.

Lemma vecs_set (n : Z) (x : gset bytes) : vecs_ok n (elements x) <-> Z.of_nat (size x) <= n /\ forall y, y ∈ x -> blen y < 2 ^ 32.
Proof. unfold vecs_ok. rewrite Forall_forall. setoid_rewrite elem_of_elements. done. Qed.

Lemma mm_put_ok (n : Z) k vs mm : mm_ok n mm -> blen k < 2 ^ 32 -> vecs_ok (n + 1) vs -> mm_ok (n + 1) (<[k := vs]> mm).
Proof.
  intros Hmm Hk Hvs. pose proof (mm_ok_mono n (n + 1) mm ltac:(lia) Hmm) as [_ Hm]. destruct Hmm as [Hs _]. split.
  - rewrite map_size_insert. destruct (mm !! k); cbn; lia.
  - by apply map_Forall_insert_2.
Qed.

Lemma mm_delete_ok (n : Z) k mm : mm_ok n mm -> mm_ok n (delete k mm).
Proof. intros [Hs Hm]. split; [rewrite map_size_delete; destruct (mm !! k); cbn; lia | by apply map_Forall_delete]. Qed.

Lemma rb_add_inner_ok (n : Z) v x : ring_ok n x -> blen v < 2 ^ 32 -> ring_ok (n + 1) (rb_add_inner v x).
Proof.
  intros (Hi & Hh & Ht & Hc) Hv. pose proof (vecs_ok_snoc n _ v Hi Hv) as Hs. unfold rb_add_inner.
  destruct (r_cap x <? _); split_and!; cbn [r_items r_head r_tail r_cap]; try done; try apply wrap_i64_range.
  eapply vecs_ok_sub; [exact Hs | apply sublist_drop].
Qed.

Lemma sketch_add_ok hash h : is_u64 hash -> length (regs h) = M -> post (add hash h) (fun h' => length (regs h') = M).
Proof.
  intros Hh Hl. unfold add. pose proof (register_lt hash Hh). eapply post_bind; [apply post_index; lia |]. intros x _.
  destruct (_ <? _); [| done]. eapply post_bind; [apply post_set_index; lia |]. intros k ->. cbn [post regs]. by rewrite length_insert.
Qed.

Lemma set_add_ok (n : Z) s (name v : bytes) : 0 <= n -> sized n s -> blen v < 2 ^ 32 ->
  vecs_ok (n + 1) (elements ({[v]} ∪ default ∅ (sets s !! name))).
Proof.
  intros Hn0 Hsz Hc.
  assert (vecs_ok n (elements (default ∅ (sets s !! name)))) as [Hs Hx]%vecs_set.
  { destruct (sets s !! name) as [x |] eqn:E; cbn; [by eapply (sz_sets _ _ Hsz) |]. rewrite elements_empty. apply vecs_nil; lia. }
  apply vecs_set. split; [| set_solver]. pose proof (size_union_alt {[v]} (default ∅ (sets s !! name))) as Hu.
  rewrite Hu, size_singleton. pose proof (subseteq_size (default ∅ (sets s !! name) ∖ {[v]}) (default ∅ (sets s !! name)) ltac:(set_solver)). lia.
Qed.

Lemma mm_add_ok (n : Z) s (name key v : bytes) : 0 <= n -> sized n s -> blen key < 2 ^ 32 -> blen v < 2 ^ 32 ->
  let mm := default ∅ (multimaps s !! name) in
  let values := default [] (mm !! key) in
  mm_ok (n + 1) (<[key := if bool_decide (v ∉ values) then values ++ [v] else values]> mm).
Proof.
  intros Hn0 Hsz Hk Hv. cbn zeta.
  assert (mm_ok n (default ∅ (multimaps s !! name))) as Hmm.
  { destruct (multimaps s !! name) as [x |] eqn:E; cbn; [by eapply (sz_multimaps _ _ Hsz) |]. split; [rewrite map_size_empty; lia | apply map_Forall_empty]. }
  apply mm_put_ok; [done.. |].
  assert (vecs_ok n (default [] (default ∅ (multimaps s !! name) !! key))) as Hvs.
  { destruct (_ !! key) as [l |] eqn:E; cbn; [by eapply (proj2 Hmm) in E as [_ E] |]. apply vecs_nil; lia. }
  case_bool_decide; [by apply vecs_ok_snoc | eapply vecs_ok_mono; [| exact Hvs]; lia].
Qed.

Lemma aux_serve_ok (n : Z) r s c : 0 <= n -> n + 1 < 2 ^ 32 -> sized n s -> agree r s -> call_ok c ->
  post (serve c s) (fun '(s', w) => tracks (n + 1) r s' w).
Proof.
  intros Hn0 Hn Hsz Hag Hc. pose proof (sized_mono n (n + 1) s ltac:(lia) Hsz) as Hsz'.
  pose proof (no_emit (n + 1) r s Hsz' Hag) as Hquiet. destruct c; cbn [serve post call_ok] in *.
  - apply emit_list; [done.. | apply touches_insert |]. rewrite lookup_insert_eq. cbn. apply vecs_ok_snoc; [| done]. by apply vecs_default, (sz_lists _ _ Hsz).
  - unfold list_remove. destruct (_ ≫= _) as [l |] eqn:E; [| exact Hquiet]. apply bind_Some in E as (l0 & E0 & E).
    apply emit_list; [done.. | apply touches_insert |]. rewrite lookup_insert_eq. cbn. eapply remove_first_ok; [| exact E]. by eapply (sz_lists _ _ Hsz').
  - apply emit_list; [done.. | apply touches_alter |]. rewrite lookup_alter_eq. destruct (lists s !! name); cbn; [| done]. apply vecs_nil; lia.
  - apply emit_set; [done.. | apply touches_insert |]. rewrite lookup_insert_eq. cbn.
    by apply set_add_ok.
  - unfold set_remove. destruct (sets s !! name) as [x |] eqn:E; [| exact Hquiet]. case_bool_decide; [| exact Hquiet].
    apply emit_set; [done.. | apply touches_insert |]. rewrite lookup_insert_eq. cbn.
    assert (vecs_ok (n + 1) (elements x)) as [Hs Hx]%vecs_set by (by eapply (sz_sets _ _ Hsz')). apply vecs_set. split; [| set_solver].
    pose proof (subseteq_size (x ∖ {[v]}) x ltac:(set_solver)). lia.
  - apply emit_set; [done.. | apply touches_alter |]. rewrite lookup_alter_eq. destruct (sets s !! name); cbn; [| done].
    rewrite elements_empty. apply vecs_nil; lia.
  - destruct Hc as [Hk Hv]. apply emit_multimap; [done.. | apply touches_insert | | by rewrite lookup_insert_eq]. rewrite lookup_insert_eq. cbn.
    by apply mm_add_ok.
  - apply emit_multimap; [done.. | apply touches_alter | |]; rewrite lookup_alter_eq; destruct (multimaps s !! name) as [mm |] eqn:E; cbn; try done.
    apply mm_delete_ok. by eapply (sz_multimaps _ _ Hsz').
  - apply emit_queue; [done.. | apply touches_insert |]. rewrite lookup_insert_eq. cbn. apply vecs_ok_snoc; [| done]. by apply vecs_default, (sz_queues _ _ Hsz).
  - unfold queue_poll. destruct (queues s !! name) as [[| v d] |] eqn:E; [exact Hquiet | | exact Hquiet].
    apply emit_queue; [done.. | apply touches_insert |]. rewrite lookup_insert_eq. cbn. eapply vecs_ok_sub; [by eapply (sz_queues _ _ Hsz') | by apply sublist_cons].
  - unfold queue_remove. destruct (_ ≫= _) as [l |] eqn:E; [| exact Hquiet]. apply bind_Some in E as (l0 & E0 & E).
    apply emit_queue; [done.. | apply touches_insert |]. rewrite lookup_insert_eq. cbn. eapply remove_first_ok; [| exact E]. by eapply (sz_queues _ _ Hsz').
  - apply emit_queue; [done.. | apply touches_alter |]. rewrite lookup_alter_eq. destruct (queues s !! name); cbn; [| done]. apply vecs_nil; lia.
  - apply emit_ring; [done.. |]. apply rb_add_inner_ok; [| done].
    destruct (ringbuffers s !! name) as [x |] eqn:E; cbn [default]; [by eapply (sz_rings _ _ Hsz) |]. split_and!; try done; apply vecs_nil; lia.
  - apply emit_counter; [done.. |]. apply wrap_i64_range.
  - unfold hll_add.
    assert (length (regs (default new_hll (hlls s !! name))) = M) as Hl.
    { destruct (hlls s !! name) as [x |] eqn:E; cbn [default]; [by eapply (sz_sketches _ _ Hsz) | apply length_replicate]. }
    destruct (proj1 (post_Ok _ _) (sketch_add_ok hash _ Hc Hl)) as (h & -> & Hh). cbn [mbind outcome_bind post]. by apply emit_sketch.
  - destruct Hsz', Hag. by split; split.
Qed.

Lemma aux_serve_all_ok n r s cs : 0 <= n -> n + blen cs < 2 ^ 32 -> sized n s -> agree r s -> Forall call_ok cs ->
  exists s' w, serve_all cs s = Ok (s', w) /\ tracks (n + blen cs) r s' w.
Proof.
  revert n r s. induction cs as [| c cs IH]; intros n r s Hn0 Hn Hsz Hag Hcs.
  { exists s, []. rewrite blen_nil, Z.add_0_r. split; [done | by split]. }
  rewrite blen_cons in *. pose proof (blen_nonneg cs). apply Forall_cons in Hcs as [Hc Hcs].
  destruct (proj1 (post_Ok _ _) (aux_serve_ok n r s c Hn0 ltac:(lia) Hsz Hag Hc)) as ([s1 w1] & E1 & Hsz1 & Hag1).
  destruct (IH (n + 1) _ s1 ltac:(lia) ltac:(lia) Hsz1 Hag1 Hcs) as (s2 & w2 & E2 & Hsz2 & Hag2).
  exists s2, (w1 ++ w2). cbn [serve_all]. rewrite E1. cbn [mbind outcome_bind]. rewrite E2. split; [done |].
  replace (n + (1 + blen cs)) with (n + 1 + blen cs) by lia. split; [done |]. by rewrite foldl_app.
Qed.

(** C15. The log rebuilds the structures: whatever calls are made on an empty store, replaying the records
    they emitted into an empty store gives every queue, list, set, multimap, ringbuffer, counter and
    sketch the contents it had, and no call panics. *)
Theorem log_rebuilds_structures cs :
  Forall call_ok cs -> blen cs < 2 ^ 32 ->
  exists s w, serve_all cs no_structures = Ok (s, w) /\ agree (foldl replay_aux no_structures w) s.
Proof.
  intros Hcs Hlen. destruct (aux_serve_all_ok 0 no_structures no_structures cs ltac:(lia) ltac:(lia) sized_nothing ltac:(by split) Hcs) as (s & w & E & _ & H).
  eauto.
Qed.

(** ** Snapshots *)

Definition load_all (l : list (Z * bytes * bytes)) (s : Structures) : Structures :=
  foldl (fun s '(kind, name, data) => install_aux kind name data s) s l.

Lemma load_kind {A} (kind : Z) (get : Structures -> gmap bytes A) (set : (gmap bytes A -> gmap bytes A) -> Structures -> Structures) (s r : Structures) :
  (forall name x r, get s !! name = Some x -> install_aux kind name (serialize_aux kind name s) r = set <[name := x]> r) ->
  (forall f g r, set f (set g r) = set (f ∘ g) r) -> (forall r, set id r = r) -> (forall f g r, (forall m, f m = g m) -> set f r = set g r) ->
  load_all (map (fun name => (kind, name, serialize_aux kind name s)) (map_iter (get s)).*1) r = set (fun m => get s ∪ m) r.
Proof.
  intros Hi Hc Hid Hext. assert (Forall (fun p => get s !! p.1 = Some p.2) (map_iter (get s))) as Hl by (apply map_iter_Forall; by intros k x Hk).
  transitivity (set (fun m => foldl (fun m p => <[p.1 := p.2]> m) m (map_iter (get s))) r).
  - revert r. induction (map_iter (get s)) as [| [k x] l IH]; intros r; [symmetry; apply Hid |].
    apply Forall_cons in Hl as [Hk Hl]. cbn [fmap list_fmap map load_all foldl fst]. rewrite (Hi k x r Hk). unfold load_all in IH. rewrite (IH Hl), Hc. done.
  - apply Hext. intros m. apply insert_all, map_iter_perm.
Qed.

(** What a snapshot keeps of the structures. *)
Definition kept (s : Structures) : Structures :=
  mk_structures (queues s) (sets s) (multimaps s) (lists s) (ringbuffers s) (pncounters s) ∅ ∅.

Lemma load_all_aux (n : Z) s : sized n s -> n < 2 ^ 32 -> load_all (all_aux s) no_structures = kept s.
Proof.
  intros Hsz Hn. unfold all_aux, load_all. rewrite !foldl_app. fold load_all.
  change (foldl (fun s '(kind, name, data) => install_aux kind name data s)) with (fun s l => load_all l s). cbn beta.
  rewrite (load_kind AUX_QUEUE queues set_queues), (load_kind AUX_LIST lists set_lists), (load_kind AUX_SET sets set_sets),
    (load_kind AUX_MULTIMAP multimaps set_multimaps), (load_kind AUX_RINGBUFFER ringbuffers set_ringbuffers),
    (load_kind AUX_PNCOUNTER pncounters set_pncounters); try done; try (intros f g r0 Hfg; destruct r0; cbv [set_queues set_lists set_sets set_multimaps set_ringbuffers set_pncounters]; cbn; by rewrite Hfg); try (by intros []).
  - unfold kept, set_queues, set_lists, set_sets, set_multimaps, set_ringbuffers, set_pncounters, no_structures.
    cbn [queues lists sets multimaps ringbuffers pncounters hlls flake]. by rewrite !(right_id_L ∅ (∪)).
  - intros name x r Hx. unfold install_aux, serialize_aux. cbn -[get_i]. rewrite Hx. cbn -[get_i].
    rewrite <- (app_nil_r (to_le 8 x)), get_i64_to_le by (by apply (sz_counters _ _ Hsz name)). done.
  - intros name x r Hx. unfold install_aux, serialize_aux. cbn -[dec_ring ring_bytes]. rewrite Hx. cbn -[dec_ring ring_bytes].
    rewrite (dec_ring_bytes n); [done | by apply (sz_rings _ _ Hsz name) | done].
  - intros name x r Hx. unfold install_aux, serialize_aux. cbn -[get_u dec_multimap multimap_bytes]. rewrite Hx. cbn -[get_u dec_multimap multimap_bytes].
    destruct (dec_multimap_bytes n x (sz_multimaps _ _ Hsz name x Hx) Hn) as (b & -> & ->). done.
  - intros name x r Hx. unfold install_aux, serialize_aux. cbn -[dec_vecs]. rewrite Hx. cbn -[dec_vecs].
    rewrite (dec_enc_vecs' n); [| eapply vecs_ok_perm; [symmetry; apply set_iter_perm | by apply (sz_sets _ _ Hsz name)] | done]. cbn [fst].
    do 2 f_equal. apply set_eq. intros y. rewrite elem_of_list_to_set, set_iter_perm. apply elem_of_elements.
  - intros name x r Hx. unfold install_aux, serialize_aux. cbn -[dec_vecs]. rewrite Hx. cbn -[dec_vecs].
    rewrite (dec_enc_vecs' n); [done | by apply (sz_lists _ _ Hsz name) | done].
  - intros name x r Hx. unfold install_aux, serialize_aux. cbn -[dec_vecs]. rewrite Hx. cbn -[dec_vecs].
    rewrite (dec_enc_vecs' n); [done | by apply (sz_queues _ _ Hsz name) | done].
Qed.

(** A snapshot restores the queues, lists, sets, multimaps, ringbuffers and counters exactly, and loses every
    cardinality sketch and id generator: they are not among the structures it writes. *)
Theorem snapshot_drops_sketches cs :
  Forall call_ok cs -> blen cs < 2 ^ 32 ->
  exists s w, serve_all cs no_structures = Ok (s, w) /\ load_all (all_aux s) no_structures = kept s.
Proof.
  intros Hcs Hlen. destruct (aux_serve_all_ok 0 no_structures no_structures cs ltac:(lia) ltac:(lia) sized_nothing ltac:(by split) Hcs) as (s & w & E & Hs & _).
  exists s, w. split; [done |]. eapply load_all_aux; [exact Hs | lia].
Qed.

(** ** Ringbuffers *)

(** The values the calls add to one ringbuffer. *)
Definition added (name : bytes) (cs : list call) : list bytes :=
  omap (fun c => match c with RbAdd n v => if decide (n = name) then Some v else None | _ => None end) cs.

(** The ring after [vs] were added to a new one: the last ten thousand, numbered from the first. *)
Definition ring_of (vs : list bytes) : Ring :=
  mk_ring (drop (length vs - Z.to_nat 10000) vs) (Z.max 0 (blen vs - 10000)) (blen vs - 1) 10000.

Lemma ring_of_snoc vs v : blen vs < 2 ^ 63 - 1 -> rb_add_inner v (ring_of vs) = ring_of (vs ++ [v]).
Proof.
  intros Hlen. pose proof (blen_nonneg vs). unfold rb_add_inner, ring_of. cbn [r_tail r_items r_cap r_head].
  rewrite !blen_app, length_app. change (blen [v]) with 1. cbn [length].
  replace (wrap_i64 (blen vs - 1 + 1)) with (blen vs + 1 - 1) by (rewrite wrap_i64_small; [lia | unfold is_i64; lia]).
  unfold blen at 1. rewrite length_drop. destruct (Z.ltb_spec 10000 (Z.of_nat (length vs - (length vs - Z.to_nat 10000)) + 1)) as [Hf | Hf].
  - unfold blen in *. f_equal; [| rewrite wrap_i64_small; [lia | unfold is_i64; lia]].
    rewrite <- drop_app_le by lia. rewrite drop_drop. f_equal. lia.
  - unfold blen in *. f_equal; [| lia]. rewrite <- drop_app_le by lia. f_equal. lia.
Qed.

Lemma serve_ring c s s' w name : serve c s = Ok (s', w) ->
  ringbuffers s' !! name =
    match added name [c] with [v] => Some (rb_add_inner v (default new_ring (ringbuffers s !! name))) | _ => ringbuffers s !! name end.
Proof.
  destruct c as [| | | | | | | | | | | | n v | | n hash |]; cbn [serve]; intros H; inv_ok; try done.
  - unfold list_remove. by destruct (_ ≫= _).
  - unfold set_remove. destruct (sets s !! _); [| done]. by case_bool_decide.
  - unfold queue_poll. by destruct (queues s !! _) as [[| ? ?] |].
  - unfold queue_remove. by destruct (_ ≫= _).
  - cbn. case_decide as Hn; [subst n; by rewrite lookup_insert_eq | by rewrite lookup_insert_ne].
  - unfold hll_add in E. inv_ok. done.
Qed.

Definition ring_holds (name : bytes) (vs : list bytes) (s : Structures) : Prop :=
  ringbuffers s !! name = match vs with [] => None | _ => Some (ring_of vs) end.

Lemma added_cons name c cs : added name (c :: cs) = added name [c] ++ added name cs.
Proof. unfold added. cbn. destruct c; try done. by case_decide. Qed.

Lemma added_length name cs : (length (added name cs) <= length cs)%nat.
Proof.
  induction cs as [| c cs IH]; [done |]. rewrite added_cons, length_app. cbn [length].
  assert (length (added name [c]) <= 1)%nat by (unfold added; cbn; destruct c; cbn; try lia; case_decide; cbn; lia). lia.
Qed.

Lemma serve_all_ring name cs vs s s' w : serve_all cs s = Ok (s', w) -> ring_holds name vs s -> blen vs + blen cs < 2 ^ 63 - 1 ->
  ring_holds name (vs ++ added name cs) s'.
Proof.
  revert vs s w. induction cs as [| c cs IH]; intros vs s w H Hr Hlen; [cbn in *; inv_ok; by rewrite app_nil_r |].
  rewrite added_cons, app_assoc. cbn [serve_all] in H. apply outcome_bind_Ok in H as ([s0 l0] & E & H). apply outcome_bind_Ok in H as ([s1 l1] & E0 & H). injection H as <- _.
  rewrite blen_cons in Hlen. pose proof (blen_nonneg cs).
  assert (added name [c] = [] \/ exists v, added name [c] = [v]) as Hc.
  { unfold added. cbn. destruct c; auto. case_decide; eauto. }
  apply serve_ring with (name := name) in E. eapply IH; [done | |].
  - unfold ring_holds in *. rewrite E, Hr. destruct Hc as [-> | [v ->]]; [by rewrite app_nil_r |].
    assert (default new_ring (match vs with [] => None | _ => Some (ring_of vs) end) = ring_of vs) as -> by (by destruct vs).
    rewrite ring_of_snoc by lia. by destruct vs.
  - rewrite blen_app. destruct Hc as [-> | [v ->]]; rewrite ?blen_nil, ?blen_cons, ?blen_nil; lia.
Qed.

Lemma ring_of_read vs seq : blen vs < 2 ^ 63 -> is_i64 seq ->
  let r := ring_of vs in let i := wrap_u64 (wrap_i64 (seq - r_head r)) in
  (if (seq <? r_head r) || (r_tail r <? seq) then None else if i <? blen (r_items r) then r_items r !! Z.to_nat i else None)
    = if Z.max 0 (blen vs - 10000) <=? seq then vs !! Z.to_nat seq else None.
Proof.
  intros Hlen Hseq. cbn [ring_of r_head r_tail r_items]. unfold is_i64 in Hseq. pose proof (blen_nonneg vs) as Hn0.
  destruct (Z.ltb_spec seq (Z.max 0 (blen vs - 10000))), (Z.leb_spec (Z.max 0 (blen vs - 10000)) seq); try lia; [done |]. cbn [orb].
  destruct (Z.ltb_spec (blen vs - 1) seq).
  { symmetry. apply lookup_ge_None. unfold blen in *. lia. }
  rewrite wrap_i64_small by (unfold is_i64; lia). rewrite wrap_u64_small by (unfold is_u64; lia).
  rewrite lookup_drop. unfold blen at 2. rewrite length_drop.
  rewrite (proj2 (Z.ltb_lt _ _)) by (unfold blen in *; lia). f_equal. unfold blen in *. lia.
Qed.

(** A ringbuffer keeps the last ten thousand values added to it, each under the sequence number it was added
    with, whatever other calls come between; older numbers and numbers not yet given read as nothing. *)
Theorem ringbuffer_keeps_the_latest name cs s w :
  blen cs < 2 ^ 62 -> serve_all cs no_structures = Ok (s, w) ->
  let n := blen (added name cs) in
  rb_tail name s = n - 1 /\ rb_head name s = Z.max 0 (n - 10000)
  /\ forall seq, is_i64 seq -> rb_read_one name seq s = if Z.max 0 (n - 10000) <=? seq then added name cs !! Z.to_nat seq else None.
Proof.
  intros Hlen H. pose proof (serve_all_ring name cs [] no_structures s w H (lookup_empty _)) as Hr. rewrite blen_nil in Hr. specialize (Hr ltac:(lia)).
  cbn [app] in Hr. unfold rb_tail, rb_head, rb_read_one, ring_holds in *. rewrite Hr. pose proof (added_length name cs) as Hal.
  assert (blen (added name cs) < 2 ^ 63) as Hvs by (unfold blen in *; lia). clear Hr Hal.
  destruct (added name cs) as [| v vs]; cbn zeta.
  - split_and!; try done. intros seq _. cbn [mbind option_bind]. by destruct (_ <=? seq).
  - split_and!; [done.. |]. intros seq Hseq. by apply ring_of_read.
Qed.

End Runs.

(** ** Runs *)

Definition ex_calls : list call :=
  [ListAdd (bstr "l") (bstr "a"); QueueOffer (bstr "q") (bstr "x"); QueueOffer (bstr "q") (bstr "y"); QueuePoll (bstr "q");
   SetAdd (bstr "s") (bstr "a"); SetAdd (bstr "s") (bstr "a"); MmPut (bstr "m") (bstr "k") (bstr "v"); RbAdd (bstr "r") (bstr "e");
   RbAdd (bstr "r") (bstr "f"); PnAdd (bstr "c") 5; HllAdd (bstr "h") 77; ListClear (bstr "none"); FlakeBatch (bstr "ids") 10].

Lemma ex_calls_ok : Forall call_ok ex_calls.
Proof. repeat (apply Forall_cons; split; [vm_compute; intuition discriminate |]). constructor. Qed.

Lemma log_rebuilds_structures_witness :
  exists s w, serve_all (I := by_keys) ex_calls no_structures = Ok (s, w) /\ agree (foldl replay_aux no_structures w) s.
Proof. apply (log_rebuilds_structures (I := by_keys) ex_calls); [apply ex_calls_ok | reflexivity]. Defined.

Lemma snapshot_drops_sketches_witness :
  exists s w, serve_all (I := by_keys) ex_calls no_structures = Ok (s, w) /\ load_all (all_aux (I := by_keys) s) no_structures = kept s.
Proof. apply (snapshot_drops_sketches (I := by_keys) ex_calls); [apply ex_calls_ok | reflexivity]. Defined.

Definition ex_ring_calls : list call := [RbAdd (bstr "r") (bstr "e"); ListAdd (bstr "r") (bstr "z"); RbAdd (bstr "r") (bstr "f")].

Lemma ringbuffer_keeps_the_latest_witness :
  exists s w, serve_all (I := by_keys) ex_ring_calls no_structures = Ok (s, w) /\ rb_read_one (bstr "r") 1 s = Some (bstr "f").
Proof.
  eexists _, _. split; [reflexivity |].
  destruct (ringbuffer_keeps_the_latest (I := by_keys) (bstr "r") ex_ring_calls _ _ ltac:(reflexivity) eq_refl) as (_ & _ & H).
  rewrite H by (unfold is_i64; lia). reflexivity.
Defined.

(** An id generator starts again from 1 after a restart: it is neither logged nor in a snapshot, and ids it has
    handed out are handed out a second time. *)
Theorem flake_ids_repeat_after_recovery (I : Iteration) name batch :
  exists s w, serve_all [FlakeBatch name batch] no_structures = Ok (s, w)
    /\ (flake_batch name batch no_structures).1.1 = (flake_batch name batch (foldl replay_aux (load_all (all_aux s) no_structures) w)).1.1.
Proof. eexists _, _. split; [reflexivity |]. rewrite load_all_aux with (n := 0); [done | | lia]. split; apply map_Forall_empty. Qed.

(** ** Two threads add to the same list

    A mutation takes the structure's lock, changes the structure and releases the lock; [emit_aux] then takes it
    again to serialize, and calls the sink after that. *)

Inductive adder := Start | Mutated | Serialized (ms : list Mutation) | Done.

Definition add_step `{Iteration} (name v : bytes) (t : adder) (st : Structures * list Mutation) : adder * (Structures * list Mutation) :=
  match t with
  | Start => (Mutated, ((list_add name v st.1).1.2, st.2))
  | Mutated => (Serialized (emit_aux AUX_LIST name st.1), st)
  | Serialized ms => (Done, (st.1, st.2 ++ ms))
  | Done => (Done, st)
  end.

(** A schedule says which thread moves; the first adds [a], the second [b]. *)
Fixpoint race `{Iteration} (name a b : bytes) (sched : list bool) (ta tb : adder) (st : Structures * list Mutation) :
    adder * adder * (Structures * list Mutation) :=
  match sched with
  | [] => (ta, tb, st)
  | true :: sched => let '(ta, st) := add_step name a ta st in race name a b sched ta tb st
  | false :: sched => let '(tb, st) := add_step name b tb st in race name a b sched ta tb st
  end.

(** The records of two concurrent mutations can reach the log in the order opposite to that in which their
    states were taken: both clients are answered, the list holds both values, and the log rebuilds it with
    one. *)
Theorem late_record_loses_update :
  exists sched s w, race (H := by_keys) (bstr "l") (bstr "a") (bstr "b") sched Start Start (no_structures, []) = (Done, Done, (s, w))
    /\ list_get_all (bstr "l") s = [bstr "a"; bstr "b"] /\ list_get_all (bstr "l") (foldl replay_aux no_structures w) = [bstr "a"].
Proof.
  exists [true; true; false; false; false; true]. eexists _, _. split; [reflexivity |]. split; vm_compute; reflexivity.
Qed.
