(* ===== verification/KeyLocks.v ===== *)
(** * Per-key locks (crates/store/src/lib.rs: [LockState] and the methods on [locks]) *)

From S2P Require Import Prelude.

(** A waiter is a connection, the correlation id of its request, and a thread id. *)
Record LockState := mk_lock { owner : Z; count : Z; waiters : list (Z * Z * Z) }.

Abbreviation Locks := (gmap (bytes * bytes) LockState).

Definition try_lock (m key : bytes) (tid : Z) (g : Locks) : bool * Locks :=
  match g !! (m, key) with
  | Some s =>
    if owner s =? tid then (true, <[(m, key) := mk_lock (owner s) (wrap_u32 (count s + 1)) (waiters s)]> g) else (false, g)
  | None => (true, <[(m, key) := mk_lock tid 1 []]> g)
  end.

Definition lock_or_wait (m key : bytes) (tid conn_id corr : Z) (g : Locks) : bool * Locks :=
  match g !! (m, key) with
  | Some s =>
    if owner s =? tid then (true, <[(m, key) := mk_lock (owner s) (wrap_u32 (count s + 1)) (waiters s)]> g)
    else (false, <[(m, key) := mk_lock (owner s) (count s) (waiters s ++ [(conn_id, corr, tid)])]> g)
  | None => (true, <[(m, key) := mk_lock tid 1 []]> g)
  end.

(** Hand the lock to the first waiter, or drop it. *)
Definition pass_on (m key : bytes) (s : LockState) (g : Locks) : option (Z * Z) * Locks :=
  match waiters s with
  | (c, corr, wtid) :: rest => (Some (c, corr), <[(m, key) := mk_lock wtid 1 rest]> g)
  | [] => (None, delete (m, key) g)
  end.

Definition unlock (m key : bytes) (tid : Z) (g : Locks) : option (Z * Z) * Locks :=
  match g !! (m, key) with
  | Some s =>
    if owner s =? tid then
      let count' := wrap_u32 (count s - 1) in
      if count' =? 0 then pass_on m key s g else (None, <[(m, key) := mk_lock (owner s) count' (waiters s)]> g)
    else (None, g)
  | None => (None, g)
  end.

Definition is_locked (m key : bytes) (g : Locks) : bool := bool_decide (is_Some (g !! (m, key))).

Definition force_unlock (m key : bytes) (g : Locks) : option (Z * Z) * Locks :=
  match g !! (m, key) with Some s => pass_on m key s g | None => (None, g) end.

(** ** What clients see of one lock *)

Inductive op :=
| TryLock (m key : bytes) (tid : Z)
| Lock (m key : bytes) (tid conn_id corr : Z)
| Unlock (m key : bytes) (tid : Z)
| ForceUnlock (m key : bytes).

Definition op_key (o : op) : bytes * bytes :=
  match o with TryLock m k _ | Lock m k _ _ _ | Unlock m k _ | ForceUnlock m k => (m, k) end.

(** A thread was told that it has the lock; a request was queued; a queued request was answered, and
    its thread has the lock; a thread released once; the lock was forced open. *)
Inductive event :=
| Granted (tid : Z)
| Queued (who : Z * Z * Z)
| Woken (who : Z * Z) (tid : Z)
| Released (tid : Z)
| Forced.

Definition owner_of (k : bytes * bytes) (g : Locks) : Z := from_option owner 0 (g !! k).

Definition wake (k : bytes * bytes) (r : option (Z * Z) * Locks) : Locks * list event :=
  (r.2, match r.1 with Some who => [Woken who (owner_of k r.2)] | None => [] end).

(** One request: the new locks, and what happened to the lock it names. *)
Definition step (o : op) (g : Locks) : Locks * list event :=
  match o with
  | TryLock m k tid => let r := try_lock m k tid g in (r.2, if r.1 then [Granted tid] else [])
  | Lock m k tid conn_id corr =>
    let r := lock_or_wait m k tid conn_id corr g in (r.2, if r.1 then [Granted tid] else [Queued (conn_id, corr, tid)])
  | Unlock m k tid => let '(g', w) := wake (m, k) (unlock m k tid g) in (g', Released tid :: w)
  | ForceUnlock m k => let '(g', w) := wake (m, k) (force_unlock m k g) in (g', Forced :: w)
  end.

(** The history of the lock [k]. *)
Fixpoint run (k : bytes * bytes) (os : list op) (g : Locks) : Locks * list event :=
  match os with
  | [] => (g, [])
  | o :: os =>
    let '(g, h) := step o g in
    let '(g, h') := run k os g in
    (g, (if bool_decide (op_key o = k) then h else []) ++ h')
  end.

(** How often a thread that was given the lock has still to release it. *)
Definition holds (t : Z) (n : Z) (e : event) : Z :=
  match e with
  | Granted t' | Woken _ t' => if t' =? t then n + 1 else n
  | Released t' => if t' =? t then Z.max 0 (n - 1) else n
  | Forced => 0
  | Queued _ => n
  end.

Definition held (t : Z) (h : list event) : Z := foldl (holds t) 0 h.

Definition queued (h : list event) : list (Z * Z * Z) := omap (fun e => match e with Queued w => Some w | _ => None end) h.
Definition woken (h : list event) : list (Z * Z * Z) := omap (fun e => match e with Woken (c, corr) t => Some (c, corr, t) | _ => None end) h.

(** ** The invariant of a lock and its history *)

Definition lock_inv (n : Z) (l : option LockState) (h : list event) : Prop :=
  match l with
  | None => (forall t, held t h = 0) /\ queued h = woken h
  | Some s => 0 < count s <= n /\ (forall t, held t h = if owner s =? t then count s else 0) /\ queued h = woken h ++ waiters s
  end.

Lemma held_app t h e : held t (h ++ e) = foldl (holds t) (held t h) e.
Proof. apply foldl_app. Qed.

Lemma lock_inv_mono n n' l h : n <= n' -> lock_inv n l h -> lock_inv n' l h.
Proof. intros Hn. destruct l; cbn; [intros (? & ? & ?); split_and!; try done; lia | done]. Qed.

Lemma pass_on_inv (m k : bytes) s g h pre (e : event) :
  g !! (m, k) = Some s -> queued h = woken h ++ waiters s -> queued [e] = [] -> woken [e] = [] ->
  (forall t, held t (h ++ [e]) = 0) ->
  pre = wake (m, k) (pass_on m k s g) ->
  lock_inv 1 (pre.1 !! (m, k)) (h ++ e :: pre.2).
Proof.
  intros Hk Hq Heq Hew Hz ->. unfold pass_on. destruct (waiters s) as [| [[c corr] wt] rest] eqn:Ew; cbn [wake fst snd].
  - rewrite lookup_delete_eq. cbn. split; [done |]. unfold queued, woken in *. rewrite !omap_app. rewrite Heq, Hew, Hq, !app_nil_r. done.
  - unfold owner_of. rewrite !lookup_insert_eq. cbn [from_option owner lock_inv count waiters]. split_and!; [lia | lia | |].
    + intros t. change (e :: [Woken (c, corr) wt]) with ([e] ++ [Woken (c, corr) wt]). rewrite app_assoc, held_app, Hz. cbn. destruct (wt =? t); done.
    + change (e :: [Woken (c, corr) wt]) with ([e] ++ [Woken (c, corr) wt]). unfold queued, woken in *. rewrite !omap_app, Heq, Hew, Hq. cbn.
      by rewrite !app_nil_r, <- app_assoc.
Qed.

Lemma queued_app h e : queued (h ++ e) = queued h ++ queued e.
Proof. apply omap_app. Qed.

Lemma woken_app h e : woken (h ++ e) = woken h ++ woken e.
Proof. apply omap_app. Qed.

(** A reentrant or first grant. *)
Lemma grant_inv n l h tid ws :
  lock_inv n l h -> n + 1 < 2 ^ 32 -> 0 <= n ->
  match l with Some s => owner s = tid /\ ws = waiters s | None => ws = [] end ->
  lock_inv (n + 1) (Some (mk_lock tid (from_option (fun s => wrap_u32 (count s + 1)) 1 l) ws)) (h ++ [Granted tid]).
Proof.
  intros Hi Hn Hn0 Hl. destruct l as [s |]; cbn in *.
  - destruct Hl as [<- ->], Hi as (Hc & Hh & Hq). rewrite wrap_u32_small by (unfold is_u32; lia). split_and!; [lia.. | |].
    + intros t. rewrite held_app, Hh. cbn. by destruct (owner s =? t).
    + by rewrite queued_app, woken_app, Hq, !app_nil_r.
  - subst ws. destruct Hi as (Hh & Hq). split_and!; [lia.. | |].
    + intros t. rewrite held_app, Hh. cbn. by destruct (tid =? t).
    + by rewrite queued_app, woken_app, Hq, !app_nil_r.
Qed.

Lemma released_inv n l h tid :
  lock_inv n l h -> (forall s, l = Some s -> owner s <> tid) -> lock_inv n l (h ++ [Released tid]).
Proof.
  intros Hi Hne. destruct l as [s |]; cbn in *.
  - destruct Hi as (Hc & Hh & Hq). split_and!; try lia; [| by rewrite queued_app, woken_app, Hq, !app_nil_r].
    intros t. rewrite held_app, Hh. cbn. pose proof (Hne s eq_refl).
    destruct (Z.eqb_spec tid t), (Z.eqb_spec (owner s) t); try done; congruence.
  - destruct Hi as (Hh & Hq). split; [| by rewrite queued_app, woken_app, Hq, !app_nil_r].
    intros t. rewrite held_app, Hh. cbn. by destruct (tid =? t).
Qed.

Lemma lock_step_inv n o g h :
  0 <= n -> n + 1 < 2 ^ 32 -> lock_inv n (g !! op_key o) h ->
  lock_inv (n + 1) ((step o g).1 !! op_key o) (h ++ (step o g).2).
Proof.
  intros Hn0 Hn Hi. pose proof (lock_inv_mono n (n + 1) _ _ ltac:(lia) Hi) as Hi'.
  destruct o as [m k tid | m k tid c corr | m k tid | m k]; cbn [op_key step] in *.
  - unfold try_lock. destruct (g !! (m, k)) as [s |] eqn:E; [destruct (Z.eqb_spec (owner s) tid) as [Ho | Ho] |]; cbn [fst snd].
    + rewrite lookup_insert_eq. rewrite Ho. by apply (grant_inv n (Some s)).
    + by rewrite E, app_nil_r.
    + rewrite lookup_insert_eq. by apply (grant_inv n None).
  - unfold lock_or_wait. destruct (g !! (m, k)) as [s |] eqn:E; [destruct (Z.eqb_spec (owner s) tid) as [Ho | Ho] |]; cbn [fst snd].
    + rewrite lookup_insert_eq. rewrite Ho. by apply (grant_inv n (Some s)).
    + rewrite lookup_insert_eq. destruct Hi' as (Hc & Hh & Hq). split_and!; [by apply Hc.. | |].
      * intros t. by rewrite held_app, Hh.
      * rewrite queued_app, woken_app, Hq. cbn. by rewrite app_nil_r, <- app_assoc.
    + rewrite lookup_insert_eq. by apply (grant_inv n None).
  - destruct (g !! (m, k)) as [s |] eqn:E; [destruct (Z.eqb_spec (owner s) tid) as [Ho | Ho] |].
    + cbn in Hi. destruct Hi as (Hc & Hh & Hq). assert (wrap_u32 (count s - 1) = count s - 1) as Hw by (apply wrap_u32_small; unfold is_u32; lia).
      unfold unlock. rewrite E, (proj2 (Z.eqb_eq _ _) Ho), Hw. destruct (Z.eqb_spec (count s - 1) 0) as [H1 | H1].
      * destruct (wake (m, k) (pass_on m k s g)) as [g' w] eqn:Ew. eapply lock_inv_mono; [| eapply (pass_on_inv m k s g h (g', w)); try done]; [lia |].
        intros t. rewrite held_app, Hh. cbn. subst tid. destruct (owner s =? t); lia.
      * cbn [wake fst snd]. rewrite lookup_insert_eq. split_and!; cbn [count owner waiters]; [lia.. | |].
        -- intros t. rewrite held_app, Hh. cbn. subst tid. destruct (owner s =? t); lia.
        -- by rewrite queued_app, woken_app, Hq, !app_nil_r.
    + unfold unlock. rewrite E, (proj2 (Z.eqb_neq _ _) Ho). cbn [wake fst snd]. rewrite E. apply released_inv; [done | by intros ? [= <-]].
    + unfold unlock. rewrite E. cbn [wake fst snd]. rewrite E. by apply released_inv.
  - unfold force_unlock. destruct (g !! (m, k)) as [s |] eqn:E.
    + destruct (wake (m, k) (pass_on m k s g)) as [g' w] eqn:Ew. eapply lock_inv_mono; [| eapply (pass_on_inv m k s g h (g', w)); try done]; [lia | apply Hi |].
      intros t. by rewrite held_app.
    + cbn [wake fst snd]. rewrite E. destruct Hi as (Hh & Hq). split; [intros t; by rewrite held_app |]. by rewrite queued_app, woken_app, Hq, !app_nil_r.
Qed.

Lemma pass_on_other m k s g k' : k' <> (m, k) -> (pass_on m k s g).2 !! k' = g !! k'.
Proof. intros Hk. unfold pass_on. destruct (waiters s) as [| [[? ?] ?] ?]; cbn; [by rewrite lookup_delete_ne | by rewrite lookup_insert_ne]. Qed.

Lemma step_other o g k : op_key o <> k -> (step o g).1 !! k = g !! k.
Proof.
  intros Hk. destruct o as [m k0 tid | m k0 tid c corr | m k0 tid | m k0]; cbn [op_key step] in *;
    unfold try_lock, lock_or_wait, unlock, force_unlock; destruct (g !! (m, k0)) as [s |] eqn:E;
    repeat match goal with |- context [if ?b then _ else _] => destruct b end; cbn [fst snd wake];
    rewrite ?lookup_insert_ne, ?pass_on_other by done; done.
Qed.

Lemma run_inv n k os g h :
  0 <= n -> n + blen os < 2 ^ 32 -> lock_inv n (g !! k) h ->
  lock_inv (n + blen os) ((run k os g).1 !! k) (h ++ (run k os g).2).
Proof.
  revert n g h. induction os as [| o os IH]; intros n g h Hn0 Hn Hi; [by rewrite blen_nil, Z.add_0_r, app_nil_r |].
  rewrite blen_cons in *. pose proof (blen_nonneg os). cbn [run].
  destruct (step o g) as [g1 h1] eqn:E1. destruct (run k os g1) as [g2 h2] eqn:E2. cbn [fst snd].
  replace (n + (1 + blen os)) with (n + 1 + blen os) by lia. rewrite app_assoc.
  specialize (IH (n + 1) g1). rewrite E2 in IH. apply IH; [lia | lia |]. case_bool_decide as Hk.
  - subst k. pose proof (lock_step_inv n o g h Hn0 ltac:(lia) Hi) as Hs. by rewrite E1 in Hs.
  - rewrite app_nil_r. pose proof (step_other o g k Hk) as Ho. rewrite E1 in Ho. cbn in Ho. rewrite Ho. eapply lock_inv_mono; [| exact Hi]. lia.
Qed.

(** C33. A key's lock is exclusive and fair: after any sequence of requests, on any keys, at most one thread
    id has been given the lock without having released it as often; the blocked requests are
    answered in the order they were queued, each once; and while one waits, somebody holds the lock. *)
Theorem key_lock_is_exclusive k os g h :
  blen os < 2 ^ 32 -> run k os ∅ = (g, h) ->
  (forall t t', 0 < held t h -> 0 < held t' h -> t = t')
  /\ (exists waiting, queued h = woken h ++ waiting /\ (waiting <> [] -> exists t, 0 < held t h))
  /\ (is_locked k.1 k.2 g = true <-> exists t, 0 < held t h).
Proof.
  intros Hn Hr. pose proof (run_inv 0 k os ∅ [] ltac:(lia) ltac:(lia)) as Hi. rewrite lookup_empty, Hr in Hi. cbn [app fst snd] in Hi.
  specialize (Hi (conj (fun _ => eq_refl) eq_refl)). unfold is_locked. rewrite <- surjective_pairing.
  destruct (g !! k) as [s |]; cbn in Hi.
  - destruct Hi as (Hc & Hh & Hq). split_and!.
    + intros t t'. rewrite !Hh. destruct (Z.eqb_spec (owner s) t), (Z.eqb_spec (owner s) t'); lia.
    + exists (waiters s). split; [done |]. intros _. exists (owner s). rewrite Hh, Z.eqb_refl. lia.
    + split; [| done]. intros _. exists (owner s). rewrite Hh, Z.eqb_refl. lia.
  - destruct Hi as (Hh & Hq). split_and!.
    + intros t t'. rewrite !Hh. lia.
    + exists []. rewrite app_nil_r. split; done.
    + split; [done |]. intros [t Ht]. rewrite Hh in Ht. lia.
Qed.

Definition ex_ops : list op :=
  let m := bstr "m" in let k := bstr "k" in
  [Lock m k 1 10 100; TryLock m k 1; Lock m k 2 11 101; TryLock m k 3; Lock m k 4 12 102; Unlock m k 1; Unlock m k 1; Unlock m k 2].

Lemma key_lock_is_exclusive_witness :
  exists g h, run (bstr "m", bstr "k") ex_ops ∅ = (g, h) /\ queued h = [(11, 101, 2); (12, 102, 4)] /\ woken h = [(11, 101, 2); (12, 102, 4)]
    /\ held 4 h = 1 /\ (forall t, 0 < held t h -> 4 = t).
Proof.
  exists (run (bstr "m", bstr "k") ex_ops ∅).1, (run (bstr "m", bstr "k") ex_ops ∅).2. split; [apply surjective_pairing |]. split_and!; [vm_compute; reflexivity.. |]. intros t.
  apply (proj1 (key_lock_is_exclusive (bstr "m", bstr "k") ex_ops _ _ ltac:(vm_compute; reflexivity) (surjective_pairing _))). vm_compute. reflexivity.
Defined.

(** The owner of a lock is a thread id alone, without the client it is a thread of: when two clients use the
    same thread id, both are told that they have the lock. *)
Theorem lock_shared_between_clients m k tid conn corr conn' corr' :
  exists g g', lock_or_wait m k tid conn corr ∅ = (true, g) /\ lock_or_wait m k tid conn' corr' g = (true, g').
Proof.
  unfold lock_or_wait. rewrite lookup_empty. eexists _, _. split; [done |]. rewrite lookup_insert_eq. cbn [owner]. by rewrite Z.eqb_refl.
Qed.
