(* ===== verification/AuxState.v ===== *)
(** * Moving structures between members (crates/store/src/lib.rs)

    [aux_state_for_partition] packs the structures whose names belong to a partition into one blob,
    [install_aux_state] unpacks it on the member that takes the partition over. *)

From S2P Require Import Prelude WalRecord Hll Partition AuxStore AuxRun.

(** ** Reading: [AuxReader], a result and the unread bytes, kept also when a read fails *)

Definition rd_u8 (b : bytes) : option byte * bytes := match b with [] => (None, b) | x :: r => (Some x, r) end.
Definition rd_u32 (b : bytes) : option Z * bytes := match get_u 4 b with Some (v, r) => (Some v, r) | None => (None, b) end.
Definition rd_i64 (b : bytes) : option Z * bytes := match get_i 8 b with Some (v, r) => (Some v, r) | None => (None, b) end.

Definition rd_blob (b : bytes) : option bytes * bytes :=
  match rd_u32 b with
  | (Some len, r) => match take_n len r with Some (x, r') => (Some x, r') | None => (None, r) end
  | (None, r) => (None, r)
  end.

Definition rd_string (b : bytes) : option bytes * bytes := let '(x, r) := rd_blob b in (from_utf8_lossy <$> x, r).

(** [n] blobs.  Each one takes at least four bytes, so a buffer's length is fuel enough. *)
Fixpoint rd_blobs (fuel : nat) (n : Z) (b : bytes) : option (list bytes) * bytes :=
  if n <=? 0 then (Some [], b) else
  match fuel with
  | O => (None, b)
  | S fuel' =>
    match rd_blob b with
    | (Some x, r) => let '(xs, r) := rd_blobs fuel' (n - 1) r in (cons x <$> xs, r)
    | (None, r) => (None, r)
    end
  end.

Definition rd_seq (b : bytes) : option (list bytes) * bytes :=
  match rd_u32 b with (Some c, r) => rd_blobs (length r) c r | (None, r) => (None, r) end.

(** The keys of a multimap section; [None] is the early [return]. *)
Fixpoint rd_multimap (fuel : nat) (n : Z) (b : bytes) (mm : gmap bytes (list bytes)) : option (gmap bytes (list bytes) * bytes) :=
  if n <=? 0 then Some (mm, b) else
  match fuel with
  | O => None
  | S fuel' =>
    match rd_blob b with
    | (Some key, r) => match rd_seq r with (Some vs, r) => rd_multimap fuel' (n - 1) r (<[key := vs]> mm) | _ => None end
    | _ => None
    end
  end.

(** One section: the state after it and the rest of the blob, or [None] for the early [return]. *)
Definition install_section (b : bytes) (s : Structures) : option (Structures * bytes) :=
  match rd_u8 b with
  | (None, _) => None
  | (Some kind, b) =>
  match rd_string b with
  | (None, _) => None
  | (Some name, b) =>
    let kind := u8 kind in
    if kind =? AUX_LIST then let '(x, b) := rd_seq b in Some (set_lists <[name := default [] x]> s, b)
    else if kind =? AUX_SET then let '(x, b) := rd_seq b in Some (set_sets <[name := list_to_set (default [] x)]> s, b)
    else if kind =? AUX_QUEUE then let '(x, b) := rd_seq b in Some (set_queues <[name := default [] x]> s, b)
    else if kind =? AUX_MULTIMAP then
      match rd_u32 b with
      | (Some kc, b) => '(mm, b) ← rd_multimap (length b) kc b ∅; Some (set_multimaps <[name := mm]> s, b)
      | _ => None
      end
    else if kind =? AUX_RINGBUFFER then
      let '(head, b) := rd_i64 b in
      let '(tail, b) := rd_i64 b in
      let '(cap, b) := rd_i64 b in
      match head, tail, cap with
      | Some head, Some tail, Some cap =>
        let '(x, b) := rd_seq b in Some (set_ringbuffers <[name := mk_ring (default [] x) head tail cap]> s, b)
      | _, _, _ => None
      end
    else if kind =? AUX_PNCOUNTER then
      match rd_i64 b with (Some v, b) => Some (set_pncounters <[name := v]> s, b) | _ => None end
    else if kind =? AUX_FLAKE then
      match rd_i64 b with (Some v, b) => Some (set_flake <[name := v]> s, b) | _ => None end
    else if kind =? AUX_HLL then
      match rd_blob b with (Some x, b) => Some (set_hlls <[name := from_bytes x]> s, b) | _ => None end
    else None
  end end.

(** Every section takes at least five bytes. *)
Fixpoint install_sections (fuel : nat) (n : Z) (b : bytes) (s : Structures) : Structures :=
  if n <=? 0 then s else
  match fuel with
  | O => s
  | S fuel' => match install_section b s with Some (s, b) => install_sections fuel' (n - 1) b s | None => s end
  end.

Definition install_aux_state (b : bytes) (s : Structures) : Structures :=
  match rd_u32 b with (Some n, b) => install_sections (length b) n b s | _ => s end.

(** ** Writing *)

Definition put_u32 (v : Z) : bytes := to_le 4 v.
Definition put_blob (b : bytes) : bytes := put_u32 (blen b) ++ b.

Definition sec_seq (kind : Z) (name : bytes) (items : list bytes) : bytes :=
  b8 kind :: put_blob name ++ put_u32 (blen items) ++ concat (map put_blob items).

Definition ring_section (name : bytes) (r : Ring) : bytes :=
  b8 AUX_RINGBUFFER :: put_blob name ++ to_le 8 (r_head r) ++ to_le 8 (r_tail r) ++ to_le 8 (r_cap r)
    ++ put_u32 (blen (r_items r)) ++ concat (map put_blob (r_items r)).

Definition i64_section (kind : Z) (name : bytes) (v : Z) : bytes := b8 kind :: put_blob name ++ to_le 8 v.
Definition hll_section (name : bytes) (h : Hll) : bytes := b8 AUX_HLL :: put_blob name ++ put_blob (to_bytes h).

(** [.iter().filter(|(k, _)| on(k))] *)
Fixpoint filter_on {A} (partition count : Z) (l : list (bytes * A)) : outcome (list (bytes * A)) :=
  match l with
  | [] => Ok []
  | (name, x) :: l =>
    p ← partition_for_name name count;
    rest ← filter_on partition count l;
    Ok (if p =? partition then (name, x) :: rest else rest)
  end.

Section Write.
Context {I : Iteration}.

Definition aux_state_for_partition (partition count : Z) (s : Structures) : outcome bytes :=
  ls ← filter_on partition count (map_iter (lists s));
  ss ← filter_on partition count (map_iter (sets s));
  qs ← filter_on partition count (map_iter (queues s));
  rs ← filter_on partition count (map_iter (ringbuffers s));
  ps ← filter_on partition count (map_iter (pncounters s));
  fs ← filter_on partition count (map_iter (flake s));
  hs ← filter_on partition count (map_iter (hlls s));
  let secs :=
    map (fun p => sec_seq AUX_LIST p.1 p.2) ls ++ map (fun p => sec_seq AUX_SET p.1 (set_iter p.2)) ss
    ++ map (fun p => sec_seq AUX_QUEUE p.1 p.2) qs ++ map (fun p => ring_section p.1 p.2) rs
    ++ map (fun p => i64_section AUX_PNCOUNTER p.1 p.2) ps ++ map (fun p => i64_section AUX_FLAKE p.1 p.2) fs
    ++ map (fun p => hll_section p.1 p.2) hs in
  Ok (put_u32 (blen secs) ++ concat secs).

End Write.

(** ** What is packed is what is unpacked *)

(** The bytes of a section and what installing it does. *)
Definition encodes (chunk : bytes) (f : Structures -> Structures) : Prop :=
  forall rest s, install_section (chunk ++ rest) s = Some (f s, rest).

Lemma install_sections_ok chunks fs fuel s :
  Forall2 encodes chunks fs -> (length chunks <= fuel)%nat ->
  install_sections fuel (blen chunks) (concat chunks) s = foldl (fun s f => f s) s fs.
Proof.
  intros H. revert fuel s. induction H as [| c f cs fs Hc Hcs IH]; intros fuel s Hf; [by destruct fuel |].
  destruct fuel as [| fuel]; [cbn in Hf; lia |]. cbn [install_sections concat foldl length] in *.
  rewrite blen_cons, (proj2 (Z.leb_gt _ _)) by (pose proof (blen_nonneg cs); lia).
  rewrite Hc. replace (1 + blen cs - 1) with (blen cs) by lia. apply IH. lia.
Qed.

Lemma rd_blob_put x rest : blen x < 2 ^ 32 -> rd_blob (put_blob x ++ rest) = (Some x, rest).
Proof.
  intros Hx. unfold rd_blob, rd_u32, put_blob, put_u32. rewrite <- app_assoc, get_u32_to_le by (pose proof (blen_nonneg x); unfold is_u32; lia).
  by rewrite take_n_app.
Qed.

Definition name_ok (name : bytes) : Prop := utf8_valid name = true /\ blen name < 2 ^ 32.

Lemma rd_string_put x rest : name_ok x -> rd_string (put_blob x ++ rest) = (Some x, rest).
Proof. intros [Hu Hx]. unfold rd_string. rewrite rd_blob_put by done. cbn. by rewrite from_utf8_lossy_valid. Qed.

Lemma rd_blobs_ok l fuel rest : Forall (fun x => blen x < 2 ^ 32) l -> (length l <= fuel)%nat ->
  rd_blobs fuel (blen l) (concat (map put_blob l) ++ rest) = (Some l, rest).
Proof.
  revert fuel. induction l as [| x l IH]; intros fuel Hx Hf; [by destruct fuel |].
  destruct fuel as [| fuel]; [cbn in Hf; lia |]. apply Forall_cons in Hx as [Hx Hl]. cbn [rd_blobs map concat length] in *.
  rewrite blen_cons, (proj2 (Z.leb_gt _ _)) by (pose proof (blen_nonneg l); lia). rewrite <- app_assoc, rd_blob_put by done.
  replace (1 + blen l - 1) with (blen l) by lia. by rewrite IH by (done || lia).
Qed.

Lemma rd_seq_ok n l rest : vecs_ok n l -> n < 2 ^ 32 -> rd_seq (put_u32 (blen l) ++ concat (map put_blob l) ++ rest) = (Some l, rest).
Proof.
  intros [Hl Hx] Hn. unfold rd_seq, rd_u32, put_u32. rewrite get_u32_to_le by (pose proof (blen_nonneg l); unfold is_u32; lia).
  apply rd_blobs_ok; [done |]. clear Hl Hx. induction l as [| x l IH]; [cbn; lia |]. cbn [map concat length].
  rewrite !length_app in *. unfold put_blob at 1, put_u32. rewrite length_app, length_to_le. lia.
Qed.

Lemma rd_i64_ok v rest : is_i64 v -> rd_i64 (to_le 8 v ++ rest) = (Some v, rest).
Proof. intros Hv. unfold rd_i64. by rewrite get_i64_to_le. Qed.

Section Sections.
Context (n : Z) (Hn : n < 2 ^ 32) (name : bytes) (Hname : name_ok name).

Lemma list_section_ok l : vecs_ok n l -> encodes (sec_seq AUX_LIST name l) (set_lists <[name := l]>).
Proof.
  intros Hl rest s. unfold install_section, sec_seq. cbn [app rd_u8]. rewrite <- !app_assoc, rd_string_put by done.
  change (u8 (b8 AUX_LIST)) with AUX_LIST. cbn -[rd_seq put_u32]. by rewrite (rd_seq_ok n).
Qed.

Lemma queue_section_ok l : vecs_ok n l -> encodes (sec_seq AUX_QUEUE name l) (set_queues <[name := l]>).
Proof.
  intros Hl rest s. unfold install_section, sec_seq. cbn [app rd_u8]. rewrite <- !app_assoc, rd_string_put by done.
  change (u8 (b8 AUX_QUEUE)) with AUX_QUEUE. cbn -[rd_seq put_u32]. by rewrite (rd_seq_ok n).
Qed.

Lemma set_section_ok (l : list bytes) (x : gset bytes) : vecs_ok n l -> l ≡ₚ elements x -> encodes (sec_seq AUX_SET name l) (set_sets <[name := x]>).
Proof.
  intros Hl Hx rest s. unfold install_section, sec_seq. cbn [app rd_u8]. rewrite <- !app_assoc, rd_string_put by done.
  change (u8 (b8 AUX_SET)) with AUX_SET. cbn -[rd_seq put_u32 list_to_set]. rewrite (rd_seq_ok n) by done. cbn [default id from_option].
  assert (list_to_set l = x) as ->; [| done]. apply set_eq. intros y. rewrite elem_of_list_to_set, Hx. apply elem_of_elements.
Qed.

Lemma ring_section_ok r : ring_ok n r -> encodes (ring_section name r) (set_ringbuffers <[name := r]>).
Proof.
  intros (Hi & Hh & Ht & Hc) rest s. unfold install_section, ring_section. cbn [app rd_u8]. rewrite <- !app_assoc, rd_string_put by done.
  change (u8 (b8 AUX_RINGBUFFER)) with AUX_RINGBUFFER. cbn -[rd_seq put_u32 rd_i64]. rewrite !rd_i64_ok by done. rewrite (rd_seq_ok n) by done.
  by destruct r.
Qed.

Lemma counter_section_ok v : is_i64 v -> encodes (i64_section AUX_PNCOUNTER name v) (set_pncounters <[name := v]>).
Proof.
  intros Hv rest s. unfold install_section, i64_section. cbn [app rd_u8]. rewrite <- !app_assoc, rd_string_put by done.
  change (u8 (b8 AUX_PNCOUNTER)) with AUX_PNCOUNTER. cbn -[rd_i64]. by rewrite rd_i64_ok.
Qed.

Lemma flake_section_ok v : is_i64 v -> encodes (i64_section AUX_FLAKE name v) (set_flake <[name := v]>).
Proof.
  intros Hv rest s. unfold install_section, i64_section. cbn [app rd_u8]. rewrite <- !app_assoc, rd_string_put by done.
  change (u8 (b8 AUX_FLAKE)) with AUX_FLAKE. cbn -[rd_i64]. by rewrite rd_i64_ok.
Qed.

Lemma hll_section_ok h : length (regs h) = M -> encodes (hll_section name h) (set_hlls <[name := h]>).
Proof.
  intros Hh rest s. unfold install_section, hll_section. cbn [app rd_u8]. rewrite <- !app_assoc, rd_string_put by done.
  change (u8 (b8 AUX_HLL)) with AUX_HLL. cbn -[rd_blob put_blob to_bytes from_bytes].
  rewrite rd_blob_put by (unfold to_bytes, blen; rewrite Hh; unfold M; lia). by rewrite from_to_bytes.
Qed.

End Sections.

(** The entries of a map whose names belong to the partition. *)
Definition mine {A} (partition count : Z) (m : gmap bytes A) : gmap bytes A :=
  filter (fun p => partition_for_name p.1 count = Ok partition) m.

Lemma filter_on_ok {A} (partition count : Z) (l : list (bytes * A)) : 0 < count < 2 ^ 31 ->
  filter_on partition count l = Ok (filter (fun p => partition_for_name p.1 count = Ok partition) l).
Proof.
  intros Hc. induction l as [| [name x] l IH]; [done |]. cbn [filter_on].
  destruct (proj1 (post_Ok _ _) (partition_id_ok (to_be 4 0 ++ to_be 4 (-11) ++ to_be 4 (blen name) ++ name) count Hc)) as (p & Hp & _).
  fold (partition_for_name name count) in Hp. rewrite Hp, IH. cbn [mbind outcome_bind]. destruct (Z.eqb_spec p partition) as [-> | Hne].
  - by rewrite filter_cons_True.
  - rewrite filter_cons_False; [done |]. cbn. rewrite Hp. congruence.
Qed.

Section Move.
Context {I : Iteration} (partition count : Z) (Hcount : 0 < count < 2 ^ 31).

Definition here {A} (m : gmap bytes A) : list (bytes * A) :=
  filter (fun p => partition_for_name p.1 count = Ok partition) (map_iter m).

Lemma filter_keys_NoDup {A} (P : bytes * A -> Prop) `{!forall x, Decision (P x)} (l : list (bytes * A)) : NoDup l.*1 -> NoDup (filter P l).*1.
Proof.
  induction l as [| p l IH]; [done |]. rewrite fmap_cons. intros [Hp Hl]%NoDup_cons. destruct (decide (P p)).
  - rewrite filter_cons_True, fmap_cons by done. apply NoDup_cons. split; [| by apply IH]. intros (q & Hq & Hin)%list_elem_of_fmap.
    apply Hp, list_elem_of_fmap. exists q. split; [done |]. by apply list_elem_of_filter in Hin as [_ ?].
  - rewrite filter_cons_False by done. by apply IH.
Qed.

Lemma here_insert {A} (m m0 : gmap bytes A) : foldl (fun m p => <[p.1 := p.2]> m) m0 (here m) = mine partition count m ∪ m0.
Proof.
  apply insert_all. unfold here, mine. rewrite map_iter_perm. symmetry.
  rewrite map_filter_alt. apply map_to_list_to_map.
  apply filter_keys_NoDup, NoDup_fst_map_to_list.
Qed.

Lemma fold_updates {A} (set : (gmap bytes A -> gmap bytes A) -> Structures -> Structures) (l : list (bytes * A)) s :
  (forall f g r, set f (set g r) = set (f ∘ g) r) -> (forall r, set id r = r) ->
  foldl (fun s f => f s) s (map (fun p => set <[p.1 := p.2]>) l) = set (fun m => foldl (fun m p => <[p.1 := p.2]> m) m l) s.
Proof.
  intros Hc Hid. revert s. induction l as [| p l IH]; intros s; cbn [map foldl]; [symmetry; apply Hid |]. rewrite IH, Hc. done.
Qed.

Lemma here_Forall {A} (P : bytes -> A -> Prop) (m : gmap bytes A) : map_Forall P m -> Forall (fun p => P p.1 p.2) (here m).
Proof.
  intros Hm. assert (Forall (fun p => P p.1 p.2) (map_iter m)) as Hl by (by apply map_iter_Forall).
  rewrite Forall_forall in *. intros p [_ Hp]%list_elem_of_filter. by apply Hl.
Qed.

(** What the taking member has afterwards: the partition's structures, replaced, and its own others. *)
Definition moved (s t : Structures) : Structures :=
  mk_structures (mine partition count (queues s) ∪ queues t) (mine partition count (sets s) ∪ sets t) (multimaps t)
    (mine partition count (lists s) ∪ lists t) (mine partition count (ringbuffers s) ∪ ringbuffers t)
    (mine partition count (pncounters s) ∪ pncounters t) (mine partition count (hlls s) ∪ hlls t) (mine partition count (flake s) ∪ flake t).

Definition updates (s : Structures) : list (Structures -> Structures) :=
  map (fun p => set_lists <[p.1 := p.2]>) (here (lists s)) ++ map (fun p => set_sets <[p.1 := p.2]>) (here (sets s))
  ++ map (fun p => set_queues <[p.1 := p.2]>) (here (queues s)) ++ map (fun p => set_ringbuffers <[p.1 := p.2]>) (here (ringbuffers s))
  ++ map (fun p => set_pncounters <[p.1 := p.2]>) (here (pncounters s)) ++ map (fun p => set_flake <[p.1 := p.2]>) (here (flake s))
  ++ map (fun p => set_hlls <[p.1 := p.2]>) (here (hlls s)).

Lemma updates_move s t : foldl (fun s f => f s) t (updates s) = moved s t.
Proof.
  unfold updates. rewrite !foldl_app, !fold_updates by (try done; by intros []).
  unfold moved, set_queues, set_lists, set_sets, set_ringbuffers, set_pncounters, set_flake, set_hlls.
  cbn [queues lists sets multimaps ringbuffers pncounters hlls flake]. by rewrite !here_insert.
Qed.

(** Every structure has a valid name; there are fewer than 2^32 of them. *)
Definition named {A} (m : gmap bytes A) : Prop := map_Forall (fun k _ => name_ok k) m.

Record movable (s : Structures) : Prop := {
  mv_sized : sized (2 ^ 32 - 1) s;
  mv_flake : map_Forall (fun _ => is_i64) (flake s);
  mv_names : named (queues s) /\ named (sets s) /\ named (lists s) /\ named (ringbuffers s) /\ named (pncounters s) /\ named (hlls s) /\ named (flake s);
  mv_count : Z.of_nat (size (queues s) + size (sets s) + size (lists s) + size (ringbuffers s) + size (pncounters s) + size (hlls s) + size (flake s)) < 2 ^ 32
}.

Lemma group_ok {A} (m : gmap bytes A) (P : A -> Prop) (enc : bytes * A -> bytes) (upd : bytes * A -> Structures -> Structures) :
  named m -> map_Forall (fun _ => P) m -> (forall name x, name_ok name -> P x -> encodes (enc (name, x)) (upd (name, x))) ->
  Forall2 encodes (map enc (here m)) (map upd (here m)).
Proof.
  intros Hn Hp He. assert (Forall (fun p => name_ok p.1 /\ P p.2) (here m)) as Hl.
  { apply (here_Forall (fun k x => name_ok k /\ P x)). intros k x Hk. split; [by apply (Hn k x) | by apply (Hp k)]. }
  induction Hl as [| [k x] l [Hk Hx] Hl IH]; [constructor |]. cbn [map]. constructor; [by apply He | done].
Qed.

Lemma here_length {A} (m : gmap bytes A) : (length (here m) <= size m)%nat.
Proof. unfold here. rewrite <- length_map_to_list, <- map_iter_perm. apply length_filter. Qed.

(** C16. Moving a partition moves its structures whole: unpacking on another member what one packed for a partition
    gives that member exactly the packed queues, lists, sets, ringbuffers, counters, generators and
    sketches whose names belong to the partition, and changes none of its others. *)
Theorem partition_moves_whole s :
  movable s -> exists blob, aux_state_for_partition partition count s = Ok blob /\ forall t, install_aux_state blob t = moved s t.
Proof.
  intros [Hs Hf (Nq & Nst & Nl & Nr & Np & Nh & Nf) Hsize]. unfold aux_state_for_partition. rewrite !filter_on_ok by done. cbn [mbind outcome_bind].
  fold (here (lists s)) (here (sets s)) (here (queues s)) (here (ringbuffers s)) (here (pncounters s)) (here (flake s)) (here (hlls s)).
  eexists. split; [done |]. intros t. set (chunks := map (fun p => sec_seq AUX_LIST p.1 p.2) _ ++ _).
  assert (Forall2 encodes chunks (updates s)) as Henc.
  { unfold chunks, updates. pose proof (eq_refl : 2 ^ 32 - 1 < 2 ^ 32) as Hn. repeat apply Forall2_app.
    - apply (group_ok _ (vecs_ok (2 ^ 32 - 1))); [done | apply Hs | intros; by apply (list_section_ok _ Hn)].
    - apply (group_ok _ (fun x => vecs_ok (2 ^ 32 - 1) (elements x))); [done | apply Hs |]. intros name x Hk Hx.
      apply (set_section_ok _ Hn); [done | | apply set_iter_perm]. eapply vecs_ok_perm; [symmetry; apply set_iter_perm | done].
    - apply (group_ok _ (vecs_ok (2 ^ 32 - 1))); [done | apply Hs | intros; by apply (queue_section_ok _ Hn)].
    - apply (group_ok _ (ring_ok (2 ^ 32 - 1))); [done | apply Hs | intros; by apply (ring_section_ok _ Hn)].
    - apply (group_ok _ is_i64); [done | apply Hs | intros; by apply counter_section_ok].
    - apply (group_ok _ is_i64); [done | done | intros; by apply flake_section_ok].
    - apply (group_ok _ (fun h => length (regs h) = M)); [done | apply Hs | intros; by apply hll_section_ok]. }
  assert (0 <= blen chunks < 2 ^ 32) as Hlen.
  { unfold chunks, blen. rewrite !length_app, !length_map. pose proof (here_length (lists s)). pose proof (here_length (sets s)). pose proof (here_length (queues s)).
    pose proof (here_length (ringbuffers s)). pose proof (here_length (pncounters s)). pose proof (here_length (flake s)). pose proof (here_length (hlls s)). lia. }
  unfold install_aux_state, rd_u32, put_u32. rewrite get_u32_to_le by exact Hlen. rewrite <- updates_move. apply install_sections_ok; [done |].
  clear Hlen. revert Henc. generalize (updates s). clear. induction chunks as [| c cs IH]; intros fs Hf; [cbn; lia |].
  inversion Hf as [| ? f ? fs' Hc Hcs]; subst. cbn [concat length]. rewrite length_app. specialize (IH _ Hcs).
  destruct c; [specialize (Hc [] no_structures); discriminate Hc | cbn; lia].
Qed.

End Move.

Definition ex_member : Structures :=
  mk_structures {[ bstr "q" := [bstr "x"; bstr "y"] ]} {[ bstr "myset" := {[ bstr "a" ]} ]} ∅ {[ bstr "mylist" := [bstr "z"] ]} ∅
    {[ bstr "q" := 7 ]} ∅ {[ bstr "q" := 11 ]}.

Lemma ex_vecs (l : list bytes) : forallb (fun x => blen x <? 100) l = true -> blen l < 100 -> vecs_ok (2 ^ 32 - 1) l.
Proof. intros Hx Hl. split; [lia |]. apply Forall_forall. intros x Hin. rewrite forallb_forall in Hx. apply list_elem_of_In in Hin. specialize (Hx x Hin). lia. Qed.

Lemma named_one {A} (k : bytes) (x : A) : utf8_valid k = true -> blen k < 2 ^ 32 -> named {[ k := x ]}.
Proof. intros Hu Hl. by apply (map_Forall_singleton (fun k _ => name_ok k)). Qed.

Lemma ex_movable : movable ex_member.
Proof.
  split.
  - split.
    + apply map_Forall_singleton. by apply ex_vecs.
    + apply map_Forall_singleton. by apply ex_vecs.
    + apply (map_Forall_singleton (fun _ x => vecs_ok (2 ^ 32 - 1) (elements x))). by apply ex_vecs.
    + apply map_Forall_empty.
    + apply map_Forall_empty.
    + apply map_Forall_singleton. unfold is_i64. lia.
    + apply map_Forall_empty.
  - apply map_Forall_singleton. unfold is_i64. lia.
  - split_and!; [by apply named_one | by apply named_one | by apply named_one | apply map_Forall_empty | by apply named_one | apply map_Forall_empty | by apply named_one].
  - reflexivity.
Qed.

(** Partition 229 of 271 is that of the name "q". *)
Lemma partition_moves_whole_witness :
  exists blob, aux_state_for_partition (I := by_keys) 229 271 ex_member = Ok blob
    /\ queue_peek (bstr "q") (install_aux_state blob no_structures) = Some (bstr "x")
    /\ list_size (bstr "mylist") (install_aux_state blob no_structures) = 0.
Proof.
  destruct (partition_moves_whole (I := by_keys) 229 271 ltac:(lia) ex_member ex_movable) as (blob & Hb & H).
  exists blob. split; [exact Hb |]. rewrite H. split; vm_compute; reflexivity.
Defined.
