(* ===== verification/Store.v ===== *)
(** * The store (crates/store/src/lib.rs: [Store])

    A store is a list of shards, the clock its update stamps come from, the map stores its users plugged
    in, its other structures, and the two sinks its mutations are told to.  The maps' operations are
    here; those of the other structures are in [AuxStore], the clock's atomics in [Hlc]. *)

From S2P Require Import Prelude Fixed Slab FieldValue QueryIndex Schema Table Hlc WalRecord Partition AuxStore.

(** A plugged-in [MapStore] is code of the user: its state, and what the store calls.  A failed or empty
    [load] is [None]; failures of [store] and [delete] are ignored. *)
Class MapStore := {
  ext : Type;
  ext_load : ext -> bytes -> option bytes;
  ext_store : bytes -> bytes -> ext -> ext;
  ext_delete : bytes -> ext -> ext
}.

(** The monotonic clock, the random numbers and the wall clock a call reads. *)
Record clocks := mk_clocks { now_ms : Z; rnd : nat -> Z; wall_ms : Z }.

Inductive McAction := McStore (val : bytes) (ttl_ms : Z) | McRemove | McKeep.

(** The shard of a key. *)
Definition shard_of (map key : bytes) (n : nat) : nat :=
  Z.to_nat (foldl fnv_step 0xcbf29ce484222325 (map ++ key) mod Z.of_nat n).

Section Store.
Context {Schemas : Type} (extract : bytes -> Schemas -> bytes -> FieldValue) (schemas : Schemas).
Context (text_match : TextKind -> bytes -> bytes -> bool) (iter : gset bytes -> list bytes).
Context {X : MapStore}.

(** A sink holds what it was told, and is [None] until attached. *)
Record Store := mk_store {
  s_stamp_seq : Z;
  s_member_id : Z;
  shards : list Inner;
  map_stores : gmap bytes ext;
  structures : Structures;
  wal_sink : option (list Mutation);
  wan_sink : option (list Mutation)
}.

Definition with_shards_seed (n : nat) (member_id : Z) : outcome Store :=
  if (1 <=? n)%nat then Ok (mk_store 0 member_id (replicate n new_inner) ∅ no_structures None None) else Panic.

(** [OnceLock::set]: the first attachment counts. *)
Definition set_wal_sink (s : Store) : Store :=
  mk_store (s_stamp_seq s) (s_member_id s) (shards s) (map_stores s) (structures s) (Some (default [] (wal_sink s))) (wan_sink s).
Definition set_wan_sink (s : Store) : Store :=
  mk_store (s_stamp_seq s) (s_member_id s) (shards s) (map_stores s) (structures s) (wal_sink s) (Some (default [] (wan_sink s))).
Definition configure_map_store (map : bytes) (x : ext) (s : Store) : Store :=
  mk_store (s_stamp_seq s) (s_member_id s) (shards s) (<[map := x]> (map_stores s)) (structures s) (wal_sink s) (wan_sink s).

Definition set_shards (l : list Inner) (s : Store) : Store :=
  mk_store (s_stamp_seq s) (s_member_id s) l (map_stores s) (structures s) (wal_sink s) (wan_sink s).
Definition set_stamp_seq (v : Z) (s : Store) : Store :=
  mk_store v (s_member_id s) (shards s) (map_stores s) (structures s) (wal_sink s) (wan_sink s).
Definition set_structures (a : Structures) (s : Store) : Store :=
  mk_store (s_stamp_seq s) (s_member_id s) (shards s) (map_stores s) a (wal_sink s) (wan_sink s).

(** A call on the map store of a map, if it has one. *)
Definition tell_ext (map : bytes) (f : ext -> ext) (s : Store) : Store :=
  mk_store (s_stamp_seq s) (s_member_id s) (shards s) (alter f map (map_stores s)) (structures s) (wal_sink s) (wan_sink s).

Definition emit_wal (m : Mutation) (s : Store) : Store :=
  mk_store (s_stamp_seq s) (s_member_id s) (shards s) (map_stores s) (structures s) ((fun l => l ++ [m]) <$> wal_sink s) (wan_sink s).
Definition emit (m : Mutation) (s : Store) : Store :=
  mk_store (s_stamp_seq s) (s_member_id s) (shards s) (map_stores s) (structures s)
    ((fun l => l ++ [m]) <$> wal_sink s) ((fun l => l ++ [m]) <$> wan_sink s).

Definition next_stamp (c : clocks) (s : Store) : Store * Z :=
  let v := next_stamp_at (s_member_id s) (wall_ms c) (s_stamp_seq s) in (set_stamp_seq v s, v).

Definition observe (stamp : Z) (s : Store) : Store := set_stamp_seq (observe_stamp (s_member_id s) stamp (s_stamp_seq s)) s.

(** [self.shard(map, key).lock().unwrap()] *)
Definition on_shard {R} (map key : bytes) (f : Inner -> outcome (Inner * R)) (s : Store) : outcome (Store * R) :=
  let i := shard_of map key (length (shards s)) in
  x ← index (shards s) i;
  '(x, r) ← f x;
  Ok (set_shards (<[i := x]> (shards s)) s, r).

(** [for s in &self.shards], with what each shard answers. *)
Fixpoint each_shard {R} (f : Inner -> outcome (Inner * R)) (l : list Inner) : outcome (list Inner * list R) :=
  match l with
  | [] => Ok ([], [])
  | x :: l => '(x, r) ← f x; '(l, rs) ← each_shard f l; Ok (x :: l, r :: rs)
  end.

Definition on_shards {R} (f : Inner -> outcome (Inner * R)) (s : Store) : outcome (Store * list R) :=
  '(l, rs) ← each_shard f (shards s); Ok (set_shards l s, rs).

(** A method that leaves the shard as it is, or returns nothing. *)
Definition asking {R} (f : Inner -> outcome R) (x : Inner) : outcome (Inner * R) := r ← f x; Ok (x, r).
Definition doing (f : Inner -> outcome Inner) (x : Inner) : outcome (Inner * unit) := x ← f x; Ok (x, ()).

(** ** Operations on maps *)

Definition put_ttl (c : clocks) (map key val : bytes) (ttl_ms : Z) (s : Store) : outcome (Store * option bytes) :=
  let s := tell_ext map (ext_store key val) s in
  let '(s, stamp) := next_stamp c s in
  '(s, old) ← on_shard map key (Table.put extract schemas (now_ms c) (rnd c) map key val ttl_ms stamp) s;
  Ok (emit (Put (mk_put stamp ttl_ms map key val)) s, old).

Definition put (c : clocks) (map key val : bytes) (s : Store) : outcome (Store * option bytes) :=
  let s := tell_ext map (ext_store key val) s in
  let '(s, stamp) := next_stamp c s in
  '(s, old) ← on_shard map key (Table.put extract schemas (now_ms c) (rnd c) map key val 0 stamp) s;
  Ok (emit (Put (mk_put stamp 0 map key val)) s, old).

Definition put_stamped (c : clocks) (map key val : bytes) (ttl_ms stamp : Z) (s : Store) : outcome (Store * option bytes) :=
  on_shard map key (Table.put extract schemas (now_ms c) (rnd c) map key val ttl_ms stamp) s.

Definition put_merge (c : clocks) (map key val : bytes) (ttl_ms stamp : Z) (latest_update : bool) (s : Store) : outcome Store :=
  let s := observe stamp s in
  '(s, _) ← on_shard map key (doing (Table.put_merge extract schemas (now_ms c) (rnd c) map key val ttl_ms stamp latest_update)) s;
  Ok (emit (Put (mk_put stamp ttl_ms map key val)) s).

Definition apply_wan (c : clocks) (op_is_put : bool) (map key value : bytes) (ttl_ms stamp : Z) (s : Store) : outcome Store :=
  let s := observe stamp s in
  if op_is_put then
    '(s, _) ← on_shard map key (doing (Table.put_merge extract schemas (now_ms c) (rnd c) map key value ttl_ms stamp true)) s;
    Ok (emit_wal (Put (mk_put stamp ttl_ms map key value)) s)
  else
    '(s, _) ← on_shard map key (Table.remove extract schemas (now_ms c) map key) s;
    Ok (emit_wal (Remove (mk_remove stamp map key)) s).

Definition all_entries_stamped (c : clocks) (s : Store) : outcome (list (bytes * bytes * bytes * Z)) :=
  '(_, ls) ← each_shard (asking (collect_all_stamped (now_ms c))) (shards s); Ok (concat ls).

(** A value found nowhere is asked of the map store, and kept when it has one. *)
Definition load_through (c : clocks) (map key : bytes) (s : Store) : outcome (Store * option bytes) :=
  match x ← map_stores s !! map; ext_load x key with
  | Some loaded =>
    let '(s, stamp) := next_stamp c s in
    '(s, _) ← on_shard map key (Table.put extract schemas (now_ms c) (rnd c) map key loaded 0 stamp) s;
    Ok (s, Some loaded)
  | None => Ok (s, None)
  end.

Definition get (c : clocks) (map key : bytes) (s : Store) : outcome (Store * option bytes) :=
  '(s, val) ← on_shard map key (Table.get (now_ms c) map key) s;
  match val with Some v => Ok (s, Some v) | None => load_through c map key s end.

Definition get_with {R} (c : clocks) (map key : bytes) (f : option bytes -> R) (s : Store) : outcome (Store * R) :=
  '(s, found) ← on_shard map key (fun x => '(x, r) ← find (now_ms c) map key x;
                                         match r with Some (_, e) => v ← val_bytes x e; Ok (x, Some v) | None => Ok (x, None) end) s;
  match found with
  | Some v => Ok (s, f (Some v))
  | None => '(s, v) ← load_through c map key s; Ok (s, f v)
  end.

Definition remove (c : clocks) (map key : bytes) (s : Store) : outcome (Store * option bytes) :=
  let s := tell_ext map (ext_delete key) s in
  '(s, old) ← on_shard map key (Table.remove extract schemas (now_ms c) map key) s;
  let '(s, stamp) := next_stamp c s in
  Ok (emit (Remove (mk_remove stamp map key)) s, old).

Definition put_if_absent (c : clocks) (map key val : bytes) (ttl_ms : Z) (s : Store) : outcome (Store * option bytes) :=
  let '(s, stamp) := next_stamp c s in
  on_shard map key (Table.put_if_absent extract schemas (now_ms c) (rnd c) map key val ttl_ms stamp) s.

Definition replace (c : clocks) (map key val : bytes) (s : Store) : outcome (Store * option bytes) :=
  on_shard map key (Table.replace extract schemas (now_ms c) map key val) s.

Definition contains_key (c : clocks) (map key : bytes) (s : Store) : outcome (Store * bool) :=
  on_shard map key (Table.contains_key (now_ms c) map key) s.

Definition size (map : bytes) (s : Store) : outcome Z :=
  '(_, ns) ← each_shard (asking (map_len map)) (shards s); Ok (foldr Z.add 0 ns).

Definition is_empty (map : bytes) (s : Store) : outcome bool := n ← size map s; Ok (n =? 0).

Definition clear (map : bytes) (s : Store) : outcome Store := '(s, _) ← on_shards (doing (Table.clear map)) s; Ok s.

Definition mc_update {R} (c : clocks) (map key : bytes) (f : option bytes -> McAction * R) (s : Store) : outcome (Store * R) :=
  let '(s, stamp) := next_stamp c s in
  on_shard map key (fun x =>
    '(x, cur) ← Table.get (now_ms c) map key x;
    let '(action, r) := f cur in
    match action with
    | McStore val ttl_ms => '(x, _) ← Table.put extract schemas (now_ms c) (rnd c) map key val ttl_ms stamp x; Ok (x, r)
    | McRemove => '(x, _) ← Table.remove extract schemas (now_ms c) map key x; Ok (x, r)
    | McKeep => Ok (x, r)
    end) s.

Definition contains_value (c : clocks) (map val : bytes) (s : Store) : outcome bool :=
  '(_, bs) ← each_shard (asking (Table.contains_value (now_ms c) map val)) (shards s); Ok (existsb id bs).

Definition entries (c : clocks) (map : bytes) (s : Store) : outcome (list (bytes * bytes)) :=
  '(_, ls) ← each_shard (asking (collect_entries (now_ms c) map)) (shards s); Ok (concat ls).

Fixpoint get_all (c : clocks) (map : bytes) (keys : list bytes) (s : Store) : outcome (Store * list (bytes * bytes)) :=
  match keys with
  | [] => Ok (s, [])
  | k :: keys =>
    '(s, v) ← get c map k s;
    '(s, rest) ← get_all c map keys s;
    Ok (s, match v with Some v => (k, v) :: rest | None => rest end)
  end.

Fixpoint put_all (c : clocks) (map : bytes) (es : list (bytes * bytes)) (s : Store) : outcome Store :=
  match es with [] => Ok s | (k, v) :: es => '(s, _) ← put c map k v s; put_all c map es s end.

Definition add_index (c : clocks) (map : bytes) (config : IndexConfig) (s : Store) : outcome Store :=
  '(s, _) ← on_shards (doing (Table.add_index extract schemas (now_ms c) map config)) s; Ok s.

Definition set_config (map : bytes) (config : MapConfig) (s : Store) : Store :=
  set_shards (List.map (Table.set_config map config) (shards s)) s.

(** ** Queries *)

Definition sort_by_key (l : list (bytes * bytes)) : list (bytes * bytes) :=
  stable_sort (fun p q => match bytes_cmp p.1 q.1 with Lt => true | _ => false end) l.

(** The page, with [page as usize * page_size as usize] and the slice [start..end]. *)
Definition page_of (page page_size : Z) (l : list (bytes * bytes)) : outcome (list (bytes * bytes)) :=
  let start := Z.min (wrap_u64 (wrap_u64 page * wrap_u64 page_size)) (blen l) in
  let stop := Z.min (wrap_u64 (start + wrap_u64 page_size)) (blen l) in
  if start <=? stop then Ok (take (Z.to_nat (stop - start)) (drop (Z.to_nat start) l)) else Panic.

Fixpoint in_partition (partition_id : Z) (l : list (bytes * bytes)) : outcome (list (bytes * bytes)) :=
  match l with
  | [] => Ok []
  | (k, v) :: l =>
    p ← Partition.partition_id k 271;
    rest ← in_partition partition_id l;
    Ok (if p =? partition_id then (k, v) :: rest else rest)
  end.

Fixpoint query (c : clocks) (map : bytes) (p : Predicate) (s : Store) : outcome (Store * list (bytes * bytes)) :=
  match p with
  | Paging inner page page_size _ =>
    '(s, matched) ← match inner with Some q => query c map q s | None => (l ← entries c map s; Ok (s, l)) end;
    l ← page_of page page_size (sort_by_key matched);
    Ok (s, l)
  | QueryIndex.Partition partition_id target =>
    '(s, results) ← query c map target s;
    l ← in_partition partition_id results;
    Ok (s, l)
  | other =>
    '(s, ls) ← on_shards (Table.query extract schemas text_match iter (now_ms c) map other) s;
    Ok (s, concat ls)
  end.

End Store.
