(* ===== verification/StoreRun.v ===== *)
(** * A sharded map

    The map of a store is the union of the maps of its shards: a shard holds exactly the entries whose
    key hashes to it.  An operation on one key of that map is an operation on one part of it. *)

From S2P Require Import Prelude Fixed WalRecord Slab FieldValue QueryIndex Table TableFacts TableIndex TableSpec TableQuery TableRun Hlc Schema Extract AuxStore Store.

(** The entries of the [i]th of [N] shards. *)
Definition part (N i : nat) (A : amap) : amap := filter (fun p => shard_of p.1.1 p.1.2 N = i) A.

Lemma lookup_part N i A name key : part N i A !! (name, key) = if decide (shard_of name key N = i) then A !! (name, key) else None.
Proof.
  unfold part. rewrite map_lookup_filter. destruct (A !! (name, key)) as [c |]; cbn; [| by case_decide].
  case_decide; case_guard; done.
Qed.

Lemma part_here N i A name key : shard_of name key N = i -> part N i A !! (name, key) = A !! (name, key).
Proof. intros H. by rewrite lookup_part, decide_True. Qed.

Lemma shard_of_lt name key N : (0 < N)%nat -> (shard_of name key N < N)%nat.
Proof. intros HN. unfold shard_of. pose proof (Z.mod_pos_bound (foldl fnv_step 0xcbf29ce484222325 (name ++ key)) (Z.of_nat N) ltac:(lia)). lia. Qed.

(** A change of the map that is, seen from the shards, the same change of the [i]th part. *)
Record homed (N i : nat) (f : amap -> amap) (A : amap) : Prop := {
  ho_here : part N i (f A) = f (part N i A);
  ho_there : forall j, j <> i -> part N j (f A) = part N j A
}.

Section Home.
Context (N i : nat) (name key : bytes) (Hi : shard_of name key N = i).

Lemma homed_id A : homed N i (fun A => A) A.
Proof. by split. Qed.

Lemma homed_insert c A : homed N i (<[(name, key) := c]>) A.
Proof.
  split.
  - apply map_eq. intros [n k]. rewrite lookup_part. destruct (decide ((n, k) = (name, key))) as [[= -> ->] | Hne].
    + by rewrite !lookup_insert_eq, decide_True.
    + by rewrite !lookup_insert_ne, lookup_part.
  - intros j Hj. apply map_eq. intros [n k]. rewrite !lookup_part. case_decide as Hs; [| done].
    rewrite lookup_insert_ne; [done |]. intros [= -> ->]. congruence.
Qed.

Lemma homed_delete A : homed N i (delete (name, key)) A.
Proof.
  split.
  - apply map_eq. intros [n k]. rewrite lookup_part. destruct (decide ((n, k) = (name, key))) as [[= -> ->] | Hne].
    + rewrite !lookup_delete_eq. by case_decide.
    + by rewrite !lookup_delete_ne, lookup_part.
  - intros j Hj. apply map_eq. intros [n k]. rewrite !lookup_part. case_decide as Hs; [| done].
    rewrite lookup_delete_ne; [done |]. intros [= -> ->]. congruence.
Qed.

Lemma homed_comp f g A : homed N i g A -> homed N i f (g A) -> homed N i (fun A => f (g A)) A.
Proof. intros [Hg1 Hg2] [Hf1 Hf2]. split; [by rewrite Hf1, Hg1 |]. intros j Hj. by rewrite Hf2, Hg2. Qed.

(** Each abstract operation: the reply is the part's, the change is the part's. *)
Definition op_homed {R} (f : amap -> amap * R) (A : amap) : Prop :=
  (f (part N i A)).2 = (f A).2 /\ homed N i (fun A => (f A).1) A.

Lemma homed_ext f g A : (forall B, B = A \/ B = part N i A -> f B = g B) -> homed N i f A -> homed N i g A.
Proof. intros E [H1 H2]. split; [rewrite <- !E by auto; done |]. intros j Hj. rewrite <- E by auto. by apply H2. Qed.

Lemma a_find_homed cfgs now A : op_homed (a_find cfgs now name key) A.
Proof.
  unfold op_homed. assert (forall B, B = A \/ B = part N i A -> B !! (name, key) = A !! (name, key)) as E.
  { intros B [-> | ->]; [done | by apply part_here]. }
  split; [unfold a_find; rewrite E by auto; by destruct (A !! _); [destruct (cell_expired _ _ _ _) |] |].
  destruct (A !! (name, key)) as [c |] eqn:Hc; [destruct (cell_expired cfgs name c now) eqn:Hx |].
  - apply (homed_ext (delete (name, key))); [| apply homed_delete]. intros B HB. unfold a_find. by rewrite (E B HB), Hx.
  - apply (homed_ext (<[(name, key) := touch now c]>)); [| apply homed_insert]. intros B HB. unfold a_find. by rewrite (E B HB), Hx.
  - apply (homed_ext (fun A => A)); [| apply homed_id]. intros B HB. unfold a_find. by rewrite (E B HB).
Qed.

Lemma a_put_homed cfgs now val ttl st A : op_homed (a_put cfgs now name key val ttl st) A.
Proof.
  unfold op_homed. assert (forall B, B = A \/ B = part N i A -> B !! (name, key) = A !! (name, key)) as E.
  { intros B [-> | ->]; [done | by apply part_here]. }
  split; [unfold a_put; rewrite E by auto; by destruct (A !! _) |].
  destruct (A !! (name, key)) as [c |] eqn:Hc.
  - eapply homed_ext; [| apply homed_insert]. intros B HB. unfold a_put. rewrite (E B HB). reflexivity.
  - eapply homed_ext; [| apply homed_insert]. intros B HB. unfold a_put. rewrite (E B HB). reflexivity.
Qed.

(** An operation that looks the key up and goes on. *)
Lemma after_find {R : Type} (cfgs : gmap bytes MapConfig) (now : Z) (f : option Cell -> amap -> amap * R) A :
  (forall c B, op_homed (f c) B) ->
  op_homed (fun A => let '(A, c) := a_find cfgs now name key A in f c A) A.
Proof.
  intros Hf. destruct (a_find_homed cfgs now A) as [H1 [H2 H2']]. cbn beta in *. unfold op_homed. cbn beta.
  destruct (a_find cfgs now name key A) as [B c] eqn:EA, (a_find cfgs now name key (part N i A)) as [B' c'] eqn:EP.
  cbn [fst snd] in *. subst B' c'. destruct (Hf c B) as [H3 [H4 H5]]. split; [done |].
  split; [by rewrite EA, EP |]. intros j Hj. rewrite EA, H5 by done. by apply H2'.
Qed.

Lemma a_put_if_absent_homed cfgs now val ttl st A : op_homed (a_put_if_absent cfgs now name key val ttl st) A.
Proof.
  pose proof (after_find cfgs now (fun c A => match c with Some c => (A, Some (c_val c)) | None => ((a_put cfgs now name key val ttl st A).1, None) end) A) as H.
  assert (forall B, (let '(A, c) := a_find cfgs now name key B in
    match c with Some c => (A, Some (c_val c)) | None => ((a_put cfgs now name key val ttl st A).1, None) end) = a_put_if_absent cfgs now name key val ttl st B) as E.
  { intros B. unfold a_put_if_absent. by destruct (a_find _ _ _ _ B) as [B' [c |]]. }
  unfold op_homed in *. rewrite !E in H. destruct H as [H1 H2].
  { intros [c |] B; [by split; [| apply homed_id] |]. split; [done |]. apply a_put_homed. }
  split; [done |]. eapply homed_ext; [| exact H2]. intros B _. cbn beta. by rewrite E.
Qed.

Lemma a_put_merge_homed cfgs now val ttl st latest A : homed N i (a_put_merge cfgs now name key val ttl st latest) A.
Proof.
  pose proof (after_find cfgs now (fun c A => (match c with Some c => if latest && (c_stamp c <? st) then (a_put cfgs now name key val ttl st A).1 else A
    | None => (a_put cfgs now name key val ttl st A).1 end, ())) A) as [_ H].
  { intros [c |] B; split; try done; [destruct (latest && _) |]; [apply a_put_homed | apply homed_id | apply a_put_homed]. }
  eapply homed_ext; [| exact H]. intros B _. cbn beta. unfold a_put_merge. by destruct (a_find _ _ _ _ B) as [B' [c |]].
Qed.

Lemma a_replace_homed cfgs now val A : op_homed (a_replace cfgs now name key val) A.
Proof.
  pose proof (after_find cfgs now (fun c A => match c with Some c => (<[(name, key) := mk_cell val (c_expire c) (c_stamp c) (c_access c) (c_hits c)]> A, Some (c_val c)) | None => (A, None) end) A) as H.
  assert (forall B, (let '(A, c) := a_find cfgs now name key B in
    match c with Some c => (<[(name, key) := mk_cell val (c_expire c) (c_stamp c) (c_access c) (c_hits c)]> A, Some (c_val c)) | None => (A, None) end) = a_replace cfgs now name key val B) as E.
  { intros B. unfold a_replace. by destruct (a_find _ _ _ _ B) as [B' [c |]]. }
  unfold op_homed in *. rewrite !E in H. destruct H as [H1 H2].
  { intros [c |] B; [split; [done | apply homed_insert] | by split; [| apply homed_id]]. }
  split; [done |]. eapply homed_ext; [| exact H2]. intros B _. cbn beta. by rewrite E.
Qed.

End Home.

(** An eviction from a part is an eviction from the whole. *)
Lemma evicted_part N i cfgs name B A1 :
  evicted cfgs name (part N i B) A1 ->
  exists A', evicted cfgs name B A' /\ part N i A' = A1 /\ forall j, j <> i -> part N j A' = part N j B.
Proof.
  intros [-> | (cfg & key & Hc & Hm & Hp & [c Hk] & ->)]; [exists B; split; [by left | done] |].
  rewrite lookup_part in Hk. case_decide as Hs; [| done]. destruct (homed_delete N i name key Hs B) as [H1 H2].
  exists (delete (name, key) B). split; [right; exists cfg, key; eauto 10 | done].
Qed.

(** The key a call is about. *)
Definition call_key (c : call) : option (bytes * bytes) :=
  match c with
  | CPut n k _ _ _ | CGet n k | CContains n k | CRemove n k | CPutIfAbsent n k _ _ _ | CPutMerge n k _ _ _ _ | CReplace n k _ => Some (n, k)
  | _ => None
  end.

Lemma live_part N i cfgs now name key A : shard_of name key N = i -> live cfgs now (part N i A) name key = live cfgs now A name key.
Proof. intros Hi. unfold live. by rewrite part_here. Qed.

Section Local.
Context {Schemas : Type} (extract : bytes -> Schemas -> bytes -> FieldValue) (schemas : Schemas).
Context (text_match : TextKind -> bytes -> bytes -> bool).

(** What the shard of the key does, the store does. *)
Lemma serve_part N i cfgs ev A A1 r name key :
  call_key (ev_call ev) = Some (name, key) -> shard_of name key N = i ->
  a_serve extract schemas text_match cfgs ev (part N i A) A1 r ->
  exists A', a_serve extract schemas text_match cfgs ev A A' r /\ part N i A' = A1 /\ forall j, j <> i -> part N j A' = part N j A.
Proof.
  intros Hk Hi Ha. destruct ev as [now rnd c]. unfold a_serve in *. cbn [ev_call ev_now ev_rnd] in *.
  destruct c as [n k val ttl st | n k | n k | n k | n k val ttl st | n k val ttl st latest | n k val | | | | |]; try discriminate Hk; injection Hk as -> ->.
  - destruct (a_put_homed N i name key Hi cfgs now val ttl st A) as [H1 [H2 H3]], Ha as [He ->]. cbn beta in *. rewrite <- H2 in He.
    destruct (evicted_part _ _ _ _ _ _ He) as (A' & He' & Hp & Hj). exists A'. split_and!; [done | by rewrite H1 | done |].
    intros j Hne. by rewrite Hj, H3.
  - destruct (a_find_homed N i name key Hi cfgs now A) as [H1 [H2 H3]], Ha as [-> ->]. rewrite live_part by done. eauto.
  - destruct (a_find_homed N i name key Hi cfgs now A) as [H1 [H2 H3]], Ha as [-> ->]. rewrite live_part by done. eauto.
  - destruct (homed_delete N i name key Hi A) as [H2 H3], Ha as [-> ->]. rewrite live_part by done. eauto.
  - destruct (a_put_if_absent_homed N i name key Hi cfgs now val ttl st A) as [H1 [H2 H3]], Ha as [He ->]. cbn beta in *. rewrite <- H2 in He.
    destruct (evicted_part _ _ _ _ _ _ He) as (A' & He' & Hp & Hj). exists A'. split_and!; [done | by rewrite H1 | done |].
    intros j Hne. by rewrite Hj, H3.
  - destruct (a_put_merge_homed N i name key Hi cfgs now val ttl st latest A) as [H2 H3], Ha as [He ->]. cbn beta in *. rewrite <- H2 in He.
    destruct (evicted_part _ _ _ _ _ _ He) as (A' & He' & Hp & Hj). exists A'. split_and!; [done | done | done |].
    intros j Hne. by rewrite Hj, H3.
  - destruct (a_replace_homed N i name key Hi cfgs now val A) as [H1 [H2 H3]], Ha as [-> ->]. eexists. split; [split; [done | by rewrite H1] |]. done.
Qed.

End Local.

(** * A store refines one finite map

    Whatever its number of shards, a store answers as the specification of a single shard does: sharding
    cannot be seen.  The clock that draws the update stamps is part of the specification. *)

(** ** Calls on a store *)

Inductive scall :=
| SPut (map key val : bytes)
| SPutTtl (map key val : bytes) (ttl : Z)
| SPutStamped (map key val : bytes) (ttl stamp : Z)
| SPutMerge (map key val : bytes) (ttl stamp : Z) (latest_update : bool)
| SApplyWan (op_is_put : bool) (map key val : bytes) (ttl stamp : Z)
| SGet (map key : bytes)
| SContains (map key : bytes)
| SRemove (map key : bytes)
| SPutIfAbsent (map key val : bytes) (ttl : Z)
| SReplace (map key val : bytes)
| SMcUpdate (map key : bytes) (f : option bytes -> McAction)
| SClear (map : bytes)
| SSize (map : bytes)
| SEntries (map : bytes)
| SAddIndex (map : bytes) (config : IndexConfig)
| SQuery (map : bytes) (p : Predicate).

Record sevent := mk_sevent { se_clocks : clocks; se_call : scall }.

Section Runs.
Context {Schemas : Type} (extract : bytes -> Schemas -> bytes -> FieldValue) (schemas : Schemas).
Context (text_match : TextKind -> bytes -> bytes -> bool) (iter : gset bytes -> list bytes).
Hypothesis iter_elements : forall X, iter X ≡ₚ elements X.
Context {X : MapStore}.

Definition serve_store (ev : sevent) (s : Store) : outcome (Store * reply) :=
  let c := se_clocks ev in
  match se_call ev with
  | SPut m k v => '(s, r) ← put extract schemas c m k v s; Ok (s, RVal r)
  | SPutTtl m k v ttl => '(s, r) ← put_ttl extract schemas c m k v ttl s; Ok (s, RVal r)
  | SPutStamped m k v ttl st => '(s, r) ← put_stamped extract schemas c m k v ttl st s; Ok (s, RVal r)
  | SPutMerge m k v ttl st latest => s ← put_merge extract schemas c m k v ttl st latest s; Ok (s, RDone)
  | SApplyWan is_put m k v ttl st => s ← apply_wan extract schemas c is_put m k v ttl st s; Ok (s, RDone)
  | SGet m k => '(s, r) ← get extract schemas c m k s; Ok (s, RVal r)
  | SContains m k => '(s, r) ← contains_key c m k s; Ok (s, RBool r)
  | SRemove m k => '(s, r) ← remove extract schemas c m k s; Ok (s, RVal r)
  | SPutIfAbsent m k v ttl => '(s, r) ← put_if_absent extract schemas c m k v ttl s; Ok (s, RVal r)
  | SReplace m k v => '(s, r) ← replace extract schemas c m k v s; Ok (s, RVal r)
  | SMcUpdate m k f => '(s, r) ← mc_update extract schemas c m k (fun cur => (f cur, cur)) s; Ok (s, RVal r)
  | SClear m => s ← clear m s; Ok (s, RDone)
  | SSize m => n ← size m s; Ok (s, RNum n)
  | SEntries m => l ← entries c m s; Ok (s, RList l)
  | SAddIndex m config => s ← add_index extract schemas c m config s; Ok (s, RDone)
  | SQuery m p => '(s, l) ← query extract schemas text_match iter c m p s; Ok (s, RList l)
  end.

Fixpoint serve_stores (evs : list sevent) (s : Store) : outcome (Store * list reply) :=
  match evs with
  | [] => Ok (s, [])
  | ev :: evs => '(s, r) ← serve_store ev s; '(s, rs) ← serve_stores evs s; Ok (s, r :: rs)
  end.

(** ** The specification: one map, one clock *)

Definition as_event (c : clocks) (k : call) : event := mk_event (now_ms c) (rnd c) k.

Definition a_store (cfgs : gmap bytes MapConfig) (member : Z) (ev : sevent) (A : amap) (q : Z) (A' : amap) (q' : Z) (r : reply) : Prop :=
  let c := se_clocks ev in
  let next := next_stamp_at member (wall_ms c) q in
  let does k := a_serve extract schemas text_match cfgs (as_event c k) A A' in
  match se_call ev with
  | SPut m k v => q' = next /\ does (CPut m k v 0 next) r
  | SPutTtl m k v ttl => q' = next /\ does (CPut m k v ttl next) r
  | SPutStamped m k v ttl st => q' = q /\ does (CPut m k v ttl st) r
  | SPutMerge m k v ttl st latest => q' = observe_stamp member st q /\ does (CPutMerge m k v ttl st latest) r
  | SApplyWan true m k v ttl st => q' = observe_stamp member st q /\ does (CPutMerge m k v ttl st true) r
  | SApplyWan false m k _ _ st => q' = observe_stamp member st q /\ r = RDone /\ exists r0, does (CRemove m k) r0
  | SGet m k => q' = q /\ does (CGet m k) r
  | SContains m k => q' = q /\ does (CContains m k) r
  | SRemove m k => q' = next /\ does (CRemove m k) r
  | SPutIfAbsent m k v ttl => q' = next /\ does (CPutIfAbsent m k v ttl next) r
  | SReplace m k v => q' = q /\ does (CReplace m k v) r
  | SMcUpdate m k f =>
    q' = next /\ exists A1 cur, a_serve extract schemas text_match cfgs (as_event c (CGet m k)) A A1 (RVal cur) /\ r = RVal cur
    /\ match f cur with
       | McStore v ttl => exists r0, a_serve extract schemas text_match cfgs (as_event c (CPut m k v ttl next)) A1 A' r0
       | McRemove => exists r0, a_serve extract schemas text_match cfgs (as_event c (CRemove m k)) A1 A' r0
       | McKeep => A' = A1
       end
  | SClear m => q' = q /\ does (CClear m) r
  | SSize m => q' = q /\ does (CSize m) r
  | SEntries m => q' = q /\ does (CEntries m) r
  | SAddIndex m config => q' = q /\ does (CAddIndex m config) r
  | SQuery m p => q' = q /\ does (CQuery m p) r
  end.

Fixpoint a_stores (cfgs : gmap bytes MapConfig) (member : Z) (evs : list sevent) (A : amap) (q : Z) (A' : amap) (rs : list reply) : Prop :=
  match evs, rs with
  | [], [] => A' = A
  | ev :: evs', r :: rs' => exists A1 q1, a_store cfgs member ev A q A1 q1 r /\ a_stores cfgs member evs' A1 q1 A' rs'
  | _, _ => False
  end.

(** Entries fit their 32-bit lengths; ranges are not reversed; pages and partitions are queried apart. *)
Definition plain (p : Predicate) : bool := match p with Paging _ _ _ _ | QueryIndex.Partition _ _ => false | _ => true end.

Definition scall_ok (c : scall) : Prop :=
  match c with
  | SPut _ k v | SPutTtl _ k v _ | SPutStamped _ k v _ _ | SPutMerge _ k v _ _ _ | SApplyWan _ _ k v _ _ | SPutIfAbsent _ k v _ | SReplace _ k v =>
    blen k + blen v < 2 ^ 32
  | SMcUpdate _ k f => forall cur, match f cur with McStore v _ => blen k + blen v < 2 ^ 32 | _ => True end
  | SQuery _ p => ranges_ok p = true /\ plain p = true
  | _ => True
  end.

(** ** The invariant *)

Record store_ok (cfgs : gmap bytes MapConfig) (n t : Z) (A : amap) (s : Store) : Prop := {
  so_shards : (0 < length (shards s))%nat;
  so_inv : forall i x, shards s !! i = Some x -> run_inv extract schemas cfgs n t (part (length (shards s)) i A) x;
  so_ext : map_stores s = ∅
}.

Lemma run_inv_mono cfgs n t n' t' A x : n <= n' -> t <= t' -> run_inv extract schemas cfgs n t A x -> run_inv extract schemas cfgs n' t' A x.
Proof. intros Hn Ht [H1 [? ? ?] H3 H4]. split; [done | split; lia | by eapply covered_later | done]. Qed.

Lemma store_ok_mono cfgs n t n' t' A s : n <= n' -> t <= t' -> store_ok cfgs n t A s -> store_ok cfgs n' t' A s.
Proof. intros Hn Ht [H1 H2 H3]. split; [done | | done]. intros i x Hx. eapply run_inv_mono; [done | done | by apply H2]. Qed.

(** What a call changes beside the shards. *)
Definition same_rest (s s' : Store) : Prop := s_member_id s' = s_member_id s /\ map_stores s' = map_stores s.

(** One call on one shard. *)
Lemma on_shard_ok {R} cfgs n t A s c k name key (f : Inner -> outcome (Inner * R)) (w : R -> reply) :
  store_ok cfgs n t A s -> 0 <= n < 2 ^ 31 -> t <= now_ms c -> call_key k = Some (name, key) -> call_ok k = true ->
  (forall x, serve extract schemas text_match iter (as_event c k) x = '(x, r) ← f x; Ok (x, w r)) ->
  post (on_shard name key f s) (fun '(s', r) => s' = set_shards (shards s') s
    /\ exists A', a_serve extract schemas text_match cfgs (as_event c k) A A' (w r) /\ store_ok cfgs (n + 1) (now_ms c) A' s').
Proof.
  intros [HN Hinv Hext] Hn Ht Hk Hok Hf. unfold on_shard. set (N := length (shards s)) in *.
  pose proof (shard_of_lt name key N HN) as Hi. set (i := shard_of name key N) in *.
  eapply post_bind; [by apply post_index |]. intros x Hx. pose proof (Hinv i x Hx) as Hr.
  pose proof (serve_ok extract schemas text_match iter iter_elements cfgs n t (part N i A) x (as_event c k) Hr Hn Ht Hok) as Hs.
  rewrite Hf in Hs. destruct (f x) as [[x' r] |]; [| done]. cbn [mbind outcome_bind post] in *.
  destruct Hs as (A1 & Ha & Hr'). destruct (serve_part extract schemas text_match N i cfgs (as_event c k) A A1 (w r) name key Hk eq_refl Ha) as (A' & Ha' & Hp & Hj).
  split; [done |]. exists A'. split; [done |]. split; cbn [set_shards shards map_stores]; [by rewrite length_insert | | done].
  rewrite length_insert. fold N. intros j y Hy. destruct (decide (j = i)) as [-> | Hne].
  - rewrite list_lookup_insert_eq in Hy by done. injection Hy as <-. by rewrite Hp.
  - rewrite list_lookup_insert_ne in Hy by done. rewrite Hj by done. eapply run_inv_mono; [| | by apply Hinv]; lia.
Qed.

(** The same call on every shard: what each of them has after it, and answers. *)
Lemma each_shard_ok {R} cfgs n t A N c k (f : Inner -> outcome (Inner * R)) (w : R -> reply) l b :
  (forall i x, l !! i = Some x -> run_inv extract schemas cfgs n t (part N (b + i) A) x) ->
  0 <= n < 2 ^ 31 -> t <= now_ms c -> call_ok k = true ->
  (forall x, serve extract schemas text_match iter (as_event c k) x = '(x, r) ← f x; Ok (x, w r)) ->
  post (each_shard f l) (fun '(l', rs) => length l' = length l /\ exists As, Forall3 (fun i r A1 => a_serve extract schemas text_match cfgs (as_event c k) (part N i A) A1 (w r)) (seq b (length l)) rs As
    /\ forall i x', l' !! i = Some x' -> exists A1, As !! i = Some A1 /\ run_inv extract schemas cfgs (n + 1) (now_ms c) A1 x').
Proof.
  intros Hinv Hn Ht Hok Hf. revert b Hinv. induction l as [| x l IH]; intros b Hinv; cbn [each_shard].
  { cbn [post]. split; [done |]. exists []. split; [constructor | done]. }
  pose proof (Hinv 0%nat x eq_refl) as Hr. rewrite Nat.add_0_r in Hr.
  pose proof (serve_ok extract schemas text_match iter iter_elements cfgs n t (part N b A) x (as_event c k) Hr Hn Ht Hok) as Hs.
  rewrite Hf in Hs. destruct (f x) as [[x' r] |]; [| done]. cbn [mbind outcome_bind post] in *. destruct Hs as (A1 & Ha & Hr').
  eapply post_bind; [apply (IH (S b)) |].
  { intros i y Hy. replace (S b + i)%nat with (b + S i)%nat by lia. by apply Hinv. }
  intros [l' rs] (Hlen & As & H3 & Hl'). cbn [post length]. split; [by rewrite Hlen |]. exists (A1 :: As). split; [by constructor |].
  intros [| i] y Hy; [injection Hy as <-; eauto | by apply Hl'].
Qed.

(** The maps of the shards after a call on all of them are the parts of a map that the call leads to. *)
Lemma shards_ok {R} cfgs n t A s c k (f : Inner -> outcome (Inner * R)) (w : R -> reply) (total : list R -> reply) :
  store_ok cfgs n t A s -> 0 <= n < 2 ^ 31 -> t <= now_ms c -> call_ok k = true ->
  (forall x, serve extract schemas text_match iter (as_event c k) x = '(x, r) ← f x; Ok (x, w r)) ->
  (forall rs As, Forall3 (fun i r A1 => a_serve extract schemas text_match cfgs (as_event c k) (part (length (shards s)) i A) A1 (w r)) (seq 0 (length (shards s))) rs As ->
     exists A', a_serve extract schemas text_match cfgs (as_event c k) A A' (total rs) /\ forall i A1, As !! i = Some A1 -> A1 = part (length (shards s)) i A') ->
  post (each_shard f (shards s)) (fun '(l, rs) => exists A', a_serve extract schemas text_match cfgs (as_event c k) A A' (total rs)
    /\ store_ok cfgs (n + 1) (now_ms c) A' (set_shards l s)).
Proof.
  intros [HN Hinv Hext] Hn Ht Hok Hf HA.
  eapply post_mono; [by apply (each_shard_ok cfgs n t A (length (shards s)) c k f w _ 0) |]. intros [l rs] (Hlen & As & H3 & Hl).
  destruct (HA rs As H3) as (A' & HQ & HAs). exists A'. split; [done |]. split; cbn [set_shards shards map_stores]; rewrite ?Hlen; [done | | done].
  intros i x Hx. destruct (Hl i x Hx) as (A1 & HA1 & Hr). by rewrite <- (HAs i A1 HA1).
Qed.

(** ** The answers of the shards, put together *)

Section Gather.
Context (cfgs : gmap bytes MapConfig) (c : clocks) (A : amap) (N : nat) (HN : (0 < N)%nat).

Definition gathers {R} (k : call) (w : R -> reply) (b len : nat) (rs : list R) (As : list amap) : Prop :=
  Forall3 (fun i r A1 => a_serve extract schemas text_match cfgs (as_event c k) (part N i A) A1 (w r)) (seq b len) rs As.

(** Every map of a shard is the [i]th of its kind. *)
Lemma gathers_at {R} (k : call) (w : R -> reply) (b len : nat) (rs : list R) (As : list amap) (g : nat -> amap) :
  gathers k w b len rs As -> (forall i r A1, a_serve extract schemas text_match cfgs (as_event c k) (part N i A) A1 (w r) -> A1 = g i) ->
  forall i A1, As !! i = Some A1 -> A1 = g (b + i)%nat.
Proof.
  intros H Hg. revert b rs As H. induction len as [| len IH]; intros b rs As H i A1 Hi; cbn [seq] in H; inversion H as [| ? r A0 ? rs' As' Ha Hrest]; subst; [done |].
  destruct i as [| i]; [injection Hi as <-; rewrite Nat.add_0_r; by eapply Hg |]. replace (b + S i)%nat with (S b + i)%nat by lia. eapply IH; eauto.
Qed.

Lemma part_filter name i : part N i (filter (fun p => p.1.1 <> name) A) = filter (fun p => p.1.1 <> name) (part N i A).
Proof. unfold part. rewrite !map_filter_filter. apply map_filter_ext. intros ? ? _. tauto. Qed.

Lemma gather_clear name rs As : gathers (CClear name) (fun _ : unit => RDone) 0 N rs As ->
  exists A', a_serve extract schemas text_match cfgs (as_event c (CClear name)) A A' RDone /\ forall i A1, As !! i = Some A1 -> A1 = part N i A'.
Proof.
  intros H. exists (filter (fun p => p.1.1 <> name) A). split; [done |]. intros i A1 Hi.
  refine (gathers_at _ _ 0 N rs As (fun i => part N i _) H _ i A1 Hi). intros j r B [-> _]. by rewrite part_filter.
Qed.

Lemma gather_add_index name config rs As : gathers (CAddIndex name config) (fun _ : unit => RDone) 0 N rs As ->
  exists A', a_serve extract schemas text_match cfgs (as_event c (CAddIndex name config)) A A' RDone /\ forall i A1, As !! i = Some A1 -> A1 = part N i A'.
Proof.
  intros H. exists A. split; [done |]. intros i A1 Hi. refine (gathers_at _ _ 0 N rs As (fun i => part N i A) H _ i A1 Hi).
  by intros j r B [-> _].
Qed.

Lemma gather_size_keys name b len rs As : gathers (CSize name) RNum b len rs As ->
  exists ks, NoDup ks /\ (forall k, k ∈ ks <-> is_Some (A !! (name, k)) /\ (b <= shard_of name k N < b + len)%nat) /\ foldr Z.add 0 rs = blen ks.
Proof.
  revert b rs As. induction len as [| len IH]; intros b rs As H; cbn [seq] in H; inversion H as [| ? r A0 ? rs' As' Ha Hrest]; subst.
  { exists []. split_and!; [constructor | | done]. intros k. split; [by intros ?%elem_of_nil | lia]. }
  destruct (IH _ _ _ Hrest) as (ks & Hnd & Hks & Hsum). destruct Ha as [_ (ks0 & Hnd0 & Hks0 & [= ->])]. exists (ks0 ++ ks).
  assert (forall k, k ∈ ks0 <-> is_Some (A !! (name, k)) /\ shard_of name k N = b) as Hk0.
  { intros k. rewrite Hks0, lookup_part. case_decide; [tauto |]. split; [by intros [? ?] | tauto]. }
  split_and!; [apply NoDup_app; split_and!; try done | |].
  - intros k Hk Hk'. apply Hk0 in Hk as [_ Hk]. apply Hks in Hk' as [_ Hk']. lia.
  - intros k. rewrite elem_of_app, Hk0, Hks. split; [intros [[? ?] | [? ?]]; split; try done; lia |].
    intros [Hs Hb]. destruct (decide (shard_of name k N = b)); [by left | right; split; [done | lia]].
  - cbn [foldr]. rewrite Hsum, blen_app. done.
Qed.

Lemma gather_size name rs As : gathers (CSize name) RNum 0 N rs As ->
  exists A', a_serve extract schemas text_match cfgs (as_event c (CSize name)) A A' (RNum (foldr Z.add 0 rs)) /\ forall i A1, As !! i = Some A1 -> A1 = part N i A'.
Proof.
  intros H. exists A. split.
  - destruct (gather_size_keys name 0 N rs As H) as (ks & Hnd & Hks & ->). split; [done |]. exists ks. split_and!; try done.
    intros k. rewrite Hks. pose proof (shard_of_lt name k N HN). split; [tauto | intros; split; [done | lia]].
  - intros i A1 Hi. refine (gathers_at _ _ 0 N rs As (fun i => part N i A) H _ i A1 Hi). by intros j r B [-> _].
Qed.

(** Lists that hold, shard by shard, the live entries that satisfy [P]. *)
Lemma gather_lists name (P : bytes -> Prop) b len (rs : list (list (bytes * bytes))) As k0 :
  gathers k0 RList b len rs As ->
  (forall i l A1, a_serve extract schemas text_match cfgs (as_event c k0) (part N i A) A1 (RList l) ->
     forall k v, (k, v) ∈ l <-> live cfgs (now_ms c) (part N i A) name k = Some v /\ P v) ->
  forall k v, (k, v) ∈ concat rs <-> live cfgs (now_ms c) A name k = Some v /\ P v /\ (b <= shard_of name k N < b + len)%nat.
Proof.
  intros H HP. revert b rs As H. induction len as [| len IH]; intros b rs As H k v; cbn [seq] in H; inversion H as [| ? r A0 ? rs' As' Ha Hrest]; subst.
  { split; [by intros ?%elem_of_nil | lia]. }
  cbn [concat]. rewrite elem_of_app, (HP _ _ _ Ha), (IH _ _ _ Hrest). unfold live at 1. rewrite lookup_part. fold (live cfgs (now_ms c) A name k).
  destruct (decide (shard_of name k N = b)) as [Hb | Hb].
  - unfold live. split; [intros [[? ?] | (? & ? & ?)]; split_and!; try done; lia |]. intros (? & ? & ?). by left.
  - cbn. split; [intros [[? ?] | (? & ? & ?)]; [done | split_and!; try done; lia] |]. intros (? & ? & ?). right. split_and!; try done; lia.
Qed.

Lemma gather_entries name rs As : gathers (CEntries name) RList 0 N rs As ->
  exists A', a_serve extract schemas text_match cfgs (as_event c (CEntries name)) A A' (RList (concat rs)) /\ forall i A1, As !! i = Some A1 -> A1 = part N i A'.
Proof.
  intros H. exists A. split.
  - split; [done |]. exists (concat rs). split; [done |]. intros k v. rewrite (gather_lists name (fun _ => True) 0 N rs As _ H).
    + pose proof (shard_of_lt name k N HN). split; [tauto | intros; split_and!; try done; lia].
    + intros i l A1 [_ (l0 & [= <-] & Hl)] k' v'. rewrite Hl. cbn. tauto.
  - intros i A1 Hi. refine (gathers_at _ _ 0 N rs As (fun i => part N i A) H _ i A1 Hi). by intros j r B [-> _].
Qed.

(** Lookups of keys of other shards do nothing to a part. *)
Definition at_shard (name : bytes) (i : nat) (keys : list bytes) : list bytes := filter (fun k => shard_of name k N = i) keys.

Lemma part_finds name i keys B : part N i (a_finds cfgs (now_ms c) name keys B) = a_finds cfgs (now_ms c) name (at_shard name i keys) (part N i B).
Proof.
  unfold a_finds, at_shard. revert B. induction keys as [| k keys IH]; intros B; [done |]. cbn [foldl].
  destruct (a_find_homed N (shard_of name k N) name k eq_refl cfgs (now_ms c) B) as [_ [H1 H2]]. cbn beta in *. rewrite IH.
  destruct (decide (shard_of name k N = i)) as [Hi | Hi].
  - rewrite filter_cons_True by done. cbn [foldl]. by rewrite <- Hi, H1.
  - rewrite filter_cons_False, H2 by done. done.
Qed.

Lemma part_part i B : part N i (part N i B) = part N i B.
Proof. apply map_eq. intros [n k]. rewrite !lookup_part. by case_decide. Qed.

Lemma finds_at_shard name i keys B :
  a_finds cfgs (now_ms c) name keys (part N i B) = part N i (a_finds cfgs (now_ms c) name (at_shard name i keys) B).
Proof.
  unfold a_finds, at_shard. revert B. induction keys as [| k keys IH]; intros B; [done |]. cbn [foldl].
  destruct (decide (shard_of name k N = i)) as [Hi | Hi].
  - destruct (a_find_homed N i name k Hi cfgs (now_ms c) B) as [_ [H1 _]]. cbn beta in *.
    rewrite filter_cons_True by done. cbn [foldl]. by rewrite <- H1, IH.
  - rewrite filter_cons_False by done. assert ((a_find cfgs (now_ms c) name k (part N i B)).1 = part N i B) as ->; [| by apply IH].
    unfold a_find. by rewrite lookup_part, decide_False.
Qed.

Lemma at_shard_other name i j keys : i <> j -> at_shard name i (at_shard name j keys) = [].
Proof.
  intros Hne. unfold at_shard. induction keys as [| k keys IH]; [done |]. destruct (decide (shard_of name k N = j)).
  - rewrite filter_cons_True, filter_cons_False by congruence. done.
  - by rewrite filter_cons_False.
Qed.

Lemma gather_query_keys name p b len rs As : gathers (CQuery name p) RList b len rs As ->
  exists keys, (forall i, (i < b)%nat -> at_shard name i keys = [])
    /\ forall i A1, As !! i = Some A1 -> A1 = part N (b + i) (a_finds cfgs (now_ms c) name keys A).
Proof.
  revert b rs As. induction len as [| len IH]; intros b rs As H; cbn [seq] in H; inversion H as [| ? r A0 ? rs' As' Ha Hrest]; subst.
  { exists []. done. }
  destruct (IH _ _ _ Hrest) as (keys & Hlow & HAs). destruct Ha as [[keys0 ->] _]. exists (at_shard name b keys0 ++ keys).
  assert (forall i, at_shard name i (at_shard name b keys0 ++ keys) = at_shard name i (at_shard name b keys0) ++ at_shard name i keys) as Happ.
  { intros i. apply filter_app. }
  split.
  - intros i Hi. rewrite Happ, at_shard_other, Hlow by lia. done.
  - intros [| i] A1 Hi; cbn in Hi.
    + injection Hi as <-. cbn [as_event ev_now]. rewrite finds_at_shard, !part_finds, Nat.add_0_r, Happ, (Hlow b) by lia. by rewrite app_nil_r.
    + rewrite (HAs i A1 Hi). replace (b + S i)%nat with (S b + i)%nat by lia. rewrite !part_finds, Happ, at_shard_other by lia. done.
Qed.

Lemma gather_query name p rs As : gathers (CQuery name p) RList 0 N rs As ->
  exists A', a_serve extract schemas text_match cfgs (as_event c (CQuery name p)) A A' (RList (concat rs)) /\ forall i A1, As !! i = Some A1 -> A1 = part N i A'.
Proof.
  intros H. destruct (gather_query_keys name p 0 N rs As H) as (keys & _ & HAs). exists (a_finds cfgs (now_ms c) name keys A). split; [| done].
  split; [by exists keys |]. exists (concat rs). split; [done |]. intros Hfit k v.
  rewrite (gather_lists name (fun v => satisfies extract schemas text_match p v = true) 0 N rs As _ H).
  - pose proof (shard_of_lt name k N HN). split; [tauto | intros []; split_and!; try done; lia].
  - intros i l A1 [_ (l0 & [= <-] & Hl)] k' v'. apply Hl. intros key val Hlive. apply (Hfit key).
    unfold live in *. rewrite lookup_part in Hlive. by case_decide.
Qed.

End Gather.

(** ** Every call *)

(** The invariant does not depend on the clock or the sinks. *)
Lemma store_ok_shards cfgs n t A s s' : shards s' = shards s -> map_stores s' = ∅ -> store_ok cfgs n t A s -> store_ok cfgs n t A s'.
Proof. intros E Em [H1 H2 H3]. split; rewrite ?E; done. Qed.

Lemma on_shard_seq {R R'} name key (f : Inner -> outcome (Inner * R)) (g : R -> Inner -> outcome (Inner * R')) s :
  on_shard name key (fun x => '(x, r) ← f x; g r x) s = '(s, r) ← on_shard name key f s; on_shard name key (g r) s.
Proof.
  unfold on_shard. destruct (index (shards s) (shard_of name key (length (shards s)))) as [x |] eqn:E; [| done]. cbn [mbind outcome_bind].
  apply index_Ok in E. destruct (f x) as [[x' r] |]; [| done]. cbn [mbind outcome_bind set_shards shards]. rewrite length_insert. unfold index.
  rewrite list_lookup_insert_eq by (by eapply lookup_lt_Some). cbn [mbind outcome_bind]. destruct (g r x') as [[x'' r'] |]; [| done].
  cbn [mbind outcome_bind]. unfold set_shards. cbn [shards s_stamp_seq s_member_id map_stores structures wal_sink wan_sink].
  by rewrite list_insert_insert_eq.
Qed.

Lemma on_shard_const {R R'} name key (f : Inner -> outcome (Inner * R)) (r' : R') s :
  on_shard name key (fun x => '(x, _) ← f x; Ok (x, r')) s = '(s, _) ← on_shard name key f s; Ok (s, r').
Proof.
  unfold on_shard. destruct (index _ _) as [x |]; [| done]. cbn [mbind outcome_bind]. by destruct (f x) as [[x' r] |].
Qed.

Lemma on_shard_keep {R} name key (r : R) s : (0 < length (shards s))%nat -> on_shard name key (fun x => Ok (x, r)) s = Ok (s, r).
Proof.
  intros HN. unfold on_shard. pose proof (shard_of_lt name key _ HN) as Hi. apply lookup_lt_is_Some_2 in Hi as [x Hx].
  unfold index. rewrite Hx. cbn [mbind outcome_bind]. rewrite list_insert_id by done. by destruct s.
Qed.

Definition step_post (cfgs : gmap bytes MapConfig) (n : Z) (ev : sevent) (A : amap) (s : Store) (res : Store * reply) : Prop :=
  exists A', a_store cfgs (s_member_id s) ev A (s_stamp_seq s) A' (s_stamp_seq res.1) res.2
    /\ store_ok cfgs (n + 2) (now_ms (se_clocks ev)) A' res.1 /\ s_member_id res.1 = s_member_id s.

Section Step.
Context (cfgs : gmap bytes MapConfig) (n t : Z) (A : amap) (s : Store) (c : clocks).
Context (Hs : store_ok cfgs n t A s) (Hn0 : 0 <= n) (Hn : n + 2 <= 2 ^ 31) (Ht : t <= now_ms c).

(** A call on one shard of a store whose clock and map stores were called before. *)
Lemma shard_call {R} s1 k name key (f : Inner -> outcome (Inner * R)) (w : R -> reply) :
  shards s1 = shards s -> map_stores s1 = ∅ -> call_key k = Some (name, key) -> call_ok k = true ->
  (forall x, serve extract schemas text_match iter (as_event c k) x = '(x, r) ← f x; Ok (x, w r)) ->
  post (on_shard name key f s1) (fun '(s', r) => s' = set_shards (shards s') s1
    /\ exists A', a_serve extract schemas text_match cfgs (as_event c k) A A' (w r) /\ store_ok cfgs (n + 2) (now_ms c) A' s').
Proof.
  intros E Em Hk Hok Hf. pose proof (store_ok_shards _ _ _ _ _ _ E Em Hs) as Hs1.
  eapply post_mono; [by apply (on_shard_ok cfgs n t A s1 c k name key f w); (done || lia) |].
  intros [s' r] (Es & A' & Ha & Hok'). split; [done |]. exists A'. split; [done |]. eapply store_ok_mono; [| | exact Hok']; lia.
Qed.

Lemma ext_empty name g : alter g name (map_stores s) = ∅.
Proof. rewrite (so_ext _ _ _ _ _ Hs). apply map_eq. intros k. rewrite lookup_empty. destruct (decide (name = k)) as [-> | Hne]; [by rewrite lookup_alter_eq, lookup_empty | by rewrite lookup_alter_ne, lookup_empty]. Qed.

(** A call on one key: [s1] is the store when the shard is called, [fin] what is done after that. *)
Lemma key_call {R} (o : scall) s1 k name key (f : Inner -> outcome (Inner * R)) (w w' : R -> reply) (fin : Store -> Store) :
  shards s1 = shards s -> map_stores s1 = ∅ -> s_member_id s1 = s_member_id s -> call_key k = Some (name, key) -> call_ok k = true ->
  (forall x, serve extract schemas text_match iter (as_event c k) x = '(x, r) ← f x; Ok (x, w r)) ->
  (forall s', shards (fin s') = shards s' /\ map_stores (fin s') = map_stores s' /\ s_member_id (fin s') = s_member_id s') ->
  (forall A' l r, a_serve extract schemas text_match cfgs (as_event c k) A A' (w r) ->
     a_store cfgs (s_member_id s) (mk_sevent c o) A (s_stamp_seq s) A' (s_stamp_seq (fin (set_shards l s1))) (w' r)) ->
  post (on_shard name key f s1) (fun '(s', r) => step_post cfgs n (mk_sevent c o) A s (fin s', w' r)).
Proof.
  intros E Em Eid Hk Hok Hf Hfin Ha. eapply post_mono; [by eapply (shard_call s1 k name key f w) |].
  intros [s' r] (Es & A' & Has & Hok'). destruct (Hfin s') as (F1 & F2 & F3). exists A'. cbn [fst snd se_clocks]. split_and!.
  - rewrite Es. by apply Ha.
  - eapply store_ok_shards; [exact F1 | rewrite F2; apply Hok' | exact Hok'].
  - rewrite F3, Es. exact Eid.
Qed.

End Step.

(** The shapes in which a call goes on after its shard has answered. *)
Lemma finish_value {R} (m : outcome (Store * R)) (fin : Store -> Store) (w : R -> reply) (Q : Store * reply -> Prop) :
  post m (fun '(s, r) => Q (fin s, w r)) -> post ('(s, r) ← ('(s, old) ← m; Ok (fin s, old)); Ok (s, w r)) Q.
Proof. by destruct m as [[s r] |]. Qed.

Lemma finish_plain {R} (m : outcome (Store * R)) (w : R -> reply) (Q : Store * reply -> Prop) :
  post m (fun '(s, r) => Q (s, w r)) -> post ('(s, r) ← m; Ok (s, w r)) Q.
Proof. by destruct m as [[s r] |]. Qed.

Lemma finish_done {R} (m : outcome (Store * R)) (fin : Store -> Store) (Q : Store * reply -> Prop) :
  post m (fun '(s, r) => Q (fin s, RDone)) -> post (s ← ('(s, _) ← m; Ok (fin s)); Ok (s, RDone)) Q.
Proof. by destruct m as [[s r] |]. Qed.

Lemma serve_doing k c f : (forall x, serve extract schemas text_match iter (as_event c k) x = s ← f x; Ok (s, RDone)) ->
  forall x, serve extract schemas text_match iter (as_event c k) x = '(x, r) ← doing f x; Ok (x, RDone).
Proof. intros H x. rewrite H. unfold doing. by destruct (f x). Qed.

Section Calls.
Context (cfgs : gmap bytes MapConfig) (n t : Z) (A : amap) (s : Store) (c : clocks).
Context (Hs : store_ok cfgs n t A s) (Hn0 : 0 <= n) (Hn : n + 2 <= 2 ^ 31) (Ht : t <= now_ms c).

Abbreviation call_post o := (step_post cfgs n (mk_sevent c o) A s).
Abbreviation key_call := (key_call cfgs n t A s c Hs Hn0 Hn Ht).
Abbreviation same := (fun _ => conj eq_refl (conj eq_refl eq_refl)).

Lemma put_ttl_call m k v ttl : blen k + blen v < 2 ^ 32 -> post (serve_store (mk_sevent c (SPutTtl m k v ttl)) s) (call_post (SPutTtl m k v ttl)).
Proof.
  intros Hkv. set (st := next_stamp_at (s_member_id s) (wall_ms c) (s_stamp_seq s)).
  apply (finish_value (on_shard m k (Table.put extract schemas (now_ms c) (rnd c) m k v ttl st) (set_stamp_seq st (tell_ext m (ext_store k v) s))) (emit (Put (mk_put st ttl m k v)))).
  apply (key_call _ _ (CPut m k v ttl st) m k _ RVal); try done; [by eapply ext_empty | by apply Z.ltb_lt].
Qed.

Lemma put_call m k v : blen k + blen v < 2 ^ 32 -> post (serve_store (mk_sevent c (SPut m k v)) s) (call_post (SPut m k v)).
Proof.
  intros Hkv. set (st := next_stamp_at (s_member_id s) (wall_ms c) (s_stamp_seq s)).
  apply (finish_value (on_shard m k (Table.put extract schemas (now_ms c) (rnd c) m k v 0 st) (set_stamp_seq st (tell_ext m (ext_store k v) s))) (emit (Put (mk_put st 0 m k v)))).
  apply (key_call _ _ (CPut m k v 0 st) m k _ RVal); try done; [by eapply ext_empty | by apply Z.ltb_lt].
Qed.

Lemma put_stamped_call m k v ttl st : blen k + blen v < 2 ^ 32 -> post (serve_store (mk_sevent c (SPutStamped m k v ttl st)) s) (call_post (SPutStamped m k v ttl st)).
Proof.
  intros Hkv. apply (finish_plain (on_shard m k (Table.put extract schemas (now_ms c) (rnd c) m k v ttl st) s)).
  apply (key_call _ _ (CPut m k v ttl st) m k _ RVal RVal id); try done; [exact (so_ext _ _ _ _ _ Hs) | by apply Z.ltb_lt].
Qed.

Lemma put_merge_call m k v ttl st latest : blen k + blen v < 2 ^ 32 ->
  post (serve_store (mk_sevent c (SPutMerge m k v ttl st latest)) s) (call_post (SPutMerge m k v ttl st latest)).
Proof.
  intros Hkv. apply (finish_done (on_shard m k (doing (Table.put_merge extract schemas (now_ms c) (rnd c) m k v ttl st latest)) (observe st s)) (emit (Put (mk_put st ttl m k v)))).
  apply (key_call _ _ (CPutMerge m k v ttl st latest) m k _ (fun _ => RDone) (fun _ => RDone)); try done;
    [exact (so_ext _ _ _ _ _ Hs) | by apply Z.ltb_lt | by apply serve_doing].
Qed.

Lemma apply_wan_call is_put m k v ttl st : blen k + blen v < 2 ^ 32 ->
  post (serve_store (mk_sevent c (SApplyWan is_put m k v ttl st)) s) (call_post (SApplyWan is_put m k v ttl st)).
Proof.
  intros Hkv. destruct is_put.
  - apply (finish_done (on_shard m k (doing (Table.put_merge extract schemas (now_ms c) (rnd c) m k v ttl st true)) (observe st s)) (emit_wal (Put (mk_put st ttl m k v)))).
    apply (key_call _ _ (CPutMerge m k v ttl st true) m k _ (fun _ => RDone) (fun _ => RDone)); try done;
      [exact (so_ext _ _ _ _ _ Hs) | by apply Z.ltb_lt | by apply serve_doing].
  - apply (finish_done (on_shard m k (Table.remove extract schemas (now_ms c) m k) (observe st s)) (emit_wal (Remove (mk_remove st m k)))).
    apply (key_call _ _ (CRemove m k) m k _ RVal (fun _ => RDone)); try done; [exact (so_ext _ _ _ _ _ Hs) |]. intros A' l r Ha. split_and!; eauto.
Qed.

Lemma get_call m k : post (serve_store (mk_sevent c (SGet m k)) s) (call_post (SGet m k)).
Proof.
  unfold serve_store, get. cbn [se_call se_clocks].
  pose proof (key_call (SGet m k) s (CGet m k) m k (Table.get (now_ms c) m k) RVal RVal id eq_refl (so_ext _ _ _ _ _ Hs) eq_refl eq_refl eq_refl (fun _ => eq_refl) same
    (fun A' l r Ha => conj eq_refl Ha)) as H.
  destruct (on_shard m k (Table.get (now_ms c) m k) s) as [[s' [v |]] |]; [done | | done]. cbn [mbind outcome_bind post] in *.
  unfold load_through. destruct H as (A' & Ha & Hok & Eid). pose proof (so_ext _ _ _ _ _ Hok) as He. cbn in He. rewrite He, lookup_empty. cbn [mbind option_bind outcome_bind post]. by exists A'.
Qed.

Lemma contains_call m k : post (serve_store (mk_sevent c (SContains m k)) s) (call_post (SContains m k)).
Proof.
  apply (finish_plain (on_shard m k (Table.contains_key (now_ms c) m k) s)).
  apply (key_call _ _ (CContains m k) m k _ RBool RBool id); try done. exact (so_ext _ _ _ _ _ Hs).
Qed.

Lemma remove_call m k : post (serve_store (mk_sevent c (SRemove m k)) s) (call_post (SRemove m k)).
Proof.
  set (st := next_stamp_at (s_member_id s) (wall_ms c) (s_stamp_seq s)). unfold serve_store, remove. cbn [se_call se_clocks].
  pose proof (key_call (SRemove m k) (tell_ext m (ext_delete k) s) (CRemove m k) m k (Table.remove extract schemas (now_ms c) m k) RVal RVal
    (fun s => emit (Remove (mk_remove (next_stamp_at (s_member_id s) (wall_ms c) (s_stamp_seq s)) m k)) (set_stamp_seq (next_stamp_at (s_member_id s) (wall_ms c) (s_stamp_seq s)) s))
    eq_refl (ext_empty _ _ _ _ _ Hs _ _) eq_refl eq_refl eq_refl (fun _ => eq_refl) same (fun A' l r Ha => conj eq_refl Ha)) as H.
  by destruct (on_shard m k (Table.remove extract schemas (now_ms c) m k) (tell_ext m (ext_delete k) s)) as [[s' r] |].
Qed.

Lemma put_if_absent_call m k v ttl : blen k + blen v < 2 ^ 32 -> post (serve_store (mk_sevent c (SPutIfAbsent m k v ttl)) s) (call_post (SPutIfAbsent m k v ttl)).
Proof.
  intros Hkv. set (st := next_stamp_at (s_member_id s) (wall_ms c) (s_stamp_seq s)).
  apply (finish_plain (on_shard m k (Table.put_if_absent extract schemas (now_ms c) (rnd c) m k v ttl st) (set_stamp_seq st s))).
  apply (key_call _ _ (CPutIfAbsent m k v ttl st) m k _ RVal RVal id); try done; [exact (so_ext _ _ _ _ _ Hs) | by apply Z.ltb_lt].
Qed.

Lemma replace_call m k v : blen k + blen v < 2 ^ 32 -> post (serve_store (mk_sevent c (SReplace m k v)) s) (call_post (SReplace m k v)).
Proof.
  intros Hkv. apply (finish_plain (on_shard m k (Table.replace extract schemas (now_ms c) m k v) s)).
  apply (key_call _ _ (CReplace m k v) m k _ RVal RVal id); try done; [exact (so_ext _ _ _ _ _ Hs) | by apply Z.ltb_lt].
Qed.

Lemma mc_update_call m k f : (forall cur, match f cur with McStore v _ => blen k + blen v < 2 ^ 32 | _ => True end) ->
  post (serve_store (mk_sevent c (SMcUpdate m k f)) s) (call_post (SMcUpdate m k f)).
Proof.
  intros Hkv. set (st := next_stamp_at (s_member_id s) (wall_ms c) (s_stamp_seq s)).
  apply (finish_plain (on_shard m k (fun x => '(x, cur) ← Table.get (now_ms c) m k x;
    match f cur with
    | McStore v ttl => '(x, _) ← Table.put extract schemas (now_ms c) (rnd c) m k v ttl st x; Ok (x, cur)
    | McRemove => '(x, _) ← Table.remove extract schemas (now_ms c) m k x; Ok (x, cur)
    | McKeep => Ok (x, cur)
    end) (set_stamp_seq st s))).
  rewrite (on_shard_seq m k (Table.get (now_ms c) m k) (fun cur x => match f cur with
    | McStore v ttl => '(x, _) ← Table.put extract schemas (now_ms c) (rnd c) m k v ttl st x; Ok (x, cur)
    | McRemove => '(x, _) ← Table.remove extract schemas (now_ms c) m k x; Ok (x, cur)
    | McKeep => Ok (x, cur)
    end)).
  assert (store_ok cfgs n t A (set_stamp_seq st s)) as Hs0 by (eapply store_ok_shards; [| exact (so_ext _ _ _ _ _ Hs) | exact Hs]; done).
  eapply post_bind; [apply (on_shard_ok cfgs n t A (set_stamp_seq st s) c (CGet m k) m k _ RVal); try done; lia |].
  intros [s1 cur] (E1 & A1 & Ha1 & Hs1). assert (s_stamp_seq s1 = st /\ s_member_id s1 = s_member_id s) as [Eq Eid] by (by rewrite E1).
  specialize (Hkv cur). destruct (f cur) as [v ttl | |] eqn:Ef.
  - rewrite on_shard_const. eapply post_bind; [apply (on_shard_ok cfgs (n + 1) (now_ms c) A1 s1 c (CPut m k v ttl st) m k _ RVal); try done; (lia || by apply Z.ltb_lt) |].
    intros [s2 r] (E2 & A2 & Ha2 & Hs2). cbn [post]. unfold step_post, a_store. exists A2. cbn [fst snd se_call se_clocks].
    split_and!; [rewrite E2; exact Eq | exists A1, cur; rewrite Ef; by eauto | by eapply store_ok_mono; [| | exact Hs2]; lia | by rewrite E2].
  - rewrite on_shard_const. eapply post_bind; [apply (on_shard_ok cfgs (n + 1) (now_ms c) A1 s1 c (CRemove m k) m k _ RVal); try done; lia |].
    intros [s2 r] (E2 & A2 & Ha2 & Hs2). cbn [post]. unfold step_post, a_store. exists A2. cbn [fst snd se_call se_clocks].
    split_and!; [rewrite E2; exact Eq | exists A1, cur; rewrite Ef; by eauto | by eapply store_ok_mono; [| | exact Hs2]; lia | by rewrite E2].
  - rewrite on_shard_keep by apply Hs1. cbn [post]. unfold step_post, a_store. exists A1. cbn [fst snd se_call se_clocks].
    split_and!; [done | exists A1, cur; rewrite Ef; by eauto | by eapply store_ok_mono; [| | exact Hs1]; lia | done].
Qed.

(** Calls on all shards. *)
Lemma each_post {R} o k (f : Inner -> outcome (Inner * R)) (w : R -> reply) (total : list R -> reply) :
  call_ok k = true -> (forall x, serve extract schemas text_match iter (as_event c k) x = '(x, r) ← f x; Ok (x, w r)) ->
  (forall rs As, gathers cfgs c A (length (shards s)) k w 0 (length (shards s)) rs As ->
     exists A', a_serve extract schemas text_match cfgs (as_event c k) A A' (total rs) /\ forall i A1, As !! i = Some A1 -> A1 = part (length (shards s)) i A') ->
  (forall A' r, a_serve extract schemas text_match cfgs (as_event c k) A A' r -> a_store cfgs (s_member_id s) (mk_sevent c o) A (s_stamp_seq s) A' (s_stamp_seq s) r) ->
  post (each_shard f (shards s)) (fun '(l, rs) => call_post o (set_shards l s, total rs)).
Proof.
  intros Hok Hf Hg Ha. eapply post_mono; [apply (shards_ok cfgs n t A s c k f w total Hs); try done; lia |].
  intros [l rs] (A' & Has & Hok'). exists A'. cbn [fst snd]. split_and!; [by apply Ha | by eapply store_ok_mono; [| | exact Hok']; cbn; lia | done].
Qed.

(** A call that only reads leaves the store as it was. *)
Lemma read_post o l r : call_post o (set_shards l s, r) ->
  (forall A', a_store cfgs (s_member_id s) (mk_sevent c o) A (s_stamp_seq s) A' (s_stamp_seq s) r -> A' = A) -> call_post o (s, r).
Proof.
  intros (A' & Ha & _) HA. cbn [fst snd set_shards s_stamp_seq] in Ha. pose proof (HA A' Ha) as ->. exists A. cbn [fst snd]. split_and!; try done.
  eapply store_ok_mono; [| | exact Hs]; cbn; lia.
Qed.

Lemma clear_call m : post (serve_store (mk_sevent c (SClear m)) s) (call_post (SClear m)).
Proof.
  pose proof (each_post (SClear m) (CClear m) (doing (Table.clear m)) (fun _ => RDone) (fun _ => RDone) eq_refl
    (serve_doing (CClear m) c (Table.clear m) (fun _ => eq_refl))
    (gather_clear cfgs c A _ (so_shards _ _ _ _ _ Hs) m) (fun A' r Ha => conj eq_refl Ha)) as H.
  unfold serve_store, clear, on_shards. cbn [se_call se_clocks]. by destruct (each_shard _ _) as [[l rs] |].
Qed.

Lemma add_index_call m config : post (serve_store (mk_sevent c (SAddIndex m config)) s) (call_post (SAddIndex m config)).
Proof.
  pose proof (each_post (SAddIndex m config) (CAddIndex m config) (doing (Table.add_index extract schemas (now_ms c) m config)) (fun _ => RDone) (fun _ => RDone) eq_refl
    (serve_doing (CAddIndex m config) c (Table.add_index extract schemas (now_ms c) m config) (fun _ => eq_refl)) (gather_add_index cfgs c A _ (so_shards _ _ _ _ _ Hs) m config) (fun A' r Ha => conj eq_refl Ha)) as H.
  unfold serve_store, add_index, on_shards. cbn [se_call se_clocks]. by destruct (each_shard _ _) as [[l rs] |].
Qed.

Lemma serve_asking {R} k (f : Inner -> outcome R) w : (forall x, serve extract schemas text_match iter (as_event c k) x = r ← f x; Ok (x, w r)) ->
  forall x, serve extract schemas text_match iter (as_event c k) x = '(x, r) ← asking f x; Ok (x, w r).
Proof. intros H x. rewrite H. unfold asking. by destruct (f x). Qed.

Lemma size_call m : post (serve_store (mk_sevent c (SSize m)) s) (call_post (SSize m)).
Proof.
  pose proof (each_post (SSize m) (CSize m) (asking (map_len m)) RNum (fun ns => RNum (foldr Z.add 0 ns)) eq_refl (serve_asking (CSize m) (map_len m) RNum (fun _ => eq_refl))
    (gather_size cfgs c A _ (so_shards _ _ _ _ _ Hs) m) (fun A' r Ha => conj eq_refl Ha)) as H.
  unfold serve_store, size. cbn [se_call se_clocks]. destruct (each_shard _ _) as [[l rs] |]; [| done]. cbn [mbind outcome_bind post] in *.
  eapply read_post; [exact H |]. by intros A' [_ [-> _]].
Qed.

Lemma entries_call m : post (serve_store (mk_sevent c (SEntries m)) s) (call_post (SEntries m)).
Proof.
  pose proof (each_post (SEntries m) (CEntries m) (asking (collect_entries (now_ms c) m)) RList (fun ls => RList (concat ls)) eq_refl (serve_asking (CEntries m) (collect_entries (now_ms c) m) RList (fun _ => eq_refl))
    (gather_entries cfgs c A _ (so_shards _ _ _ _ _ Hs) m) (fun A' r Ha => conj eq_refl Ha)) as H.
  unfold serve_store, entries. cbn [se_call se_clocks]. destruct (each_shard _ _) as [[l rs] |]; [| done]. cbn [mbind outcome_bind post] in *.
  eapply read_post; [exact H |]. by intros A' [_ [-> _]].
Qed.

Lemma query_call m p : ranges_ok p = true -> plain p = true -> post (serve_store (mk_sevent c (SQuery m p)) s) (call_post (SQuery m p)).
Proof.
  intros Hr Hp. pose proof (each_post (SQuery m p) (CQuery m p) (Table.query extract schemas text_match iter (now_ms c) m p) RList (fun ls => RList (concat ls)) Hr (fun _ => eq_refl)
    (gather_query cfgs c A _ (so_shards _ _ _ _ _ Hs) m p) (fun A' r Ha => conj eq_refl Ha)) as H.
  assert (query extract schemas text_match iter c m p s = '(s, ls) ← on_shards (Table.query extract schemas text_match iter (now_ms c) m p) s; Ok (s, concat ls)) as E
    by (by destruct p).
  unfold serve_store. cbn [se_call se_clocks]. rewrite E. unfold on_shards. by destruct (each_shard _ _) as [[l rs] |].
Qed.

End Calls.

Lemma serve_store_ok cfgs n t A s ev :
  store_ok cfgs n t A s -> 0 <= n -> n + 2 <= 2 ^ 31 -> t <= now_ms (se_clocks ev) -> scall_ok (se_call ev) ->
  post (serve_store ev s) (step_post cfgs n ev A s).
Proof.
  intros Hs Hn0 Hn Ht Hok. destruct ev as [c []]; cbn [se_call se_clocks scall_ok] in *.
  - by apply (put_call cfgs n t).
  - by apply (put_ttl_call cfgs n t).
  - by apply (put_stamped_call cfgs n t).
  - by apply (put_merge_call cfgs n t).
  - by apply (apply_wan_call cfgs n t).
  - by apply (get_call cfgs n t).
  - by apply (contains_call cfgs n t).
  - by apply (remove_call cfgs n t).
  - by apply (put_if_absent_call cfgs n t).
  - by apply (replace_call cfgs n t).
  - by apply (mc_update_call cfgs n t).
  - by apply (clear_call cfgs n t).
  - by apply (size_call cfgs n t).
  - by apply (entries_call cfgs n t).
  - by apply (add_index_call cfgs n t).
  - destruct Hok. by apply (query_call cfgs n t).
Qed.

Fixpoint in_time (t : Z) (evs : list sevent) : bool :=
  match evs with [] => true | ev :: evs => (t <=? now_ms (se_clocks ev)) && in_time (now_ms (se_clocks ev)) evs end.

Lemma serve_stores_ok cfgs n t A s evs :
  store_ok cfgs n t A s -> 0 <= n -> n + 2 * blen evs <= 2 ^ 31 -> in_time t evs = true -> Forall (fun ev => scall_ok (se_call ev)) evs ->
  post (serve_stores evs s) (fun '(s', rs) => exists A' t', a_stores cfgs (s_member_id s) evs A (s_stamp_seq s) A' rs /\ store_ok cfgs (n + 2 * blen evs) t' A' s').
Proof.
  revert n t A s. induction evs as [| ev evs IH]; intros n t A s Hs Hn Hlen; cbn [in_time serve_stores].
  { intros _ _. cbn [post]. exists A, t. split; [done |]. change (blen []) with 0. by replace (n + 2 * 0) with n by lia. }
  intros [Ht%Z.leb_le Hord]%andb_true_iff [Hok Hoks]%Forall_cons. rewrite blen_cons in *. pose proof (blen_nonneg evs).
  eapply post_bind; [by apply (serve_store_ok cfgs n t A); (done || lia) |]. intros [s1 r] (A1 & Ha1 & Hs1 & Eid). cbn [fst snd] in *.
  eapply post_bind; [apply (IH (n + 2) (now_ms (se_clocks ev)) A1 s1); (done || lia) |]. intros [s2 rs] (A2 & t2 & Ha2 & Hs2). cbn [post].
  exists A2, t2. split; [exists A1, (s_stamp_seq s1); split; [done | by rewrite <- Eid] |]. by replace (n + 2 * (1 + blen evs)) with (n + 2 + 2 * blen evs) by lia.
Qed.

(** A store with [n] shards after [set_config] calls. *)
Definition store0 (n : nat) (member : Z) (cfgs : list (bytes * MapConfig)) : outcome Store :=
  s ← with_shards_seed n member; Ok (foldl (fun s c => set_config c.1 c.2 s) s cfgs).

Lemma store0_ok n member cfgs t : (0 < n)%nat ->
  exists s, store0 n member cfgs = Ok s /\ store_ok (configs (shard0 cfgs)) 0 t ∅ s /\ s_member_id s = member /\ s_stamp_seq s = 0.
Proof.
  intros Hn. unfold store0, with_shards_seed. destruct n as [| n]; [lia |]. cbn [Nat.leb mbind outcome_bind]. eexists. split; [done |].
  set (s := mk_store 0 member (replicate (S n) new_inner) ∅ no_structures None None).
  assert (forall l, let s' := foldl (fun s c => set_config c.1 c.2 s) s l in
    shards s' = replicate (S n) (shard0 l) /\ map_stores s' = ∅ /\ s_member_id s' = member /\ s_stamp_seq s' = 0) as H.
  { intros l. induction l as [| cf l IH] using rev_ind; [done |]. rewrite foldl_app. cbn [foldl] in *. set (s0 := foldl _ s l) in *. destruct IH as (E1 & E2 & E3 & E4). clearbody s0.
    unfold set_config, set_shards. cbn [shards map_stores s_member_id s_stamp_seq]. rewrite E1. split_and!; try done.
    unfold shard0. rewrite foldl_app. cbn [foldl]. apply fmap_replicate. }
  destruct (H cfgs) as (E1 & E2 & E3 & E4). split_and!; try done. split; rewrite ?E1, ?length_replicate; [lia | | done].
  intros i x [-> _]%lookup_replicate. assert (part (S n) i ∅ = ∅) as -> by apply map_filter_empty. apply shard0_ok.
Qed.

End Runs.


(** ** A run on three shards *)

Definition no_ext : MapStore := Build_MapStore Empty_set (fun x _ => match x with end) (fun _ _ x => x) (fun _ x => x).

Definition people : SchemaService := (put_schema person new_service).1.

Definition ex_sevents : list sevent :=
  let at_ t o := mk_sevent (mk_clocks t (fun n => Z.of_nat n) (1000 + t)) o in
  let p := bstr "people" in
  [ at_ 10 (SPut p (bstr "ann") person_value); at_ 11 (SPutTtl p (bstr "bob") (bstr "x") 50); at_ 12 (SAddIndex p (mk_config None TSorted [bstr "age"]));
    at_ 13 (SPutMerge p (bstr "bob") (bstr "old") 0 1 true); at_ 20 (SGet p (bstr "bob")); at_ 21 (SQuery p (Compare (bstr "age") OGt (I32 0)));
    at_ 100 (SGet p (bstr "bob")); at_ 101 (SSize p); at_ 102 (SMcUpdate p (bstr "ann") (fun _ => McRemove)); at_ 103 (SEntries p); at_ 104 (SClear p) ].

Lemma ex_sevents_ok : Forall (fun ev => scall_ok (se_call ev)) ex_sevents.
Proof. repeat (apply Forall_cons; split; [vm_compute; first [done | split; reflexivity | intros; exact I] |]). constructor. Qed.

