(* ===== verification/StoreQuery.v ===== *)
(** * Pages of a query's result *)

From S2P Require Import Prelude Fixed FieldValue QueryIndex Schema Extract Table TableRun Hlc WalRecord AuxStore Store StoreRun.

Definition key_before (p q : bytes * bytes) : bool := match bytes_cmp p.1 q.1 with Lt => true | _ => false end.

(** Keys in order, none after a smaller one. *)
Definition in_key_order (l : list (bytes * bytes)) : Prop := forall i j p q, (i < j)%nat -> l !! i = Some p -> l !! j = Some q -> key_before q p = false.

Lemma insert_in_order x l : in_key_order l -> in_key_order (sort_insert key_before x l).
Proof.
  induction l as [| y l IH]; intros Hl; cbn [sort_insert].
  - intros i j p q Hij Hi Hj. destruct i, j; cbn in *; try done; lia.
  - assert (in_key_order l) as Hl'. { intros i j p q Hij Hi Hj. by apply (Hl (S i) (S j)); [lia | |]. }
    destruct (key_before y x) eqn:E.
    + intros i j p q Hij Hi Hj. destruct j as [| j]; [lia |]. cbn in Hj. destruct i as [| i]; cbn in Hi; [| by eapply (IH Hl' i j); [lia | |]].
      injection Hi as <-. apply list_elem_of_lookup_2 in Hj. rewrite sort_insert_perm in Hj. apply elem_of_cons in Hj as [-> | Hj].
      * unfold key_before in *. rewrite bytes_cmp_antisym. by destruct (bytes_cmp y.1 x.1).
      * apply list_elem_of_lookup in Hj as [k Hk]. by apply (Hl 0%nat (S k)); [lia | |].
    + intros i j p q Hij Hi Hj. destruct j as [| j]; [lia |]. cbn in Hj. destruct i as [| i]; cbn in Hi; [| by apply (Hl i j); [lia | |]].
      injection Hi as <-. destruct j as [| j]; cbn in Hj; [by injection Hj as <- |].
      assert (key_before q y = false) as Hq by (by apply (Hl 0%nat (S j)); [lia | |]).
      unfold key_before in *. destruct (bytes_cmp q.1 x.1) eqn:Eq; [done | | done].
      destruct (bytes_cmp y.1 x.1) eqn:Ey; [apply bytes_cmp_eq in Ey; rewrite Ey in Hq; by rewrite Eq in Hq | done |].
      assert (bytes_cmp x.1 y.1 = Lt) as Hxy by (rewrite bytes_cmp_antisym, Ey; done).
      by rewrite (bytes_cmp_lt_trans _ _ _ Eq Hxy) in Hq.
Qed.

Lemma sort_by_key_ok l : sort_by_key l ≡ₚ l /\ in_key_order (sort_by_key l).
Proof.
  split; [apply stable_sort_perm |]. unfold sort_by_key. fold key_before. induction l as [| x l IH]; [by intros i j p q _ [] |].
  by apply insert_in_order.
Qed.

Lemma page_of_ok page size l : 0 <= page < 2 ^ 31 -> 0 < size < 2 ^ 31 -> blen l < 2 ^ 62 ->
  page_of page size l = Ok (take (Z.to_nat size) (drop (Z.to_nat (page * size)) l)).
Proof.
  intros Hp Hs Hl. pose proof (blen_nonneg l). assert (0 <= page * size < 2 ^ 62) as Hps by nia.
  unfold page_of. rewrite !(wrap_u64_small page), !(wrap_u64_small size) by (unfold is_u64; lia).
  rewrite (wrap_u64_small (page * size)) by (unfold is_u64; lia). rewrite wrap_u64_small by (unfold is_u64; lia).
  rewrite (proj2 (Z.leb_le _ _)) by lia. f_equal. unfold blen in *. destruct (Z.le_gt_cases (page * size) (Z.of_nat (length l))).
  - rewrite (Z.min_l (page * size)) by lia. destruct (Z.le_gt_cases (page * size + size) (Z.of_nat (length l))).
    + rewrite Z.min_l by lia. f_equal. lia.
    + rewrite Z.min_r by lia. rewrite !take_ge by (rewrite length_drop; lia). done.
  - rewrite !drop_ge by lia. by rewrite !take_nil.
Qed.

Lemma concat_pages {A} size k (l : list A) : concat (map (fun i => take size (drop (i * size) l)) (seq 0 k)) = take (k * size) l.
Proof.
  induction k as [| k IH]; [done |]. rewrite seq_S, map_app, concat_app, IH. cbn [map concat]. rewrite app_nil_r, Nat.add_0_l.
  replace (S k * size)%nat with (k * size + size)%nat by lia. by rewrite take_take_drop.
Qed.

(** The pages of a query are exact: a page holds the next [size] entries of the result in key order, and the
    first k pages together are its first k * size entries. *)
Theorem pages_partition_result {Schemas} extract (schemas : Schemas) text_match iter {X : MapStore} c map p it size s s' matched :
  0 < size < 2 ^ 31 -> blen matched < 2 ^ 62 -> query extract schemas text_match iter c map p s = Ok (s', matched) ->
  exists sorted, sorted ≡ₚ matched /\ in_key_order sorted
    /\ (forall page, 0 <= page < 2 ^ 31 -> query extract schemas text_match iter c map (Paging (Some p) page size it) s
          = Ok (s', take (Z.to_nat size) (drop (Z.to_nat (page * size)) sorted)))
    /\ forall k, concat (List.map (fun page => take (Z.to_nat size) (drop (page * Z.to_nat size) sorted)) (seq 0 k)) = take (k * Z.to_nat size) sorted.
Proof.
  intros Hs Hl Hq. destruct (sort_by_key_ok matched) as [Hp Ho]. exists (sort_by_key matched). split_and!; [done | done | |].
  - intros page Hpage. cbn [query]. rewrite Hq. cbn [mbind outcome_bind]. rewrite page_of_ok; [done | done | done |].
    unfold blen in *. by rewrite Hp.
  - intros k. apply concat_pages.
Qed.

(** Two entries on three shards, queried by pages of one. *)
Definition ex_pages : list sevent :=
  let at_ t o := mk_sevent (mk_clocks t (fun n => Z.of_nat n) (1000 + t)) o in
  [ at_ 10 (SPut (bstr "m") (bstr "b") (bstr "1")); at_ 11 (SPut (bstr "m") (bstr "a") (bstr "2")) ].

Definition ex_store : outcome (Store (X := no_ext)) :=
  s ← store0 (X := no_ext) 3 7 [];
  '(s, _) ← serve_stores (X := no_ext) field_of people no_text ex_iter ex_pages s;
  Ok s.

Definition ex_query (p : Predicate) (s : Store (X := no_ext)) : outcome (Store (X := no_ext) * list (bytes * bytes)) :=
  query (X := no_ext) field_of people no_text ex_iter (mk_clocks 20 (fun n => Z.of_nat n) 0) (bstr "m") p s.

Definition ex_page (page size : Z) : outcome (list (bytes * bytes)) :=
  s ← ex_store; '(_, l) ← ex_query (Paging (Some PTrue) page size []) s; Ok l.

Lemma ex_count : (s ← ex_store; '(_, l) ← ex_query PTrue s; Ok (blen l)) = Ok 2.
Proof. vm_compute. reflexivity. Qed.

Lemma pages_partition_result_witness :
  exists s s' matched sorted, ex_query PTrue s = Ok (s', matched) /\ blen matched = 2 /\ sorted ≡ₚ matched /\ in_key_order sorted.
Proof.
  pose proof ex_count as E. destruct ex_store as [s |]; [| discriminate E]. cbn [mbind outcome_bind] in E.
  destruct (ex_query PTrue s) as [[s' matched] |] eqn:Q; [| discriminate E]. cbn [mbind outcome_bind] in E. injection E as E.
  destruct (pages_partition_result field_of people no_text ex_iter (X := no_ext) _ (bstr "m") PTrue [] 1 s s' matched ltac:(lia) ltac:(lia) Q) as (sorted & Hp & Ho & _).
  by exists s, s', matched, sorted.
Defined.

Example pages : ex_page 0 1 = Ok [(bstr "a", bstr "2")] /\ ex_page 1 1 = Ok [(bstr "b", bstr "1")] /\ ex_page 2 1 = Ok [].
Proof. vm_compute. auto. Qed.

(** A page size of -1, which a client may send, panics. *)
Theorem negative_page_size_panics : ex_page 1 (-1) = Panic.
Proof. vm_compute. reflexivity. Qed.
