(* ===== verification/Recovery.v ===== *)
(** * Snapshots, recovery and the persistence thread (crates/persistence/src/snapshot.rs, lib.rs;
      crates/server/src/persist_thread.rs) *)

From S2P Require Import Prelude Framed FieldValue QueryIndex Schema Table Hlc WalRecord AuxStore Store.

(** ** The snapshot file *)

Definition MAGIC : bytes := bstr "BSNP".
Definition VERSION : Z := 1.
Definition SECTION_MAP_ENTRIES : Z := 1.
Definition SECTION_AUX : Z := 2.

Definition section (stype : Z) (body : bytes) : bytes := to_le 2 stype ++ to_le 4 (blen body) ++ body.

Definition entry_bytes (e : bytes * bytes * bytes * Z) : bytes :=
  let '(map, key, value, stamp) := e in put_bytes map ++ put_bytes key ++ put_bytes value ++ to_le 8 stamp.

Definition aux_bytes (a : Z * bytes * bytes) : bytes :=
  let '(kind, name, state) := a in b8 kind :: put_bytes name ++ put_bytes state.

Definition snapshot_bytes (entries : list (bytes * bytes * bytes * Z)) (aux : list (Z * bytes * bytes)) : bytes :=
  MAGIC ++ to_le 2 VERSION
  ++ section SECTION_MAP_ENTRIES (to_le 4 (blen entries) ++ concat (map entry_bytes entries))
  ++ section SECTION_AUX (to_le 4 (blen aux) ++ concat (map aux_bytes aux)).

Section Files.
Context {Schemas : Type} (extract : bytes -> Schemas -> bytes -> FieldValue) (schemas : Schemas).
Context {X : MapStore} {I : Iteration} {C : Crc32}.

(** The bytes that [write_snapshot] renames into place. *)
Definition write_snapshot (c : clocks) (s : Store) : outcome bytes :=
  entries ← all_entries_stamped c s;
  Ok (snapshot_bytes entries (all_aux (structures s))).

Fixpoint load_entries (c : clocks) (fuel : nat) (n : Z) (b : bytes) (s : Store) : outcome Store :=
  if n <=? 0 then Ok s else
  match fuel with
  | O => Ok s
  | S fuel' =>
    match ('(map, b) ← get_bytes b; '(key, b) ← get_bytes b; '(value, b) ← get_bytes b; '(stamp, b) ← get_u 8 b; Some (map, key, value, stamp, b)) with
    | Some (map, key, value, stamp, b) =>
      s ← match from_utf8 map with Some m => put_merge extract schemas c m key value 0 stamp true s | None => Ok s end;
      load_entries c fuel' (n - 1) b s
    | None => Ok s
    end
  end.

Definition load_map_entries (c : clocks) (body : bytes) (s : Store) : outcome Store :=
  match get_u 4 body with Some (count, b) => load_entries c (length b) count b s | None => Ok s end.

Fixpoint load_auxs (fuel : nat) (n : Z) (b : bytes) (s : Store) : Store :=
  if n <=? 0 then s else
  match fuel with
  | O => s
  | S fuel' =>
    match ('(kind, b) ← get_byte b; '(name, b) ← get_bytes b; '(state, b) ← get_bytes b; Some (kind, name, state, b)) with
    | Some (kind, name, state, b) =>
      load_auxs fuel' (n - 1) b
        match from_utf8 name with Some n => set_structures (install_aux (u8 kind) n state (structures s)) s | None => s end
    | None => s
    end
  end.

Definition load_aux (body : bytes) (s : Store) : Store :=
  match get_u 4 body with Some (count, b) => load_auxs (length b) count b s | None => s end.

(** The loop over the sections; a section takes at least six bytes. *)
Fixpoint load_sections (c : clocks) (fuel : nat) (b : bytes) (s : Store) : outcome Store :=
  match fuel with
  | O => Ok s
  | S fuel' =>
    match ('(stype, b) ← get_u 2 b; '(slen, b) ← get_u 4 b; '(body, b) ← take_n slen b; Some (stype, body, b)) with
    | Some (stype, body, b) =>
      s ← (if stype =? SECTION_MAP_ENTRIES then load_map_entries c body s
           else if stype =? SECTION_AUX then Ok (load_aux body s) else Ok s);
      load_sections c fuel' b s
    | None => Ok s
    end
  end.

(** [None] is the error "bad snapshot magic". *)
Definition load_snapshot (c : clocks) (data : bytes) (s : Store) : outcome (option Store) :=
  if (blen data <? 6) || negb (bool_decide (take 4 data = MAGIC)) then Ok None
  else s ← load_sections c (length data) (drop 6 data) s; Ok (Some s).

(** ** The directory *)

(** The files [wal.<n>] and [snapshot.<n>]. *)
Record Dir := mk_dir { wals : gmap Z bytes; snapshots : gmap Z bytes }.

(** The files with a prefix, by number. *)
Definition numbered (files : gmap Z bytes) : list (Z * bytes) := stable_sort (fun p q => p.1 <? q.1) (map_to_list files).

Definition last_number (files : gmap Z bytes) : Z := from_option fst 0 (last (numbered files)).

Definition latest_generation (d : Dir) : Z := Z.max (last_number (wals d)) (last_number (snapshots d)).

Definition prune_below (keep : Z) (d : Dir) : Dir :=
  mk_dir (filter (fun p => keep <= p.1) (wals d)) (filter (fun p => keep <= p.1) (snapshots d)).

(** ** Recovery *)

Definition replay (c : clocks) (m : Mutation) (s : Store) : outcome Store :=
  match m with
  | Put r => put_merge extract schemas c (p_map r) (p_key r) (p_value r) (p_ttl_ms r) (p_stamp r) true s
  | Remove r => '(s, _) ← remove extract schemas c (r_map r) (r_key r) s; Ok s
  | Aux a => Ok (set_structures (install_aux (u8 (a_kind a)) (a_name a) (a_state a) (structures s)) s)
  end.

Fixpoint replay_all (c : clocks) (ms : list Mutation) (s : Store) : outcome Store :=
  match ms with [] => Ok s | m :: ms => s ← replay c m s; replay_all c ms s end.

(** The mutations of the segments that the snapshot [gen] does not supersede. *)
Definition tail_of (gen : Z) (d : Dir) : list Mutation :=
  concat (map (fun p => if p.1 <? gen then [] else replayed (Some p.2)) (numbered (wals d))).

(** The clocks are those of the moment of recovery; [None] is an I/O error. *)
Definition recover (c : clocks) (d : Dir) (s : Store) : outcome (option Store) :=
  let snaps := numbered (snapshots d) in
  loaded ← match last snaps with Some (_, data) => load_snapshot c data s | None => Ok (Some s) end;
  match loaded with
  | Some s => s ← replay_all c (tail_of (from_option fst 0 (last snaps)) d) s; Ok (Some s)
  | None => Ok None
  end.

(** ** The persistence thread *)

(** Where the loop is: draining the ring, collecting the entries of the shards for a snapshot (those before
    the [i]th are in [acc]), or between the last steps of a roll. *)
Inductive pc := Draining | Snapping (old : Z) (acc : list (bytes * bytes * bytes * Z)) (i : nat) | Snapshotted (old : Z) | Removed.

(** The directory, the segment written to and how much of it is known to be on disk, and the ring. *)
Record Thread := mk_thread { dir : Dir; generation : Z; synced : Z; queue : list bytes; at_pc : pc }.

(** [WalSegment::open] on [wal.<n>], and [append] to it. *)
Definition open_segment (n : Z) (d : Dir) : Dir := mk_dir (<[n := file (seg_open (wals d !! n))]> (wals d)) (snapshots d).
Definition append_segment (n : Z) (framed : bytes) (d : Dir) : Dir :=
  mk_dir (<[n := file (seg_append framed (seg_open (wals d !! n)))]> (wals d)) (snapshots d).

Definition segment_len (t : Thread) : Z := blen (default [] (wals (dir t) !! generation t)).

(** The thread starts a generation above everything on disk. *)
Definition spawn_persistence (d : Dir) : Thread :=
  let g := wrap_u64 (latest_generation d + 1) in mk_thread (open_segment g d) g 0 [] Draining.

(** One turn of the inner loop: pop a record and append it. *)
Definition drain (t : Thread) : Thread :=
  match queue t with
  | framed :: q => mk_thread (append_segment (generation t) framed (dir t)) (generation t) (synced t) q (at_pc t)
  | [] => t
  end.

Definition fsync (t : Thread) : Thread := mk_thread (dir t) (generation t) (segment_len t) (queue t) (at_pc t).

(** Past the threshold the segment is flushed and the next one opened. *)
Definition roll (snapshot_bytes : Z) (t : Thread) : Thread :=
  if segment_len t <? snapshot_bytes then t
  else let g := wrap_u64 (generation t + 1) in
       mk_thread (open_segment g (dir t)) g 0 (queue t) (Snapping (generation t) [] 0).

(** [write_snapshot] locks one shard after the other: this is its turn at the [i]th. *)
Definition snap_shard (c : clocks) (s : Store) (old : Z) (acc : list (bytes * bytes * bytes * Z)) (i : nat) (t : Thread) : outcome Thread :=
  match shards s !! i with
  | Some x => l ← collect_all_stamped (now_ms c) x; Ok (mk_thread (dir t) (generation t) (synced t) (queue t) (Snapping old (acc ++ l) (S i)))
  | None => Ok t
  end.

(** The file is renamed into place; [ok] tells whether that succeeded, and the loop goes on either way. *)
Definition install_snapshot (ok : bool) (s : Store) (old : Z) (acc : list (bytes * bytes * bytes * Z)) (t : Thread) : Thread :=
  let d := dir t in
  mk_thread (if ok then mk_dir (wals d) (<[generation t := snapshot_bytes acc (all_aux (structures s))]> (snapshots d)) else d)
    (generation t) (synced t) (queue t) (Snapshotted old).

Definition remove_old (old : Z) (t : Thread) : Thread :=
  mk_thread (mk_dir (delete old (wals (dir t))) (snapshots (dir t))) (generation t) (synced t) (queue t) Removed.

Definition prune (t : Thread) : Thread := mk_thread (prune_below (generation t) (dir t)) (generation t) (synced t) (queue t) Draining.

(** [Persister]: a mutation goes to the thread encoded, and is dropped when the ring is full. *)
Definition submit (capacity : Z) (t : Thread) (m : Mutation) : Thread :=
  if blen (queue t) <? capacity
  then mk_thread (dir t) (generation t) (synced t) (queue t ++ [encode_mutation m]) (at_pc t)
  else t.

(** The entries that a snapshot of a quiet store writes. *)
Fixpoint snap_shards (c : clocks) (l : list Inner) (acc : list (bytes * bytes * bytes * Z)) : outcome (list (bytes * bytes * bytes * Z)) :=
  match l with [] => Ok acc | x :: l => e ← collect_all_stamped (now_ms c) x; snap_shards c l (acc ++ e) end.

(** Without interference, shard by shard and at once are the same. *)
Lemma write_snapshot_shards c s : write_snapshot c s = (acc ← snap_shards c (shards s) []; Ok (snapshot_bytes acc (all_aux (structures s)))).
Proof.
  unfold write_snapshot, all_entries_stamped.
  assert (forall l acc, snap_shards c l acc = '(_, ls) ← each_shard (asking (collect_all_stamped (now_ms c))) l; Ok (acc ++ concat ls)) as H.
  { induction l as [| x l IH]; intros acc; cbn [snap_shards each_shard mbind outcome_bind concat]; [by rewrite app_nil_r |].
    assert (asking (collect_all_stamped (now_ms c)) x = (e ← collect_all_stamped (now_ms c) x; Ok (x, e))) as -> by done.
    destruct (collect_all_stamped (now_ms c) x) as [e |]; [| done]. cbn [mbind outcome_bind]. rewrite IH.
    destruct (each_shard (asking (collect_all_stamped (now_ms c))) l) as [[l' ls] |]; [| done]. cbn [mbind outcome_bind concat]. by rewrite app_assoc. }
  rewrite H. by destruct (each_shard _ (shards s)) as [[l ls] |].
Qed.

End Files.
