(* ===== verification/StoreLog.v ===== *)
(** * What the log says of the maps

    A log of puts and removes is read as a map from (map, key) to the value and stamp of the last writer.
    Replaying records into a store, and the logged calls of a running store, act on that map. *)

From S2P Require Import Prelude Fixed Framed WalRecord Slab FieldValue QueryIndex Table TableFacts TableIndex TableSpec TableQuery TableRun Hlc Schema AuxStore Store StoreRun Recovery.

Abbreviation view := (gmap (bytes * bytes) (bytes * Z)).

(** A record: the higher stamp wins, a remove removes. *)
Definition apply_rec (V : view) (m : Mutation) : view :=
  match m with
  | Put r =>
    match V !! (p_map r, p_key r) with
    | Some (_, st) => if st <? p_stamp r then <[(p_map r, p_key r) := (p_value r, p_stamp r)]> V else V
    | None => <[(p_map r, p_key r) := (p_value r, p_stamp r)]> V
    end
  | Remove r => delete (r_map r, r_key r) V
  | Aux _ => V
  end.

Definition apply_recs (ms : list Mutation) (V : view) : view := foldl apply_rec V ms.

(** ** Replaying a log twice *)

(** What the records do to one entry. *)
Definition rec_at (k : bytes * bytes) (x : option (bytes * Z)) (m : Mutation) : option (bytes * Z) :=
  match m with
  | Put r =>
    if decide ((p_map r, p_key r) = k) then
      match x with Some (v, st) => if st <? p_stamp r then Some (p_value r, p_stamp r) else x | None => Some (p_value r, p_stamp r) end
    else x
  | Remove r => if decide ((r_map r, r_key r) = k) then None else x
  | Aux _ => x
  end.

Lemma apply_rec_at V m k : apply_rec V m !! k = rec_at k (V !! k) m.
Proof.
  destruct m as [r | r | r]; cbn; [| | done].
  - case_decide as Hk; [subst k |]; destruct (V !! (p_map r, p_key r)) as [[v st] |] eqn:E; try destruct (st <? p_stamp r);
      rewrite ?lookup_insert_eq, ?lookup_insert_ne by done; done.
  - case_decide as Hk; [subst k; by rewrite lookup_delete_eq | by rewrite lookup_delete_ne].
Qed.

Lemma apply_recs_at ms V k : apply_recs ms V !! k = foldl (rec_at k) (V !! k) ms.
Proof. unfold apply_recs. revert V. induction ms as [| m ms IH]; intros V; [done |]. cbn [foldl]. by rewrite IH, apply_rec_at. Qed.

(** The entry with the higher stamp, the first of two with the same. *)
Definition later (x z : option (bytes * Z)) : option (bytes * Z) :=
  match x, z with
  | Some (v, st), Some (v', st') => if st <? st' then Some (v', st') else Some (v, st)
  | None, _ => z
  | _, None => x
  end.

Lemma later_assoc x y z : later (later x y) z = later x (later y z).
Proof.
  destruct x as [[v st] |], y as [[v' st'] |], z as [[v'' st''] |]; cbn; try done;
    repeat (match goal with |- context [if ?a <? ?b then _ else _] => destruct (Z.ltb_spec a b) end; cbn); done || lia.
Qed.

Lemma later_twice x z : later (later x z) z = later x z.
Proof. destruct x as [[v st] |], z as [[v' st'] |]; cbn; try done; [destruct (Z.ltb_spec st st'); cbn |]; rewrite ?Z.ltb_irrefl; try done. by rewrite (proj2 (Z.ltb_ge _ _)). Qed.

(** Records either forget the entry they start from, or keep the later of it and another. *)
Lemma recs_shape k ms :
  (forall x y, foldl (rec_at k) x ms = foldl (rec_at k) y ms) \/ exists z, forall x, foldl (rec_at k) x ms = later x z.
Proof.
  induction ms as [| m ms IH] using rev_ind; [right; exists None; by intros [[? ?] |] |].
  setoid_rewrite foldl_snoc. destruct IH as [IH | [z IH]]; [left; intros x y; by rewrite (IH x y) |].
  destruct m as [r | r | r]; cbn [rec_at].
  - right. case_decide; [| by exists z]. exists (later z (Some (p_value r, p_stamp r))). intros x. rewrite IH, <- later_assoc.
    by destruct (later x z) as [[v st] |].
  - case_decide; [by left | right; by exists z].
  - right. by exists z.
Qed.

(** Replaying records whose effect an entry already has changes nothing. *)
Lemma recs_at_twice k ms x : foldl (rec_at k) (foldl (rec_at k) x ms) ms = foldl (rec_at k) x ms.
Proof. destruct (recs_shape k ms) as [H | [z H]]; [apply H | rewrite !H; apply later_twice]. Qed.

Lemma apply_recs_app ms ms' V : apply_recs (ms ++ ms') V = apply_recs ms' (apply_recs ms V).
Proof. apply foldl_app. Qed.

(** ** Snapshots *)

Definition as_put (e : bytes * bytes * bytes * Z) : Mutation := let '(m, k, v, st) := e in Put (mk_put st 0 m k v).

Lemma entries_stay (k : bytes * bytes) (v : bytes) (st : Z) (l : list (bytes * bytes * bytes * Z)) :
  (forall v' st', (k.1, k.2, v', st') ∈ l -> (v', st') = (v, st)) ->
  foldl (rec_at k) (Some (v, st)) (map as_put l) = Some (v, st).
Proof.
  induction l as [| [[[m' k'] v'] st'] l IH]; intros H; [done |]. cbn [map foldl as_put rec_at p_map p_key p_value p_stamp].
  etrans; [| apply IH; intros; apply H; by right]. f_equal. case_decide as Hk; [| done]. subst k.
  specialize (H v' st'). cbn in H. rewrite elem_of_cons in H. assert ((v', st') = (v, st)) as [= -> ->] by (apply H; by left). by rewrite Z.ltb_irrefl.
Qed.

Lemma entries_found (k : bytes * bytes) (v : bytes) (st : Z) (l : list (bytes * bytes * bytes * Z)) :
  (forall v' st', (k.1, k.2, v', st') ∈ l -> (v', st') = (v, st)) -> (k.1, k.2, v, st) ∈ l ->
  foldl (rec_at k) None (map as_put l) = Some (v, st).
Proof.
  induction l as [| [[[m' k'] v'] st'] l IH]; intros H Hin; [by apply not_elem_of_nil in Hin |].
  cbn [map foldl as_put rec_at p_map p_key p_value p_stamp]. case_decide as Hk.
  - subst k. pose proof (H v' st') as Hv. cbn in Hv. rewrite elem_of_cons in Hv. assert ((v', st') = (v, st)) as [= -> ->] by (apply Hv; by left).
    apply entries_stay. intros w t Hw. apply H. by right.
  - apply IH; [intros w t Hw; apply H; by right |]. apply elem_of_cons in Hin as [Heq | Hin]; [| done].
    destruct k as [m k]. cbn in Heq. by simplify_eq.
Qed.

Lemma entries_absent (k : bytes * bytes) (l : list (bytes * bytes * bytes * Z)) :
  (forall v st, (k.1, k.2, v, st) ∉ l) -> foldl (rec_at k) None (map as_put l) = None.
Proof.
  induction l as [| [[[m' k'] v'] st'] l IH]; intros H; [done |].
  cbn [map foldl as_put rec_at p_map p_key p_value p_stamp]. case_decide as Hk.
  - destruct (H v' st'). rewrite <- Hk. by left.
  - apply IH. intros v st Hin. apply (H v st). by right.
Qed.

(** A list with exactly the entries of a map under a key, in any order, rebuilds them. *)
Lemma entries_at (l : list (bytes * bytes * bytes * Z)) (k : bytes * bytes) (x : option (bytes * Z)) :
  (forall v st, (k.1, k.2, v, st) ∈ l <-> x = Some (v, st)) -> foldl (rec_at k) None (map as_put l) = x.
Proof.
  intros H. destruct x as [[v st] |].
  - apply entries_found; [| by apply H]. intros v' st' Hin. apply H in Hin. congruence.
  - apply entries_absent. intros v st Hin. apply H in Hin. congruence.
Qed.

(** * The calls of a store as records of its log

    A store whose maps have no expiry and no eviction shows a map of values and stamps.  Each call that is
    logged changes that map as replaying its record does. *)

(** The values and stamps of the cells, and cells that never expire. *)
Definition view_of (A : amap) : view := (fun c => (c_val c, c_stamp c)) <$> A.
Definition immortal (A : amap) : Prop := map_Forall (fun _ c => c_expire c = 0) A.

(** Calls that are logged or read, without a time to live. *)
Definition logged (c : scall) : bool :=
  match c with
  | SPut _ _ _ | SRemove _ _ | SGet _ _ | SContains _ _ | SSize _ | SEntries _ | SAddIndex _ _ | SQuery _ _ => true
  | SPutTtl _ _ _ ttl | SApplyWan _ _ _ _ ttl _ => ttl =? 0
  | SPutMerge _ _ _ ttl _ latest => (ttl =? 0) && latest
  | _ => false
  end.

(** The records that a call tells the log's sink. *)
Definition told (member q : Z) (ev : sevent) : list Mutation :=
  let next := next_stamp_at member (wall_ms (se_clocks ev)) q in
  match se_call ev with
  | SPut m k v => [Put (mk_put next 0 m k v)]
  | SPutTtl m k v ttl => [Put (mk_put next ttl m k v)]
  | SPutMerge m k v ttl st _ => [Put (mk_put st ttl m k v)]
  | SApplyWan true m k v ttl st => [Put (mk_put st ttl m k v)]
  | SApplyWan false m k _ _ st => [Remove (mk_remove st m k)]
  | SRemove m k => [Remove (mk_remove next m k)]
  | _ => []
  end.

(** ** The abstract operations on the view *)

Lemma not_expired A name key c now : immortal A -> A !! (name, key) = Some c -> cell_expired ∅ name c now = false.
Proof. intros HA Hc. apply HA in Hc. cbn in Hc. unfold cell_expired. by rewrite Hc, lookup_empty. Qed.

Lemma immortal_insert A k c : immortal A -> c_expire c = 0 -> immortal (<[k := c]> A).
Proof. intros HA Hc. by apply map_Forall_insert_2. Qed.

Lemma find_view A now name key : immortal A ->
  immortal (a_find ∅ now name key A).1 /\ view_of (a_find ∅ now name key A).1 = view_of A
  /\ (a_find ∅ now name key A).2 = touch now <$> A !! (name, key).
Proof.
  intros HA. unfold a_find. destruct (A !! (name, key)) as [c |] eqn:Hc; [| done]. rewrite (not_expired A name key c now HA Hc). cbn [fst snd fmap option_fmap option_map].
  split_and!; [by apply immortal_insert; [| apply HA in Hc] | | done].
  unfold view_of. rewrite fmap_insert. apply insert_id. rewrite lookup_fmap, Hc. done.
Qed.

Lemma put_view A now name key val st : immortal A ->
  immortal (a_put ∅ now name key val 0 st A).1 /\ view_of (a_put ∅ now name key val 0 st A).1 = <[(name, key) := (val, st)]> (view_of A).
Proof.
  intros HA. unfold a_put. destruct (A !! (name, key)) as [c |]; cbn [fst]; (split; [by apply immortal_insert | unfold view_of; by rewrite fmap_insert]).
Qed.

Lemma put_merge_view A now name key val st : immortal A ->
  immortal (a_put_merge ∅ now name key val 0 st true A)
  /\ view_of (a_put_merge ∅ now name key val 0 st true A) = apply_rec (view_of A) (Put (mk_put st 0 name key val)).
Proof.
  intros HA. destruct (find_view A now name key HA) as (Hi & Hv & Hr). unfold a_put_merge. destruct (a_find ∅ now name key A) as [A1 r]. cbn [fst snd] in *.
  destruct (put_view A1 now name key val st Hi) as [Hi' Hv']. rewrite Hv in Hv'. cbn [apply_rec p_map p_key p_value p_stamp].
  unfold view_of at 2. rewrite lookup_fmap. subst r. destruct (A !! (name, key)) as [c |]; cbn [fmap option_fmap option_map andb]; [| done].
  cbn [touch c_stamp]. destruct (c_stamp c <? st); done.
Qed.

Lemma evicted_none name A A' : evicted ∅ name A A' -> A' = A.
Proof. intros [-> | (cfg & key & H & _)]; [done |]. by rewrite lookup_empty in H. Qed.

Lemma finds_view A now name keys : immortal A -> immortal (a_finds ∅ now name keys A) /\ view_of (a_finds ∅ now name keys A) = view_of A.
Proof.
  unfold a_finds. revert A. induction keys as [| k keys IH]; intros A HA; [done |]. cbn [foldl].
  destruct (find_view A now name k HA) as (Hi & Hv & _). rewrite <- Hv. by apply IH.
Qed.

(** ** Stamps *)

(** No entry is newer than the clock. *)
Definition behind (q : Z) (V : view) : Prop := map_Forall (fun _ e => clock_of e.2 <= clock_of q) V.

Lemma observe_clock member ext q c : c < 2 ^ 57 -> stamp_ok c q -> stamp_ok c ext ->
  clock_of (observe_stamp member ext q) = Z.max (clock_of q) (clock_of ext) /\ stamp_ok c (observe_stamp member ext q).
Proof.
  intros Hc Hq He. unfold observe_stamp, observe_cand, stamp_ok in *. destruct (Z.leb_spec (clock_of ext) (clock_of q)); cbn [default id]; [lia |].
  rewrite clock_stamp by lia. lia.
Qed.

Lemma behind_mono q q' V : clock_of q <= clock_of q' -> behind q V -> behind q' V.
Proof. intros Hle H k e He. apply H in He. cbn in *. lia. Qed.

Lemma behind_rec q V r : behind q V -> clock_of (p_stamp r) <= clock_of q -> behind q (apply_rec V (Put r)).
Proof.
  intros HV Hr. cbn [apply_rec]. destruct (V !! _) as [[v st] |]; [destruct (st <? _) |]; try done; by apply map_Forall_insert_2.
Qed.

Lemma behind_delete q V k : behind q V -> behind q (delete k V).
Proof. apply map_Forall_delete. Qed.

(** A new stamp beats every entry behind the clock. *)
Lemma put_is_newer V r q : behind q V -> clock_of q < clock_of (p_stamp r) ->
  apply_rec V (Put r) = <[(p_map r, p_key r) := (p_value r, p_stamp r)]> V.
Proof.
  intros HV Hlt. cbn [apply_rec]. destruct (V !! (p_map r, p_key r)) as [[v st] |] eqn:E; [| done].
  apply HV in E. cbn in E. rewrite (proj2 (Z.ltb_lt _ _)); [done |]. apply clock_lt. lia.
Qed.

(** Wall clocks before the year 36000, and stamps of others that are not ahead of [c]. *)
Definition stamps_fit (c : Z) (ev : sevent) : Prop :=
  0 <= wall_ms (se_clocks ev) < 2 ^ 40
  /\ match se_call ev with SPutMerge _ _ _ _ st _ | SApplyWan _ _ _ _ _ st => stamp_ok c st | _ => True end.

(** ** Calls and records *)

Section Logged.
Context {Schemas : Type} (extract : bytes -> Schemas -> bytes -> FieldValue) (schemas : Schemas).
Context (text_match : TextKind -> bytes -> bytes -> bool) (iter : gset bytes -> list bytes).
Hypothesis iter_elements : forall X, iter X ≡ₚ elements X.
Context {X : MapStore}.

(** What is known of a clock and a view after a call. *)
Record moved (c q : Z) (ms : list Mutation) (A : amap) (q' : Z) (A' : amap) : Prop := {
  mv_immortal : immortal A';
  mv_view : view_of A' = apply_recs ms (view_of A);
  mv_behind : behind q' (view_of A');
  mv_stamp : stamp_ok (c + 1) q';
  mv_clock : clock_of q <= clock_of q'
}.

Section View.
Context (c q : Z) (A : amap) (Hc : 2 ^ 56 <= c < 2 ^ 57 - 1) (HA : immortal A) (Hb : behind q (view_of A)) (Hq : stamp_ok c q).

Lemma moved_same A' : immortal A' -> view_of A' = view_of A -> moved c q [] A q A'.
Proof. intros Hi Hv. split; [done | done | by rewrite Hv | unfold stamp_ok in *; lia | done]. Qed.

Lemma moved_put member wall now name key val : 0 <= wall < 2 ^ 40 ->
  let st := next_stamp_at member wall q in moved c q [Put (mk_put st 0 name key val)] A st (a_put ∅ now name key val 0 st A).1.
Proof.
  intros Hw st. destruct (put_view A now name key val st HA) as [Hi Hv]. destruct (next_cand_ok c member wall q Hc Hq Hw) as [Hst _].
  change (next_cand member wall q) with st in Hst. split; [done | | | unfold stamp_ok in *; lia | lia].
  - rewrite Hv. symmetry. apply (put_is_newer _ (mk_put st 0 name key val) q); [done | cbn; lia].
  - rewrite Hv. apply map_Forall_insert_2; [done |]. apply (behind_mono q); [lia | done].
Qed.

Lemma moved_remove q' r name key : clock_of q <= clock_of q' -> stamp_ok (c + 1) q' -> r_map r = name -> r_key r = key ->
  moved c q [Remove r] A q' (delete (name, key) A).
Proof.
  intros Hle Hq' <- <-. split; [by apply map_Forall_delete | | | done | done].
  - unfold view_of. by rewrite fmap_delete.
  - unfold view_of. rewrite fmap_delete. apply behind_delete. by apply (behind_mono q).
Qed.

Lemma moved_merge member now name key val st : stamp_ok c st ->
  moved c q [Put (mk_put st 0 name key val)] A (observe_stamp member st q) (a_put_merge ∅ now name key val 0 st true A).
Proof.
  intros Hst. destruct (put_merge_view A now name key val st HA) as [Hi Hv].
  destruct (observe_clock member st q c ltac:(lia) Hq Hst) as [Ho Hok].
  split; [done | done | | unfold stamp_ok in *; lia | lia].
  rewrite Hv. apply behind_rec; [apply (behind_mono q); [lia | done] | cbn; lia].
Qed.

Lemma logged_moves member ev A' q' r :
  logged (se_call ev) = true -> stamps_fit c ev -> a_store extract schemas text_match ∅ member ev A q A' q' r ->
  moved c q (told member q ev) A q' A'.
Proof.
  intros Hl [Hw Hst] Ha. unfold a_store, a_serve, told in *. destruct ev as [ck call]. cbn [se_clocks se_call as_event ev_call ev_now ev_rnd] in *.
  destruct (next_cand_ok c member (wall_ms ck) q Hc Hq Hw) as [Hnext _].
  destruct call as [m k v | m k v ttl | | m k v ttl st latest | [] m k v ttl st | m k | m k | m k | | | | | m | m | m config | m p]; cbn [logged] in Hl; try discriminate Hl.
  - destruct Ha as [-> [->%evicted_none _]]. by apply moved_put.
  - destruct Ha as [-> [->%evicted_none _]]. apply Z.eqb_eq in Hl as ->. by apply moved_put.
  - destruct Ha as [-> [->%evicted_none _]]. apply andb_true_iff in Hl as [->%Z.eqb_eq ->]. by apply moved_merge.
  - destruct Ha as [-> [->%evicted_none _]]. apply Z.eqb_eq in Hl as ->. by apply moved_merge.
  - destruct Ha as [-> (_ & r0 & -> & _)]. destruct (observe_clock member st q c ltac:(lia) Hq Hst) as [Ho Hok].
    apply moved_remove; [lia | unfold stamp_ok in *; lia | done | done].
  - destruct Ha as [-> [-> _]]. destruct (find_view A (now_ms ck) m k HA) as (? & ? & _). by apply moved_same.
  - destruct Ha as [-> [-> _]]. destruct (find_view A (now_ms ck) m k HA) as (? & ? & _). by apply moved_same.
  - destruct Ha as [-> [-> _]]. apply moved_remove; [| | done | done]; unfold next_stamp_at, stamp_ok in *; lia.
  - destruct Ha as [-> [-> _]]. by apply moved_same.
  - destruct Ha as [-> [-> _]]. by apply moved_same.
  - destruct Ha as [-> [-> _]]. by apply moved_same.
  - destruct Ha as [-> [[keys ->] _]]. destruct (finds_view A (now_ms ck) m keys HA). by apply moved_same.
Qed.

End View.

(** ** The sink *)

(** What a call leaves alone. *)
Record tells (ms : list Mutation) (s s' : Store) : Prop := {
  te_wal : wal_sink s' = (fun l => l ++ ms) <$> wal_sink s;
  te_structures : structures s' = structures s;
  te_length : length (shards s') = length (shards s);
  te_member : s_member_id s' = s_member_id s
}.

Lemma on_shard_rest {R} m k (f : Inner -> outcome (Inner * R)) s s' r :
  on_shard m k f s = Ok (s', r) -> s' = set_shards (shards s') s /\ length (shards s') = length (shards s).
Proof.
  unfold on_shard. destruct (index _ _) as [x |]; [| done]. cbn [mbind outcome_bind]. destruct (f x) as [[x' r'] |]; [| done]. cbn [mbind outcome_bind].
  intros [= <- <-]. cbn. by rewrite length_insert.
Qed.

Lemma each_shard_length {R} (f : Inner -> outcome (Inner * R)) l l' rs : each_shard f l = Ok (l', rs) -> length l' = length l.
Proof.
  revert l' rs. induction l as [| x l IH]; intros l' rs; cbn [each_shard]; [by intros [= <- <-] |].
  destruct (f x) as [[x' r] |]; [| done]. cbn [mbind outcome_bind]. destruct (each_shard f l) as [[l1 rs1] |]; [| done]. cbn [mbind outcome_bind].
  intros [= <- <-]. cbn. f_equal. by eapply IH.
Qed.

Lemma tells_none s : tells [] s s.
Proof. split; try done. destruct (wal_sink s); cbn; by rewrite ?app_nil_r. Qed.

Lemma tells_shards s l : length l = length (shards s) -> tells [] s (set_shards l s).
Proof. intros H. destruct (tells_none s). by split. Qed.

(** A call on the shard of a key, with what is done before and after it. *)
Lemma tells_key {R} m k (f : Inner -> outcome (Inner * R)) s s1 s2 r (fin : Store -> Store) ms :
  on_shard m k f s1 = Ok (s2, r) -> tells [] s s1 -> (forall s, tells ms s (fin s)) -> tells ms s (fin s2).
Proof.
  intros [E El]%on_shard_rest [H1 H2 H3 H4] Hfin. destruct (Hfin s2) as [F1 F2 F3 F4].
  assert (wal_sink s2 = wal_sink s) as Ew by (rewrite E; cbn; rewrite H1; destruct (wal_sink s); cbn; by rewrite ?app_nil_r).
  split; [by rewrite F1, Ew | rewrite F2, E; done | by rewrite F3, El | by rewrite F4, E].
Qed.

Lemma tells_key_plain {R} m k (f : Inner -> outcome (Inner * R)) s s2 r : on_shard m k f s = Ok (s2, r) -> tells [] s s2.
Proof. intros H. apply (tells_key m k f s s s2 r id []); [done | apply tells_none | apply tells_none]. Qed.

Lemma serve_tells ev s s' r :
  map_stores s = ∅ -> logged (se_call ev) = true -> scall_ok (se_call ev) -> serve_store extract schemas text_match iter ev s = Ok (s', r) ->
  tells (told (s_member_id s) (s_stamp_seq s) ev) s s'.
Proof.
  intros Hm Hl Hok. destruct ev as [c call]. unfold serve_store, told. cbn [se_call se_clocks] in *.
  destruct call as [m k v | m k v ttl | | m k v ttl st latest | [] m k v ttl st | m k | m k | m k | | | | | m | m | m config | m p]; try discriminate Hl.
  - unfold put, next_stamp. destruct (on_shard _ _ _ _) as [[s2 old] |] eqn:E; [| done]. intros [= <- <-]. eapply tells_key; [exact E | |]; [| by intros].
    by destruct (tells_none s).
  - unfold put_ttl, next_stamp. destruct (on_shard _ _ _ _) as [[s2 old] |] eqn:E; [| done]. intros [= <- <-]. eapply tells_key; [exact E | |]; [| by intros].
    by destruct (tells_none s).
  - unfold put_merge. destruct (on_shard _ _ _ _) as [[s2 old] |] eqn:E; [| done]. intros [= <- <-]. eapply tells_key; [exact E | |]; [| by intros].
    by destruct (tells_none s).
  - unfold apply_wan. destruct (on_shard _ _ _ _) as [[s2 old] |] eqn:E; [| done]. intros [= <- <-]. eapply tells_key; [exact E | |]; [| by intros].
    by destruct (tells_none s).
  - unfold apply_wan. destruct (on_shard _ _ _ _) as [[s2 old] |] eqn:E; [| done]. intros [= <- <-]. eapply tells_key; [exact E | |]; [| by intros].
    by destruct (tells_none s).
  - unfold get. destruct (on_shard _ _ _ _) as [[s2 [v |]] |] eqn:E; [| | done]; cbn [mbind outcome_bind]; [intros [= <- <-]; by eapply tells_key_plain |].
    unfold load_through. destruct (on_shard_rest _ _ _ _ _ _ E) as [E2 _]. assert (map_stores s2 = ∅) as -> by (by rewrite E2).
    rewrite lookup_empty. cbn [mbind option_bind outcome_bind]. intros [= <- <-]. by eapply tells_key_plain.
  - unfold contains_key. destruct (on_shard _ _ _ _) as [[s2 b] |] eqn:E; [| done]. intros [= <- <-]. by eapply tells_key_plain.
  - unfold remove, next_stamp. destruct (on_shard _ _ _ _) as [[s2 old] |] eqn:E; [| done]. cbn [mbind outcome_bind]. intros [= <- <-].
    destruct (on_shard_rest _ _ _ _ _ _ E) as [E2 El]. split; [| by rewrite E2 | exact El | by rewrite E2]. cbn [emit wal_sink set_stamp_seq s_member_id s_stamp_seq]. by rewrite E2.
  - unfold size. destruct (each_shard _ _) as [[l ns] |] eqn:E; [| done]. intros [= <- <-]. apply tells_none.
  - unfold entries. destruct (each_shard _ _) as [[l ns] |] eqn:E; [| done]. intros [= <- <-]. apply tells_none.
  - unfold add_index, on_shards. destruct (each_shard _ _) as [[l ns] |] eqn:E; [| done]. intros [= <- <-]. apply tells_shards. by eapply each_shard_length.
  - destruct Hok as [_ Hp].
    assert (query extract schemas text_match iter c m p s = '(s, ls) ← on_shards (Table.query extract schemas text_match iter (now_ms c) m p) s; Ok (s, concat ls)) as ->
      by (by destruct p).
    unfold on_shards. destruct (each_shard _ _) as [[l ns] |] eqn:E; [| done]. intros [= <- <-]. apply tells_shards. by eapply each_shard_length.
Qed.

(** ** Every logged call is replayed by its record *)

(** A store whose maps hold [V]; [n] bounds the calls it served, [t] its time, [c] its clock. *)
Definition shows (n t c : Z) (V : view) (s : Store) : Prop :=
  exists A, store_ok extract schemas ∅ n t A s /\ immortal A /\ view_of A = V /\ behind (s_stamp_seq s) V /\ stamp_ok c (s_stamp_seq s).

Lemma logged_call n t c V s ev :
  shows n t c V s -> 0 <= n -> n + 2 <= 2 ^ 31 -> 2 ^ 56 <= c < 2 ^ 57 - 1 -> t <= now_ms (se_clocks ev) ->
  logged (se_call ev) = true -> scall_ok (se_call ev) -> stamps_fit c ev ->
  post (serve_store extract schemas text_match iter ev s) (fun '(s', _) =>
    let ms := told (s_member_id s) (s_stamp_seq s) ev in shows (n + 2) (now_ms (se_clocks ev)) (c + 1) (apply_recs ms V) s' /\ tells ms s s').
Proof.
  intros (A & Hs & Hi & <- & Hb & Hq) Hn0 Hn Hc Ht Hl Hok Hst.
  pose proof (serve_store_ok extract schemas text_match iter iter_elements ∅ n t A s ev Hs Hn0 Hn Ht Hok) as Hp.
  pose proof (fun s' r => serve_tells ev s s' r (so_ext _ _ _ _ _ _ _ Hs) Hl Hok) as Hte.
  destruct (serve_store _ _ _ _ ev s) as [[s' r] |]; [| done]. cbn [post] in *. destruct Hp as (A' & Ha & Hs' & _). cbn [fst snd] in *.
  destruct (logged_moves c (s_stamp_seq s) A Hc Hi Hb Hq _ _ _ _ _ Hl Hst Ha) as [H1 H2 H3 H4 H5]. split; [| by eapply Hte].
  exists A'. split_and!; try done. by rewrite <- H2.
Qed.

End Logged.
