(* ===== verification/RecoveryFacts.v ===== *)
(** * What recovery reads back

    Numbered files come in order; a snapshot file loads as puts of its entries; and a store recovered from
    a directory shows what the records in it say. *)

From S2P Require Import Prelude Framed Fixed Slab FieldValue QueryIndex Schema Table TableFacts TableIndex TableSpec TableQuery TableRun Hlc WalRecord AuxStore Store StoreRun StoreLog Recovery.

(** ** Numbered files *)

Definition below (g : Z) (files : gmap Z bytes) : Prop := map_Forall (fun n _ => n < g) files.

Lemma numbered_perm files l : l ≡ₚ map_to_list files -> numbered files = stable_sort (fun p q => p.1 <? q.1) l.
Proof.
  intros Hp. unfold numbered. apply stable_sort_unique; [| | | by symmetry].
  - intros x y z. rewrite !Z.ltb_lt. lia.
  - intros x. apply Z.ltb_irrefl.
  - intros i j [n x] [n' y] Hij Hi Hj. rewrite !Z.ltb_lt. cbn. destruct (Z.lt_total n n') as [| [-> |]]; [by left | | by right].
    destruct Hij. eapply (NoDup_lookup (map_to_list files).*1); [apply NoDup_fst_map_to_list | by rewrite list_lookup_fmap, Hi | by rewrite list_lookup_fmap, Hj].
Qed.

Lemma numbered_last files g x : below g files -> numbered (<[g := x]> files) = numbered files ++ [(g, x)].
Proof.
  intros Hb. assert (files !! g = None) as Hg.
  { destruct (files !! g) as [y |] eqn:E; [| done]. apply Hb in E. cbn in E. lia. }
  rewrite (numbered_perm _ (map_to_list files ++ [(g, x)])) by (rewrite map_to_list_insert by done; by rewrite <- Permutation_cons_append).
  assert (Forall (fun p => p.1 < g) (map_to_list files)) as Hl.
  { apply Forall_forall. intros [n y] Hin%elem_of_map_to_list. by apply (Hb n y). }
  unfold numbered, stable_sort. rewrite foldr_snoc. cbn [sort_insert].
  assert (forall l y, y.1 < g -> sort_insert (fun p q => p.1 <? q.1) y (l ++ [(g, x)]) = sort_insert (fun p q => p.1 <? q.1) y l ++ [(g, x)]) as Hins.
  { intros l y Hy. induction l as [| z l IH]; cbn [app sort_insert fst]; [by rewrite (proj2 (Z.ltb_ge _ _)) by lia |].
    rewrite IH. by destruct (z.1 <? y.1). }
  induction Hl as [| y l Hy _ IH]; [done |]. cbn [foldr]. rewrite IH. by apply Hins.
Qed.

Lemma last_number_insert files g x : below g files -> last_number (<[g := x]> files) = g.
Proof. intros Hb. unfold last_number. by rewrite numbered_last, last_snoc. Qed.

Lemma below_mono g g' files : g <= g' -> below g files -> below g' files.
Proof. intros Hle H n x Hn. apply H in Hn. lia. Qed.

Lemma below_insert g g' x files : g < g' -> below g files -> below g' (<[g := x]> files).
Proof. intros Hlt H. apply map_Forall_insert_2; [done |]. eapply below_mono; [| exact H]. lia. Qed.

Lemma filter_above g files x : below g files -> filter (fun p => g <= p.1) (<[g := x]> files) = {[g := x]}.
Proof.
  intros Hb. apply map_eq. intros n. destruct (decide (n = g)) as [-> | Hne].
  - rewrite lookup_singleton_eq. apply map_lookup_filter_Some. by rewrite lookup_insert_eq.
  - rewrite lookup_singleton_ne by done. apply map_lookup_filter_None. right. intros y. rewrite lookup_insert_ne by done. intros Hy%Hb. cbn. lia.
Qed.

(** ** Snapshots *)

Section Recovered.
Context {Schemas : Type} (extract : bytes -> Schemas -> bytes -> FieldValue) (schemas : Schemas).
Context (text_match : TextKind -> bytes -> bytes -> bool) (iter : gset bytes -> list bytes).
Hypothesis iter_elements : forall X, iter X ≡ₚ elements X.
Context {X : MapStore} {I : Iteration} {C : Crc32}.

Definition entries_body (l : list (bytes * bytes * bytes * Z)) : bytes := to_le 4 (blen l) ++ concat (map entry_bytes l).
Definition auxs_body (l : list (Z * bytes * bytes)) : bytes := to_le 4 (blen l) ++ concat (map aux_bytes l).

Definition entry_ok (e : bytes * bytes * bytes * Z) : Prop := let '(m, _, _, st) := e in name_ok m /\ is_u64 st.

(** Snapshots whose sections are below 4 GiB. *)
Record snapshot_ok (entries : list (bytes * bytes * bytes * Z)) (aux : list (Z * bytes * bytes)) : Prop := {
  sn_entries : Forall entry_ok entries;
  sn_map : blen (entries_body entries) < 2 ^ 32;
  sn_aux : blen (auxs_body aux) < 2 ^ 32
}.

Lemma blen_put_bytes x : blen (put_bytes x) = 4 + blen x.
Proof. unfold put_bytes, put_lp. rewrite blen_app, blen_to_le. lia. Qed.

Lemma blen_entry m k v st : blen (entry_bytes (m, k, v, st)) = 20 + blen m + blen k + blen v.
Proof. unfold entry_bytes. rewrite !blen_app, !blen_put_bytes, blen_to_le. lia. Qed.

Lemma load_entries_eq c fuel l b s : Forall entry_ok l -> blen (concat (map entry_bytes l)) < 2 ^ 32 -> (length l <= fuel)%nat ->
  load_entries extract schemas c fuel (blen l) (concat (map entry_bytes l) ++ b) s = replay_all extract schemas c (map as_put l) s.
Proof.
  intros Hl. revert fuel s. induction Hl as [| [[[m k] v] st] l [Hm Hst] _ IH]; intros fuel s Hlen Hf; [by destruct fuel |].
  destruct fuel as [| fuel]; [cbn in Hf; lia |]. cbn [map concat] in Hlen |- *. rewrite blen_app, blen_entry in Hlen.
  pose proof (blen_nonneg m). pose proof (blen_nonneg k). pose proof (blen_nonneg v). pose proof (blen_nonneg (concat (map entry_bytes l))). pose proof (blen_nonneg l).
  cbn [load_entries replay_all as_put]. rewrite blen_cons, (proj2 (Z.leb_gt _ _)) by lia. unfold entry_bytes at 1. rewrite <- !app_assoc.
  unfold get_bytes, put_bytes. rewrite !get_lp32_put_lp by (unfold is_u32; lia). cbn [mbind option_bind].
  rewrite !get_lp32_put_lp by (unfold is_u32; lia). cbn [mbind option_bind]. rewrite !get_lp32_put_lp by (unfold is_u32; lia). cbn [mbind option_bind].
  rewrite get_u64_to_le by done. cbn [mbind option_bind]. rewrite from_utf8_valid by done. cbn [replay p_map p_key p_value p_ttl_ms p_stamp].
  destruct (put_merge _ _ _ _ _ _ _ _ _ s) as [s' |]; [| done]. cbn [mbind outcome_bind]. replace (1 + blen l - 1) with (blen l) by lia.
  apply IH; [lia | cbn in Hf; lia].
Qed.

Lemma load_aux_rest b s : exists a, load_aux b s = set_structures a s.
Proof.
  assert (exists a, s = set_structures a s) as Hs by (exists (structures s); by destruct s).
  unfold load_aux. destruct (get_u 4 b) as [[n b'] |]; [| done]. generalize (length b') as fuel. intros fuel.
  revert n b' s Hs. induction fuel as [| fuel IH]; intros n b' s Hs; cbn [load_auxs]; [by destruct (n <=? 0) |]. destruct (n <=? 0); [done |].
  destruct ('(kind, b) ← get_byte b'; '(name, b) ← get_bytes b; '(state, b) ← get_bytes b; Some (kind, name, state, b)) as [[[[kind name] state] b1] |]; [| done].
  match goal with |- context [load_auxs _ _ _ ?s1] => assert (exists a, s1 = set_structures a s) as [a1 ->] end.
  { destruct (from_utf8 name); [by eexists | done]. }
  destruct (IH (n - 1) b1 (set_structures a1 s)) as [a2 ->]; [by exists a1 | by exists a2].
Qed.

Lemma load_snapshot_eq c entries aux s : snapshot_ok entries aux ->
  load_snapshot extract schemas c (snapshot_bytes entries aux) s =
    (s ← replay_all extract schemas c (map as_put entries) s; Ok (Some (load_aux (auxs_body aux) s))).
Proof.
  intros [He Hm Ha]. unfold load_snapshot.
  assert (take 4 (snapshot_bytes entries aux) = MAGIC) as -> by done. rewrite bool_decide_eq_true_2 by done.
  assert (blen (snapshot_bytes entries aux) = 18 + blen (entries_body entries) + blen (auxs_body aux)) as Hlen.
  { unfold snapshot_bytes, section. rewrite !blen_app, !blen_to_le. change (blen MAGIC) with 4. unfold entries_body, auxs_body. rewrite !blen_app, !blen_to_le. lia. }
  pose proof (blen_nonneg (entries_body entries)). pose proof (blen_nonneg (auxs_body aux)).
  rewrite (proj2 (Z.ltb_ge _ _)) by lia. cbn [orb negb].
  assert (drop 6 (snapshot_bytes entries aux) = section SECTION_MAP_ENTRIES (entries_body entries) ++ section SECTION_AUX (auxs_body aux)) as -> by done.
  assert (exists fuel, length (snapshot_bytes entries aux) = S (S (S fuel))) as [fuel ->].
  { exists (length (snapshot_bytes entries aux) - 3)%nat. unfold blen in Hlen. lia. }
  cbn [load_sections]. unfold section. rewrite <- !app_assoc.
  rewrite get_u16_to_le by done. cbn [mbind option_bind]. rewrite get_u32_to_le by (unfold is_u32; lia). cbn [mbind option_bind].
  rewrite take_n_app. cbn [mbind option_bind]. change (SECTION_MAP_ENTRIES =? SECTION_MAP_ENTRIES) with true. cbn iota.
  assert (load_map_entries extract schemas c (entries_body entries) s = replay_all extract schemas c (map as_put entries) s) as ->.
  { unfold load_map_entries, entries_body. unfold entries_body in Hm. rewrite blen_app, blen_to_le in Hm.
    assert (blen entries <= blen (concat (map entry_bytes entries))) as Hle.
    { clear. induction entries as [| [[[m k] v] st] l IH]; [done |]. cbn [map concat]. rewrite blen_app, blen_cons, blen_entry.
      pose proof (blen_nonneg m). pose proof (blen_nonneg k). pose proof (blen_nonneg v). lia. }
    pose proof (blen_nonneg entries). rewrite get_u32_to_le by (unfold is_u32; lia). rewrite <- (app_nil_r (concat _)).
    apply load_entries_eq; [done | lia |]. rewrite length_app. unfold blen in Hle. lia. }
  destruct (replay_all _ _ _ _ s) as [s' |]; [| done]. cbn [mbind outcome_bind].
  rewrite get_u16_to_le by done. cbn [mbind option_bind]. rewrite get_u32_to_le by (unfold is_u32; lia). cbn [mbind option_bind].
  rewrite <- (app_nil_r (auxs_body aux)) at 2. rewrite take_n_app. cbn [mbind option_bind].
  change (SECTION_AUX =? SECTION_MAP_ENTRIES) with false. change (SECTION_AUX =? SECTION_AUX) with true. cbn iota. cbn [mbind outcome_bind].
  done.
Qed.

(** ** Replay *)

(** Records that recovery takes at their word: without a time to live, stamped no later than [c]. *)
Definition rec_fits (c : Z) (m : Mutation) : Prop :=
  mutation_ok m /\ match m with Put r => p_ttl_ms r = 0 /\ stamp_ok c (p_stamp r) | _ => True end.

Lemma rec_fits_mono c c' m : c <= c' -> rec_fits c m -> rec_fits c' m.
Proof. intros Hle [H1 H2]. split; [done |]. destruct m; unfold stamp_ok in *; [| done | done]. destruct H2. split; [done | lia]. Qed.

Lemma shows_mono n t c n' t' c' V s : n <= n' -> t <= t' -> c <= c' -> shows extract schemas n t c V s -> shows extract schemas n' t' c' V s.
Proof.
  intros Hn Ht Hc (A & Hs & Hi & Hv & Hb & Hq). exists A. split_and!; try done; [by eapply store_ok_mono | unfold stamp_ok in *; lia].
Qed.

(** The live entries of one shard are those of the view that belong to it. *)
Lemma shows_shard_entries n t c V s i x ck : shows extract schemas n t c V s -> shards s !! i = Some x ->
  exists l, collect_all_stamped (now_ms ck) x = Ok l
    /\ forall m k v st, (m, k, v, st) ∈ l <-> shard_of m k (length (shards s)) = i /\ V !! (m, k) = Some (v, st).
Proof.
  intros (A & Hs & Hi & <- & _) Hx. pose proof (so_inv _ _ _ _ _ _ _ Hs i x Hx) as [Hsh _ _ Hcf].
  destruct (collect_all_stamped_ok (part (length (shards s)) i A) x (now_ms ck) Hsh) as (l & Hl & Hin). exists l. split; [done |].
  intros m k v st. rewrite Hin, Hcf. unfold view_of. rewrite lookup_fmap, lookup_part. case_decide as Hsd.
  - split.
    + intros (c0 & -> & <- & <- & _). done.
    + intros [_ H]. destruct (A !! (m, k)) as [c0 |] eqn:Hc; [| done]. cbn in H. injection H as <- <-. exists c0. split_and!; try done. by eapply not_expired.
  - split; [by intros (c0 & ? & _) | by intros [? _]].
Qed.

(** The structures and the sinks do not show. *)
Lemma shows_rest n t c V s s' : shards s' = shards s -> map_stores s' = map_stores s -> s_stamp_seq s' = s_stamp_seq s ->
  shows extract schemas n t c V s -> shows extract schemas n t c V s'.
Proof.
  intros E1 E2 E3 (A & Hs & Hi & Hv & Hb & Hq). exists A. rewrite E3. split_and!; try done.
  eapply store_ok_shards; [exact E1 | rewrite E2; apply Hs | exact Hs].
Qed.

Lemma fits_sizes r : mutation_ok (Put r) -> blen (p_key r) + blen (p_value r) < 2 ^ 32.
Proof.
  intros [Hp _]. unfold payload_ok in Hp. cbn [record_of snd] in Hp. unfold map_put_payload in Hp. rewrite !blen_app, !blen_put_bytes, !blen_to_le in Hp.
  pose proof (blen_nonneg (p_map r)). lia.
Qed.

(** What does not change from recovery to serving. *)
Definition same_store (s s' : Store) : Prop := length (shards s') = length (shards s) /\ s_member_id s' = s_member_id s /\ (wal_sink s = None -> wal_sink s' = None).

Lemma tells_same ms s s' : tells ms s s' -> same_store s s'.
Proof. intros [H1 _ H3 H4]. split_and!; try done. intros E. by rewrite H1, E. Qed.

Lemma replay_shows n t c V s ck m :
  shows extract schemas n t c V s -> 0 <= n -> n + 2 <= 2 ^ 31 -> 2 ^ 56 <= c < 2 ^ 57 - 1 -> t <= now_ms ck -> 0 <= wall_ms ck < 2 ^ 40 -> rec_fits c m ->
  post (replay extract schemas ck m s) (fun s' => shows extract schemas (n + 2) (now_ms ck) (c + 1) (apply_rec V m) s' /\ same_store s s').
Proof.
  intros Hs Hn0 Hn Hc Ht Hw [Hok Hm]. destruct m as [r | r | a]; cbn [replay].
  - destruct Hm as [E Hst]. rewrite E.
    pose proof (logged_call extract schemas text_match iter iter_elements n t c V s
      (mk_sevent ck (SPutMerge (p_map r) (p_key r) (p_value r) 0 (p_stamp r) true)) Hs Hn0 Hn Hc Ht eq_refl (fits_sizes r Hok) (conj Hw Hst)) as H.
    unfold serve_store in H. cbn [se_call se_clocks told] in H. destruct (put_merge _ _ _ _ _ _ _ _ _ s) as [s' |]; [| done].
    cbn [mbind outcome_bind post] in *. destruct H as [H1 H2%tells_same]. split; [| done]. exact H1.
  - pose proof (logged_call extract schemas text_match iter iter_elements n t c V s
      (mk_sevent ck (SRemove (r_map r) (r_key r))) Hs Hn0 Hn Hc Ht eq_refl Logic.I (conj Hw Logic.I)) as H.
    unfold serve_store in H. cbn [se_call se_clocks told] in H. destruct (remove _ _ _ _ _ s) as [[s' old] |]; [| done].
    cbn [mbind outcome_bind post] in *. destruct H as [H1 H2%tells_same]. split; [| done]. exact H1.
  - cbn [post apply_rec]. split; [| done]. eapply shows_mono; [| | | eapply shows_rest; [| | | exact Hs]; done]; lia.
Qed.

Lemma same_store_trans s1 s2 s3 : same_store s1 s2 -> same_store s2 s3 -> same_store s1 s3.
Proof. intros (H1 & H2 & H3) (H4 & H5 & H6). split_and!; [congruence | congruence | auto]. Qed.

Lemma replay_all_shows n t c V s ck ms :
  shows extract schemas n t c V s -> 0 <= n -> n + 2 * blen ms <= 2 ^ 31 -> 2 ^ 56 <= c -> c + blen ms < 2 ^ 57 - 1 -> t <= now_ms ck -> 0 <= wall_ms ck < 2 ^ 40 ->
  Forall (rec_fits c) ms ->
  post (replay_all extract schemas ck ms s) (fun s' => shows extract schemas (n + 2 * blen ms) (now_ms ck) (c + blen ms) (apply_recs ms V) s' /\ same_store s s').
Proof.
  intros Hs Hn0 Hn Hc0 Hc Ht Hw Hms. revert n t c V s Hs Hn0 Hn Hc0 Hc Ht Hms. induction ms as [| m ms IH]; intros n t c V s Hs Hn0 Hn Hc0 Hc Ht Hms; cbn [replay_all].
  { cbn [post]. split; [eapply shows_mono; [| | | exact Hs]; change (blen []) with 0; lia | done]. }
  apply Forall_cons in Hms as [Hm Hms]. rewrite blen_cons in *. pose proof (blen_nonneg ms).
  eapply post_bind; [apply (replay_shows n t c V s ck m); (done || lia) |]. intros s1 [Hs1 Hsame].
  eapply post_mono; [apply (IH (n + 2) (now_ms ck) (c + 1) (apply_rec V m) s1); try (done || lia) |].
  { eapply Forall_impl; [exact Hms |]. intros m'. apply rec_fits_mono. lia. }
  intros s2 [Hs2 Hsame2]. split; [| by eapply same_store_trans]. cbn [apply_recs foldl].
  replace (n + 2 * (1 + blen ms)) with (n + 2 + 2 * blen ms) by lia. by replace (c + (1 + blen ms)) with (c + 1 + blen ms) by lia.
Qed.

(** ** Recovery *)

(** A directory whose newest snapshot has [entries]; [gen] is its generation. *)
Inductive holds_snapshot (d : Dir) : Z -> list (bytes * bytes * bytes * Z) -> Prop :=
| no_snapshot : snapshots d = ∅ -> holds_snapshot d 0 []
| newest_snapshot g entries aux older : snapshots d = <[g := snapshot_bytes entries aux]> older -> below g older -> snapshot_ok entries aux ->
    holds_snapshot d g entries.

(** What the files of a directory say of the maps. *)
Definition disk_view (d : Dir) (gen : Z) (entries : list (bytes * bytes * bytes * Z)) : view := apply_recs (map as_put entries ++ tail_of gen d) ∅.

Lemma blen_map {A B} (f : A -> B) (l : list A) : blen (map f l) = blen l.
Proof. unfold blen. by rewrite length_map. Qed.

Lemma recover_shows d gen entries t c s ck :
  holds_snapshot d gen entries -> shows extract schemas 0 t c ∅ s -> t <= now_ms ck -> 0 <= wall_ms ck < 2 ^ 40 -> 2 ^ 56 <= c ->
  let k := blen entries + blen (tail_of gen d) in 2 * k <= 2 ^ 31 -> c + k < 2 ^ 57 - 1 ->
  Forall (rec_fits c) (map as_put entries) -> Forall (rec_fits c) (tail_of gen d) ->
  post (recover extract schemas ck d s) (fun r => exists s', r = Some s' /\ same_store s s'
    /\ shows extract schemas (2 * k) (now_ms ck) (c + k) (disk_view d gen entries) s').
Proof.
  intros Hd Hs Ht Hw Hc0 k Hk Hc He Htail. unfold recover, disk_view. rewrite apply_recs_app.
  pose proof (blen_nonneg entries). pose proof (blen_nonneg (tail_of gen d)).
  assert (from_option fst 0 (last (numbered (snapshots d))) = gen /\
    post (match last (numbered (snapshots d)) with Some (_, data) => load_snapshot extract schemas ck data s | None => Ok (Some s) end)
      (fun r => exists s', r = Some s' /\ same_store s s' /\ shows extract schemas (2 * blen entries) (now_ms ck) (c + blen entries) (apply_recs (map as_put entries) ∅) s')) as [Hgen Hload].
  { inversion Hd as [E | g l aux older E Hb Hsn]; subst.
    - rewrite E. split; [done |]. cbn [post]. exists s. split_and!; try done. eapply shows_mono; [| | | exact Hs]; change (blen []) with 0; lia.
    - rewrite E, numbered_last, last_snoc by done. split; [done |]. rewrite load_snapshot_eq by done.
      eapply post_bind; [apply (replay_all_shows 0 t c ∅ s); rewrite ?blen_map; (done || lia) |].
      intros s' [Hs' Hsame]. cbn [post]. rewrite blen_map in Hs'. destruct (load_aux_rest (auxs_body aux) s') as [a ->].
      eexists. split_and!; [done | done |]. by eapply shows_rest; [| | | exact Hs']. }
  rewrite Hgen. eapply post_bind; [exact Hload |]. intros r (s1 & -> & Hsame & Hs1).
  eapply post_bind; [apply (replay_all_shows (2 * blen entries) (now_ms ck) (c + blen entries) (apply_recs (map as_put entries) ∅) s1); try (done || lia) |].
  { eapply Forall_impl; [exact Htail |]. intros m. apply rec_fits_mono. lia. }
  intros s2 [Hs2 Hsame2]. cbn [post]. exists s2. split_and!; [done | by eapply same_store_trans |].
  replace (2 * k) with (2 * blen entries + 2 * blen (tail_of gen d)) by lia. by replace (c + k) with (c + blen entries + blen (tail_of gen d)) by lia.
Qed.

End Recovered.
