(* ===== verification/RecoveryRun.v ===== *)
(** * Recovery after a crash

    The store, its log's ring, the persistence thread and the files run together; a crash keeps the files,
    the last of them up to a byte that was not yet flushed, and starts a new store from them.  At every
    moment of every such run, with any number of crashes before it, recovery gives back the maps of the
    running store, up to the records that were not yet on disk or that the ring dropped. *)

From S2P Require Import Prelude Fixed Framed WalRecord Slab FieldValue QueryIndex Table TableFacts TableIndex TableSpec TableQuery TableRun Hlc Schema Extract AuxStore Store StoreRun Recovery StoreLog RecoveryFacts.

Section System.
Context {Schemas : Type} (extract : bytes -> Schemas -> bytes -> FieldValue) (schemas : Schemas).
Context (text_match : TextKind -> bytes -> bytes -> bool) (iter : gset bytes -> list bytes).
Hypothesis iter_elements : forall X, iter X ≡ₚ elements X.
Context {X : MapStore} {I : Iteration} {C : Crc32}.
Context (nshards : nat) (member capacity threshold : Z).

(** The store; the records of the call it serves that are not yet told to the sink, an update being applied
    before it is told; the thread; and what the ring did not take since the start. *)
Record system := mk_sys { running : Store; inflight : list Mutation; thr : Thread; dropped : list Mutation }.

Inductive action :=
| Serve (ev : sevent)
| Structure (a : Structures) (r : AuxFields)
| Emit
| Drain
| Fsync
| Roll
| SnapShard (c : clocks)
| Install (ok : bool)
| RemoveOld (ok : bool)
| PruneOld (ok : bool)
| Crash (c : clocks) (keep : Z).

(** The sink is the ring: a record told to it is in it, or dropped. *)
Definition tell (m : Mutation) (fl : list Mutation) (sys : system) : system :=
  mk_sys (running sys) fl (submit capacity (thr sys) m) (if blen (queue (thr sys)) <? capacity then dropped sys else dropped sys ++ [m]).

Definition empty_sink (s : Store) : Store :=
  mk_store (s_stamp_seq s) (s_member_id s) (shards s) (map_stores s) (structures s) (Some []) (wan_sink s).

(** The files after a crash: what was flushed of the last segment, and perhaps more of it. *)
Definition cut (keep : Z) (t : Thread) : Dir :=
  mk_dir (alter (take (Z.to_nat (Z.max (synced t) keep))) (generation t) (wals (dir t))) (snapshots (dir t)).

Definition with_thread (sys : system) (t : Thread) : system := mk_sys (running sys) (inflight sys) t (dropped sys).

(** [setup_persistence]: recover, attach the sink, start the thread. *)
Definition start (c : clocks) (d : Dir) : outcome system :=
  s ← with_shards_seed nshards member;
  r ← recover extract schemas c d s;
  match r with Some s => Ok (mk_sys (set_wal_sink s) [] (spawn_persistence d) []) | None => Panic end.

Definition set_pc (p : pc) (t : Thread) : Thread := mk_thread (dir t) (generation t) (synced t) (queue t) p.

(** A call is served when the one before it has told its records.  A step that is not possible, the thread
    being elsewhere in its loop say, does nothing. *)
Definition step (sys : system) (a : action) : outcome system :=
  let t := thr sys in
  match a, inflight sys, at_pc t with
  | Serve ev, [], _ =>
    '(s, _) ← serve_store extract schemas text_match iter ev (running sys);
    Ok (mk_sys (empty_sink s) (default [] (wal_sink s)) t (dropped sys))
  | Structure a r, [], _ => Ok (mk_sys (set_structures a (running sys)) [Aux r] t (dropped sys))
  | Emit, m :: fl, _ => Ok (tell m fl sys)
  | Drain, _, Draining => Ok (with_thread sys (drain t))
  | Fsync, _, Draining => Ok (with_thread sys (fsync t))
  | Roll, _, Draining => Ok (with_thread sys (roll threshold t))
  | SnapShard c, _, Snapping old acc i => t ← snap_shard c (running sys) old acc i t; Ok (with_thread sys t)
  | Install ok, _, Snapping old acc i =>
    Ok (if (i =? length (shards (running sys)))%nat then with_thread sys (install_snapshot ok (running sys) old acc t) else sys)
  | RemoveOld ok, _, Snapshotted old => Ok (with_thread sys (if ok then remove_old old t else set_pc Removed t))
  | PruneOld ok, _, Removed => Ok (with_thread sys (if ok then prune t else set_pc Draining t))
  | Crash c keep, _, _ => start c (cut keep t)
  | _, _, _ => Ok sys
  end.

Fixpoint run (sys : system) (acts : list action) : outcome system :=
  match acts with [] => Ok sys | a :: acts => sys ← step sys a; run sys acts end.

(** The first start, in an empty directory. *)
Definition system0 (c : clocks) : outcome system := start c (mk_dir ∅ ∅).

(** ** What a run may do *)

(** Names are UTF-8 and records below 4 GiB. *)
Definition fits_log (c : scall) : Prop :=
  match c with
  | SPut m k v | SPutTtl m k v _ | SPutMerge m k v _ _ _ | SApplyWan _ m k v _ _ => name_ok m /\ 30 + blen m + blen k + blen v < 2 ^ 32
  | SRemove m k => name_ok m /\ 18 + blen m + blen k < 2 ^ 32
  | _ => True
  end.

Definition wall_fits (c : clocks) : Prop := 0 <= wall_ms c < 2 ^ 40.

Definition act_ok (t : Z) (sys : system) (a : action) : Prop :=
  match a with
  | Serve ev => logged (se_call ev) = true /\ scall_ok (se_call ev) /\ fits_log (se_call ev) /\ t <= now_ms (se_clocks ev) /\ stamps_fit (2 ^ 56) ev
  | Structure _ r => mutation_ok (Aux r)
  | Install ok =>
    ok = true /\ blen (auxs_body (all_aux (structures (running sys)))) < 2 ^ 32
    /\ match at_pc (thr sys) with Snapping _ acc _ => blen (entries_body acc) < 2 ^ 32 | _ => True end
  | Crash c _ => wall_fits c
  | _ => True
  end.

Definition time_after (t : Z) (a : action) : Z := match a with Serve ev => now_ms (se_clocks ev) | Crash c _ => now_ms c | _ => t end.

Fixpoint run_ok (t : Z) (sys : system) (acts : list action) : Prop :=
  match acts with
  | [] => True
  | a :: acts => act_ok t sys a /\ match step sys a with Ok sys => run_ok (time_after t a) sys acts | Panic => True end
  end.

(** ** The invariant *)

Definition rec_key (m : Mutation) : option (bytes * bytes) :=
  match m with Put r => Some (p_map r, p_key r) | Remove r => Some (r_map r, r_key r) | Aux _ => None end.

(** No record of the list is about the key. *)
Definition untouched (k : bytes * bytes) (ms : list Mutation) : Prop := Forall (fun m => rec_key m <> Some k) ms.

Lemma rec_at_untouched k m x : rec_key m <> Some k -> rec_at k x m = x.
Proof. destruct m; cbn; intros H; try case_decide; congruence. Qed.

Lemma recs_at_untouched k ms x : untouched k ms -> foldl (rec_at k) x ms = x.
Proof. intros H. revert x. induction H as [| m ms Hm _ IH]; intros x; [done |]. cbn [foldl]. rewrite rec_at_untouched by done. apply IH. Qed.

(** The entries of [W], with the records of the ring, are those of [V]. *)
Definition follows (P : bytes * bytes -> Prop) (W : view) (drops qms : list Mutation) (V : view) : Prop :=
  forall k, P k -> untouched k drops -> foldl (rec_at k) (W !! k) qms = V !! k.

(** The bound on the clocks after [N] steps. *)
Definition lim (N : Z) : Z := 2 ^ 56 + N * 2 ^ 29.

Definition view_fits (c : Z) (V : view) : Prop := map_Forall (fun k e => rec_fits c (Put (mk_put e.2 0 k.1 k.2 e.1))) V.

Record store_inv (N t : Z) (V : view) (s : Store) : Prop := {
  si_shows : shows extract schemas (2 ^ 30 + 2 * N) t (lim N) V s;
  si_sink : wal_sink s = Some [];
  si_shards : length (shards s) = nshards;
  si_member : s_member_id s = member;
  si_fits : view_fits (lim N) V
}.

(** The files: the segment in use holds [cur], the newest snapshot [entries]. *)
Record disk_inv (N : Z) (t : Thread) (cur : list Mutation) (older : gmap Z bytes) (gen : Z) (entries : list (bytes * bytes * bytes * Z)) : Prop := {
  di_wals : wals (dir t) = <[generation t := frames (map record_of cur)]> older;
  di_older : below (generation t) older;
  di_generation : 0 < generation t <= N + 1;
  di_snapshot : holds_snapshot (dir t) gen entries;
  di_gen : gen <= generation t;
  di_entries : Forall (rec_fits (lim N)) (map as_put entries);
  di_cur : Forall (rec_fits (lim N)) cur;
  di_tail : Forall (rec_fits (lim N)) (tail_of gen (dir t));
  di_synced : exists j, synced t = blen (frames (map record_of (take j cur)))
}.

(** What is known between the steps of a roll; [pend] are the records on their way to the file. *)
Definition pc_inv (N : Z) (t : Thread) (cur : list Mutation) (gen : Z) (drops pend : list Mutation) (V : view) : Prop :=
  match at_pc t with
  | Draining => True
  | Snapping old acc i =>
    cur = [] /\ gen < generation t /\ old < generation t /\ Forall (rec_fits (lim N)) (map as_put acc)
    /\ (forall m k v st, (m, k, v, st) ∈ acc -> (shard_of m k nshards < i)%nat)
    /\ follows (fun k => (shard_of k.1 k.2 nshards < i)%nat) (apply_recs (map as_put acc) ∅) drops pend V
  | Snapshotted old => gen = generation t /\ old < generation t
  | Removed => gen = generation t
  end.

Record sys_inv (N t : Z) (sys : system) (V : view) (qms cur : list Mutation) (older : gmap Z bytes) (gen : Z) (entries : list (bytes * bytes * bytes * Z)) : Prop := {
  sy_store : store_inv N t V (running sys);
  sy_disk : disk_inv N (thr sys) cur older gen entries;
  sy_queue : queue (thr sys) = map encode_mutation qms;
  sy_fits : Forall (rec_fits (lim N)) (qms ++ inflight sys);
  sy_count : blen (tail_of gen (dir (thr sys))) + blen (qms ++ inflight sys) <= N;
  sy_view : follows (fun _ => True) (disk_view (dir (thr sys)) gen entries) (dropped sys) (qms ++ inflight sys) V;
  sy_pc : pc_inv N (thr sys) cur gen (dropped sys) (qms ++ inflight sys) V
}.

Definition good (N t : Z) (sys : system) : Prop := exists V qms cur older gen entries, sys_inv N t sys V qms cur older gen entries.

(** ** Growing bounds *)

Lemma lim_le N N' : N <= N' -> lim N <= lim N'.
Proof. unfold lim. lia. Qed.

Lemma fits_mono N N' ms : N <= N' -> Forall (rec_fits (lim N)) ms -> Forall (rec_fits (lim N')) ms.
Proof. intros Hle H. eapply Forall_impl; [exact H |]. intros m. apply rec_fits_mono. by apply lim_le. Qed.

Lemma view_fits_mono N N' V : N <= N' -> view_fits (lim N) V -> view_fits (lim N') V.
Proof. intros Hle H k e He. apply H in He. eapply rec_fits_mono; [| exact He]. by apply lim_le. Qed.

Lemma store_inv_mono N N' t V s : N <= N' -> store_inv N t V s -> store_inv N' t V s.
Proof.
  intros Hle [H1 H2 H3 H4 H5]. split; try done; [| by eapply view_fits_mono]. eapply shows_mono; [| | | exact H1]; [lia | done | by apply lim_le].
Qed.

Lemma disk_inv_mono N N' t cur older gen entries : N <= N' -> disk_inv N t cur older gen entries -> disk_inv N' t cur older gen entries.
Proof. intros Hle []. split; try done; try (by eapply fits_mono). lia. Qed.

Lemma pc_inv_mono N N' t cur gen drops qms V : N <= N' -> pc_inv N t cur gen drops qms V -> pc_inv N' t cur gen drops qms V.
Proof. intros Hle. unfold pc_inv. destruct (at_pc t); try done. intros (? & ? & ? & ? & ? & ?). split_and!; try done. by eapply fits_mono. Qed.

Lemma sys_inv_mono N N' t sys V qms cur older gen entries : N <= N' -> sys_inv N t sys V qms cur older gen entries -> sys_inv N' t sys V qms cur older gen entries.
Proof.
  intros Hle []. split; try done; [by eapply store_inv_mono | by eapply disk_inv_mono | by eapply fits_mono | lia | by eapply pc_inv_mono].
Qed.

(** ** Records told to the ring *)

Lemma follows_push P W drops qms V m : follows P W drops qms V -> follows P W drops (qms ++ [m]) (apply_rec V m).
Proof. intros H k Hk Hu. by rewrite foldl_snoc, (H k Hk Hu), apply_rec_at. Qed.

Lemma follows_drop P W drops qms fl V m : follows P W drops (qms ++ m :: fl) V -> follows P W (drops ++ [m]) (qms ++ fl) V.
Proof.
  intros H k Hk [Hu Hm]%Forall_app. rewrite <- (H k Hk Hu), !foldl_app. cbn [foldl]. rewrite (rec_at_untouched k m); [done |]. by inversion Hm.
Qed.

Lemma pc_inv_follows N t cur gen drops pend V V' drops' pend' q :
  pc_inv N t cur gen drops pend V ->
  (forall P W, follows P W drops pend V -> follows P W drops' pend' V') ->
  pc_inv N (mk_thread (dir t) (generation t) (synced t) q (at_pc t)) cur gen drops' pend' V'.
Proof. unfold pc_inv. cbn [at_pc generation]. destruct (at_pc t); try done. intros (? & ? & ? & ? & ? & ?) Hf. split_and!; try done. by apply Hf. Qed.

Lemma pc_inv_same N t cur gen drops pend V V' drops' pend' :
  pc_inv N t cur gen drops pend V -> (forall P W, follows P W drops pend V -> follows P W drops' pend' V') -> pc_inv N t cur gen drops' pend' V'.
Proof. intros Hp Hf. destruct t as [d g sy q p]. by apply (pc_inv_follows N (mk_thread d g sy q p) cur gen drops pend V). Qed.

(** An update that is applied, and its record on its way. *)
Lemma apply_inv N t t' sys V V' s' m qms cur older gen entries :
  sys_inv N t sys V qms cur older gen entries -> inflight sys = [] -> store_inv (N + 1) t' V' s' -> V' = apply_rec V m -> rec_fits (lim (N + 1)) m ->
  sys_inv (N + 1) t' (mk_sys s' [m] (thr sys) (dropped sys)) V' qms cur older gen entries.
Proof.
  intros Hinv Hfl Hs -> Hm. pose proof (sy_count _ _ _ _ _ _ _ _ _ Hinv) as Hcount. apply (sys_inv_mono N (N + 1)) in Hinv as [_ Hd Hq Hf _ Hv Hp]; [| lia].
  rewrite Hfl, app_nil_r in *. split; cbn [running inflight thr dropped]; try done.
  - by apply Forall_app_2, Forall_singleton.
  - rewrite blen_app. change (blen [m]) with 1. lia.
  - by apply follows_push.
  - eapply pc_inv_same; [exact Hp |]. intros P W. apply follows_push.
Qed.

Lemma emit_step N t sys V qms cur older gen entries m fl :
  sys_inv N t sys V qms cur older gen entries -> inflight sys = m :: fl -> good (N + 1) t (tell m fl sys).
Proof.
  intros Hinv Hfl. apply (sys_inv_mono N (N + 1)) in Hinv as [Hs [D1 D2 D3 D4 D5 D6 D7 D8 D9] Hq Hf Hcount Hv Hp]; [| lia]. rewrite Hfl in *.
  unfold tell, submit. destruct (Z.ltb_spec (blen (queue (thr sys))) capacity).
  - exists V, (qms ++ [m]), cur, older, gen, entries. split; cbn [running inflight thr dropped queue dir]; rewrite <- ?app_assoc; try done.
    by rewrite map_app, Hq.
  - apply Forall_app in Hf as [Hf1 [Hf2 Hf3]%Forall_cons]. exists V, qms, cur, older, gen, entries. split; cbn [running inflight thr dropped]; try done.
    + by apply Forall_app_2.
    + rewrite blen_app, blen_cons in Hcount. rewrite blen_app. lia.
    + by apply follows_drop.
    + eapply pc_inv_same; [exact Hp |]. intros P W. apply follows_drop.
Qed.

(** ** Served calls *)

Lemma view_fits_rec c V m : view_fits c V -> rec_fits c m -> view_fits c (apply_rec V m).
Proof.
  intros HV Hm. destruct m as [r | r | r]; cbn [apply_rec]; [| by apply map_Forall_delete | done].
  assert (view_fits c (<[(p_map r, p_key r) := (p_value r, p_stamp r)]> V)) as H.
  { apply map_Forall_insert_2; [| done]. destruct Hm as [H1 [H2 H3]]. destruct r; cbn in *. by subst. }
  destruct (V !! _) as [[v st] |]; [destruct (st <? _) |]; done.
Qed.

Lemma stamp_u64 c st : c < 2 ^ 57 -> stamp_ok c st -> is_u64 st.
Proof.
  unfold stamp_ok, clock_of, STAMP_MEMBER_BITS, is_u64. rewrite Z.shiftr_div_pow2 by lia. change (2 ^ 7) with 128. intros Hc H.
  pose proof (Z.div_mod st 128 ltac:(lia)). pose proof (Z.mod_pos_bound st 128 ltac:(lia)). lia.
Qed.

Lemma put_fits c st m k v : c < 2 ^ 57 -> stamp_ok c st -> name_ok m -> 30 + blen m + blen k + blen v < 2 ^ 32 -> rec_fits c (Put (mk_put st 0 m k v)).
Proof.
  intros Hc Hst Hm Hsz. split; [| done]. split.
  - unfold payload_ok. cbn [record_of snd]. unfold map_put_payload. rewrite !blen_app, !blen_put_bytes, !blen_to_le. cbn. lia.
  - split_and!; [by eapply stamp_u64 | by cbn | done].
Qed.

Lemma remove_fits c st m k : c < 2 ^ 57 -> stamp_ok c st -> name_ok m -> 18 + blen m + blen k < 2 ^ 32 -> rec_fits c (Remove (mk_remove st m k)).
Proof.
  intros Hc Hst Hm Hsz. split; [| done]. split; [| split; [by eapply stamp_u64 | done]].
  unfold payload_ok. cbn [record_of snd]. unfold map_remove_payload. rewrite !blen_app, !blen_put_bytes, !blen_to_le. cbn. lia.
Qed.

(** At most one record, and one that fits. *)
Lemma told_one c q ev : 2 ^ 56 <= c < 2 ^ 57 - 1 -> stamp_ok c q -> logged (se_call ev) = true -> fits_log (se_call ev) -> stamps_fit (2 ^ 56) ev ->
  told member q ev = [] \/ exists m, told member q ev = [m] /\ rec_fits (c + 1) m.
Proof.
  intros Hc Hq Hl Hf [Hw Hst]. destruct ev as [ck call]. unfold told. cbn [se_call se_clocks] in *.
  assert (stamp_ok (c + 1) (next_stamp_at member (wall_ms ck) q)) as Hnext.
  { destruct (next_cand_ok c member (wall_ms ck) q Hc Hq Hw) as [Hn _]. unfold stamp_ok, next_stamp_at in *. lia. }
  assert (forall st, stamp_ok (2 ^ 56) st -> stamp_ok (c + 1) st) as Hold by (unfold stamp_ok; lia).
  destruct call as [m k v | m k v ttl | | m k v ttl st latest | [] m k v ttl st | m k | m k | m k | | | | | | | |]; cbn [logged fits_log] in *; try discriminate Hl; try (by left); right; eexists;
    (split; [done |]).
  - destruct Hf. apply put_fits; (done || lia).
  - destruct Hf. apply Z.eqb_eq in Hl as ->. apply put_fits; (done || lia).
  - destruct Hf. apply andb_true_iff in Hl as [->%Z.eqb_eq _]. apply put_fits; (lia || auto).
  - destruct Hf. apply Z.eqb_eq in Hl as ->. apply put_fits; (lia || auto).
  - destruct Hf. pose proof (blen_nonneg v). apply remove_fits; (lia || auto).
  - destruct Hf. apply remove_fits; (done || lia).
Qed.

Section Steps.
Context (N t : Z) (sys : system) (HN : 0 <= N < 2 ^ 26).

Lemma lim_bounds : 2 ^ 56 <= lim N < 2 ^ 57 - 1 - 2 ^ 30.
Proof using HN. unfold lim. lia. Qed.

Lemma serve_step V qms cur older gen entries ev :
  sys_inv N t sys V qms cur older gen entries -> inflight sys = [] -> act_ok t sys (Serve ev) ->
  post ('(s, _) ← serve_store extract schemas text_match iter ev (running sys); Ok (mk_sys (empty_sink s) (default [] (wal_sink s)) (thr sys) (dropped sys)))
    (good (N + 1) (now_ms (se_clocks ev))).
Proof using iter_elements HN.
  intros Hinv Hfl (Hl & Hok & Hf & Ht & Hst). pose proof lim_bounds as Hlim.
  assert (stamps_fit (lim N) ev) as Hst'.
  { destruct Hst as [Hw Hs]. split; [done |]. destruct (se_call ev); unfold stamp_ok in *; try done; lia. }
  destruct (sy_store _ _ _ _ _ _ _ _ _ Hinv) as [Hs Hsink Hsh Hmem Hfit]. assert (stamp_ok (lim N) (s_stamp_seq (running sys))) as Hq by (destruct Hs as (A & ? & ? & ? & ? & ?); done).
  eapply post_bind; [apply (logged_call extract schemas text_match iter iter_elements (2 ^ 30 + 2 * N) t (lim N) V); try done; lia |].
  intros [s' r] [Hs' [E1 E2 E3 E4]]. rewrite Hmem in *. rewrite Hsink in E1. cbn [fmap option_fmap option_map app] in E1. rewrite E1. cbn [default id post].
  assert (forall V', shows extract schemas (2 ^ 30 + 2 * N + 2) (now_ms (se_clocks ev)) (lim N + 1) V' s' -> view_fits (lim (N + 1)) V' -> store_inv (N + 1) (now_ms (se_clocks ev)) V' (empty_sink s')) as Hstore.
  { intros V' Hsh' Hv'. split; try done; [| by rewrite <- Hsh, <- E3].
    eapply shows_mono; [| | | eapply shows_rest; [| | | exact Hsh']; done]; [lia | lia | unfold lim; lia]. }
  assert (view_fits (lim (N + 1)) V) as HV by (eapply view_fits_mono; [| exact Hfit]; lia).
  destruct (told_one (lim N) (s_stamp_seq (running sys)) ev ltac:(lia) Hq Hl Hf Hst) as [E | (m & E & Hm)]; rewrite E in *; cbn [apply_recs foldl] in *.
  - exists V, qms, cur, older, gen, entries. apply (sys_inv_mono N (N + 1)) in Hinv as [_ H2 H3 H4 H5 H6 H7]; [| lia]. rewrite Hfl in *. split; try done. by apply Hstore.
  - assert (rec_fits (lim (N + 1)) m) as Hm' by (eapply rec_fits_mono; [| exact Hm]; unfold lim; lia).
    exists (apply_rec V m), qms, cur, older, gen, entries. eapply apply_inv; [exact Hinv | done | | done | done]. apply Hstore; [done |]. by apply view_fits_rec.
Qed.

Lemma structure_step V qms cur older gen entries a r :
  sys_inv N t sys V qms cur older gen entries -> inflight sys = [] -> mutation_ok (Aux r) -> good (N + 1) t (mk_sys (set_structures a (running sys)) [Aux r] (thr sys) (dropped sys)).
Proof.
  intros Hinv Hfl Hr. exists V, qms, cur, older, gen, entries. eapply apply_inv; [exact Hinv | done | | done | done].
  destruct (sy_store _ _ _ _ _ _ _ _ _ Hinv) as [H1 H2 H3 H4 H5]. apply (store_inv_mono N); [lia |]. split; try done. by eapply shows_rest; [| | | exact H1].
Qed.

End Steps.

(** ** The thread *)

Lemma replayed_frames ms : Forall (fun m => mutation_ok m) ms -> replayed (Some (frames (map record_of ms))) = ms.
Proof.
  intros H. unfold replayed, read_segment. cbn [default id]. rewrite read_all_written; [by apply omap_parse |].
  apply Forall_map. eapply Forall_impl; [exact H |]. by intros m [? _].
Qed.

Lemma fits_ok c ms : Forall (rec_fits c) ms -> Forall (fun m => mutation_ok m) ms.
Proof. intros H. eapply Forall_impl; [exact H |]. by intros m [? _]. Qed.

(** The records of the segments of a directory, the last of them apart. *)
Lemma tail_last gen w sn g x older : w = <[g := x]> older -> below g older -> gen <= g ->
  tail_of gen (mk_dir w sn) = tail_of gen (mk_dir older sn) ++ replayed (Some x).
Proof.
  intros -> Hb Hg. unfold tail_of. cbn [wals]. rewrite numbered_last by done. rewrite map_app, concat_app. cbn [map concat fst snd].
  rewrite (proj2 (Z.ltb_ge _ _)) by lia. by rewrite app_nil_r.
Qed.

(** Segments below the snapshot are not replayed. *)
Lemma tail_superseded gen older sn : below gen older -> tail_of gen (mk_dir older sn) = [].
Proof.
  intros Hb. unfold tail_of. cbn [wals]. assert (Forall (fun p => p.1 < gen) (numbered older)) as H.
  { unfold numbered. rewrite stable_sort_perm. apply Forall_forall. intros [n x] Hin%elem_of_map_to_list. by apply (Hb n x). }
  induction H as [| p l Hp _ IH]; [done |]. cbn [map concat]. by rewrite (proj2 (Z.ltb_lt _ _)), IH.
Qed.

Lemma holds_snapshot_same d d' gen entries : snapshots d' = snapshots d -> holds_snapshot d gen entries -> holds_snapshot d' gen entries.
Proof. intros E H. inversion H; subst; [apply no_snapshot; congruence | eapply newest_snapshot; [by rewrite E | done | done]]. Qed.

Lemma holds_below d gen entries g : holds_snapshot d gen entries -> gen < g -> below g (snapshots d).
Proof. intros H Hg. inversion H as [E | g' l aux older E Hb _]; subst; rewrite E; [by intros ? ? ?%lookup_empty_Some | by apply below_insert]. Qed.

Section Thread.
Context (N t : Z) (sys : system) (HN : 0 <= N < 2 ^ 26).
Context (V : view) (qms cur : list Mutation) (older : gmap Z bytes) (gen : Z) (entries : list (bytes * bytes * bytes * Z)).
Context (Hinv : sys_inv N t sys V qms cur older gen entries).

Abbreviation th := (thr sys).

Lemma disk_tail : tail_of gen (dir th) = tail_of gen (mk_dir older (snapshots (dir th))) ++ cur.
Proof using Hinv.
  destruct (sy_disk _ _ _ _ _ _ _ _ _ Hinv) as [D1 D2 D3 D4 D5 D6 D7 D8 D9]. assert (replayed (Some (frames (map record_of cur))) = cur) as E by (by eapply replayed_frames, fits_ok). rewrite <- E.
  rewrite <- (tail_last gen (wals (dir th)) (snapshots (dir th)) (generation th)) by done. by destruct (dir th).
Qed.

Lemma current : wals (dir th) !! generation th = Some (frames (map record_of cur)).
Proof using Hinv. by rewrite (di_wals _ _ _ _ _ _ (sy_disk _ _ _ _ _ _ _ _ _ Hinv)), lookup_insert_eq. Qed.

Lemma drain_step : at_pc th = Draining -> good (N + 1) t (with_thread sys (drain th)).
Proof using Hinv.
  intros Hpc. pose proof disk_tail as Htail. pose proof current as Hcur. pose proof (sys_inv_mono N (N + 1) _ _ _ _ _ _ _ _ ltac:(lia) Hinv) as [H1 [D1 D2 D3 D4 D5 D6 D7 D8 D9] H3 H4 _ H6 H7].
  pose proof (sy_count _ _ _ _ _ _ _ _ _ Hinv) as Hcount. unfold drain. rewrite H3. destruct qms as [| m q]; cbn [map].
  { exists V, [], cur, older, gen, entries. split; try done. cbn in *. lia. }
  cbn [app] in *. apply Forall_cons in H4 as [Hm Hq]. set (d := append_segment (generation th) (encode_mutation m) (dir th)).
  assert (wals d = <[generation th := frames (map record_of (cur ++ [m]))]> older) as Ew.
  { unfold d, append_segment. cbn [wals]. rewrite Hcur, D1, insert_insert_eq. f_equal. cbn [seg_open seg_append file default id].
    rewrite map_app, frames_app. f_equal. cbn [map]. rewrite frames_cons, encode_record_of. cbn. by rewrite app_nil_r. }
  assert (tail_of gen d = tail_of gen (dir th) ++ [m]) as Et.
  { assert (replayed (Some (frames (map record_of (cur ++ [m])))) = cur ++ [m]) as E by (eapply replayed_frames, fits_ok; by apply Forall_app_2, Forall_singleton).
    rewrite Htail, <- app_assoc, <- E.
    by apply (tail_last gen (wals d) (snapshots (dir th)) (generation th)). }
  exists V, q, (cur ++ [m]), older, gen, entries. split; cbn [with_thread running inflight thr dropped queue dir]; try done.
  - split; cbn [dir generation synced]; try done; [by apply (holds_snapshot_same (dir th)) | by apply Forall_app_2, Forall_singleton | rewrite Et; by apply Forall_app_2, Forall_singleton |].
    destruct D9 as [j ->]. exists (Nat.min j (length cur)). rewrite take_app_le by lia. destruct (Nat.le_ge_cases j (length cur)).
    + by rewrite Nat.min_l.
    + by rewrite Nat.min_r, !take_ge by lia.
  - rewrite Et, blen_app. rewrite blen_cons in Hcount. change (blen [m]) with 1. lia.
  - intros k Hk Hu. rewrite <- (H6 k Hk Hu). cbn [foldl]. unfold disk_view. rewrite Et, app_assoc, apply_recs_app. f_equal.
    apply (apply_rec_at _ m k).
  - unfold pc_inv. cbn [at_pc]. by rewrite Hpc.
Qed.

Lemma fsync_step : at_pc th = Draining -> good (N + 1) t (with_thread sys (fsync th)).
Proof using Hinv HN.
  intros Hpc. pose proof current as Hcur. pose proof (sys_inv_mono N (N + 1) _ _ _ _ _ _ _ _ ltac:(lia) Hinv) as [H1 [D1 D2 D3 D4 D5 D6 D7 D8 D9] H3 H4 H5 H6 H7].
  exists V, qms, cur, older, gen, entries. split; cbn [with_thread running inflight thr dropped queue dir fsync]; try done.
  - split; try done. exists (length cur). cbn [synced fsync]. unfold segment_len. by rewrite Hcur, take_ge.
Qed.

Lemma roll_step : at_pc th = Draining -> good (N + 1) t (with_thread sys (roll threshold th)).
Proof using Hinv HN.
  intros Hpc. pose proof (sys_inv_mono N (N + 1) _ _ _ _ _ _ _ _ ltac:(lia) Hinv) as Hinv'. unfold roll.
  destruct (segment_len th <? threshold); [exists V, qms, cur, older, gen, entries; by destruct sys |].
  destruct (sy_disk _ _ _ _ _ _ _ _ _ Hinv) as [_ _ Hg _ _ _ _ _ _]. destruct Hinv' as [H1 [D1 D2 D3 D4 D5 D6 D7 D8 D9] H3 H4 H5 H6 H7].
  rewrite wrap_u64_small by (unfold is_u64; lia). set (d := open_segment (generation th + 1) (dir th)).
  assert (below (generation th + 1) (wals (dir th))) as Hb by (rewrite D1; apply below_insert; [lia | done]).
  assert (wals d = <[generation th + 1 := frames (map record_of [])]> (wals (dir th))) as Ew.
  { unfold d, open_segment. cbn [wals]. f_equal. destruct (wals (dir th) !! (generation th + 1)) as [x |] eqn:E; [| done]. apply Hb in E. lia. }
  assert (tail_of gen d = tail_of gen (dir th)) as Et.
  { etrans; [apply (tail_last gen (wals d) (snapshots (dir th)) (generation th + 1) (frames (map record_of [])) (wals (dir th))); [done | done | lia] |].
    rewrite replayed_frames, app_nil_r by done. by destruct (dir th). }
  exists V, qms, [], (wals (dir th)), gen, entries. split; cbn [with_thread running inflight thr dropped queue dir]; try done.
  - split; cbn [dir generation synced]; try done; [lia | by apply (holds_snapshot_same (dir th)) | lia | by rewrite Et | by exists 0%nat].
  - by rewrite Et.
  - intros k Hk Hu. unfold disk_view. rewrite Et. by apply H6.
  - unfold pc_inv. cbn [at_pc generation]. split_and!; try done; [lia | lia | by intros ? ? ? ? ?%elem_of_nil |].
    intros k Hk. lia.
Qed.

(** The live entries of one shard. *)
Lemma shard_entries n c i x ck : shows extract schemas n t c V (running sys) -> shards (running sys) !! i = Some x -> length (shards (running sys)) = nshards ->
  exists l, collect_all_stamped (now_ms ck) x = Ok l
    /\ forall m k v st, (m, k, v, st) ∈ l <-> shard_of m k nshards = i /\ V !! (m, k) = Some (v, st).
Proof using Hinv HN. intros Hs Hx <-. by eapply shows_shard_entries. Qed.

Lemma snap_step ck old acc i : at_pc th = Snapping old acc i -> post (snap_shard ck (running sys) old acc i th) (fun t' => good (N + 1) t (with_thread sys t')).
Proof using Hinv HN.
  intros Hpc. pose proof (sys_inv_mono N (N + 1) _ _ _ _ _ _ _ _ ltac:(lia) Hinv) as Hinv'. unfold snap_shard.
  destruct (shards (running sys) !! i) as [x |] eqn:Hx; [| cbn [post]; exists V, qms, cur, older, gen, entries; by destruct sys].
  destruct Hinv' as [[S1 S2 S3 S4 S5] [D1 D2 D3 D4 D5 D6 D7 D8 D9] H3 H4 H5 H6 H7].
  destruct (shard_entries _ _ i x ck S1 Hx S3) as (l & -> & Hin). cbn [mbind outcome_bind post].
  unfold pc_inv in H7. rewrite Hpc in H7. destruct H7 as (Ec & Hg & Ho & Hacc & Hlow & Hfol).
  assert (Forall (rec_fits (lim (N + 1))) (map as_put l)) as Hl.
  { apply Forall_map, Forall_forall. intros [[[m k] v] st] [_ He]%Hin. exact (S5 (m, k) (v, st) He). }
  exists V, qms, cur, older, gen, entries. split; try done. unfold pc_inv. cbn [at_pc with_thread thr generation]. split_and!; try done.
  - rewrite map_app. by apply Forall_app_2.
  - intros m k v st [H | [H _]%Hin]%elem_of_app; [apply Hlow in H |]; lia.
  - intros [m k] Hk Hu. cbn [fst snd] in Hk. rewrite map_app, apply_recs_app, apply_recs_at. destruct (decide (shard_of m k nshards = i)) as [Hi | Hi].
    + assert (apply_recs (map as_put acc) ∅ !! (m, k) = None) as ->.
      { rewrite apply_recs_at, lookup_empty. apply entries_absent. cbn [fst snd]. intros v st H%Hlow. lia. }
      rewrite (entries_at l (m, k) (V !! (m, k))) by (intros v st; rewrite Hin; tauto). rewrite <- (H6 (m, k)) by done. apply recs_at_twice.
    + rewrite (recs_at_untouched _ (map as_put l)); [apply Hfol; [cbn [fst snd]; lia | done] |]. apply Forall_map, Forall_forall. intros [[[m' k'] v'] st'] [H' _]%Hin. cbn. intros [= -> ->]. done.
Qed.

Lemma install_step old acc i : at_pc th = Snapping old acc i -> i = nshards -> (0 < nshards)%nat ->
  blen (auxs_body (all_aux (structures (running sys)))) < 2 ^ 32 -> blen (entries_body acc) < 2 ^ 32 ->
  good (N + 1) t (with_thread sys (install_snapshot true (running sys) old acc th)).
Proof using Hinv HN.
  intros Hpc -> Hn Hax Hac. pose proof (sys_inv_mono N (N + 1) _ _ _ _ _ _ _ _ ltac:(lia) Hinv) as [H1 [D1 D2 D3 D4 D5 D6 D7 D8 D9] H3 H4 H5 H6 H7].
  unfold pc_inv in H7. rewrite Hpc in H7. destruct H7 as (-> & Hg & Ho & Hacc & Hlow & Hfol).
  set (d := mk_dir (wals (dir th)) (<[generation th := snapshot_bytes acc (all_aux (structures (running sys)))]> (snapshots (dir th)))).
  assert (tail_of (generation th) d = []) as Et.
  { etrans; [apply (tail_last _ (wals d) (snapshots d) (generation th) (frames (map record_of [])) older); [done | done | lia] |].
    by rewrite replayed_frames, app_nil_r, tail_superseded. }
  assert (snapshot_ok acc (all_aux (structures (running sys)))) as Hok.
  { split; [| done | done]. apply (Forall_map as_put) in Hacc. eapply Forall_impl; [exact Hacc |]. intros [[[m k] v] st] [[_ (? & _ & ?)] _]. done. }
  exists V, qms, [], older, (generation th), acc. split; cbn [with_thread running inflight thr dropped queue dir install_snapshot]; fold d; try done.
  - split; cbn [dir generation synced install_snapshot]; fold d; try done; [| by rewrite Et]. eapply newest_snapshot; [done | by eapply holds_below | exact Hok].
  - rewrite Et. pose proof (blen_nonneg (tail_of gen (dir th))). change (blen []) with 0. lia.
  - intros [m k] Hk Hu. unfold disk_view. rewrite Et, app_nil_r. apply Hfol; [by apply shard_of_lt | done].
Qed.

Lemma remove_step old : at_pc th = Snapshotted old -> good (N + 1) t (with_thread sys (remove_old old th)).
Proof using Hinv HN.
  intros Hpc. pose proof disk_tail as Htail. pose proof (sys_inv_mono N (N + 1) _ _ _ _ _ _ _ _ ltac:(lia) Hinv) as [H1 [D1 D2 D3 D4 D5 D6 D7 D8 D9] H3 H4 H5 H6 H7].
  unfold pc_inv in H7. rewrite Hpc in H7. destruct H7 as [-> Ho].
  set (d := mk_dir (delete old (wals (dir th))) (snapshots (dir th))).
  assert (wals d = <[generation th := frames (map record_of cur)]> (delete old older)) as Ew by (cbn; rewrite D1, delete_insert_ne by lia; done).
  assert (below (generation th) (delete old older)) as Hb by (by apply map_Forall_delete).
  assert (tail_of (generation th) d = tail_of (generation th) (dir th)) as Et.
  { rewrite Htail, tail_superseded by done. etrans; [apply (tail_last _ (wals d) (snapshots d) (generation th) (frames (map record_of cur)) (delete old older)); [exact Ew | done | lia] |].
    rewrite tail_superseded by done. cbn. by eapply replayed_frames, fits_ok. }
  exists V, qms, cur, (delete old older), (generation th), entries. split; cbn [with_thread running inflight thr dropped queue dir remove_old]; fold d; try done.
  - split; cbn [dir generation synced remove_old]; fold d; try done; [by apply (holds_snapshot_same (dir th)) | by rewrite Et].
  - by rewrite Et.
  - unfold disk_view. by rewrite Et.
Qed.

Lemma prune_step : at_pc th = Removed -> good (N + 1) t (with_thread sys (prune th)).
Proof using Hinv HN.
  intros Hpc. pose proof disk_tail as Htail. pose proof (sys_inv_mono N (N + 1) _ _ _ _ _ _ _ _ ltac:(lia) Hinv) as [H1 [D1 D2 D3 D4 D5 D6 D7 D8 D9] H3 H4 H5 H6 H7].
  unfold pc_inv in H7. rewrite Hpc in H7. subst gen. set (d := prune_below (generation th) (dir th)).
  assert (wals d = <[generation th := frames (map record_of cur)]> ∅) as Ew by (unfold d, prune_below; cbn [wals]; rewrite D1; by apply filter_above).
  assert (tail_of (generation th) d = tail_of (generation th) (dir th)) as Et.
  { rewrite Htail, tail_superseded by done. etrans; [apply (tail_last _ (wals d) (snapshots d) (generation th) (frames (map record_of cur)) ∅); [exact Ew | by apply map_Forall_empty | lia] |].
    cbn. by eapply replayed_frames, fits_ok. }
  assert (holds_snapshot d (generation th) entries) as Hd.
  { inversion D4 as [E Eg | g l aux old E Hb Hok Eg]; subst; [lia |]. eapply newest_snapshot; [| by apply map_Forall_empty | exact Hok].
    unfold d, prune_below. cbn [snapshots]. rewrite E. by apply filter_above. }
  exists V, qms, cur, ∅, (generation th), entries. split; cbn [with_thread running inflight thr dropped queue dir prune]; fold d; try done.
  - split; cbn [dir generation synced prune]; fold d; try done. by rewrite Et.
  - by rewrite Et.
  - unfold disk_view. by rewrite Et.
Qed.

End Thread.

(** ** Crashes *)

Lemma frames_take_mono (ms : list Mutation) a b : (a <= b)%nat -> blen (frames (map record_of (take a ms))) <= blen (frames (map record_of (take b ms))).
Proof.
  intros Hab. replace (take b ms) with (take a ms ++ take (b - a) (drop a ms)) by (rewrite take_take_drop; f_equal; lia).
  rewrite map_app, frames_app, blen_app. pose proof (blen_nonneg (frames (map record_of (take (b - a) (drop a ms))))). lia.
Qed.

(** A crash keeps a prefix of the records of the last segment, and every flushed one. *)
Lemma cut_tail N t cur older gen entries keep : disk_inv N t cur older gen entries ->
  exists k, wals (cut keep t) = <[generation t := take (Z.to_nat (Z.max (synced t) keep)) (frames (map record_of cur))]> older
    /\ tail_of gen (cut keep t) = tail_of gen (mk_dir older (snapshots (dir t))) ++ take k cur
    /\ synced t <= blen (frames (map record_of (take k cur))) /\ (segment_len t <= keep -> take k cur = cur).
Proof.
  intros [D1 D2 D3 D4 D5 D6 D7 D8 [j Hj]]. set (n := Z.to_nat (Z.max (synced t) keep)).
  assert (Forall f_ok (map record_of cur)) as Hok by (apply Forall_map; eapply Forall_impl; [exact D7 |]; by intros m [[? _] _]).
  destruct (read_all_prefix (map record_of cur) n Hok) as (k & Hr & _ & Hhi). exists k.
  assert (wals (cut keep t) = <[generation t := take n (frames (map record_of cur))]> older) as Ew.
  { unfold cut. cbn [wals]. rewrite D1. apply map_eq. intros i. destruct (decide (i = generation t)) as [-> | Hne]; [by rewrite lookup_alter_eq, !lookup_insert_eq | by rewrite lookup_alter_ne, !lookup_insert_ne]. }
  rewrite length_map, firstn_map in Hhi.
  assert (segment_len t = blen (frames (map record_of cur))) as Hlen by (unfold segment_len; by rewrite D1, lookup_insert_eq).
  split_and!; [done | | |].
  - etrans; [exact (tail_last gen (wals (cut keep t)) (snapshots (dir t)) (generation t) _ older Ew D2 D5) |]. f_equal. unfold replayed, read_segment. cbn [default id].
    rewrite Hr, firstn_map. apply omap_parse. apply Forall_take. by eapply fits_ok.
  - rewrite Hj. destruct (Nat.lt_ge_cases k (length cur)) as [Hk | Hk].
    + specialize (Hhi Hk). apply frames_take_mono. destruct (Nat.le_gt_cases j k) as [| Hkj]; [done |].
      pose proof (frames_take_mono cur (S k) j ltac:(lia)). unfold blen in *. lia.
    + rewrite (take_ge cur k) by done. pose proof (frames_take_mono cur j (Nat.max j (length cur)) ltac:(lia)) as H. by rewrite (take_ge cur (Nat.max _ _)) in H by lia.
  - intros Hkeep. destruct (Nat.lt_ge_cases k (length cur)) as [Hk |]; [| by apply take_ge]. specialize (Hhi Hk).
    pose proof (frames_take_mono cur (S k) (length cur) ltac:(lia)) as H. rewrite (take_ge cur (length cur)) in H by done. unfold blen in *. lia.
Qed.

Lemma few_entries d gen entries : holds_snapshot d gen entries -> blen entries < 2 ^ 28.
Proof.
  intros H. inversion H as [| g l aux old _ _ [_ Hm _]]; subst; [done |]. unfold entries_body in Hm. rewrite blen_app, blen_to_le in Hm.
  assert (20 * blen entries <= blen (concat (map entry_bytes entries))) as Hle; [| lia]. clear.
  induction entries as [| [[[m k] v] st] l IH]; [done |]. cbn [map concat]. rewrite blen_app, blen_cons, blen_entry.
  pose proof (blen_nonneg m). pose proof (blen_nonneg k). pose proof (blen_nonneg v). lia.
Qed.

Lemma fresh_store t c : (0 < nshards)%nat -> 2 ^ 56 <= c ->
  exists s, with_shards_seed nshards member = Ok s /\ shows extract schemas 0 t c ∅ s /\ length (shards s) = nshards /\ s_member_id s = member /\ wal_sink s = None.
Proof.
  intros Hn Hc. destruct (store0_ok extract schemas nshards member [] t Hn) as (s & Es & Hs & Em & Eq). unfold store0, with_shards_seed in *.
  destruct (1 <=? nshards)%nat; [| done]. cbn [mbind outcome_bind foldl] in Es. injection Es as <-. eexists. split_and!; [done | | cbn [shards]; apply length_replicate | done | done].
  exists ∅. split_and!; try done. unfold stamp_ok. cbn [s_stamp_seq]. change (clock_of 0) with 0. lia.
Qed.

Lemma view_fits_recs c ms V : Forall (rec_fits c) ms -> view_fits c V -> view_fits c (apply_recs ms V).
Proof. intros H. revert V. induction H as [| m ms Hm _ IH]; intros V HV; [done |]. cbn [apply_recs foldl]. apply IH. by apply view_fits_rec. Qed.

(** Recovery from a directory of the run. *)
Lemma recover_disk N d gen entries ck : 0 <= N < 2 ^ 26 -> (0 < nshards)%nat -> wall_fits ck -> holds_snapshot d gen entries ->
  Forall (rec_fits (lim N)) (map as_put entries) -> Forall (rec_fits (lim N)) (tail_of gen d) -> blen (tail_of gen d) <= N ->
  exists s0 s, with_shards_seed nshards member = Ok s0 /\ recover extract schemas ck d s0 = Ok (Some s)
    /\ shows extract schemas (2 ^ 30) (now_ms ck) (lim (N + 1)) (disk_view d gen entries) s
    /\ length (shards s) = nshards /\ s_member_id s = member /\ wal_sink s = None.
Proof using iter_elements text_match.
  intros HN Hn Hw Hd He Ht Hc. pose proof (lim_bounds N HN) as Hlim. pose proof (few_entries d gen entries Hd). pose proof (blen_nonneg entries). pose proof (blen_nonneg (tail_of gen d)).
  destruct (fresh_store (now_ms ck) (lim N) Hn ltac:(lia)) as (s0 & E0 & Hs0 & L0 & M0 & W0).
  assert (2 * (blen entries + blen (tail_of gen d)) <= 2 ^ 31 /\ lim N + (blen entries + blen (tail_of gen d)) < 2 ^ 57 - 1) as [B1 B2] by lia.
  pose proof (recover_shows extract schemas text_match iter iter_elements d gen entries (now_ms ck) (lim N) s0 ck Hd Hs0 (Z.le_refl _) Hw (proj1 Hlim) B1 B2 He Ht) as Hr.
  apply post_Ok in Hr as (r & Er & s & -> & (L1 & M1 & W1) & Hs). exists s0, s. split_and!; try done; [| congruence | congruence | auto].
  eapply shows_mono; [| | | exact Hs]; [lia | done | unfold lim; lia].
Qed.

Lemma start_good N d g0 gen entries ck : 0 <= N < 2 ^ 26 -> (0 < nshards)%nat -> wall_fits ck -> holds_snapshot d gen entries ->
  Forall (rec_fits (lim N)) (map as_put entries) -> Forall (rec_fits (lim N)) (tail_of gen d) -> blen (tail_of gen d) <= N ->
  latest_generation d = g0 -> 0 <= g0 <= N + 1 -> gen <= g0 -> below (g0 + 1) (wals d) ->
  post (start ck d) (good (N + 1) (now_ms ck)).
Proof using iter_elements text_match.
  intros HN Hn Hw Hd He Ht Hc Hl Hg Hgen Hb. destruct (recover_disk N d gen entries ck) as (s0 & s & E0 & Er & Hs & L1 & M1 & W1); try done.
  unfold start. rewrite E0. cbn [mbind outcome_bind]. rewrite Er. cbn [mbind outcome_bind post]. unfold spawn_persistence. rewrite Hl, wrap_u64_small by (unfold is_u64; lia).
  set (d' := open_segment (g0 + 1) d).
  assert (wals d' = <[g0 + 1 := frames (map record_of [])]> (wals d)) as Ew.
  { unfold d', open_segment. cbn [wals]. f_equal. destruct (wals d !! (g0 + 1)) as [x |] eqn:E; [| done]. apply Hb in E. lia. }
  assert (tail_of gen d' = tail_of gen d) as Et.
  { etrans; [apply (tail_last gen (wals d') (snapshots d) (g0 + 1) (frames (map record_of [])) (wals d)); [done | done | lia] |].
    rewrite replayed_frames, app_nil_r by done. by destruct d. }
  exists (disk_view d gen entries), [], [], (wals d), gen, entries. split; cbn [running inflight thr dropped queue dir]; try done.
  - split; cbn [set_wal_sink wal_sink shards s_member_id]; try done; [| by rewrite W1 |].
    + eapply shows_mono; [| | | eapply shows_rest; [| | | exact Hs]; done]; lia.
    + apply view_fits_recs; [apply Forall_app_2; (eapply fits_mono; [| eassumption]; lia) | by intros ? ? ?%lookup_empty_Some].
  - split; cbn [dir generation synced]; try done; [lia | by apply (holds_snapshot_same d) | lia | eapply fits_mono; [| exact He]; lia | rewrite Et; eapply fits_mono; [| exact Ht]; lia | by exists 0%nat].
  - rewrite Et. cbn [app]. change (blen []) with 0. lia.
  - intros k _ _. unfold disk_view. by rewrite Et.
Qed.

Lemma snapshots_last d gen entries : holds_snapshot d gen entries -> last_number (snapshots d) = gen.
Proof. intros H. inversion H as [E | g l aux old E Hb _]; subst; rewrite E; [done | by apply last_number_insert]. Qed.

Lemma crash_step N t sys V qms cur older gen entries ck keep : 0 <= N < 2 ^ 26 -> (0 < nshards)%nat -> wall_fits ck ->
  sys_inv N t sys V qms cur older gen entries -> post (start ck (cut keep (thr sys))) (good (N + 1) (now_ms ck)).
Proof using iter_elements text_match.
  intros HN Hn Hw Hinv. pose proof (disk_tail N t sys V qms cur older gen entries Hinv) as Htail. pose proof (sy_disk _ _ _ _ _ _ _ _ _ Hinv) as HD.
  destruct (cut_tail N (thr sys) cur older gen entries keep HD) as (k & Ew & Et & _ & _). pose proof (sy_count _ _ _ _ _ _ _ _ _ Hinv) as Hc. destruct HD as [D1 D2 D3 D4 D5 D6 D7 D8 D9].
  pose proof (blen_nonneg (qms ++ inflight sys)). rewrite Htail in Hc, D8. apply Forall_app in D8 as [D8 _]. rewrite blen_app in Hc.
  assert (holds_snapshot (cut keep (thr sys)) gen entries) as Hd by (by apply (holds_snapshot_same (dir (thr sys)))).
  apply (start_good N _ (generation (thr sys)) gen entries); try done; rewrite ?Et; try lia.
  - apply Forall_app_2; [done | by apply Forall_take].
  - rewrite blen_app. assert (blen (take k cur) <= blen cur) by (unfold blen; rewrite length_take; lia). lia.
  - unfold latest_generation. rewrite Ew, last_number_insert, (snapshots_last _ _ _ Hd) by done. lia.
  - rewrite Ew. apply below_insert; [lia | done].
Qed.

(** ** Every step *)

Lemma good_mono N N' t sys : N <= N' -> good N t sys -> good N' t sys.
Proof. intros Hle (V & qms & cur & older & gen & entries & H). exists V, qms, cur, older, gen, entries. by eapply sys_inv_mono. Qed.

Lemma good_later N t t' sys : t <= t' -> good N t sys -> good N t' sys.
Proof.
  intros Hle (V & qms & cur & older & gen & entries & [[S1 S2 S3 S4 S5] H2 H3 H4 H5 H6 H7]). exists V, qms, cur, older, gen, entries. split; try done. split; try done.
  by eapply shows_mono; [| | | exact S1].
Qed.

(** A step that changes only where the thread is. *)
Lemma skip_step N t sys p V qms cur older gen entries : sys_inv N t sys V qms cur older gen entries ->
  pc_inv N (set_pc p (thr sys)) cur gen (dropped sys) (qms ++ inflight sys) V -> good (N + 1) t (with_thread sys (set_pc p (thr sys))).
Proof.
  intros [H1 [D1 D2 D3 D4 D5 D6 D7 D8 D9] H3 H4 H5 H6 H7] Hp. apply (good_mono N); [lia |]. exists V, qms, cur, older, gen, entries. by split.
Qed.

Lemma step_good N t sys a : 0 <= N < 2 ^ 26 -> (0 < nshards)%nat -> good N t sys -> act_ok t sys a -> post (step sys a) (good (N + 1) (time_after t a)).
Proof using iter_elements.
  intros HN Hn Hg Hok. assert (post (Ok sys) (good (N + 1) t)) as Hsame by (by apply (good_mono N); [lia |]).
  destruct Hg as (V & qms & cur & older & gen & entries & Hinv). pose proof (sy_pc _ _ _ _ _ _ _ _ _ Hinv) as Hp. unfold pc_inv in Hp.
  destruct a as [ev | a r | | | | | c | ok | ok | ok | c keep]; cbn [step time_after]; [| | | .. | by eapply crash_step]; [destruct (inflight sys) eqn:Hfl; [by eapply serve_step | destruct Hok as (_ & _ & _ & Ht & _); by apply (good_later _ t)] | destruct (inflight sys) eqn:Hfl; [by eapply structure_step | exact Hsame] | destruct (inflight sys) as [| m fl] eqn:Hfl; [exact Hsame | by eapply emit_step] | ..];
    destruct (at_pc (thr sys)) as [| old acc i | old |] eqn:Hpc; try exact Hsame; cbn [post].
  - by eapply drain_step.
  - by eapply fsync_step.
  - by eapply roll_step.
  - eapply post_bind; [by eapply snap_step |]. intros t' Ht'. exact Ht'.
  - destruct (Nat.eqb_spec i (length (shards (running sys)))) as [Hi |]; [| exact Hsame]. destruct Hok as (-> & Hax & Hac). rewrite Hpc in Hac.
    eapply install_step; try done. by rewrite Hi, (si_shards _ _ _ _ (sy_store _ _ _ _ _ _ _ _ _ Hinv)).
  - destruct ok; [by eapply remove_step |]. eapply skip_step; [exact Hinv |]. unfold pc_inv. cbn. by destruct Hp.
  - destruct ok; [by eapply prune_step |]. by eapply skip_step; [exact Hinv |].
Qed.

Definition end_time (t : Z) (acts : list action) : Z := foldl time_after t acts.

Lemma run_good N t sys acts : 0 <= N -> N + blen acts < 2 ^ 26 -> (0 < nshards)%nat -> good N t sys -> run_ok t sys acts ->
  post (run sys acts) (good (N + blen acts) (end_time t acts)).
Proof using iter_elements.
  intros HN HN' Hn. revert N t sys HN HN'. induction acts as [| a acts IH]; intros N t sys HN HN' Hg; cbn [run run_ok end_time foldl].
  { intros _. cbn [post]. change (blen []) with 0. by rewrite Z.add_0_r. }
  intros [Ha Hr]. rewrite blen_cons in *. pose proof (blen_nonneg acts). pose proof (step_good N t sys a ltac:(lia) Hn Hg Ha) as Hs.
  destruct (step sys a) as [sys1 |]; [| done]. cbn [mbind outcome_bind post] in *. replace (N + (1 + blen acts)) with (N + 1 + blen acts) by lia.
  apply IH; (done || lia).
Qed.

Lemma system0_good c : (0 < nshards)%nat -> wall_fits c -> post (system0 c) (good 1 (now_ms c)).
Proof using iter_elements text_match.
  intros Hn Hw. apply (start_good 0 _ 0 0 []); try done; try lia. by apply no_snapshot.
Qed.

(** What a client reads. *)
Lemma shows_get n t c V s ck m k : shows extract schemas n t c V s -> 0 <= n -> n + 2 <= 2 ^ 31 -> t <= now_ms ck ->
  exists s', get extract schemas ck m k s = Ok (s', fst <$> V !! (m, k)).
Proof using iter_elements text_match.
  intros (A & Hs & Hi & <- & _) Hn0 Hn Ht. pose proof (get_call extract schemas text_match iter iter_elements ∅ n t A s ck Hs Hn0 Hn Ht m k) as H.
  unfold serve_store in H. cbn [se_call se_clocks] in H. destruct (get extract schemas ck m k s) as [[s' r] |]; [| done]. cbn [mbind outcome_bind post] in H.
  destruct H as (A' & (_ & _ & [= ->]) & _). exists s'. do 2 f_equal. unfold TableQuery.live, view_of. rewrite lookup_fmap. cbn [as_event ev_now].
  destruct (A !! (m, k)) as [c0 |] eqn:Hc; [| done]. cbn [mbind option_bind]. by rewrite (not_expired A m k c0 _ Hi Hc).
Qed.

(** What the recovered store holds under a key that no lost record is about. *)
Lemma cut_view N t sys V qms cur older gen entries keep k j :
  sys_inv N t sys V qms cur older gen entries ->
  tail_of gen (cut keep (thr sys)) = tail_of gen (mk_dir older (snapshots (dir (thr sys)))) ++ take j cur ->
  untouched k (drop j cur ++ (qms ++ inflight sys) ++ dropped sys) -> disk_view (cut keep (thr sys)) gen entries !! k = V !! k.
Proof.
  intros Hinv Et [Hu1 [Hu2 Hu3]%Forall_app]%Forall_app. rewrite <- (sy_view _ _ _ _ _ _ _ _ _ Hinv k Logic.I Hu3), (recs_at_untouched k (qms ++ inflight sys)) by done.
  unfold disk_view. rewrite Et, (disk_tail N t sys V qms cur older gen entries Hinv). rewrite <- (take_drop j cur) at 2. rewrite !app_assoc, (apply_recs_app _ (drop j cur)), (apply_recs_at (drop j cur)).
  by rewrite recs_at_untouched.
Qed.

(** A crash at the time [t], whatever the disk keeps beyond what was flushed, is recovered from: the records
    [lost] with the end of the last segment were not flushed, and every key that is in none of them, nor in
    the ring or on its way there, nor in a dropped record, reads as before. *)
Definition recovers (t : Z) (sys : system) : Prop :=
  exists queued, queue (thr sys) = map encode_mutation queued
  /\ forall ck keep, wall_fits ck -> exists fresh s flushed lost, with_shards_seed nshards member = Ok fresh
    /\ recover extract schemas ck (cut keep (thr sys)) fresh = Ok (Some s)
    /\ wals (dir (thr sys)) !! generation (thr sys) = Some (flushed ++ concat (map encode_mutation lost)) /\ synced (thr sys) <= blen flushed
    /\ (segment_len (thr sys) <= keep -> lost = [])
    /\ forall m k c', now_ms ck <= now_ms c' -> t <= now_ms c' -> untouched (m, k) (lost ++ (queued ++ inflight sys) ++ dropped sys) ->
         exists v s1 s2, get extract schemas c' m k s = Ok (s1, v) /\ get extract schemas c' m k (running sys) = Ok (s2, v).

Lemma good_recovers N t sys : 0 <= N < 2 ^ 26 -> (0 < nshards)%nat -> good N t sys -> recovers t sys.
Proof using iter_elements text_match.
  intros HN Hn (V & qms & cur & older & gen & entries & Hinv). exists qms. split; [apply Hinv |]. intros ck keep Hw.
  pose proof (sy_disk _ _ _ _ _ _ _ _ _ Hinv) as HD. destruct (cut_tail N (thr sys) cur older gen entries keep HD) as (j & Ew & Et & Hsy & Hall).
  pose proof (sy_count _ _ _ _ _ _ _ _ _ Hinv) as Hc. rewrite (disk_tail N t sys V qms cur older gen entries Hinv), blen_app in Hc.
  destruct HD as [D1 D2 D3 D4 D5 D6 D7 D8 D9]. rewrite (disk_tail N t sys V qms cur older gen entries Hinv) in D8. apply Forall_app in D8 as [D8 _].
  destruct (recover_disk N (cut keep (thr sys)) gen entries ck) as (s0 & s & E0 & Er & Hs & _); try done.
  { by apply (holds_snapshot_same (dir (thr sys))). }
  { rewrite Et. apply Forall_app_2; [done | by apply Forall_take]. }
  { rewrite Et, blen_app. pose proof (blen_nonneg (qms ++ inflight sys)). assert (blen (take j cur) <= blen cur) by (unfold blen; rewrite length_take; lia). lia. }
  exists s0, s, (frames (map record_of (take j cur))), (drop j cur). split_and!; try done.
  - rewrite D1, lookup_insert_eq. f_equal. rewrite <- (take_drop j cur) at 1. rewrite map_app, frames_app. f_equal. unfold frames. rewrite List.map_map. f_equal.
    apply map_ext. intros m. by rewrite encode_record_of.
  - intros Hk. specialize (Hall Hk). apply (app_inv_head cur). rewrite <- Hall at 1. by rewrite take_drop, app_nil_r.
  - intros m k c' Hc1 Hc2 Hu. destruct (shows_get _ _ _ _ _ c' m k Hs ltac:(lia) ltac:(lia) Hc1) as [s1 E1].
    destruct (shows_get _ _ _ _ _ c' m k (si_shows _ _ _ _ (sy_store _ _ _ _ _ _ _ _ _ Hinv)) ltac:(lia) ltac:(lia) Hc2) as [s2 E2].
    exists (fst <$> V !! (m, k)), s1, s2. split; [| done]. by rewrite <- (cut_view N t sys V qms cur older gen entries keep (m, k) j Hinv Et Hu).
Qed.

End System.


(** ** Two starts, a snapshot and a crash *)

#[local] Existing Instance ieee_crc32.
#[local] Existing Instance by_keys.
#[local] Existing Instance no_ext.

Definition ex_acts : list action :=
  let ck t := mk_clocks t (fun n => Z.of_nat n) (1000 + t) in
  let serve t o := Serve (mk_sevent (ck t) o) in
  let p := bstr "people" in
  [ serve 10 (SPut p (bstr "ann") (bstr "1")); Emit; serve 11 (SPut p (bstr "bob") (bstr "2")); Emit; Drain; Drain; Roll; SnapShard (ck 12);
    serve 13 (SRemove p (bstr "ann")); SnapShard (ck 14); Install true; Emit; RemoveOld true; PruneOld true; Drain; Fsync;
    Crash (ck 0) 0; serve 5 (SPutMerge p (bstr "eve") (bstr "3") 0 7 true); Emit; serve 6 (SGet p (bstr "bob")); Drain; serve 7 (SPut p (bstr "dan") (bstr "4")); Emit ].

Definition ex_clock : clocks := mk_clocks 0 (fun n => Z.of_nat n) 1000.


(** * What recovery does not give back

    Runs in which every record reached the disk and was flushed, and in which the recovered store still
    answers differently. *)

#[local] Existing Instance ieee_crc32.
#[local] Existing Instance by_keys.
#[local] Existing Instance no_ext.

Definition ck (t : Z) : clocks := mk_clocks t (fun n => Z.of_nat n) (1000 + t).
Definition serves (t : Z) (o : scall) : list action := [Serve (mk_sevent (ck t) o); Emit].

(** A run of a store with two shards from an empty directory, and the reply to a [get] after it. *)
Definition after (acts : list action) : outcome system :=
  sys ← system0 field_of people 2 7 ex_clock; run field_of people no_text ex_iter 2 7 1048576 20 sys acts.

Definition reads (t : Z) (m k : bytes) (acts : list action) : outcome (option bytes) :=
  sys ← after acts; '(_, v) ← get field_of people (ck t) m k (running sys); Ok v.

(** Nothing is in the ring or on its way there, nothing was dropped and all of the segment is flushed. *)
Definition all_flushed (acts : list action) : outcome bool :=
  sys ← after acts;
  Ok (bool_decide (inflight sys = []) && bool_decide (queue (thr sys) = []) && bool_decide (dropped sys = []) && (synced (thr sys) =? segment_len (thr sys))).

Definition crash : action := Crash (ck 0) 0.

Definition people_map : bytes := bstr "people".
Definition ann : bytes := bstr "ann".
Definition one : bytes := bstr "1".
Definition two : bytes := bstr "2".

(** The snapshot could not be written, and the segment it was to replace is removed all the same. *)
Definition failed_snapshot : list action :=
  serves 10 (SPut people_map ann one) ++ [ Drain; Fsync; Roll; SnapShard (ck 11); SnapShard (ck 11); Install false; RemoveOld true; PruneOld true ].

(** A snapshot that cannot be written, on a full disk say, loses every entry: the thread ignores the
    error and removes the segment that the snapshot was to replace. *)
Theorem failed_snapshot_loses_maps :
  all_flushed failed_snapshot = Ok true /\ reads 20 people_map ann failed_snapshot = Ok (Some one)
  /\ reads 20 people_map ann (failed_snapshot ++ [crash]) = Ok None.
Proof. vm_compute. auto. Qed.

(** The updates that are not logged, or are logged as something else. *)
Definition replaced : list action := serves 10 (SPut people_map ann one) ++ serves 11 (SReplace people_map ann two) ++ [ Drain; Fsync ].
Definition inserted : list action := serves 10 (SPutIfAbsent people_map ann one 0) ++ [ Drain; Fsync ].
Definition cleared : list action := serves 10 (SPut people_map ann one) ++ serves 11 (SClear people_map) ++ [ Drain; Fsync ].
Definition kept : list action :=
  serves 10 (SPut people_map ann one) ++ serves 11 (SPutMerge people_map ann two 0 (2 ^ 50) false) ++ [ Drain; Drain; Fsync ].

(** [replace] and [put_if_absent] are forgotten by a restart, [clear] is undone by it, and a merge under
    the policy that keeps an existing entry replaces it then: the first three tell the log nothing, the
    last tells it a put that did not happen. *)
Theorem unlogged_updates_are_lost :
  Forall (fun acts => all_flushed acts = Ok true) [replaced; inserted; cleared; kept]
  /\ (reads 20 people_map ann replaced = Ok (Some two) /\ reads 20 people_map ann (replaced ++ [crash]) = Ok (Some one))
  /\ (reads 20 people_map ann inserted = Ok (Some one) /\ reads 20 people_map ann (inserted ++ [crash]) = Ok None)
  /\ (reads 20 people_map ann cleared = Ok None /\ reads 20 people_map ann (cleared ++ [crash]) = Ok (Some one))
  /\ (reads 20 people_map ann kept = Ok (Some one) /\ reads 20 people_map ann (kept ++ [crash]) = Ok (Some two)).
Proof. split; [repeat apply Forall_cons_2; try apply Forall_nil_2; vm_compute; reflexivity |]. vm_compute. auto 10. Qed.

(** An entry with 50 ms to live, in the log and in a snapshot. *)
Definition mortal : list action := serves 10 (SPutTtl people_map ann one 50) ++ [ Drain; Fsync ].
Definition mortal_snapshot : list action :=
  mortal ++ [ Roll; SnapShard (ck 11); SnapShard (ck 11); Install true; RemoveOld true; PruneOld true ].

(** A snapshot has no expiry: an entry that was to live for 50 ms never expires after a restart from one.
    From the log alone it gets its full time again. *)
Theorem expiry_is_lost :
  all_flushed mortal_snapshot = Ok true /\ all_flushed mortal = Ok true
  /\ reads 61 people_map ann mortal_snapshot = Ok None /\ reads (2 ^ 40) people_map ann (mortal_snapshot ++ [crash]) = Ok (Some one)
  /\ reads 49 people_map ann (mortal ++ serves 61 (SGet people_map ann) ++ [crash]) = Ok (Some one).
Proof. vm_compute. auto 10. Qed.
