(* ===== verification/StoreMerge.v ===== *)
(** * Replicas converge

    Members and clusters send each other stamped updates, which arrive in different orders, some of them
    more than once.  Stores that merged the same puts hold the same maps; removes are applied without
    looking at their stamp, and keep no such promise. *)

From S2P Require Import Prelude Framed Fixed Slab FieldValue QueryIndex Schema Table TableFacts TableIndex TableSpec TableQuery TableRun Hlc WalRecord AuxStore Store StoreRun Extract StoreLog Recovery RecoveryFacts RecoveryRun.

(** ** Puts in any order *)

(** The last writer under a key: the record with the highest stamp. *)
Definition winner (k : bytes * bytes) (rs : list PutFields) (x : option (bytes * Z)) : Prop :=
  match x with
  | Some (v, st) => (exists r, r ∈ rs /\ (p_map r, p_key r) = k /\ p_value r = v /\ p_stamp r = st)
                    /\ forall r, r ∈ rs -> (p_map r, p_key r) = k -> p_stamp r <= st
  | None => forall r, r ∈ rs -> (p_map r, p_key r) <> k
  end.

Lemma winner_found k rs : winner k rs (foldl (rec_at k) None (map Put rs)).
Proof.
  induction rs as [| r rs IH] using rev_ind; [by intros r ?%elem_of_nil |].
  rewrite map_app, foldl_app. cbn [map foldl rec_at]. destruct (foldl (rec_at k) None (map Put rs)) as [[v st] |]; cbn [winner] in *.
  - destruct IH as [(r0 & Hr0 & Hk0 & Hv0 & Hs0) Hmax]. case_decide as Hk; [destruct (Z.ltb_spec st (p_stamp r)) |]; cbn [winner].
    + split; [exists r; split_and!; try done; apply elem_of_app; right; by apply list_elem_of_singleton |].
      intros r' [Hr' | ->%list_elem_of_singleton]%elem_of_app Hk'; [specialize (Hmax r' Hr' Hk') |]; lia.
    + split; [exists r0; split_and!; try done; apply elem_of_app; by left |].
      intros r' [Hr' | ->%list_elem_of_singleton]%elem_of_app Hk'; [by apply Hmax | done].
    + split; [exists r0; split_and!; try done; apply elem_of_app; by left |].
      intros r' [Hr' | ->%list_elem_of_singleton]%elem_of_app Hk'; [by apply Hmax | done].
  - case_decide as Hk; cbn [winner].
    + split; [exists r; split_and!; try done; apply elem_of_app; right; by apply list_elem_of_singleton |].
      intros r' [Hr' | ->%list_elem_of_singleton]%elem_of_app Hk'; [by destruct (IH r' Hr') | done].
    + intros r' [Hr' | ->%list_elem_of_singleton]%elem_of_app; [by apply IH | done].
Qed.

(** A stamp belongs to one update of a key. *)
Definition stamps_unique (rs : list PutFields) : Prop :=
  forall r r', r ∈ rs -> r' ∈ rs -> (p_map r, p_key r) = (p_map r', p_key r') -> p_stamp r = p_stamp r' -> p_value r = p_value r'.

Lemma winner_unique k rs rs' x x' : stamps_unique rs -> (forall r, r ∈ rs <-> r ∈ rs') -> winner k rs x -> winner k rs' x' -> x = x'.
Proof.
  intros Hu Heq. destruct x as [[v st] |], x' as [[v' st'] |]; cbn [winner]; [| | | done].
  - intros [(r & Hr & Hk & <- & <-) Hmax] [(r' & Hr' & Hk' & <- & <-) Hmax']. apply Heq in Hr as Hr2, Hr' as Hr2'.
    specialize (Hmax r' Hr2' Hk'). specialize (Hmax' r Hr2 Hk). assert (p_stamp r = p_stamp r') as E by lia. do 2 f_equal; [| done]. apply Hu; congruence.
  - intros [(r & Hr%Heq & Hk & _) _] H. by destruct (H r Hr).
  - intros H [(r & Hr%Heq & Hk & _) _]. by destruct (H r Hr).
Qed.

Lemma same_puts rs rs' : stamps_unique rs -> (forall r, r ∈ rs <-> r ∈ rs') -> apply_recs (map Put rs) ∅ = apply_recs (map Put rs') ∅.
Proof.
  intros Hu Heq. apply map_eq. intros k. rewrite !apply_recs_at, lookup_empty. by apply (winner_unique k rs rs'); [| | apply winner_found | apply winner_found].
Qed.

(** ** Stores that merge them *)

Section Merge.
Context {Schemas : Type} (extract : bytes -> Schemas -> bytes -> FieldValue) (schemas : Schemas).
Context {X : MapStore} {C : Crc32}.

(** An update that arrives, and the clocks read then. *)
Fixpoint merge_all (l : list (clocks * PutFields)) (s : Store) : outcome Store :=
  match l with
  | [] => Ok s
  | (c, r) :: l => s ← put_merge extract schemas c (p_map r) (p_key r) (p_value r) (p_ttl_ms r) (p_stamp r) true s; merge_all l s
  end.

Fixpoint in_time_order (t : Z) (l : list (clocks * PutFields)) : Prop :=
  match l with [] => True | (c, _) :: l => t <= now_ms c /\ 0 <= wall_ms c < 2 ^ 40 /\ in_time_order (now_ms c) l end.

Definition merge_ok (r : PutFields) : Prop := p_ttl_ms r = 0 /\ stamp_ok (2 ^ 56) (p_stamp r) /\ blen (p_key r) + blen (p_value r) < 2 ^ 32.

Definition last_time (t : Z) (l : list (clocks * PutFields)) : Z := foldl (fun _ p => now_ms p.1) t l.

End Merge.

Section Converge.
Context {Schemas : Type} (extract : bytes -> Schemas -> bytes -> FieldValue) (schemas : Schemas).
Context (text_match : TextKind -> bytes -> bytes -> bool) (iter : gset bytes -> list bytes).
Hypothesis iter_elements : forall X, iter X ≡ₚ elements X.
Context {X : MapStore}.

Lemma merge_all_shows n t c V s l :
  shows extract schemas n t c V s -> 0 <= n -> n + 2 * blen l <= 2 ^ 31 -> 2 ^ 56 <= c -> c + blen l < 2 ^ 57 - 1 ->
  in_time_order t l -> Forall (fun p => merge_ok p.2) l ->
  post (merge_all extract schemas l s) (shows extract schemas (n + 2 * blen l) (last_time t l) (c + blen l) (apply_recs (map (fun p => Put p.2) l) V)).
Proof using iter_elements text_match.
  revert n t c V s. induction l as [| [ck r] l IH]; intros n t c V s Hs Hn0 Hn Hc0 Hc; cbn [merge_all in_time_order last_time foldl].
  { intros _ _. cbn [post map apply_recs foldl]. change (blen []) with 0. by rewrite Z.mul_0_r, !Z.add_0_r. }
  intros (Ht & Hw & Hl) [(E & Hst & Hsz) Hok]%Forall_cons. rewrite blen_cons in *. pose proof (blen_nonneg l). cbn [fst snd] in *. rewrite E.
  assert (stamps_fit c (mk_sevent ck (SPutMerge (p_map r) (p_key r) (p_value r) 0 (p_stamp r) true))) as Hfit by (split; [done |]; cbn; unfold stamp_ok in *; lia).
  pose proof (logged_call extract schemas text_match iter iter_elements n t c V s (mk_sevent ck (SPutMerge (p_map r) (p_key r) (p_value r) 0 (p_stamp r) true))
    Hs Hn0 ltac:(lia) ltac:(lia) Ht eq_refl Hsz Hfit) as Hcall.
  unfold serve_store in Hcall. cbn [se_call se_clocks told] in Hcall. destruct (put_merge _ _ _ _ _ _ _ _ _ s) as [s1 |]; [| done].
  cbn [mbind outcome_bind post] in *. destruct Hcall as [H1 _].
  assert (mk_put (p_stamp r) 0 (p_map r) (p_key r) (p_value r) = r) as Er by (destruct r; cbn in *; by subst). rewrite Er in H1.
  replace (n + 2 * (1 + blen l)) with (n + 2 + 2 * blen l) by lia. replace (c + (1 + blen l)) with (c + 1 + blen l) by lia.
  apply (IH (n + 2) (now_ms ck) (c + 1) (apply_rec V (Put r)) s1); (done || lia).
Qed.

End Converge.


(** ** Three updates in two orders *)

Definition upd (m k v : string) (st : Z) : PutFields := mk_put st 0 (bstr m) (bstr k) (bstr v).
Definition at_times (rs : list PutFields) : list (clocks * PutFields) := imap (fun i r => (ck (Z.of_nat i), r)) rs.

Definition updates : list PutFields := [upd "m" "k" "a" 1290; upd "m" "k" "b" 1417; upd "m" "j" "c" 1291].
Definition updates' : list PutFields := [upd "m" "j" "c" 1291; upd "m" "k" "b" 1417; upd "m" "k" "b" 1417; upd "m" "k" "a" 1290].


(** ** Removes *)

(** The clusters of the two sides of a WAN link: each serves one client's call and applies the other's record. *)
Definition cluster (l : list sevent) : outcome (option bytes) :=
  let _ := no_ext in
  s ← with_shards_seed 1 3; '(s, _) ← serve_stores field_of people no_text ex_iter l s; '(_, v) ← get field_of people (ck 100) people_map ann s; Ok v.

(** A remove at the stamp 1290 on one side, a later put at 1417 on the other. *)
Definition removed_first : list sevent := [mk_sevent (ck 1) (SApplyWan false people_map ann [] 0 1290); mk_sevent (ck 2) (SApplyWan true people_map ann one 0 1417)].
Definition put_first : list sevent := [mk_sevent (ck 1) (SApplyWan true people_map ann one 0 1417); mk_sevent (ck 2) (SApplyWan false people_map ann [] 0 1290)].

(** Clusters that apply a remove and a newer put of the same key in different orders stay different: a
    remove deletes the entry even when the entry is newer. *)
Theorem late_remove_diverges : cluster removed_first = Ok (Some one) /\ cluster put_first = Ok None.
Proof. vm_compute. auto. Qed.
