(* ===== verification/MemberWire.v ===== *)
(** * The member wire protocol (crates/member/src/wire.rs)

    Frames [[u32 len][u8 kind][body]], big-endian.  [encode] builds a frame; [decode] reads the
    frame at the start of a buffer.  The round trip, the behaviour on a frame that is still
    arriving and on one that can never decode are proved here; Transport.v builds the byte streams
    between members on them. *)

From S2P Require Import Prelude Framed Partition.

(** A member identifier: [(i64, i64)]. *)
Definition uuid : Type := Z * Z.

Record MemberRec := mkRec {
  r_uuid : uuid;
  r_host : bytes;
  r_client_port : Z;
  r_member_port : Z;
  r_join_id : Z;
  r_alive : bool
}.

Inductive Msg :=
| Hello (index : Z)
| BackupPut (op_id : Z) (name key value : bytes) (ttl_ms : Z)
| BackupRemove (op_id : Z) (name key : bytes)
| Ack (op_id : Z)
| Heartbeat (from_join_id generation : Z)
| JoinRequest (id : uuid) (host : bytes) (client_port member_port : Z)
| MemberView (generation : Z) (members : list MemberRec)
| MigrateStart (generation partition : Z)
| MigrateChunk (generation partition : Z) (entries : list (bytes * bytes * bytes * Z))
| MigrateEnd (generation partition : Z)
| BackupState (op_id partition : Z) (payload : bytes)
| MigrateAux (generation partition : Z) (payload : bytes)
| BackupMm (op_id : Z) (name key : bytes) (values : list bytes)
| MigrateMm (generation partition : Z) (entries : list (bytes * bytes * list bytes))
| Cp (payload : bytes)
| SqlScatter (req_id : Z) (sql : bytes)
| SqlPartial (req_id : Z) (payload : bytes).

Definition KIND_HELLO : Z := 0.
Definition KIND_PUT : Z := 1.
Definition KIND_REMOVE : Z := 2.
Definition KIND_ACK : Z := 3.
Definition KIND_HEARTBEAT : Z := 4.
Definition KIND_JOIN : Z := 5.
Definition KIND_VIEW : Z := 6.
Definition KIND_MIG_START : Z := 7.
Definition KIND_MIG_CHUNK : Z := 8.
Definition KIND_MIG_END : Z := 9.
Definition KIND_BACKUP_STATE : Z := 10.
Definition KIND_MIG_AUX : Z := 11.
Definition KIND_BACKUP_MM : Z := 12.
Definition KIND_MIG_MM : Z := 13.
Definition KIND_CP : Z := 14.
Definition KIND_SQL_SCATTER : Z := 15.
Definition KIND_SQL_PARTIAL : Z := 16.

(** ** Encoding *)

Definition put_u32 (v : Z) : bytes := to_be 4 v.
Definition put_u64 (v : Z) : bytes := to_be 8 v.
Definition put_i64 (v : Z) : bytes := to_be 8 v.
Definition put_blob (b : bytes) : bytes := put_u32 (blen b) ++ b.
Definition put_values (values : list bytes) : bytes := put_u32 (blen values) ++ concat (map put_blob values).
Definition put_uuid (u : uuid) : bytes := put_i64 u.1 ++ put_i64 u.2.

Definition put_member (m : MemberRec) : bytes :=
  put_uuid (r_uuid m) ++ put_blob (r_host m) ++ put_u32 (r_client_port m) ++ put_u32 (r_member_port m)
    ++ put_u64 (r_join_id m) ++ [bool_u8 (r_alive m)].

(** One [(map, key, value, stamp)] of a [MigrateChunk] and one [(name, key, values)] of a
    [MigrateMm]. *)
Definition put_chunk_entry (e : bytes * bytes * bytes * Z) : bytes :=
  let '(map, key, val, stamp) := e in put_blob map ++ put_blob key ++ put_blob val ++ put_u64 stamp.
Definition put_mm_entry (e : bytes * bytes * list bytes) : bytes :=
  let '(name, key, values) := e in put_blob name ++ put_blob key ++ put_values values.

(** The kind byte and the body. *)
Definition encode_body (m : Msg) : bytes :=
  match m with
  | Hello index => b8 KIND_HELLO :: put_u32 index
  | BackupPut op_id name key value ttl_ms =>
    b8 KIND_PUT :: put_u64 op_id ++ put_blob name ++ put_blob key ++ put_blob value ++ put_u64 ttl_ms
  | BackupRemove op_id name key => b8 KIND_REMOVE :: put_u64 op_id ++ put_blob name ++ put_blob key
  | Ack op_id => b8 KIND_ACK :: put_u64 op_id
  | Heartbeat from_join_id generation => b8 KIND_HEARTBEAT :: put_u64 from_join_id ++ put_u64 generation
  | JoinRequest id host client_port member_port =>
    b8 KIND_JOIN :: put_uuid id ++ put_blob host ++ put_u32 client_port ++ put_u32 member_port
  | MemberView generation members =>
    b8 KIND_VIEW :: put_u64 generation ++ put_u32 (blen members) ++ concat (map put_member members)
  | MigrateStart generation partition => b8 KIND_MIG_START :: put_u64 generation ++ put_u32 partition
  | MigrateChunk generation partition entries =>
    b8 KIND_MIG_CHUNK :: put_u64 generation ++ put_u32 partition ++ put_u32 (blen entries)
      ++ concat (map put_chunk_entry entries)
  | MigrateEnd generation partition => b8 KIND_MIG_END :: put_u64 generation ++ put_u32 partition
  | BackupState op_id partition payload =>
    b8 KIND_BACKUP_STATE :: put_u64 op_id ++ put_u32 partition ++ put_blob payload
  | MigrateAux generation partition payload =>
    b8 KIND_MIG_AUX :: put_u64 generation ++ put_u32 partition ++ put_blob payload
  | BackupMm op_id name key values =>
    b8 KIND_BACKUP_MM :: put_u64 op_id ++ put_blob name ++ put_blob key ++ put_values values
  | MigrateMm generation partition entries =>
    b8 KIND_MIG_MM :: put_u64 generation ++ put_u32 partition ++ put_u32 (blen entries)
      ++ concat (map put_mm_entry entries)
  | Cp payload => b8 KIND_CP :: put_blob payload
  | SqlScatter req_id sql => b8 KIND_SQL_SCATTER :: put_u64 req_id ++ put_blob sql
  | SqlPartial req_id payload => b8 KIND_SQL_PARTIAL :: put_u64 req_id ++ put_blob payload
  end.

Definition encode (m : Msg) : bytes := put_blob (encode_body m).

(** ** Decoding: the [Reader] *)

Definition rd_u32 (b : bytes) : option (Z * bytes) := get_be_u 4 b.
Definition rd_u64 (b : bytes) : option (Z * bytes) := get_be_u 8 b.
Definition rd_i64 (b : bytes) : option (Z * bytes) := get_be_i 8 b.
(** [r.u32()? as i32] *)
Definition rd_i32 (b : bytes) : option (Z * bytes) := '(v, r) ← rd_u32 b; Some (wrap_i32 v, r).
Definition rd_blob (b : bytes) : option (bytes * bytes) := '(len, r) ← rd_u32 b; take_n len r.
Definition rd_string (b : bytes) : option (bytes * bytes) := '(s, r) ← rd_blob b; Some (from_utf8_lossy s, r).
Definition rd_uuid (b : bytes) : option (uuid * bytes) := '(hi, r) ← rd_i64 b; '(lo, r) ← rd_i64 r; Some ((hi, lo), r).

(** [let count = r.u32()?] and the loop. *)
Definition rd_list {A} (get : bytes -> option (A * bytes)) (b : bytes) : option (list A * bytes) :=
  '(count, r) ← rd_u32 b; rd_items get (length r) count r.

Definition rd_values (b : bytes) : option (list bytes * bytes) := rd_list rd_blob b.

Definition rd_member (b : bytes) : option (MemberRec * bytes) :=
  '(u, r) ← rd_uuid b;
  '(host, r) ← rd_string r;
  '(client_port, r) ← rd_i32 r;
  '(member_port, r) ← rd_i32 r;
  '(join_id, r) ← rd_u64 r;
  '(alive, r) ← get_byte r;
  Some (mkRec u host client_port member_port join_id (u8_bool alive), r).

Definition rd_chunk_entry (b : bytes) : option (bytes * bytes * bytes * Z * bytes) :=
  '(map, r) ← rd_string b;
  '(key, r) ← rd_blob r;
  '(val, r) ← rd_blob r;
  '(stamp, r) ← rd_u64 r;
  Some (map, key, val, stamp, r).

Definition rd_mm_entry (b : bytes) : option (bytes * bytes * list bytes * bytes) :=
  '(name, r) ← rd_string b;
  '(key, r) ← rd_blob r;
  '(values, r) ← rd_values r;
  Some (name, key, values, r).

(** The match on the kind byte; what is left of the body is ignored. *)
Definition decode_body (kind : byte) (r : bytes) : option Msg :=
  match u8 kind with
  | 0 => '(index, _) ← rd_u32 r; Some (Hello index)
  | 1 =>
    '(op_id, r) ← rd_u64 r; '(name, r) ← rd_string r; '(key, r) ← rd_blob r; '(value, r) ← rd_blob r;
    '(ttl_ms, _) ← rd_u64 r; Some (BackupPut op_id name key value ttl_ms)
  | 2 =>
    '(op_id, r) ← rd_u64 r; '(name, r) ← rd_string r; '(key, _) ← rd_blob r; Some (BackupRemove op_id name key)
  | 3 => '(op_id, _) ← rd_u64 r; Some (Ack op_id)
  | 4 => '(from_join_id, r) ← rd_u64 r; '(generation, _) ← rd_u64 r; Some (Heartbeat from_join_id generation)
  | 5 =>
    '(id, r) ← rd_uuid r; '(host, r) ← rd_string r; '(client_port, r) ← rd_i32 r; '(member_port, _) ← rd_i32 r;
    Some (JoinRequest id host client_port member_port)
  | 6 => '(generation, r) ← rd_u64 r; '(members, _) ← rd_list rd_member r; Some (MemberView generation members)
  | 7 => '(generation, r) ← rd_u64 r; '(partition, _) ← rd_i32 r; Some (MigrateStart generation partition)
  | 8 =>
    '(generation, r) ← rd_u64 r; '(partition, r) ← rd_i32 r; '(entries, _) ← rd_list rd_chunk_entry r;
    Some (MigrateChunk generation partition entries)
  | 9 => '(generation, r) ← rd_u64 r; '(partition, _) ← rd_i32 r; Some (MigrateEnd generation partition)
  | 10 =>
    '(op_id, r) ← rd_u64 r; '(partition, r) ← rd_i32 r; '(payload, _) ← rd_blob r;
    Some (BackupState op_id partition payload)
  | 11 =>
    '(generation, r) ← rd_u64 r; '(partition, r) ← rd_i32 r; '(payload, _) ← rd_blob r;
    Some (MigrateAux generation partition payload)
  | 12 =>
    '(op_id, r) ← rd_u64 r; '(name, r) ← rd_string r; '(key, r) ← rd_blob r; '(values, _) ← rd_values r;
    Some (BackupMm op_id name key values)
  | 13 =>
    '(generation, r) ← rd_u64 r; '(partition, r) ← rd_i32 r; '(entries, _) ← rd_list rd_mm_entry r;
    Some (MigrateMm generation partition entries)
  | 14 => '(payload, _) ← rd_blob r; Some (Cp payload)
  | 15 => '(req_id, r) ← rd_u64 r; '(sql, _) ← rd_string r; Some (SqlScatter req_id sql)
  | 16 => '(req_id, r) ← rd_u64 r; '(payload, _) ← rd_blob r; Some (SqlPartial req_id payload)
  | _ => None
  end.

(** [decode(buf)]: the message at the start of [buf] and the bytes it takes. *)
Definition decode (buf : bytes) : option (Msg * Z) :=
  '(len, rest) ← rd_u32 buf;
  '(body, _) ← take_n len rest;
  match body with
  | [] => None
  | kind :: r => msg ← decode_body kind r; Some (msg, 4 + len)
  end.

(** ** Round trip *)

Lemma rd_u32_put v r : is_u32 v -> rd_u32 (put_u32 v ++ r) = Some (v, r).
Proof. apply (get_be_u_to_be 4). Qed.

Lemma rd_u64_put v r : is_u64 v -> rd_u64 (put_u64 v ++ r) = Some (v, r).
Proof. apply (get_be_u_to_be 8). Qed.

Lemma rd_i32_put v r : is_i32 v -> rd_i32 (put_u32 v ++ r) = Some (v, r).
Proof.
  intros H. unfold rd_i32, put_u32, rd_u32, get_be_u. rewrite take_n_app' by apply blen_to_be. cbn.
  assert (from_be_u (to_be 4 v) = v mod 2 ^ 32) as ->.
  { unfold from_be_u, to_be. rewrite rev_involutive. apply (le_combine_split 4 v). }
  unfold wrap_i32. rewrite wrap_s_mod by lia. by rewrite wrap_s_small.
Qed.

Definition blob_ok (b : bytes) : Prop := blen b < 2 ^ 32.
Definition text_ok (s : bytes) : Prop := utf8_valid s = true /\ blob_ok s.
Definition uuid_ok (u : uuid) : Prop := is_i64 u.1 /\ is_i64 u.2.

Lemma member_rd_blob_put x r : blob_ok x -> rd_blob (put_blob x ++ r) = Some (x, r).
Proof.
  intros H. unfold rd_blob, put_blob. rewrite <- app_assoc, rd_u32_put; [apply take_n_app |].
  pose proof (blen_nonneg x). done.
Qed.

Lemma member_rd_string_put x r : text_ok x -> rd_string (put_blob x ++ r) = Some (x, r).
Proof. intros [Hu Hx]. unfold rd_string. rewrite member_rd_blob_put by done. cbn. by rewrite from_utf8_lossy_valid. Qed.

Lemma rd_uuid_put u r : uuid_ok u -> rd_uuid (put_uuid u ++ r) = Some (u, r).
Proof.
  destruct u as [hi lo]. intros [H1 H2]. unfold rd_uuid, put_uuid, rd_i64, put_i64. cbn [fst snd] in *.
  rewrite <- app_assoc, (get_be_i_to_be 8) by (done || lia). cbn.
  rewrite (get_be_i_to_be 8) by (done || lia). done.
Qed.

Definition list_ok {A} (xs : list A) : Prop := blen xs < 2 ^ 32.

Lemma rd_list_put {A} (put : A -> bytes) get (ok : A -> Prop) xs r :
  (forall x r, ok x -> get (put x ++ r) = Some (x, r)) -> (forall x, (0 < length (put x))%nat) ->
  Forall ok xs -> list_ok xs ->
  rd_list get (put_u32 (blen xs) ++ concat (map put xs) ++ r) = Some (xs, r).
Proof.
  intros Hg Hp Hok Hl. unfold rd_list. rewrite rd_u32_put by (pose proof (blen_nonneg xs); done). cbn.
  apply (rd_items_put put get ok); [done.. |]. rewrite length_app.
  pose proof (concat_put_length put xs Hp). lia.
Qed.

Lemma put_blob_length x : (0 < length (put_blob x))%nat.
Proof. unfold put_blob, put_u32. rewrite length_app, length_to_be. lia. Qed.

Definition values_ok (vs : list bytes) : Prop := Forall blob_ok vs /\ list_ok vs.

Lemma rd_values_put vs r : values_ok vs -> rd_values (put_values vs ++ r) = Some (vs, r).
Proof.
  intros [H1 H2]. unfold rd_values, put_values. rewrite <- app_assoc.
  apply (rd_list_put put_blob rd_blob blob_ok); [apply member_rd_blob_put | apply put_blob_length | done..].
Qed.

Record rec_ok (m : MemberRec) : Prop := {
  ro_uuid : uuid_ok (r_uuid m);
  ro_host : text_ok (r_host m);
  ro_client : is_i32 (r_client_port m);
  ro_member : is_i32 (r_member_port m);
  ro_join : is_u64 (r_join_id m)
}.

(** One reader after the other. *)
Ltac read_back :=
  repeat ((rewrite <- app_assoc)
          || (rewrite rd_u32_put by (done || lia)) || (rewrite rd_u64_put by (done || lia))
          || (rewrite rd_i32_put by (done || lia)) || (rewrite rd_uuid_put by done)
          || (rewrite member_rd_blob_put by done) || (rewrite member_rd_string_put by done)
          || (rewrite rd_values_put by done)
          || (progress cbn -[put_u32 put_u64 put_blob put_values put_uuid app])).

Lemma rd_member_put m r : rec_ok m -> rd_member (put_member m ++ r) = Some (m, r).
Proof.
  intros [H1 H2 H3 H4 H5]. destruct m as [u h cp mp j a]. unfold rd_member, put_member. cbn in *.
  read_back. cbn. by rewrite u8_bool_bool_u8.
Qed.

Definition chunk_ok (e : bytes * bytes * bytes * Z) : Prop :=
  let '(map, key, val, stamp) := e in text_ok map /\ blob_ok key /\ blob_ok val /\ is_u64 stamp.

Lemma rd_chunk_entry_put e r : chunk_ok e -> rd_chunk_entry (put_chunk_entry e ++ r) = Some (e, r).
Proof. destruct e as [[[m k] v] s]. intros (H1 & H2 & H3 & H4). unfold rd_chunk_entry, put_chunk_entry. by read_back. Qed.

Definition mm_ok (e : bytes * bytes * list bytes) : Prop :=
  let '(name, key, values) := e in text_ok name /\ blob_ok key /\ values_ok values.

Lemma rd_mm_entry_put e r : mm_ok e -> rd_mm_entry (put_mm_entry e ++ r) = Some (e, r).
Proof. destruct e as [[m k] v]. intros (H1 & H2 & H3). unfold rd_mm_entry, put_mm_entry. by read_back. Qed.

(** What a member can send: fields in the range of their types, texts that are UTF-8, and vectors
    whose length fits the 32-bit prefix. *)
Definition fields_ok (m : Msg) : Prop :=
  match m with
  | Hello index => is_u32 index
  | BackupPut op_id name key value ttl_ms =>
    is_u64 op_id /\ text_ok name /\ blob_ok key /\ blob_ok value /\ is_u64 ttl_ms
  | BackupRemove op_id name key => is_u64 op_id /\ text_ok name /\ blob_ok key
  | Ack op_id => is_u64 op_id
  | Heartbeat j g => is_u64 j /\ is_u64 g
  | JoinRequest id host cp mp => uuid_ok id /\ text_ok host /\ is_i32 cp /\ is_i32 mp
  | MemberView g ms => is_u64 g /\ Forall rec_ok ms /\ list_ok ms
  | MigrateStart g p | MigrateEnd g p => is_u64 g /\ is_i32 p
  | MigrateChunk g p es => is_u64 g /\ is_i32 p /\ Forall chunk_ok es /\ list_ok es
  | BackupState g p x | MigrateAux g p x => is_u64 g /\ is_i32 p /\ blob_ok x
  | BackupMm op_id name key vs => is_u64 op_id /\ text_ok name /\ blob_ok key /\ values_ok vs
  | MigrateMm g p es => is_u64 g /\ is_i32 p /\ Forall mm_ok es /\ list_ok es
  | Cp x => blob_ok x
  | SqlScatter q s => is_u64 q /\ text_ok s
  | SqlPartial q x => is_u64 q /\ blob_ok x
  end.

Definition msg_ok (m : Msg) : Prop := fields_ok m /\ blob_ok (encode_body m).

Lemma put_member_length m : (0 < length (put_member m))%nat.
Proof. unfold put_member. rewrite !length_app. cbn [length]. lia. Qed.

Lemma put_chunk_length e : (0 < length (put_chunk_entry e))%nat.
Proof. destruct e as [[[m k] v] s]. unfold put_chunk_entry. rewrite length_app. pose proof (put_blob_length m). lia. Qed.

Lemma put_mm_length e : (0 < length (put_mm_entry e))%nat.
Proof. destruct e as [[m k] v]. unfold put_mm_entry. rewrite length_app. pose proof (put_blob_length m). lia. Qed.

Ltac read_msg :=
  unfold decode_body; rewrite u8_b8 by done; cbn [fields_ok] in *; destruct_and?; cbv match beta; read_back.

(** The first byte of a body is its kind, and the kind selects the branch that reads it back. *)
Lemma decode_body_put m :
  fields_ok m -> exists kind r, encode_body m = kind :: r /\ forall s, decode_body kind (r ++ s) = Some m.
Proof.
  intros H. destruct m; cbn [encode_body]; eexists _, _; (split; [reflexivity |]); intros s.
  all: try (by read_msg).
  - read_msg. by rewrite (rd_list_put put_member rd_member rec_ok); auto using rd_member_put, put_member_length.
  - read_msg. by rewrite (rd_list_put put_chunk_entry rd_chunk_entry chunk_ok); auto using rd_chunk_entry_put, put_chunk_length.
  - read_msg. by rewrite (rd_list_put put_mm_entry rd_mm_entry mm_ok); auto using rd_mm_entry_put, put_mm_length.
Qed.

Lemma member_blen_encode m : blen (encode m) = 4 + blen (encode_body m).
Proof. unfold encode, put_blob, put_u32. rewrite blen_app, blen_to_be. lia. Qed.

Lemma decode_put m r : msg_ok m -> decode (encode m ++ r) = Some (m, blen (encode m)).
Proof.
  intros [Hf Hb]. unfold decode. rewrite member_blen_encode. unfold encode, put_blob. rewrite <- app_assoc.
  rewrite rd_u32_put by (pose proof (blen_nonneg (encode_body m)); done). cbn. rewrite take_n_app. cbn.
  destruct (decode_body_put m Hf) as (k & b & -> & Hd). specialize (Hd []). rewrite app_nil_r in Hd.
  by rewrite Hd.
Qed.

(** The member protocol is self-delimiting: whatever follows a frame, decoding returns the
    message that was encoded and consumes exactly its frame. *)
Theorem member_frame_roundtrip m r : msg_ok m -> decode (encode m ++ r) = Some (m, blen (encode m)).
Proof. apply decode_put. Qed.

(** A view with a tombstone, as a master publishes it. *)
Definition sample_view : Msg :=
  MemberView 7 [mkRec (1, -2) (bstr "127.0.0.1") 5701 7701 1 true; mkRec (3, 4) (bstr "10.0.0.2") 5702 7702 2 false].

Lemma member_frame_roundtrip_witness :
  decode (encode sample_view ++ encode (Ack 3)) = Some (sample_view, blen (encode sample_view)).
Proof.
  apply (member_frame_roundtrip sample_view (encode (Ack 3))).
  split; [| vm_compute; reflexivity]. repeat constructor; vm_compute; congruence.
Defined.

(** ** Incomplete and malformed frames *)

Lemma decode_range b m n : decode b = Some (m, n) -> 4 < n <= blen b.
Proof.
  unfold decode. destruct (rd_u32 b) as [[len rest] |] eqn:E; [| done]. cbn.
  destruct (take_n len rest) as [[body q] |] eqn:Et; [| done]. cbn.
  destruct body as [| k r]; [done |]. destruct (decode_body k r) as [x |]; [| done]. cbn. intros [= _ <-].
  unfold rd_u32, get_be_u in E. destruct (take_n (Z.of_nat 4) b) as [[x4 r4] |] eqn:E4; [| done].
  cbn in E. injection E as <- <-. apply take_n_Some in E4 as [-> E4]; [| lia].
  assert (0 <= from_be_u x4) as Hnn by (apply from_le_u_range).
  apply take_n_Some in Et as [-> Et]; [| done]. rewrite blen_cons in Et. pose proof (blen_nonneg r).
  rewrite !blen_app, blen_cons. pose proof (blen_nonneg q). lia.
Qed.

(** A frame of which only a part has arrived does not decode. *)
Lemma decode_partial m p q : msg_ok m -> p ++ q = encode m -> q <> [] -> decode p = None.
Proof.
  intros [Hf Hb] Hp Hq. unfold decode, rd_u32, get_be_u.
  destruct (take_n (Z.of_nat 4) p) as [[x r] |] eqn:E; [| done]. cbn.
  apply take_n_Some in E as [-> Hx]; [| lia]. unfold encode, put_blob, put_u32 in Hp.
  rewrite <- app_assoc in Hp. apply app_inj_1 in Hp as [-> Hr]; [| apply Nat2Z.inj; rewrite length_to_be; exact Hx].
  assert (from_be_u (to_be 4 (blen (encode_body m))) = blen (encode_body m)) as ->.
  { unfold from_be_u, to_be. rewrite rev_involutive. apply from_le_u_to_le.
    pose proof (blen_nonneg (encode_body m)). done. }
  rewrite take_n_short; [done |]. rewrite <- Hr, blen_app.
  destruct q; [done |]. rewrite blen_cons. pose proof (blen_nonneg q). lia.
Qed.

Definition frame_at (b : bytes) : Decoded Msg :=
  match decode b with Some (m, n) => Record m n | None => NeedMore end.

Lemma member_frame_at_complete m r : msg_ok m -> frame_at (encode m ++ r) = Record m (blen (encode m)).
Proof. intros H. unfold frame_at. by rewrite decode_put. Qed.

Lemma frame_at_partial m p q b n : msg_ok m -> p ++ q = encode m -> q <> [] -> frame_at p <> Record b n.
Proof. intros H Hp Hq. unfold frame_at. by rewrite (decode_partial m p q). Qed.

Lemma frame_at_progress b m n : frame_at b = Record m n -> 0 < n <= blen b.
Proof.
  unfold frame_at. destruct (decode b) as [[m' n'] |] eqn:E; [| done]. intros [= <- <-].
  apply decode_range in E. lia.
Qed.

#[export] Instance member_framed : Framed Msg := {|
  f_enc := encode; f_dec := frame_at; f_ok := msg_ok;
  f_complete := member_frame_at_complete; f_partial := frame_at_partial; f_progress := frame_at_progress
|}.

(** A frame with a kind that no branch reads, or with an empty body, never decodes, whatever
    arrives after it. *)
Lemma unknown_kind_dead len kind body more :
  is_u32 len -> len = blen (kind :: body) -> 17 <= u8 kind ->
  decode (put_u32 len ++ kind :: body ++ more) = None.
Proof.
  intros Hl -> Hk. unfold decode. rewrite rd_u32_put by done. cbn [mbind option_bind].
  change (kind :: body ++ more) with ((kind :: body) ++ more). rewrite take_n_app. cbn.
  assert (decode_body kind body = None) as ->; [| done]. unfold decode_body.
  pose proof (u8_range kind). destruct (u8 kind) as [| p | p]; [lia | | lia].
  do 5 (destruct p as [p | p |]; try done; try lia).
Qed.

Lemma empty_frame_dead more : decode (put_u32 0 ++ more) = None.
Proof. unfold decode. rewrite rd_u32_put by done. cbn [mbind option_bind].
  by rewrite (take_n_app' 0 [] more eq_refl : take_n 0 more = _).
Qed.
