(* ===== verification/Membership.v ===== *)
(** * Cluster membership and replica placement (crates/server/src/membership.rs)

    A join-ordered member list with dead members kept as tombstones.  The owner of a partition is the
    first live member on the ring from [p mod n], its backups the live members after it.  The facts
    proved here: the holders of a partition are a prefix of one list, the live members in ring order,
    so they are alive and distinct; the failure of members shortens that list, so ownership falls to
    a member that already holds the data; the published partition table covers every partition once. *)

From S2P Require Import Prelude MemberWire.

Definition PARTITION_COUNT : Z := 271.
Definition VERSION : Z * Z * Z := (5, 8, 0).

Record MemberInfo := mkInfo {
  m_uuid : uuid;
  m_host : bytes;
  m_client_port : Z;
  m_member_port : Z;
  m_join_id : Z
}.

Record Cluster := mkCluster {
  members : list MemberInfo;
  alive : list bool;
  backups : nat;
  quorum : nat;
  generation : Z;
  member_list_version : Z;
  partition_list_version : Z
}.

Definition new_cluster (members : list MemberInfo) (backups quorum : nat) : Cluster :=
  mkCluster members (replicate (length members) true) backups (Nat.max quorum 1) 1 1 1.

Definition len (c : Cluster) : nat := length (members c).
Definition is_empty (c : Cluster) : bool := (len c =? 0)%nat.
Definition live_count (c : Cluster) : nat := length (filter (fun a : bool => a = true) (alive c)).
Definition has_quorum (c : Cluster) : bool := (Nat.max (quorum c) 1 <=? live_count c)%nat.

(** [Iterator::min_by_key]: the first of the least. *)
Definition min_by_key {A} (key : A -> Z) (l : list A) : option A :=
  match l with
  | [] => None
  | x :: r => Some (fold_left (fun m y => if key y <? key m then y else m) r x)
  end.

Fixpoint filter_ok {A} (f : A -> outcome bool) (l : list A) : outcome (list A) :=
  match l with
  | [] => Ok []
  | x :: r => keep ← f x; rest ← filter_ok f r; Ok (if keep : bool then x :: rest else rest)
  end.

Definition enumerate {A} (l : list A) : list (nat * A) := zip (seq 0 (length l)) l.

Definition master (c : Cluster) : outcome (option nat) :=
  l ← filter_ok (fun im => index (alive c) im.1) (enumerate (members c));
  Ok (fst <$> min_by_key (fun im => m_join_id im.2) l).

Definition is_master (c : Cluster) (join_id : Z) : outcome bool :=
  mi ← master c;
  match mi with
  | None => Ok false
  | Some i => m ← index (members c) i; Ok (m_join_id m =? join_id)
  end.

Definition index_of_join (c : Cluster) (join_id : Z) : option nat :=
  fst <$> list_find (fun m => m_join_id m = join_id) (members c).
Definition index_of_uuid (c : Cluster) (u : uuid) : option nat :=
  fst <$> list_find (fun m => m_uuid m = u) (members c).
Definition max_join_id (c : Cluster) : Z := fold_right Z.max 0 (map m_join_id (members c)).

(** The indices [(start + j) % n] for [j] from [first]. *)
Definition ring (n start first : nat) : list nat := map (fun j => (start + j) mod n)%nat (seq first (n - first)).

(** [for i in ring { if alive[i] { return i } }], then the home index. *)
Fixpoint first_alive (alive : list bool) (ixs : list nat) (home : nat) : outcome nat :=
  match ixs with
  | [] => Ok home
  | i :: r => a ← index alive i; if a : bool then Ok i else first_alive alive r home
  end.

(** [partition.rem_euclid(n as i32)] panics when there is no member. *)
Definition home (c : Cluster) (partition : Z) : outcome nat :=
  let n := wrap_i32 (Z.of_nat (len c)) in
  if n =? 0 then Panic else Ok (Z.to_nat (partition mod Z.abs n)).

Definition owner (c : Cluster) (partition : Z) : outcome nat :=
  h ← home c partition;
  first_alive (alive c) (ring (len c) h 0) h.

(** [while out.len() < want && j < n { if alive[(owner + j) % n] { out.push(..) } }] *)
Fixpoint collect_alive (alive : list bool) (want : nat) (ixs : list nat) : outcome (list nat) :=
  match want, ixs with
  | O, _ | _, [] => Ok []
  | S want', i :: r =>
    a ← index alive i;
    if a : bool then (out ← collect_alive alive want' r; Ok (i :: out)) else collect_alive alive want r
  end.

Definition backups_of (c : Cluster) (partition : Z) : outcome (list nat) :=
  o ← owner c partition;
  collect_alive (alive c) (Nat.min (backups c) (live_count c - 1)) (ring (len c) o 1).

Definition bump (c : Cluster) : Cluster :=
  mkCluster (members c) (alive c) (backups c) (quorum c) (wrap_u64 (generation c + 1))
    (wrap_i32 (member_list_version c + 1)) (wrap_i32 (partition_list_version c + 1)).

Definition set_alive (c : Cluster) (al : list bool) : Cluster :=
  mkCluster (members c) al (backups c) (quorum c) (generation c) (member_list_version c) (partition_list_version c).

Definition remove_member_by_uuid (c : Cluster) (u : uuid) : outcome (Cluster * bool) :=
  match index_of_uuid c u with
  | None => Ok (c, false)
  | Some i =>
    a ← index (alive c) i;
    if a : bool then (al ← set_index (alive c) i false; Ok (bump (set_alive c al), true)) else Ok (c, false)
  end.

Definition promote (c : Cluster) (join_id : Z) : outcome Cluster :=
  match index_of_join c join_id with
  | None => Ok c
  | Some i =>
    a ← index (alive c) i;
    if a : bool then (al ← set_index (alive c) i false; Ok (bump (set_alive c al))) else Ok c
  end.

Definition with_join_id (m : MemberInfo) (j : Z) : MemberInfo :=
  mkInfo (m_uuid m) (m_host m) (m_client_port m) (m_member_port m) j.

Definition add_member (c : Cluster) (info : MemberInfo) : outcome (Cluster * option Z) :=
  match index_of_uuid c (m_uuid info) with
  | Some i =>
    a ← index (alive c) i;
    if a : bool then Ok (c, None) else
    al ← set_index (alive c) i true;
    let c' := bump (set_alive c al) in
    m ← index (members c') i;
    Ok (c', Some (m_join_id m))
  | None =>
    let info :=
      if (m_join_id info =? 0) || bool_decide (is_Some (index_of_join c (m_join_id info)))
      then with_join_id info (wrap_u64 (max_join_id c + 1)) else info in
    Ok (bump (mkCluster (members c ++ [info]) (alive c ++ [true]) (backups c) (quorum c) (generation c)
                (member_list_version c) (partition_list_version c)), Some (m_join_id info))
  end.

Definition set_view (c : Cluster) (gen : Z) (ms : list MemberInfo) (al : list bool) : Cluster * bool :=
  if gen <=? generation c then (c, false) else
  (mkCluster ms al (backups c) (quorum c) gen (wrap_i32 (member_list_version c + 1))
     (wrap_i32 (partition_list_version c + 1)), true).

Definition apply_view (c : Cluster) (gen : Z) (ms : list MemberInfo) : Cluster * bool :=
  set_view c gen ms (replicate (length ms) true).

(** [members.iter().zip(&alive).filter(|(_, &a)| a)] *)
Definition live_members (c : Cluster) : list MemberInfo :=
  map fst (filter (fun ma : MemberInfo * bool => ma.2 = true) (zip (members c) (alive c))).

Definition member_tuples (c : Cluster) : list (uuid * bytes * Z * bool * (Z * Z * Z)) :=
  map (fun m => (m_uuid m, m_host m, m_client_port m, false, VERSION)) (live_members c).

(** [self.members[self.owner(p)].uuid] *)
Definition owner_uuid (c : Cluster) (p : Z) : outcome uuid :=
  o ← owner c p; m ← index (members c) o; Ok (m_uuid m).

(** [if let Some(e) = by_member.iter_mut().find(|(u, _)| *u == owner_uuid) { e.1.push(p) }] *)
Fixpoint table_push (t : list (uuid * list Z)) (u : uuid) (p : Z) : list (uuid * list Z) :=
  match t with
  | [] => []
  | (v, ps) :: r => if decide (v = u) then (v, ps ++ [p]) :: r else (v, ps) :: table_push r u p
  end.

Fixpoint table_fill (c : Cluster) (t : list (uuid * list Z)) (ps : list Z) : outcome (list (uuid * list Z)) :=
  match ps with
  | [] => Ok t
  | p :: r =>
    owner_uuid ← owner_uuid c p;
    table_fill c (table_push t owner_uuid p) r
  end.

(** [0..count] *)
Definition partitions (count : Z) : list Z := map Z.of_nat (seq 0 (Z.to_nat count)).

Definition partition_table (c : Cluster) : outcome (list (uuid * list Z)) :=
  table_fill c (map (fun m => (m_uuid m, [])) (live_members c)) (partitions PARTITION_COUNT).

(** [for uuid in &suspects { changed |= cluster.remove_member_by_uuid(uuid) }] *)
Fixpoint remove_members (c : Cluster) (us : list uuid) : outcome (Cluster * bool) :=
  match us with
  | [] => Ok (c, false)
  | u :: r =>
    '(c, removed) ← remove_member_by_uuid c u;
    '(c, changed) ← remove_members c r;
    Ok (c, removed || changed)
  end.

Definition default_quorum (cluster_size : nat) : nat := (cluster_size / 2 + 1)%nat.

(** ** Well-formed views *)

Record wf (c : Cluster) : Prop := {
  wf_len : length (alive c) = len c;
  wf_size : Z.of_nat (len c) < 2 ^ 31;
  wf_uuids : NoDup (map m_uuid (members c));
  wf_live : (0 < live_count c)%nat
}.

Lemma live_count_le c : (live_count c <= length (alive c))%nat.
Proof. apply length_filter. Qed.

Lemma wf_len_pos c : wf c -> (0 < len c)%nat.
Proof. intros [H1 _ _ H2]. pose proof (live_count_le c). lia. Qed.

(** ** The ring *)

(** The ring from [h] over [n] indices, and its live part. *)
Abbreviation full_ring n h := (ring n h 0).
Definition is_alive (al : list bool) (i : nat) : Prop := al !! i = Some true.
#[global] Instance is_alive_dec al i : Decision (is_alive al i).
Proof. unfold is_alive. apply _. Defined.

Definition live_ring (c : Cluster) (h : nat) : list nat := filter (is_alive (alive c)) (full_ring (len c) h).

Lemma ring_lookup n h f j : ring n h f !! j = if decide (j < n - f)%nat then Some ((h + (f + j)) mod n)%nat else None.
Proof.
  unfold ring. rewrite list_lookup_fmap. case_decide as H.
  - rewrite (proj2 (lookup_seq _ _ _ (f + j)%nat)); [done | lia].
  - rewrite lookup_seq_ge; [done | lia].
Qed.

Lemma ring_length n h f : length (ring n h f) = (n - f)%nat.
Proof. unfold ring. by rewrite length_map, length_seq. Qed.

Lemma ring_bound n h f i : (0 < n)%nat -> i ∈ ring n h f -> (i < n)%nat.
Proof.
  intros Hn (j & Hj)%list_elem_of_lookup_1. rewrite ring_lookup in Hj. case_decide; [| done].
  injection Hj as <-. apply Nat.mod_upper_bound. lia.
Qed.

(** Going round from a point [k] further is a rotation by [k]. *)
Lemma ring_rotate n h k :
  (k < n)%nat -> full_ring n ((h + k) mod n) = drop k (full_ring n h) ++ take k (full_ring n h).
Proof.
  intros Hk. apply list_eq. intros j. rewrite ring_lookup.
  destruct (decide (j < n - k)%nat) as [Hj | Hj].
  - rewrite decide_True by lia. rewrite lookup_app_l by (rewrite length_drop, ring_length; lia).
    rewrite lookup_drop, ring_lookup, decide_True by lia. f_equal.
    rewrite Nat.Div0.add_mod_idemp_l. f_equal. lia.
  - rewrite lookup_app_r by (rewrite length_drop, ring_length; lia). rewrite length_drop, ring_length.
    case_decide as Hn.
    + rewrite lookup_take_lt by lia. rewrite ring_lookup, decide_True by lia. f_equal.
      rewrite Nat.Div0.add_mod_idemp_l.
      replace (h + k + (0 + j))%nat with (h + (0 + (j - (n - 0 - k))) + 1 * n)%nat by lia. apply Nat.Div0.mod_add.
    + rewrite lookup_take_ge by lia. done.
Qed.

Lemma ring_seq n h : (h < n)%nat -> full_ring n h = seq h (n - h) ++ seq 0 h.
Proof.
  intros Hh. rewrite <- (Nat.mod_small h n Hh) at 1. replace h with (0 + h)%nat at 1 by lia.
  rewrite ring_rotate by done.
  assert (full_ring n 0 = seq 0 n) as E.
  { unfold ring. rewrite Nat.sub_0_r. apply list_eq. intros j. rewrite list_lookup_fmap.
    destruct (decide (j < n)%nat) as [Hj |].
    - rewrite !(proj2 (lookup_seq _ _ _ j)) by lia. cbn. by rewrite Nat.mod_small.
    - by rewrite !lookup_seq_ge by lia. }
  rewrite E. replace (seq 0 n) with (seq 0 h ++ seq h (n - h)) by (rewrite <- seq_app; f_equal; lia).
  by rewrite drop_app_length', take_app_length' by (by rewrite length_seq).
Qed.

Lemma ring_perm n h : (h < n)%nat -> full_ring n h ≡ₚ seq 0 n.
Proof.
  intros Hh. rewrite ring_seq by done. rewrite (Permutation_app_comm (seq h _)).
  replace n with (h + (n - h))%nat at 2 by lia. by rewrite seq_app.
Qed.

Lemma ring_nodup n h : (h < n)%nat -> NoDup (full_ring n h).
Proof. intros Hh. rewrite ring_perm by done. apply NoDup_seq. Qed.

(** The ring that starts after its first element. *)
Lemma ring_tail n h : (h < n)%nat -> full_ring n h = h :: ring n h 1.
Proof.
  intros Hh. unfold ring. rewrite Nat.sub_0_r. destruct n as [| n]; [lia |].
  cbn [seq map]. rewrite Nat.add_0_r, Nat.mod_small by lia. f_equal. f_equal. f_equal. lia.
Qed.

Lemma filter_iff_in {A} (P Q : A -> Prop) `{!forall x, Decision (P x), !forall x, Decision (Q x)} (l : list A) :
  (forall x, x ∈ l -> P x <-> Q x) -> filter P l = filter Q l.
Proof.
  induction l as [| x l IH]; intros HPQ; [done |]. rewrite !filter_cons, IH by set_solver.
  specialize (HPQ x). repeat case_decide; set_solver.
Qed.

Lemma filter_seq_alive (al : list bool) : length (filter (is_alive al) (seq 0 (length al))) = length (filter (fun a : bool => a = true) al).
Proof.
  induction al as [| a al IH] using rev_ind; [done |].
  rewrite length_app, Nat.add_1_r, seq_S, !filter_app, !length_app. f_equal.
  - rewrite <- IH. f_equal. apply filter_iff_in. intros i Hi. apply elem_of_seq in Hi.
    unfold is_alive. rewrite lookup_app_l by lia. done.
  - cbn [Nat.add]. rewrite !filter_cons, !filter_nil.
    assert (is_alive (al ++ [a]) (length al) <-> a = true) as E.
    { unfold is_alive. rewrite (list_lookup_middle al [] a (length al)) by done. split; congruence. }
    repeat case_decide; tauto.
Qed.

Lemma live_ring_length c h : wf c -> (h < len c)%nat -> length (live_ring c h) = live_count c.
Proof.
  intros Hw Hh. unfold live_ring, live_count. rewrite ring_perm by done. rewrite <- (wf_len c Hw).
  apply filter_seq_alive.
Qed.

(** ** Owner and backups *)

Lemma first_alive_spec al ixs d :
  Forall (fun i => i < length al)%nat ixs ->
  first_alive al ixs d = Ok (default d (head (filter (is_alive al) ixs))).
Proof.
  induction 1 as [| i ixs Hi _ IH]; [done |]. cbn [first_alive]. rewrite filter_cons.
  destruct (lookup_lt_is_Some_2 al i Hi) as [a Ha]. unfold index. rewrite Ha. cbn.
  destruct a; [by rewrite decide_True | rewrite decide_False by (unfold is_alive; congruence); done].
Qed.

Lemma collect_alive_spec al want ixs :
  Forall (fun i => i < length al)%nat ixs ->
  collect_alive al want ixs = Ok (take want (filter (is_alive al) ixs)).
Proof.
  intros H. revert want. induction H as [| i ixs Hi _ IH]; intros [| w]; [done.. |]. cbn [collect_alive].
  rewrite filter_cons. destruct (lookup_lt_is_Some_2 al i Hi) as [a Ha]. unfold index. rewrite Ha. cbn.
  destruct a.
  - rewrite decide_True by done. rewrite IH. done.
  - rewrite decide_False by (unfold is_alive; congruence). apply IH.
Qed.

Definition home_ix (c : Cluster) (p : Z) : nat := Z.to_nat (p mod Z.of_nat (len c)).

Lemma home_ok c p : wf c -> home c p = Ok (home_ix c p) /\ (home_ix c p < len c)%nat.
Proof.
  intros Hw. pose proof (wf_len_pos c Hw) as Hp. pose proof (wf_size c Hw) as Hs. unfold home.
  rewrite wrap_i32_small by (unfold is_i32; lia). rewrite (proj2 (Z.eqb_neq _ _)) by lia.
  rewrite Z.abs_eq by lia. split; [done |]. unfold home_ix.
  pose proof (Z.mod_pos_bound p (Z.of_nat (len c))). lia.
Qed.

Lemma ring_forall c h f : wf c -> Forall (fun i => i < length (alive c))%nat (ring (len c) h f).
Proof.
  intros Hw. apply Forall_forall. intros i Hi. rewrite (wf_len c Hw). eapply ring_bound; [| exact Hi].
  by apply wf_len_pos.
Qed.

(** The live ring does not depend on the dead members it starts from. *)
Lemma live_ring_from_owner c h o rest :
  (h < len c)%nat -> live_ring c h = o :: rest ->
  (o < len c)%nat /\ is_alive (alive c) o /\ filter (is_alive (alive c)) (ring (len c) o 1) = rest.
Proof.
  intros Hh E. unfold live_ring in E.
  assert (o ∈ filter (is_alive (alive c)) (full_ring (len c) h)) as Ho by (rewrite E; set_solver).
  apply list_elem_of_filter in Ho as [Ha Ho]. assert (o < len c)%nat as Hb by (apply (ring_bound _ h 0); [lia | done]).
  split_and!; [done.. |].
  apply list_elem_of_lookup_1 in Ho as [k Hk]. pose proof Hk as Hk'. rewrite ring_lookup in Hk'.
  case_decide as Hkn; [| done]. injection Hk' as Hk'.
  assert (full_ring (len c) o = drop k (full_ring (len c) h) ++ take k (full_ring (len c) h)) as Hr.
  { rewrite <- ring_rotate by lia. by rewrite <- Hk'. }
  assert (filter (is_alive (alive c)) (take k (full_ring (len c) h)) = []) as Hpre.
  { rewrite <- (take_drop_middle _ _ _ Hk), filter_app, filter_cons, decide_True in E by done.
    destruct (filter _ (take k _)) as [| x pre] eqn:Ep; [done |]. exfalso. cbn in E. injection E as -> _.
    assert (o ∈ take k (full_ring (len c) h)) as Hin.
    { apply (list_elem_of_filter (is_alive (alive c))). rewrite Ep. set_solver. }
    apply elem_of_take in Hin as (i & Hi & Hik).
    pose proof (NoDup_lookup _ _ _ _ (ring_nodup (len c) h Hh) Hi Hk). lia. }
  rewrite <- (take_drop k (full_ring (len c) h)), filter_app, Hpre in E. cbn in E.
  apply (f_equal (filter (is_alive (alive c)))) in Hr.
  rewrite filter_app, Hpre, app_nil_r, E, ring_tail, filter_cons, decide_True in Hr by done. congruence.
Qed.

(** How many members hold a partition. *)
Definition replicas (c : Cluster) : nat := S (Nat.min (backups c) (live_count c - 1)).
Definition holder_ixs (c : Cluster) (p : Z) : list nat := take (replicas c) (live_ring c (home_ix c p)).

(** The owner and the backups of a partition, in this order, are the first [replicas] live members on
    the ring. *)
Lemma holders_spec c p :
  wf c -> exists o bs, owner c p = Ok o /\ backups_of c p = Ok bs /\ o :: bs = holder_ixs c p.
Proof.
  intros Hw. destruct (home_ok c p Hw) as [Hh Hb].
  destruct (live_ring c (home_ix c p)) as [| o rest] eqn:E.
  { apply (f_equal length) in E. rewrite live_ring_length in E by done. pose proof (wf_live c Hw). simpl in E. lia. }
  assert (owner c p = Ok o) as Ho.
  { unfold owner. rewrite Hh. cbn [mbind outcome_bind]. rewrite first_alive_spec by (by apply ring_forall).
    fold (live_ring c (home_ix c p)). by rewrite E. }
  destruct (live_ring_from_owner c _ _ _ Hb E) as (_ & _ & Hrest).
  exists o, (take (Nat.min (backups c) (live_count c - 1)) rest). split_and!; [done | |].
  - unfold backups_of. rewrite Ho. cbn [mbind outcome_bind].
    rewrite collect_alive_spec by (by apply ring_forall). by rewrite Hrest.
  - unfold holder_ixs, replicas. by rewrite E.
Qed.

Lemma live_ring_alive c h i : i ∈ live_ring c h -> is_alive (alive c) i.
Proof. unfold live_ring. intros [H _]%list_elem_of_filter. done. Qed.

Lemma live_ring_elem c h i : wf c -> (h < len c)%nat -> i ∈ live_ring c h <-> is_alive (alive c) i.
Proof.
  intros Hw Hh. split; [apply live_ring_alive |]. intros Ha. apply list_elem_of_filter. split; [done |].
  rewrite ring_perm by done. apply elem_of_seq. apply lookup_lt_Some in Ha. rewrite (wf_len c Hw) in Ha. lia.
Qed.

Lemma live_ring_nodup c h : (h < len c)%nat -> NoDup (live_ring c h).
Proof. intros Hh. apply NoDup_filter. by apply ring_nodup. Qed.

Lemma holder_ixs_elem c p i : i ∈ holder_ixs c p -> is_alive (alive c) i.
Proof. intros H. eapply live_ring_alive. eapply subseteq_take. exact H. Qed.

Lemma holder_ixs_nodup c p : wf c -> NoDup (holder_ixs c p).
Proof.
  intros Hw. pose proof (live_ring_nodup c (home_ix c p) (proj2 (home_ok c p Hw))) as H.
  unfold holder_ixs. rewrite <- (take_drop (replicas c) (live_ring _ _)) in H. by apply NoDup_app in H as [H _].
Qed.

Lemma holder_ixs_length c p : wf c -> length (holder_ixs c p) = Nat.min (S (backups c)) (live_count c).
Proof.
  intros Hw. unfold holder_ixs. rewrite length_take, live_ring_length by (done || by apply home_ok).
  unfold replicas. pose proof (wf_live c Hw). lia.
Qed.

(** Placement.  In every view with a live member, every partition has an owner and
    backups: they are live and pairwise distinct members, the owner is not one of its backups, and
    there are as many replicas as the configuration asks for, or as there are live members if that
    is fewer. *)
Theorem replicas_are_placed c p :
  wf c -> exists o bs,
    owner c p = Ok o /\ backups_of c p = Ok bs /\ NoDup (o :: bs)
    /\ Forall (is_alive (alive c)) (o :: bs) /\ length (o :: bs) = Nat.min (S (backups c)) (live_count c).
Proof.
  intros Hw. destruct (holders_spec c p Hw) as (o & bs & Ho & Hb & E). exists o, bs. rewrite E.
  split_and!; [done.. | by apply holder_ixs_nodup | | by apply holder_ixs_length].
  apply Forall_forall. intros i. apply holder_ixs_elem.
Qed.

Lemma replicas_are_placed_witness :
  exists o bs, owner (new_cluster [mkInfo (1, 1) [] 1 1 1; mkInfo (2, 2) [] 2 2 2; mkInfo (3, 3) [] 3 3 3] 1 2) 7 = Ok o
    /\ backups_of (new_cluster [mkInfo (1, 1) [] 1 1 1; mkInfo (2, 2) [] 2 2 2; mkInfo (3, 3) [] 3 3 3] 1 2) 7 = Ok bs
    /\ NoDup (o :: bs)
    /\ Forall (is_alive [true; true; true]) (o :: bs) /\ length (o :: bs) = 2%nat.
Proof.
  apply (replicas_are_placed (new_cluster [mkInfo (1, 1) [] 1 1 1; mkInfo (2, 2) [] 2 2 2; mkInfo (3, 3) [] 3 3 3] 1 2) 7).
  split; [done | done | | by vm_compute; lia]. vm_compute. repeat (constructor; [set_solver |]). constructor.
Defined.

(** ** Failures *)

(** [c'] is [c] after some members died. *)
Record shrinks (c c' : Cluster) : Prop := {
  sh_members : members c' = members c;
  sh_backups : backups c' = backups c;
  sh_len : length (alive c') = length (alive c);
  sh_alive : forall i, is_alive (alive c') i -> is_alive (alive c) i
}.

Lemma shrinks_refl c : shrinks c c.
Proof. by split. Qed.

Lemma shrinks_trans a b c : shrinks a b -> shrinks b c -> shrinks a c.
Proof. intros [] []. split; [congruence.. | auto]. Qed.

Lemma index_of_uuid_Some c u i :
  index_of_uuid c u = Some i -> exists m, members c !! i = Some m /\ m_uuid m = u.
Proof.
  unfold index_of_uuid. destruct (list_find _ _) as [[j m] |] eqn:E; [| done]. intros [= <-].
  apply list_find_Some in E as (? & ? & _). eauto.
Qed.

(** The uuid of the member at an index. *)
Definition uuid_at (c : Cluster) (i : nat) : option uuid := m_uuid <$> members c !! i.

Lemma uuid_at_inj c i j u : NoDup (map m_uuid (members c)) -> uuid_at c i = Some u -> uuid_at c j = Some u -> i = j.
Proof. unfold uuid_at. rewrite <- !list_lookup_fmap. intros. by eapply NoDup_lookup. Qed.

Lemma member_remove_ok c u :
  length (alive c) = len c -> NoDup (map m_uuid (members c)) ->
  exists c' b, remove_member_by_uuid c u = Ok (c', b) /\ shrinks c c'
    /\ forall i, is_alive (alive c) i -> uuid_at c i <> Some u -> is_alive (alive c') i.
Proof.
  intros Hl Hn. unfold remove_member_by_uuid. destruct (index_of_uuid c u) as [i |] eqn:E;
    [| by exists c, false; split_and!; [| apply shrinks_refl |]].
  apply index_of_uuid_Some in E as (m & Hm & Hu). pose proof (lookup_lt_Some _ _ _ Hm) as Hi.
  destruct (lookup_lt_is_Some_2 (alive c) i) as [a Ha]; [unfold len in Hl; lia |].
  unfold index, set_index. rewrite Ha. cbn [mbind outcome_bind].
  destruct a; [| by exists c, false; split_and!; [| apply shrinks_refl |]].
  rewrite decide_True by (unfold len in Hl; lia). cbn. eexists _, true. split_and!; [done | |].
  - split; cbn; [done | done | by rewrite length_insert |]. intros j. unfold is_alive.
    destruct (decide (i = j)) as [<- |]; [| by rewrite list_lookup_insert_ne].
    rewrite list_lookup_insert_eq by (unfold len in Hl; lia). done.
  - cbn. intros j Hj Hne. unfold is_alive. rewrite list_lookup_insert_ne; [done |].
    intros <-. apply Hne. unfold uuid_at. rewrite Hm. cbn. by rewrite Hu.
Qed.

Lemma remove_members_ok c us :
  length (alive c) = len c -> NoDup (map m_uuid (members c)) ->
  exists c' b, remove_members c us = Ok (c', b) /\ shrinks c c'
    /\ forall i u, is_alive (alive c) i -> uuid_at c i = Some u -> u ∉ us -> is_alive (alive c') i.
Proof.
  revert c. induction us as [| u us IH]; intros c Hl Hn.
  { exists c, false. split_and!; [done | apply shrinks_refl | done]. }
  destruct (member_remove_ok c u Hl Hn) as (c1 & b1 & E1 & S1 & A1). destruct (IH c1) as (c2 & b2 & E2 & S2 & A2).
  { unfold len. rewrite (sh_members _ _ S1), (sh_len _ _ S1). done. }
  { by rewrite (sh_members _ _ S1). }
  exists c2, (b1 || b2). cbn [remove_members]. rewrite E1. cbn [mbind outcome_bind]. rewrite E2.
  split_and!; [done | by eapply shrinks_trans |].
  intros i v Hi Hv Hu. apply (A2 i v); [apply A1; [done |] | | set_solver].
  - rewrite Hv. intros [= ->]. set_solver.
  - unfold uuid_at. by rewrite (sh_members _ _ S1).
Qed.

Lemma index_of_uuid_at c i u :
  NoDup (map m_uuid (members c)) -> uuid_at c i = Some u -> index_of_uuid c u = Some i.
Proof.
  intros Hn Hu. unfold uuid_at in Hu. apply fmap_Some in Hu as (m & Hm & ->).
  destruct (index_of_uuid c (m_uuid m)) as [j |] eqn:E.
  - apply index_of_uuid_Some in E as (m' & Hm' & Eu). f_equal.
    apply (uuid_at_inj c j i (m_uuid m)); unfold uuid_at; [done | |]; [rewrite Hm' | rewrite Hm]; cbn; congruence.
  - unfold index_of_uuid in E. rewrite fmap_None, list_find_None, Forall_forall in E.
    exfalso. apply (E m); [by eapply list_elem_of_lookup_2 | done].
Qed.

(** A member that was alive and is removed counts as a change; removed members are dead. *)
Lemma remove_dead c u i c' b :
  NoDup (map m_uuid (members c)) -> uuid_at c i = Some u -> remove_member_by_uuid c u = Ok (c', b) ->
  ~ is_alive (alive c') i /\ (is_alive (alive c) i -> b = true).
Proof.
  intros Hn Hu. unfold remove_member_by_uuid. rewrite (index_of_uuid_at c i u) by done.
  unfold index, set_index. destruct (alive c !! i) as [a |] eqn:Ea; [| done]. cbn [mbind outcome_bind].
  unfold is_alive. destruct a.
  - rewrite decide_True by (by eapply lookup_lt_Some). cbn. intros [= <- <-]. cbn. split; [| done].
    rewrite list_lookup_insert_eq by (by eapply lookup_lt_Some). done.
  - intros [= <- <-]. rewrite Ea. split; congruence.
Qed.

Lemma remove_members_dead c us i u c' b :
  length (alive c) = len c -> NoDup (map m_uuid (members c)) -> uuid_at c i = Some u -> u ∈ us ->
  remove_members c us = Ok (c', b) -> ~ is_alive (alive c') i /\ (is_alive (alive c) i -> b = true).
Proof.
  revert c b. induction us as [| v us IH]; intros c b Hl Hn Hu Hin; [set_solver |]. cbn [remove_members].
  destruct (member_remove_ok c v Hl Hn) as (c1 & b1 & E1 & S1 & A1). rewrite E1. cbn [mbind outcome_bind].
  assert (length (alive c1) = len c1) as Hl1 by (unfold len; rewrite (sh_members _ _ S1), (sh_len _ _ S1); done).
  assert (NoDup (map m_uuid (members c1))) as Hn1 by (by rewrite (sh_members _ _ S1)).
  assert (uuid_at c1 i = Some u) as Hu1 by (unfold uuid_at; by rewrite (sh_members _ _ S1)).
  destruct (remove_members_ok c1 us Hl1 Hn1) as (c2 & b2 & E2 & S2 & _). rewrite E2. cbn. intros [= <- <-].
  destruct (decide (u = v)) as [<- | Hne].
  - destruct (remove_dead c u i c1 b1 Hn Hu E1) as [Hd Hb]. split.
    + intros Ha. by apply Hd, (sh_alive _ _ S2).
    + intros Ha. by rewrite (Hb Ha).
  - destruct (IH c1 b2 Hl1 Hn1 Hu1 ltac:(set_solver) E2) as [Hd Hb]. split; [done |].
    intros Ha. rewrite (Hb (A1 i Ha ltac:(congruence))). apply orb_true_r.
Qed.

Lemma shrinks_wf c c' : wf c -> shrinks c c' -> (0 < live_count c')%nat -> wf c'.
Proof.
  intros [H1 H2 H3 H4] [S1 S2 S3 S4] Hl. split; [| | | done]; unfold len in *; by rewrite ?S3, ?S1.
Qed.

Lemma shrinks_ring c c' h : shrinks c c' -> live_ring c' h = filter (is_alive (alive c')) (live_ring c h).
Proof.
  intros [S1 S2 S3 S4]. unfold live_ring, len. rewrite S1, list_filter_filter. apply list_filter_iff.
  intros i. naive_solver.
Qed.

Lemma shrinks_home c c' p : shrinks c c' -> home_ix c' p = home_ix c p.
Proof. intros S. unfold home_ix, len. by rewrite (sh_members _ _ S). Qed.

(** Ownership falls to the first surviving holder. *)
Lemma failover_owner c c' p i :
  wf c -> shrinks c c' -> i ∈ holder_ixs c p -> is_alive (alive c') i ->
  exists o, owner c' p = Ok o /\ head (filter (is_alive (alive c')) (holder_ixs c p)) = Some o.
Proof.
  intros Hw S Hi Ha.
  assert (exists o r, filter (is_alive (alive c')) (holder_ixs c p) = o :: r) as (o & r & E).
  { destruct (filter _ _) as [| o r] eqn:E; [| eauto]. exfalso.
    assert (i ∈ filter (is_alive (alive c')) (holder_ixs c p)) as Hf by (by apply list_elem_of_filter).
    rewrite E in Hf. set_solver. }
  assert (live_ring c' (home_ix c' p) = o :: (r ++ filter (is_alive (alive c')) (drop (replicas c) (live_ring c (home_ix c p))))) as El.
  { rewrite (shrinks_home _ _ _ S), (shrinks_ring _ _ _ S).
    rewrite <- (take_drop (replicas c) (live_ring c (home_ix c p))) at 1.
    rewrite filter_app. fold (holder_ixs c p). by rewrite E. }
  assert (0 < live_count c')%nat as Hl.
  { unfold live_count. apply Nat.neq_0_lt_0. intros Hz%length_zero_iff_nil.
    assert (true ∈ filter (fun a : bool => a = true) (alive c')) as Ht.
    { apply list_elem_of_filter. split; [done |]. by eapply list_elem_of_lookup_2. }
    rewrite Hz in Ht. set_solver. }
  pose proof (shrinks_wf _ _ Hw S Hl) as Hw'. destruct (holders_spec c' p Hw') as (o' & bs & Ho & _ & Eh).
  exists o'. split; [done |]. rewrite E. cbn. unfold holder_ixs, replicas in Eh. rewrite El in Eh.
  cbn in Eh. congruence.
Qed.

Lemma uuid_at_alive c i : wf c -> is_alive (alive c) i -> is_Some (uuid_at c i).
Proof.
  intros Hw Ha. apply fmap_is_Some, lookup_lt_is_Some_2. apply lookup_lt_Some in Ha.
  pose proof (wf_len c Hw). unfold len in *. lia.
Qed.

(** A set of failures no larger than the number of backups leaves one of the holders alive. *)
Lemma holder_survives c c' us p :
  wf c -> remove_members c us = Ok c' -> (length us <= backups c)%nat -> (0 < live_count c'.1)%nat ->
  exists i, i ∈ holder_ixs c p /\ is_alive (alive c'.1) i.
Proof.
  intros Hw E Hk Hl. destruct (remove_members_ok c us (wf_len c Hw) (wf_uuids c Hw)) as (d & b & E' & Hsh & A).
  rewrite E in E'. injection E' as ->. cbn [fst] in *.
  destruct (decide (Exists (is_alive (alive d)) (holder_ixs c p))) as [Hx | Hx].
  { apply Exists_exists in Hx as (i & ? & ?). eauto. }
  exfalso. assert (forall i, i ∈ holder_ixs c p -> ~ is_alive (alive d) i) as Hdead.
  { intros i Hi Ha. apply Hx, Exists_exists. eauto. }
  pose proof (holder_ixs_length c p Hw) as Hlen. destruct (home_ok c p Hw) as [_ Hh].
  destruct (decide (S (backups c) <= live_count c)%nat) as [Hle | Hgt].
  - assert (map (uuid_at c) (holder_ixs c p) ⊆ map Some us) as Hsub.
    { intros x (i & -> & Hi)%list_elem_of_fmap. pose proof (holder_ixs_elem c p i Hi) as Ha.
      destruct (uuid_at_alive c i Hw Ha) as [u Hu].
      rewrite Hu. apply list_elem_of_fmap. exists u. split; [done |]. apply dec_stable. intros Hn.
      by apply (Hdead i Hi), (A i u). }
    apply NoDup_submseteq in Hsub as Hs.
    + apply submseteq_length in Hs. rewrite !length_map in Hs. lia.
    + apply NoDup_fmap_2_strong; [| by apply holder_ixs_nodup]. intros i j Hi Hj Eu.
      pose proof (holder_ixs_elem c p i Hi) as Ha.
      destruct (uuid_at_alive c i Hw Ha) as [u Hu].
      eapply uuid_at_inj; [apply (wf_uuids c Hw) | exact Hu | by rewrite <- Eu].
  - (* every live member holds the partition *)
    assert (holder_ixs c p = live_ring c (home_ix c p)) as Ef.
    { apply take_ge. rewrite live_ring_length by done. unfold replicas. lia. }
    assert (wf d) as Hwd by (by eapply shrinks_wf).
    pose proof (live_ring_length d (home_ix d p) Hwd (proj2 (home_ok d p Hwd))) as Hd.
    rewrite (shrinks_home _ _ _ Hsh), (shrinks_ring _ _ _ Hsh) in Hd.
    rewrite <- Ef in Hd. destruct (filter _ _) as [| i l] eqn:El; [simpl in Hd; lia |].
    assert (i ∈ filter (is_alive (alive d)) (holder_ixs c p)) as [? ?]%list_elem_of_filter by (rewrite El; set_solver).
    by apply (Hdead i).
Qed.

(** C17. Failover.  When any members fail, no more of them than the configured backups and not all, every partition
    is owned by a live member that held its data before the failures: the first surviving holder in
    the order owner, first backup, second backup. *)
Theorem failover_keeps_data c us c' p :
  wf c -> remove_members c us = Ok c' -> (length us <= backups c)%nat -> (0 < live_count c'.1)%nat ->
  exists o bs o',
    owner c p = Ok o /\ backups_of c p = Ok bs /\ owner c'.1 p = Ok o'
    /\ is_alive (alive c'.1) o' /\ head (filter (is_alive (alive c'.1)) (o :: bs)) = Some o'.
Proof.
  intros Hw E Hk Hl. destruct (holder_survives c c' us p Hw E Hk Hl) as (i & Hi & Ha).
  destruct (remove_members_ok c us (wf_len c Hw) (wf_uuids c Hw)) as (d & b & E' & Hsh & A).
  rewrite E in E'. injection E' as ->. cbn [fst] in *.
  destruct (failover_owner c d p i Hw Hsh Hi Ha) as (o' & Ho' & Hhead).
  destruct (holders_spec c p Hw) as (o & bs & Ho & Hb & Eh). exists o, bs, o'. rewrite Eh.
  split_and!; [done.. | | done]. apply head_Some_elem_of in Hhead. by apply list_elem_of_filter in Hhead as [? _].
Qed.

(** Three members, one backup. *)
Definition trio : Cluster :=
  new_cluster [mkInfo (1, 1) [] 5701 7701 1; mkInfo (2, 2) [] 5702 7702 2; mkInfo (3, 3) [] 5703 7703 3] 1 2.

Lemma trio_wf : wf trio.
Proof. split; [done | done | | vm_compute; lia]. vm_compute. repeat (constructor; [set_solver |]). constructor. Qed.

Lemma failover_keeps_data_witness :
  exists o bs o',
    owner trio 3 = Ok o /\ backups_of trio 3 = Ok bs
    /\ owner (bump (set_alive trio [false; true; true])) 3 = Ok o'
    /\ is_alive [false; true; true] o' /\ head (filter (is_alive [false; true; true]) (o :: bs)) = Some o'.
Proof.
  apply (failover_keeps_data trio [(1, 1)] (bump (set_alive trio [false; true; true]), true) 3);
    [apply trio_wf | reflexivity | vm_compute; lia | vm_compute; lia].
Defined.

(** ** The master *)

Lemma min_by_key_In {A} (key : A -> Z) l x :
  min_by_key key l = Some x -> x ∈ l /\ forall y, y ∈ l -> key x <= key y.
Proof.
  destruct l as [| a l]; [done |]. cbn. intros [= <-]. revert a. induction l as [| b l IH]; intros a; cbn.
  - split; [set_solver |]. intros y Hy%list_elem_of_singleton. subst y. lia.
  - destruct (IH (if key b <? key a then b else a)) as [Hin Hmin]. split.
    + case (Z.ltb_spec (key b) (key a)) in *; set_solver.
    + intros y Hy. pose proof (Hmin (if key b <? key a then b else a) ltac:(set_solver)) as H0.
      apply elem_of_cons in Hy as [-> | [-> | Hy]%elem_of_cons].
      * case (Z.ltb_spec (key b) (key a)) in *; lia.
      * case (Z.ltb_spec (key b) (key a)) in *; lia.
      * apply Hmin. set_solver.
Qed.

Lemma min_by_key_None {A} (key : A -> Z) l : min_by_key key l = None -> l = [].
Proof. by destruct l. Qed.

Lemma filter_ok_spec {A} (f : A -> outcome bool) (P : A -> Prop) `{!forall x, Decision (P x)} l :
  (forall x, x ∈ l -> f x = Ok (bool_decide (P x))) -> filter_ok f l = Ok (filter P l).
Proof.
  induction l as [| x l IH]; intros Hf; [done |]. cbn [filter_ok]. rewrite Hf by set_solver. cbn [mbind outcome_bind].
  rewrite IH by set_solver. rewrite filter_cons. cbn [mbind outcome_bind]. case_bool_decide; case_decide; done.
Qed.

Lemma enumerate_elem {A} (l : list A) i x : (i, x) ∈ enumerate l <-> l !! i = Some x.
Proof.
  unfold enumerate. rewrite list_elem_of_lookup. setoid_rewrite lookup_zip_Some. split.
  - intros (j & Hj & Hx). apply lookup_seq in Hj as [-> _]. done.
  - intros Hx. exists i. rewrite lookup_seq. split; [| done]. split; [done |]. by eapply lookup_lt_Some.
Qed.

Definition member_alive (c : Cluster) (m : MemberInfo) : Prop :=
  exists i, members c !! i = Some m /\ is_alive (alive c) i.

Lemma master_ok c :
  length (alive c) = len c ->
  exists r, master c = Ok r /\
    match r with
    | Some i => exists m, members c !! i = Some m /\ is_alive (alive c) i
                /\ forall m', member_alive c m' -> m_join_id m <= m_join_id m'
    | None => forall i, ~ is_alive (alive c) i
    end.
Proof.
  intros Hl. unfold master.
  rewrite (filter_ok_spec _ (fun im : nat * MemberInfo => is_alive (alive c) im.1)).
  2: { intros [i m] Hi%enumerate_elem. apply lookup_lt_Some in Hi. cbn [fst].
       destruct (lookup_lt_is_Some_2 (alive c) i) as [a Ha]; [unfold len in Hl; lia |].
       unfold index. rewrite Ha. unfold is_alive. destruct a; case_bool_decide; congruence. }
  cbn [mbind outcome_bind]. eexists. split; [done |].
  destruct (min_by_key _ _) as [[i m] |] eqn:E; cbn.
  - apply min_by_key_In in E as [Hin Hmin]. apply list_elem_of_filter in Hin as [Ha Hm%enumerate_elem].
    exists m. split_and!; [done.. |]. intros m' (j & Hj & Hja).
    apply (Hmin (j, m')). apply list_elem_of_filter. split; [done |]. by apply enumerate_elem.
  - apply min_by_key_None in E. intros i Hi. pose proof (lookup_lt_Some _ _ _ Hi) as Hb.
    destruct (lookup_lt_is_Some_2 (members c) i) as [m Hm]; [unfold len in Hl; lia |].
    assert ((i, m) ∈ filter (fun im : nat * MemberInfo => is_alive (alive c) im.1) (enumerate (members c))) as H.
    { apply list_elem_of_filter. split; [done |]. by apply enumerate_elem. }
    rewrite E in H. set_solver.
Qed.

(** ** The partition table *)

Definition listed (t : list (uuid * list Z)) (u : uuid) (p : Z) : Prop := exists ps, (u, ps) ∈ t /\ p ∈ ps.

Lemma table_push_dom t u p : map fst (table_push t u p) = map fst t.
Proof. induction t as [| [v ps] t IH]; [done |]. cbn. case_decide; cbn; congruence. Qed.

Lemma table_push_lookup t u p v ps :
  NoDup (map fst t) -> (v, ps) ∈ table_push t u p ->
  exists qs, (v, qs) ∈ t /\ ps = if decide (v = u) then qs ++ [p] else qs.
Proof.
  induction t as [| [w qs] t IH]; cbn; [set_solver |]. intros [Hw Hn]%NoDup_cons.
  destruct (decide (w = u)) as [E | E]; intros [[= -> ->] | Hin]%elem_of_cons.
  - exists qs. rewrite decide_True by done. set_solver.
  - exists ps. subst w. rewrite decide_False; [set_solver |]. intros ->. apply Hw.
    apply list_elem_of_fmap. by exists (u, ps).
  - exists qs. rewrite decide_False by done. set_solver.
  - destruct (IH Hn Hin) as (q & ? & ?). exists q. set_solver.
Qed.

Lemma owner_uuid_ok c p : wf c -> exists o u, owner c p = Ok o /\ is_alive (alive c) o /\ uuid_at c o = Some u /\ owner_uuid c p = Ok u.
Proof.
  intros Hw. destruct (holders_spec c p Hw) as (o & bs & Ho & _ & E).
  assert (is_alive (alive c) o) as Ha by (apply (holder_ixs_elem c p); rewrite <- E; set_solver).
  destruct (uuid_at_alive c o Hw Ha) as [u Hu]. exists o, u. split_and!; [done.. |].
  unfold owner_uuid, uuid_at, index in *. rewrite Ho. cbn. destruct (members c !! o); [| done]. cbn in *. congruence.
Qed.

(** Every row of a filled table lists, in order, the partitions its member owns. *)
Lemma table_fill_spec c ps : forall t,
  wf c -> NoDup (map fst t) ->
  exists t', table_fill c t ps = Ok t' /\ map fst t' = map fst t
    /\ forall v qs', (v, qs') ∈ t' -> exists qs, (v, qs) ∈ t /\ qs' = qs ++ filter (fun p => owner_uuid c p = Ok v) ps.
Proof.
  induction ps as [| p ps IH]; intros t Hw Hn.
  { exists t. split_and!; [done.. |]. intros v qs Hv. exists qs. rewrite filter_nil, app_nil_r. done. }
  destruct (owner_uuid_ok c p Hw) as (o & u & _ & _ & _ & Hu). cbn [table_fill]. rewrite Hu. cbn [mbind outcome_bind].
  destruct (IH (table_push t u p) Hw) as (t' & E & Hd & Hr); [by rewrite table_push_dom |].
  rewrite table_push_dom in Hd. exists t'. split_and!; [done.. |]. intros v qs' Hv.
  destruct (Hr v qs' Hv) as (qs & Hq & ->). apply table_push_lookup in Hq as (q & Hq & ->); [| done].
  exists q. split; [done |]. rewrite filter_cons. case_decide as E1; case_decide as E2; try congruence.
  by rewrite <- app_assoc.
Qed.

Lemma live_members_elem c m : length (alive c) = len c -> m ∈ live_members c <-> member_alive c m.
Proof.
  intros Hl. unfold live_members. rewrite list_elem_of_fmap. split.
  - intros ([m' a] & -> & [Ha Hz]%list_elem_of_filter). cbn in *. subst a.
    apply list_elem_of_lookup_1 in Hz as [i Hi]. apply lookup_zip_Some in Hi as [? ?]. by exists i.
  - intros (i & Hm & Ha). exists (m, true). split; [done |]. apply list_elem_of_filter. split; [done |].
    apply (list_elem_of_lookup_2 _ i). by apply lookup_zip_Some.
Qed.

Lemma live_uuids_nodup c : wf c -> NoDup (map m_uuid (live_members c)).
Proof.
  intros Hw. unfold live_members. pose proof (wf_uuids c Hw) as Hn. pose proof (wf_len c Hw) as Hl. unfold len in Hl.
  revert Hl Hn. generalize (members c), (alive c). intros ms al. revert al.
  induction ms as [| m ms IH]; intros [| a al] Hl Hn; [constructor | done | done |].
  cbn [zip zip_with]. rewrite filter_cons. apply NoDup_cons in Hn as [Hm Hn]. specialize (IH al ltac:(simpl in Hl; lia) Hn).
  case_decide; [| done]. cbn. apply NoDup_cons. split; [| done]. intros Hin. apply Hm.
  apply list_elem_of_fmap in Hin as (x & -> & Hx). apply list_elem_of_fmap in Hx as ([y b] & -> & Hy).
  apply list_elem_of_filter in Hy as [_ Hy]. apply list_elem_of_fmap. exists y. split; [done |].
  by eapply elem_of_zip_l.
Qed.

(** The partition table a client is given has one row for every live member, and every partition
    is listed exactly once, in the row of the member that owns it. *)
Theorem partition_table_covers c :
  wf c -> exists t,
    partition_table c = Ok t /\ map fst t = map m_uuid (live_members c)
    /\ (forall u ps, (u, ps) ∈ t -> ps = filter (fun p => owner_uuid c p = Ok u) (partitions PARTITION_COUNT))
    /\ forall p, 0 <= p < PARTITION_COUNT -> exists u ps, (u, ps) ∈ t /\ p ∈ ps /\ owner_uuid c p = Ok u.
Proof.
  intros Hw. unfold partition_table.
  destruct (table_fill_spec c (partitions PARTITION_COUNT) (map (fun m => (m_uuid m, [])) (live_members c)) Hw)
    as (t & E & Hd & Hr).
  { rewrite map_map. by apply live_uuids_nodup. }
  rewrite map_map in Hd. cbn [fst] in Hd. exists t.
  assert (forall u ps, (u, ps) ∈ t -> ps = filter (fun p => owner_uuid c p = Ok u) (partitions PARTITION_COUNT)) as Hrow.
  { intros u ps Hup. destruct (Hr u ps Hup) as (qs & Hq & ->). by apply list_elem_of_fmap in Hq as (? & [= -> ->] & _). }
  split_and!; [done.. |]. intros p Hp. destruct (owner_uuid_ok c p Hw) as (o & u & Ho & Ha & Hu & Hou).
  assert (u ∈ map fst t) as Hin.
  { rewrite Hd. unfold uuid_at in Hu. apply fmap_Some in Hu as (m & Hm & ->). apply list_elem_of_fmap.
    exists m. split; [done |]. apply live_members_elem; [apply (wf_len c Hw) |]. by exists o. }
  apply list_elem_of_fmap in Hin as ([u' ps] & -> & Hup). exists u', ps. split_and!; [done | | done].
  rewrite (Hrow u' ps Hup). apply list_elem_of_filter. split; [done |]. apply list_elem_of_fmap.
  exists (Z.to_nat p). split; [lia |]. apply elem_of_seq. lia.
Qed.

Lemma partition_table_covers_witness :
  exists t,
    partition_table trio = Ok t /\ map fst t = map m_uuid (live_members trio)
    /\ (forall u ps, (u, ps) ∈ t -> ps = filter (fun p => owner_uuid trio p = Ok u) (partitions PARTITION_COUNT))
    /\ forall p, 0 <= p < PARTITION_COUNT -> exists u ps, (u, ps) ∈ t /\ p ∈ ps /\ owner_uuid trio p = Ok u.
Proof. apply (partition_table_covers trio). apply trio_wf. Defined.

(** ** Joins *)

Definition jids (c : Cluster) : list Z := map m_join_id (members c).

Lemma max_join_id_ge c j : j ∈ jids c -> j <= max_join_id c.
Proof.
  unfold max_join_id, jids. induction (map m_join_id (members c)) as [| x l IH]; cbn; [set_solver |].
  intros [-> | Hj]%elem_of_cons; [| specialize (IH Hj)]; lia.
Qed.

Lemma index_of_uuid_None c u : index_of_uuid c u = None -> u ∉ map m_uuid (members c).
Proof.
  unfold index_of_uuid. rewrite fmap_None, list_find_None, Forall_forall. intros H (m & -> & Hm)%list_elem_of_fmap.
  by apply (H m).
Qed.

Lemma index_of_join_None c j : index_of_join c j = None -> j ∉ jids c.
Proof.
  unfold index_of_join. rewrite fmap_None, list_find_None, Forall_forall. intros H (m & -> & Hm)%list_elem_of_fmap.
  by apply (H m).
Qed.

Lemma live_count_pos c i : is_alive (alive c) i -> (0 < live_count c)%nat.
Proof.
  intros Ha. unfold live_count.
  assert (true ∈ filter (fun a : bool => a = true) (alive c)) as Ht.
  { apply list_elem_of_filter. split; [done |]. by eapply list_elem_of_lookup_2. }
  destruct (filter _ (alive c)); [set_solver | simpl; lia].
Qed.

(** [c'] is [c] with the member [u] alive in it: nobody else died or moved. *)
Record admitted (c : Cluster) (u : uuid) (c' : Cluster) : Prop := {
  ad_wf : wf c';
  ad_jids : NoDup (jids c');
  ad_alive : forall i, is_alive (alive c) i -> is_alive (alive c') i;
  ad_self : exists i, uuid_at c' i = Some u /\ is_alive (alive c') i;
  ad_uuids : forall i v, uuid_at c i = Some v -> uuid_at c' i = Some v
}.

Lemma revive_admits c u i :
  wf c -> NoDup (jids c) -> uuid_at c i = Some u -> (i < len c)%nat ->
  admitted c u (bump (set_alive c (<[i := true]> (alive c)))).
Proof.
  intros [W1 W2 W3 W4] Hj Hu Hi.
  assert (is_alive (<[i:=true]> (alive c)) i) as Ha.
  { unfold is_alive. apply list_lookup_insert_eq. unfold len in W1, Hi. lia. }
  split; cbn.
  - split; cbn; [by rewrite length_insert | done.. |]. by apply (live_count_pos (set_alive c (<[i:=true]> (alive c))) i).
  - done.
  - intros k Hk. destruct (decide (i = k)) as [<- |]; [done |]. unfold is_alive. by rewrite list_lookup_insert_ne.
  - by exists i.
  - done.
Qed.

(** The join id given to a newcomer is not in use. *)
Lemma fresh_join_id c info :
  max_join_id c < 2 ^ 64 - 1 ->
  m_join_id (if (m_join_id info =? 0) || bool_decide (is_Some (index_of_join c (m_join_id info)))
             then with_join_id info (wrap_u64 (max_join_id c + 1)) else info) ∉ jids c.
Proof.
  intros Hm. destruct ((m_join_id info =? 0) || _) eqn:Ec.
  - cbn. rewrite wrap_u64_small; [intros Hin%max_join_id_ge; lia |].
    unfold is_u64. split; [| lia]. assert (0 <= max_join_id c); [| lia].
    unfold max_join_id. clear. induction (map m_join_id (members c)); cbn; lia.
  - apply orb_false_iff in Ec as [_ Ec]. apply bool_decide_eq_false in Ec. apply index_of_join_None.
    by apply eq_None_not_Some.
Qed.

Lemma append_admits c m :
  wf c -> NoDup (jids c) -> Z.of_nat (len c) < 2 ^ 31 - 1 -> m_uuid m ∉ map m_uuid (members c) -> m_join_id m ∉ jids c ->
  admitted c (m_uuid m)
    (bump (mkCluster (members c ++ [m]) (alive c ++ [true]) (backups c) (quorum c) (generation c)
             (member_list_version c) (partition_list_version c))).
Proof.
  intros [W1 W2 W3 W4] Hj Hs Hu Hf.
  assert (is_alive (alive c ++ [true]) (len c)) as Ha.
  { unfold is_alive. rewrite <- W1. by rewrite list_lookup_middle. }
  split; cbn.
  - split; cbn; unfold len in *; cbn.
    + rewrite !length_app. cbn. lia.
    + rewrite length_app. cbn. lia.
    + rewrite map_app. apply NoDup_app. split_and!; [done | set_solver | apply NoDup_singleton].
    + by apply (live_count_pos (set_alive c (alive c ++ [true])) (len c)).
  - unfold jids. cbn. rewrite map_app. apply NoDup_app. split_and!; [done | set_solver | apply NoDup_singleton].
  - intros i Hi. unfold is_alive. by apply lookup_app_l_Some.
  - exists (len c). split; [| done]. unfold uuid_at, len. cbn. by rewrite list_lookup_middle.
  - intros i u. unfold uuid_at. cbn. rewrite !fmap_Some. intros (x & Hi & ->). exists x. split; [| done].
    by apply lookup_app_l_Some.
Qed.

(** Members that are alive stay so when another one joins or rejoins, and the view stays well-formed:
    uuids and join ids remain unique. *)
Lemma add_member_ok c info :
  wf c -> NoDup (jids c) -> max_join_id c < 2 ^ 64 - 1 -> Z.of_nat (len c) < 2 ^ 31 - 1 ->
  exists c' j, add_member c info = Ok (c', j) /\ admitted c (m_uuid info) c' /\ (j = None -> c' = c).
Proof.
  intros Hw Hj Hm Hs. pose proof (wf_len c Hw) as W1. unfold add_member.
  destruct (index_of_uuid c (m_uuid info)) as [i |] eqn:E.
  - apply index_of_uuid_Some in E as (m & Hi & Hu). pose proof (lookup_lt_Some _ _ _ Hi) as Hb.
    destruct (lookup_lt_is_Some_2 (alive c) i) as [a Ha]; [unfold len in W1; lia |].
    assert (uuid_at c i = Some (m_uuid info)) as Hui by (unfold uuid_at; rewrite Hi; cbn; congruence).
    rewrite (proj2 (index_Ok (alive c) i a) Ha). cbn [mbind outcome_bind]. destruct a.
    { exists c, None. split_and!; [done | | done]. split; eauto. }
    unfold set_index. rewrite decide_True by (unfold len in W1; lia). cbn. unfold index. rewrite Hi. cbn.
    eexists _, _. split_and!; [done | by apply revive_admits | done].
  - apply index_of_uuid_None in E. pose proof (fresh_join_id c info Hm) as Hf.
    match type of Hf with m_join_id ?x ∉ _ => set (info' := x) in * end.
    assert (m_uuid info' = m_uuid info) as Hu by (unfold info'; by case_match).
    eexists _, _. split_and!; [done | | done]. rewrite <- Hu. apply append_admits; congruence || done.
Qed.

(** Quorum.  With the default threshold two disjoint groups of members never both have a quorum. *)
Theorem default_quorum_is_exclusive c left right :
  quorum c = default_quorum (len c) -> length (alive c) = len c ->
  length left = len c -> length right = len c ->
  (forall i, ~ (is_alive left i /\ is_alive right i)) ->
  ~ (has_quorum (set_alive c left) = true /\ has_quorum (set_alive c right) = true).
Proof.
  intros Hq Hl H1 H2 Hd [Q1 Q2]. unfold has_quorum, live_count in *.
  cbn [quorum alive set_alive] in *. apply Nat.leb_le in Q1, Q2. rewrite Hq in Q1, Q2. unfold default_quorum in *.
  rewrite <- filter_seq_alive in Q1, Q2. rewrite H1 in Q1. rewrite H2 in Q2.
  assert (NoDup (filter (is_alive left) (seq 0 (len c)) ++ filter (is_alive right) (seq 0 (len c)))) as Hn.
  { apply NoDup_app. split_and!; [apply NoDup_filter, NoDup_seq | | apply NoDup_filter, NoDup_seq].
    intros i [Hi _]%list_elem_of_filter [Hj _]%list_elem_of_filter. by apply (Hd i). }
  apply (NoDup_submseteq _ (seq 0 (len c))) in Hn as Hs.
  - apply submseteq_length in Hs. rewrite length_app, length_seq in Hs.
    pose proof (Nat.div_mod_eq (len c) 2). pose proof (Nat.mod_upper_bound (len c) 2). lia.
  - intros i [Hi | Hi]%elem_of_app; by apply list_elem_of_filter in Hi as [_ ?].
Qed.

Lemma default_quorum_is_exclusive_witness :
  ~ (has_quorum (set_alive trio [true; true; false]) = true /\ has_quorum (set_alive trio [false; false; true]) = true).
Proof.
  apply (default_quorum_is_exclusive trio [true; true; false] [false; false; true]); try reflexivity.
  intros i [H1 H2]. destruct i as [| [| [| i]]]; cbv in H1, H2; congruence.
Defined.
