(* ===== verification/Migration.v ===== *)
(** * Migration planning (crates/server/src/migration.rs)

    After a change of view every member computes, from the old and the new view alone, which
    partitions it must send and to whom.  The theorem of this file is that these independent plans
    add up: every new holder of a partition is sent it by exactly one member, which held it. *)

From S2P Require Import Prelude Text MemberWire Membership.

Inductive MergePolicy := LatestUpdate | PutIfAbsent.


Definition parse (s : bytes) : MergePolicy :=
  if decide (to_ascii_lowercase s = bstr "putifabsent") then PutIfAbsent else LatestUpdate.

Definition latest_update (p : MergePolicy) : bool := match p with LatestUpdate => true | PutIfAbsent => false end.

(** [members[i].uuid] *)
Definition member_uuid (c : Cluster) (i : nat) : outcome uuid := m ← index (members c) i; Ok (m_uuid m).

Fixpoint member_uuids (c : Cluster) (ixs : list nat) : outcome (list uuid) :=
  match ixs with
  | [] => Ok []
  | i :: r => u ← member_uuid c i; us ← member_uuids c r; Ok (u :: us)
  end.

(** Owner first, then the backups. *)
Definition holder_uuids (c : Cluster) (p : Z) : outcome (list uuid) :=
  o ← owner c p;
  bs ← backups_of c p;
  member_uuids c (o :: bs).

Definition alive_in (c : Cluster) (u : uuid) : bool :=
  existsb (fun ma : MemberInfo * bool => ma.2 && bool_decide (m_uuid ma.1 = u)) (zip (members c) (alive c)).

(** The destinations of one partition: its new holders that did not have it. *)
Fixpoint fresh_holders (new : Cluster) (self : uuid) (old_holders : list uuid) (hs : list nat) : outcome (list nat) :=
  match hs with
  | [] => Ok []
  | h :: r =>
    h_uuid ← member_uuid new h;
    out ← fresh_holders new self old_holders r;
    Ok (if bool_decide (h_uuid <> self) && negb (bool_decide (h_uuid ∈ old_holders)) then h :: out else out)
  end.

(** The body of the loop over the partitions. *)
Definition plan_one (old new : Cluster) (self : uuid) (p : Z) : outcome (list (Z * nat)) :=
  old_holders ← holder_uuids old p;
  match list_find (fun u => alive_in new u = true) old_holders with
  | None => Ok []
  | Some (_, sender) =>
    if negb (bool_decide (sender = self)) then Ok [] else
    o ← owner new p;
    bs ← backups_of new p;
    hs ← fresh_holders new self old_holders (o :: bs);
    Ok (map (pair p) hs)
  end.

Fixpoint plan_all (old new : Cluster) (self : uuid) (ps : list Z) : outcome (list (Z * nat)) :=
  match ps with
  | [] => Ok []
  | p :: r => sends ← plan_one old new self p; out ← plan_all old new self r; Ok (sends ++ out)
  end.

Definition plan (old new : Cluster) (count : Z) (self : uuid) : outcome (list (Z * nat)) :=
  if is_empty old || is_empty new then Ok [] else plan_all old new self (partitions count).

(** ** Facts *)

(** The holders of a partition by uuid. *)
Definition holder_ids (c : Cluster) (p : Z) : list uuid := omap (uuid_at c) (holder_ixs c p).

Lemma member_uuids_ok c ixs : Forall (fun i => is_Some (uuid_at c i)) ixs -> member_uuids c ixs = Ok (omap (uuid_at c) ixs).
Proof.
  induction 1 as [| i ixs [u Hu] _ IH]; [done |]. cbn [member_uuids]. unfold member_uuid, index, uuid_at in *.
  destruct (members c !! i) as [m |] eqn:E; [| done]. cbn. rewrite IH. cbn. by rewrite E.
Qed.

Lemma holder_ixs_uuid c p i : wf c -> i ∈ holder_ixs c p -> is_Some (uuid_at c i).
Proof. intros Hw Hi. apply uuid_at_alive; [done |]. by eapply holder_ixs_elem. Qed.

Lemma holder_uuids_ok c p : wf c -> holder_uuids c p = Ok (holder_ids c p).
Proof.
  intros Hw. destruct (holders_spec c p Hw) as (o & bs & Ho & Hb & E). unfold holder_uuids.
  rewrite Ho. cbn [mbind outcome_bind]. rewrite Hb. cbn [mbind outcome_bind]. rewrite member_uuids_ok; [by rewrite E |].
  apply Forall_forall. rewrite E. intros i. by apply holder_ixs_uuid.
Qed.

Lemma alive_in_true c u : length (alive c) = len c -> alive_in c u = true <-> exists i, uuid_at c i = Some u /\ is_alive (alive c) i.
Proof.
  intros Hl. unfold alive_in. rewrite existsb_exists. split.
  - intros ([m a] & Hin & [Ha Hu]%andb_true_iff). apply list_elem_of_In, list_elem_of_lookup_1 in Hin as [i Hi].
    apply lookup_zip_Some in Hi as [Hm Hi]. cbn in *. apply bool_decide_eq_true in Hu. exists i.
    unfold uuid_at, is_alive. rewrite Hm. cbn. split; congruence.
  - intros (i & Hu & Ha). unfold uuid_at in Hu. apply fmap_Some in Hu as (m & Hm & ->). exists (m, true). split.
    + apply list_elem_of_In, (list_elem_of_lookup_2 _ i). by apply lookup_zip_Some.
    + cbn. by apply bool_decide_eq_true.
Qed.

(** A member that is neither the sender nor an old holder. *)
Definition lacks (c : Cluster) (self : uuid) (old : list uuid) (h : nat) : Prop :=
  match uuid_at c h with Some u => u <> self /\ u ∉ old | None => False end.
#[global] Instance lacks_dec c self old h : Decision (lacks c self old h).
Proof. unfold lacks. destruct (uuid_at c h); apply _. Defined.

Lemma fresh_holders_ok c self old hs :
  Forall (fun i => is_Some (uuid_at c i)) hs -> fresh_holders c self old hs = Ok (filter (lacks c self old) hs).
Proof.
  induction 1 as [| h hs [u Hu] _ IH]; [done |]. cbn [fresh_holders]. rewrite IH, filter_cons.
  assert (member_uuid c h = Ok u) as ->.
  { unfold member_uuid, index, uuid_at in *. destruct (members c !! h); [| done]. cbn in *. congruence. }
  cbn [mbind outcome_bind]. assert (lacks c self old h <-> u <> self /\ u ∉ old) as El by (unfold lacks; by rewrite Hu).
  repeat case_bool_decide; case_decide; cbn; tauto.
Qed.

(** The only member that sends a partition: its first old holder that is alive in the new view. *)
Definition sender (old new : Cluster) (p : Z) : option uuid :=
  snd <$> list_find (fun u => alive_in new u = true) (holder_ids old p).

Lemma plan_one_ok old new self p :
  wf old -> wf new ->
  plan_one old new self p =
  Ok (if decide (sender old new p = Some self)
      then map (pair p) (filter (lacks new self (holder_ids old p)) (holder_ixs new p)) else []).
Proof.
  intros Ho Hn. unfold plan_one, sender. rewrite holder_uuids_ok by done. cbn [mbind outcome_bind].
  destruct (list_find _ _) as [[k s] |]; cbn [fmap option_fmap option_map snd]; [| by case_decide].
  destruct (holders_spec new p Hn) as (o & bs & Eo & Eb & E). rewrite <- E. case_bool_decide as Es; cbn [negb].
  - subst s. rewrite decide_True by done. rewrite Eo. cbn [mbind outcome_bind]. rewrite Eb. cbn [mbind outcome_bind].
    rewrite fresh_holders_ok; [done |]. apply Forall_forall. rewrite E. intros i. by apply holder_ixs_uuid.
  - rewrite decide_False by congruence. done.
Qed.

Lemma plan_all_ok old new self ps :
  wf old -> wf new ->
  exists l, plan_all old new self ps = Ok l /\ (NoDup ps -> NoDup l)
    /\ forall p h, (p, h) ∈ l <-> p ∈ ps /\ sender old new p = Some self
                   /\ h ∈ holder_ixs new p /\ lacks new self (holder_ids old p) h.
Proof.
  intros Ho Hn. induction ps as [| q ps (l & E & Hd & Hl)].
  { exists []. split_and!; [done | constructor | set_solver]. }
  cbn [plan_all]. rewrite plan_one_ok by done. cbn [mbind outcome_bind]. rewrite E. eexists. split; [done |].
  assert (forall p h, (p, h) ∈ (if decide (sender old new q = Some self)
      then map (pair q) (filter (lacks new self (holder_ids old q)) (holder_ixs new q)) else [])
     <-> p = q /\ sender old new p = Some self /\ h ∈ holder_ixs new p /\ lacks new self (holder_ids old p) h) as Hq.
  { intros p h. case_decide as Es; [| set_solver]. rewrite list_elem_of_fmap. split.
    - intros (x & [= -> ->] & [? ?]%list_elem_of_filter). done.
    - intros (-> & _ & Hh & Hk). exists h. split; [done |]. by apply list_elem_of_filter. }
  split; [| intros p h; rewrite elem_of_app, Hq, Hl, elem_of_cons; naive_solver].
  intros [Hnq Hnd]%NoDup_cons. apply NoDup_app. split_and!; [| | by apply Hd].
  - case_decide; [| constructor]. apply NoDup_fmap_2; [intros x y; congruence |]. apply NoDup_filter.
    by apply holder_ixs_nodup.
  - intros [p h] [-> _]%Hq [Hp _]%Hl. done.
Qed.

Lemma wf_not_empty c : wf c -> is_empty c = false.
Proof. intros Hw. unfold is_empty. apply Nat.eqb_neq. pose proof (wf_len_pos c Hw). lia. Qed.

Lemma plan_ok old new count self :
  wf old -> wf new ->
  exists l, plan old new count self = Ok l /\ NoDup l
    /\ forall p h, (p, h) ∈ l <-> 0 <= p < count /\ sender old new p = Some self
                   /\ h ∈ holder_ixs new p /\ lacks new self (holder_ids old p) h.
Proof.
  intros Ho Hn. unfold plan. rewrite !wf_not_empty by done. cbn [orb].
  destruct (plan_all_ok old new self (partitions count) Ho Hn) as (l & E & Hd & Hl). exists l.
  split_and!; [done | |].
  - apply Hd. apply NoDup_fmap_2; [intros x y; lia | apply NoDup_seq].
  - intros p h. rewrite Hl. unfold partitions. rewrite list_elem_of_fmap. split; intros (Hp & Hr); (split; [| done]).
    + destruct Hp as (k & -> & Hk%elem_of_seq). lia.
    + exists (Z.to_nat p). split; [lia |]. apply elem_of_seq. lia.
Qed.

Lemma sender_holds old new p s :
  sender old new p = Some s -> s ∈ holder_ids old p /\ alive_in new s = true.
Proof.
  unfold sender. destruct (list_find _ _) as [[k u] |] eqn:E; [| done]. intros [= <-].
  apply list_find_Some in E as (Hk & Ha & _). split; [by eapply list_elem_of_lookup_2 | done].
Qed.

Lemma sender_exists old new p u :
  u ∈ holder_ids old p -> alive_in new u = true -> is_Some (sender old new p).
Proof.
  intros Hu Ha. unfold sender. destruct (list_find _ _) as [[k v] |] eqn:E; [done |].
  apply list_find_None in E. rewrite Forall_forall in E. by apply E in Hu.
Qed.

(** C18. Migration is complete and never sends twice.  When a member that held a partition is still alive
    in the new view, every new holder of the partition either held it already or is sent it: exactly
    one member has the transfer in its plan, that member held the partition, and has it there once.
    Each member computes its plan from the two views alone. *)
Theorem migration_feeds_every_holder old new count p h :
  wf old -> wf new -> 0 <= p < count ->
  (exists u, u ∈ holder_ids old p /\ alive_in new u = true) ->
  h ∈ holder_ixs new p ->
  (exists u, uuid_at new h = Some u /\ u ∈ holder_ids old p)
  \/ exists s, s ∈ holder_ids old p /\ alive_in new s = true
     /\ forall self, exists l, plan old new count self = Ok l /\ NoDup l /\ ((p, h) ∈ l <-> self = s).
Proof.
  intros Ho Hn Hp (u & Hu & Ha) Hh. destruct (sender_exists old new p u Hu Ha) as [s Hs].
  destruct (sender_holds old new p s Hs) as [Hsh Hsa]. destruct (holder_ixs_uuid new p h Hn Hh) as [v Hv].
  destruct (decide (v ∈ holder_ids old p)) as [Hin | Hin]; [left; eauto | right].
  exists s. split_and!; [done.. |]. intros self. destruct (plan_ok old new count self Ho Hn) as (l & E & Hd & Hl).
  exists l. split_and!; [done.. |]. rewrite Hl. split.
  - intros (_ & Hs' & _). congruence.
  - intros ->. split_and!; [lia.. | done | done |]. unfold lacks. rewrite Hv. split; [| done]. intros ->. done.
Qed.

(** The three members of [trio] and a fourth that joins. *)
Definition quartet : Cluster :=
  bump (mkCluster (members trio ++ [mkInfo (4, 4) [] 5704 7704 4]) [true; true; true; true] 1 2 1 1 1).

Lemma quartet_wf : wf quartet.
Proof. split; [done | done | | vm_compute; lia]. vm_compute. repeat (constructor; [set_solver |]). constructor. Qed.

Lemma migration_feeds_every_holder_witness :
  (exists u, uuid_at quartet 3 = Some u /\ u ∈ holder_ids trio 3)
  \/ exists s, s ∈ holder_ids trio 3 /\ alive_in quartet s = true
     /\ forall self, exists l, plan trio quartet PARTITION_COUNT self = Ok l /\ NoDup l /\ ((3, 3%nat) ∈ l <-> self = s).
Proof.
  apply (migration_feeds_every_holder trio quartet PARTITION_COUNT 3 3);
    [apply trio_wf | apply quartet_wf | vm_compute; split; congruence | | vm_compute; set_solver].
  exists (1, 1). split; [vm_compute; set_solver | reflexivity].
Defined.
