(* ===== verification/Coordinator.v ===== *)
(** * Cluster coordination (crates/server/src/cluster_coordinator.rs)

    Heartbeats, the deadline failure detector, admission of members by the master, and the adoption
    of a master's view.  Every entry point returns the new state, the messages it appends to the
    outbox and the [Change] the member thread reacts to.  A destination is an index in the sender's
    own member list. *)

From S2P Require Import Prelude MemberWire Membership Migration.

Record Change := mkChange { changed : bool; migrations : list (Z * nat) }.
Definition no_change : Change := mkChange false [].

Record Coordinator := mkCoord {
  cluster : Cluster;
  self_uuid : uuid;
  last_seen : gmap Z Z;
  tick : Z;
  hb_interval : Z;
  hb_timeout : Z;
  last_hb_sent : Z;
  pending_join : option MemberInfo;
  joined : bool
}.

Definition new_coordinator (cluster : Cluster) (self : uuid) (hb_interval hb_timeout : Z) : Coordinator :=
  mkCoord cluster self ∅ 0 hb_interval hb_timeout 0 None true.

Definition set_pending_join (k : Coordinator) (info : MemberInfo) : Coordinator :=
  mkCoord (cluster k) (self_uuid k) (last_seen k) (tick k) (hb_interval k) (hb_timeout k) (last_hb_sent k)
    (Some info) false.

Definition with_cluster (k : Coordinator) (c : Cluster) : Coordinator :=
  mkCoord c (self_uuid k) (last_seen k) (tick k) (hb_interval k) (hb_timeout k) (last_hb_sent k) (pending_join k)
    (joined k).

Definition self_join_id (k : Coordinator) : outcome Z :=
  match index_of_uuid (cluster k) (self_uuid k) with
  | None => Ok 0
  | Some i => m ← index (members (cluster k)) i; Ok (m_join_id m)
  end.

(** [(0..len).filter(|&i| alive[i] && members[i].uuid != self_uuid)] *)
Definition alive_peer_indices (k : Coordinator) : outcome (list nat) :=
  filter_ok
    (fun i => a ← index (alive (cluster k)) i;
              if a : bool then (m ← index (members (cluster k)) i; Ok (bool_decide (m_uuid m <> self_uuid k))) else Ok false)
    (seq 0 (len (cluster k))).

Definition rec_of (ma : MemberInfo * bool) : MemberRec :=
  mkRec (m_uuid ma.1) (m_host ma.1) (m_client_port ma.1) (m_member_port ma.1) (m_join_id ma.1) ma.2.

Definition recs (k : Coordinator) : list MemberRec := map rec_of (zip (members (cluster k)) (alive (cluster k))).
Definition view_recs (k : Coordinator) : Z * list MemberRec := (generation (cluster k), recs k).

Definition is_master_self (k : Coordinator) : outcome bool :=
  mi ← master (cluster k);
  match mi with
  | None => Ok false
  | Some i => m ← index (members (cluster k)) i; Ok (bool_decide (m_uuid m = self_uuid k))
  end.

(** Messages for the transport: the index of the destination and the message. *)
Abbreviation outbox := (list (nat * Msg)).

Definition broadcast_view (k : Coordinator) : outcome outbox :=
  peers ← alive_peer_indices k;
  Ok (map (fun i => (i, MemberView (generation (cluster k)) (recs k))) peers).

Definition outgoing (k : Coordinator) (old : Cluster) : outcome (list (Z * nat)) :=
  plan old (cluster k) PARTITION_COUNT (self_uuid k).

Definition on_heartbeat (k : Coordinator) (from_join_id _generation : Z) : Coordinator :=
  mkCoord (cluster k) (self_uuid k) (<[from_join_id := tick k]> (last_seen k)) (tick k) (hb_interval k) (hb_timeout k)
    (last_hb_sent k) (pending_join k) (joined k).

Definition on_join (k : Coordinator) (info : MemberInfo) : outcome (Coordinator * outbox * Change) :=
  im ← is_master_self k;
  if negb im then Ok (k, [], no_change) else
  '(c, added) ← add_member (cluster k) info;
  let k' := with_cluster k c in
  out ← broadcast_view k';
  match added with
  | Some _ => migs ← outgoing k' (cluster k); Ok (k', out, mkChange true migs)
  | None => Ok (k', out, no_change)
  end.

Definition info_of (r : MemberRec) : MemberInfo :=
  mkInfo (r_uuid r) (r_host r) (r_client_port r) (r_member_port r) (r_join_id r).

(** [for m in &members { if m.uuid != self_uuid { last_seen.insert(m.join_id, tick) } }] *)
Definition saw_members (self : uuid) (now : Z) (ms : list MemberInfo) (seen : gmap Z Z) : gmap Z Z :=
  foldl (fun seen m => if decide (m_uuid m = self) then seen else <[m_join_id m := now]> seen) seen ms.

Definition on_view (k : Coordinator) (gen : Z) (ms : list MemberRec) : outcome (Coordinator * Change) :=
  let '(c, adopted) := set_view (cluster k) gen (map info_of ms) (map r_alive ms) in
  if negb adopted then Ok (k, no_change) else
  let present := bool_decide (is_Some (index_of_uuid c (self_uuid k))) in
  let k' := mkCoord c (self_uuid k) (saw_members (self_uuid k) (tick k) (members c) (last_seen k)) (tick k)
              (hb_interval k) (hb_timeout k) (last_hb_sent k)
              (if present then None else pending_join k) (present || joined k) in
  migs ← outgoing k' (cluster k);
  Ok (k', mkChange true migs).

(** The uuid that would be master if [dead] were removed. *)
Definition master_after_removing (k : Coordinator) (dead : list uuid) : option uuid :=
  (fun ma => m_uuid ma.1) <$>
  min_by_key (fun ma : MemberInfo * bool => m_join_id ma.1)
    (filter (fun ma => ma.2 = true /\ m_uuid ma.1 ∉ dead) (zip (members (cluster k)) (alive (cluster k)))).

(** Live members other than this one from which a heartbeat was seen, but none for [hb_timeout]
    ticks. *)
Definition overdue (k : Coordinator) (ma : MemberInfo * bool) : Prop :=
  ma.2 = true /\ m_uuid ma.1 <> self_uuid k
  /\ match last_seen k !! m_join_id ma.1 with
     | Some seen => hb_timeout k < wrap_u64 (tick k - seen)
     | None => False
     end.
#[global] Instance overdue_dec k ma : Decision (overdue k ma).
Proof. unfold overdue. destruct (last_seen k !! m_join_id ma.1); apply _. Defined.

Definition suspects (k : Coordinator) : list uuid :=
  map (fun ma : MemberInfo * bool => m_uuid ma.1) (filter (overdue k) (zip (members (cluster k)) (alive (cluster k)))).

(** The periodic messages: a heartbeat to every live peer, and the request of a member that is not
    admitted yet. *)
Definition heartbeats (k : Coordinator) : outcome outbox :=
  from ← self_join_id k;
  peers ← alive_peer_indices k;
  mi ← (if joined k then Ok None else master (cluster k));
  Ok (map (fun i => (i, Heartbeat from (generation (cluster k)))) peers
      ++ match pending_join k, mi with
         | Some info, Some mi => [(mi, JoinRequest (m_uuid info) (m_host info) (m_client_port info) (m_member_port info))]
         | _, _ => []
         end).

Definition advance (k : Coordinator) (sent : bool) : Coordinator :=
  mkCoord (cluster k) (self_uuid k) (last_seen k) (wrap_u64 (tick k + 1)) (hb_interval k) (hb_timeout k)
    (if sent then wrap_u64 (tick k + 1) else last_hb_sent k) (pending_join k) (joined k).

(** The failure detector of [on_tick]. *)
Definition detect (k : Coordinator) : outcome (Coordinator * outbox * Change) :=
  if tick k <=? hb_timeout k then Ok (k, [], no_change) else
  let dead := suspects k in
  if bool_decide (dead = []) then Ok (k, [], no_change) else
  if negb (bool_decide (master_after_removing k dead = Some (self_uuid k))) then Ok (k, [], no_change) else
  '(c, changed) ← remove_members (cluster k) dead;
  if negb changed then Ok (k, [], no_change) else
  let k' := with_cluster k c in
  out ← broadcast_view k';
  migs ← outgoing k' (cluster k);
  Ok (k', out, mkChange true migs).

Definition on_tick (k : Coordinator) : outcome (Coordinator * outbox * Change) :=
  let due := hb_interval k <=? wrap_u64 (wrap_u64 (tick k + 1) - last_hb_sent k) in
  let k := advance k due in
  hb ← (if due then heartbeats k else Ok []);
  '(k, out, ch) ← detect k;
  Ok (k, hb ++ out, ch).

(** * Properties of the coordinator (crates/server/src/cluster_coordinator.rs)

    No event makes the coordinator panic; the failure detector removes a silent member and never one
    that is heard from in time; the oldest member that is left takes over; two members that removed
    each other stay apart. *)

(** What reaches a coordinator. *)
Inductive event :=
| EHeartbeat (from_join_id gen : Z)
| EJoin (info : MemberInfo)
| EView (gen : Z) (ms : list MemberRec)
| ETick.

Definition handle (k : Coordinator) (e : event) : outcome (Coordinator * outbox * Change) :=
  match e with
  | EHeartbeat j g => Ok (on_heartbeat k j g, [], no_change)
  | EJoin info => on_join k info
  | EView g ms => '(k, ch) ← on_view k g ms; Ok (k, [], ch)
  | ETick => on_tick k
  end.

(** A run: the final state and, in order, everything that was sent. *)
Fixpoint run (k : Coordinator) (es : list event) : outcome (Coordinator * outbox) :=
  match es with
  | [] => Ok (k, [])
  | e :: r => '(k, out, _) ← handle k e; '(k, rest) ← run k r; Ok (k, out ++ rest)
  end.

(** ** No panics *)

(** A view of any content: as many flags as members. *)
Record shape (c : Cluster) : Prop := {
  s_len : length (alive c) = len c;
  s_size : Z.of_nat (len c) < 2 ^ 31
}.

Lemma owner_total c p : shape c -> (0 < len c)%nat -> post (owner c p) (fun o => (o < len c)%nat).
Proof.
  intros [Hl Hs] Hp. unfold owner, home. rewrite wrap_i32_small by (unfold is_i32; lia).
  rewrite (proj2 (Z.eqb_neq _ _)) by lia. cbn [mbind outcome_bind]. set (h := Z.to_nat _).
  assert (h < len c)%nat as Hh by (unfold h; pose proof (Z.mod_pos_bound p (Z.abs (Z.of_nat (len c)))); lia).
  assert (Forall (fun i => i < length (alive c))%nat (full_ring (len c) h)) as Hr.
  { apply Forall_forall. intros i Hi. rewrite Hl. by eapply ring_bound. }
  rewrite first_alive_spec by done. cbn [post]. destruct (filter _ _) as [| i l] eqn:E; [done |]. cbn.
  assert (i ∈ filter (is_alive (alive c)) (full_ring (len c) h)) as [_ Hi]%list_elem_of_filter by (rewrite E; set_solver).
  by eapply ring_bound.
Qed.

Lemma backups_total c p : shape c -> (0 < len c)%nat -> post (backups_of c p) (Forall (fun i => i < len c)%nat).
Proof.
  intros Hs Hp. unfold backups_of. eapply post_bind; [by apply owner_total |]. cbn beta. intros o Ho.
  assert (Forall (fun i => i < length (alive c))%nat (ring (len c) o 1)) as Hr.
  { apply Forall_forall. intros i Hi. rewrite (s_len c Hs). by eapply ring_bound. }
  rewrite collect_alive_spec by done. cbn [post]. apply Forall_take, Forall_forall. intros i [_ Hi]%list_elem_of_filter.
  by eapply ring_bound.
Qed.

Lemma member_uuid_total c i : (i < len c)%nat -> post (member_uuid c i) (fun _ => True).
Proof. intros H. unfold member_uuid. eapply post_bind; [by apply post_index |]. done. Qed.

Lemma member_uuids_total c ixs : Forall (fun i => i < len c)%nat ixs -> post (member_uuids c ixs) (fun _ => True).
Proof.
  induction 1 as [| i ixs Hi _ IH]; [done |]. cbn [member_uuids]. eapply post_bind; [by apply member_uuid_total |].
  intros u _. eapply post_bind; [exact IH |]. done.
Qed.

Lemma fresh_holders_total c s old ixs : Forall (fun i => i < len c)%nat ixs -> post (fresh_holders c s old ixs) (fun _ => True).
Proof.
  induction 1 as [| i ixs Hi _ IH]; [done |]. cbn [fresh_holders]. eapply post_bind; [by apply member_uuid_total |].
  intros u _. eapply post_bind; [exact IH |]. done.
Qed.

Lemma migration_plan_total old new count self : shape old -> shape new -> post (plan old new count self) (fun _ => True).
Proof.
  intros So Sn. unfold plan, is_empty. destruct (Nat.eqb_spec (len old) 0); [done |]. destruct (Nat.eqb_spec (len new) 0); [done |].
  cbn [orb]. induction (partitions count) as [| p ps IH]; [done |]. cbn [plan_all].
  eapply (post_bind _ _ (fun _ => True)); [| intros s _; eapply post_bind; [exact IH | done]].
  unfold plan_one, holder_uuids. eapply (post_bind _ _ (fun _ => True)).
  - eapply post_bind; [apply owner_total; [done | lia] |]. cbn beta. intros o Ho.
    eapply post_bind; [apply backups_total; [done | lia] |]. cbn beta. intros bs Hb. apply member_uuids_total. by constructor.
  - intros old_holders _. destruct (list_find _ _) as [[? s] |]; [| exact I]. destruct (negb _); [exact I |].
    eapply post_bind; [apply owner_total; [done | lia] |]. cbn beta. intros o Ho.
    eapply post_bind; [apply backups_total; [done | lia] |]. cbn beta. intros bs Hb.
    eapply post_bind; [apply fresh_holders_total; by constructor |]. done.
Qed.

Lemma alive_peers_ok k :
  length (alive (cluster k)) = len (cluster k) ->
  alive_peer_indices k = Ok (filter (fun i => is_alive (alive (cluster k)) i /\ uuid_at (cluster k) i <> Some (self_uuid k)) (seq 0 (len (cluster k)))).
Proof.
  intros Hl. unfold alive_peer_indices. apply filter_ok_spec. intros i Hi%elem_of_seq.
  destruct (lookup_lt_is_Some_2 (alive (cluster k)) i) as [a Ha]; [lia |].
  destruct (lookup_lt_is_Some_2 (members (cluster k)) i) as [m Hm]; [unfold len in Hi; lia |].
  rewrite (proj2 (index_Ok _ _ _) Ha), (proj2 (index_Ok _ _ _) Hm). cbn [mbind outcome_bind].
  unfold is_alive, uuid_at. destruct a; [f_equal |].
  - apply bool_decide_ext. rewrite Ha, Hm. cbn. naive_solver congruence.
  - symmetry. f_equal. apply bool_decide_eq_false. rewrite Ha. naive_solver.
Qed.

Lemma flag_total c i : shape c -> (i < len c)%nat -> post (index (alive c) i) (fun _ => True).
Proof. intros Hs Hi. eapply post_mono; [apply post_index; rewrite (s_len c Hs); exact Hi | done]. Qed.

Lemma set_flag_total c i b :
  shape c -> (i < len c)%nat ->
  post (al ← set_index (alive c) i b; Ok (bump (set_alive c al))) (fun c' => shape c' /\ members c' = members c).
Proof.
  intros [Hl Hs] Hi. unfold set_index. rewrite decide_True by lia. cbn. split; [split; cbn | done].
  - by rewrite length_insert.
  - done.
Qed.

Lemma index_of_uuid_lt c u i : index_of_uuid c u = Some i -> (i < len c)%nat.
Proof. intros (m & Hm & _)%index_of_uuid_Some. by eapply lookup_lt_Some. Qed.

Lemma remove_total c u : shape c -> post (remove_member_by_uuid c u) (fun cb => shape cb.1 /\ members cb.1 = members c).
Proof.
  intros Hs. unfold remove_member_by_uuid. destruct (index_of_uuid c u) as [i |] eqn:E; [| done].
  apply index_of_uuid_lt in E. eapply post_bind; [by apply flag_total |]. intros [] _; [| done].
  unfold set_index. destruct Hs as [Hl Hs]. rewrite decide_True by lia. cbn. split; [| done]. split; cbn; [| done].
  by rewrite length_insert.
Qed.

Lemma remove_members_total c us : shape c -> post (remove_members c us) (fun cb => shape cb.1 /\ members cb.1 = members c).
Proof.
  revert c. induction us as [| u us IH]; intros c Hs; [done |]. cbn [remove_members].
  eapply post_bind; [by apply remove_total |]. intros [c1 b1] [H1 E1]. cbn [fst] in *.
  eapply post_bind; [by apply IH |]. intros [c2 b2] [H2 E2]. cbn in *. split; [done | congruence].
Qed.

Lemma add_member_total c info :
  shape c -> Z.of_nat (len c) < 2 ^ 31 - 1 -> post (add_member c info) (fun cj => shape cj.1 /\ (len cj.1 <= S (len c))%nat).
Proof.
  intros Hs Hb. unfold add_member. destruct (index_of_uuid c (m_uuid info)) as [i |] eqn:E.
  - apply index_of_uuid_lt in E. eapply post_bind; [by apply flag_total |]. intros [] _; [cbn; split; [done | lia] |].
    destruct Hs as [Hl Hs]. unfold set_index. rewrite decide_True by lia. cbn [mbind outcome_bind].
    eapply post_bind; [by apply post_index |]. intros m _. cbn. unfold len in *. cbn. split; [| lia].
    split; unfold len; cbn; [by rewrite length_insert | done].
  - cbn [post fst]. destruct Hs as [Hl Hs]. unfold len in *. cbn. rewrite length_app. cbn. split; [| lia].
    split; unfold len; cbn; rewrite !length_app; cbn; lia.
Qed.

Lemma master_total c : shape c -> post (master c) (fun r => match r with Some i => i < len c | None => True end)%nat.
Proof.
  intros Hs. destruct (master_ok c (s_len c Hs)) as (r & -> & Hr). cbn. destruct r as [i |]; [| done].
  destruct Hr as (m & Hm & _). by eapply lookup_lt_Some.
Qed.

Lemma broadcast_total k : shape (cluster k) -> post (broadcast_view k) (fun _ => True).
Proof. intros Hs. unfold broadcast_view. rewrite alive_peers_ok by apply (s_len _ Hs). done. Qed.

Lemma heartbeats_total k : shape (cluster k) -> post (heartbeats k) (fun _ => True).
Proof.
  intros Hs. unfold heartbeats, self_join_id. eapply (post_bind _ _ (fun _ => True)).
  - destruct (index_of_uuid _ _) as [i |] eqn:E; [| exact I]. apply index_of_uuid_lt in E.
    eapply post_bind; [by apply post_index |]. intros. exact I.
  - intros from _. rewrite alive_peers_ok by apply (s_len _ Hs). cbn [mbind outcome_bind].
    eapply (post_bind _ _ (fun _ => True)); [| intros; exact I]. destruct (joined k); [exact I |].
    eapply post_mono; [by apply master_total | done].
Qed.

Lemma detect_total k : shape (cluster k) -> post (detect k) (fun r => shape (cluster r.1.1) /\ len (cluster r.1.1) = len (cluster k)).
Proof.
  intros Hs. unfold detect. destruct (_ <=? _); [done |]. case_bool_decide; [done |]. case_bool_decide; [| done].
  cbn [negb]. eapply post_bind; [by apply remove_members_total |]. intros [c b] [Hc Em]. cbn [fst] in *. destruct b; [| done].
  cbn [negb]. eapply post_bind; [by apply broadcast_total |]. intros out _.
  eapply post_bind; [by apply migration_plan_total |]. intros migs _. cbn. unfold len. by rewrite Em.
Qed.

(** How many members the view can have after an event. *)
Definition event_size (k : Coordinator) (e : event) : Z :=
  match e with
  | EJoin _ => Z.of_nat (len (cluster k)) + 1
  | EView _ ms => blen ms
  | _ => Z.of_nat (len (cluster k))
  end.

Lemma handle_total k e :
  shape (cluster k) -> event_size k e < 2 ^ 31 ->
  post (handle k e) (fun r => shape (cluster r.1.1)
    /\ Z.of_nat (len (cluster r.1.1)) <= Z.max (Z.of_nat (len (cluster k))) (event_size k e)).
Proof.
  intros Hs He. destruct e as [j g | info | g ms |]; cbn [handle event_size] in *.
  - cbn. split; [done | lia].
  - unfold on_join. eapply (post_bind _ _ (fun _ => True)).
    { unfold is_master_self. eapply post_bind; [by apply master_total |]. intros [i |] Hi; [| exact I].
      eapply post_bind; [by apply post_index |]. intros. exact I. }
    intros [] _; cbn [negb]; [| cbn; split; [done | lia]].
    eapply post_bind; [apply add_member_total; [done | lia] |]. intros [c j] [Hc Hl]. cbn [fst] in *.
    eapply post_bind; [by apply broadcast_total |]. intros out _. destruct j; [| cbn; split; [done | lia]].
    eapply post_bind; [by apply migration_plan_total |]. intros migs _. cbn. split; [done | lia].
  - unfold on_view, set_view. destruct (g <=? generation (cluster k)); cbn [negb mbind outcome_bind]; [cbn; split; [done | lia] |].
    set (c := mkCluster _ _ _ _ _ _ _).
    assert (shape c) as Hc by (split; unfold len, c; cbn; rewrite !length_map; [done | exact He]).
    eapply (post_bind _ _ (fun r => shape (cluster r.1) /\ Z.of_nat (len (cluster r.1)) <= Z.max (Z.of_nat (len (cluster k))) (blen ms)));
      [| intros [k' ch] Hk; exact Hk].
    eapply post_bind; [by apply migration_plan_total |]. intros migs _. cbn. split; [done |]. unfold len. cbn. rewrite length_map. unfold blen. lia.
  - unfold on_tick. eapply (post_bind _ _ (fun _ => True)).
    { destruct (_ <=? _); [| exact I]. by apply heartbeats_total. }
    intros hb _. eapply post_bind; [apply detect_total; cbn; exact Hs |]. intros [[k' out] ch] [H1 H2]. cbn in *.
    split; [done | lia].
Qed.

Lemma run_total N es k :
  shape (cluster k) -> Z.of_nat (len (cluster k)) <= N -> N + blen es < 2 ^ 31 ->
  Forall (fun e => match e with EView _ ms => blen ms <= N | _ => True end) es ->
  post (run k es) (fun _ => True).
Proof.
  revert k N. induction es as [| e es IH]; intros k N Hs Hl Hb Hv; [exact I |]. cbn [run].
  rewrite blen_cons in Hb. apply Forall_cons in Hv as [He Hv]. pose proof (blen_nonneg es).
  assert (event_size k e <= N + 1) as Hsz by (destruct e; cbn; lia).
  eapply post_bind; [apply handle_total; [done | lia] |]. intros [[k' out] ch] [Hs' Hl']. cbn [fst] in *.
  eapply post_bind; [apply (IH k' (N + 1)); [done | lia | lia |] | intros [k2 rest] _; exact I].
  eapply Forall_impl; [exact Hv |]. intros [] ?; lia || done.
Qed.

(** The coordinator never panics: whatever sequence of heartbeats, join requests, views and clock ticks
    reaches it, and whatever these contain, every handler returns. *)
Theorem coordinator_never_panics N es k :
  shape (cluster k) -> Z.of_nat (len (cluster k)) <= N -> N + blen es < 2 ^ 31 ->
  Forall (fun e => match e with EView _ ms => blen ms <= N | _ => True end) es ->
  exists r, run k es = Ok r.
Proof. intros. destruct (proj1 (post_Ok _ _) (run_total N es k ltac:(done) ltac:(done) ltac:(done) ltac:(done))) as (r & Hr & _). eauto. Qed.

Lemma coordinator_never_panics_witness :
  exists r, run (new_coordinator trio (2, 2) 1 3)
    [EHeartbeat 1 1; ETick; EView 5 []; EJoin (mkInfo (9, 9) [] 1 1 0); EView 6 [mkRec (7, 7) [] 1 1 4 false]; ETick; ETick; ETick; ETick] = Ok r.
Proof.
  apply (coordinator_never_panics 3); [by split | vm_compute; congruence | vm_compute; reflexivity |].
  repeat constructor; vm_compute; congruence.
Defined.

(** ** The failure detector *)

(** A view in which every uuid names one member. *)
Record named (c : Cluster) : Prop := {
  n_shape : shape c;
  n_uuids : NoDup (map m_uuid (members c))
}.

Lemma suspects_elem k u :
  u ∈ suspects k <-> exists i m, members (cluster k) !! i = Some m /\ is_alive (alive (cluster k)) i
                     /\ overdue k (m, true) /\ m_uuid m = u.
Proof.
  unfold suspects. rewrite list_elem_of_fmap. split.
  - intros ([m a] & -> & [Ho Hz]%list_elem_of_filter). apply list_elem_of_lookup_1 in Hz as [i Hi].
    apply lookup_zip_Some in Hi as [Hm Ha]. destruct Ho as (E & Ho). cbn in E. subst a. by exists i, m.
  - intros (i & m & Hm & Ha & Ho & <-). exists (m, true). split; [done |]. apply list_elem_of_filter. split; [done |].
    apply (list_elem_of_lookup_2 _ i). by apply lookup_zip_Some.
Qed.

(** What the detector leaves as it was. *)
Record same_clock (k k' : Coordinator) : Prop := {
  sc_self : self_uuid k' = self_uuid k;
  sc_seen : last_seen k' = last_seen k;
  sc_tick : tick k' = tick k;
  sc_timeout : hb_timeout k' = hb_timeout k
}.

(** Only suspects are removed. *)
Lemma detect_keeps k k' out ch :
  named (cluster k) -> detect k = Ok (k', out, ch) ->
  same_clock k k' /\ shrinks (cluster k) (cluster k')
  /\ forall i u, is_alive (alive (cluster k)) i -> uuid_at (cluster k) i = Some u -> u ∉ suspects k ->
     is_alive (alive (cluster k')) i.
Proof.
  intros [Hs Hn]. assert (same_clock k k /\ shrinks (cluster k) (cluster k)) as Hid by (split; [by split | apply shrinks_refl]).
  unfold detect. destruct (_ <=? _); [intros [= <- _ _]; naive_solver |].
  case_bool_decide; [intros [= <- _ _]; naive_solver |]. case_bool_decide; cbn [negb]; [| intros [= <- _ _]; naive_solver].
  destruct (remove_members_ok (cluster k) (suspects k) (s_len _ Hs) Hn) as (c & b & E & Sh & A). rewrite E.
  cbn [mbind outcome_bind]. destruct b; cbn [negb]; [| intros [= <- _ _]; naive_solver].
  intros Hd. inv_ok. split_and!; [by split | done | done].
Qed.

(** Whether the tick that is about to be counted sends heartbeats. *)
Definition hb_due (k : Coordinator) : bool := hb_interval k <=? wrap_u64 (wrap_u64 (tick k + 1) - last_hb_sent k).

Lemma on_tick_detect k k' out ch :
  on_tick k = Ok (k', out, ch) -> exists rest, detect (advance k (hb_due k)) = Ok (k', rest, ch) /\ exists hb, out = hb ++ rest.
Proof.
  unfold on_tick. fold (hb_due k). intros H. inv_ok. eauto.
Qed.

(** Events that never leave [j] unheard for more than [T] ticks, when it was last heard [q] ticks
    ago. *)
Fixpoint heard_within (j T q : Z) (es : list event) : Prop :=
  match es with
  | [] => True
  | EHeartbeat j' _ :: r => heard_within j T (if j' =? j then 0 else q) r
  | ETick :: r => q + 1 <= T /\ heard_within j T (q + 1) r
  | EJoin _ :: r => heard_within j T q r
  | EView _ _ :: _ => False
  end.

Lemma add_member_keeps c info c' j :
  named c -> Z.of_nat (len c) < 2 ^ 31 - 1 -> add_member c info = Ok (c', j) ->
  named c' /\ (forall i m, members c !! i = Some m -> members c' !! i = Some m)
  /\ (forall i, is_alive (alive c) i -> is_alive (alive c') i) /\ (len c' <= S (len c))%nat.
Proof.
  intros [Hs Hn] Hb E. pose proof (add_member_total c info Hs Hb) as Ht. rewrite E in Ht. cbn in Ht. destruct Ht as [Hs' Hl'].
  revert E. unfold add_member. destruct (index_of_uuid c (m_uuid info)) as [x |] eqn:Ex.
  - intros E. inv_ok. destruct x0; inv_ok; [done |]. split_and!; [by split | done | | lia].
    intros i Hi. unfold is_alive in *. destruct (decide (x = i)) as [<- |]; [by apply list_lookup_insert_eq | by rewrite list_lookup_insert_ne].
  - apply index_of_uuid_None in Ex. intros [= <- _]. split_and!; [split; [done |] | | | lia].
    + cbn. rewrite map_app. apply NoDup_app. split_and!; [done | | apply NoDup_singleton].
      intros u Hu [= ->]%list_elem_of_singleton. by case_match.
    + intros i m Hi. cbn. by apply lookup_app_l_Some.
    + intros i Hi. cbn. unfold is_alive. by apply lookup_app_l_Some.
Qed.

Lemma on_join_keeps k info k' out ch :
  named (cluster k) -> Z.of_nat (len (cluster k)) < 2 ^ 31 - 1 -> on_join k info = Ok (k', out, ch) ->
  same_clock k k' /\ named (cluster k') /\ (len (cluster k') <= S (len (cluster k)))%nat
  /\ (forall i m, members (cluster k) !! i = Some m -> members (cluster k') !! i = Some m)
  /\ (forall i, is_alive (alive (cluster k)) i -> is_alive (alive (cluster k')) i).
Proof.
  intros Hn Hb. unfold on_join. intros H. inv_ok. destruct x; cbn [negb] in *; [| inv_ok; split_and!; [by split | done | lia | done | done]].
  inv_ok. destruct (add_member_keeps _ _ _ _ Hn Hb E0) as (? & ? & ? & ?).
  destruct o; inv_ok; split_and!; try done; by split.
Qed.

(** The state of the watch over the member at index [i]: it was heard [q] ticks ago or less. *)
Record watched (k : Coordinator) (i : nat) (m : MemberInfo) (q : Z) : Prop := {
  w_named : named (cluster k);
  w_tick : 0 <= tick k;
  w_member : members (cluster k) !! i = Some m;
  w_alive : is_alive (alive (cluster k)) i;
  w_seen : forall s, last_seen k !! m_join_id m = Some s -> 0 <= s <= tick k /\ tick k - s <= q
}.

Lemma named_shrinks c c' : named c -> shrinks c c' -> named c'.
Proof. intros [[H1 H2] H3] [S1 S2 S3 S4]. split; [split |]; unfold len in *; by rewrite ?S3, ?S1. Qed.

Lemma watched_tick k i m q k' out ch :
  watched k i m q -> q + 1 <= hb_timeout k -> tick k + 1 < 2 ^ 64 -> on_tick k = Ok (k', out, ch) ->
  watched k' i m (q + 1) /\ tick k' = tick k + 1 /\ hb_timeout k' = hb_timeout k /\ len (cluster k') = len (cluster k).
Proof.
  intros [Wn Wt Wm Wa Ws] Hq Hb (rest & Hd & _)%on_tick_detect.
  assert (tick (advance k (hb_due k)) = tick k + 1) as Ht by (cbn; apply wrap_u64_small; unfold is_u64; lia).
  apply detect_keeps in Hd as ([C1 C2 C3 C4] & Sh & A); [| done]. cbn in C2, C4. rewrite Ht in C3.
  split_and!; [| done | done | unfold len; by rewrite (sh_members _ _ Sh)].
  split; [by eapply named_shrinks; [| exact Sh] | lia | by rewrite (sh_members _ _ Sh) | | rewrite C2; intros s Hs; specialize (Ws s Hs); lia].
  apply (A i (m_uuid m)); [done | unfold uuid_at; cbn; by rewrite Wm |].
  intros (x & m' & Hm' & _ & (_ & _ & Ho) & Hu)%suspects_elem. cbn [fst] in Ho.
  assert (x = i) as ->.
  { apply (uuid_at_inj (cluster k) x i (m_uuid m)); [apply (n_uuids _ Wn) | |]; unfold uuid_at; cbn in Hm'; [rewrite Hm' | by rewrite Wm].
    cbn. congruence. }
  cbn in Hm'. assert (m' = m) as -> by congruence. rewrite Ht in Ho. cbn in Ho.
  destruct (last_seen k !! m_join_id m) as [s |] eqn:Es; [| done]. specialize (Ws s eq_refl).
  rewrite wrap_u64_small in Ho by (unfold is_u64; lia). lia.
Qed.

Lemma heard_stays_alive es : forall k i m q k' out,
  watched k i m q -> heard_within (m_join_id m) (hb_timeout k) q es -> 0 <= q ->
  tick k + blen es < 2 ^ 64 -> Z.of_nat (len (cluster k)) + blen es < 2 ^ 31 -> run k es = Ok (k', out) ->
  members (cluster k') !! i = Some m /\ is_alive (alive (cluster k')) i.
Proof.
  induction es as [| e es IH]; intros k i m q k' out W Hh Hq Ht Hl Hr.
  { cbn in Hr. inv_ok. split; [apply (w_member _ _ _ _ W) | apply (w_alive _ _ _ _ W)]. }
  rewrite blen_cons in Ht, Hl. pose proof (blen_nonneg es). cbn [run] in Hr. destruct e as [j g | info | g ms |]; cbn [heard_within] in Hh.
  - cbn [handle mbind outcome_bind] in Hr. inv_ok. destruct W as [Wn Wt Wm Wa Ws].
    eapply (IH (on_heartbeat k j g) i m (if j =? m_join_id m then 0 else q)); [split; cbn; try done | exact Hh | by case_match | cbn; lia.. | exact E].
    intros s. case (Z.eqb_spec j (m_join_id m)) as [-> | Hne]; [rewrite lookup_insert_eq; intros [= <-]; lia |].
    rewrite lookup_insert_ne by done. apply Ws.
  - inv_ok. destruct W as [Wn Wt Wm Wa Ws]. destruct (on_join_keeps _ _ _ _ _ Wn ltac:(lia) E) as ([C1 C2 C3 C4] & N & L & M & A).
    eapply (IH c0 i m q); [split; auto; [lia | rewrite C2, C3; exact Ws] | by rewrite C4 | done | lia | lia | exact E0].
  - done.
  - destruct Hh as [Hq1 Hh]. inv_ok. destruct (watched_tick _ _ _ _ _ _ _ W Hq1 ltac:(lia) E) as (W' & T & C4 & L).
    eapply (IH c0 i m (q + 1)); [exact W' | by rewrite C4 | lia | lia | rewrite L; lia | exact E0].
Qed.

(** C21. The failure detector is accurate: a live member of which a heartbeat arrives at least every
    [hb_timeout] ticks is never declared dead by this member, whatever joins and whatever else is
    heard or not heard meanwhile. *)
Theorem heartbeating_member_stays es k i m q k' out :
  watched k i m q -> heard_within (m_join_id m) (hb_timeout k) q es -> 0 <= q ->
  tick k + blen es < 2 ^ 64 -> Z.of_nat (len (cluster k)) + blen es < 2 ^ 31 -> run k es = Ok (k', out) ->
  members (cluster k') !! i = Some m /\ is_alive (alive (cluster k')) i.
Proof. apply heard_stays_alive. Qed.

Lemma trio_named : named trio.
Proof. split; [by split | apply (wf_uuids _ trio_wf)]. Qed.

(** Member 2 is heard every other tick; member 3 goes silent after its first heartbeat and is
    removed. *)
Definition sample_events : list event :=
  [EHeartbeat 2 1; EHeartbeat 3 1; ETick; ETick; EHeartbeat 2 1; EJoin (mkInfo (4, 4) [] 5704 7704 0); ETick; EHeartbeat 2 1; ETick].

Lemma heartbeating_member_stays_witness :
  match run (new_coordinator trio (1, 1) 1 2) sample_events with
  | Ok (k', out) => members (cluster k') !! 1%nat = Some (mkInfo (2, 2) [] 5702 7702 2) /\ is_alive (alive (cluster k')) 1
  | Panic => False
  end.
Proof.
  destruct (run (new_coordinator trio (1, 1) 1 2) sample_events) as [[k' out] |] eqn:E; [| vm_compute in E; discriminate].
  apply (heartbeating_member_stays sample_events (new_coordinator trio (1, 1) 1 2) 1 (mkInfo (2, 2) [] 5702 7702 2) 0 k' out);
    [| repeat split; vm_compute; congruence | lia | vm_compute; reflexivity | vm_compute; reflexivity | exact E].
  split; [apply trio_named | cbn; lia | reflexivity | reflexivity | intros s Hs; cbn in Hs; by rewrite lookup_empty in Hs].
Defined.

(** ** Taking over *)

(** The member of this coordinator, alive in its own view, at index [i]. *)
Record present (k : Coordinator) (i : nat) (me : MemberInfo) : Prop := {
  p_named : named (cluster k);
  p_jids : NoDup (jids (cluster k));
  p_me : members (cluster k) !! i = Some me;
  p_uuid : m_uuid me = self_uuid k;
  p_alive : is_alive (alive (cluster k)) i
}.

Lemma same_join_same_member c i j m m' :
  NoDup (jids c) -> members c !! i = Some m -> members c !! j = Some m' -> m_join_id m = m_join_id m' -> m = m'.
Proof.
  intros Hn Hi Hj E. assert (i = j) as <-; [| congruence].
  apply (NoDup_lookup (jids c) i j (m_join_id m)); [done | |]; unfold jids; rewrite list_lookup_fmap; [rewrite Hi | rewrite Hj]; cbn; congruence.
Qed.

(** Every live member that joined before this one is overdue. *)
Definition seniors_silent (k : Coordinator) (me : MemberInfo) : Prop :=
  forall j m, members (cluster k) !! j = Some m -> is_alive (alive (cluster k)) j -> m_join_id m < m_join_id me -> overdue k (m, true).

Lemma self_not_suspect k i me : present k i me -> self_uuid k ∉ suspects k.
Proof. intros P (j & m & _ & _ & (_ & Hne & _) & Hu)%suspects_elem. done. Qed.

Lemma senior_is_next_master k i me :
  present k i me -> seniors_silent k me -> master_after_removing k (suspects k) = Some (self_uuid k).
Proof.
  intros P Hsen. unfold master_after_removing.
  assert ((me, true) ∈ filter (fun ma : MemberInfo * bool => ma.2 = true /\ m_uuid ma.1 ∉ suspects k)
                         (zip (members (cluster k)) (alive (cluster k)))) as Hme.
  { apply list_elem_of_filter. split; [split; [done | cbn; rewrite (p_uuid _ _ _ P); by eapply self_not_suspect] |].
    apply (list_elem_of_lookup_2 _ i). apply lookup_zip_Some. split; [apply (p_me _ _ _ P) | apply (p_alive _ _ _ P)]. }
  destruct (min_by_key _ _) as [[m a] |] eqn:E.
  2: { apply min_by_key_None in E. rewrite E in Hme. set_solver. }
  apply min_by_key_In in E as [Hin Hmin]. specialize (Hmin _ Hme). cbn [fst] in Hmin. cbn. f_equal.
  apply list_elem_of_filter in Hin as [[Ha Hns] Hz]. cbn in Ha, Hns. subst a.
  apply list_elem_of_lookup_1 in Hz as [j Hj]. apply lookup_zip_Some in Hj as [Hj Hja].
  destruct (decide (m_join_id m < m_join_id me)) as [Hlt | Hge].
  - exfalso. apply Hns, suspects_elem. exists j, m. split_and!; [done.. | | done]. by apply (Hsen j m).
  - rewrite <- (p_uuid _ _ _ P). f_equal.
    eapply (same_join_same_member (cluster k) j i); [apply (p_jids _ _ _ P) | done | apply (p_me _ _ _ P) | lia].
Qed.

Lemma oldest_is_master k i me :
  present k i me ->
  (forall j m, members (cluster k) !! j = Some m -> is_alive (alive (cluster k)) j -> m_join_id me <= m_join_id m) ->
  is_master_self k = Ok true.
Proof.
  intros P Hold. unfold is_master_self. destruct (master_ok (cluster k) (s_len _ (n_shape _ (p_named _ _ _ P)))) as (r & -> & Hr).
  cbn [mbind outcome_bind]. destruct r as [j |].
  - destruct Hr as (m & Hm & Ha & Hmin). rewrite (proj2 (index_Ok _ _ _) Hm). cbn. f_equal. apply bool_decide_eq_true.
    rewrite <- (p_uuid _ _ _ P). f_equal.
    eapply (same_join_same_member (cluster k) j i); [apply (p_jids _ _ _ P) | done | apply (p_me _ _ _ P) |].
    specialize (Hold j m Hm Ha). specialize (Hmin me). assert (m_join_id m <= m_join_id me); [| lia].
    apply Hmin. exists i. split; [apply (p_me _ _ _ P) | apply (p_alive _ _ _ P)].
  - exfalso. apply (Hr i). apply (p_alive _ _ _ P).
Qed.

(** The detector, when every senior member is overdue: exactly the overdue members die, and this one
    is master of what is left. *)
Lemma detect_takes_over k i me :
  present k i me -> hb_timeout k < tick k -> seniors_silent k me -> suspects k <> [] ->
  exists k' out ch, detect k = Ok (k', out, ch) /\ changed ch = true /\ same_clock k k' /\ present k' i me
    /\ shrinks (cluster k) (cluster k')
    /\ (forall j m, members (cluster k) !! j = Some m ->
         is_alive (alive (cluster k')) j <-> is_alive (alive (cluster k)) j /\ ~ overdue k (m, true))
    /\ is_master_self k' = Ok true
    /\ broadcast_view k' = Ok out.
Proof.
  intros P Ht Hsen Hne. pose proof P as [N J Pm Pu Pa]. destruct N as [Hs Hn].
  unfold detect. rewrite (proj2 (Z.leb_gt _ _)) by done. rewrite bool_decide_eq_false_2 by done.
  rewrite (senior_is_next_master k i me P Hsen), bool_decide_eq_true_2 by done. cbn [negb].
  destruct (remove_members_ok (cluster k) (suspects k) (s_len _ Hs) Hn) as (c & b & E & Sh & A). rewrite E. cbn [mbind outcome_bind].
  assert (forall j m, members (cluster k) !! j = Some m ->
            is_alive (alive c) j <-> is_alive (alive (cluster k)) j /\ ~ overdue k (m, true)) as Hal.
  { intros j m Hm. assert (uuid_at (cluster k) j = Some (m_uuid m)) as Hu by (unfold uuid_at; by rewrite Hm). split.
    - intros Ha. pose proof (sh_alive _ _ Sh j Ha) as Ha'. split; [done |]. intros Ho.
      assert (m_uuid m ∈ suspects k) as Hin by (apply suspects_elem; by exists j, m).
      by destruct (remove_members_dead (cluster k) (suspects k) j _ c b (s_len _ Hs) Hn Hu Hin E) as [? _].
    - intros [Ha Ho]. apply (A j (m_uuid m)); [done.. |]. intros (x & m' & Hx & _ & Ho' & Eu)%suspects_elem.
      assert (x = j) as ->; [| congruence]. apply (uuid_at_inj (cluster k) x j (m_uuid m)); [done | | done].
      unfold uuid_at. rewrite Hx. cbn. congruence. }
  assert (b = true) as ->.
  { destruct (suspects k) as [| u us] eqn:Es; [done |]. assert (u ∈ suspects k) as Hin by (rewrite Es; set_solver).
    apply suspects_elem in Hin as (x & m & Hx & Hxa & _ & Eu).
    eapply (remove_members_dead (cluster k) (u :: us) x u c b); [apply (s_len _ Hs) | done | | set_solver | done | done].
    unfold uuid_at. rewrite Hx. cbn. congruence. }
  cbn [negb]. set (k' := with_cluster k c).
  assert (present k' i me) as P'.
  { split; cbn; [by eapply named_shrinks; [split | exact Sh] | unfold jids; by rewrite (sh_members _ _ Sh)
                | by rewrite (sh_members _ _ Sh) | done |].
    apply (Hal i me); [done |]. split; [done |]. intros (_ & Hne' & _). done. }
  destruct (proj1 (post_Ok _ _) (broadcast_total k' (n_shape _ (p_named _ _ _ P')))) as (out & Eo & _).
  destruct (proj1 (post_Ok _ _) (migration_plan_total (cluster k) c PARTITION_COUNT (self_uuid k) Hs (n_shape _ (p_named _ _ _ P'))))
    as (migs & Em & _).
  rewrite Eo. cbn [mbind outcome_bind]. unfold outgoing. cbn [cluster self_uuid k' with_cluster]. rewrite Em. cbn [mbind outcome_bind].
  eexists _, _, _. split_and!; [done | done | by split | done | done | done | | done].
  apply (oldest_is_master k' i me P'). intros j m Hm Ha. cbn in Hm, Ha. rewrite (sh_members _ _ Sh) in Hm.
  apply (Hal j m Hm) in Ha as [Ha Ho]. destruct (decide (m_join_id me <= m_join_id m)); [done |].
  exfalso. apply Ho, (Hsen j m); [done | done | lia].
Qed.

Lemma on_tick_takes_over k i me :
  present k i me -> 0 <= tick k -> hb_timeout k < tick k + 1 < 2 ^ 64 ->
  seniors_silent (advance k (hb_due k)) me -> suspects (advance k (hb_due k)) <> [] ->
  exists k' hb view ch, on_tick k = Ok (k', hb ++ view, ch) /\ changed ch = true
    /\ same_clock (advance k (hb_due k)) k' /\ present k' i me /\ shrinks (cluster k) (cluster k')
    /\ (forall j m, members (cluster k) !! j = Some m ->
         is_alive (alive (cluster k')) j <-> is_alive (alive (cluster k)) j /\ ~ overdue (advance k (hb_due k)) (m, true))
    /\ is_master_self k' = Ok true /\ broadcast_view k' = Ok view.
Proof.
  intros P H0 Ht Hs Hne. destruct (detect_takes_over (advance k (hb_due k)) i me) as (k' & out & ch & E & H); [| | done | done |].
  { destruct P. by split. }
  { cbn. rewrite wrap_u64_small; [lia | unfold is_u64; lia]. }
  unfold on_tick. fold (hb_due k).
  assert (exists hb, (if hb_due k then heartbeats (advance k (hb_due k)) else Ok []) = Ok hb) as [hb Eh].
  { destruct (hb_due k); [| eauto]. destruct (proj1 (post_Ok _ _) (heartbeats_total (advance k true) (n_shape _ (p_named _ _ _ P)))) as (hb & ? & _). eauto. }
  rewrite Eh. cbn [mbind outcome_bind]. rewrite E. cbn. exists k', hb, out, ch. split; [done | exact H].
Qed.

(** C23. Takeover.  When every live member that is older than this one has been silent for longer than the
    timeout, the next clock tick makes this member master: exactly the silent members are marked
    dead, and the new view goes to every member that is still alive. *)
Theorem oldest_survivor_takes_over k i me :
  present k i me -> 0 <= tick k -> hb_timeout k < tick k + 1 < 2 ^ 64 ->
  seniors_silent (advance k (hb_due k)) me -> suspects (advance k (hb_due k)) <> [] ->
  exists k' out ch, on_tick k = Ok (k', out, ch) /\ is_master_self k' = Ok true
    /\ (forall j m, members (cluster k) !! j = Some m ->
         is_alive (alive (cluster k')) j <-> is_alive (alive (cluster k)) j /\ ~ overdue (advance k (hb_due k)) (m, true))
    /\ (forall j, is_alive (alive (cluster k')) j -> j <> i ->
         (j, MemberView (generation (cluster k')) (recs k')) ∈ out).
Proof.
  intros P H0 Ht Hs Hne.
  destruct (on_tick_takes_over k i me P H0 Ht Hs Hne) as (k' & hb & view & ch & E & _ & [C1 _ _ _] & P' & Sh & Hal & Hm & Hb).
  exists k', (hb ++ view), ch. split_and!; [done.. |]. intros j Ha Hj. apply elem_of_app. right.
  unfold broadcast_view in Hb. rewrite alive_peers_ok in Hb by apply (s_len _ (n_shape _ (p_named _ _ _ P'))).
  injection Hb as <-. apply list_elem_of_fmap. exists j. split; [done |]. apply list_elem_of_filter. split.
  - split; [done |]. intros Hu. apply Hj.
    apply (uuid_at_inj (cluster k') j i (self_uuid k')); [apply (n_uuids _ (p_named _ _ _ P')) | done |].
    unfold uuid_at. rewrite (p_me _ _ _ P'). cbn. f_equal. apply (p_uuid _ _ _ P').
  - apply elem_of_seq. apply lookup_lt_Some in Ha. rewrite (s_len _ (n_shape _ (p_named _ _ _ P'))) in Ha. lia.
Qed.

(** Member 2 of three, which heard the others at tick 1 only. *)
Definition orphan : Coordinator :=
  mkCoord trio (2, 2) (<[1 := 1]> (<[3 := 9]> ∅)) 9 1 3 8 None true.

Lemma orphan_present : present orphan 1 (mkInfo (2, 2) [] 5702 7702 2).
Proof.
  split; [apply trio_named | | done..]. vm_compute. repeat (constructor; [set_solver |]). constructor.
Qed.

Lemma oldest_survivor_takes_over_witness :
  exists k' out ch, on_tick orphan = Ok (k', out, ch) /\ is_master_self k' = Ok true
    /\ (forall j m, members (cluster orphan) !! j = Some m ->
         is_alive (alive (cluster k')) j <-> is_alive (alive (cluster orphan)) j /\ ~ overdue (advance orphan (hb_due orphan)) (m, true))
    /\ (forall j, is_alive (alive (cluster k')) j -> j <> 1%nat ->
         (j, MemberView (generation (cluster k')) (recs k')) ∈ out).
Proof.
  apply (oldest_survivor_takes_over orphan 1 (mkInfo (2, 2) [] 5702 7702 2));
    [apply orphan_present | done | vm_compute; split; congruence | | vm_compute; congruence].
  intros j m Hm Ha Hlt. destruct j as [| [| [| j]]]; cbn in Hm; try done; injection Hm as <-; cbn in Hlt; try lia.
  vm_compute. split_and!; congruence.
Defined.

(** Events in which the member [j] is not heard, nobody joins and no view arrives. *)
Definition silent (j : Z) (es : list event) : Prop :=
  Forall (fun e => match e with EHeartbeat j' _ => j' <> j | ETick => True | _ => False end) es.

Fixpoint ticks (es : list event) : Z :=
  match es with [] => 0 | ETick :: r => 1 + ticks r | _ :: r => ticks r end.

(** The master's watch over the member at index [j], last heard at tick [s]: it is alive only as long as the
    timeout has not passed. *)
Record watching (k : Coordinator) (i : nat) (me : MemberInfo) (j : nat) (m : MemberInfo) (s : Z) : Prop := {
  wg_present : present k i me;
  wg_oldest : forall x y, members (cluster k) !! x = Some y -> is_alive (alive (cluster k)) x -> m_join_id me <= m_join_id y;
  wg_member : members (cluster k) !! j = Some m;
  wg_other : m_uuid m <> self_uuid k;
  wg_seen : last_seen k !! m_join_id m = Some s;
  wg_past : 0 <= s <= tick k;
  wg_timely : is_alive (alive (cluster k)) j -> tick k <= Z.max (hb_timeout k) (s + hb_timeout k)
}.

Lemma detect_idle k : (tick k <= hb_timeout k \/ suspects k = []) -> detect k = Ok (k, [], no_change).
Proof.
  intros H. unfold detect. destruct (Z.leb_spec (tick k) (hb_timeout k)); [done |]. destruct H as [H | ->]; [lia |].
  by rewrite bool_decide_eq_true_2.
Qed.

Lemma watching_tick k i me j m s :
  watching k i me j m s -> tick k + 1 < 2 ^ 64 ->
  exists k' out ch, on_tick k = Ok (k', out, ch) /\ watching k' i me j m s /\ tick k' = tick k + 1 /\ hb_timeout k' = hb_timeout k.
Proof.
  intros W Hb. pose proof W as [P Old Hm Hu Hs Hp Ht]. set (k1 := advance k (hb_due k)).
  assert (tick k1 = tick k + 1) as Ek by (cbn; apply wrap_u64_small; unfold is_u64; lia).
  assert (is_alive (alive (cluster k)) j -> hb_timeout k < tick k + 1 -> ~ overdue k1 (m, true) ->
          tick k + 1 <= Z.max (hb_timeout k) (s + hb_timeout k)) as Hov.
  { intros Ha Hgt Ho. destruct (decide (tick k + 1 <= s + hb_timeout k)) as [| Hn]; [lia |]. exfalso. apply Ho.
    split_and!; [done | exact Hu |]. cbn [fst]. change (last_seen k1) with (last_seen k). rewrite Hs, Ek.
    change (hb_timeout k1) with (hb_timeout k). rewrite wrap_u64_small; [lia | unfold is_u64; lia]. }
  destruct (decide (tick k1 <= hb_timeout k1 \/ suspects k1 = [])) as [Hidle | Hact].
  - destruct (proj1 (post_Ok _ _) (heartbeats_total k1 (n_shape _ (p_named _ _ _ P)))) as (hb & Eh & _).
    unfold on_tick. fold (hb_due k). fold k1. rewrite (detect_idle k1 Hidle).
    exists k1, ((if hb_due k then hb else []) ++ []), no_change. split_and!; [| | done | done].
    { rewrite Eh. by destruct (hb_due k). }
    split; [by destruct P; split | done | done | done | done | lia |]. intros Ha. rewrite Ek. change (hb_timeout k1) with (hb_timeout k).
    destruct (decide (tick k + 1 <= hb_timeout k)); [lia |]. apply Hov; [done | lia |]. intros Ho.
    destruct Hidle as [Hi | Hi]; [rewrite Ek in Hi; cbn in Hi; lia |].
    assert (m_uuid m ∈ suspects k1) as Hin by (apply suspects_elem; by exists j, m). rewrite Hi in Hin. set_solver.
  - apply Decidable.not_or in Hact as [Hgt Hne]. rewrite Ek in Hgt. change (hb_timeout k1) with (hb_timeout k) in Hgt.
    destruct (on_tick_takes_over k i me P ltac:(lia) ltac:(lia)) as (k' & hb & view & ch & E & _ & [C1 C2 C3 C4] & P' & Sh & Hal & _ & _).
    { intros x y Hx Ha Hlt. specialize (Old x y Hx Ha). lia. }
    { done. }
    fold k1 in C1, C2, C3, C4, Hal. rewrite Ek in C3. cbn in C1, C2, C4.
    exists k', (hb ++ view), ch. split_and!; [done | | done | done]. split.
    + done.
    + intros x y Hx Ha. rewrite (sh_members _ _ Sh) in Hx. apply (Old x y Hx). by apply (sh_alive _ _ Sh).
    + by rewrite (sh_members _ _ Sh).
    + by rewrite C1.
    + by rewrite C2.
    + lia.
    + rewrite C3, C4. intros Ha. apply (Hal j m Hm) in Ha as [Ha Ho]. apply Hov; [done | lia | done].
Qed.

Lemma watching_run es : forall k i me j m s,
  watching k i me j m s -> silent (m_join_id m) es -> tick k + blen es < 2 ^ 64 ->
  exists k' out, run k es = Ok (k', out) /\ watching k' i me j m s /\ tick k' = tick k + ticks es /\ hb_timeout k' = hb_timeout k.
Proof.
  induction es as [| e es IH]; intros k i me j m s W Hsil Hb.
  { exists k, []. split_and!; [done | done | cbn; lia | done]. }
  rewrite blen_cons in Hb. pose proof (blen_nonneg es). apply Forall_cons in Hsil as [He Hsil].
  destruct e as [j' g | | |]; [| done | done |]; cbn [run handle ticks mbind outcome_bind].
  - destruct (IH (on_heartbeat k j' g) i me j m s) as (k' & out & E & W' & Tk & To); [| done | cbn; lia |].
    { destruct W as [P Old Hm Hu Hs Hp Ht]. split; cbn; [by destruct P; split | done.. | | done | done]. by rewrite lookup_insert_ne. }
    rewrite E. exists k', ([] ++ out). split_and!; done.
  - destruct (watching_tick k i me j m s W ltac:(lia)) as (k1 & o1 & ch & E1 & W1 & T1 & To1). rewrite E1. cbn [mbind outcome_bind].
    destruct (IH k1 i me j m s W1 Hsil ltac:(lia)) as (k' & out & E & W' & Tk & To). rewrite E.
    exists k', (o1 ++ out). split_and!; [done | done | lia | congruence].
Qed.


(** Member 1 heard member 3 at tick 4; the timeout is 3 ticks. *)
Definition chief : Coordinator := mkCoord trio (1, 1) (<[3 := 4]> ∅) 5 2 3 4 None true.

