(* ===== verification/SplitBrain.v ===== *)
(** * Groups of members that have declared each other dead

    Coordinators (crates/server/src/cluster_coordinator.rs) connected by a network that may lose,
    delay and reorder messages, with the dispatch of crates/server/src/member_thread.rs.  Heartbeats
    and views go to live members only, and a view is adopted only when it is newer, so two groups that
    marked each other dead never exchange a message again: there is no path back to one cluster. *)

From S2P Require Import Prelude MemberWire Membership Migration Coordinator.

(** A message in flight: sender, destination, content. *)
Abbreviation packet := (uuid * uuid * Msg)%type.

Record sys := mkSys { nodes : gmap uuid Coordinator; net : list packet }.

(** The member an outbox entry is for: the index is one of the sender's own member list. *)
Definition address (k : Coordinator) (im : nat * Msg) : option packet :=
  u ← uuid_at (cluster k) im.1; Some (self_uuid k, u, im.2).

Definition post_all (k : Coordinator) (out : outbox) : list packet := omap (address k) out.

(** The part of [MemberHandler::on_msg] that concerns membership. *)
Definition receive (k : Coordinator) (m : Msg) : outcome (Coordinator * outbox) :=
  match m with
  | Heartbeat j g => Ok (on_heartbeat k j g, [])
  | MemberView g ms => '(k, _) ← on_view k g ms; Ok (k, [])
  | JoinRequest id host cp mp => '(k, out, _) ← on_join k (mkInfo id host cp mp 0); Ok (k, out)
  | _ => Ok (k, [])
  end.

Inductive step : sys -> sys -> Prop :=
| step_tick s x k k' out ch :
    nodes s !! x = Some k -> on_tick k = Ok (k', out, ch) ->
    step s (mkSys (<[x := k']> (nodes s)) (net s ++ post_all k' out))
| step_deliver s l1 src x m l2 k k' out :
    net s = l1 ++ (src, x, m) :: l2 -> nodes s !! x = Some k -> receive k m = Ok (k', out) ->
    step s (mkSys (<[x := k']> (nodes s)) (l1 ++ l2 ++ post_all k' out))
| step_lose s l1 p l2 : net s = l1 ++ p :: l2 -> step s (mkSys (nodes s) (l1 ++ l2)).

Section Apart.
(** Whom a member may believe alive; a view it passes on must suit those it is sent to. *)
Variable may : uuid -> uuid -> Prop.
Hypothesis may_pass : forall x y z, may x y -> may x z -> may y z.

(** The members that [k] believes alive are those it may, and it does not ask to join. *)
Record settled (x : uuid) (k : Coordinator) : Prop := {
  st_self : self_uuid k = x;
  st_named : named (cluster k);
  st_joined : joined k = true;
  st_alive : forall i u, is_alive (alive (cluster k)) i -> uuid_at (cluster k) i = Some u -> may x u
}.

Definition local_packet (p : packet) : Prop :=
  let '(src, dst, m) := p in
  may src dst
  /\ match m with
     | MemberView _ ms =>
       blen ms < 2 ^ 31 /\ NoDup (map r_uuid ms) /\ forall r, r ∈ ms -> r_alive r = true -> may dst (r_uuid r)
     | JoinRequest _ _ _ _ => False
     | _ => True
     end.

Lemma recs_uuids k : length (alive (cluster k)) = len (cluster k) -> map r_uuid (recs k) = map m_uuid (members (cluster k)).
Proof.
  unfold recs, len. intros H. rewrite map_map. cbn. generalize dependent (alive (cluster k)).
  induction (members (cluster k)) as [| m ms IH]; intros [| a al] H; try done. cbn. f_equal. apply IH. simpl in H. lia.
Qed.

Lemma recs_elem k r : r ∈ recs k -> r_alive r = true ->
  exists i, is_alive (alive (cluster k)) i /\ uuid_at (cluster k) i = Some (r_uuid r).
Proof.
  unfold recs. intros ([m a] & -> & Hz)%list_elem_of_fmap Ha. cbn in Ha. subst a.
  apply list_elem_of_lookup_1 in Hz as [i Hi]. apply lookup_zip_Some in Hi as [Hm Hi]. exists i. split; [done |].
  unfold uuid_at. by rewrite Hm.
Qed.

(** What a settled member sends stays in its group. *)
Lemma peers_local x k peers :
  settled x k -> alive_peer_indices k = Ok peers ->
  forall i u, i ∈ peers -> uuid_at (cluster k) i = Some u -> may x u.
Proof.
  intros [Hs Hn Hj Ha] E i u Hi Hu. rewrite alive_peers_ok in E by apply (s_len _ (n_shape _ Hn)). injection E as <-.
  apply list_elem_of_filter in Hi as [[Hi _] _]. by eapply Ha.
Qed.

Lemma broadcast_local x k out :
  settled x k -> broadcast_view k = Ok out -> Forall local_packet (post_all k out).
Proof.
  intros S. unfold broadcast_view. intros H. apply outcome_bind_Ok in H as (peers & Ep & [= <-]).
  apply Forall_forall. intros p Hp. unfold post_all in Hp. apply list_elem_of_omap in Hp as ([i m] & Hin & Ha).
  apply list_elem_of_fmap in Hin as (i' & [= -> ->] & Hi). unfold address in Ha. cbn [fst snd] in Ha.
  destruct (uuid_at (cluster k) i') as [u |] eqn:Eu; [| done]. injection Ha as <-.
  pose proof (peers_local x k peers S Ep i' u Hi Eu) as Hside. pose proof S as [Hs Hn Hj Hal]. rewrite Hs. split; [done |].
  split_and!.
  - unfold recs, blen. rewrite length_map, length_zip_with. pose proof (s_size _ (n_shape _ Hn)). unfold len in *. lia.
  - rewrite recs_uuids by apply (s_len _ (n_shape _ Hn)). apply (n_uuids _ Hn).
  - intros r Hr Hra. destruct (recs_elem k r Hr Hra) as (j & Hja & Hju). apply (may_pass x); [done |].
    by eapply Hal.
Qed.

Lemma heartbeats_local x k out :
  settled x k -> heartbeats k = Ok out -> Forall local_packet (post_all k out).
Proof.
  intros S. pose proof S as [Hs Hn Hj Hal]. unfold heartbeats. rewrite Hj. intros H.
  apply outcome_bind_Ok in H as (from & _ & H). apply outcome_bind_Ok in H as (peers & Ep & H). cbn in H. injection H as <-.
  apply Forall_forall. intros p Hp. unfold post_all in Hp. apply list_elem_of_omap in Hp as ([i m] & Hin & Ha).
  apply elem_of_app in Hin as [Hin | Hin]; [| by destruct (pending_join k); apply not_elem_of_nil in Hin].
  apply list_elem_of_fmap in Hin as (i' & [= -> ->] & Hi). unfold address in Ha. cbn [fst snd] in Ha.
  destruct (uuid_at (cluster k) i') as [u |] eqn:Eu; [| done]. injection Ha as <-.
  pose proof (peers_local x k peers S Ep i' u Hi Eu). rewrite Hs. by split.
Qed.

(** The detector changes nothing but the cluster, and sends only the new view. *)
Lemma detect_form k k' out ch :
  named (cluster k) -> detect k = Ok (k', out, ch) ->
  (k' = k /\ out = []) \/ exists c, k' = with_cluster k c /\ shrinks (cluster k) c /\ broadcast_view k' = Ok out.
Proof.
  intros Hn Hd. pose proof (detect_keeps k k' out ch Hn Hd) as (_ & Sh & _). revert Hd. unfold detect.
  destruct (_ <=? _); [intros [= <- <- _]; by left |]. case_bool_decide; [intros [= <- <- _]; by left |].
  destruct (negb _); [intros [= <- <- _]; by left |]. intros Hd. apply outcome_bind_Ok in Hd as ([c b] & E & Hd).
  destruct b; cbn [negb] in Hd; [| injection Hd as <- <- _; by left].
  apply outcome_bind_Ok in Hd as (o & Eo & Hd). apply outcome_bind_Ok in Hd as (migs & Em & [= <- <- _]).
  right. exists c. done.
Qed.

Lemma settled_shrinks x k c : settled x k -> shrinks (cluster k) c -> settled x (with_cluster k c).
Proof.
  intros [H1 H2 H3 H4] Sh. split; cbn; [done | by eapply named_shrinks | done |].
  intros i u Ha Hu. apply (H4 i); [by apply (sh_alive _ _ Sh) |]. unfold uuid_at in *. by rewrite (sh_members _ _ Sh) in Hu.
Qed.

Lemma post_all_shrinks k c out : shrinks (cluster k) c -> post_all (with_cluster k c) out = post_all k out.
Proof.
  intros Sh. unfold post_all. induction out as [| im out IH]; [done |]. cbn. rewrite IH.
  unfold address, uuid_at. cbn. by rewrite (sh_members _ _ Sh).
Qed.

Lemma tick_settled x k k' out ch :
  settled x k -> on_tick k = Ok (k', out, ch) -> settled x k' /\ Forall local_packet (post_all k' out).
Proof.
  intros S. unfold on_tick. fold (hb_due k). set (k1 := advance k (hb_due k)). intros H.
  assert (settled x k1) as S1 by (destruct S; by split).
  apply outcome_bind_Ok in H as (hb & Eh & H). apply outcome_bind_Ok in H as ([[k2 o] c2] & Ed & [= <- <- _]).
  assert (Forall local_packet (post_all k1 hb)) as Hhb.
  { destruct (hb_due k); [by eapply heartbeats_local | injection Eh as <-; constructor]. }
  apply detect_form in Ed as [[-> ->] | (c & -> & Sh & Eb)]; [| | apply (st_named _ _ S1)].
  - rewrite app_nil_r. done.
  - pose proof (settled_shrinks x k1 c S1 Sh) as S2. split; [done |]. unfold post_all. rewrite omap_app. apply Forall_app. split.
    + fold (post_all (with_cluster k1 c) hb). by rewrite post_all_shrinks.
    + by eapply broadcast_local.
Qed.

Lemma view_settled x k g ms k' ch :
  settled x k -> blen ms < 2 ^ 31 -> NoDup (map r_uuid ms) ->
  (forall r, r ∈ ms -> r_alive r = true -> may x (r_uuid r)) ->
  on_view k g ms = Ok (k', ch) -> settled x k'.
Proof.
  intros S Hl Hn Hr. unfold on_view, set_view. destruct (_ <=? _); cbn [negb]; [intros [= <- _]; done |].
  intros H. apply outcome_bind_Ok in H as (migs & _ & [= <- _]). destruct S as [H1 H2 H3 H4]. split; cbn.
  - done.
  - split; [split; unfold len; cbn; rewrite !length_map; [done | exact Hl] |]. cbn. rewrite map_map. exact Hn.
  - rewrite H3. apply orb_true_r.
  - intros i u Ha Hu. unfold is_alive, uuid_at in *. cbn in Ha, Hu.
    rewrite (list_lookup_fmap r_alive ms i : map r_alive ms !! i = _) in Ha.
    rewrite (list_lookup_fmap info_of ms i : map info_of ms !! i = _) in Hu.
    destruct (ms !! i) as [r |] eqn:Er; [| done]. cbn in *. injection Hu as <-. injection Ha as Ha.
    apply Hr; [by eapply list_elem_of_lookup_2 | done].
Qed.

Lemma receive_settled src x k m k' out :
  settled x k -> local_packet (src, x, m) -> receive k m = Ok (k', out) -> settled x k' /\ post_all k' out = [].
Proof.
  intros S Hm E. destruct m; cbn [receive] in E; try (injection E as <- <-; done).
  - injection E as <- <-. split; [| done]. destruct S. by split.
  - by destruct Hm.
  - apply outcome_bind_Ok in E as ([k1 ch1] & Ev & [= <- <-]). split; [| done].
    destruct Hm as (_ & Hb & Hn & Hr). by eapply view_settled.
Qed.

(** The members of [D] keep to whom they may believe alive, and so does every message. *)
Variable D : uuid -> Prop.

Definition apart (s : sys) : Prop :=
  (forall x k, D x -> nodes s !! x = Some k -> settled x k) /\ Forall local_packet (net s).

Lemma apart_set s x k' l :
  apart s -> (D x -> settled x k') -> Forall local_packet l -> apart (mkSys (<[x := k']> (nodes s)) l).
Proof.
  intros [Hn _] Hk Hl. split; cbn; [| done]. intros y k Hy.
  destruct (decide (x = y)) as [<- |]; [rewrite lookup_insert_eq; intros [= <-]; auto |].
  rewrite lookup_insert_ne by done. by apply Hn.
Qed.

Lemma apart_tick s x k k' out ch :
  apart s -> D x -> nodes s !! x = Some k -> on_tick k = Ok (k', out, ch) ->
  apart (mkSys (<[x := k']> (nodes s)) (net s ++ post_all k' out)).
Proof.
  intros A Hd Hk E. destruct (tick_settled x k k' out ch (proj1 A x k Hd Hk) E) as [S' Hp].
  apply apart_set; [done.. |]. apply Forall_app. split; [apply A | done].
Qed.

Lemma apart_deliver s l1 src x m l2 k k' out :
  apart s -> D x -> net s = l1 ++ (src, x, m) :: l2 -> nodes s !! x = Some k -> receive k m = Ok (k', out) ->
  apart (mkSys (<[x := k']> (nodes s)) (l1 ++ l2 ++ post_all k' out)).
Proof.
  intros A Hd En Hk E. pose proof (proj2 A) as Hnet. rewrite En, Forall_app, Forall_cons in Hnet. destruct Hnet as (H1 & Hm & H2).
  destruct (receive_settled src x k m k' out (proj1 A x k Hd Hk) Hm E) as [S' ->].
  apply apart_set; [done.. |]. rewrite app_nil_r. by apply Forall_app.
Qed.

Lemma apart_lose s l1 p l2 : apart s -> net s = l1 ++ p :: l2 -> apart (mkSys (nodes s) (l1 ++ l2)).
Proof.
  intros [Hn Hp] En. split; [done |]. cbn. rewrite En, Forall_app, Forall_cons in Hp. apply Forall_app. naive_solver.
Qed.
End Apart.

Abbreviation everyone := (fun _ : uuid => True).

Lemma apart_run may s s' :
  (forall x y z, may x y -> may x z -> may y z) -> apart may everyone s -> rtc step s s' -> apart may everyone s'.
Proof.
  intros Hm Ha Hr. induction Hr as [| s1 s2 s3 Hs _ IH]; [done |]. apply IH. clear IH.
  destruct Hs; eauto using apart_tick, apart_deliver, apart_lose.
Qed.

(** C24. A split is permanent.  Take two groups of members such that each member believes only members of
    its own group alive and nobody is asking to join.  Whatever the clocks and the network do from
    then on, no message ever crosses between the groups again, and no member ever believes a member of the
    other group alive. *)
Theorem split_never_heals (side : uuid -> bool) s s' :
  apart (fun x u => side u = side x) everyone s -> rtc step s s' ->
  (forall x k i u, nodes s' !! x = Some k -> is_alive (alive (cluster k)) i -> uuid_at (cluster k) i = Some u -> side u = side x)
  /\ forall src dst m, (src, dst, m) ∈ net s' -> side src = side dst.
Proof.
  intros Ha Hr. destruct (apart_run (fun x u => side u = side x) s s' ltac:(cbn; intros; congruence) Ha Hr) as [Hn Hp]. split.
  - intros x k i u Hx. apply (st_alive _ _ _ (Hn x k I Hx)).
  - intros src dst m Hin. rewrite Forall_forall in Hp. symmetry. apply (Hp _ Hin).
Qed.

(** ** A network outage of a few ticks splits a healthy cluster *)

Inductive action := Tick (x : uuid) | Deliver (n : nat) | Lose (n : nat).

Definition act (s : sys) (a : action) : option sys :=
  match a with
  | Tick x =>
    k ← nodes s !! x;
    match on_tick k with
    | Ok (k', out, _) => Some (mkSys (<[x := k']> (nodes s)) (net s ++ post_all k' out))
    | Panic => None
    end
  | Deliver n =>
    '(_, x, m) ← net s !! n;
    k ← nodes s !! x;
    match receive k m with
    | Ok (k', out) => Some (mkSys (<[x := k']> (nodes s)) (take n (net s) ++ drop (S n) (net s) ++ post_all k' out))
    | Panic => None
    end
  | Lose n => _ ← net s !! n; Some (mkSys (nodes s) (take n (net s) ++ drop (S n) (net s)))
  end.

Lemma act_step s a s' : act s a = Some s' -> step s s'.
Proof.
  destruct a as [x | n | n]; cbn.
  - destruct (nodes s !! x) as [k |] eqn:Ek; [| done]. cbn. destruct (on_tick k) as [[[k' out] ch] |] eqn:E; [| done].
    intros [= <-]. by eapply step_tick.
  - destruct (net s !! n) as [[[src x] m] |] eqn:En; [| done]. cbn. destruct (nodes s !! x) as [k |] eqn:Ek; [| done]. cbn.
    destruct (receive k m) as [[k' out] |] eqn:E; [| done]. intros [= <-]. eapply step_deliver; [| done..].
    symmetry. by apply take_drop_middle.
  - destruct (net s !! n) as [p |] eqn:En; [| done]. cbn. intros [= <-]. eapply (step_lose _ _ p).
    symmetry. by apply take_drop_middle.
Qed.

Fixpoint acts (s : sys) (l : list action) : option sys :=
  match l with [] => Some s | a :: r => s' ← act s a; acts s' r end.

Lemma acts_steps l : forall s s', acts s l = Some s' -> rtc step s s'.
Proof.
  induction l as [| a l IH]; intros s s'; cbn; [intros [= <-]; constructor |].
  destruct (act s a) as [s1 |] eqn:E; [| done]. cbn. intros H. eapply rtc_l; [by eapply act_step | by apply IH].
Qed.

Definition alice : uuid := (1, 1).
Definition bob : uuid := (1, 2).
Definition pair_view (al : list bool) (gen v : Z) : Cluster :=
  mkCluster [mkInfo alice [] 5701 7701 0; mkInfo bob [] 5702 7702 1] al 1 2 gen v v.

(** Two members, one backup, a heartbeat every tick and a timeout of two ticks. *)
Definition healthy : sys :=
  mkSys {[ alice := new_coordinator (pair_view [true; true] 1 1) alice 1 2;
           bob := new_coordinator (pair_view [true; true] 1 1) bob 1 2 ]} [].

(** The first heartbeats arrive; those of the next ticks are lost. *)
Definition outage : list action :=
  [Tick alice; Tick bob; Deliver 0; Deliver 0;
   Tick alice; Tick bob; Lose 0; Lose 0; Tick alice; Tick bob; Lose 0; Lose 0; Tick alice; Tick bob; Lose 0; Lose 0].

Definition severed : sys :=
  mkSys {[ alice := mkCoord (pair_view [true; false] 2 2) alice {[ 1 := 1 ]} 4 1 2 4 None true;
           bob := mkCoord (pair_view [false; true] 2 2) bob {[ 0 := 1 ]} 4 1 2 4 None true ]} [].

Lemma outage_severs : acts healthy outage = Some severed.
Proof. vm_compute. reflexivity. Qed.

Lemma severed_apart : apart (fun x u => bool_decide (u = alice) = bool_decide (x = alice)) everyone severed.
Proof.
  split; [| constructor]. intros x k _ Hk. cbn [nodes severed] in Hk. apply lookup_insert_Some in Hk as [[<- <-] | [_ Hk]].
  - split; [done | split; [by split |] | done |].
    + repeat (constructor; [set_solver |]). constructor.
    + intros [| [| i]] u Ha Hu; cbv in Ha; try done. cbn in Hu. injection Hu as <-. done.
  - apply lookup_singleton_Some in Hk as [<- <-]. split; [done | split; [by split |] | done |].
    + repeat (constructor; [set_solver |]). constructor.
    + intros [| [| i]] u Ha Hu; cbv in Ha; try done. cbn in Hu. injection Hu as <-. done.
Qed.

(** From the healthy pair, the outage leads to two clusters of one member, both masters and both at
    generation 2, that no run reunites. *)
Lemma split_never_heals_witness :
  rtc step healthy severed
  /\ (forall k, nodes severed !! alice = Some k -> is_master_self k = Ok true /\ generation (cluster k) = 2)
  /\ (forall k, nodes severed !! bob = Some k -> is_master_self k = Ok true /\ generation (cluster k) = 2)
  /\ forall s', rtc step severed s' ->
     (forall x k i u, nodes s' !! x = Some k -> is_alive (alive (cluster k)) i -> uuid_at (cluster k) i = Some u ->
        bool_decide (u = alice) = bool_decide (x = alice))
     /\ forall src dst m, (src, dst, m) ∈ net s' -> bool_decide (src = alice) = bool_decide (dst = alice).
Proof.
  split_and!.
  - apply (acts_steps outage). exact outage_severs.
  - intros k Hk. vm_compute in Hk. injection Hk as <-. vm_compute. done.
  - intros k Hk. vm_compute in Hk. injection Hk as <-. vm_compute. done.
  - intros s' Hs. exact (split_never_heals (fun u => bool_decide (u = alice)) severed s' severed_apart Hs).
Defined.

(** ** A bootstrap member that is restarted

    run_multi_node (crates/server/src/main.rs) starts a member of the bootstrap set with every
    bootstrap member alive, generation 1, and without a request to join. *)

Record started_over (x : uuid) (boot : Cluster) (k : Coordinator) : Prop := {
  so_self : self_uuid k = x;
  so_cluster : cluster k = boot;
  so_joined : joined k = true;
  so_seen : last_seen k = ∅
}.

Lemma started_over_tick x boot k k' out ch :
  named boot -> started_over x boot k -> on_tick k = Ok (k', out, ch) ->
  started_over x boot k' /\ Forall (local_packet (fun _ u => u <> x)) (post_all k' out).
Proof.
  intros Hn [H1 H2 H3 H4]. unfold on_tick. fold (hb_due k). set (k1 := advance k (hb_due k)).
  assert (suspects k1 = []) as Hs.
  { destruct (suspects k1) as [| u us] eqn:E; [done |].
    assert (u ∈ suspects k1) as (i & m & _ & _ & (_ & _ & Ho) & _)%suspects_elem by (rewrite E; set_solver).
    cbn in Ho. rewrite H4, lookup_empty in Ho. done. }
  rewrite (detect_idle k1 (or_intror Hs)). intros H. apply outcome_bind_Ok in H as (hb & Eh & H). cbn in H. injection H as <- <- _.
  split; [by split |]. rewrite app_nil_r. destruct (hb_due k); [| injection Eh as <-; constructor].
  revert Eh. unfold heartbeats. change (joined k1) with (joined k). rewrite H3. intros H.
  apply outcome_bind_Ok in H as (from & _ & H). apply outcome_bind_Ok in H as (peers & Ep & H). cbn in H. injection H as <-.
  rewrite alive_peers_ok in Ep by (cbn; rewrite H2; apply (s_len _ (n_shape _ Hn))). injection Ep as <-.
  apply Forall_forall. intros p Hp. unfold post_all in Hp. apply list_elem_of_omap in Hp as ([i m] & Hin & Ha).
  apply elem_of_app in Hin as [Hin | Hin]; [| by destruct (pending_join k); apply not_elem_of_nil in Hin].
  apply list_elem_of_fmap in Hin as (i' & [= -> ->] & Hi). unfold address in Ha. cbn [fst snd] in Ha.
  apply list_elem_of_filter in Hi as [[_ Hi] _]. destruct (uuid_at (cluster k1) i') as [u |] eqn:Eu; [| done].
  injection Ha as <-. split; [| done]. intros ->. apply Hi. rewrite H1. exact Eu.
Qed.

Lemma started_over_run x boot s s' k :
  named boot -> nodes s !! x = Some k -> started_over x boot k -> apart (fun _ u => u <> x) (fun y => y <> x) s ->
  rtc step s s' ->
  (exists k', nodes s' !! x = Some k' /\ started_over x boot k') /\ apart (fun _ u => u <> x) (fun y => y <> x) s'.
Proof.
  intros Hn Hk Hg A Hr. revert k Hk Hg A. induction Hr as [s | s1 s2 s3 Hs _ IH]; intros k Hk Hg A; [eauto |].
  destruct Hs as [s y ky ky' out ch Hy E | s l1 src y m l2 ky ky' out En Hy E | s l1 p l2 En].
  - destruct (decide (y = x)) as [-> | Hne].
    + assert (ky = k) as -> by congruence. destruct (started_over_tick x boot k ky' out ch Hn Hg E) as [Hg' Hp].
      apply (IH ky'); [cbn [nodes]; by rewrite lookup_insert_eq | done |]. apply apart_set; [done.. |].
      apply Forall_app. split; [apply A | done].
    + apply (IH k); [cbn [nodes]; by rewrite lookup_insert_ne | done |]. by eapply apart_tick.
  - pose proof (proj2 A) as Hp. rewrite En, Forall_app, Forall_cons in Hp. destruct Hp as (_ & [Hne _] & _).
    apply (IH k); [cbn [nodes]; by rewrite lookup_insert_ne | done |]. by eapply apart_deliver.
  - apply (IH k); [done.. |]. by eapply apart_lose.
Qed.

(** A restarted bootstrap member stays outside and does not notice.  Let a member of the bootstrap set be started
    again after the others marked it dead.  Whatever happens from then on, the others never believe it alive, no
    message is ever sent to it, and it keeps the bootstrap view, in which everyone is alive and so there is a quorum:
    writes are accepted on both sides. *)
Theorem restarted_member_stays_outside x boot hb_interval hb_timeout s s' :
  named boot -> has_quorum boot = true ->
  nodes s !! x = Some (new_coordinator boot x hb_interval hb_timeout) ->
  apart (fun _ u => u <> x) (fun y => y <> x) s -> rtc step s s' ->
  (exists k, nodes s' !! x = Some k /\ cluster k = boot /\ has_quorum (cluster k) = true)
  /\ (forall y k i, y <> x -> nodes s' !! y = Some k -> is_alive (alive (cluster k)) i -> uuid_at (cluster k) i <> Some x)
  /\ forall src m, (src, x, m) ∉ net s'.
Proof.
  intros Hn Hq Hk A Hr. destruct (started_over_run x boot s s' (new_coordinator boot x hb_interval hb_timeout) Hn Hk ltac:(by split) A Hr) as [(k' & Hk' & Hg) A'].
  split_and!.
  - exists k'. rewrite (so_cluster _ _ _ Hg). done.
  - intros y k i Hy Hky Ha Hu. by apply (st_alive _ _ _ (proj1 A' y k Hy Hky) i x Ha Hu).
  - intros src m Hin. pose proof (proj2 A') as Hp. rewrite Forall_forall in Hp. by destruct (Hp _ Hin) as [? _].
Qed.

(** Members 1 and 2 of three go on after member 3 died; member 3 is started again. *)
Definition trio_boot : Cluster :=
  new_cluster [mkInfo (1, 1) [] 5701 7701 0; mkInfo (1, 2) [] 5702 7702 1; mkInfo (1, 3) [] 5703 7703 2] 1 (default_quorum 3).

Definition survivors_view : Cluster := bump (set_alive trio_boot [true; true; false]).

Definition restarted : sys :=
  mkSys (<[ (1, 3) := new_coordinator trio_boot (1, 3) 1 3 ]>
          {[ (1, 1) := mkCoord survivors_view (1, 1) {[ 1 := 50; 2 := 40 ]} 51 1 3 51 None true;
             (1, 2) := mkCoord survivors_view (1, 2) {[ 0 := 50; 2 := 40 ]} 51 1 3 51 None true ]}) [].

Lemma restarted_apart : apart (fun _ u => u <> (1, 3)) (fun y => y <> (1, 3)) restarted.
Proof.
  assert (named survivors_view) as Hn.
  { split; [by split |]. vm_compute. repeat (constructor; [set_solver |]). constructor. }
  assert (forall i u, is_alive [true; true; false] i -> uuid_at survivors_view i = Some u -> u <> (1, 3)) as Hal.
  { intros [| [| [| i]]] u Ha Hu; cbv in Ha; try done; vm_compute in Hu; congruence. }
  split; [| constructor]. intros x k Hx Hk. cbn [nodes restarted] in Hk. rewrite lookup_insert_ne in Hk by done.
  apply lookup_insert_Some in Hk as [[<- <-] | [_ Hk]]; [by split |].
  apply lookup_singleton_Some in Hk as [<- <-]. by split.
Qed.

Lemma restarted_member_stays_outside_witness :
  has_quorum survivors_view = true
  /\ forall s', rtc step restarted s' ->
     (exists k, nodes s' !! (1, 3) = Some k /\ cluster k = trio_boot /\ has_quorum (cluster k) = true)
     /\ (forall y k i, y <> (1, 3) -> nodes s' !! y = Some k -> is_alive (alive (cluster k)) i -> uuid_at (cluster k) i <> Some (1, 3))
     /\ forall src m, (src, (1, 3), m) ∉ net s'.
Proof.
  split; [reflexivity |]. intros s' Hs.
  apply (restarted_member_stays_outside (1, 3) trio_boot 1 3 restarted s'); [| reflexivity | | apply restarted_apart | exact Hs].
  - split; [by split |]. vm_compute. repeat (constructor; [set_solver |]). constructor.
  - cbn [nodes restarted]. by rewrite lookup_insert_eq.
Defined.
