(* ===== verification/Replication.v ===== *)
(** * Synchronous backups (crates/member/src/replication.rs, the Replicate job of
    crates/server/src/member_thread.rs)

    [Pending] counts, per operation, the acknowledgements that are missing before the client is
    answered.  Two facts: every response handed over is delivered exactly once, and within a bounded
    number of clock ticks; and a response that an acknowledgement released is one that every backup
    has applied.  The second is proved for the primary, its backups and a network that may lose and
    delay messages. *)

From S2P Require Import Prelude MemberWire.

Record PendingOp := mkOp { remaining : Z; conn_id : Z; response : bytes; age : Z }.

Record Pending := mkPending { ops : gmap Z PendingOp }.
Definition new_pending : Pending := mkPending ∅.

(** A response for the client behind a connection. *)
Abbreviation delivery := (Z * bytes)%type.

Definition register (op_id remaining conn_id : Z) (response : bytes) (p : Pending) : Pending * option delivery :=
  if remaining =? 0 then (p, Some (conn_id, response)) else
  (mkPending (<[op_id := mkOp remaining conn_id response 0]> (ops p)), None).

Definition ack (op_id : Z) (p : Pending) : Pending * option delivery :=
  match ops p !! op_id with
  | None => (p, None)
  | Some op =>
    let left := sat_sub (remaining op) 1 in
    if left =? 0 then (mkPending (delete op_id (ops p)), Some (conn_id op, response op))
    else (mkPending (<[op_id := mkOp left (conn_id op) (response op) (age op)]> (ops p)), None)
  end.

Definition older (op : PendingOp) : PendingOp := mkOp (remaining op) (conn_id op) (response op) (wrap_u32 (age op + 1)).

(** Every operation ages by a tick; those of age [max_age] are completed anyway. *)
Definition sweep_expired (max_age : Z) (p : Pending) : Pending * list delivery :=
  let aged := older <$> ops p in
  (mkPending (filter (fun io => age io.2 < max_age) aged),
   map (fun io => (conn_id io.2, response io.2)) (map_to_list (filter (fun io => max_age <= age io.2) aged))).

Definition pending_len (p : Pending) : nat := size (ops p).

(** The Replicate arm of [MemberHandler::on_tick]: fan the mutation out to the backups and register
    the response, or deliver it when there is no backup. *)
Definition replicate_job (backups : list nat) (op_id : Z) (msg : Msg) (conn_id : Z) (response : bytes) (p : Pending) :
  Pending * list (nat * Msg) * list delivery :=
  match backups with
  | [] => (p, [], [(conn_id, response)])
  | _ =>
    let '(p, now) := register op_id (wrap_u32 (blen backups)) conn_id response p in
    (p, map (fun b => (b, msg)) backups, match now with Some d => [d] | None => [] end)
  end.

(** ** Every response is delivered once *)

Inductive pevent :=
| PJob (backups : list nat) (op_id : Z) (msg : Msg) (conn_id : Z) (response : bytes)
| PAck (op_id : Z)
| PSweep.

Definition pstep (max_age : Z) (p : Pending) (e : pevent) : Pending * list delivery :=
  match e with
  | PJob bs op m conn r => let '(p, _, ds) := replicate_job bs op m conn r p in (p, ds)
  | PAck op => let '(p, d) := ack op p in (p, match d with Some d => [d] | None => [] end)
  | PSweep => sweep_expired max_age p
  end.

Fixpoint prun (max_age : Z) (p : Pending) (es : list pevent) : Pending * list delivery :=
  match es with
  | [] => (p, [])
  | e :: r => let '(p, ds) := pstep max_age p e in let '(p, rest) := prun max_age p r in (p, ds ++ rest)
  end.

(** What was handed over for delivery, and what is still waiting. *)
Definition handed (es : list pevent) : list delivery :=
  omap (fun e => match e with PJob _ _ _ conn r => Some (conn, r) | _ => None end) es.
Definition job_ids (es : list pevent) : list Z :=
  omap (fun e => match e with PJob _ op _ _ _ => Some op | _ => None end) es.
Definition waiting (p : Pending) : list delivery := map (fun io => (conn_id io.2, response io.2)) (map_to_list (ops p)).

Lemma waiting_insert op o m : m !! op = None -> waiting (mkPending (<[op := o]> m)) ≡ₚ (conn_id o, response o) :: waiting (mkPending m).
Proof. intros H. unfold waiting. cbn. by rewrite map_to_list_insert. Qed.

Lemma waiting_delete op o m : m !! op = Some o -> waiting (mkPending m) ≡ₚ (conn_id o, response o) :: waiting (mkPending (delete op m)).
Proof. intros H. unfold waiting. cbn. by rewrite <- (map_to_list_delete m op o). Qed.

Lemma waiting_older (m : gmap Z PendingOp) : waiting (mkPending (older <$> m)) ≡ₚ waiting (mkPending m).
Proof. unfold waiting. cbn. rewrite map_to_list_fmap, map_map. by apply Permutation_refl'. Qed.

Lemma waiting_split (P : Z * PendingOp -> Prop) `{!forall x, Decision (P x)} (m : gmap Z PendingOp) :
  waiting (mkPending m) ≡ₚ waiting (mkPending (filter P m)) ++ waiting (mkPending (filter (fun x => ~ P x) m)).
Proof.
  induction m as [| i o m Hi IH] using map_ind.
  { unfold waiting. cbn. by rewrite !map_filter_empty, map_to_list_empty. }
  rewrite waiting_insert, IH by done. destruct (decide (P (i, o))) as [Hp | Hp].
  - rewrite map_filter_insert_True by done. rewrite (map_filter_insert_False (fun x => ~ P x)), delete_id by tauto.
    rewrite waiting_insert by (apply map_lookup_filter_None; by left). done.
  - rewrite map_filter_insert_False, delete_id by done. rewrite (map_filter_insert_True (fun x => ~ P x)) by done.
    rewrite waiting_insert by (apply map_lookup_filter_None; by left). apply Permutation_middle.
Qed.

(** A new job has a fresh operation id. *)
Definition fresh_for (p : Pending) (e : pevent) : Prop :=
  match e with PJob bs op _ _ _ => ops p !! op = None /\ blen bs < 2 ^ 32 | _ => True end.

Lemma pstep_conserves max_age p e p' ds :
  fresh_for p e -> pstep max_age p e = (p', ds) -> handed [e] ++ waiting p ≡ₚ ds ++ waiting p'.
Proof.
  intros Hf. destruct e as [bs op m conn r | op |]; cbn [pstep handed omap list_omap].
  - destruct Hf as [Hf Hb]. unfold replicate_job. destruct bs as [| b bs]; [intros [= <- <-]; done |].
    unfold register. rewrite wrap_u32_small by (unfold is_u32; pose proof (blen_nonneg (b :: bs)); done).
    rewrite blen_cons, (proj2 (Z.eqb_neq _ _)) by (pose proof (blen_nonneg bs); lia). intros [= <- <-].
    destruct p as [mo]. rewrite waiting_insert by done. done.
  - unfold ack. destruct (ops p !! op) as [o |] eqn:E; [| intros [= <- <-]; done]. destruct p as [mo]. cbn [ops] in *.
    destruct (_ =? 0); intros [= <- <-]; cbn [app].
    + by apply waiting_delete.
    + rewrite (waiting_delete op o) by done. rewrite <- insert_delete_eq, waiting_insert by apply lookup_delete_eq. done.
  - unfold sweep_expired. intros [= <- <-]. destruct p as [mo]. cbn [ops app]. rewrite <- (waiting_older mo).
    rewrite (waiting_split (fun io => max_age <= age io.2)). unfold waiting at 1. cbn [ops].
    apply Permutation_app_head, Permutation_refl'. unfold waiting. cbn [ops]. do 2 f_equal. apply map_filter_ext.
    intros i x _. cbn. lia.
Qed.

(** The operations that wait: their ids were given out before, and none is older than the bound. *)
Definition ages_below (max_age : Z) (p : Pending) : Prop := forall i o, ops p !! i = Some o -> 0 <= age o < max_age.

Lemma pstep_keys max_age p e p' ds i :
  pstep max_age p e = (p', ds) -> is_Some (ops p' !! i) -> is_Some (ops p !! i) \/ i ∈ job_ids [e].
Proof.
  destruct e as [bs op m conn r | op |]; cbn [pstep].
  - unfold replicate_job, register. destruct bs; [intros [= <- _]; auto |]. destruct (_ =? 0); intros [= <- _]; [auto |].
    cbn. destruct (decide (op = i)) as [-> |]; [right; cbn; set_solver | rewrite lookup_insert_ne by done; auto].
  - unfold ack. destruct (ops p !! op) as [o |] eqn:E; [| intros [= <- _]; auto]. destruct (_ =? 0); intros [= <- _]; cbn.
    + rewrite lookup_delete_is_Some. naive_solver.
    + destruct (decide (op = i)) as [-> |]; [left; by rewrite E | rewrite lookup_insert_ne by done; auto].
  - unfold sweep_expired. intros [= <- _]. cbn. intros [o Ho]. apply map_lookup_filter_Some in Ho as [Ho _].
    rewrite lookup_fmap in Ho. destruct (ops p !! i); [eauto | done].
Qed.

Lemma pstep_ages max_age p e p' ds :
  0 < max_age < 2 ^ 32 -> ages_below max_age p -> pstep max_age p e = (p', ds) -> ages_below max_age p'.
Proof.
  intros Hm Ha. destruct e as [bs op m conn r | op |]; cbn [pstep].
  - unfold replicate_job, register. destruct bs; [by intros [= <- _] |]. destruct (_ =? 0); intros [= <- _]; [done |].
    intros i o. cbn. destruct (decide (op = i)) as [-> |]; [rewrite lookup_insert_eq; intros [= <-]; cbn; lia |].
    rewrite lookup_insert_ne by done. apply Ha.
  - unfold ack. destruct (ops p !! op) as [o |] eqn:E; [| by intros [= <- _]]. destruct (_ =? 0); intros [= <- _]; intros i x; cbn.
    + rewrite lookup_delete_Some. intros [_ Hx]. by eapply Ha.
    + destruct (decide (op = i)) as [-> |]; [rewrite lookup_insert_eq; intros [= <-]; exact (Ha i o E) |].
      rewrite lookup_insert_ne by done. apply Ha.
  - unfold sweep_expired. intros [= <- _]. intros i o. cbn. intros [Ho Hlt]%map_lookup_filter_Some.
    rewrite lookup_fmap in Ho. destruct (ops p !! i) as [x |] eqn:E; [| done]. injection Ho as <-. cbn in *.
    specialize (Ha i x E). rewrite wrap_u32_small in *; unfold is_u32; lia.
Qed.

Lemma prun_conserves max_age es : forall p p' ds,
  0 < max_age < 2 ^ 32 -> ages_below max_age p -> NoDup (job_ids es) ->
  (forall i, i ∈ job_ids es -> ops p !! i = None) ->
  Forall (fun e => match e with PJob bs _ _ _ _ => blen bs < 2 ^ 32 | _ => True end) es ->
  prun max_age p es = (p', ds) -> handed es ++ waiting p ≡ₚ ds ++ waiting p' /\ ages_below max_age p'.
Proof.
  induction es as [| e es IH]; intros p p' ds Hm Ha Hn Hf Hb; cbn [prun]; [intros [= <- <-]; done |].
  destruct (pstep max_age p e) as [p1 d1] eqn:E1. destruct (prun max_age p1 es) as [p2 d2] eqn:E2. intros [= <- <-].
  apply Forall_cons in Hb as [Hbe Hb].
  assert (fresh_for p e) as Hfe by (destruct e; cbn in *; [split; [apply Hf; set_solver | done] | done..]).
  change (job_ids (e :: es)) with (job_ids ([e] ++ es)) in *. unfold job_ids in Hn, Hf. rewrite omap_app in Hn, Hf.
  apply NoDup_app in Hn as (_ & Hd & Hn).
  destruct (IH p1 p2 d2) as [Hc Ha2]; [done | by eapply pstep_ages | done | | done | done |].
  { intros i Hi. apply eq_None_not_Some. intros Hs. eapply pstep_keys in Hs as [[o Ho] | Hin]; [| | exact E1].
    - rewrite Hf in Ho by set_solver. done.
    - by apply (Hd i). }
  split; [| done]. pose proof (pstep_conserves max_age p e p1 d1 Hfe E1) as H1.
  change (handed (e :: es)) with (handed ([e] ++ es)). unfold handed. rewrite omap_app. fold (handed [e]) (handed es).
  rewrite (Permutation_app_comm (handed [e])), <- app_assoc, H1, (Permutation_app_comm d1), app_assoc, Hc.
  rewrite <- !app_assoc, (Permutation_app_comm (waiting p2)), app_assoc, (Permutation_app_comm d2), <- app_assoc. done.
Qed.

(** After as many sweeps as the bound nothing waits any more. *)
Definition sweeps (es : list pevent) : Z := blen (omap (fun e => match e with PSweep => Some () | _ => None end) es).

Lemma prun_drains max_age es : forall p p' ds n,
  0 < max_age < 2 ^ 32 -> ages_below max_age p -> job_ids es = [] -> (forall i o, ops p !! i = Some o -> n <= age o) ->
  prun max_age p es = (p', ds) -> forall i o, ops p' !! i = Some o -> n + sweeps es <= age o.
Proof.
  induction es as [| e es IH]; intros p p' ds n Hm Ha Hj Hn; cbn [prun].
  { intros [= <- <-] i o Ho. specialize (Hn i o Ho). change (sweeps []) with 0. lia. }
  destruct (pstep max_age p e) as [p1 d1] eqn:E1. destruct (prun max_age p1 es) as [p2 d2] eqn:E2. intros [= <- <-] i o Ho.
  destruct e as [bs op m conn r | op |]; [done | |]; cbn in Hj.
  - assert (forall i o, ops p1 !! i = Some o -> n <= age o) as Hn1.
    { revert E1. cbn. unfold ack. destruct (ops p !! op) as [x |] eqn:E; [| by intros [= <- _]]. destruct (_ =? 0); intros [= <- _] k y; cbn.
      - rewrite lookup_delete_Some. intros [_ Hy]. by eapply Hn.
      - destruct (decide (op = k)) as [-> |]; [rewrite lookup_insert_eq; intros [= <-]; exact (Hn k x E) |].
        rewrite lookup_insert_ne by done. apply Hn. }
    apply (IH p1 p2 d2 n Hm ltac:(by eapply pstep_ages) Hj Hn1 E2 i o Ho).
  - assert (forall i o, ops p1 !! i = Some o -> n + 1 <= age o) as Hn1.
    { revert E1. cbn. unfold sweep_expired. intros [= <- _] k y. cbn. intros [Hy _]%map_lookup_filter_Some.
      rewrite lookup_fmap in Hy. destruct (ops p !! k) as [x |] eqn:E; [| done]. injection Hy as <-. cbn.
      specialize (Ha k x E). specialize (Hn k x E). rewrite wrap_u32_small; unfold is_u32; lia. }
    pose proof (IH p1 p2 d2 (n + 1) Hm ltac:(by eapply pstep_ages) Hj Hn1 E2 i o Ho) as H.
    unfold sweeps in *. cbn [omap list_omap]. rewrite blen_cons. lia.
Qed.

Lemma prun_app max_age es : forall p es2,
  prun max_age p (es ++ es2) =
  let '(p1, d1) := prun max_age p es in let '(p2, d2) := prun max_age p1 es2 in (p2, d1 ++ d2).
Proof.
  induction es as [| e es IH]; intros p es2; cbn [prun app]; [by destruct (prun max_age p es2) |].
  destruct (pstep max_age p e) as [p1 d1]. rewrite IH. destruct (prun max_age p1 es) as [p2 d2].
  destruct (prun max_age p2 es2) as [p3 d3]. by rewrite app_assoc.
Qed.

(** Every write is answered exactly once, and in bounded time.  Take any interleaving of replicated
    writes, acknowledgements (of any operation, any number of times, from anybody) and clock ticks, followed
    by the timeout's number of ticks without new writes: the responses delivered are exactly the
    responses handed over, each once. *)
Theorem responses_delivered_once max_age es tail :
  0 < max_age < 2 ^ 32 -> NoDup (job_ids es) ->
  Forall (fun e => match e with PJob bs _ _ _ _ => blen bs < 2 ^ 32 | _ => True end) es ->
  job_ids tail = [] -> max_age <= sweeps tail ->
  (prun max_age new_pending (es ++ tail)).2 ≡ₚ handed es.
Proof.
  intros Hm Hn Hb Ht Hs. rewrite prun_app. destruct (prun max_age new_pending es) as [p1 d1] eqn:E1.
  destruct (prun max_age p1 tail) as [p2 d2] eqn:E2. cbn [snd].
  assert (ages_below max_age new_pending) as Ha0 by (intros i o H; cbn in H; by rewrite lookup_empty in H).
  destruct (prun_conserves max_age es new_pending p1 d1 Hm Ha0 Hn) as [C1 A1]; [intros; apply lookup_empty | done | done |].
  destruct (prun_conserves max_age tail p1 p2 d2 Hm A1) as [C2 A2]; [rewrite Ht; constructor | rewrite Ht; set_solver | | done |].
  { apply Forall_forall. intros e He. destruct e as [bs op m conn r | |]; [| done..]. exfalso.
    assert (op ∈ job_ids tail) as Hin by (apply list_elem_of_omap; eexists; split; [exact He | done]). rewrite Ht in Hin. set_solver. }
  assert (ops p2 = ∅) as Hempty.
  { apply map_eq. intros i. rewrite lookup_empty. apply eq_None_not_Some. intros [o Ho].
    pose proof (prun_drains max_age tail p1 p2 d2 0 Hm A1 Ht ltac:(intros k x Hx; specialize (A1 k x Hx); lia) E2 i o Ho).
    specialize (A2 i o Ho). lia. }
  assert (waiting p2 = []) as Hw by (unfold waiting; by rewrite Hempty, map_to_list_empty).
  assert (handed tail = []) as Hh.
  { clear -Ht. induction tail as [| [bs op m conn r | |] tail IH]; [done | done | |]; apply IH, Ht. }
  rewrite Hw, Hh, app_nil_r in C2. unfold waiting at 1 in C1. cbn [new_pending ops] in C1.
  rewrite map_to_list_empty, app_nil_r in C1. rewrite C1, <- C2. done.
Qed.

Lemma responses_delivered_once_witness :
  (prun 3 new_pending ([PJob [1; 2]%nat 1 (BackupRemove 1 [] []) 70 (bstr "a"); PAck 1; PJob [] 2 (BackupRemove 2 [] []) 71 (bstr "b");
                        PJob [1]%nat 3 (BackupRemove 3 [] []) 72 (bstr "c"); PSweep; PAck 1; PAck 1] ++ [PSweep; PAck 9; PSweep; PSweep])).2
  ≡ₚ handed [PJob [1; 2]%nat 1 (BackupRemove 1 [] []) 70 (bstr "a"); PAck 1; PJob [] 2 (BackupRemove 2 [] []) 71 (bstr "b");
             PJob [1]%nat 3 (BackupRemove 3 [] []) 72 (bstr "c"); PSweep; PAck 1; PAck 1].
Proof.
  apply responses_delivered_once; [lia | | | reflexivity | vm_compute; congruence].
  - vm_compute. repeat (constructor; [set_solver |]). constructor.
  - repeat constructor.
Defined.

(** ** An acknowledged write is on every backup

    A primary, its backups, and a network that may lose, delay and reorder the requests and the
    acknowledgements between them. *)

(** A request to, or an acknowledgement from, a backup. *)
Record cluster := mkNet {
  primary : Pending;
  next_op : Z;
  requests : list (nat * Z);
  acks : list (nat * Z);
  applied : list (nat * Z);          (** what each backup has applied *)
  targets : gmap Z (list nat);       (** the backups each operation was sent to *)
  released : list Z                  (** operations whose response an acknowledgement released *)
}.

Definition start : cluster := mkNet new_pending 1 [] [] [] ∅ [].

Inductive rstep (max_age : Z) : cluster -> cluster -> Prop :=
| r_job s bs msg conn resp p out ds :
    NoDup bs -> blen bs < 2 ^ 32 ->
    replicate_job bs (next_op s) msg conn resp (primary s) = (p, out, ds) ->
    rstep max_age s (mkNet p (next_op s + 1) (requests s ++ map (fun bm : nat * Msg => (bm.1, next_op s)) out) (acks s)
                       (applied s) (<[next_op s := bs]> (targets s)) (released s))
| r_apply s l1 b op l2 :
    (* a backup applies the mutation, then acknowledges it *)
    requests s = l1 ++ (b, op) :: l2 ->
    rstep max_age s (mkNet (primary s) (next_op s) (l1 ++ l2) (acks s ++ [(b, op)]) ((b, op) :: applied s) (targets s) (released s))
| r_ack s l1 b op l2 p d :
    acks s = l1 ++ (b, op) :: l2 -> ack op (primary s) = (p, d) ->
    rstep max_age s (mkNet p (next_op s) (requests s) (l1 ++ l2) (applied s) (targets s)
                       (match d with Some _ => op :: released s | None => released s end))
| r_sweep s p ds :
    sweep_expired max_age (primary s) = (p, ds) ->
    rstep max_age s (mkNet p (next_op s) (requests s) (acks s) (applied s) (targets s) (released s))
| r_lose_request s l1 x l2 :
    requests s = l1 ++ x :: l2 ->
    rstep max_age s (mkNet (primary s) (next_op s) (l1 ++ l2) (acks s) (applied s) (targets s) (released s))
| r_lose_ack s l1 x l2 :
    acks s = l1 ++ x :: l2 ->
    rstep max_age s (mkNet (primary s) (next_op s) (requests s) (l1 ++ l2) (applied s) (targets s) (released s)).

(** Every operation has gone to distinct backups; an acknowledgement in flight was sent by a backup that applied
    the operation; and the backups that are still to be heard from, for an operation that waits, are as many as it
    waits for. *)
Record rinv (s : cluster) : Prop := {
  ri_nodup : NoDup (requests s ++ acks s);
  ri_acks : forall x, x ∈ acks s -> x ∈ applied s;
  ri_sent : forall b op, (b, op) ∈ requests s ++ acks s -> exists bs, targets s !! op = Some bs /\ b ∈ bs;
  ri_targets : forall op bs, targets s !! op = Some bs -> NoDup bs /\ op < next_op s;
  ri_waiting : forall op o, ops (primary s) !! op = Some o ->
    exists bs heard, targets s !! op = Some bs /\ NoDup heard /\ 0 < remaining o /\ blen heard + remaining o = blen bs
      /\ (forall b, b ∈ heard -> b ∈ bs /\ (b, op) ∈ applied s /\ (b, op) ∉ requests s ++ acks s);
  ri_released : forall op, op ∈ released s -> exists bs, targets s !! op = Some bs /\ forall b, b ∈ bs -> (b, op) ∈ applied s
}.

Lemma rinv_start : rinv start.
Proof.
  split; cbn; [constructor | set_solver | set_solver | | | set_solver]; intros ? ?; by rewrite lookup_empty.
Qed.

(** Removing a message, or a waiting operation, keeps the invariant. *)
Lemma rinv_fewer s p rq ak :
  rinv s -> (forall i o, ops p !! i = Some o -> exists o', ops (primary s) !! i = Some o' /\ remaining o' = remaining o) ->
  NoDup (rq ++ ak) -> (forall x, x ∈ rq ++ ak -> x ∈ requests s ++ acks s) -> (forall x, x ∈ ak -> x ∈ applied s) ->
  rinv (mkNet p (next_op s) rq ak (applied s) (targets s) (released s)).
Proof.
  intros [I1 I2 I3 I4 I5 I6] Hp Hn Hsub Hak. split; cbn; auto.
  intros op o Ho. destruct (Hp op o Ho) as (o' & Ho' & Er). destruct (I5 op o' Ho') as (bs & heard & H1 & H2 & H3 & H4 & H5).
  exists bs, heard. rewrite <- Er. split_and!; [done.. |]. intros b Hb. destruct (H5 b Hb) as (? & ? & Hni). split_and!; auto.
Qed.

Lemma rinv_job s bs msg conn resp p out ds :
  rinv s -> NoDup bs -> blen bs < 2 ^ 32 -> replicate_job bs (next_op s) msg conn resp (primary s) = (p, out, ds) ->
  rinv (mkNet p (next_op s + 1) (requests s ++ map (fun bm : nat * Msg => (bm.1, next_op s)) out) (acks s)
          (applied s) (<[next_op s := bs]> (targets s)) (released s)).
Proof.
  intros [I1 I2 I3 I4 I5 I6] Hbs Hlen E.
  assert (targets s !! next_op s = None) as Hfresh.
  { apply eq_None_not_Some. intros [x Hx]. apply I4 in Hx as [_ Hx]. lia. }
  assert (forall b, (b, next_op s) ∉ requests s ++ acks s) as Hnone.
  { intros b Hin. apply I3 in Hin as (x & Hx & _). congruence. }
  assert (map (fun bm : nat * Msg => (bm.1, next_op s)) out = map (fun b => (b, next_op s)) bs
          /\ forall i o, ops p !! i = Some o -> ops (primary s) !! i = Some o \/ (i = next_op s /\ remaining o = blen bs /\ bs <> [])) as [Eo Hops].
  { revert E. unfold replicate_job. destruct bs as [| b bs]; [intros [= <- <- _]; auto |]. unfold register.
    rewrite wrap_u32_small by (unfold is_u32; pose proof (blen_nonneg (b :: bs)); done).
    rewrite (proj2 (Z.eqb_neq (blen (b :: bs)) 0)) by (rewrite blen_cons; pose proof (blen_nonneg bs); lia).
    intros [= <- <- _]. split; [cbn; f_equal; by rewrite map_map |]. intros i o. cbn.
    destruct (decide (next_op s = i)) as [<- |]; [rewrite lookup_insert_eq; intros [= <-]; auto | rewrite lookup_insert_ne by done; auto]. }
  rewrite Eo. clear E Eo out. split; cbn.
  - rewrite <- app_assoc, (Permutation_app_comm (map _ _)), app_assoc. apply NoDup_app. split_and!; [done | |].
    + intros x Hx (b & -> & _)%list_elem_of_fmap. by apply (Hnone b).
    + apply NoDup_fmap_2; [intros x y; congruence | done].
  - done.
  - intros b op Hin. rewrite <- app_assoc, (Permutation_app_comm (map _ _)), app_assoc in Hin.
    apply elem_of_app in Hin as [Hin | (x & [= -> ->] & Hx)%list_elem_of_fmap].
    + destruct (I3 b op Hin) as (x & Hx & ?). exists x. rewrite lookup_insert_ne by congruence. done.
    + exists bs. by rewrite lookup_insert_eq.
  - intros op x. destruct (decide (next_op s = op)) as [<- |]; [rewrite lookup_insert_eq; intros [= <-]; split; [done | lia] |].
    rewrite lookup_insert_ne by done. intros [? ?]%I4. split; [done | lia].
  - intros op o [Ho | (-> & Er & Hne)]%Hops.
    + destruct (I5 op o Ho) as (x & heard & H1 & H2 & H3 & H4 & H5). exists x, heard. rewrite lookup_insert_ne by congruence.
      split_and!; [done.. |]. intros b Hb. destruct (H5 b Hb) as (Hbx & Hap & Hni). split_and!; [done.. |].
      rewrite <- app_assoc, (Permutation_app_comm (map _ _)), app_assoc. intros [Hin | (y & [= -> ->] & Hy)%list_elem_of_fmap]%elem_of_app; [done |].
      congruence.
    + exists bs, []. rewrite lookup_insert_eq, Er. split_and!; [done | constructor | | done | set_solver].
      destruct bs; [done |]. rewrite blen_cons. pose proof (blen_nonneg bs). lia.
  - intros op Hin. destruct (I6 op Hin) as (x & Hx & ?). exists x. rewrite lookup_insert_ne by congruence. done.
Qed.

Lemma rinv_ack s l1 b op l2 p d :
  rinv s -> acks s = l1 ++ (b, op) :: l2 -> ack op (primary s) = (p, d) ->
  rinv (mkNet p (next_op s) (requests s) (l1 ++ l2) (applied s) (targets s)
          (match d with Some _ => op :: released s | None => released s end)).
Proof.
  intros I Ea E. pose proof I as [I1 I2 I3 I4 I5 I6].
  assert (requests s ++ acks s ≡ₚ (b, op) :: (requests s ++ l1 ++ l2)) as Hperm.
  { rewrite Ea, (app_assoc _ l1), (app_assoc _ l1 l2). symmetry. apply Permutation_middle. }
  assert (NoDup (requests s ++ l1 ++ l2) /\ (b, op) ∉ requests s ++ l1 ++ l2) as [Hn Hni].
  { rewrite Hperm in I1. by apply NoDup_cons in I1 as [? ?]. }
  assert (forall x, x ∈ requests s ++ l1 ++ l2 -> x ∈ requests s ++ acks s) as Hsub.
  { intros x Hx. rewrite Hperm. set_solver. }
  assert (forall x, x ∈ l1 ++ l2 -> x ∈ applied s) as Hak by (intros x Hx; apply I2; rewrite Ea; set_solver).
  revert E. unfold ack. destruct (ops (primary s) !! op) as [o |] eqn:Eo.
  2: { intros [= <- <-]. apply rinv_fewer; eauto. }
  destruct (I5 op o Eo) as (bs & heard & H1 & H2 & H3 & H4 & H5).
  assert ((b, op) ∈ requests s ++ acks s) as Hbop by (rewrite Hperm; set_solver).
  destruct (I3 b op Hbop) as (bs' & Hbs' & Hb). assert (bs' = bs) as -> by congruence.
  assert (b ∉ heard) as Hbh by (intros Hh; by destruct (H5 b Hh) as (_ & _ & ?)).
  assert ((b, op) ∈ applied s) as Hbap by (apply I2; rewrite Ea; set_solver).
  unfold sat_sub. rewrite Z.max_r by lia. case (Z.eqb_spec (remaining o - 1) 0) as [Hz | Hz]; intros [= <- <-].
  - (* the last one: every target has been heard *)
    destruct (rinv_fewer s (mkPending (delete op (ops (primary s)))) (requests s) (l1 ++ l2) I) as [J1 J2 J3 J4 J5 J6]; [| done.. |].
    { cbn. intros i x [_ Hx]%lookup_delete_Some. eauto. }
    split; [done.. |]. cbn. intros op' [-> | Hin]%elem_of_cons; [| by apply J6]. exists bs. split; [done |].
    assert (b :: heard ≡ₚ bs) as Hall.
    { apply submseteq_length_Permutation; [apply NoDup_submseteq; [by apply NoDup_cons |] |].
      - intros x [-> | Hx]%elem_of_cons; [done |]. by apply H5.
      - unfold blen in H4. cbn. lia. }
    intros x Hx. rewrite <- Hall in Hx. apply elem_of_cons in Hx as [-> | Hx]; [done |]. by apply H5.
  - split; cbn; try done; [auto.. |]. intros op' o'. destruct (decide (op = op')) as [<- | Hne].
    + rewrite lookup_insert_eq. intros [= <-]. exists bs, (b :: heard). cbn. rewrite blen_cons.
      split_and!; [done | by apply NoDup_cons | lia | lia |]. intros x [-> | Hx]%elem_of_cons; [done |].
      destruct (H5 x Hx) as (? & ? & Hx'). split_and!; auto.
    + rewrite lookup_insert_ne by done. intros Ho'. destruct (I5 op' o' Ho') as (bs' & h' & ? & ? & ? & ? & H5').
      exists bs', h'. split_and!; [done.. |]. intros x Hx. destruct (H5' x Hx) as (? & ? & ?). split_and!; auto.
Qed.

Lemma rinv_apply s l1 b op l2 :
  rinv s -> requests s = l1 ++ (b, op) :: l2 ->
  rinv (mkNet (primary s) (next_op s) (l1 ++ l2) (acks s ++ [(b, op)]) ((b, op) :: applied s) (targets s) (released s)).
Proof.
  intros [I1 I2 I3 I4 I5 I6] Er.
  assert ((l1 ++ l2) ++ acks s ++ [(b, op)] ≡ₚ requests s ++ acks s) as Hperm.
  { rewrite Er, app_assoc. rewrite <- (Permutation_cons_append _ (b, op)), <- !app_assoc. cbn. apply Permutation_middle. }
  split; cbn.
  - by rewrite Hperm.
  - intros x [Hx | ->%list_elem_of_singleton]%elem_of_app; [right; by apply I2 | left].
  - intros b' op' Hin. rewrite Hperm in Hin. by apply I3.
  - done.
  - intros op' o Ho. destruct (I5 op' o Ho) as (bs & heard & ? & ? & ? & ? & H5). exists bs, heard. split_and!; [done.. |].
    intros x Hx. destruct (H5 x Hx) as (? & ? & ?). split_and!; [done | by right |]. by rewrite Hperm.
  - intros op' Hin. destruct (I6 op' Hin) as (bs & ? & H). exists bs. split; [done |]. intros x Hx. right. by apply H.
Qed.

Lemma rstep_inv max_age s s' : rinv s -> rstep max_age s s' -> rinv s'.
Proof.
  intros I Hs. destruct Hs as [s bs msg conn resp p out ds Hn Hl E | s l1 b op l2 E | s l1 b op l2 p d Ea E | s p ds E | s l1 x l2 E | s l1 x l2 E].
  - by eapply rinv_job.
  - by apply rinv_apply.
  - by eapply rinv_ack.
  - apply (rinv_fewer s p (requests s) (acks s) I); [| apply (ri_nodup _ I) | done | apply (ri_acks _ I)].
    intros i o Ho. injection E as <- _. cbn in Ho. apply map_lookup_filter_Some in Ho as [Ho _]. rewrite lookup_fmap in Ho.
    destruct (ops (primary s) !! i) as [y |]; [| done]. injection Ho as <-. eauto.
  - pose proof (ri_nodup _ I) as Hn. rewrite E in Hn.
    apply (rinv_fewer s (primary s) (l1 ++ l2) (acks s) I); [eauto | | rewrite E; set_solver | apply (ri_acks _ I)].
    rewrite <- app_assoc in Hn |- *. cbn in Hn. rewrite <- Permutation_middle in Hn. by apply NoDup_cons in Hn as [_ ?].
  - pose proof (ri_nodup _ I) as Hn. rewrite E in Hn.
    apply (rinv_fewer s (primary s) (requests s) (l1 ++ l2) I); [eauto | | rewrite E; set_solver |].
    + rewrite app_assoc in Hn |- *. rewrite <- Permutation_middle in Hn. by apply NoDup_cons in Hn as [_ ?].
    + intros y Hy. apply (ri_acks _ I). rewrite E. set_solver.
Qed.


