(* ===== verification/Transport.v ===== *)
(** * The member transport (crates/member/src/transport.rs)

    One io_uring loop per member: inbound and outbound connections in numbered slots, frames decoded
    from what arrives, messages routed by destination over outbound connections that are dialed on
    demand.  The rustls session of crates/security/src/tls.rs is a parameter.  [on_cqe] is the body of
    the loop for one completion.  Proved here: a connection delivers what was sent on it, in order,
    whatever the sizes of partial sends and of reads; and what a frame that does not decode, a completion
    that outlives its connection and a TLS session that cannot be created lead to. *)

From S2P Require Import Prelude Framed MemberWire.

Inductive TlsMode := Disabled | Permissive | Required.

(** The TLS library: a session is created for an inbound or an outbound connection, fed with what
    arrives, and handed to the kernel when its handshake is over. *)
Class MemberTls := {
  Handshake : Type;
  mode : TlsMode;
  accept : option Handshake;
  dial : option Handshake;
  pump : Handshake -> bytes -> Handshake * bytes * bytes * option bool;   (** state, to send, plaintext, and whether it is ready or failed *)
  install : Handshake -> Z -> bool
}.

Section Transport.
Context `{T : MemberTls}.

Inductive MTls := Plain | Detect | Handshaking (hs : Handshake) | Ktls.

Record MConn := mkConn {
  fd : Z;
  peer : option Z;
  acc : bytes;
  out : bytes;
  sendbuf : bytes;
  inflight : Z;
  open : bool;
  tls : MTls;
  app_out : bytes;
  hs_done : bool
}.

Definition new_conn (fd : Z) (tls : MTls) : MConn := mkConn fd None [] [] [] 0 true tls [] false.

Definition set_peer (p : Z) (c : MConn) : MConn :=
  mkConn (fd c) (Some p) (acc c) (out c) (sendbuf c) (inflight c) (open c) (tls c) (app_out c) (hs_done c).
Definition set_acc (a : bytes) (c : MConn) : MConn :=
  mkConn (fd c) (peer c) a (out c) (sendbuf c) (inflight c) (open c) (tls c) (app_out c) (hs_done c).
Definition set_out (o : bytes) (c : MConn) : MConn :=
  mkConn (fd c) (peer c) (acc c) o (sendbuf c) (inflight c) (open c) (tls c) (app_out c) (hs_done c).
Definition set_send (s : bytes) (n : Z) (c : MConn) : MConn :=
  mkConn (fd c) (peer c) (acc c) (out c) s n (open c) (tls c) (app_out c) (hs_done c).
Definition set_tls (t : MTls) (c : MConn) : MConn :=
  mkConn (fd c) (peer c) (acc c) (out c) (sendbuf c) (inflight c) (open c) t (app_out c) (hs_done c).
Definition shut (c : MConn) : MConn :=
  mkConn (fd c) (peer c) (acc c) (out c) (sendbuf c) (inflight c) false (tls c) (app_out c) (hs_done c).

Definition queue_app (b : bytes) (c : MConn) : MConn :=
  match tls c with
  | Plain | Ktls => set_out (out c ++ b) c
  | _ => mkConn (fd c) (peer c) (acc c) (out c) (sendbuf c) (inflight c) (open c) (tls c) (app_out c ++ b) (hs_done c)
  end.

(** A submission: a receive into the connection's buffer, or a send of the given bytes. *)
Inductive sqe := SRecv (slot : nat) (fd : Z) | SSend (slot : nat) (fd : Z) (data : bytes).

Definition arm_recv_conn (slot : nat) (c : MConn) : list sqe := [SRecv slot (fd c)].

Definition arm_send_conn (slot : nat) (c : MConn) : MConn * list sqe :=
  if 0 <? inflight c then (c, []) else
  let c' := match sendbuf c with [] => set_out [] (set_send (out c) (inflight c) c) | _ => c end in
  match sendbuf c' with
  | [] => (c, [])
  | _ => (set_send (sendbuf c') (blen (sendbuf c')) c', [SSend slot (fd c') (sendbuf c')])
  end.

(** The state of a newly accepted, and of a newly dialed, connection. *)
Definition inbound_tls (enabled : bool) : MTls :=
  if enabled then
    match mode with
    | Disabled => Plain
    | Permissive => Detect
    | Required => match accept with Some hs => Handshaking hs | None => Plain end
    end
  else Plain.

Definition outbound_tls (enabled : bool) : MTls :=
  if enabled then
    match mode with
    | Disabled => Plain
    | _ => match dial with Some hs => Handshaking hs | None => Plain end
    end
  else Plain.

Definition maybe_install_ktls (c : MConn) : MConn :=
  if negb (hs_done c) then c else
  if negb (bool_decide (sendbuf c = []) && bool_decide (out c = []) && (inflight c =? 0)) then c else
  match tls c with
  | Handshaking hs =>
    if install hs (fd c)
    then mkConn (fd c) (peer c) (acc c) (out c ++ app_out c) (sendbuf c) (inflight c) (open c) Ktls [] (hs_done c)
    else shut (set_tls Plain c)
  | _ => set_tls Plain c
  end.

(** [on_send]: [res] bytes were taken, or the send failed. *)
Definition on_send_conn (slot : nat) (res : Z) (c : MConn) : outcome (MConn * list sqe) :=
  if res <? 0 then Ok (shut c, []) else
  if blen (sendbuf c) <? res then Panic else
  Ok (arm_send_conn slot (maybe_install_ktls (set_send (drop (Z.to_nat res) (sendbuf c)) 0 c))).

(** [mtls_pump] on what was received; [true] when there is plaintext to decode. *)
Definition mtls_pump (slot : nat) (rbuf : bytes) (c : MConn) : MConn * list sqe * bool :=
  match tls c with
  | Handshaking hs =>
    let c := match pump hs rbuf with
             | (hs, send, plain, Some ready) =>
               maybe_install_ktls
                 (mkConn (fd c) (peer c) (acc c ++ plain) (out c ++ send) (sendbuf c) (inflight c) (open c)
                    (Handshaking hs) (app_out c) (hs_done c || ready))
             | (_, _, _, None) => shut (set_tls Plain c)
             end in
    if open c then let '(c, q) := arm_send_conn slot c in (c, q, negb (bool_decide (acc c = [])))
    else (c, [], false)
  | _ => (c, [], true)
  end.

Definition mtls_ingest (enabled : bool) (slot : nat) (rbuf : bytes) (c : MConn) : MConn * list sqe * bool :=
  match tls c with
  | Plain | Ktls => (set_acc (acc c ++ rbuf) c, [], true)
  | Detect =>
    if match rbuf with b :: _ => u8 b =? 0x16 | [] => false end then
      match (if enabled then accept else None) with
      | Some hs => mtls_pump slot rbuf (set_tls (Handshaking hs) c)
      | None => (shut c, [], false)
      end
    else (set_acc (acc c ++ rbuf) (set_tls Plain c), [], true)
  | Handshaking _ => mtls_pump slot rbuf c
  end.

(** ** The loop *)

(** The member-thread logic the transport drives. *)
Context {S : Type}.
Variable on_msg : S -> Z -> Msg -> outcome (S * list (Z * Msg)).
Variable on_tick : S -> outcome (S * list (Z * Msg)).

(** [c.peer.unwrap_or(usize::MAX)] *)
Definition source_of (c : MConn) : Z := default (2 ^ 64 - 1) (peer c).

(** Decode and dispatch until no frame is complete; every frame takes at least five bytes. *)
Fixpoint recv_loop (fuel : nat) (c : MConn) (s : S) (outbox : list (Z * Msg)) : outcome (MConn * S * list (Z * Msg)) :=
  match fuel with
  | O => Ok (c, s, outbox)
  | Datatypes.S fuel' =>
    match decode (acc c) with
    | None => Ok (c, s, outbox)
    | Some (msg, n) =>
      let c := set_acc (drop (Z.to_nat n) (acc c)) c in
      match msg with
      | Hello index => recv_loop fuel' (set_peer index c) s outbox
      | other => '(s, out) ← on_msg s (source_of c) other; recv_loop fuel' c s (outbox ++ out)
      end
    end
  end.

(** [on_recv]: the peer closed, or [res] bytes arrived. *)
Definition on_recv_conn (enabled : bool) (slot : nat) (res : Z) (rbuf : bytes) (c : MConn) (s : S) (outbox : list (Z * Msg)) :
  outcome (MConn * list sqe * S * list (Z * Msg)) :=
  if res <=? 0 then Ok (shut c, [], s, outbox) else
  let '(c, q, plain) := mtls_ingest enabled slot rbuf c in
  if negb plain then Ok (c, if open c then q ++ arm_recv_conn slot c else q, s, outbox) else
  '(c, s, outbox) ← recv_loop (length (acc c)) c s outbox;
  Ok (c, q ++ arm_recv_conn slot c, s, outbox).

Record mesh := mkMesh {
  conns : list (option MConn);
  free : list nat;
  outbound : gmap Z nat;
  pending : list sqe;
  outbox : list (Z * Msg)
}.

(** [conns[slot].as_mut().unwrap()] *)
Definition conn_at (slot : nat) (m : mesh) : outcome MConn :=
  match conns m !! slot with Some (Some c) => Ok c | _ => Panic end.

Definition set_conn (slot : nat) (c : option MConn) (m : mesh) : mesh :=
  mkMesh (<[slot := c]> (conns m)) (free m) (outbound m) (pending m) (outbox m).
Definition submit (q : list sqe) (m : mesh) : mesh :=
  mkMesh (conns m) (free m) (outbound m) (pending m ++ q) (outbox m).

(** A slot for a new connection: the last one freed, or one more. *)
Definition alloc (fd : Z) (t : MTls) (m : mesh) : outcome (mesh * nat) :=
  match rev (free m) with
  | i :: r =>
    if decide (i < length (conns m))%nat
    then Ok (mkMesh (<[i := Some (new_conn fd t)]> (conns m)) (rev r) (outbound m) (pending m) (outbox m), i)
    else Panic
  | [] => Ok (mkMesh (conns m ++ [Some (new_conn fd t)]) [] (outbound m) (pending m) (outbox m), length (conns m))
  end.

Definition set_outbound (o : gmap Z nat) (m : mesh) : mesh := mkMesh (conns m) (free m) o (pending m) (outbox m).

Definition is_open (slot : nat) (m : mesh) : bool :=
  match conns m !! slot with Some (Some c) => open c | _ => false end.

(** A dialed connection: the ClientHello when TLS is on, then this member's [Hello]. *)
Definition dialed (self_index : Z) (dest : Z) (c : MConn) : MConn :=
  let c := set_peer dest c in
  let c := match tls c with
           | Handshaking hs =>
             let '(hs, send, _, _) := pump hs [] in set_tls (Handshaking hs) (set_out (out c ++ send) c)
           | _ => c
           end in
  queue_app (encode (Hello (wrap_u32 self_index))) c.

(** [connect] is what [TcpStream::connect] returns for an address: a descriptor, or an error. *)
Definition dial_out (enabled : bool) (self_index : Z) (peers : gmap Z Z) (connect : Z -> option Z) (dest : Z) (m : mesh) :
  outcome (mesh * option nat) :=
  match (addr ← peers !! dest; connect addr) with
  | None => Ok (m, None)
  | Some fd =>
    '(m, slot) ← alloc fd (outbound_tls enabled) m;
    c ← conn_at slot m;
    let c := dialed self_index dest c in
    let '(c', q) := arm_send_conn slot c in
    Ok (submit (arm_recv_conn slot c ++ q) (set_outbound (<[dest := slot]> (outbound m)) (set_conn slot (Some c') m)), Some slot)
  end.

Definition ensure_outbound (enabled : bool) (self_index : Z) (peers : gmap Z Z) (connect : Z -> option Z) (dest : Z) (m : mesh) :
  outcome (mesh * option nat) :=
  match outbound m !! dest with
  | Some slot =>
    if is_open slot m then Ok (m, Some slot)
    else dial_out enabled self_index peers connect dest (set_outbound (delete dest (outbound m)) m)
  | None => dial_out enabled self_index peers connect dest m
  end.

(** Route one message; it is dropped when its destination cannot be reached. *)
Definition deliver_one (enabled : bool) (self_index : Z) (peers : gmap Z Z) (connect : Z -> option Z) (dm : Z * Msg) (m : mesh) : outcome mesh :=
  '(m, slot) ← ensure_outbound enabled self_index peers connect dm.1 m;
  match slot with
  | None => Ok m
  | Some slot =>
    c ← conn_at slot m;
    let '(c, q) := arm_send_conn slot (queue_app (encode dm.2) c) in
    Ok (submit q (set_conn slot (Some c) m))
  end.

Fixpoint deliver_all (enabled : bool) (self_index : Z) (peers : gmap Z Z) (connect : Z -> option Z) (l : list (Z * Msg)) (m : mesh) : outcome mesh :=
  match l with
  | [] => Ok m
  | dm :: r => m ← deliver_one enabled self_index peers connect dm m; deliver_all enabled self_index peers connect r m
  end.

(** [outbox.drain(..)] *)
Definition deliver (enabled : bool) (self_index : Z) (peers : gmap Z Z) (connect : Z -> option Z) (m : mesh) : outcome mesh :=
  deliver_all enabled self_index peers connect (outbox m) (mkMesh (conns m) (free m) (outbound m) (pending m) []).

(** A closed connection gives its slot back. *)
Definition reap (slot : nat) (m : mesh) : mesh :=
  match conns m !! slot with
  | Some (Some c) =>
    if open c then m else
    mkMesh (<[slot := None]> (conns m)) (free m ++ [slot])
      (match peer c with
       | Some p => if decide (outbound m !! p = Some slot) then delete p (outbound m) else outbound m
       | None => outbound m
       end) (pending m) (outbox m)
  | _ => mkMesh (conns m) (free m ++ [slot]) (outbound m) (pending m) (outbox m)
  end.

(** A completion: the 1 ms timer, an accepted connection, or the end of a receive or a send.  The slot is all that a
    completion says about its connection. *)
Inductive cqe := CTimer | CAccept (res : Z) | CRecv (slot : nat) (res : Z) (data : bytes) | CSend (slot : nat) (res : Z).

Definition on_cqe (enabled : bool) (self_index : Z) (peers : gmap Z Z) (connect : Z -> option Z) (e : cqe) (m : mesh) (s : S) :
  outcome (mesh * S) :=
  match e with
  | CTimer =>
    '(s, out) ← on_tick s;
    m ← deliver enabled self_index peers connect (mkMesh (conns m) (free m) (outbound m) (pending m) (outbox m ++ out));
    Ok (m, s)
  | CAccept res =>
    if res <? 0 then Ok (m, s) else
    '(m, slot) ← alloc res (inbound_tls enabled) m;
    c ← conn_at slot m;
    Ok (submit (arm_recv_conn slot c) m, s)
  | CSend slot res =>
    match conns m !! slot with
    | Some (Some c) => '(c, q) ← on_send_conn slot res c; Ok (reap slot (submit q (set_conn slot (Some c) m)), s)
    | _ => Ok (m, s)
    end
  | CRecv slot res data =>
    match conns m !! slot with
    | Some (Some c) =>
      '(c, q, s, ob) ← on_recv_conn enabled slot res data c s (outbox m);
      let m := submit q (set_conn slot (Some c) m) in
      m ← deliver enabled self_index peers connect (mkMesh (conns m) (free m) (outbound m) (pending m) ob);
      Ok (reap slot m, s)
    | _ => Ok (m, s)
    end
  end.
End Transport.

(** ** One connection, end to end, without TLS *)

Section Stream.
Context `{T : MemberTls}.

(** The calls of the handler, recorded. *)
Definition record (s : list (Z * Msg)) (src : Z) (m : Msg) : outcome (list (Z * Msg) * list (Z * Msg)) := Ok (s ++ [(src, m)], []).

(** The calls that a sequence of frames leads to: a [Hello] names the sender of what follows. *)
Fixpoint calls (p : option Z) (l : list Msg) : list (Z * Msg) :=
  match l with
  | [] => []
  | Hello i :: r => calls (Some i) r
  | m :: r => (default (2 ^ 64 - 1) p, m) :: calls p r
  end.

Fixpoint last_hello (p : option Z) (l : list Msg) : option Z :=
  match l with [] => p | Hello i :: r => last_hello (Some i) r | _ :: r => last_hello p r end.

Lemma encode_long m : (0 < length (encode m))%nat.
Proof. apply put_blob_length. Qed.

Lemma decode_nil : decode [] = None.
Proof. reflexivity. Qed.

Definition is_hello (m : Msg) : bool := match m with Hello _ => true | _ => false end.

(** One frame: a [Hello] sets the peer, any other message is a call of the handler. *)
Lemma recv_loop_step fuel c s ob m d :
  msg_ok m -> acc c = encode m ++ d ->
  recv_loop record (S fuel) c s ob =
  recv_loop record fuel (match m with Hello i => set_peer i (set_acc d c) | _ => set_acc d c end)
    (s ++ calls (peer c) [m]) ob.
Proof.
  intros Hm Hd. cbn [recv_loop]. rewrite Hd, decode_put by done.
  replace (Z.to_nat (blen (encode m))) with (length (encode m)) by (unfold blen; lia). rewrite drop_app_length.
  destruct m; cbn [calls]; rewrite ?app_nil_r; try done;
    cbn [mbind outcome_bind record]; by rewrite app_nil_r.
Qed.

Lemma calls_cons p m l : calls p (m :: l) = calls p [m] ++ calls (last_hello p [m]) l.
Proof. by destruct m. Qed.

Lemma last_hello_cons p m l : last_hello p (m :: l) = last_hello (last_hello p [m]) l.
Proof. by destruct m. Qed.

(** A buffer that holds the beginning of [encode m :: rest] holds the whole frame, or decodes to
    nothing. *)
Lemma first_frame m d q rest :
  msg_ok m -> d ++ q = encode m ++ rest ->
  (exists d', d = encode m ++ d' /\ d' ++ q = rest) \/ decode d = None.
Proof.
  intros Hm Hq. destruct (decide (length (encode m) <= length d)%nat) as [Hle | Hgt]; [left | right].
  - exists (drop (length (encode m)) d). assert (take (length (encode m)) d = encode m) as Ht.
    { apply (f_equal (take (length (encode m)))) in Hq. rewrite take_app_le, take_app_length in Hq by done. done. }
    split; [rewrite <- Ht at 1; symmetry; apply take_drop |].
    apply (f_equal (drop (length (encode m)))) in Hq. rewrite drop_app_le, drop_app_length in Hq by done. done.
  - apply (decode_partial m d (drop (length d) (encode m))); [done | |].
    + transitivity (take (length d) (encode m) ++ drop (length d) (encode m)); [| apply take_drop]. f_equal.
      apply (f_equal (take (length d))) in Hq. rewrite take_app_length, take_app_le in Hq by lia. done.
    + intros E%(f_equal length). rewrite length_drop in E. simpl in E. lia.
Qed.

(** Reading from a buffer that holds the beginning [d] of a sequence of frames. *)
Lemma recv_loop_prefix fuel : forall L d q c s ob,
  Forall msg_ok L -> acc c = d -> d ++ q = frames L -> (length d <= fuel)%nat ->
  exists k c', recv_loop record fuel c s ob = Ok (c', s ++ calls (peer c) (take k L), ob)
    /\ peer c' = last_hello (peer c) (take k L) /\ tls c' = tls c /\ acc c' ++ q = frames (drop k L) /\ decode (acc c') = None.
Proof.
  assert (forall L d q c s ob, acc c = d -> d ++ q = frames L -> decode d = None -> forall fuel,
    exists k c', recv_loop record fuel c s ob = Ok (c', s ++ calls (peer c) (take k L), ob)
      /\ peer c' = last_hello (peer c) (take k L) /\ tls c' = tls c /\ acc c' ++ q = frames (drop k L) /\ decode (acc c') = None) as Hstop.
  { intros L d q c s ob Hd Hq Hn fuel'. exists 0%nat, c. cbn [take calls last_hello]. rewrite app_nil_r, drop_0, Hd.
    destruct fuel'; cbn [recv_loop]; rewrite ?Hd, ?Hn; done. }
  induction fuel as [| fuel IH]; intros L d q c s ob Hok Hd Hq Hf.
  { apply (Hstop L d); [done.. |]. destruct d; [apply decode_nil | simpl in Hf; lia]. }
  destruct L as [| m L]; [apply (Hstop [] d); [done.. |]; by apply app_eq_nil in Hq as [-> _] |].
  apply Forall_cons in Hok as [Hm Hok]. destruct (first_frame m d q (frames L) Hm Hq) as [(d' & -> & Hq') | Hn]; [| by apply (Hstop (m :: L) d)].
  rewrite (recv_loop_step fuel c s ob m d' Hm Hd). pose proof (encode_long m). rewrite length_app in Hf.
  set (c1 := match m with Hello i => _ | _ => _ end).
  assert (acc c1 = d' /\ tls c1 = tls c /\ peer c1 = last_hello (peer c) [m]) as (A1 & T1 & P1) by (unfold c1; by destruct m).
  destruct (IH L d' q c1 (s ++ calls (peer c) [m]) ob Hok A1 Hq' ltac:(lia)) as (k & c' & E & H1 & H2 & H3 & H4).
  exists (S k), c'. rewrite E. cbn [take drop]. rewrite (calls_cons (peer c) m (take k L)), (last_hello_cons (peer c) m (take k L)), <- P1, app_assoc.
  split_and!; congruence || done.
Qed.

(** The receiver: the chunks that arrive, one completion each. *)
Fixpoint receive_all (c : MConn) (s : list (Z * Msg)) (chunks : list bytes) : outcome (MConn * list (Z * Msg)) :=
  match chunks with
  | [] => Ok (c, s)
  | b :: r => '(c, _, s, _) ← on_recv_conn record false 0 (blen b) b c s []; receive_all c s r
  end.

Lemma calls_app l : forall p k, calls p (l ++ k) = calls p l ++ calls (last_hello p l) k.
Proof. induction l as [| m l IH]; intros p k; [done |]. cbn [app]. rewrite calls_cons, IH, app_assoc, <- calls_cons, <- last_hello_cons. done. Qed.

Lemma receive_all_prefix chunks : forall L q c s,
  Forall msg_ok L -> Forall (fun b => b <> []) chunks -> tls c = Plain -> acc c ++ concat chunks ++ q = frames L -> decode (acc c) = None ->
  exists k c', receive_all c s chunks = Ok (c', s ++ calls (peer c) (take k L))
    /\ acc c' ++ q = frames (drop k L) /\ decode (acc c') = None.
Proof.
  induction chunks as [| b chunks IH]; intros L q c s Hok Hne Ht Hq Hd.
  { exists 0%nat, c. cbn [receive_all take calls]. rewrite app_nil_r, drop_0. done. }
  apply Forall_cons in Hne as [Hb Hne]. cbn [receive_all concat] in *. unfold on_recv_conn.
  rewrite (proj2 (Z.leb_gt (blen b) 0)) by (destruct b; [done |]; rewrite blen_cons; pose proof (blen_nonneg b0); lia).
  unfold mtls_ingest. rewrite Ht. cbn [negb].
  destruct (recv_loop_prefix (length (acc (set_acc (acc c ++ b) c))) L (acc c ++ b) (concat chunks ++ q) (set_acc (acc c ++ b) c) s [] Hok eq_refl)
    as (k & c1 & E & P1 & T1 & Q1 & D1); [by rewrite <- !app_assoc in * | done |].
  rewrite E. cbn [mbind outcome_bind]. cbn [peer set_acc tls] in *.
  destruct (IH (drop k L) q c1 (s ++ calls (peer c) (take k L))) as (j & c2 & E2 & Q2 & D2); [by apply Forall_drop | done | congruence | done | done |].
  exists (k + j)%nat, c2. rewrite E2, P1, <- app_assoc, <- calls_app. split_and!; [| by rewrite <- drop_drop | done].
  by rewrite take_take_drop.
Qed.
(** The sender: a message routed to the connection, or a send that took [n] of the bytes in flight. *)
Inductive send_event := Queue (m : Msg) | Sent (n : Z).

Definition queued (evs : list send_event) : list Msg := omap (fun e => match e with Queue m => Some m | _ => None end) evs.

(** The connection and what the network has taken. *)
Fixpoint send_all (slot : nat) (c : MConn) (wire : bytes) (evs : list send_event) : outcome (MConn * bytes) :=
  match evs with
  | [] => Ok (c, wire)
  | Queue m :: r => send_all slot (arm_send_conn slot (queue_app (encode m) c)).1 wire r
  | Sent n :: r =>
    if decide (0 < inflight c /\ 0 <= n <= inflight c) then
      ('(c', _) ← on_send_conn slot n c; send_all slot c' (wire ++ take (Z.to_nat n) (sendbuf c)) r)
    else send_all slot c wire r
  end.

(** What was queued is what was taken, what is being sent and what waits, in this order. *)
Record sending (c : MConn) (wire total : bytes) : Prop := {
  sg_tls : tls c = Plain;
  sg_done : hs_done c = false;
  sg_flight : inflight c = 0 \/ inflight c = blen (sendbuf c);
  sg_total : wire ++ sendbuf c ++ out c = total
}.

Lemma sending_arm slot c wire total : sending c wire total -> sending (arm_send_conn slot c).1 wire total.
Proof.
  intros [H1 H2 H3 H4]. unfold arm_send_conn. destruct (0 <? inflight c); [by split |].
  destruct (sendbuf c) as [| x b] eqn:Es; cbn [sendbuf set_out set_send].
  - destruct (out c) as [| y o] eqn:Eo; [split; cbn [fst]; rewrite ?Es, ?Eo; done |].
    cbn. split; cbn; [done | done | by right |]. by rewrite app_nil_r.
  - rewrite Es. cbn. split; cbn; [done | done | by right | done].
Qed.

Lemma sending_queue slot c wire total b :
  sending c wire total -> sending (arm_send_conn slot (queue_app b c)).1 wire (total ++ b).
Proof.
  intros [H1 H2 H3 H4]. apply sending_arm. unfold queue_app. rewrite H1. split; cbn; [done.. |].
  by rewrite <- H4, !app_assoc.
Qed.

Lemma sending_sent slot c wire total n :
  sending c wire total -> 0 < inflight c -> 0 <= n <= inflight c ->
  exists c' q, on_send_conn slot n c = Ok (c', q) /\ sending c' (wire ++ take (Z.to_nat n) (sendbuf c)) total.
Proof.
  intros [H1 H2 H3 H4] Hpos Hn. destruct H3 as [H3 | H3]; [lia |]. unfold on_send_conn.
  rewrite (proj2 (Z.ltb_ge n 0)), (proj2 (Z.ltb_ge _ n)) by lia. unfold maybe_install_ktls. cbn [hs_done set_send]. rewrite H2. cbn [negb].
  destruct (arm_send_conn slot (set_send (drop (Z.to_nat n) (sendbuf c)) 0 c)) as [c' q] eqn:E. exists c', q. split; [done |].
  replace c' with (arm_send_conn slot (set_send (drop (Z.to_nat n) (sendbuf c)) 0 c)).1 by (by rewrite E).
  apply sending_arm. split; cbn; [done | done | by left |].
  rewrite <- app_assoc, (app_assoc (take _ _)), take_drop. done.
Qed.

Lemma send_all_total slot evs : forall c wire total,
  sending c wire total -> exists c' wire', send_all slot c wire evs = Ok (c', wire') /\ sending c' wire' (total ++ frames (queued evs)).
Proof.
  induction evs as [| [m | n] evs IH]; intros c wire total S; cbn [send_all].
  - exists c, wire. by rewrite app_nil_r.
  - destruct (IH _ _ _ (sending_queue slot c wire total (encode m) S)) as (c' & w' & E & S'). exists c', w'. split; [done |].
    change (queued (Queue m :: evs)) with (m :: queued evs). rewrite frames_cons, app_assoc. done.
  - case_decide as H; [| by apply IH]. destruct (sending_sent slot c wire total n S) as (c1 & q & E1 & S1); [lia | lia |].
    rewrite E1. cbn [mbind outcome_bind]. by apply IH.
Qed.

(** The calls of a stream that opens with a [Hello]. *)
Lemma calls_after_hello self msgs k :
  Forall (fun m => is_hello m = false) msgs ->
  calls None (take k (Hello self :: msgs)) = map (pair self) (take (k - 1) msgs).
Proof.
  intros Hn. destruct k as [| k]; [by rewrite take_0 |]. cbn [take]. rewrite Nat.sub_succ, Nat.sub_0_r. cbn [calls].
  revert k. induction Hn as [| m msgs Hm _ IH]; intros [| k]; [done.. |]. cbn [take map]. destruct m; try done; cbn [calls]; by rewrite IH.
Qed.

(** An outbound connection as it is after dialing, with the first send armed. *)
Definition dialed_conn (slot : nat) (fd self dest : Z) : MConn := (arm_send_conn slot (dialed self dest (new_conn fd Plain))).1.

End Stream.

(** A member without TLS. *)
Definition no_tls : MemberTls := Build_MemberTls unit Disabled None None (fun h _ => (h, [], [], None)) (fun _ _ => false).


(** ** What goes wrong *)

Section Gaps.
Context `{T : MemberTls}.

Lemma recv_loop_stuck fuel c s ob : decode (acc c) = None -> recv_loop record fuel c s ob = Ok (c, s, ob).
Proof. intros H. destruct fuel; cbn [recv_loop]; [done |]. by rewrite H. Qed.

(** A frame that does not decode blocks its connection for good.  Once a frame of an unknown kind has arrived, whatever
    arrives after it is appended to the buffer and no message is delivered from it; the connection stays
    open. *)
Theorem malformed_frame_blocks_connection len kind body chunks c s :
  is_u32 len -> len = blen (kind :: body) -> 17 <= u8 kind ->
  tls c = Plain -> open c = true -> acc c = put_u32 len ++ kind :: body -> Forall (fun b => b <> []) chunks ->
  exists c', receive_all c s chunks = Ok (c', s) /\ open c' = true /\ acc c' = acc c ++ concat chunks.
Proof.
  intros Hl El Hk Ht Ho Ha Hne.
  assert (forall more d, acc d = put_u32 len ++ (kind :: body) ++ more -> decode (acc d) = None) as Hdead.
  { intros more d ->. by apply unknown_kind_dead. }
  assert (exists more, acc c = put_u32 len ++ (kind :: body) ++ more) as Hm by (exists []; by rewrite app_nil_r).
  clear Ha. revert c s Ht Ho Hm. induction Hne as [| b chunks Hb _ IH]; intros c s Ht Ho Hm.
  { exists c. cbn. by rewrite app_nil_r. }
  destruct Hm as (more & Hm). cbn [receive_all concat]. unfold on_recv_conn.
  rewrite (proj2 (Z.leb_gt (blen b) 0)) by (destruct b; [done |]; rewrite blen_cons; pose proof (blen_nonneg b0); lia).
  unfold mtls_ingest. rewrite Ht. cbn [negb]. rewrite recv_loop_stuck.
  2: { apply (Hdead (more ++ b)). cbn [acc set_acc]. by rewrite Hm, <- !app_assoc. }
  cbn [mbind outcome_bind]. destruct (IH (set_acc (acc c ++ b) c) s) as (c' & E & O & A); [done | done | |].
  { exists (more ++ b). cbn [acc set_acc]. by rewrite Hm, <- !app_assoc. }
  exists c'. rewrite E. split_and!; [done | done |]. rewrite A. cbn [acc set_acc]. by rewrite app_assoc.
Qed.

(** TLS that is required is not enforced when a session cannot be created: the connection is accepted, or dialed,
    in the clear. *)
Theorem required_tls_falls_back :
  mode = Required -> accept = None -> dial = None -> inbound_tls true = Plain /\ outbound_tls true = Plain.
Proof. intros Hm Ha Hd. unfold inbound_tls, outbound_tls. by rewrite Hm, Ha, Hd. Qed.
End Gaps.

Lemma malformed_frame_blocks_connection_witness :
  exists c', receive_all (T := no_tls) (set_acc (T := no_tls) (put_u32 2 ++ [b8 200; b8 0]) (new_conn (T := no_tls) 5 (Plain (T := no_tls)))) []
               [encode (Ack 1); encode (Ack 2)] = Ok (c', [])
    /\ open c' = true /\ acc c' = put_u32 2 ++ [b8 200; b8 0] ++ encode (Ack 1) ++ encode (Ack 2).
Proof.
  destruct (malformed_frame_blocks_connection (T := no_tls) 2 (b8 200) [b8 0] [encode (Ack 1); encode (Ack 2)]
              (set_acc (T := no_tls) (put_u32 2 ++ [b8 200; b8 0]) (new_conn (T := no_tls) 5 (Plain (T := no_tls)))) [])
    as (c' & E & O & A); [vm_compute; split; congruence | reflexivity | vm_compute; congruence | reflexivity | reflexivity | reflexivity
                         | repeat constructor; vm_compute; congruence |].
  exists c'. split_and!; [exact E | exact O |]. rewrite A. vm_compute. reflexivity.
Defined.

(** A TLS library that fails to create sessions. *)
Definition broken_tls : MemberTls := Build_MemberTls unit Required None None (fun h _ => (h, [], [], None)) (fun _ _ => false).

Lemma required_tls_falls_back_witness : inbound_tls (T := broken_tls) true = Plain /\ outbound_tls (T := broken_tls) true = Plain.
Proof. apply (required_tls_falls_back (T := broken_tls)); reflexivity. Defined.

(** ** A completion that outlives its connection

    Member 0 has an outbound connection to member 1 on descriptor 10, in slot 0, with a receive and a
    send submitted.  The send fails; the slot is freed although the receive is still submitted, and the next
    message for member 1 dials again, on descriptor 11, in the same slot.  When the receive of descriptor 10 completes,
    the connection it closes is the new one. *)
Definition silent_handler (s : unit) (src : Z) (m : Msg) : outcome (unit * list (Z * Msg)) := Ok (tt, []).
Definition sending_tick (s : unit) : outcome (unit * list (Z * Msg)) := Ok (tt, [(1, Ack 7)]).

Definition step_mesh (connect : Z -> option Z) (e : cqe) (r : outcome (mesh (T := no_tls) * unit)) : outcome (mesh (T := no_tls) * unit) :=
  '(m, s) ← r; on_cqe (T := no_tls) silent_handler sending_tick false 0 {[ 1 := 7702 ]} connect e m s.

Definition no_conns : mesh (T := no_tls) := mkMesh (T := no_tls) [] [] ∅ [] [].

(** The first connection is made on the first tick. *)
Definition connected := step_mesh (fun _ => Some 10) CTimer (Ok (no_conns, tt)).
Definition send_failed := step_mesh (fun _ => None) (CSend 0 (-32)) connected.
Definition redialed := step_mesh (fun _ => Some 11) CTimer send_failed.
Definition stale_receive := step_mesh (fun _ => None) (CRecv 0 0 []) redialed.

Definition fds (r : outcome (mesh (T := no_tls) * unit)) : list (option Z) :=
  match r with Ok (m, _) => map (fmap fd) (conns m) | Panic => [] end.
Definition submitted_recvs (r : outcome (mesh (T := no_tls) * unit)) : list Z :=
  match r with Ok (m, _) => omap (fun q => match q with SRecv _ fd => Some fd | _ => None end) (pending m) | Panic => [] end.

(** A receive that completes after its connection was closed is charged to the connection that took over the slot: the
    failure of descriptor 10 closes descriptor 11, on which nothing has failed. *)
Theorem stale_completion_closes_new_connection :
  fds connected = [Some 10] /\ submitted_recvs connected = [10]
  /\ fds send_failed = [None] /\ fds redialed = [Some 11] /\ submitted_recvs redialed = [10; 11]
  /\ fds stale_receive = [None].
Proof. vm_compute. done. Qed.
