(* ===== verification/Double.v ===== *)
(** * Double-precision arithmetic

    An [f64] is its 64-bit pattern.  Addition, division and the conversion from integers are the
    Standard Library's specification of IEEE 754 arithmetic at 53 bits of precision, between
    conversions from and to patterns.  A NaN is rounded to the quiet one.

    Addition is not associative, but on integers below 2^53 it is exact: such a sum does not depend
    on the order in which it is taken. *)

From Stdlib Require Import SpecFloat.
From S2P Require Import Prelude FieldValue.

Definition to_spec (bits : Z) : spec_float :=
  let s := 2 ^ 63 <=? bits in
  let e := (bits / 2 ^ 52) mod 2 ^ 11 in
  let m := bits mod 2 ^ 52 in
  if e =? 2047 then (if m =? 0 then S754_infinity s else S754_nan)
  else if e =? 0 then match m with Zpos p => S754_finite s p (-1074) | _ => S754_zero s end
  else S754_finite s (Z.to_pos (m + 2 ^ 52)) (e - 1075).

Definition of_spec (x : spec_float) : Z :=
  let sign (s : bool) := if s then 2 ^ 63 else 0 in
  match x with
  | S754_zero s => sign s
  | S754_infinity s => sign s + 2047 * 2 ^ 52
  | S754_nan => 0x7FF8000000000000
  | S754_finite s m e => if Zpos m <? 2 ^ 52 then sign s + Zpos m else sign s + (e + 1075) * 2 ^ 52 + (Zpos m - 2 ^ 52)
  end.

(** [a + b], [a / b] and [i as f64] *)
Definition f64_add (a b : Z) : Z := of_spec (SFadd 53 1024 (to_spec a) (to_spec b)).
Definition f64_div (a b : Z) : Z := of_spec (SFdiv 53 1024 (to_spec a) (to_spec b)).
Definition f64_of_int (i : Z) : Z := of_spec (binary_normalize 53 1024 i 0 false).

(** [f64::min] and [f64::max]: the other operand when one is NaN.  Which of two zeros of different
    sign they give is not specified; here the first. *)
Definition f64_min (a b : Z) : Z :=
  if is_nan a then b else
  match f64_partial_cmp a b with Some Gt => b | _ => a end.
Definition f64_max (a b : Z) : Z :=
  if is_nan a then b else
  match f64_partial_cmp a b with Some Lt => b | _ => a end.

(** The integral part of a finite double, towards zero. *)
Definition spec_trunc (s : bool) (m : positive) (e : Z) : Z :=
  let v := if 0 <=? e then Zpos m * 2 ^ e else Zpos m / 2 ^ (- e) in if s then - v else v.

(** [f as i64]: towards zero, saturating, zero for a NaN. *)
Definition f64_as_i64 (bits : Z) : Z :=
  match to_spec bits with
  | S754_zero _ | S754_nan => 0
  | S754_infinity s => if s then - 2 ^ 63 else 2 ^ 63 - 1
  | S754_finite s m e => Z.max (- 2 ^ 63) (Z.min (2 ^ 63 - 1) (spec_trunc s m e))
  end.

(** [f.fract() == 0.0] *)
Definition f64_integral (bits : Z) : bool :=
  match to_spec bits with
  | S754_zero _ => true
  | S754_infinity _ | S754_nan => false
  | S754_finite _ m e => (0 <=? e) || (Zpos m mod 2 ^ (- e) =? 0)
  end.

(** ** Integers below 2^53 *)

Lemma digits2_log2 m : Zpos (digits2_pos m) = Z.log2 (Zpos m) + 1.
Proof.
  induction m as [m IH | m IH |]; cbn [digits2_pos]; [| | done]; rewrite Pos2Z.inj_succ, IH.
  - rewrite (Pos2Z.inj_xI m), Z.log2_succ_double; lia.
  - rewrite (Pos2Z.inj_xO m), Z.log2_double; lia.
Qed.

Lemma Zdigits2_log2 m : 0 < m -> Zdigits2 m = Z.log2 m + 1.
Proof. destruct m; [lia | | lia]. intros _. apply digits2_log2. Qed.

Lemma iter_xO m d : Zpos (Pos.iter xO m d) = Zpos m * 2 ^ Zpos d.
Proof.
  induction d as [| d IH] using Pos.peano_ind; [cbn; lia |].
  rewrite Pos.iter_succ, Pos2Z.inj_xO, IH, Pos2Z.inj_succ, Z.pow_succ_r; lia.
Qed.

Lemma iter_pos_nat {A} (f : A -> A) n x : SpecFloat.iter_pos f n x = Nat.iter (Pos.to_nat n) f x.
Proof.
  revert x. induction n as [n IH | n IH |]; intros x; cbn [SpecFloat.iter_pos]; [| | done].
  - rewrite !IH, Pos2Nat.inj_xI, <- Nat.iter_succ_r, <- Nat.iter_add. f_equal. lia.
  - rewrite !IH, Pos2Nat.inj_xO, <- Nat.iter_add. f_equal. lia.
Qed.

(** Shifting out zero bits loses nothing. *)
Lemma shr_exact m e n : 0 < m -> 0 <= n -> shr (Build_shr_record (m * 2 ^ n) false false) e n = (Build_shr_record m false false, e + n).
Proof.
  intros Hm Hn. destruct n as [| p | p]; [cbn; do 2 f_equal; lia | | lia]. cbn [shr]. f_equal.
  rewrite iter_pos_nat. rewrite <- (positive_nat_Z p). generalize (Pos.to_nat p). clear p Hn. intros k.
  induction k as [| k IH]; [cbn; f_equal; lia |].
  rewrite Nat.iter_succ_r. rewrite Nat2Z.inj_succ, Z.pow_succ_r by lia.
  replace (m * (2 * 2 ^ Z.of_nat k)) with (2 * (m * 2 ^ Z.of_nat k)) by lia.
  assert (0 < m * 2 ^ Z.of_nat k) by nia. destruct (m * 2 ^ Z.of_nat k) as [| q | q]; [lia | | lia]. cbn. exact IH.
Qed.

Definition normal (s : bool) (c : Z) : spec_float :=
  S754_finite s (Z.to_pos (c * 2 ^ (52 - Z.log2 c))) (Z.log2 c - 52).

Lemma log2_shift c k : 0 < c -> 0 <= k -> Z.log2 (c * 2 ^ k) = Z.log2 c + k.
Proof. intros. rewrite Z.log2_mul_pow2; lia. Qed.

Lemma small_log2 c : 0 < c < 2 ^ 53 -> 0 <= Z.log2 c <= 52.
Proof. intros H. split; [apply Z.log2_nonneg |]. pose proof (proj1 (Z.log2_lt_pow2 c 53 ltac:(lia))). lia. Qed.

Lemma fexp_small c k : 0 < c < 2 ^ 53 -> fexp 53 1024 (Z.log2 c + k + 1 + - k) = Z.log2 c - 52.
Proof. intros H. pose proof (small_log2 c H). unfold fexp, emin. lia. Qed.

Lemma round_aux_exact s c k :
  0 < c < 2 ^ 53 -> 52 - Z.log2 c <= k -> binary_round_aux 53 1024 s (c * 2 ^ k) (- k) loc_Exact = normal s c.
Proof.
  intros Hc Hk. pose proof (small_log2 c Hc) as Hl. unfold binary_round_aux, shr_fexp. cbn [shr_record_of_loc].
  set (m := c * 2 ^ (52 - Z.log2 c)). assert (0 < m) by (unfold m; nia).
  rewrite Zdigits2_log2, log2_shift, fexp_small by nia || lia.
  replace (c * 2 ^ k) with (m * 2 ^ (Z.log2 c - 52 - - k))
    by (unfold m; rewrite <- Z.mul_assoc, <- Z.pow_add_r by lia; do 2 f_equal; lia).
  rewrite shr_exact by lia. cbn [shr_m loc_of_shr_record round_nearest_even].
  replace (- k + (Z.log2 c - 52 - - k)) with (Z.log2 c - 52) by lia.
  rewrite Zdigits2_log2 by done. replace (Z.log2 m) with 52 by (unfold m; rewrite log2_shift; lia).
  replace (fexp 53 1024 (52 + 1 + (Z.log2 c - 52)) - (Z.log2 c - 52)) with 0 by (unfold fexp, emin; lia).
  cbn [shr shr_m]. unfold normal. fold m. destruct m as [| p | p]; [lia | | lia].
  destruct (Z.leb_spec (Z.log2 c - 52) (1024 - 53)); [done | lia].
Qed.

Lemma round_exact s (M : positive) c k :
  0 < c < 2 ^ 53 -> 0 <= k -> Zpos M = c * 2 ^ k -> binary_round 53 1024 s M (- k) = normal s c.
Proof.
  intros Hc Hk HM. pose proof (small_log2 c Hc) as Hl. unfold binary_round.
  rewrite digits2_log2, HM, log2_shift, fexp_small by lia. unfold shl_align.
  destruct (Z.log2 c - 52 - - k) as [| d | d] eqn:Ed.
  - rewrite HM. apply round_aux_exact; [done | lia].
  - rewrite HM. apply round_aux_exact; [done | lia].
  - rewrite iter_xO, HM. replace (Z.log2 c - 52) with (- (52 - Z.log2 c)) by lia.
    rewrite <- Z.mul_assoc, <- Z.pow_add_r by lia. replace (k + Zpos d) with (52 - Z.log2 c) by lia.
    apply round_aux_exact; [done | lia].
Qed.

Definition spec_of (i : Z) : spec_float := if i =? 0 then S754_zero false else normal (i <? 0) (Z.abs i).

Lemma normalize_exact i k : Z.abs i < 2 ^ 53 -> 0 <= k -> binary_normalize 53 1024 (i * 2 ^ k) (- k) false = spec_of i.
Proof.
  intros Hi Hk. unfold binary_normalize, spec_of. assert (0 < 2 ^ k) by lia.
  destruct (i * 2 ^ k) as [| p | p] eqn:E.
  - assert (i = 0) as -> by nia. done.
  - assert (0 < i) by nia. destruct (Z.eqb_spec i 0); [lia |]. destruct (Z.ltb_spec i 0); [lia |].
    apply (round_exact false p (Z.abs i) k); lia.
  - assert (i < 0) by nia. destruct (Z.eqb_spec i 0); [lia |]. destruct (Z.ltb_spec i 0); [| lia].
    apply (round_exact true p (Z.abs i) k); lia.
Qed.

Lemma align_fst m e ez : ez <= e -> Zpos (fst (shl_align m e ez)) = Zpos m * 2 ^ (e - ez).
Proof.
  intros H. unfold shl_align. destruct (ez - e) as [| d | d] eqn:E; cbn [fst]; [replace (e - ez) with 0 by lia; lia | lia |].
  rewrite iter_xO. do 2 f_equal. lia.
Qed.

Lemma spec_add_exact a b :
  Z.abs a < 2 ^ 53 -> Z.abs b < 2 ^ 53 -> Z.abs (a + b) < 2 ^ 53 -> SFadd 53 1024 (spec_of a) (spec_of b) = spec_of (a + b).
Proof.
  intros Ha Hb Hab. unfold spec_of at 1 2.
  destruct (Z.eqb_spec a 0) as [-> |]; [destruct (Z.eqb_spec b 0) as [-> |]; [done |] |].
  { rewrite Z.add_0_l. unfold spec_of. destruct (Z.eqb_spec b 0); done. }
  destruct (Z.eqb_spec b 0) as [-> |].
  { unfold spec_of. rewrite Z.add_0_r. destruct (Z.eqb_spec a 0); done. }
  unfold SFadd, normal. set (la := Z.log2 (Z.abs a)). set (lb := Z.log2 (Z.abs b)).
  pose proof (small_log2 (Z.abs a) ltac:(lia)) as Hla. pose proof (small_log2 (Z.abs b) ltac:(lia)) as Hlb.
  fold la in Hla. fold lb in Hlb. set (ez := Z.min (la - 52) (lb - 52)).
  rewrite !align_fst, !Z2Pos.id by lia || nia. rewrite <- !Z.mul_assoc, <- !Z.pow_add_r by lia.
  replace (52 - la + (la - 52 - ez)) with (- ez) by lia. replace (52 - lb + (lb - 52 - ez)) with (- ez) by lia.
  rewrite <- (normalize_exact (a + b) (- ez)) by lia. rewrite Z.opp_involutive. f_equal. unfold cond_Zopp.
  destruct (Z.ltb_spec a 0), (Z.ltb_spec b 0); rewrite ?Z.abs_neq, ?Z.abs_eq by lia; lia.
Qed.

(** *** Patterns *)

Definition pattern (i : Z) : Z :=
  if i =? 0 then 0 else
  let c := Z.abs i in
  (if i <? 0 then 2 ^ 63 else 0) + (Z.log2 c + 1023) * 2 ^ 52 + (c * 2 ^ (52 - Z.log2 c) - 2 ^ 52).

Lemma mantissa_bounds c : 0 < c < 2 ^ 53 -> 2 ^ 52 <= c * 2 ^ (52 - Z.log2 c) < 2 ^ 53.
Proof.
  intros Hc. pose proof (small_log2 c Hc) as Hl. destruct (Z.log2_spec c) as [H1 H2]; [lia |].
  assert (2 ^ 52 = 2 ^ Z.log2 c * 2 ^ (52 - Z.log2 c)) as -> by (rewrite <- Z.pow_add_r by lia; f_equal; lia).
  assert (2 ^ 53 = 2 ^ Z.succ (Z.log2 c) * 2 ^ (52 - Z.log2 c)) as -> by (rewrite <- Z.pow_add_r by lia; f_equal; lia).
  split; [apply Z.mul_le_mono_nonneg_r | apply Z.mul_lt_mono_pos_r]; lia.
Qed.

Lemma of_spec_pattern i : Z.abs i < 2 ^ 53 -> of_spec (spec_of i) = pattern i.
Proof.
  intros Hi. unfold spec_of, pattern. destruct (Z.eqb_spec i 0); [done |].
  pose proof (mantissa_bounds (Z.abs i) ltac:(lia)) as Hm. unfold of_spec, normal. rewrite Z2Pos.id by lia.
  destruct (Z.ltb_spec (Z.abs i * 2 ^ (52 - Z.log2 (Z.abs i))) (2 ^ 52)); [lia |]. cbv zeta. f_equal. f_equal. f_equal. lia.
Qed.

Lemma to_spec_pattern i : Z.abs i < 2 ^ 53 -> to_spec (pattern i) = spec_of i.
Proof.
  intros Hi. unfold spec_of, pattern. destruct (Z.eqb_spec i 0); [done |].
  pose proof (mantissa_bounds (Z.abs i) ltac:(lia)) as Hm. pose proof (small_log2 (Z.abs i) ltac:(lia)) as Hl.
  unfold to_spec, normal. cbv zeta. set (m := Z.abs i * 2 ^ (52 - Z.log2 (Z.abs i))) in *. set (l := Z.log2 (Z.abs i)) in *.
  set (sb := if i <? 0 then 1 else 0). assert (0 <= sb <= 1) as Hsb by (unfold sb; case_match; lia).
  replace (if i <? 0 then 2 ^ 63 else 0) with (sb * 2 ^ 63) by (unfold sb; by case_match).
  assert ((sb * 2 ^ 63 + (l + 1023) * 2 ^ 52 + (m - 2 ^ 52)) / 2 ^ 52 = sb * 2 ^ 11 + (l + 1023)) as ->
    by (symmetry; apply Z.div_unique with (m - 2 ^ 52); lia).
  assert ((sb * 2 ^ 63 + (l + 1023) * 2 ^ 52 + (m - 2 ^ 52)) mod 2 ^ 52 = m - 2 ^ 52) as ->
    by (symmetry; apply Z.mod_unique with (sb * 2 ^ 11 + (l + 1023)); lia).
  assert ((sb * 2 ^ 11 + (l + 1023)) mod 2 ^ 11 = l + 1023) as -> by (symmetry; apply Z.mod_unique with sb; lia).
  destruct (Z.eqb_spec (l + 1023) 2047); [lia |]. destruct (Z.eqb_spec (l + 1023) 0); [lia |].
  f_equal; [| f_equal; lia | lia].
  unfold sb. destruct (Z.ltb_spec i 0); [apply Z.leb_le | apply Z.leb_gt]; lia.
Qed.

Lemma f64_of_int_pattern i : Z.abs i < 2 ^ 53 -> f64_of_int i = pattern i.
Proof.
  intros Hi. unfold f64_of_int. rewrite <- of_spec_pattern by done. f_equal.
  rewrite <- (normalize_exact i 0) by lia. f_equal. lia.
Qed.

(** Sums of integers are exact. *)
Lemma f64_add_int a b :
  Z.abs a < 2 ^ 53 -> Z.abs b < 2 ^ 53 -> Z.abs (a + b) < 2 ^ 53 ->
  f64_add (f64_of_int a) (f64_of_int b) = f64_of_int (a + b).
Proof.
  intros. rewrite !f64_of_int_pattern by done. unfold f64_add.
  by rewrite !to_spec_pattern, spec_add_exact, of_spec_pattern.
Qed.

(** The pattern of a positive integer grows with it. *)
Definition magnitude (c : Z) : Z := (Z.log2 c + 1023) * 2 ^ 52 + (c * 2 ^ (52 - Z.log2 c) - 2 ^ 52).

Lemma magnitude_bounds c : 0 < c < 2 ^ 53 -> 0 < magnitude c < 2047 * 2 ^ 52.
Proof. intros Hc. pose proof (mantissa_bounds c Hc). pose proof (small_log2 c Hc). unfold magnitude. lia. Qed.

Lemma magnitude_lt c d : 0 < c -> c < d -> d < 2 ^ 53 -> magnitude c < magnitude d.
Proof.
  intros Hc Hcd Hd. pose proof (mantissa_bounds c ltac:(lia)). pose proof (mantissa_bounds d ltac:(lia)).
  pose proof (small_log2 d ltac:(lia)). pose proof (Z.log2_le_mono c d ltac:(lia)). unfold magnitude.
  destruct (Z.eq_dec (Z.log2 c) (Z.log2 d)) as [-> |]; [| lia].
  assert (0 < 2 ^ (52 - Z.log2 d)) by lia. nia.
Qed.

Definition signed (i : Z) : Z := if i =? 0 then 0 else if i <? 0 then - magnitude (- i) else magnitude i.

Lemma pattern_signed i : Z.abs i < 2 ^ 53 -> is_nan (pattern i) = false /\ real_key (pattern i) = signed i.
Proof.
  intros Hi. unfold pattern, signed. destruct (Z.eqb_spec i 0); [done |].
  pose proof (magnitude_bounds (Z.abs i) ltac:(lia)) as Hm. rewrite <- Z.add_assoc. fold (magnitude (Z.abs i)).
  unfold is_nan, real_key. destruct (Z.ltb_spec i 0) as [Hn | Hn].
  - rewrite Z.abs_neq in * by lia. split.
    + replace ((2 ^ 63 + magnitude (- i)) mod 2 ^ 63) with (magnitude (- i)) by (apply Z.mod_unique with 1; lia).
      apply Z.ltb_ge. lia.
    + destruct (Z.ltb_spec (2 ^ 63 + magnitude (- i)) (2 ^ 63)); lia.
  - rewrite Z.abs_eq, Z.add_0_l in * by lia. split.
    + rewrite Z.mod_small by lia. apply Z.ltb_ge. lia.
    + destruct (Z.ltb_spec (magnitude i) (2 ^ 63)); lia.
Qed.

Lemma signed_lt a b : Z.abs a < 2 ^ 53 -> Z.abs b < 2 ^ 53 -> a < b -> signed a < signed b.
Proof.
  intros Ha Hb Hab. unfold signed.
  destruct (Z.eqb_spec a 0), (Z.eqb_spec b 0), (Z.ltb_spec a 0), (Z.ltb_spec b 0); try lia;
    try pose proof (magnitude_bounds a ltac:(lia)); try pose proof (magnitude_bounds b ltac:(lia));
    try pose proof (magnitude_bounds (- a) ltac:(lia)); try pose proof (magnitude_bounds (- b) ltac:(lia)); try lia.
  - pose proof (magnitude_lt (- b) (- a)). lia.
  - apply magnitude_lt; lia.
Qed.

Lemma f64_partial_cmp_int a b :
  Z.abs a < 2 ^ 53 -> Z.abs b < 2 ^ 53 -> f64_partial_cmp (f64_of_int a) (f64_of_int b) = Some (Z.compare a b).
Proof.
  intros Ha Hb. rewrite !f64_of_int_pattern by done. unfold f64_partial_cmp.
  destruct (pattern_signed a Ha) as [-> ->], (pattern_signed b Hb) as [-> ->]. cbn [orb]. f_equal.
  destruct (Z.compare_spec a b) as [-> | H | H]; [apply Z.compare_refl | |].
  - pose proof (signed_lt a b Ha Hb H). by apply Z.compare_lt_iff.
  - pose proof (signed_lt b a Hb Ha H). by apply Z.compare_gt_iff.
Qed.

Lemma f64_min_int a b :
  Z.abs a < 2 ^ 53 -> Z.abs b < 2 ^ 53 -> f64_min (f64_of_int a) (f64_of_int b) = f64_of_int (Z.min a b).
Proof.
  intros Ha Hb. unfold f64_min. rewrite f64_partial_cmp_int by done. rewrite (f64_of_int_pattern a) at 1 by done.
  destruct (pattern_signed a Ha) as [-> _]. unfold Z.min. by destruct (Z.compare a b).
Qed.

Lemma f64_max_int a b :
  Z.abs a < 2 ^ 53 -> Z.abs b < 2 ^ 53 -> f64_max (f64_of_int a) (f64_of_int b) = f64_of_int (Z.max a b).
Proof.
  intros Ha Hb. unfold f64_max. rewrite f64_partial_cmp_int by done. rewrite (f64_of_int_pattern a) at 1 by done.
  destruct (pattern_signed a Ha) as [-> _]. unfold Z.max.
  destruct (Z.compare_spec a b) as [-> | |]; done.
Qed.
