(* ===== verification/QueryWire.v ===== *)
(** * Decoding predicates (crates/query/src/lib.rs)

    Predicates arrive from clients as serialized objects.  [decode] turns any bytes into a
    predicate: what it does not understand becomes [MatchNone], and nothing panics.  The cursor of
    the source is the unread suffix; a nested predicate takes at least nine bytes, so the length of
    the input bounds the recursion.

    A client is modelled by [write_ids], which writes a predicate in the layout the decoder's
    module documents; what a client wrote is decoded to the predicate it meant. *)

From S2P Require Import Prelude Fixed Partition FieldValue QueryIndex.

Definition TYPE_IDS : Z := -2.
Definition CLASS_SQL : Z := 0.
Definition CLASS_AND : Z := 1.
Definition CLASS_BETWEEN : Z := 2.
Definition CLASS_EQUAL : Z := 3.
Definition CLASS_GREATER_LESS : Z := 4.
Definition CLASS_LIKE : Z := 5.
Definition CLASS_ILIKE : Z := 6.
Definition CLASS_IN : Z := 7.
Definition CLASS_NOTEQUAL : Z := 9.
Definition CLASS_NOT : Z := 10.
Definition CLASS_OR : Z := 11.
Definition CLASS_REGEX : Z := 12.
Definition CLASS_FALSE : Z := 13.
Definition CLASS_TRUE : Z := 14.
Definition CLASS_PAGING : Z := 15.
Definition CLASS_PARTITION : Z := 16.

Definition T_BOOLEAN : Z := -4.
Definition T_INTEGER : Z := -7.
Definition T_LONG : Z := -8.
Definition T_DOUBLE : Z := -10.
Definition T_STRING : Z := -11.

(** ** The partition of a constant *)

Definition field_payload (val : FieldValue) : bytes :=
  match val with
  | VStr s => to_be 4 (wrap_i32 (blen s)) ++ s
  | I32 v => to_be 4 v
  | I64 v => to_be 8 v
  | VBool v => [bool_u8 v]
  | F64 bits => to_be 8 bits
  | Null => []
  end.

Definition field_value_partition_id (val : FieldValue) (partition_count : Z) : outcome Z :=
  let payload := field_payload val in
  let h := match payload with [] => 0 | _ => murmur3_x86_32 payload 0x01000193 end in
  if h =? - 2 ^ 31 then Ok 0
  else if partition_count =? 0 then Panic else Ok (Z.rem (wrap_i32 (Z.abs h)) partition_count).

(** [field_value_partition_id(&key, 271)] in the decoder. *)
Definition partition_of (val : FieldValue) : Z :=
  match field_value_partition_id val 271 with Ok p => p | Panic => 0 end.

(** ** The cursor *)

Definition cur_i32 (b : bytes) : option (Z * bytes) := get_be_i 4 b.
Definition cur_i64 (b : bytes) : option (Z * bytes) := get_be_i 8 b.

Definition cur_string (b : bytes) : option (bytes * bytes) :=
  '(len, b) ← cur_i32 b;
  if len <? 0 then None else '(s, b) ← take_n len b; Some (from_utf8_lossy s, b).

Definition decode_value (b : bytes) : option (FieldValue * bytes) :=
  '(ty, b) ← cur_i32 b;
  if ty =? T_INTEGER then '(v, b) ← cur_i32 b; Some (I32 v, b)
  else if ty =? T_LONG then '(v, b) ← cur_i64 b; Some (I64 v, b)
  else if ty =? T_DOUBLE then '(v, b) ← cur_i64 b; Some (F64 (wrap_u64 v), b)
  else if ty =? T_BOOLEAN then '(v, b) ← get_byte b; Some (VBool (u8_bool v), b)
  else if ty =? T_STRING then '(v, b) ← cur_string b; Some (VStr v, b)
  else Some (Null, b).

(** A count that the decoder accepts: [(0..=4096).contains(&n)]. *)
Definition sane (n : Z) : bool := (0 <=? n) && (n <=? 4096).

Definition greater_less (equal less : bool) : Op :=
  match equal, less with
  | false, false => OGt
  | true, false => OGe
  | false, true => OLt
  | true, true => OLe
  end.

Section Nested.
(** [decode_ids] on a shorter input. *)
Variable decode_ids : bytes -> option (Predicate * bytes).

Definition decode_object_with (b : bytes) : option (Predicate * bytes) :=
  '(ty, b) ← cur_i32 b;
  if ty =? TYPE_IDS then decode_ids b else Some (MatchNone, b).

Definition skip_object_with (b : bytes) : option (unit * bytes) :=
  '(ty, b) ← cur_i32 b;
  if ty =? 0 then Some (tt, b)
  else if ty =? T_INTEGER then '(_, b) ← cur_i32 b; Some (tt, b)
  else if ty =? T_LONG then '(_, b) ← cur_i64 b; Some (tt, b)
  else if ty =? T_DOUBLE then '(_, b) ← cur_i64 b; Some (tt, b)
  else if ty =? T_BOOLEAN then '(_, b) ← get_byte b; Some (tt, b)
  else if ty =? T_STRING then '(_, b) ← cur_string b; Some (tt, b)
  else if ty =? TYPE_IDS then '(_, b) ← decode_ids b; Some (tt, b)
  else Some (tt, b).

(** An entry of the anchor list of a paging predicate: a page, a key and a value. *)
Definition skip_anchor (b : bytes) : option (unit * bytes) :=
  '(_, b) ← cur_i32 b;
  '(_, b) ← skip_object_with b;
  skip_object_with b.

(** The predicate inside a paging predicate, after the name that newer clients write first. *)
Definition paging_inner (b : bytes) : option (option Predicate * bytes) :=
  '(first_val, b) ← cur_i32 b;
  if first_val =? -2 then '(p, b) ← decode_ids b; Some (Some p, b)
  else if first_val =? 0 then Some (None, b)
  else
    let b := if 0 <? first_val then drop (Z.to_nat first_val) b else b in
    '(pred_ty, b) ← cur_i32 b;
    if pred_ty =? -2 then '(p, b) ← decode_ids b; Some (Some p, b) else Some (None, b).

Definition decode_paging (b : bytes) : option (Predicate * bytes) :=
  '(inner, b) ← paging_inner b;
  '(_, b) ← skip_object_with b;
  '(page, b) ← cur_i32 b;
  '(page_size, b) ← cur_i32 b;
  '(iteration_type, b) ← cur_string b;
  '(anchor_size, b) ← cur_i32 b;
  if negb (sane anchor_size) then Some (MatchNone, b) else
  '(_, b) ← rd_items skip_anchor (length b) anchor_size b;
  Some (Paging inner page page_size iteration_type, b).

(** The match on the class. *)
Definition decode_class (class_id : Z) (b : bytes) : option (Predicate * bytes) :=
  if class_id =? CLASS_SQL then '(sql, b) ← cur_string b; Some (Sql sql, b)
  else if class_id =? CLASS_EQUAL then
    '(field, b) ← cur_string b; '(value, b) ← decode_value b; Some (Compare field OEq value, b)
  else if class_id =? CLASS_GREATER_LESS then
    '(field, b) ← cur_string b; '(value, b) ← decode_value b;
    '(equal, b) ← get_byte b; '(less, b) ← get_byte b;
    Some (Compare field (greater_less (u8_bool equal) (u8_bool less)) value, b)
  else if class_id =? CLASS_BETWEEN then
    '(field, b) ← cur_string b; '(to, b) ← decode_value b; '(from, b) ← decode_value b;
    Some (Between field from to, b)
  else if class_id =? CLASS_LIKE then
    '(field, b) ← cur_string b; '(expr, b) ← cur_string b; Some (Like field expr, b)
  else if class_id =? CLASS_ILIKE then
    '(field, b) ← cur_string b; '(expr, b) ← cur_string b; Some (ILike field expr, b)
  else if class_id =? CLASS_IN then
    '(field, b) ← cur_string b; '(len, b) ← cur_i32 b;
    if negb (sane len) then Some (MatchNone, b) else
    '(values, b) ← rd_items decode_value (length b) len b; Some (PIn field values, b)
  else if class_id =? CLASS_NOTEQUAL then
    '(field, b) ← cur_string b; '(value, b) ← decode_value b; Some (Compare field ONotEq value, b)
  else if class_id =? CLASS_NOT then '(inner, b) ← decode_object_with b; Some (PNot inner, b)
  else if class_id =? CLASS_REGEX then
    '(field, b) ← cur_string b; '(regex, b) ← cur_string b; Some (Regex field regex, b)
  else if class_id =? CLASS_FALSE then Some (PFalse, b)
  else if class_id =? CLASS_TRUE then Some (PTrue, b)
  else if (class_id =? CLASS_AND) || (class_id =? CLASS_OR) then
    '(count, b) ← cur_i32 b;
    if negb (sane count) then Some (MatchNone, b) else
    '(children, b) ← rd_items decode_object_with (length b) count b;
    Some (if class_id =? CLASS_AND then PAnd children else POr children, b)
  else if class_id =? CLASS_PAGING then decode_paging b
  else if class_id =? CLASS_PARTITION then
    '(partition_key, b) ← decode_value b; '(target, b) ← decode_object_with b;
    Some (Partition (partition_of partition_key) target, b)
  else Some (MatchNone, b).
End Nested.

Fixpoint decode_ids (fuel : nat) (b : bytes) : option (Predicate * bytes) :=
  match fuel with
  | O => None
  | S fuel' =>
    '(_, b) ← get_byte b;
    '(_, b) ← cur_i32 b;
    '(class_id, b) ← cur_i32 b;
    decode_class (decode_ids fuel') class_id b
  end.

Definition decode_object (fuel : nat) : bytes -> option (Predicate * bytes) := decode_object_with (decode_ids fuel).
Definition skip_object (fuel : nat) : bytes -> option (unit * bytes) := skip_object_with (decode_ids fuel).

Definition decode (data : bytes) : outcome Predicate :=
  ty ← type_id data;
  if ty =? TYPE_IDS then Ok (from_option fst MatchNone (decode_ids (length data) (drop 8 data)))
  else Ok MatchNone.

(** ** A client *)

(** Induction over predicates, through the lists of children. *)
Section Induction.
Variable P : Predicate -> Prop.
Hypothesis H_leaf : forall p,
  match p with PAnd _ | POr _ | PNot _ | Paging (Some _) _ _ _ | Partition _ _ => True | _ => P p end.
Hypothesis H_and : forall children, Forall P children -> P (PAnd children).
Hypothesis H_or : forall children, Forall P children -> P (POr children).
Hypothesis H_not : forall p, P p -> P (PNot p).
Hypothesis H_paging : forall p page size it, P p -> P (Paging (Some p) page size it).
Hypothesis H_partition : forall id p, P p -> P (Partition id p).

Fixpoint Predicate_nested_ind (p : Predicate) : P p :=
  let all := fix all (l : list Predicate) : Forall P l :=
    match l with
    | [] => Forall_nil_2 P
    | c :: r => Forall_cons_2 P c r (Predicate_nested_ind c) (all r)
    end in
  match p with
  | PAnd children => H_and children (all children)
  | POr children => H_or children (all children)
  | PNot inner => H_not inner (Predicate_nested_ind inner)
  | Paging (Some inner) page size it => H_paging inner page size it (Predicate_nested_ind inner)
  | Partition id target => H_partition id target (Predicate_nested_ind target)
  | p => H_leaf p
  end.
End Induction.

Definition write_string (s : bytes) : bytes := to_be 4 (blen s) ++ s.

Definition write_value (v : FieldValue) : bytes :=
  match v with
  | I32 z => to_be 4 T_INTEGER ++ to_be 4 z
  | I64 z => to_be 4 T_LONG ++ to_be 8 z
  | F64 bits => to_be 4 T_DOUBLE ++ to_be 8 (wrap_i64 bits)
  | VBool v => to_be 4 T_BOOLEAN ++ [bool_u8 v]
  | VStr s => to_be 4 T_STRING ++ write_string s
  | Null => to_be 4 0
  end.

Definition string_ok (s : bytes) : Prop := utf8_valid s = true /\ blen s < 2 ^ 31.

Definition value_ok (v : FieldValue) : Prop :=
  match v with
  | I32 z => is_i32 z
  | I64 z => is_i64 z
  | F64 bits => is_u64 bits
  | VStr s => string_ok s
  | _ => True
  end.

Section Client.
(** The key a client names for a partition, the name that newer clients write before the predicate
    of a page, and the anchors of the pages it has seen. *)
Variable key_for : Z -> FieldValue.
Variable name : option bytes.
Variable anchors : list (Z * FieldValue * FieldValue).

Definition class_of (p : Predicate) : Z :=
  match p with
  | Compare _ OEq _ => CLASS_EQUAL
  | Compare _ ONotEq _ => CLASS_NOTEQUAL
  | Compare _ _ _ => CLASS_GREATER_LESS
  | PAnd _ => CLASS_AND
  | POr _ => CLASS_OR
  | PNot _ => CLASS_NOT
  | Between _ _ _ => CLASS_BETWEEN
  | PIn _ _ => CLASS_IN
  | Like _ _ => CLASS_LIKE
  | ILike _ _ => CLASS_ILIKE
  | Regex _ _ => CLASS_REGEX
  | PTrue => CLASS_TRUE
  | PFalse => CLASS_FALSE
  | Sql _ => CLASS_SQL
  | Paging _ _ _ _ => CLASS_PAGING
  | Partition _ _ => CLASS_PARTITION
  | MatchNone => 8
  end.

Definition write_flags (op : Op) : bytes :=
  match op with
  | OGt => [b8 0; b8 0]
  | OGe => [b8 1; b8 0]
  | OLt => [b8 0; b8 1]
  | OLe => [b8 1; b8 1]
  | OEq | ONotEq => []
  end.

Definition write_anchor (a : Z * FieldValue * FieldValue) : bytes :=
  to_be 4 a.1.1 ++ write_value a.1.2 ++ write_value a.2.

Definition write_name : bytes := match name with Some n => write_string n | None => [] end.

Fixpoint write_ids (p : Predicate) : bytes :=
  let write_object c := to_be 4 TYPE_IDS ++ write_ids c in
  b8 1 :: to_be 4 (-20) ++ to_be 4 (class_of p) ++
  match p with
  | Compare field op value => write_string field ++ write_value value ++ write_flags op
  | PAnd children | POr children => to_be 4 (blen children) ++ concat (map write_object children)
  | PNot inner => write_object inner
  | Between field from to => write_string field ++ write_value to ++ write_value from
  | PIn field values => write_string field ++ to_be 4 (blen values) ++ concat (map write_value values)
  | Like field expr | ILike field expr => write_string field ++ write_string expr
  | Regex field regex => write_string field ++ write_string regex
  | Sql text => write_string text
  | Paging inner page page_size iteration_type =>
    write_name ++ (match inner with Some c => write_object c | None => to_be 4 0 end)
    ++ to_be 4 0 ++ to_be 4 page ++ to_be 4 page_size ++ write_string iteration_type
    ++ to_be 4 (blen anchors) ++ concat (map write_anchor anchors)
  | Partition id target => write_value (key_for id) ++ write_object target
  | PTrue | PFalse | MatchNone => []
  end.

Definition write_object (c : Predicate) : bytes := to_be 4 TYPE_IDS ++ write_ids c.

(** A serialized predicate: partition hash, type and body. *)
Definition write_data (p : Predicate) : bytes := to_be 4 0 ++ to_be 4 TYPE_IDS ++ write_ids p.

Fixpoint writable (p : Predicate) : Prop :=
  match p with
  | Compare field _ value => string_ok field /\ value_ok value
  | PAnd children | POr children => blen children <= 4096 /\ Forall id (map writable children)
  | PNot inner => writable inner
  | Between field from to => string_ok field /\ value_ok from /\ value_ok to
  | PIn field values => string_ok field /\ blen values <= 4096 /\ Forall value_ok values
  | Like field expr | ILike field expr => string_ok field /\ string_ok expr
  | Regex field regex => string_ok field /\ string_ok regex
  | Sql text => string_ok text
  | Paging inner page page_size iteration_type =>
    match inner with Some c => writable c | None => True end
    /\ is_i32 page /\ is_i32 page_size /\ string_ok iteration_type
  | Partition id target => value_ok (key_for id) /\ partition_of (key_for id) = id /\ writable target
  | PTrue | PFalse | MatchNone => True
  end.
End Client.

(** ** What a client wrote is what it meant *)

Lemma field_value_partition_id_Ok val :
  field_value_partition_id val 271 = Ok (partition_of val) /\ 0 <= partition_of val < 271.
Proof.
  unfold partition_of, field_value_partition_id. cbv zeta. set (h := match field_payload val with [] => 0 | _ => _ end).
  assert (- 2 ^ 31 <= h < 2 ^ 31) as Hh.
  { subst h. destruct (field_payload val); [done |]. unfold murmur3_x86_32. case_match. apply wrap_i32_range. }
  destruct (Z.eqb_spec h (- 2 ^ 31)); [done |]. change (271 =? 0) with false. cbv iota. split; [done |].
  rewrite wrap_i32_small by (unfold is_i32; lia). pose proof (Z.rem_bound_pos (Z.abs h) 271). lia.
Qed.

Lemma cur_i32_put v r : is_i32 v -> cur_i32 (to_be 4 v ++ r) = Some (v, r).
Proof. intros. apply (get_be_i_to_be 4); [lia | done]. Qed.

Lemma cur_i64_put v r : is_i64 v -> cur_i64 (to_be 8 v ++ r) = Some (v, r).
Proof. intros. apply (get_be_i_to_be 8); [lia | done]. Qed.

Lemma cur_string_put s r : string_ok s -> cur_string (write_string s ++ r) = Some (s, r).
Proof.
  intros [Hu Hl]. pose proof (blen_nonneg s). unfold cur_string, write_string.
  rewrite <- app_assoc, cur_i32_put by (unfold is_i32; lia). cbn.
  destruct (Z.ltb_spec (blen s) 0); [lia |]. rewrite take_n_app. cbn. by rewrite from_utf8_lossy_valid.
Qed.

Lemma decode_value_put v r : value_ok v -> decode_value (write_value v ++ r) = Some (v, r).
Proof.
  intros Hv. unfold decode_value. destruct v; cbn [write_value value_ok] in *; rewrite <- ?app_assoc, cur_i32_put by done; cbn.
  - done.
  - by rewrite u8_bool_bool_u8.
  - by rewrite cur_i32_put.
  - by rewrite cur_i64_put.
  - rewrite cur_i64_put by apply wrap_i64_range. cbn. by rewrite wrap_u64_wrap_i64, wrap_u64_small.
  - by rewrite cur_string_put.
Qed.

Lemma skip_value_put ids v r : value_ok v -> skip_object_with ids (write_value v ++ r) = Some (tt, r).
Proof.
  intros Hv. unfold skip_object_with. destruct v; cbn [write_value value_ok] in *; rewrite <- ?app_assoc, cur_i32_put by done; cbn.
  - done.
  - done.
  - by rewrite cur_i32_put.
  - by rewrite cur_i64_put.
  - by rewrite cur_i64_put by apply wrap_i64_range.
  - by rewrite cur_string_put.
Qed.

Lemma write_value_length v : (0 < length (write_value v))%nat.
Proof. destruct v; cbn [write_value]; rewrite ?length_app, length_to_be; lia. Qed.

Section ClientFacts.
Context (key_for : Z -> FieldValue) (name : option bytes) (anchors : list (Z * FieldValue * FieldValue)).
Hypothesis name_ok : match name with Some n => n <> [] /\ blen n < 2 ^ 31 | None => True end.
Hypothesis anchors_ok :
  blen anchors <= 4096 /\ Forall (fun a => is_i32 a.1.1 /\ value_ok a.1.2 /\ value_ok a.2) anchors.

#[local] Abbreviation write_ids := (write_ids key_for name anchors).
#[local] Abbreviation write_object := (write_object key_for name anchors).
#[local] Abbreviation writable := (writable key_for).

Lemma skip_anchors_put ids r :
  rd_items (skip_anchor ids) (length (concat (map write_anchor anchors) ++ r)) (blen anchors)
    (concat (map write_anchor anchors) ++ r) = Some (map (fun _ => tt) anchors, r).
Proof.
  pose proof (concat_put_length write_anchor anchors) as Hl.
  assert (length anchors <= length (concat (map write_anchor anchors) ++ r))%nat as Hf.
  { rewrite length_app. apply Nat.le_trans with (2 := Nat.le_add_r _ _), Hl. intros a.
    unfold write_anchor. rewrite !length_app, length_to_be. lia. }
  revert Hf. generalize (length (concat (map write_anchor anchors) ++ r)). destruct anchors_ok as [_ Ha].
  clear Hl anchors_ok. induction Ha as [| a l (H1 & H2 & H3) _ IH]; intros fuel Hf; [by destruct fuel |].
  destruct fuel as [| fuel]; [simpl in Hf; lia |]. cbn [rd_items map concat].
  rewrite (proj2 (Z.leb_gt _ _)) by (rewrite blen_cons; pose proof (blen_nonneg l); lia).
  assert (skip_anchor ids ((write_anchor a ++ concat (map write_anchor l)) ++ r)
          = Some (tt, concat (map write_anchor l) ++ r)) as ->.
  { unfold skip_anchor, write_anchor. rewrite <- !app_assoc, cur_i32_put by done. cbn.
    rewrite skip_value_put by done. cbn. by apply skip_value_put. }
  cbn. rewrite blen_cons. replace (1 + blen l - 1) with (blen l) by lia.
  rewrite IH by (simpl in Hf; lia). done.
Qed.

(** The decoder of nested predicates at the fuel that is left. *)
Definition reads (ids : bytes -> option (Predicate * bytes)) (p : Predicate) : Prop :=
  forall r, ids (write_ids p ++ r) = Some (p, r).

Lemma decode_object_put ids p r : reads ids p -> decode_object_with ids (write_object p ++ r) = Some (p, r).
Proof.
  intros Hp. unfold decode_object_with, QueryWire.write_object. rewrite <- app_assoc, cur_i32_put by done. cbn.
  apply Hp.
Qed.

Lemma decode_children_put ids children r :
  Forall (reads ids) children ->
  rd_items (decode_object_with ids) (length (concat (map write_object children) ++ r)) (blen children)
    (concat (map write_object children) ++ r) = Some (children, r).
Proof.
  intros Hc. apply (rd_items_put write_object (decode_object_with ids) (reads ids)).
  - intros. by apply decode_object_put.
  - done.
  - rewrite length_app. apply Nat.le_trans with (2 := Nat.le_add_r _ _), concat_put_length.
    intros x. unfold QueryWire.write_object. rewrite length_app, length_to_be. lia.
Qed.

Lemma paging_body_put ids inner body r :
  match inner with Some p => ids (body ++ r) = Some (p, r) | None => body = [] end ->
  paging_inner ids (write_name name ++ to_be 4 (match inner with Some _ => TYPE_IDS | None => 0 end) ++ body ++ r) = Some (inner, r).
Proof.
  intros Hi. unfold paging_inner, write_name. destruct name as [n |].
  - destruct name_ok as [Hn Hl]. assert (0 < blen n) by (destruct n; [done | rewrite blen_cons; pose proof (blen_nonneg n); lia]).
    unfold write_string. rewrite <- !app_assoc, cur_i32_put by (unfold is_i32; lia). cbn.
    destruct (Z.eqb_spec (blen n) (-2)); [lia |]. destruct (Z.eqb_spec (blen n) 0); [lia |].
    destruct (Z.ltb_spec 0 (blen n)); [| lia]. unfold blen. rewrite Nat2Z.id, drop_app_length, cur_i32_put by (by destruct inner).
    destruct inner as [p |]; cbn; [by rewrite Hi | by subst].
  - rewrite app_nil_l, cur_i32_put by (by destruct inner). destruct inner as [p |]; cbn; [by rewrite Hi | by subst].
Qed.

Lemma paging_inner_put ids inner r :
  match inner with Some p => reads ids p | None => True end ->
  paging_inner ids (write_name name ++ (match inner with Some c => write_object c | None => to_be 4 0 end) ++ r)
  = Some (inner, r).
Proof.
  intros Hi. destruct inner as [p |].
  - unfold QueryWire.write_object. rewrite <- app_assoc. by apply (paging_body_put ids (Some p)).
  - by apply (paging_body_put ids None []).
Qed.

Lemma decode_head fuel class_id body r :
  is_i32 class_id ->
  decode_ids (S fuel) ((b8 1 :: to_be 4 (-20) ++ to_be 4 class_id ++ body) ++ r)
  = decode_class (decode_ids fuel) class_id (body ++ r).
Proof.
  intros Hc. cbn [decode_ids]. rewrite <- app_comm_cons, <- !app_assoc, get_byte_cons. cbn [mbind option_bind].
  rewrite cur_i32_put by done. cbn [mbind option_bind]. by rewrite cur_i32_put.
Qed.

Lemma child_shorter c children :
  c ∈ children -> (length (write_ids c) < length (concat (map write_object children)))%nat.
Proof.
  induction 1 as [c l | c d l _ IH]; cbn [map concat]; rewrite length_app.
  - unfold QueryWire.write_object at 1. rewrite length_app, length_to_be. lia.
  - lia.
Qed.

Definition decodes (p : Predicate) : Prop :=
  forall fuel, (length (write_ids p) <= fuel)%nat -> reads (decode_ids fuel) p.

Lemma decodes_children children fuel :
  Forall (fun c => writable c -> decodes c) children -> Forall id (map writable children) ->
  (length (concat (map write_object children)) <= fuel)%nat ->
  Forall (reads (decode_ids fuel)) children.
Proof.
  intros Hd Hw Hf. apply Forall_forall. intros c Hc. rewrite Forall_forall in Hd. apply Hd; [done | |].
  - rewrite Forall_forall in Hw. apply (Hw (writable c)), list_elem_of_fmap. by exists c.
  - pose proof (child_shorter c children Hc). lia.
Qed.

Lemma sane_len {A} (l : list A) : blen l <= 4096 -> sane (blen l) = true.
Proof. intros. pose proof (blen_nonneg l). unfold sane. apply andb_true_intro. lia. Qed.

Ltac run_wire :=
  repeat first
    [ rewrite cur_string_put by done | rewrite decode_value_put by done
    | rewrite cur_i32_put by (unfold is_i32; lia)
    | progress cbn [mbind option_bind] ].

Lemma decode_leaf fuel p r :
  match p with PAnd _ | POr _ | PNot _ | Paging _ _ _ _ | Partition _ _ => False | _ => True end ->
  writable p -> decode_ids (S fuel) (write_ids p ++ r) = Some (p, r).
Proof.
  intros Hp Hw. destruct p as [f op v | | | | f a b | f vs | f e | f e | f e | | | t | | |]; try done;
    cbn [QueryWire.write_ids QueryWire.writable] in *; rewrite decode_head by (by destruct op || done);
    try (match type of Hw with string_ok _ => fail 1 | _ /\ _ => destruct Hw as [Hw1 Hw2] end); rewrite <- ?app_assoc.
  2: destruct Hw2. 3: destruct Hw2 as [Hl Hv]; pose proof (blen_nonneg vs). 1: destruct op.
  all: cbn; run_wire; try done.
  rewrite sane_len by done. cbn [negb].
  rewrite (rd_items_put write_value decode_value value_ok); [done | apply decode_value_put | done |].
  rewrite length_app. pose proof (concat_put_length write_value vs write_value_length). lia.
Qed.

Lemma decode_list fuel p children r :
  p = PAnd children \/ p = POr children -> blen children <= 4096 -> Forall (reads (decode_ids fuel)) children ->
  decode_ids (S fuel) (write_ids p ++ r) = Some (p, r).
Proof.
  intros Hp Hl Hc. pose proof (blen_nonneg children).
  destruct Hp as [-> | ->]; cbn [QueryWire.write_ids]; rewrite decode_head by done; rewrite <- app_assoc; cbn;
    run_wire; rewrite sane_len by done; cbn [negb]; by rewrite decode_children_put.
Qed.

Lemma decode_paging_put ids inner page size it r :
  match inner with Some c => reads ids c | None => True end ->
  is_i32 page -> is_i32 size -> string_ok it ->
  decode_class ids CLASS_PAGING
    ((write_name name ++ (match inner with Some c => write_object c | None => to_be 4 0 end)
      ++ to_be 4 0 ++ to_be 4 page ++ to_be 4 size ++ write_string it
      ++ to_be 4 (blen anchors) ++ concat (map write_anchor anchors)) ++ r)
  = Some (Paging inner page size it, r).
Proof.
  intros Hi Hp Hs Ht. pose proof (blen_nonneg anchors). cbn. unfold decode_paging. rewrite <- !app_assoc.
  rewrite paging_inner_put by done. cbn [mbind option_bind].
  rewrite (skip_value_put ids Null) by done. cbn [mbind option_bind].
  rewrite !cur_i32_put by done. cbn [mbind option_bind]. rewrite cur_i32_put by done. cbn [mbind option_bind].
  destruct anchors_ok. run_wire. rewrite sane_len by done. cbn [negb]. by rewrite skip_anchors_put.
Qed.

(** Enough fuel is the length of what was written. *)
Lemma decode_ids_put : forall p, writable p -> decodes p.
Proof.
  apply (Predicate_nested_ind (fun p => writable p -> decodes p)).
  { intros p. destruct p as [| | | | | | | | | | | | [|] | |]; try done; intros Hw [| fuel] Hf r; try (simpl in Hf; lia); try by apply decode_leaf.
    cbn [QueryWire.write_ids]. rewrite decode_head by done. destruct Hw as (_ & ? & ? & ?).
    by apply (decode_paging_put (decode_ids fuel) None). }
  1, 2: intros children IH [Hl Hc] [| fuel] Hf r; [simpl in Hf; lia |].
  1, 2: eapply (decode_list _ _ children); [tauto | done |].
  1, 2: apply decodes_children; [done | done |]; cbn [QueryWire.write_ids] in Hf;
    rewrite length_cons, !length_app, !length_to_be in Hf; unfold QueryWire.write_object; lia.
  - intros p IH Hw [| fuel] Hf r; [simpl in Hf; lia |]. cbn [QueryWire.write_ids QueryWire.writable] in *.
    rewrite length_cons, !length_app, !length_to_be in Hf. rewrite decode_head by done.
    change (decode_class ?ids (class_of _) ?x) with ('(inner, b) ← decode_object_with ids x; Some (PNot inner, b)).
    pose proof (decode_object_put (decode_ids fuel) p r (IH Hw fuel ltac:(lia))) as E.
    unfold QueryWire.write_object in E. by rewrite E.
  - intros p page size it IH (Hw & Hp & Hs & Ht) [| fuel] Hf r; [simpl in Hf; lia |].
    cbn [QueryWire.write_ids] in *. rewrite length_cons, !length_app, !length_to_be in Hf.
    rewrite decode_head by done. apply (decode_paging_put (decode_ids fuel) (Some p)); [| done..].
    apply IH; [done | lia].
  - intros id p IH (Hk & Hid & Hw) [| fuel] Hf r; [simpl in Hf; lia |]. cbn [QueryWire.write_ids] in *.
    rewrite length_cons, !length_app, !length_to_be in Hf. rewrite decode_head by done. rewrite <- app_assoc.
    change (decode_class ?ids (class_of _) ?x) with
      ('(key, b) ← decode_value x; '(target, b) ← decode_object_with ids b; Some (Partition (partition_of key) target, b)).
    rewrite decode_value_put by done. cbn [mbind option_bind].
    pose proof (decode_object_put (decode_ids fuel) p r (IH Hw fuel ltac:(lia))) as E.
    unfold QueryWire.write_object in E. rewrite E. cbn. by rewrite Hid.
Qed.
End ClientFacts.


Definition sample_predicate : Predicate :=
  PAnd [Compare (bstr "age") OGt (I32 30); PNot (PIn (bstr "name") [VStr (bstr "alice"); Null]);
        Partition (partition_of (VStr (bstr "user-123"))) (Between (bstr "x") (I64 (-1)) (F64 0));
        Paging (Some PTrue) 1 10 (bstr "KEY")].


(** Whatever bytes arrive, decoding gives a predicate. *)
Lemma decode_total data : exists p, decode data = Ok p.
Proof.
  unfold decode, type_id. destruct (Nat.ltb_spec (length data) DATA_OFFSET); [eauto |].
  assert (exists h, read_i32_be data TYPE_OFFSET = Ok h) as [h ->].
  { pose proof (read_i32_be_ok data TYPE_OFFSET) as Hr. rewrite post_Ok in Hr. destruct Hr as (h & Hh & _); [done | eauto]. }
  cbn. case_match; eauto.
Qed.
