(* ===== verification/Sql.v ===== *)
(** * SQL statements and their parser (crates/query/src/sql.rs)

    The statements, the hand-written tokenizer and the recursive-descent parser.  The tokenizer is
    its unread suffix; an unterminated string literal leaves it one place past the end, where
    slicing panics, so that position is kept apart.  A parser gives a value and the new position,
    gives up (the [?] operator), or panics; running out of fuel counts as a panic, so that a parser
    that never panics also terminates. *)

From S2P Require Import Prelude Text FieldValue QueryIndex.

Inductive ColType := Varchar | TInt | Bigint | TDouble | TBoolean.
Inductive MappingKind := Imap | Kafka.

Record Mapping := mkMapping {
  mp_name : bytes;
  mp_kind : MappingKind;
  mp_columns : list (bytes * ColType);
  mp_options : gmap bytes bytes
}.

Definition option_of (m : Mapping) (k : bytes) : option bytes := mp_options m !! k.
Definition value_format (m : Mapping) : bytes := default (bstr "compact") (option_of m (bstr "valueFormat")).

Record Insert := mkInsert { in_mapping : bytes; in_rows : list (list FieldValue) }.

Inductive ColExpr :=
| Col (n : bytes)
| Count (n : bytes)
| Sum (n : bytes)
| Avg (n : bytes)
| Min (n : bytes)
| Max (n : bytes).

Record Join := mkJoin { j_right : bytes; j_left_col : bytes; j_right_col : bytes }.

Inductive WindowFunc := Tumble (size : Z) | Hop (size slide : Z).
Record WindowSpec := mkWindow { w_func : WindowFunc; w_ts_col : bytes }.

Record Select := mkSelect {
  s_distinct : bool;
  s_cols : list ColExpr;
  s_star : bool;
  s_map : bytes;
  s_window : option WindowSpec;
  s_join : option Join;
  s_filter : option Predicate;
  s_group_by : option (list bytes);
  s_order_by : option (bytes * bool);
  s_limit : option Z
}.

Record Job := mkJob { jb_name : bytes; jb_sink : bytes; jb_select : Select }.

Inductive Statement :=
| SSelect (s : Select)
| SCreateMapping (m : Mapping)
| SInsert (i : Insert)
| SCreateJob (j : Job).

(** ** Characters *)

Definition is_ascii_alphanumeric (b : byte) : bool := in_range 48 57 b || in_range 65 90 b || in_range 97 122 b.
Definition is_ascii_whitespace (b : byte) : bool :=
  (u8 b =? 32) || (u8 b =? 9) || (u8 b =? 10) || (u8 b =? 12) || (u8 b =? 13).
Definition is_ident (b : byte) : bool := is_ascii_alphanumeric b || (u8 b =? 95).
Definition to_ascii_lowercase (b : byte) : byte := if in_range 65 90 b then b8 (u8 b + 32) else b.
Definition lower (s : bytes) : bytes := map to_ascii_lowercase s.
Definition eq_ignore_ascii_case (a b : bytes) : bool := bool_decide (lower a = lower b).

(** ** The tokenizer *)

Record Tok := mkTok { rest : bytes; past : bool }.

Definition parser (A : Type) : Type := Tok -> outcome (option (A * Tok)).
Definition pret {A} (x : A) : parser A := fun t => Ok (Some (x, t)).
Definition pfail {A} : parser A := fun _ => Ok None.
#[export] Instance parser_ret : MRet parser := @pret.
#[export] Instance parser_bind : MBind parser := fun A B f m t =>
  match m t with Ok (Some (x, t')) => f x t' | Ok None => Ok None | Panic => Panic end.

(** [m?] *)
Definition orfail {A} (m : parser (option A)) : parser A :=
  o ← m; match o with Some x => pret x | None => pfail end.

(** The longest prefix of bytes that satisfy [p], and what follows it. *)
Fixpoint span (p : byte -> bool) (b : bytes) : bytes * bytes :=
  match b with
  | x :: r => if p x then let '(a, c) := span p r in (x :: a, c) else ([], b)
  | [] => ([], [])
  end.

Definition skip_ws_b (b : bytes) : bytes := (span is_ascii_whitespace b).2.
Definition skip_ws (t : Tok) : Tok := mkTok (skip_ws_b (rest t)) (past t).
Definition at_pos (b : bytes) : Tok := mkTok b false.

Definition keyword_b (kw b : bytes) : option bytes :=
  if (length kw <=? length b)%nat && eq_ignore_ascii_case (take (length kw) b) kw
     && match drop (length kw) b with x :: _ => negb (is_ident x) | [] => true end
  then Some (drop (length kw) b) else None.

(** Was the keyword there?  Whitespace before it is skipped in both cases. *)
Definition keyword (kw : bytes) : parser bool := fun t =>
  let t := skip_ws t in
  if past t then Ok (Some (false, t)) else
  match keyword_b kw (rest t) with Some r => Ok (Some (true, at_pos r)) | None => Ok (Some (false, t)) end.

Definition symbol_b (sym b : bytes) : option bytes :=
  if (length sym <=? length b)%nat && bool_decide (take (length sym) b = sym) then Some (drop (length sym) b) else None.

Definition symbol (sym : bytes) : parser bool := fun t =>
  let t := skip_ws t in
  if past t then Ok (Some (false, t)) else
  match symbol_b sym (rest t) with Some r => Ok (Some (true, at_pos r)) | None => Ok (Some (false, t)) end.

(** [t.keyword(kw)?] and [t.symbol(sym).then_some(())?] *)
Definition need (m : parser bool) : parser unit := o ← m; if o : bool then pret tt else pfail.

(** A non-empty run of bytes, as text. *)
Definition word (p : byte -> bool) : parser bytes := fun t =>
  let t := skip_ws t in
  match span p (rest t) with
  | ([], _) => Ok None
  | (w, r) => Ok (Some (from_utf8_lossy w, at_pos r))
  end.

Definition ident : parser bytes := word is_ident.
Definition col_ref : parser bytes := word (fun b => is_ident b || (u8 b =? 46)).

(** [&s[start..i]] panics past the end. *)
Definition number : parser Z := fun t =>
  let t := skip_ws t in
  if past t then Panic else
  let '(w, r) := span is_ascii_digit (rest t) in
  match parse_i64 w with Some n => Ok (Some (n, at_pos r)) | None => Ok None end.

(** After the opening quote: the text up to the closing one, or to the end of the input. *)
Definition quoted (b : bytes) : bytes * Tok :=
  let '(w, r) := span (fun x => negb (u8 x =? 39)) b in
  (from_utf8_lossy w, match r with _ :: r => at_pos r | [] => mkTok [] true end).

Definition string_lit : parser bytes := fun t =>
  match rest (skip_ws t) with
  | x :: r => if u8 x =? 39 then Ok (Some (quoted r)) else Ok None
  | [] => Ok None
  end.

Fixpoint first_symbol (l : list (bytes * Op)) : parser (option Op) :=
  match l with
  | [] => pret None
  | (sym, o) :: l => b ← symbol sym; if b : bool then pret (Some o) else first_symbol l
  end.

Definition op : parser (option Op) := fun t =>
  first_symbol [(bstr ">=", OGe); (bstr "<=", OLe); (bstr "=", OEq); (bstr ">", OGt); (bstr "<", OLt)] (skip_ws t).

Definition literal : parser FieldValue := fun t =>
  let t := skip_ws t in
  let num :=
    if past t then Panic else
    let '(w, r) := span (fun b => is_ascii_digit b || (u8 b =? 45)) (rest t) in
    match parse_i64 w with Some n => Ok (Some (I64 n, at_pos r)) | None => Ok None end in
  match rest t with
  | x :: r => if u8 x =? 39 then let '(s, t') := quoted r in Ok (Some (VStr s, t')) else num
  | [] => num
  end.

(** ** The grammar *)

(** [while t.symbol(",") { out.push(item(t)?) }]: every comma is a byte of the input. *)
Fixpoint commas {A} (fuel : nat) (item : parser A) : parser (list A) :=
  match fuel with
  | O => fun _ => Panic
  | S fuel' => b ← symbol (bstr ","); if b : bool then x ← item; l ← commas fuel' item; pret (x :: l) else pret []
  end.

Definition fuel_of (t : Tok) : nat := S (length (rest t)).

(** [item] and then more, separated by commas. *)
Definition separated {A} (item : parser A) : parser (list A) :=
  x ← item; l ← (fun t => commas (fuel_of t) item t); pret (x :: l).

(** [loop { item(t)?; if t.symbol(")") { break } t.symbol(","); }] *)
Fixpoint until_paren {A} (fuel : nat) (item : parser A) : parser (list A) :=
  match fuel with
  | O => fun _ => Panic
  | S fuel' =>
    x ← item;
    close ← symbol (bstr ")");
    if close : bool then pret [x] else
    _ ← symbol (bstr ",");
    l ← until_paren fuel' item;
    pret (x :: l)
  end.

Definition in_parens {A} (item : parser A) : parser (list A) := fun t => until_paren (fuel_of t) item t.

Definition is_keyword (kw : string) : parser bool := keyword (bstr kw).
Definition is_symbol (sym : string) : parser bool := symbol (bstr sym).

Definition call_arg : parser bytes := _ ← is_symbol "("; arg ← col_ref; _ ← is_symbol ")"; pret arg.

Definition count_arg : parser bytes :=
  _ ← is_symbol "(";
  star ← is_symbol "*";
  arg ← (if star : bool then pret (bstr "*") else col_ref);
  _ ← is_symbol ")";
  pret arg.

Definition parse_col_expr : parser ColExpr := fun t =>
  (b ← is_keyword "count"; if b : bool then n ← count_arg; pret (Count n) else
   b ← is_keyword "sum"; if b : bool then n ← call_arg; pret (Sum n) else
   b ← is_keyword "avg"; if b : bool then n ← call_arg; pret (Avg n) else
   b ← is_keyword "min"; if b : bool then n ← call_arg; pret (Min n) else
   b ← is_keyword "max"; if b : bool then n ← call_arg; pret (Max n) else
   n ← col_ref; pret (Col n)) (skip_ws t).

(** [TUMBLE(map, ts_col, size)] and [HOP(map, ts_col, size, slide)], after the keyword. *)
Definition window_source (hop : bool) : parser (bytes * option WindowSpec) :=
  _ ← need (is_symbol "(");
  map ← ident;
  _ ← need (is_symbol ",");
  ts_col ← ident;
  _ ← need (is_symbol ",");
  size ← number;
  func ← (if hop then _ ← need (is_symbol ","); slide ← number; pret (Hop size slide) else pret (Tumble size));
  _ ← need (is_symbol ")");
  pret (map, Some (mkWindow func ts_col)).

Definition parse_from_source : parser (bytes * option WindowSpec) :=
  b ← is_keyword "tumble"; if b : bool then window_source false else
  b ← is_keyword "hop"; if b : bool then window_source true else
  map ← ident; pret (map, None).

(** [c.rsplit('.').next()]: what follows the last dot. *)
Fixpoint bare_col (c : bytes) : bytes :=
  match c with
  | [] => []
  | x :: r => if existsb (fun y => u8 y =? 46) c then bare_col r else c
  end.

Definition starts_with (c p : bytes) : bool := bool_decide (take (length p) c = p).

(** The columns of [ON a = b] on the left and on the right map. *)
Definition split_join_cols (left right a b : bytes) : bytes * bytes :=
  let on (c tbl : bytes) := starts_with c (tbl ++ bstr ".") in
  if on a right || on b left then (bare_col b, bare_col a) else (bare_col a, bare_col b).

Definition parse_join (map : bytes) : parser (option Join) :=
  b ← is_keyword "join";
  if b : bool then
    right ← ident;
    _ ← need (is_keyword "on");
    a ← col_ref;
    _ ← orfail op;
    b ← col_ref;
    let '(left_col, right_col) := split_join_cols map right a b in
    pret (Some (mkJoin right left_col right_col))
  else pret None.

Definition parse_cond : parser Predicate :=
  field ← ident; o ← orfail op; value ← literal; pret (Compare field o value).

(** [while t.keyword("and").is_some() { conds.push(parse_cond(t)?) }] *)
Fixpoint and_conds (fuel : nat) : parser (list Predicate) :=
  match fuel with
  | O => fun _ => Panic
  | S fuel' => b ← is_keyword "and"; if b : bool then c ← parse_cond; l ← and_conds fuel'; pret (c :: l) else pret []
  end.

Definition parse_conds : parser Predicate :=
  c ← parse_cond;
  l ← (fun t => and_conds (fuel_of t) t);
  pret (match l with [] => c | _ => PAnd (c :: l) end).

Definition parse_where : parser (option Predicate) :=
  b ← is_keyword "where"; if b : bool then c ← parse_conds; pret (Some c) else pret None.

Definition parse_group_by : parser (option (list bytes)) :=
  b ← is_keyword "group";
  if b : bool then _ ← need (is_keyword "by"); gcols ← separated ident; pret (Some gcols) else pret None.

Definition parse_order_by : parser (option (bytes * bool)) :=
  b ← is_keyword "order";
  if b : bool then
    _ ← need (is_keyword "by");
    col ← ident;
    is_desc ← is_keyword "desc";
    if is_desc : bool then pret (Some (col, true)) else _ ← is_keyword "asc"; pret (Some (col, false))
  else pret None.

(** The digits after [LIMIT]. *)
Definition limit_number : parser Z := fun t =>
  let t := skip_ws t in
  let '(w, r) := span is_ascii_digit (rest t) in
  match parse_u64 w with Some n => Ok (Some (n, at_pos r)) | None => Ok None end.

Definition parse_limit : parser (option Z) :=
  b ← is_keyword "limit"; if b : bool then n ← limit_number; pret (Some n) else pret None.

Definition parse_cols : parser (bool * list ColExpr) :=
  star ← is_symbol "*"; if star : bool then pret (true, []) else cols ← separated parse_col_expr; pret (false, cols).

Definition parse_select_body : parser Select :=
  is_distinct ← is_keyword "distinct";
  '(star, cols) ← parse_cols;
  _ ← need (is_keyword "from");
  '(map, window) ← parse_from_source;
  join ← parse_join map;
  filter ← parse_where;
  group_by ← parse_group_by;
  order_by ← parse_order_by;
  limit ← parse_limit;
  pret (mkSelect is_distinct cols star map window join filter group_by order_by limit).

Definition parse_coltype : parser ColType :=
  id ← ident;
  let id := lower id in
  pret (if bool_decide (id = bstr "int") || bool_decide (id = bstr "integer") then TInt
        else if bool_decide (id = bstr "bigint") then Bigint
        else if bool_decide (id = bstr "double") then TDouble
        else if bool_decide (id = bstr "boolean") then TBoolean
        else Varchar).

Definition column : parser (bytes * ColType) := col ← ident; ty ← parse_coltype; pret (col, ty).
Definition option_item : parser (bytes * bytes) := k ← string_lit; _ ← op; v ← string_lit; pret (k, v).

Definition parse_create_mapping : parser Mapping :=
  name ← ident;
  paren ← is_symbol "(";
  columns ← (if paren : bool then in_parens column else pret []);
  _ ← need (is_keyword "type");
  kind ← ident;
  opts ← is_keyword "options";
  paren ← (if opts : bool then is_symbol "(" else pret false);
  options ← (if paren : bool then in_parens option_item else pret []);
  pret (mkMapping name (if bool_decide (lower kind = bstr "kafka") then Kafka else Imap) columns
          (foldl (fun m kv => <[kv.1 := kv.2]> m) ∅ options)).

Definition insert_row : parser (list FieldValue) := row ← separated literal; _ ← is_symbol ")"; pret row.

Fixpoint insert_rows (fuel : nat) : parser (list (list FieldValue)) :=
  match fuel with
  | O => fun _ => Panic
  | S fuel' =>
    paren ← is_symbol "(";
    if paren : bool then
      row ← insert_row;
      more ← is_symbol ",";
      if more : bool then l ← insert_rows fuel'; pret (row :: l) else pret [row]
    else pret []
  end.

Definition parse_insert : parser Insert :=
  _ ← need (is_keyword "into");
  mapping ← ident;
  paren ← is_symbol "(";
  _ ← (if paren : bool then _ ← in_parens ident; pret tt else pret tt);
  _ ← need (is_keyword "values");
  rows ← (fun t => insert_rows (fuel_of t) t);
  pret (mkInsert mapping rows).

Definition parse_create_job : parser Job :=
  name ← ident;
  _ ← need (is_keyword "as");
  _ ← need (is_keyword "sink");
  _ ← need (is_keyword "into");
  sink ← ident;
  _ ← need (is_keyword "select");
  select ← parse_select_body;
  pret (mkJob name sink select).

Definition parse_statement : parser Statement :=
  b ← is_keyword "select"; if b : bool then s ← parse_select_body; pret (SSelect s) else
  b ← is_keyword "insert"; if b : bool then i ← parse_insert; pret (SInsert i) else
  b ← is_keyword "create";
  if b : bool then
    b ← is_keyword "mapping"; if b : bool then m ← parse_create_mapping; pret (SCreateMapping m) else
    b ← is_keyword "job"; if b : bool then j ← parse_create_job; pret (SCreateJob j) else pfail
  else pfail.

Definition parse (sql : bytes) : outcome (option Statement) :=
  match parse_statement (at_pos sql) with
  | Ok (Some (st, _)) => Ok (Some st)
  | Ok None => Ok None
  | Panic => Panic
  end.

Definition parse_select (sql : bytes) : outcome (option Select) :=
  match parse sql with
  | Ok (Some (SSelect s)) => Ok (Some s)
  | Ok _ => Ok None
  | Panic => Panic
  end.

(** ** Windows *)

(** [div_euclid] panics on zero, and on the minimum by -1. *)
Definition div_euclid (a b : Z) : outcome Z :=
  if (b =? 0) || ((a =? - 2 ^ 63) && (b =? -1)) then Panic else Ok (if 0 <? b then a / b else - (a / - b)).

(** [while s > ts - size { out.push((s, s + size)); s -= slide }]; the loop of the source has no
    bound of its own. *)
Fixpoint hop_windows (fuel : nat) (s ts size slide : Z) : option (list (Z * Z)) :=
  match fuel with
  | O => None
  | S fuel' =>
    if wrap_i64 (ts - size) <? s
    then l ← hop_windows fuel' (wrap_i64 (s - slide)) ts size slide; Some ((s, wrap_i64 (s + size)) :: l)
    else Some []
  end.

(** Enough for every window that starts after [ts - size]. *)
Definition hop_fuel (size slide : Z) : nat := S (S (Z.to_nat (size / slide))).

Definition windows (w : WindowSpec) (ts : Z) : outcome (list (Z * Z)) :=
  match w_func w with
  | Tumble size => q ← div_euclid ts size; let s := wrap_i64 (q * size) in Ok [(s, wrap_i64 (s + size))]
  | Hop size slide =>
    q ← div_euclid ts slide;
    match hop_windows (hop_fuel size slide) (wrap_i64 (q * slide)) ts size slide with
    | Some l => Ok (rev l)
    | None => Panic
    end
  end.
