(* ===== verification/SqlFacts.v ===== *)
(** * The SQL parser never panics

    Whatever text arrives, the parser returns: slices stay within the text, the loops end, and the
    one position at which slicing would panic is never reached by a number. *)

From S2P Require Import Prelude FieldValue QueryIndex Sql Text.

Definition safe {A} (m : parser A) (t : Tok) (Q : A -> Tok -> Prop) : Prop :=
  match m t with Panic => False | Ok None => True | Ok (Some (x, t')) => Q x t' end.

Definition len (t : Tok) : nat := length (rest t).

Lemma safe_step {A B} (m : parser A) (f : A -> parser B) t P Q :
  safe m t P -> (forall x t', P x t' -> safe (f x) t' Q) -> safe (m ≫= f) t Q.
Proof.
  unfold safe, mbind, parser_bind. intros Hm Hf. destruct (m t) as [[[x t'] |] |]; [| done | done]. by apply Hf.
Qed.

Lemma safe_mono {A} (m : parser A) t (P Q : A -> Tok -> Prop) :
  safe m t P -> (forall x t', P x t' -> Q x t') -> safe m t Q.
Proof. unfold safe. intros Hm HPQ. destruct (m t) as [[[x t'] |] |]; auto. Qed.

Lemma safe_ret {A} (x : A) t (Q : A -> Tok -> Prop) : Q x t -> safe (pret x) t Q.
Proof. done. Qed.

Lemma safe_fail {A} t (Q : A -> Tok -> Prop) : safe pfail t Q.
Proof. exact I. Qed.

(** What every parser leaves is no longer than what it was given. *)
Definition shorter {A} (t : Tok) (_ : A) (t' : Tok) : Prop := (len t' <= len t)%nat.
(** A test that succeeds has consumed something. *)
Definition tested (t : Tok) (b : bool) (t' : Tok) : Prop :=
  (len t' <= len t)%nat /\ (b = true -> (len t' < len t)%nat /\ past t' = false).
(** A token is not empty. *)
Definition taken {A} (t : Tok) (_ : A) (t' : Tok) : Prop := (len t' < len t)%nat /\ past t' = false.

Lemma span_length p b : (length (span p b).2 <= length b)%nat.
Proof. induction b as [| x b IH]; cbn; [done |]. case_match; [| done]. destruct (span p b). cbn in *. lia. Qed.

Lemma span_length_cons p b w r x : span p b = (x :: w, r) -> (length r < length b)%nat.
Proof.
  destruct b as [| y b]; [done |]. cbn. case_match; [| done]. pose proof (span_length p b) as H1.
  destruct (span p b). intros [= <- <- <-]. cbn in *. lia.
Qed.

Lemma len_skip_ws t : (len (skip_ws t) <= len t)%nat.
Proof. apply span_length. Qed.

Lemma keyword_safe kw t : kw <> [] -> safe (keyword kw) t (tested t).
Proof.
  intros Hk. pose proof (len_skip_ws t) as Hl. unfold safe, keyword, tested. cbv zeta.
  destruct (past (skip_ws t)); [done |]. destruct (keyword_b kw (rest (skip_ws t))) as [r |] eqn:E; [| done].
  unfold keyword_b in E. case_match; [| done]. injection E as <-.
  repeat match goal with H : _ && _ = true |- _ => apply andb_true_iff in H as [? ?] end.
  assert (length kw <> 0)%nat by (by destruct kw). match goal with H : (_ <=? _)%nat = true |- _ => apply Nat.leb_le in H end.
  cbn in *. unfold len in *. cbn in *. rewrite length_drop. split; [lia |]. intros _. split; [lia | done].
Qed.

Lemma symbol_safe sym t : sym <> [] -> safe (symbol sym) t (tested t).
Proof.
  intros Hk. pose proof (len_skip_ws t) as Hl. unfold safe, symbol, tested. cbv zeta.
  destruct (past (skip_ws t)); [done |]. destruct (symbol_b sym (rest (skip_ws t))) as [r |] eqn:E; [| done].
  unfold symbol_b in E. case_match; [| done]. injection E as <-.
  match goal with H : _ && _ = true |- _ => apply andb_true_iff in H as [? ?] end.
  assert (length sym <> 0)%nat by (by destruct sym). match goal with H : (_ <=? _)%nat = true |- _ => apply Nat.leb_le in H end.
  cbn in *. unfold len in *. cbn in *. rewrite length_drop. split; [lia |]. intros _. split; [lia | done].
Qed.

Lemma need_safe m t : safe m t (tested t) -> safe (need m) t (taken t).
Proof. intros H. eapply safe_step; [exact H |]. intros [] t' [_ Ht]; [by apply Ht | exact I]. Qed.

Lemma word_safe p t : safe (word p) t (taken t).
Proof.
  pose proof (len_skip_ws t) as Hl. unfold safe, word. cbv zeta.
  destruct (span p (rest (skip_ws t))) as [[| x w] r] eqn:E; [done |]. cbn. split; [| done].
  apply span_length_cons in E. unfold len in *. cbn in *. lia.
Qed.

Lemma number_safe t : past t = false -> safe number t (fun _ t' => (len t' <= len t)%nat /\ past t' = false).
Proof.
  intros Hp. pose proof (len_skip_ws t) as Hl. unfold safe, number. cbv zeta. cbn [past skip_ws]. rewrite Hp.
  pose proof (span_length is_ascii_digit (rest (skip_ws t))) as Hs.
  destruct (span is_ascii_digit (rest (skip_ws t))) as [w r]. destruct (parse_i64 w); [| done]. cbn in *.
  unfold len in *. cbn in *. split; [lia | done].
Qed.

Lemma limit_number_safe t : safe limit_number t (shorter t).
Proof.
  pose proof (len_skip_ws t) as Hl. unfold safe, limit_number. cbv zeta.
  pose proof (span_length is_ascii_digit (rest (skip_ws t))) as Hs.
  destruct (span is_ascii_digit (rest (skip_ws t))) as [w r]. destruct (parse_u64 w); [| done]. cbn in *.
  unfold shorter, len in *. cbn in *. lia.
Qed.

Lemma quoted_length b : (len (quoted b).2 <= length b)%nat.
Proof.
  unfold quoted. pose proof (span_length (fun x => negb (u8 x =? 39)) b) as H.
  destruct (span _ b) as [w [| x r]]; unfold len; cbn in *; lia.
Qed.

Lemma string_lit_safe t : safe string_lit t (fun _ t' => (len t' < len t)%nat).
Proof.
  pose proof (len_skip_ws t) as Hl. unfold safe, string_lit, len in *.
  destruct (rest (skip_ws t)) as [| x r]; [done |]. destruct (u8 x =? 39); [| done]. pose proof (quoted_length r) as Hq.
  destruct (quoted r). unfold len in *. cbn in *. lia.
Qed.

Lemma literal_safe t : past t = false -> safe literal t (shorter t).
Proof.
  intros Hp. pose proof (len_skip_ws t) as Hl. unfold safe, literal. cbv zeta. cbn [past skip_ws]. rewrite Hp.
  pose proof (span_length (fun b => is_ascii_digit b || (u8 b =? 45)) (rest (skip_ws t))) as Hs.
  unfold shorter, len in *. destruct (rest (skip_ws t)) as [| x r].
  - destruct (span _ []) as [w r]. destruct (parse_i64 w); [cbn in *; lia | done].
  - destruct (u8 x =? 39).
    + pose proof (quoted_length r) as Hq. destruct (quoted r). unfold len in *. cbn in *. lia.
    + destruct (span _ (x :: r)) as [w r']. destruct (parse_i64 w); [cbn in *; lia | done].
Qed.

Lemma first_symbol_safe l t :
  Forall (fun so => so.1 <> []) l ->
  safe (first_symbol l) t (fun o t' => (len t' <= len t)%nat /\ (o <> None -> past t' = false)).
Proof.
  intros Hl. revert t. induction Hl as [| [sym o] l Hs Hl IH]; intros t; [by apply safe_ret |]. cbn [first_symbol].
  eapply safe_step; [by apply symbol_safe |]. intros [] t' [Ht Hb].
  - apply safe_ret. split; [done |]. intros _. by apply Hb.
  - eapply safe_mono; [apply IH |]. intros x t'' [? ?]. split; [lia | done].
Qed.

Lemma op_safe t : safe op t (fun o t' => (len t' <= len t)%nat /\ (o <> None -> past t' = false)).
Proof.
  unfold safe, op. eapply safe_mono; [apply first_symbol_safe; by repeat constructor |].
  intros x t' [H1 H2]. pose proof (len_skip_ws t). split; [lia | done].
Qed.

Lemma orfail_op_safe t : safe (orfail op) t (fun _ t' => (len t' <= len t)%nat /\ past t' = false).
Proof.
  eapply safe_step; [apply op_safe |]. intros [o |] t' [Ht Hp]; [| exact I]. apply safe_ret. split; [done | by apply Hp].
Qed.

(** ** The grammar *)

Create HintDb safe.
#[local] Hint Resolve word_safe number_safe limit_number_safe string_lit_safe literal_safe op_safe orfail_op_safe
  need_safe safe_fail : safe.
#[local] Hint Extern 1 (safe (keyword _) _ _) => (apply keyword_safe; done) : safe.
#[local] Hint Extern 1 (safe (symbol _) _ _) => (apply symbol_safe; done) : safe.
#[local] Hint Extern 1 (safe (is_keyword _) _ _) => (apply keyword_safe; done) : safe.
#[local] Hint Extern 1 (safe (is_symbol _) _ _) => (apply symbol_safe; done) : safe.
#[local] Hint Extern 1 (safe ident _ _) => (apply word_safe) : safe.
#[local] Hint Extern 1 (safe col_ref _ _) => (apply word_safe) : safe.
#[local] Hint Extern 3 (past _ = false) => done : safe.

Ltac unpack :=
  cbv beta in *;
  repeat match goal with
  | H : tested _ _ _ |- _ => destruct H
  | H : taken _ _ _ |- _ => destruct H
  | H : shorter _ _ _ |- _ => unfold shorter in H
  | H : true = true -> _ |- _ => specialize (H eq_refl)
  | H : _ /\ _ |- _ => destruct H
  end.

(** Runs a parser: one step per bind, a case per test. *)
Ltac run_safe :=
  repeat first
    [ apply safe_fail
    | apply safe_ret; solve [unfold shorter, taken in *; unpack; repeat split; first [done | lia]]
    | eapply safe_step; [solve [eauto with safe] | intros ? ? ?; unpack]
    | match goal with
      | |- safe (if ?b then _ else _) _ _ => is_var b; destruct b; unpack
      | |- safe (match ?x with _ => _ end) _ _ => destruct x
      end ].

Lemma commas_safe {A} (item : parser A) fuel t :
  (forall t, past t = false -> safe item t (shorter t)) -> (len t < fuel)%nat -> safe (commas fuel item) t (shorter t).
Proof.
  intros Hi. revert t. induction fuel as [| fuel IH]; intros t Hf; [lia |]. cbn [commas].
  eapply safe_step; [by apply symbol_safe |]. intros [] t' Ht; unpack; [| by apply safe_ret].
  eapply safe_step; [by apply Hi |]. intros x t2 H2. unfold shorter in H2.
  eapply safe_step; [apply IH; lia |]. intros l t3 H3. apply safe_ret. unfold shorter in *. lia.
Qed.

Lemma separated_safe {A} (item : parser A) t :
  (forall t, past t = false -> safe item t (shorter t)) -> past t = false -> safe (separated item) t (shorter t).
Proof.
  intros Hi Hp. unfold separated. eapply safe_step; [by apply Hi |]. intros x t' H1.
  eapply safe_step; [apply (commas_safe item (fuel_of t')); [done | unfold fuel_of, len; lia] |].
  intros l t2 H2. apply safe_ret. unfold shorter in *. lia.
Qed.

Lemma until_paren_safe {A} (item : parser A) fuel t :
  (forall t, safe item t (fun _ t' => (len t' < len t)%nat)) -> (len t < fuel)%nat ->
  safe (until_paren fuel item) t (shorter t).
Proof.
  intros Hi. revert t. induction fuel as [| fuel IH]; intros t Hf; [lia |]. cbn [until_paren].
  eapply safe_step; [apply Hi |]. intros x t1 H1.
  eapply safe_step; [by apply symbol_safe |]. intros [] t2 H2; unpack; [apply safe_ret; unfold shorter; lia |].
  eapply safe_step; [by apply symbol_safe |]. intros b t3 H3; unpack.
  eapply safe_step; [apply IH; lia |]. intros l t4 H4. apply safe_ret. unfold shorter in *. lia.
Qed.

Lemma in_parens_safe {A} (item : parser A) t :
  (forall t, safe item t (fun _ t' => (len t' < len t)%nat)) -> safe (in_parens item) t (shorter t).
Proof. intros Hi. apply (until_paren_safe item (fuel_of t)); [done | unfold fuel_of, len; lia]. Qed.

Lemma call_arg_safe t : safe call_arg t (shorter t).
Proof. unfold call_arg. run_safe. Qed.

Lemma count_arg_safe t : safe count_arg t (shorter t).
Proof.
  unfold count_arg. eapply safe_step; [eauto with safe |]. intros ? t1 H1.
  eapply safe_step; [eauto with safe |]. intros star t2 H2. unpack.
  eapply (safe_step _ _ _ (shorter t2)); [destruct star; run_safe |].
  { eapply safe_mono; [apply word_safe |]. intros ? ? [? ?]. unfold shorter. lia. }
  intros arg t3 H3. run_safe.
Qed.

#[local] Hint Resolve commas_safe separated_safe in_parens_safe call_arg_safe count_arg_safe : safe.

Lemma parse_col_expr_safe t : safe parse_col_expr t (shorter t).
Proof.
  unfold safe, parse_col_expr. eapply safe_mono.
  - match goal with |- safe ?m _ _ => assert (forall t, safe m t (shorter t)) as H end; [| apply H]. intros u. run_safe.
  - intros x t' H. pose proof (len_skip_ws t). unfold shorter in *. lia.
Qed.

Lemma ident_shorter t : safe ident t (shorter t).
Proof. eapply safe_mono; [apply word_safe |]. intros ? ? [? ?]. unfold shorter. lia. Qed.

(** A list of items that are safe everywhere. *)
Lemma separated_all_safe {A} (item : parser A) t : (forall t, safe item t (shorter t)) -> safe (separated item) t (shorter t).
Proof.
  intros Hi. unfold separated. eapply safe_step; [by apply Hi |]. intros x t' H1.
  eapply safe_step; [apply (commas_safe item (fuel_of t')); [done | unfold fuel_of, len; lia] |].
  intros l t2 H2. apply safe_ret. unfold shorter in *. lia.
Qed.

#[local] Hint Extern 2 (safe (separated ident) _ _) => (apply separated_all_safe, ident_shorter) : safe.
#[local] Hint Extern 2 (safe (separated parse_col_expr) _ _) => (apply separated_all_safe, parse_col_expr_safe) : safe.

Lemma window_source_safe hop t : safe (window_source hop) t (shorter t).
Proof.
  unfold window_source. do 6 (eapply safe_step; [solve [eauto with safe] | intros ? ? ?; unpack]).
  match goal with |- safe _ ?u _ => eapply (safe_step _ _ _ (shorter u)) end; [destruct hop; run_safe |].
  intros func ? Ht. unpack. run_safe.
Qed.

#[local] Hint Resolve window_source_safe : safe.

Lemma parse_from_source_safe t : safe parse_from_source t (shorter t).
Proof.
  unfold parse_from_source. eapply safe_step; [solve [eauto with safe] |]. intros [] t1 H1; unpack.
  { eapply safe_mono; [apply window_source_safe |]. intros ? ? Hw. unfold shorter in *. lia. }
  eapply safe_step; [solve [eauto with safe] |]. intros [] t2 H2; unpack; [| run_safe].
  eapply safe_mono; [apply window_source_safe |]. intros ? ? Hw. unfold shorter in *. lia.
Qed.

Lemma parse_join_safe map t : safe (parse_join map) t (shorter t).
Proof. unfold parse_join. run_safe. Qed.

Lemma parse_cond_safe t : safe parse_cond t (shorter t).
Proof. unfold parse_cond. run_safe. Qed.

Lemma and_conds_safe fuel t : (len t < fuel)%nat -> safe (and_conds fuel) t (shorter t).
Proof.
  revert t. induction fuel as [| fuel IH]; intros t Hf; [lia |]. cbn [and_conds].
  eapply safe_step; [by apply keyword_safe |]. intros [] t' Ht; unpack; [| by apply safe_ret].
  eapply safe_step; [apply parse_cond_safe |]. intros x t2 H2. unfold shorter in H2.
  eapply safe_step; [apply IH; lia |]. intros l t3 H3. apply safe_ret. unfold shorter in *. lia.
Qed.

Lemma parse_conds_safe t : safe parse_conds t (shorter t).
Proof.
  unfold parse_conds. eapply safe_step; [apply parse_cond_safe |]. intros c t' Ht.
  eapply safe_step; [apply (and_conds_safe (fuel_of t')); unfold fuel_of, len; lia |].
  intros l t2 H2. apply safe_ret. unfold shorter in *. lia.
Qed.

#[local] Hint Resolve parse_from_source_safe parse_join_safe parse_conds_safe : safe.

Lemma parse_where_safe t : safe parse_where t (shorter t).
Proof. unfold parse_where. run_safe. Qed.

Lemma parse_group_by_safe t : safe parse_group_by t (shorter t).
Proof. unfold parse_group_by. run_safe. Qed.

Lemma parse_order_by_safe t : safe parse_order_by t (shorter t).
Proof. unfold parse_order_by. run_safe. Qed.

Lemma parse_limit_safe t : safe parse_limit t (shorter t).
Proof. unfold parse_limit. run_safe. Qed.

Lemma parse_cols_safe t : safe parse_cols t (shorter t).
Proof. unfold parse_cols. run_safe. Qed.

#[local] Hint Resolve parse_where_safe parse_group_by_safe parse_order_by_safe parse_limit_safe parse_cols_safe : safe.

Lemma parse_select_body_safe t : safe parse_select_body t (shorter t).
Proof. unfold parse_select_body. run_safe. Qed.

Lemma parse_coltype_safe t : safe parse_coltype t (shorter t).
Proof. unfold parse_coltype. run_safe. Qed.

#[local] Hint Resolve parse_select_body_safe parse_coltype_safe : safe.

Lemma column_safe t : safe column t (fun _ t' => (len t' < len t)%nat).
Proof. unfold column. run_safe. Qed.

Lemma option_item_safe t : safe option_item t (fun _ t' => (len t' < len t)%nat).
Proof. unfold option_item. run_safe. Qed.

Lemma ident_item_safe t : safe ident t (fun _ t' => (len t' < len t)%nat).
Proof. eapply safe_mono; [apply word_safe |]. by intros ? ? [? ?]. Qed.

#[local] Hint Extern 2 (safe (in_parens column) _ _) => (apply in_parens_safe, column_safe) : safe.
#[local] Hint Extern 2 (safe (in_parens option_item) _ _) => (apply in_parens_safe, option_item_safe) : safe.
#[local] Hint Extern 2 (safe (in_parens ident) _ _) => (apply in_parens_safe, ident_item_safe) : safe.

(** An optional part. *)
Lemma when_safe {A} (b : bool) (m n : parser A) t :
  safe m t (shorter t) -> safe n t (shorter t) -> safe (if b then m else n) t (shorter t).
Proof. by destruct b. Qed.

Lemma ret_shorter {A} (x : A) t : safe (pret x) t (shorter t).
Proof. apply safe_ret. unfold shorter. lia. Qed.

Lemma is_symbol_shorter sym t : bstr sym <> [] -> safe (is_symbol sym) t (shorter t).
Proof. intros H. eapply safe_mono; [by apply symbol_safe |]. intros ? ? [? _]. unfold shorter. lia. Qed.

#[local] Hint Resolve when_safe ret_shorter : safe.
#[local] Hint Extern 2 (safe (is_symbol _) _ (shorter _)) => (apply is_symbol_shorter; done) : safe.

Lemma parse_create_mapping_safe t : safe parse_create_mapping t (shorter t).
Proof. unfold parse_create_mapping. run_safe. Qed.

Lemma insert_row_safe t : past t = false -> safe insert_row t (shorter t).
Proof. intros. unfold insert_row. run_safe. Qed.

Lemma insert_rows_safe fuel t : (len t < fuel)%nat -> safe (insert_rows fuel) t (shorter t).
Proof.
  revert t. induction fuel as [| fuel IH]; intros t Hf; [lia |]. cbn [insert_rows].
  eapply safe_step; [by apply symbol_safe |]. intros [] t1 H1; unpack; [| by apply safe_ret].
  eapply safe_step; [by apply insert_row_safe |]. intros row t2 H2. unfold shorter in H2.
  eapply safe_step; [by apply symbol_safe |]. intros [] t3 H3; unpack; [| apply safe_ret; unfold shorter; lia].
  eapply safe_step; [apply IH; lia |]. intros l t4 Hr. apply safe_ret. unfold shorter in *. lia.
Qed.

Lemma parse_insert_safe t : safe parse_insert t (shorter t).
Proof.
  unfold parse_insert. do 3 (eapply safe_step; [solve [eauto with safe] | intros ? ? ?; unpack]).
  match goal with |- safe _ ?u _ => eapply (safe_step _ _ _ (shorter u)) end.
  { apply when_safe; [| apply ret_shorter]. eapply safe_step; [eauto with safe |]. intros. by apply safe_ret. }
  intros ? ? ?. eapply safe_step; [solve [eauto with safe] |]. intros ? u ?. unpack.
  eapply safe_step; [apply (insert_rows_safe (fuel_of u)); unfold fuel_of, len; lia |]. intros. unpack. run_safe.
Qed.

Lemma parse_create_job_safe t : safe parse_create_job t (shorter t).
Proof. unfold parse_create_job. run_safe. Qed.

#[local] Hint Resolve parse_create_mapping_safe parse_insert_safe parse_create_job_safe : safe.

(** C27. Parsing any text returns: a statement or nothing, never a panic and never an endless loop. *)
Theorem parser_never_panics sql : exists r, Sql.parse sql = Ok r.
Proof.
  assert (safe parse_statement (at_pos sql) (shorter (at_pos sql))) as H by (unfold parse_statement; run_safe).
  unfold parse. unfold safe in H. destruct (parse_statement (at_pos sql)) as [[[st t] |] |]; [eauto | eauto | done].
Qed.

(** * Windows of a query

    The windows an event falls into are exactly the aligned intervals that contain it. *)

Definition size_of (f : WindowFunc) : Z := match f with Tumble size => size | Hop size _ => size end.
Definition slide_of (f : WindowFunc) : Z := match f with Tumble size => size | Hop _ slide => slide end.

(** No bound of a window of an event at [ts] leaves the 64-bit range. *)
Definition ts_ok (f : WindowFunc) (ts : Z) : Prop :=
  - 2 ^ 63 + size_of f + slide_of f <= ts /\ ts < 2 ^ 63 - size_of f.

Definition window_positive (f : WindowFunc) : Prop := 0 < size_of f < 2 ^ 63 /\ 0 < slide_of f < 2 ^ 63.

(** [l]: the windows that start at or before [s], the latest first. *)
Definition windows_upto (size slide ts s : Z) (l : list (Z * Z)) : Prop :=
  (forall a b, (a, b) ∈ l <-> b = a + size /\ (slide | a) /\ a <= s /\ ts - size < a)
  /\ StronglySorted (fun p q => q.1 < p.1) l.

Lemma hop_windows_ok size slide ts fuel s :
  0 < size -> 0 < slide -> - 2 ^ 63 + size + slide <= ts -> ts < 2 ^ 63 - size ->
  (slide | s) -> s <= ts -> s - (ts - size) <= slide * (Z.of_nat fuel - 1) -> (0 < fuel)%nat -> - 2 ^ 63 <= s ->
  exists l, hop_windows fuel s ts size slide = Some l /\ windows_upto size slide ts s l.
Proof.
  intros H1 H2 H3 H4. revert s. induction fuel as [| fuel IH]; intros s Hd Hs Hf Hp Hlow; [lia |]. cbn [hop_windows].
  rewrite (wrap_i64_small (ts - size)) by (unfold is_i64; lia). destruct (Z.ltb_spec (ts - size) s).
  - rewrite (wrap_i64_small (s - slide)), (wrap_i64_small (s + size)) by (unfold is_i64; lia).
    rewrite Nat2Z.inj_succ in Hf.
    destruct (IH (s - slide)) as (l & E & Hl & Ho); [| lia | nia | nia | lia |].
    { apply Z.divide_sub_r; [done | apply Z.divide_refl]. }
    rewrite E. cbn. eexists. split; [done |]. split.
    + intros a b. rewrite elem_of_cons, Hl. split.
      * intros [[= -> ->] | (-> & Ha & Hle & Hgt)]; repeat split; try done; lia.
      * intros (-> & Ha & Hle & Hgt). destruct (Z.eq_dec a s) as [-> |]; [by left | right].
        repeat split; try done. destruct Ha as [x ->], Hd as [y ->]. assert (x < y) by (apply (Z.mul_lt_mono_pos_r slide); lia). nia.
    + constructor; [done |]. apply Forall_forall. intros [a b] Hab. apply Hl in Hab. cbn. lia.
  - eexists. split; [done |]. split; [| constructor]. intros a b. split; [by intros ?%not_elem_of_nil |]. lia.
Qed.

Lemma StronglySorted_rev {A} (R : A -> A -> Prop) l : StronglySorted R l -> StronglySorted (fun x y => R y x) (rev l).
Proof.
  induction 1 as [| x l Hl IH Hx]; [constructor |]. cbn. revert IH. rewrite <- (rev_involutive l) in Hx. revert Hx. generalize (rev l).
  intros k Hx IH. assert (Forall (fun y => R x y) k) as Hk.
  { rewrite Forall_forall in *. intros y Hy. apply Hx. by rewrite list_elem_of_In, <- in_rev, <- list_elem_of_In. }
  clear Hx. induction IH as [| y k Hk' IH Hy]; [by repeat constructor |]. apply Forall_cons in Hk as [Hxy Hk]. cbn.
  constructor; [by apply IH |]. apply Forall_app. split; [done | by constructor].
Qed.

Lemma div_euclid_pos a b : 0 < b -> div_euclid a b = Ok (a / b).
Proof. intros H. unfold div_euclid. by rewrite (proj2 (Z.eqb_neq b 0)), (proj2 (Z.eqb_neq b (-1))), andb_false_r, (proj2 (Z.ltb_lt 0 b)) by lia. Qed.

(** The multiple of [b] at or before [a] fits where [a] does. *)
Lemma floor_small a b : 0 < b -> - 2 ^ 63 + b <= a < 2 ^ 63 -> wrap_i64 (a / b * b) = a / b * b.
Proof. intros Hb Ha. pose proof (Z.div_mod a b ltac:(lia)). pose proof (Z.mod_pos_bound a b ltac:(lia)). apply wrap_i64_small. unfold is_i64. lia. Qed.

(** The loop from the last start gives every window that contains [ts], the latest first. *)
Lemma hop_windows_all size slide ts : 0 < size -> 0 < slide -> - 2 ^ 63 + size + slide <= ts -> ts < 2 ^ 63 - size ->
  exists l, hop_windows (hop_fuel size slide) (wrap_i64 (ts / slide * slide)) ts size slide = Some l
    /\ (forall s e, (s, e) ∈ l <-> e = s + size /\ (slide | s) /\ s <= ts < e) /\ StronglySorted (fun p q => q.1 < p.1) l.
Proof.
  intros Hsz Hsl Hlo Hhi. rewrite floor_small by lia. pose proof (Z.div_mod ts slide ltac:(lia)). pose proof (Z.mod_pos_bound ts slide ltac:(lia)).
  destruct (hop_windows_ok size slide ts (hop_fuel size slide) (ts / slide * slide)) as (l & -> & Hl & Ho); try lia.
  { apply Z.divide_factor_r. }
  { unfold hop_fuel. pose proof (Z.div_mod size slide ltac:(lia)). pose proof (Z.mod_pos_bound size slide ltac:(lia)).
    assert (0 <= size / slide) by (apply Z.div_pos; lia). rewrite !Nat2Z.inj_succ, Z2Nat.id by done. nia. }
  { unfold hop_fuel. lia. }
  exists l. split; [done |]. split; [| done]. intros s e. rewrite Hl. split.
  - intros (-> & Hd & H3 & H4). split_and!; [done | done | nia | lia].
  - intros (-> & Hd & H3 & H4). split_and!; [done | done | | lia]. destruct Hd as [q ->]. assert (q <= ts / slide) by (apply Z.div_le_lower_bound; lia). nia.
Qed.

(** The windows of an event at [ts] are exactly the intervals of the given size that start at a
    multiple of the slide and contain [ts], in ascending order. *)
Theorem windows_exact w ts :
  window_positive (w_func w) -> ts_ok (w_func w) ts ->
  exists l, windows w ts = Ok l
    /\ (forall s e, (s, e) ∈ l <-> e = s + size_of (w_func w) /\ (slide_of (w_func w) | s) /\ s <= ts < e)
    /\ StronglySorted (fun p q => p.1 < q.1) l.
Proof.
  intros [Hsz Hsl] [Hlo Hhi]. unfold windows. destruct (w_func w) as [size | size slide]; cbn [size_of slide_of] in *.
  - rewrite div_euclid_pos by lia. cbn [mbind outcome_bind]. rewrite floor_small by lia.
    pose proof (Z.div_mod ts size ltac:(lia)). pose proof (Z.mod_pos_bound ts size ltac:(lia)).
    rewrite wrap_i64_small by (unfold is_i64; nia). eexists. split; [done |]. split; [| by repeat constructor].
    intros s e. rewrite list_elem_of_singleton. split.
    + intros [= -> ->]. split_and!; [lia | apply Z.divide_factor_r | nia..].
    + intros (-> & [q ->] & H3 & H4). assert (q = ts / size) as -> by nia. f_equal; lia.
  - rewrite div_euclid_pos by lia. cbn [mbind outcome_bind]. destruct (hop_windows_all size slide ts) as (l & -> & Hl & Ho); [lia.. |].
    eexists. split; [done |]. split; [| by apply StronglySorted_rev in Ho].
    intros s e. by rewrite list_elem_of_In, <- in_rev, <- list_elem_of_In, Hl.
Qed.

Lemma windows_exact_witness :
  exists l, windows (mkWindow (Hop 10 5) (bstr "ts")) 12 = Ok l /\ (5, 15) ∈ l /\ (10, 20) ∈ l.
Proof.
  destruct (windows_exact (mkWindow (Hop 10 5) (bstr "ts")) 12) as (l & E & Hl & _).
  - by unfold window_positive; cbn; lia.
  - unfold ts_ok; cbn; lia.
  - exists l. cbn in Hl. split; [done |]. split; apply Hl; (split_and!; [lia | by apply Z.mod_divide | lia | lia]).
Defined.

(** A window of size zero, which the parser accepts, panics on the first event. *)
Theorem zero_window_panics ts_col ts :
  windows (mkWindow (Tumble 0) ts_col) ts = Panic
  /\ parse (bstr "SELECT window_start FROM TUMBLE(m, ts, 0)") <> Ok None.
Proof. split; [done | by vm_compute]. Qed.
