(* ===== verification/SqlPrint.v ===== *)
(** * Every query of the grammar is parsed to itself

    [print_select] writes a query in the language the parser documents; parsing what it wrote gives
    the query back, clause by clause.  [reads m b x b'] says that a parser that sees the text [b],
    whitespace aside, gives [x] and then sees [b']. *)

From S2P Require Import Prelude Text FieldValue QueryIndex Sql.

(** ** Printing *)

Definition quote (s : bytes) : bytes := b8 39 :: s ++ [b8 39].

Definition print_literal (v : FieldValue) : bytes :=
  match v with I64 z => int_to_string z | VStr s => quote s | _ => [] end.

Definition print_op (o : Op) : bytes :=
  match o with
  | OEq => bstr "=" | OLt => bstr "<" | OLe => bstr "<=" | OGt => bstr ">" | OGe => bstr ">=" | ONotEq => []
  end.

Definition print_cond (p : Predicate) : bytes :=
  match p with
  | Compare field o value => field ++ bstr " " ++ print_op o ++ bstr " " ++ print_literal value
  | _ => []
  end.

Definition print_col (c : ColExpr) : bytes :=
  match c with
  | Col n => n
  | Count n => bstr "COUNT(" ++ n ++ bstr ")"
  | Sum n => bstr "SUM(" ++ n ++ bstr ")"
  | Avg n => bstr "AVG(" ++ n ++ bstr ")"
  | Min n => bstr "MIN(" ++ n ++ bstr ")"
  | Max n => bstr "MAX(" ++ n ++ bstr ")"
  end.

(** The items after the first, each after a separator. *)
Definition print_more {A} (sep : bytes) (pr : A -> bytes) (l : list A) : bytes := concat (map (fun x => sep ++ pr x) l).

Definition print_list {A} (sep : bytes) (pr : A -> bytes) (l : list A) : bytes :=
  match l with [] => [] | x :: r => pr x ++ print_more sep pr r end.

Definition print_source (map : bytes) (w : option WindowSpec) : bytes :=
  match w with
  | None => map
  | Some (mkWindow (Tumble size) ts) =>
    bstr "TUMBLE(" ++ map ++ bstr ", " ++ ts ++ bstr ", " ++ nat_to_string size ++ bstr ")"
  | Some (mkWindow (Hop size slide) ts) =>
    bstr "HOP(" ++ map ++ bstr ", " ++ ts ++ bstr ", " ++ nat_to_string size ++ bstr ", " ++ nat_to_string slide ++ bstr ")"
  end.

Definition print_join (j : option Join) : bytes :=
  match j with
  | Some (mkJoin m l r) => bstr " JOIN " ++ m ++ bstr " ON " ++ l ++ bstr " = " ++ r
  | None => []
  end.

Definition conds_of (p : Predicate) : list Predicate := match p with PAnd l => l | p => [p] end.

Definition print_where (f : option Predicate) : bytes :=
  match f with Some p => bstr " WHERE " ++ print_list (bstr " AND ") print_cond (conds_of p) | None => [] end.

Definition print_group (g : option (list bytes)) : bytes :=
  match g with Some l => bstr " GROUP BY " ++ print_list (bstr ", ") id l | None => [] end.

Definition print_order (o : option (bytes * bool)) : bytes :=
  match o with Some (c, d) => bstr " ORDER BY " ++ c ++ (if d then bstr " DESC" else bstr " ASC") | None => [] end.

Definition print_limit (l : option Z) : bytes :=
  match l with Some n => bstr " LIMIT " ++ nat_to_string n | None => [] end.

Definition print_select (s : Select) : bytes :=
  bstr "SELECT " ++ (if s_distinct s then bstr "DISTINCT " else [])
  ++ (if s_star s then bstr "*" else print_list (bstr ", ") print_col (s_cols s))
  ++ bstr " FROM " ++ print_source (s_map s) (s_window s) ++ print_join (s_join s) ++ print_where (s_filter s)
  ++ print_group (s_group_by s) ++ print_order (s_order_by s) ++ print_limit (s_limit s).

(** ** Queries of the grammar *)

Definition reserved : list bytes :=
  [bstr "count"; bstr "sum"; bstr "avg"; bstr "min"; bstr "max"; bstr "distinct"; bstr "from"; bstr "tumble"; bstr "hop"; bstr "join"; bstr "on"; bstr "where"; bstr "and"; bstr "group"; bstr "by"; bstr "order"; bstr "desc"; bstr "asc"; bstr "limit"].

Definition is_col_char (b : byte) : bool := is_ident b || (u8 b =? 46).
Definition lead (b : bytes) : bytes := (span is_ident b).1.

(** Identifiers, and column references with a qualifier, that are not keywords. *)
Definition ident_ok (n : bytes) : Prop := n <> [] /\ forallb is_ident n = true /\ lower n ∉ reserved.
Definition col_ok (n : bytes) : Prop := n <> [] /\ forallb is_col_char n = true /\ lower (lead n) ∉ reserved.

Definition literal_ok (v : FieldValue) : Prop :=
  match v with
  | I64 z => is_i64 z
  | VStr s => utf8_valid s = true /\ forallb (fun x => negb (u8 x =? 39)) s = true
  | _ => False
  end.

Definition cond_ok (p : Predicate) : Prop :=
  match p with Compare field o value => ident_ok field /\ o <> ONotEq /\ literal_ok value | _ => False end.

Definition col_expr_ok (c : ColExpr) : Prop :=
  match c with
  | Count n => n = bstr "*" \/ col_ok n
  | Col n | Sum n | Avg n | Min n | Max n => col_ok n
  end.

Definition filter_ok (p : Predicate) : Prop :=
  match p with PAnd (c :: d :: l) => Forall cond_ok (c :: d :: l) | PAnd _ => False | p => cond_ok p end.

Definition window_ok (w : WindowSpec) : Prop :=
  ident_ok (w_ts_col w)
  /\ match w_func w with Tumble size => 0 <= size < 2 ^ 63 | Hop size slide => 0 <= size < 2 ^ 63 /\ 0 <= slide < 2 ^ 63 end.

(** The columns of a join are not qualified: the parser strips qualifiers. *)
Definition join_ok (j : Join) : Prop := ident_ok (j_right j) /\ ident_ok (j_left_col j) /\ ident_ok (j_right_col j).

Definition opt_ok {A} (P : A -> Prop) (o : option A) : Prop := match o with Some x => P x | None => True end.

Record select_ok (s : Select) : Prop := {
  ok_cols : if s_star s then s_cols s = [] else s_cols s <> [] /\ Forall col_expr_ok (s_cols s);
  ok_map : ident_ok (s_map s);
  ok_window : opt_ok window_ok (s_window s);
  ok_join : opt_ok join_ok (s_join s);
  ok_filter : opt_ok filter_ok (s_filter s);
  ok_group : opt_ok (fun l => l <> [] /\ Forall ident_ok l) (s_group_by s);
  ok_order : opt_ok (fun cd : bytes * bool => ident_ok cd.1) (s_order_by s);
  ok_limit : opt_ok is_u64 (s_limit s)
}.

(** ** Reading *)

Definition sees (t : Tok) (b : bytes) : Prop := past t = false /\ skip_ws_b (rest t) = b.

Definition reads {A} (m : parser A) (b : bytes) (x : A) (b' : bytes) : Prop :=
  forall t, sees t b -> exists t', m t = Ok (Some (x, t')) /\ sees t' b'.

Lemma reads_bind {A B} (m : parser A) (f : A -> parser B) b x b' y b'' :
  reads m b x b' -> reads (f x) b' y b'' -> reads (m ≫= f) b y b''.
Proof.
  intros Hm Hf t Ht. destruct (Hm t Ht) as (t' & E & Ht'). destruct (Hf t' Ht') as (t'' & E' & Ht'').
  exists t''. unfold mbind, parser_bind. by rewrite E, E'.
Qed.

Lemma reads_ret {A} (x : A) b : reads (pret x) b x b.
Proof. intros t Ht. by exists t. Qed.

Lemma reads_need m b b' : reads m b true b' -> reads (need m) b tt b'.
Proof. intros H. eapply reads_bind; [exact H | apply reads_ret]. Qed.

(** Text without whitespace in front. *)
Abbreviation strip := skip_ws_b.

Lemma strip_idem b : strip (strip b) = strip b.
Proof.
  unfold skip_ws_b. induction b as [| x b IH]; [done |]. cbn. destruct (is_ascii_whitespace x) eqn:E.
  - destruct (span is_ascii_whitespace b) as [a c]. cbn in *. exact IH.
  - cbn. by rewrite E.
Qed.

Lemma strip_space b : strip (b8 32 :: b) = strip b.
Proof. unfold skip_ws_b. cbn. by destruct (span is_ascii_whitespace b). Qed.

Lemma strip_cons x b : is_ascii_whitespace x = false -> strip (x :: b) = x :: b.
Proof. intros E. unfold skip_ws_b. cbn. by rewrite E. Qed.

Lemma sees_skip t b : sees t b -> skip_ws t = at_pos b /\ strip b = b.
Proof. intros [Hp <-]. unfold skip_ws, at_pos. rewrite Hp. split; [done | apply strip_idem]. Qed.

Lemma sees_at b : sees (at_pos b) (strip b).
Proof. done. Qed.

(** [r] is empty or does not continue the run. *)
Definition stops (p : byte -> bool) (r : bytes) : Prop := match r with [] => True | x :: _ => p x = false end.

Lemma span_run p w r : forallb p w = true -> stops p r -> span p (w ++ r) = (w, r).
Proof.
  induction w as [| x w IH]; cbn.
  - intros _ Hs. destruct r as [| y r]; [done |]. cbn in *. by rewrite Hs.
  - intros [Hx Hw]%andb_true_iff Hs. by rewrite Hx, IH.
Qed.

Lemma span_app p b : (span p b).1 ++ (span p b).2 = b.
Proof. induction b as [| x b IH]; [done |]. cbn. case_match; [| done]. destruct (span p b). cbn in *. by rewrite IH. Qed.

Lemma span_stops p b : stops p (span p b).2.
Proof. induction b as [| x b IH]; [done |]. cbn. destruct (p x) eqn:E; [| by cbn]. by destruct (span p b). Qed.

Lemma span_all p b : forallb p (span p b).1 = true.
Proof. induction b as [| x b IH]; [done |]. cbn. destruct (p x) eqn:E; [| done]. destruct (span p b). cbn in *. by rewrite E. Qed.

(** *** Characters *)

Lemma is_ident_lower x : is_ident (to_ascii_lowercase x) = is_ident x.
Proof. by destruct x. Qed.

Lemma col_char_facts x : is_col_char x = true -> is_ascii_whitespace x = false /\ (u8 x <? 128) = true.
Proof. by destruct x. Qed.

Lemma ident_col_char x : is_ident x = true -> is_col_char x = true.
Proof. unfold is_col_char. by intros ->. Qed.

Lemma ident_run_col w : forallb is_ident w = true -> forallb is_col_char w = true.
Proof. rewrite !forallb_forall. intros H x Hx. by apply ident_col_char, H. Qed.

Lemma col_run_utf8 w : forallb is_col_char w = true -> utf8_valid w = true.
Proof.
  induction w as [| x w IH]; [done |]. cbn. intros [Hx Hw]%andb_true_iff.
  destruct (col_char_facts x Hx) as [_ ->]. by apply IH.
Qed.

Lemma lower_length s : length (lower s) = length s.
Proof. apply length_map. Qed.

Lemma lower_ident s : forallb is_ident (lower s) = forallb is_ident s.
Proof. induction s as [| x s IH]; [done |]. unfold lower in *. cbn. by rewrite is_ident_lower, IH. Qed.

(** A keyword is there when it is the leading word, case aside. *)
Lemma keyword_b_lead kw b :
  forallb is_ident kw = true -> lower kw = kw ->
  keyword_b kw b = if bool_decide (lower (lead b) = kw) then Some (span is_ident b).2 else None.
Proof.
  intros Hk Hl. unfold lead. pose proof (span_app is_ident b) as Hb. pose proof (span_stops is_ident b) as Hs.
  destruct (span is_ident b) as [w r] eqn:E. cbn [fst snd] in *. unfold keyword_b.
  case_bool_decide as Hw.
  - assert (length kw = length w) as Hn by (by rewrite <- Hw, lower_length).
    rewrite <- Hb, Hn, length_app, take_app_length, drop_app_length, (proj2 (Nat.leb_le _ _)) by lia.
    unfold eq_ignore_ascii_case. rewrite bool_decide_true by congruence. destruct r as [| x r]; [done |]. cbn in *. by rewrite Hs.
  - match goal with |- (if ?c then _ else _) = _ => destruct c eqn:Ec end; [| done]. exfalso. apply Hw.
    apply andb_true_iff in Ec as [[Hn He]%andb_true_iff Ht]. unfold eq_ignore_ascii_case in He. apply bool_decide_eq_true in He.
    rewrite Hl in He. pose proof (span_run is_ident (take (length kw) b) (drop (length kw) b)) as Hr.
    rewrite take_drop, E in Hr. rewrite <- He. f_equal. symmetry.
    assert (forallb is_ident (take (length kw) b) = true) as Ha by (by rewrite <- lower_ident, He).
    assert (stops is_ident (drop (length kw) b)) as Hd by (destruct (drop (length kw) b); [done | by apply negb_true_iff in Ht]).
    specialize (Hr Ha Hd). by injection Hr.
Qed.

Section Keyword.
Context (kw : string) (Hkw : forallb is_ident (bstr kw) = true) (Hlow : lower (bstr kw) = bstr kw).

Lemma reads_keyword w r :
  lower w = bstr kw -> w <> [] -> stops is_ident r -> reads (is_keyword kw) (w ++ r) true (strip r).
Proof.
  intros Hw Hn Hr t Ht. apply sees_skip in Ht as [E _]. unfold is_keyword, keyword. rewrite E. cbn [past at_pos rest].
  rewrite keyword_b_lead by done. unfold lead. rewrite span_run; [| by rewrite <- lower_ident, Hw | done]. cbn [fst snd].
  rewrite bool_decide_true by done. eexists. split; [done | apply sees_at].
Qed.

Lemma reads_no_keyword b : lower (lead b) <> bstr kw -> strip b = b -> reads (is_keyword kw) b false b.
Proof.
  intros Hw Hs t Ht. apply sees_skip in Ht as [E _]. unfold is_keyword, keyword. rewrite E. cbn [past at_pos rest].
  rewrite keyword_b_lead, bool_decide_false by done. eexists. split; [done |]. by split.
Qed.
End Keyword.

Lemma reads_symbol c r : is_ascii_whitespace c = false -> reads (symbol [c]) (c :: r) true (strip r).
Proof.
  intros Hc t Ht. apply sees_skip in Ht as [E _]. unfold symbol. rewrite E. cbn [past at_pos rest].
  unfold symbol_b. cbn [length Nat.leb take drop andb]. rewrite bool_decide_true by done.
  eexists. split; [done | apply sees_at].
Qed.

Lemma reads_no_symbol c b : match b with x :: _ => x <> c | [] => True end -> strip b = b -> reads (symbol [c]) b false b.
Proof.
  intros Hb Hs t Ht. apply sees_skip in Ht as [E _]. unfold symbol. rewrite E. cbn [past at_pos rest].
  assert (symbol_b [c] b = None) as ->.
  { unfold symbol_b. destruct b as [| x b]; [done |]. cbn [length Nat.leb take andb].
    rewrite bool_decide_false; [done |]. cbn. congruence. }
  eexists. split; [done |]. by split.
Qed.

Lemma reads_word p w r :
  (forall x, p x = true -> is_col_char x = true) -> w <> [] -> forallb p w = true -> stops p r ->
  reads (word p) (w ++ r) w (strip r).
Proof.
  intros Hp Hn Hw Hr t Ht. apply sees_skip in Ht as [E _]. unfold word. rewrite E. cbn [rest at_pos].
  rewrite span_run by done. destruct w as [| x w]; [done |]. rewrite from_utf8_lossy_valid.
  - eexists. split; [done | apply sees_at].
  - apply col_run_utf8. rewrite forallb_forall in *. auto.
Qed.

Lemma reads_ident n r : ident_ok n -> stops is_ident r -> reads ident (n ++ r) n (strip r).
Proof. intros (H1 & H2 & _) Hr. apply reads_word; [apply ident_col_char | done..]. Qed.

Lemma reads_col_ref n r : n <> [] -> forallb is_col_char n = true -> stops is_col_char r -> reads col_ref (n ++ r) n (strip r).
Proof. intros. by apply (reads_word is_col_char). Qed.

(** *** Numbers, literals and operators *)

Lemma reads_number n r : 0 <= n < 2 ^ 63 -> stops is_ascii_digit r -> reads number (nat_to_string n ++ r) n (strip r).
Proof.
  intros Hn Hr t Ht. apply sees_skip in Ht as [E _]. unfold number. rewrite E. cbn [rest past at_pos].
  destruct (nat_to_string_ok n ltac:(lia)) as [_ Hd]. rewrite span_run by done.
  pose proof (parse_i64_to_string n) as Hp. unfold int_to_string in Hp. rewrite (proj2 (Z.ltb_ge n 0)) in Hp by lia.
  rewrite Hp by (unfold is_i64; lia). eexists. split; [done | apply sees_at].
Qed.

Lemma reads_limit_number n r : is_u64 n -> stops is_ascii_digit r -> reads limit_number (nat_to_string n ++ r) n (strip r).
Proof.
  intros Hn Hr t Ht. apply sees_skip in Ht as [E _]. unfold limit_number. rewrite E. cbn [rest past at_pos].
  destruct (nat_to_string_ok n) as [_ Hd]; [unfold is_u64 in Hn; lia |]. rewrite span_run by done.
  rewrite parse_u64_to_string by done. eexists. split; [done | apply sees_at].
Qed.

Definition is_num_char (b : byte) : bool := is_ascii_digit b || (u8 b =? 45).

Lemma int_to_string_run z : forallb is_num_char (int_to_string z) = true.
Proof.
  unfold int_to_string. assert (forall n, 0 <= n -> forallb is_num_char (nat_to_string n) = true) as H.
  { intros n Hn. destruct (nat_to_string_ok n Hn) as [_ Hd]. rewrite forallb_forall in *. intros x Hx.
    unfold is_num_char. by rewrite Hd. }
  destruct (Z.ltb_spec z 0); [| by apply H]. cbn [forallb]. by rewrite H by lia.
Qed.

Lemma int_to_string_cons z : exists x w, int_to_string z = x :: w /\ u8 x <> 39.
Proof.
  unfold int_to_string. destruct (Z.ltb_spec z 0); [by exists (b8 45), (nat_to_string (- z)) |].
  destruct (nat_to_string_cons z) as (x & w & E). exists x, w. split; [done |].
  pose proof (digit_no_sign z x w ltac:(lia) E). lia.
Qed.

Lemma reads_literal v r : literal_ok v -> stops is_num_char r -> reads literal (print_literal v ++ r) v (strip r).
Proof.
  intros Hv Hr t Ht. apply sees_skip in Ht as [E _]. unfold literal. rewrite E. cbn [rest past at_pos].
  destruct v as [| | | z | | s]; try done; cbn [print_literal literal_ok] in *.
  - pose proof (span_run is_num_char (int_to_string z) r (int_to_string_run z) Hr) as Hs.
    destruct (int_to_string_cons z) as (x & w & Ex & Hx). rewrite Ex in *. cbn [app] in *.
    destruct (Z.eqb_spec (u8 x) 39); [done |]. change (fun b => is_ascii_digit b || (u8 b =? 45)) with is_num_char.
    rewrite Hs, <- Ex, parse_i64_to_string by done. eexists. split; [done | apply sees_at].
  - destruct Hv as [Hu Hq]. cbn [quote app]. change (u8 (b8 39) =? 39) with true. cbv iota. unfold quoted.
    rewrite <- app_assoc, span_run; [| done | done]. cbn [app]. rewrite from_utf8_lossy_valid by done.
    eexists. split; [done | apply sees_at].
Qed.

Lemma reads_op o r : o <> ONotEq -> reads (orfail op) (print_op o ++ b8 32 :: r) o (strip r).
Proof.
  intros Ho t Ht. apply sees_skip in Ht as [E _]. unfold orfail, op, mbind, parser_bind. rewrite E.
  exists (at_pos (b8 32 :: r)). split; [by destruct o | split; [done | apply strip_space]].
Qed.

(** *** Lists *)

Lemma reads_commas {A} (item : parser A) (pr : A -> bytes) (ok : A -> Prop) r :
  (forall x r, ok x -> match r with [] => True | y :: _ => y = b8 44 \/ y = b8 32 end ->
     reads item (strip (pr x ++ r)) x (strip r)) ->
  match r with [] => True | y :: _ => y = b8 32 end -> match strip r with y :: _ => y <> b8 44 | [] => True end ->
  forall l fuel, Forall ok l -> (length l < fuel)%nat ->
  reads (commas fuel item) (strip (print_more (bstr ", ") pr l ++ r)) l (strip r).
Proof.
  intros Hi Hr Hc. induction l as [| x l IH]; intros fuel Hl Hf; (destruct fuel as [| fuel]; [simpl in Hf; lia |]); cbn [commas].
  - eapply reads_bind; [apply (reads_no_symbol (b8 44)); [done | apply strip_idem] | apply reads_ret].
  - apply Forall_cons in Hl as [Hx Hl]. cbn [print_more map concat]. rewrite <- !app_assoc.
    change (strip (bstr ", " ++ ?y)) with (b8 44 :: b8 32 :: y).
    eapply reads_bind; [apply (reads_symbol (b8 44)); done |]. cbv iota. rewrite strip_space.
    eapply reads_bind; [apply Hi; [done |] |].
    { fold (print_more (bstr ", ") pr l). destruct l as [| y l]; [cbn; by destruct r; [| right] | by left]. }
    eapply reads_bind; [apply IH; [done | simpl in Hf; lia] | apply reads_ret].
Qed.

Lemma strip_length b : (length (strip b) <= length b)%nat.
Proof. rewrite <- (span_app is_ascii_whitespace b) at 2. rewrite length_app. unfold skip_ws_b. lia. Qed.

Lemma sees_length t b : sees t b -> (length b < fuel_of t)%nat.
Proof. intros [_ <-]. unfold fuel_of. pose proof (strip_length (rest t)). lia. Qed.

Lemma print_more_cons {A} sep (pr : A -> bytes) x l : print_more sep pr (x :: l) = sep ++ pr x ++ print_more sep pr l.
Proof. unfold print_more. cbn [map concat]. by rewrite <- app_assoc. Qed.

Lemma print_more_length {A} sep (pr : A -> bytes) l : sep <> [] -> (length l <= length (print_more sep pr l))%nat.
Proof.
  intros Hs. induction l as [| x l IH]; [done |]. rewrite print_more_cons, !length_app. destruct sep; [done |]. cbn [length]. lia.
Qed.

Lemma more_length {A} c sep (pr : A -> bytes) l r :
  is_ascii_whitespace c = false -> (length l <= length (strip (print_more (c :: sep) pr l ++ r)))%nat.
Proof.
  intros Hs. destruct l as [| x l]; [cbn; lia |]. pose proof (print_more_length (c :: sep) pr l ltac:(done)).
  rewrite print_more_cons. cbn [app]. rewrite strip_cons by done. cbn [length]. rewrite !length_app. lia.
Qed.

Lemma reads_separated {A} (item : parser A) (pr : A -> bytes) (ok : A -> Prop) r l :
  (forall x r, ok x -> match r with [] => True | y :: _ => y = b8 44 \/ y = b8 32 end ->
     reads item (strip (pr x ++ r)) x (strip r)) ->
  match r with [] => True | y :: _ => y = b8 32 end -> match strip r with y :: _ => y <> b8 44 | [] => True end ->
  l <> [] -> Forall ok l ->
  reads (separated item) (strip (print_list (bstr ", ") pr l ++ r)) l (strip r).
Proof.
  intros Hi Hr Hc Hn Hl. destruct l as [| x l]; [done |]. apply Forall_cons in Hl as [Hx Hl].
  cbn [print_list]. rewrite <- app_assoc. unfold separated. eapply reads_bind; [apply Hi; [done |] |].
  { destruct l as [| y l]; [cbn; by destruct r; [| right] | by left]. }
  eapply reads_bind; [| apply reads_ret]. intros t Ht. apply (reads_commas item pr ok r); [done.. | | done].
  pose proof (sees_length t _ Ht). pose proof (more_length (b8 44) [b8 32] pr l r eq_refl) as Hm.
  change (bstr ", ") with [b8 44; b8 32] in *. lia.
Qed.

(** *** The clauses, last to first *)

(** A tail of clauses: empty, or a space and one of the keywords. *)
Definition tail_of (kws : list bytes) (r : bytes) : Prop :=
  r = [] \/ exists w r', r = b8 32 :: w ++ b8 32 :: r' /\ w <> [] /\ forallb is_ident w = true /\ lower w ∈ kws.

Lemma tail_space kws r : tail_of kws r -> match r with [] => True | y :: _ => y = b8 32 end.
Proof. by intros [-> | (w & r' & -> & _)]. Qed.

Lemma ident_not_ws x : is_ident x = true -> is_ascii_whitespace x = false.
Proof. intros H. apply (col_char_facts x), ident_col_char, H. Qed.

Lemma strip_tail w r' : w <> [] -> forallb is_ident w = true -> strip (b8 32 :: w ++ r') = w ++ r'.
Proof.
  intros Hn Hw. rewrite strip_space. destruct w as [| x w]; [done |]. cbn in Hw. apply andb_true_iff in Hw as [Hx _].
  cbn [app]. apply strip_cons, ident_not_ws, Hx.
Qed.

Lemma tail_lead kws r : tail_of kws r -> strip r = [] \/ lower (lead (strip r)) ∈ kws.
Proof.
  intros [-> | (w & r' & -> & Hn & Hw & Hk)]; [by left | right].
  rewrite strip_tail by done. unfold lead. by rewrite span_run.
Qed.

(** None of the clauses that may follow is this one. *)
Lemma tail_no_keyword kw kws r :
  forallb is_ident (bstr kw) = true -> lower (bstr kw) = bstr kw -> bstr kw <> [] -> bstr kw ∉ kws -> tail_of kws r ->
  reads (is_keyword kw) (strip r) false (strip r).
Proof.
  intros H1 H2 H3 H4 Hr. apply reads_no_keyword; [done | done | | apply strip_idem].
  apply tail_lead in Hr as [-> | Hr]; [cbn; by apply not_eq_sym | congruence].
Qed.

Lemma tail_stops p kws r : tail_of kws r -> p (b8 32) = false -> stops p r.
Proof. intros [-> | (w & r' & -> & _)] Hp; done. Qed.

Lemma tail_no_comma kws r : tail_of kws r -> match strip r with y :: _ => y <> b8 44 | [] => True end.
Proof.
  intros [-> | (w & r' & -> & Hn & Hw & _)]; [done |]. rewrite strip_tail by done. destruct w as [| x w]; [done |].
  cbn in *. apply andb_true_iff in Hw as [Hx _]. by intros ->.
Qed.

Lemma tail_mono kws kws' r : kws ⊆ kws' -> tail_of kws r -> tail_of kws' r.
Proof. intros Hs [-> | (w & r' & -> & ? & ? & ?)]; [by left | right]. exists w, r'. auto. Qed.

Definition kws_limit : list bytes := [bstr "limit"].
Definition kws_order : list bytes := bstr "order" :: kws_limit.
Definition kws_group : list bytes := bstr "group" :: kws_order.
Definition kws_where : list bytes := bstr "where" :: kws_group.
Definition kws_join : list bytes := bstr "join" :: kws_where.

Lemma tail_limit l : tail_of kws_limit (print_limit l).
Proof. destruct l as [n |]; [| by left]. right. exists (bstr "LIMIT"), (nat_to_string n). repeat split; [done | by apply list_elem_of_singleton]. Qed.

Lemma tail_order o r : tail_of kws_limit r -> tail_of kws_order (print_order o ++ r).
Proof.
  intros Hr. destruct o as [[c d] |]; [| apply (tail_mono kws_limit); [by apply list_subseteq_cons |]; done].
  right. eexists (bstr "ORDER"), _. repeat split; [done | by apply list_elem_of_here].
Qed.

Lemma tail_group g r : tail_of kws_order r -> tail_of kws_group (print_group g ++ r).
Proof.
  intros Hr. destruct g as [l |]; [| apply (tail_mono kws_order); [by apply list_subseteq_cons |]; done].
  right. eexists (bstr "GROUP"), _. repeat split; [done | by apply list_elem_of_here].
Qed.

Lemma tail_where f r : tail_of kws_group r -> tail_of kws_where (print_where f ++ r).
Proof.
  intros Hr. destruct f as [p |]; [| apply (tail_mono kws_group); [by apply list_subseteq_cons |]; done].
  right. eexists (bstr "WHERE"), _. repeat split; [done | by apply list_elem_of_here].
Qed.

Lemma tail_join j r : tail_of kws_where r -> tail_of kws_join (print_join j ++ r).
Proof.
  intros Hr. destruct j as [[] |]; [| apply (tail_mono kws_where); [by apply list_subseteq_cons |]; done].
  right. eexists (bstr "JOIN"), _. repeat split; [done | by apply list_elem_of_here].
Qed.

Lemma strip_run p w r :
  (forall x, p x = true -> is_ascii_whitespace x = false) -> w <> [] -> forallb p w = true -> strip (w ++ r) = w ++ r.
Proof.
  intros Hp Hn Hw. destruct w as [| x w]; [done |]. cbn in Hw. apply andb_true_iff in Hw as [Hx _]. by apply strip_cons, Hp.
Qed.

Lemma strip_ident n r : ident_ok n -> strip (n ++ r) = n ++ r.
Proof. intros (? & ? & _). by apply (strip_run is_ident); [apply ident_not_ws | ..]. Qed.

Lemma strip_col n r : n <> [] -> forallb is_col_char n = true -> strip (n ++ r) = n ++ r.
Proof. intros. apply (strip_run is_col_char); [| done..]. intros x Hx. by apply col_char_facts. Qed.

Lemma num_not_ws x : is_num_char x = true -> is_ascii_whitespace x = false.
Proof. by destruct x. Qed.

Lemma strip_nat n r : 0 <= n -> strip (nat_to_string n ++ r) = nat_to_string n ++ r.
Proof.
  intros Hn. destruct (nat_to_string_ok n Hn) as [_ Hd]. apply (strip_run is_ascii_digit); [| | done].
  - intros x Hx. apply num_not_ws. unfold is_num_char. by rewrite Hx.
  - destruct (nat_to_string_cons n) as (x & w & ->). done.
Qed.

(** A closed decidable statement about concrete words. *)
Ltac words := apply (bool_decide_unpack _); vm_compute; exact I.

(** [skw kw text rest]: the keyword is there, written [text]. *)
Ltac skw kw text r :=
  match goal with
  | |- reads _ ?b _ _ => change b with (bstr text ++ r)
  end;
  eapply reads_bind; [eapply (reads_keyword kw eq_refl eq_refl (bstr text)); [reflexivity | done | first [done | eapply tail_stops; [eassumption | reflexivity]]] | cbv iota].

Lemma reads_limit l : opt_ok is_u64 l -> reads parse_limit (strip (print_limit l)) l [].
Proof.
  intros Hl. unfold parse_limit. destruct l as [n |]; cbn [print_limit].
  - skw "limit"%string "LIMIT"%string (b8 32 :: nat_to_string n). rewrite strip_space. cbn in Hl. unfold is_u64 in Hl.
    rewrite <- (app_nil_r (nat_to_string n)), strip_nat by lia.
    eapply reads_bind; [apply reads_limit_number; [done | done] | apply reads_ret].
  - eapply reads_bind; [apply (tail_no_keyword "limit" []); [done.. | words | by left] | apply reads_ret].
Qed.

Lemma reads_need_keyword kw w r b :
  forallb is_ident (bstr kw) = true -> lower (bstr kw) = bstr kw -> lower w = bstr kw -> w <> [] -> stops is_ident r ->
  b = w ++ r -> reads (need (is_keyword kw)) b tt (strip r).
Proof. intros ? ? ? ? ? ->. by apply reads_need, reads_keyword. Qed.

Lemma reads_order o r :
  opt_ok (fun cd : bytes * bool => ident_ok cd.1) o -> tail_of kws_limit r ->
  reads parse_order_by (strip (print_order o ++ r)) o (strip r).
Proof.
  intros Ho Hr. unfold parse_order_by. destruct o as [[c d] |]; cbn [print_order].
  - cbn in Ho. rewrite <- !app_assoc. skw "order"%string "ORDER"%string (bstr " BY " ++ c ++ (if d then bstr " DESC" else bstr " ASC") ++ r).
    eapply reads_bind; [by eapply (reads_need_keyword "by" (bstr "BY") (b8 32 :: c ++ (if d then bstr " DESC" else bstr " ASC") ++ r)) |].
    rewrite strip_space, strip_ident by done. eapply reads_bind; [apply reads_ident; [done | by destruct d] |].
    destruct d.
    + skw "desc"%string "DESC"%string r. apply reads_ret.
    + eapply reads_bind.
      { apply (reads_no_keyword "desc" eq_refl eq_refl); [| done]. unfold lead.
        change (strip (bstr " ASC" ++ r)) with (bstr "ASC" ++ r).
        rewrite (span_run is_ident); [done | done | eapply tail_stops; [eassumption | done]]. }
      cbv iota. skw "asc"%string "ASC"%string r. apply reads_ret.
  - eapply reads_bind; [apply (tail_no_keyword "order" kws_limit); [done.. | words | done] | apply reads_ret].
Qed.

Lemma reads_group g r :
  opt_ok (fun l => l <> [] /\ Forall ident_ok l) g -> tail_of kws_order r ->
  reads parse_group_by (strip (print_group g ++ r)) g (strip r).
Proof.
  intros Hg Hr. unfold parse_group_by. destruct g as [l |]; cbn [print_group].
  - destruct Hg as [Hn Hl]. rewrite <- !app_assoc. skw "group"%string "GROUP"%string (bstr " BY " ++ print_list (bstr ", ") id l ++ r).
    eapply reads_bind; [by eapply (reads_need_keyword "by" (bstr "BY") (b8 32 :: print_list (bstr ", ") id l ++ r)) |].
    rewrite strip_space. eapply reads_bind; [| apply reads_ret].
    apply (reads_separated ident id ident_ok); [| by eapply tail_space | by eapply tail_no_comma | done | done].
    intros x r' Hx Hr'. cbn [id]. rewrite strip_ident by done. apply reads_ident; [done |].
    destruct r' as [| y r']; [done |]. by destruct Hr' as [-> | ->].
  - eapply reads_bind; [apply (tail_no_keyword "group" kws_order); [done.. | words | done] | apply reads_ret].
Qed.

Lemma reads_cond c r : cond_ok c -> stops is_num_char r -> reads parse_cond (strip (print_cond c ++ r)) c (strip r).
Proof.
  destruct c as [f o v | | | | | | | | | | | | | |]; try done. intros (Hf & Ho & Hv) Hr. cbn [print_cond]. rewrite <- !app_assoc.
  rewrite strip_ident by done. unfold parse_cond. eapply reads_bind; [apply reads_ident; [done | done] |].
  assert (forall y, strip (bstr " " ++ print_op o ++ y) = print_op o ++ y) as -> by (intros y; by destruct o).
  change (bstr " " ++ print_literal v ++ r) with (b8 32 :: print_literal v ++ r).
  eapply reads_bind; [by apply reads_op |].
  assert (strip (print_literal v ++ r) = print_literal v ++ r) as ->.
  { destruct v as [| | | z | | s]; try done. cbn [print_literal]. apply (strip_run is_num_char); [apply num_not_ws | | apply int_to_string_run].
    destruct (int_to_string_cons z) as (x & w & -> & _). done. }
  eapply reads_bind; [by apply reads_literal | apply reads_ret].
Qed.

(** More conditions, and then other clauses. *)
Lemma conds_stop l r : tail_of kws_group r -> stops is_num_char (print_more (bstr " AND ") print_cond l ++ r).
Proof. intros Hr. destruct l; [by eapply tail_stops |]. done. Qed.

Lemma reads_and_conds r :
  tail_of kws_group r -> forall l fuel, Forall cond_ok l -> (length l < fuel)%nat ->
  reads (and_conds fuel) (strip (print_more (bstr " AND ") print_cond l ++ r)) l (strip r).
Proof.
  intros Hr. induction l as [| c l IH]; intros fuel Hl Hf; (destruct fuel as [| fuel]; [simpl in Hf; lia |]); cbn [and_conds].
  - eapply reads_bind; [apply (tail_no_keyword "and" kws_group); [done.. | words | done] | apply reads_ret].
  - apply Forall_cons in Hl as [Hc Hl]. rewrite print_more_cons, <- !app_assoc.
    skw "and"%string "AND"%string (b8 32 :: print_cond c ++ print_more (bstr " AND ") print_cond l ++ r). rewrite strip_space.
    eapply reads_bind; [apply reads_cond; [done | by apply conds_stop] |].
    eapply reads_bind; [apply IH; [done | simpl in Hf; lia] | apply reads_ret].
Qed.

Lemma reads_conds p r :
  filter_ok p -> tail_of kws_group r ->
  reads parse_conds (strip (print_list (bstr " AND ") print_cond (conds_of p) ++ r)) p (strip r).
Proof.
  intros Hp Hr. assert (exists c l, conds_of p = c :: l /\ Forall cond_ok (c :: l) /\ p = match l with [] => c | _ => PAnd (c :: l) end)
    as (c & l & -> & Hl & ->).
  { destruct p as [| [| c [| d l]] | | | | | | | | | | | | |]; try done; [| by exists c, (d :: l)].
    eexists _, []. repeat split. by apply Forall_singleton. }
  apply Forall_cons in Hl as [Hc Hl]. cbn [print_list]. rewrite <- app_assoc. unfold parse_conds.
  eapply reads_bind; [apply reads_cond; [done | by apply conds_stop] |].
  eapply reads_bind; [| apply reads_ret]. intros t Ht. apply (reads_and_conds r Hr); [done | | done].
  pose proof (sees_length t _ Ht) as Hs. destruct l as [| d l]; [simpl; lia |].
  rewrite print_more_cons, <- !app_assoc in Hs. change (strip (bstr " AND " ++ ?y)) with (bstr "AND " ++ y) in Hs.
  rewrite !length_app in Hs. pose proof (print_more_length (bstr " AND ") print_cond l ltac:(done)). cbn [length] in *.
  change (length (bstr "AND ")) with 4%nat in Hs. lia.
Qed.

Lemma reads_where f r :
  opt_ok filter_ok f -> tail_of kws_group r -> reads parse_where (strip (print_where f ++ r)) f (strip r).
Proof.
  intros Hf Hr. unfold parse_where. destruct f as [p |]; cbn [print_where].
  - rewrite <- app_assoc. skw "where"%string "WHERE"%string (b8 32 :: print_list (bstr " AND ") print_cond (conds_of p) ++ r).
    rewrite strip_space. eapply reads_bind; [by apply reads_conds | apply reads_ret].
  - eapply reads_bind; [apply (tail_no_keyword "where" kws_group); [done.. | words | done] | apply reads_ret].
Qed.

Lemma ident_bare n : ident_ok n -> bare_col n = n.
Proof.
  intros (Hn & Hi & _). assert (existsb (fun y => u8 y =? 46) n = false) as E.
  { apply not_true_is_false. intros (x & Hx & Hd)%existsb_exists. rewrite forallb_forall in Hi. specialize (Hi x Hx).
    apply Z.eqb_eq in Hd. revert Hi Hd. by destruct x. }
  destruct n as [| x n]; [done |]. cbn [bare_col]. by rewrite E.
Qed.

Lemma ident_unqualified n tbl : ident_ok n -> starts_with n (tbl ++ bstr ".") = false.
Proof.
  intros (_ & Hi & _). unfold starts_with. apply bool_decide_false. intros E. rewrite forallb_forall in Hi.
  assert (b8 46 ∈ n) as Hin.
  { rewrite <- (take_drop (length (tbl ++ bstr ".")) n), E. apply elem_of_app. left. apply elem_of_app. right. by apply list_elem_of_here. }
  apply list_elem_of_In in Hin. by apply Hi in Hin.
Qed.

Lemma reads_join map j r :
  ident_ok map -> opt_ok join_ok j -> tail_of kws_where r ->
  reads (parse_join map) (strip (print_join j ++ r)) j (strip r).
Proof.
  intros Hm Hj Hr. unfold parse_join. destruct j as [[m a b] |]; cbn [print_join].
  - destruct Hj as (H1 & H2 & H3). cbn [j_right j_left_col j_right_col] in *. rewrite <- !app_assoc.
    skw "join"%string "JOIN"%string (b8 32 :: m ++ bstr " ON " ++ a ++ bstr " = " ++ b ++ r). rewrite strip_space, strip_ident by done.
    eapply reads_bind; [apply reads_ident; [done | done] |].
    eapply reads_bind; [by eapply (reads_need_keyword "on" (bstr "ON") (b8 32 :: a ++ bstr " = " ++ b ++ r)) |].
    rewrite strip_space, strip_ident by done. destruct H2 as (H2n & H2i & H2k), H3 as (H3n & H3i & H3k).
    eapply reads_bind; [apply reads_col_ref; [done | by apply ident_run_col | done] |].
    change (strip (bstr " = " ++ b ++ r)) with (print_op OEq ++ b8 32 :: b ++ r).
    eapply reads_bind; [by apply reads_op |]. rewrite strip_col by (done || by apply ident_run_col).
    eapply reads_bind; [apply reads_col_ref; [done | by apply ident_run_col | by eapply tail_stops] |].
    unfold split_join_cols. rewrite !ident_unqualified, !ident_bare by done. apply reads_ret.
  - eapply reads_bind; [apply (tail_no_keyword "join" kws_where); [done.. | words | done] | apply reads_ret].
Qed.

(** *** The source and the columns *)

(** [ssy c rest]: the symbol [c] is there. *)
Ltac ssy c r :=
  match goal with |- reads _ ?b _ _ => change b with (b8 c :: r) end;
  eapply reads_bind; [first [apply reads_need, (reads_symbol (b8 c)); reflexivity | apply (reads_symbol (b8 c)); reflexivity] | cbv iota].

Lemma no_reserved kw b :
  forallb is_ident (bstr kw) = true -> lower (bstr kw) = bstr kw -> bstr kw ∈ reserved ->
  lower (lead b) ∉ reserved -> strip b = b -> reads (is_keyword kw) b false b.
Proof. intros H1 H2 H3 H4 H5. apply reads_no_keyword; [done | done | congruence | done]. Qed.

Lemma lead_ident n r : ident_ok n -> stops is_ident r -> lower (lead (n ++ r)) ∉ reserved.
Proof. intros (_ & Hi & Hr) Hs. unfold lead. by rewrite span_run. Qed.

Lemma reads_window (hop : bool) map ts size slide r :
  ident_ok map -> ident_ok ts -> 0 <= size < 2 ^ 63 -> (hop = true -> 0 <= slide < 2 ^ 63) ->
  reads (window_source hop)
    (bstr "(" ++ map ++ bstr ", " ++ ts ++ bstr ", " ++ nat_to_string size
     ++ (if hop then bstr ", " ++ nat_to_string slide else []) ++ bstr ")" ++ r)
    (map, Some (mkWindow (if hop then Hop size slide else Tumble size) ts)) (strip r).
Proof.
  intros Hm Ht Hs Hl. unfold window_source.
  set (tl := (if hop then bstr ", " ++ nat_to_string slide else []) ++ bstr ")" ++ r).
  ssy 40 (map ++ bstr ", " ++ ts ++ bstr ", " ++ nat_to_string size ++ tl). rewrite strip_ident by done.
  eapply reads_bind; [by apply reads_ident |]. ssy 44 (b8 32 :: ts ++ bstr ", " ++ nat_to_string size ++ tl).
  rewrite strip_space, strip_ident by done.
  eapply reads_bind; [by apply reads_ident |]. ssy 44 (b8 32 :: nat_to_string size ++ tl). rewrite strip_space, strip_nat by lia.
  eapply reads_bind; [apply reads_number; [done | by destruct hop] |].
  eapply (reads_bind _ _ _ _ (b8 41 :: r)); [| ssy 41 r; apply reads_ret].
  subst tl. destruct hop; [| apply reads_ret]. rewrite <- app_assoc.
  ssy 44 (b8 32 :: nat_to_string slide ++ bstr ")" ++ r). specialize (Hl eq_refl). rewrite strip_space, strip_nat by lia.
  eapply reads_bind; [apply reads_number; [lia | done] | apply reads_ret].
Qed.

Lemma reads_source map w r :
  ident_ok map -> opt_ok window_ok w -> tail_of kws_join r ->
  reads parse_from_source (strip (print_source map w ++ r)) (map, w) (strip r).
Proof.
  intros Hm Hw Hr. unfold parse_from_source. destruct w as [[[size | size slide] ts] |]; cbn [print_source].
  - destruct Hw as [Ht Hs]. cbn in Ht, Hs. rewrite <- !app_assoc.
    skw "tumble"%string "TUMBLE"%string (bstr "(" ++ map ++ bstr ", " ++ ts ++ bstr ", " ++ nat_to_string size ++ bstr ")" ++ r).
    by apply (reads_window false map ts size 0 r).
  - destruct Hw as [Ht Hs]. cbn in Ht, Hs. rewrite <- !app_assoc.
    match goal with |- reads _ ?b _ _ => change b with (bstr "HOP" ++ bstr "(" ++ map ++ bstr ", " ++ ts ++ bstr ", " ++ nat_to_string size ++ bstr ", " ++ nat_to_string slide ++ bstr ")" ++ r) end.
    eapply reads_bind.
    { apply (reads_no_keyword "tumble" eq_refl eq_refl); [| done]. unfold lead. by rewrite (span_run is_ident). }
    cbv iota.
    skw "hop"%string "HOP"%string (bstr "(" ++ map ++ bstr ", " ++ ts ++ bstr ", " ++ nat_to_string size ++ bstr ", " ++ nat_to_string slide ++ bstr ")" ++ r).
    replace (bstr ", " ++ nat_to_string slide ++ bstr ")" ++ r) with ((bstr ", " ++ nat_to_string slide) ++ bstr ")" ++ r) by by rewrite <- app_assoc.
    destruct Hs. by apply (reads_window true map ts size slide r).
  - assert (stops is_ident r) as Hs by by eapply tail_stops. rewrite strip_ident by done.
    do 2 (eapply reads_bind; [apply no_reserved; [done | done | words | by apply lead_ident | by apply strip_ident] |]; cbv iota).
    eapply reads_bind; [by apply reads_ident | apply reads_ret].
Qed.

Lemma reads_skip {A} (m : parser A) b x b' : reads m b x b' -> reads (fun t => m (skip_ws t)) b x b'.
Proof. intros H t Ht. apply H. apply sees_skip in Ht as [-> Hb]. by split. Qed.

Lemma reads_call n r : col_ok n -> reads call_arg (bstr "(" ++ n ++ bstr ")" ++ r) n (strip r).
Proof.
  intros (Hn & Hc & _). unfold call_arg. ssy 40 (n ++ bstr ")" ++ r). rewrite strip_col by done.
  eapply reads_bind; [by apply reads_col_ref |]. ssy 41 r. apply reads_ret.
Qed.

Lemma reads_count n r : n = bstr "*" \/ col_ok n -> reads count_arg (bstr "(" ++ n ++ bstr ")" ++ r) n (strip r).
Proof.
  unfold count_arg. intros [-> | (Hn & Hc & _)].
  - ssy 40 (bstr "*)" ++ r). ssy 42 (bstr ")" ++ r). eapply reads_bind; [apply reads_ret |]. ssy 41 r. apply reads_ret.
  - ssy 40 (n ++ bstr ")" ++ r). rewrite strip_col by done. eapply reads_bind.
    { apply (reads_no_symbol (b8 42)); [| by apply strip_col]. destruct n as [| x n]; [done |]. cbn in *.
      apply andb_true_iff in Hc as [Hx _]. by intros ->. }
    cbv iota. eapply reads_bind; [by apply reads_col_ref |]. ssy 41 r. apply reads_ret.
Qed.

Lemma lead_app n r : stops is_ident r -> lead (n ++ r) = lead n.
Proof.
  intros Hr. unfold lead. induction n as [| x n IH]; cbn.
  - destruct r as [| y r]; [done |]. cbn in *. by rewrite Hr.
  - case_match; [| done]. destruct (span is_ident (n ++ r)), (span is_ident n). cbn in *. by rewrite IH.
Qed.

(** [sno kw text rest]: another word is there. *)
Ltac sno kw text r :=
  match goal with |- reads _ ?b _ _ => change b with (bstr text ++ r) end;
  eapply reads_bind; [apply (reads_no_keyword kw eq_refl eq_refl); [unfold lead; by rewrite (span_run is_ident) | reflexivity] | cbv iota].

Lemma reads_col c r :
  col_expr_ok c -> match r with [] => True | y :: _ => y = b8 44 \/ y = b8 32 end ->
  reads parse_col_expr (strip (print_col c ++ r)) c (strip r).
Proof.
  intros Hc Hr. assert (stops is_col_char r) as Hs by (destruct r; [done |]; by destruct Hr as [-> | ->]).
  assert (stops is_ident r) as Hi by (destruct r; [done |]; by destruct Hr as [-> | ->]). clear Hr.
  unfold parse_col_expr. apply reads_skip. destruct c as [n | n | n | n | n | n]; cbn [print_col col_expr_ok] in *; rewrite <- ?app_assoc.
  { destruct Hc as (Hn & Hc & Hk). rewrite strip_col by done.
    do 5 (eapply reads_bind; [apply no_reserved; [done | done | words | by rewrite lead_app | by apply strip_col] |]; cbv iota).
    eapply reads_bind; [by apply reads_col_ref | apply reads_ret]. }
  all: set (arg := bstr "(" ++ n ++ bstr ")" ++ r).
  - skw "count"%string "COUNT"%string arg. eapply reads_bind; [by apply reads_count | apply reads_ret].
  - sno "count"%string "SUM"%string arg. skw "sum"%string "SUM"%string arg. eapply reads_bind; [by apply reads_call | apply reads_ret].
  - sno "count"%string "AVG"%string arg. sno "sum"%string "AVG"%string arg. skw "avg"%string "AVG"%string arg.
    eapply reads_bind; [by apply reads_call | apply reads_ret].
  - sno "count"%string "MIN"%string arg. sno "sum"%string "MIN"%string arg. sno "avg"%string "MIN"%string arg.
    skw "min"%string "MIN"%string arg. eapply reads_bind; [by apply reads_call | apply reads_ret].
  - sno "count"%string "MAX"%string arg. sno "sum"%string "MAX"%string arg. sno "avg"%string "MAX"%string arg. sno "min"%string "MAX"%string arg.
    skw "max"%string "MAX"%string arg. eapply reads_bind; [by apply reads_call | apply reads_ret].
Qed.

Definition print_cols (s : Select) : bytes := if s_star s then bstr "*" else print_list (bstr ", ") print_col (s_cols s).

(** The first column is not mistaken for a star or for DISTINCT. *)
Lemma col_start c r :
  col_expr_ok c -> stops is_ident r ->
  lower (lead (strip (print_col c ++ r))) <> bstr "distinct"
  /\ match strip (print_col c ++ r) with x :: _ => x <> b8 42 | [] => True end.
Proof.
  intros Hc Hr. destruct c as [n | n | n | n | n | n]; cbn [print_col col_expr_ok] in *; rewrite <- ?app_assoc; [| done..].
  destruct Hc as (Hn & Hc & Hk). rewrite strip_col, lead_app by done. split.
  - intros E. apply Hk. rewrite E. words.
  - destruct n as [| x n]; [done |]. cbn in *. apply andb_true_iff in Hc as [Hx _]. by intros ->.
Qed.

Lemma cols_start s r :
  select_ok s -> match r with [] => True | y :: _ => y = b8 32 end ->
  lower (lead (strip (print_cols s ++ r))) <> bstr "distinct"
  /\ (s_star s = false -> match strip (print_cols s ++ r) with x :: _ => x <> b8 42 | [] => True end).
Proof.
  intros Hs Hr. pose proof (ok_cols s Hs) as Hc. unfold print_cols. destruct (s_star s); [done |].
  destruct Hc as [Hn Hc]. destruct (s_cols s) as [| c l]; [done |]. apply Forall_cons in Hc as [Hc _].
  cbn [print_list]. rewrite <- app_assoc. destruct (col_start c (print_more (bstr ", ") print_col l ++ r)) as [H1 H2]; [done | | done].
  destruct l; [by destruct r as [| y r]; [| subst y] | done].
Qed.

Lemma reads_cols s r :
  select_ok s -> match r with [] => True | y :: _ => y = b8 32 end -> match strip r with y :: _ => y <> b8 44 | [] => True end ->
  reads parse_cols (strip (print_cols s ++ r)) (s_star s, s_cols s) (strip r).
Proof.
  intros Hs Hr Hc. destruct (cols_start s r Hs Hr) as [_ Hstart]. pose proof (ok_cols s Hs) as Hok.
  unfold parse_cols, print_cols in *. destruct (s_star s).
  - ssy 42 r. rewrite Hok. apply reads_ret.
  - destruct Hok as [Hn Hl]. eapply reads_bind; [apply (reads_no_symbol (b8 42)); [by apply Hstart | apply strip_idem] |]. cbv iota.
    eapply reads_bind; [| apply reads_ret]. by apply (reads_separated parse_col_expr print_col col_expr_ok); [apply reads_col | ..].
Qed.

Lemma reads_select_body s :
  select_ok s ->
  let tl := print_source (s_map s) (s_window s) ++ print_join (s_join s) ++ print_where (s_filter s)
    ++ print_group (s_group_by s) ++ print_order (s_order_by s) ++ print_limit (s_limit s) in
  reads parse_select_body (strip ((if s_distinct s then bstr "DISTINCT " else []) ++ print_cols s ++ bstr " FROM " ++ tl)) s [].
Proof.
  intros Hs tl. pose proof Hs as [_ Hm Hw Hj Hf Hg Ho Hl].
  pose proof (tail_limit (s_limit s)) as T1. pose proof (tail_order (s_order_by s) _ T1) as T2.
  pose proof (tail_group (s_group_by s) _ T2) as T3. pose proof (tail_where (s_filter s) _ T3) as T4.
  pose proof (tail_join (s_join s) _ T4) as T5. unfold parse_select_body.
  eapply (reads_bind _ _ _ (s_distinct s) (strip (print_cols s ++ bstr " FROM " ++ tl))).
  { destruct (s_distinct s).
    - match goal with |- reads _ ?b _ _ => change b with (bstr "DISTINCT" ++ bstr " " ++ print_cols s ++ bstr " FROM " ++ tl) end.
      change (strip (print_cols s ++ ?x)) with (strip (print_cols s ++ x)).
      rewrite <- (strip_space (print_cols s ++ bstr " FROM " ++ tl)).
      by apply (reads_keyword "distinct" eq_refl eq_refl (bstr "DISTINCT")).
    - apply (reads_no_keyword "distinct" eq_refl eq_refl); [| apply strip_idem]. by apply cols_start. }
  eapply reads_bind; [by apply reads_cols |]. cbv iota beta.
  eapply reads_bind; [by eapply (reads_need_keyword "from" (bstr "FROM") (b8 32 :: tl)) |]. rewrite strip_space.
  eapply reads_bind; [by apply reads_source |]. cbv iota beta.
  eapply reads_bind; [by apply reads_join |]. eapply reads_bind; [by apply reads_where |].
  eapply reads_bind; [by apply reads_group |]. eapply reads_bind; [by apply reads_order |].
  eapply reads_bind; [by apply reads_limit |]. destruct s. apply reads_ret.
Qed.

(** C26. Parsing the text of a query gives that query: its columns and aggregates, its windows, join,
    conditions, grouping, order and limit. *)
Theorem query_parses s : select_ok s -> parse_select (print_select s) = Ok (Some s).
Proof.
  intros Hs. pose proof (reads_select_body s Hs) as Hb. cbv zeta in Hb.
  assert (reads parse_statement (strip (print_select s)) (SSelect s) []) as Hr.
  { unfold parse_statement, print_select. skw "select"%string "SELECT"%string (b8 32 :: (if s_distinct s then bstr "DISTINCT " else []) ++ print_cols s ++ bstr " FROM "
      ++ print_source (s_map s) (s_window s) ++ print_join (s_join s) ++ print_where (s_filter s)
      ++ print_group (s_group_by s) ++ print_order (s_order_by s) ++ print_limit (s_limit s)).
    rewrite strip_space. eapply reads_bind; [exact Hb | apply reads_ret]. }
  destruct (Hr (at_pos (print_select s)) (sees_at _)) as (t' & E & _). unfold parse_select, parse. by rewrite E.
Qed.

Definition sample_query : Select :=
  mkSelect true [Col (bstr "w.region"); Count (bstr "*"); Avg (bstr "amount")] false (bstr "sales")
    (Some (mkWindow (Hop 10 5) (bstr "ts"))) (Some (mkJoin (bstr "shops") (bstr "shop") (bstr "id")))
    (Some (PAnd [Compare (bstr "amount") OGe (I64 (-3)); Compare (bstr "name") OEq (VStr (bstr "a b"))]))
    (Some [bstr "region"; bstr "shop"]) (Some (bstr "region", true)) (Some 10).

Lemma query_parses_witness : parse_select (print_select sample_query) = Ok (Some sample_query).
Proof.
  apply (query_parses sample_query). split; cbn; repeat split; try done; try words; repeat constructor; try done; try words.
Defined.

(** What follows the part of a query that parses is ignored: a condition after OR is dropped, and
    the query answers with the rows of the first condition alone. *)
Theorem or_condition_is_dropped :
  parse_select (bstr "SELECT a FROM m WHERE x = 1 OR y = 2") = parse_select (bstr "SELECT a FROM m WHERE x = 1")
  /\ parse_select (bstr "SELECT a FROM m WHERE x = 1") <> Ok None.
Proof. split; [by vm_compute | by vm_compute]. Qed.
