(* ===== verification/JsonFlat.v ===== *)
(** * JSON values and keys (crates/query/src/json.rs)

    The blobs an INSERT produces and the fields a query reads from them.  The serde_json crate is
    the parameter [SerdeJson]: what a value is, its members in the order of iteration, and its
    parser. *)

From S2P Require Import Prelude Fixed Partition FieldValue Schema Extract.

Definition T_STRING : Z := -11.
Definition T_INTEGER : Z := -7.
Definition T_JSON : Z := -130.

(** [serde_json::Value], as far as it is matched on; a number gives its [as_i64] and [as_f64]. *)
Inductive json_view :=
| JNull
| JBool (b : bool)
| JString (s : bytes)
| JNumber (as_i64 as_f64 : option Z)
| JOther.

Class SerdeJson := {
  Value : Type;
  view : Value -> json_view;
  members : Value -> option (list (bytes * Value));
  from_slice : bytes -> option Value;
  text_of : Value -> bytes;
  object_text : list (bytes * FieldValue) -> bytes
}.

Section Json.
Context `{SerdeJson}.

Definition json_to_fieldvalue (v : Value) : FieldValue :=
  match view v with
  | JNull => Null
  | JBool b => VBool b
  | JString s => VStr s
  | JNumber (Some i) _ => I64 i
  | JNumber None f => F64 (default 0 f)
  | JOther => VStr (text_of v)
  end.

(** [value.get(start..start + len)] with a length that may be negative. *)
Definition json_bytes (value : bytes) : option bytes :=
  if blen value <? 12 then None else
  len ← be_i32 value 8;
  get_range value 12 (wrap_u64 (12 + wrap_u64 len)).

Definition parse_json_object (value : bytes) : option (list (bytes * Value)) :=
  json ← json_bytes value; v ← from_slice json; members v.

Definition lookup_member (field : bytes) (obj : list (bytes * Value)) : option Value :=
  snd <$> List.find (fun kv => bool_decide (kv.1 = field)) obj.

Definition json_extract (value field : bytes) : FieldValue :=
  match parse_json_object value with
  | None => Null
  | Some obj => match lookup_member field obj with None => Null | Some v => json_to_fieldvalue v end
  end.

Definition json_field_names (value : bytes) : option (list bytes) := map fst <$> parse_json_object value.
End Json.

Definition data_blob (type_id : Z) (payload : bytes) : bytes := to_be 4 0 ++ to_be 4 type_id ++ payload.
Definition len_prefixed (s : bytes) : bytes := to_be 4 (wrap_i32 (blen s)) ++ s.
Definition string_data (s : bytes) : bytes := data_blob T_STRING (len_prefixed s).
Definition int_data (i : Z) : bytes := data_blob T_INTEGER (to_be 4 i).
Definition json_value_data (json : bytes) : bytes := data_blob T_JSON (len_prefixed json).

Definition decode_key_data (key : bytes) : FieldValue :=
  if blen key <? 8 then Null else
  match be_i32 key 4 with
  | None => Null
  | Some ty =>
    if ty =? T_STRING then
      let p := drop 8 key in
      if blen p <? 4 then Null else
      match (len ← be_i32 p 0; get_range p 4 (wrap_u64 (4 + wrap_u64 len))) with
      | Some s => VStr (from_utf8_lossy s)
      | None => Null
      end
    else if ty =? T_INTEGER then match be_i32 key 8 with Some i => I32 i | None => Null end
    else Null
  end.

Section Fields.
Context `{SerdeJson}.

Definition jsonflat_fields (key value key_col : bytes) : list (bytes * FieldValue) :=
  (key_col, decode_key_data key)
  :: match parse_json_object value with Some obj => map (fun kv => (kv.1, json_to_fieldvalue kv.2)) obj | None => [] end.

Definition json_record_fields (json : bytes) : list (bytes * FieldValue) :=
  match (v ← from_slice json; members v) with
  | Some obj => map (fun kv => (kv.1, json_to_fieldvalue kv.2)) obj
  | None => []
  end.

Definition json_object (fields : list (bytes * FieldValue)) : bytes := object_text fields.
End Fields.

(** ** Round trips *)

Lemma get_range_at pre x post from to :
  from = blen pre -> to = blen pre + blen x -> get_range (pre ++ x ++ post) from to = Some x.
Proof.
  intros -> ->. unfold get_range. pose proof (blen_nonneg x). pose proof (blen_nonneg post).
  rewrite (proj2 (andb_true_iff _ _)) by (rewrite !blen_app; lia).
  replace (blen pre + blen x - blen pre) with (blen x) by lia. unfold blen. rewrite !Nat2Z.id.
  by rewrite drop_app_length, take_app_length.
Qed.

Lemma be_i32_at pre v post p :
  p = blen pre -> p < 2 ^ 63 -> is_i32 v -> be_i32 (pre ++ to_be 4 v ++ post) p = Some v.
Proof.
  intros -> Hp Hv. unfold be_i32. pose proof (blen_nonneg pre). rewrite wrap_u64_small by (unfold is_u64; lia).
  rewrite (get_range_at pre (to_be 4 v) post); [| done | unfold blen; by rewrite length_to_be].
  cbn. f_equal. apply from_be_i_to_be; [lia | exact Hv].
Qed.

Lemma blob_type ty payload : is_i32 ty -> be_i32 (data_blob ty payload) 4 = Some ty.
Proof. intros. apply (be_i32_at (to_be 4 0) ty payload); [unfold blen; by rewrite length_to_be | lia | done]. Qed.

Lemma blob_length ty payload : blen (data_blob ty payload) = 8 + blen payload.
Proof. unfold data_blob, blen. rewrite !length_app, !length_to_be. lia. Qed.

(** A key that an INSERT built is read back as the value it was built from. *)
Lemma decode_string_data s : utf8_valid s = true -> blen s < 2 ^ 31 -> decode_key_data (string_data s) = VStr s.
Proof.
  intros Hu Hl. pose proof (blen_nonneg s). unfold decode_key_data, string_data.
  assert (blen (len_prefixed s) = 4 + blen s) as Hp by (unfold len_prefixed, blen; rewrite length_app, length_to_be; lia).
  rewrite blob_length, blob_type by done. destruct (Z.ltb_spec (8 + blen (len_prefixed s)) 8); [lia |].
  change (T_STRING =? T_STRING) with true. cbv iota zeta.
  assert (drop 8 (data_blob T_STRING (len_prefixed s)) = len_prefixed s) as ->.
  { unfold data_blob. rewrite app_assoc. apply drop_app_length'. by rewrite length_app, !length_to_be. }
  destruct (Z.ltb_spec (blen (len_prefixed s)) 4); [lia |]. unfold len_prefixed.
  assert (is_i32 (blen s)) by (unfold is_i32; lia). rewrite wrap_i32_small by done.
  rewrite (be_i32_at [] (blen s) s) by done. cbn [mbind option_bind]. rewrite (wrap_u64_small (blen s)) by (unfold is_u64; lia).
  rewrite wrap_u64_small by (unfold is_u64; lia). replace (to_be 4 (blen s) ++ s) with (to_be 4 (blen s) ++ s ++ []) by (by rewrite app_nil_r).
  rewrite (get_range_at (to_be 4 (blen s)) s []); [by rewrite from_utf8_lossy_valid | | ];
    unfold blen; by rewrite length_to_be.
Qed.

Lemma decode_int_data i : is_i32 i -> decode_key_data (int_data i) = I32 i.
Proof.
  intros Hi. unfold decode_key_data, int_data. rewrite blob_length, blob_type by done.
  destruct (Z.ltb_spec (8 + blen (to_be 4 i)) 8); [unfold blen in *; rewrite length_to_be in *; lia |].
  change (T_INTEGER =? T_STRING) with false. change (T_INTEGER =? T_INTEGER) with true. cbv iota. unfold data_blob.
  rewrite app_assoc, <- (app_nil_r (to_be 4 i)).
  rewrite (be_i32_at (to_be 4 0 ++ to_be 4 T_INTEGER) i []); [done | | lia | done].
  unfold blen. by rewrite length_app, !length_to_be.
Qed.
