(* ===== verification/SqlExec.v ===== *)
(** * Executing a query on one member (crates/query/src/sql.rs)

    [execute_with] filters, windows, groups and aggregates the entries of a map, then removes
    duplicates, sorts and limits the rows.  Parameters are the field extractor, the regex crate, the
    text of a double and its parser, and the order in which a hash map yields its groups.  A cell is
    text, or nothing for NULL. *)

From S2P Require Import Prelude FieldValue QueryIndex Schema Extract Double QueryWire Sql SqlFacts JsonFlat Text.

Abbreviation cell := (option bytes).
Abbreviation row := (list (option bytes)).
Abbreviation entry := (bytes * bytes)%type.

(** [for x in l { s = f(s, x)? }] with panics. *)
Fixpoint fold_outcome {A S} (f : S -> A -> outcome S) (s : S) (l : list A) : outcome S :=
  match l with [] => Ok s | x :: l => s ← f s x; fold_outcome f s l end.

(** The names of the fields of a Compact value. *)
Definition schema_fields (sv : SchemaService) (value : bytes) : option (list bytes) :=
  if blen value <? 16 then None else
  id ← be_i64 value 8; s ← get_schema sv id; Some (map fd_name (fields s)).

(** [rows.retain(|r| seen.insert(r.clone()))]: the first of equal rows. *)
Fixpoint retain_first (seen : gset row) (rows : list row) : list row :=
  match rows with
  | [] => []
  | r :: rows => if decide (r ∈ seen) then retain_first seen rows else r :: retain_first ({[r]} ∪ seen) rows
  end.

(** [Option<String>::cmp] *)
Definition cell_cmp (a b : cell) : comparison :=
  match a, b with
  | None, None => Eq
  | None, Some _ => Lt
  | Some _, None => Gt
  | Some x, Some y => bytes_cmp x y
  end.

Definition apply_limit {A} (limit : option Z) (rows : list A) : list A :=
  match limit with Some n => take (Z.to_nat n) rows | None => rows end.

(** The position of a column. *)
Definition position (x : bytes) (l : list bytes) : option nat := fst <$> list_find (fun y => y = x) l.

(** With a window, its two columns come first. *)
Definition group_columns (select : Select) : list bytes :=
  let g := default [] (s_group_by select) in
  match s_window select with
  | Some _ =>
    bstr "window_start" :: bstr "window_end"
      :: filter (fun c => c <> bstr "window_start" /\ c <> bstr "window_end") g
  | None => g
  end.

Definition is_col (c : ColExpr) : bool := match c with Col _ => true | _ => false end.

Definition column_name (c : ColExpr) : bytes :=
  match c with
  | Col n => bare_col n
  | Count n => bstr "count(" ++ bare_col n ++ bstr ")"
  | Sum n => bstr "sum(" ++ bare_col n ++ bstr ")"
  | Avg n => bstr "avg(" ++ bare_col n ++ bstr ")"
  | Min n => bstr "min(" ++ bare_col n ++ bstr ")"
  | Max n => bstr "max(" ++ bare_col n ++ bstr ")"
  end.

(** The number in a field, as a double. *)
Definition numeric (v : FieldValue) : option Z :=
  match v with I32 i | I64 i => Some (f64_of_int i) | F64 f => Some f | _ => None end.

(** The extreme value under [compare]: the first of equal ones, values of other types ignored. *)
Definition extreme (better : comparison) (acc : option FieldValue) (v : FieldValue) : option FieldValue :=
  match v with
  | Null => acc
  | _ =>
    match acc with
    | None => Some v
    | Some m => match compare v m, better with Some Lt, Lt | Some Gt, Gt => Some v | _, _ => acc end
    end
  end.

Section Exec.
Context (extract : bytes -> bytes -> FieldValue) (text_match : TextKind -> bytes -> bytes -> bool)
  (f64_to_string : Z -> bytes) (parse_f64 : bytes -> option Z)
  (hash_iter : gmap row (list entry) -> list (row * list entry)) (sv : SchemaService).

Definition fmt_value (v : FieldValue) : cell :=
  match v with
  | Null => None
  | VBool b => Some (if b then bstr "true" else bstr "false")
  | I32 i | I64 i => Some (int_to_string i)
  | F64 f => Some (f64_to_string f)
  | VStr s => Some s
  end.

Definition fv_i64 (v : FieldValue) : Z :=
  match v with
  | I32 i | I64 i => i
  | F64 f => f64_as_i64 f
  | VStr s => default 0 (parse_i64 s)
  | _ => 0
  end.

(** A column of an entry: the key column is read from the key. *)
Definition column_value (key_col : option bytes) (e : entry) (b : bytes) : FieldValue :=
  if decide (Some b = key_col) then decode_key_data e.1 else extract e.2 b.

(** The windows of an entry, or one bucket without a window. *)
Definition entry_buckets (select : Select) (e : entry) : outcome (list (cell * cell)) :=
  match s_window select with
  | Some w =>
    l ← windows w (fv_i64 (extract e.2 (w_ts_col w)));
    Ok (map (fun se => (Some (int_to_string se.1), Some (int_to_string se.2))) l)
  | None => Ok [(None, None)]
  end.

Definition group_cell (select : Select) (key_col : option bytes) (e : entry) (wse : cell * cell) (col : bytes) : cell :=
  if bool_decide (col = bstr "window_start") && bool_decide (is_Some (s_window select)) then wse.1
  else if bool_decide (col = bstr "window_end") && bool_decide (is_Some (s_window select)) then wse.2
  else fmt_value (column_value key_col e col).

Definition group_key (select : Select) (key_col : option bytes) (e : entry) (wse : cell * cell) : row :=
  map (group_cell select key_col e wse) (group_columns select).

Definition add_to_groups (select : Select) (key_col : option bytes) (groups : gmap row (list entry)) (e : entry) :
    outcome (gmap row (list entry)) :=
  buckets ← entry_buckets select e;
  Ok (foldl (fun m wse => let k := group_key select key_col e wse in <[k := default [] (m !! k) ++ [e]]> m) groups buckets).

Definition sum_values (vs : list FieldValue) : option Z :=
  match omap numeric vs with [] => None | ns => Some (foldl f64_add 0 ns) end.

Definition avg_values (vs : list FieldValue) : option Z :=
  match omap numeric vs with [] => None | ns => Some (f64_div (foldl f64_add 0 ns) (f64_of_int (blen ns))) end.

(** One cell of the row of a group. *)
Definition aggregate_cell (select : Select) (key_col : option bytes) (key : row) (es : list entry) (c : ColExpr) : outcome cell :=
  let values n := map (fun e => column_value key_col e (bare_col n)) es in
  match c with
  | Col n =>
    match position (bare_col n) (group_columns select) with
    | Some idx => index key idx
    | None => Ok (match es with e :: _ => fmt_value (column_value key_col e (bare_col n)) | [] => None end)
    end
  | Count _ => Ok (Some (int_to_string (blen es)))
  | Sum n => Ok (f64_to_string <$> sum_values (values n))
  | Avg n => Ok (f64_to_string <$> avg_values (values n))
  | Min n => Ok (foldl (extreme Lt) None (values n) ≫= fmt_value)
  | Max n => Ok (foldl (extreme Gt) None (values n) ≫= fmt_value)
  end.

Fixpoint map_outcome {A B} (f : A -> outcome B) (l : list A) : outcome (list B) :=
  match l with [] => Ok [] | x :: l => y ← f x; r ← map_outcome f l; Ok (y :: r) end.

Definition aggregate_rows (select : Select) (key_col : option bytes) (matched : list entry) : outcome (list row) :=
  groups ← fold_outcome (add_to_groups select key_col) ∅ matched;
  if s_star select then Ok []
  else map_outcome (fun g => map_outcome (aggregate_cell select key_col g.1 g.2) (s_cols select)) (hash_iter groups).

Definition plain_row (select : Select) (key_col : option bytes) (columns : list bytes) (e : entry) : row :=
  if s_star select then map (fun c => fmt_value (column_value key_col e c)) columns
  else omap (fun c => match c with Col n => Some (fmt_value (column_value key_col e (bare_col n))) | _ => None end) (s_cols select).

(** [ORDER BY]: as numbers when both cells are, else as text. *)
Definition order_cmp (a b : cell) : comparison :=
  match a ≫= parse_f64, b ≫= parse_f64 with
  | Some x, Some y => Z.compare (total_key x) (total_key y)
  | _, _ => cell_cmp a b
  end.

Definition goes_before (is_desc : bool) (idx : nat) (a b : row) : bool :=
  let c := order_cmp (default None (a !! idx)) (default None (b !! idx)) in
  match is_desc, c with false, Lt | true, Gt => true | _, _ => false end.

(** [rows.sort_by(|a, b| ... a[col_idx] ...)] *)
Definition order_rows (select : Select) (columns : list bytes) (rows : list row) : outcome (list row) :=
  match s_order_by select with
  | None => Ok rows
  | Some (col, is_desc) =>
    match position col columns with
    | None => Ok rows
    | Some idx =>
      if forallb (fun r => (idx <? length r)%nat) rows then Ok (stable_sort (goes_before is_desc idx) rows) else Panic
    end
  end.

Definition matched_entries (select : Select) (entries : list entry) : list entry :=
  filter (fun e => eval extract text_match (default (PAnd []) (s_filter select)) e.2 = true) entries.

Definition result_columns (select : Select) (star_cols : list bytes) (matched : list entry) : list bytes :=
  if s_star select then
    match star_cols with
    | [] => default [] (match matched with e :: _ => schema_fields sv e.2 | [] => None end)
    | _ => star_cols
    end
  else map column_name (s_cols select).

Definition has_aggregates (select : Select) : bool :=
  negb (s_star select) && existsb (fun c => negb (is_col c)) (s_cols select).

Definition groups_rows (select : Select) : bool :=
  has_aggregates select || bool_decide (is_Some (s_group_by select)) || bool_decide (is_Some (s_window select)).

Definition execute_with (select : Select) (entries : list entry) (star_cols : list bytes) (key_col : option bytes) :
    outcome (list bytes * list row) :=
  let matched := matched_entries select entries in
  let columns := result_columns select star_cols matched in
  rows ← (if groups_rows select then aggregate_rows select key_col matched
          else Ok (map (plain_row select key_col columns) matched));
  let rows := if s_distinct select then retain_first ∅ rows else rows in
  rows ← order_rows select columns rows;
  Ok (columns, apply_limit (s_limit select) rows).
End Exec.

(** ** Rows of fields: the join and streaming path *)

Definition field_named (c : bytes) (fields : list (bytes * FieldValue)) : option FieldValue :=
  snd <$> List.find (fun kv => bool_decide (kv.1 = c)) fields.

Section Fields.
Context (text_match : TextKind -> bytes -> bytes -> bool).

Definition match_field (kind : TextKind) (v : option FieldValue) (pattern : bytes) : bool :=
  match v with Some (VStr s) => text_match kind pattern s | _ => false end.

Fixpoint eval_fields (pred : Predicate) (fields : list (bytes * FieldValue)) : bool :=
  let get name := field_named (bare_col name) fields in
  match pred with
  | Compare field op value =>
    match get field with
    | Some fv => match compare fv value with Some c => compare_op op c | None => false end
    | None => false
    end
  | PAnd c => forallb (fun p => eval_fields p fields) c
  | POr c => existsb (fun p => eval_fields p fields) c
  | PNot inner => negb (eval_fields inner fields)
  | Between field from to =>
    match get field with
    | Some fv =>
      match compare fv from, compare fv to with
      | Some c, Some c' => compare_op OGe c && compare_op OLe c'
      | _, _ => false
      end
    | None => false
    end
  | PIn field values => match get field with Some fv => existsb (fun v => equals fv v) values | None => false end
  | Like field expr => match_field KLike (get field) expr
  | ILike field expr => match_field KILike (get field) expr
  | Regex field regex => match_field KRegex (get field) regex
  | PTrue => true
  | PFalse | Sql _ | MatchNone => false
  | Paging inner _ _ _ => match inner with Some p => eval_fields p fields | None => true end
  | Partition _ target => eval_fields target fields
  end.

(** The selected columns of a row that satisfies the filter. *)
Definition project_row (select : Select) (fields : list (bytes * FieldValue)) : option (list (bytes * FieldValue)) :=
  if eval_fields (default (PAnd []) (s_filter select)) fields then
    let cols :=
      if s_star select then map fst fields
      else omap (fun c => match c with Col n => Some (bare_col n) | _ => None end) (s_cols select) in
    Some (map (fun c => (c, default Null (field_named c fields))) cols)
  else None.
End Fields.

(** * What a query returns

    Execution returns for every query with proper windows; a grouped count has one row per distinct
    value with the number of entries that have it.  Ordering by a text column that holds numbers and
    other text is not an order. *)

(** ** Grouping *)

Section Groups.
Context {K A : Type} `{Countable K} (key : A -> K).

Definition push (m : gmap K (list A)) (x : A) : gmap K (list A) := <[key x := default [] (m !! key x) ++ [x]]> m.
Definition group_by (l : list A) : gmap K (list A) := foldl push ∅ l.

Definition members_of (k : K) (l : list A) : list A := filter (fun x => key x = k) l.

Lemma group_by_lookup l k :
  group_by l !! k = match members_of k l with [] => None | xs => Some xs end.
Proof.
  unfold group_by, members_of. induction l as [| x l IH] using rev_ind; [done |].
  rewrite foldl_app, filter_app. cbn [foldl]. unfold push at 1. rewrite filter_cons, filter_nil. destruct (decide (key x = k)) as [<- | Hne].
  - rewrite lookup_insert_eq, IH. destruct (filter (fun y => key y = key x) l); done.
  - rewrite lookup_insert_ne, IH by done. by rewrite app_nil_r.
Qed.

Lemma group_by_some l k xs : group_by l !! k = Some xs <-> xs = members_of k l /\ xs <> [].
Proof.
  rewrite group_by_lookup. destruct (members_of k l) as [| x r]; split; [done | by intros [-> ?] | by intros [= <-] | by intros [-> _]].
Qed.

Lemma group_by_keys l k : is_Some (group_by l !! k) <-> k ∈ map key l.
Proof.
  rewrite list_elem_of_fmap. split.
  - intros [xs [-> Hne]%group_by_some]. destruct (members_of k l) as [| x r] eqn:E; [done |].
    exists x. assert (x ∈ members_of k l) as [? ?]%list_elem_of_filter by (rewrite E; by apply list_elem_of_here). done.
  - intros (x & -> & Hx). exists (members_of (key x) l). apply group_by_some. split; [done |]. intros E.
    assert (x ∈ members_of (key x) l) as Hm by by apply list_elem_of_filter. rewrite E in Hm. by apply not_elem_of_nil in Hm.
Qed.

(** One group per distinct key, with the items of that key. *)
Lemma group_by_list l :
  map_to_list (group_by l) ≡ₚ map (fun k => (k, members_of k l)) (remove_dups (map key l)).
Proof.
  apply NoDup_Permutation.
  - apply NoDup_map_to_list.
  - apply NoDup_fmap_2; [by intros ? ? [= ? _] | apply NoDup_remove_dups].
  - intros [k xs]. rewrite elem_of_map_to_list, group_by_some, list_elem_of_fmap. split.
    + intros [-> Hne]. exists k. split; [done |]. rewrite elem_of_remove_dups, <- group_by_keys.
      exists (members_of k l). by apply group_by_some.
    + intros (k' & [= -> ->] & Hk). split; [done |]. rewrite elem_of_remove_dups, <- group_by_keys in Hk.
      destruct Hk as [xs [-> ?]%group_by_some]. done.
Qed.
End Groups.

Lemma map_outcome_pure {A B} (f : A -> outcome B) (g : A -> B) l :
  (forall x, x ∈ l -> f x = Ok (g x)) -> map_outcome f l = Ok (map g l).
Proof.
  induction l as [| x l IH]; intros Hf; [done |]. cbn. rewrite Hf by apply list_elem_of_here. cbn.
  rewrite IH; [done |]. intros y Hy. apply Hf. by right.
Qed.

Lemma remove_dups_map {A B} `{EqDecision A, EqDecision B} (f : A -> B) `{!Inj (=) (=) f} l :
  remove_dups (map f l) = map f (remove_dups l).
Proof.
  induction l as [| x l IH]; [done |]. cbn [map remove_dups].
  destruct (decide_rel elem_of x l) as [Hx | Hx], (decide_rel elem_of (f x) (map f l)) as [Hf | Hf]; [by rewrite IH | | | by cbn; rewrite IH].
  - destruct Hf. apply list_elem_of_fmap. by exists x.
  - destruct Hx. apply list_elem_of_fmap in Hf as (y & Hy & ?). by apply (inj f) in Hy as ->.
Qed.

(** An entry once per bucket it falls into. *)
Definition spread (e : entry) (buckets : list (cell * cell)) : list (entry * (cell * cell)) := map (pair e) buckets.

Definition occurrences_with (buckets : entry -> outcome (list (cell * cell))) (es : list entry) : outcome (list (entry * (cell * cell))) :=
  l ← map_outcome (fun e => bs ← buckets e; Ok (spread e bs)) es; Ok (concat l).

Lemma occurrences_with_app buckets es fs oe of' :
  occurrences_with buckets es = Ok oe -> occurrences_with buckets fs = Ok of' -> occurrences_with buckets (es ++ fs) = Ok (oe ++ of').
Proof.
  unfold occurrences_with. revert oe. induction es as [| e es IH]; intros oe; cbn [map_outcome app]; [by intros [= <-] |].
  destruct (buckets e) as [bs |]; cbn [mbind outcome_bind]; [| done].
  destruct (map_outcome _ es) as [l |]; cbn [mbind outcome_bind] in *; [| done]. intros [= <-] Hf. specialize (IH _ eq_refl Hf).
  destruct (map_outcome _ (es ++ fs)) as [l' |]; cbn [mbind outcome_bind] in *; [| done]. injection IH as IH. cbn. by rewrite IH, app_assoc.
Qed.

Section Facts.
Context (extract : bytes -> bytes -> FieldValue) (text_match : TextKind -> bytes -> bytes -> bool)
  (f64_to_string : Z -> bytes) (parse_f64 : bytes -> option Z)
  (hash_iter : gmap row (list entry) -> list (row * list entry)) (sv : SchemaService).
Hypothesis hash_iter_ok : forall m, hash_iter m ≡ₚ map_to_list m.

#[local] Abbreviation execute_with := (execute_with extract text_match f64_to_string parse_f64 hash_iter sv).
#[local] Abbreviation aggregate_rows := (aggregate_rows extract f64_to_string hash_iter).
#[local] Abbreviation entry_buckets := (entry_buckets extract).
#[local] Abbreviation group_key := (group_key extract f64_to_string).
#[local] Abbreviation add_to_groups := (add_to_groups extract f64_to_string).

Definition occurrences (select : Select) : list entry -> outcome (list (entry * (cell * cell))) := occurrences_with (entry_buckets select).

Definition occ_key (select : Select) (key_col : option bytes) (o : entry * (cell * cell)) : row := group_key select key_col o.1 o.2.

(** The groups the executor builds, as a fold over the occurrences. *)
Lemma groups_fold_from select key_col es l m :
  map_outcome (fun e => bs ← entry_buckets select e; Ok (spread e bs)) es = Ok l ->
  fold_outcome (add_to_groups select key_col) (map fst <$> m) es
  = Ok (map fst <$> foldl (push (occ_key select key_col)) m (concat l)).
Proof.
  revert l m. induction es as [| e es IH]; intros l m; cbn [map_outcome fold_outcome]; [by intros [= <-] |].
  replace (add_to_groups select key_col (map fst <$> m) e) with
    (buckets ← entry_buckets select e;
     Ok (foldl (fun m wse => let k := group_key select key_col e wse in <[k := default [] (m !! k) ++ [e]]> m) (map fst <$> m) buckets)) by done.
  destruct (entry_buckets select e) as [bs |]; cbn [mbind outcome_bind]; [| done].
  destruct (map_outcome _ es) as [l' |] eqn:El; cbn [mbind outcome_bind]; [| done]. intros [= <-]. cbn [concat]. rewrite foldl_app.
  rewrite <- (IH l') by done. f_equal. clear. revert m. induction bs as [| b bs IH]; intros m; [done |]. cbn [foldl spread map].
  rewrite <- IH. f_equal. unfold push, occ_key. cbn [fst snd]. rewrite fmap_insert, lookup_fmap. f_equal.
  destruct (m !! _); cbn; by rewrite ?map_app.
Qed.

Lemma groups_fold select key_col es occ :
  occurrences select es = Ok occ ->
  fold_outcome (add_to_groups select key_col) ∅ es = Ok (map fst <$> group_by (occ_key select key_col) occ).
Proof.
  unfold occurrences, occurrences_with. destruct (map_outcome _ es) as [l |] eqn:El; [| done]. intros [= <-].
  pose proof (groups_fold_from select key_col es l ∅ El) as Hf. by rewrite fmap_empty in Hf.
Qed.

(** *** Execution returns *)

Lemma map_outcome_ok {A B} (f : A -> outcome B) (P : B -> Prop) l :
  Forall (fun x => exists y, f x = Ok y /\ P y) l -> exists ys, map_outcome f l = Ok ys /\ Forall P ys /\ length ys = length l.
Proof.
  induction 1 as [| x l (y & E & Hy) _ (ys & Es & Hys & Hl)]; [by exists [] |]. exists (y :: ys). cbn. rewrite E. cbn. rewrite Es. cbn.
  split_and!; [done | by constructor | by rewrite Hl].
Qed.

(** The timestamps of the entries are within the range of their windows. *)
Definition windowable (select : Select) (es : list entry) : Prop :=
  match s_window select with
  | Some w => window_positive (w_func w) /\ Forall (fun e => ts_ok (w_func w) (fv_i64 (extract e.2 (w_ts_col w)))) es
  | None => True
  end.

Lemma occurrences_total select es : windowable select es -> exists occ, occurrences select es = Ok occ.
Proof.
  intros Hw. unfold occurrences, occurrences_with. destruct (map_outcome_ok (fun e => bs ← entry_buckets select e; Ok (spread e bs)) (fun _ => True) es) as (l & -> & _); [| by exists (concat l)].
  apply Forall_forall. intros e He. unfold windowable in Hw. unfold SqlExec.entry_buckets. destruct (s_window select) as [w |]; [| by eexists].
  destruct Hw as [Hp Ht]. rewrite Forall_forall in Ht. destruct (windows_exact w _ Hp (Ht e He)) as (l & -> & _). by eexists.
Qed.

Lemma position_lt x l i : position x l = Some i -> (i < length l)%nat.
Proof.
  unfold position. destruct (list_find _ l) as [[j y] |] eqn:E; [| done]. cbn. intros [= <-].
  apply list_find_Some in E as (E & _). by apply lookup_lt_Some in E.
Qed.

Lemma aggregate_rows_total select key_col es :
  windowable select es ->
  exists rows, aggregate_rows select key_col es = Ok rows /\ Forall (fun r => s_star select = false /\ length r = length (s_cols select)) rows.
Proof.
  intros Hw. destruct (occurrences_total select es Hw) as [occ Ho]. unfold SqlExec.aggregate_rows. rewrite (groups_fold _ _ _ _ Ho). cbn [mbind outcome_bind].
  destruct (s_star select); [by exists [] |].
  match goal with |- context [map_outcome ?f ?l] => destruct (map_outcome_ok f (fun r => length r = length (s_cols select)) l) as (rows & -> & Hr & _) end.
  - apply Forall_forall. intros [k es'] Hk. cbn [fst snd]. rewrite hash_iter_ok in Hk.
    apply elem_of_map_to_list, lookup_fmap_Some in Hk as (os & <- & Hos).
    assert (length k = length (group_columns select)) as Hlen.
    { assert (k ∈ map (occ_key select key_col) occ) as Hin by (apply group_by_keys; by exists os).
      apply list_elem_of_fmap in Hin as (o & -> & _). apply length_map. }
    destruct (map_outcome_ok (aggregate_cell extract f64_to_string select key_col k (map fst os)) (fun _ => True) (s_cols select)) as (r & Er & _ & Hr); [| by exists r].
    apply Forall_forall. intros c _. unfold aggregate_cell. destruct c as [n | | | | |]; try (by eexists).
    destruct (position _ _) as [i |] eqn:Ei; [| by eexists]. apply position_lt in Ei.
    destruct (lookup_lt_is_Some_2 k i) as [x Hx]; [by rewrite Hlen |]. exists x. split; [by apply index_Ok | done].
  - exists rows. split; [done |]. eapply Forall_impl; [exact Hr | done].
Qed.

Lemma retain_first_sub seen rows r : r ∈ retain_first seen rows -> r ∈ rows.
Proof.
  revert seen. induction rows as [| x rows IH]; intros seen; cbn [retain_first]; [done |]. case_decide.
  - intros Hr. right. by eapply IH.
  - rewrite !elem_of_cons. intros [-> | Hr]; [by left | right]. by eapply IH.
Qed.

Lemma plain_row_length select key_col columns e :
  has_aggregates select = false -> (s_star select = false -> columns = map column_name (s_cols select)) ->
  length (plain_row extract f64_to_string select key_col columns e) = length columns.
Proof.
  intros Ha Hc. unfold plain_row. unfold has_aggregates in Ha. destruct (s_star select); [apply length_map |].
  rewrite Hc, length_map by done. cbn [negb andb] in Ha. clear Hc. induction (s_cols select) as [| c l IH]; [done |].
  cbn in Ha. apply orb_false_iff in Ha as [Hcol Ha]. destruct c; try done. cbn. by rewrite IH.
Qed.

(** Every query over any entries returns, if its windows are not empty and its timestamps are in
    range: the order by a column never looks outside a row, and every row has a cell per column
    unless a star is grouped, which gives no rows. *)
Theorem query_runs select entries star_cols key_col :
  windowable select (matched_entries extract text_match select entries) ->
  exists columns rows, execute_with select entries star_cols key_col = Ok (columns, rows)
    /\ Forall (fun r => length r = length columns) rows.
Proof.
  intros Hw. unfold SqlExec.execute_with. set (matched := matched_entries _ _ _ _) in *. set (columns := result_columns _ _ _ _).
  assert (exists rows, (if groups_rows select then aggregate_rows select key_col matched
            else Ok (map (plain_row extract f64_to_string select key_col columns) matched)) = Ok rows
          /\ Forall (fun r => length r = length columns) rows) as (rows & -> & Hr).
  { destruct (groups_rows select) eqn:Eg.
    - destruct (aggregate_rows_total select key_col matched Hw) as (rows & -> & Hr). exists rows. split; [done |].
      eapply Forall_impl; [exact Hr |]. intros r [Hs Hl]. unfold columns, result_columns. by rewrite Hs, Hl, length_map.
    - eexists. split; [done |]. apply Forall_forall. intros r (e & -> & _)%list_elem_of_fmap. apply plain_row_length.
      + unfold groups_rows in Eg. apply orb_false_iff in Eg as [[? _]%orb_false_iff _]. done.
      + intros Hs. unfold columns, result_columns. by rewrite Hs. }
  cbn [mbind outcome_bind]. set (rows' := if s_distinct select then _ else rows).
  assert (Forall (fun r => length r = length columns) rows') as Hr'.
  { unfold rows'. destruct (s_distinct select); [| done]. rewrite Forall_forall in *. intros r Hx. by apply Hr, retain_first_sub with ∅. }
  assert (exists rows'', order_rows parse_f64 select columns rows' = Ok rows'' /\ Forall (fun r => length r = length columns) rows'') as (rows'' & -> & Hr'').
  { unfold order_rows. destruct (s_order_by select) as [[col d] |]; [| by exists rows'].
    destruct (position col columns) as [idx |] eqn:Ei; [| by exists rows']. apply position_lt in Ei.
    rewrite (proj2 (forallb_forall _ _)).
    - eexists. split; [done |]. apply Forall_forall. intros r Hx. rewrite stable_sort_perm in Hx. rewrite Forall_forall in Hr'. by apply Hr'.
    - intros r Hx%list_elem_of_In. rewrite Forall_forall in Hr'. apply Nat.ltb_lt. by rewrite (Hr' r Hx). }
  cbn [mbind outcome_bind]. eexists _, _. split; [done |]. unfold apply_limit. destruct (s_limit select); [by apply Forall_take | done].
Qed.

(** *** Grouped counts *)

Definition count_query (mp g a : bytes) (flt : option Predicate) : Select :=
  mkSelect false [Col g; Count a] false mp None None flt (Some [g]) None None.

Section Counted.
Context (mp g a : bytes) (flt : option Predicate) (key_col : option bytes) (Hg : bare_col g = g).

#[local] Abbreviation sel := (count_query mp g a flt).

Definition group_value (e : entry) : cell := fmt_value f64_to_string (column_value extract key_col e g).

Lemma count_occurrences es : occurrences sel es = Ok (map (fun e => (e, (None, None))) es).
Proof.
  unfold occurrences, occurrences_with. rewrite (map_outcome_pure _ (fun e => [(e, (None, None))])) by done. cbn [mbind outcome_bind]. f_equal.
  induction es as [| e l IH]; [done |]. cbn. by rewrite IH.
Qed.

Lemma count_key e : occ_key sel key_col (e, (None, None)) = [group_value e].
Proof.
  unfold occ_key, SqlExec.group_key, group_columns, group_cell, group_value. cbn -[decide bool_decide].
  rewrite !(bool_decide_false (is_Some None)) by (by intros []). by rewrite !andb_false_r.
Qed.

Lemma count_groups es :
  map_to_list (map fst <$> group_by (occ_key sel key_col) (map (fun e => (e, (None, None))) es))
  ≡ₚ map (fun v => ([v], filter (fun e => group_value e = v) es)) (remove_dups (map group_value es)).
Proof.
  rewrite map_to_list_fmap, group_by_list.
  assert (map (occ_key sel key_col) (map (fun e => (e, (None, None))) es) = map (fun v => [v]) (map group_value es)) as ->.
  { rewrite !map_map. apply map_ext. apply count_key. }
  rewrite remove_dups_map by (by intros ? ? [= ?]). rewrite map_map. change (prod_map id (map fst) <$> ?l) with (map (prod_map id (map fst)) l).
  rewrite map_map. apply Permutation_refl', map_ext. intros v. unfold prod_map. cbn [fst snd id]. f_equal.
  unfold members_of. induction es as [| e l IH]; [done |]. cbn [map]. rewrite !filter_cons, count_key.
  destruct (decide (group_value e = v)) as [Hv | Hv].
  - rewrite decide_True by (by rewrite Hv). cbn [map]. by rewrite IH.
  - rewrite decide_False by congruence. apply IH.
Qed.
End Counted.

(** C31. [SELECT g, COUNT(a) FROM m GROUP BY g] has one row per distinct value of [g] among the entries
    that match, with the number of entries that have it. *)
Theorem group_by_counts mp g a flt entries star_cols key_col :
  bare_col g = g ->
  let matched := matched_entries extract text_match (count_query mp g a flt) entries in
  exists rows, execute_with (count_query mp g a flt) entries star_cols key_col = Ok ([g; bstr "count(" ++ bare_col a ++ bstr ")"], rows)
    /\ rows ≡ₚ map (fun v => [v; Some (int_to_string (blen (filter (fun e => group_value g key_col e = v) matched)))])
                 (remove_dups (map (group_value g key_col) matched)).
Proof.
  intros Hg matched. unfold SqlExec.execute_with. fold matched. change (groups_rows (count_query mp g a flt)) with true. cbv iota.
  unfold SqlExec.aggregate_rows. rewrite (groups_fold _ _ _ _ (count_occurrences mp g a flt matched)). cbn [mbind outcome_bind].
  change (s_star (count_query mp g a flt)) with false. cbv iota.
  set (m := map fst <$> _).
  assert (hash_iter m ≡ₚ map (fun v => ([v], filter (fun e => group_value g key_col e = v) matched)) (remove_dups (map (group_value g key_col) matched))) as Hm.
  { rewrite hash_iter_ok. apply count_groups. }
  rewrite (map_outcome_pure _ (fun kv => [default None (kv.1 !! 0%nat); Some (int_to_string (blen kv.2))])).
  - cbn [mbind outcome_bind]. eexists. split; [cbn; by rewrite Hg |]. rewrite Hm, map_map. done.
  - intros kv Hkv. rewrite Hm in Hkv. apply list_elem_of_fmap in Hkv as (v & -> & _). cbn [s_cols count_query map_outcome fst snd].
    unfold aggregate_cell. rewrite Hg. unfold position. cbn. rewrite decide_True by done. done.
Qed.
End Facts.

(** ** Rows of fields *)

(** Filtering a row of fields, as joins and streams do, agrees with filtering a stored value whose
    extractor reads those fields. *)
Theorem eval_fields_agrees text_match fields value : forall p,
  eval_fields text_match p fields
  = eval (fun _ name => default Null (field_named (bare_col name) fields)) text_match p value.
Proof.
  apply Predicate_nested_ind.
  - intros p. destruct p as [f o v | | | | f a b | f vs | f e | f e | f e | | | | [|] | |]; try done; cbn;
      unfold match_text, match_field; destruct (field_named (bare_col f) fields) as [fv |]; try done; cbn; try (by destruct fv).
    clear. induction vs as [| v vs IH]; [done |]. cbn. by rewrite <- IH.
  - intros cs Hc. cbn. induction Hc as [| c cs Hx _ IH]; [done |]. cbn. by rewrite Hx, IH.
  - intros cs Hc. cbn. induction Hc as [| c cs Hx _ IH]; [done |]. cbn. by rewrite Hx, IH.
  - intros p IH. cbn. by rewrite IH.
  - intros p page size it IH. exact IH.
  - intros id p IH. exact IH.
Qed.

(** ** Examples *)

(** Values whose bytes are the column [g]. *)
Definition text_column (value field : bytes) : FieldValue := if bool_decide (field = bstr "g") then VStr value else Null.
Definition no_match (k : TextKind) (pattern s : bytes) : bool := false.
Definition decimal_f64 (s : bytes) : option Z := f64_of_int <$> parse_i64 s.
Definition people_entries : list entry := [(bstr "1", bstr "a"); (bstr "2", bstr "b"); (bstr "3", bstr "a")].

Lemma query_runs_witness :
  exists columns rows,
    execute_with text_column no_match int_to_string decimal_f64 map_to_list new_service
      (mkSelect true [Col (bstr "g"); Max (bstr "g")] false (bstr "m") None None None (Some [bstr "g"]) (Some (bstr "g", true)) (Some 1))
      people_entries [] None = Ok (columns, rows)
    /\ Forall (fun r => length r = length columns) rows.
Proof.
  apply (query_runs text_column no_match int_to_string decimal_f64 map_to_list new_service); [intros m; reflexivity | exact I].
Defined.

Lemma group_by_counts_witness :
  exists rows, execute_with text_column no_match int_to_string decimal_f64 map_to_list new_service
      (count_query (bstr "m") (bstr "g") (bstr "*") None) people_entries [] None = Ok ([bstr "g"; bstr "count(*)"], rows)
    /\ rows ≡ₚ [[Some (bstr "b"); Some (bstr "1")]; [Some (bstr "a"); Some (bstr "2")]].
Proof.
  destruct (group_by_counts text_column no_match int_to_string decimal_f64 map_to_list new_service (fun m => Permutation_refl _)
    (bstr "m") (bstr "g") (bstr "*") None people_entries [] None eq_refl) as (rows & E & Hp).
  exists rows. split; [exact E |]. exact Hp.
Defined.

(** Ordering by a column of text is not an order: 2 goes before 10 as numbers, 10 before 1a and 1a
    before 2 as text. *)
Theorem order_by_is_cyclic parse_f64 :
  parse_f64 (bstr "2") = Some (f64_of_int 2) -> parse_f64 (bstr "10") = Some (f64_of_int 10) -> parse_f64 (bstr "1a") = None ->
  let before a b := order_cmp parse_f64 (Some (bstr a)) (Some (bstr b)) = Lt in
  before "2"%string "10"%string /\ before "10"%string "1a"%string /\ before "1a"%string "2"%string.
Proof.
  intros H2 H10 H1a. unfold order_cmp. cbn [mbind option_bind]. rewrite H2, H10, H1a. split_and!; by vm_compute.
Qed.

Lemma order_by_is_cyclic_witness :
  order_cmp decimal_f64 (Some (bstr "1a")) (Some (bstr "2")) = Lt.
Proof. apply (order_by_is_cyclic decimal_f64); by vm_compute. Defined.
