(* ===== verification/Distributed.v ===== *)
(** * Distributed aggregation (crates/query/src/distributed.rs)

    Every member folds its entries into one accumulator per group and aggregate; the coordinator
    merges what the members send and formats the rows.  Parameters are those of the executor on one
    member; [acc_iter] is the order in which a hash map yields its groups. *)

From S2P Require Import Prelude FieldValue QueryIndex Partition Schema Extract Double Sql JsonFlat SqlExec Text.

Inductive AggKind := KCount | KSum | KAvg | KMin | KMax.
#[export] Instance AggKind_eq_dec : EqDecision AggKind.
Proof. solve_decision. Defined.

Record Acc := mkAcc { a_rows : Z; a_sum : Z; a_nvals : Z; a_min : Z; a_max : Z; a_seen : bool }.
Definition acc_default : Acc := mkAcc 0 0 0 0 0 false.

Definition add_value (v : Z) (a : Acc) : Acc :=
  mkAcc (a_rows a) (f64_add (a_sum a) v) (wrap_i64 (a_nvals a + 1))
    (if a_seen a then f64_min (a_min a) v else v) (if a_seen a then f64_max (a_max a) v else v) true.

Definition add_row (a : Acc) : Acc := mkAcc (wrap_i64 (a_rows a + 1)) (a_sum a) (a_nvals a) (a_min a) (a_max a) (a_seen a).

Definition acc_merge (a o : Acc) : Acc :=
  let rows := wrap_i64 (a_rows a + a_rows o) in
  let sum := f64_add (a_sum a) (a_sum o) in
  let nvals := wrap_i64 (a_nvals a + a_nvals o) in
  if a_seen o then
    if a_seen a then mkAcc rows sum nvals (f64_min (a_min a) (a_min o)) (f64_max (a_max a) (a_max o)) true
    else mkAcc rows sum nvals (a_min o) (a_max o) true
  else mkAcc rows sum nvals (a_min a) (a_max a) (a_seen a).

Abbreviation Partial := (gmap row (list Acc)).

(** ** The partial on the wire, little-endian *)

Definition put_str (s : cell) : bytes := match s with Some s => b8 1 :: to_le 4 (blen s) ++ s | None => [b8 0] end.
Definition put_cells (l : row) : bytes := to_le 4 (blen l) ++ concat (map put_str l).
Definition put_acc (a : Acc) : bytes :=
  to_le 8 (a_rows a) ++ to_le 8 (a_sum a) ++ to_le 8 (a_nvals a) ++ to_le 8 (a_min a) ++ to_le 8 (a_max a) ++ [bool_u8 (a_seen a)].
Definition put_group (g : row * list Acc) : bytes := put_cells g.1 ++ to_le 4 (blen g.2) ++ concat (map put_acc g.2).

(** [p.groups.iter()] gives the groups in some order. *)
Definition encode_partial (groups : list (row * list Acc)) : bytes := to_le 4 (blen groups) ++ concat (map put_group groups).

Definition rd_opt_str (b : bytes) : option (cell * bytes) :=
  '(tag, b) ← get_byte b;
  if u8 tag =? 0 then Some (None, b) else
  '(s, b) ← get_lp 4 b; Some (Some (from_utf8_lossy s), b).

(** A count and as many items: every item takes at least a byte. *)
Definition rd_counted {A} (get : bytes -> option (A * bytes)) (b : bytes) : option (list A * bytes) :=
  '(n, b) ← get_u 4 b; rd_items get (length b) n b.

Definition rd_acc (b : bytes) : option (Acc * bytes) :=
  '(rows, b) ← get_i 8 b;
  '(sum, b) ← get_u 8 b;
  '(nvals, b) ← get_i 8 b;
  '(min, b) ← get_u 8 b;
  '(max, b) ← get_u 8 b;
  '(seen, b) ← get_byte b;
  Some (mkAcc rows sum nvals min max (u8_bool seen), b).

Definition rd_group (b : bytes) : option (row * list Acc * bytes) :=
  '(key, b) ← rd_counted rd_opt_str b;
  '(accs, b) ← rd_counted rd_acc b;
  Some (key, accs, b).

Definition decode_partial (b : bytes) : option Partial :=
  '(groups, _) ← rd_counted rd_group b;
  Some (foldl (fun m g => <[g.1 := g.2]> m) ∅ groups).

Definition encode_rows (rows : list row) : bytes := to_le 4 (blen rows) ++ concat (map put_cells rows).
Definition decode_rows (b : bytes) : option (list row) := '(rows, _) ← rd_counted (rd_counted rd_opt_str) b; Some rows.

(** ** The aggregates of a query *)

Definition is_aggregate (select : Select) : bool :=
  bool_decide (is_Some (s_window select)) || bool_decide (is_Some (s_group_by select)) || existsb (fun c => negb (is_col c)) (s_cols select).

Definition plain_columns (select : Select) : list bytes :=
  map (fun c => match c with Col n => bare_col n | _ => [] end) (s_cols select).

Definition agg_of (c : ColExpr) : option (AggKind * bytes) :=
  match c with
  | Count n => Some (KCount, bare_col n)
  | Sum n => Some (KSum, bare_col n)
  | Avg n => Some (KAvg, bare_col n)
  | Min n => Some (KMin, bare_col n)
  | Max n => Some (KMax, bare_col n)
  | Col _ => None
  end.
Definition agg_cols (select : Select) : list (AggKind * bytes) := omap agg_of (s_cols select).

(** [e[i].merge(a)] for every [i] that both have. *)
Fixpoint merge_accs (e accs : list Acc) : list Acc :=
  match e, accs with x :: e, a :: accs => acc_merge x a :: merge_accs e accs | _, _ => e end.

Definition merge_into (out : Partial) (g : row * list Acc) : Partial :=
  <[g.1 := merge_accs (default (replicate (length g.2) acc_default) (out !! g.1)) g.2]> out.

(** The order of the rows without ORDER BY: [Vec<Option<String>>::cmp]. *)
Fixpoint row_cmp (a b : row) : comparison :=
  match a, b with
  | [], [] => Eq
  | [], _ => Lt
  | _, [] => Gt
  | x :: a, y :: b => match cell_cmp x y with Eq => row_cmp a b | c => c end
  end.

Section Dist.
Context (extract : bytes -> bytes -> FieldValue) (text_match : TextKind -> bytes -> bytes -> bool)
  (f64_to_string : Z -> bytes) (parse_f64 : bytes -> option Z) (acc_iter : Partial -> list (row * list Acc)).

Definition trim (v : Z) : bytes := if f64_integral v then int_to_string (f64_as_i64 v) else f64_to_string v.

Definition finalize_acc (kind : AggKind) (a : Acc) : cell :=
  match kind with
  | KCount => Some (int_to_string (a_rows a))
  | KSum => if a_seen a then Some (trim (a_sum a)) else None
  | KAvg => if 0 <? a_nvals a then Some (trim (f64_div (a_sum a) (f64_of_int (a_nvals a)))) else None
  | KMin => if a_seen a then Some (trim (a_min a)) else None
  | KMax => if a_seen a then Some (trim (a_max a)) else None
  end.

(** The timestamp of an entry; text is not parsed here. *)
Definition dist_ts (v : FieldValue) : Z := match v with I32 x | I64 x => x | F64 f => f64_as_i64 f | _ => 0 end.

Definition dist_buckets (select : Select) (e : entry) : outcome (list (cell * cell)) :=
  match s_window select with
  | Some w =>
    l ← windows w (dist_ts (extract e.2 (w_ts_col w)));
    Ok (map (fun se => (Some (int_to_string se.1), Some (int_to_string se.2))) l)
  | None => Ok [(None, None)]
  end.

(** One aggregate of one entry. *)
Definition acc_step (e : entry) (ks : AggKind * bytes) (a : Acc) : Acc :=
  let a := add_row a in
  if decide (ks.1 = KCount) then a else
  match numeric (extract e.2 ks.2) with Some x => add_value x a | None => a end.

Definition add_occurrence (select : Select) (key_col : option bytes) (e : entry) (m : Partial) (wse : cell * cell) : Partial :=
  let k := group_key extract f64_to_string select key_col e wse in
  let accs := default (replicate (length (agg_cols select)) acc_default) (m !! k) in
  <[k := zip_with (fun a ks => acc_step e ks a) accs (agg_cols select)]> m.

Definition add_entry (select : Select) (key_col : option bytes) (m : Partial) (e : entry) : outcome Partial :=
  buckets ← dist_buckets select e; Ok (foldl (add_occurrence select key_col e) m buckets).

Definition local_partial (select : Select) (entries : list entry) (key_col : option bytes) : outcome Partial :=
  fold_outcome (add_entry select key_col) ∅ (matched_entries extract text_match select entries).

Definition merge (partials : list Partial) : Partial :=
  foldl (fun out p => foldl merge_into out (acc_iter p)) ∅ partials.

(** One row of the result: a group column from the key, the next accumulator for an aggregate. *)
Fixpoint finalize_row (gcols : list bytes) (key : row) (accs : list Acc) (cols : list ColExpr) : outcome row :=
  match cols with
  | [] => Ok []
  | c :: cols =>
    match agg_of c with
    | None =>
      let b := match c with Col n => bare_col n | _ => [] end in
      r ← finalize_row gcols key accs cols;
      Ok (mjoin (i ← position b gcols; key !! i) :: r)
    | Some (kind, _) =>
      match accs with
      | [] => Panic
      | a :: accs => r ← finalize_row gcols key accs cols; Ok (finalize_acc kind a :: r)
      end
    end
  end.

(** Numbers by value, other text after them, nothing before. *)
Definition num_or_str (v : cell) : Z * bytes :=
  match v with
  | Some s => (default (2047 * 2 ^ 52) (parse_f64 s), s)
  | None => (2 ^ 63 + 2047 * 2 ^ 52, [])
  end.

Definition num_cmp (a b : cell) : comparison :=
  let '(x, s) := num_or_str a in
  let '(y, t) := num_or_str b in
  match f64_partial_cmp x y with Some Eq => bytes_cmp s t | Some c => c | None => Eq end.

Definition num_before (desc : bool) (idx : nat) (a b : row) : bool :=
  match desc, num_cmp (mjoin (a !! idx)) (mjoin (b !! idx)) with false, Lt | true, Gt => true | _, _ => false end.

Definition finalize (select : Select) (merged : Partial) : outcome (list bytes * list row) :=
  let columns := map column_name (s_cols select) in
  rows ← map_outcome (fun g => finalize_row (group_columns select) g.1 g.2 (s_cols select)) (acc_iter merged);
  let rows :=
    match s_order_by select with
    | Some (col, desc) =>
      match position (bare_col col) columns with Some idx => stable_sort (num_before desc idx) rows | None => rows end
    | None => stable_sort (fun a b => match row_cmp a b with Lt => true | _ => false end) rows
    end in
  Ok (columns, apply_limit (s_limit select) rows).

Definition finalize_rows (select : Select) (rows : list row) : list bytes * list row :=
  let rows := if s_distinct select then retain_first ∅ rows else rows in
  let rows :=
    match s_order_by select with
    | Some (col, desc) =>
      match position (bare_col col) (plain_columns select) with Some idx => stable_sort (num_before desc idx) rows | None => rows end
    | None => rows
    end in
  (plain_columns select, apply_limit (s_limit select) rows).
End Dist.

(** * Splitting a query over members

    A member's partial is a fold over the occurrences of its entries, group by group.  On integer
    columns, merging the partials of any split of the entries gives exactly the partial of all of
    them; on doubles the sums of two splits differ. *)

(** ** Accumulators of integers *)

Definition zsum (zs : list Z) : Z := foldr Z.add 0 zs.
Definition zabs (zs : list Z) : Z := zsum (map Z.abs zs).
Definition zfold (f : Z -> Z -> Z) (zs : list Z) : Z := match zs with [] => 0 | z :: r => foldl f z r end.

(** The accumulator of [n] rows of which those with a value have [zs]. *)
Definition acc_ints (n : Z) (zs : list Z) : Acc :=
  mkAcc (wrap_i64 n) (f64_of_int (zsum zs)) (wrap_i64 (blen zs)) (f64_of_int (zfold Z.min zs)) (f64_of_int (zfold Z.max zs))
    (match zs with [] => false | _ => true end).

Definition small (zs : list Z) : Prop := zabs zs < 2 ^ 53.

Lemma zsum_app zs ws : zsum (zs ++ ws) = zsum zs + zsum ws.
Proof. unfold zsum. induction zs as [| z zs IH]; cbn; lia. Qed.

Lemma zabs_app zs ws : zabs (zs ++ ws) = zabs zs + zabs ws.
Proof. unfold zabs. by rewrite map_app, zsum_app. Qed.

Lemma zabs_nonneg zs : 0 <= zabs zs.
Proof. unfold zabs, zsum. induction zs as [| z zs IH]; cbn; lia. Qed.

Lemma zsum_bound zs : Z.abs (zsum zs) <= zabs zs.
Proof. unfold zabs, zsum. induction zs as [| z zs IH]; cbn in *; lia. Qed.

Lemma zabs_elem z zs : z ∈ zs -> Z.abs z <= zabs zs.
Proof.
  induction 1 as [z l | z y l _ IH]; cbn [zabs map zsum foldr] in *.
  - pose proof (zabs_nonneg l). unfold zabs, zsum in *. lia.
  - unfold zabs, zsum in *. lia.
Qed.

(** An operation that selects one of its arguments, like minimum and maximum. *)
Class Selects (f : Z -> Z -> Z) := {
  sel_one : forall a b, f a b = a \/ f a b = b;
  sel_assoc : forall a b c, f (f a b) c = f a (f b c)
}.
#[export] Instance min_selects : Selects Z.min.
Proof. split; lia. Qed.
#[export] Instance max_selects : Selects Z.max.
Proof. split; lia. Qed.

Section Select.
Context (f : Z -> Z -> Z) `{!Selects f}.

Lemma foldl_assoc a b zs : foldl f (f a b) zs = f a (foldl f b zs).
Proof. revert b. induction zs as [| z zs IH]; intros b; cbn; [done |]. by rewrite sel_assoc, IH. Qed.

Lemma zfold_app zs ws : zs <> [] -> ws <> [] -> zfold f (zs ++ ws) = f (zfold f zs) (zfold f ws).
Proof.
  destruct zs as [| z zs]; [done |]. destruct ws as [| w ws]; [done |]. intros _ _. cbn [zfold app].
  rewrite foldl_app. cbn [foldl]. by rewrite foldl_assoc.
Qed.

Lemma zfold_elem zs : zs <> [] -> zfold f zs ∈ zs.
Proof.
  destruct zs as [| z zs]; [done |]. intros _. cbn [zfold]. revert z. induction zs as [| y zs IH]; intros z; cbn; [by apply list_elem_of_here |].
  specialize (IH (f z y)). apply elem_of_cons in IH as [E | Hi]; [| set_solver].
  rewrite E. destruct (sel_one z y) as [-> | ->]; set_solver.
Qed.

Lemma zfold_bound zs : Z.abs (zfold f zs) <= zabs zs.
Proof. destruct zs as [| z zs]; [done |]. by apply zabs_elem, zfold_elem. Qed.
End Select.

Lemma wrap_add_wrap a b : wrap_i64 (wrap_i64 a + wrap_i64 b) = wrap_i64 (a + b).
Proof.
  unfold wrap_i64, wrap_s. apply f_equal2; [| done].
  set (M := 2 ^ 64). set (h := 2 ^ (64 - 1)).
  replace ((a + h) mod M - h + ((b + h) mod M - h) + h) with ((a + h) mod M + (b + h) mod M - h) by lia.
  rewrite <- Zminus_mod_idemp_l, <- Zplus_mod, Zminus_mod_idemp_l. f_equal. lia.
Qed.

Lemma acc_ints_app n m zs ws : small (zs ++ ws) -> acc_merge (acc_ints n zs) (acc_ints m ws) = acc_ints (n + m) (zs ++ ws).
Proof.
  unfold small. rewrite zabs_app. intros Hs. pose proof (zabs_nonneg zs). pose proof (zabs_nonneg ws).
  pose proof (zsum_bound zs). pose proof (zsum_bound ws). pose proof (zsum_bound (zs ++ ws)) as Hb. rewrite zabs_app, zsum_app in Hb.
  pose proof (zfold_bound Z.min zs). pose proof (zfold_bound Z.min ws). pose proof (zfold_bound Z.max zs). pose proof (zfold_bound Z.max ws).
  unfold acc_merge, acc_ints. cbn [a_rows a_sum a_nvals a_min a_max a_seen].
  rewrite !wrap_add_wrap, f64_add_int, <- zsum_app, <- blen_app by lia.
  destruct zs as [| z zs]; [by destruct ws |]. destruct ws as [| w ws]; [by rewrite app_nil_r |].
  rewrite f64_min_int, f64_max_int, <- !zfold_app by (done || lia || apply _). done.
Qed.

Lemma acc_ints_row n zs : add_row (acc_ints n zs) = acc_ints (n + 1) zs.
Proof.
  unfold add_row, acc_ints. cbn [a_rows a_sum a_nvals a_min a_max a_seen]. f_equal.
  change 1 with (wrap_i64 1) at 1. apply wrap_add_wrap.
Qed.

Lemma acc_ints_value n zs z : small (zs ++ [z]) -> add_value (f64_of_int z) (acc_ints n zs) = acc_ints n (zs ++ [z]).
Proof.
  intros Hs. pose proof (acc_ints_app n 0 zs [z] Hs) as Hm. rewrite Z.add_0_r in Hm. rewrite <- Hm.
  unfold acc_merge, add_value, acc_ints. cbn [a_rows a_sum a_nvals a_min a_max a_seen zsum foldr zfold foldl blen length].
  rewrite wrap_add_wrap, !Z.add_0_r. change (wrap_i64 (Z.of_nat 1)) with 1. by destruct zs.
Qed.

Section Dist.
Context (extract : bytes -> bytes -> FieldValue) (text_match : TextKind -> bytes -> bytes -> bool)
  (f64_to_string : Z -> bytes) (acc_iter : Partial -> list (row * list Acc)).
Hypothesis acc_iter_ok : forall m, acc_iter m ≡ₚ map_to_list m.
Context (select : Select) (key_col : option bytes).

#[local] Abbreviation local_partial := (local_partial extract text_match f64_to_string select).
#[local] Abbreviation merge := (merge acc_iter).
#[local] Abbreviation occ := (entry * (cell * cell))%type.

(** ** The partial of a member *)

Definition part_key (o : occ) : row := group_key extract f64_to_string select key_col o.1 o.2.
Definition acc_of (os : list occ) (ks : AggKind * bytes) : Acc := foldl (fun a o => acc_step extract o.1 ks a) acc_default os.
Definition accs_of (os : list occ) : list Acc := map (acc_of os) (agg_cols select).
Definition partial_of (os : list occ) : Partial := accs_of <$> group_by part_key os.

Lemma zip_with_map {A B} (f : B -> A -> B) (g : A -> B) l : zip_with f (map g l) l = map (fun x => f (g x) x) l.
Proof. induction l as [| x l IH]; [done |]. cbn. by rewrite IH. Qed.

Lemma accs_of_snoc os o : accs_of (os ++ [o]) = zip_with (fun a ks => acc_step extract o.1 ks a) (accs_of os) (agg_cols select).
Proof. unfold accs_of. rewrite zip_with_map. apply map_ext. intros ks. unfold acc_of. by rewrite foldl_app. Qed.

Lemma accs_of_nil : accs_of [] = replicate (length (agg_cols select)) acc_default.
Proof. unfold accs_of. generalize (agg_cols select). induction l as [| x l IH]; [done |]. cbn. by f_equal. Qed.

Lemma add_occurrence_push e m wse :
  add_occurrence extract f64_to_string select key_col e (accs_of <$> m) wse = accs_of <$> push part_key m (e, wse).
Proof.
  unfold add_occurrence, push, part_key. cbn [fst snd]. cbv zeta. rewrite fmap_insert, lookup_fmap. f_equal.
  destruct (m !! _) as [os |]; cbn [fmap option_fmap option_map default]; rewrite accs_of_snoc; [done |]. by rewrite accs_of_nil.
Qed.

Lemma local_fold es l m :
  map_outcome (fun e => bs ← dist_buckets extract select e; Ok (spread e bs)) es = Ok l ->
  fold_outcome (add_entry extract f64_to_string select key_col) (accs_of <$> m) es = Ok (accs_of <$> foldl (push part_key) m (concat l)).
Proof.
  revert l m. induction es as [| e es IH]; intros l m; cbn [map_outcome fold_outcome]; [by intros [= <-] |].
  replace (add_entry extract f64_to_string select key_col (accs_of <$> m) e) with
    (buckets ← dist_buckets extract select e; Ok (foldl (add_occurrence extract f64_to_string select key_col e) (accs_of <$> m) buckets)) by done.
  destruct (dist_buckets extract select e) as [bs |]; cbn [mbind outcome_bind]; [| done].
  destruct (map_outcome _ es) as [l' |] eqn:El; cbn [mbind outcome_bind]; [| done]. intros [= <-]. cbn [concat]. rewrite foldl_app.
  rewrite <- (IH l') by done. f_equal. clear. revert m. induction bs as [| b bs IH]; intros m; [done |]. cbn [foldl spread map].
  by rewrite <- IH, add_occurrence_push.
Qed.

Definition dist_occurrences (entries : list entry) : outcome (list occ) :=
  occurrences_with (dist_buckets extract select) (matched_entries extract text_match select entries).

Lemma local_partial_of entries os : dist_occurrences entries = Ok os -> local_partial entries key_col = Ok (partial_of os).
Proof.
  unfold dist_occurrences, occurrences_with. destruct (map_outcome _ _) as [l |] eqn:El; cbn [mbind outcome_bind]; [| done]. intros [= <-].
  pose proof (local_fold _ l ∅ El) as Hf. by rewrite fmap_empty in Hf.
Qed.

(** ** Integer columns *)

Definition ints_of (ks : AggKind * bytes) (o : occ) : list Z :=
  if decide (ks.1 = KCount) then [] else match extract o.1.2 ks.2 with I32 z | I64 z => [z] | _ => [] end.

Definition ints (ks : AggKind * bytes) (os : list occ) : list Z := concat (map (ints_of ks) os).

(** No aggregated column holds doubles, and what a column holds adds up to less than 2^53. *)
Definition integral (os : list occ) : Prop :=
  forall ks, ks ∈ agg_cols select ->
    Forall (fun o => is_f64 (extract o.1.2 ks.2) = false) os /\ small (ints ks os).

Lemma ints_app ks os ps : ints ks (os ++ ps) = ints ks os ++ ints ks ps.
Proof. unfold ints. by rewrite map_app, concat_app. Qed.

Lemma small_app_l zs ws : small (zs ++ ws) -> small zs.
Proof. unfold small. rewrite zabs_app. pose proof (zabs_nonneg ws). lia. Qed.

Lemma small_app_r zs ws : small (zs ++ ws) -> small ws.
Proof. unfold small. rewrite zabs_app. pose proof (zabs_nonneg zs). lia. Qed.

Lemma acc_of_ints ks os :
  Forall (fun o => is_f64 (extract o.1.2 ks.2) = false) os -> small (ints ks os) -> acc_of os ks = acc_ints (blen os) (ints ks os).
Proof.
  induction os as [| o os IH] using rev_ind; [done |]. intros Hd Hs. apply Forall_app in Hd as [Hd Ho]. apply Forall_cons in Ho as [Ho _].
  rewrite ints_app in *. unfold acc_of in *. rewrite foldl_app. cbn [foldl]. rewrite IH by (done || exact (small_app_l _ _ Hs)).
  unfold acc_step. cbv zeta. rewrite acc_ints_row, blen_app. change (blen [o]) with 1.
  change (ints ks [o]) with (ints_of ks o ++ []) in *. rewrite app_nil_r in *. unfold ints_of in *. destruct (decide (ks.1 = KCount)); [by rewrite app_nil_r |].
  revert Ho Hs. destruct (extract o.1.2 ks.2); cbn [numeric]; intros Ho Hs; try (by rewrite app_nil_r); try done; by apply acc_ints_value.
Qed.

(** The items of a part of the occurrences. *)
Lemma members_small ks k os : small (ints ks os) -> small (ints ks (members_of part_key k os)).
Proof.
  unfold small. intros H. assert (zabs (ints ks (members_of part_key k os)) <= zabs (ints ks os)) as Hle; [| lia]. clear H.
  induction os as [| o os IH]; [done |]. unfold members_of in *. rewrite filter_cons. change (o :: os) with ([o] ++ os).
  rewrite (ints_app ks [o] os), zabs_app. pose proof (zabs_nonneg (ints ks [o])). case_decide; [| lia].
  change (o :: filter ?P os) with ([o] ++ filter P os). rewrite ints_app, zabs_app. lia.
Qed.

Lemma merge_accs_of os ps :
  integral (os ++ ps) -> merge_accs (accs_of os) (accs_of ps) = accs_of (os ++ ps).
Proof.
  unfold integral, accs_of. induction (agg_cols select) as [| ks l IH]; intros Hi; [done |]. cbn [map merge_accs]. f_equal.
  - destruct (Hi ks) as [Hd Hs]; [by apply list_elem_of_here |]. apply Forall_app in Hd as [Hd1 Hd2]. rewrite ints_app in Hs.
    rewrite !acc_of_ints; [| by apply Forall_app | by rewrite ints_app | done | exact (small_app_r _ _ Hs) | done | exact (small_app_l _ _ Hs)].
    rewrite ints_app, blen_app. by apply acc_ints_app.
  - apply IH. intros ks' Hks. apply Hi. by right.
Qed.

(** ** Merging *)

Lemma fold_merge_lookup (l : list (row * list Acc)) out k :
  NoDup (map fst l) ->
  foldl merge_into out l !! k
  = match (list_to_map l : Partial) !! k with
    | Some accs => Some (merge_accs (default (replicate (length accs) acc_default) (out !! k)) accs)
    | None => out !! k
    end.
Proof.
  revert out. induction l as [| [j accs] l IH]; intros out Hn; [done |]. cbn [map] in Hn. apply NoDup_cons in Hn as [Hj Hn].
  cbn [foldl list_to_map foldr uncurry]. rewrite IH by done. unfold merge_into. cbn [fst snd].
  destruct (decide (j = k)) as [-> | Hne].
  - rewrite lookup_insert_eq. change (foldr (fun '(k0, v) => <[k0 := v]>) ∅ l) with (list_to_map l : Partial).
    by rewrite !(not_elem_of_list_to_map_1 l k), lookup_insert_eq.
  - by rewrite !lookup_insert_ne by done.
Qed.

Lemma merge_lookup out p k :
  foldl merge_into out (acc_iter p) !! k
  = match p !! k with
    | Some accs => Some (merge_accs (default (replicate (length accs) acc_default) (out !! k)) accs)
    | None => out !! k
    end.
Proof.
  assert (NoDup (map fst (acc_iter p))) as Hn by (rewrite acc_iter_ok; apply NoDup_fst_map_to_list).
  rewrite fold_merge_lookup by done. by rewrite (list_to_map_proper _ _ Hn (acc_iter_ok p)), list_to_map_to_list.
Qed.

Lemma partial_of_lookup os k :
  partial_of os !! k = match members_of part_key k os with [] => None | xs => Some (accs_of xs) end.
Proof. unfold partial_of. rewrite lookup_fmap, group_by_lookup. by destruct (members_of part_key k os). Qed.

Lemma members_app k os ps : members_of part_key k (os ++ ps) = members_of part_key k os ++ members_of part_key k ps.
Proof. apply filter_app. Qed.

Lemma integral_members k os : integral os -> integral (members_of part_key k os).
Proof.
  intros Hi ks Hks. destruct (Hi ks Hks) as [Hd Hs]. split; [| by apply members_small].
  rewrite Forall_forall in *. intros o [_ Ho]%list_elem_of_filter. by apply Hd.
Qed.

Lemma merge_step os ps : integral (os ++ ps) -> foldl merge_into (partial_of os) (acc_iter (partial_of ps)) = partial_of (os ++ ps).
Proof.
  intros Hi. apply map_eq. intros k. rewrite merge_lookup, !partial_of_lookup, members_app.
  pose proof (integral_members k _ Hi) as Hm. rewrite members_app in Hm. revert Hm.
  generalize (members_of part_key k os) as xs, (members_of part_key k ps) as ys. intros xs ys Hm.
  destruct ys as [| y ys]; [by rewrite app_nil_r |]. destruct xs as [| x xs]; cbn [default app].
  - f_equal. replace (length (accs_of (y :: ys))) with (length (agg_cols select)) by (symmetry; apply length_map).
    rewrite <- accs_of_nil. by apply merge_accs_of.
  - f_equal. by apply (merge_accs_of (x :: xs)).
Qed.

Lemma merge_parts oss : integral (concat oss) -> merge (map partial_of oss) = partial_of (concat oss).
Proof.
  intros Hi. unfold Distributed.merge.
  assert (forall os, integral (os ++ concat oss) ->
    foldl (fun out p => foldl merge_into out (acc_iter p)) (partial_of os) (map partial_of oss) = partial_of (os ++ concat oss)) as H.
  { clear Hi. induction oss as [| ps oss IH]; intros os Hi; cbn [map foldl concat]; [by rewrite app_nil_r |].
    rewrite app_assoc in *. cbn [concat] in Hi. rewrite app_assoc in Hi. rewrite merge_step; [by apply IH |].
    intros ks Hks. destruct (Hi ks Hks) as [Hd Hs]. rewrite ints_app in Hs. apply Forall_app in Hd as [Hd _]. split; [done |]. exact (small_app_l _ _ Hs). }
  specialize (H [] Hi). replace (partial_of []) with (∅ : Partial) in H by (symmetry; apply fmap_empty). exact H.
Qed.

Lemma occurrences_with_app_inv buckets es fs os :
  occurrences_with buckets (es ++ fs) = Ok os ->
  exists oe of', occurrences_with buckets es = Ok oe /\ occurrences_with buckets fs = Ok of' /\ os = oe ++ of'.
Proof.
  unfold occurrences_with. revert os. induction es as [| e es IH]; intros os; cbn [map_outcome app]; [by exists [], os |].
  destruct (buckets e) as [bs |]; cbn [mbind outcome_bind]; [| done].
  destruct (map_outcome _ (es ++ fs)) as [l |]; cbn [mbind outcome_bind] in *; [| done]. intros [= <-].
  destruct (IH _ eq_refl) as (oe & of' & He & Hf & E). destruct (map_outcome _ es) as [le |]; cbn [mbind outcome_bind] in *; [| done].
  injection He as <-. exists (spread e bs ++ concat le), of'. cbn [concat]. rewrite E, app_assoc. done.
Qed.

Lemma parts_occurrences parts os :
  dist_occurrences (concat parts) = Ok os ->
  exists oss, map_outcome dist_occurrences parts = Ok oss /\ os = concat oss.
Proof.
  revert os. induction parts as [| p parts IH]; intros os; [intros [= <-]; by exists [] |]. cbn [concat]. unfold dist_occurrences at 1.
  unfold matched_entries. rewrite filter_app. intros (oe & of' & He & Hf & ->)%occurrences_with_app_inv.
  destruct (IH of' Hf) as (oss & Ho & ->). exists (oe :: oss). split; [| done]. cbn [map_outcome].
  assert (dist_occurrences p = Ok oe) as -> by exact He. cbn [mbind outcome_bind]. by rewrite Ho.
Qed.

Lemma split_merge parts os :
  dist_occurrences (concat parts) = Ok os -> integral os ->
  exists ps, map_outcome (fun p => local_partial p key_col) parts = Ok ps
    /\ local_partial (concat parts) key_col = Ok (merge ps).
Proof.
  intros Ho Hi. rewrite (local_partial_of _ _ Ho). destruct (parts_occurrences parts os Ho) as (oss & Hp & ->).
  exists (map partial_of oss). rewrite merge_parts by done. split; [| done]. clear Hi Ho. revert oss Hp.
  induction parts as [| p parts IH]; intros oss; cbn [map_outcome]; [by intros [= <-] |].
  destruct (dist_occurrences p) as [op |] eqn:Ep; cbn [mbind outcome_bind]; [| done].
  destruct (map_outcome dist_occurrences parts) as [l |]; cbn [mbind outcome_bind]; [| done]. intros [= <-].
  rewrite (local_partial_of _ _ Ep). cbn [mbind outcome_bind]. by rewrite (IH l eq_refl).
Qed.
(** C25. However the entries of a map are split over members, merging their partials gives exactly the
    partial of one member that holds all of them: every count, sum, average, minimum and maximum of
    every group, as long as the aggregated columns hold integers that add up to less than 2^53. *)
Theorem split_then_merge parts os :
  dist_occurrences (concat parts) = Ok os -> integral os ->
  exists ps, map_outcome (fun p => local_partial p key_col) parts = Ok ps
    /\ local_partial (concat parts) key_col = Ok (merge ps).
Proof. apply split_merge. Qed.
End Dist.

(** ** Examples *)

(** Values are decimal integers, or a double given by name. *)
Definition tenth : Z := 0x3FB999999999999A.
Definition fifth : Z := 0x3FC999999999999A.
Definition three_tenths : Z := 0x3FD3333333333333.

Definition number_column (value field : bytes) : FieldValue :=
  if bool_decide (field = bstr "g") then VStr (bstr "x")
  else if bool_decide (value = bstr "0.1") then F64 tenth
  else if bool_decide (value = bstr "0.2") then F64 fifth
  else if bool_decide (value = bstr "0.3") then F64 three_tenths
  else match parse_i64 value with Some z => I64 z | None => VStr value end.

Definition sum_query : Select := mkSelect false [Col (bstr "g"); Sum (bstr "v"); Min (bstr "v")] false (bstr "m") None None None (Some [bstr "g"]) None None.

Definition entry_of (s : string) : entry := (bstr "k", bstr s).

Lemma split_then_merge_witness :
  exists ps, map_outcome (fun p => local_partial number_column no_match int_to_string sum_query p None) [[entry_of "10"; entry_of "-4"]; []; [entry_of "7"]] = Ok ps
    /\ local_partial number_column no_match int_to_string sum_query [entry_of "10"; entry_of "-4"; entry_of "7"] None = Ok (merge map_to_list ps).
Proof.
  destruct (split_then_merge number_column no_match int_to_string map_to_list (fun m => Permutation_refl _) sum_query None
    [[entry_of "10"; entry_of "-4"]; []; [entry_of "7"]] [(entry_of "10", (None, None)); (entry_of "-4", (None, None)); (entry_of "7", (None, None))]) as (ps & H1 & H2).
  - reflexivity.
  - intros ks Hks. apply list_elem_of_In in Hks. destruct Hks as [<- | [<- | []]]; (split; [by repeat constructor | by vm_compute]).
  - exists ps. by split.
Defined.

(** On doubles it does not: the sum of 0.1, 0.2 and 0.3 depends on which member holds them. *)
Theorem split_changes_double_sums :
  let total := mkSelect false [Sum (bstr "v")] false (bstr "m") None None None None None None in
  let sums (p : outcome Partial) := match p with Ok m => map a_sum <$> m !! [] | Panic => None end in
  let part := fun l => local_partial number_column no_match int_to_string total l None in
  sums (p1 ← part [entry_of "0.1"]; p2 ← part [entry_of "0.2"; entry_of "0.3"]; Ok (merge map_to_list [p1; p2]))
  <> sums (part [entry_of "0.1"; entry_of "0.2"; entry_of "0.3"]).
Proof. by vm_compute. Qed.

(** The minimum of a text column is its least value on one member, and NULL when the query is
    distributed. *)
Theorem distributed_text_minimum_is_null :
  let min_query := mkSelect false [Min (bstr "v")] false (bstr "m") None None None None None None in
  let entries := [entry_of "pear"; entry_of "apple"] in
  execute_with number_column no_match int_to_string decimal_f64 map_to_list new_service min_query entries [] None
    = Ok ([bstr "min(v)"], [[Some (bstr "apple")]])
  /\ (p ← local_partial number_column no_match int_to_string min_query entries None;
      finalize int_to_string decimal_f64 map_to_list min_query (merge map_to_list [p]))
     = Ok ([bstr "min(v)"], [[None]]).
Proof. by vm_compute. Qed.

(** A sum of 2^64 is printed as the largest 64-bit integer. *)
Lemma large_sum_saturates : trim int_to_string (f64_of_int (2 ^ 64)) = bstr "9223372036854775807".
Proof. by vm_compute. Qed.

(** ** Partials and rows on the wire *)

Definition cell_ok (s : cell) : Prop := match s with Some s => utf8_valid s = true /\ blen s < 2 ^ 32 | None => True end.
Definition cells_ok (r : row) : Prop := blen r < 2 ^ 32 /\ Forall cell_ok r.
Definition acc_ok (a : Acc) : Prop := is_i64 (a_rows a) /\ is_u64 (a_sum a) /\ is_i64 (a_nvals a) /\ is_u64 (a_min a) /\ is_u64 (a_max a).
Definition group_ok (g : row * list Acc) : Prop := cells_ok g.1 /\ blen g.2 < 2 ^ 32 /\ Forall acc_ok g.2.

Lemma rd_counted_put {A} (put : A -> bytes) get (ok : A -> Prop) xs r :
  (forall x r, ok x -> get (put x ++ r) = Some (x, r)) -> (forall x, (0 < length (put x))%nat) ->
  Forall ok xs -> blen xs < 2 ^ 32 ->
  rd_counted get (to_le 4 (blen xs) ++ concat (map put xs) ++ r) = Some (xs, r).
Proof.
  intros Hg Hp Hok Hl. pose proof (blen_nonneg xs). unfold rd_counted. rewrite get_u32_to_le by (unfold is_u32; lia). cbn [mbind option_bind].
  apply (rd_items_put put get ok); [done.. |]. rewrite length_app. pose proof (concat_put_length put xs Hp). lia.
Qed.

Lemma rd_opt_str_put s r : cell_ok s -> rd_opt_str (put_str s ++ r) = Some (s, r).
Proof.
  destruct s as [s |]; [| done]. intros [Hu Hl]. pose proof (blen_nonneg s). unfold rd_opt_str, put_str. cbn [app]. rewrite get_byte_cons. cbn [mbind option_bind].
  change (u8 (b8 1) =? 0) with false. cbv iota. change (to_le 4 (blen s) ++ s) with (put_lp 4 s). rewrite get_lp32_put_lp by (unfold is_u32; lia).
  cbn. by rewrite from_utf8_lossy_valid.
Qed.

Lemma put_str_length s : (0 < length (put_str s))%nat.
Proof. destruct s; cbn; lia. Qed.

Lemma rd_cells_put l r : cells_ok l -> rd_counted rd_opt_str (put_cells l ++ r) = Some (l, r).
Proof.
  intros [Hl Hc]. unfold put_cells. rewrite <- app_assoc.
  apply (rd_counted_put put_str rd_opt_str cell_ok); [apply rd_opt_str_put | apply put_str_length | done..].
Qed.

Lemma rd_acc_put a r : acc_ok a -> rd_acc (put_acc a ++ r) = Some (a, r).
Proof.
  destruct a as [rows sum nvals mn mx seen]. intros (H1 & H2 & H3 & H4 & H5). cbn [a_rows a_sum a_nvals a_min a_max] in *.
  unfold rd_acc, put_acc. cbn [a_rows a_sum a_nvals a_min a_max a_seen]. rewrite <- !app_assoc.
  rewrite get_i64_to_le by done. cbn [mbind option_bind]. rewrite get_u64_to_le by done. cbn [mbind option_bind].
  rewrite get_i64_to_le by done. cbn [mbind option_bind]. rewrite get_u64_to_le by done. cbn [mbind option_bind].
  rewrite get_u64_to_le by done. cbn. by rewrite u8_bool_bool_u8.
Qed.

Lemma rd_group_put g r : group_ok g -> rd_group (put_group g ++ r) = Some (g, r).
Proof.
  destruct g as [key accs]. intros (Hk & Hl & Ha). cbn [fst snd] in *. unfold rd_group, put_group. cbn [fst snd]. rewrite <- !app_assoc.
  rewrite rd_cells_put by done. cbn [mbind option_bind].
  rewrite (rd_counted_put put_acc rd_acc acc_ok); [done | apply rd_acc_put | | done..].
  intros a. unfold put_acc. rewrite length_app, length_to_le. lia.
Qed.

(** A partial sent to the coordinator is read back as it was, in whatever order its groups were
    written. *)
Theorem partial_roundtrip (p : Partial) groups :
  groups ≡ₚ map_to_list p -> Forall group_ok groups -> blen groups < 2 ^ 32 ->
  decode_partial (encode_partial groups) = Some p.
Proof.
  intros Hp Hok Hl. unfold decode_partial, encode_partial. rewrite <- (app_nil_r (concat (map put_group groups))).
  rewrite (rd_counted_put put_group rd_group group_ok); [| apply rd_group_put | | done..].
  - cbn [mbind option_bind]. f_equal. assert (NoDup (map fst groups)) as Hn by (rewrite Hp; apply NoDup_fst_map_to_list).
    rewrite <- (list_to_map_to_list p), <- (list_to_map_proper groups _ Hn Hp). clear Hp Hok Hl.
    assert (forall m : Partial, (forall k, k ∈ map fst groups -> m !! k = None) -> foldl (fun m g => <[g.1 := g.2]> m) m groups = list_to_map groups ∪ m) as H.
    { induction groups as [| [k v] l IH]; intros m Hm; [cbn; by rewrite map_empty_union |]. cbn [foldl fst snd].
      cbn [map] in Hn, Hm. apply NoDup_cons in Hn as [Hk Hn]. rewrite IH; [| done |].
      - cbn [list_to_map foldr uncurry]. rewrite <- insert_union_l, <- insert_union_r; [done |]. by apply not_elem_of_list_to_map_1.
      - intros j Hj. rewrite lookup_insert_ne; [apply Hm; by right |]. intros ->. done. }
    rewrite H by done. apply map_union_empty.
  - intros g. unfold put_group, put_cells. rewrite !length_app, length_to_le. lia.
Qed.

Lemma partial_roundtrip_witness :
  decode_partial (encode_partial [([Some (bstr "x"); None], [acc_ints 2 [3; -1]])]) = Some {[ [Some (bstr "x"); None] := [acc_ints 2 [3; -1]] ]}.
Proof.
  apply (partial_roundtrip {[ [Some (bstr "x"); None] := [acc_ints 2 [3; -1]] ]}); [by rewrite map_to_list_singleton | | done].
  apply Forall_singleton. split; [split; [done | by repeat constructor] | split; [done |]]. repeat constructor; cbn; done.
Defined.

(** Rows gathered from a member are read back as they were. *)
Lemma rows_roundtrip rows : blen rows < 2 ^ 32 -> Forall cells_ok rows -> decode_rows (encode_rows rows) = Some rows.
Proof.
  intros Hl Hr. unfold decode_rows, encode_rows. rewrite <- (app_nil_r (concat (map put_cells rows))).
  rewrite (rd_counted_put put_cells (rd_counted rd_opt_str) cells_ok); [done | apply rd_cells_put | | done..].
  intros r. unfold put_cells. rewrite length_app, length_to_le. lia.
Qed.
