(* ===== verification/Agg.v ===== *)
(** * Aggregators and projections (crates/query/src/agg.rs), scans (crates/query/src/lib.rs)

    The aggregators and projections a client sends, decoded from their serialized form, and their
    evaluation over the entries that matched.  Decoding trusts the lengths in the message. *)

From S2P Require Import Prelude Fixed Partition Text Double FieldValue Schema Extract QueryIndex QueryWire SqlExec Distributed.

Inductive AggregationType := ACount | ASum | AAvg | AMin | AMax.
Record Aggregator := mkAggregator { ag_ty : AggregationType; ag_attribute_path : option bytes }.

Definition aggregation_type (class_id : Z) : option AggregationType :=
  if class_id =? 4 then Some ACount
  else if bool_decide (class_id ∈ [1; 3; 7; 8; 9; 11; 13]) then Some ASum
  else if bool_decide (class_id ∈ [0; 2; 6; 10; 12; 16]) then Some AAvg
  else if class_id =? 14 then Some AMax
  else if class_id =? 15 then Some AMin
  else None.

(** The attribute that starts at offset 10 of the payload: [14 + len] wraps, and slicing panics when
    its end is before its start. *)
Definition attribute_at (payload : bytes) : outcome (option bytes) :=
  len ← read_i32_be payload 10;
  let stop := wrap_u64 (14 + wrap_u64 len) in
  if stop <=? blen payload then s ← slice_range payload 14 stop; Ok (Some (from_utf8_lossy s)) else Ok None.

Definition decode_aggregator (data : bytes) : outcome (option Aggregator) :=
  if blen data <? 17 then Ok None else
  let payload := drop 8 data in
  b0 ← index payload 0;
  if negb (u8 b0 =? 1) then Ok None else
  class_id ← read_i32_be payload 5;
  match aggregation_type class_id with
  | None => Ok None
  | Some ty =>
    is_present ← index payload 9;
    attribute_path ←
      (if u8 is_present =? 0 then Ok None
       else if 14 <=? blen payload then attribute_at payload else Ok None);
    Ok (Some (mkAggregator ty attribute_path))
  end.

Definition extract_attribute_from_projection (data : bytes) : outcome (option bytes) :=
  if blen data <? 12 then Ok None else
  let payload := drop 8 data in
  b0 ← index payload 0;
  if (u8 b0 =? 1) && (15 <=? blen payload) then
    is_present ← index payload 9;
    if u8 is_present =? 0 then Ok None else attribute_at payload
  else Ok None.

Section Evaluate.
(** The extractor at the server's schemas. *)
Context (extract : bytes -> bytes -> FieldValue).

Definition execute_aggregation (agg : Aggregator) (entries : list entry) : FieldValue :=
  let attr := default [] (ag_attribute_path agg) in
  let values := map (fun e : entry => extract e.2 attr) entries in
  match ag_ty agg with
  | ACount => I64 (blen (match attr with [] => values | _ => filter (fun v => eqb v Null = false) values end))
  | ASum => match attr with [] => Null | _ => match sum_values values with Some s => F64 s | None => Null end end
  | AAvg => match attr with [] => Null | _ => match avg_values values with Some s => F64 s | None => Null end end
  | AMin => match attr with [] => Null | _ => default Null (foldl (extreme Lt) None values) end
  | AMax => match attr with [] => Null | _ => default Null (foldl (extreme Gt) None values) end
  end.

Definition execute_projection (attribute_path : bytes) (entries : list entry) : list bytes :=
  map (fun e : entry => encode_scalar (extract e.2 attribute_path)) entries.
End Evaluate.

(** ** Facts *)

Lemma sum_of_integers zs : small zs -> foldl f64_add 0 (map f64_of_int zs) = f64_of_int (zsum zs).
Proof.
  induction zs as [| z zs IH] using rev_ind; [done |]. unfold small. rewrite zabs_app, zsum_app, map_app, foldl_app. intros Hs.
  pose proof (zabs_nonneg [z]). pose proof (zabs_nonneg zs). pose proof (zsum_bound zs). cbn [map foldl].
  rewrite IH by (unfold small; lia). replace (zsum [z]) with z by (cbn; lia). assert (Z.abs z <= zabs [z]) by (cbn; lia).
  rewrite f64_add_int by lia. done.
Qed.

Lemma extreme_of_integers better (f : Z -> Z -> Z) z zs :
  (forall a b, match Z.compare b a, better with Lt, Lt | Gt, Gt => b | _, _ => a end = f a b) ->
  foldl (extreme better) (Some (I64 z)) (map I64 zs) = Some (I64 (foldl f z zs)).
Proof.
  intros Hf. revert z. induction zs as [| y zs IH]; intros z; [done |]. cbn [map foldl]. rewrite <- IH. f_equal. cbn.
  rewrite <- Hf. by destruct (y ?= z), better.
Qed.

Lemma numeric_integers zs : omap numeric (map I64 zs) = map f64_of_int zs.
Proof. induction zs as [| z zs IH]; [done |]. cbn. by rewrite IH. Qed.

(** Over entries whose attribute holds 64-bit integers that add up to less than 2^53, the
    aggregators count, add, and find the extremes exactly. *)
Theorem aggregates_of_integers extract attr entries zs :
  attr <> [] -> zs <> [] -> small zs -> map (fun e : entry => extract e.2 attr) entries = map I64 zs ->
  let run ty := execute_aggregation extract (mkAggregator ty (Some attr)) entries in
  run ACount = I64 (blen zs) /\ run ASum = F64 (f64_of_int (zsum zs))
  /\ run AMin = I64 (zfold Z.min zs) /\ run AMax = I64 (zfold Z.max zs).
Proof.
  intros Ha Hz Hs Hv. unfold execute_aggregation. cbn [ag_ty ag_attribute_path]. change (default [] (Some attr)) with attr. cbv zeta. rewrite Hv.
  destruct attr as [| x attr]; [done |]. destruct zs as [| z zs]; [done |]. split_and!.
  - f_equal. assert (filter (fun v => eqb v Null = false) (map I64 (z :: zs)) = map I64 (z :: zs)) as ->.
    { clear. generalize (z :: zs). intros l. induction l as [| y l IH]; [done |]. cbn [map]. rewrite filter_cons, decide_True by done. by rewrite IH. }
    unfold blen. by rewrite length_map.
  - unfold sum_values. rewrite numeric_integers. cbn [map]. by rewrite <- (sum_of_integers (z :: zs)).
  - cbn [map foldl zfold]. change (extreme Lt None (I64 z)) with (Some (I64 z)).
    rewrite (extreme_of_integers Lt Z.min); [done |]. intros a b. destruct (Z.compare_spec b a); lia.
  - cbn [map foldl zfold]. change (extreme Gt None (I64 z)) with (Some (I64 z)).
    rewrite (extreme_of_integers Gt Z.max); [done |]. intros a b. destruct (Z.compare_spec b a); lia.
Qed.

Lemma aggregates_of_integers_witness :
  let extract (v _ : bytes) := I64 (blen v) in
  execute_aggregation extract (mkAggregator ASum (Some (bstr "n"))) [(bstr "k", bstr "abc"); (bstr "l", bstr "x")] = F64 (f64_of_int 4).
Proof.
  apply (aggregates_of_integers (fun v _ => I64 (blen v)) (bstr "n") [(bstr "k", bstr "abc"); (bstr "l", bstr "x")] [3; 1]); by vm_compute.
Defined.

(** A message of seventeen bytes, which the length check admits, has no presence byte: decoding it
    panics.  So does a negative attribute length. *)
Theorem short_aggregator_panics :
  decode_aggregator (repeat (b8 0) 8 ++ [b8 1; b8 0; b8 0; b8 0; b8 0; b8 0; b8 0; b8 0; b8 4]) = Panic
  /\ extract_attribute_from_projection (repeat (b8 0) 8 ++ [b8 1] ++ repeat (b8 1) 9 ++ repeat (b8 255) 4 ++ [b8 0]) = Panic.
Proof. by vm_compute. Qed.
