(* ===== verification/Security.v ===== *)
(** * Authentication and authorization (crates/security)

    Permissions (permission.rs), principals (principal.rs), the classification of client messages
    (optable.rs), credentials (credential.rs), the identity provider (identity.rs), the security
    configuration (config.rs) and the context of a node (lib.rs). *)

From S2P Require Import Prelude Text.

(** ** Permissions *)

Inductive ResourceType :=
| RMap | RMultiMap | RQueue | RList | RSet | RRingbuffer | RTopic | RPnCounter | RLock | RSql | RJob | RCluster.
Inductive Action := Create | Destroy | Read | Put | Remove | Listen | ActLock | Offer | Poll | Admin.

#[global] Instance ResourceType_eq_dec : EqDecision ResourceType.
Proof. solve_decision. Defined.
#[global] Instance Action_eq_dec : EqDecision Action.
Proof. solve_decision. Defined.

(** The first value of a table whose key is [x]. *)
Fixpoint assoc {A} (x : bytes) (l : list (bytes * A)) : option A :=
  match l with [] => None | (y, a) :: l' => if decide (x = y) then Some a else assoc x l' end.

Definition resource_types : list (bytes * ResourceType) :=
  [(bstr "map", RMap); (bstr "multimap", RMultiMap); (bstr "queue", RQueue); (bstr "list", RList); (bstr "set", RSet);
   (bstr "ringbuffer", RRingbuffer); (bstr "topic", RTopic); (bstr "pncounter", RPnCounter); (bstr "lock", RLock);
   (bstr "sql", RSql); (bstr "job", RJob); (bstr "cluster", RCluster)].

Definition parse_resource_type (s : bytes) : option ResourceType := assoc (to_ascii_lowercase s) resource_types.

(** [self as u32] *)
Definition action_ix (a : Action) : Z :=
  match a with
  | Create => 0 | Destroy => 1 | Read => 2 | Put => 3 | Remove => 4 | Listen => 5 | ActLock => 6 | Offer => 7 | Poll => 8 | Admin => 9
  end.
Definition bit (a : Action) : Z := Z.shiftl 1 (action_ix a).

Abbreviation ActionSet := Z (only parsing).

Definition as_empty : ActionSet := 0.
Definition as_of (a : Action) : ActionSet := bit a.
Definition as_all : ActionSet :=
  foldl Z.lor (bit Create) (map bit [Destroy; Read; Put; Remove; Listen; ActLock; Offer; Poll; Admin]).
Definition with_action (s : ActionSet) (a : Action) : ActionSet := Z.lor s (bit a).
Definition as_union (s t : ActionSet) : ActionSet := Z.lor s t.
Definition as_contains (s : ActionSet) (a : Action) : bool :=
  negb (Z.land s (bit a) =? 0) || negb (Z.land s (bit Admin) =? 0).

Definition action_tokens : list (bytes * ActionSet) :=
  [(bstr "all", as_all); (bstr "create", as_of Create); (bstr "destroy", as_of Destroy); (bstr "read", as_of Read);
   (bstr "put", as_of Put); (bstr "remove", as_of Remove); (bstr "listen", as_of Listen); (bstr "lock", as_of ActLock);
   (bstr "offer", as_of Offer); (bstr "poll", as_of Poll); (bstr "admin", as_of Admin)].

Definition parse_action (s : bytes) : option ActionSet := assoc (to_ascii_lowercase s) action_tokens.

Fixpoint parse_actions (set : ActionSet) (tokens : list bytes) : option ActionSet :=
  match tokens with
  | [] => Some set
  | t :: ts => a ← parse_action t; parse_actions (as_union set a) ts
  end.
Definition parse_list (tokens : list bytes) : option ActionSet := parse_actions as_empty tokens.

Record Permission := mkPermission { pm_resource_type : ResourceType; pm_name : bytes; pm_actions : ActionSet }.

Definition star : byte := b8 42.

Definition name_matches (pattern name : bytes) : bool :=
  if decide (pattern = [star]) then true
  else match strip_suffix star pattern with
       | Some prefix => starts_with prefix name
       | None => bool_decide (pattern = name)
       end.

(** ** Principals *)

Record Principal := mkPrincipal { pr_name : bytes; grants : list Permission; is_admin : bool }.

Definition empty_principal (name : bytes) : Principal := mkPrincipal name [] false.
Definition anonymous_full : Principal := mkPrincipal (bstr "anonymous") [] true.

Definition authorize (p : Principal) (rt : ResourceType) (name : bytes) (action : Action) : bool :=
  if is_admin p then true
  else existsb (fun g => bool_decide (pm_resource_type g = rt) && as_contains (pm_actions g) action && name_matches (pm_name g) name)
         (grants p).

(** The common name of a certificate: the last attribute that looks like one. *)
Definition CN_OID : bytes := map b8 [0x06; 0x03; 0x55; 0x04; 0x03].

Definition cn_at (der : bytes) (i : nat) : option bytes :=
  if decide (take 5 (drop i der) = CN_OID) then
    len ← u8 <$> der !! (i + 6)%nat;
    if (len <? 128) && (Z.of_nat i + 7 + len <=? blen der) then from_utf8 (take (Z.to_nat len) (drop (i + 7) der)) else None
  else None.

Fixpoint scan_cn (n : nat) (i : nat) (der : bytes) (found : option bytes) : option bytes :=
  match n with
  | O => found
  | S n' => scan_cn n' (S i) der (match cn_at der i with Some s => Some s | None => found end)
  end.

(** [i + 7 <= der.len()] holds for the first [der.len() - 6] positions. *)
Definition cn_from_cert_der (der : bytes) : option bytes := scan_cn (length der - 6) 0 der None.

(** ** The classification of messages *)

Inductive Decision_ := DData (rt : ResourceType) (a : Action) | Infra | AdminOnly | Unknown.

Definition one_of (x : Z) (l : list Z) : bool := existsb (Z.eqb x) l.

Definition coarse_action : Action := Put.

Definition map_action (msg_type : Z) : Action :=
  if one_of msg_type [66048; 67072; 67328; 76288; 76544; 70144; 74496; 74240; 74752; 75008; 75264; 75520; 75776; 80640;
                      80896; 87552; 87808; 81152] then Read
  else if one_of msg_type [65792; 69120; 66560; 76800; 76032; 77312] then Put
  else if one_of msg_type [66304; 67840; 77056] then Remove
  else if one_of msg_type [69632; 69888; 70400; 78592] then ActLock
  else if one_of msg_type [71936; 71424; 72448; 81664] then Listen
  else Put.

Definition classify (msg_type : Z) : Decision_ :=
  let service := Z.shiftr msg_type 16 in
  if service =? 1 then DData RMap (map_action msg_type)
  else if one_of service [13; 14; 19] then DData RMap coarse_action
  else if service =? 2 then DData RMultiMap coarse_action
  else if service =? 3 then DData RQueue coarse_action
  else if service =? 4 then DData RTopic coarse_action
  else if service =? 5 then DData RList coarse_action
  else if service =? 6 then DData RSet coarse_action
  else if service =? 23 then DData RRingbuffer coarse_action
  else if service =? 29 then DData RPnCounter coarse_action
  else if service =? 33 then DData RSql coarse_action
  else if service =? 8 then DData RJob coarse_action
  else if one_of service [0; 21; 28] then Infra
  else if service =? 32 then AdminOnly
  else Unknown.

(** ** Credentials *)

(** The key derivation of the [pbkdf2] crate: the password, the salt and the number of iterations
    give 32 bytes. *)
Class Pbkdf2 := { pbkdf2_hmac : bytes -> bytes -> Z -> bytes }.

Definition DEFAULT_ITERATIONS : Z := 600000.

Record CredentialHash := mkCredential { salt : bytes; iterations : Z; hash : bytes }.

(** [u8::from_str_radix(s, 16)] of two characters: a plus sign counts as one. *)
Definition parse_hex_u8 (s : bytes) : option Z :=
  match s with
  | [a; b] =>
    if decide (a = b8 43) then hex_digit b
    else x ← hex_digit a; y ← hex_digit b; Some (16 * x + y)
  | _ => None
  end.

Fixpoint hex_bytes (n i : nat) (s : bytes) : option bytes :=
  match n with
  | O => Some []
  | S n' =>
    two ← str_get s (i * 2) (i * 2 + 2); v ← parse_hex_u8 two;
    rest ← hex_bytes n' (S i) s; Some (b8 v :: rest)
  end.
Definition hex_to_bytes (n : nat) (s : bytes) : option bytes :=
  if decide (length s = n * 2)%nat then hex_bytes n 0 s else None.

Definition bytes_to_hex (b : bytes) : bytes := flat_map (fun x => [to_hex_digit (u8 x / 16); to_hex_digit (u8 x mod 16)]) b.

Record CredentialConfig := mkCredentialConfig { salt_hex : bytes; hash_hex : bytes; cc_iterations : Z }.

Definition resolve (c : CredentialConfig) : option CredentialHash :=
  s ← hex_to_bytes 16 (salt_hex c); h ← hex_to_bytes 32 (hash_hex c); Some (mkCredential s (cc_iterations c) h).

(** ** The configuration *)

Record PermissionConfig := mkPermissionConfig { pc_resource_type : bytes; pc_name : bytes; pc_actions : list bytes }.
Record PrincipalJson := mkPrincipalJson {
  pj_name : bytes; pj_admin : bool; pj_credential : CredentialConfig; pj_permissions : list PermissionConfig }.

Inductive ConfigError := Json (s : bytes) | BadCredential (s : bytes) | BadPermission (s : bytes).

Record StaticIdentityProvider := mkProvider {
  principals : gmap bytes (CredentialHash * Principal);
  anonymous : Principal;
  require_auth : bool
}.

Definition open_provider : StaticIdentityProvider := mkProvider ∅ anonymous_full false.

Section Provider.
Context {K : Pbkdf2}.
(** What [serde_json] makes of a configuration text, and the rendering of a list of strings, which
    only an error message shows. *)
Context (from_json : bytes -> bytes + list PrincipalJson) (debug : list bytes -> bytes).

Definition hash_password (password salt : bytes) (iterations : Z) : bytes := pbkdf2_hmac password salt iterations.

Definition new_credential (password salt : bytes) (iterations : Z) : CredentialHash :=
  mkCredential salt iterations (hash_password password salt iterations).

(** [ct_eq]: equality, in constant time. *)
Definition verify (c : CredentialHash) (password : bytes) : bool :=
  bool_decide (hash_password password (salt c) (iterations c) = hash c).

Fixpoint load_grants (ps : list PermissionConfig) : ConfigError + list Permission :=
  match ps with
  | [] => inr []
  | p :: ps' =>
    match parse_resource_type (pc_resource_type p) with
    | None => inl (BadPermission (pc_resource_type p))
    | Some rt =>
      match parse_list (pc_actions p) with
      | None => inl (BadPermission (debug (pc_actions p)))
      | Some actions =>
        match load_grants ps' with
        | inl e => inl e
        | inr l => inr (mkPermission rt (pc_name p) actions :: l)
        end
      end
    end
  end.

Fixpoint load_principals (l : list PrincipalJson) (m : gmap bytes (CredentialHash * Principal)) :
    ConfigError + gmap bytes (CredentialHash * Principal) :=
  match l with
  | [] => inr m
  | pj :: l' =>
    match resolve (pj_credential pj) with
    | None => inl (BadCredential (pj_name pj))
    | Some cred =>
      match load_grants (pj_permissions pj) with
      | inl e => inl e
      | inr gs => load_principals l' (<[pj_name pj := (cred, mkPrincipal (pj_name pj) gs (pj_admin pj))]> m)
      end
    end
  end.

Definition load_provider (json : bytes) : ConfigError + StaticIdentityProvider :=
  match from_json json with
  | inl e => inl (Json e)
  | inr cfg =>
    match load_principals cfg ∅ with
    | inl e => inl e
    | inr m => inr (mkProvider m (empty_principal (bstr "anonymous")) true)
    end
  end.

(** ** Authentication *)

Definition authenticate (p : StaticIdentityProvider) (user pass : option bytes) : option Principal :=
  match user with
  | None => if require_auth p then None else Some (anonymous p)
  | Some name =>
    '(cred, principal) ← principals p !! name;
    if verify cred (default [] pass) then Some principal else None
  end.

Definition authenticate_cn (p : StaticIdentityProvider) (cn : bytes) : option Principal := snd <$> principals p !! cn.

(** [SecurityContext::authenticate_cert] *)
Definition authenticate_cert (p : StaticIdentityProvider) (cert_der : bytes) : option Principal :=
  cn ← cn_from_cert_der cert_der; authenticate_cn p cn.
End Provider.

(** * What a security configuration permits *)

(** ** Sets of actions *)

Lemma land_bit s n : 0 <= n -> negb (Z.land s (Z.shiftl 1 n) =? 0) = Z.testbit s n.
Proof.
  intros Hn. rewrite Z.shiftl_1_l. destruct (Z.testbit s n) eqn:E.
  - apply negb_true_iff, Z.eqb_neq. intros H. apply (f_equal (fun x => Z.testbit x n)) in H.
    rewrite Z.land_spec, E, Z.pow2_bits_true, Z.bits_0 in H by done. done.
  - apply negb_false_iff, Z.eqb_eq, Z.bits_inj'. intros m Hm. rewrite Z.land_spec, Z.bits_0.
    destruct (decide (m = n)) as [-> | Hne]; [by rewrite E |]. rewrite Z.pow2_bits_false by lia. apply andb_false_r.
Qed.

Definition action_in (s : ActionSet) (a : Action) : bool := Z.testbit s (action_ix a).

Lemma as_contains_in s a : as_contains s a = action_in s a || action_in s Admin.
Proof. unfold as_contains, bit, action_in. rewrite !land_bit by (by destruct a). done. Qed.

Definition action_name (a : Action) : bytes :=
  match a with
  | Create => bstr "create" | Destroy => bstr "destroy" | Read => bstr "read" | Put => bstr "put" | Remove => bstr "remove"
  | Listen => bstr "listen" | ActLock => bstr "lock" | Offer => bstr "offer" | Poll => bstr "poll" | Admin => bstr "admin"
  end.

(** The token names the action, or all of them. *)
Definition token_names (t : bytes) (a : Action) : Prop := to_ascii_lowercase t ∈ [bstr "all"; action_name a].

Lemma assoc_elem {A} x (l : list (bytes * A)) a : assoc x l = Some a -> (x, a) ∈ l.
Proof. induction l as [| [y b] l IH]; cbn; [done |]. case_decide; [intros [= ->]; subst; left | intros; right; auto]. Qed.

Lemma exists_elem_cons {A} (P : A -> Prop) x l : (exists y, y ∈ x :: l /\ P y) <-> P x \/ exists y, y ∈ l /\ P y.
Proof.
  split.
  - intros (y & [-> | Hy]%elem_of_cons & HP); [by left | right; eauto].
  - intros [? | (y & ? & ?)]; [exists x; by split; [left |] | exists y; split; [by right | done]].
Qed.

Lemma parse_action_names t s a : parse_action t = Some s -> action_in s a = true <-> token_names t a.
Proof.
  unfold parse_action, token_names. intros H%assoc_elem. revert H. generalize (to_ascii_lowercase t). intros x.
  intros H. unfold action_tokens in H. rewrite !elem_of_cons, elem_of_nil in H.
  rewrite <- (bool_decide_eq_true (_ ∈ _)). repeat destruct H as [[= -> ->] | H]; [.. | done]; by destruct a; vm_compute; split.
Qed.

Lemma parse_actions_names a toks : forall s0 s,
  parse_actions s0 toks = Some s -> action_in s a = true <-> action_in s0 a = true \/ exists t, t ∈ toks /\ token_names t a.
Proof.
  induction toks as [| t toks IH]; intros s0 s; cbn [parse_actions].
  - intros [= <-]. split; [by left |]. intros [? | (t & Ht & _)]; [done | by apply elem_of_nil in Ht].
  - destruct (parse_action t) as [x |] eqn:E; [| done]. cbn [mbind option_bind]. intros H. rewrite (IH _ _ H).
    unfold as_union, action_in. rewrite Z.lor_spec, orb_true_iff. fold (action_in x a). rewrite (parse_action_names _ _ a E).
    rewrite exists_elem_cons. tauto.
Qed.

Lemma parse_list_contains toks s a : parse_list toks = Some s ->
  as_contains s a = true <-> exists t, t ∈ toks /\ (token_names t a \/ token_names t Admin).
Proof.
  intros H. rewrite as_contains_in, orb_true_iff, !(parse_actions_names _ _ _ _ H). unfold as_empty, action_in. rewrite !Z.bits_0. split.
  - intros [[? | (t & ? & ?)] | [? | (t & ? & ?)]]; try done; exists t; auto.
  - intros (t & ? & [? | ?]); [left | right]; right; eauto.
Qed.

(** ** Names *)

(** What a pattern covers: the names it is a prefix of, without its final star, or itself. *)
Definition covers (pattern name : bytes) : Prop :=
  (exists prefix, pattern = prefix ++ [star] /\ prefix `prefix_of` name) \/ (pattern = name /\ last pattern <> Some star).

Lemma name_matches_covers pattern name : name_matches pattern name = true <-> covers pattern name.
Proof.
  unfold name_matches, covers. case_decide as Hs.
  - subst. split; [| done]. intros _. left. exists []. split; [done | apply prefix_nil].
  - destruct (strip_suffix star pattern) as [p |] eqn:E.
    + apply strip_suffix_spec in E as ->. rewrite starts_with_spec. split.
      * intros H. left. eauto.
      * intros [(q & [-> _]%app_inj_tail & H) | [_ H]]; [done |]. by rewrite last_snoc in H.
    + rewrite bool_decide_eq_true. split.
      * intros ->. right. split; [done |]. intros [l ->]%last_Some. by rewrite (proj2 (strip_suffix_spec _ _ l)) in E.
      * intros [(q & -> & _) | [? _]]; [| done]. by rewrite (proj2 (strip_suffix_spec _ _ q)) in E.
Qed.

Definition type_name (rt : ResourceType) : bytes :=
  match rt with
  | RMap => bstr "map" | RMultiMap => bstr "multimap" | RQueue => bstr "queue" | RList => bstr "list" | RSet => bstr "set"
  | RRingbuffer => bstr "ringbuffer" | RTopic => bstr "topic" | RPnCounter => bstr "pncounter" | RLock => bstr "lock"
  | RSql => bstr "sql" | RJob => bstr "job" | RCluster => bstr "cluster"
  end.

Lemma parse_resource_type_name s rt : parse_resource_type s = Some rt <-> to_ascii_lowercase s = type_name rt.
Proof.
  unfold parse_resource_type. generalize (to_ascii_lowercase s). intros x. split.
  - intros H%assoc_elem. unfold resource_types in H. rewrite !elem_of_cons, elem_of_nil in H.
    repeat destruct H as [[= -> ->] | H]; done.
  - intros ->. by destruct rt.
Qed.

(** ** The meaning of a configuration *)

(** A line of the configuration permits an action on a resource. *)
Definition line_permits (rt : ResourceType) (name : bytes) (a : Action) (p : PermissionConfig) : Prop :=
  to_ascii_lowercase (pc_resource_type p) = type_name rt /\ covers (pc_name p) name
  /\ exists t, t ∈ pc_actions p /\ (token_names t a \/ token_names t Admin).

Definition permits (pj : PrincipalJson) (rt : ResourceType) (name : bytes) (a : Action) : Prop :=
  pj_admin pj = true \/ exists p, p ∈ pj_permissions pj /\ line_permits rt name a p.

(** The entry of a user: the last one of that name. *)
Definition entry_of_user (cfg : list PrincipalJson) (user : bytes) : option PrincipalJson :=
  foldl (fun e pj => if decide (pj_name pj = user) then Some pj else e) None cfg.

Section Facts.
Context {K : Pbkdf2} (from_json : bytes -> bytes + list PrincipalJson) (debug : list bytes -> bytes).

(** The password hashes, under the entry's salt and iterations, to the entry's hash. *)
Definition password_ok (pj : PrincipalJson) (pass : bytes) : Prop :=
  exists c, resolve (pj_credential pj) = Some c /\ hash_password pass (salt c) (iterations c) = hash c.

Definition permits_all (ps : list PermissionConfig) (gs : list Permission) : Prop :=
  forall rt name a,
    existsb (fun g => bool_decide (pm_resource_type g = rt) && as_contains (pm_actions g) a && name_matches (pm_name g) name) gs = true
    <-> exists p, p ∈ ps /\ line_permits rt name a p.

Lemma load_grants_permit ps : forall gs, load_grants debug ps = inr gs -> permits_all ps gs.
Proof.
  unfold permits_all. induction ps as [| p ps IH]; intros gs; cbn [load_grants].
  - intros [= <-] rt name a. split; [done |]. intros (p & Hp & _). by apply elem_of_nil in Hp.
  - destruct (parse_resource_type _) as [rt' |] eqn:Ert; [| done]. destruct (parse_list _) as [acts |] eqn:Ea; [| done].
    destruct (load_grants debug ps) as [e | l]; [done |]. intros [= <-] rt name a. cbn [existsb pm_resource_type pm_actions pm_name].
    rewrite orb_true_iff, !andb_true_iff, bool_decide_eq_true, (IH l eq_refl), (parse_list_contains _ _ a Ea), name_matches_covers.
    rewrite exists_elem_cons. apply parse_resource_type_name in Ert. split.
    + intros [[[<- Ht] Hc] | ?]; [left; done | by right].
    + intros [(Hty & Hc & Ht) | ?]; [| by right]. left. split_and!; [| done | done].
      apply parse_resource_type_name in Hty, Ert. rewrite Ert in Hty. by injection Hty.
Qed.

(** What the table holds for a user. *)
Definition entry_loaded (pj : PrincipalJson) (cp : CredentialHash * Principal) : Prop :=
  resolve (pj_credential pj) = Some cp.1 /\ is_admin cp.2 = pj_admin pj /\ pr_name cp.2 = pj_name pj
  /\ permits_all (pj_permissions pj) (grants cp.2).

Lemma load_principals_entries user cfg : forall m m' e0,
  load_principals debug cfg m = inr m' -> option_Forall2 entry_loaded e0 (m !! user) ->
  option_Forall2 entry_loaded (foldl (fun e pj => if decide (pj_name pj = user) then Some pj else e) e0 cfg) (m' !! user).
Proof.
  induction cfg as [| pj cfg IH]; intros m m' e0; cbn [load_principals foldl]; [by intros [= <-] |].
  destruct (resolve _) as [cred |] eqn:Er; [| done]. destruct (load_grants _ _) as [e | gs] eqn:Eg; [done |].
  intros Hl He. eapply IH; [exact Hl |]. case_decide as Hn.
  - subst user. rewrite lookup_insert_eq. constructor. split_and!; [done | done | done |]. by apply load_grants_permit.
  - by rewrite lookup_insert_ne.
Qed.

Lemma authorize_permits pj cp rt name a : entry_loaded pj cp -> authorize cp.2 rt name a = true <-> permits pj rt name a.
Proof.
  intros (_ & Ha & _ & Hp). unfold authorize, permits. rewrite Ha. destruct (pj_admin pj); [tauto |].
  rewrite (Hp rt name a). split; [by right | by intros [? |]].
Qed.

End Facts.

(** ** Examples *)

(** A stand-in for the key derivation: the password followed by the salt, cut to 32 bytes. *)
Definition toy_kdf : Pbkdf2 := {| pbkdf2_hmac := fun pass salt _ => take 32 (pass ++ salt ++ repeat (b8 0) 32) |}.

Definition toy_entry (name pass : bytes) (admin : bool) (ps : list PermissionConfig) : PrincipalJson :=
  let s := repeat (b8 7) 16 in
  mkPrincipalJson name admin (mkCredentialConfig (bytes_to_hex s) (bytes_to_hex (pbkdf2_hmac (Pbkdf2 := toy_kdf) pass s 1)) 1) ps.

Definition toy_config : list PrincipalJson :=
  [toy_entry (bstr "app") (bstr "apppw") false [mkPermissionConfig (bstr "Map") (bstr "orders*") [bstr "READ"]];
   toy_entry (bstr "ops") (bstr "opspw") true []].


(** Two ASCII characters in a row, followed by one or by the end. *)
Lemma str_get_ascii s i x y : s !! i = Some x -> s !! S i = Some y -> (length s = S (S i) \/ exists z, s !! S (S i) = Some z /\ cont z = false) ->
  cont x = false -> str_get s i (i + 2) = Some [x; y].
Proof.
  intros Hx Hy Hz Hc. unfold str_get, is_char_boundary. rewrite Hx, Hc. replace (i + 2)%nat with (S (S i)) by lia.
  assert ((match s !! S (S i) with Some b => negb (cont b) | None => (S (S i) =? length s)%nat end) = true) as ->.
  { destruct Hz as [Hl | (z & -> & ->)]; [| done]. rewrite lookup_ge_None_2 by lia. apply Nat.eqb_eq. lia. }
  assert ((i <=? S (S i))%nat = true) as -> by (apply Nat.leb_le; lia). cbn [andb negb]. f_equal.
  replace (S (S i) - i)%nat with 2%nat by lia. rewrite (drop_S s x i Hx), (drop_S s y (S i) Hy). done.
Qed.

Lemma length_bytes_to_hex b : length (bytes_to_hex b) = (length b * 2)%nat.
Proof. unfold bytes_to_hex. induction b as [| x b IH]; [done |]. cbn. cbn in IH. by rewrite IH. Qed.

Lemma hex_digit_not_cont d : 0 <= d < 16 -> cont (to_hex_digit d) = false.
Proof. intros H. pose proof (to_hex_digit_ascii d H). unfold cont, in_range. apply andb_false_iff. left. apply Z.leb_gt. lia. Qed.

Lemma hex_bytes_put b : forall pre, hex_bytes (length b) (length pre) (bytes_to_hex (pre ++ b)) = Some b.
Proof.
  induction b as [| x b IH]; intros pre; [done |]. cbn [length hex_bytes].
  pose proof (u8_range x). assert (0 <= u8 x / 16 < 16) as Hh by (split; [apply Z.div_pos; lia | apply Z.div_lt_upper_bound; lia]).
  pose proof (Z.mod_pos_bound (u8 x) 16 ltac:(lia)) as Hl.
  assert (bytes_to_hex (pre ++ x :: b) = bytes_to_hex pre ++ to_hex_digit (u8 x / 16) :: to_hex_digit (u8 x mod 16) :: bytes_to_hex b) as E.
  { unfold bytes_to_hex. by rewrite flat_map_app. }
  rewrite (str_get_ascii _ _ (to_hex_digit (u8 x / 16)) (to_hex_digit (u8 x mod 16))).
  - cbn [mbind option_bind parse_hex_u8]. rewrite decide_False.
    2: { intros Hp. pose proof (to_hex_digit_ascii _ Hh) as Ha. rewrite Hp in Ha. change (u8 (b8 43)) with 43 in Ha. lia. }
    rewrite !hex_digit_to_hex by done. cbn [mbind option_bind]. rewrite <- Z.div_mod by lia.
    specialize (IH (pre ++ [x])). rewrite length_app, <- app_assoc in IH. cbn [app length] in IH.
    replace (length pre + 1)%nat with (S (length pre)) in IH by lia. rewrite IH. cbn [mbind option_bind]. by rewrite b8_u8.
  - rewrite E, lookup_app_r, length_bytes_to_hex by (rewrite length_bytes_to_hex; lia). by rewrite Nat.sub_diag.
  - rewrite E, lookup_app_r, length_bytes_to_hex by (rewrite length_bytes_to_hex; lia). by replace (S (length pre * 2) - length pre * 2)%nat with 1%nat by lia.
  - destruct b as [| y b]; [left; rewrite length_bytes_to_hex, length_app; cbn; lia | right].
    rewrite E, lookup_app_r, length_bytes_to_hex by (rewrite length_bytes_to_hex; lia).
    replace (S (S (length pre * 2)) - length pre * 2)%nat with 2%nat by lia. cbn. eexists. split; [done |]. apply hex_digit_not_cont.
    pose proof (u8_range y). split; [apply Z.div_pos; lia | apply Z.div_lt_upper_bound; lia].
  - by apply hex_digit_not_cont.
Qed.

(** Hexadecimal text reads back as the bytes it was written from. *)
Lemma hex_roundtrip b : hex_to_bytes (length b) (bytes_to_hex b) = Some b.
Proof. unfold hex_to_bytes. rewrite decide_True by apply length_bytes_to_hex. apply (hex_bytes_put b []). Qed.

(** It also reads a plus sign as a leading zero. *)
Lemma hex_accepts_a_sign : hex_to_bytes 1 (bstr "+f") = Some [b8 15].
Proof. by vm_compute. Qed.

(** The scan for a common name does not stop at the subject: bytes of a later extension that look
    like one win. *)
Lemma later_bytes_name_the_principal :
  let cn (s : string) := CN_OID ++ [b8 0x0C; b8 (blen (bstr s))] ++ bstr s in
  cn_from_cert_der (map b8 [0x30; 0x40] ++ cn "ca"%string ++ cn "bob"%string ++ map b8 [0x30; 0x20; 0x04; 0x10] ++ cn "ops"%string)
  = Some (bstr "ops").
Proof. by vm_compute. Qed.
