(* ===== verification/Codecs.v ===== *)
(** * The codecs of client messages (crates/codecs)

    Requests are decoded from the frames of a message, responses and events built as frames.  The
    first frame holds the fixed fields; reading or writing past its end panics, as does indexing a
    frame that is not there and decoding a name that is not UTF-8. *)

From S2P Require Import Prelude Fixed Frame Schema.

Abbreviation message := (list Frame) (only parsing).
Abbreviation uuid := (Z * Z)%type (only parsing).

(** ** Headers (crates/protocol/src/message.rs) *)

Definition msg_type (frames : message) : outcome Z := f ← index frames 0; read_i32_le (content f) 0.
Definition correlation_id (frames : message) : outcome Z := f ← index frames 0; read_i64_le (content f) 4.
Definition set_correlation_id (frames : message) (id : Z) : outcome message :=
  f ← index frames 0; c ← write_i64_le (content f) 4 id; Ok (mkFrame (flags f) c :: drop 1 frames).

Definition zeroed (n : nat) : bytes := repeat (b8 0) n.
Definition begin_frame : Frame := mkFrame BEGIN_DS [].
Definition end_frame : Frame := mkFrame END_DS [].
Definition plain (c : bytes) : Frame := mkFrame 0 c.

(** A zeroed content of [n] bytes with the message type at its start. *)
Definition header (n : nat) (msg_type : Z) : outcome bytes := write_i32_le (zeroed n) 0 msg_type.
Definition nullable (v : option bytes) : Frame := match v with Some b => data_frame b | None => null_frame end.

Definition content_at (frames : message) (i : nat) : outcome bytes := f ← index frames i; Ok (content f).
Definition string_at (frames : message) (i : nat) : outcome bytes := f ← index frames i; decode_string f.
Definition long_field (frames : message) (pos : nat) : outcome Z := c ← content_at frames 0; read_i64_le c pos.
Definition int_field (frames : message) (pos : nat) : outcome Z := c ← content_at frames 0; read_i32_le c pos.
(** [c[pos] == 1] *)
Definition bool_field (frames : message) (pos : nat) : outcome bool :=
  c ← content_at frames 0; b ← index c pos; Ok (u8 b =? 1).

(** ** Maps (map.rs): requests *)

Definition ADDED : Z := 1.
Definition REMOVED : Z := 2.
Definition UPDATED : Z := 4.

Definition decode_add_entry_listener (frames : message) : outcome (bytes * Z * bool) :=
  include_value ← bool_field frames 16; flags ← int_field frames 17; name ← string_at frames 1;
  Ok (name, flags, include_value).

Definition decode_add_entry_listener_with_predicate (frames : message) : outcome (bytes * Z * bool * bytes) :=
  include_value ← bool_field frames 16; flags ← int_field frames 17; name ← string_at frames 1;
  predicate ← content_at frames 2; Ok (name, flags, include_value, predicate).

Definition decode_add_partition_lost_listener (frames : message) : outcome (bytes * bool) :=
  local_only ← bool_field frames 16; name ← string_at frames 1; Ok (name, local_only).

Definition decode_name (frames : message) : outcome bytes := string_at frames 1.

(** The frames after the BEGIN at [start], up to an END or the end. *)
Fixpoint until_end (fs : list Frame) : list bytes :=
  match fs with [] => [] | f :: fs' => if is_end f then [] else content f :: until_end fs' end.
Definition decode_data_list (frames : message) (start : nat) : list bytes := until_end (drop (start + 1) frames).

(** Pairs, as long as two frames are left. *)
Fixpoint pairs_until_end (fs : list Frame) : list (bytes * bytes) :=
  match fs with
  | k :: v :: fs' => if is_end k then [] else (content k, content v) :: pairs_until_end fs'
  | _ => []
  end.
Definition decode_entry_list (frames : message) (start : nat) : list (bytes * bytes) := pairs_until_end (drop (start + 1) frames).

Definition decode_name_value (frames : message) : outcome (bytes * bytes) :=
  name ← string_at frames 1; v ← content_at frames 2; Ok (name, v).
Definition decode_name_key (frames : message) : outcome (bytes * bytes) :=
  name ← string_at frames 1; k ← content_at frames 2; Ok (name, k).

Record PutRequest := mkPutReq { rq_name : bytes; rq_key : bytes; rq_value : bytes; rq_thread_id : Z; rq_ttl : Z }.

Definition decode_replace (frames : message) : outcome PutRequest :=
  t ← long_field frames 16; name ← string_at frames 1; k ← content_at frames 2; v ← content_at frames 3;
  Ok (mkPutReq name k v t 0).

Definition decode_put (frames : message) : outcome PutRequest :=
  t ← long_field frames 16; ttl ← long_field frames 24;
  name ← string_at frames 1; k ← content_at frames 2; v ← content_at frames 3;
  Ok (mkPutReq name k v t ttl).

Record GetRequest := mkGetReq { gq_name : bytes; gq_key : bytes; gq_thread_id : Z }.

Definition decode_get (frames : message) : outcome GetRequest :=
  t ← long_field frames 16; name ← string_at frames 1; k ← content_at frames 2; Ok (mkGetReq name k t).

(** The attributes: the strings from frame 6 up to an END, null frames skipped. *)
Fixpoint attributes_from (fs : list Frame) : outcome (list bytes) :=
  match fs with
  | [] => Ok []
  | f :: fs' =>
    if is_end f then Ok []
    else if is_null f then attributes_from fs'
    else s ← decode_string f; l ← attributes_from fs'; Ok (s :: l)
  end.

Definition decode_add_index (frames : message) : outcome (bytes * Z * list bytes) :=
  name ← string_at frames 1;
  ty ← match frames !! 3%nat with
       | Some f => if (4 <=? length (content f))%nat then read_i32_le (content f) 0 else Ok 0
       | None => Ok 0
       end;
  attributes ← attributes_from (drop 6 frames);
  Ok (name, ty, attributes).

Definition decode_project (frames : message) : outcome (bytes * bytes) := decode_name_value frames.
Definition decode_project_with_predicate (frames : message) : outcome (bytes * bytes * bytes) :=
  name ← string_at frames 1; a ← content_at frames 2; p ← content_at frames 3; Ok (name, a, p).
Definition decode_aggregate (frames : message) : outcome (bytes * bytes) := decode_name_value frames.
Definition decode_aggregate_with_predicate (frames : message) : outcome (bytes * bytes * bytes) := decode_project_with_predicate frames.

Definition decode_execute_on_key (frames : message) : outcome (bytes * bytes * bytes * Z) :=
  t ← long_field frames 16; name ← string_at frames 1; p ← content_at frames 2; k ← content_at frames 3;
  Ok (name, p, k, wrap_u64 t).

(** ** Maps (map.rs): responses *)

(** A single nullable value after the header. *)
Definition data_response (msg_type : Z) (v : option bytes) : outcome message :=
  c ← header 13 msg_type; Ok [initial_frame c; nullable v].
Definition encode_put_response (old : option bytes) : outcome message := data_response 65793 old.
Definition encode_get_response (v : option bytes) : outcome message := data_response 66049 v.
Definition encode_execute_on_key_response (v : option bytes) : outcome message := data_response 77313 v.

Definition bool_response (msg_type : Z) (b : bool) : outcome message :=
  c ← header 14 msg_type; c ← set_index c 13 (bool_u8 b); Ok [initial_frame c].
Definition int_response (msg_type v : Z) : outcome message :=
  c ← header 17 msg_type; c ← write_i32_le c 13 v; Ok [initial_frame c].
Definition long_response (msg_type v : Z) : outcome message :=
  c ← header 21 msg_type; c ← write_i64_le c 13 v; Ok [initial_frame c].

Definition encode_data_list_response (msg_type : Z) (items : list bytes) : outcome message :=
  c ← header 13 msg_type; Ok (initial_frame c :: begin_frame :: map data_frame items ++ [end_frame]).
Definition encode_entry_list_response (msg_type : Z) (entries : list (bytes * bytes)) : outcome message :=
  c ← header 13 msg_type;
  Ok (initial_frame c :: begin_frame :: flat_map (fun e => [data_frame e.1; data_frame e.2]) entries ++ [end_frame]).
Definition encode_metadata_response (msg_type : Z) : outcome message :=
  c ← header 13 msg_type; Ok [initial_frame c; begin_frame; end_frame; plain []].
Definition encode_add_index_response : outcome message := c ← header 14 76033; Ok [initial_frame c].
Definition encode_project_response (l : list bytes) : outcome message :=
  c ← header 13 80641; Ok (initial_frame c :: begin_frame :: map data_frame l ++ [end_frame]).
Definition encode_aggregate_response (v : bytes) : outcome message :=
  c ← header 13 87553; Ok [initial_frame c; data_frame v].

Definition pncounter_response (msg_type value replica_count : Z) (ts_uuid : uuid) (ts : Z) : outcome message :=
  c ← header 25 msg_type; c ← write_i64_le c 13 value; c ← write_i32_le c 21 replica_count;
  t ← write_uuid (zeroed 25) 0 (Some ts_uuid); t ← write_i64_le t 17 ts;
  Ok [initial_frame c; plain t].

Definition flakeid_response (msg_type base increment batch_size : Z) : outcome message :=
  c ← header 33 msg_type; c ← write_i64_le c 13 base; c ← write_i64_le c 21 increment; c ← write_i32_le c 29 batch_size;
  Ok [initial_frame c].

(** ** Maps (map.rs): events *)

Definition event_flags : Z := Z.lor UNFRAGMENTED IS_EVENT.

Definition encode_entry_event (corr event_type : Z) (u : uuid) (key value old : option bytes) : outcome bytes :=
  c ← header 41 71938; c ← write_i64_le c 4 corr; c ← write_i32_le c 12 (-1); c ← write_i32_le c 16 event_type;
  c ← write_uuid c 20 (Some u); c ← write_i32_le c 37 1;
  Ok (write_message [mkFrame event_flags c; nullable key; nullable value; nullable old; null_frame]).

Definition encode_invalidation_event (corr : Z) (source partition : uuid) (sequence : Z) (key : bytes) : outcome bytes :=
  c ← header 58 81666; c ← write_i64_le c 4 corr; c ← write_i32_le c 12 (-1);
  c ← write_uuid c 16 (Some source); c ← write_uuid c 33 (Some partition); c ← write_i64_le c 50 sequence;
  Ok (write_message [mkFrame event_flags c; data_frame key]).

Definition encode_topic_event (corr publish_time : Z) (u : uuid) (item : bytes) : outcome bytes :=
  c ← header 41 262658; c ← write_i64_le c 4 corr; c ← write_i32_le c 12 (-1); c ← write_i64_le c 16 publish_time;
  c ← write_uuid c 24 (Some u);
  Ok (write_message [mkFrame event_flags c; data_frame item]).

(** ** Caches (cache.rs) *)

Definition decode_cache_put (frames : message) : outcome (bytes * bytes * bytes * bool) :=
  get ← bool_field frames 16; _ ← int_field frames 17;
  name ← string_at frames 1; k ← content_at frames 2; v ← content_at frames 3; Ok (name, k, v, get).
Definition decode_cache_get (frames : message) : outcome (bytes * bytes) := decode_name_key frames.
Definition decode_cache_remove (frames : message) : outcome (bytes * bytes * option bytes) :=
  name ← string_at frames 1; k ← content_at frames 2;
  Ok (name, k, match frames !! 3%nat with Some f => match content f with [] => None | c => Some c end | None => None end).
(** A 22-byte header and a nullable value: also the executor's and the transactional map's. *)
Definition wide_data_response (msg_type : Z) (v : option bytes) : outcome message :=
  c ← header 22 msg_type; Ok [initial_frame c; nullable v].
Definition encode_cache_put_response (old : option bytes) : outcome message := wide_data_response 1250049 old.
Definition encode_cache_get_response (v : option bytes) : outcome message := wide_data_response 1248513 v.
Definition encode_cache_remove_response (removed : bool) : outcome message :=
  c ← header 23 1250817; c ← set_index c 22 (bool_u8 removed); Ok [initial_frame c].

(** ** The executor (executor.rs) *)

Definition decode_submit_to_partition (frames : message) : outcome (bytes * uuid * bytes) :=
  a ← long_field frames 16; b ← long_field frames 24; name ← string_at frames 1; callable ← content_at frames 2;
  Ok (name, (a, b), callable).
Definition decode_submit_to_member (frames : message) : outcome (bytes * uuid * bytes * uuid) :=
  a ← long_field frames 16; b ← long_field frames 24; m ← long_field frames 32; n ← long_field frames 40;
  name ← string_at frames 1; callable ← content_at frames 2; Ok (name, (a, b), callable, (m, n)).
Definition encode_submit_response (msg_type : Z) (r : option bytes) : outcome message := wide_data_response msg_type r.

(** ** Transactions (txn.rs) *)

Definition txn_id (frames : message) : outcome uuid := a ← long_field frames 16; b ← long_field frames 24; Ok (a, b).
Definition encode_transaction_create_response (u : uuid) : outcome message :=
  c ← header 38 1376769; c ← write_uuid c 22 (Some u); Ok [initial_frame c].
Definition encode_transaction_commit_response : outcome message := c ← header 22 1376513; Ok [initial_frame c].
Definition encode_transaction_rollback_response : outcome message := c ← header 22 1377025; Ok [initial_frame c].
Definition decode_transactional_map_put (frames : message) : outcome (bytes * uuid * bytes * bytes) :=
  t ← txn_id frames; name ← string_at frames 1; k ← content_at frames 2; v ← content_at frames 3; Ok (name, t, k, v).
Definition encode_transactional_map_put_response (old : option bytes) : outcome message := wide_data_response 919041 old.

(** ** The management centre (mc.rs) *)

Definition encode_get_timed_member_state_response (json : bytes) : outcome message :=
  c ← header 13 2099969; Ok [initial_frame c; string_frame json].

(** ** SQL (sql.rs) *)

Definition decode_execute_sql (frames : message) : outcome bytes := string_at frames 1.

Definition column_metadata (name : bytes) : outcome (list Frame) :=
  c ← write_i32_le (zeroed 5) 0 0; c ← set_index c 4 (b8 1);
  Ok [begin_frame; plain c; string_frame name; end_frame].

Fixpoint metadata (columns : list bytes) : outcome (list Frame) :=
  match columns with [] => Ok [] | n :: l => a ← column_metadata n; b ← metadata l; Ok (a ++ b) end.

Fixpoint cells_of (col : nat) (rows : list (list (option bytes))) : outcome (list Frame) :=
  match rows with
  | [] => Ok []
  | r :: rows' => x ← index r col; l ← cells_of col rows'; Ok (match x with Some s => string_frame s | None => null_frame end :: l)
  end.

Fixpoint column_data (cols : list nat) (rows : list (list (option bytes))) : outcome (list Frame) :=
  match cols with
  | [] => Ok []
  | c :: cols' => l ← cells_of c rows; rest ← column_data cols' rows; Ok (begin_frame :: l ++ end_frame :: rest)
  end.

Definition encode_execute_response (columns : list bytes) (rows : list (list (option bytes))) : outcome message :=
  c ← header 21 2163713; c ← write_i64_le c 13 (-1);
  meta ← metadata columns; data ← column_data (seq 0 (length columns)) rows;
  Ok (initial_frame c :: begin_frame :: meta ++ end_frame :: begin_frame :: plain [b8 1] :: plain (zeroed (length columns * 4))
      :: data ++ [end_frame; null_frame]).

Definition encode_void_sql_response : outcome message :=
  c ← header 21 2163713; c ← write_i64_le c 13 0; Ok [initial_frame c; null_frame; null_frame; null_frame].
Definition encode_close_response : outcome message := c ← header 13 2163457; Ok [initial_frame c].
Definition encode_fetch_response : outcome message :=
  c ← header 13 2163969; Ok [initial_frame c; begin_frame; plain [b8 1]; plain []; end_frame; null_frame].

(** ** Members and partitions (address.rs, member_info.rs, partition_table.rs, cluster_view.rs) *)

Definition encode_address (host : bytes) (port : Z) : outcome (list Frame) :=
  c ← write_i32_le (zeroed 4) 0 port; Ok [begin_frame; plain c; string_frame host; end_frame].

Abbreviation member_tuple := (uuid * bytes * Z * bool * (Z * Z * Z))%type.

Definition encode_member (m : member_tuple) : outcome (list Frame) :=
  let '(u, host, port, lite, (major, minor, patch)) := m in
  c ← write_uuid (zeroed 18) 0 (Some u); c ← set_index c 17 (bool_u8 lite);
  a ← encode_address host port;
  Ok (begin_frame :: plain c :: a ++ [begin_frame; end_frame; begin_frame; plain [b8 major; b8 minor; b8 patch]; end_frame;
        begin_frame; end_frame; end_frame]).

Fixpoint encode_members (ms : list member_tuple) : outcome (list Frame) :=
  match ms with [] => Ok [] | m :: ms' => a ← encode_member m; b ← encode_members ms'; Ok (a ++ b) end.
Definition encode_member_list (ms : list member_tuple) : outcome (list Frame) :=
  l ← encode_members ms; Ok (begin_frame :: l ++ [end_frame]).

(** [vec![0; n * 4]] with the [i]-th integer at [i * 4]. *)
Fixpoint pack_ints (c : bytes) (i : nat) (l : list Z) : outcome bytes :=
  match l with [] => Ok c | p :: l' => c ← write_i32_le c (i * 4) p; pack_ints c (S i) l' end.
Definition int_list (l : list Z) : outcome bytes := pack_ints (zeroed (length l * 4)) 0 l.
Fixpoint pack_uuids (c : bytes) (i : nat) (l : list uuid) : outcome bytes :=
  match l with [] => Ok c | u :: l' => c ← write_uuid c (i * UUID_SIZE) (Some u); pack_uuids c (S i) l' end.
Definition uuid_list (l : list uuid) : outcome bytes := pack_uuids (zeroed (length l * UUID_SIZE)) 0 l.

Fixpoint partition_frames (entries : list (uuid * list Z)) : outcome (list Frame) :=
  match entries with [] => Ok [] | e :: l => c ← int_list e.2; rest ← partition_frames l; Ok (plain c :: rest) end.
Definition encode_partitions (entries : list (uuid * list Z)) : outcome (list Frame) :=
  vs ← partition_frames entries; ks ← uuid_list (map fst entries); Ok (begin_frame :: vs ++ [end_frame; plain ks]).

Definition cluster_view_response : outcome message := c ← header 13 769; Ok [initial_frame c].
Definition event_initial (msg_type version : Z) : outcome Frame :=
  c ← header 20 msg_type; c ← write_i32_le c 12 (-1); c ← write_i32_le c 16 version; Ok (mkFrame event_flags c).
Definition members_view_event (version : Z) (ms : list member_tuple) : outcome message :=
  f ← event_initial 770 version; l ← encode_member_list ms; Ok (f :: l).
Definition partitions_view_event (version : Z) (ps : list (uuid * list Z)) : outcome message :=
  f ← event_initial 771 version; l ← encode_partitions ps; Ok (f :: l).

(** ** Authentication (auth.rs) *)

Record AuthRequest := mkAuthRequest {
  au_cluster_name : bytes; au_username : option bytes; au_password : option bytes;
  au_client_type : bytes; au_serialization_version : Z; au_routing_mode : Z }.

Definition nullable_string (frames : message) (i : nat) : outcome (option bytes) :=
  f ← index frames i; if is_null f then Ok None else s ← decode_string f; Ok (Some s).

Definition decode_auth_request (frames : message) : outcome AuthRequest :=
  initial ← content_at frames 0; version ← index initial 33;
  let routing := match initial !! 34%nat with Some b => u8 b | None => 0 end in
  cluster ← string_at frames 1; user ← nullable_string frames 2; pass ← nullable_string frames 3; ty ← string_at frames 4;
  Ok (mkAuthRequest cluster user pass ty (u8 version) routing).

Record AuthResponse := mkAuthResponse {
  ar_status : Z; ar_member_uuid : uuid; ar_serialization_version : Z; ar_partition_count : Z; ar_cluster_id : uuid;
  ar_server_version : bytes; ar_address_host : bytes; ar_address_port : Z; ar_member_list_version : Z;
  ar_members : list member_tuple; ar_partition_list_version : Z; ar_partitions : list (uuid * list Z);
  ar_tpc_ports : option (list Z); ar_tpc_token : option bytes }.

Definition encode_auth_response (r : AuthResponse) : outcome message :=
  c ← header 62 257; c ← set_index c 12 (b8 0); c ← set_index c 13 (b8 (ar_status r));
  c ← write_uuid c 14 (Some (ar_member_uuid r)); c ← set_index c 31 (b8 (ar_serialization_version r));
  c ← write_i32_le c 32 (ar_partition_count r); c ← write_uuid c 36 (Some (ar_cluster_id r)); c ← set_index c 53 (b8 0);
  c ← write_i32_le c 54 (ar_member_list_version r); c ← write_i32_le c 58 (ar_partition_list_version r);
  address ← encode_address (ar_address_host r) (ar_address_port r);
  ports ← match ar_tpc_ports r with Some l => p ← int_list l; Ok (plain p) | None => Ok null_frame end;
  members ← encode_member_list (ar_members r); partitions ← encode_partitions (ar_partitions r);
  Ok (initial_frame c :: address ++ string_frame (ar_server_version r) :: ports :: nullable (ar_tpc_token r)
      :: members ++ partitions ++ [begin_frame; end_frame]).

(** ** Schemas (schema.rs) *)

Fixpoint schema_fields_from (fuel : nat) (frames : message) (i : nat) : outcome (list FieldDescriptor) :=
  match fuel with
  | O => Ok []
  | S fuel' =>
    match frames !! i with
    | None => Ok []
    | Some f =>
      if is_end f then Ok [] else
      c ← content_at frames (i + 1); kind ← read_i32_le c 0; name ← string_at frames (i + 2);
      rest ← schema_fields_from fuel' frames (i + 4);
      Ok (new_field name kind :: rest)
    end
  end.

(** Four frames per field: the number of frames is fuel enough. *)
Definition decode_schema (frames : message) (start : nat) : outcome Schema :=
  type_name ← string_at frames (start + 1);
  fields ← schema_fields_from (length frames) frames (start + 3);
  Ok (new_schema type_name fields).

Definition encode_field (f : FieldDescriptor) : outcome (list Frame) :=
  c ← write_i32_le (zeroed 4) 0 (fd_kind f); Ok [begin_frame; plain c; string_frame (fd_name f); end_frame].
Fixpoint encode_fields (fs : list FieldDescriptor) : outcome (list Frame) :=
  match fs with [] => Ok [] | f :: fs' => a ← encode_field f; b ← encode_fields fs'; Ok (a ++ b) end.
Definition encode_schema (s : Schema) : outcome (list Frame) :=
  fs ← encode_fields (fields s);
  Ok (begin_frame :: string_frame (type_name s) :: begin_frame :: fs ++ [end_frame; end_frame]).

Definition encode_fetch_schema_response (msg_type : Z) (s : option Schema) : outcome message :=
  c ← header 13 msg_type;
  rest ← match s with Some s => encode_schema s | None => Ok [null_frame] end;
  Ok (initial_frame c :: rest).
Definition encode_uuid_list_response (msg_type : Z) (us : list uuid) : outcome message :=
  c ← header 13 msg_type; l ← uuid_list us; Ok [initial_frame c; plain l].

(** ** Jobs (crates/jet/src/codecs.rs) *)

Definition decode_submit_job (frames : message) : outcome (Z * bytes) := id ← long_field frames 16; Ok (id, []).
Definition encode_submit_job_response (job_id : Z) : outcome message :=
  c ← header 22 16646401; c ← write_i64_le c 14 job_id; Ok [initial_frame c].
Definition encode_get_job_status_response (status : Z) : outcome message :=
  c ← header 22 16646913; c ← write_i32_le c 14 status; Ok [initial_frame c].
Definition encode_join_submitted_job_response : outcome message := c ← header 22 16647425; Ok [initial_frame c].

(** ** The encoders return

    Every write is inside the buffer it was given. *)

Lemma length_zeroed n : length (zeroed n) = n.
Proof. apply repeat_length. Qed.

Lemma copy_at_total buf pos x : (pos + length x <= length buf)%nat -> exists b, copy_at buf pos x = Ok b /\ length b = length buf.
Proof.
  intros H. unfold copy_at. rewrite (proj2 (Nat.leb_le _ _)) by done. eexists. split; [done |].
  rewrite !length_app, length_take, length_drop. lia.
Qed.

Lemma write_i32_total buf pos v : (pos + 4 <= length buf)%nat -> exists b, write_i32_le buf pos v = Ok b /\ length b = length buf.
Proof. intros. apply copy_at_total. by rewrite length_to_le. Qed.
Lemma write_i64_total buf pos v : (pos + 8 <= length buf)%nat -> exists b, write_i64_le buf pos v = Ok b /\ length b = length buf.
Proof. intros. apply copy_at_total. by rewrite length_to_le. Qed.
Lemma set_index_total (buf : bytes) pos x : (pos < length buf)%nat -> exists b, set_index buf pos x = Ok b /\ length b = length buf.
Proof. intros. eexists. split; [by apply set_index_Ok |]. apply length_insert. Qed.

Lemma write_uuid_total buf pos u : (pos + 17 <= length buf)%nat -> exists b, write_uuid buf pos u = Ok b /\ length b = length buf.
Proof.
  intros H. unfold write_uuid. destruct u as [[m l] |].
  - destruct (set_index_total buf pos (b8 0)) as (b0 & -> & L0); [lia |]. cbn [mbind outcome_bind].
    destruct (write_i64_total b0 (pos + 1) m) as (b1 & -> & L1); [lia |]. cbn [mbind outcome_bind].
    destruct (write_i64_total b1 (pos + 9) l) as (b2 & -> & L2); [lia |]. exists b2. split; [done | lia].
  - destruct (set_index_total buf pos (b8 1)) as (b0 & -> & L0); [lia |]. exists b0. split; [done | lia].
Qed.

Lemma header_total n t : (4 <= n)%nat -> exists b, header n t = Ok b /\ length b = n.
Proof. intros H. unfold header. destruct (write_i32_total (zeroed n) 0 t) as (b & -> & L); rewrite length_zeroed in *; eauto. Qed.

(** Runs the writes of an encoder, one lemma per write. *)
Ltac run_writes :=
  repeat (cbn [mbind outcome_bind];
    match goal with
    | |- context [header ?n ?t] => let b := fresh "b" in let L := fresh "L" in destruct (header_total n t) as (b & -> & L); [lia |]
    | |- context [write_i32_le ?b ?p ?v] => let c := fresh "b" in let L := fresh "L" in destruct (write_i32_total b p v) as (c & -> & L); [rewrite ?length_zeroed; lia |]
    | |- context [write_i64_le ?b ?p ?v] => let c := fresh "b" in let L := fresh "L" in destruct (write_i64_total b p v) as (c & -> & L); [rewrite ?length_zeroed; lia |]
    | |- context [write_uuid ?b ?p ?v] => let c := fresh "b" in let L := fresh "L" in destruct (write_uuid_total b p v) as (c & -> & L); [rewrite ?length_zeroed; lia |]
    | |- context [set_index ?b ?p ?v] => let c := fresh "b" in let L := fresh "L" in destruct (set_index_total b p v) as (c & -> & L); [rewrite ?length_zeroed; lia |]
    end; rewrite ?length_zeroed in *); cbn [mbind outcome_bind].

(** A response: its first frame has room for the correlation id. *)
Definition reply_ok (m : message) : Prop := exists f fs, m = f :: fs /\ (13 <= length (content f))%nat.

Ltac reply_total := run_writes; eexists; split; [reflexivity |]; eexists _, _; split; [reflexivity |]; cbn; lia.

Lemma data_response_total t v : exists m, data_response t v = Ok m /\ reply_ok m.
Proof. unfold data_response. reply_total. Qed.
Lemma bool_response_total t b : exists m, bool_response t b = Ok m /\ reply_ok m.
Proof. unfold bool_response. reply_total. Qed.
Lemma int_response_total t v : exists m, int_response t v = Ok m /\ reply_ok m.
Proof. unfold int_response. reply_total. Qed.
Lemma long_response_total t v : exists m, long_response t v = Ok m /\ reply_ok m.
Proof. unfold long_response. reply_total. Qed.
Lemma data_list_response_total t l : exists m, encode_data_list_response t l = Ok m /\ reply_ok m.
Proof. unfold encode_data_list_response. reply_total. Qed.
Lemma entry_list_response_total t l : exists m, encode_entry_list_response t l = Ok m /\ reply_ok m.
Proof. unfold encode_entry_list_response. reply_total. Qed.
Lemma pncounter_response_total t v n u ts : exists m, pncounter_response t v n u ts = Ok m /\ reply_ok m.
Proof. unfold pncounter_response. reply_total. Qed.

Lemma entry_event_total corr ty u k v o : exists e, encode_entry_event corr ty u k v o = Ok e.
Proof. unfold encode_entry_event. run_writes. eauto. Qed.
Lemma invalidation_event_total corr s p q k : exists e, encode_invalidation_event corr s p q k = Ok e.
Proof. unfold encode_invalidation_event. run_writes. eauto. Qed.
Lemma topic_event_total corr t u i : exists e, encode_topic_event corr t u i = Ok e.
Proof. unfold encode_topic_event. run_writes. eauto. Qed.

Lemma set_correlation_id_total m corr : reply_ok m -> exists m', set_correlation_id m corr = Ok m' /\ reply_ok m'.
Proof.
  intros (f & fs & -> & L). unfold set_correlation_id. cbn [index lookup list_lookup mbind outcome_bind].
  destruct (write_i64_total (content f) 4 corr) as (c & -> & Lc); [lia |]. cbn [mbind outcome_bind].
  eexists. split; [done |]. eexists _, _. split; [done |]. cbn. lia.
Qed.

(** The correlation id that was set is the one that is read, and the type stays. *)
Lemma set_correlation_id_reads m corr m' :
  is_i64 corr -> set_correlation_id m corr = Ok m' -> correlation_id m' = Ok corr /\ msg_type m' = msg_type m.
Proof.
  intros Hc. unfold set_correlation_id, correlation_id, msg_type. destruct m as [| f fs]; [done |]. cbn [index lookup list_lookup mbind outcome_bind].
  destruct (write_i64_le (content f) 4 corr) as [c |] eqn:E; [| done]. cbn [mbind outcome_bind]. intros [= <-].
  cbn [index lookup list_lookup mbind outcome_bind content]. split; [by eapply read_write_i64 |].
  unfold read_i32_le. by rewrite (slice_copy_at_disjoint _ _ _ _ _ _ E) by lia.
Qed.

(** The response to the creation of a transaction needs 39 bytes and gets 38. *)
Lemma transaction_create_response_panics u : encode_transaction_create_response u = Panic.
Proof.
  unfold encode_transaction_create_response. destruct (header_total 38 1376769) as (b & -> & L); [lia |]. cbn [mbind outcome_bind].
  unfold write_uuid. destruct u as [m l]. destruct (set_index_total b 22 (b8 0)) as (b0 & -> & L0); [lia |]. cbn [mbind outcome_bind].
  destruct (write_i64_total b0 (22 + 1) m) as (b1 & -> & L1); [lia |]. cbn [mbind outcome_bind].
  unfold write_i64_le, copy_at. rewrite length_to_le, L1, L0, L. done.
Qed.
