(* ===== verification/CpCodecs.v ===== *)
(** * The codecs of CP client messages (crates/codecs/src: atomiclong.rs, atomicref.rs, cpcount.rs,
      cpmap.rs, cpsession.rs, fencedlock.rs)

    A request is a header with the fixed arguments, the four frames of a group id, the name of the
    object, and its values.  Names are prefixed with the codec they belong to: [al_] atomic long,
    [ar_] atomic reference, [cc_] latch and semaphore, [cm_] map, [cs_] session, [fl_] lock. *)

From S2P Require Import Prelude Fixed Frame Schema Codecs.

(** [table.get(t)]: the response type of a request type. *)
Definition response_in (t : Z) (reqs : list Z) : option Z :=
  if existsb (Z.eqb t) reqs then Some (t + 1) else None.

Definition first_frame (frames : message) : option Frame := head frames.
Definition last_frame (frames : message) : option Frame := last frames.

(** A field that reads as zero when the frame is too short for it. *)
Definition int_at (frames : message) (off : nat) : outcome Z :=
  match first_frame frames with
  | Some f => if (off + 4 <=? length (content f))%nat then read_i32_le (content f) off else Ok 0
  | None => Ok 0
  end.
Definition long_at (frames : message) (off : nat) : outcome Z :=
  match first_frame frames with
  | Some f => if (off + 8 <=? length (content f))%nat then read_i64_le (content f) off else Ok 0
  | None => Ok 0
  end.

(** The frames between the header and the values. *)
Definition group_and_name (group name : bytes) : list Frame :=
  [begin_frame; initial_frame (zeroed 16); string_frame group; end_frame; string_frame name].

Definition encode_void_response (resp_type : Z) : outcome message := c ← header 13 resp_type; Ok [initial_frame c].

(** ** Atomic longs *)

Inductive AtomicLongOp := AlqGet | AlqSet (v : Z) | AlqGetAndSet (v : Z) | AlqAddAndGet (v : Z) | AlqGetAndAdd (v : Z) | AlqCompareAndSet (e u : Z).
Record AtomicLongRequest := mkAlRequest { alr_name : bytes; alr_op : AtomicLongOp }.

Definition al_response_type (t : Z) : option Z := response_in t [591104; 590592; 591360; 590848; 591616; 591872].
Definition is_atomiclong (t : Z) : bool := bool_decide (is_Some (al_response_type t)).

Definition al_op (t : Z) (init : bytes) : outcome (option AtomicLongOp) :=
  if t =? 591104 then Ok (Some AlqGet)
  else if t =? 591872 then v ← read_i64_le init 16; Ok (Some (AlqSet v))
  else if t =? 591616 then v ← read_i64_le init 16; Ok (Some (AlqGetAndSet v))
  else if t =? 590592 then v ← read_i64_le init 16; Ok (Some (AlqAddAndGet v))
  else if t =? 591360 then v ← read_i64_le init 16; Ok (Some (AlqGetAndAdd v))
  else if t =? 590848 then e ← read_i64_le init 16; u ← read_i64_le init 24; Ok (Some (AlqCompareAndSet e u))
  else Ok None.

Definition al_decode_request (t : Z) (frames : message) : outcome (option AtomicLongRequest) :=
  match first_frame frames, last_frame frames with
  | Some f, Some n =>
    name ← decode_string n; o ← al_op t (content f);
    Ok (option_map (mkAlRequest name) o)
  | _, _ => Ok None
  end.

Definition al_req_type (op : AtomicLongOp) : Z :=
  match op with AlqGet => 591104 | AlqSet _ => 591872 | AlqGetAndSet _ => 591616 | AlqAddAndGet _ => 590592 | AlqGetAndAdd _ => 591360 | AlqCompareAndSet _ _ => 590848 end.

Definition al_encode_request (t : Z) (group name : bytes) (op : AtomicLongOp) : outcome message :=
  init ← header (match op with AlqGet => 16 | AlqCompareAndSet _ _ => 32 | _ => 24 end) t;
  init ← match op with
         | AlqSet v | AlqGetAndSet v | AlqAddAndGet v | AlqGetAndAdd v => write_i64_le init 16 v
         | AlqCompareAndSet e u => c ← write_i64_le init 16 e; write_i64_le c 24 u
         | AlqGet => Ok init
         end;
  Ok (initial_frame init :: group_and_name group name).

(** ** Atomic references *)

Inductive ArReq :=
| ArqGet | ArqSet (new : option bytes) (return_old : bool) | ArqCompareAndSet (old new : option bytes) | ArqContains (value : option bytes).
Record AtomicRefRequest := mkArRequest { arr_name : bytes; arr_op : ArReq }.

Definition NAME_FRAME : nat := 5.

Definition ar_response_type (t : Z) : option Z := response_in t [656384; 656640; 655872; 656128].
Definition is_atomicref (t : Z) : bool := bool_decide (is_Some (ar_response_type t)).

Definition nullable_data (frames : message) (i : nat) : option bytes :=
  f ← frames !! i; if is_null f then None else Some (content f).

Definition ar_decode_request (t : Z) (frames : message) : outcome (option AtomicRefRequest) :=
  match frames !! NAME_FRAME with
  | None => Ok None
  | Some n =>
    name ← decode_string n;
    let a := nullable_data frames 6 in
    let b := nullable_data frames 7 in
    Ok (option_map (mkArRequest name)
        (if t =? 656384 then Some ArqGet
         else if t =? 656640 then
           Some (ArqSet a (match first_frame frames with
                           | Some f => match content f !! 16%nat with Some x => u8 x =? 1 | None => false end
                           | None => false
                           end))
         else if t =? 655872 then Some (ArqCompareAndSet a b)
         else if t =? 656128 then Some (ArqContains a)
         else None))
  end.

Definition ar_req_type (op : ArReq) : Z :=
  match op with ArqGet => 656384 | ArqSet _ _ => 656640 | ArqCompareAndSet _ _ => 655872 | ArqContains _ => 656128 end.

Definition ar_encode_request (t : Z) (group name : bytes) (op : ArReq) : outcome message :=
  init ← header (match op with ArqSet _ _ => 17 | _ => 16 end) t;
  init ← match op with ArqSet _ return_old => set_index init 16 (bool_u8 return_old) | _ => Ok init end;
  Ok (initial_frame init :: group_and_name group name
      ++ match op with
         | ArqGet => []
         | ArqSet new _ => [nullable new]
         | ArqCompareAndSet old new => [nullable old; nullable new]
         | ArqContains v => [nullable v]
         end).

(** ** Latches and semaphores *)

Inductive CpCountReq :=
| CcGetCount | CcCountDown | CcTrySetCount (n : Z) | CcInit (n : Z) | CcAcquire (n : Z) | CcRelease (n : Z) | CcDrain | CcAvailable.
Record CpCountRequest := mkCcRequest { ccr_name : bytes; ccr_op : CpCountReq }.

Definition cc_response_type (t : Z) : option Z :=
  response_in t [721920; 721664; 721152; 786688; 786944; 787200; 787456; 787968].
Definition is_cp_count (t : Z) : bool := bool_decide (is_Some (cc_response_type t)).

Definition cc_op (t : Z) (frames : message) : outcome (option CpCountReq) :=
  if t =? 721920 then Ok (Some CcGetCount)
  else if t =? 721664 then Ok (Some CcCountDown)
  else if t =? 721152 then n ← int_at frames 16; Ok (Some (CcTrySetCount n))
  else if t =? 786688 then n ← int_at frames 16; Ok (Some (CcInit n))
  else if t =? 786944 then n ← int_at frames 49; Ok (Some (CcAcquire n))
  else if t =? 787200 then n ← int_at frames 49; Ok (Some (CcRelease n))
  else if t =? 787456 then Ok (Some CcDrain)
  else if t =? 787968 then Ok (Some CcAvailable)
  else Ok None.

Definition cc_decode_request (t : Z) (frames : message) : outcome (option CpCountRequest) :=
  match last_frame frames with
  | None => Ok None
  | Some n => name ← decode_string n; o ← cc_op t frames; Ok (option_map (mkCcRequest name) o)
  end.

Definition cc_encode_request (t : Z) (group name : bytes) (int_off : nat) (value : Z) : outcome message :=
  init ← header (Nat.max int_off 16 + 4) t;
  init ← if (16 <=? int_off)%nat then write_i32_le init int_off value else Ok init;
  Ok (initial_frame init :: group_and_name group name).

Definition encode_int_response (resp_type v : Z) : outcome message :=
  c ← header 17 resp_type; c ← write_i32_le c 13 v; Ok [initial_frame c].

(** ** Maps *)

Inductive CpMapReq :=
| CmGet (k : bytes) | CmPut (k v : bytes) | CmSet (k v : bytes) | CmRemove (k : bytes) | CmDelete (k : bytes)
| CmCompareAndSet (k e n : bytes) | CmPutIfAbsent (k v : bytes).
Record CpMapRequest := mkCmRequest { cmr_name : bytes; cmr_op : CpMapReq }.

Definition is_cpmap (t : Z) : bool := existsb (Z.eqb t) [2294016; 2294272; 2294528; 2294784; 2295040; 2295296; 2295552].

Definition cm_data (frames : message) (i : nat) : bytes := default [] (nullable_data frames i).

Definition cm_decode_request (t : Z) (frames : message) : outcome (option CpMapRequest) :=
  match frames !! NAME_FRAME with
  | None => Ok None
  | Some n =>
    name ← decode_string n;
    let key := cm_data frames 6 in
    let val := cm_data frames 7 in
    Ok (option_map (mkCmRequest name)
        (if t =? 2294016 then Some (CmGet key)
         else if t =? 2294784 then Some (CmRemove key)
         else if t =? 2295040 then Some (CmDelete key)
         else if t =? 2294272 then Some (CmPut key val)
         else if t =? 2294528 then Some (CmSet key val)
         else if t =? 2295552 then Some (CmPutIfAbsent key val)
         else if t =? 2295296 then Some (CmCompareAndSet key val (cm_data frames 8))
         else None))
  end.

Definition cm_req_type (op : CpMapReq) : Z :=
  match op with
  | CmGet _ => 2294016 | CmPut _ _ => 2294272 | CmSet _ _ => 2294528 | CmRemove _ => 2294784 | CmDelete _ => 2295040
  | CmCompareAndSet _ _ _ => 2295296 | CmPutIfAbsent _ _ => 2295552
  end.

Definition cm_encode_request (t : Z) (group name : bytes) (op : CpMapReq) : outcome message :=
  init ← header 16 t;
  Ok (initial_frame init :: group_and_name group name
      ++ map data_frame match op with
         | CmGet k | CmRemove k | CmDelete k => [k]
         | CmPut k v | CmSet k v | CmPutIfAbsent k v => [k; v]
         | CmCompareAndSet k e n => [k; e; n]
         end).

(** ** Sessions *)

Inductive CpSessionReq := CsCreate | CsClose (id : Z) | CsHeartbeat (id : Z) | CsGenerateThreadId.

Definition cs_response_type (t : Z) : option Z := response_in t [2031872; 2032128; 2032384; 2032640].
Definition is_cp_session (t : Z) : bool := bool_decide (is_Some (cs_response_type t)).

Definition cs_decode_request (t : Z) (frames : message) : outcome (option CpSessionReq) :=
  if t =? 2031872 then Ok (Some CsCreate)
  else if t =? 2032128 then id ← long_at frames 16; Ok (Some (CsClose id))
  else if t =? 2032384 then id ← long_at frames 16; Ok (Some (CsHeartbeat id))
  else if t =? 2032640 then Ok (Some CsGenerateThreadId)
  else Ok None.

Definition encode_create_response (resp_type session_id ttl_ms hb_ms : Z) : outcome message :=
  c ← header 37 resp_type; c ← write_i64_le c 13 session_id; c ← write_i64_le c 21 ttl_ms; c ← write_i64_le c 29 hb_ms;
  Ok [initial_frame c].

(** ** Fenced locks *)

Inductive FlReq := FlrLock | FlrTryLock | FlrUnlock.
Record FencedLockRequest := mkFlRequest { flr_name : bytes; flr_session : Z; flr_thread : Z; flr_op : FlReq }.

Definition fl_response_type (t : Z) : option Z := response_in t [459008; 459264; 459520].
Definition is_fencedlock (t : Z) : bool := bool_decide (is_Some (fl_response_type t)).

Definition fl_op (t : Z) : option FlReq :=
  if t =? 459008 then Some FlrLock else if t =? 459264 then Some FlrTryLock else if t =? 459520 then Some FlrUnlock else None.

Definition fl_decode_request (t : Z) (frames : message) : outcome (option FencedLockRequest) :=
  match fl_op t, last_frame frames with
  | Some op, Some n =>
    name ← decode_string n; session ← long_at frames 16; thread ← long_at frames 24;
    Ok (Some (mkFlRequest name session thread op))
  | _, _ => Ok None
  end.

Definition fl_req_type (op : FlReq) : Z := match op with FlrLock => 459008 | FlrTryLock => 459264 | FlrUnlock => 459520 end.

Definition fl_encode_request (t : Z) (group name : bytes) (session thread : Z) : outcome message :=
  init ← header 49 t; init ← write_i64_le init 16 session; init ← write_i64_le init 24 thread;
  Ok (initial_frame init :: group_and_name group name).

(** ** Round trips *)

(** Splits the bytes of an integer, so that what is written at fixed positions computes. *)
Ltac split_le n v :=
  let l := fresh "l" in let E := fresh "E" in
  pose proof (length_to_le n v); remember (to_le n v) as l eqn:E;
  repeat (destruct l as [| ? l]; [discriminate |]); destruct l; [| discriminate].

Lemma from_le_i64 v : is_i64 v -> from_le_i (to_le 8 v) = v.
Proof. intros H. apply from_le_i_to_le; [lia | exact H]. Qed.
Lemma from_le_i32 v : is_i32 v -> from_le_i (to_le 4 v) = v.
Proof. intros H. apply from_le_i_to_le; [lia | exact H]. Qed.

Lemma decode_name_frame name : utf8_valid name = true -> decode_string (mkFrame 0 name) = Ok name.
Proof. intros H. unfold decode_string. cbn. by rewrite from_utf8_valid. Qed.

(** Evaluates a request whose integers were split, and the decoder on it. *)
Ltac run_request :=
  eexists; split; [cbv -[from_le_i decode_string al_req_type ar_req_type cm_req_type fl_req_type]; reflexivity |];
  unfold msg_type, read_i32_le, read_i64_le; cbn;
  rewrite ?decode_name_frame by done; cbn;
  repeat match goal with E : _ :: _ = to_le _ _ |- _ => rewrite E; clear E end;
  rewrite ?from_le_i32, ?from_le_i64 by done; try done.

Section RoundTrips.
Context (group name : bytes) (Hn : utf8_valid name = true).

Definition al_op_ok (op : AtomicLongOp) : Prop :=
  match op with AlqGet => True | AlqSet v | AlqGetAndSet v | AlqAddAndGet v | AlqGetAndAdd v => is_i64 v | AlqCompareAndSet e u => is_i64 e /\ is_i64 u end.

Lemma al_roundtrip op : al_op_ok op ->
  exists m, al_encode_request (al_req_type op) group name op = Ok m
    /\ msg_type m = Ok (al_req_type op) /\ al_decode_request (al_req_type op) m = Ok (Some (mkAlRequest name op)).
Proof.
  intros Hop. unfold al_encode_request, header, write_i32_le, write_i64_le. set (t := al_req_type op).
  assert (is_i32 t) as Ht by (by destruct op). split_le 4%nat t. unfold al_decode_request, al_op.
  destruct op as [| v | v | v | v | e u]; cbn in Hop; try (split_le 8%nat v); [| | | | | destruct Hop; split_le 8%nat e; split_le 8%nat u];
    run_request.
Qed.

Lemma ar_roundtrip op :
  exists m, ar_encode_request (ar_req_type op) group name op = Ok m
    /\ msg_type m = Ok (ar_req_type op) /\ ar_decode_request (ar_req_type op) m = Ok (Some (mkArRequest name op)).
Proof.
  unfold ar_encode_request, header, write_i32_le. set (t := ar_req_type op).
  assert (is_i32 t) as Ht by (by destruct op). split_le 4%nat t. unfold ar_decode_request.
  destruct op as [| [new |] [|] | [old |] [new |] | [v |]]; run_request.
Qed.

Lemma cm_roundtrip op :
  exists m, cm_encode_request (cm_req_type op) group name op = Ok m
    /\ msg_type m = Ok (cm_req_type op) /\ cm_decode_request (cm_req_type op) m = Ok (Some (mkCmRequest name op)).
Proof.
  unfold cm_encode_request, header, write_i32_le. set (t := cm_req_type op).
  assert (is_i32 t) as Ht by (by destruct op). split_le 4%nat t. unfold cm_decode_request.
  destruct op; run_request.
Qed.

Lemma fl_roundtrip op session thread : is_i64 session -> is_i64 thread ->
  exists m, fl_encode_request (fl_req_type op) group name session thread = Ok m
    /\ msg_type m = Ok (fl_req_type op) /\ fl_decode_request (fl_req_type op) m = Ok (Some (mkFlRequest name session thread op)).
Proof.
  intros Hs Ht. unfold fl_encode_request, header, write_i32_le, write_i64_le. set (t := fl_req_type op).
  assert (is_i32 t) as Hi by (by destruct op). split_le 4%nat t. split_le 8%nat session. split_le 8%nat thread.
  unfold fl_decode_request. destruct op; run_request.
Qed.
End RoundTrips.
