(* ===== verification/Services.v ===== *)
(** * The services a member's reactor dispatches to

    The event broker (crates/server/src/events.rs), transactions (txn.rs), the executor
    (executor.rs), the SQL catalog (catalog.rs), the service of jobs (crates/jet/src/executor.rs) and
    the handle to the member thread (member_thread.rs: [Replicator]). *)

From S2P Require Import Prelude Fixed Frame FieldValue QueryIndex QueryWire Schema Codecs CpReply MemberWire Membership Sql.

(** ** The event broker *)

Record Listener := mkListener {
  l_conn_id : Z; l_corr : Z; l_flags : Z; l_include_value : bool; l_predicate : option Predicate }.

(** A subscriber of a topic, or a near cache: its connection and its correlation id. *)
Record TopicSub := mkSub { t_conn_id : Z; t_corr : Z }.

Record EventBroker := mkBroker {
  listeners : gmap bytes (list Listener);
  topics : gmap bytes (list TopicSub);
  near_caches : gmap bytes (list TopicSub);
  event_queues : gmap Z (list bytes);
  cluster_view : gmap Z Z;
  member_uuid : uuid;
  nc_seq : Z
}.

Definition new_broker (u : uuid) : EventBroker := mkBroker ∅ ∅ ∅ ∅ ∅ u 1.

Definition set_listeners (f : gmap bytes (list Listener) -> gmap bytes (list Listener)) (b : EventBroker) : EventBroker :=
  mkBroker (f (listeners b)) (topics b) (near_caches b) (event_queues b) (cluster_view b) (member_uuid b) (nc_seq b).
Definition set_topics (f : gmap bytes (list TopicSub) -> gmap bytes (list TopicSub)) (b : EventBroker) : EventBroker :=
  mkBroker (listeners b) (f (topics b)) (near_caches b) (event_queues b) (cluster_view b) (member_uuid b) (nc_seq b).
Definition set_near_caches (f : gmap bytes (list TopicSub) -> gmap bytes (list TopicSub)) (b : EventBroker) : EventBroker :=
  mkBroker (listeners b) (topics b) (f (near_caches b)) (event_queues b) (cluster_view b) (member_uuid b) (nc_seq b).
Definition set_event_queues (f : gmap Z (list bytes) -> gmap Z (list bytes)) (b : EventBroker) : EventBroker :=
  mkBroker (listeners b) (topics b) (near_caches b) (f (event_queues b)) (cluster_view b) (member_uuid b) (nc_seq b).
Definition set_cluster_view (f : gmap Z Z -> gmap Z Z) (b : EventBroker) : EventBroker :=
  mkBroker (listeners b) (topics b) (near_caches b) (event_queues b) (f (cluster_view b)) (member_uuid b) (nc_seq b).
Definition set_nc_seq (v : Z) (b : EventBroker) : EventBroker :=
  mkBroker (listeners b) (topics b) (near_caches b) (event_queues b) (cluster_view b) (member_uuid b) v.

(** [entry(k).or_default().push(x)] *)
Definition push_at {K A} `{Countable K} (k : K) (x : A) (m : gmap K (list A)) : gmap K (list A) :=
  <[k := default [] (m !! k) ++ [x]]> m.
(** [get(k).map(|v| !v.is_empty()).unwrap_or(false)] *)
Definition some_at {A} (k : bytes) (m : gmap bytes (list A)) : bool := match m !! k with Some (_ :: _) => true | _ => false end.

Definition enqueue (conn_id : Z) (msg : bytes) (b : EventBroker) : EventBroker := set_event_queues (push_at conn_id msg) b.
Definition enqueue_all (l : list (Z * bytes)) (b : EventBroker) : EventBroker := foldl (fun b e => enqueue e.1 e.2 b) b l.

Definition register_near_cache (map : bytes) (conn_id corr : Z) (b : EventBroker) : EventBroker :=
  set_near_caches (push_at map (mkSub conn_id corr)) b.
Definition has_near_cache (map : bytes) (b : EventBroker) : bool := some_at map (near_caches b).

(** Encoding one event per subscriber. *)
Fixpoint events_for {A} (encode : A -> outcome (option (Z * bytes))) (l : list A) : outcome (list (Z * bytes)) :=
  match l with
  | [] => Ok []
  | x :: l' => e ← encode x; rest ← events_for encode l'; Ok (match e with Some e => e :: rest | None => rest end)
  end.

Definition invalidate (map key : bytes) (b : EventBroker) : outcome EventBroker :=
  let seq := nc_seq b in
  let b := set_nc_seq (wrap_i64 (seq + 1)) b in
  match near_caches b !! map with
  | None => Ok b
  | Some subs =>
    l ← events_for (fun s => e ← encode_invalidation_event (t_corr s) (member_uuid b) (member_uuid b) seq key; Ok (Some (t_conn_id s, e))) subs;
    Ok (enqueue_all l b)
  end.

Definition register (map : bytes) (conn_id corr flags : Z) (include_value : bool) (b : EventBroker) : EventBroker :=
  set_listeners (push_at map (mkListener conn_id corr flags include_value None)) b.
Definition register_with_predicate (map : bytes) (conn_id corr flags : Z) (include_value : bool) (predicate_data : bytes) (b : EventBroker) :
    outcome EventBroker :=
  p ← QueryWire.decode predicate_data;
  Ok (set_listeners (push_at map (mkListener conn_id corr flags include_value (Some p))) b).
Definition has_listeners (map : bytes) (b : EventBroker) : bool := some_at map (listeners b).

Section Publish.
Context (extract : bytes -> bytes -> FieldValue) (text_match : TextKind -> bytes -> bytes -> bool).

(** The listener asked for the type of event, and its predicate holds of the value. *)
Definition wants (event_type : Z) (value old : option bytes) (l : Listener) : bool :=
  negb (Z.land event_type (l_flags l) =? 0)
  && match l_predicate l with
     | None => true
     | Some pred =>
       match (if event_type =? REMOVED then old else value) with
       | Some v => eval extract text_match pred v
       | None => false
       end
     end.

Definition entry_event (event_type : Z) (u : uuid) (key : bytes) (value old : option bytes) (l : Listener) : outcome (option (Z * bytes)) :=
  if wants event_type value old l then
    let '(v, o) := if l_include_value l then (value, old) else (None, None) in
    e ← encode_entry_event (l_corr l) event_type u (Some key) v o;
    Ok (Some (l_conn_id l, e))
  else Ok None.

Definition publish (map : bytes) (event_type : Z) (key : bytes) (value old : option bytes) (b : EventBroker) : outcome EventBroker :=
  match listeners b !! map with
  | None => Ok b
  | Some ls => l ← events_for (entry_event event_type (member_uuid b) key value old) ls; Ok (enqueue_all l b)
  end.
End Publish.

Definition register_topic (name : bytes) (conn_id corr : Z) (b : EventBroker) : EventBroker :=
  set_topics (push_at name (mkSub conn_id corr)) b.
Definition publish_topic (name item : bytes) (b : EventBroker) : outcome EventBroker :=
  match topics b !! name with
  | None => Ok b
  | Some subs =>
    l ← events_for (fun s => e ← encode_topic_event (t_corr s) 0 (member_uuid b) item; Ok (Some (t_conn_id s, e))) subs;
    Ok (enqueue_all l b)
  end.

Definition register_cluster_view (conn_id corr : Z) (b : EventBroker) : EventBroker := set_cluster_view <[conn_id := corr]> b.
Definition cluster_view_listeners (b : EventBroker) : list (Z * Z) := map_to_list (cluster_view b).

Definition drain (conn_id : Z) (b : EventBroker) : EventBroker * list bytes :=
  (set_event_queues (delete conn_id) b, default [] (event_queues b !! conn_id)).

Definition drop_conn (conn_id : Z) (b : EventBroker) : EventBroker :=
  let keep_l := fun ls => filter (fun l => l_conn_id l <> conn_id) ls in
  let keep_s := fun ss => filter (fun s => t_conn_id s <> conn_id) ss in
  set_cluster_view (delete conn_id) (set_near_caches (fmap keep_s) (set_topics (fmap keep_s)
    (set_listeners (fmap keep_l) (set_event_queues (delete conn_id) b)))).

(** ** Transactions *)

Inductive TxnMutation := TxPut (map key value : bytes) | TxRemove (map key : bytes).

(** [contexts[u].mutations] of every open transaction. *)
Record TransactionService := mkTxns { contexts : gmap uuid (list TxnMutation); next_id : Z }.
Definition new_txns : TransactionService := mkTxns ∅ 1.

Definition begin_txn (t : TransactionService) : TransactionService * uuid :=
  let u := (next_id t, next_id t) in (mkTxns (<[u := []]> (contexts t)) (wrap_i64 (next_id t + 1)), u).
Definition buffer_put (u : uuid) (map key value : bytes) (t : TransactionService) : TransactionService :=
  mkTxns (alter (fun ms => ms ++ [TxPut map key value]) u (contexts t)) (next_id t).
Definition buffer_remove (u : uuid) (map key : bytes) (t : TransactionService) : TransactionService :=
  mkTxns (alter (fun ms => ms ++ [TxRemove map key]) u (contexts t)) (next_id t).
Definition rollback (u : uuid) (t : TransactionService) : TransactionService := mkTxns (delete u (contexts t)) (next_id t).
(** The buffered mutations, and the service without them: what [commit] takes before applying them. *)
Definition take_txn (u : uuid) (t : TransactionService) : TransactionService * option (list TxnMutation) :=
  (mkTxns (delete u (contexts t)) (next_id t), contexts t !! u).

(** ** The executor: tasks are kept, and answered with nothing *)

Abbreviation ExecutorService := (gmap bytes (list bytes)).
Definition submit_task (name callable : bytes) (e : ExecutorService) : ExecutorService * option bytes := (push_at name callable e, None).

(** ** The catalog *)

Abbreviation Catalog := (gmap bytes Mapping).
Definition put_mapping (m : Mapping) (c : Catalog) : Catalog := <[mp_name m := m]> c.
Definition get_mapping (name : bytes) (c : Catalog) : option Mapping := c !! name.

(** ** Jobs *)

(** The status of every job: 1 running, 2 completed. *)
Record JetService := mkJet { jobs : gmap Z Z; next_job : Z }.
Definition new_jet : JetService := mkJet ∅ 1.
Definition submit_job (j : JetService) : JetService * Z :=
  (mkJet (<[next_job j := 1]> (jobs j)) (wrap_i64 (next_job j + 1)), next_job j).
(** What the thread that joins the workers does. *)
Definition complete_job (id : Z) (j : JetService) : JetService := mkJet (alter (fun _ => 2) id (jobs j)) (next_job j).
Definition get_status (id : Z) (j : JetService) : Z := default 0 (jobs j !! id).

(** ** The handle to the member thread *)

Inductive ReplyKind := KLong | KBool | KVoid | KData | KInt | KSession.

Inductive MemberJob :=
| JReplicate (partition op_id : Z) (msg : Msg) (conn_id : Z) (response : bytes)
| JMembership (c : Cluster)
| JCpSubmit (group : bytes) (conn_id correlation resp_type : Z) (kind : ReplyKind) (command : bytes)
| JSqlScatter (conn_id correlation : Z) (sql : bytes).

(** The ring is a queue of bounded length: its producer finds it full or appends. *)
Record Replicator := mkReplicator { ring_jobs : list MemberJob; ring_cap : nat; next_op : Z; rep_backups : nat }.
Definition new_replicator (cap backups : nat) : Replicator := mkReplicator [] cap 1 backups.

Definition has_backups (r : Replicator) : bool := (0 <? rep_backups r)%nat.

Definition push_job (j : MemberJob) (r : Replicator) : Replicator * bool :=
  if (length (ring_jobs r) <? ring_cap r)%nat
  then (mkReplicator (ring_jobs r ++ [j]) (ring_cap r) (next_op r) (rep_backups r), true)
  else (r, false).

Definition replicate (partition conn_id : Z) (response : bytes) (mk : Z -> Msg) (r : Replicator) : Replicator * bool :=
  if (rep_backups r =? 0)%nat then (r, false)
  else
    let op := next_op r in
    push_job (JReplicate partition op (mk op) conn_id response)
      (mkReplicator (ring_jobs r) (ring_cap r) (wrap_u64 (op + 1)) (rep_backups r)).

Definition send_membership (c : Cluster) (r : Replicator) : Replicator := (push_job (JMembership c) r).1.
Definition submit_cp (group : bytes) (conn_id correlation resp_type : Z) (kind : ReplyKind) (command : bytes) (r : Replicator) :
    Replicator * bool := push_job (JCpSubmit group conn_id correlation resp_type kind command) r.
Definition scatter_sql (conn_id correlation : Z) (sql : bytes) (r : Replicator) : Replicator * bool :=
  push_job (JSqlScatter conn_id correlation sql) r.

(** ** What a connection is sent *)

(** The messages of a list that are for a connection. *)
Definition for_conn (c : Z) (l : list (Z * bytes)) : list bytes := map snd (filter (fun e => e.1 = c) l).

Definition queue_of (c : Z) (b : EventBroker) : list bytes := default [] (event_queues b !! c).

Lemma queue_of_enqueue c conn msg b : queue_of c (enqueue conn msg b) = queue_of c b ++ (if decide (conn = c) then [msg] else []).
Proof.
  unfold queue_of, enqueue, set_event_queues, push_at. cbn [event_queues]. case_decide as Hc.
  - subst. by rewrite lookup_insert_eq.
  - rewrite lookup_insert_ne by done. by rewrite app_nil_r.
Qed.

Lemma queue_of_enqueue_all c l : forall b, queue_of c (enqueue_all l b) = queue_of c b ++ for_conn c l.
Proof.
  induction l as [| [conn msg] l IH]; intros b; [by rewrite app_nil_r |]. unfold enqueue_all. cbn [foldl].
  change (foldl (fun b e => enqueue e.1 e.2 b) (enqueue (conn, msg).1 (conn, msg).2 b) l) with (enqueue_all l (enqueue conn msg b)).
  rewrite IH, queue_of_enqueue, <- app_assoc. f_equal. unfold for_conn. rewrite filter_cons. cbn [fst].
  by case_decide.
Qed.

(** Queueing does not touch the registrations. *)
Lemma listeners_enqueue_all l : forall b, listeners (enqueue_all l b) = listeners b.
Proof. induction l as [| e l IH]; intros b; [done |]. unfold enqueue_all in *. cbn [foldl]. by rewrite IH. Qed.

Lemma events_for_map {A} (encode : A -> outcome (option (Z * bytes))) (f : A -> option (Z * bytes)) l :
  (forall x, x ∈ l -> encode x = Ok (f x)) -> events_for encode l = Ok (omap f l).
Proof.
  induction l as [| x l IH]; intros H; [done |]. cbn [events_for omap list_omap].
  rewrite H by (by left). cbn [mbind outcome_bind]. rewrite IH by (intros y Hy; apply H; by right). cbn [mbind outcome_bind].
  by destruct (f x).
Qed.

Section Delivery.
Context (extract : bytes -> bytes -> FieldValue) (text_match : TextKind -> bytes -> bytes -> bool).

(** The event a listener is sent. *)
Definition event_of (event_type : Z) (u : uuid) (key : bytes) (value old : option bytes) (l : Listener) : bytes :=
  let '(v, o) := if l_include_value l then (value, old) else (None, None) in
  match encode_entry_event (l_corr l) event_type u (Some key) v o with Ok e => e | Panic => [] end.

Lemma entry_event_is ty u key value old l :
  entry_event extract text_match ty u key value old l
  = Ok (if wants extract text_match ty value old l then Some (l_conn_id l, event_of ty u key value old l) else None).
Proof.
  unfold entry_event, event_of. destruct (wants _ _ _ _ _ _); [| done].
  destruct (l_include_value l);
    [destruct (entry_event_total (l_corr l) ty u (Some key) value old) as (e & ->)
    | destruct (entry_event_total (l_corr l) ty u (Some key) None None) as (e & ->)]; done.
Qed.

Lemma publish_delivers map ty key value old b :
  exists b', publish extract text_match map ty key value old b = Ok b'
    /\ listeners b' = listeners b
    /\ forall c, queue_of c b' = queue_of c b
         ++ List.map (event_of ty (member_uuid b) key value old)
              (filter (fun l => l_conn_id l = c /\ wants extract text_match ty value old l = true) (default [] (listeners b !! map))).
Proof.
  unfold publish. destruct (listeners b !! map) as [ls |]; cbn [default from_option id].
  2: { exists b. split_and!; [done | done |]. intros c. by rewrite filter_nil, app_nil_r. }
  rewrite (events_for_map _ (fun l => if wants extract text_match ty value old l then Some (l_conn_id l, event_of ty (member_uuid b) key value old l) else None))
    by (intros; apply entry_event_is). cbn [mbind outcome_bind].
  eexists. split; [done |]. split; [apply listeners_enqueue_all |]. intros c. rewrite queue_of_enqueue_all. f_equal.
  unfold for_conn. induction ls as [| l ls IH]; [done |]. cbn [omap list_omap]. rewrite filter_cons.
  destruct (wants extract text_match ty value old l) eqn:E.
  - rewrite filter_cons. cbn [fst]. case_decide as Hc.
    + rewrite decide_True by done. cbn [List.map snd]. by rewrite IH.
    + rewrite decide_False by (intros [? _]; done). apply IH.
  - rewrite decide_False by (intros [_ ?]; done). apply IH.
Qed.
Lemma invalidate_total map key b : exists b', invalidate map key b = Ok b'.
Proof.
  unfold invalidate. cbn [near_caches set_nc_seq]. destruct (near_caches b !! map) as [subs |]; [| eauto].
  set (event := fun s => match encode_invalidation_event (t_corr s) (member_uuid b) (member_uuid b) (nc_seq b) key with Ok e => e | Panic => [] end).
  rewrite (events_for_map _ (fun s => Some (t_conn_id s, event s))); [cbn [mbind outcome_bind]; eauto |].
  intros s _. unfold event. cbn [member_uuid set_nc_seq]. by destruct (invalidation_event_total (t_corr s) (member_uuid b) (member_uuid b) (nc_seq b) key) as (e & ->).
Qed.

(** Publishing an event never fails, and sends to every connection, after what it already had, one
    event per listener it registered on the map that wants the event, in the order of registration;
    a listener wants the types it asked for, of entries whose new value (the old one, for a removal)
    its predicate holds of. *)
Theorem events_reach_their_listeners map ty key value old b :
  exists b', publish extract text_match map ty key value old b = Ok b'
    /\ listeners b' = listeners b
    /\ forall c, queue_of c b' = queue_of c b
         ++ List.map (event_of ty (member_uuid b) key value old)
              (filter (fun l => l_conn_id l = c /\ wants extract text_match ty value old l = true) (default [] (listeners b !! map))).
Proof. apply publish_delivers. Qed.
End Delivery.

(** A connection that was dropped has nothing queued and no registration left. *)
Lemma dropped_connection_is_gone c map b :
  queue_of c (drop_conn c b) = []
  /\ Forall (fun l => l_conn_id l <> c) (default [] (listeners (drop_conn c b) !! map))
  /\ Forall (fun s => t_conn_id s <> c) (default [] (topics (drop_conn c b) !! map))
  /\ Forall (fun s => t_conn_id s <> c) (default [] (near_caches (drop_conn c b) !! map))
  /\ cluster_view (drop_conn c b) !! c = None.
Proof.
  unfold queue_of, drop_conn. cbn. rewrite !lookup_fmap, !lookup_delete_eq. split_and!; try done.
  - destruct (listeners b !! map) as [l |]; cbn; [| constructor]. apply Forall_forall. intros x [? _]%list_elem_of_filter. done.
  - destruct (topics b !! map) as [l |]; cbn; [| constructor]. apply Forall_forall. intros x [? _]%list_elem_of_filter. done.
  - destruct (near_caches b !! map) as [l |]; cbn; [| constructor]. apply Forall_forall. intros x [? _]%list_elem_of_filter. done.
Qed.
