(* ===== verification/Handlers.v ===== *)
(** * The dispatch of client messages (crates/server/src/handlers.rs)

    A member's reactor state, and one definition per group of message types of [dispatch], composed in
    [dispatch] as the arms of its match; then the connection's principal, the permission gate and the
    fast path of [dispatch_bytes].  The clock is read once per message. *)

From S2P Require Import Prelude Text Fixed Frame FieldValue QueryIndex QueryWire Schema Extract Partition Table Hlc Hll WalRecord AuxStore AuxState KeyLocks Store Codecs CpCodecs CpReply AtomicLong AtomicRef CountDownLatch Semaphore FencedLock Session CpMap CpSm MemberWire Membership Sql JsonFlat SqlExec Agg Security Services.

Definition CLUSTER_ID : uuid := (2, 2).
Definition SERVER_VERSION : bytes := bstr "5.8.0".
Definition TPC_TOKEN : bytes := bstr "bonsaigrid-tpc-token".
Definition REGISTRATION_UUID : uuid := (3, 3).

Record Member := mkMember { mb_uuid : uuid; mb_host : bytes; mb_port : Z }.
Record Cfg := mkCfg {
  cf_members : list Member; cf_self_index : nat; cf_tpc_ports : list Z; cf_cluster_name : bytes;
  cf_username : option bytes; cf_password : option bytes; cf_security : StaticIdentityProvider }.

Definition self_uuid_of (cfg : Cfg) : outcome uuid := m ← index (cf_members cfg) (cf_self_index cfg); Ok (mb_uuid m).

(** ** Entry processors (entry_processor.rs) *)

(** From a key and its value: the new value and the result, or an error. *)
Definition EntryProcessor : Type := bytes -> option bytes -> option (option bytes * option bytes).

(** No processor is known yet. *)
Definition parse_processor (data : bytes) : option EntryProcessor := None.

(** ** Responses built here *)

Definition empty_response (msg_type : Z) : outcome message := c ← header 13 msg_type; Ok [mkFrame UNFRAGMENTED c].
Definition uuid_response (msg_type : Z) (u : uuid) : outcome message :=
  c ← header 30 msg_type; c ← write_uuid c 13 (Some u); Ok [mkFrame UNFRAGMENTED c].

Definition error_response (error_code : Z) (class_name text : bytes) : outcome message :=
  hdr ← header 13 0; code ← write_i32_le (zeroed 4) 0 error_code;
  Ok [mkFrame UNFRAGMENTED hdr; begin_frame; begin_frame; plain code; string_frame class_name; string_frame text;
      begin_frame; end_frame; end_frame; end_frame].

Definition is_quorum_gated_write (t : Z) : bool :=
  one_of t [65792; 69376; 66304; 67840; 76800; 77312; 328704; 328960; 329984; 394240; 394496; 395520;
            196864; 197888; 197632; 200448; 131328; 131840; 1508864; 1901056; 1638656].

(** [format!("\u{1}repl:{name}")] *)
Definition repl (name : bytes) : bytes := b8 1 :: bstr "repl:" ++ name.

Definition cp_group_name (req : message) : bytes :=
  match req !! 3%nat with
  | Some f => match from_utf8_lossy (content f) with [] => bstr "default" | n => n end
  | None => bstr "default"
  end.

(** [{:016x}] of a 64-bit integer. *)
Definition hex16 (v : Z) : bytes :=
  map (fun i => to_hex_digit (wrap_u64 v / 16 ^ Z.of_nat (15 - i) mod 16)) (seq 0 16).

(** A quoted word, and a line break with its indentation. *)
Definition quoted (s : bytes) : bytes := b8 34 :: s ++ [b8 34].
Definition line (indent : nat) : bytes := b8 10 :: repeat (b8 32) indent.

Definition timed_member_state (u : uuid) : bytes :=
  bstr "{" ++ line 16 ++ quoted (bstr "memberState") ++ bstr ": {"
  ++ line 20 ++ quoted (bstr "address") ++ bstr ": " ++ quoted (bstr "127.0.0.1:5701") ++ bstr ","
  ++ line 20 ++ quoted (bstr "uuid") ++ bstr ": " ++ quoted (hex16 u.1 ++ hex16 u.2) ++ bstr ","
  ++ line 20 ++ quoted (bstr "mapStats") ++ bstr ": {},"
  ++ line 20 ++ quoted (bstr "clients") ++ bstr ": []"
  ++ line 16 ++ bstr "},"
  ++ line 16 ++ quoted (bstr "clusterState") ++ bstr ": " ++ quoted (bstr "ACTIVE") ++ bstr ","
  ++ line 16 ++ quoted (bstr "master") ++ bstr ": true"
  ++ line 12 ++ bstr "}".

Definition http_health (path : bytes) (cluster_size : Z) : Z * bytes * bytes :=
  let text := bstr "text/plain" in
  if decide (path = bstr "/hazelcast/health/node-state") then (200, text, bstr "ACTIVE")
  else if decide (path = bstr "/hazelcast/health/cluster-state") then (200, text, bstr "ACTIVE")
  else if decide (path = bstr "/hazelcast/health/cluster-safe") then (200, text, bstr "TRUE")
  else if decide (path = bstr "/hazelcast/health/migration-queue-size") then (200, text, bstr "0")
  else if decide (path = bstr "/hazelcast/health/cluster-size") then (200, text, int_to_string cluster_size)
  else if decide (path = bstr "/hazelcast/health/ready") then (200, text, [])
  else if decide (path ∈ [bstr "/hazelcast/health"; bstr "/hazelcast/health/"]) then
    (200, bstr "application/json",
     bstr "{" ++ quoted (bstr "nodeState") ++ bstr ":" ++ quoted (bstr "ACTIVE") ++ bstr "," ++ quoted (bstr "clusterState") ++ bstr ":"
     ++ quoted (bstr "ACTIVE") ++ bstr "," ++ quoted (bstr "clusterSafe") ++ bstr ":true," ++ quoted (bstr "migrationQueueSize")
     ++ bstr ":0," ++ quoted (bstr "clusterSize") ++ bstr ":" ++ int_to_string cluster_size ++ bstr "}")
  else (404, text, bstr "Not Found").

Section Server.
Context {X : MapStore} {I : Iteration} {J : SerdeJson} {K : Pbkdf2}.
Context (text_match : TextKind -> bytes -> bytes -> bool) (f64_to_string : Z -> bytes) (parse_f64 : bytes -> option Z)
  (group_iter : gmap row (list entry) -> list (row * list entry)).
(** The estimate of a sketch, which is floating-point, and the rendering of a value that is neither
    text nor a 64-bit integer. *)
Context (hll_estimate : Hll -> Z) (debug_value : FieldValue -> bytes).

(** ** The state of a reactor *)

Record Server := mkServer {
  sv_store : Store (X := X);
  sv_locks : Locks;
  sv_pn_clock : Z;
  sv_schemas : SchemaService;
  sv_broker : EventBroker;
  sv_cluster : Cluster;
  sv_replicator : option Replicator;
  sv_executor : ExecutorService;
  sv_txns : TransactionService;
  sv_jet : JetService;
  sv_catalog : Catalog;
  sv_jobs : list Job
}.

Definition set_store (x : Store (X := X)) (s : Server) : Server :=
  mkServer x (sv_locks s) (sv_pn_clock s) (sv_schemas s) (sv_broker s) (sv_cluster s) (sv_replicator s) (sv_executor s) (sv_txns s) (sv_jet s) (sv_catalog s) (sv_jobs s).
Definition set_locks (x : Locks) (s : Server) : Server :=
  mkServer (sv_store s) x (sv_pn_clock s) (sv_schemas s) (sv_broker s) (sv_cluster s) (sv_replicator s) (sv_executor s) (sv_txns s) (sv_jet s) (sv_catalog s) (sv_jobs s).
Definition set_pn_clock (x : Z) (s : Server) : Server :=
  mkServer (sv_store s) (sv_locks s) x (sv_schemas s) (sv_broker s) (sv_cluster s) (sv_replicator s) (sv_executor s) (sv_txns s) (sv_jet s) (sv_catalog s) (sv_jobs s).
Definition set_server_schemas (x : SchemaService) (s : Server) : Server :=
  mkServer (sv_store s) (sv_locks s) (sv_pn_clock s) x (sv_broker s) (sv_cluster s) (sv_replicator s) (sv_executor s) (sv_txns s) (sv_jet s) (sv_catalog s) (sv_jobs s).
Definition set_broker (x : EventBroker) (s : Server) : Server :=
  mkServer (sv_store s) (sv_locks s) (sv_pn_clock s) (sv_schemas s) x (sv_cluster s) (sv_replicator s) (sv_executor s) (sv_txns s) (sv_jet s) (sv_catalog s) (sv_jobs s).
Definition set_replicator (x : option Replicator) (s : Server) : Server :=
  mkServer (sv_store s) (sv_locks s) (sv_pn_clock s) (sv_schemas s) (sv_broker s) (sv_cluster s) x (sv_executor s) (sv_txns s) (sv_jet s) (sv_catalog s) (sv_jobs s).
Definition set_executor (x : ExecutorService) (s : Server) : Server :=
  mkServer (sv_store s) (sv_locks s) (sv_pn_clock s) (sv_schemas s) (sv_broker s) (sv_cluster s) (sv_replicator s) x (sv_txns s) (sv_jet s) (sv_catalog s) (sv_jobs s).
Definition set_txns (x : TransactionService) (s : Server) : Server :=
  mkServer (sv_store s) (sv_locks s) (sv_pn_clock s) (sv_schemas s) (sv_broker s) (sv_cluster s) (sv_replicator s) (sv_executor s) x (sv_jet s) (sv_catalog s) (sv_jobs s).
Definition set_jet (x : JetService) (s : Server) : Server :=
  mkServer (sv_store s) (sv_locks s) (sv_pn_clock s) (sv_schemas s) (sv_broker s) (sv_cluster s) (sv_replicator s) (sv_executor s) (sv_txns s) x (sv_catalog s) (sv_jobs s).
Definition set_catalog (x : Catalog) (s : Server) : Server :=
  mkServer (sv_store s) (sv_locks s) (sv_pn_clock s) (sv_schemas s) (sv_broker s) (sv_cluster s) (sv_replicator s) (sv_executor s) (sv_txns s) (sv_jet s) x (sv_jobs s).
Definition set_jobs (x : list Job) (s : Server) : Server :=
  mkServer (sv_store s) (sv_locks s) (sv_pn_clock s) (sv_schemas s) (sv_broker s) (sv_cluster s) (sv_replicator s) (sv_executor s) (sv_txns s) (sv_jet s) (sv_catalog s) x.

(** A handler: the new state and a result, or a panic. *)
Definition handler (A : Type) : Type := Server -> outcome (Server * A).
#[global] Instance handler_ret : MRet handler := fun A a s => Ok (s, a).
#[global] Instance handler_bind : MBind handler := fun A B f m s => '(s, a) ← m s; f a s.

Definition lift {A} (o : outcome A) : handler A := fun s => a ← o; Ok (s, a).
Definition asks {A} (f : Server -> A) : handler A := fun s => Ok (s, f s).
Definition on_store {R} (f : SchemaService -> Store (X := X) -> outcome (Store (X := X) * R)) : handler R :=
  fun s => '(st, r) ← f (sv_schemas s) (sv_store s); Ok (set_store st s, r).
Definition ask_store {R} (f : Store (X := X) -> outcome R) : handler R := fun s => r ← f (sv_store s); Ok (s, r).
Definition on_broker (f : EventBroker -> outcome EventBroker) : handler unit :=
  fun s => b ← f (sv_broker s); Ok (set_broker b s, ()).
Definition on_locks {R} (f : Locks -> R * Locks) : handler R := fun s => let '(r, g) := f (sv_locks s) in Ok (set_locks g s, r).

(** An operation on the other structures: the new state, and what the sinks are told. *)
Definition on_aux {R} (f : Structures -> R * Structures * list Mutation) : handler R := fun s =>
  let '(r, a, ms) := f (structures (sv_store s)) in
  Ok (set_store (foldl (fun st m => emit m st) (set_structures a (sv_store s)) ms) s, r).
Definition ask_aux {R} (f : Structures -> R) : handler R := asks (fun s => f (structures (sv_store s))).
Definition tick_pn : handler Z := fun s => let '(next, now) := pn_tick (sv_pn_clock s) in Ok (set_pn_clock next s, now).

(** One immediate response. *)
Definition reply (o : outcome message) : handler (list message) := m ← lift o; mret [m].

Section Dispatch.
Context (cfg : Cfg) (c : clocks) (req : message) (conn_id corr : Z).

(** ** Replication: was the response deferred? *)

(** Hands a job to the member thread if there is one, it keeps backups, and the partition has one. *)
Definition replicate_job (partition : Z) (resp : message) (mk : Z -> Msg) : handler bool := fun s =>
  match sv_replicator s with
  | None => Ok (s, false)
  | Some r =>
    if negb (has_backups r) then Ok (s, false) else
    bs ← backups_of (sv_cluster s) partition;
    match bs with
    | [] => Ok (s, false)
    | _ => let '(r, deferred) := replicate partition conn_id (write_message resp) mk r in Ok (set_replicator (Some r) s, deferred)
    end
  end.

Definition replicate_write (resp : message) (key : bytes) (mk : Z -> Msg) : handler bool := fun s =>
  match sv_replicator s with
  | None => Ok (s, false)
  | Some r => if negb (has_backups r) then Ok (s, false) else p ← partition_id key PARTITION_COUNT; replicate_job p resp mk s
  end.

(** The response now, or nothing if it was deferred. *)
Definition unless_deferred (resp : message) (deferred : bool) : handler (list message) := mret (if deferred then [] else [resp]).

Definition with_backup (o : outcome message) (key : bytes) (mk : Z -> Msg) : handler (list message) :=
  resp ← lift (m ← o; set_correlation_id m corr);
  deferred ← replicate_write resp key mk;
  unless_deferred resp deferred.

Definition mm_reply (name key : bytes) (o : outcome message) : handler (list message) :=
  resp ← lift (m ← o; set_correlation_id m corr);
  p ← lift (partition_id key PARTITION_COUNT);
  values ← ask_aux (mm_get name key);
  deferred ← replicate_job p resp (fun op => BackupMm op name key values);
  unless_deferred resp deferred.

Definition aux_reply (name : bytes) (o : outcome message) : handler (list message) :=
  resp ← lift (m ← o; set_correlation_id m corr);
  p ← lift (partition_for_name name PARTITION_COUNT);
  payload ← (fun s => b ← aux_state_for_partition p PARTITION_COUNT (structures (sv_store s)); Ok (s, b));
  deferred ← replicate_job p resp (fun op => BackupState op p payload);
  unless_deferred resp deferred.

Definition grant_lock_to_waiter (waiter : option (Z * Z)) : handler unit :=
  match waiter with
  | None => mret ()
  | Some (conn, wcorr) =>
    resp ← lift (m ← empty_response 69633; set_correlation_id m wcorr);
    on_broker (fun b => Ok (enqueue conn (write_message resp) b))
  end.

(** ** Events of a change *)

Definition publish_change (name : bytes) (event_type : Z) (key : bytes) (value old : option bytes) : handler unit := fun s =>
  if has_listeners name (sv_broker s)
  then on_broker (publish (fun v f => field_of v (sv_schemas s) f) text_match name event_type key value old) s
  else Ok (s, ()).
Definition invalidate_near_caches (name key : bytes) : handler unit := fun s =>
  if has_near_cache name (sv_broker s) then on_broker (invalidate name key) s else Ok (s, ()).

(** ** The client service *)

(** The member's own entry of the view, found by its identifier. *)
Definition find_self (u : uuid) (cl : Cluster) : outcome MemberInfo :=
  d ← index (Membership.members cl) 0;
  Ok (default d (List.find (fun m => bool_decide (m_uuid m = u)) (Membership.members cl))).

Definition auth_status (r : AuthRequest) : Z :=
  if negb (bool_decide (au_cluster_name r = cf_cluster_name cfg)) then 3
  else if require_auth (cf_security cfg) then
    match authenticate (cf_security cfg) (au_username r) (au_password r) with Some _ => 0 | None => 1 end
  else match cf_username cfg with
       | Some u => if negb (bool_decide (au_username r = Some u)) || negb (bool_decide (au_password r = cf_password cfg)) then 1 else 0
       | None => 0
       end.

Definition auth_response (status : Z) : handler (list message) := fun s =>
  ps ← partition_table (sv_cluster s);
  u ← self_uuid_of cfg;
  me ← find_self u (sv_cluster s);
  let ports := match cf_tpc_ports cfg with [] => None | l => Some l end in
  reply (encode_auth_response (mkAuthResponse status (m_uuid me) 1 PARTITION_COUNT CLUSTER_ID SERVER_VERSION (m_host me) (m_client_port me)
    (member_list_version (sv_cluster s)) (member_tuples (sv_cluster s)) (partition_list_version (sv_cluster s)) ps
    ports (if bool_decide (is_Some ports) then Some TPC_TOKEN else None))) s.

Definition handle_client (t : Z) (other : handler (list message)) : handler (list message) :=
  if t =? 4864 then
    schema ← lift (decode_schema req 1);
    _ ← (fun s => Ok (set_server_schemas (put_schema schema (sv_schemas s)).1 s, ()));
    u ← lift (self_uuid_of cfg);
    reply (encode_uuid_list_response 4865 [u])
  else if t =? 5120 then
    id ← lift (long_field req 16);
    schema ← asks (fun s => get_schema (sv_schemas s) id);
    reply (encode_fetch_schema_response 5121 schema)
  else if t =? 5376 then reply (empty_response 5377)
  else if t =? 256 then r ← lift (decode_auth_request req); auth_response (auth_status r)
  else if t =? 81664 then
    name ← lift (decode_name req);
    _ ← on_broker (fun b => Ok (register_near_cache name conn_id corr b));
    reply (uuid_response 81665 REGISTRATION_UUID)
  else if t =? 81152 then reply (encode_metadata_response 81153)
  else if t =? 71936 then
    '(name, fl, include_value) ← lift (decode_add_entry_listener req);
    _ ← on_broker (fun b => Ok (register name conn_id corr fl include_value b));
    reply (uuid_response 71937 REGISTRATION_UUID)
  else if t =? 71424 then
    '(name, fl, include_value, predicate) ← lift (decode_add_entry_listener_with_predicate req);
    _ ← on_broker (register_with_predicate name conn_id corr fl include_value predicate);
    reply (uuid_response 71425 REGISTRATION_UUID)
  else if t =? 72448 then
    _ ← lift (decode_add_partition_lost_listener req); reply (uuid_response 72449 REGISTRATION_UUID)
  else if t =? 5632 then reply (empty_response 5633)
  else if t =? 768 then
    _ ← on_broker (fun b => Ok (register_cluster_view conn_id corr b));
    cl ← asks sv_cluster;
    ps ← lift (partition_table cl);
    m1 ← lift cluster_view_response;
    m2 ← lift (members_view_event (member_list_version cl) (member_tuples cl));
    m3 ← lift (partitions_view_event (partition_list_version cl) ps);
    mret [m1; m2; m3]
  else if t =? 3840 then reply (uuid_response 3841 REGISTRATION_UUID)
  else if t =? 1024 then reply (empty_response 1025)
  else if t =? 3072 then reply (empty_response 3073)
  else other.

(** ** Maps *)

(** [if r.ttl > 0 { r.ttl as u64 } else { 0 }] *)
Definition ttl_of (ttl : Z) : Z := if 0 <? ttl then ttl else 0.

Definition handle_execute_on_key (t : Z) (other : handler (list message)) : handler (list message) :=
  if t =? 77312 then
    '(name, processor_data, key, _) ← lift (decode_execute_on_key req);
    let answer result := resp ← lift (m ← encode_execute_on_key_response result; set_correlation_id m corr); mret [resp] in
    match parse_processor processor_data with
    | None => answer None
    | Some process =>
      old ← on_store (fun sv => Store.get field_of sv c name key);
      match process key old with
      | Some (Some v, result) =>
        _ ← on_store (fun sv => put_ttl field_of sv c name key v 0);
        _ ← publish_change name (if bool_decide (is_Some old) then UPDATED else ADDED) key (Some v) old;
        _ ← invalidate_near_caches name key;
        with_backup (encode_execute_on_key_response result) key (fun op => BackupPut op name key v 0)
      | Some (None, result) => answer result
      | None => answer None
      end
    end
  else other.

Definition handle_put (t : Z) (other : handler (list message)) : handler (list message) :=
  if one_of t [65792; 69376] then
    r ← lift (Codecs.decode_put req);
    let ttl := ttl_of (rq_ttl r) in
    old ← on_store (fun sv => put_ttl field_of sv c (rq_name r) (rq_key r) (rq_value r) ttl);
    _ ← publish_change (rq_name r) (if bool_decide (is_Some old) then UPDATED else ADDED) (rq_key r) (Some (rq_value r)) old;
    _ ← invalidate_near_caches (rq_name r) (rq_key r);
    with_backup (if t =? 69376 then empty_response 69377 else encode_put_response old) (rq_key r)
      (fun op => BackupPut op (rq_name r) (rq_key r) (rq_value r) ttl)
  else other.

(** [MapRemove] answers the old value, [MapDelete] nothing. *)
Definition handle_remove (t : Z) (other : handler (list message)) : handler (list message) :=
  if one_of t [66304; 67840] then
    r ← lift (decode_get req);
    old ← on_store (fun sv => Store.remove field_of sv c (gq_name r) (gq_key r));
    _ ← (if bool_decide (is_Some old) then
           _ ← publish_change (gq_name r) REMOVED (gq_key r) None old; invalidate_near_caches (gq_name r) (gq_key r)
         else mret ());
    with_backup (if t =? 66304 then data_response 66305 old else empty_response 67841) (gq_key r)
      (fun op => BackupRemove op (gq_name r) (gq_key r))
  else other.

Definition handle_map (t : Z) (other : handler (list message)) : handler (list message) :=
  if t =? 66048 then
    r ← lift (decode_get req);
    v ← on_store (fun sv => Store.get field_of sv c (gq_name r) (gq_key r));
    reply (encode_get_response v)
  else if t =? 67072 then
    r ← lift (decode_get req);
    b ← on_store (fun sv => contains_key c (gq_name r) (gq_key r));
    reply (bool_response 67073 b)
  else if t =? 67328 then
    '(name, value) ← lift (decode_name_value req);
    b ← ask_store (contains_value c name value);
    reply (bool_response 67329 b)
  else if t =? 76288 then
    name ← lift (decode_name req); n ← ask_store (Store.size name); reply (int_response 76289 (wrap_i32 n))
  else if t =? 76544 then
    name ← lift (decode_name req); b ← ask_store (Store.is_empty name); reply (bool_response 76545 b)
  else if t =? 69120 then
    r ← lift (Codecs.decode_put req);
    existing ← on_store (fun sv => put_if_absent field_of sv c (rq_name r) (rq_key r) (rq_value r) (ttl_of (rq_ttl r)));
    reply (data_response 69121 existing)
  else if t =? 66560 then
    r ← lift (decode_replace req);
    old ← on_store (fun sv => Store.replace field_of sv c (rq_name r) (rq_key r) (rq_value r));
    reply (data_response 66561 old)
  else if t =? 77056 then
    name ← lift (decode_name req);
    _ ← on_store (fun _ st => st ← Store.clear name st; Ok (st, ()));
    reply (empty_response 77057)
  else other.

Definition handle_locks (t : Z) (other : handler (list message)) : handler (list message) :=
  if t =? 69632 then
    '(name, key) ← lift (decode_name_key req); tid ← lift (long_field req 16);
    granted ← on_locks (KeyLocks.lock_or_wait name key tid conn_id corr);
    if granted : bool then reply (empty_response 69633) else mret []
  else if t =? 69888 then
    '(name, key) ← lift (decode_name_key req); tid ← lift (long_field req 16);
    b ← on_locks (KeyLocks.try_lock name key tid);
    reply (bool_response 69889 b)
  else if t =? 70400 then
    '(name, key) ← lift (decode_name_key req); tid ← lift (long_field req 16);
    w ← on_locks (KeyLocks.unlock name key tid);
    _ ← grant_lock_to_waiter w;
    reply (empty_response 70401)
  else if t =? 70144 then
    '(name, key) ← lift (decode_name_key req);
    b ← asks (fun s => KeyLocks.is_locked name key (sv_locks s));
    reply (bool_response 70145 b)
  else if t =? 78592 then
    '(name, key) ← lift (decode_name_key req);
    w ← on_locks (KeyLocks.force_unlock name key);
    _ ← grant_lock_to_waiter w;
    reply (empty_response 78593)
  else other.

Definition handle_bulk (t : Z) (other : handler (list message)) : handler (list message) :=
  if t =? 74496 then
    name ← lift (decode_name req);
    es ← on_store (fun sv => get_all field_of sv c name (decode_data_list req 2));
    reply (encode_entry_list_response 74497 es)
  else if t =? 76800 then
    name ← lift (decode_name req);
    _ ← on_store (fun sv st => st ← put_all field_of sv c name (decode_entry_list req 2) st; Ok (st, ()));
    reply (empty_response 76801)
  else if t =? 74240 then
    name ← lift (decode_name req); es ← ask_store (Store.entries c name);
    reply (encode_data_list_response 74241 (map fst es))
  else if t =? 74752 then
    name ← lift (decode_name req); es ← ask_store (Store.entries c name);
    reply (encode_data_list_response 74753 (map snd es))
  else if t =? 75008 then
    name ← lift (decode_name req); es ← ask_store (Store.entries c name);
    reply (encode_entry_list_response 75009 es)
  else if t =? 76032 then
    '(name, ty, attrs) ← lift (decode_add_index req);
    _ ← on_store (fun sv st => st ← Store.add_index field_of sv c name (mk_config None (index_type_of_i32 ty) attrs) st; Ok (st, ()));
    reply encode_add_index_response
  else other.

(** [store.query(&name, &query::decode(&pred), schemas)] *)
Definition run_query (name pred : bytes) : handler (list (bytes * bytes)) :=
  p ← lift (QueryWire.decode pred);
  on_store (fun sv => Store.query field_of sv text_match set_iter c name p).

Definition handle_predicates (t : Z) (other : handler (list message)) : handler (list message) :=
  if t =? 75264 then
    '(name, pred) ← lift (decode_name_value req); es ← run_query name pred;
    reply (encode_data_list_response 75265 (map fst es))
  else if t =? 75520 then
    '(name, pred) ← lift (decode_name_value req); es ← run_query name pred;
    reply (encode_data_list_response 75521 (map snd es))
  else if t =? 75776 then
    '(name, pred) ← lift (decode_name_value req); es ← run_query name pred;
    reply (encode_entry_list_response 75777 es)
  else if t =? 80640 then
    '(name, projection) ← lift (decode_project req);
    path ← lift (extract_attribute_from_projection projection);
    match path with
    | Some p =>
      es ← ask_store (Store.entries c name);
      sv ← asks sv_schemas;
      reply (encode_project_response (execute_projection (fun v f => field_of v sv f) p es))
    | None => reply (encode_project_response [])
    end
  else if t =? 80896 then
    '(name, projection, pred) ← lift (decode_project_with_predicate req);
    path ← lift (extract_attribute_from_projection projection);
    match path with
    | Some p =>
      es ← run_query name pred;
      sv ← asks sv_schemas;
      reply (encode_project_response (execute_projection (fun v f => field_of v sv f) p es))
    | None => reply (encode_project_response [])
    end
  else if t =? 87552 then
    '(name, aggregator) ← lift (decode_aggregate req);
    agg ← lift (decode_aggregator aggregator);
    match agg with
    | Some a =>
      es ← ask_store (Store.entries c name);
      sv ← asks sv_schemas;
      reply (encode_aggregate_response (encode_scalar (execute_aggregation (fun v f => field_of v sv f) a es)))
    | None => reply (encode_aggregate_response (encode_scalar Null))
    end
  else if t =? 87808 then
    '(name, aggregator, pred) ← lift (decode_aggregate_with_predicate req);
    agg ← lift (decode_aggregator aggregator);
    match agg with
    | Some a =>
      es ← run_query name pred;
      sv ← asks sv_schemas;
      reply (encode_aggregate_response (encode_scalar (execute_aggregation (fun v f => field_of v sv f) a es)))
    | None => reply (encode_aggregate_response (encode_scalar Null))
    end
  else other.

(** ** Topics, the management centre, caches, the executor *)

Definition handle_topic_and_cache (t : Z) (other : handler (list message)) : handler (list message) :=
  if t =? 262400 then
    '(name, item) ← lift (decode_name_value req);
    _ ← on_broker (publish_topic name item);
    reply (empty_response 262401)
  else if t =? 262656 then
    name ← lift (decode_name req);
    _ ← on_broker (fun b => Ok (register_topic name conn_id corr b));
    reply (uuid_response 262657 REGISTRATION_UUID)
  else if t =? 2099968 then
    u ← lift (self_uuid_of cfg); reply (encode_get_timed_member_state_response (timed_member_state u))
  else if t =? 1248512 then
    '(name, key) ← lift (decode_cache_get req);
    v ← on_store (fun sv => Store.get field_of sv c name key);
    reply (encode_cache_get_response v)
  else if t =? 1250048 then
    '(name, key, value, get) ← lift (decode_cache_put req);
    old ← on_store (fun sv => Store.put field_of sv c name key value);
    reply (encode_cache_put_response (if get : bool then old else None))
  else if t =? 1250816 then
    '(name, key, current) ← lift (decode_cache_remove req);
    match current with
    | Some expected =>
      v ← on_store (fun sv => Store.get field_of sv c name key);
      if decide (v = Some expected) then
        _ ← on_store (fun sv => Store.remove field_of sv c name key); reply (encode_cache_remove_response true)
      else reply (encode_cache_remove_response false)
    | None =>
      old ← on_store (fun sv => Store.remove field_of sv c name key);
      reply (encode_cache_remove_response (bool_decide (is_Some old)))
    end
  else if t =? 525568 then
    '(name, _, callable) ← lift (decode_submit_to_partition req);
    r ← (fun s => let '(e, r) := submit_task name callable (sv_executor s) in Ok (set_executor e s, r));
    reply (encode_submit_response 525569 r)
  else if t =? 525824 then
    '(name, _, callable, _) ← lift (decode_submit_to_member req);
    r ← (fun s => let '(e, r) := submit_task name callable (sv_executor s) in Ok (set_executor e s, r));
    reply (encode_submit_response 525825 r)
  else other.

(** ** Transactions and jobs *)

Fixpoint apply_mutations (ms : list TxnMutation) : handler unit :=
  match ms with
  | [] => mret ()
  | TxPut map key value :: ms' => _ ← on_store (fun sv => Store.put field_of sv c map key value); apply_mutations ms'
  | TxRemove map key :: ms' => _ ← on_store (fun sv => Store.remove field_of sv c map key); apply_mutations ms'
  end.

Definition commit (u : uuid) : handler bool :=
  ms ← (fun s => let '(t, ms) := take_txn u (sv_txns s) in Ok (set_txns t s, ms));
  match ms with Some ms => _ ← apply_mutations ms; mret true | None => mret false end.

Definition handle_txn_and_jet (t : Z) (other : handler (list message)) : handler (list message) :=
  if one_of t [1376768; 1312000] then
    u ← (fun s => let '(x, u) := begin_txn (sv_txns s) in Ok (set_txns x s, u));
    reply (encode_transaction_create_response u)
  else if t =? 1376512 then
    u ← lift (txn_id req); _ ← commit u; reply encode_transaction_commit_response
  else if t =? 1377024 then
    u ← lift (txn_id req);
    _ ← (fun s => Ok (set_txns (rollback u (sv_txns s)) s, ()));
    reply encode_transaction_rollback_response
  else if t =? 919040 then
    '(name, u, key, value) ← lift (decode_transactional_map_put req);
    old ← on_store (fun sv => Store.get field_of sv c name key);
    _ ← (fun s => Ok (set_txns (buffer_put u name key value (sv_txns s)) s, ()));
    reply (encode_transactional_map_put_response old)
  else if t =? 16646400 then
    _ ← lift (decode_submit_job req);
    id ← (fun s => let '(j, id) := submit_job (sv_jet s) in Ok (set_jet j s, id));
    reply (encode_submit_job_response id)
  else if t =? 16646912 then
    id ← lift (long_field req 16);
    status ← asks (fun s => get_status id (sv_jet s));
    reply (encode_get_job_status_response status)
  else if t =? 16647424 then _ ← lift (long_field req 16); reply encode_join_submitted_job_response
  else other.

(** ** The other structures *)

Definition handle_set (t : Z) (other : handler (list message)) : handler (list message) :=
  if t =? 394240 then
    '(name, v) ← lift (decode_name_value req); b ← on_aux (set_add name v); aux_reply name (bool_response 394241 b)
  else if t =? 394496 then
    '(name, v) ← lift (decode_name_value req); b ← on_aux (set_remove name v); aux_reply name (bool_response 394497 b)
  else if t =? 393728 then
    '(name, v) ← lift (decode_name_value req); b ← ask_aux (set_contains name v); reply (bool_response 393729 b)
  else if t =? 393472 then
    name ← lift (decode_name req); n ← ask_aux (set_size name); reply (int_response 393473 (wrap_i32 n))
  else if t =? 395776 then
    name ← lift (decode_name req); l ← ask_aux (set_get_all name); reply (encode_data_list_response 395777 l)
  else if t =? 395520 then
    name ← lift (decode_name req); _ ← on_aux (set_clear name); aux_reply name (empty_response 395521)
  else other.

Definition handle_multimap (t : Z) (other : handler (list message)) : handler (list message) :=
  if t =? 131328 then
    name ← lift (decode_name req); key ← lift (content_at req 2); value ← lift (content_at req 3);
    ok ← on_aux (mm_put name key value);
    mm_reply name key (bool_response 131329 ok)
  else if t =? 131584 then
    '(name, key) ← lift (decode_name_key req); l ← ask_aux (mm_get name key); reply (encode_data_list_response 131585 l)
  else if t =? 131840 then
    '(name, key) ← lift (decode_name_key req);
    removed ← on_aux (mm_remove name key);
    mm_reply name key (encode_data_list_response 131841 removed)
  else if t =? 133632 then
    name ← lift (decode_name req); n ← ask_aux (mm_size name); reply (int_response 133633 (wrap_i32 n))
  else if t =? 134144 then
    '(name, key) ← lift (decode_name_key req); n ← ask_aux (mm_value_count name key); reply (int_response 134145 (wrap_i32 n))
  else other.

Definition handle_list (t : Z) (other : handler (list message)) : handler (list message) :=
  if t =? 328704 then
    '(name, v) ← lift (decode_name_value req); b ← on_aux (list_add name v); aux_reply name (bool_response 328705 b)
  else if t =? 331520 then
    name ← lift (decode_name req); i ← lift (int_field req 16);
    v ← ask_aux (list_get name i); reply (data_response 331521 v)
  else if t =? 327936 then
    name ← lift (decode_name req); n ← ask_aux (list_size name); reply (int_response 327937 (wrap_i32 n))
  else if t =? 328192 then
    '(name, v) ← lift (decode_name_value req); b ← ask_aux (list_contains name v); reply (bool_response 328193 b)
  else if t =? 328960 then
    '(name, v) ← lift (decode_name_value req); b ← on_aux (list_remove name v); aux_reply name (bool_response 328961 b)
  else if t =? 330240 then
    name ← lift (decode_name req); l ← ask_aux (list_get_all name); reply (encode_data_list_response 330241 l)
  else if t =? 331008 then
    name ← lift (decode_name req); b ← ask_aux (list_is_empty name); reply (bool_response 331009 b)
  else if t =? 329984 then
    name ← lift (decode_name req); _ ← on_aux (list_clear name); aux_reply name (empty_response 329985)
  else other.

Definition handle_queue (t : Z) (other : handler (list message)) : handler (list message) :=
  if t =? 196864 then
    '(name, v) ← lift (decode_name_value req); b ← on_aux (queue_offer name v); aux_reply name (bool_response 196865 b)
  else if t =? 197888 then
    name ← lift (decode_name req); v ← on_aux (queue_poll name); aux_reply name (data_response 197889 v)
  else if t =? 198400 then
    name ← lift (decode_name req); v ← ask_aux (queue_peek name); reply (data_response 198401 v)
  else if t =? 197376 then
    name ← lift (decode_name req); n ← ask_aux (queue_size name); reply (int_response 197377 (wrap_i32 n))
  else if t =? 197632 then
    '(name, v) ← lift (decode_name_value req); b ← on_aux (queue_remove name v); aux_reply name (bool_response 197633 b)
  else if t =? 199424 then
    '(name, v) ← lift (decode_name_value req); b ← ask_aux (queue_contains name v); reply (bool_response 199425 b)
  else if t =? 201728 then
    name ← lift (decode_name req); b ← ask_aux (queue_is_empty name); reply (bool_response 201729 b)
  else if t =? 200448 then
    name ← lift (decode_name req); _ ← on_aux (queue_clear name); aux_reply name (empty_response 200449)
  else other.

Definition handle_replicated_map (t : Z) (other : handler (list message)) : handler (list message) :=
  if t =? 852224 then
    name ← lift (decode_name req); key ← lift (content_at req 2); value ← lift (content_at req 3);
    old ← on_store (fun sv => Store.put field_of sv c (repl name) key value);
    reply (data_response 852225 old)
  else if t =? 853504 then
    '(n, k) ← lift (decode_name_key req); v ← on_store (fun sv => Store.get field_of sv c (repl n) k); reply (data_response 853505 v)
  else if t =? 853760 then
    '(n, k) ← lift (decode_name_key req); v ← on_store (fun sv => Store.remove field_of sv c (repl n) k); reply (data_response 853761 v)
  else if t =? 852992 then
    '(n, k) ← lift (decode_name_key req); b ← on_store (fun sv => contains_key c (repl n) k); reply (bool_response 852993 b)
  else if t =? 853248 then
    '(n, v) ← lift (decode_name_value req); b ← ask_store (contains_value c (repl n) v); reply (bool_response 853249 b)
  else if t =? 852480 then
    n ← lift (decode_name req); k ← ask_store (Store.size (repl n)); reply (int_response 852481 (wrap_i32 k))
  else if t =? 852736 then
    n ← lift (decode_name req); b ← ask_store (Store.is_empty (repl n)); reply (bool_response 852737 b)
  else if t =? 854272 then
    n ← lift (decode_name req);
    _ ← on_store (fun _ st => st ← Store.clear (repl n) st; Ok (st, ()));
    reply (empty_response 854273)
  else if t =? 855808 then
    n ← lift (decode_name req); es ← ask_store (Store.entries c (repl n)); reply (encode_data_list_response 855809 (map fst es))
  else if t =? 856064 then
    n ← lift (decode_name req); es ← ask_store (Store.entries c (repl n)); reply (encode_data_list_response 856065 (map snd es))
  else if t =? 856320 then
    n ← lift (decode_name req); es ← ask_store (Store.entries c (repl n)); reply (encode_entry_list_response 856321 es)
  else other.

Definition handle_counters (t : Z) (other : handler (list message)) : handler (list message) :=
  if t =? 1508864 then
    '(n, v) ← lift (decode_name_value req); q ← on_aux (rb_add n v); aux_reply n (long_response 1508865 q)
  else if t =? 1509120 then
    n ← lift (decode_name req); q ← lift (long_field req 16); v ← ask_aux (rb_read_one n q); reply (data_response 1509121 v)
  else if t =? 1507584 then n ← lift (decode_name req); v ← ask_aux (rb_size n); reply (long_response 1507585 v)
  else if t =? 1508352 then n ← lift (decode_name req); v ← ask_aux (rb_capacity n); reply (long_response 1508353 v)
  else if t =? 1507840 then n ← lift (decode_name req); v ← ask_aux (rb_tail n); reply (long_response 1507841 v)
  else if t =? 1508096 then n ← lift (decode_name req); v ← ask_aux (rb_head n); reply (long_response 1508097 v)
  else if t =? 1901312 then reply (int_response 1901313 1)
  else if t =? 1900800 then
    u ← lift (self_uuid_of cfg); n ← lift (decode_name req); v ← ask_aux (pn_get n); now ← tick_pn;
    reply (pncounter_response 1900801 v 1 u now)
  else if t =? 1901056 then
    n ← lift (decode_name req); delta ← lift (long_field req 16);
    get_before ← lift (bool_field req 24); u ← lift (self_uuid_of cfg);
    v ← on_aux (pn_add n delta get_before); now ← tick_pn;
    aux_reply n (pncounter_response 1901057 v 1 u now)
  else if t =? 1638656 then
    n ← lift (decode_name req); h ← lift (long_field req 16);
    _ ← (fun s => r ← hll_add n (wrap_u64 h) (structures (sv_store s)); on_aux (fun _ => r) s);
    aux_reply n (encode_void_response 1638657)
  else if t =? 1638912 then
    n ← lift (decode_name req);
    v ← ask_aux (fun a => from_option hll_estimate 0 (hlls a !! n));
    reply (long_response 1638913 (wrap_i64 v))
  else if t =? 1835264 then
    n ← lift (decode_name req); batch ← lift (int_field req 16);
    '(base, inc, size) ← on_aux (flake_batch n batch);
    reply (flakeid_response 1835265 base inc size)
  else other.

(** ** SQL *)

Definition key_column (cat : Catalog) (name : bytes) : bytes :=
  match get_mapping name cat with
  | Some m => match mp_columns m with (n, _) :: _ => n | [] => bstr "__key" end
  | None => bstr "__key"
  end.

(** The first field of the name, as text. *)
Definition field_str (fields : list (bytes * FieldValue)) (col : bytes) : option bytes :=
  '(_, v) ← List.find (fun f : bytes * FieldValue => bool_decide (f.1 = col)) fields; fmt_value f64_to_string v.

(** The right rows by their join value; of two with the same value the later stays. *)
Definition join_index (join : Join) (rkc : bytes) (es : list (bytes * bytes)) : gmap bytes (list (bytes * FieldValue)) :=
  foldl (fun ix e =>
    let rf := jsonflat_fields e.1 e.2 rkc in
    match field_str rf (j_right_col join) with Some j => <[j := rf]> ix | None => ix end) ∅ es.

Definition joined_row (sel : Select) (join : Join) (lkc : bytes) (ix : gmap bytes (list (bytes * FieldValue))) (e : bytes * bytes) :
    option (list (bytes * FieldValue)) :=
  let lf := jsonflat_fields e.1 e.2 lkc in
  j ← field_str lf (j_left_col join); rf ← ix !! j; project_row text_match sel (lf ++ rf).

Definition sql_join (sel : Select) (join : Join) : handler (list bytes * list (list (option bytes))) :=
  cat ← asks sv_catalog;
  right_es ← ask_store (Store.entries c (j_right join));
  left_es ← ask_store (Store.entries c (s_map sel));
  let ix := join_index join (key_column cat (j_right join)) right_es in
  let rows := omap (joined_row sel join (key_column cat (s_map sel)) ix) left_es in
  mret (match List.find (fun r => negb (bool_decide (r = []))) rows with Some r => map fst r | None => [] end,
        map (fun r => map (fun f => fmt_value f64_to_string (snd f)) r) rows).

Definition sql_insert_entry (m : Mapping) (values : list FieldValue) : option (bytes * bytes) :=
  match mp_columns m, values with
  | (_, ty) :: columns, v :: vs =>
    if decide (length columns = length vs) then
      let key := match ty, v with
                 | (TInt | Bigint), I64 i => int_data (wrap_i32 i)
                 | _, VStr s => string_data s
                 | _, I64 i => string_data (int_to_string i)
                 | _, v => string_data (debug_value v)
                 end in
      Some (key, json_value_data (json_object (zip (map fst columns) vs)))
    else None
  | _, _ => None
  end.

Fixpoint insert_all (m : Mapping) (name : bytes) (rows : list (list FieldValue)) : handler unit :=
  match rows with
  | [] => mret ()
  | r :: rows' =>
    _ ← match sql_insert_entry m r with
        | Some (key, value) => _ ← on_store (fun sv => put_ttl field_of sv c name key value 0); mret ()
        | None => mret ()
        end;
    insert_all m name rows'
  end.

(** A query on this member's entries. *)
Definition select_local (sel : Select) : handler (list message) :=
  es ← match s_filter sel with
       | Some p => on_store (fun sv => Store.query field_of sv text_match set_iter c (s_map sel) p)
       | None => ask_store (Store.entries c (s_map sel))
       end;
  cat ← asks sv_catalog;
  sv ← asks sv_schemas;
  let mapping := get_mapping (s_map sel) cat in
  let star_cols := from_option (fun m => map fst (mp_columns m)) [] mapping in
  let key_col := m ← mapping; fst <$> head (mp_columns m) in
  let json := from_option (fun m => bool_decide (value_format m = bstr "json-flat")) false mapping in
  '(cols, rows) ← lift (execute_with (if json : bool then json_extract else fun v f => field_of v sv f)
                     text_match f64_to_string parse_f64 group_iter sv sel es star_cols key_col);
  reply (encode_execute_response cols rows).

(** On a cluster a query without star or join is scattered by the member thread. *)
Definition scatter (sel : Select) (sql : bytes) : handler bool := fun s =>
  if negb (s_star sel) && bool_decide (s_join sel = None) && (1 <? Membership.len (sv_cluster s))%nat then
    match sv_replicator s with
    | Some r => let '(r, _) := scatter_sql conn_id corr sql r in Ok (set_replicator (Some r) s, true)
    | None => Ok (s, false)
    end
  else Ok (s, false).

Definition handle_sql (t : Z) (other : handler (list message)) : handler (list message) :=
  if t =? 2163712 then
    sql ← lift (decode_execute_sql req);
    st ← lift (Sql.parse sql);
    match st with
    | Some (SSelect sel) =>
      match s_join sel with
      | Some join => '(cols, rows) ← sql_join sel join; reply (encode_execute_response cols rows)
      | None => deferred ← scatter sel sql; if deferred : bool then mret [] else select_local sel
      end
    | Some (SCreateMapping m) =>
      _ ← (fun s => Ok (set_catalog (put_mapping m (sv_catalog s)) s, ())); reply encode_void_sql_response
    | Some (SInsert ins) =>
      cat ← asks sv_catalog;
      _ ← match get_mapping (in_mapping ins) cat with Some m => insert_all m (in_mapping ins) (in_rows ins) | None => mret () end;
      reply encode_void_sql_response
    | Some (SCreateJob job) => _ ← (fun s => Ok (set_jobs (sv_jobs s ++ [job]) s, ())); reply encode_void_sql_response
    | None => reply encode_void_sql_response
    end
  else if t =? 2163456 then reply encode_close_response
  else if t =? 2163968 then reply encode_fetch_response
  else other.

(** ** The CP subsystem: the response comes when the command commits *)

Definition cp_unavailable : handler (list message) :=
  e ← lift (m ← error_response 42 (bstr "com.hazelcast.cp.exception.CPSubsystemException") (bstr "CP subsystem is not enabled on this member");
            set_correlation_id m corr);
  mret [e].

(** Submits what the request decodes to; a request that does not decode has no response. *)
Definition cp_submit {R} (decode : message -> outcome (option R)) (resp_type : Z) (command : R -> bytes * ReplyKind) : handler (list message) := fun s =>
  match sv_replicator s with
  | None => cp_unavailable s
  | Some r =>
    d ← decode req;
    match d with
    | None => Ok (s, [])
    | Some x =>
      let '(cmd, kind) := command x in
      let '(r, _) := submit_cp (cp_group_name req) conn_id corr resp_type kind cmd r in
      Ok (set_replicator (Some r) s, [])
    end
  end.

Definition cp_atomiclong (t : Z) : handler (list message) :=
  cp_submit (al_decode_request t) (default (wrap_i32 (t + 1)) (al_response_type t)) (fun d =>
    let '(op, kind) :=
      match alr_op d with
      | AlqGet => (AlGet, KLong)
      | AlqSet v => (AlSet v, KVoid)
      | AlqGetAndSet v => (AlGetAndSet v, KLong)
      | AlqAddAndGet v => (AlAddAndGet v, KLong)
      | AlqGetAndAdd v => (AlGetAndAdd v, KLong)
      | AlqCompareAndSet e u => (AlCompareAndSet e u, KBool)
      end in (al_command (alr_name d) op, kind)).

Definition cp_atomicref (t : Z) : handler (list message) :=
  cp_submit (ar_decode_request t) (default (wrap_i32 (t + 1)) (ar_response_type t)) (fun d =>
    let '(op, kind) :=
      match arr_op d with
      | ArqGet => (ArGet, KData)
      | ArqSet new true => (ArGetAndSet new, KData)
      | ArqSet new false => (ArSet new, KData)
      | ArqCompareAndSet old new => (ArCompareAndSet old new, KBool)
      | ArqContains v => (ArContains v, KBool)
      end in (ar_command (arr_name d) op, kind)).

Definition cp_cpmap (t : Z) : handler (list message) :=
  cp_submit (cm_decode_request t) (wrap_i32 (t + 1)) (fun d =>
    let '(op, kind) :=
      match cmr_op d with
      | CmGet k => (MGet k, KData)
      | CmPut k v => (MPut k v, KData)
      | CmSet k v => (MSet k v, KVoid)
      | CmRemove k => (MRemove k, KData)
      | CmDelete k => (MRemove k, KVoid)
      | CmCompareAndSet k e n => (MCompareAndSet k e n, KBool)
      | CmPutIfAbsent k v => (MPutIfAbsent k v, KData)
      end in (cm_command (cmr_name d) op, kind)).

Definition cp_counter (t : Z) : handler (list message) :=
  cp_submit (cc_decode_request t) (default (wrap_i32 (t + 1)) (cc_response_type t)) (fun d =>
    match ccr_op d with
    | CcGetCount => (cdl_command (ccr_name d) CdlGetCount, KInt)
    | CcCountDown => (cdl_command (ccr_name d) CdlCountDown, KVoid)
    | CcTrySetCount n => (cdl_command (ccr_name d) (CdlTrySetCount n), KBool)
    | CcInit n => (sem_command (ccr_name d) (SemInit n), KBool)
    | CcAcquire n => (sem_command (ccr_name d) (SemAcquire n), KBool)
    | CcRelease n => (sem_command (ccr_name d) (SemRelease n), KBool)
    | CcDrain => (sem_command (ccr_name d) SemDrain, KInt)
    | CcAvailable => (sem_command (ccr_name d) SemAvailablePermits, KInt)
    end).

Definition cp_fencedlock (t : Z) : handler (list message) :=
  cp_submit (fl_decode_request t) (default (wrap_i32 (t + 1)) (fl_response_type t)) (fun d =>
    let session := flr_session d in
    let thread := flr_thread d in
    let '(op, kind) :=
      match flr_op d with
      | FlrLock => (FlLock session thread, KLong)
      | FlrTryLock => (FlTryLock session thread, KLong)
      | FlrUnlock => (FlUnlock session thread, KBool)
      end in (fl_command (flr_name d) op, kind)).

Definition cp_session (t : Z) : handler (list message) :=
  cp_submit (cs_decode_request t) (default (wrap_i32 (t + 1)) (cs_response_type t)) (fun d =>
    let '(op, kind) :=
      match d with
      | CsCreate => (SessCreate, KSession)
      | CsClose id => (SessClose id, KBool)
      | CsHeartbeat id => (SessHeartbeat id, KVoid)
      | CsGenerateThreadId => (SessGenerateThreadId, KLong)
      end in (sess_command op, kind)).

Definition handle_cp (t : Z) (other : handler (list message)) : handler (list message) :=
  if is_atomiclong t then cp_atomiclong t
  else if is_atomicref t then cp_atomicref t
  else if is_cpmap t then cp_cpmap t
  else if is_cp_count t then cp_counter t
  else if is_cp_session t then cp_session t
  else if is_fencedlock t then cp_fencedlock t
  else other.

(** ** Dispatch *)

Fixpoint set_all_correlations (ms : list message) : outcome (list message) :=
  match ms with [] => Ok [] | m :: ms' => m ← set_correlation_id m corr; rest ← set_all_correlations ms'; Ok (m :: rest) end.

(** The match on the message type; an unknown type is acknowledged with the type after it. *)
Definition handle (t : Z) : handler (list message) :=
  handle_client t (handle_execute_on_key t (handle_put t (handle_remove t (handle_map t (handle_locks t (handle_bulk t
    (handle_predicates t (handle_topic_and_cache t (handle_txn_and_jet t (handle_set t (handle_multimap t (handle_list t
    (handle_queue t (handle_replicated_map t (handle_counters t (handle_sql t (handle_cp t
    (reply (empty_response (wrap_i32 (t + 1))))))))))))))))))))).
End Dispatch.

Definition dispatch (cfg : Cfg) (c : clocks) (req : message) (conn_id : Z) : handler (list message) := fun s =>
  corr ← correlation_id req;
  t ← msg_type req;
  if is_quorum_gated_write t && negb (has_quorum (sv_cluster s)) then
    e ← error_response 42 (bstr "com.hazelcast.splitbrainprotection.SplitBrainProtectionException")
          (bstr "Cluster does not have the minimum quorum to accept writes");
    e ← set_correlation_id e corr;
    Ok (s, [e])
  else
    '(s, replies) ← handle cfg c req conn_id corr t s;
    replies ← set_all_correlations corr replies;
    Ok (s, replies).

(** ** Bytes in, bytes out *)

(** A frame's content and the offset after it; the length is an [i32] cast to [usize]. *)
Definition frame_slice (msg : bytes) (off : Z) : outcome (option (bytes * Z)) :=
  if blen msg <? wrap_u64 (off + 6) then Ok None else
  len ← read_i32_le msg (Z.to_nat off);
  let len := wrap_u64 len in
  if (len <? 6) || (blen msg <? wrap_u64 (off + len)) then Ok None else
  b ← sub_slice msg (wrap_u64 (off + 6)) (wrap_u64 (off + len));
  Ok (Some (b, wrap_u64 (off + len))).

(** The length is truncated to an [i32] as it is written. *)
Definition encode_get_into (out : bytes) (corr : Z) (v : option bytes) : outcome bytes :=
  hdr ← write_i32_le (zeroed 19) 0 19; hdr ← write_u16_le hdr 4 UNFRAGMENTED; hdr ← write_i32_le hdr 6 66049; hdr ← write_i64_le hdr 10 corr;
  match v with
  | Some val => p ← write_i32_le (zeroed 6) 0 (6 + blen val); p ← write_u16_le p 4 IS_FINAL; Ok (out ++ hdr ++ p ++ val)
  | None => p ← write_i32_le (zeroed 6) 0 6; p ← write_u16_le p 4 (Z.lor IS_NULL IS_FINAL); Ok (out ++ hdr ++ p)
  end.

(** The three frames of a MapGet, parsed in place: its correlation id, map and key. *)
Definition fast_get_request (msg : bytes) : outcome (option (Z * bytes * bytes)) :=
  f0 ← frame_slice msg 0;
  match f0 with
  | None => Ok None
  | Some (c0, off1) =>
    if (length c0 <? 12)%nat then Ok None else
    t ← read_i32_le c0 0;
    if negb (t =? 66048) then Ok None else
    corr ← read_i64_le c0 4;
    f1 ← frame_slice msg off1;
    match f1 with
    | None => Ok None
    | Some (name, off2) =>
      f2 ← frame_slice msg off2;
      Ok (match f2 with
          | None => None
          | Some (key, _) => option_map (fun n => (corr, n, key)) (from_utf8 name)
          end)
    end
  end.

Definition try_fast_get (c : clocks) (msg : bytes) (p : Principal) (out : bytes) : handler (option bytes) := fun s =>
  r ← fast_get_request msg;
  match r with
  | None => Ok (s, None)
  | Some (corr, name, key) =>
    if negb (authorize p RMap name Security.Read) then Ok (s, None) else
    '(st, o) ← Store.get_with field_of (sv_schemas s) c name key (fun v => encode_get_into out corr v) (sv_store s);
    b ← o;
    Ok (set_store st s, Some b)
  end.

(** [read_message] under the fuel of its own length. *)
Definition read_frames (msg : bytes) : outcome (option message) :=
  match read_message msg with
  | Some o => r ← o; Ok (option_map fst r)
  | None => Panic
  end.

Definition maybe_rebind_principal (cfg : Cfg) (msg : bytes) (peer_cert : option bytes) (p : Principal) : outcome Principal :=
  f0 ← frame_slice msg 0;
  match f0 with
  | None => Ok p
  | Some (c0, _) =>
    if (length c0 <? 4)%nat then Ok p else
    t ← read_i32_le c0 0;
    if negb (t =? 256) then Ok p else
    frames ← read_frames msg;
    match frames with
    | None => Ok p
    | Some fs =>
      req ← decode_auth_request fs;
      if decide (au_cluster_name req = cf_cluster_name cfg) then
        Ok (match authenticate (cf_security cfg) (au_username req) (au_password req) with
            | Some q => q
            | None => match peer_cert ≫= authenticate_cert (cf_security cfg) with Some q => q | None => p end
            end)
      else Ok p
    end
  end.

Definition allowed (t : Z) (frames : message) (p : Principal) : bool :=
  match classify t with
  | DData rt action => authorize p rt (default [] (f ← frames !! 1%nat; from_utf8 (content f))) action
  | Infra => true
  | AdminOnly => is_admin p
  | Unknown => is_admin p
  end.

Definition authz_denial (frames : message) (p : Principal) : outcome (option message) :=
  t ← msg_type frames;
  if allowed t frames p then Ok None else
  e ← error_response 64 (bstr "java.security.AccessControlException") (bstr "Permission denied");
  corr ← correlation_id frames;
  e ← set_correlation_id e corr;
  Ok (Some e).

(** What one message appends to the output, and the principal the connection has after it. *)
Definition dispatch_bytes (cfg : Cfg) (c : clocks) (msg : bytes) (conn_id : Z) (peer_cert : option bytes) (p : Principal) (out : bytes) :
    handler (Principal * bytes) := fun s =>
  p ← maybe_rebind_principal cfg msg peer_cert p;
  '(s, fast) ← try_fast_get c msg p out s;
  match fast with
  | Some out => Ok (s, (p, out))
  | None =>
    frames ← read_frames msg;
    match frames with
    | None => Ok (s, (p, out))
    | Some fs =>
      denied ← authz_denial fs p;
      match denied with
      | Some e => Ok (s, (p, out ++ write_message e))
      | None => '(s, replies) ← dispatch cfg c fs conn_id s; Ok (s, (p, out ++ concat (map write_message replies)))
      end
    end
  end.
End Server.
