(* ===== verification/HandlersFacts.v ===== *)
(** * What the dispatch of client messages guarantees (crates/server/src/handlers.rs)

    The fast path reads what the frame parser reads; map requests are served as calls of the store
    and answered under their correlation id; a request that is not permitted changes nothing. *)

From S2P Require Import Prelude Text Fixed Frame FieldValue QueryIndex QueryWire Schema Extract Partition Table TableSpec TableRun Hlc Hll WalRecord AuxStore AuxState KeyLocks Store StoreRun Codecs CpCodecs MemberWire Membership Sql JsonFlat SqlExec Agg Security Services Handlers.

(** ** The fast path and the frame parser read the same frames *)

Lemma frame_off_small msg off : buf_ok msg -> 0 <= off <= blen msg -> wrap_u64 (off + 6) = off + 6.
Proof. unfold buf_ok. intros. apply wrap_u64_small. unfold is_u64. lia. Qed.

(** A frame the parser reads is the slice the fast path takes. *)
Lemma frame_slice_is msg off len fl c :
  buf_ok msg -> 0 <= off <= blen msg ->
  Frame.frame_at msg off = Ok (Some (len, fl)) -> sub_slice msg (off + PREFIX_LEN) (wrap_u64 (off + len)) = Ok c ->
  frame_slice msg off = Ok (Some (c, wrap_u64 (off + len))).
Proof.
  unfold Frame.frame_at, frame_slice, PREFIX_LEN. intros Hb Ho. rewrite !(frame_off_small msg off) by done. case_match; [done |].
  destruct (read_i32_le _ _) as [l |]; [| done]. cbn [mbind outcome_bind]. destruct (read_u16_le _ _) as [f |]; [| done]. cbn [mbind outcome_bind].
  case_match; [done |]. intros [= <- <-] ->. done.
Qed.

(** Where the parser stands after a frame. *)
Lemma frame_at_next msg off len fl : Frame.frame_at msg off = Ok (Some (len, fl)) -> 0 <= wrap_u64 (off + len) <= blen msg.
Proof.
  unfold Frame.frame_at. case_match; [done |]. destruct (read_i32_le _ _) as [l |]; [| done]. cbn [mbind outcome_bind].
  destruct (read_u16_le _ _) as [f |]; [| done]. cbn [mbind outcome_bind]. case_match eqn:E; [done |]. intros [= <- <-].
  apply orb_false_iff in E as [_ E%Z.ltb_ge]. pose proof (wrap_u64_range (off + wrap_u64 l)) as [? _]. lia.
Qed.

Lemma frame_slice_at_end msg : buf_ok msg -> frame_slice msg (blen msg) = Ok None.
Proof.
  intros Hb. unfold frame_slice. rewrite (frame_off_small msg) by (auto using blen_nonneg with lia || (pose proof (blen_nonneg msg); lia)).
  by rewrite (proj2 (Z.ltb_lt _ _)) by lia.
Qed.

(** The slices from an offset on are the frames read from there, and there is none after the last. *)
Inductive slices (msg : bytes) : Z -> list Frame -> Prop :=
| slices_end off : frame_slice msg off = Ok None -> slices msg off []
| slices_cons off f off' fs : frame_slice msg off = Ok (Some (content f, off')) -> slices msg off' fs -> slices msg off (f :: fs).

Lemma read_loop_slices fuel msg off acc fs :
  buf_ok msg -> 0 <= off <= blen msg ->
  read_message_loop fuel msg off acc = Some (Ok (Some (fs, blen msg))) ->
  exists l, fs = acc ++ l /\ l <> [] /\ slices msg off l.
Proof.
  intros Hb. revert off acc. induction fuel as [| fuel IH]; intros off acc Ho; cbn [read_message_loop]; [done |].
  destruct (Frame.frame_at msg off) as [[[len fl] |] |] eqn:E; [| done | done].
  destruct (sub_slice _ _ _) as [c |] eqn:Es; [| done]. pose proof (frame_slice_is _ _ _ _ _ Hb Ho E Es) as Hf.
  pose proof (frame_at_next _ _ _ _ E) as Hn. case_match eqn:Efin.
  - intros [= <- Hend]. exists [mkFrame fl c]. split_and!; [done | done |]. econstructor; [exact Hf |].
    rewrite Hend. constructor. by apply frame_slice_at_end.
  - intros H. apply IH in H as (l & -> & _ & Hl); [| done]. exists (mkFrame fl c :: l). rewrite <- app_assoc. split_and!; [done | done |].
    by econstructor.
Qed.

Lemma read_message_slices msg fs :
  buf_ok msg -> read_message msg = Some (Ok (Some (fs, blen msg))) -> fs <> [] /\ slices msg 0 fs.
Proof.
  intros Hb H. apply read_loop_slices in H as (l & -> & Hne & Hl); [by split | done |]. pose proof (blen_nonneg msg). lia.
Qed.

(** If the fast path takes a message, it is a MapGet with at least three frames, whose name and key are
    the second and the third. *)
Lemma fast_get_request_frames msg fs :
  buf_ok msg -> read_message msg = Some (Ok (Some (fs, blen msg))) ->
  (exists t, msg_type fs = Ok t) ->
  fast_get_request msg = Ok None
  \/ exists corr name key, fast_get_request msg = Ok (Some (corr, name, key))
       /\ msg_type fs = Ok 66048 /\ correlation_id fs = Ok corr /\ string_at fs 1 = Ok name /\ content_at fs 2 = Ok key.
Proof.
  intros Hb H [t Ht]. apply read_message_slices in H as [Hne H]; [| done]. unfold fast_get_request.
  inversion H as [? E | ? f0 o1 l E H1]; subst; [done |]. rewrite E. cbn [mbind outcome_bind]. clear H E.
  destruct (length (content f0) <? 12)%nat eqn:L; [by left |]. apply Nat.ltb_ge in L.
  unfold msg_type in Ht. cbn [index lookup list_lookup mbind outcome_bind] in Ht. rewrite Ht. cbn [mbind outcome_bind].
  destruct (t =? 66048) eqn:Et; cbn [negb]; [| by left]. apply Z.eqb_eq in Et as ->.
  assert (exists corr, read_i64_le (content f0) 4 = Ok corr) as [corr Hc].
  { unfold read_i64_le, slice. rewrite (proj2 (Nat.leb_le _ _)) by lia. cbn [mbind outcome_bind]. eauto. }
  rewrite Hc. cbn [mbind outcome_bind].
  inversion H1 as [? E | ? f1 o2 l1 E H2]; subst; rewrite E; cbn [mbind outcome_bind]; [by left |].
  inversion H2 as [? E2 | ? f2 o3 l2 E2 H3]; subst; rewrite E2; cbn [mbind outcome_bind]; [by left |].
  unfold string_at, content_at, decode_string, correlation_id, msg_type. cbn [index lookup list_lookup mbind outcome_bind].
  destruct (from_utf8 (content f1)) as [name |]; cbn [option_map]; [| by left]. right. by exists corr, name, (content f2).
Qed.

(** ** The bytes of a reply *)

(** The fixed fields of every reply: its type, the correlation id, and no backup acknowledgements. *)
Definition reply_header (t corr : Z) : bytes := to_le 4 t ++ to_le 8 corr ++ [b8 0].

Lemma copy_at_app a old b x : length old = length x -> copy_at (a ++ old ++ b) (length a) x = Ok (a ++ x ++ b).
Proof.
  intros E. unfold copy_at. rewrite !length_app, (proj2 (Nat.leb_le _ _)) by lia.
  by rewrite take_app_length, drop_app_add', <- E, drop_app_length by lia.
Qed.

Lemma header_is n t : header (4 + n) t = Ok (to_le 4 t ++ zeroed n).
Proof. unfold header, write_i32_le. change (zeroed (4 + n)) with ([] ++ zeroed 4 ++ zeroed n). apply (copy_at_app []). by rewrite length_to_le. Qed.

Lemma set_correlation_id_is t w x rest corr :
  length w = 8%nat -> set_correlation_id (initial_frame (to_le 4 t ++ w ++ x) :: rest) corr = Ok (initial_frame (to_le 4 t ++ to_le 8 corr ++ x) :: rest).
Proof.
  intros L. unfold set_correlation_id, initial_frame, write_i64_le. cbn [index lookup list_lookup mbind outcome_bind content flags].
  pose proof (copy_at_app (to_le 4 t) w x (to_le 8 corr)) as E. rewrite !length_to_le in E. rewrite E by done. done.
Qed.

(** A reply built from a 13-byte header and more fixed bytes, under its correlation id. *)
Lemma reply_corr t x rest corr :
  set_correlation_id (initial_frame (to_le 4 t ++ zeroed 9 ++ x) :: rest) corr = Ok (initial_frame (reply_header t corr ++ x) :: rest).
Proof. change (zeroed 9) with (zeroed 8 ++ [b8 0]). rewrite <- app_assoc, set_correlation_id_is by done. unfold reply_header. by rewrite <- !app_assoc. Qed.

Lemma reply_corr_again t x rest corr :
  set_correlation_id (initial_frame (reply_header t corr ++ x) :: rest) corr = Ok (initial_frame (reply_header t corr ++ x) :: rest).
Proof. unfold reply_header. rewrite <- !app_assoc. by rewrite set_correlation_id_is by (by rewrite length_to_le). Qed.

Lemma data_reply t v corr : (m ← data_response t v; set_correlation_id m corr) = Ok [initial_frame (reply_header t corr); nullable v].
Proof.
  unfold data_response. rewrite (header_is 9). cbn [mbind outcome_bind]. pose proof (reply_corr t [] [nullable v] corr) as E. by rewrite !app_nil_r in E.
Qed.
Lemma empty_reply t corr : (m ← empty_response t; set_correlation_id m corr) = Ok [initial_frame (reply_header t corr)].
Proof.
  unfold empty_response. rewrite (header_is 9). cbn [mbind outcome_bind]. pose proof (reply_corr t [] [] corr) as E. by rewrite !app_nil_r in E.
Qed.
Lemma list_reply t l corr : (m ← encode_data_list_response t l; set_correlation_id m corr)
  = Ok (initial_frame (reply_header t corr) :: begin_frame :: map data_frame l ++ [end_frame]).
Proof.
  unfold encode_data_list_response. rewrite (header_is 9). cbn [mbind outcome_bind].
  pose proof (reply_corr t [] (begin_frame :: map data_frame l ++ [end_frame]) corr) as E. by rewrite !app_nil_r in E.
Qed.
Lemma entries_reply t l corr : (m ← encode_entry_list_response t l; set_correlation_id m corr)
  = Ok (initial_frame (reply_header t corr) :: begin_frame :: flat_map (fun e => [data_frame e.1; data_frame e.2]) l ++ [end_frame]).
Proof.
  unfold encode_entry_list_response. rewrite (header_is 9). cbn [mbind outcome_bind].
  pose proof (reply_corr t [] (begin_frame :: flat_map (fun e : bytes * bytes => [data_frame e.1; data_frame e.2]) l ++ [end_frame]) corr) as E. by rewrite !app_nil_r in E.
Qed.
Lemma bool_reply t b corr : (m ← bool_response t b; set_correlation_id m corr) = Ok [initial_frame (reply_header t corr ++ [bool_u8 b])].
Proof.
  unfold bool_response. rewrite (header_is 10). cbn [mbind outcome_bind]. unfold set_index.
  rewrite decide_True by (rewrite length_app, length_to_le; cbn; lia). cbn [mbind outcome_bind]. rewrite insert_app_r_alt by (rewrite length_to_le; lia). rewrite length_to_le.
  change (<[(13 - 4)%nat:=bool_u8 b]> (zeroed 10)) with (zeroed 9 ++ [bool_u8 b]). apply reply_corr.
Qed.
Lemma int_reply t v corr : (m ← int_response t v; set_correlation_id m corr) = Ok [initial_frame (reply_header t corr ++ to_le 4 v)].
Proof.
  unfold int_response. rewrite (header_is 13). cbn [mbind outcome_bind]. unfold write_i32_le.
  pose proof (copy_at_app (to_le 4 t ++ zeroed 9) (zeroed 4) [] (to_le 4 v)) as E. rewrite length_app, !length_to_le, <- app_assoc in E.
  change (zeroed 9 ++ zeroed 4 ++ []) with (zeroed 13) in E. change (4 + length (zeroed 9))%nat with 13%nat in E. rewrite E by done. cbn [mbind outcome_bind]. rewrite app_nil_r, <- app_assoc. apply reply_corr.
Qed.
Lemma add_index_reply corr : (m ← encode_add_index_response; set_correlation_id m corr) = Ok [initial_frame (reply_header 76033 corr ++ [b8 0])].
Proof. unfold encode_add_index_response. rewrite (header_is 10). cbn [mbind outcome_bind]. change (zeroed 10) with (zeroed 9 ++ [b8 0]). apply reply_corr. Qed.

(** ** Map requests as calls of the store *)

(** The call of the store that a request asks for, if it is one of the map's requests. *)
Definition asked (req : message) : outcome (option scall) :=
  t ← msg_type req;
  if one_of t [65792; 69376] then
    r ← Codecs.decode_put req; Ok (Some (SPutTtl (rq_name r) (rq_key r) (rq_value r) (ttl_of (rq_ttl r))))
  else if one_of t [66304; 67840] then r ← decode_get req; Ok (Some (SRemove (gq_name r) (gq_key r)))
  else if t =? 66048 then r ← decode_get req; Ok (Some (SGet (gq_name r) (gq_key r)))
  else if t =? 67072 then r ← decode_get req; Ok (Some (SContains (gq_name r) (gq_key r)))
  else if one_of t [76288; 76544] then name ← decode_name req; Ok (Some (SSize name))
  else if t =? 69120 then
    r ← Codecs.decode_put req; Ok (Some (SPutIfAbsent (rq_name r) (rq_key r) (rq_value r) (ttl_of (rq_ttl r))))
  else if t =? 66560 then r ← decode_replace req; Ok (Some (SReplace (rq_name r) (rq_key r) (rq_value r)))
  else if t =? 77056 then name ← decode_name req; Ok (Some (SClear name))
  else if one_of t [74240; 74752; 75008] then name ← decode_name req; Ok (Some (SEntries name))
  else if one_of t [75264; 75520; 75776] then
    '(name, pred) ← decode_name_value req; p ← QueryWire.decode pred; Ok (Some (SQuery name p))
  else if t =? 76032 then
    '(name, ty, attrs) ← decode_add_index req; Ok (Some (SAddIndex name (mk_config None (index_type_of_i32 ty) attrs)))
  else Ok None.

(** The frames of the answer to a request of type [t]. *)
Definition answer (t corr : Z) (r : TableRun.reply) : message :=
  let h := reply_header (t + 1) corr in
  match r with
  | RVal v => if one_of t [69376; 67840] then [initial_frame h] else [initial_frame h; nullable v]
  | RBool b => [initial_frame (h ++ [bool_u8 b])]
  | RNum n => [initial_frame (h ++ if t =? 76544 then [bool_u8 (n =? 0)] else to_le 4 (wrap_i32 n))]
  | RDone => [initial_frame (h ++ if t =? 76032 then [b8 0] else [])]
  | TableRun.RList l =>
    initial_frame h :: begin_frame ::
    (if one_of t [74240; 75264] then map data_frame (map fst l)
     else if one_of t [74752; 75520] then map data_frame (map snd l)
     else flat_map (fun e => [data_frame e.1; data_frame e.2]) l) ++ [end_frame]
  end.

Section Facts.
Context {X : MapStore} {I : Iteration} {J : SerdeJson} {K : Pbkdf2}.
Context (text_match : TextKind -> bytes -> bytes -> bool) (f64_to_string : Z -> bytes) (parse_f64 : bytes -> option Z)
  (group_iter : gmap row (list entry) -> list (row * list entry)) (hll_estimate : Hll -> Z) (debug_value : FieldValue -> bytes).

Abbreviation handle := (handle text_match f64_to_string parse_f64 group_iter hll_estimate debug_value).
Abbreviation dispatch := (dispatch text_match f64_to_string parse_f64 group_iter hll_estimate debug_value).
Abbreviation dispatch_bytes := (dispatch_bytes text_match f64_to_string parse_f64 group_iter hll_estimate debug_value).
Abbreviation serve sv := (serve_store field_of sv text_match set_iter).

Lemma run_bind {A B} (m : handler A) (f : A -> handler B) s : (m ≫= f) s = '(s, a) ← m s; f a s.
Proof. done. Qed.
Lemma run_lift {A} (o : outcome A) (s : Server) : lift o s = a ← o; Ok (s, a).
Proof. done. Qed.

Lemma publish_change_total name ty key value old s :
  exists b, publish_change text_match name ty key value old s = Ok (set_broker b s, ()).
Proof.
  unfold publish_change, on_broker. case_match.
  - destruct (publish_delivers (fun v f => field_of v (sv_schemas s) f) text_match name ty key value old (sv_broker s)) as (b & -> & _).
    cbn [mbind outcome_bind]. eauto.
  - exists (sv_broker s). by destruct s.
Qed.

Lemma invalidate_near_caches_total name key s : exists b, invalidate_near_caches name key s = Ok (set_broker b s, ()).
Proof.
  unfold invalidate_near_caches, on_broker. case_match.
  - destruct (invalidate_total name key (sv_broker s)) as (b & ->). cbn [mbind outcome_bind]. eauto.
  - exists (sv_broker s). by destruct s.
Qed.

Lemma with_backup_alone conn corr o key mk m s :
  sv_replicator s = None -> (r ← o; set_correlation_id r corr) = Ok m -> with_backup conn corr o key mk s = Ok (s, [m]).
Proof.
  intros Hr Ho. unfold with_backup. rewrite run_bind, run_lift, Ho. cbn [outcome_bind mbind]. rewrite run_bind. unfold replicate_write. by rewrite Hr.
Qed.

(** A request that changes nothing but the store. *)
Lemma run_store_call {R} (f : SchemaService -> Store -> outcome (Store * R)) (k : R -> outcome message) s st r :
  f (sv_schemas s) (sv_store s) = Ok (st, r) ->
  (r ← on_store f; Handlers.reply (k r)) s = m ← k r; Ok (set_store st s, [m]).
Proof. intros E. rewrite run_bind. unfold on_store. rewrite E. cbn [mbind outcome_bind]. unfold Handlers.reply. rewrite run_bind, run_lift. by destruct (k r). Qed.

Lemma run_store_ask {R} (f : Store -> outcome R) (k : R -> outcome message) s r :
  f (sv_store s) = Ok r -> (r ← ask_store f; Handlers.reply (k r)) s = m ← k r; Ok (s, [m]).
Proof. intros E. rewrite run_bind. unfold ask_store. rewrite E. cbn [mbind outcome_bind]. unfold Handlers.reply. rewrite run_bind, run_lift. by destruct (k r). Qed.

(** The arm of a message type. *)
Ltac find_arm :=
  lazy beta iota zeta delta [Handlers.handle handle_client handle_execute_on_key handle_put handle_remove handle_map handle_locks handle_bulk
    handle_predicates one_of existsb orb Z.eqb Pos.eqb].

Section Requests.
Context (cfg : Cfg) (c : clocks) (req : message) (conn corr : Z) (s : Server).
Hypothesis alone : sv_replicator s = None.

(** The request is answered with [r], and the store becomes [st]. *)
Definition answered (t : Z) (st : Store) (r : TableRun.reply) : Prop :=
  exists b m, handle cfg c req conn corr t s = Ok (set_broker b (set_store st s), [m]) /\ set_correlation_id m corr = Ok (answer t corr r).

(** An answer that is the store's reply alone. *)
Lemma answered_by t o st r :
  handle cfg c req conn corr t s = (m ← o; Ok (set_store st s, [m])) -> (m ← o; set_correlation_id m corr) = Ok (answer t corr r) -> answered t st r.
Proof.
  intros H Ho. unfold answered. rewrite H. destruct o as [m |]; [| done]. exists (sv_broker s), m. cbn [mbind outcome_bind]. split; [by destruct s | done].
Qed.

Lemma get_request q st v :
  decode_get req = Ok q -> Store.get field_of (sv_schemas s) c (gq_name q) (gq_key q) (sv_store s) = Ok (st, v) -> answered 66048 st (RVal v).
Proof.
  intros Hq E. eapply answered_by; [find_arm; rewrite run_bind, run_lift, Hq; cbn [mbind outcome_bind]; by apply run_store_call |]. apply data_reply.
Qed.

Lemma contains_request q st b :
  decode_get req = Ok q -> contains_key c (gq_name q) (gq_key q) (sv_store s) = Ok (st, b) -> answered 67072 st (RBool b).
Proof.
  intros Hq E. eapply answered_by; [find_arm; rewrite run_bind, run_lift, Hq; cbn [mbind outcome_bind]; by apply (run_store_call (fun _ => _)) |].
  apply bool_reply.
Qed.

Lemma put_if_absent_request q st v :
  Codecs.decode_put req = Ok q ->
  put_if_absent field_of (sv_schemas s) c (rq_name q) (rq_key q) (rq_value q) (ttl_of (rq_ttl q)) (sv_store s) = Ok (st, v) -> answered 69120 st (RVal v).
Proof.
  intros Hq E. eapply answered_by; [find_arm; rewrite run_bind, run_lift, Hq; cbn [mbind outcome_bind]; by apply run_store_call |]. apply data_reply.
Qed.

Lemma replace_request q st v :
  decode_replace req = Ok q -> Store.replace field_of (sv_schemas s) c (rq_name q) (rq_key q) (rq_value q) (sv_store s) = Ok (st, v) -> answered 66560 st (RVal v).
Proof.
  intros Hq E. eapply answered_by; [find_arm; rewrite run_bind, run_lift, Hq; cbn [mbind outcome_bind]; by apply run_store_call |]. apply data_reply.
Qed.

(** A request that only reads leaves the server as it is. *)
Lemma answered_reading t o r :
  handle cfg c req conn corr t s = (m ← o; Ok (s, [m])) -> (m ← o; set_correlation_id m corr) = Ok (answer t corr r) -> answered t (sv_store s) r.
Proof. intros H. apply answered_by. rewrite H. by destruct s. Qed.

Lemma size_request name n t :
  t = 76288 \/ t = 76544 -> decode_name req = Ok name -> Store.size name (sv_store s) = Ok n -> answered t (sv_store s) (RNum n).
Proof.
  intros [-> | ->] Hn E; (eapply answered_reading; [find_arm; rewrite run_bind, run_lift, Hn; cbn [mbind outcome_bind]; apply run_store_ask |]).
  - done.
  - apply int_reply.
  - unfold Store.is_empty. rewrite E. done.
  - apply bool_reply.
Qed.

Lemma clear_request name st : decode_name req = Ok name -> Store.clear name (sv_store s) = Ok st -> answered 77056 st RDone.
Proof.
  intros Hn E. eapply answered_by; [find_arm; rewrite run_bind, run_lift, Hn; cbn [mbind outcome_bind]; apply (run_store_call (R := ())) |].
  - by rewrite E.
  - rewrite empty_reply. unfold answer. by rewrite app_nil_r.
Qed.

Lemma entries_request name l t :
  t = 74240 \/ t = 74752 \/ t = 75008 -> decode_name req = Ok name -> Store.entries c name (sv_store s) = Ok l -> answered t (sv_store s) (TableRun.RList l).
Proof.
  intros [-> | [-> | ->]] Hn E; (eapply answered_reading; [find_arm; rewrite run_bind, run_lift, Hn; cbn [mbind outcome_bind]; by apply run_store_ask |]);
    [apply list_reply | apply list_reply | apply entries_reply].
Qed.

Lemma query_request name pred p st l t :
  t = 75264 \/ t = 75520 \/ t = 75776 -> decode_name_value req = Ok (name, pred) -> QueryWire.decode pred = Ok p ->
  Store.query field_of (sv_schemas s) text_match set_iter c name p (sv_store s) = Ok (st, l) -> answered t st (TableRun.RList l).
Proof.
  intros Ht Hn Hp E. assert (forall k, ('(n, d) ← lift (decode_name_value req); es ← run_query text_match c n d; Handlers.reply (k es)) s = m ← k l; Ok (set_store st s, [m])) as H.
  { intros k. rewrite run_bind, run_lift, Hn. cbn [mbind outcome_bind]. unfold run_query. rewrite run_bind, run_bind, run_lift, Hp. cbn [mbind outcome_bind].
    unfold on_store. rewrite E. cbn [mbind outcome_bind]. unfold Handlers.reply. rewrite run_bind, run_lift. by destruct (k l). }
  destruct Ht as [-> | [-> | ->]]; (eapply answered_by; [find_arm; apply H |]); [apply list_reply | apply list_reply | apply entries_reply].
Qed.

Lemma add_index_request name ty attrs st :
  decode_add_index req = Ok (name, ty, attrs) ->
  Store.add_index field_of (sv_schemas s) c name (mk_config None (index_type_of_i32 ty) attrs) (sv_store s) = Ok st -> answered 76032 st RDone.
Proof.
  intros Hn E. eapply answered_by; [find_arm; rewrite run_bind, run_lift, Hn; cbn [mbind outcome_bind]; apply (run_store_call (R := ())) |].
  - by rewrite E.
  - apply add_index_reply.
Qed.

(** A write: the store changes, the change is announced, and the response goes out at once. *)
Lemma run_put name key value ttl (o : option bytes -> outcome message) mk st old m :
  put_ttl field_of (sv_schemas s) c name key value ttl (sv_store s) = Ok (st, old) -> (r ← o old; set_correlation_id r corr) = Ok m ->
  exists b, (old ← on_store (fun sv => put_ttl field_of sv c name key value ttl);
      _ ← publish_change text_match name (if bool_decide (is_Some old) then UPDATED else ADDED) key (Some value) old;
      _ ← invalidate_near_caches name key;
      with_backup conn corr (o old) key mk) s = Ok (set_broker b (set_store st s), [m]).
Proof.
  intros E Ho. rewrite run_bind. unfold on_store. rewrite E. cbn [mbind outcome_bind]. rewrite run_bind.
  destruct (publish_change_total name (if bool_decide (is_Some old) then UPDATED else ADDED) key (Some value) old (set_store st s)) as (b1 & ->).
  cbn [mbind outcome_bind]. rewrite run_bind. destruct (invalidate_near_caches_total name key (set_broker b1 (set_store st s))) as (b2 & ->).
  cbn [mbind outcome_bind]. exists b2. by apply with_backup_alone.
Qed.

Lemma put_request t q st old :
  t = 65792 \/ t = 69376 -> Codecs.decode_put req = Ok q ->
  put_ttl field_of (sv_schemas s) c (rq_name q) (rq_key q) (rq_value q) (ttl_of (rq_ttl q)) (sv_store s) = Ok (st, old) -> answered t st (RVal old).
Proof.
  intros [-> | ->] Hq E; unfold answered; find_arm; rewrite run_bind, run_lift, Hq; cbn [mbind outcome_bind].
  - destruct (run_put _ _ _ _ encode_put_response (fun op => BackupPut op (rq_name q) (rq_key q) (rq_value q) (ttl_of (rq_ttl q))) _ _ _ E (data_reply 65793 old corr)) as (b & H). exists b. eexists. split; [exact H |].
    pose proof (reply_corr_again 65793 [] [nullable old] corr) as Ha. by rewrite !app_nil_r in Ha.
  - destruct (run_put _ _ _ _ (fun _ => empty_response 69377) (fun op => BackupPut op (rq_name q) (rq_key q) (rq_value q) (ttl_of (rq_ttl q))) _ _ _ E (empty_reply 69377 corr)) as (b & H). exists b. eexists. split; [exact H |].
    pose proof (reply_corr_again 69377 [] [] corr) as Ha. by rewrite !app_nil_r in Ha.
Qed.

Lemma run_remove name key (o : option bytes -> outcome message) mk st old m :
  Store.remove field_of (sv_schemas s) c name key (sv_store s) = Ok (st, old) -> (r ← o old; set_correlation_id r corr) = Ok m ->
  exists b, (old ← on_store (fun sv => Store.remove field_of sv c name key);
      _ ← (if bool_decide (is_Some old) then _ ← publish_change text_match name REMOVED key None old; invalidate_near_caches name key else mret ());
      with_backup conn corr (o old) key mk) s = Ok (set_broker b (set_store st s), [m]).
Proof.
  intros E Ho. rewrite run_bind. unfold on_store. rewrite E. cbn [mbind outcome_bind]. rewrite run_bind. case_bool_decide.
  - rewrite run_bind. destruct (publish_change_total name REMOVED key None old (set_store st s)) as (b1 & ->).
    cbn [mbind outcome_bind]. destruct (invalidate_near_caches_total name key (set_broker b1 (set_store st s))) as (b2 & ->).
    cbn [mbind outcome_bind]. exists b2. by apply with_backup_alone.
  - cbn [mbind outcome_bind mret handler_ret]. exists (sv_broker s). replace (set_broker (sv_broker s) (set_store st s)) with (set_store st s) by (by destruct s).
    by apply with_backup_alone.
Qed.

Lemma remove_request t q st old :
  t = 66304 \/ t = 67840 -> decode_get req = Ok q ->
  Store.remove field_of (sv_schemas s) c (gq_name q) (gq_key q) (sv_store s) = Ok (st, old) -> answered t st (RVal old).
Proof.
  intros [-> | ->] Hq E; unfold answered; find_arm; rewrite run_bind, run_lift, Hq; cbn [mbind outcome_bind].
  - destruct (run_remove _ _ (data_response 66305) (fun op => BackupRemove op (gq_name q) (gq_key q)) _ _ _ E (data_reply 66305 old corr)) as (b & H). exists b. eexists. split; [exact H |].
    pose proof (reply_corr_again 66305 [] [nullable old] corr) as Ha. by rewrite !app_nil_r in Ha.
  - destruct (run_remove _ _ (fun _ => empty_response 67841) (fun op => BackupRemove op (gq_name q) (gq_key q)) _ _ _ E (empty_reply 67841 corr)) as (b & H). exists b. eexists. split; [exact H |].
    pose proof (reply_corr_again 67841 [] [] corr) as Ha. by rewrite !app_nil_r in Ha.
Qed.

Lemma one_of_In t l : one_of t l = true -> List.In t l.
Proof. intros (x & H & ->%Z.eqb_eq)%existsb_exists. done. Qed.

(** The type of a request, and what its decoder and the store returned. *)
Ltac ask_step :=
  match goal with
  | |- (if one_of ?t ?l then _ else _) = _ -> _ => let E := fresh "E" in destruct (one_of t l) eqn:E; [apply one_of_In in E; cbn [List.In] in E |]
  | |- (if ?t =? ?n then _ else _) = _ -> _ => let E := fresh "E" in destruct (t =? n) eqn:E; [apply Z.eqb_eq in E; subst t |]
  end.
Ltac ask_run :=
  repeat match goal with
  | |- context [?d req] => is_const d; let q := fresh "q" in let H := fresh "H" in destruct (d req) as [q |] eqn:H; cbn [mbind outcome_bind]; [| done]
  | |- context [let '(_, _) := ?q in _] => is_var q; destruct q
  | |- context [QueryWire.decode ?q] => let H := fresh "H" in destruct (QueryWire.decode q) as [? |] eqn:H; cbn [mbind outcome_bind]; [| done]
  end; intros [= <-]; unfold serve_store; cbn [se_call se_clocks];
  match goal with |- context [mbind _ ?m = _] => let E := fresh "E" in destruct m as [?st |] eqn:E end; cbn [mbind outcome_bind]; [| done];
  repeat match goal with x : _ * _ |- _ => destruct x end; cbn [mbind outcome_bind]; intros [= <- <-].

Lemma handle_map_request t call st r :
  msg_type req = Ok t -> asked req = Ok (Some call) -> serve (sv_schemas s) (mk_sevent c call) (sv_store s) = Ok (st, r) -> answered t st r.
Proof.
  intros Ht. unfold asked. rewrite Ht. cbn [mbind outcome_bind]. clear Ht.
  ask_step; [ask_run; eapply put_request; [intuition | done | done] |].
  ask_step; [ask_run; eapply remove_request; [intuition | done | done] |].
  ask_step; [ask_run; by eapply get_request |].
  ask_step; [ask_run; by eapply contains_request |].
  ask_step; [ask_run; eapply size_request; [intuition | done | done] |].
  ask_step; [ask_run; by eapply put_if_absent_request |].
  ask_step; [ask_run; by eapply replace_request |].
  ask_step; [ask_run; by eapply clear_request |].
  ask_step; [ask_run; eapply entries_request; [intuition | done | done] |].
  ask_step; [ask_run; eapply query_request; [intuition | done | done | done] |].
  ask_step; [ask_run; by eapply add_index_request |].
  done.
Qed.

Lemma dispatch_map_request t call st r :
  has_quorum (sv_cluster s) = true -> msg_type req = Ok t -> correlation_id req = Ok corr -> asked req = Ok (Some call) ->
  serve (sv_schemas s) (mk_sevent c call) (sv_store s) = Ok (st, r) ->
  exists b, dispatch cfg c req conn s = Ok (set_broker b (set_store st s), [answer t corr r]).
Proof.
  intros Hq Ht Hc Ha E. destruct (handle_map_request t call st r Ht Ha E) as (b & m & H & Hm). exists b. unfold Handlers.dispatch.
  rewrite Hc. cbn [mbind outcome_bind]. rewrite Ht. cbn [mbind outcome_bind]. rewrite Hq, andb_false_r.
  rewrite H. cbn [mbind outcome_bind set_all_correlations]. by rewrite Hm.
Qed.
End Requests.

(** ** The fast path *)

Lemma get_with_get {R} sv c map key (f : option bytes -> R) st :
  Store.get_with field_of sv c map key f st = '(st, v) ← Store.get field_of sv c map key st; Ok (st, f v).
Proof.
  unfold Store.get_with, Store.get. fold (Table.get (now_ms c) map key).
  change (fun x => '(x, r) ← find (now_ms c) map key x; match r with Some (_, e) => v ← val_bytes x e; Ok (x, Some v) | None => Ok (x, None) end)
    with (Table.get (now_ms c) map key).
  destruct (on_shard _ _ _ st) as [[st' [v |]] |]; cbn [mbind outcome_bind]; [done | | done].
  by destruct (load_through _ _ _ _ _ _) as [[? ?] |].
Qed.

Lemma encode_get_into_is out corr v :
  encode_get_into out corr v = Ok (out ++ write_message [initial_frame (reply_header 66049 corr); nullable v]).
Proof.
  unfold encode_get_into, write_message, write_frame, reply_header, initial_frame. cbn [flags content].
  rewrite !blen_app, !blen_to_le. destruct v as [v |]; cbn [nullable data_frame null_frame flags content]; unfold write_i32_le, write_i64_le, write_u16_le.
  - split_le 8%nat corr. pose proof (blen_nonneg v). unfold PREFIX_LEN. split_le 4%nat (6 + blen v).
    change (copy_at (zeroed 19) 0 (to_le 4 19)) with (Ok (to_le 4 19 ++ zeroed 15)). done.
  - split_le 8%nat corr. done.
Qed.

(** A message the fast path takes is answered as by [dispatch]. *)
Lemma try_fast_get_is c msg p out s corr name key st v :
  fast_get_request msg = Ok (Some (corr, name, key)) -> authorize p RMap name Security.Read = true ->
  Store.get field_of (sv_schemas s) c name key (sv_store s) = Ok (st, v) ->
  try_fast_get c msg p out s = Ok (set_store st s, Some (out ++ write_message (answer 66048 corr (RVal v)))).
Proof.
  intros Hf Hp Hg. unfold try_fast_get. rewrite Hf. cbn [mbind outcome_bind]. rewrite Hp. cbn [negb]. rewrite get_with_get, Hg. cbn [mbind outcome_bind].
  by rewrite encode_get_into_is.
Qed.

(** ** A message's bytes *)

(** The bytes of one message, as the reactor cuts them from its buffer, with its first fields. *)
Record is_message (msg : bytes) (fs : message) (t corr : Z) : Prop := {
  im_buf : buf_ok msg;
  im_read : read_message msg = Some (Ok (Some (fs, blen msg)));
  im_type : msg_type fs = Ok t;
  im_corr : correlation_id fs = Ok corr
}.

Lemma read_frames_is msg fs t corr : is_message msg fs t corr -> read_frames msg = Ok (Some fs).
Proof. intros H. unfold read_frames. by rewrite (im_read _ _ _ _ H). Qed.

(** Only an authentication can change the connection's principal. *)
Lemma rebind_is cfg msg cert p fs t corr :
  is_message msg fs t corr -> t <> 256 -> maybe_rebind_principal cfg msg cert p = Ok p.
Proof.
  intros H Hne. destruct H as [Hb Hr Ht Hc]. apply read_message_slices in Hr as [Hn Hs]; [| done]. unfold maybe_rebind_principal.
  inversion Hs as [? E | ? f0 o1 l E H1]; subst; [done |]. rewrite E. cbn [mbind outcome_bind]. case_match; [done |].
  unfold msg_type in Ht. cbn [index lookup list_lookup mbind outcome_bind] in Ht. rewrite Ht. cbn [mbind outcome_bind].
  by rewrite (proj2 (Z.eqb_neq _ _) Hne).
Qed.

(** The slow path, for a message the fast path leaves. *)
Lemma dispatch_bytes_slow cfg c msg conn cert p out s fs t corr :
  is_message msg fs t corr -> t <> 256 -> try_fast_get c msg p out s = Ok (s, None) ->
  dispatch_bytes cfg c msg conn cert p out s
  = denied ← authz_denial fs p;
    match denied with
    | Some e => Ok (s, (p, out ++ write_message e))
    | None => '(s, replies) ← dispatch cfg c fs conn s; Ok (s, (p, out ++ concat (map write_message replies)))
    end.
Proof.
  intros H Hne Hf. unfold Handlers.dispatch_bytes. rewrite (rebind_is cfg msg cert p fs t corr) by done. cbn [mbind outcome_bind].
  rewrite Hf. cbn [mbind outcome_bind]. rewrite (read_frames_is msg fs t corr) by done. done.
Qed.

Lemma asked_is_not_auth fs call t : asked fs = Ok (Some call) -> msg_type fs = Ok t -> t <> 256.
Proof. intros Ha Ht ->. unfold asked in Ha. rewrite Ht in Ha. done. Qed.

Lemma serve_bytes cfg c msg conn cert p out s fs t corr call st r :
  is_message msg fs t corr -> asked fs = Ok (Some call) -> allowed t fs p = true ->
  sv_replicator s = None -> has_quorum (sv_cluster s) = true ->
  serve (sv_schemas s) (mk_sevent c call) (sv_store s) = Ok (st, r) ->
  exists b, dispatch_bytes cfg c msg conn cert p out s = Ok (set_broker b (set_store st s), (p, out ++ write_message (answer t corr r))).
Proof.
  intros H Ha Hp Hr Hq E. pose proof (asked_is_not_auth _ _ _ Ha (im_type _ _ _ _ H)) as Hne.
  assert (try_fast_get c msg p out s = Ok (s, None) -> exists b,
    dispatch_bytes cfg c msg conn cert p out s = Ok (set_broker b (set_store st s), (p, out ++ write_message (answer t corr r)))) as Hslow.
  { intros Hf. rewrite (dispatch_bytes_slow cfg c msg conn cert p out s fs t corr) by done. unfold authz_denial.
    rewrite (im_type _ _ _ _ H). cbn [mbind outcome_bind]. rewrite Hp. cbn [mbind outcome_bind].
    destruct (dispatch_map_request cfg c fs conn corr s Hr t call st r Hq (im_type _ _ _ _ H) (im_corr _ _ _ _ H) Ha E) as (b & ->).
    exists b. cbn [mbind outcome_bind map concat]. by rewrite app_nil_r. }
  destruct (fast_get_request_frames msg fs (im_buf _ _ _ _ H) (im_read _ _ _ _ H) (ex_intro _ t (im_type _ _ _ _ H))) as [Hf | (co & name & key & Hf & Ht & Hc & Hn & Hk)].
  { apply Hslow. unfold try_fast_get. by rewrite Hf. }
  destruct (authorize p RMap name Security.Read) eqn:Hauth.
  2: { apply Hslow. unfold try_fast_get. rewrite Hf. cbn [mbind outcome_bind]. by rewrite Hauth. }
  pose proof (im_type _ _ _ _ H) as Ht'. rewrite Ht in Ht'. injection Ht' as <-.
  pose proof (im_corr _ _ _ _ H) as Hc'. rewrite Hc in Hc'. injection Hc' as <-.
  unfold asked in Ha. rewrite Ht in Ha. cbn [mbind outcome_bind one_of existsb Z.eqb Pos.eqb orb] in Ha.
  unfold decode_get in Ha. destruct (long_field fs 16) as [tid |]; [| done]. cbn [mbind outcome_bind] in Ha.
  rewrite Hn in Ha. cbn [mbind outcome_bind] in Ha. rewrite Hk in Ha. cbn [mbind outcome_bind gq_name gq_key] in Ha. injection Ha as <-.
  unfold serve_store in E. cbn [se_call se_clocks] in E. destruct (Store.get _ _ _ _ _ _) as [[st' v] |] eqn:Eg; [| done]. cbn [mbind outcome_bind] in E. injection E as <- <-.
  exists (sv_broker s). unfold Handlers.dispatch_bytes. rewrite (rebind_is cfg msg cert p fs 66048 co) by done. cbn [mbind outcome_bind].
  rewrite (try_fast_get_is c msg p out s co name key st' v) by done. cbn [mbind outcome_bind]. by destruct s.
Qed.

(** ** Requests of a run *)

(** A request on some connection: when it is served, who sent it, its bytes, and what they say. *)
Record Request := mkRequest {
  q_clocks : clocks; q_conn : Z; q_cert : option bytes; q_principal : Principal; q_msg : bytes;
  q_frames : message; q_type : Z; q_corr : Z; q_call : scall }.

Record request_ok (q : Request) : Prop := {
  ro_message : is_message (q_msg q) (q_frames q) (q_type q) (q_corr q);
  ro_call : asked (q_frames q) = Ok (Some (q_call q));
  ro_sized : scall_ok (q_call q);
  ro_allowed : allowed (q_type q) (q_frames q) (q_principal q) = true
}.

Definition event_at (q : Request) : sevent := mk_sevent (q_clocks q) (q_call q).
Definition answer_bytes (q : Request) (r : TableRun.reply) : bytes := write_message (answer (q_type q) (q_corr q) r).

(** The requests one after the other, in the order the reactor takes them from its connections. *)
Fixpoint serve_requests (cfg : Cfg) (qs : list Request) (s : Server) : outcome (Server * list bytes) :=
  match qs with
  | [] => Ok (s, [])
  | q :: qs' =>
    '(s, (_, out)) ← dispatch_bytes cfg (q_clocks q) (q_msg q) (q_conn q) (q_cert q) (q_principal q) [] s;
    '(s, outs) ← serve_requests cfg qs' s;
    Ok (s, out :: outs)
  end.

Lemma serve_requests_stores cfg qs : forall s st rs,
  Forall request_ok qs -> sv_replicator s = None -> has_quorum (sv_cluster s) = true ->
  serve_stores field_of (sv_schemas s) text_match set_iter (map event_at qs) (sv_store s) = Ok (st, rs) ->
  exists s', serve_requests cfg qs s = Ok (s', zip_with answer_bytes qs rs) /\ sv_store s' = st.
Proof.
  induction qs as [| q qs IH]; intros s st rs; cbn [map serve_stores serve_requests].
  { intros _ _ _ [= <- <-]. eauto. }
  intros [Hq Hqs]%Forall_cons Hr Hquo E. destruct (serve_store _ _ _ _ (event_at q) _) as [[st1 r] |] eqn:E1; [| done]. cbn [mbind outcome_bind] in E.
  destruct (serve_stores _ _ _ _ _ st1) as [[st2 rs'] |] eqn:E2; [| done]. cbn [mbind outcome_bind] in E. injection E as <- <-.
  destruct Hq as [Hm Hc Hs Hp].
  destruct (serve_bytes cfg (q_clocks q) (q_msg q) (q_conn q) (q_cert q) (q_principal q) [] s _ _ _ _ st1 r Hm Hc Hp Hr Hquo E1) as (b & ->).
  cbn [mbind outcome_bind]. destruct (IH (set_broker b (set_store st1 s)) st2 rs' Hqs Hr Hquo E2) as (s' & -> & Hst). by exists s'.
Qed.

(** ** Denials *)

Definition denial (corr : Z) : message :=
  [initial_frame (reply_header 0 corr); begin_frame; begin_frame; plain (to_le 4 64); string_frame (bstr "java.security.AccessControlException");
   string_frame (bstr "Permission denied"); begin_frame; end_frame; end_frame; end_frame].

Lemma denial_is fs p t corr : msg_type fs = Ok t -> correlation_id fs = Ok corr -> allowed t fs p = false -> authz_denial fs p = Ok (Some (denial corr)).
Proof.
  intros Ht Hc Hp. unfold authz_denial. rewrite Ht. cbn [mbind outcome_bind]. rewrite Hp. unfold error_response. rewrite (header_is 9), Hc.
  change (write_i32_le (zeroed 4) 0 64) with (Ok (to_le 4 64)). cbn [mbind outcome_bind].
  pose proof (reply_corr 0 [] [begin_frame; begin_frame; plain (to_le 4 64); string_frame (bstr "java.security.AccessControlException");
   string_frame (bstr "Permission denied"); begin_frame; end_frame; end_frame; end_frame] corr) as E. rewrite !app_nil_r in E. unfold initial_frame in E at 1. by rewrite E.
Qed.

(** The fast path does not serve what the permissions refuse. *)
Lemma fast_path_refuses c msg p out s fs t corr :
  is_message msg fs t corr -> allowed t fs p = false -> try_fast_get c msg p out s = Ok (s, None).
Proof.
  intros H Hp. unfold try_fast_get.
  destruct (fast_get_request_frames msg fs (im_buf _ _ _ _ H) (im_read _ _ _ _ H) (ex_intro _ t (im_type _ _ _ _ H))) as [-> | (co & name & key & -> & Ht & _ & Hn & _)]; [done |].
  cbn [mbind outcome_bind]. pose proof (im_type _ _ _ _ H) as Ht'. rewrite Ht in Ht'. injection Ht' as <-.
  change (allowed 66048 fs p) with (authorize p RMap (default [] (f ← fs !! 1%nat; from_utf8 (content f))) Security.Read) in Hp.
  unfold string_at, index in Hn. destruct (fs !! 1%nat) as [f1 |]; [| done]. cbn [mbind outcome_bind] in Hn. unfold decode_string in Hn.
  cbn [mbind option_bind] in Hp. destruct (from_utf8 (content f1)) as [n |]; [| done]. injection Hn as ->. cbn [default from_option id] in Hp. by rewrite Hp.
Qed.

(** ** Writes of a member with backups *)

(** What a put queues for a connection: the entry events of the map's listeners, then the
    invalidations of near caches. *)
Definition put_events (sv : SchemaService) (name key value : bytes) (old : option bytes) (b : EventBroker) (k : Z) : list bytes :=
  let ty := if bool_decide (is_Some old) then UPDATED else ADDED in
  map (event_of ty (member_uuid b) key (Some value) old)
    (filter (fun l => l_conn_id l = k /\ wants (fun v f => field_of v sv f) text_match ty (Some value) old l = true) (default [] (listeners b !! name))).

Lemma publish_change_queues name ty key value old s :
  exists b, publish_change text_match name ty key value old s = Ok (set_broker b s, ())
    /\ forall k, queue_of k b = queue_of k (sv_broker s)
         ++ map (event_of ty (member_uuid (sv_broker s)) key value old)
              (filter (fun l => l_conn_id l = k /\ wants (fun v f => field_of v (sv_schemas s) f) text_match ty value old l = true) (default [] (listeners (sv_broker s) !! name))).
Proof.
  unfold publish_change, on_broker. destruct (has_listeners name (sv_broker s)) eqn:E.
  - destruct (publish_delivers (fun v f => field_of v (sv_schemas s) f) text_match name ty key value old (sv_broker s)) as (b & -> & _ & Hq).
    cbn [mbind outcome_bind]. eauto.
  - exists (sv_broker s). split; [by destruct s |]. intros k. unfold has_listeners, some_at in E.
    destruct (listeners (sv_broker s) !! name) as [[| l ls] |]; [| done |]; cbn; by rewrite app_nil_r.
Qed.

Lemma invalidate_queues name key s :
  exists b more, invalidate_near_caches name key s = Ok (set_broker b s, ()) /\ forall k, queue_of k b = queue_of k (sv_broker s) ++ more k.
Proof.
  unfold invalidate_near_caches, on_broker. case_match; [| exists (sv_broker s), (fun _ => []); split; [by destruct s | intros; by rewrite app_nil_r]].
  destruct (invalidate_total name key (sv_broker s)) as (b & E). rewrite E. cbn [mbind outcome_bind]. unfold invalidate in E. cbn [near_caches set_nc_seq] in E.
  exists b. destruct (near_caches (sv_broker s) !! name) as [subs |].
  - destruct (events_for _ subs) as [l |]; [| done]. cbn [mbind outcome_bind] in E. injection E as <-. exists (fun k => for_conn k l). split; [done |].
    intros k. by rewrite queue_of_enqueue_all.
  - injection E as <-. exists (fun _ => []). split; [done |]. intros k. by rewrite app_nil_r.
Qed.

(** The response of a write is sent by the member thread once it has the job, and at once otherwise. *)
Lemma with_backup_deferred conn corr o key mk m r p bs s :
  sv_replicator s = Some r -> has_backups r = true -> (length (ring_jobs r) < ring_cap r)%nat ->
  partition_id key PARTITION_COUNT = Ok p -> backups_of (sv_cluster s) p = Ok bs -> bs <> [] -> (x ← o; set_correlation_id x corr) = Ok m ->
  with_backup conn corr o key mk s
  = Ok (set_replicator (Some (mkReplicator (ring_jobs r ++ [JReplicate p (next_op r) (mk (next_op r)) conn (write_message m)]) (ring_cap r)
          (wrap_u64 (next_op r + 1)) (rep_backups r))) s, []).
Proof.
  intros Hr Hb Hcap Hp Hbs Hne Ho. unfold with_backup. rewrite run_bind, run_lift, Ho. cbn [mbind outcome_bind]. rewrite run_bind. unfold replicate_write.
  rewrite Hr, Hb. cbn [negb]. rewrite Hp. cbn [mbind outcome_bind]. unfold replicate_job. rewrite Hr, Hb. cbn [negb]. rewrite Hbs. cbn [mbind outcome_bind].
  destruct bs as [| b0 bs]; [done |]. unfold Services.replicate. unfold has_backups in Hb. apply Nat.ltb_lt in Hb. rewrite (proj2 (Nat.eqb_neq _ 0)) by lia.
  unfold push_job. cbn [ring_jobs ring_cap]. by rewrite (proj2 (Nat.ltb_lt _ _)).
Qed.

Lemma put_arm cfg c req conn corr s q :
  Codecs.decode_put req = Ok q ->
  handle cfg c req conn corr 65792 s
  = (old ← on_store (fun sv => put_ttl field_of sv c (rq_name q) (rq_key q) (rq_value q) (ttl_of (rq_ttl q)));
     _ ← publish_change text_match (rq_name q) (if bool_decide (is_Some old) then UPDATED else ADDED) (rq_key q) (Some (rq_value q)) old;
     _ ← invalidate_near_caches (rq_name q) (rq_key q);
     with_backup conn corr (encode_put_response old) (rq_key q) (fun op => BackupPut op (rq_name q) (rq_key q) (rq_value q) (ttl_of (rq_ttl q)))) s.
Proof. intros Hq. find_arm. rewrite run_bind, run_lift, Hq. done. Qed.
(** ** Correlation ids *)

Lemma correlation_id_range m corr : correlation_id m = Ok corr -> is_i64 corr.
Proof.
  unfold correlation_id, read_i64_le, slice. destruct (index m 0) as [f |]; [| done]. cbn [mbind outcome_bind]. case_match eqn:E; [| done].
  cbn [mbind outcome_bind]. intros [= <-]. apply Nat.leb_le in E. 
  assert (length (take 8 (drop 4 (content f))) = 8%nat) as L by (rewrite length_take, length_drop; lia).
  pose proof (from_le_i_range (take 8 (drop 4 (content f)))) as H. unfold blen in H. rewrite L in H. apply H. lia.
Qed.

Lemma set_all_correlations_read corr ms : forall ms', is_i64 corr -> set_all_correlations corr ms = Ok ms' -> Forall (fun m => correlation_id m = Ok corr) ms'.
Proof.
  induction ms as [| m ms IH]; intros ms' Hi; cbn [set_all_correlations]; [intros [= <-]; constructor |].
  destruct (set_correlation_id m corr) as [m' |] eqn:E; [| done]. cbn [mbind outcome_bind].
  destruct (set_all_correlations corr ms) as [l |]; [| done]. cbn [mbind outcome_bind]. intros [= <-]. constructor; [by eapply set_correlation_id_reads | by apply IH].
Qed.

Lemma txn_arm cfg c req conn corr s t : t = 1376768 \/ t = 1312000 -> handle cfg c req conn corr t s = Panic.
Proof.
  intros [-> | ->]; find_arm; lazy beta iota zeta delta [handle_topic_and_cache handle_txn_and_jet one_of existsb orb Z.eqb Pos.eqb]; rewrite run_bind;
    unfold begin_txn; cbn [mbind outcome_bind]; unfold Handlers.reply; rewrite run_bind, run_lift, transaction_create_response_panics; done.
Qed.
End Facts.


(** C8. A request its connection's principal may not make changes nothing, and is answered with an access
    control exception under its correlation id: neither the fast path nor any handler serves it. *)
Theorem denied_requests_change_nothing {X : MapStore} {I : Iteration} {J : SerdeJson} {K : Pbkdf2} text_match f64_to_string parse_f64 group_iter hll_estimate debug_value
    cfg c msg conn cert p out s fs t corr :
  is_message msg fs t corr -> t <> 256 -> allowed t fs p = false ->
  dispatch_bytes text_match f64_to_string parse_f64 group_iter hll_estimate debug_value cfg c msg conn cert p out s
  = Ok (s, (p, out ++ write_message (denial corr))).
Proof.
  intros H Hne Hp. rewrite (dispatch_bytes_slow _ _ _ _ _ _ cfg c msg conn cert p out s fs t corr) by (try done; by eapply fast_path_refuses).
  rewrite (denial_is fs p t corr) by (try done; apply H). done.
Qed.


(** Every message a dispatch returns carries the correlation id of the request. *)
Theorem replies_carry_the_correlation_id {X : MapStore} {I : Iteration} {J : SerdeJson} {K : Pbkdf2} text_match f64_to_string parse_f64 group_iter hll_estimate debug_value
    cfg c req conn s s' replies :
  dispatch text_match f64_to_string parse_f64 group_iter hll_estimate debug_value cfg c req conn s = Ok (s', replies) ->
  exists corr, correlation_id req = Ok corr /\ Forall (fun m => correlation_id m = Ok corr) replies.
Proof.
  unfold dispatch. destruct (correlation_id req) as [corr |] eqn:Hc; [| done]. cbn [mbind outcome_bind]. intros H. exists corr. split; [done |].
  pose proof (correlation_id_range _ _ Hc) as Hi. destruct (msg_type req) as [t |]; [| done]. cbn [mbind outcome_bind] in H. revert H. case_match.
  - destruct (error_response _ _ _) as [e |]; [| done]. cbn [mbind outcome_bind]. destruct (set_correlation_id e corr) as [e' |] eqn:E; [| done].
    cbn [mbind outcome_bind]. intros [= <- <-]. apply Forall_singleton. by eapply set_correlation_id_reads.
  - destruct (handle _ _ _ _ _ _ _ _ _ _ _ _ s) as [[s1 ms] |]; [| done]. cbn [mbind outcome_bind].
    destruct (set_all_correlations corr ms) as [ms' |] eqn:E; [| done]. cbn [mbind outcome_bind]. intros [= <- <-]. by eapply set_all_correlations_read.
Qed.

(** Asking a member for a transaction ends its reactor: the response does not fit the buffer it is
    written to, so no client ever gets a transaction's identifier. *)
Theorem creating_a_transaction_panics {X : MapStore} {I : Iteration} {J : SerdeJson} {K : Pbkdf2} text_match f64_to_string parse_f64 group_iter hll_estimate debug_value
    cfg c req conn s t :
  msg_type req = Ok t -> t = 1376768 \/ t = 1312000 ->
  Handlers.dispatch text_match f64_to_string parse_f64 group_iter hll_estimate debug_value cfg c req conn s = Panic.
Proof.
  intros Ht H. unfold dispatch. destruct (correlation_id req) as [corr |]; [| done]. cbn [mbind outcome_bind]. rewrite Ht. cbn [mbind outcome_bind].
  destruct H as [-> | ->]; cbn [is_quorum_gated_write one_of existsb Z.eqb Pos.eqb orb andb];
    (rewrite (txn_arm _ _ _ _ _ _ _ _ _ _ _ _) by auto; cbn [mbind outcome_bind]; done).
Qed.

(** ** A member and its requests *)

Definition ex_cfg : Cfg := mkCfg [mkMember (1, 1) (bstr "127.0.0.1") 5701] 0 [] (bstr "dev") None None open_provider.
Definition ex_member (i : Z) : MemberInfo := mkInfo (i, i) (bstr "127.0.0.1") (5700 + i) (5800 + i) i.
Definition ex_broker : EventBroker := register (bstr "m") 9 77 7 true (new_broker (1, 1)).
Definition ex_server (cl : Cluster) (r : option Replicator) : Server (X := no_ext) :=
  mkServer (mk_store 0 7 (repeat new_inner 3) ∅ no_structures None None) ∅ 0 people ex_broker cl r ∅ new_txns new_jet ∅ [].

(** The frames of a request: its fixed fields, its map, and its other frames. *)
Definition ex_request (t corr : Z) (fixed : bytes) (rest : list bytes) : message :=
  initial_frame (to_le 4 t ++ to_le 8 corr ++ to_le 4 0 ++ to_le 8 1 ++ fixed) :: string_frame (bstr "m") :: map data_frame rest.
Definition ex_put (corr : Z) (k v : bytes) : message := ex_request 65792 corr (to_le 8 (-1)) [k; v].

Definition ex_clocks (now : Z) : clocks := mk_clocks now (fun n => Z.of_nat n) (1000 + now).
Definition request_of (now conn : Z) (fs : message) (t corr : Z) (call : scall) : Request :=
  mkRequest (ex_clocks now) conn None anonymous_full (write_message fs) (finalize fs) t corr call.

Definition ex_requests : list Request :=
  let m := bstr "m" in
  let a := bstr "a" in
  [ request_of 10 1 (ex_put 5 a (bstr "1")) 65792 5 (SPutTtl m a (bstr "1") 0);
    request_of 11 2 (ex_request 66048 6 [] [a]) 66048 6 (SGet m a);
    request_of 12 1 (ex_request 69120 7 (to_le 8 50) [a; bstr "2"]) 69120 7 (SPutIfAbsent m a (bstr "2") 50);
    request_of 13 3 (ex_request 76288 8 [] []) 76288 8 (SSize m);
    request_of 14 3 (ex_request 66304 9 [] [a]) 66304 9 (SRemove m a);
    request_of 15 2 (ex_request 74240 10 [] []) 74240 10 (SEntries m) ].

Lemma ex_requests_ok : Forall request_ok ex_requests.
Proof. repeat (apply Forall_cons; split; [split; [split; vm_compute; done | vm_compute; done | vm_compute; done | vm_compute; done] |]). constructor. Qed.

Definition no_json : SerdeJson :=
  {| Value := unit; view := fun _ => JNull; JsonFlat.members := fun _ => None; from_slice := fun _ => None; text_of := fun _ => []; object_text := fun _ => [] |}.
Definition ex_single : Server := ex_server (new_cluster [ex_member 1] 0 1) None.
Definition ex_backed : Server := ex_server (new_cluster [ex_member 1; ex_member 2] 1 1) (Some (new_replicator 8 1)).

Definition ex_serve := serve_requests (X := no_ext) (I := by_keys) (J := no_json) (K := toy_kdf) no_text (fun _ => []) (fun _ => None) map_to_list (fun _ => 0) (fun _ => []).
Definition ex_dispatch := dispatch (X := no_ext) (I := by_keys) (J := no_json) (K := toy_kdf) no_text (fun _ => []) (fun _ => None) map_to_list (fun _ => 0) (fun _ => []).
Definition ex_dispatch_bytes :=
  dispatch_bytes (X := no_ext) (I := by_keys) (J := no_json) (K := toy_kdf) no_text (fun _ => []) (fun _ => None) map_to_list (fun _ => 0) (fun _ => []).


Definition ex_guest : Principal := mkPrincipal (bstr "guest") [] false.

Lemma denied_requests_change_nothing_witness :
  ex_dispatch_bytes ex_cfg (ex_clocks 10) (write_message (ex_request 66048 6 [] [bstr "a"])) 2 None ex_guest [] ex_single
  = Ok (ex_single, (ex_guest, [] ++ write_message (denial 6))).
Proof.
  unfold ex_dispatch_bytes. apply (denied_requests_change_nothing (X := no_ext) (I := by_keys) (J := no_json) (K := toy_kdf) no_text (fun _ => []) (fun _ => None) map_to_list (fun _ => 0) (fun _ => [])
    ex_cfg (ex_clocks 10) _ 2 None ex_guest [] ex_single (finalize (ex_request 66048 6 [] [bstr "a"])) 66048 6);
    [split; vm_compute; done | discriminate | reflexivity].
Defined.

Lemma ex_put_result :
  exists st, put_ttl field_of people (ex_clocks 10) (bstr "m") (bstr "a") (bstr "1") 0 (sv_store ex_backed) = Ok (st, None).
Proof.
  assert (match put_ttl field_of people (ex_clocks 10) (bstr "m") (bstr "a") (bstr "1") 0 (sv_store ex_backed) with Ok (_, None) => true | _ => false end = true) as H
    by (vm_compute; reflexivity).
  destruct (put_ttl _ _ _ _ _ _ _ _) as [[st [? |]] |]; [done | by exists st | done].
Qed.


Lemma replies_carry_the_correlation_id_witness :
  exists s' replies, ex_dispatch ex_cfg (ex_clocks 10) (ex_request 76288 8 [] []) 1 ex_single = Ok (s', replies)
    /\ exists corr, correlation_id (ex_request 76288 8 [] []) = Ok corr /\ Forall (fun m => correlation_id m = Ok corr) replies.
Proof.
  assert (match ex_dispatch ex_cfg (ex_clocks 10) (ex_request 76288 8 [] []) 1 ex_single with Ok _ => true | Panic => false end = true) as H by (vm_compute; reflexivity).
  destruct (ex_dispatch ex_cfg (ex_clocks 10) (ex_request 76288 8 [] []) 1 ex_single) as [[s' replies] |] eqn:E; [| done].
  exists s', replies. split; [reflexivity |]. unfold ex_dispatch in E.
  exact (replies_carry_the_correlation_id (X := no_ext) (I := by_keys) (J := no_json) (K := toy_kdf) no_text (fun _ => []) (fun _ => None) map_to_list (fun _ => 0) (fun _ => [])
    ex_cfg (ex_clocks 10) (ex_request 76288 8 [] []) 1 ex_single s' replies E).
Defined.

Lemma creating_a_transaction_panics_witness :
  ex_dispatch ex_cfg (ex_clocks 10) (ex_request 1376768 8 [] []) 1 ex_single = Panic.
Proof.
  unfold ex_dispatch. apply (creating_a_transaction_panics (X := no_ext) (I := by_keys) (J := no_json) (K := toy_kdf) no_text (fun _ => []) (fun _ => None) map_to_list (fun _ => 0) (fun _ => [])
    ex_cfg (ex_clocks 10) (ex_request 1376768 8 [] []) 1 ex_single 1376768); [reflexivity | by left].
Defined.

(** The quorum gate does not cover every write: below quorum a put is refused and changes nothing, but
    the same entry is stored by a put-if-absent. *)
Definition ex_below : Server := ex_server (new_cluster [ex_member 1] 0 2) None.

Lemma put_if_absent_ignores_quorum :
  has_quorum (sv_cluster ex_below) = false
  /\ (exists e, ex_dispatch ex_cfg (ex_clocks 10) (ex_put 5 (bstr "a") (bstr "1")) 1 ex_below = Ok (ex_below, [e]))
  /\ match ex_dispatch ex_cfg (ex_clocks 10) (ex_request 69120 7 (to_le 8 0) [bstr "a"; bstr "2"]) 1 ex_below with
     | Ok (s, _) => Store.size (bstr "m") (sv_store s) = Ok 1
     | Panic => False
     end.
Proof.
  split_and!; [reflexivity | | vm_compute; reflexivity]. unfold ex_dispatch, dispatch.
  change (has_quorum (sv_cluster ex_below)) with false. eexists. reflexivity.
Qed.
