(* ===== verification/MemberThread.v ===== *)
(** * The member thread (crates/server/src/member_thread.rs)

    The thread between a member's reactor and its peers: it takes jobs from the reactor, ships backups,
    runs the CP groups, scatters and gathers SQL queries, follows the membership and streams the
    partitions that move.  Store and event broker are shared with the reactor; the clock is read once
    per message or tick. *)

From S2P Require Import Prelude Text Fixed Frame FieldValue QueryIndex Schema Extract Partition Table Hlc Hll AuxStore AuxState WalRecord Store TableIndex TableSpec TableRun StoreRun StoreLog Recovery RecoveryFacts RecoveryRun StoreMerge RaftLog RaftNode CpReply AtomicLong CpSm CpGroup CpWire Codecs CpCodecs MemberWire Membership Migration Coordinator Replication Sql SqlExec Distributed Services.

Definition DEFAULT_GROUP : bytes := bstr "default".
Definition MIG_CHUNK : nat := 256.
Definition ACK_TIMEOUT_TICKS : Z := 5000.
Definition SQL_GATHER_TIMEOUT : Z := 5000.
Definition TTL_MILLIS : Z := 30000.
Definition HEARTBEAT_MILLIS : Z := 5000.

(** ** The CP groups of a member *)

(** [template]: this member's index and the size of a group, for groups created on demand;
    [waiting_clients]: where and how the reply of a client operation goes. *)
Record CpState := mkCpState {
  groups : gmap bytes CpGroup;
  template : option (nat * nat);
  waiting_clients : gmap Z (Z * Z * Z * ReplyKind);
  next_client : Z
}.

Definition new_cp_state (g : CpGroup) : CpState := mkCpState {[DEFAULT_GROUP := g]} None ∅ 1.
Definition multi (g : CpGroup) (self_index group_size : nat) : CpState :=
  mkCpState (groups (new_cp_state g)) (Some (self_index, group_size)) ∅ 1.

(** FNV-1a of the name. *)
Definition group_seed (name : bytes) : Z :=
  foldl (fun h b => wrap_u64 (Z.lxor h (u8 b) * 0x100000001b3)) 0xcbf29ce484222325 name.

Definition set_groups (x : gmap bytes CpGroup) (s : CpState) : CpState := mkCpState x (template s) (waiting_clients s) (next_client s).

(** The group of a name, created if there is a template, and the name it is kept under. *)
Definition group_mut (name : bytes) (s : CpState) : outcome (CpState * bytes * CpGroup) :=
  match groups s !! name with
  | Some g => Ok (s, name, g)
  | None =>
    match template s with
    | Some (self_index, group_size) =>
      node ← new_node self_index (seq 0 group_size) new_log (wrap_u64 (Z.of_nat self_index + 1 + group_seed name));
      let g := new_group node in Ok (set_groups (<[name := g]> (groups s)) s, name, g)
    | None => match groups s !! DEFAULT_GROUP with Some g => Ok (s, DEFAULT_GROUP, g) | None => Panic end
    end
  end.

(** [[grouplen: u16][group][message]]: the length is truncated. *)
Definition tag (group : bytes) (m : CpMsg) : bytes := to_le 2 (blen group) ++ group ++ CpWire.encode_msg m.
Definition route_to (group : bytes) (cpout : cp_msgs) : outbox := map (fun tm => (tm.1, Cp (tag group tm.2))) cpout.

Definition long_of (r : CpReply) : Z := match r with RLong v => v | _ => 0 end.

Definition build_response (resp_type : Z) (kind : ReplyKind) (r : CpReply) (corr : Z) : outcome bytes :=
  frames ← match kind with
           | KLong => long_response resp_type (long_of r)
           | KBool => bool_response resp_type (match r with RBool true => true | _ => false end)
           | KVoid => encode_void_response resp_type
           | KData => data_response resp_type (match r with RData d => d | _ => None end)
           | KInt => encode_int_response resp_type (wrap_i32 (long_of r))
           | KSession => encode_create_response resp_type (long_of r) TTL_MILLIS HEARTBEAT_MILLIS
           end;
  frames ← set_correlation_id frames corr;
  Ok (write_message frames).

Section Cp.
Context {C : Crc32} {I : Iteration}.

Definition submit_to (group : bytes) (conn corr resp_type : Z) (kind : ReplyKind) (command : bytes) (s : CpState) : outcome (CpState * outbox) :=
  let client := next_client s in
  let s := mkCpState (groups s) (template s) (<[client := (conn, corr, resp_type, kind)]> (waiting_clients s)) (wrap_u64 (client + 1)) in
  '(s, name, g) ← group_mut group s;
  '(g, cpout) ← CpGroup.submit client command g;
  Ok (set_groups (<[name := g]> (groups s)) s, route_to group cpout).

Definition cp_step (src : nat) (payload : bytes) (s : CpState) : outcome (CpState * outbox) :=
  if (length payload <? 2)%nat then Ok (s, []) else
  let glen := from_le_u (take 2 payload) in
  if blen payload <? 2 + glen then Ok (s, []) else
  let group := from_utf8_lossy (take (Z.to_nat glen) (drop 2 payload)) in
  msg ← CpWire.decode_msg (drop (Z.to_nat (2 + glen)) payload);
  match msg with
  | None => Ok (s, [])
  | Some m =>
    '(s, name, g) ← group_mut group s;
    '(g, cpout) ← CpGroup.step src m g;
    Ok (set_groups (<[name := g]> (groups s)) s, route_to group cpout)
  end.

(** Every group's clock, in the order the map iterates. *)
Fixpoint tick_groups (gs : list (bytes * CpGroup)) (s : CpState) : outcome (CpState * outbox) :=
  match gs with
  | [] => Ok (s, [])
  | (name, g) :: gs =>
    '(g, cpout) ← CpGroup.tick g;
    '(s, out) ← tick_groups gs (set_groups (<[name := g]> (groups s)) s);
    Ok (s, route_to name cpout ++ out)
  end.
Definition cp_tick (s : CpState) : outcome (CpState * outbox) := tick_groups (map_iter (groups s)) s.

(** The replies of finished operations to the clients that wait for them. *)
Fixpoint answer_all (cs : list Completion) (w : gmap Z (Z * Z * Z * ReplyKind)) : outcome (gmap Z (Z * Z * Z * ReplyKind) * list delivery) :=
  match cs with
  | [] => Ok (w, [])
  | c :: cs =>
    match w !! c_client c with
    | None => answer_all cs w
    | Some (conn, corr, resp_type, kind) =>
      b ← build_response resp_type kind (c_reply c) corr;
      '(w, out) ← answer_all cs (delete (c_client c) w);
      Ok (w, (conn, b) :: out)
    end
  end.

Fixpoint drain_groups (gs : list (bytes * CpGroup)) (s : CpState) : outcome (CpState * list delivery) :=
  match gs with
  | [] => Ok (s, [])
  | (name, g) :: gs =>
    let '(g, cs) := take_completions g in
    '(w, out) ← answer_all cs (waiting_clients s);
    '(s, rest) ← drain_groups gs (mkCpState (<[name := g]> (groups s)) (template s) w (next_client s));
    Ok (s, out ++ rest)
  end.
Definition drain_deliveries (s : CpState) : outcome (CpState * list delivery) := drain_groups (map_iter (groups s)) s.
End Cp.

(** ** The handler *)

(** A query whose partial results are being gathered. *)
Record Gather := mkGather { ga_conn : Z; ga_corr : Z; ga_select : Select; ga_payloads : list bytes; ga_expected : nat; ga_age : Z }.

Section Thread.
Context {X : MapStore} {I : Iteration} {C : Crc32}.
Context (text_match : TextKind -> bytes -> bytes -> bool) (f64_to_string : Z -> bytes) (parse_f64 : bytes -> option Z)
  (group_iter : gmap row (list entry) -> list (row * list entry)) (acc_iter : Partial -> list (row * list Acc))
  (gather_iter : gmap Z Gather -> list (Z * Gather)).
(** [str::parse::<SocketAddr>] *)
Context {Addr : Type} (parse_addr : bytes -> option Addr).

(** [mh_schemas]: the schemas the store was last given; [mh_events]: the ring to the reactor, with its
    capacity; [mh_rx]: the jobs the reactor pushed. *)
Record MemberHandler := mkHandler {
  mh_store : Store (X := X);
  mh_schemas : SchemaService;
  mh_broker : EventBroker;
  mh_rx : list MemberJob;
  mh_coord : Coordinator;
  mh_pending : Pending;
  mh_events : list (Z * list MemberRec);
  mh_events_cap : nat;
  mh_merge_latest : bool;
  mh_peers : gmap nat Addr;
  mh_cp : option CpState;
  mh_self_index : nat;
  mh_gathers : gmap Z Gather;
  mh_next_req : Z
}.

Definition with_store (x : Store (X := X)) (h : MemberHandler) : MemberHandler :=
  mkHandler x (mh_schemas h) (mh_broker h) (mh_rx h) (mh_coord h) (mh_pending h) (mh_events h) (mh_events_cap h) (mh_merge_latest h) (mh_peers h) (mh_cp h) (mh_self_index h) (mh_gathers h) (mh_next_req h).
Definition with_broker (x : EventBroker) (h : MemberHandler) : MemberHandler :=
  mkHandler (mh_store h) (mh_schemas h) x (mh_rx h) (mh_coord h) (mh_pending h) (mh_events h) (mh_events_cap h) (mh_merge_latest h) (mh_peers h) (mh_cp h) (mh_self_index h) (mh_gathers h) (mh_next_req h).
Definition with_rx (x : list MemberJob) (h : MemberHandler) : MemberHandler :=
  mkHandler (mh_store h) (mh_schemas h) (mh_broker h) x (mh_coord h) (mh_pending h) (mh_events h) (mh_events_cap h) (mh_merge_latest h) (mh_peers h) (mh_cp h) (mh_self_index h) (mh_gathers h) (mh_next_req h).
Definition with_coord (x : Coordinator) (h : MemberHandler) : MemberHandler :=
  mkHandler (mh_store h) (mh_schemas h) (mh_broker h) (mh_rx h) x (mh_pending h) (mh_events h) (mh_events_cap h) (mh_merge_latest h) (mh_peers h) (mh_cp h) (mh_self_index h) (mh_gathers h) (mh_next_req h).
Definition with_pending (x : Pending) (h : MemberHandler) : MemberHandler :=
  mkHandler (mh_store h) (mh_schemas h) (mh_broker h) (mh_rx h) (mh_coord h) x (mh_events h) (mh_events_cap h) (mh_merge_latest h) (mh_peers h) (mh_cp h) (mh_self_index h) (mh_gathers h) (mh_next_req h).
Definition with_view (events : list (Z * list MemberRec)) (peers : gmap nat Addr) (h : MemberHandler) : MemberHandler :=
  mkHandler (mh_store h) (mh_schemas h) (mh_broker h) (mh_rx h) (mh_coord h) (mh_pending h) events (mh_events_cap h) (mh_merge_latest h) peers (mh_cp h) (mh_self_index h) (mh_gathers h) (mh_next_req h).
Definition with_cp (x : option CpState) (h : MemberHandler) : MemberHandler :=
  mkHandler (mh_store h) (mh_schemas h) (mh_broker h) (mh_rx h) (mh_coord h) (mh_pending h) (mh_events h) (mh_events_cap h) (mh_merge_latest h) (mh_peers h) x (mh_self_index h) (mh_gathers h) (mh_next_req h).
Definition with_gathers (x : gmap Z Gather) (next : Z) (h : MemberHandler) : MemberHandler :=
  mkHandler (mh_store h) (mh_schemas h) (mh_broker h) (mh_rx h) (mh_coord h) (mh_pending h) (mh_events h) (mh_events_cap h) (mh_merge_latest h) (mh_peers h) (mh_cp h) (mh_self_index h) x next.

Definition new_handler (store : Store (X := X)) (schemas : SchemaService) (broker : EventBroker) (rx : list MemberJob) (coord : Coordinator) (events_cap : nat)
    (merge_latest : bool) (peers : gmap nat Addr) (self_index : nat) : MemberHandler :=
  mkHandler store schemas broker rx coord new_pending [] events_cap merge_latest peers None self_index ∅ 1.
Definition set_cp (g : CpGroup) (self_index group_size : nat) (h : MemberHandler) : MemberHandler :=
  with_cp (Some (multi g self_index group_size)) h.

(** [slice::chunks] *)
Fixpoint chunks_of {A} (fuel n : nat) (l : list A) : list (list A) :=
  match fuel, l with
  | O, _ | _, [] => []
  | S fuel, _ => take n l :: chunks_of fuel n (drop n l)
  end.
Definition chunks {A} (n : nat) (l : list A) : list (list A) := chunks_of (length l) n l.

Definition deliver (ds : list delivery) (h : MemberHandler) : MemberHandler := with_broker (enqueue_all ds (mh_broker h)) h.

(** ** Distributed SQL *)

Definition sql_local (c : clocks) (sql : bytes) (h : MemberHandler) : outcome (option (Select * bytes)) :=
  st ← Sql.parse sql;
  match st with
  | Some (SSelect sel) =>
    es ← Store.entries c (s_map sel) (mh_store h);
    let ex := fun v f => field_of v (mh_schemas h) f in
    if is_aggregate sel then
      p ← local_partial ex text_match f64_to_string sel es None;
      Ok (Some (sel, encode_partial (acc_iter p)))
    else
      let local := mkSelect false (s_cols sel) (s_star sel) (s_map sel) (s_window sel) (s_join sel) (s_filter sel) (s_group_by sel) None None in
      '(_, rows) ← execute_with ex text_match f64_to_string parse_f64 group_iter (mh_schemas h) local es [] None;
      Ok (Some (sel, encode_rows rows))
  | _ => Ok None
  end.

Definition sql_peers (h : MemberHandler) : list nat :=
  filter (fun i => i <> mh_self_index h) (seq 0 (Membership.len (Coordinator.cluster (mh_coord h)))).

Definition sql_response_bytes (select : Select) (payloads : list bytes) (corr : Z) : outcome bytes :=
  '(cols, rows) ← (if is_aggregate select
                   then finalize f64_to_string parse_f64 acc_iter select (merge acc_iter (omap decode_partial payloads))
                   else Ok (finalize_rows parse_f64 select (concat (omap decode_rows payloads))));
  frames ← encode_execute_response cols rows;
  frames ← set_correlation_id frames corr;
  Ok (write_message frames).

(** ** Changes of the membership *)

(** A full ring drops the view. *)
Definition emit_view (h : MemberHandler) : list (Z * list MemberRec) :=
  if (length (mh_events h) <? mh_events_cap h)%nat then mh_events h ++ [view_recs (mh_coord h)] else mh_events h.

(** An address that does not parse leaves what was known of the member. *)
Definition sync_peers (h : MemberHandler) : gmap nat Addr :=
  foldl (fun p im => match parse_addr (m_host im.2 ++ bstr ":" ++ int_to_string (m_member_port im.2)) with Some a => <[im.1 := a]> p | None => p end)
    (mh_peers h) (imap (fun i m => (i, m)) (members (Coordinator.cluster (mh_coord h)))).

(** The live entries with their partitions. *)
Fixpoint by_partition (es : list (bytes * bytes * bytes * Z)) : outcome (list (Z * (bytes * bytes * bytes * Z))) :=
  match es with
  | [] => Ok []
  | (m, key, val, stamp) :: es =>
    p ← partition_id key PARTITION_COUNT;
    rest ← by_partition es;
    Ok ((p, (m, key, val, stamp)) :: rest)
  end.

Definition migrate_one (s : Store (X := X)) (generation : Z) (parts : list (Z * (bytes * bytes * bytes * Z))) (partition : Z) (dest : nat) : outcome outbox :=
  aux ← aux_state_for_partition partition PARTITION_COUNT (structures s);
  mm ← mm_entries_for_partition partition PARTITION_COUNT (structures s);
  Ok ((dest, MigrateStart generation partition)
      :: map (fun chunk => (dest, MigrateChunk generation partition chunk)) (chunks MIG_CHUNK (map snd (filter (fun pe => pe.1 = partition) parts)))
      ++ (dest, MigrateAux generation partition aux)
      :: match mm with [] => [] | _ => [(dest, MigrateMm generation partition mm)] end
      ++ [(dest, MigrateEnd generation partition)]).

Fixpoint migrate_all (s : Store (X := X)) (generation : Z) (parts : list (Z * (bytes * bytes * bytes * Z))) (migs : list (Z * nat)) : outcome outbox :=
  match migs with
  | [] => Ok []
  | (partition, dest) :: migs =>
    out ← migrate_one s generation parts partition dest;
    rest ← migrate_all s generation parts migs;
    Ok (out ++ rest)
  end.

Definition apply_change (c : clocks) (ch : Change) (h : MemberHandler) : outcome (MemberHandler * outbox) :=
  if negb (changed ch) then Ok (h, []) else
  let h := with_view (emit_view h) (sync_peers h) h in
  match migrations ch with
  | [] => Ok (h, [])
  | migs =>
    es ← all_entries_stamped c (mh_store h);
    parts ← by_partition es;
    out ← migrate_all (mh_store h) (generation (Coordinator.cluster (mh_coord h))) parts migs;
    Ok (h, out)
  end.

(** ** Messages of peers *)

(** The backup side of a write (member/src/replication.rs). *)
Definition apply (c : clocks) (sv : SchemaService) (msg : Msg) (s : Store (X := X)) : outcome (Store (X := X)) :=
  match msg with
  | BackupPut _ name key value ttl_ms => '(s, _) ← put_ttl field_of sv c name key value ttl_ms s; Ok s
  | BackupRemove _ name key => '(s, _) ← Store.remove field_of sv c name key s; Ok s
  | _ => Ok s
  end.

Fixpoint merge_entries (c : clocks) (sv : SchemaService) (latest : bool) (es : list (bytes * bytes * bytes * Z)) (s : Store (X := X)) : outcome (Store (X := X)) :=
  match es with
  | [] => Ok s
  | (m, key, val, stamp) :: es => s ← put_merge field_of sv c m key val 0 stamp latest s; merge_entries c sv latest es s
  end.

Definition install_mm (es : list (bytes * bytes * list bytes)) (a : Structures) : Structures :=
  foldl (fun a '(name, key, values) => mm_install name key values a) a es.

Definition on_structures (f : Structures -> Structures) (h : MemberHandler) : MemberHandler :=
  with_store (set_structures (f (structures (mh_store h))) (mh_store h)) h.

(** What the CP groups have to say: their messages, and the replies of finished operations. *)
Definition run_cp (f : CpState -> outcome (CpState * outbox)) (h : MemberHandler) : outcome (MemberHandler * outbox) :=
  match mh_cp h with
  | None => Ok (h, [])
  | Some cp =>
    '(cp, out) ← f cp;
    '(cp, ds) ← drain_deliveries cp;
    Ok (deliver ds (with_cp (Some cp) h), out)
  end.

Definition on_partial (req_id : Z) (payload : bytes) (h : MemberHandler) : outcome MemberHandler :=
  match mh_gathers h !! req_id with
  | None => Ok h
  | Some g =>
    let g := mkGather (ga_conn g) (ga_corr g) (ga_select g) (ga_payloads g ++ [payload]) (ga_expected g) (ga_age g) in
    if (ga_expected g <=? length (ga_payloads g))%nat then
      b ← sql_response_bytes (ga_select g) (ga_payloads g) (ga_corr g);
      Ok (deliver [(ga_conn g, b)] (with_gathers (delete req_id (mh_gathers h)) (mh_next_req h) h))
    else Ok (with_gathers (<[req_id := g]> (mh_gathers h)) (mh_next_req h) h)
  end.

Definition on_msg (c : clocks) (src : nat) (msg : Msg) (h : MemberHandler) : outcome (MemberHandler * outbox) :=
  match msg with
  | BackupPut op_id _ _ _ _ | BackupRemove op_id _ _ =>
    s ← apply c (mh_schemas h) msg (mh_store h);
    Ok (with_store s h, [(src, Ack op_id)])
  | Ack op_id =>
    let '(p, d) := ack op_id (mh_pending h) in
    Ok (deliver (match d with Some d => [d] | None => [] end) (with_pending p h), [])
  | Heartbeat from_join_id generation => Ok (with_coord (on_heartbeat (mh_coord h) from_join_id generation) h, [])
  | MemberView generation members =>
    '(k, ch) ← on_view (mh_coord h) generation members;
    apply_change c ch (with_coord k h)
  | JoinRequest id host client_port member_port =>
    '(k, out, ch) ← on_join (mh_coord h) (mkInfo id host client_port member_port 0);
    '(h, more) ← apply_change c ch (with_coord k h);
    Ok (h, out ++ more)
  | MigrateChunk _ _ entries =>
    s ← merge_entries c (mh_schemas h) (mh_merge_latest h) entries (mh_store h); Ok (with_store s h, [])
  | BackupState op_id _ payload => Ok (on_structures (install_aux_state payload) h, [(src, Ack op_id)])
  | MigrateAux _ _ payload => Ok (on_structures (install_aux_state payload) h, [])
  | BackupMm op_id name key values => Ok (on_structures (mm_install name key values) h, [(src, Ack op_id)])
  | MigrateMm _ _ entries => Ok (on_structures (install_mm entries) h, [])
  | Cp payload => run_cp (cp_step src payload) h
  | SqlScatter req_id sql =>
    r ← sql_local c sql h;
    Ok (h, match r with Some (_, payload) => [(src, SqlPartial req_id payload)] | None => [] end)
  | SqlPartial req_id payload => h ← on_partial req_id payload h; Ok (h, [])
  | MigrateStart _ _ | MigrateEnd _ _ | Hello _ => Ok (h, [])
  end.

(** ** The clock *)

Definition on_scatter (c : clocks) (conn corr : Z) (sql : bytes) (h : MemberHandler) : outcome (MemberHandler * outbox) :=
  r ← sql_local c sql h;
  match r with
  | None => Ok (h, [])
  | Some (sel, local) =>
    match sql_peers h with
    | [] => b ← sql_response_bytes sel [local] corr; Ok (deliver [(conn, b)] h, [])
    | peers =>
      let req_id := mh_next_req h in
      Ok (with_gathers (<[req_id := mkGather conn corr sel [local] (length peers + 1) 0]> (mh_gathers h)) (wrap_u64 (req_id + 1)) h,
          map (fun p => (p, SqlScatter req_id sql)) peers)
    end
  end.

Definition on_job (c : clocks) (job : MemberJob) (h : MemberHandler) : outcome (MemberHandler * outbox) :=
  match job with
  | JReplicate partition op_id msg conn_id response =>
    bs ← backups_of (Coordinator.cluster (mh_coord h)) partition;
    let '(p, out, ds) := Replication.replicate_job bs op_id msg conn_id response (mh_pending h) in
    Ok (deliver ds (with_pending p h), out)
  | JMembership cl => Ok (with_coord (with_cluster (mh_coord h) cl) h, [])
  | JCpSubmit group conn_id corr resp_type kind command =>
    match mh_cp h with
    | None => Ok (h, [])
    | Some cp => '(cp, out) ← submit_to group conn_id corr resp_type kind command cp; Ok (with_cp (Some cp) h, out)
    end
  | JSqlScatter conn_id corr sql => on_scatter c conn_id corr sql h
  end.

(** The jobs, until the ring is empty. *)
Fixpoint on_jobs (c : clocks) (jobs : list MemberJob) (h : MemberHandler) : outcome (MemberHandler * outbox) :=
  match jobs with
  | [] => Ok (h, [])
  | j :: jobs => '(h, out) ← on_job c j h; '(h, rest) ← on_jobs c jobs h; Ok (h, out ++ rest)
  end.

Definition older_gather (g : Gather) : Gather :=
  mkGather (ga_conn g) (ga_corr g) (ga_select g) (ga_payloads g) (ga_expected g) (wrap_u32 (ga_age g + 1)).

(** The gathers that waited long enough are answered with the partials that arrived. *)
Fixpoint finish_gathers (gs : list (Z * Gather)) (h : MemberHandler) : outcome MemberHandler :=
  match gs with
  | [] => Ok h
  | (id, g) :: gs =>
    b ← sql_response_bytes (ga_select g) (ga_payloads g) (ga_corr g);
    finish_gathers gs (deliver [(ga_conn g, b)] (with_gathers (delete id (mh_gathers h)) (mh_next_req h) h))
  end.

Definition age_gathers (h : MemberHandler) : outcome MemberHandler :=
  let aged := older_gather <$> mh_gathers h in
  let h := with_gathers aged (mh_next_req h) h in
  finish_gathers (filter (fun ig => SQL_GATHER_TIMEOUT <= ga_age ig.2) (gather_iter aged)) h.

Definition on_tick (c : clocks) (h : MemberHandler) : outcome (MemberHandler * outbox) :=
  '(h, out1) ← on_jobs c (mh_rx h) (with_rx [] h);
  h ← age_gathers h;
  let '(p, ds) := sweep_expired ACK_TIMEOUT_TICKS (mh_pending h) in
  let h := deliver ds (with_pending p h) in
  '(h, out2) ← run_cp cp_tick h;
  '(k, out3, ch) ← Coordinator.on_tick (mh_coord h);
  '(h, out4) ← apply_change c ch (with_coord k h);
  Ok (h, out1 ++ out2 ++ out3 ++ out4).

(** What [spawn] starts the thread with. *)
Definition spawn_handler (self_index : nat) (cl : Cluster) (self_uuid : uuid) (hb_interval hb_timeout : Z) (merge_latest : bool) (join_as : option MemberInfo)
    (store : Store (X := X)) (schemas : SchemaService) (broker : EventBroker) (rx : list MemberJob) (events_cap : nat) (peers : gmap nat Addr) (cp_enabled : bool) :
    outcome MemberHandler :=
  let coord := new_coordinator cl self_uuid hb_interval hb_timeout in
  let coord := match join_as with Some info => set_pending_join coord info | None => coord end in
  let h := new_handler store schemas broker rx coord events_cap merge_latest peers self_index in
  if cp_enabled then
    node ← new_node self_index (seq 0 (Membership.len cl)) new_log (wrap_u64 (Z.of_nat self_index + 1));
    Ok (set_cp (new_group node) self_index (Membership.len cl) h)
  else Ok h.
End Thread.

(** * Facts *)

(** ** A partition's entries on their way *)

Lemma concat_chunks {A} n (l : list A) : (0 < n)%nat -> concat (chunks n l) = l.
Proof.
  intros Hn. unfold chunks. assert (forall fuel (l : list A), (length l <= fuel)%nat -> concat (chunks_of fuel n l) = l) as H; [| by apply H].
  intros fuel. induction fuel as [| fuel IH]; intros [| x m] L; [done | cbn in L; lia | done |].
  cbn [chunks_of concat]. rewrite IH by (rewrite length_drop; cbn [length] in *; lia). apply take_drop.
Qed.

Lemma partition_total key : exists p, partition_id key PARTITION_COUNT = Ok p.
Proof. destruct (proj1 (post_Ok _ _) (partition_id_ok key PARTITION_COUNT ltac:(unfold PARTITION_COUNT; lia))) as (p & Hp & _). eauto. Qed.

Lemma by_partition_ok es :
  exists ps, by_partition es = Ok ps /\ map snd ps = es /\ forall p e, (p, e) ∈ ps -> partition_id e.1.1.2 PARTITION_COUNT = Ok p.
Proof.
  induction es as [| [[[m key] val] stamp] es IH]; cbn [by_partition].
  { exists []. split_and!; [done | done |]. by intros p e ?%elem_of_nil. }
  destruct (partition_total key) as [p Hp]. rewrite Hp. cbn [mbind outcome_bind]. destruct IH as (ps & -> & E & H). cbn [mbind outcome_bind].
  eexists. split_and!; [done | cbn [map snd]; by rewrite E |]. intros p' e [[= -> ->] | Hin]%elem_of_cons; [done | by apply H].
Qed.

(** The entries of a partition. *)
Definition entries_on (partition : Z) (parts : list (Z * (bytes * bytes * bytes * Z))) : list (bytes * bytes * bytes * Z) :=
  map snd (filter (fun pe => pe.1 = partition) parts).

Lemma elem_entries_on es parts partition e :
  by_partition es = Ok parts -> e ∈ entries_on partition parts <-> e ∈ es /\ partition_id e.1.1.2 PARTITION_COUNT = Ok partition.
Proof.
  intros H. destruct (by_partition_ok es) as (ps & E & <- & Hp). rewrite H in E. injection E as <-. unfold entries_on. split.
  - intros ([p x] & -> & [Hpe Hin]%list_elem_of_filter)%list_elem_of_fmap. cbn in *. subst p. split; [apply list_elem_of_fmap; by exists (partition, x) | by apply Hp].
  - intros [([p x] & -> & Hin)%list_elem_of_fmap Hpart]. apply list_elem_of_fmap. exists (p, x). split; [done |]. apply list_elem_of_filter. split; [| done].
    cbn in *. apply Hp in Hin. congruence.
Qed.

Lemma keys_on_total partition l : exists r, keys_on partition PARTITION_COUNT l = Ok r.
Proof.
  induction l as [| [key values] l [r IH]]; cbn [keys_on]; [eauto |]. destruct (partition_total key) as [p ->]. cbn [mbind outcome_bind].
  rewrite IH. cbn [mbind outcome_bind]. eauto.
Qed.

Lemma maps_on_total {I : Iteration} partition l : exists r, maps_on partition PARTITION_COUNT l = Ok r.
Proof.
  induction l as [| [name mm] l [r IH]]; cbn [maps_on]; [eauto |]. destruct (keys_on_total partition (map_iter mm)) as [k ->]. cbn [mbind outcome_bind].
  rewrite IH. cbn [mbind outcome_bind]. eauto.
Qed.

Lemma aux_state_total {I : Iteration} partition s : exists b, aux_state_for_partition partition PARTITION_COUNT s = Ok b.
Proof.
  unfold aux_state_for_partition. rewrite !filter_on_ok by (unfold PARTITION_COUNT; lia). cbn [mbind outcome_bind]. eauto.
Qed.

(** The entries a message carries. *)
Definition carried_entries (m : Msg) : list (bytes * bytes * bytes * Z) := match m with MigrateChunk _ _ es => es | _ => [] end.
Definition migration_msg (m : Msg) : bool :=
  match m with MigrateStart _ _ | MigrateChunk _ _ _ | MigrateAux _ _ _ | MigrateMm _ _ _ | MigrateEnd _ _ => true | _ => false end.

(** The messages of an outbox for one member, in order. *)
Definition sent_to (dest : nat) (out : outbox) : list Msg := map snd (filter (fun dm => dm.1 = dest) out).

Lemma sent_to_app dest a b : sent_to dest (a ++ b) = sent_to dest a ++ sent_to dest b.
Proof. unfold sent_to. by rewrite filter_app, map_app. Qed.

Lemma sent_to_same dest ms : sent_to dest (map (fun m => (dest, m)) ms) = ms.
Proof. induction ms as [| m ms IH]; [done |]. unfold sent_to in *. cbn [map]. rewrite filter_cons_True by done. cbn [map snd]. by rewrite IH. Qed.

Lemma sent_to_other dest d ms : d <> dest -> sent_to dest (map (fun m => (d, m)) ms) = [].
Proof. intros Hd. induction ms as [| m ms IH]; [done |]. unfold sent_to in *. cbn [map]. by rewrite filter_cons_False. Qed.

Section Migrate.
Context {X : MapStore} {I : Iteration}.

(** The messages of one partition: its entries, in chunks, and its other structures. *)
Lemma migrate_one_ok (s : Store (X := X)) gen parts partition dest :
  exists ms, migrate_one s gen parts partition dest = Ok (map (fun m => (dest, m)) ms)
    /\ Forall (fun m => migration_msg m = true) ms /\ concat (map carried_entries ms) = entries_on partition parts.
Proof.
  unfold migrate_one. destruct (aux_state_total partition (structures s)) as [aux ->]. cbn [mbind outcome_bind].
  destruct (maps_on_total partition (map_iter (multimaps (structures s)))) as [mm Hmm]. unfold mm_entries_for_partition. rewrite Hmm. cbn [mbind outcome_bind].
  fold (entries_on partition parts). set (es := entries_on partition parts).
  exists (MigrateStart gen partition :: map (MigrateChunk gen partition) (chunks MIG_CHUNK es) ++ MigrateAux gen partition aux
     :: match mm with [] => [] | _ => [MigrateMm gen partition mm] end ++ [MigrateEnd gen partition]).
  split_and!.
  - cbn [map]. rewrite map_app. cbn [map]. rewrite map_app, List.map_map. by destruct mm.
  - apply Forall_cons. split; [done |]. apply Forall_app. split; [apply Forall_map, Forall_forall; done |]. apply Forall_cons. split; [done |].
    apply Forall_app. split; [destruct mm; repeat constructor | repeat constructor].
  - cbn [map concat carried_entries app]. rewrite map_app, concat_app, List.map_map. cbn [carried_entries]. rewrite List.map_id, concat_chunks by (unfold MIG_CHUNK; lia).
    cbn [map concat carried_entries]. rewrite map_app, concat_app. destruct mm; cbn [map concat carried_entries app]; by rewrite app_nil_r.
Qed.

Lemma migrate_all_ok (s : Store (X := X)) gen parts migs dest :
  exists out, migrate_all s gen parts migs = Ok out
    /\ Forall (fun m => migration_msg m = true) (sent_to dest out)
    /\ concat (map carried_entries (sent_to dest out)) = concat (map (fun pd => entries_on pd.1 parts) (filter (fun pd => pd.2 = dest) migs)).
Proof.
  induction migs as [| [p d] migs (out & E & Hf & Hc)]; cbn [migrate_all]; [exists []; by split_and! |].
  destruct (migrate_one_ok s gen parts p d) as (ms & -> & Hms & Hes). cbn [mbind outcome_bind]. rewrite E. cbn [mbind outcome_bind].
  eexists. split; [done |]. rewrite sent_to_app. destruct (decide (d = dest)) as [-> | Hd].
  - rewrite sent_to_same, map_app, concat_app, filter_cons_True by done. cbn [map concat fst]. rewrite Hes, Hc. split; [by apply Forall_app | done].
  - rewrite sent_to_other, filter_cons_False by done. by split.
Qed.
End Migrate.

(** ** A partition's entries at their destination *)

(** What a merged entry must keep to: stamps and sizes within their fields. *)
Definition entry_fits (e : bytes * bytes * bytes * Z) : Prop := stamp_ok (2 ^ 56) e.2 /\ blen e.1.1.2 + blen e.1.2 < 2 ^ 32.

Section Receive.
Context {X : MapStore} {I : Iteration} {C : Crc32}.
Context (text_match : TextKind -> bytes -> bytes -> bool) (f64_to_string : Z -> bytes) (parse_f64 : bytes -> option Z)
  (group_iter : gmap row (list entry) -> list (row * list entry)) (acc_iter : Partial -> list (row * list Acc)).
Context {Addr : Type} (parse_addr : bytes -> option Addr).

Abbreviation on_msg := (on_msg text_match f64_to_string parse_f64 group_iter acc_iter parse_addr).
Abbreviation apply_change := (apply_change parse_addr).
Abbreviation shows_in h n t b V := (shows field_of (mh_schemas h) n t b V (mh_store h)).

Definition put_of (e : bytes * bytes * bytes * Z) : PutFields := mk_put e.2 0 e.1.1.1 e.1.1.2 e.1.2.

Lemma merge_entries_all c sv es (s : Store (X := X)) : merge_entries c sv true es s = merge_all field_of sv (map (fun e => (c, put_of e)) es) s.
Proof.
  revert s. induction es as [| [[[m key] val] st] es IH]; intros s; [done |]. cbn [merge_entries merge_all map put_of fst snd p_map p_key p_value p_ttl_ms p_stamp].
  destruct (put_merge _ _ _ _ _ _ _ _ _ s) as [s1 |]; [| done]. cbn [mbind outcome_bind]. apply IH.
Qed.

Lemma in_time_order_const t c (rs : list PutFields) : t <= now_ms c -> 0 <= wall_ms c < 2 ^ 40 -> in_time_order t (map (fun r => (c, r)) rs).
Proof. revert t. induction rs as [| r rs IH]; intros t Ht Hw; [done |]. cbn [map in_time_order]. split_and!; try done; try lia. by apply IH. Qed.

Lemma last_time_const t c (rs : list PutFields) : t <= now_ms c -> last_time t (map (fun r => (c, r)) rs) <= now_ms c.
Proof. unfold last_time. revert t. induction rs as [| r rs IH]; intros t Ht; [done |]. cbn [map foldl fst]. by apply IH. Qed.

Lemma merge_entries_shows c sv es n t b V (s : Store (X := X)) :
  shows field_of sv n t b V s -> 0 <= n -> n + 2 * blen es <= 2 ^ 31 -> 2 ^ 56 <= b -> b + blen es < 2 ^ 57 - 1 ->
  t <= now_ms c -> 0 <= wall_ms c < 2 ^ 40 -> Forall entry_fits es ->
  exists s', merge_entries c sv true es s = Ok s' /\ shows field_of sv (n + 2 * blen es) (now_ms c) (b + blen es) (apply_recs (map as_put es) V) s'.
Proof.
  intros Hs Hn0 Hn Hb0 Hb Ht Hw Hes. rewrite merge_entries_all, <- (List.map_map put_of (fun r => (c, r))).
  assert (blen (map (fun r => (c, r)) (map put_of es)) = blen es) as L by (unfold blen; by rewrite !length_map).
  pose proof (merge_all_shows field_of sv no_text ex_iter ex_iter_elements n t b V s (map (fun r => (c, r)) (map put_of es)) Hs Hn0) as H. rewrite L in H.
  specialize (H ltac:(lia) Hb0 Hb (in_time_order_const t c _ Ht Hw)).
  assert (Forall (fun p => merge_ok p.2) (map (fun r => (c, r)) (map put_of es))) as Hok.
  { rewrite List.map_map. apply Forall_map. eapply Forall_impl; [exact Hes |]. intros [[[m k] v] st] [H1 H2]. by split_and!. }
  apply post_Ok in H as (s' & E & Hs'); [| done]. exists s'. split; [done |]. rewrite !List.map_map in Hs'. cbn [snd] in Hs'.
  assert (map (fun x => Put (put_of x)) es = map as_put es) as Ep by (apply List.map_ext; by intros [[[m k] v] st]). rewrite Ep in Hs'.
  eapply shows_mono; [| | | exact Hs']; [lia | | lia]. rewrite <- (List.map_map put_of (fun r => (c, r))). by apply last_time_const.
Qed.

(** Messages in the order they arrive. *)
Fixpoint receive (c : clocks) (src : nat) (ms : list Msg) (h : MemberHandler) : outcome (MemberHandler * outbox) :=
  match ms with
  | [] => Ok (h, [])
  | m :: ms => '(h, out) ← on_msg c src m h; '(h, rest) ← receive c src ms h; Ok (h, out ++ rest)
  end.

Lemma on_structures_shows f h n t b V : shows_in h n t b V -> shows_in (on_structures (Addr := Addr) f h) n t b V.
Proof. intros Hs. eapply shows_rest; [| | | exact Hs]; done. Qed.

(** One migration message. *)
Lemma on_migration c src m h n t b V :
  migration_msg m = true -> shows_in h n t b V -> mh_merge_latest h = true -> 0 <= n -> n + 2 * blen (carried_entries m) <= 2 ^ 31 ->
  2 ^ 56 <= b -> b + blen (carried_entries m) < 2 ^ 57 - 1 -> t <= now_ms c -> 0 <= wall_ms c < 2 ^ 40 -> Forall entry_fits (carried_entries m) ->
  exists h', on_msg c src m h = Ok (h', []) /\ mh_schemas h' = mh_schemas h /\ mh_merge_latest h' = true
    /\ shows_in h' (n + 2 * blen (carried_entries m)) (now_ms c) (b + blen (carried_entries m)) (apply_recs (map as_put (carried_entries m)) V).
Proof.
  intros Hm Hs Hl Hn0 Hn Hb0 Hb Ht Hw Hes.
  assert (forall h' : MemberHandler (X := X) (Addr := Addr), mh_schemas h' = mh_schemas h -> shows_in h' n t b V -> shows_in h' (n + 2 * blen (@nil (bytes * bytes * bytes * Z))) (now_ms c) (b + blen (@nil (bytes * bytes * bytes * Z))) V) as Hstay.
  { intros h' _ H'. change (blen []) with 0. eapply shows_mono; [| | | exact H']; lia. }
  destruct m; try discriminate; cbn [carried_entries] in *; unfold MemberThread.on_msg; cbn [map apply_recs foldl].
  - exists h. split_and!; try done. by apply Hstay.
  - rewrite Hl. destruct (merge_entries_shows c (mh_schemas h) entries n t b V (mh_store h)) as (s' & -> & Hs'); try done.
    cbn [mbind outcome_bind]. exists (with_store s' h). by split_and!.
  - exists h. split_and!; try done. by apply Hstay.
  - exists (on_structures (install_aux_state payload) h). split_and!; try done. apply Hstay; [done | by apply on_structures_shows].
  - exists (on_structures (install_mm entries) h). split_and!; try done. apply Hstay; [done | by apply on_structures_shows].
Qed.

Lemma receive_merges c src ms : forall h n t b V,
  Forall (fun m => migration_msg m = true) ms -> shows_in h n t b V -> mh_merge_latest h = true -> 0 <= n ->
  n + 2 * blen (concat (map carried_entries ms)) <= 2 ^ 31 -> 2 ^ 56 <= b -> b + blen (concat (map carried_entries ms)) < 2 ^ 57 - 1 ->
  t <= now_ms c -> 0 <= wall_ms c < 2 ^ 40 -> Forall entry_fits (concat (map carried_entries ms)) ->
  exists h', receive c src ms h = Ok (h', []) /\ mh_schemas h' = mh_schemas h
    /\ shows_in h' (n + 2 * blen (concat (map carried_entries ms))) (now_ms c) (b + blen (concat (map carried_entries ms)))
         (apply_recs (map as_put (concat (map carried_entries ms))) V).
Proof.
  induction ms as [| m ms IH]; intros h n t b V Hm Hs Hl Hn0 Hn Hb0 Hb Ht Hw Hes; cbn [receive map concat] in *.
  { exists h. split_and!; try done. change (blen []) with 0. eapply shows_mono; [| | | exact Hs]; lia. }
  apply Forall_cons in Hm as [Hm Hms]. apply Forall_app in Hes as [He1 He2]. rewrite blen_app in *.
  pose proof (blen_nonneg (carried_entries m)). pose proof (blen_nonneg (concat (map carried_entries ms))).
  destruct (on_migration c src m h n t b V) as (h1 & -> & E1 & L1 & S1); try (done || lia). cbn [mbind outcome_bind].
  rewrite E1 in S1. assert (shows_in h1 (n + 2 * blen (carried_entries m)) (now_ms c) (b + blen (carried_entries m)) (apply_recs (map as_put (carried_entries m)) V)) as S1' by (by rewrite E1).
  destruct (IH h1 _ _ _ _ Hms S1' L1) as (h2 & -> & E2 & S2); try (done || lia). cbn [mbind outcome_bind app].
  exists h2. split_and!; [done | by rewrite E2 |]. rewrite map_app, apply_recs_app.
  replace (n + 2 * (blen (carried_entries m) + blen (concat (map carried_entries ms)))) with (n + 2 * blen (carried_entries m) + 2 * blen (concat (map carried_entries ms))) by lia.
  by rewrite Z.add_assoc.
Qed.

(** The entries of a store that shows [V] are those of [V]. *)
Lemma all_entries_shows sv n t b V (s : Store (X := X)) ck : shows field_of sv n t b V s ->
  exists es, all_entries_stamped ck s = Ok es /\ forall m k v st, (m, k, v, st) ∈ es <-> V !! (m, k) = Some (v, st).
Proof.
  intros Hs. assert (forall l i0, (forall i x, l !! i = Some x -> shards s !! (i0 + i)%nat = Some x) ->
    exists l' ls, each_shard (asking (collect_all_stamped (now_ms ck))) l = Ok (l', ls)
      /\ forall m k v st, (m, k, v, st) ∈ concat ls <-> V !! (m, k) = Some (v, st) /\ (i0 <= shard_of m k (length (shards s)) < i0 + length l)%nat) as H.
  { induction l as [| x l IH]; intros i0 Hl; cbn [each_shard].
    { exists [], []. split; [done |]. intros m k v st. cbn [concat length]. split; [by intros ?%elem_of_nil | lia]. }
    destruct (shows_shard_entries field_of sv n t b V s i0 x ck Hs) as (e & He & Hin); [rewrite <- (Nat.add_0_r i0); by apply Hl |].
    assert (asking (collect_all_stamped (now_ms ck)) x = (e ← collect_all_stamped (now_ms ck) x; Ok (x, e))) as -> by done. rewrite He. cbn [mbind outcome_bind]. destruct (IH (S i0)) as (l' & ls & -> & Hrest).
    { intros i y Hy. replace (S i0 + i)%nat with (i0 + S i)%nat by lia. by apply Hl. }
    cbn [mbind outcome_bind]. do 2 eexists. split; [done |]. intros m k v st. cbn [concat length]. rewrite elem_of_app, Hin, Hrest. split.
    - intros [[E HV] | [HV ?]]; (split; [done | lia]).
    - intros [HV Hr]. destruct (decide (shard_of m k (length (shards s)) = i0)); [by left | right; split; [done | lia]]. }
  destruct (H (shards s) 0%nat) as (l' & ls & E & Hin); [done |]. unfold all_entries_stamped. rewrite E. cbn [mbind outcome_bind].
  eexists. split; [done |]. intros m k v st. rewrite Hin. split; [by intros [? _] |]. intros HV. split; [done |].
  destruct Hs as (A & Hok & _). pose proof (shard_of_lt m k (length (shards s)) (so_shards _ _ _ _ _ _ _ Hok)). lia.
Qed.

(** The entries that go to a member: those of the partitions that move there. *)
Definition moved_entries (parts : list (Z * (bytes * bytes * bytes * Z))) (migs : list (Z * nat)) (dest : nat) : list (bytes * bytes * bytes * Z) :=
  concat (map (fun pd => entries_on pd.1 parts) (filter (fun pd => pd.2 = dest) migs)).

Lemma elem_moved es parts migs dest e : by_partition es = Ok parts ->
  e ∈ moved_entries parts migs dest <-> e ∈ es /\ exists p, partition_id e.1.1.2 PARTITION_COUNT = Ok p /\ (p, dest) ∈ migs.
Proof.
  intros H. unfold moved_entries. rewrite list_elem_of_In, in_concat. split.
  - intros (l & ([p d] & <- & Hin)%in_map_iff & He). apply list_elem_of_In, list_elem_of_filter in Hin as [Hd Hin]. cbn in *. subst d.
    apply list_elem_of_In, (elem_entries_on es parts p e H) in He as [He Hp]. eauto.
  - intros [He (p & Hp & Hin)]. exists (entries_on p parts). split.
    + apply in_map_iff. exists (p, dest). split; [done |]. apply list_elem_of_In, list_elem_of_filter. done.
    + by apply list_elem_of_In, (elem_entries_on es parts p e H).
Qed.

Lemma moved_length es parts migs dest : by_partition es = Ok parts -> blen (moved_entries parts migs dest) <= blen migs * blen es.
Proof.
  intros H. destruct (by_partition_ok es) as (ps & E & Es & _). rewrite H in E. injection E as <-. unfold moved_entries.
  assert (forall p, blen (entries_on p parts) <= blen es) as Hone.
  { intros p. rewrite <- Es. unfold entries_on, blen. rewrite !length_map. pose proof (length_filter (fun pe : Z * (bytes * bytes * bytes * Z) => pe.1 = p) parts). lia. }
  pose proof (blen_nonneg es). induction migs as [| [p d] migs IH]; [done |]. rewrite filter_cons, blen_cons. case_decide; cbn [map concat fst].
  - rewrite blen_app. specialize (Hone p). lia.
  - lia.
Qed.

(** Merged entries keep the later of what was there and what they say. *)
Lemma puts_later k (l : list (bytes * bytes * bytes * Z)) x :
  foldl (rec_at k) x (map as_put l) = later x (foldl (rec_at k) None (map as_put l)).
Proof.
  induction l as [| [[[m' k'] v] st] l IH] using rev_ind; [by destruct x as [[? ?] |] |].
  rewrite map_app, !foldl_app. cbn [map foldl as_put rec_at p_map p_key p_value p_stamp]. rewrite IH.
  set (y := foldl (rec_at k) None (map as_put l)). case_decide; [| done].
  transitivity (later (later x y) (Some (v, st))); [by destruct (later x y) as [[? ?] |] |]. rewrite later_assoc. f_equal. by destruct y as [[? ?] |].
Qed.

(** What merging the moved entries makes of an entry of the receiver. *)
Lemma moved_at (es : list (bytes * bytes * bytes * Z)) (parts : list (Z * (bytes * bytes * bytes * Z))) (migs : list (Z * nat)) (dest : nat) (V V' : view) (m k : bytes) :
  by_partition es = Ok parts -> (forall m k v st, (m, k, v, st) ∈ es <-> V !! (m, k) = Some (v, st)) ->
  forall p, partition_id k PARTITION_COUNT = Ok p ->
  apply_recs (map as_put (moved_entries parts migs dest)) V' !! (m, k)
  = if decide ((p, dest) ∈ migs) then later (V' !! (m, k)) (V !! (m, k)) else V' !! (m, k).
Proof.
  intros H HV p Hp. rewrite apply_recs_at.
  assert (forall v st, ((m, k).1, (m, k).2, v, st) ∈ moved_entries parts migs dest <-> (if decide ((p, dest) ∈ migs) then V !! (m, k) else None) = Some (v, st)) as Hin.
  { intros v st. rewrite (elem_moved es parts migs dest _ H). cbn [fst snd]. rewrite HV, Hp. case_decide as Hd; split.
    - by intros [? _].
    - intros. split; [done |]. by exists p.
    - intros [_ (q & [= <-] & Hq)]. done.
    - done. }
  rewrite puts_later, (entries_at _ (m, k) _ Hin). case_decide; [done |]. by destruct (V' !! (m, k)) as [[? ?] |].
Qed.

Lemma moved_fits es parts (migs : list (Z * nat)) (dest : nat) : by_partition es = Ok parts -> Forall entry_fits es -> Forall entry_fits (moved_entries parts migs dest).
Proof. intros H Hes. apply Forall_forall. intros e [He _]%(elem_moved es parts migs dest e H). by eapply Forall_forall in Hes. Qed.

(** What a change of the membership sends to a member. *)
Lemma apply_change_sends ck migs h es dest :
  all_entries_stamped ck (mh_store h) = Ok es ->
  exists parts h1 out, by_partition es = Ok parts /\ apply_change ck (mkChange true migs) h = Ok (h1, out)
    /\ Forall (fun m => migration_msg m = true) (sent_to dest out) /\ concat (map carried_entries (sent_to dest out)) = moved_entries parts migs dest.
Proof.
  intros He. destruct (by_partition_ok es) as (parts & Hp & _). unfold MemberThread.apply_change. cbn [changed migrations negb]. exists parts.
  destruct migs as [| mig migs]; [by exists (with_view (emit_view h) (sync_peers parse_addr h) h), [] |].
  set (h1 := with_view (emit_view h) (sync_peers parse_addr h) h).
  destruct (migrate_all_ok (mh_store h1) (generation (Coordinator.cluster (mh_coord h1))) parts (mig :: migs) dest) as (out & E & Hf & Hc).
  exists h1, out. split_and!; [done | | done | done]. assert (all_entries_stamped ck (mh_store h1) = Ok es) as -> by exact He. cbn [mbind outcome_bind]. rewrite Hp. cbn [mbind outcome_bind]. by rewrite E.
Qed.
End Receive.


(** ** Gathering a query *)

Section Gathering.
Context {X : MapStore} {Addr : Type}.
Context (text_match : TextKind -> bytes -> bytes -> bool) (f64_to_string : Z -> bytes) (parse_f64 : bytes -> option Z)
  (acc_iter : Partial -> list (row * list Acc)).
Hypothesis acc_iter_ok : forall m, acc_iter m ≡ₚ map_to_list m.

Abbreviation respond := (sql_response_bytes f64_to_string parse_f64 acc_iter).

(** The answers of the members, in the order they arrive. *)
Fixpoint on_partials (req_id : Z) (payloads : list bytes) (h : MemberHandler (X := X) (Addr := Addr)) : outcome MemberHandler :=
  match payloads with
  | [] => Ok h
  | p :: ps => h ← on_partial f64_to_string parse_f64 acc_iter req_id p h; on_partials req_id ps h
  end.

Lemma gathering req_id payloads : forall h g,
  mh_gathers h !! req_id = Some g -> payloads <> [] -> (length (ga_payloads g) + length payloads = ga_expected g)%nat ->
  on_partials req_id payloads h
  = b ← respond (ga_select g) (ga_payloads g ++ payloads) (ga_corr g);
    Ok (deliver [(ga_conn g, b)] (with_gathers (delete req_id (mh_gathers h)) (mh_next_req h) h)).
Proof.
  induction payloads as [| p ps IH]; intros h g Hg Hne Hlen; [done |]. cbn [on_partials]. unfold on_partial at 1. rewrite Hg. cbn [ga_expected ga_payloads ga_select ga_corr ga_conn].
  destruct ps as [| p' ps].
  - rewrite (proj2 (Nat.leb_le _ _)) by (rewrite length_app; cbn [length] in *; lia). cbn [on_partials]. by destruct (respond _ _ _).
  - rewrite (proj2 (Nat.leb_gt _ _)) by (rewrite length_app; cbn [length] in *; lia). cbn [mbind outcome_bind].
    rewrite (IH _ (mkGather (ga_conn g) (ga_corr g) (ga_select g) (ga_payloads g ++ [p]) (ga_expected g) (ga_age g))); [| cbn; apply lookup_insert_eq | done |].
    + cbn [ga_select ga_payloads ga_corr ga_conn]. rewrite <- app_assoc. cbn [app mh_gathers mh_next_req with_gathers]. by rewrite delete_insert_eq.
    + cbn [ga_payloads ga_expected]. rewrite length_app. cbn [length] in *. lia.
Qed.

(** A partial whose counts, lengths and text fit the wire. *)
Definition sendable (p : Partial) : Prop := Forall group_ok (acc_iter p) /\ blen (acc_iter p) < 2 ^ 32.
Definition payload_of (p : Partial) : bytes := encode_partial (acc_iter p).

Lemma decode_payloads ps : Forall sendable ps -> omap decode_partial (map payload_of ps) = ps.
Proof.
  induction 1 as [| p ps [H1 H2] _ IH]; [done |]. cbn [map omap list_omap]. unfold payload_of at 1.
  rewrite (partial_roundtrip p (acc_iter p)) by done. by rewrite IH.
Qed.

Lemma gathered_response (extract : bytes -> bytes -> FieldValue) sel parts os ps P corr :
  is_aggregate sel = true -> dist_occurrences extract text_match sel (concat parts) = Ok os -> integral extract sel os ->
  map_outcome (fun p => local_partial extract text_match f64_to_string sel p None) parts = Ok ps ->
  local_partial extract text_match f64_to_string sel (concat parts) None = Ok P -> Forall sendable ps -> sendable P ->
  respond sel (map payload_of ps) corr = respond sel [payload_of P] corr.
Proof.
  intros Hagg Ho Hi Hps HP Hs HsP. unfold sql_response_bytes. rewrite Hagg. change [payload_of P] with (map payload_of [P]). rewrite !decode_payloads by (done || by constructor).
  destruct (split_merge extract text_match f64_to_string acc_iter acc_iter_ok sel None parts os Ho Hi) as (ps' & E & EP). rewrite Hps in E. injection E as <-.
  rewrite HP in EP. injection EP as ->.
  destruct (split_merge extract text_match f64_to_string acc_iter acc_iter_ok sel None [concat parts] os) as (qs & E & EQ); [cbn [concat]; by rewrite app_nil_r | done |].
  cbn [map_outcome] in E. rewrite HP in E. cbn [mbind outcome_bind] in E. injection E as <-. cbn [concat] in EQ. rewrite app_nil_r, HP in EQ. injection EQ as <-. done.
Qed.
End Gathering.


(** ** Requests to the CP groups *)

Section CpRequests.
Context {C : Crc32} {I : Iteration}.

(** A message a group sends is handed to the group of the same name at the receiver, and to no other. *)
Lemma tagged_message_reaches_its_group src group m g g' out s :
  utf8_valid group = true -> blen group < 2 ^ 16 -> CpWire.msg_ok m -> groups s !! group = Some g -> CpGroup.step src m g = Ok (g', out) ->
  cp_step src (tag group m) s = Ok (set_groups (<[group := g']> (groups s)) s, route_to group out).
Proof.
  intros Hu Hlen Hm Hg Hs. unfold cp_step, tag.
  assert (H2 : length (to_le 2 (blen group)) = 2%nat) by apply length_to_le.
  rewrite (proj2 (Nat.ltb_ge _ _)) by (rewrite length_app, H2; lia).
  rewrite (take_app_length' _ _ 2) by done. rewrite (drop_app_length' _ _ 2) by done.
  rewrite from_le_u_to_le by (unfold blen in *; lia).
  replace (Z.to_nat (2 + blen group)) with (2 + length group)%nat by (unfold blen; lia).
  replace (Z.to_nat (blen group)) with (length group) by (unfold blen; lia).
  rewrite (proj2 (Z.ltb_ge _ _)) by (unfold blen at 2; rewrite !length_app, H2; unfold blen; lia).
  rewrite take_app_length, app_assoc, drop_app_length' by (rewrite length_app, H2; lia).
  rewrite from_utf8_lossy_valid by done. rewrite CpWire.decode_encode_msg by done. cbn [mbind outcome_bind].
  unfold group_mut. rewrite Hg. cbn [mbind outcome_bind]. by rewrite Hs.
Qed.

(** What a member does with its CP groups: requests of clients, messages of peers, ticks, and replies. *)
Inductive cp_op : Type :=
| CpSubmit (group : bytes) (conn corr resp_type : Z) (kind : ReplyKind) (command : bytes)
| CpReceive (src : nat) (payload : bytes)
| CpTick
| CpDrain.

Definition cp_do (o : cp_op) (s : CpState) : outcome (CpState * list delivery) :=
  match o with
  | CpSubmit g conn corr ty kind c => '(s, _) ← submit_to g conn corr ty kind c s; Ok (s, [])
  | CpReceive src p => '(s, _) ← cp_step src p s; Ok (s, [])
  | CpTick => '(s, _) ← cp_tick s; Ok (s, [])
  | CpDrain => drain_deliveries s
  end.

Fixpoint cp_run (os : list cp_op) (s : CpState) : outcome (CpState * list delivery) :=
  match os with
  | [] => Ok (s, [])
  | o :: os => '(s, d) ← cp_do o s; '(s, ds) ← cp_run os s; Ok (s, d ++ ds)
  end.

(** Where a request came from and the response it asks for. *)
Definition request : Type := Z * Z * Z * ReplyKind.
Definition requested (o : cp_op) : list request := match o with CpSubmit _ conn corr ty kind _ => [(conn, corr, ty, kind)] | _ => [] end.
Definition answers (q : request) (d : delivery) : Prop :=
  let '(conn, corr, ty, kind) := q in d.1 = conn /\ exists r, build_response ty kind r corr = Ok d.2.
Definition open_requests (s : CpState) : list request := map snd (map_to_list (waiting_clients s)).

Definition clients_below (s : CpState) : Prop := map_Forall (fun i _ => i < next_client s) (waiting_clients s).

Lemma group_mut_waiting name s s' n g : group_mut name s = Ok (s', n, g) -> waiting_clients s' = waiting_clients s /\ next_client s' = next_client s.
Proof. unfold group_mut. intros H. repeat case_match; inv_ok; by subst. Qed.

Lemma cp_step_waiting src p s s' out : cp_step src p s = Ok (s', out) -> waiting_clients s' = waiting_clients s /\ next_client s' = next_client s.
Proof.
  unfold cp_step. intros H. repeat case_match; inv_ok; [by subst | by subst |].
  repeat first [progress inv_ok | case_match]; subst; try done; cbn; eauto using group_mut_waiting.
Qed.

Lemma tick_groups_waiting gs : forall s s' out, tick_groups gs s = Ok (s', out) -> waiting_clients s' = waiting_clients s /\ next_client s' = next_client s.
Proof.
  induction gs as [| [name g] gs IH]; cbn [tick_groups]; intros s s' out H; inv_ok; [by subst |].
  repeat first [progress inv_ok | case_match]; subst. edestruct IH; [eassumption | done].
Qed.

Lemma answer_all_settles cs : forall w w' ds, answer_all cs w = Ok (w', ds) ->
  w' ⊆ w /\ exists qs, Forall2 answers qs ds /\ map snd (map_to_list w) ≡ₚ qs ++ map snd (map_to_list w').
Proof.
  induction cs as [| c cs IH]; cbn [answer_all]; intros w w' ds H; [inv_ok; subst; split; [done | by exists []] |].
  destruct (w !! c_client c) as [[[[conn corr] ty] kind] |] eqn:E; [| by eapply IH]. repeat first [progress inv_ok | case_match]; subst.
  edestruct IH as (Hsub & qs & HF & HP); [eassumption |]. split; [by etrans; [| apply delete_subseteq] |].
  exists ((conn, corr, ty, kind) :: qs). split; [constructor; [cbn; eauto | done] |].
  etrans; [apply Permutation_map; symmetry; apply (map_to_list_delete w _ _ E) |]. cbn [map app snd]. by rewrite HP.
Qed.

Lemma drain_groups_settles gs : forall s s' ds, drain_groups gs s = Ok (s', ds) ->
  waiting_clients s' ⊆ waiting_clients s /\ next_client s' = next_client s /\
  exists qs, Forall2 answers qs ds /\ open_requests s ≡ₚ qs ++ open_requests s'.
Proof.
  induction gs as [| [name g] gs IH]; cbn [drain_groups]; intros s s' ds H; [inv_ok; subst; do 2 (split; [done |]); by exists [] |].
  repeat first [progress inv_ok | case_match]; subst.
  edestruct answer_all_settles as (S1 & q1 & F1 & P1); [eassumption |]. edestruct IH as (S2 & N2 & q2 & F2 & P2); [eassumption |].
  split; [by etrans |]. split; [done |]. exists (q1 ++ q2). split; [by apply Forall2_app |].
  unfold open_requests in *. cbn in P2. by rewrite P1, P2, app_assoc.
Qed.

Lemma submit_opens group conn corr ty kind c s s' out : submit_to group conn corr ty kind c s = Ok (s', out) ->
  waiting_clients s' = <[next_client s := (conn, corr, ty, kind)]> (waiting_clients s) /\ next_client s' = wrap_u64 (next_client s + 1).
Proof.
  unfold submit_to. intros H. repeat first [progress inv_ok | case_match]; subst. cbn. edestruct group_mut_waiting; [eassumption | done].
Qed.

Lemma cp_do_settles o s s' ds : cp_do o s = Ok (s', ds) -> clients_below s -> 0 <= next_client s < 2 ^ 64 - 1 ->
  clients_below s' /\ next_client s <= next_client s' <= next_client s + 1 /\
  exists qs, Forall2 answers qs ds /\ open_requests s ++ requested o ≡ₚ qs ++ open_requests s'.
Proof.
  unfold clients_below. intros H Hb Hn. destruct o; cbn [cp_do requested] in *; repeat first [progress inv_ok | case_match]; subst; rewrite ?app_nil_r.
  - destruct (submit_opens _ _ _ _ _ _ _ _ _ E) as [-> ->]. rewrite wrap_u64_small by (unfold is_u64; lia).
    assert (Hf : waiting_clients s !! next_client s = None). { destruct (_ !! _) eqn:E'; [| done]. specialize (Hb _ _ E'). cbn in Hb. lia. }
    split; [apply map_Forall_insert; [done |]; split; [lia |]; eapply map_Forall_impl; [exact Hb | cbn; lia] |]. split; [lia |].
    exists []. split; [done |]. unfold open_requests. destruct (submit_opens _ _ _ _ _ _ _ _ _ E) as [-> _]. 
    etrans; [apply Permutation_app_comm |]. symmetry. etrans; [apply Permutation_map, (map_to_list_insert _ _ _ Hf) | done].
  - destruct (cp_step_waiting _ _ _ _ _ E) as [E1 E2]. rewrite E1, E2. split; [done |]. split; [lia |]. exists []. unfold open_requests. by rewrite E1.
  - destruct (tick_groups_waiting _ _ _ _ E) as [E1 E2]. rewrite E1, E2. split; [done |]. split; [lia |]. exists []. unfold open_requests. by rewrite E1.
  - destruct (drain_groups_settles _ _ _ _ H) as (S1 & N1 & qs & F & P). rewrite N1. split; [intros i x Hx; apply (Hb i x); by eapply lookup_weaken |]. split; [lia |]. by exists qs.
Qed.

Lemma cp_run_settles os : forall s s' ds, cp_run os s = Ok (s', ds) -> clients_below s -> 0 <= next_client s -> next_client s + blen os < 2 ^ 64 ->
  exists qs, Forall2 answers qs ds /\ open_requests s ++ concat (map requested os) ≡ₚ qs ++ open_requests s'.
Proof.
  induction os as [| o os IH]; cbn [cp_run]; intros s s' ds H Hb H0 Hn; [inv_ok; subst; exists []; split; [done |]; cbn; by rewrite app_nil_r |].
  repeat first [progress inv_ok | case_match]; subst. rewrite blen_cons in Hn. pose proof (blen_nonneg os).
  edestruct cp_do_settles as (B1 & N1 & q1 & F1 & P1); [eassumption | done | lia |].
  edestruct IH as (q2 & F2 & P2); [eassumption | done | lia | lia |].
  exists (q1 ++ q2). split; [by apply Forall2_app |]. cbn [map concat]. by rewrite app_assoc, P1, <- !app_assoc, P2.
Qed.
End CpRequests.


(** ** Two members *)

#[local] Existing Instance ieee_crc32.
#[local] Existing Instance by_keys.
#[local] Existing Instance no_ext.

Definition ex_info (i : Z) : MemberInfo := mkInfo (i, i) (bstr "10.0.0.1") (5700 + i) (5800 + i) i.
Definition ex_handler (i : nat) (s : Store (X := no_ext)) : MemberHandler (Addr := bytes) :=
  new_handler s people (new_broker (Z.of_nat i, Z.of_nat i)) [] (new_coordinator (new_cluster [ex_info 1; ex_info 2] 0 1) (Z.of_nat i, Z.of_nat i) 10 100) 8 true ∅ i.
Definition ex_time (t : Z) : clocks := mk_clocks t (fun n => Z.of_nat n) (1000 + t).

(** The receiver holds an older value of the key that moves. *)
Definition ex_source : list (bytes * bytes * bytes * Z) := [(bstr "m", bstr "k", bstr "new", 1417); (bstr "m", bstr "j", bstr "stays", 1291)].
Definition ex_target : list (bytes * bytes * bytes * Z) := [(bstr "m", bstr "k", bstr "old", 1290)].

Definition ex_partition : Z := match partition_id (bstr "k") PARTITION_COUNT with Ok p => p | Panic => 0 end.

Lemma ex_filled seed es t : Forall entry_fits es -> blen es < 100 -> t = 10 -> 0 <= seed ->
  exists s0 s, with_shards_seed 2 seed = Ok s0 /\ merge_entries (ex_time t) people true es s0 = Ok s
    /\ shows field_of people (2 * blen es) t (2 ^ 56 + blen es) (apply_recs (map as_put es) ∅) s.
Proof.
  intros Hf Hl -> Hs. destruct (fresh_store field_of people 2 seed 0 (2 ^ 56)) as (s0 & E0 & S0 & _); [lia | lia |].
  destruct (merge_entries_shows (ex_time 10) people es 0 0 (2 ^ 56) ∅ s0 S0) as (s & E & S); try (cbn; lia); [done |]. by exists s0, s.
Qed.

Definition ex_stored (seed : Z) (es : list (bytes * bytes * bytes * Z)) : outcome (Store (X := no_ext)) :=
  s ← with_shards_seed 2 seed; merge_entries (ex_time 10) people true es s.
Definition ex_receive := receive (X := no_ext) (Addr := bytes) no_text (fun _ => []) (fun _ => None) map_to_list map_to_list Some.

Lemma ex_source_entries : exists es, (s ← ex_stored 1 ex_source; all_entries_stamped (ex_time 20) s) = Ok es /\ es ≡ₚ ex_source.
Proof.
  assert (match (s ← ex_stored 1 ex_source; all_entries_stamped (ex_time 20) s) with Ok es => bool_decide (es ≡ₚ ex_source) | Panic => false end = true) as H by (vm_compute; reflexivity).
  destruct (s ← ex_stored 1 ex_source; all_entries_stamped (ex_time 20) s) as [es |]; [| done]. exists es. split; [done |]. by apply bool_decide_eq_true in H.
Qed.


(** One member alone in its groups: the request to the default group is answered, the one to a group that has
    just been created waits for an election. *)
Definition ex_cp_run : list cp_op :=
  repeat CpTick 30 ++ [CpSubmit DEFAULT_GROUP 9 77 0x90501 KLong (al_command (bstr "a") (AlAddAndGet 5)); CpTick; CpSubmit (bstr "orders") 8 78 0x90501 KLong (al_command (bstr "a") (AlAddAndGet 1)); CpDrain].
Definition ex_cp_start : outcome CpState := n ← new_node 0 [0%nat] new_log 1; Ok (multi (new_group n) 0 1).


(** The sum of the ages two members hold. *)
Definition ex_person (age : Z) : bytes := <[23%nat := b8 age]> person_value.
Definition ex_sum : Select := mkSelect false [Count (bstr "*"); Sum (bstr "age")] false people_map None None None None None None.
Definition ex_parts : list (list entry) := [[(bstr "k", ex_person 35)]; [(bstr "j", ex_person 7); (bstr "i", ex_person 30)]].
Definition ex_partial (es : list entry) : outcome Partial := local_partial (fun v f => field_of v people f) no_text (fun _ => []) ex_sum es None.
Definition ex_result (es : list entry) : Partial := match ex_partial es with Ok p => p | Panic => ∅ end.
Definition ex_local : Partial := ex_result [(bstr "k", ex_person 35)].
Definition ex_peer : Partial := ex_result [(bstr "j", ex_person 7); (bstr "i", ex_person 30)].
Definition ex_gathering (s : Store (X := no_ext)) : MemberHandler :=
  with_gathers {[3 := mkGather 9 77 ex_sum [payload_of map_to_list ex_local] 2 0]} 4 (ex_handler 0 s).

