(* ===== verification/Jet.v ===== *)
(** * Stream processing

    crates/jet/src: the items and processors of a pipeline (processor.rs), event-time windows (window.rs), the
    keyed join of two streams (join.rs), sources and sinks (connectors.rs), the graph of a job (dag.rs) and
    the workers that run one (executor.rs).  Facts: windows aggregate exactly the events that fall into
    them, a join emits exactly the matching pairs, a socket's lines do not depend on how they arrive, a
    pipeline of tasklets comes to an end. *)

From S2P Require Import Prelude FieldValue Schema Sql SqlFacts.

(** ** Items and processors *)

Inductive Item := Data (b : bytes) | Watermark (w : Z) | Done.

(** [process(&mut self, inbox, outbox) -> bool]: the state, the two queues, and whether there was anything to do. *)
Class Processor (P : Type) := process : P -> list Item -> list Item -> outcome (P * list Item * list Item * bool).

(** [while let Some(item) = inbox.pop_front() { .. }]: what each item adds to the outbox. *)
Fixpoint pump {P} (step : Item -> P -> outcome (P * list Item)) (inbox : list Item) (p : P) (outbox : list Item) : outcome (P * list Item) :=
  match inbox with
  | [] => Ok (p, outbox)
  | item :: inbox => '(p, out) ← step item p; pump step inbox p (outbox ++ out)
  end.

Lemma pump_app {P} (step : Item -> P -> outcome (P * list Item)) a b : forall p p' out out',
  pump step a p out = Ok (p', out') -> pump step (a ++ b) p out = pump step b p' out'.
Proof. induction a as [| i a IH]; cbn [pump app]; intros p p' out out' H; [by injection H as -> -> |]. apply outcome_bind_Ok in H as ([p1 o1] & E & H). rewrite E. cbn [mbind outcome_bind]. by apply IH. Qed.

(** A processor that takes its whole inbox item by item. *)
Definition by_item {P} (step : Item -> P -> outcome (P * list Item)) : Processor P := fun p inbox outbox =>
  '(p, outbox) ← pump step inbox p outbox; Ok (p, [], outbox, negb (bool_decide (inbox = []))).

Inductive MapProcessor := mkMap.
Definition map_step (item : Item) (p : MapProcessor) : outcome (MapProcessor * list Item) :=
  Ok (p, [match item with Data d => Data (d ++ [b8 0]) | item => item end]).
#[global] Instance map_processor : Processor MapProcessor := by_item map_step.

Inductive FilterProcessor := mkFilter.
Definition filter_step (item : Item) (p : FilterProcessor) : outcome (FilterProcessor * list Item) :=
  Ok (p, match item with Data [] => [] | item => [item] end).
#[global] Instance filter_processor : Processor FilterProcessor := by_item filter_step.

(** ** The graph of a job (dag.rs) *)

Record Edge := mkEdge { source_vertex : bytes; source_ordinal : Z; dest_vertex : bytes; dest_ordinal : Z; priority : Z; is_buffered : bool }.
Record Vertex := mkVertex { v_name : bytes; processor_meta : bytes; local_parallelism : Z }.
Record Dag := mkDag { vertices : list Vertex; edges : list Edge }.
Definition new_dag : Dag := mkDag [] [].

(** ** Windows *)

Inductive WindowKind := Tumbling (size : Z) | Sliding (size slide : Z) | SessionGap (gap : Z).
Inductive WindowAgg := AggSum | AggCount | AggMin | AggMax | AggAvg.

Record WindowAcc := mkWAcc { w_sum : Z; w_count : Z; w_min : Z; w_max : Z }.
Definition wacc_default : WindowAcc := mkWAcc 0 0 0 0.

Definition wacc_add (value : Z) (a : WindowAcc) : WindowAcc :=
  let '(mn, mx) := if w_count a =? 0 then (value, value) else (Z.min (w_min a) value, Z.max (w_max a) value) in
  mkWAcc (wrap_i64 (w_sum a + value)) (wrap_i64 (w_count a + 1)) mn mx.

Definition wacc_get (agg : WindowAgg) (a : WindowAcc) : Z :=
  match agg with
  | AggSum => w_sum a
  | AggCount => w_count a
  | AggMin => w_min a
  | AggMax => w_max a
  | AggAvg => if 0 <? w_count a then Z.quot (w_sum a) (w_count a) else 0
  end.

Definition encode_event (ts value : Z) (key : bytes) : bytes := to_le 8 ts ++ to_le 8 value ++ key.
Definition decode_event (b : bytes) : option (Z * Z * bytes) :=
  if (length b <? 16)%nat then None else Some (from_le_i (take 8 b), from_le_i (take 8 (drop 8 b)), drop 16 b).
Definition encode_result (start end_ agg : Z) (key : bytes) : bytes := to_le 8 start ++ to_le 8 end_ ++ to_le 8 agg ++ key.
Definition decode_result (b : bytes) : option (Z * Z * Z * bytes) :=
  if (length b <? 24)%nat then None
  else Some (from_le_i (take 8 b), from_le_i (take 8 (drop 8 b)), from_le_i (take 8 (drop 16 b)), drop 24 b).

Record SessionWindow := mkSess { se_start : Z; se_last : Z; se_acc : WindowAcc }.

Record WindowProcessor := mkWindowProcessor {
  wp_kind : WindowKind;
  wp_agg : WindowAgg;
  fixed : gmap (Z * bytes) WindowAcc;
  sessions : gmap bytes (list SessionWindow)
}.
Definition new_window (kind : WindowKind) (agg : WindowAgg) : WindowProcessor := mkWindowProcessor kind agg ∅ ∅.
Definition set_fixed (x : gmap (Z * bytes) WindowAcc) (p : WindowProcessor) : WindowProcessor := mkWindowProcessor (wp_kind p) (wp_agg p) x (sessions p).
Definition set_sessions (x : gmap bytes (list SessionWindow)) (p : WindowProcessor) : WindowProcessor := mkWindowProcessor (wp_kind p) (wp_agg p) (fixed p) x.

Definition window_ends (p : WindowProcessor) : Z :=
  match wp_kind p with Tumbling size | Sliding size _ => size | SessionGap _ => 0 end.

(** [self.fixed.entry((start, key)).or_default().add(value)] *)
Definition add_to (key : bytes) (value : Z) (f : gmap (Z * bytes) WindowAcc) (start : Z) : gmap (Z * bytes) WindowAcc :=
  <[(start, key) := wacc_add value (default wacc_default (f !! (start, key)))]> f.

(** The first session the event extends, with the event in it. *)
Fixpoint extend_session (gap ts value : Z) (l : list SessionWindow) : option (list SessionWindow) :=
  match l with
  | [] => None
  | s :: l =>
    if (wrap_i64 (se_start s - gap) <=? ts) && (ts <=? wrap_i64 (se_last s + gap))
    then Some (mkSess (Z.min (se_start s) ts) (Z.max (se_last s) ts) (wacc_add value (se_acc s)) :: l)
    else cons s <$> extend_session gap ts value l
  end.

(** The loop over the starts of sliding windows is [hop_windows], the one of SQL's windows. *)
Definition window_add (ts value : Z) (key : bytes) (p : WindowProcessor) : outcome WindowProcessor :=
  match wp_kind p with
  | Tumbling size => q ← div_euclid ts size; Ok (set_fixed (add_to key value (fixed p) (wrap_i64 (q * size))) p)
  | Sliding size slide =>
    q ← div_euclid ts slide;
    match hop_windows (hop_fuel size slide) (wrap_i64 (q * slide)) ts size slide with
    | Some ws => Ok (set_fixed (foldl (add_to key value) (fixed p) (map fst ws)) p)
    | None => Panic
    end
  | SessionGap gap =>
    let l := default [] (sessions p !! key) in
    let l := match extend_session gap ts value l with Some l => l | None => l ++ [mkSess ts ts (wacc_add value wacc_default)] end in
    Ok (set_sessions (<[key := l]> (sessions p)) p)
  end.

Definition by_start_key (a b : Z * bytes) : bool :=
  match Z.compare a.1 b.1 with Lt => true | Eq => match bytes_cmp a.2 b.2 with Lt => true | _ => false end | Gt => false end.

(** The keys of the tree map, in order, whose windows end at or before the watermark. *)
Definition ready (w size : Z) (f : gmap (Z * bytes) WindowAcc) : list (Z * bytes) :=
  filter (fun k => wrap_i64 (k.1 + size) <= w) (stable_sort by_start_key (map fst (map_to_list f))).

Fixpoint close_fixed (agg : WindowAgg) (size : Z) (ks : list (Z * bytes)) (f : gmap (Z * bytes) WindowAcc) : outcome (gmap (Z * bytes) WindowAcc * list Item) :=
  match ks with
  | [] => Ok (f, [])
  | k :: ks =>
    match f !! k with
    | None => Panic
    | Some a =>
      '(f, out) ← close_fixed agg size ks (delete k f);
      Ok (f, Data (encode_result k.1 (wrap_i64 (k.1 + size)) (wacc_get agg a) k.2) :: out)
    end
  end.

(** Whatever the order of the hash map, the results are sorted by start and key. *)
Definition session_over (gap w : Z) (s : SessionWindow) : Prop := wrap_i64 (se_last s + gap) <= w.
#[global] Instance session_over_dec gap w s : Decision (session_over gap w s) := ltac:(unfold session_over; apply _).
Definition closing (gap w : Z) (m : gmap bytes (list SessionWindow)) : list (Z * bytes * SessionWindow) :=
  stable_sort (fun a b => by_start_key a.1 b.1)
    (concat (map (fun kl => map (fun s => (se_start s, kl.1, s)) (filter (session_over gap w) kl.2)) (map_to_list m))).

Definition close (w : Z) (p : WindowProcessor) : outcome (WindowProcessor * list Item) :=
  match wp_kind p with
  | Tumbling _ | Sliding _ _ =>
    let size := window_ends p in
    '(f, out) ← close_fixed (wp_agg p) size (ready w size (fixed p)) (fixed p);
    Ok (set_fixed f p, out)
  | SessionGap gap =>
    let left := filter (fun kl => kl.2 <> []) ((fun l => filter (fun s => ~ session_over gap w s) l) <$> sessions p) in
    let out := map (fun ks => Data (encode_result ks.1.1 (wrap_i64 (se_last ks.2 + 1)) (wacc_get (wp_agg p) (se_acc ks.2)) ks.1.2)) (closing gap w (sessions p)) in
    Ok (set_sessions left p, out)
  end.

Definition window_flush (p : WindowProcessor) : outcome (WindowProcessor * list Item) := close (2 ^ 63 - 1) p.

Definition window_step (item : Item) (p : WindowProcessor) : outcome (WindowProcessor * list Item) :=
  match item with
  | Data b =>
    match decode_event b with
    | Some (ts, value, key) => p ← window_add ts value key p; Ok (p, [])
    | None => Ok (p, [])
    end
  | Watermark w => '(p, out) ← close w p; Ok (p, out ++ [Watermark w])
  | Done => '(p, out) ← window_flush p; Ok (p, out ++ [Done])
  end.
#[global] Instance window_processor : Processor WindowProcessor := by_item window_step.

(** ** The join of two streams *)

Definition LEFT : Z := 0.
Definition RIGHT : Z := 1.

Definition encode_input (side ts : Z) (key payload : bytes) : bytes := b8 side :: to_le 8 ts ++ to_le 4 (blen key) ++ key ++ payload.
Definition decode_input (b : bytes) : option (Z * Z * bytes * bytes) :=
  if (length b <? 13)%nat then None else
  let kl := from_le_u (take 4 (drop 9 b)) in
  if blen b <? 13 + kl then None
  else Some (u8 (hd (b8 0) b), from_le_i (take 8 (drop 1 b)), take (Z.to_nat kl) (drop 13 b), drop (Z.to_nat (13 + kl)) b).

Definition encode_joined (key l r : bytes) : bytes := to_le 4 (blen key) ++ key ++ to_le 4 (blen l) ++ l ++ r.
(** [b.get(i..j)] *)
Definition get_range (i j : Z) (b : bytes) : option bytes :=
  if (i <=? j) && (j <=? blen b) then Some (take (Z.to_nat (j - i)) (drop (Z.to_nat i) b)) else None.
Definition decode_joined (b : bytes) : option (bytes * bytes * bytes) :=
  kl ← get_range 0 4 b; let kl := from_le_u kl in
  key ← get_range 4 (4 + kl) b;
  let o := 4 + kl in
  ll ← get_range o (o + 4) b; let ll := from_le_u ll in
  l ← get_range (o + 4) (o + 4 + ll) b;
  r ← get_range (o + 4 + ll) (blen b) b;
  Some (key, l, r).

Abbreviation Buffer := (gmap bytes (list (Z * bytes))).
Record JoinProcessor := mkJoinProcessor { jp_left : Buffer; jp_right : Buffer; retention : Z }.
Definition new_join (retention : Z) : JoinProcessor := mkJoinProcessor ∅ ∅ retention.
Definition unbounded : JoinProcessor := new_join (2 ^ 63 - 1).

Definition buffered (buf : Buffer) (key : bytes) : list (Z * bytes) := default [] (buf !! key).
Definition evict (buf : Buffer) (cutoff : Z) : Buffer :=
  filter (fun kl => kl.2 <> []) ((fun l => filter (fun r => cutoff <= r.1) l) <$> buf).

Definition join_step (item : Item) (p : JoinProcessor) : outcome (JoinProcessor * list Item) :=
  match item with
  | Data b =>
    Ok match decode_input b with
       | None => (p, [])
       | Some (side, ts, key, payload) =>
         if side =? LEFT then
           (mkJoinProcessor (<[key := buffered (jp_left p) key ++ [(ts, payload)]]> (jp_left p)) (jp_right p) (retention p),
            map (fun r => Data (encode_joined key payload r.2)) (buffered (jp_right p) key))
         else
           (mkJoinProcessor (jp_left p) (<[key := buffered (jp_right p) key ++ [(ts, payload)]]> (jp_right p)) (retention p),
            map (fun l => Data (encode_joined key l.2 payload)) (buffered (jp_left p) key))
       end
  | Watermark w =>
    let cutoff := wrap_i64 (w - retention p) in
    let p := if retention p =? 2 ^ 63 - 1 then p else mkJoinProcessor (evict (jp_left p) cutoff) (evict (jp_right p) cutoff) (retention p) in
    Ok (p, [Watermark w])
  | Done => Ok (p, [Done])
  end.
#[global] Instance join_processor : Processor JoinProcessor := by_item join_step.

(** ** Sources and sinks *)

(** [str::lines] *)
Fixpoint split_at (c : byte) (l : bytes) : option (bytes * bytes) :=
  match l with
  | [] => None
  | x :: l => if bool_decide (x = c) then Some ([], l) else match split_at c l with Some (a, b) => Some (x :: a, b) | None => None end
  end.
Definition strip_cr (l : bytes) : bytes := match last l with Some x => if bool_decide (x = b8 13) then removelast l else l | None => l end.
Fixpoint str_lines (fuel : nat) (s : bytes) : list bytes :=
  match fuel, split_at (b8 10) s with
  | S fuel, Some (line, rest) => strip_cr line :: str_lines fuel rest
  | _, _ => match s with [] => [] | _ => [s] end
  end.

Record FileSource := mkFileSource { fs_lines : list bytes; fs_done : bool }.
(** [content]: what [read_to_string] gives, if it can read the file. *)
Definition open_file (content : option bytes) : FileSource :=
  mkFileSource (match content with Some s => str_lines (length s) s | None => [] end) false.
Definition from_lines (l : list bytes) : FileSource := mkFileSource l false.
#[global] Instance file_source : Processor FileSource := fun p inbox outbox =>
  if fs_done p then Ok (p, inbox, outbox, false)
  else Ok (mkFileSource [] true, inbox, outbox ++ map Data (fs_lines p) ++ [Done], true).

(** What a read of the non-blocking stream returns; no bytes are the end. *)
Inductive ReadResult := ReadOk (b : bytes) | WouldBlock | ReadErr.

(** [so_stream]: the results the reads of the stream will have; a stream of which nothing is left to read blocks. *)
Record SocketSource := mkSocketSource { so_stream : list ReadResult; so_buf : bytes; so_done : bool }.
Definition from_stream (rs : list ReadResult) : SocketSource := mkSocketSource rs [] false.

Fixpoint emit_lines (fuel : nat) (buf : bytes) : list bytes * bytes :=
  match fuel, split_at (b8 10) buf with
  | S fuel, Some (line, rest) => let '(ls, buf) := emit_lines fuel rest in (strip_cr line :: ls, buf)
  | _, _ => ([], buf)
  end.

(** The reads of one call: what they add to the buffer, whether the stream ended, and whether there were any. *)
Fixpoint read_some (rs : list ReadResult) (buf : bytes) (progressed : bool) : list ReadResult * bytes * bool * bool :=
  match rs with
  | [] => ([], buf, false, progressed)
  | WouldBlock :: rs => (rs, buf, false, progressed)
  | ReadOk [] :: rs | ReadErr :: rs => (rs, buf, true, true)
  | ReadOk b :: rs => read_some rs (buf ++ b) true
  end.

#[global] Instance socket_source : Processor SocketSource := fun p inbox outbox =>
  if so_done p then Ok (p, inbox, outbox, false) else
  let '(rs, buf, eof, progressed) := read_some (so_stream p) (so_buf p) false in
  let '(ls, buf) := emit_lines (length buf) buf in
  let outbox := outbox ++ map Data ls in
  if eof then Ok (mkSocketSource rs [] true, inbox, outbox ++ match buf with [] => [] | _ => [Data buf] end ++ [Done], progressed)
  else Ok (mkSocketSource rs buf false, inbox, outbox, progressed).

(** The bytes written to a connection that takes them. *)
Record SocketSink := mkSocketSink { written : bytes }.
Fixpoint write_lines (inbox : list Item) (p : SocketSink) (progressed : bool) : SocketSink * bool :=
  match inbox with
  | [] => (p, progressed)
  | Data line :: inbox => write_lines inbox (mkSocketSink (written p ++ line ++ [b8 10])) true
  | _ :: inbox => write_lines inbox p progressed
  end.
#[global] Instance socket_sink : Processor SocketSink := fun p inbox outbox =>
  let '(p, progressed) := write_lines inbox p false in Ok (p, [], outbox, progressed).

(** ** The workers of a job (executor.rs) *)

(** [Box<dyn Processor>], of the processors a job is made of. *)
Inductive AnyProcessor := PMap (p : MapProcessor) | PFilter (p : FilterProcessor).
#[global] Instance any_processor : Processor AnyProcessor := fun p inbox outbox =>
  match p with
  | PMap p => '(p, i, o, b) ← process p inbox outbox; Ok (PMap p, i, o, b)
  | PFilter p => '(p, i, o, b) ← process p inbox outbox; Ok (PFilter p, i, o, b)
  end.

Record Tasklet := mkTasklet { t_processor : AnyProcessor; t_inbox : list Item; t_outbox : list Item }.

(** Every tasklet once; whether all of them are left with nothing to do. *)
Fixpoint process_all (ts : list Tasklet) : outcome (list Tasklet * bool) :=
  match ts with
  | [] => Ok ([], true)
  | t :: ts =>
    '(p, i, o, _) ← process (t_processor t) (t_inbox t) (t_outbox t);
    '(ts, done) ← process_all ts;
    Ok (mkTasklet p i o :: ts, bool_decide (i = []) && bool_decide (o = []) && done)
  end.

(** The outbox of each goes to the inbox of the next; what leaves the last is dropped. *)
Fixpoint move_items (carry : list Item) (ts : list Tasklet) : list Tasklet :=
  match ts with
  | [] => []
  | t :: ts => mkTasklet (t_processor t) (t_inbox t ++ carry) [] :: move_items (t_outbox t) ts
  end.

Fixpoint worker (fuel : nat) (ts : list Tasklet) : option (outcome (list Tasklet)) :=
  match fuel with
  | O => None
  | S fuel =>
    match process_all ts with
    | Panic => Some Panic
    | Ok (ts, all_done) => let ts := move_items [] ts in if all_done then Some (Ok ts) else worker fuel ts
    end
  end.

Definition job_tasklets (worker_id : Z) : list Tasklet :=
  [ mkTasklet (PMap mkMap) [Data [b8 1; b8 2; b8 worker_id]; Data [b8 4; b8 5; b8 6]; Watermark 100; Done] [];
    mkTasklet (PFilter mkFilter) [] [] ].

(** * Facts about windows *)

Abbreviation event := (Z * Z * bytes)%type.
Definition kind_size (k : WindowKind) : Z := match k with Tumbling size | Sliding size _ => size | SessionGap _ => 0 end.
Definition kind_slide (k : WindowKind) : Z := match k with Tumbling size => size | Sliding _ slide => slide | SessionGap _ => 0 end.

(** A tumbling or sliding window whose bounds stay inside 64 bits. *)
Definition regular (k : WindowKind) : Prop :=
  match k with SessionGap _ => False | _ => 0 < kind_size k < 2 ^ 62 /\ 0 < kind_slide k < 2 ^ 62 end.
Definition in_range (k : WindowKind) (ts : Z) : Prop := - 2 ^ 63 + kind_size k + kind_slide k <= ts < 2 ^ 63 - 1 - kind_size k.

Section Windows.
Context (kind : WindowKind) (agg : WindowAgg) (Hkind : regular kind).
Abbreviation size := (kind_size kind).
Abbreviation slide := (kind_slide kind).

(** Window [(s, k)]: starts at a multiple of the slide, holds the events of key [k] from [s] on. *)
Definition falls_in (w : Z * bytes) (e : event) : Prop := w.1 mod slide = 0 /\ w.1 <= e.1.1 < w.1 + size /\ e.2 = w.2.
#[global] Instance falls_in_dec w e : Decision (falls_in w e) := ltac:(unfold falls_in; apply _).

Definition values_in (w : Z * bytes) (es : list event) : list Z := map (fun e => e.1.2) (filter (falls_in w) es).
Definition acc_of_values (vs : list Z) : WindowAcc := foldl (fun a v => wacc_add v a) wacc_default vs.
Definition open_window (es : list event) (w : Z * bytes) : option WindowAcc :=
  match values_in w es with [] => None | vs => Some (acc_of_values vs) end.
Definition result_of (es : list event) (w : Z * bytes) : bytes :=
  encode_result w.1 (w.1 + size) (wacc_get agg (acc_of_values (values_in w es))) w.2.

Lemma values_in_snoc w es e : values_in w (es ++ [e]) = values_in w es ++ if decide (falls_in w e) then [e.1.2] else [].
Proof. unfold values_in. rewrite filter_app, map_app. f_equal. cbn [filter list_filter]. by destruct (decide (falls_in w e)). Qed.

Lemma open_window_snoc es w e :
  open_window (es ++ [e]) w = if decide (falls_in w e) then Some (wacc_add e.1.2 (default wacc_default (open_window es w))) else open_window es w.
Proof.
  unfold open_window. rewrite values_in_snoc. destruct (decide (falls_in w e)); [| by rewrite app_nil_r].
  destruct (values_in w es) as [| v vs]; [done |]. cbn [app]. unfold acc_of_values. cbn [foldl default]. by rewrite foldl_app.
Qed.

Lemma add_all_lookup key value ss f w : NoDup ss ->
  foldl (add_to key value) f ss !! w = if decide (w.1 ∈ ss /\ w.2 = key) then Some (wacc_add value (default wacc_default (f !! w))) else f !! w.
Proof.
  revert f. induction ss as [| s ss IH]; intros f Hnd; cbn [foldl].
  - rewrite decide_False by set_solver. done.
  - apply NoDup_cons in Hnd as [Hs Hnd]. rewrite IH by done. unfold add_to. destruct w as [s' k']. cbn [fst snd].
    destruct (decide ((s', k') = (s, key))) as [[= -> ->] | Hne].
    + rewrite decide_False by tauto. rewrite decide_True by set_solver. by rewrite lookup_insert_eq.
    + rewrite lookup_insert_ne by congruence. apply decide_ext. rewrite elem_of_cons. split; [tauto |]. intros [[-> | ?] ->]; [by exfalso; apply Hne | done].
Qed.

(** The windows an event is added to are those it falls in. *)
Lemma hop_starts sz sl ts : 0 < sz -> 0 < sl -> in_range (Sliding sz sl) ts ->
  exists ws, hop_windows (hop_fuel sz sl) (wrap_i64 (ts / sl * sl)) ts sz sl = Some ws
    /\ NoDup (map fst ws) /\ forall s, s ∈ map fst ws <-> s mod sl = 0 /\ s <= ts < s + sz.
Proof.
  intros Hsz Hsl Hr. unfold in_range in Hr. cbn [kind_size kind_slide] in Hr. destruct (hop_windows_all sz sl ts) as (l & -> & Hl & Ho); [lia.. |].
  exists l. split; [done |]. split.
  - clear -Ho. induction Ho as [| [a b] l Hs IH Hf]; [by constructor |]. cbn. constructor; [| done].
    intros (p & -> & Hin)%list_elem_of_fmap. rewrite Forall_forall in Hf. specialize (Hf p Hin). cbn in Hf. lia.
  - intros s. rewrite list_elem_of_fmap, Z.mod_divide by lia. split.
    + intros ([a b] & -> & Hin). by apply Hl in Hin as (-> & Hd & H3).
    + intros [Hd H3]. exists (s, s + sz). split; [done |]. by apply Hl.
Qed.

Lemma window_add_ok ts value key p : wp_kind p = kind -> in_range kind ts ->
  exists ss, NoDup ss /\ (forall s, s ∈ ss <-> s mod slide = 0 /\ s <= ts < s + size)
    /\ window_add ts value key p = Ok (set_fixed (foldl (add_to key value) (fixed p) ss) p).
Proof using Hkind.
  intros Hk Hr. unfold window_add. rewrite Hk. destruct kind as [sz | sz sl | gap]; [| | done]; cbn [regular kind_size kind_slide] in *.
  - unfold in_range in Hr. cbn [kind_size kind_slide] in Hr. rewrite div_euclid_pos by lia. cbn [mbind outcome_bind]. rewrite floor_small by lia. exists [ts / sz * sz]. split; [apply NoDup_singleton |].
    split; [| done]. intros s. rewrite list_elem_of_singleton. pose proof (Z.div_mod ts sz ltac:(lia)). pose proof (Z.mod_pos_bound ts sz ltac:(lia)). split.
    + intros ->. rewrite Z_mod_mult. lia.
    + intros [[q ->]%Z.mod_divide H']; [| lia]. assert (q = ts / sz) as -> by nia. done.
  - rewrite div_euclid_pos by lia. cbn [mbind outcome_bind]. destruct (hop_starts sz sl ts) as (ws & -> & Hnd & Hin); [lia | lia | done |]. by exists (map fst ws).
Qed.

(** ** Closing windows *)

Definition data_of (out : list Item) : list bytes := omap (fun i => match i with Data b => Some b | _ => None end) out.

Lemma data_of_app a b : data_of (a ++ b) = data_of a ++ data_of b.
Proof. apply omap_app. Qed.

Lemma close_fixed_ok ks : forall f, NoDup ks -> (forall k, k ∈ ks -> is_Some (f !! k)) ->
  exists f' out, close_fixed agg size ks f = Ok (f', out)
    /\ (forall k, f' !! k = if decide (k ∈ ks) then None else f !! k)
    /\ data_of out = map (fun k => encode_result k.1 (wrap_i64 (k.1 + size)) (wacc_get agg (default wacc_default (f !! k))) k.2) ks.
Proof.
  induction ks as [| k ks IH]; intros f Hnd Hin; cbn [close_fixed].
  - exists f, []. split; [done |]. split; [| done]. intros k. by rewrite decide_False by set_solver.
  - apply NoDup_cons in Hnd as [Hk Hnd]. destruct (Hin k) as [a Ha]; [set_solver |]. rewrite Ha.
    destruct (IH (delete k f)) as (f' & out & -> & Hf & Ho); [done | |].
    { intros k' Hk'. rewrite lookup_delete_ne by set_solver. apply Hin. set_solver. }
    cbn [mbind outcome_bind]. eexists _, _. split; [done |]. split.
    + intros k'. rewrite Hf. destruct (decide (k' = k)) as [-> |].
      * rewrite lookup_delete_eq, (decide_True (P := k ∈ k :: ks)) by set_solver. by case_decide.
      * rewrite lookup_delete_ne by done. apply decide_ext. set_solver.
    + cbn [data_of omap list_omap map]. f_equal; [by rewrite Ha |]. unfold data_of in Ho. rewrite Ho. apply map_ext_in. intros k' Hk'%list_elem_of_In.
      rewrite lookup_delete_ne; [done |]. by intros ->.
Qed.

(** ** A run of the processor *)

Definition event_of (i : Item) : option event := match i with Data b => decode_event b | _ => None end.
Definition events (items : list Item) : list event := omap event_of items.

(** No event is older than a watermark that came before it. *)
Fixpoint on_time (wm : Z) (items : list Item) : Prop :=
  match items with
  | [] => True
  | Data b :: items => match decode_event b with Some (ts, _, _) => wm <= ts /\ in_range kind ts | None => True end /\ on_time wm items
  | Watermark w :: items => on_time (Z.max wm w) items
  | Done :: _ => False
  end.

(** [es]: the events so far, none of which will fall before [wm]; [ws]: the windows that were closed. *)
Record windows_inv (es : list event) (wm : Z) (ws : list (Z * bytes)) (p : WindowProcessor) (out : list Item) : Prop := {
  wi_kind : wp_kind p = kind;
  wi_agg : wp_agg p = agg;
  wi_fixed : forall w, fixed p !! w = if decide (w ∈ ws) then None else open_window es w;
  wi_nodup : NoDup ws;
  wi_closed : forall w, w ∈ ws -> w.1 + size <= wm /\ values_in w es <> [];
  wi_range : forall e, e ∈ es -> in_range kind e.1.1;
  wi_out : data_of out = map (result_of es) ws
}.

Lemma windows_start : windows_inv [] (- 2 ^ 63) [] (new_window kind agg) [].
Proof. split; try done; [constructor | set_solver | set_solver]. Qed.

Lemma values_elem w es : values_in w es <> [] -> exists e, e ∈ es /\ falls_in w e.
Proof.
  unfold values_in. intros H. destruct (filter (falls_in w) es) as [| e l] eqn:E; [done |]. exists e.
  assert (e ∈ filter (falls_in w) es) as Hin by (rewrite E; set_solver). by apply list_elem_of_filter in Hin as [??].
Qed.

(** The bounds of a window with an event do not overflow. *)
Lemma window_bounds es w : (forall e, e ∈ es -> in_range kind e.1.1) -> values_in w es <> [] -> wrap_i64 (w.1 + size) = w.1 + size /\ w.1 + size <= 2 ^ 63 - 1.
Proof using Hkind.
  intros Hr (e & He & _ & Hf & _)%values_elem. specialize (Hr e He). unfold in_range in Hr.
  assert (0 < size < 2 ^ 62 /\ 0 < slide) by (destruct kind; cbn [regular kind_size kind_slide] in *; lia || done).
  split; [apply wrap_i64_small; unfold is_i64 |]; lia.
Qed.

Lemma open_window_some es w a : open_window es w = Some a -> values_in w es <> [] /\ a = acc_of_values (values_in w es).
Proof. unfold open_window. destruct (values_in w es); [done |]. by intros [= <-]. Qed.

Lemma window_event es wm ws p out ts value key : windows_inv es wm ws p out -> wm <= ts -> in_range kind ts ->
  exists p', window_add ts value key p = Ok p' /\ windows_inv (es ++ [(ts, value, key)]) wm ws p' out.
Proof using Hkind.
  intros [K1 K2 K3 K4 K5 K6 K7] Hwm Hr. destruct (window_add_ok ts value key p K1 Hr) as (ss & Hnd & Hss & ->).
  assert (Hnew : forall w, w ∈ ws -> ~ falls_in w (ts, value, key)). { intros w Hw [_ [Hf _]]. cbn in Hf. specialize (K5 w Hw). lia. }
  eexists. split; [done |]. split; cbn [set_fixed wp_kind wp_agg fixed]; try done.
  - intros w. rewrite add_all_lookup by done. rewrite open_window_snoc, !K3. cbn [fst snd]. destruct (decide (w ∈ ws)) as [Hw | Hw].
    + rewrite decide_False; [done |]. intros [Hs Hk]. apply (Hnew w Hw). apply Hss in Hs as [??]. unfold falls_in. cbn [fst snd]. split; [done |]. by split.
    + apply decide_ext. unfold falls_in. cbn [fst snd]. rewrite Hss. split; [intros [[??] ->] | intros (? & ? & ->)]; tauto.
  - intros w Hw. split; [by apply K5 |]. rewrite values_in_snoc. intros [? _]%app_nil. by apply (K5 w Hw).
  - intros e [He | ->%list_elem_of_singleton]%elem_of_app; [by apply K6 | done].
  - rewrite K7. apply map_ext_in. intros w Hw%list_elem_of_In. unfold result_of. rewrite values_in_snoc, decide_False, app_nil_r by by apply Hnew. done.
Qed.

Lemma inv_close es wm ws p out w : windows_inv es wm ws p out ->
  exists p' closed new, close w p = Ok (p', closed) /\ windows_inv es (Z.max wm w) (ws ++ new) p' (out ++ closed)
    /\ forall k, k ∉ ws -> values_in k es <> [] -> k.1 + size <= w -> k ∈ new.
Proof using Hkind.
  intros [K1 K2 K3 K4 K5 K6 K7].
  set (ks := ready w size (fixed p)).
  assert (Hks : forall k, k ∈ ks <-> is_Some (fixed p !! k) /\ k.1 + size <= w).
  { intros k. unfold ks, ready. rewrite list_elem_of_filter, stable_sort_perm, list_elem_of_fmap. split.
    - intros [Hle ([k' a] & -> & Hin%elem_of_map_to_list)]. cbn [fst] in *. split; [by eexists |]. rewrite K3 in Hin. case_decide; [done |].
      apply open_window_some in Hin as [Hv _]. by rewrite (proj1 (window_bounds es k' K6 Hv)) in Hle.
    - intros [[a Ha] Hle]. split; [| exists (k, a); split; [done | by apply elem_of_map_to_list]].
      rewrite K3 in Ha. case_decide; [done |]. apply open_window_some in Ha as [Hv _]. by rewrite (proj1 (window_bounds es k K6 Hv)). }
  assert (Hnd : NoDup ks). { unfold ks, ready. apply NoDup_filter. rewrite stable_sort_perm. apply NoDup_fst_map_to_list. }
  destruct (close_fixed_ok ks (fixed p) Hnd) as (f' & closed & Ec & Hf' & Ho); [intros k Hk; by apply Hks in Hk as [? _] |].
  exists (set_fixed f' p), closed, ks. split.
  { unfold close. assert (window_ends p = size) as Hw by (unfold window_ends; rewrite K1; by destruct kind). rewrite Hw, K2, K1.
    destruct kind; [| | done]; fold ks; by rewrite Ec. }
  assert (Hopen : forall k, k ∈ ks -> (k ∉ ws) /\ values_in k es <> [] /\ default wacc_default (fixed p !! k) = acc_of_values (values_in k es)).
  { intros k [[a Ha] _]%Hks. rewrite Ha. rewrite K3 in Ha. case_decide; [done |]. by apply open_window_some in Ha as [? ->]. }
  split; [split; cbn [set_fixed wp_kind wp_agg fixed]; try done |].
  - intros k. rewrite Hf', K3. destruct (decide (k ∈ ks)); [by rewrite decide_True by set_solver |]. apply decide_ext. set_solver.
  - apply NoDup_app. split_and!; [done | | done]. intros k Hk Hk'. by destruct (Hopen k Hk').
  - intros k [Hk | Hk]%elem_of_app; [destruct (K5 k Hk); split; [lia | done] |]. split; [| by apply Hopen]. apply Hks in Hk. lia.
  - rewrite data_of_app, K7, Ho, map_app. f_equal. apply map_ext_in. intros k Hk%list_elem_of_In. destruct (Hopen k Hk) as (_ & Hv & ->).
    unfold result_of. by rewrite (proj1 (window_bounds es k K6 Hv)).
  - intros k Hk Hv Hle. apply Hks. split; [| done]. rewrite K3, decide_False by done. unfold open_window. by destruct (values_in k es).
Qed.

Lemma inv_run items : forall es wm ws p out, windows_inv es wm ws p out -> on_time wm items ->
  exists p' out' wm' ws', pump window_step items p out = Ok (p', out') /\ windows_inv (es ++ events items) wm' ws' p' out'.
Proof using Hkind.
  induction items as [| item items IH]; intros es wm ws p out Hi Ht; cbn [pump].
  - exists p, out, wm, ws. split; [done |]. cbn. by rewrite app_nil_r.
  - destruct item as [b | w |]; cbn [on_time] in Ht; [| | done].
    + destruct Ht as [Hb Ht]. cbn [window_step]. unfold events. cbn [omap list_omap event_of]. destruct (decode_event b) as [[[ts v] key] |].
      * destruct (window_event es wm ws p out ts v key Hi) as (p' & -> & Hi'); [tauto | tauto |]. cbn [mbind outcome_bind]. rewrite app_nil_r.
        destruct (IH _ _ _ _ _ Hi' Ht) as (p2 & o2 & w2 & s2 & E & Hi2). exists p2, o2, w2, s2. split; [done |]. by rewrite <- app_assoc in Hi2.
      * cbn [mbind outcome_bind]. rewrite app_nil_r. by apply (IH es wm ws).
    + cbn [window_step]. destruct (inv_close es wm ws p out w Hi) as (p' & closed & new & -> & Hi' & _). cbn [mbind outcome_bind].
      apply (IH es (Z.max wm w) (ws ++ new)); [| done]. destruct Hi' as [K1 K2 K3 K4 K5 K6 K7]. split; try done.
      by rewrite app_assoc, data_of_app, K7, app_nil_r.
Qed.
End Windows.



(** An event that comes after the watermark that closed its window opens the window again, and a second result
    for it is emitted. *)
Lemma late_event_reopens :
  exists p, pump window_step [Data (encode_event 1 5 (bstr "a")); Watermark 10; Data (encode_event 2 7 (bstr "a")); Watermark 10] (new_window (Tumbling 10) AggSum) []
  = Ok (p, [Data (encode_result 0 10 5 (bstr "a")); Watermark 10; Data (encode_result 0 10 7 (bstr "a")); Watermark 10]).
Proof. eexists. vm_compute. reflexivity. Qed.

(** Two sessions are not merged by an event that is within the gap of both: one session of three events is
    reported as two, the second of which begins inside the first. *)
Lemma bridged_sessions_stay_apart :
  exists p, pump window_step [Data (encode_event 0 1 (bstr "a")); Data (encode_event 10 1 (bstr "a")); Data (encode_event 5 1 (bstr "a")); Done] (new_window (SessionGap 5) AggCount) []
  = Ok (p, [Data (encode_result 0 6 2 (bstr "a")); Data (encode_result 10 11 1 (bstr "a")); Done]).
Proof. eexists. vm_compute. reflexivity. Qed.

(** * Facts about joins *)

(** A record of one side: its key and payload. *)
Abbreviation record := (bytes * bytes)%type.
Definition input_of (i : Item) : option (Z * Z * bytes * bytes) := match i with Data b => decode_input b | _ => None end.
Definition side_records (is_left : bool) (items : list Item) : list record :=
  omap (fun i => match input_of i with Some (side, _, key, payload) => if bool_decide ((side =? LEFT) = is_left) then Some (key, payload) else None | None => None end) items.

Definition row_of (l : record) (rs : list record) : list bytes := map (fun r => encode_joined l.1 l.2 r.2) (filter (fun r => r.1 = l.1) rs).
(** The matching pairs. *)
Definition pairs (ls rs : list record) : list bytes := concat (map (fun l => row_of l rs) ls).

Definition holds_records (buf : Buffer) (rs : list record) : Prop :=
  forall key, map snd (buffered buf key) = map snd (filter (fun r => r.1 = key) rs).

Lemma holds_push buf rs key ts payload : holds_records buf rs -> holds_records (<[key := buffered buf key ++ [(ts, payload)]]> buf) (rs ++ [(key, payload)]).
Proof.
  intros H k. rewrite filter_app, map_app, <- (H k). unfold buffered. destruct (decide (k = key)) as [-> | Hne].
  - rewrite lookup_insert_eq, filter_cons_True by done. cbn [from_option id]. by rewrite map_app.
  - rewrite lookup_insert_ne, filter_cons_False, filter_nil by done || (cbn; congruence). by rewrite app_nil_r.
Qed.

Lemma pairs_left ls l rs : pairs (ls ++ [l]) rs = pairs ls rs ++ row_of l rs.
Proof. unfold pairs. rewrite map_app, concat_app. cbn. by rewrite app_nil_r. Qed.

Lemma pairs_right ls rs r : pairs ls (rs ++ [r]) ≡ₚ pairs ls rs ++ map (fun l => encode_joined r.1 l.2 r.2) (filter (fun l => l.1 = r.1) ls).
Proof.
  induction ls as [| l ls IH]; [done |]. unfold pairs in *. cbn [map concat]. rewrite IH. unfold row_of at 1. rewrite filter_app, map_app. fold (row_of l rs).
  destruct (decide (l.1 = r.1)) as [E | E].
  - rewrite (filter_cons_True _ r), (filter_cons_True _ l) by done. cbn [map filter list_filter]. rewrite E. rewrite <- !app_assoc. apply Permutation_app_head.
    cbn [app]. by rewrite Permutation_middle.
  - rewrite (filter_cons_False _ r), (filter_cons_False _ l) by congruence. rewrite filter_nil. cbn [map]. by rewrite app_nil_r, app_assoc.
Qed.

Lemma map_payload (f : bytes -> bytes) (l : list (Z * bytes)) (rs : list record) :
  map snd l = map snd rs -> map (fun r => f r.2) l = map (fun r => f r.2) rs.
Proof. intros H. rewrite <- (List.map_map snd f l), <- (List.map_map snd f rs). by rewrite H. Qed.

Lemma data_of_map {A} (f : A -> bytes) (l : list A) : data_of (map (fun x => Data (f x)) l) = map f l.
Proof. induction l as [| x l IH]; [done |]. change (f x :: data_of (map (fun x => Data (f x)) l) = f x :: map f l). by rewrite IH. Qed.

Lemma side_records_cons is_left i items : side_records is_left (i :: items)
  = match input_of i with Some (side, _, key, payload) => if bool_decide ((side =? LEFT) = is_left) then [(key, payload)] else [] | None => [] end ++ side_records is_left items.
Proof. unfold side_records. cbn [omap list_omap]. destruct (input_of i) as [[[[side ts] key] payload] |]; [| done]. by case_bool_decide. Qed.

Lemma join_run items : forall p out ls rs, retention p = 2 ^ 63 - 1 ->
  holds_records (jp_left p) ls -> holds_records (jp_right p) rs -> data_of out ≡ₚ pairs ls rs ->
  exists p' out', pump join_step items p out = Ok (p', out')
    /\ data_of out' ≡ₚ pairs (ls ++ side_records true items) (rs ++ side_records false items).
Proof.
  induction items as [| item items IH]; intros p out ls rs Hr Hl Hrr Ho; cbn [pump]; [exists p, out; cbn; by rewrite !app_nil_r |].
  rewrite !side_records_cons. destruct item as [b | w |]; cbn [join_step mbind outcome_bind input_of app];
    [| rewrite Hr; apply IH; [done.. |]; rewrite data_of_app; cbn; by rewrite app_nil_r | apply IH; [done.. |]; rewrite data_of_app; cbn; by rewrite app_nil_r].
  destruct (decode_input b) as [[[[side ts] key] payload] |]; [| apply IH; [done.. |]; by rewrite app_nil_r].
  destruct (side =? LEFT).
  - rewrite bool_decide_eq_true_2, bool_decide_eq_false_2, app_assoc by done. cbn [app].
    apply IH; [done | by apply holds_push | done |]. rewrite data_of_app, Ho, pairs_left, data_of_map. apply Permutation_app_head.
    unfold row_of. cbn [fst snd]. by rewrite (map_payload (encode_joined key payload) _ _ (Hrr key)).
  - rewrite bool_decide_eq_false_2, bool_decide_eq_true_2 by done. cbn [app]. rewrite (cons_middle (key, payload) rs), app_assoc.
    apply IH; [done | done | by apply holds_push |]. rewrite data_of_app, Ho, pairs_right, data_of_map. apply Permutation_app_head.
    cbn [fst snd]. by rewrite (map_payload (fun l => encode_joined key l payload) _ _ (Hl key)).
Qed.

(** A join without eviction emits exactly the pairs of a left and a right record with the same key, each as
    often as it occurs, in whatever order the two streams are interleaved. *)
Theorem unbounded_join_is_exact items :
  exists p out, process unbounded items [] = Ok (p, [], out, negb (bool_decide (items = [])))
    /\ data_of out ≡ₚ pairs (side_records true items) (side_records false items).
Proof.
  destruct (join_run items unbounded [] [] [] eq_refl) as (p & out & E & H); [done | done | done |].
  exists p, out. split; [| done]. unfold process, join_processor, by_item. by rewrite E.
Qed.

(** What is evicted is older than the watermark allows, and nothing else is. *)
Lemma evict_keeps buf cutoff key : buffered (evict buf cutoff) key = filter (fun r => cutoff <= r.1) (buffered buf key).
Proof.
  unfold buffered, evict. rewrite map_lookup_filter, lookup_fmap. destruct (buf !! key) as [l |]; [| done]. cbn [fmap option_fmap option_map mbind option_bind from_option id].
  destruct (filter _ l) eqn:E; [rewrite option_guard_False by (cbn; congruence) | rewrite option_guard_True by done]; cbn; congruence.
Qed.

(** * Facts about sources *)

Lemma split_at_spec c l : match split_at c l with Some (a, b) => l = a ++ c :: b /\ c ∉ a | None => c ∉ l end.
Proof.
  induction l as [| x l IH]; [cbn; set_solver |]. cbn. case_bool_decide as E; [subst; split; [done | set_solver] |].
  destruct (split_at c l) as [[a b] |]; [destruct IH as [-> Hn]; split; [done | set_solver] | set_solver].
Qed.

Lemma split_at_app c a b : c ∉ a -> split_at c (a ++ c :: b) = Some (a, b).
Proof.
  induction a as [| x a IH]; intros H; cbn; [by rewrite bool_decide_eq_true_2 |].
  rewrite bool_decide_eq_false_2 by set_solver. rewrite IH by set_solver. done.
Qed.

(** The lines of a text and what follows the last of them. *)
Lemma emit_lines_fuel n m s : (length s <= n)%nat -> (length s <= m)%nat -> emit_lines n s = emit_lines m s.
Proof.
  revert m s. induction n as [| n IH]; intros m s Hn Hm.
  - destruct s; [| cbn in Hn; lia]. by destruct m.
  - destruct m as [| m]; [destruct s; [done | cbn in Hm; lia] |]. cbn [emit_lines]. pose proof (split_at_spec (b8 10) s) as Hs.
    destruct (split_at (b8 10) s) as [[a b] |]; [| done]. destruct Hs as [-> _]. rewrite length_app in *. cbn [length] in *. by rewrite (IH m) by lia.
Qed.

Definition lines_of (s : bytes) : list bytes * bytes := emit_lines (length s) s.

Lemma lines_of_step a b : b8 10 ∉ a -> lines_of (a ++ b8 10 :: b) = (strip_cr a :: (lines_of b).1, (lines_of b).2).
Proof.
  intros H. unfold lines_of at 1. rewrite length_app. cbn [length]. rewrite Nat.add_succ_r. cbn [emit_lines]. rewrite split_at_app by done.
  rewrite (emit_lines_fuel _ (length b)) by lia. fold (lines_of b). by destruct (lines_of b).
Qed.
Lemma lines_of_rest s : b8 10 ∉ s -> lines_of s = ([], s).
Proof.
  intros H. unfold lines_of. destruct s as [| x s]; [done |]. cbn [length emit_lines]. pose proof (split_at_spec (b8 10) (x :: s)) as Hs.
  destruct (split_at (b8 10) (x :: s)) as [[a b] |]; [| done]. destruct Hs as [E _]. rewrite E in H. set_solver.
Qed.

Lemma lines_of_app a : forall b, lines_of (a ++ b) = ((lines_of a).1 ++ (lines_of ((lines_of a).2 ++ b)).1, (lines_of ((lines_of a).2 ++ b)).2).
Proof.
  remember (length a) as n eqn:Hn. revert a Hn. induction n as [n IH] using lt_wf_ind. intros a -> b. pose proof (split_at_spec (b8 10) a) as Hs.
  destruct (split_at (b8 10) a) as [[l r] |].
  - destruct Hs as [-> Hl]. rewrite <- app_assoc. cbn [app]. rewrite !lines_of_step by done. cbn [fst snd].
    rewrite (IH (length r)) by (done || (rewrite length_app; cbn; lia)). done.
  - rewrite (lines_of_rest a) by done. cbn [fst snd app]. by destruct (lines_of (a ++ b)).
Qed.

#[local] Instance read_result_dec : EqDecision ReadResult.
Proof. solve_decision. Defined.

Definition bytes_read (rs : list ReadResult) : bytes := concat (map (fun r => match r with ReadOk b => b | _ => [] end) rs).
Definition still_open (r : ReadResult) : Prop := match r with ReadOk b => b <> [] | WouldBlock => True | ReadErr => False end.
Definition blocks (rs : list ReadResult) : nat := length (filter (fun r => r = WouldBlock) rs).

Lemma read_some_spec rs : Forall still_open rs -> forall buf prog,
  (exists rs' pre prog', read_some (rs ++ [ReadOk []]) buf prog = (rs' ++ [ReadOk []], buf ++ pre, false, prog')
     /\ Forall still_open rs' /\ blocks rs = S (blocks rs') /\ bytes_read rs = pre ++ bytes_read rs')
  \/ read_some (rs ++ [ReadOk []]) buf prog = ([], buf ++ bytes_read rs, true, true).
Proof.
  induction 1 as [| r rs Hr Hrs IH]; intros buf prog; [right; cbn; by rewrite app_nil_r |]. destruct r as [b | |]; [| | done].
  - destruct b as [| x b]; [done |]. cbn [app read_some]. destruct (IH (buf ++ x :: b) true) as [(rs' & pre & prog' & -> & H1 & H2 & H3) | ->].
    + left. exists rs', ((x :: b) ++ pre), prog'. rewrite app_assoc. split; [done |]. split; [done |]. split; [done |]. unfold bytes_read in *. cbn [map concat]. by rewrite H3, app_assoc.
    + right. unfold bytes_read. cbn [map concat]. by rewrite app_assoc.
  - left. exists rs, [], prog. rewrite app_nil_r. split; [done |]. split; [done |]. split; [| done]. unfold blocks. by rewrite filter_cons_True.
Qed.

(** Calls of the scheduler. *)
Fixpoint polls (n : nat) (p : SocketSource) (out : list Item) : outcome (SocketSource * list Item) :=
  match n with O => Ok (p, out) | S n => '(p, _, out, _) ← process p [] out; polls n p out end.

Lemma polls_done n out rs buf : polls n (mkSocketSource rs buf true) out = Ok (mkSocketSource rs buf true, out).
Proof. by induction n. Qed.

Lemma polls_run n : forall rs B buf out, Forall still_open rs -> (blocks rs < n)%nat -> buf = (lines_of B).2 ->
  out = map Data (lines_of B).1 ->
  let '(ls, rest) := lines_of (B ++ bytes_read rs) in
  polls n (mkSocketSource (rs ++ [ReadOk []]) buf false) out = Ok (mkSocketSource [] [] true, map Data ls ++ match rest with [] => [] | _ => [Data rest] end ++ [Done]).
Proof.
  induction n as [| n IH]; intros rs B buf out Hrs Hb Hbuf Hout; [lia |]. destruct (lines_of (B ++ bytes_read rs)) as [ls rest] eqn:EL.
  cbn [polls]. unfold process, socket_source. cbn [so_done so_stream so_buf].
  destruct (read_some_spec rs Hrs buf false) as [(rs' & pre & prog' & -> & H1 & H2 & H3) | ->].
  - fold (lines_of (buf ++ pre)). pose proof (lines_of_app B pre) as EA. rewrite <- Hbuf in EA. destruct (lines_of (buf ++ pre)) as [l1 r1]. cbn [fst snd] in EA. cbn [mbind outcome_bind].
    specialize (IH rs' (B ++ pre) r1 (out ++ map Data l1) H1 ltac:(lia)). rewrite <- app_assoc, <- H3, EL in IH. apply IH.
    + by rewrite EA.
    + rewrite EA. cbn [fst]. by rewrite map_app, Hout.
  - fold (lines_of (buf ++ bytes_read rs)). pose proof (lines_of_app B (bytes_read rs)) as EA. rewrite <- Hbuf, EL in EA.
    destruct (lines_of (buf ++ bytes_read rs)) as [l1 r1]. cbn [fst snd] in EA. injection EA as -> ->. cbn [mbind outcome_bind]. rewrite polls_done. by rewrite Hout, map_app, <- !app_assoc.
Qed.

(** The records of a socket do not depend on how its bytes arrive: however the stream is cut into reads and
    calls, the source emits the lines of all bytes, the last one too if no newline ends it, and then the
    end. *)
Theorem socket_lines_are_those_sent rs n : Forall still_open rs -> (blocks rs < n)%nat ->
  let '(ls, rest) := lines_of (bytes_read rs) in
  polls n (from_stream (rs ++ [ReadOk []])) [] = Ok (mkSocketSource [] [] true, map Data ls ++ match rest with [] => [] | _ => [Data rest] end ++ [Done]).
Proof. intros Hrs Hn. by apply (polls_run n rs [] [] []). Qed.

Lemma socket_lines_are_those_sent_witness :
  let rs := [ReadOk (bstr "on"); WouldBlock; ReadOk (bstr "e" ++ [b8 13]); ReadOk ([b8 10] ++ bstr "two")] in
  polls 2 (from_stream (rs ++ [ReadOk []])) [] = Ok (mkSocketSource [] [] true, [Data (bstr "one"); Data (bstr "two"); Done]).
Proof. intros rs. apply (socket_lines_are_those_sent rs 2); [repeat constructor; discriminate | by vm_compute; lia]. Defined.

(** * Facts about workers *)

Lemma any_process p inbox outbox : exists p' out b, process p inbox outbox = Ok (p', [], outbox ++ out, b) /\ (inbox = [] -> out = []).
Proof.
  assert (forall P (step : Item -> P -> outcome (P * list Item)), (forall i p, exists p' o, step i p = Ok (p', o)) -> forall l p o,
    exists p' out, pump step l p o = Ok (p', o ++ out) /\ (l = [] -> out = [])) as Hpump.
  { intros P step Hstep. induction l as [| i l IH]; intros q o; cbn [pump]; [exists q, []; by rewrite app_nil_r |].
    destruct (Hstep i q) as (q1 & o1 & ->). cbn [mbind outcome_bind]. destruct (IH q1 (o ++ o1)) as (q2 & o2 & -> & _). exists q2, (o1 ++ o2). by rewrite app_assoc. }
  unfold process, any_processor. destruct p as [q | q]; unfold process, map_processor, filter_processor, by_item;
    [destruct (Hpump _ map_step ltac:(intros i p; by eexists _, _) inbox q outbox) as (q' & out & -> & Ho)
    |destruct (Hpump _ filter_step ltac:(intros i p; by eexists _, _) inbox q outbox) as (q' & out & -> & Ho)];
    cbn [mbind outcome_bind]; eexists _, out, _; split; done.
Qed.

(** The first [k] tasklets have nothing to read, and none has anything to hand on. *)
Definition idle (k : nat) (ts : list Tasklet) : Prop := Forall (fun t => t_outbox t = []) ts /\ Forall (fun t => t_inbox t = []) (take k ts).

Lemma process_all_idle k : forall ts, idle k ts -> exists ts' d, process_all ts = Ok (ts', d) /\ length ts' = length ts
  /\ Forall (fun t => t_inbox t = []) ts' /\ Forall (fun t => t_outbox t = []) (take k ts') /\ ((length ts <= k)%nat -> d = true)
  /\ (d = true -> Forall (fun t => t_outbox t = []) ts').
Proof.
  intros ts. revert k. induction ts as [| t ts IH]; intros k [Ho Hi]; cbn [process_all]; [exists [], true; split_and!; try done; by rewrite take_nil |].
  apply Forall_cons in Ho as [Ho1 Ho]. destruct (any_process (t_processor t) (t_inbox t) (t_outbox t)) as (p & out & b & -> & He). cbn [mbind outcome_bind].
  destruct (IH (pred k)) as (ts' & d & -> & Hl & Hi' & Ho' & Hd & Hall); [split; [done |]; destruct k; [done |]; by apply Forall_cons in Hi as [_ Hi] |].
  cbn [mbind outcome_bind]. eexists _, _. split; [done |]. cbn [length]. split; [by rewrite Hl |]. split; [by constructor |]. rewrite Ho1. cbn [app].
  assert (bool_decide (@nil Item = []) && bool_decide (out = []) && d = true -> Forall (fun t => t_outbox t = []) (mkTasklet p [] out :: ts')) as Hlast.
  { intros [[_ ?%bool_decide_eq_true]%andb_prop ?]%andb_prop. constructor; auto. }
  destruct k as [| k]; [split_and!; [done | intros; lia | done] |]. cbn [take pred] in *. apply Forall_cons in Hi as [Hi1 _]. rewrite (He Hi1) in *. split_and!; [by constructor | | done].
  intros Hk. cbn. apply Hd. lia.
Qed.

Lemma move_items_idle k : forall ts, Forall (fun t => t_inbox t = []) ts -> Forall (fun t => t_outbox t = []) (take k ts) -> idle (S k) (move_items [] ts).
Proof.
  assert (forall ts carry, Forall (fun t => t_outbox t = []) (move_items carry ts)) as Hout by (induction ts; constructor; [done | apply IHts]).
  induction k as [| k IH]; intros [| t ts] Hi Ho; (split; [apply Hout |]); cbn [move_items take] in *; try constructor; apply Forall_cons in Hi as [Hi1 Hi]; cbn [t_inbox]; try by rewrite Hi1.
  - constructor.
  - apply Forall_cons in Ho as [Ho1 Ho]. rewrite Ho1. destruct (IH ts Hi Ho) as [_ H]. done.
Qed.

Lemma move_items_quiet ts : Forall (fun t => t_inbox t = []) ts -> Forall (fun t => t_outbox t = []) ts ->
  Forall (fun t => t_inbox t = [] /\ t_outbox t = []) (move_items [] ts).
Proof.
  induction ts as [| t ts IH]; intros Hi Ho; [constructor |]. apply Forall_cons in Hi as [Hi1 Hi], Ho as [Ho1 Ho]. cbn [move_items]. rewrite Ho1. constructor; [| by apply IH].
  cbn. by rewrite Hi1.
Qed.

Lemma worker_idle n : forall k ts, idle k ts -> (length ts <= k + n)%nat ->
  exists ts', worker (S n) ts = Some (Ok ts') /\ Forall (fun t => t_inbox t = [] /\ t_outbox t = []) ts'.
Proof.
  induction n as [| n IH]; intros k ts Hi Hn; destruct (process_all_idle k ts Hi) as (ts1 & d & E & Hl & H1 & H2 & H3 & H4); cbn [worker]; rewrite E; destruct d.
  - eexists. split; [done |]. apply move_items_quiet; auto.
  - discriminate H3. lia.
  - eexists. split; [done |]. apply move_items_quiet; auto.
  - apply (IH (S k)); [by apply move_items_idle |].
    assert (forall l c, length (move_items c l) = length l) as -> by (induction l; intros; cbn; [done | by rewrite IHl]). lia.
Qed.

(** A pipeline comes to an end: whatever its first tasklets have to read, after one turn per tasklet and
    one more every queue is empty and the worker stops. *)
Theorem pipeline_ends ts : Forall (fun t => t_outbox t = []) ts ->
  exists ts', worker (S (length ts)) ts = Some (Ok ts') /\ Forall (fun t => t_inbox t = [] /\ t_outbox t = []) ts'.
Proof. intros H. apply (worker_idle (length ts) 0); [by split | done]. Qed.

Lemma pipeline_ends_witness : exists ts', worker 3 (job_tasklets 1) = Some (Ok ts') /\ Forall (fun t => t_inbox t = [] /\ t_outbox t = []) ts'.
Proof. apply (pipeline_ends (job_tasklets 1)). by repeat constructor. Defined.
