(* ===== verification/TextProtocols.v ===== *)
(** * The text protocols

    crates/server/src/resp.rs (the protocol of Redis) and crates/server/src/memcache.rs (the one of memcached):
    where a command ends in the bytes received, its parts, and what it does to the store.  Facts: a command
    that is printed is framed and parsed back whatever follows it, framing does not depend on how much has
    arrived, a compare-and-swap succeeds only on the value that was read, and the inputs that stop a
    member. *)

From S2P Require Import Prelude Text FieldValue QueryIndex Table TableFacts TableIndex TableSpec TableQuery TableRun Schema Extract Store StoreRun.

(** ** Bytes *)

(** [b.windows(2).position(|w| w == b"\r\n")] *)
Fixpoint find_crlf (b : bytes) : option nat :=
  match b with
  | x :: ((y :: _) as b') => if (u8 x =? 13) && (u8 y =? 10) then Some 0%nat else S <$> find_crlf b'
  | _ => None
  end.

(** [b.get(from..)] first. *)
Definition crlf (b : bytes) (from : nat) : option nat :=
  if (from <=? length b)%nat then (fun p => (from + p)%nat) <$> find_crlf (drop from b) else None.

(** [line.split(|&b| b == b' ').filter(|t| !t.is_empty())] *)
Fixpoint tokens_from (line tok : bytes) : list bytes :=
  match line with
  | [] => match tok with [] => [] | _ => [tok] end
  | x :: line => if u8 x =? 32 then match tok with [] => tokens_from line [] | _ => tok :: tokens_from line [] end else tokens_from line (tok ++ [x])
  end.
Definition tokens (line : bytes) : list bytes := tokens_from line [].

Definition to_ascii_uppercase (s : bytes) : bytes := map (fun b => if in_range 97 122 b then b8 (u8 b - 32) else b) s.

(** [b.get(i..j)] *)
Definition get_slice (i j : Z) (b : bytes) : option bytes :=
  if (i <=? j) && (j <=? blen b) then Some (take (Z.to_nat (j - i)) (drop (Z.to_nat i) b)) else None.

Definition CRLF : bytes := [b8 13; b8 10].

(** [Frame]: more bytes are needed, or the next [n] are a command. *)
Inductive TextFrame := Need | Have (n : nat).

(** ** RESP *)

Module Resp.

Definition MAP : bytes := bstr "redis".

(** The arguments announced by the header, from [pos] on; [header]: where the header line ends.  Every
    argument takes at least three bytes, so the length of the buffer bounds the loop. *)
Fixpoint frame_args (fuel : nat) (acc : bytes) (count : Z) (pos header : nat) : TextFrame :=
  match fuel with
  | O => Need
  | S fuel =>
    if count <=? 0 then Have pos else
    match acc !! pos with
    | None => Need
    | Some x =>
      if negb (u8 x =? 36) then Have header else
      match crlf acc pos with
      | None => Need
      | Some el =>
        match parse_i64 (take (el - (pos + 1)) (drop (pos + 1) acc)) with
        | None => Have header
        | Some len =>
          if len <? 0 then frame_args fuel acc (count - 1) (el + 2) header
          else if blen acc <? Z.of_nat (el + 2) + len + 2 then Need
          else frame_args fuel acc (count - 1) (el + 2 + Z.to_nat len + 2) header
        end
      end
    end
  end.

Definition frame (acc : bytes) : TextFrame :=
  match acc with
  | [] => Need
  | x :: _ =>
    match crlf acc 0 with
    | None => Need
    | Some e0 =>
      if negb (u8 x =? 42) then Have (e0 + 2)
      else match parse_i64 (take (e0 - 1) (drop 1 acc)) with
           | None => Have (e0 + 2)
           | Some count => if count <=? 0 then Have (e0 + 2) else frame_args (S (length acc)) acc count (e0 + 2) (e0 + 2)
           end
    end
  end.

Fixpoint parse_args (fuel : nat) (cmd : bytes) (count : Z) (pos : nat) : option (list bytes) :=
  match fuel with
  | O => None
  | S fuel =>
    if count <=? 0 then Some [] else
    match cmd !! pos with
    | Some x =>
      if negb (u8 x =? 36) then None else
      el ← crlf cmd pos;
      len ← parse_i64 (take (el - (pos + 1)) (drop (pos + 1) cmd));
      if len <? 0 then args ← parse_args fuel cmd (count - 1) (el + 2); Some ([] :: args)
      else
        arg ← get_slice (Z.of_nat (el + 2)) (Z.of_nat (el + 2) + len) cmd;
        args ← parse_args fuel cmd (count - 1) (el + 2 + Z.to_nat len + 2);
        Some (arg :: args)
    | None => None
    end
  end.

(** [Vec::<Vec<u8>>::with_capacity] of more than [isize::MAX] bytes panics; a vector is 24 bytes. *)
Definition with_capacity (count : Z) : outcome unit := if 2 ^ 63 - 1 <? count * 24 then Panic else Ok ().

Definition parse (cmd : bytes) : outcome (option (list bytes)) :=
  match crlf cmd 0 with
  | None => Ok None
  | Some e0 =>
    match cmd with
    | x :: _ =>
      if negb (u8 x =? 42) then Ok (Some (tokens (take e0 cmd)))
      else match parse_i64 (take (e0 - 1) (drop 1 cmd)) with
           | None => Ok None
           | Some count => if count <? 0 then Ok (Some []) else _ ← with_capacity count; Ok (parse_args (S (length cmd)) cmd count (e0 + 2))
           end
    | [] => Ok None
    end
  end.

Definition bulk (v : option bytes) : bytes :=
  match v with Some d => bstr "$" ++ nat_to_string (blen d) ++ CRLF ++ d ++ CRLF | None => bstr "$-1" ++ CRLF end.
Definition integer (n : Z) : bytes := bstr ":" ++ int_to_string n ++ CRLF.
Definition simple (s : bytes) : bytes := bstr "+" ++ s ++ CRLF.
Definition error (s : bytes) : bytes := bstr "-ERR " ++ s ++ CRLF.

Definition u64_arg (v : bytes) : option Z := parse_u64 v.

Section Execute.
Context {Schemas : Type} (extract : bytes -> Schemas -> bytes -> FieldValue) (schemas : Schemas) {X : MapStore}.

(** The options of a SET: time to live, only if absent, only if present. *)
Fixpoint set_options (args : list bytes) (ttl_ms : Z) (nx xx : bool) : option (Z * bool * bool) :=
  match args with
  | [] => Some (ttl_ms, nx, xx)
  | a :: args =>
    let a := to_ascii_uppercase a in
    if bool_decide (a = bstr "EX") then
      match args with
      | [] => Some (0, nx, xx)
      | v :: args => set_options args (wrap_u64 (default 0 (u64_arg v) * 1000)) nx xx
      end
    else if bool_decide (a = bstr "PX") then
      match args with
      | [] => Some (0, nx, xx)
      | v :: args => set_options args (default 0 (u64_arg v)) nx xx
      end
    else if bool_decide (a = bstr "NX") then set_options args ttl_ms true xx
    else if bool_decide (a = bstr "XX") then set_options args ttl_ms nx true
    else if bool_decide (a = bstr "KEEPTTL") then set_options args ttl_ms nx xx
    else None
  end.

Definition set (c : clocks) (args : list bytes) (s : Store) : outcome (Store * bytes) :=
  match args with
  | _ :: key :: val :: opts =>
    match set_options opts 0 false false with
    | None => Ok (s, error (bstr "syntax error"))
    | Some (ttl_ms, nx, xx) =>
      if nx || xx then
        '(s, stored) ← mc_update extract schemas c MAP key
          (fun cur => let present := bool_decide (is_Some cur) in
             if (nx && present) || (xx && negb present) then (McKeep, false) else (McStore val ttl_ms, true)) s;
        Ok (s, if stored : bool then simple (bstr "OK") else bulk None)
      else '(s, _) ← put_ttl extract schemas c MAP key val ttl_ms s; Ok (s, simple (bstr "OK"))
    end
  | _ => Ok (s, error (bstr "wrong number of arguments for 'set'"))
  end.

(** How many of the keys the operation finds something for. *)
Fixpoint count_keys (f : bytes -> Store -> outcome (Store * option bytes)) (keys : list bytes) (s : Store) : outcome (Store * Z) :=
  match keys with
  | [] => Ok (s, 0)
  | k :: keys => '(s, v) ← f k s; '(s, n) ← count_keys f keys s; Ok (s, if bool_decide (is_Some v) then 1 + n else n)
  end.

Definition execute (c : clocks) (args : list bytes) (s : Store) : outcome (Store * (bytes * bool)) :=
  match args with
  | [] => Ok (s, (error (bstr "empty command"), false))
  | verb :: rest =>
    let v := to_ascii_uppercase verb in
    if bool_decide (v = bstr "PING") then Ok (s, (match rest with m :: _ => bulk (Some m) | [] => simple (bstr "PONG") end, false))
    else if bool_decide (v = bstr "ECHO") then Ok (s, (bulk (head rest), false))
    else if bool_decide (v = bstr "GET") then
      match rest with
      | k :: _ => '(s, r) ← get extract schemas c MAP k s; Ok (s, (bulk r, false))
      | [] => Ok (s, (bulk None, false))
      end
    else if bool_decide (v = bstr "SET") then '(s, out) ← set c args s; Ok (s, (out, false))
    else if bool_decide (v = bstr "DEL") then '(s, n) ← count_keys (remove extract schemas c MAP) rest s; Ok (s, (integer n, false))
    else if bool_decide (v = bstr "EXISTS") then '(s, n) ← count_keys (get extract schemas c MAP) rest s; Ok (s, (integer n, false))
    else if bool_decide (v = bstr "DBSIZE") then n ← size MAP s; Ok (s, (integer (wrap_i64 n), false))
    else if bool_decide (v = bstr "FLUSHDB") || bool_decide (v = bstr "FLUSHALL") then s ← clear MAP s; Ok (s, (simple (bstr "OK"), false))
    else if bool_decide (v = bstr "SELECT") || bool_decide (v = bstr "AUTH") then Ok (s, (simple (bstr "OK"), false))
    else if bool_decide (v = bstr "CONFIG") || bool_decide (v = bstr "COMMAND") then Ok (s, (bstr "*0" ++ CRLF, false))
    else if bool_decide (v = bstr "INFO") then Ok (s, (bulk (Some (bstr "# Server" ++ CRLF ++ bstr "server:bonsaigrid" ++ CRLF)), false))
    else if bool_decide (v = bstr "RESET") then Ok (s, (simple (bstr "RESET"), false))
    else if bool_decide (v = bstr "QUIT") then Ok (s, (simple (bstr "OK"), true))
    else Ok (s, (error (bstr "unknown command '" ++ from_utf8_lossy verb ++ bstr "'"), false))
  end.

(** What the member does with one command (main.rs). *)
Definition serve (c : clocks) (cmd : bytes) (s : Store) : outcome (Store * (bytes * bool)) :=
  args ← parse cmd;
  match args with
  | Some args => execute c args s
  | None => Ok (s, (bstr "-ERR protocol error" ++ CRLF, false))
  end.
End Execute.
End Resp.

(** ** memcached *)

Module Memcache.

Definition MAP : bytes := bstr "memcache".
Definition MAX_VALUE : Z := 1048576.
Definition MAX_KEY : Z := 250.

(** A stored value: flags, token, data. *)
Definition pack (flags cas : Z) (data : bytes) : bytes := to_le 4 flags ++ to_le 8 cas ++ data.
Definition unpack (blob : bytes) : option (Z * Z * bytes) :=
  if (length blob <? 12)%nat then None else Some (from_le_u (take 4 blob), from_le_u (take 8 (drop 4 blob)), drop 12 blob).

Inductive Ttl := Never | Ms (ms : Z) | Past.

Definition classify_exptime (exptime now_unix : Z) : Ttl :=
  if exptime =? 0 then Never
  else if exptime <? 0 then Past
  else if exptime <=? 2592000 then Ms (exptime * 1000)
  else if exptime <=? now_unix then Past
  else Ms (wrap_u64 ((exptime - now_unix) * 1000)).

Definition one_of (verb : bytes) (l : list string) : bool := existsb (fun s => bool_decide (verb = bstr s)) l.
Definition is_storage (verb : bytes) : bool := one_of verb ["set"; "add"; "replace"; "append"; "prepend"; "cas"]%string.

(** The sum wraps. *)
Definition frame (acc : bytes) : TextFrame :=
  match find_crlf acc with
  | None => Need
  | Some eol =>
    let line_end := (eol + 2)%nat in
    let toks := tokens (take eol acc) in
    if match toks with v :: _ => is_storage v | [] => false end then
      match t ← toks !! 4%nat; parse_u64 t with
      | Some n =>
        let need := wrap_u64 (Z.of_nat line_end + n + 2) in
        if need <=? blen acc then Have (Z.to_nat need) else Need
      | None => Have line_end
      end
    else Have line_end
  end.

Inductive StoreOp := OpSet | OpAdd | OpReplace | OpCas.

Inductive Command :=
| CmdGet (keys : list bytes) (with_cas : bool)
| CmdStore (op : StoreOp) (key : bytes) (flags exptime cas : Z) (data : bytes) (noreply : bool)
| CmdDelete (key : bytes) (noreply : bool)
| CmdTouch (key : bytes) (exptime : Z) (noreply : bool)
| CmdFlushAll (noreply : bool)
| CmdVersion
| CmdVerbosity (noreply : bool)
| CmdQuit
| CmdError
| CmdClientError (msg : bytes)
| CmdNotImplemented.

Definition valid_key (k : bytes) : bool :=
  negb (bool_decide (k = [])) && (blen k <=? MAX_KEY) && forallb (fun b => (0x20 <? u8 b) && negb (u8 b =? 0x7f)) k.

Definition parse_u32 (t : bytes) : option Z := n ← parse_u64 t; in_bounds 0 (2 ^ 32 - 1) n.
Definition is_noreply (t : option bytes) : bool := bool_decide (t = Some (bstr "noreply")).
Definition bad_line : Command := CmdClientError (bstr "bad command line format").
Definition bad_chunk : Command := CmdClientError (bstr "bad data chunk").

(** [set], [add], [replace] and [cas], with their data block. *)
Definition parse_storage (cmd : bytes) (eol : nat) (verb : bytes) (toks : list bytes) : Command :=
  let is_cas := bool_decide (verb = bstr "cas") in
  match toks with
  | _ :: key :: flags :: exptime :: n :: more =>
    if is_cas && bool_decide (more = []) then bad_line else
    match parse_u32 flags, parse_i64 exptime, parse_u64 n with
    | Some flags, Some exptime, Some n =>
      if negb (valid_key key) then bad_line else
      match (if is_cas then match more with t :: more => c ← parse_u64 t; Some (c, more) | [] => None end else Some (0, more)) with
      | None => bad_line
      | Some (cas, more) =>
        let ds := Z.of_nat eol + 2 in
        let de := wrap_u64 (ds + n) in
        match get_slice ds de cmd with
        | None => bad_chunk
        | Some data =>
          if negb (bool_decide (get_slice de (wrap_u64 (de + 2)) cmd = Some CRLF)) then bad_chunk else
          let op := if bool_decide (verb = bstr "set") then OpSet else if bool_decide (verb = bstr "add") then OpAdd
                    else if bool_decide (verb = bstr "replace") then OpReplace else OpCas in
          CmdStore op key flags exptime cas data (is_noreply (head more))
        end
      end
    | _, _, _ => bad_line
    end
  | _ => bad_line
  end.

Definition parse (cmd : bytes) : Command :=
  let eol := default (length cmd) (find_crlf cmd) in
  let toks := tokens (take eol cmd) in
  match toks with
  | [] => CmdError
  | verb :: rest =>
    if one_of verb ["get"; "gets"]%string then
      if bool_decide (rest = []) || existsb (fun k => negb (valid_key k)) rest then bad_line else CmdGet rest (bool_decide (verb = bstr "gets"))
    else if one_of verb ["set"; "add"; "replace"; "cas"]%string then parse_storage cmd eol verb toks
    else if one_of verb ["append"; "prepend"; "incr"; "decr"]%string then CmdNotImplemented
    else if one_of verb ["delete"]%string then
      match rest with
      | key :: more => if valid_key key then CmdDelete key (is_noreply (head more)) else bad_line
      | [] => bad_line
      end
    else if one_of verb ["touch"]%string then
      match rest with
      | key :: exptime :: more =>
        if negb (valid_key key) then bad_line else
        match parse_i64 exptime with Some e => CmdTouch key e (is_noreply (head more)) | None => CmdClientError (bstr "invalid exptime argument") end
      | _ => bad_line
      end
    else if one_of verb ["flush_all"]%string then CmdFlushAll (is_noreply (last toks))
    else if one_of verb ["version"]%string then CmdVersion
    else if one_of verb ["verbosity"]%string then CmdVerbosity (is_noreply (last toks))
    else if one_of verb ["quit"]%string then CmdQuit
    else CmdError
  end.

Section Execute.
Context {Schemas : Type} (extract : bytes -> Schemas -> bytes -> FieldValue) (schemas : Schemas) {X : MapStore}.

(** The lines of one key; nothing if it has no value. *)
Definition value_lines (k : bytes) (with_cas : bool) (v : option bytes) : bytes :=
  match blob ← v; unpack blob with
  | Some (flags, cas, data) =>
    bstr "VALUE " ++ k ++ bstr " " ++ nat_to_string flags ++ bstr " " ++ nat_to_string (blen data)
      ++ (if with_cas then bstr " " ++ nat_to_string cas else []) ++ CRLF ++ data ++ CRLF
  | None => []
  end.

Fixpoint get_values (c : clocks) (keys : list bytes) (with_cas : bool) (s : Store) : outcome (Store * bytes) :=
  match keys with
  | [] => Ok (s, bstr "END" ++ CRLF)
  | k :: keys =>
    '(s, v) ← get extract schemas c MAP k s;
    '(s, out) ← get_values c keys with_cas s;
    Ok (s, value_lines k with_cas v ++ out)
  end.

Definition STORED : bytes := bstr "STORED" ++ CRLF.
Definition NOT_STORED : bytes := bstr "NOT_STORED" ++ CRLF.
Definition NOT_FOUND : bytes := bstr "NOT_FOUND" ++ CRLF.
Definition EXISTS : bytes := bstr "EXISTS" ++ CRLF.
Definition TOUCHED : bytes := bstr "TOUCHED" ++ CRLF.
Definition DELETED : bytes := bstr "DELETED" ++ CRLF.
Definition OK_LINE : bytes := bstr "OK" ++ CRLF.

(** What a conditional store does with the current value; [blob]: the new value under the next token. *)
Definition update (op : StoreOp) (cas : Z) (expired : bool) (blob : bytes) (ttl_ms : Z) (cur : option bytes) : McAction * bytes :=
  let store := if expired then (McRemove, STORED) else (McStore blob ttl_ms, STORED) in
  match op with
  | OpAdd => match cur with Some _ => (McKeep, NOT_STORED) | None => store end
  | OpReplace => match cur with None => (McKeep, NOT_STORED) | Some _ => store end
  | _ => match b ← cur; unpack b with
         | None => (McKeep, NOT_FOUND)
         | Some (_, cur_cas, _) => if cur_cas =? cas then store else (McKeep, EXISTS)
         end
  end.

(** The counter advances when a value is stored. *)
Definition execute_store (c : clocks) (now_unix : Z) (op : StoreOp) (key : bytes) (flags exptime cas : Z) (data : bytes) (s : Store) (ctr : Z) : outcome (Store * Z * bytes) :=
  if MAX_VALUE <? blen data then Ok (s, ctr, bstr "SERVER_ERROR object too large for cache" ++ CRLF) else
  let ttl := classify_exptime exptime now_unix in
  let ttl_ms := match ttl with Ms m => m | _ => 0 end in
  let expired := match ttl with Past => true | _ => false end in
  let next_cas := wrap_u64 (ctr + 1) in
  let blob := pack flags next_cas data in
  match op with
  | OpSet =>
    if expired then '(s, _) ← remove extract schemas c MAP key s; Ok (s, ctr, STORED)
    else '(s, _) ← put_ttl extract schemas c MAP key blob ttl_ms s; Ok (s, next_cas, STORED)
  | _ =>
    '(s, (stores, reply)) ← mc_update extract schemas c MAP key
      (fun cur => let '(a, r) := update op cas expired blob ttl_ms cur in (a, (match a with McStore _ _ => true | _ => false end, r))) s;
    Ok (s, if stores : bool then next_cas else ctr, reply)
  end.

Definition touch (ttl : Ttl) (cur : option bytes) : McAction * bytes :=
  match cur with
  | None => (McKeep, NOT_FOUND)
  | Some blob => match ttl with Past => (McRemove, TOUCHED) | Never => (McStore blob 0, TOUCHED) | Ms m => (McStore blob m, TOUCHED) end
  end.

Definition unless (noreply : bool) (reply : bytes) : bytes := if noreply then [] else reply.

Definition execute (c : clocks) (now_unix : Z) (version : bytes) (cmd : Command) (s : Store) (ctr : Z) : outcome (Store * Z * (bytes * bool)) :=
  match cmd with
  | CmdGet keys with_cas => '(s, out) ← get_values c keys with_cas s; Ok (s, ctr, (out, false))
  | CmdStore op key flags exptime cas data noreply =>
    '(s, ctr, reply) ← execute_store c now_unix op key flags exptime cas data s ctr; Ok (s, ctr, (unless noreply reply, false))
  | CmdDelete key noreply =>
    '(s, r) ← remove extract schemas c MAP key s; Ok (s, ctr, (unless noreply (if bool_decide (is_Some r) then DELETED else NOT_FOUND), false))
  | CmdTouch key exptime noreply =>
    '(s, reply) ← mc_update extract schemas c MAP key (touch (classify_exptime exptime now_unix)) s; Ok (s, ctr, (unless noreply reply, false))
  | CmdFlushAll noreply => s ← clear MAP s; Ok (s, ctr, (unless noreply OK_LINE, false))
  | CmdVersion => Ok (s, ctr, (bstr "VERSION bonsaigrid-" ++ version ++ CRLF, false))
  | CmdVerbosity noreply => Ok (s, ctr, (unless noreply OK_LINE, false))
  | CmdQuit => Ok (s, ctr, ([], true))
  | CmdError | CmdNotImplemented => Ok (s, ctr, (bstr "ERROR" ++ CRLF, false))
  | CmdClientError msg => Ok (s, ctr, (bstr "CLIENT_ERROR " ++ msg ++ CRLF, false))
  end.
End Execute.
End Memcache.

(** * Framing *)

Lemma find_crlf_cons x y b : find_crlf (x :: y :: b) = if (u8 x =? 13) && (u8 y =? 10) then Some 0%nat else S <$> find_crlf (y :: b).
Proof. done. Qed.

Lemma find_crlf_lt b p : find_crlf b = Some p -> (p + 2 <= length b)%nat.
Proof.
  revert p. induction b as [| x b IH]; intros p; [done |]. destruct b as [| y b]; [done |]. rewrite find_crlf_cons.
  destruct (_ && _); [intros [= <-]; cbn; lia |]. intros (q & Hq & ->)%fmap_Some. apply IH in Hq. cbn [length] in *. lia.
Qed.

Lemma find_crlf_app a b p : find_crlf a = Some p -> find_crlf (a ++ b) = Some p.
Proof.
  revert p. induction a as [| x a IH]; intros p; [done |]. destruct a as [| y a]; [done |]. cbn [app]. rewrite !find_crlf_cons.
  destruct (_ && _); [done |]. intros (q & Hq & ->)%fmap_Some. apply IH in Hq. cbn [app] in Hq. by rewrite Hq.
Qed.

(** A line without a carriage return ends at the first line end. *)
Lemma find_crlf_line l r : Forall (fun b => u8 b <> 13) l -> find_crlf (l ++ CRLF ++ r) = Some (length l).
Proof.
  induction 1 as [| x l Hx _ IH]; [done |]. cbn [app length]. destruct (l ++ CRLF ++ r) as [| y k] eqn:E; [by destruct l |]. rewrite find_crlf_cons.
  rewrite (proj2 (Z.eqb_neq _ _) Hx). cbn [andb]. by rewrite IH.
Qed.

Lemma crlf_bounds b from p : crlf b from = Some p -> (from <= p)%nat /\ (p + 2 <= length b)%nat.
Proof.
  unfold crlf. destruct (Nat.leb_spec from (length b)); [| done]. intros (q & Hq & ->)%fmap_Some. apply find_crlf_lt in Hq. rewrite length_drop in Hq. lia.
Qed.

Lemma crlf_app a b from p : crlf a from = Some p -> crlf (a ++ b) from = Some p.
Proof.
  unfold crlf. destruct (Nat.leb_spec from (length a)); [| done]. intros (q & Hq & ->)%fmap_Some.
  rewrite (proj2 (Nat.leb_le _ _)) by (rewrite length_app; lia). rewrite drop_app_le by done. by rewrite (find_crlf_app _ _ q Hq).
Qed.

Lemma take_drop_app (a b : bytes) i j : (j <= length a)%nat -> take (j - i) (drop i (a ++ b)) = take (j - i) (drop i a).
Proof.
  intros H. destruct (Nat.le_gt_cases i j); [| by replace (j - i)%nat with 0%nat by lia].
  rewrite drop_app_le by lia. apply take_app_le. rewrite length_drop. lia.
Qed.

Module RespFacts.
Import Resp.

(** What was framed is framed the same when more has arrived, and is part of what arrived. *)
Lemma frame_args_app fuel : forall fuel' acc b count pos header n, (fuel <= fuel')%nat ->
  frame_args fuel acc count pos header = Have n -> frame_args fuel' (acc ++ b) count pos header = Have n.
Proof.
  induction fuel as [| fuel IH]; intros [| fuel'] acc b count pos header n Hf H; try (done || lia). cbn [frame_args] in *. destruct (count <=? 0); [done |].
  destruct (acc !! pos) as [x |] eqn:Ex; [| done]. rewrite (lookup_app_l_Some _ _ _ _ Ex). destruct (negb (u8 x =? 36)); [done |].
  destruct (crlf acc pos) as [el |] eqn:Ec; [| done]. rewrite (crlf_app _ _ _ _ Ec). apply crlf_bounds in Ec. rewrite take_drop_app by lia.
  destruct (parse_i64 _) as [len |]; [| done]. destruct (len <? 0); [apply IH; [lia | done] |].
  destruct (Z.ltb_spec (blen acc) (Z.of_nat (el + 2) + len + 2)); [done |]. rewrite (proj2 (Z.ltb_ge _ _)) by (rewrite blen_app; pose proof (blen_nonneg b); lia).
  apply IH; [lia | done].
Qed.

Lemma resp_frame_app acc b n : frame acc = Have n -> frame (acc ++ b) = Have n.
Proof.
  unfold frame. destruct acc as [| x acc]; [done |]. cbn [app]. change (x :: acc ++ b) with ((x :: acc) ++ b).
  destruct (crlf (x :: acc) 0) as [e0 |] eqn:Ec; [| done]. rewrite (crlf_app _ _ _ _ Ec). apply crlf_bounds in Ec. destruct (negb (u8 x =? 42)); [done |].
  rewrite (take_drop_app (x :: acc) b 1 e0) by lia. destruct (parse_i64 _) as [count |]; [| done]. destruct (count <=? 0); [done |].
  apply frame_args_app. rewrite length_app. lia.
Qed.

Lemma frame_args_bounds fuel : forall acc count pos header n, (header <= length acc)%nat -> (pos <= length acc)%nat -> (0 < header)%nat -> (0 < pos)%nat ->
  frame_args fuel acc count pos header = Have n -> (0 < n <= length acc)%nat.
Proof.
  induction fuel as [| fuel IH]; intros acc count pos header n Hh Hp Hh0 Hp0; [done |]. cbn [frame_args]. destruct (count <=? 0); [intros [= <-]; lia |].
  destruct (acc !! pos) as [x |]; [| done]. destruct (negb (u8 x =? 36)); [intros [= <-]; lia |].
  destruct (crlf acc pos) as [el |] eqn:Ec; [| done]. apply crlf_bounds in Ec. destruct (parse_i64 _) as [len |]; [| intros [= <-]; lia].
  destruct (Z.ltb_spec len 0); [apply IH; lia |]. destruct (Z.ltb_spec (blen acc) (Z.of_nat (el + 2) + len + 2)); [done |]. apply IH; unfold blen in *; lia.
Qed.

Lemma resp_frame_bounds acc n : frame acc = Have n -> (0 < n <= length acc)%nat.
Proof.
  unfold frame. destruct acc as [| x acc]; [done |]. destruct (crlf (x :: acc) 0) as [e0 |] eqn:Ec; [| done]. apply crlf_bounds in Ec.
  destruct (negb (u8 x =? 42)); [intros [= <-]; lia |]. destruct (parse_i64 _) as [count |]; [| intros [= <-]; lia]. destruct (count <=? 0); [intros [= <-]; lia |].
  apply frame_args_bounds; lia.
Qed.

(** ** Commands as clients print them *)

Definition sized_line (c : byte) (n : Z) : bytes := c :: nat_to_string n ++ CRLF.
Definition args_bytes (args : list bytes) : bytes := concat (map (fun a => bulk (Some a)) args).
Definition command (args : list bytes) : bytes := sized_line (b8 42) (blen args) ++ args_bytes args.

Lemma bulk_is a : bulk (Some a) = sized_line (b8 36) (blen a) ++ a ++ CRLF.
Proof. unfold bulk, sized_line. cbn [app]. by rewrite <- !app_assoc. Qed.

Lemma digits_no_cr n : 0 <= n -> Forall (fun b => u8 b <> 13) (nat_to_string n).
Proof.
  intros Hn. destruct (nat_to_string_ok n Hn) as [_ H]. rewrite forallb_forall in H. apply Forall_forall. intros b Hb%list_elem_of_In. apply H in Hb.
  unfold is_ascii_digit, in_range in Hb. lia.
Qed.

Lemma parse_size n : 0 <= n < 2 ^ 63 -> parse_i64 (nat_to_string n) = Some n.
Proof. intros Hn. rewrite <- (parse_i64_to_string n) by (unfold is_i64; lia). unfold int_to_string. by rewrite (proj2 (Z.ltb_ge n 0)) by lia. Qed.

(** A line that announces a size, wherever it is in a buffer. *)
Lemma sized_line_at pre c n rest : u8 c <> 13 -> 0 <= n < 2 ^ 63 ->
  let buf := pre ++ sized_line c n ++ rest in let el := (length pre + length (sized_line c n) - 2)%nat in
  buf !! length pre = Some c /\ crlf buf (length pre) = Some el /\ parse_i64 (take (el - (length pre + 1)) (drop (length pre + 1) buf)) = Some n
  /\ (el + 2 = length pre + length (sized_line c n))%nat.
Proof.
  intros Hc Hn buf el. unfold sized_line in *. set (ds := nat_to_string n) in *.
  assert (Hel : el = (length pre + 1 + length ds)%nat) by (unfold el; cbn [length]; rewrite length_app; cbn; lia).
  assert (Hd : drop (length pre + 1) buf = ds ++ CRLF ++ rest).
  { unfold buf. rewrite <- drop_drop, drop_app_length. cbn [drop app]. by rewrite <- app_assoc. }
  split; [unfold buf; by rewrite lookup_app_r, Nat.sub_diag by lia |]. split.
  - unfold crlf. rewrite (proj2 (Nat.leb_le _ _)) by (unfold buf; rewrite length_app; lia).
    unfold buf. rewrite drop_app_length, app_comm_cons, <- app_assoc.
    rewrite find_crlf_line; [cbn [fmap option_fmap option_map length]; apply (f_equal Some); rewrite Hel; lia |]. constructor; [done | by apply digits_no_cr; lia].
  - rewrite Hd. replace (el - (length pre + 1))%nat with (length ds) by lia. rewrite take_app_length. split; [by apply parse_size |]. rewrite Hel. cbn [length]. rewrite length_app. cbn. lia.
Qed.

Lemma bulk_length a : length (bulk (Some a)) = (length (sized_line (b8 36) (blen a)) + length a + 2)%nat.
Proof. rewrite bulk_is, !length_app. cbn. lia. Qed.

(** A buffer up to an argument, the argument, and the rest. *)
Lemma args_split pre a args rest : pre ++ args_bytes (a :: args) ++ rest = pre ++ sized_line (b8 36) (blen a) ++ (a ++ CRLF ++ args_bytes args ++ rest).
Proof. unfold args_bytes. cbn [map concat]. rewrite bulk_is, <- !app_assoc. done. Qed.

Lemma args_join pre a args rest : pre ++ args_bytes (a :: args) ++ rest = (pre ++ bulk (Some a)) ++ args_bytes args ++ rest.
Proof. unfold args_bytes. cbn [map concat]. by rewrite <- !app_assoc. Qed.

Lemma frame_args_ok args : forall fuel pre rest header, (length args < fuel)%nat -> Forall (fun a => blen a < 2 ^ 63) args ->
  frame_args fuel (pre ++ args_bytes args ++ rest) (blen args) (length pre) header = Have (length pre + length (args_bytes args)).
Proof.
  induction args as [| a args IH]; intros [| fuel] pre rest header Hf Hl; try (cbn in Hf; lia); cbn [frame_args].
  - cbn. f_equal. lia.
  - apply Forall_cons in Hl as [Ha Hl]. rewrite blen_cons. pose proof (blen_nonneg args). pose proof (blen_nonneg a).
    rewrite (proj2 (Z.leb_gt _ 0)) by lia. rewrite args_split.
    destruct (sized_line_at pre (b8 36) (blen a) (a ++ CRLF ++ args_bytes args ++ rest)) as (H1 & H2 & H3 & H4); [done | lia |].
    rewrite H1. change (negb (u8 (b8 36) =? 36)) with false. cbv iota. rewrite H2, H3, (proj2 (Z.ltb_ge (blen a) 0)) by lia.
    set (el := (length pre + length (sized_line (b8 36) (blen a)) - 2)%nat) in *.
  assert (Hz : blen pre + blen (sized_line (b8 36) (blen a)) = Z.of_nat (el + 2)) by (rewrite H4; unfold blen; lia).
    rewrite (proj2 (Z.ltb_ge _ _)) by (rewrite !blen_app; change (blen CRLF) with 2; pose proof (blen_nonneg (args_bytes args)); pose proof (blen_nonneg rest); lia).
    replace (1 + blen args - 1) with (blen args) by lia. rewrite <- args_split, args_join.
    replace (el + 2 + Z.to_nat (blen a) + 2)%nat with (length (pre ++ bulk (Some a))) by (rewrite length_app, bulk_length; unfold blen at 2; lia).
    rewrite IH by (done || (cbn in Hf; lia)). f_equal. unfold args_bytes. cbn [map concat]. rewrite !length_app. lia.
Qed.

Lemma parse_args_ok args : forall fuel pre rest, (length args < fuel)%nat -> Forall (fun a => blen a < 2 ^ 63) args ->
  parse_args fuel (pre ++ args_bytes args ++ rest) (blen args) (length pre) = Some args.
Proof.
  induction args as [| a args IH]; intros [| fuel] pre rest Hf Hl; try (cbn in Hf; lia); cbn [parse_args]; [done |].
  apply Forall_cons in Hl as [Ha Hl]. rewrite blen_cons. pose proof (blen_nonneg args). pose proof (blen_nonneg a).
  rewrite (proj2 (Z.leb_gt _ 0)) by lia. rewrite args_split.
  destruct (sized_line_at pre (b8 36) (blen a) (a ++ CRLF ++ args_bytes args ++ rest)) as (H1 & H2 & H3 & H4); [done | lia |].
  rewrite H1. change (negb (u8 (b8 36) =? 36)) with false. cbv iota. rewrite H2. cbn [mbind option_bind]. rewrite H3. cbn [mbind option_bind]. rewrite (proj2 (Z.ltb_ge (blen a) 0)) by lia.
  set (el := (length pre + length (sized_line (b8 36) (blen a)) - 2)%nat) in *.
  assert (Hz : blen pre + blen (sized_line (b8 36) (blen a)) = Z.of_nat (el + 2)) by (rewrite H4; unfold blen; lia).
  replace (get_slice _ _ _) with (Some a).
  - cbn [mbind option_bind]. replace (1 + blen args - 1) with (blen args) by lia. rewrite <- args_split, args_join.
    replace (el + 2 + Z.to_nat (blen a) + 2)%nat with (length (pre ++ bulk (Some a))) by (rewrite length_app, bulk_length; unfold blen at 2; lia).
    by rewrite IH by (done || (cbn in Hf; lia)).
  - pose proof (blen_nonneg (args_bytes args)). pose proof (blen_nonneg rest).
    unfold get_slice. rewrite (proj2 (Z.leb_le _ _)), (proj2 (Z.leb_le _ (blen _))) by (rewrite ?blen_app; change (blen CRLF) with 2; lia). cbn [andb].
    replace (Z.to_nat (Z.of_nat (el + 2))) with (length (pre ++ sized_line (b8 36) (blen a))) by (rewrite length_app; lia).
    replace (Z.to_nat (_ - _)) with (length a) by (unfold blen; lia). by rewrite app_assoc, drop_app_length, take_app_length.
Qed.
End RespFacts.

(** A command is understood as it was meant: whatever follows it in the stream, the bytes a client prints for
    its arguments are framed as one command, and parse to the arguments. *)
Theorem resp_command_is_read args rest : args <> [] -> 24 * blen (RespFacts.command args) < 2 ^ 63 ->
  Resp.frame (RespFacts.command args ++ rest) = Have (length (RespFacts.command args)) /\ Resp.parse (RespFacts.command args) = Ok (Some args).
Proof.
  intros Hne Hlen. unfold RespFacts.command in *. set (line := RespFacts.sized_line (b8 42) (blen args)) in *.
  assert (Hargs : (length args <= length (RespFacts.args_bytes args))%nat /\ Forall (fun a => blen a <= blen (RespFacts.args_bytes args)) args).
  { clear. induction args as [| a args [IH1 IH2]]; [done |]. unfold RespFacts.args_bytes in *. cbn [map concat length]. rewrite length_app, RespFacts.bulk_length. split; [lia |].
    constructor; [unfold blen; rewrite length_app, RespFacts.bulk_length; lia |]. eapply Forall_impl; [exact IH2 |]. intros x Hx. cbv beta in Hx. rewrite blen_app.
    pose proof (blen_nonneg (Resp.bulk (Some a))). lia. }
  destruct Hargs as [Hn Hl]. rewrite blen_app in Hlen. pose proof (blen_nonneg line). pose proof (blen_nonneg (RespFacts.args_bytes args)).
  assert (Hsm : Forall (fun a => blen a < 2 ^ 63) args) by (eapply Forall_impl; [exact Hl | cbn; intros; lia]).
  assert (Hpos : 0 < blen args) by (destruct args; [done |]; rewrite blen_cons; pose proof (blen_nonneg args); lia).
  assert (Hn' : blen args <= blen (RespFacts.args_bytes args)) by (unfold blen; lia).
  assert (Hc : blen args < 2 ^ 63) by lia.
  assert (Hhead : forall r, exists t, line ++ r = b8 42 :: t) by (intros r; by eexists).
  assert (Hat : forall r, let el := (length line - 2)%nat in crlf (line ++ r) 0 = Some el /\ parse_i64 (take (el - 1) (drop 1 (line ++ r))) = Some (blen args) /\ (el + 2 = length line)%nat).
  { intros r. destruct (RespFacts.sized_line_at [] (b8 42) (blen args) r) as (_ & H1 & H2 & H3); [done | lia |]. by split_and!. }
  split.
  - rewrite <- app_assoc. destruct (Hat (RespFacts.args_bytes args ++ rest)) as (H1 & H2 & H3). destruct (Hhead (RespFacts.args_bytes args ++ rest)) as [t Et]. unfold Resp.frame. rewrite Et at 1.
    rewrite H1. change (negb (u8 (b8 42) =? 42)) with false. cbv iota. rewrite H2, (proj2 (Z.leb_gt _ _)), H3 by lia.
    rewrite RespFacts.frame_args_ok by (done || rewrite !length_app; lia). by rewrite length_app.
  - destruct (Hat (RespFacts.args_bytes args)) as (H1 & H2 & H3). destruct (Hhead (RespFacts.args_bytes args)) as [t Et]. unfold Resp.parse. rewrite H1. rewrite Et at 1.
    change (negb (u8 (b8 42) =? 42)) with false. cbv iota. rewrite H2, (proj2 (Z.ltb_ge _ _)), H3 by lia.
    unfold Resp.with_capacity. rewrite (proj2 (Z.ltb_ge _ _)) by lia. cbn [mbind outcome_bind]. f_equal.
    rewrite <- (app_nil_r (RespFacts.args_bytes args)) at 2. apply RespFacts.parse_args_ok; [rewrite length_app; lia | done].
Qed.

Lemma resp_command_is_read_witness :
  Resp.frame (RespFacts.command [bstr "SET"; bstr "k"; [b8 13; b8 10]] ++ bstr "*1") = Have (length (RespFacts.command [bstr "SET"; bstr "k"; [b8 13; b8 10]]))
  /\ Resp.parse (RespFacts.command [bstr "SET"; bstr "k"; [b8 13; b8 10]]) = Ok (Some [bstr "SET"; bstr "k"; [b8 13; b8 10]]).
Proof. apply (resp_command_is_read [bstr "SET"; bstr "k"; [b8 13; b8 10]] (bstr "*1")); [discriminate | reflexivity]. Defined.

(** Twenty-three bytes from any client stop the thread that reads them: a count that announces more arguments
    than memory could hold, followed by anything but an argument, is framed as a command, and the vector
    for its arguments is allocated before any is looked at. *)
Definition too_many : bytes := bstr "*9223372036854775807" ++ CRLF.
Lemma announced_count_panics : Resp.frame (too_many ++ bstr "x") = Have (length too_many) /\ Resp.parse too_many = Panic.
Proof. vm_compute. done. Qed.

(** The length of a data block wraps the sum that says where the command ends: the command is framed as
    the next 0 bytes, which are read again and again. *)
Definition endless : bytes := bstr "set k 0 0 18446744073709551582" ++ CRLF.
Lemma announced_length_wraps : Memcache.frame endless = Have 0 /\ Memcache.parse [] = Memcache.CmdError.
Proof. vm_compute. done. Qed.

(** * Compare and swap *)

Module CasFacts.
Import Memcache.

Lemma unpack_pack fl c d : is_u32 fl -> is_u64 c -> unpack (pack fl c d) = Some (fl, c, d).
Proof.
  intros Hf Hc. unfold unpack, pack. rewrite (proj2 (Nat.ltb_ge _ _)) by (rewrite !length_app, !length_to_le; lia).
  rewrite (take_app_length' (to_le 4 fl)), (drop_app_length' (to_le 4 fl)) by by rewrite length_to_le. rewrite (take_app_length' (to_le 8 c)) by by rewrite length_to_le.
  rewrite app_assoc, drop_app_length' by (rewrite length_app, !length_to_le; done). rewrite !from_le_u_to_le; [done | exact Hc | exact Hf].
Qed.

(** The values of [A'] are those of [A], or [v] under the key. *)
Definition comes_from (A A' : amap) (key : bytes * bytes) (v : option bytes) : Prop :=
  forall p cell', A' !! p = Some cell' -> (exists cell, A !! p = Some cell /\ c_val cell = c_val cell') \/ (p = key /\ v = Some (c_val cell')).

Lemma comes_refl A key v : comes_from A A key v.
Proof. intros p cell H. left. by exists cell. Qed.

Lemma comes_trans A B C key v : comes_from A B key None -> comes_from B C key v -> comes_from A C key v.
Proof.
  intros H1 H2 p cell H. destruct (H2 p cell H) as [(c1 & Hc1 & E1) | ?]; [| by right].
  destruct (H1 p c1 Hc1) as [(c2 & Hc2 & E2) | [_ ?]]; [| done]. left. exists c2. split; [done | congruence].
Qed.

Lemma comes_delete A p key v : comes_from A (delete p A) key v.
Proof. intros q cell [_ H]%lookup_delete_Some. left. by exists cell. Qed.

Lemma comes_insert A key v cell : c_val cell = v -> comes_from A (<[key := cell]> A) key (Some v).
Proof. intros <- p c [[-> <-] | [_ H]]%lookup_insert_Some; [by right | left; by exists c]. Qed.

Lemma comes_find cfgs now m k A key : comes_from A (a_find cfgs now m k A).1 key None.
Proof.
  unfold a_find. destruct (A !! (m, k)) as [c |] eqn:E; [| apply comes_refl]. destruct (cell_expired cfgs m c now); [apply comes_delete |]. cbn [fst].
  intros p c' [[<- <-] | [_ H]]%lookup_insert_Some; left; [by exists c | by exists c'].
Qed.

Lemma comes_evicted cfgs m A B C key v : comes_from A B key v -> evicted cfgs m B C -> comes_from A C key v.
Proof. intros H [-> | (cfg & k & _ & _ & _ & _ & ->)]; [done |]. intros p c [_ Hp]%lookup_delete_Some. by apply H. Qed.

Lemma comes_put cfgs now m k v ttl st A : comes_from A (a_put cfgs now m k v ttl st A).1 (m, k) (Some v).
Proof. unfold a_put. destruct (A !! (m, k)); by apply comes_insert. Qed.

(** [issued]: the values stored so far, by token. *)
Record tokens_ok (issued : gmap Z bytes) (ctr : Z) (A : amap) : Prop := {
  to_cells : forall k cell, A !! (MAP, k) = Some cell -> exists fl c d, c_val cell = pack fl c d /\ is_u32 fl /\ is_u64 c /\ blen d <= MAX_VALUE /\ issued !! c = Some (c_val cell);
  to_issued : forall c b, issued !! c = Some b -> 0 < c <= ctr
}.

Lemma tokens_sub issued ctr A A' key : comes_from A A' key None -> tokens_ok issued ctr A -> tokens_ok issued ctr A'.
Proof. intros H [H1 H2]. split; [| done]. intros k cell Hc. destruct (H _ _ Hc) as [(c0 & Hc0 & <-) | [_ ?]]; [by apply (H1 k) | done]. Qed.

(** A new value takes a token that no value has had. *)
Lemma tokens_new issued ctr A A' m k fl d : 0 <= ctr < 2 ^ 64 - 1 -> is_u32 fl -> blen d <= MAX_VALUE ->
  comes_from A A' (m, k) (Some (pack fl (wrap_u64 (ctr + 1)) d)) -> tokens_ok issued ctr A ->
  wrap_u64 (ctr + 1) = ctr + 1 /\ issued ⊆ <[ctr + 1 := pack fl (ctr + 1) d]> issued /\ tokens_ok (<[ctr + 1 := pack fl (ctr + 1) d]> issued) (ctr + 1) A'.
Proof.
  intros Hc Hf Hd H [H1 H2]. rewrite wrap_u64_small in * by (unfold is_u64; lia).
  assert (Hnew : issued !! (ctr + 1) = None). { destruct (issued !! (ctr + 1)) as [b |] eqn:E; [| done]. apply H2 in E. lia. }
  split; [done |]. split; [by apply insert_subseteq |]. split.
  - intros k' cell Hk. destruct (H _ _ Hk) as [(c0 & Hc0 & <-) | [_ [= <-]]].
    + destruct (H1 _ _ Hc0) as (fl' & c' & d' & E & ? & ? & ? & Hi). exists fl', c', d'. split_and!; try done. rewrite lookup_insert_ne; [done |]. intros <-. congruence.
    + exists fl, (ctr + 1), d. unfold is_u64. split_and!; try (done || lia). by rewrite lookup_insert_eq.
  - intros c b [[<- _] | [_ Hcb]]%lookup_insert_Some; [lia |]. apply H2 in Hcb. lia.
Qed.

Section Run.
Context {Schemas : Type} (extract : bytes -> Schemas -> bytes -> FieldValue) (schemas : Schemas) {X : MapStore} (cfgs : gmap bytes MapConfig).

Definition mc_inv (issued : gmap Z bytes) (ctr n t : Z) (s : Store) : Prop := exists A, store_ok extract schemas cfgs n t A s /\ tokens_ok issued ctr A.

(** A value that was read has the token it was stored under. *)
Definition read_ok (issued : gmap Z bytes) (v : option bytes) : Prop :=
  forall blob, v = Some blob -> exists fl tok d, unpack blob = Some (fl, tok, d) /\ blen d <= MAX_VALUE /\ blen blob = 12 + blen d /\ issued !! tok = Some blob.

Lemma live_read issued ctr A now k : tokens_ok issued ctr A -> read_ok issued (live cfgs now A MAP k).
Proof.
  intros [H _] blob Hl. unfold live in Hl. destruct (A !! (MAP, k)) as [c |] eqn:E; [| done]. cbn [mbind option_bind] in Hl. destruct (cell_expired _ _ _ _); [done |]. injection Hl as <-.
  destruct (H k c E) as (fl & tok & d & -> & ? & ? & ? & ?). exists fl, tok, d. rewrite unpack_pack by done. split_and!; try done.
  unfold pack. rewrite !blen_app, !blen_to_le. lia.
Qed.

Section Step.
Context (issued : gmap Z bytes) (ctr n t : Z) (s : Store) (c : clocks).
Context (Hinv : mc_inv issued ctr n t s) (Hn0 : 0 <= n) (Hn : n + 2 <= 2 ^ 31) (Ht : t <= now_ms c).

Lemma event_step call : scall_ok call -> exists s' r A A', serve_store extract schemas no_text ex_iter (mk_sevent c call) s = Ok (s', r) /\ tokens_ok issued ctr A
  /\ a_store extract schemas no_text cfgs (s_member_id s) (mk_sevent c call) A (s_stamp_seq s) A' (s_stamp_seq s') r /\ store_ok extract schemas cfgs (n + 2) (now_ms c) A' s'.
Proof using Hinv Hn0 Hn Ht.
  intros Hok. destruct Hinv as (A & Hs & Htok). pose proof (serve_store_ok extract schemas no_text ex_iter ex_iter_elements cfgs n t A s (mk_sevent c call) Hs Hn0 Hn Ht Hok) as H.
  apply post_Ok in H as ([s' r] & E & A' & Ha & Hs' & _). by exists s', r, A, A'.
Qed.

Lemma get_step k : exists s' v, get extract schemas c MAP k s = Ok (s', v) /\ mc_inv issued ctr (n + 2) (now_ms c) s' /\ read_ok issued v.
Proof using Hinv Hn0 Hn Ht.
  destruct (event_step (SGet MAP k) I) as (s' & r & A & A' & E & Htok & (_ & Ha & Hr) & Hs'). unfold serve_store in E. cbn [se_call se_clocks] in E.
  apply outcome_bind_Ok in E as ([s1 v] & E & [= <- <-]). exists s1, v. injection Hr as ->. split; [done |]. split; [| by eapply live_read].
  exists A'. split; [done |]. rewrite Ha. eapply tokens_sub; [apply (comes_find _ _ _ _ _ (MAP, k)) | done].
Qed.

Lemma mc_remove_step k : exists s' v, remove extract schemas c MAP k s = Ok (s', v) /\ mc_inv issued ctr (n + 2) (now_ms c) s'.
Proof using Hinv Hn0 Hn Ht.
  destruct (event_step (SRemove MAP k) I) as (s' & r & A & A' & E & Htok & (_ & Ha & Hr) & Hs'). unfold serve_store in E. cbn [se_call se_clocks] in E.
  apply outcome_bind_Ok in E as ([s1 v] & E & [= <- <-]). exists s1, v. split; [done |]. exists A'. split; [done |]. rewrite Ha. eapply tokens_sub; [apply (comes_delete _ _ (MAP, k)) | done].
Qed.

Lemma clear_step : exists s', clear MAP s = Ok s' /\ mc_inv issued ctr (n + 2) (now_ms c) s'.
Proof using Hinv Hn0 Hn Ht.
  destruct (event_step (SClear MAP) I) as (s' & r & A & A' & E & Htok & (_ & Ha & Hr) & Hs'). unfold serve_store in E. cbn [se_call se_clocks] in E.
  apply outcome_bind_Ok in E as (s1 & E & [= <- <-]). exists s1. split; [done |]. exists A'. split; [done |]. destruct Htok as [H1 H2]. split; [| done].
  intros k cell Hk. rewrite Ha in Hk. apply map_lookup_filter_Some in Hk as [_ Hk]. done.
Qed.

Lemma put_step k fl d ttl : 0 <= ctr < 2 ^ 64 - 1 -> is_u32 fl -> blen d <= MAX_VALUE -> blen k <= MAX_KEY ->
  exists s' v, put_ttl extract schemas c MAP k (pack fl (wrap_u64 (ctr + 1)) d) ttl s = Ok (s', v)
    /\ wrap_u64 (ctr + 1) = ctr + 1 /\ mc_inv (<[ctr + 1 := pack fl (ctr + 1) d]> issued) (ctr + 1) (n + 2) (now_ms c) s' /\ issued ⊆ <[ctr + 1 := pack fl (ctr + 1) d]> issued.
Proof using Hinv Hn0 Hn Ht.
  intros Hc Hf Hd Hk. destruct (event_step (SPutTtl MAP k (pack fl (wrap_u64 (ctr + 1)) d) ttl)) as (s' & r & A & A' & E & Htok & (_ & Ha & Hr) & Hs').
  { cbn [scall_ok]. unfold pack. rewrite !blen_app, !blen_to_le. unfold MAX_KEY, MAX_VALUE in *. lia. }
  unfold serve_store in E. cbn [se_call se_clocks] in E. apply outcome_bind_Ok in E as ([s1 v] & E & [= <- <-]). exists s1, v. split; [done |].
  destruct (tokens_new issued ctr A A' MAP k fl d Hc Hf Hd) as (Ew & Hsub & Ht'); [eapply comes_evicted; [apply comes_put | exact Ha] | done |].
  split; [done |]. split; [by exists A' | done].
Qed.

Lemma mc_update_as {R} k (F : option bytes -> McAction * R) (f : option bytes -> McAction) s' cur :
  mc_update extract schemas c MAP k (fun cur => (f cur, cur)) s = Ok (s', cur) -> (F cur).1 = f cur -> mc_update extract schemas c MAP k F s = Ok (s', (F cur).2).
Proof using Type.
  unfold mc_update. destruct (next_stamp c s) as [s0 st]. unfold on_shard. intros H HF. apply outcome_bind_Ok in H as (x & Ex & H). rewrite Ex. cbn [mbind outcome_bind].
  apply outcome_bind_Ok in H as ([x' cur'] & E & [= <- <-]). apply outcome_bind_Ok in E as ([x1 cur1] & E1 & E). rewrite E1. cbn [mbind outcome_bind].
  assert (cur' = cur1) as -> by (destruct (f cur1); inv_ok; repeat case_match; inv_ok; congruence).
  destruct (F cur1) as [a r]. cbn [fst snd] in *. subst a. destruct (f cur1) as [v ttl | |]; [| | by injection E as <-];
    (apply outcome_bind_Ok in E as ([x2 r2] & E2 & [= <-]); rewrite E2; done).
Qed.

(** What a conditional update may store: a value under the next token, or the one that is there. *)
Definition may_store (F : McAction) (cur : option bytes) : Prop :=
  match F with
  | McStore v _ => (exists fl d, v = pack fl (wrap_u64 (ctr + 1)) d /\ is_u32 fl /\ blen d <= MAX_VALUE) \/ cur = Some v
  | _ => True
  end.

Definition stores_new (F : McAction) (cur : option bytes) : bool := match F with McStore v _ => negb (bool_decide (cur = Some v)) | _ => false end.

Lemma update_step {R} k (F : option bytes -> McAction * R) : 0 <= ctr < 2 ^ 64 - 1 -> blen k <= MAX_KEY -> (forall cur, may_store (F cur).1 cur) ->
  exists s' cur issued', mc_update extract schemas c MAP k F s = Ok (s', (F cur).2) /\ read_ok issued cur
    /\ (forall s'' v, get extract schemas c MAP k s = Ok (s'', v) -> v = cur)
    /\ issued ⊆ issued' /\ mc_inv issued' (if stores_new (F cur).1 cur then ctr + 1 else ctr) (n + 2) (now_ms c) s'.
Proof using Hinv Hn0 Hn Ht.
  intros Hc Hk HF. destruct Hinv as (A & Hs & Htok).
  set (f := fun cur => match (F cur).1 with McStore v _ as a => if blen k + blen v <? 2 ^ 32 then a else McKeep | a => a end).
  pose proof (serve_store_ok extract schemas no_text ex_iter ex_iter_elements cfgs n t A s (mk_sevent c (SMcUpdate MAP k f)) Hs Hn0 Hn Ht) as H.
  apply post_Ok in H as ([s1 r1] & E1 & A' & Ha & Hs' & _); [| intros cur; unfold f; destruct (F cur).1 as [v ttl | |]; [| done..]; by destruct (Z.ltb_spec (blen k + blen v) (2 ^ 32))].
  unfold serve_store in E1. cbn [se_call se_clocks] in E1. apply outcome_bind_Ok in E1 as ([s2 cur] & E1 & [= <- <-]).
  cbn [a_store se_call se_clocks fst snd] in Ha. destruct Ha as (_ & A1 & cur' & (HA1 & Hcur) & [= <-] & Hact). injection Hcur as Hcur.
  pose proof (live_read issued ctr A (now_ms c) k Htok) as Hread. cbn [as_event ev_now] in Hcur. rewrite <- Hcur in Hread.
  assert (HA1' : comes_from A A1 (MAP, k) None) by (rewrite HA1; apply comes_find).
  assert (Hf : f cur = (F cur).1).
  { unfold f. specialize (HF cur). destruct (F cur).1 as [v ttl | |]; [| done..]. rewrite (proj2 (Z.ltb_lt _ _)); [done |]. unfold MAX_KEY, MAX_VALUE in *.
    destruct HF as [(fl & d & -> & _ & Hd) | ->]; [unfold pack; rewrite !blen_app, !blen_to_le; unfold MAX_VALUE in *; lia |].
    destruct (Hread v eq_refl) as (_ & _ & d & _ & Hd & Hb & _). unfold MAX_VALUE in *. lia. }
  rewrite Hf in Hact. specialize (HF cur). exists s2, cur.
  assert (Hget : forall s'' v, get extract schemas c MAP k s = Ok (s'', v) -> v = cur).
  { intros s'' v Eg. pose proof (serve_store_ok extract schemas no_text ex_iter ex_iter_elements cfgs n t A s (mk_sevent c (SGet MAP k)) Hs Hn0 Hn Ht I) as H.
    unfold serve_store in H. cbn [se_call se_clocks] in H. rewrite Eg in H. cbn [mbind outcome_bind post] in H. destruct H as (A2 & (_ & _ & [= ->]) & _). by rewrite Hcur. }
  assert (Hrun : mc_update extract schemas c MAP k F s = Ok (s2, (F cur).2)) by (by eapply mc_update_as).
  assert (Hsame : forall A2, comes_from A1 A2 (MAP, k) cur -> comes_from A A2 (MAP, k) None).
  { intros A2 H2 p cell Hp. destruct (H2 p cell Hp) as [(c1 & Hc1 & Ec1) | [-> E]].
    - destruct (HA1' p c1 Hc1) as [(c2 & Hc2 & Ec2) | [_ ?]]; [| done]. left. exists c2. split; [done | congruence].
    - left. rewrite E in Hcur. symmetry in Hcur. unfold live in Hcur. destruct (A !! (MAP, k)) as [c0 |]; [| done]. cbn [mbind option_bind] in Hcur. destruct (cell_expired _ _ _ _); [done |]. injection Hcur as Hv. by exists c0. }
  destruct (F cur).1 as [v ttl | |] eqn:EF; cbn [stores_new may_store] in *.
  - destruct Hact as (r0 & Hev & _). destruct (bool_decide_reflect (cur = Some v)) as [Heq | Hne]; cbn [negb].
    + exists issued. split_and!; try done. exists A'. split; [done |]. eapply tokens_sub; [apply Hsame | done]. rewrite Heq. eapply comes_evicted; [apply comes_put | exact Hev].
    + destruct HF as [(fl & d & -> & Hfl & Hd) | ?]; [| done].
      destruct (tokens_new issued ctr A A' MAP k fl d Hc Hfl Hd) as (Ew & Hsub & Ht'); [| done |].
      { eapply comes_trans; [exact HA1' |]. eapply comes_evicted; [apply comes_put | exact Hev]. }
      exists (<[ctr + 1 := pack fl (ctr + 1) d]> issued). split_and!; try done. by exists A'.
  - destruct Hact as (r0 & -> & _). exists issued. split_and!; try done. eexists. split; [done |]. eapply tokens_sub; [eapply comes_trans; [exact HA1' | apply comes_delete] | done].
  - exists issued. split_and!; try done. exists A1. rewrite Hact in Hs'. split; [done |]. by eapply tokens_sub.
Qed.
End Step.

(** What every parsed command satisfies. *)
Definition cmd_ok (cmd : Command) : Prop :=
  match cmd with
  | CmdStore _ key flags _ _ _ _ => blen key <= MAX_KEY /\ is_u32 flags
  | CmdTouch key _ _ => blen key <= MAX_KEY
  | _ => True
  end.
(** The number of calls of the store. *)
Definition cost (cmd : Command) : Z := match cmd with CmdGet keys _ => blen keys | _ => 1 end.

Lemma new_token_unused issued ctr n t s cur fl d : mc_inv issued ctr n t s -> 0 <= ctr < 2 ^ 64 - 1 -> is_u32 fl -> read_ok issued cur -> cur <> Some (pack fl (wrap_u64 (ctr + 1)) d).
Proof.
  intros (A & _ & [_ H]) Hc Hf Hr E. rewrite wrap_u64_small in E by (unfold is_u64; lia). destruct (Hr _ E) as (fl' & tok & d' & Hu & _ & _ & Hi).
  rewrite unpack_pack in Hu by (done || unfold is_u64; lia). injection Hu as <- <- <-. apply H in Hi. lia.
Qed.

Lemma mc_inv_mono issued ctr n t n' t' s : n <= n' -> t <= t' -> mc_inv issued ctr n t s -> mc_inv issued ctr n' t' s.
Proof. intros Hn Ht (A & Hs & Htok). exists A. split; [by eapply store_ok_mono | done]. Qed.

Lemma get_values_step c keys with_cas : forall issued ctr n t s, mc_inv issued ctr n t s -> 0 <= n -> n + 2 * blen keys <= 2 ^ 31 -> t <= now_ms c ->
  exists s' out, get_values extract schemas c keys with_cas s = Ok (s', out) /\ mc_inv issued ctr (n + 2 * blen keys) (now_ms c) s'.
Proof.
  induction keys as [| k keys IH]; intros issued ctr n t s Hi Hn0 Hn Ht; cbn [get_values].
  - eexists _, _. split; [done |]. eapply mc_inv_mono; [| | exact Hi]; [change (blen []) with 0; lia | done].
  - rewrite blen_cons in *. pose proof (blen_nonneg keys). destruct (get_step issued ctr n t s c Hi Hn0 ltac:(lia) Ht k) as (s1 & v & -> & Hi1 & _). cbn [mbind outcome_bind].
    destruct (IH issued ctr (n + 2) (now_ms c) s1 Hi1) as (s2 & out & -> & Hi2); [lia | lia | lia |]. cbn [mbind outcome_bind]. eexists _, _. split; [done |].
    by replace (n + 2 * (1 + blen keys)) with (n + 2 + 2 * blen keys) by lia.
Qed.

Definition advances (issued : gmap Z bytes) (ctr n t : Z) (res : Store * Z) : Prop :=
  exists issued', issued ⊆ issued' /\ mc_inv issued' res.2 n t res.1 /\ ctr <= res.2 <= ctr + 1.

Lemma store_step c now_unix op key flags exptime cas data issued ctr n t s : mc_inv issued ctr n t s -> 0 <= n -> n + 2 <= 2 ^ 31 -> t <= now_ms c -> 0 <= ctr < 2 ^ 64 - 1 ->
  blen key <= MAX_KEY -> is_u32 flags ->
  exists s' ctr' r, execute_store extract schemas c now_unix op key flags exptime cas data s ctr = Ok (s', ctr', r) /\ advances issued ctr (n + 2) (now_ms c) (s', ctr')
    /\ (op = OpCas -> r = STORED -> exists blob, (forall s'' v, get extract schemas c MAP key s = Ok (s'', v) -> v = Some blob) /\ read_ok issued (Some blob)
         /\ exists fl d, unpack blob = Some (fl, cas, d)).
Proof.
  intros Hi Hn0 Hn Ht Hc Hk Hf. unfold execute_store. destruct (Z.ltb_spec MAX_VALUE (blen data)) as [Hd | Hd].
  { eexists _, _, _. split; [done |]. split; [exists issued; split_and!; try done; try (cbn; lia); eapply mc_inv_mono; [| | exact Hi]; lia | done]. }
  set (ttl := classify_exptime exptime now_unix). set (expired := match ttl with Past => true | _ => false end). set (ms := match ttl with Ms m => m | _ => 0 end).
  set (blob := pack flags (wrap_u64 (ctr + 1)) data).
  assert (Hupd : forall o, o <> OpSet -> exists s' ctr' r, ('(s, (stores, reply)) ← mc_update extract schemas c MAP key
      (fun cur => let '(a, r) := update o cas expired blob ms cur in (a, (match a with McStore _ _ => true | _ => false end, r))) s;
      Ok (s, if stores : bool then wrap_u64 (ctr + 1) else ctr, reply)) = Ok (s', ctr', r) /\ advances issued ctr (n + 2) (now_ms c) (s', ctr')
      /\ exists cur, r = (update o cas expired blob ms cur).2 /\ read_ok issued cur /\ forall s'' v, get extract schemas c MAP key s = Ok (s'', v) -> v = cur).
  { intros o _. edestruct (update_step issued ctr n t s c Hi Hn0 Hn Ht key (fun cur => let '(a, r) := update o cas expired blob ms cur in (a, (match a with McStore _ _ => true | _ => false end, r))) Hc Hk)
      as (s' & cur & issued' & -> & Hr & Hg & Hsub & Hi').
    { intros cur. unfold update. repeat case_match; simplify_eq; try done; left; by exists flags, data. }
    destruct (update o cas expired blob ms cur) as [a r] eqn:Eu. cbn [fst snd mbind outcome_bind] in *. eexists _, _, _. split; [done |]. split; [| by exists cur; rewrite Eu].
    assert (Hst : stores_new a cur = match a with McStore _ _ => true | _ => false end).
    { destruct a as [v m | |]; [| done..]. cbn. apply negb_true_iff, bool_decide_eq_false_2. unfold update in Eu. intros Ecur. apply (new_token_unused issued ctr n t s cur flags data Hi Hc Hf Hr).
      rewrite Ecur. f_equal. repeat case_match; simplify_eq; done. }
    rewrite Hst in Hi'. exists issued'. cbn [fst snd]. destruct a as [v m | |]; cbv iota in *; rewrite ?wrap_u64_small by (unfold is_u64; lia); split_and!; try done; lia. }
  destruct op.
  - destruct expired.
    + destruct (mc_remove_step issued ctr n t s c Hi Hn0 Hn Ht key) as (s' & v & -> & Hi'). cbn [mbind outcome_bind]. eexists _, _, _. split; [done |]. split; [exists issued; split_and!; try done; cbn; lia | done].
    + destruct (put_step issued ctr n t s c Hi Hn0 Hn Ht key flags data ms Hc Hf Hd Hk) as (s' & v & E & Ew & Hi' & Hsub). unfold blob. rewrite E. cbn [mbind outcome_bind]. eexists _, _, _. split; [done |].
      split; [| done]. eexists. split; [exact Hsub |]. cbn [fst snd]. rewrite Ew. split; [done | lia].
  - destruct (Hupd OpAdd ltac:(done)) as (s' & ctr' & r & -> & Ha & _). by eexists _, _, _.
  - destruct (Hupd OpReplace ltac:(done)) as (s' & ctr' & r & -> & Ha & _). by eexists _, _, _.
  - destruct (Hupd OpCas ltac:(done)) as (s' & ctr' & r & -> & Ha & cur & -> & Hr & Hg). eexists _, _, _. split; [done |]. split; [done |]. intros _ Hst.
    unfold update in Hst. destruct cur as [b |]; cbn [mbind option_bind] in Hst; [| done]. destruct (unpack b) as [[[fl tok] d] |] eqn:Eu; [| done].
    destruct (Z.eqb_spec tok cas) as [-> |]; [| done]. exists b. split_and!; [done | done | by eauto].
Qed.

Lemma touch_step c ttl key issued ctr n t s : mc_inv issued ctr n t s -> 0 <= n -> n + 2 <= 2 ^ 31 -> t <= now_ms c -> 0 <= ctr < 2 ^ 64 - 1 -> blen key <= MAX_KEY ->
  exists s' r, mc_update extract schemas c MAP key (touch ttl) s = Ok (s', r) /\ advances issued ctr (n + 2) (now_ms c) (s', ctr).
Proof.
  intros Hi Hn0 Hn Ht Hc Hk. destruct (update_step issued ctr n t s c Hi Hn0 Hn Ht key (touch ttl) Hc Hk) as (s' & cur & issued' & E & Hr & _ & Hsub & Hi').
  { intros [b |]; [| done]. unfold touch, may_store. destruct ttl; cbn; auto. }
  exists s', (touch ttl cur).2. split; [done |]. exists issued'. cbn [fst snd]. split; [done |]. split; [| lia].
  replace (stores_new (touch ttl cur).1 cur) with false in Hi'; [done |]. unfold touch. destruct cur as [b |]; [| done]. destruct ttl; cbn; by rewrite ?bool_decide_eq_true_2.
Qed.

Lemma execute_step c now_unix version cmd issued ctr n t s : cmd_ok cmd -> mc_inv issued ctr n t s -> 0 <= n -> n + 2 * cost cmd <= 2 ^ 31 -> t <= now_ms c -> 0 <= ctr < 2 ^ 64 - 1 ->
  exists s' ctr' r, execute extract schemas c now_unix version cmd s ctr = Ok (s', ctr', r) /\ advances issued ctr (n + 2 * cost cmd) (now_ms c) (s', ctr').
Proof.
  intros Hok Hi Hn0 Hn Ht Hc. assert (0 <= cost cmd) by (destruct cmd; cbn [cost]; try lia; apply blen_nonneg).
  assert (Hsame : advances issued ctr (n + 2 * cost cmd) (now_ms c) (s, ctr)). { exists issued. split_and!; try done; try (cbn; lia). eapply mc_inv_mono; [| | exact Hi]; cbn; lia. }
  destruct cmd; cbn [execute cost cmd_ok] in *; try (by eexists _, _, _); change (2 * 1) with 2 in *.
  - destruct (get_values_step c keys with_cas issued ctr n t s Hi Hn0 Hn Ht) as (s' & out & -> & Hi'). cbn [mbind outcome_bind]. eexists _, _, _. split; [done |].
    exists issued. split_and!; try done; cbn; lia.
  - destruct Hok as [Hk Hf]. destruct (store_step c now_unix op key flags exptime cas data issued ctr n t s Hi Hn0 Hn Ht Hc Hk Hf) as (s' & ctr' & r & -> & Ha & _). by eexists _, _, _.
  - destruct (mc_remove_step issued ctr n t s c Hi Hn0 Hn Ht key) as (s' & v & -> & Hi'). cbn [mbind outcome_bind]. eexists _, _, _. split; [done |]. exists issued. split_and!; try done; cbn; lia.
  - destruct (touch_step c (classify_exptime exptime now_unix) key issued ctr n t s Hi Hn0 Hn Ht Hc Hok) as (s' & r & -> & Ha). by eexists _, _, _.
  - destruct (clear_step issued ctr n t s c Hi Hn0 Hn Ht) as (s' & -> & Hi'). cbn [mbind outcome_bind]. eexists _, _, _. split; [done |]. exists issued. split_and!; try done; cbn; lia.
Qed.

(** Commands as they arrive, each at a time of its own. *)
Record arrival := mk_arrival { at_clock : clocks; at_unix : Z; at_bytes : bytes }.

Fixpoint mc_serve (version : bytes) (l : list arrival) (s : Store) (ctr : Z) : outcome (Store * Z) :=
  match l with
  | [] => Ok (s, ctr)
  | a :: l => '(s, ctr, _) ← execute extract schemas (at_clock a) (at_unix a) version (parse (at_bytes a)) s ctr; mc_serve version l s ctr
  end.

Fixpoint in_time_from (t : Z) (l : list arrival) : Prop := match l with [] => True | a :: l => t <= now_ms (at_clock a) /\ in_time_from (now_ms (at_clock a)) l end.
Fixpoint end_of (t : Z) (l : list arrival) : Z := match l with [] => t | a :: l => end_of (now_ms (at_clock a)) l end.
Definition costs (l : list arrival) : Z := foldr (fun a n => cost (parse (at_bytes a)) + n) 0 l.

Lemma costs_nonneg l : 0 <= costs l.
Proof. induction l as [| a l IH]; [done |]. cbn [costs foldr]. fold (costs l). destruct (parse (at_bytes a)); cbn [cost]; try lia. pose proof (blen_nonneg keys). lia. Qed.

Lemma in_bounds_some lo hi z v : in_bounds lo hi z = Some v -> v = z /\ lo <= z <= hi.
Proof. unfold in_bounds. destruct (_ && _) eqn:E; [| done]. intros [= <-]. lia. Qed.

Lemma parse_cmd_ok cmd : cmd_ok (parse cmd).
Proof.
  assert (Hkey : forall k, valid_key k = true -> blen k <= MAX_KEY). { intros k. unfold valid_key. rewrite !andb_true_iff. intros [[_ H] _]. lia. }
  assert (Hst : forall e v toks, cmd_ok (parse_storage cmd e v toks)).
  { intros e v toks. unfold parse_storage. repeat case_match; try done; cbn;
      match goal with Hv : negb (valid_key _) = false, Hf : parse_u32 _ = Some _ |- _ =>
        apply negb_false_iff in Hv; unfold parse_u32 in Hf; apply bind_Some in Hf as (x & _ & [-> Hb]%in_bounds_some); split; [by apply Hkey | unfold is_u32; lia] end. }
  unfold parse. repeat case_match; try done; try apply Hst; cbn; try apply Hkey; by apply negb_false_iff.
Qed.

Lemma mc_serve_ok version l : forall issued ctr n t s, mc_inv issued ctr n t s -> in_time_from t l -> 0 <= n -> n + 2 * costs l <= 2 ^ 31 -> 0 <= ctr -> ctr + blen l < 2 ^ 64 - 1 ->
  exists s' ctr' issued', mc_serve version l s ctr = Ok (s', ctr') /\ issued ⊆ issued' /\ mc_inv issued' ctr' (n + 2 * costs l) (end_of t l) s' /\ ctr <= ctr' <= ctr + blen l.
Proof.
  induction l as [| a l IH]; intros issued ctr n t s Hi Ht Hn0 Hn Hc0 Hc; cbn [mc_serve end_of in_time_from] in *.
  - exists s, ctr, issued. change (costs []) with 0. replace (n + 2 * 0) with n by lia. split_and!; try done; rewrite ?blen_nil; lia.
  - destruct Ht as [Ha Ht]. rewrite blen_cons in *. cbn [costs foldr] in *. fold (costs l) in *. pose proof (costs_nonneg l). pose proof (blen_nonneg l). set (cmd := parse (at_bytes a)) in *.
    assert (0 <= cost cmd) by (destruct cmd; cbn [cost]; try lia; apply blen_nonneg).
    destruct (execute_step (at_clock a) (at_unix a) version cmd issued ctr n t s (parse_cmd_ok _) Hi Hn0 ltac:(lia) Ha ltac:(lia)) as (s1 & ctr1 & r & -> & issued1 & Hsub1 & Hi1 & Hc1).
    cbn [mbind outcome_bind fst snd] in *. destruct (IH issued1 ctr1 (n + 2 * cost cmd) _ s1 Hi1 Ht) as (s2 & ctr2 & issued2 & -> & Hsub2 & Hi2 & Hc2); [lia.. |].
    exists s2, ctr2, issued2. split; [done |]. split; [by etrans |]. split; [| lia]. by replace (n + 2 * (cost cmd + costs l)) with (n + 2 * cost cmd + 2 * costs l) by lia.
Qed.
End Run.
End CasFacts.

(** C30. A compare-and-swap succeeds only on the value that was read: however many commands of whatever kind are
    served between a read and a swap with the token that was read, if the swap is answered with
    STORED, the value it replaced is the one that was read, flags and data. *)
Theorem cas_replaces_what_was_read {Schemas} extract (schemas : Schemas) {X : MapStore} n member cfgs version l1 l2 k c1 c2 now_unix flags exptime data :
  (0 < n)%nat -> 2 * (CasFacts.costs l1 + CasFacts.costs l2 + 2) <= 2 ^ 31 -> blen l1 + blen l2 < 2 ^ 64 - 2 ->
  CasFacts.in_time_from 0 l1 -> CasFacts.end_of 0 l1 <= now_ms c1 -> CasFacts.in_time_from (now_ms c1) l2 -> CasFacts.end_of (now_ms c1) l2 <= now_ms c2 ->
  blen k <= Memcache.MAX_KEY -> is_u32 flags ->
  exists s0 s1 ctr1 s1' read s2 ctr2, store0 n member cfgs = Ok s0 /\ CasFacts.mc_serve extract schemas version l1 s0 0 = Ok (s1, ctr1)
    /\ get extract schemas c1 Memcache.MAP k s1 = Ok (s1', read) /\ CasFacts.mc_serve extract schemas version l2 s1' ctr1 = Ok (s2, ctr2)
    /\ forall blob fl tok d, read = Some blob -> Memcache.unpack blob = Some (fl, tok, d) ->
         exists s3 ctr3 r, Memcache.execute_store extract schemas c2 now_unix Memcache.OpCas k flags exptime tok data s2 ctr2 = Ok (s3, ctr3, r)
           /\ (r = Memcache.STORED -> exists s2', get extract schemas c2 Memcache.MAP k s2 = Ok (s2', Some blob)).
Proof.
  intros Hn Hcost Hl Ht1 Hc1 Ht2 Hc2 Hk Hf. destruct (store0_ok extract schemas n member cfgs 0 Hn) as (s0 & E0 & Hs0 & _).
  set (cf := configs (shard0 cfgs)) in *. pose proof (CasFacts.costs_nonneg l1). pose proof (CasFacts.costs_nonneg l2). pose proof (blen_nonneg l1). pose proof (blen_nonneg l2).
  assert (Hi0 : CasFacts.mc_inv extract schemas cf ∅ 0 0 0 s0) by (exists ∅; split; [done |]; split; [intros k' cell; by rewrite lookup_empty | intros tok b; by rewrite lookup_empty]).
  destruct (CasFacts.mc_serve_ok extract schemas cf version l1 ∅ 0 0 0 s0 Hi0 Ht1) as (s1 & ctr1 & is1 & E1 & _ & Hi1 & Hctr1); [lia.. |].
  destruct (CasFacts.get_step extract schemas cf is1 ctr1 _ _ s1 c1 Hi1 ltac:(lia) ltac:(lia) Hc1 k) as (s1' & read & Eg & Hi1' & Hread).
  destruct (CasFacts.mc_serve_ok extract schemas cf version l2 is1 ctr1 _ (now_ms c1) s1' Hi1' Ht2) as (s2 & ctr2 & is2 & E2 & Hsub & Hi2 & Hctr2); [lia.. |].
  exists s0, s1, ctr1, s1', read, s2, ctr2. split_and!; try done. intros blob fl tok d -> Hu.
  destruct (CasFacts.store_step extract schemas cf c2 now_unix Memcache.OpCas k flags exptime tok data is2 ctr2 _ _ s2 Hi2 ltac:(lia) ltac:(lia) Hc2 ltac:(lia) Hk Hf) as (s3 & ctr3 & r & E3 & _ & Hcas).
  exists s3, ctr3, r. split; [done |]. intros Hr. destruct (Hcas eq_refl Hr) as (blob' & Hg & Hr' & fl' & d' & Hu').
  destruct (CasFacts.get_step extract schemas cf is2 ctr2 _ _ s2 c2 Hi2 ltac:(lia) ltac:(lia) Hc2 k) as (s2' & v & Eg2 & _ & _). exists s2'. rewrite Eg2. rewrite (Hg _ _ Eg2).
  destruct (Hread blob eq_refl) as (fl0 & tok0 & d0 & E & _ & _ & Hi). rewrite Hu in E. injection E as <- <- <-.
  destruct (Hr' blob' eq_refl) as (fl1 & tok1 & d1 & E & _ & _ & Hi'). rewrite Hu' in E. injection E as <- <- <-.
  pose proof (lookup_weaken _ _ _ _ Hi Hsub) as Hi''. rewrite Hi'' in Hi'. by injection Hi' as ->.
Qed.

Definition ex_clock (t : Z) : clocks := mk_clocks t (fun n => Z.of_nat n) (1000 + t).
Definition set_line (k v : string) : bytes := bstr "set " ++ bstr k ++ bstr " 7 0 " ++ nat_to_string (blen (bstr v)) ++ CRLF ++ bstr v ++ CRLF.
Definition ex_before : list CasFacts.arrival := [CasFacts.mk_arrival (ex_clock 1) 1 (set_line "k" "one")].
Definition ex_between : list CasFacts.arrival := [CasFacts.mk_arrival (ex_clock 3) 1 (set_line "j" "two"); CasFacts.mk_arrival (ex_clock 4) 1 (bstr "touch k 100" ++ CRLF)].

Lemma cas_replaces_what_was_read_witness :
  exists s0 s1 ctr1 s1' read s2 ctr2, store0 (X := no_ext) 2 7 [] = Ok s0 /\ CasFacts.mc_serve field_of people [] ex_before s0 0 = Ok (s1, ctr1)
    /\ get field_of people (ex_clock 2) Memcache.MAP (bstr "k") s1 = Ok (s1', read) /\ CasFacts.mc_serve field_of people [] ex_between s1' ctr1 = Ok (s2, ctr2)
    /\ forall blob fl tok d, read = Some blob -> Memcache.unpack blob = Some (fl, tok, d) ->
         exists s3 ctr3 r, Memcache.execute_store field_of people (ex_clock 5) 1 Memcache.OpCas (bstr "k") 7 0 tok (bstr "three") s2 ctr2 = Ok (s3, ctr3, r)
           /\ (r = Memcache.STORED -> exists s2', get field_of people (ex_clock 5) Memcache.MAP (bstr "k") s2 = Ok (s2', Some blob)).
Proof.
  apply (cas_replaces_what_was_read field_of people (X := no_ext) 2 7 [] [] ex_before ex_between (bstr "k") (ex_clock 2) (ex_clock 5) 1 7 0 (bstr "three"));
    [lia | vm_compute; discriminate | vm_compute; reflexivity | vm_compute; repeat split; discriminate | vm_compute; discriminate | vm_compute; repeat split; discriminate | vm_compute; discriminate
    | vm_compute; discriminate | vm_compute; split; [discriminate | reflexivity]].
Defined.

(** In that run the swap does succeed, and a second one with the same token does not. *)
Example swap_once :
  (s0 ← store0 (X := no_ext) 2 7 []; '(s, ctr) ← CasFacts.mc_serve field_of people [] (ex_before ++ ex_between) s0 0;
   '(s, ctr, r1) ← Memcache.execute_store field_of people (ex_clock 5) 1 Memcache.OpCas (bstr "k") 7 0 1 (bstr "three") s ctr;
   '(s, ctr, r2) ← Memcache.execute_store field_of people (ex_clock 6) 1 Memcache.OpCas (bstr "k") 7 0 1 (bstr "four") s ctr;
   Ok (r1, r2)) = Ok (Memcache.STORED, Memcache.EXISTS).
Proof. vm_compute. reflexivity. Qed.

(** ** Framing of memcached commands *)

Module MemcacheFacts.
Import Memcache.

Lemma mc_frame_bounds acc n : frame acc = Have n -> (n <= length acc)%nat.
Proof.
  unfold frame. destruct (find_crlf acc) as [eol |] eqn:Ef; [| done]. apply find_crlf_lt in Ef. destruct (match tokens (take eol acc) with v :: _ => is_storage v | [] => false end); [| intros [= <-]; lia].
  destruct (t ← tokens (take eol acc) !! 4%nat; parse_u64 t) as [k |]; [| intros [= <-]; lia]. destruct (Z.leb_spec (wrap_u64 (Z.of_nat (eol + 2) + k + 2)) (blen acc)); [| done].
  intros [= <-]. unfold blen in *. lia.
Qed.

Lemma mc_frame_app acc b n : frame acc = Have n -> frame (acc ++ b) = Have n.
Proof.
  unfold frame. destruct (find_crlf acc) as [eol |] eqn:Ef; [| done]. rewrite (find_crlf_app _ _ _ Ef). apply find_crlf_lt in Ef. rewrite (take_app_le acc b) by lia.
  destruct (match tokens (take eol acc) with v :: _ => is_storage v | [] => false end); [| done].
  destruct (t ← tokens (take eol acc) !! 4%nat; parse_u64 t) as [k |]; [| done]. destruct (Z.leb_spec (wrap_u64 (Z.of_nat (eol + 2) + k + 2)) (blen acc)); [| done].
  rewrite (proj2 (Z.leb_le _ _)) by (rewrite blen_app; pose proof (blen_nonneg b); lia). done.
Qed.
End MemcacheFacts.
