(* ===== verification/Reactor.v ===== *)
(** * The client reactor (crates/server/src/reactor.rs)

    One io_uring loop per core: connections in numbered slots, the protocol of each detected from its
    first bytes, complete requests cut out of what has arrived and handed to the service, replies queued
    behind one send at a time.  The service is a [Class] whose operations are the closures [run] takes;
    the rustls session of crates/security/src/tls.rs is a parameter.  [on_cqe] is the body of the loop for
    one completion and [end_of_batch] what follows the completions of a round.  Proved here: whatever the
    sizes of reads and sends and however the connections interleave, each connection is served the
    requests of its byte stream, each once and in order, and is sent the service's replies to them in that
    order; and what closing a connection with an operation in flight, a [quit] with nothing to send and
    lengths that wrap around lead to. *)

From S2P Require Import FieldValue QueryIndex QueryWire Schema Extract Partition Table TableSpec TableRun Hlc Hll AuxStore KeyLocks Store StoreRun Codecs MemberWire Membership Coordinator Sql JsonFlat SqlExec Agg Security Services Handlers HandlersFacts Prelude Text Fixed Frame Fragment TextProtocols Transport.

(** The closures of [run]: each may change the state of the server, answers with the bytes it appends
    to the connection's output, and may panic.  A text command also says whether to close. *)
Class Service (St : Type) := {
  dispatch : bytes -> Z -> option bytes -> St -> outcome (St * bytes);
  http : bytes -> St -> outcome (St * (Z * bytes * bytes));
  memcache : bytes -> St -> outcome (St * (bytes * bool));
  resp : bytes -> St -> outcome (St * (bytes * bool));
  drain_events : Z -> St -> St * bytes;
  on_close : Z -> St -> St;
  on_tick : St -> outcome St
}.

(** The acceptor ([None]: the node has none), its sessions, and what they are handed to the kernel with. *)
Class ClientTls := {
  Session : Type;
  acceptor : option TlsMode;
  handshake : option Session;
  hs_pump : Session -> bytes -> Session * bytes * bytes * option bool;   (** state, to send, plaintext, and whether it is ready or failed *)
  peer_cert_der : Session -> option bytes;
  into_ktls : Session -> Z -> bool
}.

Inductive Mode := Unknown | Binary | Http | Memcached | Redis.
#[global] Instance mode_eq : EqDecision Mode.
Proof. solve_decision. Defined.

(** [hay.windows(needle.len()).position(|w| w == needle)] *)
Fixpoint find_subslice (hay needle : bytes) : option nat :=
  if (length needle <=? length hay)%nat && bool_decide (take (length needle) hay = needle) then Some O else
  match hay with [] => None | _ :: hay => S <$> find_subslice hay needle end.

(** The second of the words a space separates. *)
Fixpoint words (line word : bytes) : list bytes :=
  match line with
  | [] => [word]
  | b :: line => if u8 b =? 32 then word :: words line [] else words line (word ++ [b])
  end.
Definition request_target (headers : bytes) : bytes :=
  let line_end := default (length headers) (find_subslice headers CRLF) in
  match words (take line_end headers) [] with _ :: p :: _ => from_utf8_lossy p | _ => [] end.

Definition write_http_response (status : Z) (ctype body : bytes) : bytes :=
  let reason := if status =? 404 then bstr "Not Found" else bstr "OK" in
  bstr "HTTP/1.1 " ++ int_to_string status ++ bstr " " ++ reason ++ CRLF
  ++ bstr "Content-Type: " ++ ctype ++ CRLF ++ bstr "Content-Length: " ++ nat_to_string (blen body) ++ CRLF
  ++ bstr "Connection: close" ++ CRLF ++ CRLF ++ body.

(** What the loop submits, and the completions it handles: the slot of a connection, the result, and for
    a receive what the buffer holds.  An accept carries what [CONN_SEQ] held, which the threads share. *)
Inductive sqe := SRecv (slot : nat) (fd : Z) | SSend (slot : nat) (fd : Z) (data : bytes) | SAccept (listener : nat) | STimeout.
Inductive cqe := CTimeout | CAccept (listener : nat) (res : Z) (more : bool) (seq : Z) | CRecv (slot : nat) (res : Z) (rbuf : bytes) | CSend (slot : nat) (res : Z).

Section Reactor.
Context {St : Type} {SV : Service St} {CT : ClientTls}.

Inductive ConnTls := Plain | Detect | Handshaking (hs : Session) | Ktls.

Record Conn := mkConn {
  fd : Z; conn_id : Z; acc : bytes; out : bytes; sendbuf : bytes; inflight_send : Z; mode : Mode;
  close_after_flush : bool; open : bool; frag : Reassembler; tls : ConnTls; peer_cert : option bytes }.

Definition new_conn (fd seq : Z) (tls : ConnTls) : Conn :=
  mkConn fd seq [] [] [] 0 Unknown false true (mk_Reassembler ∅) tls None.

Definition set_acc (a : bytes) (c : Conn) : Conn :=
  mkConn (fd c) (conn_id c) a (out c) (sendbuf c) (inflight_send c) (mode c) (close_after_flush c) (open c) (frag c) (tls c) (peer_cert c).
Definition add_out (b : bytes) (c : Conn) : Conn :=
  mkConn (fd c) (conn_id c) (acc c) (out c ++ b) (sendbuf c) (inflight_send c) (mode c) (close_after_flush c) (open c) (frag c) (tls c) (peer_cert c).
Definition set_bufs (o s : bytes) (n : Z) (c : Conn) : Conn :=
  mkConn (fd c) (conn_id c) (acc c) o s n (mode c) (close_after_flush c) (open c) (frag c) (tls c) (peer_cert c).
Definition set_mode (m : Mode) (c : Conn) : Conn :=
  mkConn (fd c) (conn_id c) (acc c) (out c) (sendbuf c) (inflight_send c) m (close_after_flush c) (open c) (frag c) (tls c) (peer_cert c).
Definition set_close (b : bool) (c : Conn) : Conn :=
  mkConn (fd c) (conn_id c) (acc c) (out c) (sendbuf c) (inflight_send c) (mode c) (close_after_flush c || b) (open c) (frag c) (tls c) (peer_cert c).
Definition shut (c : Conn) : Conn :=
  mkConn (fd c) (conn_id c) (acc c) (out c) (sendbuf c) (inflight_send c) (mode c) (close_after_flush c) false (frag c) (tls c) (peer_cert c).
Definition set_frag (f : Reassembler) (c : Conn) : Conn :=
  mkConn (fd c) (conn_id c) (acc c) (out c) (sendbuf c) (inflight_send c) (mode c) (close_after_flush c) (open c) f (tls c) (peer_cert c).
Definition set_tls (t : ConnTls) (c : Conn) : Conn :=
  mkConn (fd c) (conn_id c) (acc c) (out c) (sendbuf c) (inflight_send c) (mode c) (close_after_flush c) (open c) (frag c) t (peer_cert c).
Definition set_cert (p : option bytes) (c : Conn) : Conn :=
  mkConn (fd c) (conn_id c) (acc c) (out c) (sendbuf c) (inflight_send c) (mode c) (close_after_flush c) (open c) (frag c) (tls c) p.

Definition initial_tls : ConnTls :=
  match acceptor with
  | None | Some Disabled => Plain
  | Some Permissive => Detect
  | Some Required => match handshake with Some hs => Handshaking hs | None => Plain end
  end.

Definition arm_recv (id : nat) (c : Conn) : list sqe := [SRecv id (fd c)].

(** The length of a send is a [u32]. *)
Definition armed (data : bytes) : bytes := take (Z.to_nat (wrap_u32 (blen data))) data.
Definition arm_send (id : nat) (c : Conn) : Conn * list sqe :=
  (set_bufs (out c) (sendbuf c) (blen (sendbuf c)) c, [SSend id (fd c) (armed (sendbuf c))]).
Definition maybe_arm_send (id : nat) (c : Conn) : Conn * list sqe :=
  if 0 <? inflight_send c then (c, []) else
  match sendbuf c with
  | [] => match out c with [] => (c, []) | _ => arm_send id (set_bufs [] (out c) (inflight_send c) c) end
  | _ => arm_send id c
  end.

(** ** TLS *)

Definition pump_handshake (id : nat) (rbuf : bytes) (c : Conn) : Conn * list sqe * bool :=
  match tls c with
  | Handshaking hs =>
    let '(hs, send, plain, ready) := hs_pump hs rbuf in
    let c := match ready with
      | Some ready =>
        let c := set_acc (acc c ++ plain) (add_out send (set_tls Plain c)) in
        if ready : bool then
          let c := set_cert (peer_cert_der hs) c in
          if into_ktls hs (fd c) then set_tls Ktls c else shut c
        else set_tls (Handshaking hs) c
      | None => shut (set_tls Plain c)
      end in
    if open c then let '(c, q) := maybe_arm_send id c in (c, q, negb (bool_decide (acc c = []))) else (c, [], false)
  | _ => (c, [], true)
  end.

Definition tls_ingest (id : nat) (rbuf : bytes) (c : Conn) : Conn * list sqe * bool :=
  match tls c with
  | Plain | Ktls => (set_acc (acc c ++ rbuf) c, [], true)
  | Detect =>
    if bool_decide (head rbuf = Some (b8 22)) then
      match (_ ← acceptor; handshake) with
      | Some hs => pump_handshake id rbuf (set_tls (Handshaking hs) c)
      | None => (shut c, [], false)
      end
    else (set_acc (acc c ++ rbuf) (set_tls Plain c), [], true)
  | Handshaking _ => pump_handshake id rbuf c
  end.

(** ** Requests *)

(** The protocol of a connection, [None] until its first three bytes have arrived. *)
Definition detect (c : Conn) : option Conn :=
  match mode c with
  | Unknown =>
    if (length (acc c) <? 3)%nat then None
    else if decide (take 3 (acc c) = bstr "CP2") then Some (set_acc (drop 3 (acc c)) (set_mode Binary c))
    else match acc c with
         | b :: _ => Some (set_mode (if u8 b =? 42 then Redis else if (65 <=? u8 b) && (u8 b <=? 90) then Http else Memcached) c)
         | [] => None
         end
  | _ => Some c
  end.

(** The loops of [on_recv].  Each pass takes a request off [acc], so [1 + acc.len()] passes are enough;
    a pass that takes nothing off is repeated for ever, and has [Panic] here. *)
Fixpoint binary_loop (fuel : nat) (c : Conn) (s : St) : outcome (Conn * St) :=
  match fuel with
  | O => Panic
  | S fuel =>
    match message_len (acc c) with
    | None | Some Panic => Panic
    | Some (Ok None) => Ok (c, s)
    | Some (Ok (Some len)) =>
      fl ← read_u16_le (acc c) 4;
      let msg := take (Z.to_nat len) (acc c) in
      let c := set_acc (drop (Z.to_nat len) (acc c)) c in
      if Z.land fl UNFRAGMENTED =? UNFRAGMENTED then
        '(s, r) ← dispatch msg (conn_id c) (peer_cert c) s; binary_loop fuel (add_out r c) s
      else
        match push (frag c) msg with
        | None | Some Panic => Panic
        | Some (Ok (f, None)) => binary_loop fuel (set_frag f c) s
        | Some (Ok (f, Some assembled)) =>
          '(s, r) ← dispatch assembled (conn_id c) (peer_cert c) s; binary_loop fuel (add_out r (set_frag f c)) s
        end
    end
  end.

Fixpoint text_loop (frame : bytes -> TextFrame) (serve : bytes -> St -> outcome (St * (bytes * bool))) (fuel : nat) (c : Conn) (s : St) :
    outcome (Conn * St * bool) :=
  match fuel with
  | O => Panic
  | S fuel =>
    match frame (acc c) with
    | Need => Ok (c, s, false)
    | Have len =>
      '(s, (r, close)) ← serve (take len (acc c)) s;
      let c := add_out r (set_acc (drop len (acc c)) c) in
      if close : bool then Ok (c, s, true) else text_loop frame serve fuel c s
    end
  end.

Definition fuel_of (c : Conn) : nat := S (length (acc c)).

(** What follows the loop of a text protocol. *)
Definition finish_text (id : nat) (r : Conn * St * bool) : Conn * St * list sqe :=
  let '(c, s, close) := r in
  let '(c, q) := maybe_arm_send id (set_close close c) in
  (c, s, q ++ if close then [] else arm_recv id c).

Definition serve_mode (id : nat) (c : Conn) (s : St) : outcome (Conn * St * list sqe) :=
  match mode c with
  | Http =>
    match find_subslice (acc c) (CRLF ++ CRLF) with
    | Some pos =>
      '(s, (status, ctype, body)) ← http (request_target (take pos (acc c))) s;
      let '(c, q) := maybe_arm_send id (set_close true (set_acc [] (add_out (write_http_response status ctype body) c))) in
      Ok (c, s, q)
    | None => Ok (c, s, arm_recv id c)
    end
  | Binary =>
    '(c, s) ← binary_loop (fuel_of c) c s;
    let '(s, evs) := drain_events (conn_id c) s in
    let '(c, q) := maybe_arm_send id (add_out evs c) in
    Ok (c, s, q ++ arm_recv id c)
  | Memcached => r ← text_loop Memcache.frame memcache (fuel_of c) c s; Ok (finish_text id r)
  | Redis => r ← text_loop Resp.frame resp (fuel_of c) c s; Ok (finish_text id r)
  | Unknown => Panic
  end.

Definition on_recv (id : nat) (res : Z) (rbuf : bytes) (c : Conn) (s : St) : outcome (Conn * St * list sqe) :=
  if res <=? 0 then Ok (shut c, s, []) else
  let '(c, q, go) := tls_ingest id (take (Z.to_nat res) rbuf) c in
  if negb go then Ok (c, s, q ++ if open c then arm_recv id c else []) else
  match detect c with
  | None => Ok (c, s, q ++ arm_recv id c)
  | Some c => '(c, s, q') ← serve_mode id c s; Ok (c, s, q ++ q')
  end.

Definition on_send (id : nat) (res : Z) (c : Conn) : outcome (Conn * list sqe) :=
  if res <? 0 then Ok (shut c, []) else
  if blen (sendbuf c) <? res then Panic else
  let c := set_bufs (out c) (drop (Z.to_nat res) (sendbuf c)) 0 c in
  if bool_decide (sendbuf c = []) && bool_decide (out c = []) && close_after_flush c then Ok (shut c, [])
  else Ok (maybe_arm_send id c).

(** ** The loop *)

Record reactor := mkReactor { conns : list (option Conn); free : list nat; flush_events : bool }.

(** The slot of a new connection: a free one or one more. *)
Definition accept_conn (new_fd seq : Z) (r : reactor) : outcome (reactor * list sqe) :=
  let c := new_conn new_fd seq initial_tls in
  match free r with
  | i :: fs => if (i <? length (conns r))%nat then Ok (mkReactor (<[i := Some c]> (conns r)) fs (flush_events r), arm_recv i c) else Panic
  | [] => Ok (mkReactor (conns r ++ [Some c]) [] (flush_events r), arm_recv (length (conns r)) c)
  end.

(** A connection that is no longer open gives its slot back. *)
Definition settle (id : nat) (c : Conn) (s : St) (r : reactor) : reactor * St :=
  if open c then (mkReactor (<[id := Some c]> (conns r)) (free r) (flush_events r), s)
  else (mkReactor (<[id := None]> (conns r)) (id :: free r) (flush_events r), on_close (conn_id c) s).

Definition on_cqe (e : cqe) (r : reactor) (s : St) : outcome (reactor * St * list sqe) :=
  match e with
  | CTimeout => Ok (mkReactor (conns r) (free r) true, s, [STimeout])
  | CAccept listener res more seq =>
    let again := if more then [] else [SAccept listener] in
    if res <? 0 then Ok (r, s, again) else '(r, q) ← accept_conn res seq r; Ok (r, s, again ++ q)
  | CRecv id res rbuf =>
    match conns r !! id with
    | Some (Some c) => '(c, s, q) ← on_recv id res rbuf c s; let '(r, s) := settle id c s r in Ok (r, s, q)
    | _ => Ok (r, s, [])
    end
  | CSend id res =>
    match conns r !! id with
    | Some (Some c) => '(c, q) ← on_send id res c; let '(r, s) := settle id c s r in Ok (r, s, q)
    | _ => Ok (r, s, [])
    end
  end.

(** The queued events of every binary connection. *)
Fixpoint flush_conns (id : nat) (cs : list (option Conn)) (s : St) : list (option Conn) * St * list sqe :=
  match cs with
  | [] => ([], s, [])
  | Some c :: cs =>
    let '(c, s, q) :=
      if open c && bool_decide (mode c = Binary)
      then let '(s, evs) := drain_events (conn_id c) s in let '(c, q) := maybe_arm_send id (add_out evs c) in (c, s, q)
      else (c, s, []) in
    let '(cs, s, q') := flush_conns (S id) cs s in (Some c :: cs, s, q ++ q')
  | None :: cs => let '(cs, s, q) := flush_conns (S id) cs s in (None :: cs, s, q)
  end.

Definition end_of_batch (r : reactor) (s : St) : outcome (reactor * St * list sqe) :=
  if flush_events r then
    s ← on_tick s;
    let '(cs, s, q) := flush_conns 0 (conns r) s in Ok (mkReactor cs (free r) false, s, q)
  else Ok (r, s, []).

(** One round: the completions in order, then the events. *)
Fixpoint on_cqes (es : list cqe) (r : reactor) (s : St) : outcome (reactor * St * list sqe) :=
  match es with
  | [] => end_of_batch r s
  | e :: es => '(r, s, q) ← on_cqe e r s; '(r, s, q') ← on_cqes es r s; Ok (r, s, q ++ q')
  end.

(** What the first round submits for [n] listeners. *)
Definition primed (n : nat) : reactor * list sqe := (mkReactor [] [] false, map SAccept (seq 0 n) ++ [STimeout]).

End Reactor.

Arguments Conn {_}.
Arguments reactor {_}.

(** * What a connection is served *)

(** A request of any protocol, and what a byte stream holds first: how much of it that takes, what is
    kept of an unfinished message, and the request if there is one. *)
Inductive Request := Message (m : bytes) | Get (path : bytes) | McCommand (cmd : bytes) | RedisCommand (cmd : bytes).

Definition next (m : Mode) (b : bytes) (f : Reassembler) : option (nat * Reassembler * option Request) :=
  match m with
  | Binary =>
    match message_len b, read_u16_le b 4 with
    | Some (Ok (Some len)), Ok fl =>
      let msg := take (Z.to_nat len) b in
      if Z.land fl UNFRAGMENTED =? UNFRAGMENTED then Some (Z.to_nat len, f, Some (Message msg))
      else match push f msg with Some (Ok (f', m)) => Some (Z.to_nat len, f', Message <$> m) | _ => None end
    | _, _ => None
    end
  | Http => pos ← find_subslice b (CRLF ++ CRLF); Some ((pos + 4)%nat, f, Some (Get (request_target (take pos b))))
  | Memcached => match Memcache.frame b with Have n => Some (n, f, Some (McCommand (take n b))) | Need => None end
  | Redis => match Resp.frame b with Have n => Some (n, f, Some (RedisCommand (take n b))) | Need => None end
  | Unknown => None
  end.

(** The requests at the start of a stream, and what follows them. *)
Inductive parses (m : Mode) : bytes -> Reassembler -> list Request -> bytes -> Reassembler -> Prop :=
| parses_nil b f : parses m b f [] b f
| parses_cons b f n f' r rs b' f'' :
    next m b f = Some (n, f', r) -> parses m (drop n b) f' rs b' f'' -> parses m b f (option_list r ++ rs) b' f''.

(** ** A request stays the first one when more arrives *)

Lemma slice_app b x p n v : slice b p n = Ok v -> slice (b ++ x) p n = Ok v.
Proof.
  unfold slice. destruct (Nat.leb_spec (p + n) (length b)); [| done]. intros [= <-].
  rewrite (proj2 (Nat.leb_le _ _)) by (rewrite length_app; lia). by rewrite drop_app_le, take_app_le by (rewrite ?length_drop; lia).
Qed.

Lemma read_u16_app b x p v : read_u16_le b p = Ok v -> read_u16_le (b ++ x) p = Ok v.
Proof. unfold read_u16_le. destruct (slice b p 2) as [y |] eqn:E; [| done]. by rewrite (slice_app _ _ _ _ _ E). Qed.

Lemma frame_at_app b x off r : frame_at b off = Ok (Some r) -> frame_at (b ++ x) off = Ok (Some r).
Proof.
  unfold frame_at, read_i32_le. rewrite blen_app. pose proof (blen_nonneg x). destruct (Z.ltb_spec (blen b) (wrap_u64 (off + PREFIX_LEN))); [done |].
  rewrite (proj2 (Z.ltb_ge _ _)) by lia. destruct (slice b (Z.to_nat off) 4) as [y |] eqn:E; [| done]. rewrite (slice_app _ _ _ _ _ E). cbn [mbind outcome_bind].
  destruct (read_u16_le b _) as [fl |] eqn:Ef; [| done]. rewrite (read_u16_app _ _ _ _ Ef). cbn [mbind outcome_bind].
  destruct (_ <? PREFIX_LEN); [done |]. cbn [orb]. destruct (Z.ltb_spec (blen b) (wrap_u64 (off + wrap_u64 (from_le_i y)))); [done |]. by rewrite (proj2 (Z.ltb_ge _ _)) by lia.
Qed.

Lemma message_len_loop_app b x fuel fuel' : forall off n, (fuel <= fuel')%nat ->
  message_len_loop fuel b off = Some (Ok (Some n)) -> message_len_loop fuel' (b ++ x) off = Some (Ok (Some n)) /\ 0 <= n <= blen b.
Proof.
  revert fuel'. induction fuel as [| fuel IH]; intros fuel' off n Hf; [done |]. destruct fuel' as [| fuel']; [lia |]. cbn [message_len_loop].
  destruct (frame_at b off) as [[[len fl] |] |] eqn:E; [| done..]. rewrite (frame_at_app _ x _ _ E).
  destruct (has fl IS_FINAL); [| apply IH; lia]. intros [= <-]. split; [done |]. split; [apply Z.mod_pos_bound; lia |].
  unfold frame_at in E. repeat first [progress inv_ok | case_match]; try done. apply orb_false_iff in H0 as [_ H0]. apply Z.ltb_ge in H0. done.
Qed.

Lemma find_subslice_app b x y n : find_subslice b y = Some n -> (n + length y <= length b)%nat /\ find_subslice (b ++ x) y = Some n.
Proof.
  revert n. induction b as [| a b IH]; intros n.
  - cbn [find_subslice]. destruct (Nat.leb_spec (length y) (length (@nil byte))) as [Hl |]; [| done]. destruct y; [| cbn in Hl; lia]. intros [= <-]. by destruct x.
  - change ((a :: b) ++ x) with (a :: b ++ x). cbn [find_subslice]. destruct (Nat.leb_spec (length y) (length (a :: b))) as [Hl | Hl].
    + assert ((length y <=? length (a :: b ++ x))%nat = true) as -> by (apply Nat.leb_le; cbn [length] in *; rewrite length_app; lia).
      change (a :: b ++ x) with ((a :: b) ++ x). rewrite (take_app_le (a :: b)) by done. cbn [andb]. destruct (bool_decide _); [intros [= <-]; split; [lia | done] |].
      destruct (find_subslice b y) as [k |]; [| done]. intros [= <-]. destruct (IH k eq_refl) as [Hk Hx]. cbn [app]. rewrite Hx. split; [cbn [length]; lia | done].
    + cbn [andb]. destruct (find_subslice b y) as [k |] eqn:E; [| done]. destruct (IH k eq_refl). cbn [length] in *. lia.
Qed.

Lemma next_app m b x f n f' r : next m b f = Some (n, f', r) -> (n <= length b)%nat /\ next m (b ++ x) f = Some (n, f', r).
Proof.
  unfold next. destruct m; [done | ..].
  - destruct (message_len b) as [[[len |] |] |] eqn:El; [| done..]. destruct (read_u16_le b 4) as [fl |] eqn:Ef; [| done]. rewrite (read_u16_app _ _ _ _ Ef).
    destruct (message_len_loop_app b x (S (length b)) (S (length (b ++ x))) 0 len ltac:(rewrite length_app; lia) El) as [El' Hlen].
    unfold message_len. rewrite El', take_app_le by (unfold blen in *; lia). intros E. split; [| done]. unfold blen in *. repeat case_match; simplify_eq; lia.
  - destruct (find_subslice b _) as [pos |] eqn:E; [| done]. destruct (find_subslice_app _ x _ _ E) as [Hp ->]. cbn [length app CRLF] in Hp.
    cbn [mbind option_bind]. rewrite take_app_le by lia. intros [= <- <- <-]. split; [lia | done].
  - destruct (Memcache.frame b) as [| k] eqn:E; [done |]. rewrite (MemcacheFacts.mc_frame_app _ x _ E). apply MemcacheFacts.mc_frame_bounds in E.
    rewrite take_app_le by lia. intros [= <- <- <-]. done.
  - destruct (Resp.frame b) as [| k] eqn:E; [done |]. rewrite (RespFacts.resp_frame_app _ x _ E). apply RespFacts.resp_frame_bounds in E.
    rewrite take_app_le by lia. intros [= <- <- <-]. split; [lia | done].
Qed.

Lemma parses_more m b f rs b' f' x : parses m b f rs b' f' -> parses m (b ++ x) f rs (b' ++ x) f'.
Proof.
  induction 1 as [| b f n f' r rs b' f'' Hn _ IH]; [constructor |]. destruct (next_app _ _ x _ _ _ _ Hn) as [Hl Hx].
  apply (parses_cons m (b ++ x) f n f'); [done |]. by rewrite drop_app_le by lia.
Qed.

Lemma parses_trans m b f rs b' f' rs' b'' f'' : parses m b f rs b' f' -> parses m b' f' rs' b'' f'' -> parses m b f (rs ++ rs') b'' f''.
Proof. induction 1 as [| b f n f1 r rs b' f' Hn _ IH]; [done |]. intros H. rewrite <- app_assoc. econstructor; eauto. Qed.

(** The requests of a stream are determined by it. *)
Lemma parses_unique m b f rs b1 f1 rs' b2 f2 : parses m b f rs b1 f1 -> next m b1 f1 = None -> parses m b f rs' b2 f2 -> next m b2 f2 = None -> rs = rs' /\ b1 = b2 /\ f1 = f2.
Proof.
  intros H. revert rs' b2 f2. induction H as [| b f n f' r rs b' f'' Hn _ IH]; intros rs' b2 f2 He H' He'.
  - inversion H'; simplify_eq; done.
  - inversion H' as [| ? ? ? ? ? ? ? ? Hn' H'']; simplify_eq. destruct (IH _ _ _ He H'' He') as (-> & -> & ->). done.
Qed.

(** ** The calls of the service *)

Section Calls.
Context {St : Type} {SV : Service St} {CT : ClientTls}.

(** The answer to a request of a connection without a certificate, and whether it is the last one. *)
Definition answer (r : Request) (id : Z) (s : St) : outcome (St * (bytes * bool)) :=
  match r with
  | Message m => '(s, b) ← dispatch m id None s; Ok (s, (b, false))
  | Get path => '(s, (status, ctype, body)) ← http path s; Ok (s, (write_http_response status ctype body, true))
  | McCommand cmd => memcache cmd s
  | RedisCommand cmd => resp cmd s
  end.

Inductive Call := Asked (id : Z) (r : Request) (reply : bytes) (last : bool) | Drained (id : Z) (events : bytes) | Ticked | Gone (id : Z).

Definition effect (e : Call) (s s' : St) : Prop :=
  match e with
  | Asked id r reply last => answer r id s = Ok (s', (reply, last))
  | Drained id events => drain_events id s = (s', events)
  | Ticked => on_tick s = Ok s'
  | Gone id => s' = on_close id s
  end.

(** The calls are those the service gets one after the other, with what it answers. *)
Fixpoint replay (l : list Call) (s s' : St) : Prop :=
  match l with [] => s' = s | e :: l => exists s1, effect e s s1 /\ replay l s1 s' end.

Definition who (e : Call) : option Z := match e with Asked id _ _ _ | Drained id _ => Some id | _ => None end.
Definition request_of (id : Z) (e : Call) : list Request := match e with Asked i r _ _ => if decide (i = id) then [r] else [] | _ => [] end.
Definition reply_of (id : Z) (e : Call) : bytes :=
  match e with Asked i _ b _ | Drained i b => if decide (i = id) then b else [] | _ => [] end.
Definition requests (id : Z) (l : list Call) : list Request := concat (map (request_of id) l).
Definition replies (id : Z) (l : list Call) : bytes := concat (map (reply_of id) l).

Lemma replay_app l1 l2 : forall s s' s'', replay l1 s s' -> replay l2 s' s'' -> replay (l1 ++ l2) s s''.
Proof.
  induction l1 as [| e l1 IH]; intros s s' s''; cbn [replay app]; [intros ->; done |].
  intros (s1 & He & H1) H2. exists s1. split; [done |]. by apply (IH s1 s').
Qed.

Lemma requests_app id l1 l2 : requests id (l1 ++ l2) = requests id l1 ++ requests id l2.
Proof. unfold requests. by rewrite map_app, concat_app. Qed.
Lemma replies_app id l1 l2 : replies id (l1 ++ l2) = replies id l1 ++ replies id l2.
Proof. unfold replies. by rewrite map_app, concat_app. Qed.

Lemma others_nil id l : Forall (fun e => who e <> Some id) l -> requests id l = [] /\ replies id l = [].
Proof.
  unfold requests, replies. induction 1 as [| e l He _ [IH1 IH2]]; [done |]. cbn [map concat]. rewrite IH1, IH2, !app_nil_r.
  destruct e; cbn in *; try done; split; try done; rewrite decide_False by congruence; done.
Qed.

(** Every call is of connection [id], or of none. *)
Definition only (id : Z) (l : list Call) : Prop := Forall (fun e => who e = None \/ who e = Some id) l.

Lemma requests_asked id r b last l : requests id (Asked id r b last :: l) = r :: requests id l.
Proof. unfold requests. cbn [map concat request_of]. by rewrite decide_True. Qed.
Lemma replies_asked id r b last l : replies id (Asked id r b last :: l) = b ++ replies id l.
Proof. unfold replies. cbn [map concat reply_of]. by rewrite decide_True. Qed.

(** ** The loops of [on_recv] *)

(** The parts of a connection a loop leaves as they are. *)
Definition same_but (c c' : Conn) : Prop :=
  fd c' = fd c /\ conn_id c' = conn_id c /\ sendbuf c' = sendbuf c /\ inflight_send c' = inflight_send c /\ mode c' = mode c
  /\ open c' = open c /\ tls c' = tls c /\ peer_cert c' = peer_cert c /\ close_after_flush c' = close_after_flush c.

(** From [c] to [c'] the service answered the calls [l], the requests of what had arrived; unless the
    last answer closes the connection, all that were complete. *)
Record served (c : Conn) (s : St) (l : list Call) (c' : Conn) (s' : St) (close : bool) : Prop := {
  sv_replay : replay l s s';
  sv_only : only (conn_id c) l;
  sv_same : same_but c c';
  sv_out : out c' = out c ++ replies (conn_id c) l;
  sv_parses : exists rest f, parses (mode c) (acc c) (frag c) (requests (conn_id c) l) rest f
    /\ (close = false -> acc c' = rest /\ frag c' = f /\ next (mode c) rest f = None)
}.

(** One more request in front. *)
Lemma served_step c s n f r b s1 l c' s' close :
  next (mode c) (acc c) (frag c) = Some (n, f, Some r) -> answer r (conn_id c) s = Ok (s1, (b, false)) ->
  served (add_out b (set_frag f (set_acc (drop n (acc c)) c))) s1 l c' s' close -> served c s (Asked (conn_id c) r b false :: l) c' s' close.
Proof.
  intros Hn Ha [Hr Ho Hs Hout (rest & f' & Hp & Hc)]. split.
  - exists s1. by split.
  - constructor; [by right | done].
  - done.
  - rewrite replies_asked, Hout. cbn. by rewrite app_assoc.
  - exists rest, f'. rewrite requests_asked. split; [| done]. exact (parses_cons _ _ _ n f (Some r) _ _ _ Hn Hp).
Qed.

Lemma served_skip c s n f l c' s' close :
  next (mode c) (acc c) (frag c) = Some (n, f, None) -> served (set_frag f (set_acc (drop n (acc c)) c)) s l c' s' close -> served c s l c' s' close.
Proof.
  intros Hn [Hr Ho Hs Hout (rest & f' & Hp & Hc)]. split; try done. exists rest, f'. split; [| done]. exact (parses_cons _ _ _ n f None _ _ _ Hn Hp).
Qed.

Lemma served_done c s : next (mode c) (acc c) (frag c) = None -> served c s [] c s false.
Proof. intros Hn. split; [done | constructor | done | by rewrite app_nil_r |]. exists (acc c), (frag c). by split; [constructor |]. Qed.

Lemma served_last c s n f r b s1 c' :
  next (mode c) (acc c) (frag c) = Some (n, f, Some r) -> answer r (conn_id c) s = Ok (s1, (b, true)) -> same_but c c' -> out c' = out c ++ b ->
  served c s [Asked (conn_id c) r b true] c' s1 true.
Proof.
  intros Hn Ha Hs Ho. split; [by exists s1 | by constructor; [right |] | done | by rewrite replies_asked, app_nil_r |].
  exists (drop n (acc c)), f. rewrite requests_asked. split; [| done]. exact (parses_cons _ _ _ n f (Some r) _ _ _ Hn (parses_nil _ _ _)).
Qed.

Lemma binary_loop_served fuel : forall c s c' s', mode c = Binary -> peer_cert c = None -> binary_loop fuel c s = Ok (c', s') -> exists l, served c s l c' s' false.
Proof.
  induction fuel as [| fuel IH]; intros c s c' s' Hm Hc; [done |]. cbn [binary_loop].
  destruct (message_len (acc c)) as [[[len |] |] |] eqn:El; [| intros [= <- <-] | done..].
  2: { exists []. apply served_done. by rewrite Hm; cbn [next]; rewrite El. }
  destruct (read_u16_le (acc c) 4) as [fl |] eqn:Ef; [| done]. cbn [mbind outcome_bind].
  destruct (Z.land fl UNFRAGMENTED =? UNFRAGMENTED) eqn:Eu.
  - destruct (dispatch _ _ _ s) as [[s1 b] |] eqn:Ed; [| done]. cbn [mbind outcome_bind]. intros Hrun. apply IH in Hrun as [l Hl]; [| done..]. exists (Asked (conn_id c) (Message (take (Z.to_nat len) (acc c))) b false :: l).
    apply (served_step c s (Z.to_nat len) (frag c) _ _ s1); [by rewrite Hm; cbn [next]; rewrite El, Ef, Eu | | by destruct c].
    cbn [answer]. cbn in Ed. rewrite Hc in Ed. by rewrite Ed.
  - destruct (push _ _) as [[[f [m |]] |] |] eqn:Ep; [| | done..]; cbn in Ep.
    + destruct (dispatch _ _ _ s) as [[s1 b] |] eqn:Ed; [| done]. cbn [mbind outcome_bind]. intros Hrun. apply IH in Hrun as [l Hl]; [| done..]. exists (Asked (conn_id c) (Message m) b false :: l).
      apply (served_step c s (Z.to_nat len) f _ _ s1); [by rewrite Hm; cbn [next]; rewrite El, Ef, Eu, Ep | | done]. cbn [answer]. cbn in Ed. rewrite Hc in Ed. by rewrite Ed.
    + intros Hrun. apply IH in Hrun as [l Hl]; [| done..]. exists l. apply (served_skip c s (Z.to_nat len) f); [by rewrite Hm; cbn [next]; rewrite El, Ef, Eu, Ep | done].
Qed.

(** Both text protocols: [mk] makes a request of a command. *)
Lemma text_loop_served (frame : bytes -> TextFrame) serve (m : Mode) (mk : bytes -> Request) fuel :
  (forall b f, next m b f = match frame b with Have n => Some (n, f, Some (mk (take n b))) | Need => None end) -> (forall cmd id s, answer (mk cmd) id s = serve cmd s) ->
  forall c s c' s' close, mode c = m -> text_loop frame serve fuel c s = Ok (c', s', close) -> exists l, served c s l c' s' close.
Proof.
  intros Hn Ha. induction fuel as [| fuel IH]; intros c s c' s' close Hm; [done |]. cbn [text_loop]. pose proof (Hn (acc c) (frag c)) as E. rewrite <- Hm in E.
  destruct (frame (acc c)) as [| n]; [intros [= <- <- <-]; exists []; by apply served_done |].
  destruct (serve _ s) as [[s1 [b [|]]] |] eqn:Es; [| | done]; cbn [mbind outcome_bind]; rewrite <- (Ha _ (conn_id c)) in Es.
  - intros [= <- <- <-]. eexists. by apply (served_last c s n (frag c) (mk (take n (acc c))) b s1).
  - intros Hrun. apply IH in Hrun as [l Hl]; [| done]. exists (Asked (conn_id c) (mk (take n (acc c))) b false :: l). apply (served_step c s n (frag c) _ b s1); [done | done |].
    by destruct c.
Qed.
End Calls.

(** * The operations in flight *)

Definition is_recv (id : nat) (e : sqe) : bool := match e with SRecv i _ => bool_decide (i = id) | _ => false end.
Definition is_send (id : nat) (e : sqe) : bool := match e with SSend i _ _ => bool_decide (i = id) | _ => false end.
Definition recvs (id : nat) (ops : list sqe) : list sqe := List.filter (is_recv id) ops.
Definition sends (id : nat) (ops : list sqe) : list sqe := List.filter (is_send id) ops.

Lemma recvs_app id l1 l2 : recvs id (l1 ++ l2) = recvs id l1 ++ recvs id l2.
Proof. apply List.filter_app. Qed.
Lemma sends_app id l1 l2 : sends id (l1 ++ l2) = sends id l1 ++ sends id l2.
Proof. apply List.filter_app. Qed.

(** Operations of slot [id] only. *)
Definition own (id : nat) (ops : list sqe) : Prop := forall j, j <> id -> recvs j ops = [] /\ sends j ops = [].

Lemma own_app id l1 l2 : own id l1 -> own id l2 -> own id (l1 ++ l2).
Proof. intros H1 H2 j Hj. rewrite recvs_app, sends_app. destruct (H1 j Hj) as [-> ->], (H2 j Hj) as [-> ->]. done. Qed.
Lemma own_nil id : own id [].
Proof. done. Qed.

Section Sending.
Context {St : Type} {SV : Service St} {CT : ClientTls}.

(** What is in flight of a connection: no send and nothing to send, or one send of the whole buffer. *)
Definition send_ok (id : nat) (c : Conn) (l : list sqe) : Prop :=
  (inflight_send c = 0 /\ sendbuf c = [] /\ out c = [] /\ l = [])
  \/ (0 < inflight_send c /\ inflight_send c = blen (sendbuf c) /\ l = [SSend id (fd c) (armed (sendbuf c))]).

(** The same before new output is looked at. *)
Definition before_arm (id : nat) (c : Conn) (l : list sqe) : Prop :=
  (inflight_send c = 0 /\ l = []) \/ (0 < inflight_send c /\ inflight_send c = blen (sendbuf c) /\ l = [SSend id (fd c) (armed (sendbuf c))]).

Lemma send_before id c l : send_ok id c l -> before_arm id c l.
Proof. intros [(H1 & _ & _ & H2) | H1]; [left | right]; done. Qed.

Lemma send_ok_idle id c l : send_ok id c l -> maybe_arm_send id c = (c, []).
Proof.
  unfold maybe_arm_send. intros [(-> & -> & -> & _) | (H1 & _)]; [done |]. by rewrite (proj2 (Z.ltb_lt _ _) H1).
Qed.

Lemma own_arm_recv id (c : Conn) : own id (arm_recv id c) /\ recvs id (arm_recv id c) = [SRecv id (fd c)] /\ sends id (arm_recv id c) = [].
Proof. split_and!; [| unfold recvs; cbn; by rewrite bool_decide_true | done]. intros j Hj. unfold recvs, sends. cbn. by rewrite bool_decide_false by done. Qed.

(** Arming moves bytes along and submits at most one send. *)
Record arms (id : nat) (c c' : Conn) (l q : list sqe) : Prop := {
  ar_fields : fd c' = fd c /\ conn_id c' = conn_id c /\ mode c' = mode c /\ acc c' = acc c /\ frag c' = frag c /\ tls c' = tls c /\ peer_cert c' = peer_cert c
    /\ open c' = open c /\ close_after_flush c' = close_after_flush c;
  ar_bytes : sendbuf c' ++ out c' = sendbuf c ++ out c;
  ar_send : send_ok id c' (l ++ sends id q);
  ar_recvs : recvs id q = [];
  ar_own : own id q
}.

Lemma arm_arms id c l c' q : before_arm id c l -> maybe_arm_send id c = (c', q) -> arms id c c' l q.
Proof.
  assert (Hs : forall c0 q0, arm_send id c0 = (c', q0) -> sendbuf c0 <> [] -> send_ok id c' (sends id q0) /\ recvs id q0 = [] /\ own id q0).
  { intros c0 q0 [= <- <-] Hne. split_and!; [right | done |].
    - split; [cbn; unfold blen; destruct (sendbuf c0); [done | cbn; lia] |]. split; [done |]. unfold sends. cbn. by rewrite bool_decide_true.
    - intros j Hj. unfold sends, recvs. cbn. by rewrite bool_decide_false. }
  unfold maybe_arm_send. intros [[H1 ->] | (H1 & H2 & ->)].
  - rewrite H1. cbn [Z.ltb Z.compare]. destruct (sendbuf c) as [| b sb] eqn:Eb; [destruct (out c) as [| b o] eqn:Eo |].
    + intros [= <- <-]. split; [done | by rewrite Eb, Eo | by left | done | done].
    + intros E. destruct (Hs _ _ E) as (Hs1 & Hs2 & Hs3); [done |]. injection E as <- <-. split; try done. cbn. by rewrite Eb, Eo, app_nil_r.
    + intros E. destruct (Hs _ _ E) as (Hs1 & Hs2 & Hs3); [by rewrite Eb |]. injection E as <- <-. split; done.
  - rewrite (proj2 (Z.ltb_lt _ _) H1). intros [= <- <-]. split; [done | done | | done | done]. right. done.
Qed.

(** ** One receive of a plain connection *)

(** What [on_recv] makes of a connection whose input is cut into requests: the calls, and one receive in
    flight again unless the connection is to close. *)
Record handled (id : nat) (l : list sqe) (c : Conn) (s : St) (c' : Conn) (s' : St) (q : list sqe) (cl : list Call) (close : bool) : Prop := {
  hd_replay : replay cl s s';
  hd_only : only (conn_id c) cl;
  hd_fields : fd c' = fd c /\ conn_id c' = conn_id c /\ mode c' = mode c /\ tls c' = tls c /\ peer_cert c' = peer_cert c /\ open c' = open c;
  hd_close : close_after_flush c' = close;
  hd_bytes : sendbuf c' ++ out c' = sendbuf c ++ out c ++ replies (conn_id c) cl;
  hd_parses : exists rest f, parses (mode c) (acc c) (frag c) (requests (conn_id c) cl) rest f
    /\ (close = false -> acc c' = rest /\ frag c' = f /\ next (mode c) rest f = None);
  hd_send : send_ok id c' (l ++ sends id q);
  hd_recvs : recvs id q = if close then [] else [SRecv id (fd c)];
  hd_own : own id q
}.

(** A loop, more output, and the operations it ends with. *)
Lemma finish_handled id l c s c1 s1 s2 cl close more ev c' q :
  send_ok id c l -> close_after_flush c = false -> served c s cl c1 s1 close -> replay ev s1 s2 -> only (conn_id c) ev -> requests (conn_id c) ev = [] -> more = replies (conn_id c) ev ->
  maybe_arm_send id (set_close close (add_out more c1)) = (c', q) ->
  handled id l c s c' s2 (q ++ if close then [] else arm_recv id c') (cl ++ ev) close.
Proof.
  intros Hs Hcf [Hr Ho (F1 & F2 & F3 & F4 & F5 & F6 & F7 & F8 & F9) Hout (rest & f & Hp & Hc)] Hev Hoe Hre -> Harm.
  assert (Hb : before_arm id (set_close close (add_out (replies (conn_id c) ev) c1)) l).
  { apply send_before in Hs. unfold before_arm in *. cbn. by rewrite F4, F3, F1. }
  destruct (arm_arms _ _ _ _ _ Hb Harm) as [(A1 & A2 & A3 & A4 & A5 & A6 & A7 & A8 & A9) Ab As Ar Aw]. cbn in *.
  destruct (own_arm_recv id c') as (R1 & R2 & R3). split.
  - by eapply replay_app.
  - by apply Forall_app.
  - split_and!; congruence.
  - by rewrite A9, F9, Hcf.
  - by rewrite Ab, F3, Hout, replies_app, !app_assoc.
  - exists rest, f. rewrite requests_app, Hre, app_nil_r, A4, A5. done.
  - rewrite sends_app. destruct close; [by rewrite app_nil_r | by rewrite R3, app_nil_r].
  - rewrite recvs_app, Ar. destruct close; [done |]. rewrite R2. cbn. congruence.
  - apply own_app; [done |]. by destruct close.
Qed.

Lemma idle_handled id l c s : send_ok id c l -> close_after_flush c = false -> next (mode c) (acc c) (frag c) = None -> handled id l c s c s (arm_recv id c) [] false.
Proof.
  intros Hs Hc Hn. destruct (own_arm_recv id c) as (R1 & R2 & R3). split; try done; [constructor | by rewrite app_nil_r | | by rewrite R3, app_nil_r].
  exists (acc c), (frag c). by split; [constructor |].
Qed.

(** What is left of a text protocol's arm. *)
Lemma text_handled id l c s frame serve mk c' s' q :
  (forall b f, next (mode c) b f = match frame b with Have n => Some (n, f, Some (mk (take n b))) | Need => None end) -> (forall cmd i t, answer (mk cmd) i t = serve cmd t) ->
  send_ok id c l -> close_after_flush c = false -> (r ← text_loop frame serve (fuel_of c) c s; Ok (finish_text id r)) = Ok (c', s', q) ->
  exists cl close, handled id l c s c' s' q cl close.
Proof.
  intros Hn Ha Hs Hc. destruct (text_loop _ _ _ _ _) as [[[c1 s1] close] |] eqn:E; [| done]. cbn [mbind outcome_bind finish_text].
  destruct (maybe_arm_send id (set_close close c1)) as [c2 q2] eqn:Em. intros [= <- <- <-].
  apply (text_loop_served frame serve (mode c) mk _ Hn Ha) in E as [cl Hcl]; [| done]. exists cl, close. rewrite <- (app_nil_r cl).
  apply (finish_handled id l c s c1 s1 s1 cl close [] [] c2 q2); try done; [constructor |].
  rewrite <- Em. f_equal. destruct c1. unfold set_close, add_out. cbn. by rewrite app_nil_r.
Qed.

Lemma serve_mode_handled id l c s c' s' q :
  mode c <> Unknown -> peer_cert c = None -> send_ok id c l -> close_after_flush c = false -> serve_mode id c s = Ok (c', s', q) -> exists cl close, handled id l c s c' s' q cl close.
Proof.
  intros Hm Hp Hs Hc. unfold serve_mode. destruct (mode c) eqn:Em; [done | ..].
  - destruct (binary_loop _ _ _) as [[c1 s1] |] eqn:E; [| done]. cbn [mbind outcome_bind]. destruct (drain_events (conn_id c1) s1) as [s2 evs] eqn:Ed.
    destruct (maybe_arm_send id (add_out evs c1)) as [c2 q2] eqn:Ea. intros [= <- <- <-].
    apply binary_loop_served in E as [cl Hcl]; [| done..]. assert (Hid : conn_id c1 = conn_id c) by apply (sv_same _ _ _ _ _ _ Hcl). exists (cl ++ [Drained (conn_id c) evs]), false.
    apply (finish_handled id l c s c1 s1 s2 cl false evs [Drained (conn_id c) evs] c2 q2); try done.
    + exists s2. split; [cbn; by rewrite <- Hid | done].
    + by constructor; [right |].
    + unfold replies. cbn. by rewrite decide_True, app_nil_r.
    + rewrite <- Ea. f_equal. by destruct c1; unfold set_close, add_out; cbn; rewrite orb_false_r.
  - destruct (find_subslice (acc c) (CRLF ++ CRLF)) as [pos |] eqn:Ef.
    + destruct (http _ s) as [[s1 [[status ctype] body]] |] eqn:Eh; [| done]. cbn [mbind outcome_bind].
      destruct (maybe_arm_send id _) as [c2 q2] eqn:Ea. intros [= <- <- <-]. set (b := write_http_response status ctype body) in *.
      exists ([Asked (conn_id c) (Get (request_target (take pos (acc c)))) b true] ++ []), true. rewrite <- (app_nil_r q2).
      apply (finish_handled id l c s (set_acc [] (add_out b c)) s1 s1 _ true [] []  c2 q2); try done; [| constructor |].
      * apply (served_last c s (pos + 4) (frag c)); [by rewrite Em; cbn [next]; rewrite Ef | cbn [answer]; rewrite Eh; done | done | done].
      * rewrite <- Ea. f_equal. unfold set_close, add_out, set_acc. cbn. by rewrite app_nil_r.
    + intros [= <- <- <-]. exists [], false. apply idle_handled; [done.. |]. rewrite Em. cbn [next]. by rewrite Ef.
  - intros E. apply (text_handled id l c s Memcache.frame memcache McCommand); try done. by rewrite Em.
  - intros E. apply (text_handled id l c s Resp.frame resp RedisCommand); try done. by rewrite Em.
Qed.
End Sending.

(** ** A connection's stream *)

(** The protocol the first bytes of a stream select, and what of them is not part of a request. *)
Definition mode_of (b : bytes) : option Mode :=
  match b with
  | x :: _ :: _ :: _ =>
    Some (if decide (take 3 b = bstr "CP2") then Binary else if u8 x =? 42 then Redis else if (65 <=? u8 x) && (u8 x <=? 90) then Http else Memcached)
  | _ => None
  end.
Definition preamble (m : Mode) : bytes := match m with Binary => bstr "CP2" | _ => [] end.

Lemma mode_of_app b x m : mode_of b = Some m -> mode_of (b ++ x) = Some m.
Proof. destruct b as [| b1 [| b2 [| b3 b]]]; [done.. |]. done. Qed.

Lemma mode_of_known b m : mode_of b = Some m -> m <> Unknown /\ b = preamble m ++ drop (length (preamble m)) b.
Proof.
  unfold mode_of. destruct b as [| b1 [| b2 [| b3 b]]]; [done.. |]. intros [= <-].
  case_decide as Hd; [| by repeat case_match]. split; [done |]. cbn [preamble]. rewrite <- Hd at 1. by rewrite <- (take_drop 3 (b1 :: b2 :: b3 :: b)) at 1.
Qed.

Section Stream.
Context {St : Type} {SV : Service St} {CT : ClientTls}.

Lemma detect_unknown c : mode c = Unknown ->
  detect c = match mode_of (acc c) with None => None | Some m => Some (set_acc (drop (length (preamble m)) (acc c)) (set_mode m c)) end.
Proof.
  intros Hm. unfold detect, mode_of. rewrite Hm. destruct (acc c) as [| b1 [| b2 [| b3 b]]] eqn:E; [done.. |].
  cbn [length Nat.ltb Nat.leb]. case_decide; [done |]. f_equal. destruct c. cbn in *. subst. by repeat case_match.
Qed.

Lemma detect_known c : mode c <> Unknown -> detect c = Some c.
Proof. unfold detect. by destruct (mode c). Qed.

(** The requests [rs] are those at the start of the stream [b]; unless the connection is to close,
    all that are complete, and the rest of the stream waits in [acc]. *)
Definition stream_ok (c : Conn) (b : bytes) (rs : list Request) : Prop :=
  match mode c with
  | Unknown => mode_of b = None /\ acc c = b /\ rs = [] /\ close_after_flush c = false /\ frag c = mk_Reassembler ∅
  | m => mode_of b = Some m /\ exists body rest f, b = preamble m ++ body /\ parses m body (mk_Reassembler ∅) rs rest f
      /\ (close_after_flush c = false -> acc c = rest /\ frag c = f /\ next m rest f = None)
  end.

Lemma stream_ok_known c b rs : mode c <> Unknown ->
  stream_ok c b rs <-> mode_of b = Some (mode c) /\ exists body rest f, b = preamble (mode c) ++ body /\ parses (mode c) body (mk_Reassembler ∅) rs rest f
      /\ (close_after_flush c = false -> acc c = rest /\ frag c = f /\ next (mode c) rest f = None).
Proof. unfold stream_ok. by destruct (mode c). Qed.

(** What a receive of [data] does to a connection with stream [b] and requests [rs] so far. *)
Record receives (id : nat) (l : list sqe) (b : bytes) (rs : list Request) (data : bytes) (c : Conn) (s : St) (c' : Conn) (s' : St) (q : list sqe) (cl : list Call) : Prop := {
  rv_replay : replay cl s s';
  rv_only : only (conn_id c) cl;
  rv_fields : fd c' = fd c /\ conn_id c' = conn_id c /\ tls c' = tls c /\ peer_cert c' = peer_cert c /\ open c' = open c;
  rv_bytes : sendbuf c' ++ out c' = sendbuf c ++ out c ++ replies (conn_id c) cl;
  rv_stream : stream_ok c' (b ++ data) (rs ++ requests (conn_id c) cl);
  rv_send : send_ok id c' (l ++ sends id q);
  rv_recvs : recvs id q = if close_after_flush c' then [] else [SRecv id (fd c)];
  rv_own : own id q
}.

(** From a connection whose [acc] starts the part [body] of the stream that is not parsed yet. *)
Lemma receives_handled id l b rs data c0 c s c' s' q cl close body :
  handled id l c s c' s' q cl close -> fd c = fd c0 -> conn_id c = conn_id c0 -> tls c = tls c0 -> peer_cert c = peer_cert c0 -> open c = open c0 -> sendbuf c = sendbuf c0 -> out c = out c0 ->
  mode c <> Unknown -> mode_of (b ++ data) = Some (mode c) -> b ++ data = preamble (mode c) ++ body -> parses (mode c) body (mk_Reassembler ∅) rs (acc c) (frag c) ->
  receives id l b rs data c0 s c' s' q cl.
Proof.
  intros [Hr Ho (F1 & F2 & F3 & F4 & F5 & F6) Hc Hb (rest & f & Hp & Hn) Hs Hq Hw] E1 E2 E3 E4 E5 E6 E7 Hm Hmo Hbody Hpre. rewrite E2, ?E6, ?E7 in *.
  split; try done; [split_and!; congruence | | by rewrite Hc, Hq, E1].
  apply stream_ok_known; [by rewrite F3 |]. rewrite F3. split; [done |]. exists body, rest, f. split_and!; [done | by eapply parses_trans |]. by rewrite Hc.
Qed.

Lemma on_recv_receives id l b rs data c s c' s' q :
  data <> [] -> tls c = Plain -> peer_cert c = None -> open c = true -> send_ok id c l -> close_after_flush c = false -> stream_ok c b rs ->
  on_recv id (blen data) data c s = Ok (c', s', q) -> exists cl, receives id l b rs data c s c' s' q cl.
Proof.
  intros Hd Ht Hp Ho Hs Hc Hst. unfold on_recv, tls_ingest. rewrite Ht. destruct (Z.leb_spec (blen data) 0) as [Hl |]; [unfold blen in Hl; destruct data; [done | cbn in Hl; lia] |].
  unfold blen. rewrite Nat2Z.id, firstn_all. cbn [negb]. set (c1 := set_acc (acc c ++ data) c). destruct (decide (mode c = Unknown)) as [Hm | Hm].
  - rewrite (detect_unknown c1) by done. unfold stream_ok in Hst. rewrite Hm in Hst. destruct Hst as (Hb & Ha & -> & _ & Hf). cbn [c1 acc set_acc]. rewrite Ha.
    destruct (mode_of (b ++ data)) as [m |] eqn:Emo.
    + destruct (mode_of_known _ _ Emo) as [Hmk Hbd]. destruct (serve_mode id _ s) as [[[c2 s2] q2] |] eqn:E; [| done]. cbn [mbind outcome_bind]. intros [= <- <- <-].
      apply (serve_mode_handled id l) in E as (cl & close & Hh); [| done..]. exists cl.
      eapply (receives_handled id l b [] data c _ s _ _ _ cl close); [exact Hh | done.. | exact Hbd |]. cbn. rewrite Hf. constructor.
    + intros [= <- <- <-]. exists []. destruct (own_arm_recv id c1) as (R1 & R2 & R3).
      split; try done; [constructor | by rewrite app_nil_r | | by rewrite R3, app_nil_r | by rewrite R2; cbn; rewrite Hc].
      unfold stream_ok. cbn. by rewrite Hm, Ha.
  - rewrite (detect_known c1) by done. apply stream_ok_known in Hst as (Hb & body & rest & f & -> & Hpa & Hn); [| done]. destruct (Hn Hc) as (Ha & Hf & _).
    destruct (serve_mode id c1 s) as [[[c2 s2] q2] |] eqn:E; [| done]. cbn [mbind outcome_bind]. intros [= <- <- <-].
    apply (serve_mode_handled id l) in E as (cl & close & Hh); [| done..]. exists cl.
    eapply (receives_handled id l _ rs data c c1 s _ _ _ cl close (body ++ data)); [exact Hh | done.. | by apply mode_of_app | by rewrite app_assoc |].
    cbn. rewrite Ha, Hf. by apply parses_more.
Qed.

(** ** One send *)

Lemma on_send_sends id c n c' q data :
  0 < inflight_send c -> data = armed (sendbuf c) -> 0 <= n <= blen data -> on_send id n c = Ok (c', q) ->
  take (Z.to_nat n) data ++ sendbuf c' ++ out c' = sendbuf c ++ out c /\ fd c' = fd c /\ conn_id c' = conn_id c /\ tls c' = tls c /\ peer_cert c' = peer_cert c
  /\ close_after_flush c' = close_after_flush c /\ (forall b rs, stream_ok c b rs -> stream_ok c' b rs) /\ recvs id q = [] /\ own id q
  /\ (open c' = open c /\ send_ok id c' (sends id q) \/ open c' = false /\ q = [] /\ close_after_flush c = true).
Proof.
  intros Hi -> Hn. unfold on_send. rewrite (proj2 (Z.ltb_ge _ _)) by lia. assert (Hlen : blen (armed (sendbuf c)) <= blen (sendbuf c)) by (unfold armed, blen; rewrite length_take; lia).
  rewrite (proj2 (Z.ltb_ge _ _)) by lia. set (c1 := set_bufs _ _ _ _).
  assert (Hb : take (Z.to_nat n) (armed (sendbuf c)) ++ sendbuf c1 ++ out c1 = sendbuf c ++ out c).
  { cbn. unfold armed, blen in *. rewrite take_take, Nat.min_l by (rewrite length_take in Hn; lia). by rewrite app_assoc, take_drop. }
  destruct (bool_decide (sendbuf c1 = []) && bool_decide (out c1 = []) && close_after_flush c1) eqn:E.
  - intros [= <- <-]. apply andb_true_iff in E as [_ E]. split_and!; try done. right. done.
  - intros [= Hm]. destruct (arm_arms id c1 [] c' q ltac:(by left) Hm) as [(A1 & A2 & A3 & A4 & A5 & A6 & A7 & A8 & A9) Ab As Ar Aw].
    rewrite Ab. split_and!; try done; [| by left]. intros b rs. unfold stream_ok. rewrite A3, A4, A5, A9. done.
Qed.
End Stream.

(** * Runs of the reactor *)

Section Run.
Context {St : Type} {SV : Service St} {CT : ClientTls}.

(** The reactor and its service, the operations in flight, and what each connection has sent and has
    been sent. *)
Record world := mkWorld { rc : reactor; srv : St; ops : list sqe; received : gmap Z bytes; sent : gmap Z bytes }.

Definition slot_conn (id : nat) (w : world) : option Conn := c ← conns (rc w) !! id; c.

(** [b] more for the connection in the slot. *)
Definition note (id : nat) (b : bytes) (w : world) (m : gmap Z bytes) : gmap Z bytes :=
  match slot_conn id w with Some c => <[conn_id c := default [] (m !! conn_id c) ++ b]> m | None => m end.

(** The operations in flight complete in any order, a receive with what has arrived, a send with as much as
    the socket took.  Connection numbers are not used twice.  A connection ends or fails only while it has no other
    operation in flight. *)
Inductive wstep : world -> world -> Prop :=
| step_accept w r s q listener res more seq :
    0 <= res -> received w !! seq = None -> sent w !! seq = None -> on_cqe (CAccept listener res more seq) (rc w) (srv w) = Ok (r, s, q) ->
    wstep w (mkWorld r s (ops w ++ q) (<[seq := []]> (received w)) (<[seq := []]> (sent w)))
| step_refuse w r s q listener res more seq :
    res < 0 -> on_cqe (CAccept listener res more seq) (rc w) (srv w) = Ok (r, s, q) -> wstep w (mkWorld r s (ops w ++ q) (received w) (sent w))
| step_timeout w r s q : on_cqe CTimeout (rc w) (srv w) = Ok (r, s, q) -> wstep w (mkWorld r s (ops w ++ q) (received w) (sent w))
| step_recv w l1 l2 r s q id fd data :
    ops w = l1 ++ SRecv id fd :: l2 -> data <> [] -> on_cqe (CRecv id (blen data) data) (rc w) (srv w) = Ok (r, s, q) ->
    wstep w (mkWorld r s ((l1 ++ l2) ++ q) (note id data w (received w)) (sent w))
| step_end w l1 l2 r s q id fd res :
    ops w = l1 ++ SRecv id fd :: l2 -> res <= 0 -> sends id (l1 ++ l2) = [] -> on_cqe (CRecv id res []) (rc w) (srv w) = Ok (r, s, q) ->
    wstep w (mkWorld r s ((l1 ++ l2) ++ q) (received w) (sent w))
| step_send w l1 l2 r s q id fd data n :
    ops w = l1 ++ SSend id fd data :: l2 -> 0 <= n <= blen data -> on_cqe (CSend id n) (rc w) (srv w) = Ok (r, s, q) ->
    wstep w (mkWorld r s ((l1 ++ l2) ++ q) (received w) (note id (take (Z.to_nat n) data) w (sent w)))
| step_fail w l1 l2 r s q id fd data res :
    ops w = l1 ++ SSend id fd data :: l2 -> res < 0 -> recvs id (l1 ++ l2) = [] -> on_cqe (CSend id res) (rc w) (srv w) = Ok (r, s, q) ->
    wstep w (mkWorld r s ((l1 ++ l2) ++ q) (received w) (sent w))
| step_batch w r s q : end_of_batch (rc w) (srv w) = Ok (r, s, q) -> wstep w (mkWorld r s (ops w ++ q) (received w) (sent w)).

Definition started (n : nat) (s : St) : world := mkWorld (primed n).1 s (primed n).2 ∅ ∅.

(** ** The invariant *)

(** The connection in slot [id], after the calls [cl] of the service: what it was served are the requests
    of its stream, what it was sent and what waits to be sent are the replies to them; a receive is in
    flight unless it is to close, and a send if anything waits. *)
Record conn_ok (w : world) (cl : list Call) (id : nat) (c : Conn) : Prop := {
  co_plain : tls c = Plain /\ peer_cert c = None /\ open c = true;
  co_recv : recvs id (ops w) = if close_after_flush c then [] else [SRecv id (fd c)];
  co_send : send_ok id c (sends id (ops w));
  co_stream : exists b, received w !! conn_id c = Some b /\ stream_ok c b (requests (conn_id c) cl);
  co_sent : exists b, sent w !! conn_id c = Some b /\ b ++ sendbuf c ++ out c = replies (conn_id c) cl
}.

Record inv (s0 : St) (cl : list Call) (w : world) : Prop := {
  iv_replay : replay cl s0 (srv w);
  iv_conns : forall id c, slot_conn id w = Some c -> conn_ok w cl id c;
  iv_idle : forall id, slot_conn id w = None -> recvs id (ops w) = [] /\ sends id (ops w) = [];
  iv_ids : forall i j c d, slot_conn i w = Some c -> slot_conn j w = Some d -> conn_id c = conn_id d -> i = j;
  iv_free : NoDup (free (rc w)) /\ forall i, i ∈ free (rc w) -> conns (rc w) !! i = Some None;
  iv_known : Forall (fun e => forall k, who e = Some k -> is_Some (received w !! k)) cl;
  iv_sent : forall k b, sent w !! k = Some b -> is_Some (received w !! k) /\ b `prefix_of` replies k cl
}.

Lemma only_others k k' cl : only k cl -> k' <> k -> requests k' cl = [] /\ replies k' cl = [].
Proof. intros Ho Hk. apply others_nil. eapply Forall_impl; [exact Ho |]. intros e [-> | ->]; congruence. Qed.

(** Nothing a connection needs to know changes. *)
Lemma conn_ok_other w w' cl more id c :
  recvs id (ops w') = recvs id (ops w) -> sends id (ops w') = sends id (ops w) -> received w' !! conn_id c = received w !! conn_id c -> sent w' !! conn_id c = sent w !! conn_id c ->
  requests (conn_id c) more = [] -> replies (conn_id c) more = [] -> conn_ok w cl id c -> conn_ok w' (cl ++ more) id c.
Proof.
  intros Er Es Er' Es' Hq Hp [H1 H2 H3 H4 H5]. split; [done | by rewrite Er | by rewrite Es | rewrite Er' | rewrite Es'].
  - by rewrite requests_app, Hq, app_nil_r.
  - by rewrite replies_app, Hp, app_nil_r.
Qed.

(** The connection of one slot changes, or goes; the others do not notice. *)
Lemma inv_update s0 cl w w' more id c (c' : option Conn) :
  inv s0 cl w -> slot_conn id w = Some c -> replay more (srv w) (srv w') -> only (conn_id c) more ->
  conns (rc w') = <[id := c']> (conns (rc w)) -> free (rc w') = (match c' with Some _ => free (rc w) | None => id :: free (rc w) end) ->
  (forall j, j <> id -> recvs j (ops w') = recvs j (ops w) /\ sends j (ops w') = sends j (ops w)) ->
  (forall k, k <> conn_id c -> received w' !! k = received w !! k /\ sent w' !! k = sent w !! k) -> is_Some (received w' !! conn_id c) ->
  match c' with
  | Some d => conn_id d = conn_id c /\ conn_ok w' (cl ++ more) id d
  | None => recvs id (ops w') = [] /\ sends id (ops w') = [] /\ forall b, sent w' !! conn_id c = Some b -> b `prefix_of` replies (conn_id c) (cl ++ more)
  end -> inv s0 (cl ++ more) w'.
Proof.
  intros [Hr Hc Hi Hd [Hf1 Hf2] Hk Hs] Hw Hre Ho Ec Ef Hops Hmaps Hrec Hc'.
  assert (Hid : (id < length (conns (rc w)))%nat) by (unfold slot_conn in Hw; destruct (conns (rc w) !! id) eqn:E; [by eapply lookup_lt_Some | done]).
  assert (Hsame : slot_conn id w' = c') by (unfold slot_conn; rewrite Ec, list_lookup_insert_eq by done; done).
  assert (Hother : forall j, j <> id -> slot_conn j w' = slot_conn j w) by (intros j Hj; unfold slot_conn; rewrite Ec, list_lookup_insert_ne by done; done).
  assert (Hne : forall j d, j <> id -> slot_conn j w = Some d -> conn_id d <> conn_id c) by (intros j d Hj Hjd Hid'; apply Hj; eauto).
  split.
  - by eapply replay_app.
  - intros j d Hj. destruct (decide (j = id)) as [-> | Hji]; [rewrite Hsame in Hj; rewrite Hj in Hc'; apply Hc' |]. rewrite Hother in Hj by done.
    destruct (only_others _ (conn_id d) _ Ho) as [H1 H2]; [by eapply Hne |]. destruct (Hops j Hji), (Hmaps (conn_id d)); [by eapply Hne |]. eapply conn_ok_other; eauto.
  - intros j Hj. destruct (decide (j = id)) as [-> | Hji]; [rewrite Hsame in Hj; rewrite Hj in Hc'; by destruct Hc' as (? & ? & _) |]. rewrite Hother in Hj by done. destruct (Hops j Hji) as [-> ->]. eauto.
  - intros i j d e Hdi Hej Hde. destruct (decide (i = id)) as [-> | Hii], (decide (j = id)) as [-> | Hji]; try done.
    + rewrite Hsame in Hdi. rewrite Hdi in Hc'. rewrite Hother in Hej by done. exfalso. apply (Hne j e Hji Hej). destruct Hc' as [Hcc _]. congruence.
    + rewrite Hsame in Hej. rewrite Hej in Hc'. rewrite Hother in Hdi by done. exfalso. apply (Hne i d Hii Hdi). destruct Hc' as [Hcc _]. congruence.
    + rewrite Hother in Hdi, Hej by done. eauto.
  - assert (Hfi : id ∉ free (rc w)). { intros Hin. apply Hf2 in Hin. unfold slot_conn in Hw. rewrite Hin in Hw. done. }
    rewrite Ec, Ef. destruct c' as [d |].
    + split; [done |]. intros i Hin. rewrite list_lookup_insert_ne; [by apply Hf2 | by intros ->].
    + split; [by constructor |]. intros i [-> | Hin]%elem_of_cons; [by apply list_lookup_insert_eq |]. rewrite list_lookup_insert_ne; [by apply Hf2 | by intros ->].
  - assert (Hmono : forall k, is_Some (received w !! k) -> is_Some (received w' !! k)) by (intros k Hkk; destruct (decide (k = conn_id c)) as [-> | Hkc]; [done |]; by rewrite (proj1 (Hmaps k Hkc))).
    apply Forall_app. split; [eapply Forall_impl; [exact Hk |]; cbn; eauto |]. eapply Forall_impl; [exact Ho |]. intros e [-> | ->] k [= <-]. done.
  - intros k b Hkb. destruct (decide (k = conn_id c)) as [-> | Hkc].
    + split; [done |]. destruct c' as [d |]; [| destruct Hc' as (_ & _ & Hpre); by apply Hpre]. destruct Hc' as [Hcc Hok]. destruct (co_sent _ _ _ _ Hok) as (b' & Hb' & Hbe). rewrite Hcc in *.
      rewrite Hkb in Hb'. injection Hb' as <-. rewrite <- Hbe. by eexists.
    + destruct (Hmaps k Hkc) as [E1 E2]. rewrite E2 in Hkb. rewrite E1, replies_app, (proj2 (only_others _ _ _ Ho Hkc)), app_nil_r. eauto.
Qed.

(** One operation of a slot completes, and the handler submits more for that slot. *)
Lemma ops_other id e l1 l2 q w : ops w = l1 ++ e :: l2 -> own id [e] -> own id q ->
  forall j, j <> id -> recvs j ((l1 ++ l2) ++ q) = recvs j (ops w) /\ sends j ((l1 ++ l2) ++ q) = sends j (ops w).
Proof.
  intros -> He Hq j Hj. change (e :: l2) with ([e] ++ l2). rewrite !recvs_app, !sends_app. destruct (He j Hj) as [-> ->], (Hq j Hj) as [-> ->]. by rewrite !app_nil_r.
Qed.

Lemma own_recv id fd : own id [SRecv id fd].
Proof. intros j Hj. unfold recvs, sends. cbn. by rewrite bool_decide_false. Qed.
Lemma own_send id fd data : own id [SSend id fd data].
Proof. intros j Hj. unfold recvs, sends. cbn. by rewrite bool_decide_false. Qed.
Lemma recvs_self id fd : recvs id [SRecv id fd] = [SRecv id fd] /\ sends id [SRecv id fd] = [].
Proof. unfold recvs, sends. cbn. by rewrite bool_decide_true. Qed.
Lemma sends_self id fd data : sends id [SSend id fd data] = [SSend id fd data] /\ recvs id [SSend id fd data] = [].
Proof. unfold recvs, sends. cbn. by rewrite bool_decide_true. Qed.

(** A receive that completes is the one of the connection in its slot; none other is in flight there. *)
Lemma recv_in_flight s0 cl w l1 l2 id fd : inv s0 cl w -> ops w = l1 ++ SRecv id fd :: l2 ->
  exists c, slot_conn id w = Some c /\ conns (rc w) !! id = Some (Some c) /\ conn_ok w cl id c /\ close_after_flush c = false /\ recvs id (l1 ++ l2) = [] /\ sends id (l1 ++ l2) = sends id (ops w).
Proof.
  intros Hi E. destruct (recvs_self id fd) as [R1 R2].
  assert (Hr : recvs id (ops w) = recvs id l1 ++ SRecv id fd :: recvs id l2) by (rewrite E; change (SRecv id fd :: l2) with ([SRecv id fd] ++ l2); by rewrite !recvs_app, R1).
  destruct (slot_conn id w) as [c |] eqn:Ec; [| destruct (iv_idle _ _ _ Hi _ Ec) as [H0 _]; rewrite H0 in Hr; by destruct (recvs id l1)].
  exists c. pose proof (iv_conns _ _ _ Hi _ _ Ec) as Hok. rewrite (co_recv _ _ _ _ Hok) in Hr. split_and!; try done.
  - unfold slot_conn in Ec. destruct (conns (rc w) !! id) as [[d |] |]; [by injection Ec as -> | done..].
  - destruct (close_after_flush c); [by destruct (recvs id l1) | done].
  - destruct (close_after_flush c); [by destruct (recvs id l1) |]. rewrite recvs_app. destruct (recvs id l1) as [| x l]; [by injection Hr as _ <- | injection Hr as _ Hr; by destruct l].
  - rewrite E. change (SRecv id fd :: l2) with ([SRecv id fd] ++ l2). by rewrite !sends_app, R2.
Qed.

(** A send that completes is of the buffer its connection still holds. *)
Lemma send_in_flight s0 cl w l1 l2 id fd data : inv s0 cl w -> ops w = l1 ++ SSend id fd data :: l2 ->
  exists c, slot_conn id w = Some c /\ conns (rc w) !! id = Some (Some c) /\ conn_ok w cl id c /\ 0 < inflight_send c /\ data = armed (sendbuf c) /\ sends id (l1 ++ l2) = [] /\ recvs id (l1 ++ l2) = recvs id (ops w).
Proof.
  intros Hi E. destruct (sends_self id fd data) as [R1 R2].
  assert (Hr : sends id (ops w) = sends id l1 ++ SSend id fd data :: sends id l2) by (rewrite E; change (SSend id fd data :: l2) with ([SSend id fd data] ++ l2); by rewrite !sends_app, R1).
  destruct (slot_conn id w) as [c |] eqn:Ec; [| destruct (iv_idle _ _ _ Hi _ Ec) as [_ H0]; rewrite H0 in Hr; by destruct (sends id l1)].
  exists c. pose proof (iv_conns _ _ _ Hi _ _ Ec) as Hok. destruct (co_send _ _ _ _ Hok) as [(_ & _ & _ & Hs) | (Hs1 & _ & Hs)]; rewrite Hs in Hr; [by destruct (sends id l1) |].
  assert (Hone : sends id l1 = [] /\ SSend id (Reactor.fd c) (armed (sendbuf c)) = SSend id fd data /\ sends id l2 = []).
  { destruct (sends id l1) as [| x l]; [by injection Hr as -> -> <- | injection Hr as _ Hr; by destruct l]. }
  destruct Hone as (H1 & [= _ <-] & H2). split_and!; try done.
  - unfold slot_conn in Ec. destruct (conns (rc w) !! id) as [[d |] |]; [by injection Ec as -> | done..].
  - by rewrite sends_app, H1, H2.
  - rewrite E. change (SSend id fd (armed (sendbuf c)) :: l2) with ([SSend id fd (armed (sendbuf c))] ++ l2). by rewrite !recvs_app, R2.
Qed.

(** ** The steps keep the invariant *)

(** A connection that is no longer open leaves its slot. *)
Lemma close_keeps s0 cl w w' id c c' l1 l2 e q :
  inv s0 cl w -> slot_conn id w = Some c -> conn_id c' = conn_id c -> open c' = false -> ops w = l1 ++ e :: l2 -> own id [e] -> recvs id (l1 ++ l2) = [] -> sends id (l1 ++ l2) = [] -> q = [] ->
  ops w' = (l1 ++ l2) ++ q -> (rc w', srv w') = settle id c' (srv w) (rc w) -> received w' = received w ->
  (forall k, k <> conn_id c -> sent w' !! k = sent w !! k) -> (forall b, sent w' !! conn_id c = Some b -> b `prefix_of` replies (conn_id c) cl) ->
  exists cl', inv s0 cl' w'.
Proof.
  intros Hi Hc Hid Hop E He Hr Hs -> Eo Es Erec Hother Hpre. unfold settle in Es. rewrite Hop, Hid in Es. injection Es as Erc Esv. exists (cl ++ [Gone (conn_id c)]).
  destruct (iv_conns _ _ _ Hi _ _ Hc) as [_ _ _ (b & Hb & _) _]. assert (Ho : only (conn_id c) [Gone (conn_id c)]) by (constructor; [by left | constructor]).
  apply (inv_update s0 cl w w' _ id c None Hi Hc); [rewrite Esv; by eexists | done | by rewrite Erc | by rewrite Erc | rewrite Eo; by apply (ops_other id e) | | rewrite Erec; by eexists |].
  - intros k Hk. by rewrite Erec, Hother.
  - rewrite Eo, app_nil_r. split_and!; try done. intros b' Hb'. rewrite replies_app, app_nil_r. by apply Hpre.
Qed.

Lemma recv_keeps s0 cl w l1 l2 r s q id fd data :
  inv s0 cl w -> ops w = l1 ++ SRecv id fd :: l2 -> data <> [] -> on_cqe (CRecv id (blen data) data) (rc w) (srv w) = Ok (r, s, q) ->
  exists cl', inv s0 cl' (mkWorld r s ((l1 ++ l2) ++ q) (note id data w (received w)) (sent w)).
Proof.
  intros Hi E Hd. destruct (recv_in_flight _ _ _ _ _ _ _ Hi E) as (c & Hc & Hcc & [(P1 & P2 & P3) Hrec Hsend (b & Hb & Hst) (sb & Hsb & Hse)] & Hcl & Hr & Hs).
  cbn [on_cqe]. rewrite Hcc. destruct (on_recv id _ data c (srv w)) as [[[c' s'] q'] |] eqn:Er; [| done]. cbn [mbind outcome_bind].
  apply (on_recv_receives id _ b _ data c _ _ _ _ Hd P1 P2 P3 Hsend Hcl Hst) in Er as (more & [V1 V2 (F1 & F2 & F3 & F4 & F5) V4 V5 V6 V7 V8]).
  unfold settle. rewrite F5, P3. intros [= <- <- <-]. exists (cl ++ more). unfold note. rewrite Hc, Hb. change (default [] (Some b)) with b.
  apply (inv_update s0 cl w _ more id c (Some c') Hi Hc); cbn [rc srv ops received sent conns free]; try done.
  - apply (ops_other id (SRecv id fd)); [done | apply own_recv | done].
  - intros k Hk. by rewrite lookup_insert_ne.
  - rewrite lookup_insert_eq. by eexists.
  - split; [done |]. split; cbn [rc srv ops received sent].
    + split_and!; congruence.
    + rewrite recvs_app, Hr, V7. by destruct (close_after_flush c'); rewrite ?F1.
    + by rewrite sends_app, Hs.
    + exists (b ++ data). rewrite F2, lookup_insert_eq, requests_app. done.
    + exists sb. rewrite F2. split; [done |]. by rewrite V4, replies_app, <- Hse, !app_assoc.
Qed.

Lemma end_keeps s0 cl w l1 l2 r s q id fd res :
  inv s0 cl w -> ops w = l1 ++ SRecv id fd :: l2 -> res <= 0 -> sends id (l1 ++ l2) = [] -> on_cqe (CRecv id res []) (rc w) (srv w) = Ok (r, s, q) ->
  exists cl', inv s0 cl' (mkWorld r s ((l1 ++ l2) ++ q) (received w) (sent w)).
Proof.
  intros Hi E Hres Hsn. destruct (recv_in_flight _ _ _ _ _ _ _ Hi E) as (c & Hc & Hcc & _ & _ & Hr & _).
  cbn [on_cqe]. rewrite Hcc. unfold on_recv. rewrite (proj2 (Z.leb_le _ _) Hres). cbn [mbind outcome_bind]. destruct (settle _ _ _ _) as [r' s'] eqn:Es. intros [= <- <- <-].
  apply (close_keeps s0 cl w _ id c (shut c) l1 l2 (SRecv id fd) [] Hi Hc); try done; [apply own_recv |]. intros b Hb. by apply (iv_sent _ _ _ Hi).
Qed.

Lemma send_keeps s0 cl w l1 l2 r s q id fd data n :
  inv s0 cl w -> ops w = l1 ++ SSend id fd data :: l2 -> 0 <= n <= blen data -> on_cqe (CSend id n) (rc w) (srv w) = Ok (r, s, q) ->
  exists cl', inv s0 cl' (mkWorld r s ((l1 ++ l2) ++ q) (received w) (note id (take (Z.to_nat n) data) w (sent w))).
Proof.
  intros Hi E Hn. destruct (send_in_flight _ _ _ _ _ _ _ _ Hi E) as (c & Hc & Hcc & [(P1 & P2 & P3) Hrec Hsend (b & Hb & Hst) (sb & Hsb & Hse)] & Hfl & Hdat & Hsn & Hrn).
  cbn [on_cqe]. rewrite Hcc. destruct (on_send id n c) as [[c' q'] |] eqn:Er; [| done]. cbn [mbind outcome_bind].
  destruct (on_send_sends id c n c' q' data Hfl Hdat Hn Er) as (Hby & F1 & F2 & F3 & F4 & F5 & Hstr & Hq1 & Hq2 & Hcase).
  destruct (settle id c' (srv w) (rc w)) as [r' s'] eqn:Es. intros [= <- <- <-]. unfold note. rewrite Hc, Hsb. change (default [] (Some sb)) with sb.
  assert (Hrest : (sb ++ take (Z.to_nat n) data) ++ sendbuf c' ++ out c' = replies (conn_id c) cl) by (by rewrite <- app_assoc, Hby).
  destruct Hcase as [[Ho Hok] | (Ho & -> & Hcf)].
  - unfold settle in Es. rewrite Ho, P3 in Es. injection Es as <- <-. exists (cl ++ []).
    apply (inv_update s0 cl w _ [] id c (Some c') Hi Hc); cbn [rc srv ops received sent conns free]; [done | constructor | done | done | | | by eexists |].
    + apply (ops_other id (SSend id fd data)); [done | apply own_send | done].
    + intros k Hk. by rewrite lookup_insert_ne.
    + split; [done |]. rewrite app_nil_r. split; cbn [rc srv ops received sent].
      * split_and!; congruence.
      * by rewrite recvs_app, Hrn, Hq1, app_nil_r, Hrec, F5, F1.
      * by rewrite sends_app, Hsn.
      * exists b. rewrite F2. split; [done | by apply Hstr].
      * eexists. rewrite F2, lookup_insert_eq. done.
  - apply (close_keeps s0 cl w _ id c c' l1 l2 (SSend id fd data) [] Hi Hc); try done; [apply own_send | by rewrite Hrn, Hrec, Hcf | |].
    + intros k Hk. cbn [sent]. by rewrite lookup_insert_ne.
    + intros b'. cbn [sent]. rewrite lookup_insert_eq. intros [= <-]. rewrite <- Hrest. by eexists.
Qed.

Lemma fail_keeps s0 cl w l1 l2 r s q id fd data res :
  inv s0 cl w -> ops w = l1 ++ SSend id fd data :: l2 -> res < 0 -> recvs id (l1 ++ l2) = [] -> on_cqe (CSend id res) (rc w) (srv w) = Ok (r, s, q) ->
  exists cl', inv s0 cl' (mkWorld r s ((l1 ++ l2) ++ q) (received w) (sent w)).
Proof.
  intros Hi E Hres Hrn. destruct (send_in_flight _ _ _ _ _ _ _ _ Hi E) as (c & Hc & Hcc & _ & _ & _ & Hsn & _).
  cbn [on_cqe]. rewrite Hcc. unfold on_send. rewrite (proj2 (Z.ltb_lt _ _) Hres). cbn [mbind outcome_bind]. destruct (settle _ _ _ _) as [r' s'] eqn:Es. intros [= <- <- <-].
  apply (close_keeps s0 cl w _ id c (shut c) l1 l2 (SSend id fd data) [] Hi Hc); try done; [apply own_send |]. intros b Hb. by apply (iv_sent _ _ _ Hi).
Qed.

(** A new connection in a slot that had none. *)
Lemma inv_insert s0 cl w w' id fd seq again :
  inv s0 cl w -> received w !! seq = None -> sent w !! seq = None -> slot_conn id w = None -> own id again -> recvs id again = [] -> sends id again = [] ->
  slot_conn id w' = Some (new_conn fd seq Plain) -> (forall j, j <> id -> slot_conn j w' = slot_conn j w) ->
  NoDup (free (rc w')) /\ (forall i, i ∈ free (rc w') -> conns (rc w') !! i = Some None) -> srv w' = srv w -> ops w' = ops w ++ again ++ [SRecv id fd] ->
  received w' = <[seq := []]> (received w) -> sent w' = <[seq := []]> (sent w) -> inv s0 cl w'.
Proof.
  intros [Hr Hc Hi Hd _ Hk Hs] Hrec Hsent Hid Ha1 Ha2 Ha3 Hnew Hother Hfree Esv Eops Erec Esent.
  assert (Hself : requests seq cl = [] /\ replies seq cl = []). { apply others_nil. eapply Forall_impl; [exact Hk |]. intros e He Hw. destruct (He _ Hw) as [? ?]. congruence. }
  assert (Hops : forall j, j <> id -> recvs j (ops w') = recvs j (ops w) /\ sends j (ops w') = sends j (ops w)).
  { intros j Hj. rewrite Eops, !recvs_app, !sends_app. destruct (Ha1 j Hj) as [-> ->], (own_recv id fd j Hj) as [-> ->]. by rewrite !app_nil_r. }
  assert (Hids : forall j d, slot_conn j w = Some d -> conn_id d <> seq). { intros j d Hj He. destruct (co_stream _ _ _ _ (Hc j d Hj)) as (b & Hb & _). congruence. }
  destruct (Hi id Hid) as [Hi1 Hi2], (recvs_self id fd) as [R1 R2]. split.
  - by rewrite Esv.
  - intros j d Hj. destruct (decide (j = id)) as [-> | Hji].
    + rewrite Hnew in Hj. injection Hj as <-. rewrite <- (app_nil_r cl) in Hself. split; cbn [new_conn tls peer_cert open close_after_flush conn_id Reactor.fd sendbuf out]; try done.
      * by rewrite Eops, !recvs_app, Hi1, Ha2, R1.
      * left. by rewrite Eops, !sends_app, Hi2, Ha3, R2.
      * exists []. rewrite Erec, lookup_insert_eq. destruct Hself as [Hq _]. rewrite app_nil_r in Hq. by rewrite Hq.
      * exists []. rewrite Esent, lookup_insert_eq. destruct Hself as [_ Hq]. rewrite app_nil_r in Hq. by rewrite Hq.
    + rewrite Hother in Hj by done. rewrite <- (app_nil_r cl). pose proof (Hids j d Hj). destruct (Hops j Hji).
      apply (conn_ok_other w); try done; [by rewrite Erec, lookup_insert_ne | by rewrite Esent, lookup_insert_ne | by apply Hc].
  - intros j Hj. destruct (decide (j = id)) as [-> | Hji]; [congruence |]. rewrite Hother in Hj by done. destruct (Hops j Hji) as [-> ->]. by apply Hi.
  - intros i j d e Hdi Hej Hde. destruct (decide (i = id)) as [-> | Hii], (decide (j = id)) as [-> | Hji]; [done | ..].
    + rewrite Hnew in Hdi. injection Hdi as <-. rewrite Hother in Hej by done. by destruct (Hids j e Hej).
    + rewrite Hnew in Hej. injection Hej as <-. rewrite Hother in Hdi by done. by destruct (Hids i d Hdi).
    + rewrite Hother in Hdi, Hej by done. by eapply Hd.
  - done.
  - eapply Forall_impl; [exact Hk |]. intros e He k Hw. rewrite Erec. destruct (decide (k = seq)) as [-> | Hne]; [rewrite lookup_insert_eq | rewrite lookup_insert_ne by done]; eauto.
  - intros k b. rewrite Erec, Esent. destruct (decide (k = seq)) as [-> | Hne]; [rewrite !lookup_insert_eq; intros [= <-] | rewrite !lookup_insert_ne by done; apply Hs].
    split; [by eexists | apply prefix_nil].
Qed.

Lemma accept_keeps s0 cl w r s q listener res more seq :
  initial_tls = Plain -> inv s0 cl w -> 0 <= res -> received w !! seq = None -> sent w !! seq = None -> on_cqe (CAccept listener res more seq) (rc w) (srv w) = Ok (r, s, q) ->
  inv s0 cl (mkWorld r s (ops w ++ q) (<[seq := []]> (received w)) (<[seq := []]> (sent w))).
Proof.
  intros Htls Hi Hres Hrec Hsent. cbn [on_cqe]. rewrite (proj2 (Z.ltb_ge _ _) Hres). unfold accept_conn. rewrite Htls. set (c := new_conn res seq Plain).
  set (again := if more then [] else [SAccept listener]). assert (Ha : forall id, recvs id again = [] /\ sends id again = []) by (intros id; by destruct more).
  destruct (iv_free _ _ _ Hi) as [Hf1 Hf2]. destruct (free (rc w)) as [| i fs] eqn:Ef.
  - cbn [mbind outcome_bind]. intros [= <- <- <-]. set (id := length (conns (rc w))).
    assert (Hslot : slot_conn id w = None) by (unfold slot_conn; by rewrite lookup_ge_None_2).
    apply (inv_insert s0 cl w _ id res seq again Hi); try done; [intros j _; apply Ha | apply Ha | apply Ha | | | by split; [constructor | intros i Hin; inversion Hin]].
    + unfold slot_conn. cbn [rc conns]. by rewrite lookup_app_r, Nat.sub_diag by done.
    + intros j Hj. unfold slot_conn. cbn [rc conns]. destruct (decide (j < id)%nat); [by rewrite lookup_app_l |].
      rewrite !lookup_ge_None_2; [done | unfold id in *; lia | rewrite length_app; cbn; unfold id in *; lia].
  - destruct (Nat.ltb_spec i (length (conns (rc w)))) as [Hlt |]; [| done]. cbn [mbind outcome_bind]. intros [= <- <- <-]. apply NoDup_cons in Hf1 as [Hni Hnd].
    pose proof (Hf2 i ltac:(by left)) as Hfi.
    apply (inv_insert s0 cl w _ i res seq again Hi); try done; [by unfold slot_conn; rewrite Hfi | intros j _; apply Ha | apply Ha | apply Ha | | |].
    + unfold slot_conn. cbn [rc conns]. by rewrite list_lookup_insert_eq.
    + intros j Hj. unfold slot_conn. cbn [rc conns]. by rewrite list_lookup_insert_ne.
    + split; [done |]. cbn [rc conns free]. intros j Hin. rewrite list_lookup_insert_ne by (by intros ->). apply Hf2. by right.
Qed.

(** Operations that concern no connection, and calls of none. *)
Lemma inv_no_conn s0 cl more w w' q :
  inv s0 cl w -> (forall id, recvs id q = [] /\ sends id q = []) -> replay more (srv w) (srv w') -> Forall (fun e => who e = None) more ->
  conns (rc w') = conns (rc w) -> free (rc w') = free (rc w) -> ops w' = ops w ++ q -> received w' = received w -> sent w' = sent w -> inv s0 (cl ++ more) w'.
Proof.
  intros [Hr Hc Hi Hd Hf Hk Hs] Hq Hre Hm Ec Ef Eo Er Es.
  assert (Hsl : forall id, slot_conn id w' = slot_conn id w) by (intros id; unfold slot_conn; by rewrite Ec).
  assert (Hops : forall id, recvs id (ops w') = recvs id (ops w) /\ sends id (ops w') = sends id (ops w)).
  { intros id. rewrite Eo, recvs_app, sends_app. destruct (Hq id) as [-> ->]. by rewrite !app_nil_r. }
  assert (Hnone : forall k, requests k more = [] /\ replies k more = []) by (intros k; apply others_nil; eapply Forall_impl; [exact Hm |]; intros e ->; done).
  split.
  - by eapply replay_app.
  - intros id c Hid. rewrite Hsl in Hid. destruct (Hops id), (Hnone (conn_id c)). apply (conn_ok_other w); rewrite ?Er, ?Es; try done. by apply Hc.
  - intros id. rewrite Hsl. destruct (Hops id) as [-> ->]. apply Hi.
  - intros i j c d. rewrite !Hsl. apply Hd.
  - by rewrite Ec, Ef.
  - rewrite Er. apply Forall_app. split; [done |]. eapply Forall_impl; [exact Hm |]. intros e ->. done.
  - intros k b. rewrite Er, Es, replies_app, (proj2 (Hnone k)), app_nil_r. apply Hs.
Qed.

Lemma flush_keeps s0 : forall cs pre fs fl s o rcv snt cl cs' s' q,
  inv s0 cl (mkWorld (mkReactor (pre ++ cs) fs fl) s o rcv snt) -> flush_conns (length pre) cs s = (cs', s', q) ->
  exists cl', inv s0 cl' (mkWorld (mkReactor (pre ++ cs') fs fl) s' (o ++ q) rcv snt).
Proof.
  induction cs as [| [c |] cs IH]; intros pre fs fl s o rcv snt cl cs' s' q Hi; cbn [flush_conns].
  - intros [= <- <- <-]. exists cl. rewrite app_nil_r in Hi. by rewrite !app_nil_r.
  - set (w := mkWorld _ _ _ _ _) in Hi. assert (Hc : slot_conn (length pre) w = Some c) by (unfold slot_conn; cbn [w rc conns]; by rewrite lookup_app_r, Nat.sub_diag).
    destruct (iv_conns _ _ _ Hi _ _ Hc) as [(P1 & P2 & P3) Hrec Hsend (b & Hb & Hst) (sb & Hsb & Hse)].
    assert (Hnext : forall c1 s1 q1 cl1, inv s0 cl1 (mkWorld (mkReactor (pre ++ Some c1 :: cs) fs fl) s1 (o ++ q1) rcv snt) ->
      (let '(cs, s, q') := flush_conns (S (length pre)) cs s1 in (Some c1 :: cs, s, q1 ++ q')) = (cs', s', q) ->
      exists cl', inv s0 cl' (mkWorld (mkReactor (pre ++ cs') fs fl) s' (o ++ q) rcv snt)).
    { intros c1 s1 q1 cl1 H1. destruct (flush_conns _ cs s1) as [[cs2 s2] q2] eqn:Ef. intros [= <- <- <-].
      assert (Hl : length (pre ++ [Some c1]) = S (length pre)) by (rewrite length_app; cbn; lia). rewrite <- Hl in Ef.
      destruct (IH (pre ++ [Some c1]) fs fl s1 (o ++ q1) rcv snt cl1 cs2 s2 q2) as [cl' Hcl]; [by rewrite <- app_assoc | done |]. exists cl'. by rewrite <- !app_assoc in Hcl. }
    rewrite P3. cbn [andb]. destruct (bool_decide (mode c = Binary)); [| apply (Hnext c s [] cl); by rewrite app_nil_r].
    destruct (drain_events (conn_id c) s) as [s1 evs] eqn:Ed. destruct (maybe_arm_send (length pre) (add_out evs c)) as [c1 q1] eqn:Ea. apply (Hnext c1 s1 q1 (cl ++ [Drained (conn_id c) evs])).
    destruct (arm_arms _ (add_out evs c) (sends (length pre) o) _ _ (send_before _ _ _ Hsend) Ea) as [(A1 & A2 & A3 & A4 & A5 & A6 & A7 & A8 & A9) Ab As Ar Aw].
    apply (inv_update s0 cl w _ [Drained (conn_id c) evs] (length pre) c (Some c1) Hi Hc); cbn [w rc srv ops received sent conns free]; try done.
    + by exists s1.
    + by constructor; [right |].
    + by rewrite insert_app_r_alt, Nat.sub_diag by done.
    + intros j Hj. rewrite recvs_app, sends_app. destruct (Aw j Hj) as [-> ->]. by rewrite !app_nil_r.
    + cbn in A1, A2, A3, A4, A5, A6, A7, A8, A9, Ab. split; [done |]. split; cbn [rc srv ops received sent].
      * split_and!; congruence.
      * cbn [w ops] in Hrec. by rewrite recvs_app, Ar, app_nil_r, A9, A1.
      * by rewrite sends_app.
      * exists b. rewrite A2. split; [done |]. rewrite requests_app, app_nil_r. unfold stream_ok in *. by rewrite A3, A4, A5, A9.
      * exists sb. rewrite A2, Ab, replies_app, <- Hse. split; [done |]. unfold replies. cbn. rewrite decide_True, app_nil_r by done. by rewrite !app_assoc.
  - destruct (flush_conns _ cs s) as [[cs2 s2] q2] eqn:Ef. intros [= <- <- <-]. assert (Hl : length (pre ++ [None : option Conn]) = S (length pre)) by (rewrite length_app; cbn; lia). rewrite <- Hl in Ef.
    destruct (IH (pre ++ [None]) fs fl s o rcv snt cl cs2 s2 q2) as [cl' Hcl]; [by rewrite <- app_assoc | done |]. exists cl'. by rewrite <- app_assoc in Hcl.
Qed.

Lemma wstep_keeps s0 cl w w' : initial_tls = Plain -> inv s0 cl w -> wstep w w' -> exists cl', inv s0 cl' w'.
Proof.
  intros Ht Hi. destruct 1 as [w r s q listener res more seq Hr Hf1 Hf2 E | w r s q listener res more seq Hr E | w r s q E | w l1 l2 r s q id fd data Ho Hd E | w l1 l2 r s q id fd res Ho Hr Hs E
    | w l1 l2 r s q id fd data n Ho Hn E | w l1 l2 r s q id fd data res Ho Hr Hs E | w r s q E].
  - exists cl. by eapply accept_keeps.
  - cbn [on_cqe] in E. rewrite (proj2 (Z.ltb_lt _ _) Hr) in E. injection E as <- <- <-. exists (cl ++ []). eapply (inv_no_conn s0 cl [] w _ _ Hi); try done; intros id; by destruct more.
  - injection E as <- <- <-. exists (cl ++ []). apply (inv_no_conn s0 cl [] w _ [STimeout] Hi); try done.
  - by eapply recv_keeps.
  - by eapply end_keeps.
  - by eapply send_keeps.
  - by eapply fail_keeps.
  - unfold end_of_batch in E. destruct (flush_events (rc w)).
    + destruct (on_tick (srv w)) as [s1 |] eqn:Et; [| done]. cbn [mbind outcome_bind] in E. destruct (flush_conns 0 (conns (rc w)) s1) as [[cs s2] q2] eqn:Ef. injection E as <- <- <-.
      assert (H1 : inv s0 (cl ++ [Ticked]) (mkWorld (mkReactor ([] ++ conns (rc w)) (free (rc w)) false) s1 (ops w) (received w) (sent w))).
      { apply (inv_no_conn s0 cl [Ticked] w _ [] Hi); try done; [by exists s1 | by constructor | by rewrite app_nil_r]. }
      by destruct (flush_keeps s0 _ _ _ _ _ _ _ _ _ _ _ _ H1 Ef) as [cl' Hcl]; exists cl'.
    + injection E as <- <- <-. exists (cl ++ []). apply (inv_no_conn s0 cl [] w _ [] Hi); try done.
Qed.

Lemma started_inv n s0 : inv s0 [] (started n s0).
Proof.
  assert (Ho : forall id, recvs id (ops (started n s0)) = [] /\ sends id (ops (started n s0)) = []).
  { intros id. unfold started, primed. cbn [ops snd]. rewrite recvs_app, sends_app. generalize (seq 0 n). induction l as [| i l [IH1 IH2]]; [done |].
    unfold recvs, sends in *. cbn. done. }
  split; try done. split; [constructor | intros i Hin; inversion Hin].
Qed.
End Run.


(** * The service of a member (crates/server/src/main.rs, metrics.rs) *)

(** [Metrics::prometheus] *)
Definition prometheus (requests cluster_size : Z) : bytes :=
  let nl := [b8 10] in
  bstr "# HELP bonsaigrid_requests_total Total client requests dispatched." ++ nl ++ bstr "# TYPE bonsaigrid_requests_total counter" ++ nl
  ++ bstr "bonsaigrid_requests_total " ++ nat_to_string requests ++ nl
  ++ bstr "# HELP bonsaigrid_cluster_size Number of cluster members." ++ nl ++ bstr "# TYPE bonsaigrid_cluster_size gauge" ++ nl
  ++ bstr "bonsaigrid_cluster_size " ++ nat_to_string cluster_size ++ nl.

Definition http_route (path : bytes) (cluster_size requests : Z) : Z * bytes * bytes :=
  if decide (path = bstr "/metrics") then (200, bstr "text/plain", prometheus requests cluster_size) else http_health path cluster_size.

Definition strip_prefix (p s : bytes) : option bytes := if decide (take (length p) s = p) then Some (drop (length p) s) else None.

Definition parse_promote (path : bytes) : option Z :=
  rest ← strip_prefix (bstr "/cluster/promote") path;
  q ← match strip_prefix (bstr "?dead=") rest with Some q => Some q | None => strip_prefix (bstr "/?dead=") rest end;
  parse_u64 q.

(** The view events of a change, as they are sent to a listener. *)
Definition cluster_view_push (cl : Cluster) (corr : Z) : outcome (list bytes) :=
  mv ← members_view_event (member_list_version cl) (member_tuples cl);
  mv ← set_correlation_id mv corr;
  ps ← partition_table cl;
  pv ← partitions_view_event (partition_list_version cl) ps;
  pv ← set_correlation_id pv corr;
  Ok [write_message mv; write_message pv].

Section Member.
Context {X : MapStore} {I : Iteration} {J : SerdeJson} {K : Pbkdf2}.
Context (text_match : TextKind -> bytes -> bytes -> bool) (f64_to_string : Z -> bytes) (parse_f64 : bytes -> option Z)
  (group_iter : gmap row (list entry) -> list (row * list entry)) (hll_estimate : Hll -> Z) (debug_value : FieldValue -> bytes).
Context (cfg : Cfg) (members : Z) (version : bytes).

(** The state the closures share: the server of the handlers, the principal of each connection, the counters, the
    views the member thread has sent, and what the clock reads, in milliseconds and in seconds, the [n]th time. *)
Record MemberState := mkMember {
  ms_server : Server; principals : gmap Z Principal; requests_total : Z; mc_cas : Z; views : list (Z * list MemberRec); clock : nat -> clocks * Z; reads : nat }.

Definition with_server (s : Server) (m : MemberState) : MemberState :=
  mkMember s (principals m) (requests_total m) (mc_cas m) (views m) (clock m) (S (reads m)).
Definition now (m : MemberState) : clocks * Z := clock m (reads m).

Definition serve_message (msg : bytes) (conn : Z) (cert : option bytes) (m : MemberState) : outcome (MemberState * bytes) :=
  let p := default (anonymous (cf_security cfg)) (principals m !! conn) in
  '(s, (p, reply)) ← dispatch_bytes text_match f64_to_string parse_f64 group_iter hll_estimate debug_value cfg (now m).1 msg conn cert p [] (ms_server m);
  Ok (mkMember s (<[conn := p]> (principals m)) (wrap_u64 (requests_total m + 1)) (mc_cas m) (views m) (clock m) (S (reads m)), reply).

Definition set_cluster (cl : Cluster) (s : Server) : Server :=
  mkServer (sv_store s) (sv_locks s) (sv_pn_clock s) (sv_schemas s) (sv_broker s) cl (sv_replicator s) (sv_executor s) (sv_txns s) (sv_jet s) (sv_catalog s) (sv_jobs s).

Definition serve_http (path : bytes) (m : MemberState) : outcome (MemberState * (Z * bytes * bytes)) :=
  match parse_promote path with
  | Some dead =>
    cl ← promote (sv_cluster (ms_server m)) dead;
    let s := set_cluster cl (ms_server m) in
    let s := set_replicator (send_membership cl <$> sv_replicator s) s in
    Ok (with_server s m, (200, bstr "application/json",
      bstr "{" ++ quoted (bstr "promoted") ++ bstr ":" ++ nat_to_string dead ++ bstr "," ++ quoted (bstr "partitionListVersion") ++ bstr ":"
      ++ int_to_string (partition_list_version cl) ++ bstr "}"))
  | None => Ok (m, http_route path members (requests_total m))
  end.

Definition serve_memcache (cmd : bytes) (m : MemberState) : outcome (MemberState * (bytes * bool)) :=
  let s := ms_server m in
  '(st, cas, r) ← Memcache.execute field_of (sv_schemas s) (now m).1 (now m).2 version (Memcache.parse cmd) (sv_store s) (mc_cas m);
  Ok (mkMember (set_store st s) (principals m) (requests_total m) cas (views m) (clock m) (S (reads m)), r).

Definition serve_resp (cmd : bytes) (m : MemberState) : outcome (MemberState * (bytes * bool)) :=
  let s := ms_server m in
  '(st, r) ← Resp.serve field_of (sv_schemas s) (now m).1 cmd (sv_store s); Ok (with_server (set_store st s) m, r).

Definition drain_broker (conn : Z) (m : MemberState) : MemberState * bytes :=
  let '(b, evs) := drain conn (sv_broker (ms_server m)) in (with_server (set_broker b (ms_server m)) m, concat evs).

Definition drop_connection (conn : Z) (m : MemberState) : MemberState :=
  mkMember (set_broker (drop_conn conn (sv_broker (ms_server m))) (ms_server m)) (delete conn (principals m)) (requests_total m) (mc_cas m) (views m) (clock m) (reads m).

(** The views that came, newest last, and the events of the change for every listener. *)
Fixpoint apply_views (vs : list (Z * list MemberRec)) (cl : Cluster) (applied : bool) : Cluster * bool :=
  match vs with
  | [] => (cl, applied)
  | (gen, ms) :: vs => let '(cl, a) := set_view cl gen (map info_of ms) (map r_alive ms) in apply_views vs cl (applied || a)
  end.
Fixpoint push_views (cl : Cluster) (ls : list (Z * Z)) (b : EventBroker) : outcome EventBroker :=
  match ls with
  | [] => Ok b
  | (conn, corr) :: ls => evs ← cluster_view_push cl corr; push_views cl ls (foldl (fun b ev => enqueue conn ev b) b evs)
  end.
Definition on_cluster (m : MemberState) : outcome MemberState :=
  let '(cl, applied) := apply_views (views m) (sv_cluster (ms_server m)) false in
  let s := set_cluster cl (ms_server m) in
  b ← (if applied : bool then push_views cl (cluster_view_listeners (sv_broker s)) (sv_broker s) else Ok (sv_broker s));
  Ok (mkMember (set_broker b s) (principals m) (requests_total m) (mc_cas m) [] (clock m) (reads m)).

Definition member_service : Service MemberState :=
  Build_Service MemberState serve_message serve_http serve_memcache serve_resp drain_broker drop_connection on_cluster.
End Member.

(** * A run, and what goes wrong *)

Definition plain_only : ClientTls := Build_ClientTls unit None None (fun h _ => (h, [], [], None)) (fun _ => None) (fun _ _ => false).

(** A service that answers with the request and counts its calls. *)
Definition echo : Service nat :=
  Build_Service nat (fun m _ _ n => Ok (S n, m)) (fun path n => Ok (S n, (200, bstr "text/plain", path))) (fun cmd n => Ok (S n, (cmd, bool_decide (cmd = bstr "quit" ++ CRLF))))
    (fun cmd n => Ok (S n, (cmd, false))) (fun _ n => (n, [])) (fun _ n => n) (fun n => Ok n).

(** A command that comes in two parts and an answer that leaves in two. *)
Definition half1 : bytes := bstr "*1" ++ CRLF ++ bstr "$4".
Definition half2 : bytes := CRLF ++ bstr "PING" ++ CRLF.


Section Wrong.
Context {St : Type} {SV : Service St} {CT : ClientTls}.

(** A [quit] that is answered with nothing is not followed by a send, and only the end of a send closes: the
    connection stays open with no operation in flight, and keeps its slot and its buffers for good. *)
Lemma quit_is_never_closed id fd seq s s' :
  memcache (bstr "quit" ++ CRLF) s = Ok (s', ([], true)) ->
  exists c, on_recv id 6 (bstr "quit" ++ CRLF) (new_conn fd seq Plain) s = Ok (c, s', []) /\ open c = true /\ close_after_flush c = true.
Proof.
  intros E. set (b := bstr "quit" ++ CRLF) in *. assert (E1 : mode_of b = Some Memcached) by (vm_compute; reflexivity). assert (E2 : Memcache.frame b = Have 6) by (vm_compute; reflexivity).
  assert (E3 : take 6 b = b) by (vm_compute; reflexivity). unfold on_recv. change (6 <=? 0) with false. change (Z.to_nat 6) with 6%nat. rewrite E3. unfold tls_ingest. cbn [tls new_conn negb].
  rewrite detect_unknown by done. cbn [acc set_acc new_conn app]. rewrite E1. unfold serve_mode, fuel_of. cbn [mode set_mode set_acc acc new_conn preamble length drop]. cbn [text_loop acc set_acc set_mode new_conn]. rewrite !drop_0.
  rewrite E2, E3, E. by eexists.
Qed.

(** Sixteen bytes whose second frame has a negative length, so that the message they are ends where it
    starts: the loop hands the service an empty message and takes nothing off, for ever. *)
Definition nowhere : bytes := to_le 4 10 ++ to_le 2 UNFRAGMENTED ++ to_le 4 0 ++ to_le 4 (-10) ++ to_le 2 IS_FINAL.

Lemma empty_message_for_ever fuel : forall c s, acc c = nowhere -> binary_loop fuel c s = Panic.
Proof.
  assert (E1 : message_len nowhere = Some (Ok (Some 0))) by (vm_compute; reflexivity). assert (E2 : read_u16_le nowhere 4 = Ok UNFRAGMENTED) by (vm_compute; reflexivity).
  induction fuel as [| fuel IH]; intros c s Ha; [done |]. cbn [binary_loop]. rewrite Ha, E1, E2. cbn [mbind outcome_bind]. change (Z.land UNFRAGMENTED UNFRAGMENTED =? UNFRAGMENTED) with true. cbv iota.
  destruct (dispatch _ _ _ s) as [[s' r] |]; [| done]. cbn [mbind outcome_bind]. by apply IH.
Qed.

(** A node that requires TLS accepts plain connections when it cannot create a session. *)
Lemma client_tls_falls_back : acceptor = Some Required -> handshake = None -> initial_tls = Plain.
Proof. intros H1 H2. unfold initial_tls. by rewrite H1, H2. Qed.

(** When the session has output at the end of its handshake, the socket is handed to the kernel first and the
    output is sent after that, so that it is encrypted again. *)
Lemma output_after_ktls id rbuf c hs hs' send plain :
  tls c = Handshaking hs -> hs_pump hs rbuf = (hs', send, plain, Some true) -> into_ktls hs' (fd c) = true -> send <> [] ->
  open c = true -> inflight_send c = 0 -> sendbuf c = [] -> out c = [] ->
  exists c', pump_handshake id rbuf c = (c', [SSend id (fd c) (armed send)], negb (bool_decide (acc c' = []))) /\ tls c' = Ktls.
Proof.
  intros Ht Hp Hk Hs Ho Hi Hb Hout. unfold pump_handshake. rewrite Ht, Hp. cbn [fd set_cert set_acc add_out set_tls]. rewrite Hk. cbn [open set_tls set_cert set_acc add_out]. rewrite Ho.
  unfold maybe_arm_send. cbn [inflight_send sendbuf out set_tls set_cert set_acc add_out]. rewrite Hi, Hb, Hout. cbn [Z.ltb Z.compare app]. destruct send as [| b l]; [done |]. by eexists.
Qed.
End Wrong.

(** A client sends a command and leaves while its answer is being sent.  The slot is given to the next client, and the
    completion of that send is taken for one of its own: its buffer is shorter than what was sent, and the
    reactor ends; had it bytes to send, as many of them would be lost. *)
Definition ex_accept (seq : Z) : cqe := CAccept 0 7 true seq.
Definition ex_ping : bytes := half1 ++ half2.

Lemma stale_completion_ends_reactor :
  (exists r n q, on_cqes (SV := echo) (CT := plain_only) [ex_accept 1; CRecv 0 14 ex_ping; CRecv 0 0 []; ex_accept 2] (primed 1).1 0%nat = Ok (r, n, q)
     /\ SSend 0 7 ex_ping ∈ q /\ map (option_map conn_id) (conns r) = [Some 2])
  /\ on_cqes (SV := echo) (CT := plain_only) [ex_accept 1; CRecv 0 14 ex_ping; CRecv 0 0 []; ex_accept 2; CSend 0 14] (primed 1).1 0%nat = Panic.
Proof. split; [| vm_compute; reflexivity]. do 3 eexists. split; [vm_compute; reflexivity |]. split; [| reflexivity]. rewrite list_elem_of_In. cbn. auto 10. Qed.

(** A member without backups serves a Redis client: a value is set and read back in one segment.  No principal is
    involved, although only an administrator may do anything on this member. *)
Definition locked_cfg : Cfg := mkCfg (cf_members ex_cfg) 0 [] (bstr "dev") None None (mkProvider ∅ (empty_principal (bstr "anonymous")) true).
Definition ex_resp_service : Service MemberState :=
  member_service (X := no_ext) (I := by_keys) (J := no_json) (K := toy_kdf) no_text (fun _ => []) (fun _ => None) map_to_list (fun _ => 0) (fun _ => []) locked_cfg 1 (bstr "0.1.0").
Definition ex_state : MemberState := mkMember ex_single ∅ 0 0 [] (fun n => (ex_clocks (Z.of_nat n), 1)) 0.
Definition set_and_get : bytes := RespFacts.command [bstr "SET"; bstr "k"; bstr "v"] ++ RespFacts.command [bstr "GET"; bstr "k"].

Example redis_needs_no_login :
  match on_cqes (SV := ex_resp_service) (CT := plain_only) [ex_accept 1; CRecv 0 (blen set_and_get) set_and_get] (primed 1).1 ex_state with
  | Ok (_, _, q) => q = [SRecv 0 7; SSend 0 7 (bstr "+OK" ++ CRLF ++ bstr "$1" ++ CRLF ++ bstr "v" ++ CRLF); SRecv 0 7]
  | Panic => False
  end.
Proof. vm_compute. reflexivity. Qed.
